(* ===== verification/_CoqProject ===== *)
-Q . S2P
Prelude.v
HpackInteger.v
Huffman.v
HuffmanDecode.v
StaticTable.v
HpackString.v
HpackTable.v
HpackEncoder.v
HpackDecoder.v
HpackSync.v
H2Frame.v
RustStr.v
Net.v
HttpUtil.v
Budget.v
BodyDeadline.v
H2State.v
H2Request.v
H2Recv.v
H2RecvInv.v
H2RecvFrames.v
H2RecvStep.v
H2RecvPeer.v
H2SessionConn.v
H2Send.v
H2Pump.v
H2Response.v
H2EarlyHints.v
H2Session.v
H2SessionInv.v
H2SessionRun.v
H2FieldBlockWire.v
H2Connection.v
ShardLru.v
ShardCache.v
ShardCacheInv.v
ShardCacheOps.v
ShardCacheMutate.v
ShardCacheStore.v
ShardCacheTheorems.v
FastCgi.v
FastCgiPool.v
FastCgiExchange.v
FastCgiParams.v
FastCgiResponse.v
PageMeta.v
PageStore.v
PageStoreInv.v
PageStoreOps.v
PageStorePurge.v
PageStoreRun.v
PageStoreTheorems.v
H1Codec.v
H1Chunked.v
H1Response.v
H1ResponseWire.v
H1ResponseTheorems.v
H1Head.v
H1HeadTheorems.v
H1Body.v
H1Connection.v
H1ConnectionTheorems.v
H1Segmentation.v
Acl.v
Throttle.v
ProxyProtocol.v
Qpack.v
H3Frames.v
H3FramesWire.v
H3FramesTheorems.v
H3Control.v
H3ControlTheorems.v
H3Send.v
H3SendTheorems.v
H3LocalSetup.v
H3Request.v
H3RequestTheorems.v
H3Requests.v
H3RequestsTheorems.v
