(* ===== verification/Prelude.v ===== *)
(** * Verification of httpjet

    httpjet is a web server. A connection arrives on an io_uring worker
    ([crates/httpjet/src/uring/]), possibly behind a PROXY protocol preface, and is checked
    against the access control of [crates/hj-acl/]. It speaks HTTP/1.1
    ([uring/codec.rs], [uring/mod.rs], [uring/request_body.rs]), HTTP/2 ([crates/hj-h2/]) or
    HTTP/3 ([uring/h3.rs], [uring/qpack.rs]). Request bodies are charged to one server-wide
    budget ([crates/hj-core/src/budget.rs]). A request goes through the pipeline to a
    handler, for example a FastCGI application ([crates/hj-fastcgi/]) or the page cache
    ([crates/hj-pagecache/] over the sharded cache of [crates/hj-cache/]), and the response
    is written back under flow control and send deadlines. Paths below are under [src/].

    ** Conventions

    A function of the code is a function here, with the name it has in the code. State that
    is passed by mutable reference is a record that goes in and comes out; a method that
    fails gives [result] or [option]; a panic (an [expect], an index out of range) is
    [None] where one is possible. Integers are [Z] with the wrap-around of their width
    written out ([wrap], [u8] to [u64]), octets are [Z], [HashMap]s are [gmap]s, intrusive
    lists keep their pointers, instants and durations are nanoseconds. Sockets, clocks,
    timers and handlers are what the environment chooses: lists of read results, events of
    a step, or arguments. Third-party crates are type classes with their documented
    behaviour as laws: [HttpCrate] and [HttpLaws] (http), [Httparse] and [HttparseLaws]
    (httparse), [Quinn], [QuinnRecv] and [QuinnLaws] (quinn_proto), [Zstd], the networks and
    globs of [Acl]. Each class has an instance in the development on which the examples run.

    ** Files and the code they model

    Shared:
    - [Prelude]: machine integers, octets, [result], record updates, bit strings, big-endian
      integers, sums over finite maps, the hint database [hj].
    - [RustStr]: the [str] and [u8] methods of Rust's library the code calls.
    - [Net]: [hj-core/src/net.rs]; [HttpUtil]: [hj-core/src/http_util.rs];
      [Budget]: [hj-core/src/budget.rs], also as a step relation over threads;
      [BodyDeadline]: [hj-core/src/body_deadline.rs].

    HPACK and HTTP/2 ([crates/hj-h2/src/]):
    - [HpackInteger], [Huffman], [HuffmanDecode], [StaticTable], [HpackString],
      [HpackEncoder], [HpackDecoder]: the files of [hpack/]; [HpackTable] is the table RFC
      7541 specifies, [HpackSync] the two ends of a connection together.
    - [H2Frame]: [frame.rs] and [write_field_block]; [H2State]: [server/state.rs];
      [H2Request], [H2Recv]: [server/recv.rs]; [H2Send], [H2Response], [H2EarlyHints]:
      [server/send.rs]; [H2Session]: one turn of [serve] in [server/mod.rs].
    - [H2RecvInv], [H2RecvFrames], [H2RecvStep], [H2RecvPeer], [H2SessionConn], [H2Pump],
      [H2SessionInv], [H2SessionRun], [H2FieldBlockWire], [H2Connection]: their proofs.

    HTTP/1.1 ([crates/httpjet/src/uring/]):
    - [H1Codec]: [codec.rs]; [H1Head]: heads ([mod.rs]) and a parser that has the laws of
      httparse; [H1Body]: [request_body.rs]; [H1Response]: the writers of [mod.rs];
      [H1Connection]: [handle_h1_bridged].
    - [H1Chunked], [H1ResponseWire], [H1ResponseTheorems], [H1HeadTheorems],
      [H1ConnectionTheorems], [H1Segmentation]: their proofs.

    HTTP/3 ([uring/h3.rs] and [uring/qpack.rs]):
    - [Qpack]: field sections; [H3Frames]: variable-length integers and the parser of request
      streams; [H3Control]: SETTINGS, control and critical streams; [H3Send]: pending
      responses and the pump; [H3Request]: heads, trailers and responses; [H3Requests]: the
      request streams of a connection, their deadlines and their accounting.
    - [H3FramesWire], [H3FramesTheorems], [H3ControlTheorems], [H3SendTheorems],
      [H3LocalSetup], [H3RequestTheorems], [H3RequestsTheorems]: their proofs.

    Access:
    - [Acl]: [hj-acl/src/lib.rs]; [Throttle]: [hj-acl/src/throttle.rs]; [ProxyProtocol]:
      [uring/proxy_protocol_wire.rs] and [proxy_protocol.rs].

    Caches:
    - [ShardLru], [ShardCache]: [hj-cache/src/sharded/mod.rs]; [ShardCacheInv],
      [ShardCacheOps], [ShardCacheMutate], [ShardCacheStore], [ShardCacheTheorems]: proofs.
    - [PageMeta]: [hj-pagecache/src/metablob.rs]; [PageStore]: [hj-pagecache/src/store.rs];
      [PageStoreInv], [PageStoreOps], [PageStorePurge], [PageStoreRun],
      [PageStoreTheorems]: proofs.

    FastCGI ([crates/hj-fastcgi/src/]):
    - [FastCgi]: [proto.rs] and [response.rs]; [FastCgiPool]: [pool.rs];
      [FastCgiExchange]: [handler.rs]; [FastCgiParams], [FastCgiResponse]: proofs against the
      application's side as the FastCGI specification has it.

    ** What the theorems show

    - Framing does not depend on how octets are cut into reads: HTTP/2 connections
      ([session_receives_in_order]), HTTP/1.1 connections ([connection_requests],
      [segmentation_independent]), HTTP/3 streams ([h3_segmentation], [h3_request_exact],
      [control_stream_exact]), FastCGI responses ([response_of_octets]) and the PROXY
      preface ([proxy_header_exact]).
    - What is accepted is exactly what the grammar or the RFC allows, and the request handed
      on says of its body what its framing said: [framing_exact], [head_agrees_framing],
      [h3_head_exact], [chunked] in [H1Chunked], [huffman_decode_exact].
    - The two ends of a compression context stay together: [hpack_connection_in_step],
      [qpack_section_roundtrip], [decoder_any_input].
    - Responses reach the client whole, in order and within flow control, or are visibly cut:
      [pump_streams_correct], [response_read_back], [h3_response_sent],
      [h3_response_framed], [response_faithful], [response_delivered].
    - Memory is bounded and accounted for: [session_within_bounds],
      [h3_requests_accounted], [budget_bounded], [throttle_bounded], [pool_within_cap],
      [store_never_panics].
    - Deadlines hold: [header_block_deadline_enforced], [h3_requests_expire],
      [body_deadline_progress], [slow_reader_cut_off].
    - The caches serve only what was stored, and purges are exact: [served_pages_sound],
      [purge_tags_exact], [stored_page_is_served], [hook_exactly_once].
    - A client cannot choose its address or evade a rule: [forwarded_client_unspoofable],
      [acl_most_specific].

    ** Fuel

    A loop that is not structural takes fuel. It is chosen so that it cannot run out, and the
    theorems say so or do not depend on it:
    - parsers get the length of what they parse (each turn takes an octet), as
      [decoder_loop_terminates] shows for HPACK; [drain_frames] gets the length of the
      buffer, [advance_loop] of [H1Codec] twice that and two, since a turn may only change
      the state, the HTTP/3 parsers their input's length plus what a state change needs;
    - eviction loops get the number of entries; the operations of the sharded cache are shown
      never to give [None] ([store_never_panics]);
    - the HTTP/2 scheduler gets [pump_fuel], shown enough by [pump_streams_correct];
    - the HTTP/1.1 connection ends for any fuel above the octets it will receive
      ([connection_requests]); a FastCGI response is delivered with fuel above the octets
      of the connection ([response_delivered]);
    - the HTTP/3 accept loop needs at most 257 rounds, since round 257 is refused by
      [admit_request_stream], and the reclaiming of expired requests as many as there are
      deadlines.

    ** Not modelled

    - Input and output: sockets, io_uring, accept loops, signals, reloads, TLS and kTLS, QUIC
      handshakes and datagrams, channels between runtimes, logging, metrics and telemetry.
      Their results are arguments of the models.
    - The LSAPI backend ([crates/hj-lsapi/]). Its supervisor forks and reaps processes; its
      packet codec and body scanner are pure code that this development does not cover yet.
    - Static files, whose results are those of the file system, and the file tier of the page
      store; the classification of responses, the admin protocol and the middleware of the
      page cache.
    - Response compression and the codecs of request bodies, which are third-party code.
    - The rewrite engine (regular expressions of a third-party engine), the reverse proxy (a
      third-party HTTP client), the configuration (its values are arguments) and the request
      pipeline ([dispatch] is an argument).
    - Within the components above: the [str] wrapper of the HPACK decoder, the [Date] header,
      the waiting [acquire_wait] of the budget, geographic rules, GOAWAY and egress leases of
      HTTP/3, pacing delays, and the counters that are only reported. *)

From stdpp Require Import base list gmap strings.
From Stdlib Require Import ZArith Lia.

#[global] Open Scope Z_scope.

(** ** Machine integers

    Unsigned integers are [Z] with the wrap-around of Rust's [as] casts and shifts
    written out by [u8], [u16], [u32] and [u64]; [usize] is 64 bits wide. *)

Definition wrap (w x : Z) : Z := x mod 2 ^ w.
Abbreviation u8 := (wrap 8).
Abbreviation u16 := (wrap 16).
Abbreviation u32 := (wrap 32).
Abbreviation u64 := (wrap 64).

Definition U64_MAX : Z := 2 ^ 64 - 1.

(** [u64::checked_add] *)
Definition checked_add (a b : Z) : option Z :=
  if a + b <=? U64_MAX then Some (a + b) else None.

(** [usize::saturating_add] and [usize::saturating_sub] *)
Definition saturating_add (a b : Z) : Z := Z.min (a + b) U64_MAX.
Definition saturating_sub (a b : Z) : Z := Z.max (a - b) 0.

(** A byte of a [Vec<u8>] or [&[u8]] is a [Z] in range. *)
Definition is_byte (b : Z) : Prop := 0 <= b < 256.
Abbreviation octets := (Forall is_byte).

Definition zlen {A} (l : list A) : Z := Z.of_nat (length l).

(** The octets of an ASCII string literal. *)
Definition bs (s : string) : list Z :=
  map (fun c => Z.of_N (Ascii.N_of_ascii c)) (String.list_ascii_of_string s).

Definition bytes_eqb (a b : list Z) : bool := bool_decide (a = b).

(** ** Errors as values *)

Inductive result (E A : Type) : Type :=
| Ok (a : A)
| Err (e : E).
Arguments Ok {E A} a.
Arguments Err {E A} e.

Declare Scope result_scope.
Delimit Scope result_scope with res.
Notation "'let?' x ':=' c1 'in' c2" :=
  (match c1 with Ok x => c2 | Err e => Err e end)
  (at level 10, x pattern, c1 at level 100, c2 at level 200, only parsing) : result_scope.

(** [Option::ok_or] *)
Definition ok_or {E A} (o : option A) (e : E) : result E A :=
  match o with Some a => Ok a | None => Err e end.

(** ** Codecs

    What a wire format promises its clients: reading what was written gives the value
    back and leaves what follows it on the wire. [dom] is the set of values the writer
    is used on. *)

Class Codec {A : Type} (enc : A → list Z) (dec : list Z → option (A * list Z))
    (dom : A → Prop) : Prop :=
  codec_roundtrip : ∀ a rest, dom a → dec (enc a ++ rest) = Some (a, rest).

(** ** Bit strings, most significant bit first *)

Fixpoint bits_be (n : nat) (x : Z) : list bool :=
  match n with
  | O => []
  | S n' => Z.testbit x (Z.of_nat n') :: bits_be n' x
  end.

Definition bytes_bits (l : list Z) : list bool := mjoin (bits_be 8 <$> l).

(** [to_be_bytes] of an [n]-byte integer. *)
Fixpoint to_be_bytes (n : nat) (x : Z) : list Z :=
  match n with
  | O => []
  | S n' => u8 (Z.shiftr x (8 * Z.of_nat n')) :: to_be_bytes n' x
  end.

(** [from_be_bytes] of a byte list. *)
Definition from_be_bytes (l : list Z) : Z :=
  fold_left (fun acc b => acc * 256 + b) l 0.

(** ** Record updates

    [r <| f := v |>] is [r] with the field [f] replaced. A record gets its setters from
    its [Eta] instance, which lists the fields. *)

Class Eta (R : Type) : Type := eta : R → R.
Class Setter {R T : Type} (proj : R → T) : Type := set : (T → T) → R → R.
Arguments set {R T} proj {_} f r : assert.

Ltac derive_setter :=
  match goal with
  | |- @Setter ?R ?T ?proj =>
      let f := fresh "f" in let r := fresh "r" in
      intros f r;
      let e := eval hnf in (@eta R _ r) in
      let p := eval pattern (proj r) in e in
      match p with
      | ?g _ => let t := eval cbv beta in (g (f (proj r))) in exact t
      end
  end.

Declare Scope record_scope.
Delimit Scope record_scope with record.
Notation "r <| f := v |>" := (set f (fun _ => v) r)
  (at level 1, f constr at level 9, left associativity, format "r <| f := v |>") : record_scope.

(** ** Automation *)

Create HintDb hj.

(** Turns the boolean tests among the hypotheses into arithmetic. *)
Ltac bool_hyps :=
  repeat match goal with
  | H : (_ <? _) = true |- _ => apply Z.ltb_lt in H
  | H : (_ <? _) = false |- _ => apply Z.ltb_ge in H
  | H : (_ <=? _) = true |- _ => apply Z.leb_le in H
  | H : (_ <=? _) = false |- _ => apply Z.leb_gt in H
  | H : (_ =? _) = true |- _ => apply Z.eqb_eq in H
  | H : (_ =? _) = false |- _ => apply Z.eqb_neq in H
  | H : (_ && _) = true |- _ => apply andb_true_iff in H as [? ?]
  | H : (_ || _) = false |- _ => apply orb_false_iff in H as [? ?]
  | H : bool_decide _ = true |- _ => apply bool_decide_eq_true in H
  | H : bool_decide _ = false |- _ => apply bool_decide_eq_false in H
  | H : negb _ = true |- _ => apply negb_true_iff in H
  | H : negb _ = false |- _ => apply negb_false_iff in H
  end.

(** Splits the first conditional of the goal. *)
Ltac case_if :=
  match goal with
  | |- context [if ?b then _ else _] => destruct b eqn:?
  end; bool_hyps.

(** ** Arithmetic of machine integers *)

Lemma wrap_id w x : 0 <= x < 2 ^ w → wrap w x = x.
Proof. apply Z.mod_small. Qed.

Lemma wrap_range w x : 0 <= w → 0 <= wrap w x < 2 ^ w.
Proof. intros. apply Z.mod_pos_bound, Z.pow_pos_nonneg; lia. Qed.

Lemma wrap_testbit w x i :
  0 <= w → Z.testbit (wrap w x) i = (i <? w) && Z.testbit x i.
Proof.
  intros Hw. unfold wrap. destruct (Z.ltb_spec i w).
  - destruct (Z.leb_spec 0 i).
    + by rewrite Z.mod_pow2_bits_low by lia.
    + by rewrite !Z.testbit_neg_r by lia.
  - by rewrite Z.mod_pow2_bits_high by lia.
Qed.

Lemma is_byte_u8 x : is_byte (u8 x).
Proof. apply (wrap_range 8). lia. Qed.

Lemma u8_id x : is_byte x → u8 x = x.
Proof. apply (wrap_id 8). Qed.

#[export] Hint Resolve is_byte_u8 : hj.

Lemma zlen_nonneg {A} (l : list A) : 0 <= zlen l.
Proof. unfold zlen. lia. Qed.

Lemma zlen_app {A} (l k : list A) : zlen (l ++ k) = zlen l + zlen k.
Proof. unfold zlen. rewrite length_app. lia. Qed.

Lemma zlen_cons {A} (x : A) (l : list A) : zlen (x :: l) = 1 + zlen l.
Proof. unfold zlen. simpl. lia. Qed.

Lemma zlen_take {A} n (l : list A) : zlen (take n l) = Z.min (Z.of_nat n) (zlen l).
Proof. unfold zlen. rewrite length_take. lia. Qed.

Lemma zlen_drop {A} n (l : list A) : zlen (drop n l) = Z.max (zlen l - Z.of_nat n) 0.
Proof. unfold zlen. rewrite length_drop. lia. Qed.

(** Two integers below [2 ^ n] with the same low [n] bits are equal. *)
Lemma testbit_ext_below n x y :
  0 <= x < 2 ^ n → 0 <= y < 2 ^ n →
  (∀ i, 0 <= i < n → Z.testbit x i = Z.testbit y i) → x = y.
Proof.
  intros Hx Hy H. destruct (Z.leb_spec 0 n) as [Hn|Hn]; cycle 1.
  { rewrite Z.pow_neg_r in Hx by done. lia. }
  rewrite <-(wrap_id n x), <-(wrap_id n y) by done.
  apply Z.bits_inj'. intros i Hi. rewrite !wrap_testbit by lia.
  destruct (Z.ltb_spec i n); simpl; [apply H; lia | done].
Qed.

(** The bits at and above [n] of an integer below [2 ^ n] are zero. *)
Lemma testbit_above n x i : 0 <= x < 2 ^ n → n <= i → Z.testbit x i = false.
Proof.
  intros Hx Hi. destruct (Z.leb_spec 0 n) as [Hn|Hn]; cycle 1.
  { rewrite Z.pow_neg_r in Hx by done. lia. }
  rewrite <-(wrap_id n x), wrap_testbit by lia.
  destruct (Z.ltb_spec i n); [lia|done].
Qed.

Lemma shiftl_1_sub_1 n : Z.shiftl 1 n - 1 = Z.ones n.
Proof. by rewrite Z.ones_equiv, Z.shiftl_1_l. Qed.

Lemma lor_range n x y :
  0 <= n → 0 <= x < 2 ^ n → 0 <= y < 2 ^ n → 0 <= Z.lor x y < 2 ^ n.
Proof.
  intros Hn Hx Hy. replace (Z.lor x y) with (wrap n (Z.lor x y)); [by apply wrap_range|].
  apply Z.bits_inj'. intros i Hi. rewrite wrap_testbit by done.
  destruct (Z.ltb_spec i n); [done|].
  by rewrite Z.lor_spec, (testbit_above n x), (testbit_above n y).
Qed.

Lemma land_range n x y : 0 <= n → 0 <= x < 2 ^ n → 0 <= Z.land x y < 2 ^ n.
Proof.
  intros Hn Hx. replace (Z.land x y) with (wrap n (Z.land x y)); [by apply wrap_range|].
  apply Z.bits_inj'. intros i Hi. rewrite wrap_testbit by done.
  destruct (Z.ltb_spec i n); [done|].
  by rewrite Z.land_spec, (testbit_above n x).
Qed.

Lemma is_byte_lor x y : is_byte x → is_byte y → is_byte (Z.lor x y).
Proof. by apply (lor_range 8). Qed.

Lemma is_byte_land x y : is_byte x → is_byte (Z.land x y).
Proof. by apply (land_range 8). Qed.

#[export] Hint Resolve is_byte_lor is_byte_land : hj.
#[export] Hint Extern 1 (is_byte (Zpos _)) => (unfold is_byte; lia) : hj.
#[export] Hint Extern 1 (is_byte 0) => (unfold is_byte; lia) : hj.

(** ** Bit strings *)

Lemma length_bits_be n x : length (bits_be n x) = n.
Proof. induction n; simpl; congruence. Qed.

Lemma bits_be_ext n x y :
  (∀ i, 0 <= i < Z.of_nat n → Z.testbit x i = Z.testbit y i) → bits_be n x = bits_be n y.
Proof.
  induction n as [|n IH]; intros H; simpl; [done|].
  f_equal; [apply H | apply IH; intros; apply H]; lia.
Qed.

Lemma bits_be_ext_inv n x y :
  bits_be n x = bits_be n y → ∀ i, 0 <= i < Z.of_nat n → Z.testbit x i = Z.testbit y i.
Proof.
  induction n as [|n IH]; simpl; intros H i Hi; [lia|].
  injection H as H0 H. destruct (decide (i = Z.of_nat n)) as [->|]; [done|].
  apply IH; [done|lia].
Qed.

Lemma bits_be_inj n x y :
  0 <= x < 2 ^ Z.of_nat n → 0 <= y < 2 ^ Z.of_nat n → bits_be n x = bits_be n y → x = y.
Proof. eauto using testbit_ext_below, bits_be_ext_inv. Qed.

Lemma bits_be_wrap n w x : Z.of_nat n <= w → bits_be n (wrap w x) = bits_be n x.
Proof.
  intros. apply bits_be_ext. intros i Hi. rewrite wrap_testbit by lia.
  destruct (Z.ltb_spec i w); [done|lia].
Qed.

Lemma bits_be_app n m x :
  bits_be (n + m) x = bits_be n (Z.shiftr x (Z.of_nat m)) ++ bits_be m x.
Proof.
  induction n as [|n IH]; simpl; [done|]. rewrite IH. f_equal.
  rewrite Z.shiftr_spec by lia. f_equal. lia.
Qed.

Lemma bits_be_split n k x :
  (k ≤ n)%nat →
  bits_be n x = bits_be k (Z.shiftr x (Z.of_nat (n - k))) ++ bits_be (n - k) x.
Proof.
  intros. rewrite <-(bits_be_app k). f_equal. lia.
Qed.

(** Appending the [m] low bits of [y] to an accumulator. *)
Lemma bits_be_push n m x y :
  0 <= y < 2 ^ Z.of_nat m →
  bits_be (n + m) (Z.lor (Z.shiftl x (Z.of_nat m)) y) = bits_be n x ++ bits_be m y.
Proof.
  intros Hy. rewrite bits_be_app. f_equal; apply bits_be_ext; intros i Hi.
  - rewrite Z.shiftr_spec, Z.lor_spec, Z.shiftl_spec by lia.
    rewrite (testbit_above (Z.of_nat m) y) by lia.
    rewrite orb_false_r. f_equal. lia.
  - rewrite Z.lor_spec, Z.shiftl_spec_low by lia. done.
Qed.

(** The same on a 64-bit accumulator, as long as nothing still pending is shifted out. *)
Lemma bits_be_push_u64 n m x y :
  0 <= y < 2 ^ Z.of_nat m → (n + m ≤ 64)%nat →
  bits_be (n + m) (Z.lor (u64 (Z.shiftl x (Z.of_nat m))) y) = bits_be n x ++ bits_be m y.
Proof.
  intros Hy Hnm. rewrite <-bits_be_push by done. apply bits_be_ext. intros i Hi.
  rewrite !Z.lor_spec, wrap_testbit by lia. destruct (Z.ltb_spec i 64); [done|lia].
Qed.

Lemma bits_be_ones n m : (n ≤ m)%nat → bits_be n (Z.ones (Z.of_nat m)) = replicate n true.
Proof.
  revert m. induction n as [|n IH]; intros m Hm; simpl; [done|].
  rewrite Z.ones_spec_low by lia. f_equal. apply IH. lia.
Qed.

Lemma bytes_bits_app l k : bytes_bits (l ++ k) = bytes_bits l ++ bytes_bits k.
Proof. unfold bytes_bits. by rewrite fmap_app, join_app. Qed.

Lemma bytes_bits_cons b l : bytes_bits (b :: l) = bits_be 8 b ++ bytes_bits l.
Proof. done. Qed.

Lemma length_bytes_bits l : length (bytes_bits l) = (8 * length l)%nat.
Proof.
  induction l as [|b l IH]; [done|]. rewrite bytes_bits_cons, length_app, IH, length_bits_be.
  simpl. lia.
Qed.

Lemma bytes_bits_inj l k : octets l → octets k → bytes_bits l = bytes_bits k → l = k.
Proof.
  revert k. induction l as [|b l IH]; intros [|c k] Hl Hk H;
    try (apply (f_equal length) in H; rewrite !length_bytes_bits in H; simpl in H; lia); [done|].
  inversion Hl; inversion Hk; subst. rewrite !bytes_bits_cons in H.
  apply app_inj_1 in H as [Hb Ht]; [|by rewrite !length_bits_be].
  f_equal; [by eapply (bits_be_inj 8)|auto].
Qed.

Lemma bytes_bits_to_be_bytes n x : bytes_bits (to_be_bytes n x) = bits_be (8 * n) x.
Proof.
  induction n as [|n IH]; [done|]. cbn [to_be_bytes]. rewrite bytes_bits_cons, IH.
  replace (8 * S n)%nat with (8 + 8 * n)%nat by lia. rewrite bits_be_app.
  rewrite bits_be_wrap by lia. repeat f_equal. lia.
Qed.

Lemma octets_to_be_bytes n x : octets (to_be_bytes n x).
Proof. induction n; simpl; constructor; auto with hj. Qed.

Lemma length_to_be_bytes n x : length (to_be_bytes n x) = n.
Proof. induction n; simpl; congruence. Qed.

#[export] Hint Resolve octets_to_be_bytes : hj.

Lemma from_be_bytes_app l b : from_be_bytes (l ++ [b]) = from_be_bytes l * 256 + b.
Proof. unfold from_be_bytes. by rewrite fold_left_app. Qed.

Lemma to_be_bytes_snoc n x : to_be_bytes (S n) x = to_be_bytes n (Z.shiftr x 8) ++ [u8 x].
Proof.
  induction n as [|n IH].
  - simpl. by rewrite Z.shiftr_0_r.
  - change (to_be_bytes (S (S n)) x) with
      (u8 (Z.shiftr x (8 * Z.of_nat (S n))) :: to_be_bytes (S n) x).
    rewrite IH. cbn [to_be_bytes app]. f_equal. rewrite Z.shiftr_shiftr by lia. do 2 f_equal. lia.
Qed.

Lemma bits_be_from_be_bytes l :
  octets l → bits_be (8 * length l) (from_be_bytes l) = bytes_bits l.
Proof.
  induction l as [|b l IH] using rev_ind; intros H; [done|].
  apply Forall_app in H as [Hl Hb]. inversion Hb as [|? ? Hb' _]. subst.
  rewrite from_be_bytes_app, bytes_bits_app, <-IH, length_app, bytes_bits_cons, app_nil_r by done.
  cbn [length]. replace (8 * (length l + 1))%nat with (8 * length l + 8)%nat by lia.
  rewrite <-bits_be_push by exact Hb'. apply bits_be_ext. intros i _. f_equal.
  change (Z.of_nat 8) with 8. rewrite Z.shiftl_mul_pow2 by lia. change (2 ^ 8) with 256.
  assert (Hl0 : Z.land (from_be_bytes l * 256) b = 0); [|by rewrite Z.add_nocarry_lxor, Z.lxor_lor].
  apply Z.bits_inj'. intros j Hj. rewrite Z.land_spec, Z.bits_0. change 256 with (2 ^ 8).
  destruct (Z.ltb_spec j 8);
    [by rewrite Z.mul_pow2_bits_low|by rewrite (testbit_above 8 b), andb_false_r].
Qed.

Lemma from_to_be_bytes n x : from_be_bytes (to_be_bytes n x) = x mod 2 ^ (8 * Z.of_nat n).
Proof.
  revert x. induction n as [|n IH]; intros x.
  - simpl. by rewrite Z.mod_1_r.
  - rewrite to_be_bytes_snoc, from_be_bytes_app, IH, Z.shiftr_div_pow2 by lia.
    unfold wrap. replace (8 * Z.of_nat (S n)) with (8 + 8 * Z.of_nat n) by lia.
    rewrite Z.pow_add_r, Z.rem_mul_r by lia. lia.
Qed.

Lemma from_to_be_bytes_id n x :
  0 <= x < 2 ^ (8 * Z.of_nat n) → from_be_bytes (to_be_bytes n x) = x.
Proof. intros. rewrite from_to_be_bytes. by apply Z.mod_small. Qed.

Lemma to_from_be_bytes l : octets l → to_be_bytes (length l) (from_be_bytes l) = l.
Proof.
  intros H. apply bytes_bits_inj; [apply octets_to_be_bytes|done|].
  rewrite bytes_bits_to_be_bytes. by apply bits_be_from_be_bytes.
Qed.

Lemma from_be_bytes_range l :
  octets l → 0 <= from_be_bytes l < 2 ^ (8 * zlen l).
Proof.
  induction l as [|b l IH] using rev_ind; intros H.
  - change (0 <= 0 < 1). lia.
  - apply Forall_app in H as [Hl Hb]. inversion Hb as [|? ? Hb' _]. subst.
    rewrite from_be_bytes_app, zlen_app. specialize (IH Hl).
    change (zlen [b]) with 1. pose proof (zlen_nonneg l).
    rewrite Z.mul_add_distr_l, Z.pow_add_r by lia.
    unfold is_byte in Hb'. lia.
Qed.

Lemma bytes_eqb_eq a b : bytes_eqb a b = true ↔ a = b.
Proof. apply bool_decide_eq_true. Qed.

Lemma bytes_eqb_neq a b : bytes_eqb a b = false ↔ a ≠ b.
Proof. apply bool_decide_eq_false. Qed.

Lemma bytes_eqb_refl a : bytes_eqb a a = true.
Proof. by apply bytes_eqb_eq. Qed.

Lemma octets_bs s : octets (bs s).
Proof.
  unfold bs. apply Forall_map, Forall_forall. intros c _. unfold is_byte, compose.
  pose proof (Ascii.N_ascii_bounded c). lia.
Qed.

#[export] Hint Resolve octets_bs : hj.

Lemma elem_of_insert_inv {A} (l : list A) (i : nat) (x y : A) :
  y ∈ <[i := x]> l → y = x ∨ y ∈ l.
Proof.
  intros (j & Hj)%list_elem_of_lookup. apply list_lookup_insert_Some in Hj as [(-> & -> & _)|[_ Hj]].
  - by left.
  - right. by eapply list_elem_of_lookup_2.
Qed.

(** ** Sums over a finite map

    The counters of a connection are sums over its streams, and those of a cache shard
    sums over its entries; these are the lemmas that change such a sum with the map. *)

Section sums.
Context {K A : Type} `{Countable K}.

Definition sum_map (f : A → Z) (m : gmap K A) : Z := map_fold (fun _ a n => f a + n) 0 m.

Lemma sum_map_empty f : sum_map f ∅ = 0.
Proof. apply map_fold_empty. Qed.

Lemma sum_map_insert_new f m k a :
  m !! k = None → sum_map f (<[k := a]> m) = f a + sum_map f m.
Proof. intros. unfold sum_map. rewrite map_fold_insert_L; [done| |done]. intros. lia. Qed.

Lemma sum_map_delete f m k a :
  m !! k = Some a → sum_map f m = f a + sum_map f (delete k m).
Proof.
  intros Hk. rewrite <-(sum_map_insert_new f (delete k m) k a) by apply lookup_delete_eq.
  by rewrite insert_delete_id.
Qed.

Lemma sum_map_insert f m k a a' :
  m !! k = Some a → sum_map f (<[k := a']> m) = sum_map f m - f a + f a'.
Proof.
  intros Hk. rewrite (sum_map_delete f m k a Hk), <-insert_delete_eq.
  rewrite sum_map_insert_new by apply lookup_delete_eq. lia.
Qed.

Lemma sum_map_nonneg f m : map_Forall (fun _ a => 0 <= f a) m → 0 <= sum_map f m.
Proof.
  induction m as [|k a m Hk IH] using map_ind; intros Hf; [by rewrite sum_map_empty|].
  apply map_Forall_insert in Hf as [Ha Hf]; [|done]. rewrite sum_map_insert_new by done.
  specialize (IH Hf). lia.
Qed.

Lemma sum_map_ge f m k a :
  map_Forall (fun _ a => 0 <= f a) m → m !! k = Some a → f a <= sum_map f m.
Proof.
  intros Hf Hk. rewrite (sum_map_delete f m k a Hk).
  pose proof (sum_map_nonneg f (delete k m)) as Hn. unfold sum_map in *.
  enough (0 <= map_fold (λ (_ : K) (a : A) n, f a + n) 0 (delete k m)) by lia.
  apply Hn. by apply map_Forall_delete.
Qed.

(** The sum depends on the values [f] sees. *)
Lemma sum_map_ext f m1 m2 :
  (∀ k, f <$> m1 !! k = f <$> m2 !! k) → sum_map f m1 = sum_map f m2.
Proof.
  intros He. assert (E : f <$> m1 = f <$> m2) by (apply map_eq; intros k; by rewrite !lookup_fmap).
  assert (F : ∀ m : gmap K A, sum_map f m = map_fold (fun _ x n => x + n) 0 (f <$> m)).
  { intros m. unfold sum_map. by rewrite map_fold_fmap. }
  by rewrite !F, E.
Qed.

End sums.
