(* ===== verification/HpackInteger.v ===== *)
(** * HPACK integers: [crates/hj-h2/src/hpack/integer.rs]

    The writer appends octets to [out]; the model gives the octets appended. The reader
    advances [*pos] through [buf]; the model carries [buf[*pos..]], the input still to be
    read. *)

From stdpp Require Import base list.
From Stdlib Require Import ZArith Lia.
From S2P Require Import Prelude.

Module integer.

(** The loop [while v >= 128]. A [u64] has ten groups of seven bits, so ten rounds are
    enough ([encode_tail_more_fuel]). *)
Fixpoint encode_tail (fuel : nat) (v : Z) : list Z :=
  match fuel with
  | O => []
  | S fuel' =>
      if 128 <=? v
      then Z.lor (Z.land (u8 v) 0x7f) 0x80 :: encode_tail fuel' (Z.shiftr v 7)
      else [u8 v]
  end.

Definition encode_rounds : nat := 10.

Definition encode (value prefix_bits flag : Z) : list Z :=
  let max := Z.shiftl 1 prefix_bits - 1 in
  if value <? max then [Z.lor flag (u8 value)]
  else Z.lor flag (u8 max) :: encode_tail encode_rounds (value - max).

(** The [loop]: it reads one octet a round, so it recurses on the input. *)
Fixpoint decode_tail (buf : list Z) (value shift : Z) : option (Z * list Z) :=
  match buf with
  | [] => None
  | b :: buf' =>
      if (56 <? shift) && negb (Z.land b 0x7f =? 0) then None
      else
        match checked_add value (u64 (Z.shiftl (Z.land b 0x7f) shift)) with
        | None => None
        | Some value' =>
            if Z.land b 0x80 =? 0 then Some (value', buf')
            else
              let shift' := shift + 7 in
              if 56 <? shift' then None else decode_tail buf' value' shift'
        end
  end.

Definition decode (buf : list Z) (prefix_bits : Z) : option (Z * list Z) :=
  let max := Z.shiftl 1 prefix_bits - 1 in
  match buf with
  | [] => None
  | b :: buf' =>
      let first := Z.land b max in
      if first <? max then Some (first, buf') else decode_tail buf' max 0
  end.

(** ** Lemmas *)

(** A representation flag leaves the prefix bits clear. *)
Definition flag_ok (prefix_bits flag : Z) : Prop :=
  1 <= prefix_bits <= 8 ∧ is_byte flag ∧ Z.land flag (Z.ones prefix_bits) = 0.

(** The largest value the reader accepts for a prefix: nine continuation octets carry
    63 bits. *)
Definition decodable (prefix_bits value : Z) : Prop :=
  0 <= value ∧ value - (2 ^ prefix_bits - 1) < 2 ^ 63.

Lemma land_7f x : Z.land x 0x7f = x mod 2 ^ 7.
Proof. apply (Z.land_ones x 7). lia. Qed.

Lemma cont_octet_payload v :
  Z.land (Z.lor (Z.land (u8 v) 0x7f) 0x80) 0x7f = v mod 2 ^ 7.
Proof.
  rewrite Z.land_lor_distr_l, <-Z.land_assoc, Z.land_diag.
  change (Z.land 0x80 0x7f) with 0. rewrite Z.lor_0_r, land_7f.
  unfold wrap. apply (Z.mod_mod_divide v). by exists 2.
Qed.

Lemma cont_octet_flag v : Z.land (Z.lor (Z.land (u8 v) 0x7f) 0x80) 0x80 = 0x80.
Proof.
  rewrite Z.land_lor_distr_l, <-Z.land_assoc. change (Z.land 0x7f 0x80) with 0.
  by rewrite Z.land_0_r.
Qed.

Lemma last_octet v : 0 <= v < 128 → Z.land v 0x7f = v ∧ Z.land v 0x80 = 0.
Proof.
  intros. split.
  - rewrite land_7f. by apply Z.mod_small.
  - apply Z.bits_inj'. intros i Hi. rewrite Z.land_spec, Z.bits_0.
    destruct (Z.ltb_spec i 7).
    + change 0x80 with (2 ^ 7). rewrite Z.pow2_bits_false by lia. apply andb_false_r.
    + by rewrite (testbit_above 7 v) by (simpl; lia).
Qed.

Lemma encode_tail_octets f v : octets (encode_tail f v).
Proof.
  revert v. induction f as [|f IH]; intros v; simpl; [constructor|].
  case_if; constructor; auto with hj.
Qed.

(** Fuel: below [2 ^ (7 * f)] more rounds change nothing. *)
Lemma encode_tail_more_fuel f g v :
  0 <= v < 2 ^ (7 * Z.of_nat f) → (0 < f)%nat → encode_tail (f + g) v = encode_tail f v.
Proof.
  revert v. induction f as [|f IH]; intros v Hv Hf; [lia|]. simpl. case_if; [|done].
  destruct f as [|f]; [simpl in Hv; lia|]. f_equal. apply IH; [|lia].
  rewrite Z.shiftr_div_pow2 by lia. split; [apply Z.div_pos; lia|].
  apply Z.div_lt_upper_bound; [lia|]. rewrite <-Z.pow_add_r by lia.
  eapply Z.lt_le_trans; [apply Hv|]. apply Z.pow_le_mono_r; lia.
Qed.

(** One round of the reader on a continuation octet, at round [k]. *)
Lemma decode_tail_cont k v value buf :
  (k ≤ 8)%nat →
  decode_tail (Z.lor (Z.land (u8 v) 0x7f) 0x80 :: buf) value (7 * Z.of_nat k) =
  match checked_add value (v mod 2 ^ 7 * 2 ^ (7 * Z.of_nat k)) with
  | None => None
  | Some value' =>
      if Nat.eqb k 8 then None else decode_tail buf value' (7 * Z.of_nat (S k))
  end.
Proof.
  intros Hk. cbn [decode_tail]. rewrite cont_octet_payload, cont_octet_flag.
  replace (56 <? 7 * Z.of_nat k) with false by (symmetry; apply Z.ltb_ge; lia).
  rewrite andb_false_l, Z.shiftl_mul_pow2 by lia.
  assert (Hm : 0 <= v mod 2 ^ 7 < 2 ^ 7) by (apply Z.mod_pos_bound; lia).
  assert (Hp : 0 < 2 ^ (7 * Z.of_nat k) <= 2 ^ 56).
  { split; [apply Z.pow_pos_nonneg; lia|apply Z.pow_le_mono_r; lia]. }
  rewrite (wrap_id 64) by nia. destruct (checked_add _ _) as [value'|]; [|done].
  change (128 =? 0) with false. cbv beta iota zeta.
  replace (7 * Z.of_nat k + 7) with (7 * Z.of_nat (S k)) by lia.
  destruct (Nat.eqb_spec k 8) as [->|]; [done|].
  replace (56 <? 7 * Z.of_nat (S k)) with false by (symmetry; apply Z.ltb_ge; lia). done.
Qed.

(** One round of the reader on the final octet. *)
Lemma decode_tail_last k v value buf :
  (k ≤ 8)%nat → 0 <= v < 128 →
  decode_tail (u8 v :: buf) value (7 * Z.of_nat k) =
  match checked_add value (v * 2 ^ (7 * Z.of_nat k)) with
  | None => None
  | Some value' => Some (value', buf)
  end.
Proof.
  intros Hk Hv. cbn [decode_tail]. rewrite u8_id by (unfold is_byte; lia).
  destruct (last_octet v) as [-> ->]; [lia|].
  replace (56 <? 7 * Z.of_nat k) with false by (symmetry; apply Z.ltb_ge; lia).
  rewrite andb_false_l, Z.shiftl_mul_pow2 by lia.
  assert (Hp : 0 < 2 ^ (7 * Z.of_nat k) <= 2 ^ 56).
  { split; [apply Z.pow_pos_nonneg; lia|apply Z.pow_le_mono_r; lia]. }
  by rewrite (wrap_id 64) by nia.
Qed.

Lemma checked_add_ok a b : a + b <= U64_MAX → checked_add a b = Some (a + b).
Proof. intros H. unfold checked_add. by rewrite (proj2 (Z.leb_le _ _) H). Qed.

Lemma shiftr_7_bound v n : 0 <= v < 2 ^ n → 7 <= n → 0 <= Z.shiftr v 7 < 2 ^ (n - 7).
Proof.
  intros Hv Hn. rewrite Z.shiftr_div_pow2 by lia. split; [apply Z.div_pos; lia|].
  apply Z.div_lt_upper_bound; [lia|]. rewrite <-Z.pow_add_r by lia.
  replace (7 + (n - 7)) with n by lia. lia.
Qed.

(** Splitting off the low seven bits of the value at round [k]. *)
Lemma split_7 v k :
  v * 2 ^ (7 * Z.of_nat k) =
  v mod 2 ^ 7 * 2 ^ (7 * Z.of_nat k) + Z.shiftr v 7 * 2 ^ (7 * Z.of_nat (S k)).
Proof.
  rewrite Z.shiftr_div_pow2 by lia.
  replace (7 * Z.of_nat (S k)) with (7 + 7 * Z.of_nat k) by lia.
  rewrite Z.pow_add_r by lia.
  pose proof (Z.div_mod v (2 ^ 7) ltac:(lia)). nia.
Qed.

(** Reading back what the loop wrote at round [k]. *)
Lemma decode_encode_tail f k v value rest :
  (0 < f)%nat → 0 <= v < 2 ^ (7 * Z.of_nat f) → (k ≤ 8)%nat →
  v < 2 ^ (63 - 7 * Z.of_nat k) →
  0 <= value → value + v * 2 ^ (7 * Z.of_nat k) <= U64_MAX →
  decode_tail (encode_tail f v ++ rest) value (7 * Z.of_nat k)
  = Some (value + v * 2 ^ (7 * Z.of_nat k), rest).
Proof.
  revert k v value. induction f as [|f IH]; intros k v value Hf Hv Hk Hb Hval Hsum; [lia|].
  simpl encode_tail. case_if; simpl app.
  - assert (k < 8)%nat.
    { destruct (decide (k = 8%nat)) as [->|]; [simpl in Hb; lia|lia]. }
    assert (Hf' : (0 < f)%nat) by (destruct f; [simpl in Hv; lia|lia]).
    destruct (shiftr_7_bound v (7 * Z.of_nat (S f))) as [Hv0 Hv1]; [lia..|].
    destruct (shiftr_7_bound v (63 - 7 * Z.of_nat k)) as [_ Hv2]; [lia..|].
    pose proof (Z.mod_pos_bound v (2 ^ 7) ltac:(lia)) as Hm.
    assert (0 <= v mod 2 ^ 7 * 2 ^ (7 * Z.of_nat k)) by (apply Z.mul_nonneg_nonneg; lia).
    assert (0 <= Z.shiftr v 7 * 2 ^ (7 * Z.of_nat (S k))) by (apply Z.mul_nonneg_nonneg; lia).
    rewrite decode_tail_cont by lia. rewrite (split_7 v k) in Hsum |- *.
    rewrite checked_add_ok by lia. destruct (Nat.eqb_spec k 8); [lia|].
    rewrite IH; [by rewrite Z.add_assoc|lia| |lia| |lia|lia].
    + replace (7 * Z.of_nat f) with (7 * Z.of_nat (S f) - 7) by lia. lia.
    + by replace (63 - 7 * Z.of_nat (S k)) with (63 - 7 * Z.of_nat k - 7) by lia.
  - rewrite decode_tail_last by lia. by rewrite checked_add_ok.
Qed.

(** A value that needs a tenth continuation octet is refused. *)
Lemma decode_encode_tail_large f k v value rest :
  0 <= v < 2 ^ (7 * Z.of_nat f) → (k ≤ 8)%nat → 2 ^ (63 - 7 * Z.of_nat k) <= v →
  decode_tail (encode_tail f v ++ rest) value (7 * Z.of_nat k) = None.
Proof.
  revert k v value. induction f as [|f IH]; intros k v value Hv Hk Hb.
  { assert (0 < 2 ^ (63 - 7 * Z.of_nat k)) by (apply Z.pow_pos_nonneg; lia).
    simpl in Hv. lia. }
  assert (2 ^ 7 <= 2 ^ (63 - 7 * Z.of_nat k)) by (apply Z.pow_le_mono_r; lia).
  simpl encode_tail. case_if; simpl app; [|lia].
  rewrite decode_tail_cont by lia. destruct (checked_add _ _) as [value'|]; [|done].
  destruct (Nat.eqb_spec k 8); [done|]. apply IH; [|lia|].
  - replace (7 * Z.of_nat f) with (7 * Z.of_nat (S f) - 7) by lia.
    apply shiftr_7_bound; lia.
  - rewrite Z.shiftr_div_pow2 by lia. apply Z.div_le_lower_bound; [lia|].
    rewrite <-Z.pow_add_r by lia. etransitivity; [|exact Hb]. apply Z.pow_le_mono_r; lia.
Qed.

Lemma prefix_octet flag n x :
  flag_ok n flag → 0 <= x < 2 ^ n → Z.land (Z.lor flag (u8 x)) (Z.ones n) = x.
Proof.
  intros (Hn & _ & Hf) Hx. rewrite Z.land_lor_distr_l, Hf, Z.lor_0_l.
  assert (2 ^ n <= 2 ^ 8) by (apply Z.pow_le_mono_r; lia).
  rewrite (wrap_id 8) by lia. rewrite Z.land_ones by lia. by apply Z.mod_small.
Qed.

Lemma prefix_max_bounds n : 1 <= n <= 8 → 1 <= Z.ones n <= 255 ∧ Z.ones n = 2 ^ n - 1.
Proof.
  intros. rewrite Z.ones_equiv.
  assert (2 ^ 1 <= 2 ^ n <= 2 ^ 8) by (split; apply Z.pow_le_mono_r; lia). lia.
Qed.

(** The reader on the writer's output, for every [u64]. *)
Lemma decode_encode flag n v rest :
  flag_ok n flag → 0 <= v <= U64_MAX →
  decode (encode v n flag ++ rest) n =
  if v - (2 ^ n - 1) <? 2 ^ 63 then Some (v, rest) else None.
Proof.
  intros Hf Hv. destruct (prefix_max_bounds n) as [Hm Hm']; [apply Hf|].
  unfold encode, decode. rewrite shiftl_1_sub_1. rewrite <-Hm'.
  destruct (Z.ltb_spec v (Z.ones n)) as [Hlt|Hge].
  - simpl app. cbv beta iota zeta. rewrite prefix_octet by (auto; lia).
    rewrite (proj2 (Z.ltb_lt _ _) Hlt). by destruct (Z.ltb_spec (v - Z.ones n) (2 ^ 63)); [|lia].
  - rewrite <-app_comm_cons. cbv beta iota zeta. rewrite prefix_octet by (auto; lia).
    rewrite Z.ltb_irrefl. unfold U64_MAX in Hv.
    assert (Hr : 0 <= v - Z.ones n < 2 ^ (7 * Z.of_nat encode_rounds)).
    { change (2 ^ (7 * Z.of_nat encode_rounds)) with (2 ^ 70). lia. }
    change 0 with (7 * Z.of_nat 0). destruct (Z.ltb_spec (v - Z.ones n) (2 ^ 63)).
    + rewrite decode_encode_tail; [|unfold encode_rounds; lia|done|lia|done|lia|].
      * do 2 f_equal. change (2 ^ (7 * Z.of_nat 0)) with 1. lia.
      * change (2 ^ (7 * Z.of_nat 0)) with 1. unfold U64_MAX. lia.
    + by apply decode_encode_tail_large; [|lia|].
Qed.

(** Every length of a slice is read back. *)
Lemma decode_encode_len flag n v rest :
  flag_ok n flag → 0 <= v < 2 ^ 63 → decode (encode v n flag ++ rest) n = Some (v, rest).
Proof.
  intros Hf Hv. rewrite decode_encode by (unfold U64_MAX; done || lia).
  destruct (prefix_max_bounds n) as [? ?]; [apply Hf|].
  by destruct (Z.ltb_spec (v - (2 ^ n - 1)) (2 ^ 63)); [|lia].
Qed.

Lemma encode_octets flag n v : is_byte flag → octets (encode v n flag).
Proof. intros. unfold encode. case_if; constructor; auto using encode_tail_octets with hj. Qed.

(** The integer code as a codec. *)
#[export] Instance integer_codec n flag :
  flag_ok n flag →
  Codec (fun v => encode v n flag) (fun buf => decode buf n)
    (fun v => 0 <= v <= U64_MAX ∧ v - (2 ^ n - 1) < 2 ^ 63).
Proof.
  intros Hf v rest [Hv Hd]. rewrite decode_encode by done.
  by rewrite (proj2 (Z.ltb_lt _ _) Hd).
Qed.

Lemma decode_tail_sound buf k value v rest :
  octets buf → (k ≤ 8)%nat → 0 <= value <= U64_MAX →
  decode_tail buf value (7 * Z.of_nat k) = Some (v, rest) →
  value <= v <= U64_MAX ∧
  ∃ used, buf = used ++ rest ∧ (1 ≤ length used ≤ 9 - k)%nat.
Proof.
  revert k value. induction buf as [|b buf IH]; intros k value Ho Hk Hval; [done|].
  inversion Ho as [|? ? Hb Ho']; subst. cbn [decode_tail].
  replace (56 <? 7 * Z.of_nat k) with false by (symmetry; apply Z.ltb_ge; lia).
  rewrite andb_false_l. unfold checked_add.
  pose proof (wrap_range 64 (Z.shiftl (Z.land b 127) (7 * Z.of_nat k)) ltac:(lia)).
  case_if; [|done]. case_if.
  - intros [= <- <-]. split; [lia|]. exists [b]. simpl. split; [done|lia].
  - cbv zeta. case_if; [done|]. replace (7 * Z.of_nat k + 7) with (7 * Z.of_nat (S k)) in * by lia.
    intros Hd. apply IH in Hd as (Hv & used & -> & Hu); [|done|lia|lia].
    split; [lia|]. exists (b :: used). simpl. split; [done|lia].
Qed.

(** What the reader accepts is a [u64], and it has read between one and ten octets. *)
Lemma decode_sound buf n v rest :
  octets buf → 1 <= n <= 8 → decode buf n = Some (v, rest) →
  0 <= v <= U64_MAX ∧ ∃ used, buf = used ++ rest ∧ (1 ≤ length used ≤ 10)%nat.
Proof.
  intros Ho Hn. destruct (prefix_max_bounds n Hn) as [Hm _].
  unfold decode. rewrite shiftl_1_sub_1. destruct buf as [|b buf]; [done|].
  inversion Ho as [|? ? Hb Ho']; subst. cbv zeta. case_if.
  - intros [= <- <-]. split; [|exists [b]; simpl; split; [done|lia]].
    pose proof (land_range 8 b (Z.ones n) ltac:(lia) Hb). unfold U64_MAX. lia.
  - intros Hd. apply (decode_tail_sound buf 0) in Hd as (Hv & used & -> & Hu); [|done|lia|].
    + split; [lia|]. exists (b :: used). simpl. split; [done|lia].
    + unfold U64_MAX. lia.
Qed.

(** ** Properties *)

(** Encoding any u64 as a prefix integer and decoding it gives the value back, except
    for values whose continuation needs more than 63 bits, which the decoder refuses. *)
Theorem integer_roundtrip_exact flag n v rest :
  flag_ok n flag → 0 <= v <= U64_MAX →
  decode (encode v n flag ++ rest) n =
  if v - (2 ^ n - 1) <? 2 ^ 63 then Some (v, rest) else None.
Proof. apply decode_encode. Qed.

(** RFC 7541 C.1.2 (1337 in a 5-bit prefix), and the largest [u64], which is refused. *)
Lemma integer_roundtrip_exact_witness :
  encode 1337 5 0xe0 = [0xff; 0x9a; 0x0a] ∧
  decode (encode 1337 5 0xe0 ++ [7]) 5 = Some (1337, [7]) ∧
  decode (encode U64_MAX 7 0x80 ++ []) 7 = None.
Proof.
  split_and!; [reflexivity|apply (integer_roundtrip_exact 0xe0 5 1337 [7])
              |apply (integer_roundtrip_exact 0x80 7 U64_MAX [])];
    first [by split_and!; vm_compute|by vm_compute|unfold U64_MAX; lia].
Defined.

(** Decoding any octets yields a u64, without wrap-around, from one to ten octets of
    the input. *)
Theorem integer_decode_bounded buf n v rest :
  octets buf → 1 <= n <= 8 → decode buf n = Some (v, rest) →
  0 <= v <= U64_MAX ∧ ∃ used, buf = used ++ rest ∧ (1 ≤ length used ≤ 10)%nat.
Proof. apply decode_sound. Qed.

Lemma integer_decode_bounded_witness :
  0 <= 1337 <= U64_MAX ∧ ∃ used, [0x1f; 0x9a; 0x0a; 9] = used ++ [9] ∧ (1 ≤ length used ≤ 10)%nat.
Proof.
  apply (integer_decode_bounded [0x1f; 0x9a; 0x0a; 9] 5 1337 [9]).
  - repeat constructor; discriminate.
  - lia.
  - reflexivity.
Defined.

End integer.

#[export] Hint Extern 1 (integer.flag_ok _ _) => (repeat split; vm_compute; congruence) : hj.
