(* ===== verification/Huffman.v ===== *)
(** * HPACK Huffman coding: [crates/hj-h2/src/hpack/huffman.rs], the code and the encoder

    The encoder packs the codes of the input octets most significant bit first and pads
    the last octet with ones. The fast path [fill] writes whole 32-bit words into an
    output sized beforehand; [encode_octets] is its octet-by-octet fallback. Both are
    shown to produce the one octet string whose bits are the codes followed by fewer than
    eight ones ([huff_image]). *)

From stdpp Require Import base list.
From Stdlib Require Import ZArith Lia.
From S2P Require Import Prelude.

Module huffman.

(** [(code, bit_length)] for symbols [0..=255], then EOS. *)
Definition TABLE : list (Z * Z) :=
  [
    (0x1ff8, 13); (0x7fffd8, 23); (0xfffffe2, 28); (0xfffffe3, 28); (0xfffffe4, 28);
    (0xfffffe5, 28); (0xfffffe6, 28); (0xfffffe7, 28); (0xfffffe8, 28); (0xffffea, 24);
    (0x3ffffffc, 30); (0xfffffe9, 28); (0xfffffea, 28); (0x3ffffffd, 30); (0xfffffeb, 28);
    (0xfffffec, 28); (0xfffffed, 28); (0xfffffee, 28); (0xfffffef, 28); (0xffffff0, 28);
    (0xffffff1, 28); (0xffffff2, 28); (0x3ffffffe, 30); (0xffffff3, 28); (0xffffff4, 28);
    (0xffffff5, 28); (0xffffff6, 28); (0xffffff7, 28); (0xffffff8, 28); (0xffffff9, 28);
    (0xffffffa, 28); (0xffffffb, 28); (0x14, 6); (0x3f8, 10); (0x3f9, 10);
    (0xffa, 12); (0x1ff9, 13); (0x15, 6); (0xf8, 8); (0x7fa, 11);
    (0x3fa, 10); (0x3fb, 10); (0xf9, 8); (0x7fb, 11); (0xfa, 8);
    (0x16, 6); (0x17, 6); (0x18, 6); (0x0, 5); (0x1, 5);
    (0x2, 5); (0x19, 6); (0x1a, 6); (0x1b, 6); (0x1c, 6);
    (0x1d, 6); (0x1e, 6); (0x1f, 6); (0x5c, 7); (0xfb, 8);
    (0x7ffc, 15); (0x20, 6); (0xffb, 12); (0x3fc, 10); (0x1ffa, 13);
    (0x21, 6); (0x5d, 7); (0x5e, 7); (0x5f, 7); (0x60, 7);
    (0x61, 7); (0x62, 7); (0x63, 7); (0x64, 7); (0x65, 7);
    (0x66, 7); (0x67, 7); (0x68, 7); (0x69, 7); (0x6a, 7);
    (0x6b, 7); (0x6c, 7); (0x6d, 7); (0x6e, 7); (0x6f, 7);
    (0x70, 7); (0x71, 7); (0x72, 7); (0xfc, 8); (0x73, 7);
    (0xfd, 8); (0x1ffb, 13); (0x7fff0, 19); (0x1ffc, 13); (0x3ffc, 14);
    (0x22, 6); (0x7ffd, 15); (0x3, 5); (0x23, 6); (0x4, 5);
    (0x24, 6); (0x5, 5); (0x25, 6); (0x26, 6); (0x27, 6);
    (0x6, 5); (0x74, 7); (0x75, 7); (0x28, 6); (0x29, 6);
    (0x2a, 6); (0x7, 5); (0x2b, 6); (0x76, 7); (0x2c, 6);
    (0x8, 5); (0x9, 5); (0x2d, 6); (0x77, 7); (0x78, 7);
    (0x79, 7); (0x7a, 7); (0x7b, 7); (0x7ffe, 15); (0x7fc, 11);
    (0x3ffd, 14); (0x1ffd, 13); (0xffffffc, 28); (0xfffe6, 20); (0x3fffd2, 22);
    (0xfffe7, 20); (0xfffe8, 20); (0x3fffd3, 22); (0x3fffd4, 22); (0x3fffd5, 22);
    (0x7fffd9, 23); (0x3fffd6, 22); (0x7fffda, 23); (0x7fffdb, 23); (0x7fffdc, 23);
    (0x7fffdd, 23); (0x7fffde, 23); (0xffffeb, 24); (0x7fffdf, 23); (0xffffec, 24);
    (0xffffed, 24); (0x3fffd7, 22); (0x7fffe0, 23); (0xffffee, 24); (0x7fffe1, 23);
    (0x7fffe2, 23); (0x7fffe3, 23); (0x7fffe4, 23); (0x1fffdc, 21); (0x3fffd8, 22);
    (0x7fffe5, 23); (0x3fffd9, 22); (0x7fffe6, 23); (0x7fffe7, 23); (0xffffef, 24);
    (0x3fffda, 22); (0x1fffdd, 21); (0xfffe9, 20); (0x3fffdb, 22); (0x3fffdc, 22);
    (0x7fffe8, 23); (0x7fffe9, 23); (0x1fffde, 21); (0x7fffea, 23); (0x3fffdd, 22);
    (0x3fffde, 22); (0xfffff0, 24); (0x1fffdf, 21); (0x3fffdf, 22); (0x7fffeb, 23);
    (0x7fffec, 23); (0x1fffe0, 21); (0x1fffe1, 21); (0x3fffe0, 22); (0x1fffe2, 21);
    (0x7fffed, 23); (0x3fffe1, 22); (0x7fffee, 23); (0x7fffef, 23); (0xfffea, 20);
    (0x3fffe2, 22); (0x3fffe3, 22); (0x3fffe4, 22); (0x7ffff0, 23); (0x3fffe5, 22);
    (0x3fffe6, 22); (0x7ffff1, 23); (0x3ffffe0, 26); (0x3ffffe1, 26); (0xfffeb, 20);
    (0x7fff1, 19); (0x3fffe7, 22); (0x7ffff2, 23); (0x3fffe8, 22); (0x1ffffec, 25);
    (0x3ffffe2, 26); (0x3ffffe3, 26); (0x3ffffe4, 26); (0x7ffffde, 27); (0x7ffffdf, 27);
    (0x3ffffe5, 26); (0xfffff1, 24); (0x1ffffed, 25); (0x7fff2, 19); (0x1fffe3, 21);
    (0x3ffffe6, 26); (0x7ffffe0, 27); (0x7ffffe1, 27); (0x3ffffe7, 26); (0x7ffffe2, 27);
    (0xfffff2, 24); (0x1fffe4, 21); (0x1fffe5, 21); (0x3ffffe8, 26); (0x3ffffe9, 26);
    (0xffffffd, 28); (0x7ffffe3, 27); (0x7ffffe4, 27); (0x7ffffe5, 27); (0xfffec, 20);
    (0xfffff3, 24); (0xfffed, 20); (0x1fffe6, 21); (0x3fffe9, 22); (0x1fffe7, 21);
    (0x1fffe8, 21); (0x7ffff3, 23); (0x3fffea, 22); (0x3fffeb, 22); (0x1ffffee, 25);
    (0x1ffffef, 25); (0xfffff4, 24); (0xfffff5, 24); (0x3ffffea, 26); (0x7ffff4, 23);
    (0x3ffffeb, 26); (0x7ffffe6, 27); (0x3ffffec, 26); (0x3ffffed, 26); (0x7ffffe7, 27);
    (0x7ffffe8, 27); (0x7ffffe9, 27); (0x7ffffea, 27); (0x7ffffeb, 27); (0xffffffe, 28);
    (0x7ffffec, 27); (0x7ffffed, 27); (0x7ffffee, 27); (0x7ffffef, 27); (0x7fffff0, 27);
    (0x3ffffee, 26); (0x3fffffff, 30)
  ].

Definition code_of (b : Z) : Z * Z := nth (Z.to_nat b) TABLE (0, 0).

Definition encoded_len (data : list Z) : Z :=
  let bits := fold_right (fun b n => (code_of b).2 + n) 0 data in
  (bits + 7) / 8.

(** The loop [for &b in data] of [fill]: [dst] is what is left to write, [w] what was
    written. [None] is [return false]. *)
Fixpoint fill_words (data dst : list Z) (acc nbits : Z) (w : list Z)
    : option (list Z * Z * Z * list Z) :=
  match data with
  | [] => Some (dst, acc, nbits, w)
  | b :: data' =>
      let '(code, len) := code_of b in
      let acc := Z.lor (u64 (Z.shiftl acc len)) code in
      let nbits := nbits + len in
      if 32 <=? nbits then
        let nbits := nbits - 32 in
        match dst with
        | _ :: _ :: _ :: _ :: rest =>
            fill_words data' rest acc nbits (w ++ to_be_bytes 4 (u32 (Z.shiftr acc nbits)))
        | _ => None
        end
      else fill_words data' dst acc nbits w
  end.

(** The loop [while nbits >= 8] of [fill]; every round takes an octet of [dst]. *)
Fixpoint fill_octets (dst : list Z) (acc nbits : Z) (w : list Z)
    : option (list Z * Z * list Z) :=
  if 8 <=? nbits then
    let nbits := nbits - 8 in
    match dst with
    | [] => None
    | _ :: rest => fill_octets rest acc nbits (w ++ [u8 (Z.shiftr acc nbits)])
    end
  else Some (dst, nbits, w).

(** The last octet, padded with ones. *)
Definition pad_octet (acc nbits : Z) : Z :=
  let pad := 8 - nbits in
  u8 (Z.lor (u64 (Z.shiftl acc pad)) (Z.shiftl 1 pad - 1)).

(** [Some] of the new contents of [dst] for [true]; [None] for [false], where the caller
    throws the contents away. *)
Definition fill (dst data : list Z) : option (list Z) :=
  match fill_words data dst 0 0 [] with
  | None => None
  | Some (dst, acc, nbits, w) =>
      match fill_octets dst acc nbits w with
      | None => None
      | Some (dst, nbits, w) =>
          if 0 <? nbits then
            match dst with
            | [] => None
            | _ :: rest =>
                match rest with [] => Some (w ++ [pad_octet acc nbits]) | _ => None end
            end
          else match dst with [] => Some w | _ => None end
      end
  end.

(** The loop [while nbits >= 8] of [encode_octets]; at most 37 bits are pending, so five
    rounds are enough. *)
Fixpoint drain_octets (fuel : nat) (acc nbits : Z) (out : list Z) : Z * list Z :=
  match fuel with
  | O => (nbits, out)
  | S fuel' =>
      if 8 <=? nbits then
        let nbits := nbits - 8 in
        drain_octets fuel' acc nbits (out ++ [u8 (Z.shiftr acc nbits)])
      else (nbits, out)
  end.

Fixpoint encode_octets_loop (data : list Z) (acc nbits : Z) (out : list Z)
    : Z * Z * list Z :=
  match data with
  | [] => (acc, nbits, out)
  | b :: data' =>
      let '(code, len) := code_of b in
      let acc := Z.lor (u64 (Z.shiftl acc len)) code in
      let nbits := nbits + len in
      let '(nbits, out) := drain_octets 5 acc nbits out in
      encode_octets_loop data' acc nbits out
  end.

Definition encode_octets (data : list Z) : list Z :=
  let '(acc, nbits, out) := encode_octets_loop data 0 0 [] in
  if 0 <? nbits then out ++ [pad_octet acc nbits] else out.

Definition encode_sized (data : list Z) (encoded_len : Z) : list Z :=
  match fill (replicate (Z.to_nat encoded_len) 0) data with
  | Some w => w
  | None => encode_octets data
  end.

Definition encode (data : list Z) : list Z := encode_sized data (encoded_len data).

(** ** Specification *)

Definition code_bits (b : Z) : list bool :=
  bits_be (Z.to_nat (code_of b).2) (code_of b).1.

Definition huff_bits (data : list Z) : list bool := mjoin (code_bits <$> data).

(** [w] is the padded octet string of [data] (RFC 7541 section 5.2). *)
Definition huff_image (data w : list Z) : Prop :=
  octets w ∧ ∃ pad, (pad < 8)%nat ∧ bytes_bits w = huff_bits data ++ replicate pad true.

(** ** Lemmas *)

Lemma huff_bits_cons b data : huff_bits (b :: data) = code_bits b ++ huff_bits data.
Proof. done. Qed.

Lemma huff_image_unique data w w' : huff_image data w → huff_image data w' → w = w'.
Proof.
  intros (Ho & p & Hp & Hw) (Ho' & p' & Hp' & Hw'). apply bytes_bits_inj; [done..|].
  rewrite Hw, Hw'. do 2 f_equal. apply (f_equal length) in Hw, Hw'.
  rewrite length_bytes_bits, length_app, length_replicate in Hw, Hw'. lia.
Qed.

(** The bounds of the code table, by evaluation. *)
Lemma table_bounds :
  forallb (fun '(code, len) => (0 <=? code) && (code <? 2 ^ len) && (5 <=? len) && (len <=? 30))
    TABLE = true.
Proof. vm_compute. reflexivity. Qed.

Lemma code_of_in b : is_byte b → In (code_of b) TABLE.
Proof.
  intros Hb. apply nth_In. change (length TABLE) with 257%nat. unfold is_byte in Hb. lia.
Qed.

Lemma code_of_bounds b :
  is_byte b → 0 <= (code_of b).1 < 2 ^ (code_of b).2 ∧ 5 <= (code_of b).2 <= 30.
Proof.
  intros Hb. pose proof (proj1 (forallb_forall _ _) table_bounds _ (code_of_in b Hb)) as H.
  destruct (code_of b) as [code len]. simpl in *. bool_hyps. lia.
Qed.

Lemma length_code_bits b : length (code_bits b) = Z.to_nat (code_of b).2.
Proof. apply length_bits_be. Qed.

(** Pushing a code on the accumulator appends its bits to the pending ones. *)
Lemma push_code b acc nbits :
  is_byte b → 0 <= nbits < 32 →
  let '(code, len) := code_of b in
  bits_be (Z.to_nat (nbits + len)) (Z.lor (u64 (Z.shiftl acc len)) code)
  = bits_be (Z.to_nat nbits) acc ++ code_bits b.
Proof.
  intros Hb Hn. destruct (code_of_bounds b Hb) as [Hc Hl].
  unfold code_bits. destruct (code_of b) as [code len] eqn:E. simpl in *.
  rewrite <-bits_be_push_u64, Z2Nat.id by (rewrite ?Z2Nat.id by lia; lia).
  do 2 f_equal. lia.
Qed.

(** Taking the top [8 * k] pending bits out as octets. *)
Lemma pop_octets k acc nbits :
  8 * Z.of_nat k <= nbits →
  bits_be (Z.to_nat nbits) acc =
  bytes_bits (to_be_bytes k (Z.shiftr acc (nbits - 8 * Z.of_nat k)))
    ++ bits_be (Z.to_nat (nbits - 8 * Z.of_nat k)) acc.
Proof.
  intros H. rewrite bytes_bits_to_be_bytes.
  rewrite (bits_be_split (Z.to_nat nbits) (8 * k)) by lia.
  do 3 f_equal; lia.
Qed.

Lemma pop_octet acc nbits :
  8 <= nbits →
  bits_be (Z.to_nat nbits) acc =
  bytes_bits [u8 (Z.shiftr acc (nbits - 8))] ++ bits_be (Z.to_nat (nbits - 8)) acc.
Proof.
  intros H. rewrite (pop_octets 1) by lia. simpl to_be_bytes. by rewrite Z.shiftr_0_r.
Qed.

Lemma pad_octet_bits acc nbits :
  0 < nbits < 8 →
  bytes_bits [pad_octet acc nbits]
  = bits_be (Z.to_nat nbits) acc ++ replicate (Z.to_nat (8 - nbits)) true.
Proof.
  intros H. unfold pad_octet. rewrite bytes_bits_cons, app_nil_r, bits_be_wrap by lia.
  rewrite shiftl_1_sub_1.
  set (pad := Z.to_nat (8 - nbits)). replace (8 - nbits) with (Z.of_nat pad) by lia.
  rewrite <-(bits_be_ones pad pad), <-bits_be_push_u64 by
    (try lia; rewrite Z.ones_equiv; pose proof (Z.pow_pos_nonneg 2 (Z.of_nat pad)); lia).
  by replace (Z.to_nat nbits + pad)%nat with 8%nat by lia.
Qed.

Ltac simpl_len := rewrite ?length_app, ?length_to_be_bytes, ?length_replicate; simpl.

(** The first loop of [fill]: the pending bits and the octets written so far spell the
    codes read so far, and room for all the bits is enough for it to finish. *)
Lemma fill_words_spec data dst acc nbits w :
  octets data → 0 <= nbits < 32 → octets w →
  match fill_words data dst acc nbits w with
  | Some (dst', acc', nbits', w') =>
      0 <= nbits' < 32 ∧ octets w' ∧
      (length w' + length dst' = length w + length dst)%nat ∧
      bytes_bits w' ++ bits_be (Z.to_nat nbits') acc'
      = bytes_bits w ++ bits_be (Z.to_nat nbits) acc ++ huff_bits data
  | None => (8 * length dst < Z.to_nat nbits + length (huff_bits data))%nat
  end.
Proof.
  revert dst acc nbits w. induction data as [|b data IH]; intros dst acc nbits w Hd Hn Hw; simpl.
  { change (huff_bits []) with (@nil bool). by rewrite app_nil_r. }
  inversion Hd as [|? ? Hb Hd']; subst.
  pose proof (push_code b acc nbits Hb Hn) as Hpush.
  destruct (code_of_bounds b Hb) as [Hc Hl]. rewrite huff_bits_cons.
  pose proof (length_code_bits b) as Hlen.
  destruct (code_of b) as [code len]. simpl in Hc, Hl, Hlen.
  rewrite (app_assoc (bits_be _ acc)), <-Hpush. rewrite length_app, Hlen.
  set (acc' := Z.lor _ code) in *. case_if.
  - rewrite (pop_octets 4) by lia. change (8 * Z.of_nat 4) with 32.
    destruct dst as [|? [|? [|? [|? rest]]]]; try (cbn [length]; lia).
    specialize (IH rest acc' (nbits + len - 32)
      (w ++ to_be_bytes 4 (u32 (Z.shiftr acc' (nbits + len - 32)))) Hd' ltac:(lia)).
    destruct (fill_words _ _ _ _ _) as [[[[dst' a'] n'] w']|].
    + destruct IH as (Hn' & Hw' & Hlw & Hb'); [by apply Forall_app; auto with hj|].
      split_and!; [lia..|done| |].
      * rewrite length_app, length_to_be_bytes in Hlw. cbn [length]. lia.
      * rewrite Hb', bytes_bits_app, !bytes_bits_to_be_bytes, bits_be_wrap by lia.
        by rewrite <-!app_assoc.
    + specialize (IH ltac:(apply Forall_app; auto with hj)). cbn [length]. lia.
  - specialize (IH dst acc' (nbits + len) w Hd' ltac:(lia) Hw).
    destruct (fill_words _ _ _ _ _) as [[[[dst' a'] n'] w']|]; [done|lia].
Qed.

Lemma fill_octets_spec dst acc nbits w :
  0 <= nbits → octets w →
  match fill_octets dst acc nbits w with
  | Some (dst', nbits', w') =>
      0 <= nbits' < 8 ∧ octets w' ∧
      (length w' + length dst' = length w + length dst)%nat ∧
      bytes_bits w' ++ bits_be (Z.to_nat nbits') acc
      = bytes_bits w ++ bits_be (Z.to_nat nbits) acc
  | None => (8 * length dst < Z.to_nat nbits)%nat
  end.
Proof.
  revert nbits w. induction dst as [|d dst IH]; intros nbits w Hn Hw; simpl; case_if;
    try (split_and!; auto; lia); [lia|].
  specialize (IH (nbits - 8) (w ++ [u8 (Z.shiftr acc (nbits - 8))]) ltac:(lia)
    ltac:(apply Forall_app; auto with hj)).
  destruct (fill_octets _ _ _ _) as [[[dst' n'] w']|]; [|lia].
  destruct IH as (Hn' & Hw' & Hlw & Hb'). rewrite length_app in Hlw. simpl in Hlw.
  split_and!; [lia..|done|lia|].
  rewrite Hb', (pop_octet acc nbits), bytes_bits_app by lia. by rewrite <-app_assoc.
Qed.

Lemma encoded_len_bits data :
  octets data → encoded_len data = (zlen (huff_bits data) + 7) / 8.
Proof.
  intros Hd. unfold encoded_len. do 2 f_equal.
  induction Hd as [|b data Hb Hd IH]; [done|].
  cbn [fold_right]. rewrite IH, huff_bits_cons, zlen_app. unfold zlen at 2.
  rewrite length_code_bits. destruct (code_of_bounds b Hb). lia.
Qed.

Lemma huff_image_len data w : octets data → huff_image data w → zlen w = encoded_len data.
Proof.
  intros Hd (_ & pad & Hp & Hw). rewrite encoded_len_bits by done.
  apply (f_equal length) in Hw.
  rewrite length_bytes_bits, length_app, length_replicate in Hw. unfold zlen.
  apply Z.div_unique with (7 - Z.of_nat pad); lia.
Qed.

(** [fill] succeeds exactly when [dst] has the length of the encoding, and then it has
    written the encoding. *)
Lemma fill_spec dst data :
  octets data →
  match fill dst data with
  | Some w => length w = length dst ∧ huff_image data w
  | None => zlen dst ≠ encoded_len data
  end.
Proof.
  intros Hd. rewrite encoded_len_bits by done. unfold fill.
  pose proof (fill_words_spec data dst 0 0 [] Hd ltac:(lia) (Forall_nil_2 _)) as H1.
  destruct (fill_words _ _ _ _ _) as [[[[dst1 acc] n1] w1]|]; cycle 1.
  { unfold zlen. change (Z.to_nat 0) with 0%nat in H1. intros He.
    pose proof (Z.div_mod (Z.of_nat (length (huff_bits data)) + 7) 8 ltac:(lia)).
    pose proof (Z.mod_pos_bound (Z.of_nat (length (huff_bits data)) + 7) 8 ltac:(lia)). lia. }
  destruct H1 as (Hn1 & Hw1 & Hl1 & Hb1).
  pose proof (fill_octets_spec dst1 acc n1 w1 ltac:(lia) Hw1) as H2.
  pose proof (f_equal length Hb1) as Hc1. cbn [app] in Hb1.
  rewrite !length_app, !length_bytes_bits, !length_bits_be in Hc1. cbn [length] in Hc1, Hl1.
  change (Z.to_nat 0) with 0%nat in *.
  pose proof (Z.div_mod (zlen (huff_bits data) + 7) 8 ltac:(lia)) as Hdm.
  pose proof (Z.mod_pos_bound (zlen (huff_bits data) + 7) 8 ltac:(lia)) as Hmb.
  unfold zlen in *.
  destruct (fill_octets _ _ _ _) as [[[dst2 n2] w2]|]; [|lia].
  destruct H2 as (Hn2 & Hw2 & Hl2 & Hb2).
  pose proof (f_equal length Hb2) as Hc2.
  rewrite !length_app, !length_bytes_bits, !length_bits_be in Hc2.
  rewrite Hb1 in Hb2. simpl app in Hb2. case_if.
  - destruct dst2 as [|? [|? ?]]; cbn [length] in Hl2; [lia| |lia].
    split; [rewrite length_app; simpl; lia|]. split.
    { apply Forall_app. split; [done|]. constructor; [apply is_byte_u8|done]. }
    exists (Z.to_nat (8 - n2)). split; [lia|].
    rewrite bytes_bits_app, pad_octet_bits, app_assoc by lia. by rewrite Hb2.
  - destruct dst2; cbn [length] in Hl2; [|lia]. split; [lia|]. split; [done|].
    exists 0%nat. split; [lia|]. rewrite app_nil_r, <-Hb2.
    replace n2 with 0 by lia. by rewrite app_nil_r.
Qed.

Lemma drain_octets_spec fuel acc nbits out :
  0 <= nbits < 8 * Z.of_nat fuel → octets out →
  let '(nbits', out') := drain_octets fuel acc nbits out in
  0 <= nbits' < 8 ∧ octets out' ∧
  bytes_bits out' ++ bits_be (Z.to_nat nbits') acc
  = bytes_bits out ++ bits_be (Z.to_nat nbits) acc.
Proof.
  revert nbits out. induction fuel as [|fuel IH]; intros nbits out Hn Ho; simpl; [lia|].
  case_if; [|split_and!; [lia..|done|done]].
  specialize (IH (nbits - 8) (out ++ [u8 (Z.shiftr acc (nbits - 8))]) ltac:(lia)
    ltac:(apply Forall_app; auto with hj)).
  destruct (drain_octets _ _ _ _) as [n' o']. destruct IH as (? & ? & ->).
  split_and!; [lia..|done|].
  rewrite (pop_octet acc nbits), bytes_bits_app by lia. by rewrite <-app_assoc.
Qed.

Lemma encode_octets_loop_spec data acc nbits out :
  octets data → 0 <= nbits < 8 → octets out →
  let '(acc', nbits', out') := encode_octets_loop data acc nbits out in
  0 <= nbits' < 8 ∧ octets out' ∧
  bytes_bits out' ++ bits_be (Z.to_nat nbits') acc'
  = bytes_bits out ++ bits_be (Z.to_nat nbits) acc ++ huff_bits data.
Proof.
  revert acc nbits out. induction data as [|b data IH]; intros acc nbits out Hd Hn Ho.
  { simpl. change (huff_bits []) with (@nil bool). by rewrite app_nil_r. }
  inversion Hd as [|? ? Hb Hd']; subst. cbn [encode_octets_loop].
  pose proof (push_code b acc nbits Hb ltac:(lia)) as Hpush.
  destruct (code_of_bounds b Hb) as [Hc Hl]. rewrite huff_bits_cons.
  destruct (code_of b) as [code len]. simpl in Hc, Hl.
  rewrite (app_assoc (bits_be _ acc)), <-Hpush. set (acc' := Z.lor _ code) in *.
  pose proof (drain_octets_spec 5 acc' (nbits + len) out ltac:(lia) Ho) as Hdr.
  destruct (drain_octets 5 acc' (nbits + len) out) as [n1 o1]. destruct Hdr as (Hn1 & Ho1 & Hb1).
  specialize (IH acc' n1 o1 Hd' Hn1 Ho1).
  destruct (encode_octets_loop _ _ _ _) as [[a2 n2] o2]. destruct IH as (? & ? & ->).
  split_and!; [lia..|done|]. by rewrite !app_assoc, Hb1.
Qed.

(** The octet-by-octet encoder writes the encoding. *)
Lemma encode_octets_image data : octets data → huff_image data (encode_octets data).
Proof.
  intros Hd. unfold encode_octets.
  pose proof (encode_octets_loop_spec data 0 0 [] Hd ltac:(lia) (Forall_nil_2 _)) as H.
  destruct (encode_octets_loop _ _ _ _) as [[acc n] out]. destruct H as (Hn & Ho & Hb).
  simpl in Hb. case_if; (split; [|]).
  - apply Forall_app. split; [done|]. constructor; [apply is_byte_u8|done].
  - exists (Z.to_nat (8 - n)). split; [lia|].
    rewrite bytes_bits_app, pad_octet_bits, app_assoc by lia. by rewrite Hb.
  - done.
  - exists 0%nat. split; [lia|]. rewrite app_nil_r, <-Hb. replace n with 0 by lia.
    by rewrite app_nil_r.
Qed.

(** Whatever length the caller computed, the encoding is written. *)
Lemma encode_sized_image data n : octets data → huff_image data (encode_sized data n).
Proof.
  intros Hd. unfold encode_sized.
  pose proof (fill_spec (replicate (Z.to_nat n) 0) data Hd) as H.
  destruct (fill _ _); [apply H|by apply encode_octets_image].
Qed.

Lemma encode_image data : octets data → huff_image data (encode data).
Proof. apply encode_sized_image. Qed.

Lemma encode_octets_all data : octets data → octets (encode data).
Proof. intros Hd. apply (encode_image data Hd). Qed.

Lemma zlen_encode_sized data n : octets data → zlen (encode_sized data n) = encoded_len data.
Proof. eauto using huff_image_len, encode_sized_image. Qed.

End huffman.
