(* ===== verification/HuffmanDecode.v ===== *)
(** * HPACK Huffman coding: [crates/hj-h2/src/hpack/huffman.rs], the decoder

    The decoder resolves codes of up to sixteen bits through a root table of 2^11 entries
    and sub tables of 2^5, built once from the code table, and longer codes by a binary
    search per code length. Shared statics built by [OnceLock] are constants here. The
    input slice and its index [i] are the octets still to be read. *)

From stdpp Require Import base list strings.
From Stdlib Require Import ZArith Lia Sorted.
From S2P Require Import Prelude Huffman.

Module huffman_decode.
Import huffman.

Definition ROOT_BITS : Z := 11.
Definition WIN_BITS : Z := 16.
Definition SUB_BITS : Z := WIN_BITS - ROOT_BITS.
Definition SUB_TABLE : Z := 0x8000.

Record DecodeTables : Type := {
  root : list Z;
  sub : list (list Z);
}.

(** [slots.get_mut(base..base + count)] filled with [x]: nothing when out of range. *)
Definition fill_range (l : list Z) (base count : Z) (x : Z) : list Z :=
  if base + count <=? zlen l
  then take (Z.to_nat base) l ++ replicate (Z.to_nat count) x
         ++ drop (Z.to_nat (base + count)) l
  else l.

(** One round of the loop that builds the tables. *)
Definition add_symbol (t : DecodeTables) (symbol : Z * (Z * Z)) : DecodeTables :=
  let '(sym, (code, len)) := symbol in
  if sym =? 256 then t
  else
    let entry := Z.lor (u16 (Z.shiftl len 8)) sym in
    if len <=? ROOT_BITS then
      let base := Z.shiftl code (ROOT_BITS - len) in
      {| root := fill_range (root t) base (Z.shiftl 1 (ROOT_BITS - len)) entry;
         sub := sub t |}
    else
      let i := Z.to_nat (Z.shiftr code (len - ROOT_BITS)) in
      match root t !! i with
      | None => t
      | Some slot =>
          let '(slot, t) :=
            if Z.land slot SUB_TABLE =? 0 then
              let subs := sub t ++ [replicate (Z.to_nat (Z.shiftl 1 SUB_BITS)) 0] in
              let slot := Z.lor SUB_TABLE (u16 (zlen subs - 1)) in
              (slot, {| root := <[i := slot]> (root t); sub := subs |})
            else (slot, t) in
          if len <=? WIN_BITS then
            let low := Z.land code (Z.shiftl 1 (len - ROOT_BITS) - 1) in
            let base := Z.shiftl low (WIN_BITS - len) in
            let k := Z.to_nat (Z.land slot (0xffff - SUB_TABLE)) in
            match sub t !! k with
            | None => t
            | Some s =>
                {| root := root t;
                   sub := <[k := fill_range s base (Z.shiftl 1 (WIN_BITS - len)) entry]> (sub t) |}
            end
          else t
      end.

(** [iter().enumerate()] *)
Definition enumerate {A} (l : list A) : list (Z * A) :=
  combine (Z.of_nat <$> seq 0 (length l)) l.

Definition decode_tables : DecodeTables :=
  fold_left add_symbol (enumerate TABLE)
    {| root := replicate (Z.to_nat (Z.shiftl 1 ROOT_BITS)) 0; sub := [] |}.

Definition window (acc nbits width : Z) : Z :=
  let mask := Z.shiftl 1 width - 1 in
  if width <=? nbits then Z.land (Z.shiftr acc (nbits - width)) mask
  else
    Z.land (Z.lor (u64 (Z.shiftl acc (width - nbits))) (Z.shiftl 1 (width - nbits) - 1)) mask.

(** [sort_unstable_by_key] on the code; the codes of a group are distinct. *)
Fixpoint insert_by_code (x : Z * Z) (l : list (Z * Z)) : list (Z * Z) :=
  match l with
  | [] => [x]
  | y :: l' => if x.1 <? y.1 then x :: l else y :: insert_by_code x l'
  end.

Definition sort_by_code (l : list (Z * Z)) : list (Z * Z) := fold_right insert_by_code [] l.

(** The codes longer than [WIN_BITS], grouped by length and sorted by code. *)
Definition long_table : list (list (Z * Z)) :=
  sort_by_code <$>
    fold_left
      (fun groups '(sym, (code, len)) =>
         if len <=? WIN_BITS then groups
         else alter (fun g => g ++ [(code, sym)]) (Z.to_nat (len - WIN_BITS - 1)) groups)
      (enumerate TABLE) (replicate (Z.to_nat (30 - WIN_BITS)) []).

(** [binary_search_by_key]: the standard library's halving search, which keeps the last
    element not above the key; [fuel] rounds halve [size] down to one. *)
Fixpoint bsearch_base (fuel : nat) (g : list (Z * Z)) (code : Z) (base size : nat) : nat :=
  match fuel with
  | O => base
  | S fuel' =>
      if (1 <? size)%nat then
        let half := Nat.div2 size in
        let mid := (base + half)%nat in
        let base := if code <? (nth mid g (0, 0)).1 then base else mid in
        bsearch_base fuel' g code base (size - half)
      else base
  end.

(** The symbol of the entry found, if any. *)
Definition binary_search (g : list (Z * Z)) (code : Z) : option Z :=
  match g !! bsearch_base (length g) g code 0 (length g) with
  | Some (c, sym) => if c =? code then Some sym else None
  | None => None
  end.

(** The loop [for len in (WIN_BITS + 1)..=30], over the lengths left. *)
Fixpoint decode_long_from (lens : list Z) (acc nbits : Z) : option (Z * Z) :=
  match lens with
  | [] => None
  | len :: lens' =>
      if nbits <? len then None
      else
        let code := Z.land (Z.shiftr acc (nbits - len)) (Z.shiftl 1 len - 1) in
        match binary_search (nth (Z.to_nat (len - WIN_BITS - 1)) long_table []) code with
        | Some sym => Some (sym, len)
        | None => decode_long_from lens' acc nbits
        end
  end.

Definition long_lens : list Z := Z.of_nat <$> seq 17 14.

Definition decode_long (acc nbits : Z) : option (Z * Z) :=
  decode_long_from long_lens acc nbits.

(** The loop [while nbits <= 48] with an octet left. *)
Fixpoint refill_octets (data : list Z) (acc nbits : Z) : list Z * Z * Z :=
  match data with
  | byte :: data' =>
      if nbits <=? 48
      then refill_octets data' (Z.lor (u64 (Z.shiftl acc 8)) byte) (nbits + 8)
      else (data, acc, nbits)
  | [] => (data, acc, nbits)
  end.

Definition refill (data : list Z) (acc nbits : Z) : list Z * Z * Z :=
  if nbits <=? 32 then
    match data with
    | a :: b :: c :: d :: data' =>
        (data', Z.lor (u64 (Z.shiftl acc 32)) (from_be_bytes [a; b; c; d]), nbits + 32)
    | _ => refill_octets data acc nbits
    end
  else (data, acc, nbits).

(** The table entry for the next bits, 0 when no short code matches. *)
Definition lookup_entry (t : DecodeTables) (acc nbits : Z) : Z :=
  let e := nth (Z.to_nat (window acc nbits ROOT_BITS)) (root t) 0 in
  if negb (Z.land e SUB_TABLE =? 0) then
    let w := Z.land (window acc nbits WIN_BITS) (Z.shiftl 1 SUB_BITS - 1) in
    nth (Z.to_nat w) (nth (Z.to_nat (Z.land e (0xffff - SUB_TABLE))) (sub t) []) 0
  else e.

(** The main [loop]; [Some] of the accumulator, its bit count and the output on [break],
    [None] on [return None]. Every round but the last takes at least one bit, so the fuel
    of [decode_into_limited] is enough ([decode_loop_fuel]). *)
Fixpoint decode_loop (fuel : nat) (data : list Z) (acc nbits : Z) (out : list Z)
    (max_output : Z) : option (Z * Z * list Z) :=
  match fuel with
  | O => None
  | S fuel' =>
      let '(data, acc, nbits) := refill data acc nbits in
      if nbits =? 0 then Some (acc, nbits, out)
      else
        let e := lookup_entry decode_tables acc nbits in
        let len := Z.shiftr e 8 in
        if negb (len =? 0) then
          if nbits <? len then Some (acc, nbits, out)
          else if zlen out =? max_output then None
          else decode_loop fuel' data acc (nbits - len) (out ++ [u8 e]) max_output
        else if nbits <? WIN_BITS then Some (acc, nbits, out)
        else
          match decode_long acc nbits with
          | None => None
          | Some (sym, len) =>
              if sym =? 256 then None
              else if zlen out =? max_output then None
              else decode_loop fuel' data acc (nbits - len) (out ++ [u8 sym]) max_output
          end
  end.

Definition decode_into_limited (data : list Z) (max_output : Z) : option (list Z) :=
  match decode_loop (S (8 * length data)) data 0 0 [] max_output with
  | None => None
  | Some (acc, nbits, out) =>
      if 7 <? nbits then None
      else if 0 <? nbits then
        let pad := Z.land acc (Z.shiftl 1 nbits - 1) in
        if negb (pad =? Z.shiftl 1 nbits - 1) then None else Some out
      else Some out
  end.

Definition USIZE_MAX : Z := U64_MAX.

Definition decode_limited (data : list Z) (max_output : Z) : option (list Z) :=
  decode_into_limited data max_output.

Definition decode (data : list Z) : option (list Z) := decode_limited data USIZE_MAX.

(** The decoder into a reused buffer, which it clears first. *)
Definition decode_into (data : list Z) : option (list Z) :=
  decode_into_limited data USIZE_MAX.

(** ** The tables, checked by evaluation *)

(** The entry [e] at a window of [width] bits of value [w] names a symbol whose code is a
    prefix of the window. *)
Definition entry_ok (w width e : Z) : bool :=
  let len := Z.shiftr e 8 in
  (0 <? len) && (len <=? width)
  && bool_decide (code_of (u8 e) = (Z.shiftr w (width - len), len)).

(** No code of at most [WIN_BITS] bits is a prefix of the window [w]. *)
Definition no_short_code (w : Z) : bool :=
  forallb
    (fun '(code, len) => (WIN_BITS <? len) || negb (code =? Z.shiftr w (WIN_BITS - len))) TABLE.

Definition sub_entry_ok (w e : Z) : bool :=
  if Z.shiftr e 8 =? 0 then no_short_code w else entry_ok w WIN_BITS e.

Definition root_entry_ok (t : DecodeTables) (i e : Z) : bool :=
  if negb (Z.land e SUB_TABLE =? 0) then
    let s := nth (Z.to_nat (Z.land e (0xffff - SUB_TABLE))) (sub t) [] in
    Nat.eqb (length s) 32
    && forallb (fun '(j, e') => sub_entry_ok (32 * i + j) e') (enumerate s)
  else entry_ok i ROOT_BITS e.

Definition tables_ok (t : DecodeTables) : bool :=
  Nat.eqb (length (root t)) 2048
  && forallb (fun '(i, e) => root_entry_ok t i e) (enumerate (root t)).

Lemma decode_tables_checked : tables_ok decode_tables = true.
Proof. vm_compute. reflexivity. Qed.

(** No code is a prefix of another. *)
Fixpoint prefix_free (l : list (Z * Z)) : bool :=
  match l with
  | [] => true
  | (c, n) :: l' =>
      forallb (fun '(c', n') =>
        if n <=? n' then negb (Z.shiftr c' (n' - n) =? c) else negb (Z.shiftr c (n - n') =? c'))
        l'
      && prefix_free l'
  end.

Lemma table_prefix_free : prefix_free TABLE = true.
Proof. vm_compute. reflexivity. Qed.

(** The groups of [long_table] hold the long codes and nothing else. *)
Lemma long_table_checked :
  forallb (fun '(i, g) =>
    forallb (fun '(c, sym) =>
      (0 <=? sym) && (sym <=? 256) && bool_decide (code_of sym = (c, i + 17))) g)
    (enumerate long_table) = true.
Proof. vm_compute. reflexivity. Qed.

Lemma long_search_checked :
  forallb (fun '(sym, (code, len)) =>
    (len <=? WIN_BITS)
    || bool_decide (binary_search (nth (Z.to_nat (len - WIN_BITS - 1)) long_table []) code
                    = Some sym)) (enumerate TABLE) = true.
Proof. vm_compute. reflexivity. Qed.

#[local] Opaque decode_tables long_table TABLE.

(** ** Table lemmas *)

Lemma enumerate_in {A} (l : list A) (i : nat) (x d : A) :
  (i < length l)%nat → In (Z.of_nat i, nth i l d) (enumerate l).
Proof.
  intros Hi. unfold enumerate.
  replace (Z.of_nat i, nth i l d)
    with (nth i (combine (Z.of_nat <$> seq 0 (length l)) l) (0, d)).
  - apply nth_In. rewrite length_combine, length_fmap, length_seq. lia.
  - rewrite combine_nth by (by rewrite length_fmap, length_seq). f_equal.
    change 0 with (Z.of_nat 0). rewrite (map_nth Z.of_nat), seq_nth by done. done.
Qed.

Lemma forallb_enumerate {A} (f : Z * A → bool) (l : list A) (i : Z) (d : A) :
  forallb f (enumerate l) = true → 0 <= i < zlen l → f (i, nth (Z.to_nat i) l d) = true.
Proof.
  intros Hf Hi. unfold zlen in Hi.
  pose proof (proj1 (forallb_forall _ _) Hf _
    (enumerate_in l (Z.to_nat i) d d ltac:(lia))) as H.
  by rewrite Z2Nat.id in H by lia.
Qed.

Lemma prefix_free_spec l i j :
  prefix_free l = true → (i < j < length l)%nat →
  let '(c, n) := nth i l (0, 0) in
  let '(c', n') := nth j l (0, 0) in
  if n <=? n' then Z.shiftr c' (n' - n) ≠ c else Z.shiftr c (n - n') ≠ c'.
Proof.
  revert i j. induction l as [|[c n] l IH]; intros i j Hp Hij; simpl in Hij; [lia|].
  cbn [prefix_free] in Hp. apply andb_true_iff in Hp as [Hf Hp].
  destruct j as [|j]; [lia|]. destruct i as [|i]; [|apply IH; [done|lia]].
  cbn [nth]. pose proof (proj1 (forallb_forall _ _) Hf (nth j l (0, 0))
    (nth_In (n := j) l (0, 0) ltac:(lia))) as H.
  destruct (nth j l (0, 0)) as [c' n']. by case_if; bool_hyps.
Qed.

(** The value of the next [len] bits is the code of [sym]. *)
Definition code_matches (acc nbits sym : Z) : Prop :=
  window acc nbits (code_of sym).2 = (code_of sym).1.

Lemma window_testbit acc nbits width i :
  0 <= nbits <= 64 → 0 <= width <= 32 → 0 <= i →
  Z.testbit (window acc nbits width) i =
  (i <? width) && ((i <? width - nbits) || Z.testbit acc (i + nbits - width)).
Proof.
  intros Hn Hw Hi. unfold window. rewrite !shiftl_1_sub_1. case_if; rewrite Z.land_spec.
  - destruct (Z.ltb_spec i width).
    + rewrite Z.ones_spec_low, Z.shiftr_spec by lia.
      destruct (Z.ltb_spec i (width - nbits)); [lia|]. rewrite andb_true_r. simpl. f_equal. lia.
    + rewrite Z.ones_spec_high by lia. apply andb_false_r.
  - destruct (Z.ltb_spec i width).
    + rewrite Z.lor_spec, wrap_testbit, (Z.ones_spec_low width) by lia.
      rewrite andb_true_r. destruct (Z.ltb_spec i 64); [|lia]. simpl.
      destruct (Z.ltb_spec i (width - nbits)).
      * rewrite Z.ones_spec_low by lia. apply orb_true_r.
      * rewrite Z.ones_spec_high, Z.shiftl_spec by lia. rewrite orb_false_r. simpl. f_equal. lia.
    + rewrite (Z.ones_spec_high width) by lia. apply andb_false_r.
Qed.

Lemma window_shiftr acc nbits l m :
  0 <= nbits <= 64 → 0 <= l <= m → m <= 32 →
  window acc nbits l = Z.shiftr (window acc nbits m) (m - l).
Proof.
  intros Hn Hl Hm. apply Z.bits_inj'. intros i Hi.
  rewrite Z.shiftr_spec, !window_testbit by lia.
  replace (i + (m - l) <? m) with (i <? l) by (destruct (Z.ltb_spec i l); symmetry;
    [apply Z.ltb_lt|apply Z.ltb_ge]; lia).
  replace (i + (m - l) <? m - nbits) with (i <? l - nbits)
    by (destruct (Z.ltb_spec i (l - nbits)); symmetry; [apply Z.ltb_lt|apply Z.ltb_ge]; lia).
  do 3 f_equal. lia.
Qed.

Lemma window_range acc nbits width :
  0 <= width → 0 <= window acc nbits width < 2 ^ width.
Proof.
  intros Hw. unfold window. rewrite !shiftl_1_sub_1.
  case_if; rewrite Z.land_ones by done; apply Z.mod_pos_bound, Z.pow_pos_nonneg; lia.
Qed.

Lemma table_code_bounds sym :
  0 <= sym <= 256 → 0 <= (code_of sym).1 < 2 ^ (code_of sym).2 ∧ 5 <= (code_of sym).2 <= 30.
Proof.
  intros Hs.
  pose proof (proj1 (forallb_forall _ _) table_bounds (code_of sym)
    (nth_In (n := Z.to_nat sym) TABLE (0, 0) ltac:(change (length TABLE) with 257%nat; lia))) as H.
  destruct (code_of sym) as [c l]. bool_hyps. simpl. lia.
Qed.

Lemma code_matches_lt acc nbits a b :
  0 <= nbits <= 64 → 0 <= a < b → b <= 256 →
  code_matches acc nbits a → code_matches acc nbits b → False.
Proof.
  intros Hn Ha Hb Hm Hm'.
  destruct (table_code_bounds a) as [_ Hl]; [lia|].
  destruct (table_code_bounds b) as [_ Hl']; [lia|].
  pose proof (prefix_free_spec TABLE (Z.to_nat a) (Z.to_nat b) table_prefix_free
    ltac:(change (length TABLE) with 257%nat; lia)) as H.
  unfold code_matches, code_of in *.
  destruct (nth (Z.to_nat a) TABLE (0, 0)) as [c n].
  destruct (nth (Z.to_nat b) TABLE (0, 0)) as [c' n']. cbn [fst snd] in *.
  destruct (Z.leb_spec n n'); apply H.
  - rewrite <-Hm', <-window_shiftr; [done|lia..].
  - rewrite <-Hm, <-window_shiftr; [done|lia..].
Qed.

(** At most one symbol matches. *)
Lemma code_matches_unique acc nbits s s' :
  0 <= nbits <= 64 → 0 <= s <= 256 → 0 <= s' <= 256 →
  code_matches acc nbits s → code_matches acc nbits s' → s = s'.
Proof.
  intros Hn Hs Hs' Hm Hm'. destruct (Z.lt_trichotomy s s') as [|[|]]; [|done|]; exfalso.
  - apply (code_matches_lt acc nbits s s'); (done || lia).
  - apply (code_matches_lt acc nbits s' s); (done || lia).
Qed.

Lemma entry_ok_spec acc nbits width e :
  entry_ok (window acc nbits width) width e = true →
  0 <= nbits <= 64 → 0 <= width <= 32 →
  0 < Z.shiftr e 8 <= width ∧ (code_of (u8 e)).2 = Z.shiftr e 8 ∧ code_matches acc nbits (u8 e).
Proof.
  unfold entry_ok, code_matches. intros H Hn Hw. bool_hyps.
  match goal with H : code_of _ = _ |- _ => rewrite H end. simpl. split_and!; [lia..|done|].
  apply window_shiftr; lia.
Qed.

(** What the root and sub tables say of the next bits. *)
Lemma lookup_entry_spec t acc nbits :
  tables_ok t = true → 0 <= nbits <= 64 →
  let e := lookup_entry t acc nbits in
  if Z.shiftr e 8 =? 0 then no_short_code (window acc nbits WIN_BITS) = true
  else 0 < Z.shiftr e 8 <= WIN_BITS ∧ (code_of (u8 e)).2 = Z.shiftr e 8 ∧
       code_matches acc nbits (u8 e).
Proof.
  intros Hc Hn. apply andb_true_iff in Hc as [Hlen Hc].
  apply Nat.eqb_eq in Hlen. unfold lookup_entry.
  pose proof (window_range acc nbits ROOT_BITS ltac:(unfold ROOT_BITS; lia)) as Hr.
  apply (forallb_enumerate _ _ (window acc nbits ROOT_BITS) 0) in Hc;
    [|unfold zlen; rewrite Hlen; exact Hr].
  cbn beta iota in Hc. set (e := nth _ (root t) 0) in *.
  unfold root_entry_ok in Hc. cbv zeta in Hc |- *.
  destruct (negb (Z.land e SUB_TABLE =? 0)).
  - apply andb_true_iff in Hc as [Hl Hc]. apply Nat.eqb_eq in Hl.
    set (s := nth _ (sub t) []) in *.
    assert (Hw : 32 * window acc nbits ROOT_BITS
      + Z.land (window acc nbits WIN_BITS) (Z.shiftl 1 SUB_BITS - 1) = window acc nbits WIN_BITS).
    { rewrite (window_shiftr acc nbits ROOT_BITS WIN_BITS) by (unfold ROOT_BITS, WIN_BITS; lia).
      rewrite shiftl_1_sub_1, Z.land_ones, Z.shiftr_div_pow2 by (unfold SUB_BITS; done).
      change (2 ^ SUB_BITS) with 32. change (2 ^ (WIN_BITS - ROOT_BITS)) with 32.
      symmetry. apply Z.div_mod. lia. }
    set (j := Z.land (window acc nbits WIN_BITS) (Z.shiftl 1 SUB_BITS - 1)) in *.
    assert (Hj : 0 <= j < 32).
    { unfold j. rewrite shiftl_1_sub_1, Z.land_ones by (unfold SUB_BITS; done).
      apply Z.mod_pos_bound. done. }
    apply (forallb_enumerate _ s j 0) in Hc; [|unfold zlen; rewrite Hl; lia].
    cbn beta iota in Hc. rewrite Hw in Hc. unfold sub_entry_ok in Hc.
    destruct (_ =? 0); [done|].
    apply entry_ok_spec in Hc; [done|lia|unfold WIN_BITS; lia].
  - apply entry_ok_spec in Hc as (H1 & H2); [|lia|unfold ROOT_BITS; lia].
    destruct (Z.eqb_spec (Z.shiftr e 8) 0); [lia|].
    split; [unfold ROOT_BITS in H1; unfold WIN_BITS; lia|done].
Qed.

Lemma no_short_code_spec acc nbits sym :
  no_short_code (window acc nbits WIN_BITS) = true → 0 <= nbits <= 64 → 0 <= sym <= 256 →
  (code_of sym).2 <= WIN_BITS → ¬ code_matches acc nbits sym.
Proof.
  intros Hno Hn Hs Hl Hm.
  pose proof (proj1 (forallb_forall _ _) Hno (code_of sym)
    (nth_In (n := Z.to_nat sym) TABLE (0, 0) ltac:(change (length TABLE) with 257%nat; lia))) as H.
  destruct (table_code_bounds sym Hs) as [_ Hb].
  unfold code_matches in Hm. destruct (code_of sym) as [c l]. cbn [fst snd] in *.
  apply orb_true_iff in H as [H|H]; bool_hyps; [lia|].
  rewrite (window_shiftr acc nbits l WIN_BITS) in Hm; [congruence|lia|lia|unfold WIN_BITS; lia].
Qed.

(** ** Long codes *)

Lemma binary_search_found g code sym :
  binary_search g code = Some sym → In (code, sym) g.
Proof.
  unfold binary_search. destruct (g !! _) as [[c s]|] eqn:E; [|done].
  case_if; [|done]. intros [= <-]. subst. apply list_elem_of_In. by eapply list_elem_of_lookup_2.
Qed.

Lemma long_group_code len code sym :
  17 <= len <= 30 →
  binary_search (nth (Z.to_nat (len - WIN_BITS - 1)) long_table []) code = Some sym →
  0 <= sym <= 256 ∧ code_of sym = (code, len).
Proof.
  intros Hl Hs. apply binary_search_found in Hs.
  pose proof (forallb_enumerate _ long_table (len - 17) [] long_table_checked) as H.
  change (zlen long_table) with 14 in H. specialize (H ltac:(lia)). cbn beta iota in H.
  unfold WIN_BITS in Hs. replace (len - 16 - 1) with (len - 17) in Hs by lia.
  pose proof (proj1 (forallb_forall _ _) H _ Hs) as Hf. cbn beta iota in Hf. bool_hyps.
  replace (len - 17 + 17) with len in * by lia. split; [lia|done].
Qed.

Lemma long_search_complete b :
  is_byte b → WIN_BITS < (code_of b).2 →
  binary_search (nth (Z.to_nat ((code_of b).2 - WIN_BITS - 1)) long_table []) (code_of b).1
  = Some b.
Proof.
  intros Hb Hl. pose proof (forallb_enumerate _ TABLE b (0, 0) long_search_checked) as H.
  change (zlen TABLE) with 257 in H. unfold is_byte in Hb. specialize (H ltac:(lia)).
  fold (code_of b) in H. destruct (code_of b) as [c l]. cbn [fst snd] in *.
  apply orb_true_iff in H as [H|H]; bool_hyps; [lia|done].
Qed.

Lemma window_full acc nbits len :
  len <= nbits →
  Z.land (Z.shiftr acc (nbits - len)) (Z.shiftl 1 len - 1) = window acc nbits len.
Proof. intros H. unfold window. by rewrite (proj2 (Z.leb_le _ _) H). Qed.

Lemma decode_long_from_sound lens acc nbits sym len :
  Forall (fun l => 17 <= l <= 30) lens →
  decode_long_from lens acc nbits = Some (sym, len) →
  0 <= sym <= 256 ∧ (code_of sym).2 = len ∧ len <= nbits ∧ code_matches acc nbits sym.
Proof.
  induction 1 as [|l lens Hl Hls IH]; [done|]. cbn [decode_long_from]. case_if; [done|].
  rewrite window_full by lia.
  destruct (binary_search _ _) as [s|] eqn:E; [|done]. intros [= <- <-].
  apply long_group_code in E as [Hs Hc]; [|done]. unfold code_matches. rewrite Hc. auto.
Qed.

Lemma decode_long_from_complete lens acc nbits b :
  Forall (fun l => 17 <= l <= 30) lens → is_byte b → 0 <= nbits <= 64 →
  code_matches acc nbits b → WIN_BITS < (code_of b).2 → In (code_of b).2 lens →
  StronglySorted Z.lt lens →
  (code_of b).2 <= nbits →
  decode_long_from lens acc nbits = Some (b, (code_of b).2).
Proof.
  intros Hls Hb Hn Hm Hl Hin Hsort Hle.
  induction Hls as [|l lens Hl' Hls IH]; [done|]. cbn [decode_long_from].
  assert (l <= nbits).
  { apply StronglySorted_inv in Hsort as [_ Hs]. destruct Hin as [->|Hin]; [done|].
    pose proof (proj1 (Forall_forall _ _) Hs _ ltac:(by apply list_elem_of_In)). lia. }
  destruct (Z.ltb_spec nbits l); [lia|]. rewrite window_full by done.
  destruct (binary_search _ _) as [s|] eqn:E.
  - apply long_group_code in E as [Hs Hc]; [|done].
    assert (s = b) as ->; [|by rewrite Hc].
    eapply code_matches_unique; [done..| | |exact Hm]; [unfold is_byte in Hb; lia|].
    unfold code_matches. by rewrite Hc.
  - destruct Hin as [->|Hin].
    { rewrite Hm, long_search_complete in E by done. done. }
    apply IH; [done|]. by apply StronglySorted_inv in Hsort as [Hs _].
Qed.

Lemma long_lens_bounds : Forall (fun l => 17 <= l <= 30) long_lens.
Proof. vm_compute. repeat constructor; discriminate. Qed.

Lemma long_lens_sorted : StronglySorted Z.lt long_lens.
Proof. vm_compute. repeat constructor. Qed.

Lemma long_lens_in l : WIN_BITS < l <= 30 → In l long_lens.
Proof.
  intros Hl. unfold long_lens. apply list_elem_of_In, list_elem_of_fmap.
  exists (Z.to_nat l). unfold WIN_BITS in Hl. split; [lia|]. apply elem_of_seq. lia.
Qed.

Lemma decode_long_sound acc nbits sym len :
  decode_long acc nbits = Some (sym, len) →
  0 <= sym <= 256 ∧ (code_of sym).2 = len ∧ len <= nbits ∧ code_matches acc nbits sym.
Proof. apply decode_long_from_sound, long_lens_bounds. Qed.

Lemma decode_long_complete acc nbits b :
  is_byte b → 0 <= nbits <= 64 → code_matches acc nbits b →
  WIN_BITS < (code_of b).2 <= nbits → decode_long acc nbits = Some (b, (code_of b).2).
Proof.
  intros Hb Hn Hm Hl. destruct (code_of_bounds b Hb) as [_ Hl'].
  apply decode_long_from_complete; auto using long_lens_bounds, long_lens_sorted; try lia.
  apply long_lens_in. lia.
Qed.

(** ** Matches as bits *)

Lemma matches_bits acc nbits sym :
  0 <= nbits <= 64 → 0 <= sym <= 256 → (code_of sym).2 <= nbits → code_matches acc nbits sym →
  bits_be (Z.to_nat nbits) acc
  = code_bits sym ++ bits_be (Z.to_nat (nbits - (code_of sym).2)) acc.
Proof.
  intros Hn Hs Hl Hm. destruct (table_code_bounds sym Hs) as [_ Hb].
  unfold code_matches, code_bits in *. destruct (code_of sym) as [c l]. cbn [fst snd] in *.
  rewrite (bits_be_split (Z.to_nat nbits) (Z.to_nat l)) by lia.
  replace (Z.to_nat nbits - Z.to_nat l)%nat with (Z.to_nat (nbits - l)) by lia.
  f_equal. rewrite <-Hm, <-window_full, shiftl_1_sub_1 by done.
  rewrite Z2Nat.id by lia. apply bits_be_ext. intros i Hi.
  rewrite Z.land_spec, Z.ones_spec_low by lia. by rewrite andb_true_r.
Qed.

Lemma bits_matches acc nbits sym tail tail' :
  0 <= nbits <= 64 → 0 <= sym <= 256 → (code_of sym).2 <= nbits →
  bits_be (Z.to_nat nbits) acc ++ tail = code_bits sym ++ tail' →
  code_matches acc nbits sym ∧
  bits_be (Z.to_nat (nbits - (code_of sym).2)) acc ++ tail = tail'.
Proof.
  intros Hn Hs Hl He. destruct (table_code_bounds sym Hs) as [Hc Hb].
  unfold code_matches, code_bits in *. destruct (code_of sym) as [c l]. cbn [fst snd] in *.
  rewrite (bits_be_split (Z.to_nat nbits) (Z.to_nat l)), <-app_assoc in He by lia.
  replace (Z.to_nat nbits - Z.to_nat l)%nat with (Z.to_nat (nbits - l)) in He by lia.
  apply app_inj_1 in He as [He Ht]; [|by rewrite !length_bits_be]. split; [|done].
  apply (bits_be_inj (Z.to_nat l)); rewrite ?Z2Nat.id by lia; [apply window_range; lia|done|].
  rewrite <-He, <-window_full, shiftl_1_sub_1 by done. rewrite Z2Nat.id by lia.
  apply bits_be_ext. intros i Hi. rewrite Z.land_spec, Z.ones_spec_low by lia.
  by rewrite andb_true_r.
Qed.

(** ** Refilling the accumulator *)

Definition pending (data : list Z) (acc nbits : Z) : list bool :=
  bits_be (Z.to_nat nbits) acc ++ bytes_bits data.

Lemma refill_octets_spec data acc nbits :
  octets data → 0 <= nbits <= 64 →
  let '(data', acc', nbits') := refill_octets data acc nbits in
  pending data' acc' nbits' = pending data acc nbits ∧ octets data' ∧
  0 <= nbits' <= 64 ∧ (48 < nbits' ∨ data' = []).
Proof.
  intros Hd. revert acc nbits. induction Hd as [|b data Hb Hd IH]; intros acc nbits Hn.
  { simpl. auto. }
  cbn [refill_octets]. case_if; [|split_and!; auto; lia].
  specialize (IH (Z.lor (u64 (Z.shiftl acc 8)) b) (nbits + 8) ltac:(lia)).
  destruct (refill_octets _ _ _) as [[d' a'] n']. destruct IH as (-> & ? & ? & ?).
  split_and!; auto; [|lia..]. unfold pending.
  replace (Z.to_nat (nbits + 8)) with (Z.to_nat nbits + 8)%nat by lia.
  rewrite (bits_be_push_u64 _ 8) by (exact Hb || lia).
  by rewrite bytes_bits_cons, app_assoc.
Qed.

(** A refill keeps the bits to be read, and leaves 32 of them in the accumulator or the
    input empty. *)
Lemma refill_spec data acc nbits :
  octets data → 0 <= nbits <= 64 →
  let '(data', acc', nbits') := refill data acc nbits in
  pending data' acc' nbits' = pending data acc nbits ∧ octets data' ∧
  0 <= nbits' <= 64 ∧ (32 <= nbits' ∨ data' = []).
Proof.
  intros Hd Hn. pose proof (refill_octets_spec data acc nbits Hd Hn) as Ho.
  unfold refill. case_if; [|split_and!; auto; lia].
  destruct data as [|a [|b [|c [|d data]]]];
    try (destruct (refill_octets _ _ _) as [[d' a'] n']; destruct Ho as (? & ? & ? & [?|?]);
         split_and!; auto; lia).
  assert (octets [a; b; c; d] ∧ octets data) as [Hw Hr].
  { change (a :: b :: c :: d :: data) with ([a; b; c; d] ++ data) in Hd. by apply Forall_app. }
  split_and!; [|done|lia..]. unfold pending.
  replace (Z.to_nat (nbits + 32)) with (Z.to_nat nbits + 32)%nat by lia.
  rewrite (bits_be_push_u64 _ 32) by (try lia; apply (from_be_bytes_range [a; b; c; d] Hw)).
  change 32%nat with (8 * length [a; b; c; d])%nat. rewrite bits_be_from_be_bytes by done.
  by rewrite <-app_assoc, <-bytes_bits_app.
Qed.

(** ** One round of the loop *)

Inductive next : Type :=
| Emit (sym len : Z)
| Break
| Reject.

Definition next_symbol (acc nbits : Z) : next :=
  if nbits =? 0 then Break
  else
    let e := lookup_entry decode_tables acc nbits in
    let len := Z.shiftr e 8 in
    if negb (len =? 0) then if nbits <? len then Break else Emit (u8 e) len
    else if nbits <? WIN_BITS then Break
    else
      match decode_long acc nbits with
      | None => Reject
      | Some (sym, len) => if sym =? 256 then Reject else Emit (u8 sym) len
      end.

Lemma decode_loop_step f data acc nbits out m :
  decode_loop (S f) data acc nbits out m =
  let '(data, acc, nbits) := refill data acc nbits in
  match next_symbol acc nbits with
  | Break => Some (acc, nbits, out)
  | Reject => None
  | Emit sym len =>
      if zlen out =? m then None else decode_loop f data acc (nbits - len) (out ++ [sym]) m
  end.
Proof.
  cbn [decode_loop]. destruct (refill _ _ _) as [[d a] n]. unfold next_symbol. cbv zeta.
  destruct (n =? 0); [done|]. destruct (negb _); [by destruct (n <? _)|].
  destruct (n <? WIN_BITS); [done|]. destruct (decode_long a n) as [[sym len]|]; [|done].
  by destruct (sym =? 256).
Qed.

Lemma next_emit acc nbits sym len :
  0 <= nbits <= 64 → next_symbol acc nbits = Emit sym len →
  is_byte sym ∧ (code_of sym).2 = len ∧ len <= nbits ∧ code_matches acc nbits sym.
Proof.
  intros Hn. pose proof (lookup_entry_spec _ acc nbits decode_tables_checked Hn) as He.
  unfold next_symbol. cbv zeta in He |- *. revert He.
  generalize (lookup_entry decode_tables acc nbits). intros e He. case_if; [done|].
  destruct (_ =? 0); cbn [negb].
  - case_if; [done|]. destruct (decode_long acc nbits) as [[s l]|] eqn:El; [|done].
    apply decode_long_sound in El as (Hs & Hl & Hle & Hm). case_if; [done|].
    intros [= <- <-]. rewrite u8_id by (unfold is_byte; lia).
    split_and!; auto. unfold is_byte. lia.
  - destruct He as (Hl & Hc & Hm). case_if; [done|]. intros [= <- <-].
    split_and!; auto with hj.
Qed.

Lemma next_break acc nbits :
  0 <= nbits <= 64 → next_symbol acc nbits = Break → nbits < WIN_BITS.
Proof.
  intros Hn. pose proof (lookup_entry_spec _ acc nbits decode_tables_checked Hn) as He.
  unfold next_symbol. cbv zeta in He |- *. revert He.
  generalize (lookup_entry decode_tables acc nbits). intros e He.
  case_if; [unfold WIN_BITS; lia|].
  destruct (_ =? 0); cbn [negb].
  - case_if; [done|]. destruct (decode_long acc nbits) as [[s l]|]; [by case_if|done].
  - case_if; [lia|done].
Qed.

Lemma next_complete acc nbits b :
  0 <= nbits <= 64 → is_byte b → (code_of b).2 <= nbits → code_matches acc nbits b →
  next_symbol acc nbits = Emit b (code_of b).2.
Proof.
  intros Hn Hb Hl Hm. pose proof (code_of_bounds b Hb) as [_ Hl'].
  pose proof (lookup_entry_spec _ acc nbits decode_tables_checked Hn) as He.
  assert (0 <= b <= 256) by (unfold is_byte in Hb; lia).
  unfold next_symbol. cbv zeta in He |- *. revert He.
  generalize (lookup_entry decode_tables acc nbits). intros e He.
  destruct (Z.eqb_spec nbits 0); [lia|].
  destruct (_ =? 0); cbn [negb].
  - assert (WIN_BITS < (code_of b).2).
    { apply Z.nle_gt. intros ?. eapply no_short_code_spec; eauto. }
    destruct (Z.ltb_spec nbits WIN_BITS); [lia|].
    rewrite (decode_long_complete acc nbits b) by (done || lia). unfold is_byte in Hb.
    destruct (Z.eqb_spec b 256); [lia|]. by rewrite u8_id.
  - destruct He as (Hle & Hc & Hm').
    assert (u8 e = b) as He.
    { pose proof (is_byte_u8 e) as Hu. unfold is_byte in Hu.
      eapply code_matches_unique; eauto; lia. }
    rewrite He in *. rewrite <-Hc. by destruct (Z.ltb_spec nbits (code_of b).2); [lia|].
Qed.

Lemma code_of_eos : code_of 256 = (Z.ones 30, 30).
Proof. vm_compute. reflexivity. Qed.

Lemma ones_matches_eos acc nbits :
  0 <= nbits <= 30 → bits_be (Z.to_nat nbits) acc = replicate (Z.to_nat nbits) true →
  code_matches acc nbits 256.
Proof.
  intros Hn Hb. unfold code_matches. rewrite code_of_eos. cbn [fst snd].
  apply (testbit_ext_below 30); [apply window_range; lia|split; done|]. intros i Hi.
  rewrite window_testbit, Z.ones_spec_low by lia.
  destruct (Z.ltb_spec i 30); [|lia]. destruct (Z.ltb_spec i (30 - nbits)); [done|]. simpl.
  rewrite <-(bits_be_ones (Z.to_nat nbits) (Z.to_nat nbits)) in Hb by done.
  rewrite (bits_be_ext_inv _ _ _ Hb) by lia. apply Z.ones_spec_low. lia.
Qed.

(** Padding ends the loop. *)
Lemma next_padding acc nbits :
  0 <= nbits < 8 → bits_be (Z.to_nat nbits) acc = replicate (Z.to_nat nbits) true →
  next_symbol acc nbits = Break.
Proof.
  intros Hn Hb. apply ones_matches_eos in Hb; [|lia].
  destruct (next_symbol acc nbits) as [s l| |] eqn:E; [|done|].
  - apply next_emit in E as (Hs & _ & _ & Hm); [|lia]. unfold is_byte in Hs.
    assert (s = 256) by (eapply code_matches_unique; eauto; lia). lia.
  - unfold next_symbol in E. cbv zeta in E. destruct (nbits =? 0); [done|].
    destruct (negb _); [by destruct (nbits <? _)|].
    unfold WIN_BITS in E. by destruct (Z.ltb_spec nbits 16); [|lia].
Qed.

(** ** The loop *)

Lemma decode_loop_sound f data acc nbits out m acc' nbits' out' :
  octets data → 0 <= nbits <= 64 → zlen out <= m →
  decode_loop f data acc nbits out m = Some (acc', nbits', out') →
  0 <= nbits' ∧ zlen out' <= m ∧
  ∃ syms, out' = out ++ syms ∧ octets syms ∧
    pending data acc nbits = huff_bits syms ++ bits_be (Z.to_nat nbits') acc'.
Proof.
  revert data acc nbits out. induction f as [|f IH]; intros data acc nbits out Hd Hn Hm; [done|].
  rewrite decode_loop_step. pose proof (refill_spec data acc nbits Hd Hn) as Hr.
  destruct (refill data acc nbits) as [[d a] n]. destruct Hr as (<- & Hd' & Hn' & Hfull).
  destruct (next_symbol a n) as [s l| |] eqn:En; [| |done].
  - apply next_emit in En as (Hs & <- & Hl & Hmt); [|done].
    destruct (code_of_bounds s Hs) as [_ Hlb]. case_if; [done|]. intros Hdec.
    apply IH in Hdec as (Hn2 & Hm2 & syms & -> & Hsy & Hp); [|done|lia|].
    + split_and!; [done..|]. exists (s :: syms). rewrite <-app_assoc. split_and!; [done|by constructor|].
      rewrite huff_bits_cons, <-app_assoc, <-Hp. unfold pending.
      rewrite (matches_bits a n s) by (done || (unfold is_byte in Hs; lia)).
      by rewrite <-app_assoc.
    + rewrite zlen_app. change (zlen [s]) with 1. lia.
  - intros [= <- <- <-]. apply next_break in En; [|done]. unfold WIN_BITS in En.
    split_and!; [lia|done|]. exists []. rewrite app_nil_r. split_and!; [done|constructor|].
    destruct Hfull as [| ->]; [lia|]. unfold pending. by rewrite app_nil_r.
Qed.

Lemma decode_loop_complete syms f data acc nbits out m pad :
  octets syms → octets data → 0 <= nbits <= 64 → (length syms < f)%nat → (pad < 8)%nat →
  pending data acc nbits = huff_bits syms ++ replicate pad true →
  zlen (out ++ syms) <= m →
  ∃ acc' nbits', decode_loop f data acc nbits out m = Some (acc', nbits', out ++ syms) ∧
    nbits' = Z.of_nat pad ∧ bits_be pad acc' = replicate pad true.
Proof.
  intros Hs. revert f data acc nbits out.
  induction Hs as [|b syms Hb Hs IH]; intros f data acc nbits out Hd Hn Hf Hpad Hp Hm;
    (destruct f as [|f]; [simpl in Hf; lia|]); rewrite decode_loop_step;
    pose proof (refill_spec data acc nbits Hd Hn) as Hr;
    destruct (refill data acc nbits) as [[d a] n]; destruct Hr as (Hpe & Hd' & Hn' & Hfull);
    rewrite Hp in Hpe; clear Hp.
  - change (huff_bits []) with (@nil bool) in Hpe. cbn [app] in Hpe.
    assert (Z.to_nat n = pad ∧ d = []) as [<- ->].
    { apply (f_equal length) in Hpe. unfold pending in Hpe.
      rewrite length_app, length_bits_be, length_bytes_bits, length_replicate in Hpe.
      destruct Hfull as [| ->]; [lia|]. simpl in Hpe. split; [lia|done]. }
    unfold pending in Hpe. rewrite app_nil_r in Hpe.
    rewrite next_padding by (done || lia). exists a, n. rewrite app_nil_r.
    split_and!; [done|lia|done].
  - destruct (code_of_bounds b Hb) as [_ Hl]. rewrite huff_bits_cons, <-app_assoc in Hpe.
    assert ((code_of b).2 <= n) as Hle.
    { destruct Hfull as [| ->]; [lia|]. apply (f_equal length) in Hpe. unfold pending in Hpe.
      rewrite !length_app, length_bits_be, length_code_bits in Hpe. simpl in Hpe. lia. }
    apply bits_matches in Hpe as [Hmt Hrest]; [|done|unfold is_byte in Hb; lia|done].
    rewrite (next_complete a n b) by done.
    replace (out ++ b :: syms) with ((out ++ [b]) ++ syms) in * by (by rewrite <-app_assoc).
    destruct (Z.eqb_spec (zlen out) m) as [He|_].
    { rewrite !zlen_app in Hm. change (zlen [b]) with 1 in Hm. pose proof (zlen_nonneg syms). lia. }
    apply IH; [done|lia|simpl in Hf; lia|done|exact Hrest|done].
Qed.

(** More fuel than bits changes nothing. *)
Lemma decode_loop_fuel f g data acc nbits out m :
  octets data → 0 <= nbits <= 64 → (length (pending data acc nbits) < f)%nat →
  decode_loop (f + g) data acc nbits out m = decode_loop f data acc nbits out m.
Proof.
  revert data acc nbits out. induction f as [|f IH]; intros data acc nbits out Hd Hn Hf; [lia|].
  change (S f + g)%nat with (S (f + g)). rewrite !decode_loop_step.
  pose proof (refill_spec data acc nbits Hd Hn) as Hr.
  destruct (refill data acc nbits) as [[d a] n]. destruct Hr as (Hpe & Hd' & Hn' & _).
  destruct (next_symbol a n) as [s l| |] eqn:En; [|done..].
  apply next_emit in En as (Hs & <- & Hl & Hmt); [|done].
  destruct (code_of_bounds s Hs) as [_ Hlb]. case_if; [done|]. apply IH; [done|lia|].
  rewrite <-Hpe in Hf. unfold pending in *.
  rewrite length_app, length_bits_be in Hf |- *. lia.
Qed.

(** ** The decoder *)

Lemma pad_test acc nbits :
  0 <= nbits → Z.land acc (Z.shiftl 1 nbits - 1) = Z.shiftl 1 nbits - 1 ↔
  bits_be (Z.to_nat nbits) acc = replicate (Z.to_nat nbits) true.
Proof.
  intros Hn. rewrite shiftl_1_sub_1, <-(bits_be_ones _ (Z.to_nat nbits)), Z2Nat.id by done.
  split; intros H.
  - apply bits_be_ext. intros i Hi. rewrite <-H, Z.land_spec, Z.ones_spec_low by lia.
    by rewrite andb_true_r.
  - apply Z.bits_inj'. intros i Hi. rewrite Z.land_spec.
    destruct (Z.ltb_spec i nbits).
    + rewrite (bits_be_ext_inv _ _ _ H) by lia. by rewrite Z.ones_spec_low by lia.
    + rewrite Z.ones_spec_high by lia. apply andb_false_r.
Qed.

(** The decoder accepts exactly the encodings of at most [m] octets. *)
Lemma decode_into_limited_iff data m out :
  octets data → 0 <= m →
  decode_into_limited data m = Some out ↔ octets out ∧ encode out = data ∧ zlen out <= m.
Proof.
  intros Hd Hm. unfold decode_into_limited. split.
  - destruct (decode_loop _ _ _ _ _ _) as [[[acc n] o]|] eqn:E; [|done].
    apply decode_loop_sound in E as (Hn & Hl & syms & Ho & Hs & Hp); [|done|lia|by change (zlen []) with 0].
    simpl in Ho. subst o. case_if; [done|].
    assert (Hpad : bits_be (Z.to_nat n) acc = replicate (Z.to_nat n) true → Some syms = Some out →
      octets out ∧ encode out = data ∧ zlen out <= m).
    { intros Hb [= <-]. split_and!; [done| |done].
      eapply huff_image_unique; [by apply encode_image|]. split; [done|].
      exists (Z.to_nat n). split; [lia|]. rewrite <-Hb, <-Hp. done. }
    cbv zeta. case_if.
    + case_if; [done|]. apply Hpad, pad_test; done.
    + apply Hpad. by replace n with 0 by lia.
  - intros (Ho & <- & Hl). destruct (encode_image out Ho) as (He & pad & Hpad & Hb).
    assert (Hf : (length out < S (8 * length (encode out)))%nat).
    { apply (f_equal length) in Hb. rewrite length_bytes_bits, length_app in Hb.
      enough (length out ≤ length (huff_bits out))%nat by lia. clear -Ho.
      induction Ho as [|b out Hb Ho IH]; [done|].
      rewrite huff_bits_cons, length_app, length_code_bits.
      destruct (code_of_bounds b Hb). simpl. lia. }
    destruct (decode_loop_complete out _ (encode out) 0 0 [] m pad Ho He ltac:(lia) Hf Hpad)
      as (acc & n & -> & -> & Hones); [by simpl|done|].
    destruct (Z.ltb_spec 7 (Z.of_nat pad)); [lia|]. cbv zeta. case_if; [|done].
    rewrite <-(Nat2Z.id pad) in Hones at 1 2. apply pad_test in Hones; [|lia].
    rewrite Hones, Z.eqb_refl. done.
Qed.

(** An octet takes at least five bits. *)
Lemma encode_expansion out : octets out → 5 * zlen out <= 8 * zlen (encode out).
Proof.
  intros Ho. destruct (encode_image out Ho) as (_ & pad & _ & Hb).
  apply (f_equal length) in Hb. rewrite length_bytes_bits, length_app in Hb.
  enough (5 * length out ≤ length (huff_bits out))%nat by (unfold zlen; lia). clear -Ho.
  induction Ho as [|b out Hb Ho IH]; [simpl; lia|].
  rewrite huff_bits_cons, length_app, length_code_bits.
  destruct (code_of_bounds b Hb). simpl. lia.
Qed.

(** [isize::MAX], which bounds the length of every slice. *)
Definition ISIZE_MAX : Z := 2 ^ 63 - 1.

Lemma decode_exact data out :
  octets data → zlen data <= ISIZE_MAX →
  decode data = Some out ↔ octets out ∧ encode out = data.
Proof.
  intros Hd Hl. unfold decode, decode_limited, USIZE_MAX, U64_MAX.
  rewrite decode_into_limited_iff by (done || lia). split; [by intros (? & ? & _)|].
  intros [Ho He]. split_and!; [done..|]. pose proof (encode_expansion out Ho).
  subst data. unfold ISIZE_MAX in Hl. lia.
Qed.

Lemma decode_encode_roundtrip raw :
  octets raw → encoded_len raw <= ISIZE_MAX → decode (encode raw) = Some raw.
Proof.
  intros Hr Hl. apply decode_exact; [by apply encode_octets_all| |done].
  unfold encode. by rewrite zlen_encode_sized.
Qed.

(** ** Properties *)

(** C37. The table-driven Huffman decoder accepts exactly the octet strings the encoder
    produces, and returns the string that was encoded: padding other than the shortest
    all-ones padding, the EOS code and truncated codes are refused. *)
Theorem huffman_decode_exact data out :
  octets data → zlen data <= ISIZE_MAX →
  decode data = Some out ↔ octets out ∧ encode out = data.
Proof. apply decode_exact. Qed.

(** RFC 7541 C.4.1. *)
Lemma huffman_decode_exact_witness :
  decode [0xf1; 0xe3; 0xc2; 0xe5; 0xf2; 0x3a; 0x6b; 0xa0; 0xab; 0x90; 0xf4; 0xff]
  = Some (bs "www.example.com").
Proof.
  apply huffman_decode_exact.
  - repeat constructor; discriminate.
  - by vm_compute.
  - split; [apply octets_bs|by vm_compute].
Defined.

(** With an output limit the decoder returns exactly the strings that fit the limit. *)
Theorem huffman_decode_limited data max_out out :
  octets data → 0 <= max_out →
  decode_into_limited data max_out = Some out ↔
  octets out ∧ encode out = data ∧ zlen out <= max_out.
Proof. apply decode_into_limited_iff. Qed.

Lemma huffman_decode_limited_witness :
  decode_into_limited (encode (bs "abc")) 3 = Some (bs "abc") ∧
  decode_into_limited (encode (bs "abc")) 2 ≠ Some (bs "abc").
Proof.
  assert (Ho : octets (encode (bs "abc"))) by (vm_compute; repeat constructor; discriminate).
  split.
  - apply huffman_decode_limited; [done|lia|]. split_and!; [apply octets_bs|done|by vm_compute].
  - intros H. apply huffman_decode_limited in H as (_ & _ & H); [|done|lia]. by vm_compute in H.
Defined.

End huffman_decode.
