(* ===== verification/StaticTable.v ===== *)
(** * The HPACK static table: [crates/hj-h2/src/hpack/static_table.rs]

    Names and values are octet strings ([bs] of the source's literals). The lookups are
    [match]es over the literals in the source; they are equal to first-match scans of the
    table ([find_name_value_scan], [find_name_scan]). *)

From stdpp Require Import base list strings.
From Stdlib Require Import ZArith Lia.
From S2P Require Import Prelude.

Module static_table.

Definition TABLE : list (list Z * list Z) :=
  [
    (bs ":authority", bs "");
    (bs ":method", bs "GET");
    (bs ":method", bs "POST");
    (bs ":path", bs "/");
    (bs ":path", bs "/index.html");
    (bs ":scheme", bs "http");
    (bs ":scheme", bs "https");
    (bs ":status", bs "200");
    (bs ":status", bs "204");
    (bs ":status", bs "206");
    (bs ":status", bs "304");
    (bs ":status", bs "400");
    (bs ":status", bs "404");
    (bs ":status", bs "500");
    (bs "accept-charset", bs "");
    (bs "accept-encoding", bs "gzip, deflate");
    (bs "accept-language", bs "");
    (bs "accept-ranges", bs "");
    (bs "accept", bs "");
    (bs "access-control-allow-origin", bs "");
    (bs "age", bs "");
    (bs "allow", bs "");
    (bs "authorization", bs "");
    (bs "cache-control", bs "");
    (bs "content-disposition", bs "");
    (bs "content-encoding", bs "");
    (bs "content-language", bs "");
    (bs "content-length", bs "");
    (bs "content-location", bs "");
    (bs "content-range", bs "");
    (bs "content-type", bs "");
    (bs "cookie", bs "");
    (bs "date", bs "");
    (bs "etag", bs "");
    (bs "expect", bs "");
    (bs "expires", bs "");
    (bs "from", bs "");
    (bs "host", bs "");
    (bs "if-match", bs "");
    (bs "if-modified-since", bs "");
    (bs "if-none-match", bs "");
    (bs "if-range", bs "");
    (bs "if-unmodified-since", bs "");
    (bs "last-modified", bs "");
    (bs "link", bs "");
    (bs "location", bs "");
    (bs "max-forwards", bs "");
    (bs "proxy-authenticate", bs "");
    (bs "proxy-authorization", bs "");
    (bs "range", bs "");
    (bs "referer", bs "");
    (bs "refresh", bs "");
    (bs "retry-after", bs "");
    (bs "server", bs "");
    (bs "set-cookie", bs "");
    (bs "strict-transport-security", bs "");
    (bs "transfer-encoding", bs "");
    (bs "user-agent", bs "");
    (bs "vary", bs "");
    (bs "via", bs "");
    (bs "www-authenticate", bs "")
  ].

Definition find_name_value (name value : list Z) : option Z :=
  let eq n v := bytes_eqb name (bs n) && bytes_eqb value (bs v) in
  if eq ":authority" "" then Some 1 else
  if eq ":method" "GET" then Some 2 else
  if eq ":method" "POST" then Some 3 else
  if eq ":path" "/" then Some 4 else
  if eq ":path" "/index.html" then Some 5 else
  if eq ":scheme" "http" then Some 6 else
  if eq ":scheme" "https" then Some 7 else
  if eq ":status" "200" then Some 8 else
  if eq ":status" "204" then Some 9 else
  if eq ":status" "206" then Some 10 else
  if eq ":status" "304" then Some 11 else
  if eq ":status" "400" then Some 12 else
  if eq ":status" "404" then Some 13 else
  if eq ":status" "500" then Some 14 else
  if eq "accept-charset" "" then Some 15 else
  if eq "accept-encoding" "gzip, deflate" then Some 16 else
  if eq "accept-language" "" then Some 17 else
  if eq "accept-ranges" "" then Some 18 else
  if eq "accept" "" then Some 19 else
  if eq "access-control-allow-origin" "" then Some 20 else
  if eq "age" "" then Some 21 else
  if eq "allow" "" then Some 22 else
  if eq "authorization" "" then Some 23 else
  if eq "cache-control" "" then Some 24 else
  if eq "content-disposition" "" then Some 25 else
  if eq "content-encoding" "" then Some 26 else
  if eq "content-language" "" then Some 27 else
  if eq "content-length" "" then Some 28 else
  if eq "content-location" "" then Some 29 else
  if eq "content-range" "" then Some 30 else
  if eq "content-type" "" then Some 31 else
  if eq "cookie" "" then Some 32 else
  if eq "date" "" then Some 33 else
  if eq "etag" "" then Some 34 else
  if eq "expect" "" then Some 35 else
  if eq "expires" "" then Some 36 else
  if eq "from" "" then Some 37 else
  if eq "host" "" then Some 38 else
  if eq "if-match" "" then Some 39 else
  if eq "if-modified-since" "" then Some 40 else
  if eq "if-none-match" "" then Some 41 else
  if eq "if-range" "" then Some 42 else
  if eq "if-unmodified-since" "" then Some 43 else
  if eq "last-modified" "" then Some 44 else
  if eq "link" "" then Some 45 else
  if eq "location" "" then Some 46 else
  if eq "max-forwards" "" then Some 47 else
  if eq "proxy-authenticate" "" then Some 48 else
  if eq "proxy-authorization" "" then Some 49 else
  if eq "range" "" then Some 50 else
  if eq "referer" "" then Some 51 else
  if eq "refresh" "" then Some 52 else
  if eq "retry-after" "" then Some 53 else
  if eq "server" "" then Some 54 else
  if eq "set-cookie" "" then Some 55 else
  if eq "strict-transport-security" "" then Some 56 else
  if eq "transfer-encoding" "" then Some 57 else
  if eq "user-agent" "" then Some 58 else
  if eq "vary" "" then Some 59 else
  if eq "via" "" then Some 60 else
  if eq "www-authenticate" "" then Some 61 else
  None.

Definition find_name (name : list Z) : option Z :=
  let eq n := bytes_eqb name (bs n) in
  if eq ":authority" then Some 1 else
  if eq ":method" then Some 2 else
  if eq ":path" then Some 4 else
  if eq ":scheme" then Some 6 else
  if eq ":status" then Some 8 else
  if eq "accept-charset" then Some 15 else
  if eq "accept-encoding" then Some 16 else
  if eq "accept-language" then Some 17 else
  if eq "accept-ranges" then Some 18 else
  if eq "accept" then Some 19 else
  if eq "access-control-allow-origin" then Some 20 else
  if eq "age" then Some 21 else
  if eq "allow" then Some 22 else
  if eq "authorization" then Some 23 else
  if eq "cache-control" then Some 24 else
  if eq "content-disposition" then Some 25 else
  if eq "content-encoding" then Some 26 else
  if eq "content-language" then Some 27 else
  if eq "content-length" then Some 28 else
  if eq "content-location" then Some 29 else
  if eq "content-range" then Some 30 else
  if eq "content-type" then Some 31 else
  if eq "cookie" then Some 32 else
  if eq "date" then Some 33 else
  if eq "etag" then Some 34 else
  if eq "expect" then Some 35 else
  if eq "expires" then Some 36 else
  if eq "from" then Some 37 else
  if eq "host" then Some 38 else
  if eq "if-match" then Some 39 else
  if eq "if-modified-since" then Some 40 else
  if eq "if-none-match" then Some 41 else
  if eq "if-range" then Some 42 else
  if eq "if-unmodified-since" then Some 43 else
  if eq "last-modified" then Some 44 else
  if eq "link" then Some 45 else
  if eq "location" then Some 46 else
  if eq "max-forwards" then Some 47 else
  if eq "proxy-authenticate" then Some 48 else
  if eq "proxy-authorization" then Some 49 else
  if eq "range" then Some 50 else
  if eq "referer" then Some 51 else
  if eq "refresh" then Some 52 else
  if eq "retry-after" then Some 53 else
  if eq "server" then Some 54 else
  if eq "set-cookie" then Some 55 else
  if eq "strict-transport-security" then Some 56 else
  if eq "transfer-encoding" then Some 57 else
  if eq "user-agent" then Some 58 else
  if eq "vary" then Some 59 else
  if eq "via" then Some 60 else
  if eq "www-authenticate" then Some 61 else
  None.

Definition get (index : Z) : option (list Z * list Z) :=
  if index =? 0 then None else TABLE !! Z.to_nat (index - 1).

(** ** Reference: first match by a scan *)

Fixpoint scan (p : list Z * list Z → bool) (l : list (list Z * list Z)) (i : Z) : option Z :=
  match l with
  | [] => None
  | e :: l' => if p e then Some i else scan p l' (i + 1)
  end.

Definition find_name_value_linear (name value : list Z) : option Z :=
  scan (fun e => bytes_eqb name e.1 && bytes_eqb value e.2) TABLE 1.

Definition find_name_linear (name : list Z) : option Z :=
  scan (fun e => bytes_eqb name e.1) TABLE 1.

Lemma find_name_value_scan name value :
  find_name_value name value = find_name_value_linear name value.
Proof. reflexivity. Qed.

Ltac split_scan :=
  match goal with
  | |- (if ?b then _ else _) = (if ?b then _ else _) => destruct b; [reflexivity|]
  end.

Lemma find_name_scan name : find_name name = find_name_linear name.
Proof.
  unfold find_name, find_name_linear, TABLE. cbn [scan fst]. cbv zeta.
  repeat split_scan. reflexivity.
Qed.

Lemma scan_found p l i j :
  scan p l i = Some j → ∃ k e, l !! k = Some e ∧ p e = true ∧ j = i + Z.of_nat k.
Proof.
  revert i. induction l as [|e l IH]; intros i; cbn [scan]; [done|].
  destruct (p e) eqn:He.
  - intros [= <-]. exists 0%nat, e. split_and!; [done..|lia].
  - intros (k & e' & Hk & Hp & ->)%IH. exists (S k), e'. split_and!; [done..|lia].
Qed.

Lemma get_succ k : get (1 + Z.of_nat k) = TABLE !! k.
Proof.
  unfold get. destruct (Z.eqb_spec (1 + Z.of_nat k) 0); [lia|]. f_equal. lia.
Qed.

(** A hit of the lookups is the entry at the returned index. *)
Lemma find_name_value_get name value i :
  find_name_value name value = Some i → get i = Some (name, value) ∧ 1 <= i <= 61.
Proof.
  rewrite find_name_value_scan. intros (k & [n v] & Hk & Hp & ->)%scan_found.
  apply andb_true_iff in Hp as [->%bytes_eqb_eq ->%bytes_eqb_eq].
  rewrite get_succ. split; [done|]. apply lookup_lt_Some in Hk.
  change (length TABLE) with 61%nat in Hk. lia.
Qed.

Lemma find_name_get name i :
  find_name name = Some i → (∃ value, get i = Some (name, value)) ∧ 1 <= i <= 61.
Proof.
  rewrite find_name_scan. intros (k & [n v] & Hk & Hp & ->)%scan_found.
  apply bytes_eqb_eq in Hp. simpl in Hp. subst n.
  rewrite get_succ. split; [by exists v|]. apply lookup_lt_Some in Hk.
  change (length TABLE) with 61%nat in Hk. lia.
Qed.

Lemma get_range i e : get i = Some e → (1 <= i <= 61 ∨ i < 0).
Proof.
  unfold get. case_if; [done|]. intros Hk%lookup_lt_Some.
  change (length TABLE) with 61%nat in Hk. lia.
Qed.

(** ** Properties *)

(** The match-based static-table lookups equal first-match scans of the table, and what
    they return is the entry at that index. *)
Theorem static_lookups_are_scans name value :
  find_name_value name value = find_name_value_linear name value ∧
  find_name name = find_name_linear name ∧
  (∀ i, find_name_value name value = Some i → get i = Some (name, value)) ∧
  (∀ i, find_name name = Some i → ∃ v, get i = Some (name, v)).
Proof.
  split_and!; [apply find_name_value_scan|apply find_name_scan| |].
  - intros i H. by apply find_name_value_get in H as [? _].
  - intros i H. by apply find_name_get in H as [? _].
Qed.

End static_table.
