(* ===== verification/HpackString.v ===== *)
(** * HPACK string literals: [crates/hj-h2/src/hpack/mod.rs], lines 30 to 163

    Writers give the octets they append to [out]; readers take the input still to be read
    and give back what follows the string. The thread-local memo of long literals is
    explicit state. *)

From stdpp Require Import base list strings.
From Stdlib Require Import ZArith Lia.
From S2P Require Import Prelude HpackInteger Huffman HuffmanDecode.

Module hpack_string.

Inductive Error : Type :=
| Truncated
| BadIndex
| BadString
| InvalidSizeUpdate
| HeaderListTooLarge.

#[export] Instance Error_eq_dec : EqDecision Error.
Proof. solve_decision. Defined.

Definition LONG_LITERAL_MIN : Z := 257.
Definition LONG_LITERAL_SLOTS : Z := 8.

(** The thread-local [LONG_LITERALS]: the slot to replace next, and the slots. *)
Record LongLiterals : Type := {
  next : Z;
  slots : list (list Z * list Z);
}.

Definition empty_memo : LongLiterals := {| next := 0; slots := [] |}.

Definition encode_string_literal (raw : list Z) : list Z :=
  let hlen := huffman.encoded_len raw in
  if hlen <? zlen raw
  then integer.encode hlen 7 0x80 ++ huffman.encode_sized raw hlen
  else integer.encode (zlen raw) 7 0x00 ++ raw.

(** The borrow of the thread-local cannot fail: the encoder is not re-entrant. *)
Definition encode_string_bytes (memo : LongLiterals) (raw : list Z) : LongLiterals * list Z :=
  if zlen raw <? LONG_LITERAL_MIN then (memo, encode_string_literal raw)
  else
    match List.find (fun '(key, _) => bytes_eqb key raw) (slots memo) with
    | Some (_, encoded) => (memo, encoded)
    | None =>
        let encoded := encode_string_literal raw in
        let entry := (raw, encoded) in
        let slots' :=
          if next memo <? zlen (slots memo)
          then <[Z.to_nat (next memo) := entry]> (slots memo)
          else slots memo ++ [entry] in
        ({| next := (next memo + 1) mod LONG_LITERAL_SLOTS; slots := slots' |}, encoded)
    end.

Definition encode_string (memo : LongLiterals) (s : list Z) : LongLiterals * list Z :=
  encode_string_bytes memo s.

Definition value_is_secret (name : list Z) : bool :=
  bytes_eqb name (bs "authorization") || bytes_eqb name (bs "cookie")
  || bytes_eqb name (bs "proxy-authorization") || bytes_eqb name (bs "set-cookie").

Section decode_string.
Local Open Scope result_scope.

(** [buf.get(pos..end)] with [end = pos + len]; the addition cannot overflow when the
    slice exists. *)
Definition get_range (buf : list Z) (len : Z) : option (list Z * list Z) :=
  if len <=? zlen buf then Some (take (Z.to_nat len) buf, drop (Z.to_nat len) buf) else None.

Definition decode_string (buf : list Z) : result Error (list Z * list Z) :=
  let? b := ok_or (head buf) Truncated in
  let huff := negb (Z.land b 0x80 =? 0) in
  let? (len, buf) := ok_or (integer.decode buf 7) Truncated in
  let? (bytes, rest) := ok_or (get_range buf len) Truncated in
  if huff then
    let? decoded := ok_or (huffman_decode.decode bytes) BadString in Ok (decoded, rest)
  else Ok (bytes, rest).

Definition decode_string_into (buf : list Z) : result Error (list Z * list Z) :=
  let? b := ok_or (head buf) Truncated in
  let huff := negb (Z.land b 0x80 =? 0) in
  let? (len, buf) := ok_or (integer.decode buf 7) Truncated in
  let? (bytes, rest) := ok_or (get_range buf len) Truncated in
  if huff then
    let? scratch := ok_or (huffman_decode.decode_into bytes) BadString in Ok (scratch, rest)
  else Ok (bytes, rest).

End decode_string.

(** ** Lemmas *)

Lemma decode_string_into_eq buf : decode_string_into buf = decode_string buf.
Proof. done. Qed.

Abbreviation ISIZE_MAX := huffman_decode.ISIZE_MAX.

Lemma encoded_len_nonneg raw : octets raw → 0 <= huffman.encoded_len raw.
Proof.
  intros Hr. rewrite <-(huffman.zlen_encode_sized raw 0 Hr). apply zlen_nonneg.
Qed.

Lemma encode_string_literal_octets raw : octets raw → octets (encode_string_literal raw).
Proof.
  intros Hr. unfold encode_string_literal. cbv zeta. case_if; apply Forall_app; split; try done;
    try (apply integer.encode_octets; unfold is_byte; lia).
  by apply huffman.encode_sized_image.
Qed.

Lemma get_range_app l rest n : zlen l = n → get_range (l ++ rest) n = Some (l, rest).
Proof.
  intros <-. unfold get_range. rewrite zlen_app. pose proof (zlen_nonneg rest).
  destruct (Z.leb_spec (zlen l) (zlen l + zlen rest)); [|lia].
  unfold zlen. by rewrite Nat2Z.id, take_app_length, drop_app_length.
Qed.

(** The first octet of an integer keeps the flag bit above its prefix. *)
Lemma encode_head_flag v flag rest :
  (flag = 0 ∨ flag = 0x80) → 0 <= v →
  ∃ b, head (integer.encode v 7 flag ++ rest) = Some b ∧ Z.land b 0x80 = flag.
Proof.
  intros Hf Hv. unfold integer.encode. cbv zeta. rewrite shiftl_1_sub_1.
  change (Z.ones 7) with 127.
  assert (Hland : ∀ x, 0 <= x < 128 → Z.land (Z.lor flag (u8 x)) 128 = flag).
  { intros x Hx. rewrite u8_id by (unfold is_byte; lia). rewrite Z.land_lor_distr_l.
    rewrite (proj2 (integer.last_octet x Hx)), Z.lor_0_r. by destruct Hf as [-> | ->]. }
  case_if; eexists; (split; [reflexivity|]); apply Hland; lia.
Qed.

Lemma decode_string_literal raw rest :
  octets raw → zlen raw <= ISIZE_MAX →
  decode_string (encode_string_literal raw ++ rest) = Ok (raw, rest).
Proof.
  intros Hr Hl. pose proof (encoded_len_nonneg raw Hr). pose proof (zlen_nonneg raw).
  unfold ISIZE_MAX, huffman_decode.ISIZE_MAX in Hl.
  unfold encode_string_literal, decode_string. cbv zeta. case_if; rewrite <-app_assoc.
  - destruct (encode_head_flag (huffman.encoded_len raw) 0x80
      (huffman.encode_sized raw (huffman.encoded_len raw) ++ rest)) as (b & -> & Hb); [auto..|].
    cbn [ok_or]. rewrite Hb, integer.decode_encode_len by (auto with hj; lia).
    cbn [ok_or]. rewrite get_range_app by (by apply huffman.zlen_encode_sized).
    cbn [ok_or negb Z.eqb]. fold (huffman.encode raw).
    rewrite huffman_decode.decode_encode_roundtrip; [done..|].
    unfold huffman_decode.ISIZE_MAX. lia.
  - destruct (encode_head_flag (zlen raw) 0 (raw ++ rest)) as (b & -> & Hb); [auto..|].
    cbn [ok_or]. rewrite Hb, integer.decode_encode_len by (auto with hj; lia).
    cbn [ok_or]. by rewrite get_range_app.
Qed.

(** Reading a string takes at least its length octet. *)
Lemma decode_string_suffix buf str rest :
  octets buf → decode_string buf = Ok (str, rest) →
  ∃ used, buf = used ++ rest ∧ (1 ≤ length used)%nat.
Proof.
  intros Ho. unfold decode_string. destruct (head buf) as [b|]; [|done]. cbn [ok_or].
  destruct (integer.decode buf 7) as [[len r]|] eqn:E; [|done]. cbn [ok_or].
  apply integer.decode_sound in E as (_ & used & -> & Hu); [|done|lia].
  unfold get_range. case_if; [|done]. cbn [ok_or]. intros Hr.
  assert (rest = drop (Z.to_nat len) r) as ->.
  { destruct (negb _); [|by injection Hr]. destruct (huffman_decode.decode _); [|done].
    by injection Hr. }
  exists (used ++ take (Z.to_nat len) r). rewrite <-app_assoc, take_drop, length_app. split; [done|lia].
Qed.

(** ** The memo *)

(** Every remembered encoding is the one the encoder would compute, and the memo is
    bounded. *)
Record memo_ok (memo : LongLiterals) : Prop := {
  memo_faithful : Forall (fun '(key, encoded) => encoded = encode_string_literal key) (slots memo);
  memo_bounded : zlen (slots memo) <= LONG_LITERAL_SLOTS;
  memo_next : 0 <= next memo < LONG_LITERAL_SLOTS ∧
    (zlen (slots memo) < LONG_LITERAL_SLOTS → next memo = zlen (slots memo));
}.

Lemma empty_memo_ok : memo_ok empty_memo.
Proof. split; [constructor|done|done]. Qed.

(** The memo changes nothing on the wire. *)
Lemma encode_string_bytes_literal memo raw :
  memo_ok memo → (encode_string_bytes memo raw).2 = encode_string_literal raw.
Proof.
  intros [Hf _ _]. unfold encode_string_bytes. case_if; [done|].
  destruct (List.find _ _) as [[k e]|] eqn:E; [|done].
  apply List.find_some in E as [Hin ->%bytes_eqb_eq].
  apply list_elem_of_In in Hin. by apply (proj1 (Forall_forall _ _) Hf) in Hin.
Qed.

Lemma encode_string_bytes_ok memo raw : memo_ok memo → memo_ok (encode_string_bytes memo raw).1.
Proof.
  intros H. pose proof H as [Hf Hb [Hn Hn']]. unfold encode_string_bytes. case_if; [done|].
  destruct (List.find _ _) as [[k e]|] eqn:E; [done|]. cbn [fst]. cbv zeta.
  unfold LONG_LITERAL_SLOTS in *. pose proof (zlen_nonneg (slots memo)).
  pose proof (Z.mod_pos_bound (next memo + 1) 8 ltac:(lia)).
  case_if; split; cbn [slots next].
  - by apply Forall_insert.
  - unfold zlen. by rewrite length_insert.
  - unfold LONG_LITERAL_SLOTS, zlen in *. rewrite length_insert. split; [done|lia].
  - apply Forall_app. split; [done|by repeat constructor].
  - rewrite zlen_app. change (zlen [_]) with 1. unfold LONG_LITERAL_SLOTS. lia.
  - rewrite zlen_app. change (zlen [(raw, encode_string_literal raw)]) with 1.
    unfold LONG_LITERAL_SLOTS. split; [done|]. intros.
    rewrite Z.mod_small by lia. lia.
Qed.

(** A key of the memo after a call is an old one or the string encoded. *)
Lemma encode_string_bytes_keys memo raw key :
  key ∈ (slots (encode_string_bytes memo raw).1).*1 →
  key ∈ (slots memo).*1 ∨ (key = raw ∧ LONG_LITERAL_MIN <= zlen raw).
Proof.
  unfold encode_string_bytes. case_if; [by left|].
  destruct (List.find _ _) as [[k e]|]; [by left|]. cbn [fst slots]. cbv zeta. case_if.
  - rewrite list_fmap_insert. cbn [fst]. intros [->|Hk]%elem_of_insert_inv; auto.
  - rewrite fmap_app, elem_of_app. intros [?|Hk]; [by left|right].
    apply list_elem_of_singleton in Hk. done.
Qed.

(** ** Properties *)

(** A string literal written through the long-literal memo, Huffman-coded or raw, is
    read back exactly, and the memo stays faithful. *)
Theorem string_roundtrip memo raw rest :
  memo_ok memo → octets raw → zlen raw <= ISIZE_MAX →
  let '(memo', wire) := encode_string_bytes memo raw in
  memo_ok memo' ∧ decode_string (wire ++ rest) = Ok (raw, rest).
Proof.
  intros Hm Ho Hl. pose proof (encode_string_bytes_literal memo raw Hm) as Hw.
  pose proof (encode_string_bytes_ok memo raw Hm). destruct (encode_string_bytes memo raw) as [m w].
  simpl in Hw. subst w. split; [done|]. by apply decode_string_literal.
Qed.

Lemma string_roundtrip_witness :
  let raw := replicate 300 0x61 in
  let '(memo, _) := encode_string_bytes empty_memo raw in
  let '(memo', wire) := encode_string_bytes memo raw in
  memo_ok memo' ∧ decode_string (wire ++ [1]) = Ok (raw, [1]).
Proof.
  intros raw. destruct (encode_string_bytes empty_memo raw) as [memo w] eqn:E.
  apply (string_roundtrip memo raw [1]).
  - replace memo with (encode_string_bytes empty_memo raw).1 by (by rewrite E).
    apply encode_string_bytes_ok, empty_memo_ok.
  - repeat constructor; discriminate.
  - by vm_compute.
Defined.

End hpack_string.
