(* ===== verification/HpackTable.v ===== *)
(** * The HPACK dynamic table, as RFC 7541 section 4 describes it

    The encoder and the decoder of [crates/hj-h2/src/hpack/mod.rs] each keep a table,
    newest entry first, with a running size and an eviction loop of its own. This file
    holds the specification both are shown to implement: a list of fields, cut to the
    newest entries that fit the maximum size. *)

From stdpp Require Import base list.
From Stdlib Require Import ZArith Lia.
From S2P Require Import Prelude.

Abbreviation header := (list Z * list Z)%type.

(** RFC 7541 section 4.1. *)
Definition ENTRY_OVERHEAD : Z := 32.

(** The number of entries of the static table. *)
Definition STATIC_LEN : Z := 61.

Definition entry_size (h : header) : Z := zlen h.1 + zlen h.2 + ENTRY_OVERHEAD.

Definition table_size (dyn : list header) : Z := fold_right (fun h n => entry_size h + n) 0 dyn.

(** The newest entries of [dyn] that fit in [room]. *)
Fixpoint fit (room : Z) (dyn : list header) : list header :=
  match dyn with
  | [] => []
  | h :: dyn' => if entry_size h <=? room then h :: fit (room - entry_size h) dyn' else []
  end.

Lemma entry_size_pos h : 32 <= entry_size h.
Proof.
  unfold entry_size, ENTRY_OVERHEAD. pose proof (zlen_nonneg h.1). pose proof (zlen_nonneg h.2). lia.
Qed.

Lemma table_size_cons h dyn : table_size (h :: dyn) = entry_size h + table_size dyn.
Proof. done. Qed.

Lemma table_size_nonneg dyn : 0 <= table_size dyn.
Proof.
  induction dyn as [|h dyn IH]; simpl; [lia|]. pose proof (entry_size_pos h). lia.
Qed.

Lemma table_size_app a b : table_size (a ++ b) = table_size a + table_size b.
Proof. induction a as [|h a IH]; simpl; lia. Qed.

Lemma table_size_length dyn : 32 * zlen dyn <= table_size dyn.
Proof.
  induction dyn as [|h dyn IH]; [done|]. rewrite zlen_cons. simpl.
  pose proof (entry_size_pos h). lia.
Qed.

Lemma table_size_0 dyn : table_size dyn <= 0 → dyn = [].
Proof.
  destruct dyn as [|h dyn]; [done|]. simpl.
  pose proof (entry_size_pos h). pose proof (table_size_nonneg dyn). lia.
Qed.

Lemma fit_all room dyn : table_size dyn <= room → fit room dyn = dyn.
Proof.
  revert room. induction dyn as [|h dyn IH]; intros room; simpl; [done|]. intros H.
  pose proof (table_size_nonneg dyn). case_if; [|lia]. f_equal. apply IH. lia.
Qed.

Lemma fit_none room dyn : room < 0 → fit room dyn = [].
Proof.
  destruct dyn as [|h dyn]; [done|]. simpl. intros H. pose proof (entry_size_pos h).
  case_if; [lia|done].
Qed.

(** Dropping the oldest entry of a table that does not fit changes nothing. *)
Lemma fit_snoc room dyn h : room < table_size (dyn ++ [h]) → fit room (dyn ++ [h]) = fit room dyn.
Proof.
  revert room. induction dyn as [|h' dyn IH]; intros room; simpl.
  - intros ?. case_if; [lia|done].
  - intros ?. case_if; [|done]. f_equal. apply IH. lia.
Qed.

Lemma fit_size room dyn : 0 <= room → table_size (fit room dyn) <= room.
Proof.
  revert room. induction dyn as [|h dyn IH]; intros room; simpl; [done|]. intros ?.
  case_if; simpl; [|done]. specialize (IH (room - entry_size h) ltac:(lia)). lia.
Qed.

Lemma fit_Forall (P : header → Prop) room dyn : Forall P dyn → Forall P (fit room dyn).
Proof.
  intros H. revert room. induction H as [|h dyn Hh H IH]; intros room; simpl; [constructor|].
  case_if; constructor; auto.
Qed.

Lemma fit_fit room room' dyn : room' <= room → fit room' (fit room dyn) = fit room' dyn.
Proof.
  revert room room'. induction dyn as [|h dyn IH]; intros room room' H; simpl; [done|].
  destruct (Z.leb_spec (entry_size h) room); simpl.
  - case_if; [|done]. f_equal. apply IH. lia.
  - case_if; [lia|done].
Qed.

(** The fields are octet strings that fit in a slice. *)
Definition header_ok (h : header) : Prop :=
  octets h.1 ∧ octets h.2 ∧ zlen h.1 < 2 ^ 63 ∧ zlen h.2 < 2 ^ 63.

(** First index of [dyn], from [i], whose entry satisfies [p]. *)
Fixpoint position (p : header → bool) (dyn : list header) (i : Z) : option Z :=
  match dyn with
  | [] => None
  | h :: dyn' => if p h then Some i else position p dyn' (i + 1)
  end.

Lemma position_found p dyn i j :
  position p dyn i = Some j →
  ∃ h, dyn !! Z.to_nat (j - i) = Some h ∧ p h = true ∧ i <= j < i + zlen dyn.
Proof.
  revert i. induction dyn as [|h dyn IH]; intros i; cbn [position]; [done|].
  rewrite zlen_cons. pose proof (zlen_nonneg dyn). destruct (p h) eqn:Hp.
  - intros [= <-]. exists h. rewrite Z.sub_diag. split_and!; [done..|lia|lia].
  - intros (h' & Hh & Hp' & Hj)%IH. exists h'.
    replace (Z.to_nat (j - i)) with (S (Z.to_nat (j - (i + 1)))) by lia.
    split_and!; [done..|lia|lia].
Qed.
