(* ===== verification/HpackEncoder.v ===== *)
(** * The HPACK encoder: [crates/hj-h2/src/hpack/mod.rs], [struct Encoder]

    The dynamic table is held three times: the entries, their insertion numbers and a hash
    map from names to insertion numbers. [Encoder] keeps all three; the invariant
    [encoder_inv] says they agree, and every lookup through the map is a first-match scan
    of the entries. The hash map is a finite map on octet strings; [VecDeque]s are lists
    with the front first. *)

From stdpp Require Import base list gmap strings.
From Stdlib Require Import ZArith Lia.
From S2P Require Import Prelude HpackInteger Huffman HuffmanDecode StaticTable.
From S2P Require Import HpackString HpackTable.

Module encoder.
Import hpack_string.

Record Encoder : Type := {
  dynamic : list header;
  seqnos : list Z;
  ins_count : Z;
  name_index : gmap (list Z) (list Z);
  size : Z;
  max_size : Z;
  preferred_max : Z;
  pending_size_update : option Z;
  pending_min_size : option Z;
}.

Definition default : Encoder :=
  {| dynamic := []; seqnos := []; ins_count := 0; name_index := ∅; size := 0;
     max_size := 4096; preferred_max := 4096;
     pending_size_update := None; pending_min_size := None |}.

(** The same encoder with other pending size updates. *)
Definition with_pending (e : Encoder) (update min : option Z) : Encoder :=
  {| dynamic := dynamic e; seqnos := seqnos e; ins_count := ins_count e;
     name_index := name_index e; size := size e; max_size := max_size e;
     preferred_max := preferred_max e;
     pending_size_update := update; pending_min_size := min |}.

(** The same encoder with another table limit. *)
Definition with_max_size (e : Encoder) (max : Z) : Encoder :=
  {| dynamic := dynamic e; seqnos := seqnos e; ins_count := ins_count e;
     name_index := name_index e; size := size e; max_size := max;
     preferred_max := preferred_max e;
     pending_size_update := pending_size_update e; pending_min_size := pending_min_size e |}.

Definition set_peer_max_size (e : Encoder) (peer_max : Z) : Encoder :=
  let target := Z.min peer_max (preferred_max e) in
  let min :=
    match pending_min_size e with Some prev => Z.min prev target | None => target end in
  if (target =? max_size e) && (target <=? min) then with_pending e None None
  else with_pending e (Some target) (Some min).

Definition hpack_index (e : Encoder) (seqno : Z) : Z :=
  STATIC_LEN + 1 + (ins_count e - 1 - seqno).

(** [list.iter().rev().find_map(..)] *)
Fixpoint find_map {A B} (f : A → option B) (l : list A) : option B :=
  match l with
  | [] => None
  | x :: l' => match f x with Some y => Some y | None => find_map f l' end
  end.

Definition find_dynamic (e : Encoder) (name value : list Z) : option Z :=
  match name_index e !! name with
  | None => None
  | Some l =>
      find_map (fun seqno =>
        let pos := ins_count e - 1 - seqno in
        match dynamic e !! Z.to_nat pos with
        | None => None
        | Some (_, v) => if bytes_eqb v value then Some (hpack_index e seqno) else None
        end) (rev l)
  end.

Definition find_dynamic_name (e : Encoder) (name : list Z) : option Z :=
  match name_index e !! name with
  | None => None
  | Some l => match last l with Some seqno => Some (hpack_index e seqno) | None => None end
  end.

(** [list.remove(list.iter().position(|s| *s == seqno))], if it is there. *)
Fixpoint remove_seqno (seqno : Z) (l : list Z) : list Z :=
  match l with
  | [] => []
  | s :: l' => if s =? seqno then l' else s :: remove_seqno seqno l'
  end.

(** [(false, _)] when the table is already empty. *)
Definition evict_back (e : Encoder) : bool * Encoder :=
  match last (dynamic e), last (seqnos e) with
  | Some (n, v), Some seqno =>
      let index :=
        match name_index e !! n with
        | Some l =>
            let l := remove_seqno seqno l in
            match l with [] => delete n (name_index e) | _ => <[n := l]> (name_index e) end
        | None => name_index e
        end in
      (true,
       {| dynamic := removelast (dynamic e); seqnos := removelast (seqnos e);
          ins_count := ins_count e; name_index := index;
          size := size e - (zlen n + zlen v + ENTRY_OVERHEAD);
          max_size := max_size e; preferred_max := preferred_max e;
          pending_size_update := pending_size_update e;
          pending_min_size := pending_min_size e |})
  | _, _ =>
      (false,
       {| dynamic := removelast (dynamic e); seqnos := removelast (seqnos e);
          ins_count := ins_count e; name_index := name_index e; size := size e;
          max_size := max_size e; preferred_max := preferred_max e;
          pending_size_update := pending_size_update e;
          pending_min_size := pending_min_size e |})
  end.

(** [while self.size + need > self.max_size] around [evict_back]: a round removes an entry
    or ends the loop, so as many rounds as entries, and one more, are enough. *)
Fixpoint evict_loop (fuel : nat) (need : Z) (e : Encoder) : Encoder :=
  match fuel with
  | O => e
  | S fuel' =>
      if max_size e <? size e + need then
        match evict_back e with
        | (true, e') => evict_loop fuel' need e'
        | (false, e') => e'
        end
      else e
  end.

Definition evict_while (need : Z) (e : Encoder) : Encoder :=
  evict_loop (S (length (dynamic e))) need e.

Definition insert (e : Encoder) (name value : list Z) : Encoder :=
  let entry_size := zlen name + zlen value + ENTRY_OVERHEAD in
  let e := evict_while entry_size e in
  if entry_size <=? max_size e then
    let seqno := ins_count e in
    {| dynamic := (name, value) :: dynamic e; seqnos := seqno :: seqnos e;
       ins_count := ins_count e + 1;
       name_index :=
         match name_index e !! name with
         | Some l => <[name := l ++ [seqno]]> (name_index e)
         | None => <[name := [seqno]]> (name_index e)
         end;
       size := size e + entry_size; max_size := max_size e; preferred_max := preferred_max e;
       pending_size_update := pending_size_update e; pending_min_size := pending_min_size e |}
  else e.

Definition never_indexed : list string :=
  [":path"; "age"; "content-range"; "date"; "expires"; "if-modified-since"; "if-none-match";
   "set-cookie"; "x-wf-shell-age"]%string.

Definition indexable (name value : list Z) : bool :=
  (zlen value <=? 256) && negb (existsb (fun s => bytes_eqb name (bs s)) never_indexed).

(** Step 0 of [encode_header_inner]: the pending size update leads the block. *)
Definition emit_size_update (e : Encoder) : Encoder * list Z :=
  match pending_size_update e with
  | Some new_max =>
      let min_size := match pending_min_size e with Some m => m | None => new_max end in
      let e := with_pending e None None in
      let '(e, out) :=
        if min_size <? new_max
        then (evict_while 0 (with_max_size e min_size), integer.encode min_size 5 0x20)
        else (e, []) in
      (evict_while 0 (with_max_size e new_max), out ++ integer.encode new_max 5 0x20)
  | None => (with_pending e None None, [])
  end.

(** [Option::or_else] *)
Definition or_else {A} (o o' : option A) : option A :=
  match o with Some a => Some a | None => o' end.

Definition encode_header_inner (memo : LongLiterals) (e : Encoder) (name value : list Z)
    : LongLiterals * Encoder * list Z :=
  let '(e, out) := emit_size_update e in
  let indexable := indexable name value in
  match or_else (static_table.find_name_value name value)
          (if indexable then find_dynamic e name value else None) with
  | Some idx => (memo, e, out ++ integer.encode idx 7 0x80)
  | None =>
      let name_ref := or_else (static_table.find_name name) (find_dynamic_name e name) in
      if indexable then
        let '(memo, out) :=
          match name_ref with
          | Some i => (memo, out ++ integer.encode i 6 0x40)
          | None =>
              let '(memo, s) := encode_string memo name in (memo, out ++ [0x40] ++ s)
          end in
        let '(memo, s) := encode_string_bytes memo value in
        (memo, insert e name value, out ++ s)
      else
        let '(memo, out) :=
          match name_ref with
          | Some i => (memo, out ++ integer.encode i 4 0x00)
          | None =>
              let '(memo, s) := encode_string memo name in (memo, out ++ [0x00] ++ s)
          end in
        let '(memo, s) :=
          if value_is_secret name then (memo, encode_string_literal value)
          else encode_string_bytes memo value in
        (memo, e, out ++ s)
  end.

Definition encode_header (memo : LongLiterals) (e : Encoder) (name value : list Z)
    : LongLiterals * Encoder * list Z :=
  encode_header_inner memo e name value.

(** A header block: [encode_header] for each field in turn. *)
Fixpoint encode_block (memo : LongLiterals) (e : Encoder) (hs : list header)
    : LongLiterals * Encoder * list Z :=
  match hs with
  | [] => (memo, e, [])
  | (n, v) :: hs' =>
      let '(memo, e, out) := encode_header memo e n v in
      let '(memo, e, out') := encode_block memo e hs' in
      (memo, e, out ++ out')
  end.

(** ** Invariant *)

(** The insertion numbers of a table of [n] entries, newest first. *)
Fixpoint countdown (ins : Z) (n : nat) : list Z :=
  match n with O => [] | S n' => (ins - 1) :: countdown (ins - 1) n' end.

(** The insertion numbers of the entries named [name], newest first. *)
Fixpoint live (ins : Z) (dyn : list header) (name : list Z) : list Z :=
  match dyn with
  | [] => []
  | (n, _) :: dyn' =>
      if bytes_eqb n name then (ins - 1) :: live (ins - 1) dyn' name
      else live (ins - 1) dyn' name
  end.

Definition nonempty {A} (l : list A) : option (list A) :=
  match l with [] => None | _ => Some l end.

(** The three views of the table agree, and the running size is the size. *)
Record encoder_inv (e : Encoder) : Prop := {
  inv_seqnos : seqnos e = countdown (ins_count e) (length (dynamic e));
  inv_index : ∀ n, name_index e !! n = nonempty (rev (live (ins_count e) (dynamic e) n));
  inv_size : size e = table_size (dynamic e);
}.

(** Everything but the table is unchanged. *)
Definition same_limits (e e' : Encoder) : Prop :=
  max_size e' = max_size e ∧ preferred_max e' = preferred_max e ∧
  pending_size_update e' = pending_size_update e ∧ pending_min_size e' = pending_min_size e.

Lemma same_limits_refl e : same_limits e e.
Proof. done. Qed.

Lemma same_limits_trans e1 e2 e3 : same_limits e1 e2 → same_limits e2 e3 → same_limits e1 e3.
Proof. unfold same_limits. intuition congruence. Qed.

Lemma countdown_snoc ins n : countdown ins (S n) = countdown ins n ++ [ins - Z.of_nat (S n)].
Proof.
  revert ins. induction n as [|n IH]; intros ins; [done|].
  change (countdown ins (S (S n))) with ((ins - 1) :: countdown (ins - 1) (S n)).
  rewrite IH. cbn [countdown app]. do 3 f_equal. lia.
Qed.

Lemma live_app ins a b name :
  live ins (a ++ b) name = live ins a name ++ live (ins - zlen a) b name.
Proof.
  revert ins. induction a as [|[n v] a IH]; intros ins.
  - simpl. f_equal. change (zlen []) with 0. lia.
  - rewrite zlen_cons. simpl. rewrite IH. replace (ins - (1 + zlen a)) with (ins - 1 - zlen a) by lia.
    by case_if.
Qed.

Lemma default_inv : encoder_inv default.
Proof. by split. Qed.

(** Evicting keeps the views in step. *)
Lemma enc_evict_back_spec e dyn h :
  encoder_inv e → dynamic e = dyn ++ [h] →
  ∃ e', evict_back e = (true, e') ∧ dynamic e' = dyn ∧ encoder_inv e' ∧ same_limits e e'.
Proof.
  intros [Hs Hi Hz] Hd. destruct h as [n v].
  set (s := ins_count e - zlen (dyn ++ [(n, v)])).
  assert (Hs' : seqnos e = countdown (ins_count e) (length dyn) ++ [s]).
  { rewrite Hs, Hd, length_app. simpl. rewrite Nat.add_1_r, countdown_snoc.
    subst s. rewrite zlen_app. do 2 f_equal. unfold zlen. simpl. lia. }
  assert (Hlive : ∀ m, live (ins_count e) (dynamic e) m =
    live (ins_count e) dyn m ++ (if bytes_eqb n m then [s] else [])).
  { intros m. rewrite Hd, live_app. simpl. f_equal. subst s. rewrite zlen_app.
    change (zlen [(n, v)]) with 1. case_if; [|done]. f_equal. lia. }
  unfold evict_back. rewrite Hd, Hs', !last_snoc. cbv beta iota zeta.
  eexists. split; [reflexivity|]. cbn [dynamic]. rewrite !removelast_last.
  split; [done|]. split; [|done]. split; cbn [dynamic seqnos ins_count name_index size].
  - done.
  - intros m. rewrite (Hi n), (Hlive n), bytes_eqb_refl, rev_app_distr. simpl.
    rewrite Z.eqb_refl. destruct (decide (n = m)) as [<-|Hne].
    + destruct (rev (live _ dyn n)) as [|x l]; simpl; by rewrite ?lookup_delete_eq, ?lookup_insert_eq.
    + transitivity (name_index e !! m).
      { destruct (rev (live _ dyn n)); by rewrite ?lookup_delete_ne, ?lookup_insert_ne. }
      rewrite Hi, Hlive. apply bytes_eqb_neq in Hne. by rewrite Hne, app_nil_r.
  - rewrite Hz, Hd, table_size_app. simpl. unfold entry_size. simpl. lia.
Qed.

Lemma enc_evict_loop_spec fuel need e :
  encoder_inv e → (length (dynamic e) < fuel)%nat →
  let e' := evict_loop fuel need e in
  encoder_inv e' ∧ same_limits e e' ∧ dynamic e' = fit (max_size e - need) (dynamic e).
Proof.
  revert e. induction fuel as [|fuel IH]; intros e Hinv Hf; [lia|]. cbn [evict_loop].
  pose proof (inv_size e Hinv) as Hz. case_if; cycle 1.
  { split_and!; try done. by rewrite fit_all by lia. }
  destruct (dynamic e) as [|h dyn _] eqn:Hd using rev_ind.
  - unfold evict_back. rewrite Hd. simpl.
    destruct Hinv as [Hs Hi _]. rewrite Hd in Hs, Hi. simpl in Hs, Hi.
    split_and!; try done. split; cbn; by rewrite ?Hs.
  - destruct (enc_evict_back_spec e dyn h Hinv Hd) as (e' & -> & Hd' & Hinv' & Hl).
    destruct (IH e' Hinv') as (H1 & H2 & H3).
    { rewrite Hd'. rewrite length_app in Hf. simpl in Hf. lia. }
    split_and!; [done|by eapply same_limits_trans|].
    rewrite H3, Hd'. destruct Hl as [-> _]. symmetry. apply fit_snoc. lia.
Qed.

Lemma enc_evict_while_spec need e :
  encoder_inv e →
  let e' := evict_while need e in
  encoder_inv e' ∧ same_limits e e' ∧ dynamic e' = fit (max_size e - need) (dynamic e).
Proof. intros H. apply enc_evict_loop_spec; [done|lia]. Qed.

Lemma enc_insert_spec e name value :
  encoder_inv e →
  let e' := insert e name value in
  encoder_inv e' ∧ same_limits e e' ∧ dynamic e' = fit (max_size e) ((name, value) :: dynamic e).
Proof.
  intros Hinv. unfold insert. cbv zeta.
  change (zlen name + zlen value + ENTRY_OVERHEAD) with (entry_size (name, value)).
  destruct (enc_evict_while_spec (entry_size (name, value)) e Hinv) as (Hinv' & Hl & Hd).
  set (e1 := evict_while _ _) in *. pose proof Hl as (Hmax & Hl'). rewrite Hmax. simpl fit.
  case_if; cycle 1.
  { split_and!; [done..|]. rewrite Hd. apply fit_none. lia. }
  rewrite <-Hd. split_and!; [|done..]. destruct Hinv' as [Hs Hi Hz].
  split; cbn [dynamic seqnos ins_count name_index size].
  - simpl. by rewrite Hs, Z.add_simpl_r.
  - intros m. simpl. rewrite Z.add_simpl_r. rewrite (Hi name).
    destruct (decide (name = m)) as [<-|Hne].
    + rewrite bytes_eqb_refl. simpl.
      destruct (rev (live _ (dynamic e1) name)) as [|x l]; simpl; by rewrite lookup_insert_eq.
    + transitivity (name_index e1 !! m).
      { destruct (nonempty _); by rewrite lookup_insert_ne. }
      apply bytes_eqb_neq in Hne. by rewrite Hne.
  - rewrite Hz. simpl. lia.
Qed.

(** ** Lookups *)

(** The lookups through the map are first-match scans of the table. *)
Definition find_dynamic_linear (e : Encoder) (name value : list Z) : option Z :=
  position (fun h => bytes_eqb h.1 name && bytes_eqb h.2 value) (dynamic e) (STATIC_LEN + 1).

Definition find_dynamic_name_linear (e : Encoder) (name : list Z) : option Z :=
  position (fun h => bytes_eqb h.1 name) (dynamic e) (STATIC_LEN + 1).

Lemma find_map_live ins pre dyn name value :
  find_map (fun s =>
      match (pre ++ dyn) !! Z.to_nat (ins - 1 - s) with
      | Some (_, v) => if bytes_eqb v value then Some (STATIC_LEN + 1 + (ins - 1 - s)) else None
      | None => None
      end) (live (ins - zlen pre) dyn name)
  = position (fun h => bytes_eqb h.1 name && bytes_eqb h.2 value) dyn (STATIC_LEN + 1 + zlen pre).
Proof.
  revert pre. induction dyn as [|[n v] dyn IH]; intros pre; [done|]. cbn [live position fst snd].
  specialize (IH (pre ++ [(n, v)])). rewrite <-app_assoc, zlen_app in IH.
  change (zlen [(n, v)]) with 1 in IH. cbn [app] in IH.
  replace (ins - (zlen pre + 1)) with (ins - zlen pre - 1) in IH by lia.
  rewrite Z.add_assoc in IH. destruct (bytes_eqb n name); cbn [find_map andb]; [|done].
  rewrite IH. replace (Z.to_nat (ins - 1 - (ins - zlen pre - 1))) with (length pre) by (unfold zlen; lia).
  rewrite list_lookup_middle by done. case_if; [f_equal; lia|done].
Qed.

Lemma find_dynamic_scan e name value :
  encoder_inv e → find_dynamic e name value = find_dynamic_linear e name value.
Proof.
  intros [_ Hi _]. unfold find_dynamic, find_dynamic_linear, hpack_index. rewrite Hi.
  pose proof (find_map_live (ins_count e) [] (dynamic e) name value) as H.
  change (zlen []) with 0 in H. rewrite Z.sub_0_r, Z.add_0_r in H. cbn [app] in H. rewrite <-H.
  destruct (rev (live _ _ _)) as [|x l] eqn:E; cbn [nonempty].
  - apply (f_equal (@rev Z)) in E. rewrite rev_involutive in E. by rewrite E.
  - by rewrite <-E, rev_involutive.
Qed.

Lemma live_head ins dyn name i :
  match head (live ins dyn name) with Some s => Some (i + (ins - 1 - s)) | None => None end
  = position (fun h => bytes_eqb h.1 name) dyn i.
Proof.
  revert ins i. induction dyn as [|[n v] dyn IH]; intros ins i; [done|]. cbn [live position fst].
  destruct (bytes_eqb n name); cbn [head]; [f_equal; lia|].
  rewrite <-(IH (ins - 1)). destruct (head _); [f_equal; lia|done].
Qed.

Lemma last_rev {A} (l : list A) : last (rev l) = head l.
Proof. destruct l as [|x l]; [done|]. simpl. apply last_snoc. Qed.

Lemma find_dynamic_name_scan e name :
  encoder_inv e → find_dynamic_name e name = find_dynamic_name_linear e name.
Proof.
  intros [_ Hi _]. unfold find_dynamic_name, find_dynamic_name_linear, hpack_index. rewrite Hi.
  rewrite <-(live_head (ins_count e)), <-last_rev. by destruct (rev (live _ _ _)) as [|x l].
Qed.

Lemma find_dynamic_found e name value i :
  encoder_inv e → find_dynamic e name value = Some i →
  dynamic e !! Z.to_nat (i - (STATIC_LEN + 1)) = Some (name, value) ∧
  STATIC_LEN < i <= STATIC_LEN + zlen (dynamic e).
Proof.
  intros Hinv. rewrite find_dynamic_scan by done. intros ([n v] & Hh & Hp & Hi)%position_found.
  apply andb_true_iff in Hp as [Hn%bytes_eqb_eq Hv%bytes_eqb_eq]. simpl in Hn, Hv. subst n v.
  split; [done|lia].
Qed.

Lemma find_dynamic_name_found e name i :
  encoder_inv e → find_dynamic_name e name = Some i →
  (∃ value, dynamic e !! Z.to_nat (i - (STATIC_LEN + 1)) = Some (name, value)) ∧
  STATIC_LEN < i <= STATIC_LEN + zlen (dynamic e).
Proof.
  intros Hinv. rewrite find_dynamic_name_scan by done. intros ([n v] & Hh & Hp & Hi)%position_found.
  apply bytes_eqb_eq in Hp. simpl in Hp. subst n. split; [by exists v|lia].
Qed.

(** ** Size updates *)

(** A pending update lies below the encoder's own cap, and the pending minimum below it. *)
Definition pending_ok (e : Encoder) : Prop :=
  0 <= max_size e ∧ 0 <= preferred_max e ∧
  match pending_size_update e, pending_min_size e with
  | Some new_max, Some min => 0 <= min <= new_max ∧ new_max <= preferred_max e
  | None, None => True
  | _, _ => False
  end.

Lemma default_pending_ok : pending_ok default.
Proof. done. Qed.

Lemma set_peer_max_size_inv e peer_max :
  encoder_inv e → encoder_inv (set_peer_max_size e peer_max).
Proof. intros [Hs Hi Hz]. unfold set_peer_max_size. cbv zeta. by case_if; split. Qed.

Lemma set_peer_max_size_pending_ok e peer_max :
  0 <= peer_max → pending_ok e → pending_ok (set_peer_max_size e peer_max).
Proof.
  intros Hp (Hm & Hpr & Hpe). unfold set_peer_max_size. cbv zeta. case_if; [done|].
  unfold pending_ok, with_pending. cbn.
  destruct (pending_min_size e), (pending_size_update e); try done; lia.
Qed.

Lemma with_max_size_inv e max : encoder_inv e → encoder_inv (with_max_size e max).
Proof. by intros [? ? ?]. Qed.

Lemma with_pending_inv e u m : encoder_inv e → encoder_inv (with_pending e u m).
Proof. by intros [? ? ?]. Qed.

(** The octets of a sequence of size updates, and what they do to a table. *)
Definition updates_wire (updates : list Z) : list Z :=
  mjoin ((fun m => integer.encode m 5 0x20) <$> updates).

Definition apply_updates (updates : list Z) (dyn : list header) : list header :=
  fold_left (fun dyn m => fit m dyn) updates dyn.

Lemma resize_spec e max :
  encoder_inv e →
  let e' := evict_while 0 (with_max_size e max) in
  encoder_inv e' ∧ same_limits (with_max_size e max) e' ∧ dynamic e' = fit max (dynamic e).
Proof.
  intros H. destruct (enc_evict_while_spec 0 (with_max_size e max)) as (? & ? & Hd);
    [by apply with_max_size_inv|]. split_and!; [done..|].
  simpl in Hd. by rewrite Z.sub_0_r in Hd.
Qed.

(** Step 0 writes a sequence of size updates no larger than the pending one and applies
    them to the table. *)
Lemma emit_size_update_spec e :
  encoder_inv e → pending_ok e → table_size (dynamic e) <= max_size e →
  let '(e', out) := emit_size_update e in
  encoder_inv e' ∧ pending_size_update e' = None ∧ pending_min_size e' = None ∧
  preferred_max e' = preferred_max e ∧ 0 <= max_size e' ∧
  table_size (dynamic e') <= max_size e' ∧
  ∃ updates, out = updates_wire updates ∧ dynamic e' = apply_updates updates (dynamic e) ∧
    max_size e' = List.last updates (max_size e) ∧
    Forall (fun m => ∃ new_max, pending_size_update e = Some new_max ∧ 0 <= m <= new_max) updates.
Proof.
  intros Hinv (Hm & Hpr & Hpe) Hfit. unfold emit_size_update.
  destruct (pending_size_update e) as [new_max|]; destruct (pending_min_size e) as [min|]; try done.
  - case_if.
    + destruct (resize_spec (with_pending e None None) min) as (H1 & (L1 & L2 & L3 & L4) & D1);
        [by apply with_pending_inv|].
      destruct (resize_spec (evict_while 0 (with_max_size (with_pending e None None) min)) new_max)
        as (H2 & (M1 & M2 & M3 & M4) & D2); [done|].
      cbn [with_max_size max_size preferred_max pending_size_update pending_min_size] in *.
      rewrite M1, M2, M3, M4, D2, D1, L2, L3, L4. cbn [with_pending preferred_max dynamic].
      split_and!; try done; [lia|apply fit_size; lia|]. exists [min; new_max]. split_and!; try done.
      * unfold updates_wire. simpl. by rewrite app_nil_r.
      * repeat constructor; eexists; (split; [done|lia]).
    + destruct (resize_spec (with_pending e None None) new_max) as (H1 & (L1 & L2 & L3 & L4) & D1);
        [by apply with_pending_inv|].
      cbn [with_max_size max_size preferred_max pending_size_update pending_min_size] in *.
      rewrite L1, L2, L3, L4, D1. cbn [with_pending preferred_max dynamic app].
      split_and!; try done; [lia|apply fit_size; lia|]. exists [new_max]. split_and!; try done.
      * unfold updates_wire. simpl. by rewrite app_nil_r.
      * repeat constructor; eexists; (split; [done|lia]).
  - split_and!; try done; [by apply with_pending_inv|]. by exists [].
Qed.

(** The table is cut to the smallest limit announced since the last block, and runs at the
    latest one. *)
Definition targets (e : Encoder) (peers : list Z) : list Z :=
  (fun m => Z.min m (preferred_max e)) <$> peers.

(** What [set_peer_max_size] has recorded after the limits [ts]. *)
Definition recorded (e e' : Encoder) (ts : list Z) : Prop :=
  dynamic e' = dynamic e ∧ max_size e' = max_size e ∧ preferred_max e' = preferred_max e ∧
  encoder_inv e' ∧ pending_ok e' ∧
  match pending_size_update e', pending_min_size e' with
  | Some t, Some m =>
      t = List.last ts (max_size e) ∧
      Z.min m (max_size e) = fold_right Z.min (max_size e) ts
  | _, _ => List.last ts (max_size e) = max_size e ∧ fold_right Z.min (max_size e) ts = max_size e
  end.

Lemma fold_min_snoc x ts t : fold_right Z.min x (ts ++ [t]) = Z.min t (fold_right Z.min x ts).
Proof. induction ts as [|y ts IH]; simpl; [done|]. rewrite IH. lia. Qed.

Lemma fold_min_le x ts : fold_right Z.min x ts <= x.
Proof. induction ts as [|y ts IH]; simpl; lia. Qed.

Lemma recorded_snoc e e' ts peer :
  0 <= peer → recorded e e' ts →
  recorded e (set_peer_max_size e' peer) (ts ++ [Z.min peer (preferred_max e)]).
Proof.
  intros Hp (Hd & Hm & Hpr & Hi & Hpo & Hr).
  pose proof (set_peer_max_size_inv e' peer Hi). pose proof (set_peer_max_size_pending_ok e' peer Hp Hpo).
  unfold recorded. rewrite fold_min_snoc, last_last. unfold set_peer_max_size in *. cbv zeta in *.
  rewrite Hpr, Hm in *. pose proof (fold_min_le (max_size e) ts).
  destruct Hpo as (_ & _ & Hpo).
  destruct (pending_min_size e') as [m|], (pending_size_update e') as [u|];
    (case_if; cbn [with_pending dynamic max_size preferred_max pending_size_update pending_min_size] in *;
     bool_hyps; split_and!; try done; try lia).
Qed.

Lemma recorded_all e peers :
  encoder_inv e → pending_ok e → pending_size_update e = None → Forall (Z.le 0) peers →
  recorded e (fold_left set_peer_max_size peers e) (targets e peers).
Proof.
  intros Hi Hpo Hn Hps. induction peers as [|p peers IH] using rev_ind.
  - unfold recorded. cbn [fold_left targets fmap list_fmap]. rewrite Hn. done.
  - apply Forall_app in Hps as [Hps [Hp _]%Forall_cons]. rewrite fold_left_app. cbn [fold_left].
    unfold targets. rewrite fmap_app. apply recorded_snoc; auto.
Qed.

(** A whole header: the invariant, and the limit. *)
Lemma encode_header_inv memo e name value :
  encoder_inv e → pending_ok e → table_size (dynamic e) <= max_size e →
  let '(_, e', _) := encode_header memo e name value in
  encoder_inv e' ∧ pending_ok e' ∧ table_size (dynamic e') <= max_size e' ∧
  pending_size_update e' = None.
Proof.
  intros Hi Hp Hf. unfold encode_header, encode_header_inner.
  pose proof (emit_size_update_spec e Hi Hp Hf) as H. destruct (emit_size_update e) as [e1 out].
  destruct H as (Hi1 & Hu1 & Hn1 & Hpr & Hm1 & Hf1 & _).
  assert (Hp1 : pending_ok e1).
  { unfold pending_ok. rewrite Hu1, Hn1, Hpr. by destruct Hp as (_ & ? & _). }
  destruct (or_else (static_table.find_name_value name value) _); [done|].
  set (name_ref := or_else _ _). clearbody name_ref. destruct (indexable name value).
  - destruct (enc_insert_spec e1 name value Hi1) as (Hi2 & (L1 & L2 & L3 & L4) & Hd2).
    destruct name_ref; [|destruct (encode_string memo name) as [m1 s1]];
      destruct (encode_string_bytes _ value); (split_and!; [done| | |congruence]);
      solve [unfold pending_ok; by rewrite L1, L2, L3, L4
            |rewrite Hd2, L1; by apply fit_size].
  - destruct name_ref; [|destruct (encode_string memo name) as [m1 s1]];
      (destruct (value_is_secret name); [done|]); by destruct (encode_string_bytes _ value).
Qed.

(** The names and values [encode_header] can add to the memo. *)
Lemma encode_header_keys memo e name value key :
  key ∈ (slots (encode_header memo e name value).1.1).*1 →
  key ∈ (slots memo).*1 ∨ key = name ∨ (key = value ∧ value_is_secret name = false).
Proof.
  unfold encode_header, encode_header_inner, encode_string. destruct (emit_size_update e) as [e1 out].
  destruct (or_else (static_table.find_name_value name value) _); [by left|].
  set (name_ref := or_else _ _). clearbody name_ref.
  pose proof (encode_string_bytes_keys memo name key) as Hn. unfold indexable.
  destruct (Z.leb_spec (zlen value) 256), (existsb _ never_indexed); cbn [negb andb].
  all: destruct name_ref; [pose proof (encode_string_bytes_keys memo value key) as Hv
    |destruct (encode_string_bytes memo name) as [m1 s1];
     pose proof (encode_string_bytes_keys m1 value key) as Hv].
  all: try (destruct (value_is_secret name) eqn:Es; [simpl in *; tauto|]).
  all: destruct (encode_string_bytes _ value); simpl in *; unfold LONG_LITERAL_MIN in *.
  all: intuition lia.
Qed.

(** ** Properties *)

(** Encoding any header keeps the entries, the insertion numbers and the hash index of
    the encoder's table in agreement, its running size exact, and the table within its
    limit. *)
Theorem encoder_table_invariant memo e name value :
  encoder_inv e → pending_ok e → table_size (dynamic e) <= max_size e →
  let '(_, e', _) := encode_header memo e name value in
  encoder_inv e' ∧ pending_ok e' ∧ table_size (dynamic e') <= max_size e'.
Proof.
  intros Hi Hp Hf. pose proof (encode_header_inv memo e name value Hi Hp Hf) as H.
  destruct (encode_header memo e name value) as [[m e'] o]. by destruct H as (? & ? & ? & _).
Qed.

Lemma encoder_table_invariant_witness :
  let '(_, e', _) := encode_header empty_memo default (bs "x-a") (bs "b") in
  encoder_inv e' ∧ pending_ok e' ∧ table_size (dynamic e') <= max_size e'.
Proof.
  apply (encoder_table_invariant empty_memo default (bs "x-a") (bs "b")).
  - apply default_inv.
  - apply default_pending_ok.
  - discriminate.
Defined.

(** The hash-indexed lookups of the encoder's dynamic table give what a newest-first
    scan of the table gives. *)
Theorem encoder_lookup_is_scan e name value :
  encoder_inv e →
  find_dynamic e name value = find_dynamic_linear e name value ∧
  find_dynamic_name e name = find_dynamic_name_linear e name.
Proof. split; [by apply find_dynamic_scan|by apply find_dynamic_name_scan]. Qed.

(** Two entries of one name: the newer one shadows the other by name, not by value. *)
Lemma encoder_lookup_is_scan_witness :
  let e := insert (insert default (bs "x-a") (bs "1")) (bs "x-a") (bs "2") in
  find_dynamic e (bs "x-a") (bs "1") = Some 63 ∧ find_dynamic_name e (bs "x-a") = Some 62.
Proof.
  intros e. assert (Hi : encoder_inv e).
  { apply enc_insert_spec, enc_insert_spec, default_inv. }
  destruct (encoder_lookup_is_scan e (bs "x-a") (bs "1") Hi) as [-> ->].
  by split; vm_compute.
Defined.

(** Between two blocks the peer may change its table size any number of times: the next
    block evicts to the smallest size seen, ends at the last one, and announces the smallest
    first when it is below both the old and the final size. *)
Theorem settings_smallest_then_final e peers :
  encoder_inv e → pending_ok e → pending_size_update e = None →
  table_size (dynamic e) <= max_size e → Forall (Z.le 0) peers →
  let smallest := fold_right Z.min (max_size e) (targets e peers) in
  let final := List.last (targets e peers) (max_size e) in
  let '(e', out) := emit_size_update (fold_left set_peer_max_size peers e) in
  dynamic e' = fit smallest (dynamic e) ∧ max_size e' = final ∧
  (smallest < max_size e → smallest < final →
     out = integer.encode smallest 5 0x20 ++ integer.encode final 5 0x20).
Proof.
  intros Hi Hp Hn Hf Hps.
  destruct (recorded_all e peers Hi Hp Hn Hps) as (Hd & Hm & Hpr & Hi' & (Hp1 & Hp2 & Hp3) & Hr).
  set (ts := targets e peers) in *. clearbody ts. cbv zeta.
  set (e1 := fold_left set_peer_max_size peers e) in *. clearbody e1. unfold emit_size_update.
  destruct (pending_size_update e1) as [t|], (pending_min_size e1) as [m|]; try done; cycle 1.
  { cbn [with_pending dynamic max_size]. destruct Hr as [-> ->]. rewrite Hd, fit_all by done.
    split_and!; [done..|lia]. }
  destruct Hr as [<- Hmin]. rewrite <-Hmin. destruct (Z.ltb_spec m t) as [Hlt|Hge].
  - destruct (resize_spec (with_pending e1 None None) m) as (Hi2 & L2 & Hd2);
      [by apply with_pending_inv|]. set (e2 := evict_while 0 _) in *. clearbody e2.
    destruct (resize_spec e2 t Hi2) as (Hi3 & L3 & Hd3). destruct L3 as (L3 & _).
    split_and!; [|done|intros; by rewrite Z.min_l by lia].
    rewrite Hd3, Hd2. cbn [with_pending dynamic]. rewrite Hd.
    rewrite (fit_all t) by (pose proof (fit_size m (dynamic e)); lia).
    destruct (Z.min_spec m (max_size e)) as [[? ->]|[? ->]]; [done|].
    rewrite !fit_all by lia. done.
  - destruct (resize_spec (with_pending e1 None None) t) as (Hi2 & L2 & Hd2);
      [by apply with_pending_inv|]. destruct L2 as (L2 & _). split_and!; [|done|lia].
    rewrite Hd2. cbn [with_pending dynamic]. rewrite Hd. replace t with m by lia.
    destruct (Z.min_spec m (max_size e)) as [[? ->]|[? ->]]; [done|].
    rewrite !fit_all by lia. done.
Qed.

(** Shrinking to 0 and growing back empties the table. *)
Lemma settings_smallest_then_final_witness :
  let e := insert default (bs "x-a") (bs "1") in
  let '(e', out) := emit_size_update (fold_left set_peer_max_size [0; 4096] e) in
  dynamic e' = [] ∧ max_size e' = 4096 ∧
  out = integer.encode 0 5 0x20 ++ integer.encode 4096 5 0x20.
Proof.
  intros e. assert (Hi : encoder_inv e) by apply enc_insert_spec, default_inv.
  pose proof (settings_smallest_then_final e [0; 4096] Hi) as H.
  destruct (emit_size_update (fold_left set_peer_max_size [0; 4096] e)) as [e' out].
  destruct H as (H1 & H2 & H3).
  - by vm_compute.
  - by vm_compute.
  - by vm_compute.
  - repeat constructor; discriminate.
  - split_and!; [exact H1|exact H2|by apply H3].
Defined.

(** Encoding a header whose value is secret (authorization, cookie,
    proxy-authorization, set-cookie) never puts that value into the thread-local memo. *)
Theorem secret_values_not_memoised memo e name value :
  value_is_secret name = true → value ∉ (slots memo).*1 → value ≠ name →
  value ∉ (slots (encode_header memo e name value).1.1).*1.
Proof.
  intros Hs Hm Hn Hk. apply encode_header_keys in Hk as [?|[?|[_ ?]]];
    [done|congruence|congruence].
Qed.

Lemma secret_values_not_memoised_witness :
  let secret := replicate 300 0x61 in
  secret ∉ (slots (encode_header empty_memo default (bs "cookie") secret).1.1).*1.
Proof.
  apply secret_values_not_memoised.
  - reflexivity.
  - apply not_elem_of_nil.
  - discriminate.
Defined.

End encoder.
