(* ===== verification/HpackDecoder.v ===== *)
(** * The HPACK decoder: [crates/hj-h2/src/hpack/mod.rs], [struct Decoder]

    [decode_octets] reads a whole header block. Its model gives the decoder afterwards, the
    fields handed to [emit] in order, and the result; the cursor [pos] is the input still
    to be read. [decode_field] is one round of its loop. *)

From stdpp Require Import base list.
From Stdlib Require Import ZArith Lia.
From S2P Require Import Prelude HpackInteger Huffman HuffmanDecode StaticTable.
From S2P Require Import HpackString HpackTable.

Module decoder.
Import hpack_string.

Record Decoder : Type := {
  dynamic : list header;
  size : Z;
  max_size : Z;
  hard_max : Z;
  max_list_size : Z;
}.

Definition new (max_size max_list_size : Z) : Decoder :=
  {| dynamic := []; size := 0; max_size := max_size; hard_max := max_size;
     max_list_size := max_list_size |}.

Definition entry_ref (d : Decoder) (index : Z) : option header :=
  match static_table.get index with
  | Some e => Some e
  | None =>
      if index <? STATIC_LEN + 1 then None
      else dynamic d !! Z.to_nat (index - (STATIC_LEN + 1))
  end.

(** [while self.size > target]: a round removes an entry or ends the loop. *)
Fixpoint evict_loop (fuel : nat) (target : Z) (d : Decoder) : Decoder :=
  match fuel with
  | O => d
  | S fuel' =>
      if target <? size d then
        match last (dynamic d) with
        | Some (n, v) =>
            evict_loop fuel' target
              {| dynamic := removelast (dynamic d);
                 size := size d - (zlen n + zlen v + ENTRY_OVERHEAD);
                 max_size := max_size d; hard_max := hard_max d;
                 max_list_size := max_list_size d |}
        | None => d
        end
      else d
  end.

Definition evict_to (d : Decoder) (target : Z) : Decoder :=
  evict_loop (S (length (dynamic d))) target d.

Definition insert (d : Decoder) (name value : list Z) : Decoder :=
  let entry_size := zlen name + zlen value + ENTRY_OVERHEAD in
  let d := evict_to d (saturating_sub (max_size d) entry_size) in
  if entry_size <=? max_size d then
    {| dynamic := (name, value) :: dynamic d; size := size d + entry_size;
       max_size := max_size d; hard_max := hard_max d; max_list_size := max_list_size d |}
  else d.

Definition set_max_size (d : Decoder) (new_max : Z) : result Error Decoder :=
  if hard_max d <? new_max then Err InvalidSizeUpdate
  else
    Ok (evict_to
          {| dynamic := dynamic d; size := size d; max_size := new_max; hard_max := hard_max d;
             max_list_size := max_list_size d |} new_max).

Section decode.
Local Open Scope result_scope.

Definition read_literal (d : Decoder) (buf : list Z) (prefix_bits : Z)
    : result Error (list Z * list Z * list Z) :=
  let? (name_idx, buf) := ok_or (integer.decode buf prefix_bits) Truncated in
  let? (name, buf) :=
    if name_idx =? 0 then decode_string buf
    else let? e := ok_or (entry_ref d name_idx) BadIndex in Ok (e.1, buf) in
  let? (value, buf) := decode_string buf in
  Ok (name, value, buf).

(** One round of the loop: the decoder, the input left, [seen_field] and the field to
    emit, if the round read one. *)
Definition decode_field (d : Decoder) (buf : list Z) (seen_field : bool)
    : result Error (Decoder * list Z * bool * option header) :=
  let? b := ok_or (head buf) Truncated in
  if negb (Z.land b 0x80 =? 0) then
    let? (idx, buf) := ok_or (integer.decode buf 7) Truncated in
    let? h := ok_or (entry_ref d idx) BadIndex in
    Ok (d, buf, true, Some h)
  else if negb (Z.land b 0x40 =? 0) then
    let? (n, v, buf) := read_literal d buf 6 in
    Ok (insert d n v, buf, true, Some (n, v))
  else if negb (Z.land b 0x20 =? 0) then
    if seen_field then Err InvalidSizeUpdate
    else
      let? (new_max, buf) := ok_or (integer.decode buf 5) Truncated in
      let? d := set_max_size d new_max in
      Ok (d, buf, seen_field, None)
  else
    let? (name_idx, buf) := ok_or (integer.decode buf 4) Truncated in
    let? (name, buf) :=
      if name_idx =? 0 then decode_string_into buf
      else let? e := ok_or (entry_ref d name_idx) BadIndex in Ok (e.1, buf) in
    let? (value, buf) := decode_string_into buf in
    Ok (d, buf, true, Some (name, value)).

End decode.

(** The closure [emit_checked]: the running total, and the fields emitted so far. *)
Definition emit_checked (list_limit : Z) (listed : Z) (emitted : list header) (h : header)
    : Z * list header :=
  let total := saturating_add listed (zlen h.1 + zlen h.2 + ENTRY_OVERHEAD) in
  (total, if total <=? list_limit then emitted ++ [h] else emitted).

(** The loop [while pos < buf.len()]; every round reads at least one octet, so the fuel of
    [decode_octets] is enough ([dec_loop_fuel]). A failing round leaves the decoder as
    it was when the round began. *)
Fixpoint decode_loop (fuel : nat) (d : Decoder) (buf : list Z) (seen_field : bool)
    (listed : Z) (emitted : list header) : Decoder * list header * result Error Z :=
  match fuel, buf with
  | _, [] => (d, emitted, Ok listed)
  | O, _ => (d, emitted, Err Truncated)
  | S fuel', _ =>
      match decode_field d buf seen_field with
      | Err e => (d, emitted, Err e)
      | Ok (d', buf', seen', Some h) =>
          let '(listed', emitted') := emit_checked (max_list_size d) listed emitted h in
          decode_loop fuel' d' buf' seen' listed' emitted'
      | Ok (d', buf', seen', None) => decode_loop fuel' d' buf' seen' listed emitted
      end
  end.

Definition decode_octets (d : Decoder) (buf : list Z)
    : Decoder * list header * result Error unit :=
  let list_limit := max_list_size d in
  let '(d', emitted, r) := decode_loop (length buf) d buf false 0 [] in
  (d', emitted,
   match r with
   | Err e => Err e
   | Ok listed => if list_limit <? listed then Err HeaderListTooLarge else Ok tt
   end).

(** ** Invariant *)

(** The running size is the size, within the limit, within the advertised limit. *)
Record decoder_inv (d : Decoder) : Prop := {
  inv_size : size d = table_size (dynamic d);
  inv_fits : table_size (dynamic d) <= max_size d;
  inv_max : 0 <= max_size d <= hard_max d;
}.

Definition same_config (d d' : Decoder) : Prop :=
  hard_max d' = hard_max d ∧ max_list_size d' = max_list_size d.

Lemma dec_new_inv max list : 0 <= max → decoder_inv (new max list).
Proof. intros. split; simpl; lia. Qed.

Lemma dec_evict_loop_spec fuel target d :
  size d = table_size (dynamic d) → (length (dynamic d) < fuel)%nat → 0 <= target →
  let d' := evict_loop fuel target d in
  dynamic d' = fit target (dynamic d) ∧ size d' = table_size (dynamic d') ∧
  max_size d' = max_size d ∧ same_config d d'.
Proof.
  intros Hz Hf Ht. revert d Hz Hf. induction fuel as [|fuel IH]; intros d Hz Hf; [lia|].
  cbn [evict_loop]. case_if; cycle 1.
  { split_and!; try done. by rewrite fit_all by lia. }
  destruct (dynamic d) as [|[n v] dyn _] eqn:Hd using rev_ind.
  { simpl in *. lia. }
  rewrite last_snoc, removelast_last.
  destruct (IH {| dynamic := dyn; size := size d - (zlen n + zlen v + ENTRY_OVERHEAD);
                  max_size := max_size d; hard_max := hard_max d;
                  max_list_size := max_list_size d |}) as (H1 & H2 & H3 & H4).
  - simpl. rewrite table_size_app in Hz. simpl in Hz. unfold entry_size in Hz. simpl in Hz. lia.
  - simpl. rewrite length_app in Hf. simpl in Hf. lia.
  - split_and!; [|done..]. rewrite H1. simpl. symmetry. apply fit_snoc. lia.
Qed.

Lemma dec_evict_to_spec target d :
  size d = table_size (dynamic d) → 0 <= target →
  let d' := evict_to d target in
  dynamic d' = fit target (dynamic d) ∧ size d' = table_size (dynamic d') ∧
  max_size d' = max_size d ∧ same_config d d'.
Proof. intros. apply dec_evict_loop_spec; auto. Qed.

(** Insertion is RFC 7541 section 4.4. *)
Lemma dec_insert_spec d name value :
  decoder_inv d →
  let d' := insert d name value in
  decoder_inv d' ∧ dynamic d' = fit (max_size d) ((name, value) :: dynamic d) ∧
  max_size d' = max_size d ∧ same_config d d'.
Proof.
  intros [Hz Hf Hm]. unfold insert. cbv zeta.
  change (zlen name + zlen value + ENTRY_OVERHEAD) with (entry_size (name, value)).
  pose proof (entry_size_pos (name, value)) as Hp.
  destruct (dec_evict_to_spec (saturating_sub (max_size d) (entry_size (name, value))) d)
    as (Hd & Hz' & Hmax & Hc); [done|unfold saturating_sub; lia|].
  set (d1 := evict_to _ _) in *. clearbody d1. rewrite Hmax. unfold saturating_sub in Hd.
  cbn [fit]. case_if.
  - rewrite Z.max_l in Hd by lia. cbn [dynamic max_size].
    split_and!; [|by rewrite Hd|done|apply Hc..].
    pose proof (fit_size (max_size d - entry_size (name, value)) (dynamic d) ltac:(lia)).
    destruct Hc as [Hh _].
    split; cbn [size dynamic max_size hard_max]; rewrite ?table_size_cons, ?Hh; [lia| |lia].
    rewrite Hd. lia.
  - rewrite Z.max_r in Hd by lia.
    assert (Hn : dynamic d1 = []).
    { apply table_size_0. rewrite Hd. by apply fit_size. }
    split_and!; [|done|done|apply Hc..]. destruct Hc as [Hh _].
    split; rewrite ?Hn, ?Hmax, ?Hh; [|simpl; lia|lia]. by rewrite Hz', Hn.
Qed.

Lemma dec_set_max_size_spec d new_max :
  decoder_inv d → 0 <= new_max →
  match set_max_size d new_max with
  | Ok d' => new_max <= hard_max d ∧ decoder_inv d' ∧ dynamic d' = fit new_max (dynamic d) ∧
      max_size d' = new_max ∧ same_config d d'
  | Err e => hard_max d < new_max ∧ e = InvalidSizeUpdate
  end.
Proof.
  intros [Hz Hf Hm] Hn. unfold set_max_size. case_if; [done|].
  set (d1 := {| dynamic := dynamic d; size := size d; max_size := new_max; hard_max := hard_max d;
                max_list_size := max_list_size d |}).
  destruct (dec_evict_to_spec new_max d1) as (Hd & Hz' & Hmax & Hc); [done..|].
  split_and!; try done; try apply Hc. destruct Hc as [Hh _]. split; [done| |].
  - rewrite Hd, Hmax. by apply fit_size.
  - rewrite Hmax, Hh. simpl. lia.
Qed.

(** ** Any input *)

(** [buf'] is what is left of [buf] after reading something. *)
Definition advances (buf buf' : list Z) : Prop :=
  ∃ used, buf = used ++ buf' ∧ (1 ≤ length used)%nat.

Lemma advances_trans a b c : advances a b → advances b c → advances a c.
Proof.
  intros (u & -> & Hu) (v & -> & Hv). exists (u ++ v). rewrite <-app_assoc, length_app.
  split; [done|lia].
Qed.

Lemma advances_octets a b : advances a b → octets a → octets b.
Proof. intros (u & -> & _) H. by apply Forall_app in H as [_ H]. Qed.

Lemma integer_advances buf n v rest :
  octets buf → 1 <= n <= 8 → integer.decode buf n = Some (v, rest) →
  advances buf rest ∧ octets rest ∧ 0 <= v.
Proof.
  intros Ho Hn Hd. apply integer.decode_sound in Hd as (Hv & used & Hb & Hu); [|done..].
  assert (advances buf rest) by (exists used; split; [done|lia]).
  split_and!; [done|by eapply advances_octets|lia].
Qed.

Lemma string_advances buf str rest :
  octets buf → decode_string buf = Ok (str, rest) → advances buf rest ∧ octets rest.
Proof.
  intros Ho Hd. assert (advances buf rest) by (by apply decode_string_suffix in Hd).
  split; [done|by eapply advances_octets].
Qed.

(** The name and value of a literal field, after its name index. *)
Lemma literal_advances d buf idx (n v rest rest' : list Z) :
  octets buf →
  (if idx =? 0 then decode_string buf
   else match ok_or (entry_ref d idx) BadIndex with Ok e => Ok (e.1, buf) | Err e => Err e end)
  = Ok (n, rest) →
  decode_string rest = Ok (v, rest') → advances buf rest' ∧ octets rest'.
Proof.
  intros Ho Hn Hv. destruct (idx =? 0).
  - apply string_advances in Hn as [Ha Ho']; [|done].
    apply string_advances in Hv as [Hb Ho'']; [|done]. eauto using advances_trans.
  - destruct (entry_ref d idx); [|done]. injection Hn as <- <-. by apply string_advances in Hv.
Qed.

Lemma read_literal_advances d buf bits n v rest :
  octets buf → 1 <= bits <= 8 → read_literal d buf bits = Ok (n, v, rest) → advances buf rest.
Proof.
  intros Ho Hb. unfold read_literal.
  destruct (integer.decode buf bits) as [[idx b1]|] eqn:Ei; [|done]. cbn [ok_or].
  apply integer_advances in Ei as (Ha & Ho1 & _); [|done..].
  destruct (if idx =? 0 then _ else _) as [[n' b2]|] eqn:En; [|done].
  destruct (decode_string b2) as [[v' b3]|] eqn:Ev; [|done]. intros [= <- <- <-].
  eapply advances_trans; [done|]. by eapply literal_advances.
Qed.

(** A round reads something and keeps the invariant, whatever the input. *)
Lemma decode_field_inv d buf seen d' buf' seen' oh :
  decoder_inv d → octets buf → decode_field d buf seen = Ok (d', buf', seen', oh) →
  decoder_inv d' ∧ same_config d d' ∧ advances buf buf'.
Proof.
  intros Hinv Ho. unfold decode_field. destruct (head buf) as [b|]; [|done]. cbn [ok_or].
  case_if; [|case_if; [|case_if]].
  - destruct (integer.decode buf 7) as [[idx b1]|] eqn:Ei; [|done]. cbn [ok_or].
    apply integer_advances in Ei as (Ha & _ & _); [|done|lia].
    destruct (entry_ref d idx); [|done]. cbn [ok_or]. by intros [= <- <- <- <-].
  - destruct (read_literal d buf 6) as [[[n v] b1]|] eqn:El; [|done]. intros [= <- <- <- <-].
    apply read_literal_advances in El; [|done|lia].
    destruct (dec_insert_spec d n v Hinv) as (? & _ & _ & ?). done.
  - destruct seen; [done|].
    destruct (integer.decode buf 5) as [[m b1]|] eqn:Ei; [|done]. cbn [ok_or].
    apply integer_advances in Ei as (Ha & _ & Hm); [|done|lia].
    pose proof (dec_set_max_size_spec d m Hinv Hm) as Hs.
    destruct (set_max_size d m); [|done]. intros [= <- <- <- <-]. by destruct Hs as (_ & ? & _ & _ & ?).
  - destruct (integer.decode buf 4) as [[idx b1]|] eqn:Ei; [|done]. cbn [ok_or].
    apply integer_advances in Ei as (Ha & Ho1 & _); [|done|lia].
    destruct (if idx =? 0 then _ else _) as [[n b2]|] eqn:En; [|done].
    destruct (decode_string_into b2) as [[v b3]|] eqn:Ev; [|done]. intros [= <- <- <- <-].
    split_and!; try done. eapply advances_trans; [done|].
    rewrite decode_string_into_eq in *. by eapply literal_advances.
Qed.

(** More fuel than octets changes nothing. *)
Lemma dec_loop_fuel f g d buf seen listed em :
  decoder_inv d → octets buf → (length buf ≤ f)%nat →
  decode_loop (f + g) d buf seen listed em = decode_loop f d buf seen listed em.
Proof.
  revert d buf seen listed em. induction f as [|f IH]; intros d buf seen listed em Hinv Ho Hf.
  { destruct buf; [|simpl in Hf; lia]. by destruct g. }
  destruct buf as [|b buf]; [done|]. cbn [Nat.add decode_loop].
  destruct (decode_field d (b :: buf) seen) as [[[[d' b'] s'] oh]|] eqn:E; [|done].
  apply decode_field_inv in E as (Hinv' & _ & Ha); [|done..].
  pose proof (advances_octets _ _ Ha Ho). destruct Ha as (u & Hu & Hl).
  apply (f_equal length) in Hu. rewrite length_app in Hu. simpl in Hu, Hf.
  destruct oh; [|apply IH; [done..|lia]].
  destruct (emit_checked _ _ _ _). apply IH; [done..|lia].
Qed.

(** The running total of a list of fields. *)
Definition list_total (fs : list header) : Z := Z.min (table_size fs) U64_MAX.

(** After the fields [fs], the closure has emitted those that fit the limit. *)
Lemma emit_checked_fit limit fs h :
  0 <= limit < U64_MAX →
  emit_checked limit (list_total fs) (fit limit fs) h
  = (list_total (fs ++ [h]), fit limit (fs ++ [h])).
Proof.
  intros Hl. unfold emit_checked.
  change (zlen h.1 + zlen h.2 + ENTRY_OVERHEAD) with (entry_size h).
  pose proof (entry_size_pos h). pose proof (table_size_nonneg fs).
  assert (Hs : table_size (fs ++ [h]) = table_size fs + entry_size h).
  { rewrite table_size_app. simpl. lia. }
  assert (Ht : saturating_add (list_total fs) (entry_size h) = list_total (fs ++ [h])).
  { unfold saturating_add, list_total. rewrite Hs. lia. }
  rewrite Ht. f_equal. unfold list_total. destruct (Z.leb_spec (Z.min (table_size (fs ++ [h])) U64_MAX) limit).
  - rewrite !fit_all by lia. done.
  - rewrite fit_snoc by lia. done.
Qed.

(** The loop keeps the invariant, and what it has emitted is always the longest prefix of
    the fields read that fits the list limit. *)
Lemma dec_loop_inv f d buf seen fs :
  decoder_inv d → octets buf → 0 <= max_list_size d < U64_MAX →
  let limit := max_list_size d in
  let '(d', em, r) := decode_loop f d buf seen (list_total fs) (fit limit fs) in
  decoder_inv d' ∧ same_config d d' ∧
  ∃ more, em = fit limit (fs ++ more) ∧
    match r with Ok listed => listed = list_total (fs ++ more) | Err _ => True end.
Proof.
  revert d buf seen fs. induction f as [|f IH]; intros d buf seen fs Hinv Ho Hm; cbv zeta.
  { destruct buf; cbn [decode_loop]; split_and!; try done; exists []; by rewrite app_nil_r. }
  destruct buf as [|b buf]; cbn [decode_loop].
  { split_and!; try done. exists []. by rewrite app_nil_r. }
  destruct (decode_field d (b :: buf) seen) as [[[[d' b'] s'] oh]|] eqn:E; cycle 1.
  { split_and!; try done. exists []. by rewrite app_nil_r. }
  apply decode_field_inv in E as (Hinv' & [Hh Hc] & Ha); [|done..].
  pose proof (advances_octets _ _ Ha Ho) as Ho'. rewrite <-Hc in Hm |- *.
  destruct oh as [h|]; [rewrite emit_checked_fit by done|].
  - specialize (IH d' b' s' (fs ++ [h]) Hinv' Ho' Hm). cbv zeta in IH.
    destruct (decode_loop _ _ _ _ _ _) as [[d2 em2] r2].
    destruct IH as (? & [? ?] & more & -> & Hr). rewrite <-app_assoc in *.
    split_and!; [done|split; congruence|by exists (h :: more)].
  - specialize (IH d' b' s' fs Hinv' Ho' Hm). cbv zeta in IH.
    destruct (decode_loop _ _ _ _ _ _) as [[d2 em2] r2].
    destruct IH as (? & [? ?] & ?). split_and!; [done|split; congruence|done].
Qed.

Lemma decode_octets_inv d buf :
  decoder_inv d → octets buf → 0 <= max_list_size d < U64_MAX →
  decoder_inv (decode_octets d buf).1.1 ∧ same_config d (decode_octets d buf).1.1.
Proof.
  intros Hi Ho Hl. unfold decode_octets.
  pose proof (dec_loop_inv (length buf) d buf false [] Hi Ho Hl) as H. cbv zeta in H.
  change (list_total []) with 0 in H. cbn [fit app] in H.
  destruct (decode_loop _ d buf false 0 []) as [[d' em] r]. by destruct H as (? & ? & _).
Qed.

(** ** Properties *)



(** C38. The decoding loop ends within as many rounds as the block has octets: more fuel
    never changes its result. *)
Theorem decoder_loop_terminates extra d buf seen listed em :
  decoder_inv d → octets buf →
  decode_loop (length buf + extra) d buf seen listed em
  = decode_loop (length buf) d buf seen listed em.
Proof. intros. by apply dec_loop_fuel. Qed.

Lemma decoder_loop_terminates_witness :
  decode_loop 12 (new 4096 40) [0x82; 0x84] false 0 []
  = decode_loop 2 (new 4096 40) [0x82; 0x84] false 0 [].
Proof.
  apply (decoder_loop_terminates 10 (new 4096 40) [0x82; 0x84]).
  - by apply dec_new_inv.
  - repeat constructor; discriminate.
Defined.

End decoder.
