(* ===== verification/HpackSync.v ===== *)
(** * Encoder and decoder in step

    The encoder of one endpoint and the decoder of the other hold the same dynamic table.
    [synced] says so; every header block keeps it, and the decoder gives back the fields
    that were encoded. *)

From stdpp Require Import base list gmap strings.
From Stdlib Require Import ZArith Lia.
From S2P Require Import Prelude HpackInteger Huffman HuffmanDecode StaticTable.
From S2P Require Import HpackString HpackTable HpackEncoder HpackDecoder.

Import hpack_string.

(** ** What is on the wire *)

(** A field name: an index, or index 0 and a literal. *)
Definition name_wire (prefix flag : Z) (name_ref : option Z) (name : list Z) : list Z :=
  match name_ref with
  | Some i => integer.encode i prefix flag
  | None => integer.encode 0 prefix flag ++ encode_string_literal name
  end.

(** A field against the table of [e], once its size updates are out. *)
Definition field_wire (e : encoder.Encoder) (name value : list Z) : list Z :=
  let indexable := encoder.indexable name value in
  match encoder.or_else (static_table.find_name_value name value)
          (if indexable then encoder.find_dynamic e name value else None) with
  | Some idx => integer.encode idx 7 0x80
  | None =>
      let name_ref :=
        encoder.or_else (static_table.find_name name) (encoder.find_dynamic_name e name) in
      if indexable then name_wire 6 0x40 name_ref name ++ encode_string_literal value
      else name_wire 4 0x00 name_ref name ++ encode_string_literal value
  end.

(** The table after the field. *)
Definition field_table (e : encoder.Encoder) (name value : list Z) : encoder.Encoder :=
  let indexable := encoder.indexable name value in
  match encoder.or_else (static_table.find_name_value name value)
          (if indexable then encoder.find_dynamic e name value else None) with
  | Some _ => e
  | None => if indexable then encoder.insert e name value else e
  end.

(** The memo of long literals does not show on the wire. *)
Lemma encode_header_wire memo e name value :
  memo_ok memo →
  let '(e1, upd) := encoder.emit_size_update e in
  ∃ memo', memo_ok memo' ∧
    encoder.encode_header memo e name value
    = (memo', field_table e1 name value, upd ++ field_wire e1 name value).
Proof.
  intros Hm. unfold encoder.encode_header, encoder.encode_header_inner, field_wire, field_table.
  destruct (encoder.emit_size_update e) as [e1 upd].
  destruct (encoder.or_else (static_table.find_name_value name value) _) as [idx|]; [by eexists|].
  set (name_ref := encoder.or_else _ _). clearbody name_ref. unfold encode_string.
  pose proof (encode_string_bytes_literal memo name Hm) as Hn.
  pose proof (encode_string_bytes_ok memo name Hm) as Hno.
  destruct (encoder.indexable name value).
  - destruct name_ref as [i|]; cbn [name_wire].
    + pose proof (encode_string_bytes_literal memo value Hm) as Hv.
      pose proof (encode_string_bytes_ok memo value Hm).
      destruct (encode_string_bytes memo value) as [m' s]. simpl in *. subst s.
      eexists. split; [done|]. by rewrite <-app_assoc.
    + destruct (encode_string_bytes memo name) as [m1 sn]. simpl in Hn, Hno. subst sn.
      pose proof (encode_string_bytes_literal m1 value Hno) as Hv.
      pose proof (encode_string_bytes_ok m1 value Hno).
      destruct (encode_string_bytes m1 value) as [m' s]. simpl in *. subst s.
      eexists. split; [done|]. by rewrite <-!app_assoc.
  - destruct name_ref as [i|]; cbn [name_wire].
    + pose proof (encode_string_bytes_literal memo value Hm) as Hv.
      pose proof (encode_string_bytes_ok memo value Hm).
      destruct (value_is_secret name).
      * eexists. split; [exact Hm|]. by rewrite <-app_assoc.
      * destruct (encode_string_bytes memo value) as [m' s]. simpl in *. subst s.
        eexists. split; [done|]. by rewrite <-app_assoc.
    + destruct (encode_string_bytes memo name) as [m1 sn]. simpl in Hn, Hno. subst sn.
      pose proof (encode_string_bytes_literal m1 value Hno) as Hv.
      pose proof (encode_string_bytes_ok m1 value Hno).
      destruct (value_is_secret name).
      * eexists. split; [exact Hno|]. by rewrite <-!app_assoc.
      * destruct (encode_string_bytes m1 value) as [m' s]. simpl in *. subst s.
        eexists. split; [done|]. by rewrite <-!app_assoc.
Qed.

(** ** Reading it back *)

(** The first octet of an integer is its flag and fewer than [n] bits. *)
Lemma encode_head v n flag rest :
  1 <= n <= 8 → 0 <= v →
  ∃ x, head (integer.encode v n flag ++ rest) = Some (Z.lor flag x) ∧ 0 <= x < 2 ^ n.
Proof.
  intros Hn Hv. destruct (integer.prefix_max_bounds n Hn) as [Hm Hm'].
  unfold integer.encode. cbv zeta. rewrite shiftl_1_sub_1.
  case_if; eexists; (split; [reflexivity|]); rewrite u8_id by (unfold is_byte; lia); lia.
Qed.

Lemma land_flag flag x n k :
  0 <= n <= k → 0 <= x < 2 ^ n → Z.land (Z.lor flag x) (2 ^ k) = Z.land flag (2 ^ k).
Proof.
  intros Hn Hx. rewrite Z.land_lor_distr_l. replace (Z.land x (2 ^ k)) with 0; [apply Z.lor_0_r|].
  apply Z.bits_inj'. intros i Hi. rewrite Z.land_spec, Z.bits_0.
  destruct (Z.ltb_spec i n); [|by rewrite (testbit_above n x)].
  rewrite Z.pow2_bits_false by lia. by rewrite andb_false_r.
Qed.

Section fields.
Context (d : decoder.Decoder) (rest : list Z).

Lemma decode_indexed idx h seen :
  0 <= idx < 2 ^ 63 → decoder.entry_ref d idx = Some h →
  decoder.decode_field d (integer.encode idx 7 0x80 ++ rest) seen = Ok (d, rest, true, Some h).
Proof.
  intros Hi He. unfold decoder.decode_field.
  destruct (encode_head idx 7 0x80 rest) as (x & -> & Hx); [lia..|]. cbn [ok_or].
  rewrite (land_flag _ x 7 7) by lia. change (negb (Z.land 128 (2 ^ 7) =? 0)) with true.
  cbv iota. rewrite integer.decode_encode_len by (auto with hj; lia).
  cbn [ok_or]. by rewrite He.
Qed.

Lemma decode_size_update m d' :
  0 <= m < 2 ^ 63 → decoder.set_max_size d m = Ok d' →
  decoder.decode_field d (integer.encode m 5 0x20 ++ rest) false = Ok (d', rest, false, None).
Proof.
  intros Hm Hs. unfold decoder.decode_field.
  destruct (encode_head m 5 0x20 rest) as (x & -> & Hx); [lia..|]. cbn [ok_or].
  rewrite (land_flag _ x 5 7), (land_flag _ x 5 6), (land_flag _ x 5 5) by lia.
  change (negb (Z.land 32 (2 ^ 7) =? 0)) with false.
  change (negb (Z.land 32 (2 ^ 6) =? 0)) with false.
  change (negb (Z.land 32 (2 ^ 5) =? 0)) with true. cbv iota.
  rewrite integer.decode_encode_len by (auto with hj; lia).
  cbn [ok_or]. by rewrite Hs.
Qed.

(** The name of a literal resolves to [name]. *)
Definition name_resolves (name_ref : option Z) (name : list Z) : Prop :=
  match name_ref with
  | Some i => 0 < i < 2 ^ 63 ∧ ∃ v, decoder.entry_ref d i = Some (name, v)
  | None => octets name ∧ zlen name < 2 ^ 63
  end.

Lemma literal_read prefix flag name_ref name value :
  integer.flag_ok prefix flag → name_resolves name_ref name → octets value → zlen value < 2 ^ 63 →
  ∃ x buf1, head (name_wire prefix flag name_ref name ++ encode_string_literal value ++ rest)
            = Some (Z.lor flag x) ∧ 0 <= x < 2 ^ prefix ∧
  ∃ idx, integer.decode (name_wire prefix flag name_ref name
           ++ encode_string_literal value ++ rest) prefix = Some (idx, buf1) ∧
  (if idx =? 0 then decode_string buf1
   else match ok_or (decoder.entry_ref d idx) BadIndex with
        | Ok e => Ok (e.1, buf1) | Err e => Err e end)
  = Ok (name, encode_string_literal value ++ rest).
Proof.
  intros Hf Hr Hv Hl. pose proof Hf as (Hp & _). destruct name_ref as [i|]; cbn [name_wire].
  - destruct Hr as [Hi (w & Hw)].
    destruct (encode_head i prefix flag (encode_string_literal value ++ rest)) as (x & Hx & Hxb); [lia..|].
    exists x, (encode_string_literal value ++ rest). split_and!; [done|lia..|]. exists i.
    rewrite integer.decode_encode_len by (done || lia). split; [done|].
    destruct (Z.eqb_spec i 0); [lia|]. by rewrite Hw.
  - destruct Hr as [Hn Hnl]. rewrite <-app_assoc.
    destruct (encode_head 0 prefix flag (encode_string_literal name ++ encode_string_literal value ++ rest))
      as (x & Hx & Hxb); [lia..|].
    eexists x, _. split_and!; [done|lia..|]. exists 0.
    rewrite integer.decode_encode_len by (done || lia). split; [done|]. simpl.
    apply decode_string_literal; [done|]. unfold ISIZE_MAX, huffman_decode.ISIZE_MAX. lia.
Qed.

Lemma decode_literal_indexed name_ref name value seen :
  name_resolves name_ref name → octets value → zlen value < 2 ^ 63 →
  decoder.decode_field d (name_wire 6 0x40 name_ref name ++ encode_string_literal value ++ rest) seen
  = Ok (decoder.insert d name value, rest, true, Some (name, value)).
Proof.
  intros Hr Hv Hl.
  destruct (literal_read 6 0x40 name_ref name value) as (x & b1 & Hh & Hx & idx & Hi & Hn);
    [auto with hj|done..|].
  unfold decoder.decode_field. rewrite Hh. cbn [ok_or].
  rewrite (land_flag _ x 6 7), (land_flag _ x 6 6) by lia.
  change (negb (Z.land 64 (2 ^ 7) =? 0)) with false.
  change (negb (Z.land 64 (2 ^ 6) =? 0)) with true. cbv iota.
  unfold decoder.read_literal. rewrite Hi. cbn [ok_or]. rewrite Hn.
  rewrite decode_string_literal; [done..|]. unfold ISIZE_MAX, huffman_decode.ISIZE_MAX. lia.
Qed.

Lemma decode_literal_plain name_ref name value seen :
  name_resolves name_ref name → octets value → zlen value < 2 ^ 63 →
  decoder.decode_field d (name_wire 4 0x00 name_ref name ++ encode_string_literal value ++ rest) seen
  = Ok (d, rest, true, Some (name, value)).
Proof.
  intros Hr Hv Hl.
  destruct (literal_read 4 0x00 name_ref name value) as (x & b1 & Hh & Hx & idx & Hi & Hn);
    [auto with hj|done..|].
  unfold decoder.decode_field. rewrite Hh. cbn [ok_or].
  rewrite (land_flag _ x 4 7), (land_flag _ x 4 6), (land_flag _ x 4 5) by lia.
  change (negb (Z.land 0 (2 ^ 7) =? 0)) with false.
  change (negb (Z.land 0 (2 ^ 6) =? 0)) with false.
  change (negb (Z.land 0 (2 ^ 5) =? 0)) with false. cbv iota.
  rewrite Hi. cbn [ok_or]. rewrite !decode_string_into_eq, Hn, decode_string_into_eq.
  rewrite decode_string_literal; [done..|]. unfold ISIZE_MAX, huffman_decode.ISIZE_MAX. lia.
Qed.

End fields.

(** ** Rounds of the loop *)

(** [decode_loop] reads [wire] off the front of its input in some rounds, no more than
    [wire] has octets. *)
Definition reads (d : decoder.Decoder) (wire : list Z) (seen : bool) (fs : list header)
    (d' : decoder.Decoder) (seen' : bool) (fs' : list header) : Prop :=
  let limit := decoder.max_list_size d in
  ∃ k, (k ≤ length wire)%nat ∧ ∀ f rest,
    decoder.decode_loop (k + f) d (wire ++ rest) seen
      (decoder.list_total fs) (fit limit fs)
    = decoder.decode_loop f d' rest seen' (decoder.list_total fs') (fit limit fs').

Lemma reads_nil d seen fs : reads d [] seen fs d seen fs.
Proof. by exists 0%nat. Qed.

Lemma reads_app d1 d2 d3 w1 w2 s1 s2 s3 fs1 fs2 fs3 :
  decoder.max_list_size d2 = decoder.max_list_size d1 →
  reads d1 w1 s1 fs1 d2 s2 fs2 → reads d2 w2 s2 fs2 d3 s3 fs3 →
  reads d1 (w1 ++ w2) s1 fs1 d3 s3 fs3.
Proof.
  unfold reads. intros -> (k1 & Hk1 & H1) (k2 & Hk2 & H2). exists (k1 + k2)%nat.
  rewrite length_app. split; [lia|]. intros f rest. by rewrite <-app_assoc, <-Nat.add_assoc, H1, H2.
Qed.

Lemma reads_field d wire seen d' seen' h fs :
  wire ≠ [] → 0 <= decoder.max_list_size d < U64_MAX →
  (∀ rest, decoder.decode_field d (wire ++ rest) seen = Ok (d', rest, seen', Some h)) →
  reads d wire seen fs d' seen' (fs ++ [h]).
Proof.
  intros Hw Hl Hd. exists 1%nat. destruct wire as [|b wire]; [done|]. split; [simpl; lia|].
  intros f rest. cbn [Nat.add]. specialize (Hd rest). rewrite <-app_comm_cons in Hd |- *.
  cbn [decoder.decode_loop]. rewrite Hd. by rewrite decoder.emit_checked_fit.
Qed.

Lemma reads_update d wire seen d' seen' fs :
  wire ≠ [] →
  (∀ rest, decoder.decode_field d (wire ++ rest) seen = Ok (d', rest, seen', None)) →
  reads d wire seen fs d' seen' fs.
Proof.
  intros Hw Hd. exists 1%nat. destruct wire as [|b wire]; [done|]. split; [simpl; lia|].
  intros f rest. cbn [Nat.add]. specialize (Hd rest). rewrite <-app_comm_cons in Hd |- *.
  cbn [decoder.decode_loop]. by rewrite Hd.
Qed.

Lemma encode_nonempty v n flag : integer.encode v n flag ≠ [].
Proof. unfold integer.encode. cbv zeta. by case_if. Qed.

Lemma name_wire_nonempty prefix flag r name tl : name_wire prefix flag r name ++ tl ≠ [].
Proof.
  destruct r; cbn [name_wire]; rewrite <-?app_assoc; intros [H _]%app_nil;
    by apply encode_nonempty in H.
Qed.

(** ** The simulation relation *)

(** The tables are the same, and what the encoder still has to announce is within what the
    decoder allows. *)
Record synced (e : encoder.Encoder) (d : decoder.Decoder) : Prop := {
  sync_enc : encoder.encoder_inv e;
  sync_dec : decoder.decoder_inv d;
  sync_pending : encoder.pending_ok e;
  sync_dynamic : encoder.dynamic e = decoder.dynamic d;
  sync_max : encoder.max_size e = decoder.max_size d;
  sync_target : ∀ m, encoder.pending_size_update e = Some m → m <= decoder.hard_max d;
  sync_hard : decoder.hard_max d < 2 ^ 62;
  sync_list : 0 <= decoder.max_list_size d < U64_MAX;
}.

(** A field whose name and value are octet strings of a length the code can hold. *)
Definition field_ok (h : header) : Prop :=
  octets h.1 ∧ octets h.2 ∧ zlen h.1 < 2 ^ 63 ∧ zlen h.2 < 2 ^ 63.

Lemma last_default_cons {A} (x : A) l def : List.last (x :: l) def = List.last l x.
Proof.
  revert x def. induction l as [|y l IH]; intros x def; [done|].
  change (List.last (y :: l) def = List.last (y :: l) x). by rewrite !IH.
Qed.

Lemma reads_updates d updates fs :
  decoder.decoder_inv d → decoder.hard_max d < 2 ^ 62 →
  Forall (fun m => 0 <= m <= decoder.hard_max d) updates →
  ∃ d', reads d (encoder.updates_wire updates) false fs d' false fs ∧
    decoder.decoder_inv d' ∧ decoder.same_config d d' ∧
    decoder.dynamic d' = encoder.apply_updates updates (decoder.dynamic d) ∧
    decoder.max_size d' = List.last updates (decoder.max_size d).
Proof.
  revert d. induction updates as [|m us IH]; intros d Hinv Hh Hus.
  { exists d. split_and!; try done. apply reads_nil. }
  apply Forall_cons in Hus as [Hm Hus].
  pose proof (decoder.dec_set_max_size_spec d m Hinv ltac:(lia)) as Hs.
  destruct (decoder.set_max_size d m) as [d1|] eqn:Es; [|lia].
  destruct Hs as (_ & Hinv1 & Hd1 & Hm1 & Hh1 & Hl1).
  destruct (IH d1) as (d' & Hr & Hinv' & [Hh' Hl'] & Hd' & Hm'); [done|lia|by rewrite Hh1|].
  exists d'. change (encoder.updates_wire (m :: us))
    with (integer.encode m 5 0x20 ++ encoder.updates_wire us). split_and!.
  - apply (reads_app d d1 d' _ _ false false false fs fs fs); [done| |done]. apply reads_update; [apply encode_nonempty|].
    intros rest. apply decode_size_update; [lia|done].
  - done.
  - split; congruence.
  - by rewrite Hd', Hd1.
  - by rewrite Hm', Hm1, last_default_cons.
Qed.

(** An index of the encoder is the same entry for the decoder. *)
Lemma entry_ref_dynamic d i h :
  STATIC_LEN < i → decoder.dynamic d !! Z.to_nat (i - (STATIC_LEN + 1)) = Some h →
  decoder.entry_ref d i = Some h.
Proof.
  intros Hi Hh. unfold decoder.entry_ref.
  destruct (static_table.get i) eqn:E; [apply static_table.get_range in E; unfold STATIC_LEN in *; lia|].
  case_if; [lia|done].
Qed.

Lemma entry_ref_static d i h : static_table.get i = Some h → decoder.entry_ref d i = Some h.
Proof. unfold decoder.entry_ref. by intros ->. Qed.

Section synced_fields.
Context (e : encoder.Encoder) (d : decoder.Decoder) (Hsync : synced e d).

Lemma synced_index i : i <= STATIC_LEN + zlen (encoder.dynamic e) → i < 2 ^ 63.
Proof.
  destruct Hsync as [_ [_ Hf Hm] _ Hd _ _ Hh _]. rewrite Hd. unfold STATIC_LEN.
  pose proof (table_size_length (decoder.dynamic d)). lia.
Qed.

Lemma synced_found name value idx :
  encoder.or_else (static_table.find_name_value name value)
    (if encoder.indexable name value then encoder.find_dynamic e name value else None) = Some idx →
  0 <= idx < 2 ^ 63 ∧ decoder.entry_ref d idx = Some (name, value).
Proof.
  destruct (static_table.find_name_value name value) as [i|] eqn:E; cbn [encoder.or_else].
  - intros [= <-]. apply static_table.find_name_value_get in E as [Hg ?]. split; [lia|by apply entry_ref_static].
  - destruct (encoder.indexable _ _); [|done]. intros H.
    apply encoder.find_dynamic_found in H as [Hh Hi]; [|apply Hsync].
    pose proof (synced_index idx ltac:(lia)). unfold STATIC_LEN in *.
    rewrite (sync_dynamic _ _ Hsync) in Hh. split; [lia|]. apply entry_ref_dynamic; [unfold STATIC_LEN; lia|done].
Qed.

Lemma synced_name name :
  octets name → zlen name < 2 ^ 63 →
  name_resolves d
    (encoder.or_else (static_table.find_name name) (encoder.find_dynamic_name e name)) name.
Proof.
  intros Ho Hl. destruct (static_table.find_name name) as [i|] eqn:E; cbn [encoder.or_else].
  - apply static_table.find_name_get in E as [(v & Hg) ?]. split; [lia|].
    exists v. by apply entry_ref_static.
  - destruct (encoder.find_dynamic_name e name) as [i|] eqn:E'; [|done].
    apply encoder.find_dynamic_name_found in E' as [(v & Hh) Hi]; [|apply Hsync].
    pose proof (synced_index i ltac:(lia)). unfold STATIC_LEN in *.
    rewrite (sync_dynamic _ _ Hsync) in Hh. split; [lia|]. exists v. apply entry_ref_dynamic; [unfold STATIC_LEN; lia|done].
Qed.

End synced_fields.

(** ** One field, one block *)

(** A field with no size update due. *)
Lemma field_simulation e d name value seen fs :
  synced e d → field_ok (name, value) → encoder.pending_size_update e = None →
  let e' := field_table e name value in
  ∃ d', reads d (field_wire e name value) seen fs d' true (fs ++ [(name, value)]) ∧
    synced e' d' ∧ decoder.same_config d d' ∧ encoder.pending_size_update e' = None.
Proof.
  intros Hs (Hn & Hv & Hnl & Hvl) Hp. simpl in Hn, Hv, Hnl, Hvl. unfold field_table, field_wire.
  pose proof (sync_list _ _ Hs) as Hlim. pose proof (synced_name e d Hs name Hn Hnl) as Hname.
  destruct (encoder.or_else (static_table.find_name_value name value) _) as [idx|] eqn:E.
  { apply (synced_found e d Hs) in E as [Hi He]. exists d. split_and!; try done.
    apply reads_field; [apply encode_nonempty|done|]. intros. by apply decode_indexed. }
  destruct (encoder.indexable name value).
  - destruct (encoder.enc_insert_spec e name value (sync_enc _ _ Hs)) as (Hei & (L1 & L2 & L3 & L4) & Hed).
    destruct (decoder.dec_insert_spec d name value (sync_dec _ _ Hs)) as (Hdi & Hdd & Hdm & [C1 C2]).
    exists (decoder.insert d name value). split_and!; try done; [| |congruence].
    + apply reads_field; [apply name_wire_nonempty|done|]. intros. rewrite <-app_assoc.
      by apply decode_literal_indexed.
    + destruct Hs as [? ? [P1 [P2 P3]] Hd Hm Ht Hh Hl]. split; try done.
      * unfold encoder.pending_ok. rewrite L1, L2, L3, L4. by split_and!.
      * rewrite Hed, Hdd. congruence.
      * congruence.
      * rewrite L3, C1. done.
      * by rewrite C1.
      * by rewrite C2.
  - exists d. split_and!; try done. apply reads_field; [apply name_wire_nonempty|done|].
    intros. rewrite <-app_assoc. by apply decode_literal_plain.
Qed.

(** The size updates in front of a block. *)
Lemma updates_simulation e d fs :
  synced e d →
  let '(e1, upd) := encoder.emit_size_update e in
  ∃ d1, reads d upd false fs d1 false fs ∧ synced e1 d1 ∧ decoder.same_config d d1 ∧
    encoder.pending_size_update e1 = None.
Proof.
  intros [He Hdi Hp Hd Hm Ht Hh Hl].
  pose proof (encoder.emit_size_update_spec e He Hp) as H.
  destruct (encoder.emit_size_update e) as [e1 upd].
  destruct H as (He1 & Hu1 & Hn1 & Hpr & Hmx & Hfit & us & -> & Hd1 & Hm1 & Hus);
    [rewrite Hd, Hm; apply Hdi|].
  destruct (reads_updates d us fs) as (d1 & Hr & Hi & [C1 C2] & Hd' & Hm'); [done..| |].
  { eapply Forall_impl; [exact Hus|]. intros m (t & Et & Hmt). specialize (Ht t Et). lia. }
  exists d1. split_and!; try done. split; try done.
  - unfold encoder.pending_ok. rewrite Hu1, Hn1, Hpr. by destruct Hp as (_ & ? & _).
  - by rewrite Hd1, Hd', Hd.
  - by rewrite Hm1, Hm', Hm.
  - by rewrite Hu1.
  - by rewrite C1.
  - by rewrite C2.
Qed.

Lemma emit_size_update_none e :
  encoder.pending_size_update e = None →
  encoder.emit_size_update e = (encoder.with_pending e None None, []).
Proof. unfold encoder.emit_size_update. by intros ->. Qed.

Lemma header_simulation memo e d name value seen fs :
  memo_ok memo → synced e d → field_ok (name, value) →
  (seen = true → encoder.pending_size_update e = None) →
  let '(memo', e', out) := encoder.encode_header memo e name value in
  memo_ok memo' ∧ encoder.pending_size_update e' = None ∧
  ∃ d', reads d out seen fs d' true (fs ++ [(name, value)]) ∧ synced e' d' ∧
    decoder.same_config d d'.
Proof.
  intros Hmo Hs Hf Hseen. pose proof (encode_header_wire memo e name value Hmo) as Hw.
  assert (Hu : let '(e1, upd) := encoder.emit_size_update e in
    ∃ d1, reads d upd seen fs d1 seen fs ∧ synced e1 d1 ∧ decoder.same_config d d1 ∧
      encoder.pending_size_update e1 = None).
  { destruct seen; [|by apply updates_simulation].
    pose proof (updates_simulation e d fs Hs) as H. rewrite emit_size_update_none in H |- * by auto.
    destruct H as (_ & _ & _ & _ & Hn). exists d. split_and!; try done; [apply reads_nil|].
    destruct Hs as [He ? (P1 & P2 & _)]. split; try done. by apply encoder.with_pending_inv. }
  destruct (encoder.emit_size_update e) as [e1 upd]. destruct Hw as (memo' & Hmo' & ->).
  destruct Hu as (d1 & Hr & Hs1 & [C1 C2] & Hp1).
  destruct (field_simulation e1 d1 name value seen fs Hs1 Hf Hp1) as (d2 & Hr2 & Hs2 & [C3 C4] & Hp2).
  split_and!; [done..|]. exists d2. split_and!; [|done|split; congruence]. by eapply (reads_app d d1).
Qed.

Lemma block_simulation memo e d hs seen fs :
  memo_ok memo → synced e d → Forall field_ok hs →
  (seen = true → encoder.pending_size_update e = None) →
  let '(memo', e', out) := encoder.encode_block memo e hs in
  memo_ok memo' ∧
  ∃ d' seen', reads d out seen fs d' seen' (fs ++ hs) ∧ synced e' d' ∧ decoder.same_config d d'.
Proof.
  revert memo e d seen fs. induction hs as [|[n v] hs IH]; intros memo e d seen fs Hmo Hs Hf Hseen.
  { split; [done|]. exists d, seen. rewrite app_nil_r. split_and!; try done. apply reads_nil. }
  apply Forall_cons in Hf as [Hh Hf]. cbn [encoder.encode_block].
  pose proof (header_simulation memo e d n v seen fs Hmo Hs Hh Hseen) as H1.
  destruct (encoder.encode_header memo e n v) as [[memo1 e1] out1].
  destruct H1 as (Hmo1 & Hp1 & d1 & Hr1 & Hs1 & [C1 C2]).
  pose proof (IH memo1 e1 d1 true (fs ++ [(n, v)]) Hmo1 Hs1 Hf (fun _ => Hp1)) as H2.
  destruct (encoder.encode_block memo1 e1 hs) as [[memo2 e2] out2].
  destruct H2 as (Hmo2 & d2 & seen2 & Hr2 & Hs2 & [C3 C4]). split; [done|]. exists d2, seen2.
  rewrite <-app_assoc in Hr2. split_and!; [by eapply (reads_app d d1)|done|split; congruence].
Qed.

(** What the decoder answers to a list of fields. *)
Definition list_verdict (limit : Z) (hs : list header) : result Error unit :=
  if table_size hs <=? limit then Ok tt else Err HeaderListTooLarge.

Lemma decode_octets_block memo e d hs :
  memo_ok memo → synced e d → Forall field_ok hs →
  let limit := decoder.max_list_size d in
  let '(memo', e', out) := encoder.encode_block memo e hs in
  ∃ d', decoder.decode_octets d out = (d', fit limit hs, list_verdict limit hs) ∧
    synced e' d' ∧ decoder.same_config d d' ∧ memo_ok memo'.
Proof.
  intros Hmo Hs Hf limit. pose proof (block_simulation memo e d hs false [] Hmo Hs Hf) as H.
  destruct (encoder.encode_block memo e hs) as [[memo' e'] out].
  destruct (H ltac:(done)) as (Hmo' & d' & seen' & (k & Hk & Hr) & Hs' & Hc).
  exists d'. split_and!; try done; try apply Hc. unfold decoder.decode_octets.
  specialize (Hr (length out - k)%nat []). rewrite app_nil_r in Hr.
  replace (k + (length out - k))%nat with (length out) in Hr by lia.
  change (decoder.list_total []) with 0 in Hr. cbn [fit] in Hr. rewrite Hr.
  assert (He : ∀ f s l em, decoder.decode_loop f d' [] s l em = (d', em, Ok l)) by (by intros []).
  rewrite He. unfold list_verdict. f_equal. fold limit. pose proof (sync_list _ _ Hs).
  unfold decoder.list_total. cbn [app]. case_if; case_if; try done; subst limit; lia.
Qed.

(** ** A connection *)

(** What one endpoint does, in order: the peer's SETTINGS_HEADER_TABLE_SIZE arrives, or a
    header block is encoded and the peer decodes it. *)
Inductive event : Type :=
| PeerMax (peer_max : Z)
| Block (hs : list header).

(** What the peer's decoder gave for each block. *)
Fixpoint exchange (memo : LongLiterals) (e : encoder.Encoder) (d : decoder.Decoder)
    (evs : list event) : list (list header * result Error unit) :=
  match evs with
  | [] => []
  | PeerMax m :: evs' => exchange memo (encoder.set_peer_max_size e m) d evs'
  | Block hs :: evs' =>
      let '(memo, e, out) := encoder.encode_block memo e hs in
      let '(d, emitted, r) := decoder.decode_octets d out in
      (emitted, r) :: exchange memo e d evs'
  end.

Definition event_ok (hard_max : Z) (ev : event) : Prop :=
  match ev with
  | PeerMax m => 0 <= m <= hard_max
  | Block hs => Forall field_ok hs
  end.

Definition blocks (evs : list event) : list (list header) :=
  omap (fun ev => match ev with Block hs => Some hs | PeerMax _ => None end) evs.

Lemma set_peer_max_size_synced e d m :
  synced e d → 0 <= m <= decoder.hard_max d → synced (encoder.set_peer_max_size e m) d.
Proof.
  intros [He Hdi Hp Hd Hm Ht Hh Hl] Hmm. split; try done.
  - by apply encoder.set_peer_max_size_inv.
  - apply encoder.set_peer_max_size_pending_ok; [lia|done].
  - rewrite <-Hd. unfold encoder.set_peer_max_size. cbv zeta. by case_if.
  - rewrite <-Hm. unfold encoder.set_peer_max_size. cbv zeta. by case_if.
  - intros t. unfold encoder.set_peer_max_size. cbv zeta. case_if; [done|].
    cbn [encoder.with_pending encoder.pending_size_update]. intros [= <-]. lia.
Qed.

(** Both ends of a new connection. *)
Lemma new_synced limit :
  0 <= limit < U64_MAX → synced encoder.default (decoder.new 4096 limit).
Proof.
  by split.
Qed.

(** ** Properties *)

(** C16. Over a whole connection (header blocks interleaved with table-size settings of the
    peer) the decoder gives back, for each block, exactly the fields that were encoded, up
    to the list limit, and reports HeaderListTooLarge exactly when the block is over it; a
    block over the limit does not desynchronise the following ones. *)
Theorem hpack_connection_in_step memo e d evs :
  memo_ok memo → synced e d → Forall (event_ok (decoder.hard_max d)) evs →
  let limit := decoder.max_list_size d in
  exchange memo e d evs = (fun hs => (fit limit hs, list_verdict limit hs)) <$> blocks evs.
Proof.
  intros Hm Hs Hev limit. subst limit.
  revert memo e d Hm Hs Hev. induction evs as [|[m|hs] evs IH]; intros memo e d Hm Hs Hev; [done|..].
  - apply Forall_cons in Hev as [Ho Hev]. apply (IH memo (encoder.set_peer_max_size e m) d Hm);
      [by apply set_peer_max_size_synced|done].
  - apply Forall_cons in Hev as [Ho Hev]. cbn [exchange blocks omap list_omap fmap list_fmap].
    pose proof (decode_octets_block memo e d hs Hm Hs Ho) as H. cbv zeta in H.
    destruct (encoder.encode_block memo e hs) as [[memo' e'] out].
    destruct H as (d' & -> & Hs' & [C1 C2] & Hm').
    f_equal. rewrite (IH memo' e' d'); [by rewrite C2|done..|by rewrite C1].
Qed.

(** Two requests with a new field, a table emptied in between, and a block over the list
    limit of 120. *)
Lemma hpack_connection_in_step_witness :
  let h1 := [(bs ":method", bs "GET"); (bs "x-a", bs "1")] in
  let h2 := [(bs "x-a", bs "1"); (bs "x-b", bs "2"); (bs "x-c", bs "3"); (bs "x-d", bs "4")] in
  exchange empty_memo encoder.default (decoder.new 4096 120)
    [Block h1; PeerMax 0; PeerMax 4096; Block h1; Block h2; Block h1]
  = [(h1, Ok tt); (h1, Ok tt); (take 3 h2, Err HeaderListTooLarge); (h1, Ok tt)].
Proof.
  intros h1 h2. rewrite hpack_connection_in_step.
  - by vm_compute.
  - apply empty_memo_ok.
  - by apply (new_synced 120).
  - repeat constructor; vm_compute; try discriminate; repeat constructor; discriminate.
Defined.
