(* ===== verification/H2Frame.v ===== *)
(** * HTTP/2 frames: [crates/hj-h2/src/frame.rs], and the field blocks cut into them by
    [write_field_block] of [crates/hj-h2/src/server/send.rs]

    Writers give the octets they append to [out]. *)

From stdpp Require Import base list.
From Stdlib Require Import ZArith Lia.
From S2P Require Import Prelude.

Module frame.

Module kind.
Definition DATA : Z := 0x0.
Definition HEADERS : Z := 0x1.
Definition PRIORITY : Z := 0x2.
Definition RST_STREAM : Z := 0x3.
Definition SETTINGS : Z := 0x4.
Definition PUSH_PROMISE : Z := 0x5.
Definition PING : Z := 0x6.
Definition GOAWAY : Z := 0x7.
Definition WINDOW_UPDATE : Z := 0x8.
Definition CONTINUATION : Z := 0x9.
End kind.

Module flags.
Definition ACK : Z := 0x1.
Definition END_STREAM : Z := 0x1.
Definition END_HEADERS : Z := 0x4.
Definition PADDED : Z := 0x8.
Definition PRIORITY : Z := 0x20.
End flags.

Module settings.
Definition HEADER_TABLE_SIZE : Z := 0x1.
Definition ENABLE_PUSH : Z := 0x2.
Definition MAX_CONCURRENT_STREAMS : Z := 0x3.
Definition INITIAL_WINDOW_SIZE : Z := 0x4.
Definition MAX_FRAME_SIZE : Z := 0x5.
Definition MAX_HEADER_LIST_SIZE : Z := 0x6.
End settings.

Module error_code.
Definition NO_ERROR : Z := 0x0.
Definition PROTOCOL_ERROR : Z := 0x1.
Definition INTERNAL_ERROR : Z := 0x2.
Definition FLOW_CONTROL_ERROR : Z := 0x3.
Definition SETTINGS_TIMEOUT : Z := 0x4.
Definition STREAM_CLOSED : Z := 0x5.
Definition FRAME_SIZE_ERROR : Z := 0x6.
Definition REFUSED_STREAM : Z := 0x7.
Definition CANCEL : Z := 0x8.
Definition COMPRESSION_ERROR : Z := 0x9.
Definition CONNECT_ERROR : Z := 0xa.
Definition ENHANCE_YOUR_CALM : Z := 0xb.
Definition INADEQUATE_SECURITY : Z := 0xc.
Definition HTTP_1_1_REQUIRED : Z := 0xd.
End error_code.

Record FrameHeader : Type := {
  length : Z;
  kind : Z;
  flags : Z;
  stream_id : Z;
}.

Definition LEN : nat := 9.

Definition parse (buf : list Z) : option FrameHeader :=
  match take LEN buf with
  | [h0; h1; h2; h3; h4; h5; h6; h7; h8] =>
      Some
        {| length := Z.lor (Z.lor (Z.shiftl h0 16) (Z.shiftl h1 8)) h2;
           kind := h3;
           flags := h4;
           stream_id :=
             Z.land
               (Z.lor (Z.lor (Z.lor (Z.shiftl h5 24) (Z.shiftl h6 16)) (Z.shiftl h7 8)) h8)
               0x7fffffff |}
  | _ => None
  end.

Definition write (h : FrameHeader) : list Z :=
  [u8 (Z.shiftr (length h) 16); u8 (Z.shiftr (length h) 8); u8 (length h); kind h; flags h]
  ++ to_be_bytes 4 (Z.land (stream_id h) 0x7fffffff).

Definition write_frame (kind flags stream_id : Z) (payload : list Z) : list Z :=
  write {| length := u32 (zlen payload); kind := kind; flags := flags; stream_id := stream_id |}
  ++ payload.

Definition write_settings_ack : list Z := write_frame kind.SETTINGS flags.ACK 0 [].

(** One round of the loop of [write_settings]. *)
Definition param_octets (p : Z * Z) : list Z := to_be_bytes 2 p.1 ++ to_be_bytes 4 p.2.

Definition write_settings (params : list (Z * Z)) : list Z :=
  write_frame kind.SETTINGS 0 0 (mjoin (param_octets <$> params)).

Definition write_window_update (stream_id increment : Z) : list Z :=
  write_frame kind.WINDOW_UPDATE 0 stream_id (to_be_bytes 4 (Z.land increment 0x7fffffff)).

Definition write_rst_stream (stream_id error_code : Z) : list Z :=
  write_frame kind.RST_STREAM 0 stream_id (to_be_bytes 4 error_code).

Definition write_goaway (last_stream_id error_code : Z) : list Z :=
  write_frame kind.GOAWAY 0 0
    (to_be_bytes 4 (Z.land last_stream_id 0x7fffffff) ++ to_be_bytes 4 error_code).

Definition write_ping_ack (opaque : list Z) : list Z :=
  write_frame kind.PING flags.ACK 0 opaque.

(** [payload.chunks_exact(6)], mapped. *)
Fixpoint settings_chunks (payload : list Z) : list (Z * Z) :=
  match payload with
  | c0 :: c1 :: c2 :: c3 :: c4 :: c5 :: rest =>
      (from_be_bytes [c0; c1], from_be_bytes [c2; c3; c4; c5]) :: settings_chunks rest
  | _ => []
  end.

Definition parse_settings (payload : list Z) : option (list (Z * Z)) :=
  if negb (zlen payload mod 6 =? 0) then None else Some (settings_chunks payload).

Definition parse_window_update (payload : list Z) : option Z :=
  match payload with
  | [b0; b1; b2; b3] => Some (Z.land (from_be_bytes [b0; b1; b2; b3]) 0x7fffffff)
  | _ => None
  end.

(** ** Round trips *)

(** A header whose fields have their width. *)
Record header_wf (h : FrameHeader) : Prop := {
  wf_length : 0 <= length h < 2 ^ 24;
  wf_kind : is_byte (kind h);
  wf_flags : is_byte (flags h);
  wf_stream_id : 0 <= stream_id h < 2 ^ 31;
}.

Lemma lor_shiftl_add n x y :
  0 <= n → 0 <= x → 0 <= y < 2 ^ n → Z.lor (Z.shiftl x n) y = x * 2 ^ n + y.
Proof.
  intros Hn Hx Hy. rewrite <-Z.shiftl_mul_pow2 by done. symmetry. apply Z.add_nocarry_lor.
  apply Z.bits_inj'. intros i Hi. rewrite Z.land_spec, Z.bits_0.
  destruct (Z.ltb_spec i n); [by rewrite Z.shiftl_spec_low|].
  by rewrite (testbit_above n y), andb_false_r by lia.
Qed.

Lemma be24 a b c :
  is_byte a → is_byte b → is_byte c →
  Z.lor (Z.lor (Z.shiftl a 16) (Z.shiftl b 8)) c = from_be_bytes [a; b; c].
Proof.
  unfold is_byte. intros. change (Z.shiftl a 16) with (Z.shiftl a (8 + 8)).
  rewrite <-Z.shiftl_shiftl, <-Z.shiftl_lor by lia.
  rewrite (lor_shiftl_add 8 a), (lor_shiftl_add 8 _ c) by lia.
  change (2 ^ 8) with 256. unfold from_be_bytes. simpl. lia.
Qed.

Lemma be32 a b c d :
  is_byte a → is_byte b → is_byte c → is_byte d →
  Z.lor (Z.lor (Z.lor (Z.shiftl a 24) (Z.shiftl b 16)) (Z.shiftl c 8)) d
  = from_be_bytes [a; b; c; d].
Proof.
  intros Ha Hb Hc Hd. change (Z.shiftl a 24) with (Z.shiftl a (16 + 8)).
  change (Z.shiftl b 16) with (Z.shiftl b (8 + 8)).
  rewrite <-!Z.shiftl_shiftl, <-!Z.shiftl_lor by lia. rewrite be24 by done.
  pose proof (from_be_bytes_range [a; b; c]) as Hr.
  rewrite lor_shiftl_add; [|lia|apply Hr; repeat (constructor; [done|]); by constructor|done].
  change (2 ^ 8) with 256. unfold from_be_bytes. simpl. lia.
Qed.

Lemma land_31 x : 0 <= x < 2 ^ 31 → Z.land x 0x7fffffff = x.
Proof. intros. change 0x7fffffff with (Z.ones 31). rewrite Z.land_ones by lia. by apply Z.mod_small. Qed.

Lemma parse_write h rest : header_wf h → parse (write h ++ rest) = Some h.
Proof.
  intros [Hl Hk Hf Hs]. unfold parse, write, LEN. rewrite land_31 by done.
  cbn [to_be_bytes app take]. rewrite be24, be32 by auto with hj.
  change (from_be_bytes [u8 (Z.shiftr (length h) 16); u8 (Z.shiftr (length h) 8); u8 (length h)])
    with (from_be_bytes (to_be_bytes 3 (length h))).
  change (from_be_bytes (u8 (Z.shiftr (stream_id h) _) :: _))
    with (from_be_bytes (to_be_bytes 4 (stream_id h))).
  rewrite !from_to_be_bytes_id by (change (2 ^ (8 * Z.of_nat 4)) with (2 ^ 32); done || lia).
  rewrite land_31 by done. by destruct h.
Qed.

Lemma length_write h : List.length (write h) = 9%nat.
Proof. done. Qed.
(** Whatever nine octets arrive, the header has its widths, and writing it gives the octets
    back with the reserved bit of the stream id cleared. *)
Lemma parse_octets buf :
  octets buf →
  match parse buf with
  | Some h =>
      header_wf h ∧ ∃ a b c k f s0 s1 s2 s3 rest,
        buf = [a; b; c; k; f; s0; s1; s2; s3] ++ rest ∧
        write h = [a; b; c; k; f; Z.land s0 0x7f; s1; s2; s3]
  | None => (List.length buf < 9)%nat
  end.
Proof.
  intros Ho. unfold parse, LEN.
  destruct buf as [|a [|b [|c [|k [|f [|s0 [|s1 [|s2 [|s3 rest]]]]]]]]]; cbn [take];
    try (cbn [List.length]; lia).
  rewrite !Forall_cons in Ho.
  destruct Ho as (? & ? & ? & ? & ? & ? & ? & ? & ? & _).
  rewrite be24, be32 by done.
  pose proof (from_be_bytes_range [a; b; c]) as Hr3.
  pose proof (from_be_bytes_range [s0; s1; s2; s3]) as Hr4.
  change (zlen [a; b; c]) with 3 in Hr3. change (zlen [s0; s1; s2; s3]) with 4 in Hr4.
  specialize (Hr3 ltac:(repeat (constructor; [done|]); by constructor)).
  specialize (Hr4 ltac:(repeat (constructor; [done|]); by constructor)).
  set (len := from_be_bytes [a; b; c]) in *. set (sid := from_be_bytes [s0; s1; s2; s3]) in *.
  assert (Hsid : 0 <= Z.land sid 0x7fffffff < 2 ^ 31).
  { change 0x7fffffff with (Z.ones 31). rewrite Z.land_ones by lia. by apply Z.mod_pos_bound. }
  split; [by split|]. exists a, b, c, k, f, s0, s1, s2, s3, rest. split; [done|].
  unfold write. cbn [length kind flags stream_id]. rewrite (land_31 (Z.land _ _)) by done.
  assert (Hw : to_be_bytes 3 len = [a; b; c]).
  { apply (to_from_be_bytes [a; b; c]). repeat (constructor; [done|]). by constructor. }
  assert (Hs : to_be_bytes 4 (Z.land sid 0x7fffffff) = [Z.land s0 0x7f; s1; s2; s3]).
  { rewrite <-(to_from_be_bytes [Z.land s0 0x7f; s1; s2; s3]) at 1.
    - cbn [List.length]. f_equal. subst sid. change 0x7fffffff with (Z.ones 31). change 0x7f with (Z.ones 7).
      rewrite !Z.land_ones by lia. unfold from_be_bytes, is_byte in *. simpl.
      change (Z.pow_pos 2 31) with (2 ^ 7 * 2 ^ 24). change (Z.pow_pos 2 7) with (2 ^ 7).
      rewrite (Z.div_mod s0 (2 ^ 7)) at 1 by lia.
      symmetry. apply (Z.mod_unique_pos _ _ (s0 / 2 ^ 7)); [|ring].
      pose proof (Z.mod_pos_bound s0 (2 ^ 7)). lia.
    - repeat (constructor; [first [done|by apply is_byte_land]|]). by constructor. }
  rewrite Hs. change (to_be_bytes 3 len ++ [k; f] ++ [Z.land s0 0x7f; s1; s2; s3]
    = [a; b; c; k; f; Z.land s0 0x7f; s1; s2; s3]). by rewrite Hw.
Qed.

Lemma settings_chunks_app params rest :
  Forall (fun '(id, value) => 0 <= id < 2 ^ 16 ∧ 0 <= value < 2 ^ 32) params →
  settings_chunks
    (mjoin (param_octets <$> params) ++ rest)
  = params ++ settings_chunks rest.
Proof.
  induction params as [|[id v] params IH]; intros Hp; [done|]. apply Forall_cons in Hp as [[Hi Hv] Hp].
  pose proof (from_to_be_bytes_id 2 id ltac:(simpl; lia)) as H2.
  pose proof (from_to_be_bytes_id 4 v ltac:(simpl; lia)) as H4.
  change (mjoin (param_octets <$> (id, v) :: params))
    with (to_be_bytes 2 id ++ to_be_bytes 4 v ++ mjoin (param_octets <$> params)).
  rewrite <-!app_assoc. simpl to_be_bytes in *. cbn [app settings_chunks].
  rewrite H2, H4. cbn [app]. f_equal. by apply IH.
Qed.

Lemma settings_payload_len params :
  zlen (mjoin (param_octets <$> params))
  = 6 * zlen params.
Proof.
  induction params as [|[id v] params IH]; [done|].   change (mjoin (param_octets <$> (id, v) :: params))
    with (to_be_bytes 2 id ++ to_be_bytes 4 v ++ mjoin (param_octets <$> params)).
  rewrite !zlen_app, zlen_cons, IH. unfold zlen. rewrite !length_to_be_bytes. lia.
Qed.

(** ** Properties *)

(** A frame header written is read back, and reading any octets gives a well-formed
    header whose encoding is the octets read with the reserved bit cleared. *)
Theorem frame_header_roundtrip h buf rest :
  header_wf h → octets buf →
  parse (write h ++ rest) = Some h ∧
  match parse buf with
  | Some h' =>
      header_wf h' ∧ ∃ a b c k f s0 s1 s2 s3 tail,
        buf = [a; b; c; k; f; s0; s1; s2; s3] ++ tail ∧
        write h' = [a; b; c; k; f; Z.land s0 0x7f; s1; s2; s3]
  | None => (List.length buf < 9)%nat
  end.
Proof. intros. split; [by apply parse_write|by apply parse_octets]. Qed.

Lemma frame_header_roundtrip_witness :
  let h := {| length := 5; kind := kind.DATA; flags := flags.END_STREAM; stream_id := 3 |} in
  parse (write h ++ [1; 2]) = Some h ∧
  match parse [0; 0; 5] with
  | Some h' =>
      header_wf h' ∧ ∃ a b c k f s0 s1 s2 s3 tail,
        [0; 0; 5] = [a; b; c; k; f; s0; s1; s2; s3] ++ tail ∧
        write h' = [a; b; c; k; f; Z.land s0 0x7f; s1; s2; s3]
  | None => (List.length [0; 0; 5] < 9)%nat
  end.
Proof.
  intros h. apply (frame_header_roundtrip h [0; 0; 5] [1; 2]).
  - by split; vm_compute.
  - repeat constructor; discriminate.
Defined.

(** A SETTINGS frame written is one whole frame on stream 0 whose payload parses back
    to the parameters. *)
Theorem settings_frame_roundtrip params rest :
  Forall (fun '(id, value) => 0 <= id < 2 ^ 16 ∧ 0 <= value < 2 ^ 32) params →
  6 * zlen params < 2 ^ 24 →
  ∃ h payload, write_settings params ++ rest = write h ++ payload ++ rest ∧
    parse (write_settings params ++ rest) = Some h ∧ length h = zlen payload ∧
    kind h = kind.SETTINGS ∧ stream_id h = 0 ∧ parse_settings payload = Some params.
Proof.
  intros Hp Hl. unfold write_settings, write_frame.
  pose proof (settings_payload_len params) as Hlen. set (payload := mjoin _) in *.
  pose proof (zlen_nonneg params).
  assert (Hw : u32 (zlen payload) = zlen payload) by (apply (wrap_id 32); lia).
  eexists _, payload. rewrite <-app_assoc. split_and!; [done| | | | |].
  - apply parse_write. rewrite Hw. split; cbn [length kind flags stream_id]; try done. lia.
  - done.
  - done.
  - done.
  - unfold parse_settings. rewrite Hlen, Z.mul_comm, Z.mod_mul by done. cbn.
    subst payload. rewrite <-(app_nil_r (mjoin _)), settings_chunks_app by done.
    by rewrite app_nil_r.
Qed.

Lemma settings_frame_roundtrip_witness :
  let params := [(settings.HEADER_TABLE_SIZE, 4096); (settings.MAX_FRAME_SIZE, 16384)] in
  ∃ h payload, write_settings params ++ [] = write h ++ payload ++ [] ∧
    parse (write_settings params ++ []) = Some h ∧ length h = zlen payload ∧
    kind h = kind.SETTINGS ∧ stream_id h = 0 ∧ parse_settings payload = Some params.
Proof.
  intros params. apply (settings_frame_roundtrip params []).
  - repeat constructor; discriminate.
  - done.
Defined.

End frame.

(** A header block is a HEADERS frame and as many CONTINUATION frames as the peer's
    SETTINGS_MAX_FRAME_SIZE makes necessary. *)
Module field_block.

(** [while rest.len() > max]: every round shortens [rest], as [max] is at least 1. *)
Fixpoint continuations (fuel : nat) (stream_id : Z) (max : nat) (rest : list Z) : list Z :=
  match fuel with
  | O => []
  | S fuel' =>
      if (max <? length rest)%nat then
        frame.write_frame frame.kind.CONTINUATION 0 stream_id (take max rest)
        ++ continuations fuel' stream_id max (drop max rest)
      else
        frame.write_frame frame.kind.CONTINUATION frame.flags.END_HEADERS stream_id rest
  end.

Definition write_field_block (stream_id lead_flags : Z) (block : list Z) (max_frame : Z) : list Z :=
  let max := Z.max max_frame 1 in
  if zlen block <=? max then
    frame.write_frame frame.kind.HEADERS (Z.lor lead_flags frame.flags.END_HEADERS) stream_id block
  else
    frame.write_frame frame.kind.HEADERS lead_flags stream_id (take (Z.to_nat max) block)
    ++ continuations (length block) stream_id (Z.to_nat max) (drop (Z.to_nat max) block).

End field_block.
