(* ===== verification/RustStr.v ===== *)
(** * Rust's [u8], [str] and [&[u8]] methods the server uses

    A string is its UTF-8 octets. What is here is the standard library's documented
    behaviour, written as executable functions; a pattern argument is one ASCII octet
    unless said otherwise. *)

From stdpp Require Import base list strings.
From Stdlib Require Import ZArith Lia.
From S2P Require Import Prelude.

(** ** Octets *)

Definition between (lo hi b : Z) : bool := (lo <=? b) && (b <=? hi).

Definition is_ascii_digit (b : Z) : bool := between 0x30 0x39 b.
Definition is_ascii_lowercase (b : Z) : bool := between 0x61 0x7a b.
Definition is_ascii_uppercase (b : Z) : bool := between 0x41 0x5a b.
Definition is_ascii_alphabetic (b : Z) : bool := is_ascii_lowercase b || is_ascii_uppercase b.
Definition is_ascii_alphanumeric (b : Z) : bool := is_ascii_alphabetic b || is_ascii_digit b.
Definition is_ascii_hexdigit (b : Z) : bool :=
  is_ascii_digit b || between 0x61 0x66 b || between 0x41 0x46 b.
(** [u8::is_ascii_whitespace]: space, tab, line feed, form feed, carriage return. *)
Definition is_ascii_whitespace (b : Z) : bool :=
  (b =? 0x20) || (b =? 0x09) || (b =? 0x0a) || (b =? 0x0c) || (b =? 0x0d).

Definition CRLF : list Z := [0x0d; 0x0a].

Definition to_ascii_lowercase_u8 (b : Z) : Z := if is_ascii_uppercase b then b + 32 else b.
Definition to_ascii_lowercase (s : list Z) : list Z := to_ascii_lowercase_u8 <$> s.
Definition eq_ignore_ascii_case (s t : list Z) : bool :=
  bytes_eqb (to_ascii_lowercase s) (to_ascii_lowercase t).

(** ** Searching and cutting *)

Definition contains (s : list Z) (c : Z) : bool := existsb (Z.eqb c) s.

Fixpoint strip_prefix (p s : list Z) : option (list Z) :=
  match p, s with
  | [], _ => Some s
  | a :: p', b :: s' => if a =? b then strip_prefix p' s' else None
  | _ :: _, [] => None
  end.

Definition starts_with (s p : list Z) : bool :=
  match strip_prefix p s with Some _ => true | None => false end.

Definition strip_suffix (p s : list Z) : option (list Z) :=
  match strip_prefix (rev p) (rev s) with Some r => Some (rev r) | None => None end.

Definition ends_with (s p : list Z) : bool :=
  match strip_suffix p s with Some _ => true | None => false end.

(** At the first [c]: what is before it and what is after it. *)
Fixpoint split_once (c : Z) (s : list Z) : option (list Z * list Z) :=
  match s with
  | [] => None
  | b :: s' =>
      if b =? c then Some ([], s')
      else match split_once c s' with Some (x, y) => Some (b :: x, y) | None => None end
  end.

(** At the last [c]. *)
Definition rsplit_once (c : Z) (s : list Z) : option (list Z * list Z) :=
  match split_once c (rev s) with Some (x, y) => Some (rev y, rev x) | None => None end.

(** [split(c)]: never empty. *)
Fixpoint split (c : Z) (s : list Z) : list (list Z) :=
  match s with
  | [] => [[]]
  | b :: s' =>
      if b =? c then [] :: split c s'
      else match split c s' with x :: xs => (b :: x) :: xs | [] => [[b]] end
  end.

Fixpoint drop_while (p : Z → bool) (s : list Z) : list Z :=
  match s with
  | [] => []
  | b :: s' => if p b then drop_while p s' else s
  end.

Definition trim_end_matches (p : Z → bool) (s : list Z) : list Z := rev (drop_while p (rev s)).

(** [<[u8]>::trim_ascii] *)
Definition trim_ascii (s : list Z) : list Z :=
  trim_end_matches is_ascii_whitespace (drop_while is_ascii_whitespace s).

(** One white-space [char] at the front of a string: Unicode's White_Space, in UTF-8. *)
Definition strip_whitespace (s : list Z) : option (list Z) :=
  match s with
  | b :: s' =>
      if between 0x09 0x0d b || (b =? 0x20) then Some s'
      else
        match s' with
        | c :: s'' =>
            if (b =? 0xc2) && ((c =? 0x85) || (c =? 0xa0)) then Some s''
            else
              match s'' with
              | d :: s''' =>
                  if ((b =? 0xe1) && (c =? 0x9a) && (d =? 0x80))
                     || ((b =? 0xe2) && (c =? 0x80)
                         && (between 0x80 0x8a d || (d =? 0xa8) || (d =? 0xa9) || (d =? 0xaf)))
                     || ((b =? 0xe2) && (c =? 0x81) && (d =? 0x9f))
                     || ((b =? 0xe3) && (c =? 0x80) && (d =? 0x80))
                  then Some s''' else None
              | [] => None
              end
        | [] => None
        end
  | [] => None
  end.

(** The same at the end, on the reversed string. *)
Definition strip_whitespace_rev (s : list Z) : option (list Z) :=
  match s with
  | b :: s' =>
      if between 0x09 0x0d b || (b =? 0x20) then Some s'
      else
        match s' with
        | c :: s'' =>
            if (c =? 0xc2) && ((b =? 0x85) || (b =? 0xa0)) then Some s''
            else
              match s'' with
              | d :: s''' =>
                  if ((d =? 0xe1) && (c =? 0x9a) && (b =? 0x80))
                     || ((d =? 0xe2) && (c =? 0x80)
                         && (between 0x80 0x8a b || (b =? 0xa8) || (b =? 0xa9) || (b =? 0xaf)))
                     || ((d =? 0xe2) && (c =? 0x81) && (b =? 0x9f))
                     || ((d =? 0xe3) && (c =? 0x80) && (b =? 0x80))
                  then Some s''' else None
              | [] => None
              end
        | [] => None
        end
  | [] => None
  end.

(** Every strip shortens the string, so its length is fuel enough. *)
Fixpoint strip_all (strip : list Z → option (list Z)) (fuel : nat) (s : list Z) : list Z :=
  match fuel with
  | O => s
  | S fuel' => match strip s with Some s' => strip_all strip fuel' s' | None => s end
  end.

Definition trim_start (s : list Z) : list Z := strip_all strip_whitespace (length s) s.
Definition trim_end (s : list Z) : list Z :=
  rev (strip_all strip_whitespace_rev (length s) (rev s)).
Definition trim (s : list Z) : list Z := trim_end (trim_start s).

(** ** Numbers *)

(** [str::parse] of an unsigned integer of at most [max]: an optional plus sign and at
    least one digit; the running value is checked after every digit. *)
Fixpoint parse_digits (max acc : Z) (s : list Z) : option Z :=
  match s with
  | [] => Some acc
  | b :: s' =>
      if is_ascii_digit b then
        let acc := acc * 10 + (b - 0x30) in
        if max <? acc then None else parse_digits max acc s'
      else None
  end.

Definition parse_unsigned (max : Z) (s : list Z) : option Z :=
  match s with
  | [] => None
  | b :: s' =>
      if b =? 0x2b then (if bool_decide (s' = []) then None else parse_digits max 0 s')
      else parse_digits max 0 s
  end.

Abbreviation parse_u64 := (parse_unsigned U64_MAX).

Definition hex_digit (b : Z) : Z :=
  if is_ascii_digit b then b - 0x30
  else if is_ascii_lowercase b then b - 0x61 + 10
  else b - 0x41 + 10.

(** [from_str_radix(.., 16)] of hexadecimal digits. *)
Fixpoint parse_hex_digits (max acc : Z) (s : list Z) : option Z :=
  match s with
  | [] => Some acc
  | b :: s' =>
      if is_ascii_hexdigit b then
        let acc := acc * 16 + hex_digit b in
        if max <? acc then None else parse_hex_digits max acc s'
      else None
  end.

Definition parse_hex (max : Z) (s : list Z) : option Z := parse_hex_digits max 0 s.

(** The digits of [n] in front of [acc]; [to_string] of a u64, which has at most 20. *)
Fixpoint digits_loop (fuel : nat) (n : Z) (acc : list Z) : list Z :=
  match fuel with
  | O => acc
  | S fuel =>
      let acc := (0x30 + n mod 10) :: acc in
      if n <? 10 then acc else digits_loop fuel (n / 10) acc
  end.
Definition to_string (n : Z) : list Z := digits_loop 20 n [].

(** ** UTF-8 *)

Definition cont (b : Z) : bool := between 0x80 0xbf b.

(** [std::str::from_utf8(s).is_ok()] *)
Fixpoint utf8_valid (s : list Z) : bool :=
  match s with
  | [] => true
  | b :: s1 =>
      if b <? 0x80 then utf8_valid s1
      else
        match s1 with
        | [] => false
        | c :: s2 =>
            if between 0xc2 0xdf b then cont c && utf8_valid s2
            else
              match s2 with
              | [] => false
              | d :: s3 =>
                  if between 0xe0 0xef b then
                    (if b =? 0xe0 then between 0xa0 0xbf c
                     else if b =? 0xed then between 0x80 0x9f c
                     else cont c)
                    && cont d && utf8_valid s3
                  else
                    match s3 with
                    | [] => false
                    | e :: s4 =>
                        between 0xf0 0xf4 b
                        && (if b =? 0xf0 then between 0x90 0xbf c
                            else if b =? 0xf4 then between 0x80 0x8f c
                            else cont c)
                        && cont d && cont e && utf8_valid s4
                    end
              end
        end
  end.

(** The second octets a leading octet of three or four allows. *)
Definition utf8_second (b c : Z) : bool :=
  if b =? 0xe0 then between 0xa0 0xbf c
  else if b =? 0xed then between 0x80 0x9f c
  else if b =? 0xf0 then between 0x90 0xbf c
  else if b =? 0xf4 then between 0x80 0x8f c
  else cont c.

(** [String::from_utf8_lossy]: U+FFFD for each longest start of a character that is not one. *)
Fixpoint utf8_lossy (s : list Z) : list Z :=
  let bad := [0xef; 0xbf; 0xbd] in
  match s with
  | [] => []
  | b :: s1 =>
      if b <? 0x80 then b :: utf8_lossy s1
      else if between 0xc2 0xdf b then
        match s1 with
        | c :: s2 => if cont c then b :: c :: utf8_lossy s2 else bad ++ utf8_lossy s1
        | [] => bad
        end
      else if between 0xe0 0xf4 b then
        match s1 with
        | c :: s2 =>
            if utf8_second b c then
              match s2 with
              | d :: s3 =>
                  if cont d then
                    if b <? 0xf0 then b :: c :: d :: utf8_lossy s3
                    else
                      match s3 with
                      | e :: s4 =>
                          if cont e then b :: c :: d :: e :: utf8_lossy s4 else bad ++ utf8_lossy s3
                      | [] => bad
                      end
                  else bad ++ utf8_lossy s2
              | [] => bad
              end
            else bad ++ utf8_lossy s1
        | [] => bad
        end
      else bad ++ utf8_lossy s1
  end.

(** ** Facts *)

Lemma strip_prefix_some p s r : strip_prefix p s = Some r ↔ s = p ++ r.
Proof.
  revert s. induction p as [|a p IH]; intros s; simpl; [split; congruence|].
  destruct s as [|b s]; [done|]. destruct (Z.eqb_spec a b) as [->|Hn]; [rewrite IH|];
    split; congruence.
Qed.

Lemma contains_true s c : contains s c = true ↔ c ∈ s.
Proof.
  unfold contains. rewrite existsb_exists. split.
  - intros (x & Hx & ->%Z.eqb_eq). by apply list_elem_of_In.
  - intros H. exists c. by rewrite <-list_elem_of_In, Z.eqb_refl.
Qed.

Lemma contains_false s c : contains s c = false ↔ c ∉ s.
Proof. rewrite <-contains_true. by destruct (contains s c). Qed.

Lemma split_once_some c s x y : split_once c s = Some (x, y) ↔ s = x ++ c :: y ∧ c ∉ x.
Proof.
  revert x. induction s as [|b s IH]; intros x; simpl.
  { split; [done|]. intros [H _]. by destruct x. }
  destruct (Z.eqb_spec b c) as [->|Hn].
  - split; [intros [= <- <-]; split; [done|apply not_elem_of_nil]|].
    intros [H Hx]. destruct x as [|b' x]; [by injection H as ->|].
    injection H as -> _. exfalso. apply Hx. left.
  - destruct (split_once c s) as [[u v]|] eqn:E.
    + split.
      * intros [= <- <-]. destruct (proj1 (IH u) eq_refl) as [-> Hu].
        split; [done|]. by apply not_elem_of_cons.
      * intros [H Hx]. destruct x as [|b' x]; [simpl in H; congruence|]. injection H as <- H.
        apply not_elem_of_cons in Hx as [_ Hx].
        pose proof (proj2 (IH x) (conj H Hx)) as H'. by injection H' as -> ->.
    + split; [done|]. intros [H Hx]. destruct x as [|b' x]; [simpl in H; congruence|]. injection H as <- H.
      apply not_elem_of_cons in Hx as [_ Hx]. by pose proof (proj2 (IH x) (conj H Hx)).
Qed.

Lemma split_once_none c s : split_once c s = None ↔ c ∉ s.
Proof.
  split.
  - intros H Hin. apply list_elem_of_split in Hin as (x & y & ->).
    revert H. induction x as [|b x IH]; simpl; [by rewrite Z.eqb_refl|].
    case_if; [done|]. by destruct (split_once c (x ++ c :: y)) as [[]|].
  - intros H. destruct (split_once c s) as [[x y]|] eqn:E; [|done].
    apply split_once_some in E as [-> _]. exfalso. apply H. apply elem_of_app. right. left.
Qed.

Lemma not_elem_of_rev (c : Z) s : c ∉ rev s ↔ c ∉ s.
Proof. by rewrite !list_elem_of_In, <-in_rev. Qed.

Lemma rsplit_once_some c s x y : rsplit_once c s = Some (x, y) ↔ s = x ++ c :: y ∧ c ∉ y.
Proof.
  transitivity (split_once c (rev s) = Some (rev y, rev x)).
  { unfold rsplit_once. destruct (split_once c (rev s)) as [[u v]|]; [|done].
    split; intros [= H1 H2]; [|subst; by rewrite !rev_involutive].
    by rewrite <-H1, <-H2, !rev_involutive. }
  rewrite split_once_some, not_elem_of_rev. f_equiv.
  replace (rev y ++ c :: rev x) with (rev (x ++ c :: y)); cycle 1.
  { rewrite rev_app_distr. cbn [rev]. by rewrite <-app_assoc. }
  split; [|by intros ->]. intros H. apply (f_equal (@rev Z)) in H. by rewrite !rev_involutive in H.
Qed.

Lemma rsplit_once_none c s : rsplit_once c s = None ↔ c ∉ s.
Proof.
  unfold rsplit_once. rewrite <-not_elem_of_rev, <-split_once_none.
  by destruct (split_once c (rev s)) as [[]|].
Qed.

(** Joining the pieces of [split c] with [c] gives the string back. *)
Fixpoint join (c : Z) (xs : list (list Z)) : list Z :=
  match xs with
  | [] => []
  | [x] => x
  | x :: xs' => x ++ c :: join c xs'
  end.

Lemma split_nonempty c s : split c s ≠ [].
Proof. destruct s as [|b s]; simpl; [done|]. case_if; [done|]. by destruct (split c s). Qed.

Lemma join_split c s : join c (split c s) = s.
Proof.
  induction s as [|b s IH]; [done|]. cbn [split]. case_if.
  - subst. pose proof (split_nonempty c s). cbn [join]. destruct (split c s); [done|]. by rewrite IH.
  - pose proof (split_nonempty c s). destruct (split c s) as [|x [|y xs]]; [done|..];
      cbn [join app] in *; by rewrite <-IH.
Qed.

Lemma split_no_sep c s : Forall (fun x => c ∉ x) (split c s).
Proof.
  induction s as [|b s IH]; simpl; [repeat constructor; apply not_elem_of_nil|]. case_if.
  - constructor; [apply not_elem_of_nil|done].
  - destruct (split c s) as [|x xs]; [repeat constructor|inversion IH as [|? ? Hx Hxs]; subst].
    + apply not_elem_of_cons. split; [congruence|apply not_elem_of_nil].
    + constructor; [apply not_elem_of_cons; split; [congruence|done]|done].
Qed.

Lemma split_app_sep c x s : c ∉ x → split c (x ++ c :: s) = x :: split c s.
Proof.
  induction x as [|b x IH]; intros Hx; cbn [app split]; [by rewrite Z.eqb_refl|].
  apply not_elem_of_cons in Hx as [Hb Hx]. rewrite (proj2 (Z.eqb_neq b c)) by congruence. by rewrite IH.
Qed.

Lemma split_whole c x : c ∉ x → split c x = [x].
Proof.
  induction x as [|b x IH]; intros Hx; cbn [split]; [done|].
  apply not_elem_of_cons in Hx as [Hb Hx]. rewrite (proj2 (Z.eqb_neq b c)) by congruence. by rewrite IH.
Qed.

Lemma split_join c xs : xs ≠ [] → Forall (fun x => c ∉ x) xs → split c (join c xs) = xs.
Proof.
  induction xs as [|x [|y xs] IH]; [done|..]; intros _ [Hx Hxs]%Forall_cons; cbn [join].
  - by apply split_whole.
  - rewrite split_app_sep by done. f_equal. by apply IH.
Qed.

Lemma parse_digits_range max acc s n :
  0 <= acc <= max → parse_digits max acc s = Some n → acc <= n <= max.
Proof.
  revert acc. induction s as [|b s IH]; intros acc Ha; simpl.
  - intros [= <-]. lia.
  - unfold is_ascii_digit, between. case_if; [|done]. case_if; [done|]. intros Hs.
    apply IH in Hs; lia.
Qed.

Lemma parse_unsigned_range max s n : 0 <= max → parse_unsigned max s = Some n → 0 <= n <= max.
Proof.
  intros Hm. destruct s as [|b s]; cbn [parse_unsigned]; [done|].
  case_if; [case_if; [done|]|]; intros Hs; apply (parse_digits_range max 0) in Hs; lia.
Qed.

Lemma hex_digit_range b : is_ascii_hexdigit b = true → 0 <= hex_digit b < 16.
Proof.
  unfold is_ascii_hexdigit, hex_digit, is_ascii_digit, is_ascii_lowercase, between. intros Hb.
  repeat case_if; bool_hyps; lia.
Qed.

Lemma parse_hex_digits_range max acc s n :
  0 <= acc <= max → parse_hex_digits max acc s = Some n → 0 <= n <= max.
Proof.
  revert acc. induction s as [|b s IH]; intros acc Ha; cbn; [by intros [= <-]|].
  destruct (is_ascii_hexdigit b) eqn:Eb; [|done]. pose proof (hex_digit_range b Eb).
  destruct (Z.ltb_spec max (acc * 16 + hex_digit b)); [done|]. apply IH. lia.
Qed.

Lemma parse_hex_range max s n : 0 <= max → parse_hex max s = Some n → 0 <= n <= max.
Proof. intros. eapply (parse_hex_digits_range max 0); [lia|done]. Qed.

Lemma parse_hex_digits_app max acc s s' :
  parse_hex_digits max acc (s ++ s') = a ← parse_hex_digits max acc s; parse_hex_digits max a s'.
Proof.
  revert acc. induction s as [|b s IH]; intros acc; [done|]. cbn [parse_hex_digits app].
  destruct (is_ascii_hexdigit b); [|done]. by destruct (max <? _); [|apply IH].
Qed.

Lemma parse_digits_app max acc s s' :
  parse_digits max acc (s ++ s') = a ← parse_digits max acc s; parse_digits max a s'.
Proof.
  revert acc. induction s as [|b s IH]; intros acc; [done|]. cbn [parse_digits app].
  destruct (is_ascii_digit b); [|done]. by destruct (max <? _); [|apply IH].
Qed.

Lemma parse_digits_snoc max s n d :
  parse_digits max 0 s = Some n → 0 <= d < 10 → n * 10 + d <= max →
  parse_digits max 0 (s ++ [0x30 + d]) = Some (n * 10 + d).
Proof.
  intros Hs Hd Hm. rewrite parse_digits_app, Hs. cbn. unfold is_ascii_digit, between.
  rewrite !(proj2 (Z.leb_le _ _)) by lia. cbn [andb]. replace (0x30 + d - 0x30) with d by lia.
  by rewrite (proj2 (Z.ltb_ge _ _)) by lia.
Qed.

Lemma digits_loop_acc fuel n acc : digits_loop fuel n acc = digits_loop fuel n [] ++ acc.
Proof.
  revert n acc. induction fuel as [|fuel IH]; intros n acc; [done|]. cbn [digits_loop].
  destruct (n <? 10); [done|]. rewrite IH, (IH _ [_]), <-app_assoc. done.
Qed.

Lemma digits_loop_parse fuel n :
  0 <= n <= U64_MAX → n < 10 ^ Z.of_nat (S fuel) →
  parse_digits U64_MAX 0 (digits_loop (S fuel) n []) = Some n ∧
  ∃ b s, digits_loop (S fuel) n [] = b :: s ∧ is_ascii_digit b = true.
Proof.
  assert (Hdigit : ∀ d, 0 <= d < 10 → is_ascii_digit (0x30 + d) = true).
  { intros d Hd. unfold is_ascii_digit, between. by rewrite !(proj2 (Z.leb_le _ _)) by lia. }
  revert n. induction fuel as [|fuel IH]; intros n Hn Hf;
    pose proof (Z.div_mod n 10 ltac:(lia)) as Hdm; pose proof (Z.mod_pos_bound n 10 ltac:(lia)) as Hmod.
  all: assert (Hsmall : n < 10 → parse_digits U64_MAX 0 ([] ++ [0x30 + n mod 10]) = Some n).
  1, 3: intros; rewrite (parse_digits_snoc U64_MAX [] 0) by (done || lia); f_equal;
    rewrite Z.mod_small by lia; lia.
  - change (10 ^ Z.of_nat 1) with 10 in Hf. cbn [digits_loop].
    rewrite (proj2 (Z.ltb_lt _ _)) by lia. split; [by apply Hsmall|by eauto].
  - cbn [digits_loop]. destruct (Z.ltb_spec n 10); [split; [by apply Hsmall|by eauto]|].
    rewrite Nat2Z.inj_succ, Z.pow_succ_r in Hf by lia.
    destruct (IH (n / 10)) as [Hp (b & s & E & Hb)]; [split; [apply Z.div_pos|]; lia|lia|].
    change (if n / 10 <? 10 then _ else _) with (digits_loop (S fuel) (n / 10) [0x30 + n mod 10]).
    rewrite digits_loop_acc. split; [|rewrite E; by eauto].
    rewrite (parse_digits_snoc U64_MAX _ (n / 10)) by (done || lia). f_equal. lia.
Qed.

Lemma parse_to_string n : 0 <= n <= U64_MAX → parse_u64 (to_string n) = Some n.
Proof.
  intros Hn. destruct (digits_loop_parse 19 n Hn) as [Hp (b & s & E & Hb)];
    [unfold U64_MAX in Hn; lia|].
  unfold to_string. rewrite E in *. cbn [parse_unsigned]. destruct (Z.eqb_spec b 0x2b); [|done].
  subst b. done.
Qed.

(** ASCII strings are valid UTF-8. *)
Lemma ascii_utf8 s : Forall (fun b => b < 0x80) s → utf8_valid s = true.
Proof. induction 1 as [|b s Hb _ IH]; [done|]. simpl. by rewrite (proj2 (Z.ltb_lt _ _) Hb). Qed.

Lemma to_ascii_lowercase_idem s : to_ascii_lowercase (to_ascii_lowercase s) = to_ascii_lowercase s.
Proof.
  unfold to_ascii_lowercase. rewrite <-list_fmap_compose. apply list_fmap_ext. intros _ b _.
  unfold compose, to_ascii_lowercase_u8, is_ascii_uppercase, between.
  repeat case_if; bool_hyps; lia.
Qed.
