(* ===== verification/Net.v ===== *)
(** * Peers, authorities and forwarding headers: [crates/hj-core/src/net.rs]

    Also the address parsers of [core::net], which the code calls. *)

From stdpp Require Import base list strings.
From Stdlib Require Import ZArith Lia.
From S2P Require Import Prelude RustStr.

(** ** Addresses *)

Module ip.

(** An IPv4 address is its four octets, an IPv6 address its eight 16-bit segments. *)
Inductive IpAddr : Type :=
| V4 (octets : list Z)
| V6 (segments : list Z).

#[export] Instance IpAddr_eq_dec : EqDecision IpAddr.
Proof. solve_decision. Defined.

(** [Parser::read_number]: digits of the radix, at most [max_digits], value at most
    [max]. The count of digits is that of the longest run of digits. *)
Fixpoint digit_run (hex : bool) (s : list Z) : list Z * list Z :=
  match s with
  | [] => ([], [])
  | b :: s' =>
      if (if hex then is_ascii_hexdigit b else is_ascii_digit b)
      then let '(ds, rest) := digit_run hex s' in (b :: ds, rest)
      else ([], s)
  end.

Definition read_number (hex : bool) (max_digits : Z) (max : Z) (allow_zero_prefix : bool)
    (s : list Z) : option (Z * list Z) :=
  let '(ds, rest) := digit_run hex s in
  let radix := if hex then 16 else 10 in
  let value := fold_left (fun acc b => acc * radix + hex_digit b) ds 0 in
  if bool_decide (ds = []) then None
  else if max_digits <? zlen ds then None
  else if negb allow_zero_prefix && bool_decide (head ds = Some 0x30) && (1 <? zlen ds) then None
  else if max <? value then None
  else Some (value, rest).

(** [Parser::read_separator]: the separator is read in front of all groups but the first. *)
Definition read_separator {A} (sep : Z) (index : Z) (inner : list Z → option (A * list Z))
    (s : list Z) : option (A * list Z) :=
  if 0 <? index then
    match s with
    | b :: s' => if b =? sep then inner s' else None
    | [] => None
    end
  else inner s.

(** [Parser::read_ipv4_addr] *)
Definition read_ipv4_addr (s : list Z) : option (list Z * list Z) :=
  let group i := read_separator 0x2e i (read_number false 3 255 false) in
  match group 0 s with
  | None => None
  | Some (a, s) =>
      match group 1 s with
      | None => None
      | Some (b, s) =>
          match group 2 s with
          | None => None
          | Some (c, s) =>
              match group 3 s with None => None | Some (d, s) => Some ([a; b; c; d], s) end
          end
      end
  end.

(** [read_groups]: at most [limit - i] further groups; the second result says whether the
    last two came from an embedded IPv4 address. *)
Fixpoint read_groups (left : nat) (i : Z) (s : list Z) : list Z * bool * list Z :=
  match left with
  | O => ([], false, s)
  | S left' =>
      let hex_group :=
        match read_separator 0x3a i (read_number true 4 0xffff true) s with
        | Some (g, s') =>
            let '(gs, v4, s'') := read_groups left' (i + 1) s' in (g :: gs, v4, s'')
        | None => ([], false, s)
        end in
      match left' with
      | O => hex_group
      | S _ =>
          match read_separator 0x3a i read_ipv4_addr s with
          | Some ([a; b; c; d], s') => ([a * 256 + b; c * 256 + d], true, s')
          | _ => hex_group
          end
      end
  end.

(** [Parser::read_ipv6_addr] *)
Definition read_ipv6_addr (s : list Z) : option (list Z * list Z) :=
  let '(head, head_v4, s) := read_groups 8 0 s in
  if (length head =? 8)%nat then Some (head, s)
  else if head_v4 then None
  else
    match s with
    | c :: c' :: s =>
        if (c =? 0x3a) && (c' =? 0x3a) then
          let '(tail, _, s) := read_groups (8 - (length head + 1)) 0 s in
          Some (head ++ replicate (8 - length head - length tail) 0 ++ tail, s)
        else None
    | _ => None
    end.

(** [str::parse::<Ipv6Addr>]: the whole string. *)
Definition parse_ipv6 (s : list Z) : option (list Z) :=
  match read_ipv6_addr s with Some (a, []) => Some a | _ => None end.

(** [str::parse::<Ipv4Addr>]: at most 15 octets, and the whole string. *)
Definition parse_ipv4 (s : list Z) : option (list Z) :=
  if 15 <? zlen s then None
  else match read_ipv4_addr s with Some (a, []) => Some a | _ => None end.

(** [IpAddr::to_canonical]: an IPv4-mapped IPv6 address is the IPv4 address. *)
Definition to_canonical (ip : IpAddr) : IpAddr :=
  match ip with
  | V6 [0; 0; 0; 0; 0; 0xffff; ab; cd] => V4 [ab / 256; ab mod 256; cd / 256; cd mod 256]
  | _ => ip
  end.

Definition is_loopback (ip : IpAddr) : bool :=
  match ip with
  | V4 (a :: _) => a =? 127
  | V4 [] => false
  | V6 segments => bool_decide (segments = [0; 0; 0; 0; 0; 0; 0; 1])
  end.

Definition is_unspecified (ip : IpAddr) : bool :=
  match ip with
  | V4 octets => bool_decide (octets = [0; 0; 0; 0])
  | V6 segments => bool_decide (segments = [0; 0; 0; 0; 0; 0; 0; 0])
  end.

End ip.

Module net.
Import ip.

Definition is_trusted_internal_peer (ip : IpAddr) : bool :=
  let ip := to_canonical ip in is_loopback ip || is_unspecified ip.

Definition host_without_port (authority : list Z) : list Z :=
  let a := trim authority in
  let host :=
    match strip_prefix [0x5b] a with
    | Some rest => match split 0x5d rest with x :: _ => x | [] => rest end
    | None =>
        if 1 <? zlen (filter (fun b => b = 0x3a) a) then a
        else match split 0x3a a with x :: _ => x | [] => a end
    end in
  to_ascii_lowercase (trim_end_matches (Z.eqb 0x2e) host).

Definition valid_uri_scheme (value : list Z) : bool :=
  match value with
  | b :: bytes =>
      is_ascii_alphabetic b
      && forallb (fun b =>
           is_ascii_alphanumeric b || (b =? 0x2b) || (b =? 0x2d) || (b =? 0x2e)) bytes
  | [] => false
  end.

Definition uri_sub_delim (byte : Z) : bool := contains (bs "!$&'()*+,;=") byte.

Definition unreserved_mark (b : Z) : bool := contains (bs "-._~") b.

(** The index [i] is the octets still to be read; three at a time after a percent sign. *)
Fixpoint valid_uri_component (value : list Z) (allow_colon : bool) : bool :=
  match value with
  | [] => true
  | b :: rest =>
      if is_ascii_alphanumeric b || unreserved_mark b || uri_sub_delim b
         || (allow_colon && (b =? 0x3a))
      then valid_uri_component rest allow_colon
      else
        match rest with
        | h :: l :: rest' =>
            if (b =? 0x25) && is_ascii_hexdigit h && is_ascii_hexdigit l
            then valid_uri_component rest' allow_colon
            else false
        | _ => false
        end
  end.

Definition valid_ip_literal (value : list Z) : bool :=
  match parse_ipv6 value with
  | Some _ => true
  | None =>
      match value with
      | v :: rest =>
          if (v =? 0x76) || (v =? 0x56) then
            match split_once 0x2e rest with
            | None => false
            | Some (version, address) =>
                negb (bool_decide (version = [])) && forallb is_ascii_hexdigit version
                && negb (bool_decide (address = []))
                && forallb (fun b =>
                     is_ascii_alphanumeric b || unreserved_mark b || (b =? 0x3a)
                     || uri_sub_delim b) address
            end
          else false
      | [] => false
      end
  end.

Definition valid_port (port : list Z) : bool := forallb is_ascii_digit port.

Definition valid_host_port (host_port : list Z) : bool :=
  match strip_prefix [0x5b] host_port with
  | Some literal =>
      match split_once 0x5d literal with
      | None => false
      | Some (address, suffix) =>
          valid_ip_literal address
          && (bool_decide (suffix = [])
              || match strip_prefix [0x3a] suffix with
                 | Some port => valid_port port
                 | None => false
                 end)
      end
  | None =>
      let '(host, port) :=
        match rsplit_once 0x3a host_port with
        | Some (host, port) => (host, Some port)
        | None => (host_port, None)
        end in
      negb (contains host 0x3a) && valid_uri_component host false
      && match port with None => true | Some port => valid_port port end
  end.

Definition valid_uri_authority (value : list Z) : bool :=
  match rsplit_once 0x40 value with
  | Some (userinfo, host_port) =>
      if contains host_port 0x40 || negb (valid_uri_component userinfo true) then false
      else valid_host_port host_port
  | None => valid_host_port value
  end.

Definition valid_http_authority (value : list Z) : bool :=
  negb (contains value 0x40) && valid_uri_authority value
  && negb (bool_decide (host_without_port value = [])).

Definition FORWARDING_AUTHORITY_HEADERS : list string :=
  ["forwarded"; "x-forwarded-for"; "x-forwarded-host"; "x-forwarded-proto"; "x-forwarded-port";
   "x-real-ip"; "x-original-forwarded-for"; "cf-connecting-ip"; "true-client-ip"; "client-ip";
   "fastly-client-ip"; "x-cluster-client-ip"]%string.

Definition fold (b : Z) : Z :=
  if (b =? 0x5f) || (b =? 0x2e) then 0x2d else to_ascii_lowercase_u8 b.

Definition folded_eq (name lit : list Z) : bool :=
  (zlen name =? zlen lit) && forallb (fun '(a, b) => fold a =? b) (zip name lit).

Definition folded_starts (name lit : list Z) : bool :=
  (zlen lit <=? zlen name) && folded_eq (take (length lit) name) lit.

Definition folded_ends (name lit : list Z) : bool :=
  (zlen lit <=? zlen name) && folded_eq (drop (length name - length lit) name) lit.

Definition IDENTITY_PREFIXES : list string := ["x-"; "cf-"; "true-"; "fastly-"]%string.
Definition IDENTITY_SUFFIXES : list string := ["-ip"; "-ipv4"; "-ipv6"; "-addr"]%string.

Definition is_forwarding_authority_header (n : list Z) : bool :=
  if existsb (fun known => folded_eq n (bs known)) FORWARDING_AUTHORITY_HEADERS then true
  else
    folded_eq n (bs "forwarded") || folded_starts n (bs "forwarded-")
    || folded_starts n (bs "x-forwarded") || folded_eq n (bs "client-ip")
    || folded_ends n (bs "-client-ip") || folded_eq n (bs "real-ip")
    || folded_ends n (bs "-real-ip") || folded_starts n (bs "cf-connecting-ip")
    || folded_eq n (bs "cf-pseudo-ipv4")
    || (existsb (fun p => folded_starts n (bs p)) IDENTITY_PREFIXES
        && existsb (fun s => folded_ends n (bs s)) IDENTITY_SUFFIXES).

(** ** The grammar of RFC 3986 section 3.2 *)

Definition plain (colon : bool) (b : Z) : bool :=
  is_ascii_alphanumeric b || unreserved_mark b || uri_sub_delim b || (colon && (b =? 0x3a)).

(** [*( unreserved / pct-encoded / sub-delims )], and colons where they are allowed. *)
Inductive component (colon : bool) : list Z → Prop :=
| comp_nil : component colon []
| comp_plain b s : plain colon b = true → component colon s → component colon (b :: s)
| comp_pct h l s :
    is_ascii_hexdigit h = true → is_ascii_hexdigit l = true → component colon s →
    component colon (0x25 :: h :: l :: s).

Inductive host_port : list Z → Prop :=
| hp_literal a : valid_ip_literal a = true → host_port (0x5b :: a ++ [0x5d])
| hp_literal_port a p :
    valid_ip_literal a = true → valid_port p = true → host_port (0x5b :: a ++ 0x5d :: 0x3a :: p)
| hp_name h : component false h → host_port h
| hp_name_port h p : component false h → valid_port p = true → host_port (h ++ 0x3a :: p).

Inductive authority : list Z → Prop :=
| auth_host hp : host_port hp → authority hp
| auth_userinfo u hp : component true u → host_port hp → authority (u ++ 0x40 :: hp).

Lemma plain_pct colon : plain colon 0x25 = false.
Proof. by destruct colon. Qed.

Lemma valid_uri_component_spec colon v : valid_uri_component v colon = true ↔ component colon v.
Proof.
  split.
  - remember (length v) as n eqn:Hn. revert v Hn.
    induction (lt_wf n) as [n _ IH]. intros [|b rest] ->; [constructor|]. simpl.
    fold (plain colon b). destruct (plain colon b) eqn:Hb.
    + intros H. constructor; [done|]. apply (IH (length rest)); [simpl; lia|done..].
    + destruct rest as [|h [|l rest]]; try done. case_if; [|done]. intros Hr. subst b.
      constructor; [done..|]. apply (IH (length rest)); [simpl; lia|done..].
  - induction 1 as [|b s Hb Hs IH|h l s Hh Hl Hs IH]; [done|..]; simpl.
    + fold (plain colon b). by rewrite Hb.
    + rewrite Hh, Hl. by destruct colon.
Qed.

(** What a component, a port and an address literal cannot hold. *)
Lemma component_excludes colon v c :
  plain colon c = false → c ≠ 0x25 → is_ascii_hexdigit c = false → component colon v → c ∉ v.
Proof.
  intros Hp Hpct Hx. induction 1 as [|b s Hb _ IH|h l s Hh Hl _ IH]; [apply not_elem_of_nil|..];
    rewrite !not_elem_of_cons; split_and!; congruence.
Qed.

Lemma port_excludes p c : is_ascii_digit c = false → valid_port p = true → c ∉ p.
Proof.
  intros Hc Hp. unfold valid_port in Hp. rewrite forallb_forall in Hp.
  rewrite list_elem_of_In. intros Hin%Hp. congruence.
Qed.

Definition literal_char (b : Z) : bool :=
  is_ascii_hexdigit b || (b =? 0x3a) || (b =? 0x2e).

(** A reader that takes literal characters off the front. *)
Definition literal_reader {A} (r : list Z → option (A * list Z)) : Prop :=
  ∀ s a rest, r s = Some (a, rest) → ∃ used, s = used ++ rest ∧ Forall (fun b => literal_char b = true) used.

Lemma digit_run_spec hex s ds rest :
  digit_run hex s = (ds, rest) → s = ds ++ rest ∧ Forall (fun b => literal_char b = true) ds.
Proof.
  revert ds. induction s as [|b s IH]; intros ds; simpl; [by intros [= <- <-]|].
  destruct (if hex then _ else _) eqn:Hb; [|by intros [= <- <-]].
  destruct (digit_run hex s) as [ds' rest']. intros [= <- <-].
  destruct (IH ds' eq_refl) as [-> Hd]. split; [done|]. constructor; [|done].
  unfold literal_char, is_ascii_hexdigit in *. destruct hex; [by rewrite Hb|].
  by rewrite Hb.
Qed.

Lemma read_number_literal hex md m z : literal_reader (read_number hex md m z).
Proof.
  intros s a rest. unfold read_number. destruct (digit_run hex s) as [ds rest'] eqn:E.
  apply digit_run_spec in E as [-> Hd]. repeat (case_if; [done|]). intros [= _ <-]. eauto.
Qed.

Lemma read_separator_literal {A} sep i (r : list Z → option (A * list Z)) :
  literal_char sep = true → literal_reader r → literal_reader (read_separator sep i r).
Proof.
  intros Hs Hr s a rest. unfold read_separator. case_if; [|apply Hr].
  destruct s as [|b s]; [done|]. case_if; [|done]. subst b.
  intros (used & -> & Hu)%Hr. exists (sep :: used). by split; [|constructor].
Qed.

Lemma read_ipv4_literal : literal_reader read_ipv4_addr.
Proof.
  intros s a rest. unfold read_ipv4_addr.
  assert (Hg : ∀ i, literal_reader (read_separator 0x2e i (read_number false 3 255 false))).
  { intros i. apply read_separator_literal; [done|apply read_number_literal]. }
  destruct (read_separator _ 0 _ s) as [[x1 s1]|] eqn:E1; [|done].
  destruct (read_separator _ 1 _ s1) as [[x2 s2]|] eqn:E2; [|done].
  destruct (read_separator _ 2 _ s2) as [[x3 s3]|] eqn:E3; [|done].
  destruct (read_separator _ 3 _ s3) as [[x4 s4]|] eqn:E4; [|done]. intros [= _ <-].
  apply Hg in E1 as (u1 & -> & H1). apply Hg in E2 as (u2 & -> & H2).
  apply Hg in E3 as (u3 & -> & H3). apply Hg in E4 as (u4 & -> & H4).
  exists (u1 ++ u2 ++ u3 ++ u4). rewrite <-!app_assoc. split; [done|].
  by rewrite !Forall_app.
Qed.

Lemma read_groups_literal left i s gs v4 rest :
  read_groups left i s = (gs, v4, rest) →
  ∃ used, s = used ++ rest ∧ Forall (fun b => literal_char b = true) used.
Proof.
  revert i s gs v4 rest. induction left as [|left IH]; intros i s gs v4 rest; cbn [read_groups].
  { intros [= <- <- <-]. by exists []. }
  assert (Hh : ∀ gs v4 rest,
    match read_separator 0x3a i (read_number true 4 0xffff true) s with
    | Some (g, s') => let '(gs, v4, s'') := read_groups left (i + 1) s' in (g :: gs, v4, s'')
    | None => ([], false, s)
    end = (gs, v4, rest) →
    ∃ used, s = used ++ rest ∧ Forall (fun b => literal_char b = true) used).
  { clear gs v4 rest. intros gs v4 rest.
    destruct (read_separator 0x3a i _ s) as [[g s']|] eqn:E.
    - apply read_separator_literal in E as (u & -> & Hu); [|done|apply read_number_literal].
      destruct (read_groups left (i + 1) s') as [[gs' v4'] s''] eqn:E'. intros [= <- <- <-].
      apply IH in E' as (u' & -> & Hu'). exists (u ++ u'). rewrite <-app_assoc.
      split; [done|]. by apply Forall_app.
    - intros [= <- <- <-]. by exists []. }
  destruct left as [|left']; [apply Hh|].
  destruct (read_separator 0x3a i read_ipv4_addr s) as [[a s']|] eqn:E; [|apply Hh].
  apply read_separator_literal in E as (u & Hs & Hu); [|done|apply read_ipv4_literal].
  destruct a as [|x1 [|x2 [|x3 [|x4 [|]]]]]; try apply Hh. intros [= _ _ <-]. eauto.
Qed.

Lemma parse_ipv6_literal s a : parse_ipv6 s = Some a → Forall (fun b => literal_char b = true) s.
Proof.
  unfold parse_ipv6, read_ipv6_addr.
  destruct (read_groups 8 0 s) as [[h v4] s1] eqn:E1. apply read_groups_literal in E1 as (u & -> & Hu).
  destruct (length h =? 8)%nat.
  { destruct s1; [|done]. by rewrite app_nil_r. }
  destruct v4; [done|]. destruct s1 as [|c [|c' s2]]; try done.
  destruct (Z.eqb_spec c 0x3a) as [->|]; [|done]. destruct (Z.eqb_spec c' 0x3a) as [->|]; [|done].
  simpl. destruct (read_groups _ 0 s2) as [[t v4'] s3] eqn:E2.
  apply read_groups_literal in E2 as (u' & -> & Hu'). destruct s3; [|done]. intros _.
  rewrite app_nil_r. apply Forall_app. split; [done|]. by repeat constructor.
Qed.

Lemma ip_literal_excludes a c :
  literal_char c = false → is_ascii_alphanumeric c = false → plain true c = false →
  valid_ip_literal a = true → c ∉ a.
Proof.
  intros Hl Ha Hp. unfold valid_ip_literal. destruct (parse_ipv6 a) eqn:E.
  { intros _ Hin. apply parse_ipv6_literal in E. rewrite Forall_forall in E.
    apply E in Hin. congruence. }
  destruct a as [|v rest]; [done|]. case_if; [|done].
  destruct (split_once 0x2e rest) as [[ver addr]|] eqn:Es; [|done].
  apply split_once_some in Es as [-> _]. intros Hb. bool_hyps.
  rewrite not_elem_of_cons, not_elem_of_app, not_elem_of_cons.
  match goal with H : forallb is_ascii_hexdigit ver = true |- _ => rename H into Hver end.
  match goal with H : forallb _ addr = true |- _ => rename H into Haddr end.
  rewrite forallb_forall in Hver, Haddr.
  split_and!.
  - intros ->. by destruct (v =? 0x76) eqn:?, (v =? 0x56) eqn:?; bool_hyps; subst.
  - rewrite list_elem_of_In. intros Hin%Hver. unfold literal_char in Hl. by rewrite Hin in Hl.
  - intros ->. done.
  - rewrite list_elem_of_In. intros Hin%Haddr. unfold plain in Hp.
    destruct (is_ascii_alphanumeric c), (unreserved_mark c), (uri_sub_delim c), (c =? 0x3a); done.
Qed.

Lemma strip_prefix_not_in c s : c ∉ s → strip_prefix [c] s = None.
Proof.
  intros H. destruct (strip_prefix [c] s) as [r|] eqn:E; [|done].
  apply strip_prefix_some in E as ->. exfalso. apply H. left.
Qed.

(** A character that none of the rules of a host and a port use. *)
Definition foreign (c : Z) : Prop :=
  literal_char c = false ∧ is_ascii_alphanumeric c = false ∧ plain true c = false ∧ c ∉ [0x25; 0x3a; 0x5b; 0x5d].

Lemma host_port_excludes hp c : foreign c → host_port hp → c ∉ hp.
Proof.
  intros (Hl & Ha & Hp & Hc). rewrite !not_elem_of_cons in Hc. destruct Hc as (H1 & H2 & H3 & H4 & _).
  assert (Hx : is_ascii_hexdigit c = false) by (unfold literal_char in Hl; by destruct (is_ascii_hexdigit c)).
  assert (Hd : is_ascii_digit c = false) by (unfold is_ascii_hexdigit in Hx; by destruct (is_ascii_digit c)).
  assert (Hpf : plain false c = false).
  { unfold plain in *. destruct (is_ascii_alphanumeric c), (unreserved_mark c), (uri_sub_delim c); done. }
  destruct 1 as [a Hlit|a p Hlit Hport|h Hh|h p Hh Hport];
    rewrite ?not_elem_of_cons, ?not_elem_of_app, ?not_elem_of_cons; split_and?; try done;
    first [by apply ip_literal_excludes|by apply port_excludes|apply not_elem_of_nil
          |by apply (component_excludes false)].
Qed.

Lemma host_port_excludes_at hp : host_port hp → 0x40 ∉ hp.
Proof. apply host_port_excludes. split_and!; [done..|]. by apply contains_false. Qed.

Lemma valid_host_port_spec hp : valid_host_port hp = true ↔ host_port hp.
Proof.
  unfold valid_host_port. split.
  - destruct (strip_prefix [0x5b] hp) as [lit|] eqn:E.
    + apply strip_prefix_some in E as ->.
      destruct (split_once 0x5d lit) as [[a suffix]|] eqn:Es; [|done].
      apply split_once_some in Es as [-> _]. intros [Ha Hs]%andb_true_iff.
      apply orb_true_iff in Hs as [->%bool_decide_eq_true|Hs]; [by constructor|].
      destruct (strip_prefix [0x3a] suffix) as [p|] eqn:Ep; [|done].
      apply strip_prefix_some in Ep as ->. by apply hp_literal_port.
    + destruct (rsplit_once 0x3a hp) as [[h p]|] eqn:Er; intros H; bool_hyps.
      * apply rsplit_once_some in Er as [-> _]. apply hp_name_port; [|done].
        by apply valid_uri_component_spec.
      * apply hp_name. by apply valid_uri_component_spec.
  - destruct 1 as [a Ha|a p Ha Hp|h Hh|h p Hh Hp].
    + cbn [strip_prefix]. rewrite Z.eqb_refl.
      rewrite (proj2 (split_once_some 0x5d _ a [])) by (split; [done|by apply ip_literal_excludes]).
      by rewrite Ha.
    + cbn [strip_prefix]. rewrite Z.eqb_refl.
      rewrite (proj2 (split_once_some 0x5d _ a (0x3a :: p))) by (split; [done|by apply ip_literal_excludes]).
      cbn [strip_prefix]. by rewrite Ha, Z.eqb_refl, Hp.
    + rewrite strip_prefix_not_in by (by apply (component_excludes false)).
      rewrite (proj2 (rsplit_once_none 0x3a h)) by (by apply (component_excludes false)).
      rewrite (proj2 (contains_false h 0x3a)) by (by apply (component_excludes false)).
      by rewrite (proj2 (valid_uri_component_spec false h) Hh).
    + rewrite strip_prefix_not_in; cycle 1.
      { rewrite not_elem_of_app, not_elem_of_cons. split_and!; [by apply (component_excludes false)|done|].
        by apply port_excludes. }
      rewrite (proj2 (rsplit_once_some 0x3a _ h p)) by (split; [done|by apply port_excludes]).
      rewrite (proj2 (contains_false h 0x3a)) by (by apply (component_excludes false)).
      by rewrite (proj2 (valid_uri_component_spec false h) Hh), Hp.
Qed.

Lemma valid_uri_authority_spec v : valid_uri_authority v = true ↔ authority v.
Proof.
  unfold valid_uri_authority. split.
  - destruct (rsplit_once 0x40 v) as [[u hp]|] eqn:E.
    + apply rsplit_once_some in E as [-> _]. case_if; [done|]. intros H'%valid_host_port_spec.
      apply auth_userinfo; [by apply valid_uri_component_spec|done].
    + intros H%valid_host_port_spec. by constructor.
  - destruct 1 as [hp Hh|u hp Hu Hh].
    + rewrite (proj2 (rsplit_once_none 0x40 hp)) by (by apply host_port_excludes_at).
      by apply valid_host_port_spec.
    + pose proof (host_port_excludes_at hp Hh) as Hat.
      rewrite (proj2 (rsplit_once_some 0x40 _ u hp)) by done.
      rewrite (proj2 (contains_false hp 0x40)) by done.
      rewrite (proj2 (valid_uri_component_spec true u) Hu). cbn. by apply valid_host_port_spec.
Qed.

(** The authority of an HTTP URI is visible ASCII. *)
Lemma http_authority_visible v b : valid_http_authority v = true → b ∈ v → 0x21 <= b <= 0x7e.
Proof.
  unfold valid_http_authority. intros [[Hat Hv]%andb_true_iff _]%andb_true_iff Hb.
  apply negb_true_iff, contains_false in Hat. apply valid_uri_authority_spec in Hv as Ha.
  destruct Ha as [hp Hhp|u hp _ _]; [|by exfalso; apply Hat; rewrite elem_of_app, elem_of_cons; auto].
  destruct (decide (0x21 <= b <= 0x7e)) as [|Hr]; [done|]. exfalso. revert Hb. apply host_port_excludes; [|done].
  assert (Ho : ∀ c, 0x21 <= c <= 0x7e → (b =? c) = false) by (intros; apply Z.eqb_neq; lia).
  assert (Hbt : ∀ lo hi, 0x21 <= lo → hi <= 0x7e → between lo hi b = false).
  { intros. unfold between. destruct (Z.leb_spec lo b), (Z.leb_spec b hi); try done. lia. }
  unfold foreign, literal_char, plain, unreserved_mark, uri_sub_delim, is_ascii_hexdigit, is_ascii_alphanumeric,
    is_ascii_alphabetic, is_ascii_digit, is_ascii_lowercase, is_ascii_uppercase.
  rewrite !Hbt by lia. split_and!; [by rewrite !Ho by lia|done| |rewrite !not_elem_of_cons; split_and!; (lia || apply not_elem_of_nil)].
  assert (Hc : ∀ s, forallb (between 0x21 0x7e) s = true → contains s b = false).
  { intros s Hs. apply contains_false. rewrite list_elem_of_In. intros Hin.
    rewrite forallb_forall in Hs. apply Hs in Hin. unfold between in Hin. bool_hyps. lia. }
  cbn [orb andb]. by rewrite !Hc, Ho by (done || lia).
Qed.

(** ** Folding *)

Lemma fold_idem b : fold (fold b) = fold b.
Proof.
  unfold fold, to_ascii_lowercase_u8, is_ascii_uppercase, between.
  destruct (Z.eqb_spec b 0x5f), (Z.eqb_spec b 0x2e); try done. cbn [orb].
  destruct (Z.leb_spec 0x41 b), (Z.leb_spec b 0x5a); cbn [andb];
    repeat case_if; bool_hyps; try lia.
Qed.

Lemma folded_eq_fold name lit : folded_eq (fold <$> name) lit = folded_eq name lit.
Proof.
  unfold folded_eq, zlen. rewrite length_fmap. f_equal.
  revert lit. induction name as [|b name IH]; intros [|c lit]; [done..|]. cbn. by rewrite fold_idem, IH.
Qed.

Lemma folded_starts_fold name lit : folded_starts (fold <$> name) lit = folded_starts name lit.
Proof.
  unfold folded_starts, zlen. rewrite length_fmap, <-fmap_take. by rewrite folded_eq_fold.
Qed.

Lemma folded_ends_fold name lit : folded_ends (fold <$> name) lit = folded_ends name lit.
Proof.
  unfold folded_ends, zlen. rewrite length_fmap, <-fmap_drop. by rewrite folded_eq_fold.
Qed.

(** ** Properties *)

(** valid_uri_authority accepts exactly the RFC 3986 authority grammar. *)
Theorem authority_grammar v : valid_uri_authority v = true ↔ authority v.
Proof. apply valid_uri_authority_spec. Qed.

(** Whether a header name is forwarding authority depends only on the name with case
    and the characters a CGI or header folding identifies folded together, so no spelling
    slips through. *)
Theorem forwarding_header_fold name name' :
  fold <$> name = fold <$> name' →
  is_forwarding_authority_header name = is_forwarding_authority_header name'.
Proof.
  intros Hf.
  assert (He : ∀ lit, folded_eq name lit = folded_eq name' lit).
  { intros. by rewrite <-folded_eq_fold, Hf, folded_eq_fold. }
  assert (Hs : ∀ lit, folded_starts name lit = folded_starts name' lit).
  { intros. by rewrite <-folded_starts_fold, Hf, folded_starts_fold. }
  assert (Hn : ∀ lit, folded_ends name lit = folded_ends name' lit).
  { intros. by rewrite <-folded_ends_fold, Hf, folded_ends_fold. }
  unfold is_forwarding_authority_header. cbn [existsb IDENTITY_PREFIXES IDENTITY_SUFFIXES
    FORWARDING_AUTHORITY_HEADERS]. by rewrite !He, !Hs, !Hn.
Qed.

Lemma forwarding_header_fold_witness :
  is_forwarding_authority_header (bs "X_Forwarded.FOR") = true ∧
  is_forwarding_authority_header (bs "X-Request-ID") = false.
Proof.
  split.
  - rewrite (forwarding_header_fold (bs "X_Forwarded.FOR") (bs "x-forwarded-for")); reflexivity.
  - rewrite (forwarding_header_fold (bs "X-Request-ID") (bs "x_request_id")); reflexivity.
Defined.

End net.
