(* ===== verification/HttpUtil.v ===== *)
(** * HTTP message helpers: [crates/hj-core/src/http_util.rs]

    The [http] crate is not part of the repository: what the code uses of its parsers is
    the class [HttpCrate], a parameter of everything that calls them. A [HeaderMap] is the
    list of its fields with lowercase names, the values of a name in the order they were
    added; a [HeaderValue] is its octets. The crate leaves the order in which it iterates
    over the names open, so iteration is [header_iter]. *)

From stdpp Require Import base list strings.
From Stdlib Require Import ZArith Lia.
From S2P Require Import Prelude RustStr.

Class HttpCrate : Type := {
  (** [HeaderName::from_bytes(..).ok()]: the name in lower case. *)
  header_name : list Z → option (list Z);
  (** [HeaderValue::from_bytes(..).is_ok()] *)
  header_value_ok : list Z → bool;
  (** [HeaderValue::from_str(..).is_ok()] *)
  header_value_from_str_ok : list Z → bool;
  (** [HeaderValue::to_str(..).is_ok()]: visible ASCII only. *)
  header_value_is_str : list Z → bool;
  (** [Method::from_bytes(..).is_ok()]; a method is its octets. *)
  method_ok : list Z → bool;
  Uri : Type;
  (** [Uri::try_from(..).ok()] *)
  uri_try_from : list Z → option Uri;
  uri_has_scheme : Uri → bool;
  uri_has_authority : Uri → bool;
  (** [path_and_query().map_or(0, |pq| pq.as_str().len())] *)
  uri_path_and_query_len : Uri → nat;
  (** [HeaderMap::iter] *)
  header_iter : list (list Z * list Z) → list (list Z * list Z);
}.

(** ** Header maps *)

Module headers.

Abbreviation HeaderMap := (list (list Z * list Z)).

Definition get_all (m : HeaderMap) (name : list Z) : list (list Z) :=
  (filter (fun f => f.1 = name) m).*2.

Definition get (m : HeaderMap) (name : list Z) : option (list Z) := head (get_all m name).

Definition contains_key (m : HeaderMap) (name : list Z) : bool :=
  bool_decide (get_all m name ≠ []).

Definition append (m : HeaderMap) (name value : list Z) : HeaderMap := m ++ [(name, value)].

Definition remove (m : HeaderMap) (name : list Z) : HeaderMap := filter (fun f => f.1 ≠ name) m.

(** [insert] drops the earlier values. *)
Definition insert (m : HeaderMap) (name value : list Z) : HeaderMap :=
  append (remove m name) name value.

Lemma get_all_append m name value n :
  get_all (append m name value) n = get_all m n ++ (if decide (name = n) then [value] else []).
Proof.
  unfold get_all, append. rewrite filter_app, fmap_app. f_equal.
  rewrite filter_cons, filter_nil. simpl. by destruct (decide (name = n)).
Qed.

Lemma get_all_cons k v m n :
  get_all ((k, v) :: m) n = (if decide (k = n) then [v] else []) ++ get_all m n.
Proof. unfold get_all. rewrite filter_cons. cbn [fst]. by destruct (decide (k = n)). Qed.

Lemma remove_cons k v m name :
  remove ((k, v) :: m) name = (if decide (k = name) then [] else [(k, v)]) ++ remove m name.
Proof.
  unfold remove. rewrite filter_cons. cbn [fst].
  destruct (decide (k = name)), (decide (k ≠ name)); try done.
Qed.

Lemma get_all_remove m name n :
  get_all (remove m name) n = if decide (n = name) then [] else get_all m n.
Proof.
  induction m as [|[k v] m IH]; [by destruct (decide (n = name))|].
  rewrite remove_cons, get_all_cons. destruct (decide (k = name)) as [->|Hk]; cbn [app].
  - rewrite IH. destruct (decide (n = name)) as [->|]; [done|]. by rewrite decide_False by congruence.
  - rewrite get_all_cons, IH. destruct (decide (n = name)) as [->|]; [|done].
    by rewrite decide_False.
Qed.

Lemma get_all_insert m name value n :
  get_all (insert m name value) n = if decide (n = name) then [value] else get_all m n.
Proof.
  unfold insert. rewrite get_all_append, get_all_remove.
  destruct (decide (name = n)) as [->|Hn]; [by rewrite !decide_True by done|].
  rewrite !decide_False by congruence. apply app_nil_r.
Qed.

(** [remove] keeps the other fields, in order. *)
Lemma remove_elem m name f : f ∈ remove m name ↔ f ∈ m ∧ f.1 ≠ name.
Proof. unfold remove. rewrite list_elem_of_filter. tauto. Qed.

End headers.

Module http_util.
Import headers.

Section strip.
Context `{HttpCrate}.

(** The names called out by the [Connection] fields. *)
Definition connection_named (m : HeaderMap) : list (list Z) :=
  mjoin ((fun value =>
    if header_value_is_str value then
      omap (fun tok => let tok := trim tok in if bool_decide (tok = []) then None else header_name tok)
        (split 0x2c value)
    else []) <$> get_all m (bs "connection")).

Definition hop_by_hop : list (list Z) :=
  [bs "connection"; bs "transfer-encoding"; bs "upgrade"; bs "te"; bs "keep-alive";
   bs "proxy-connection"].

Definition strip_hop_by_hop_response (m : HeaderMap) : HeaderMap :=
  fold_left remove hop_by_hop (fold_left remove (connection_named m) m).

End strip.

(** A status code is its number. *)
Definition body_forbidden_status (status : Z) : bool :=
  between 100 199 status || (status =? 204) || (status =? 205) || (status =? 304).

Definition response_body_forbidden (is_head : bool) (status : Z) : bool :=
  is_head || body_forbidden_status status.

Definition sanitize_h2_h3_body_headers (m : HeaderMap) (is_head : bool) (status : Z)
    (streaming_unknown_len : bool) : HeaderMap :=
  if body_forbidden_status status || (negb is_head && streaming_unknown_len)
  then remove m (bs "content-length")
  else
    match get_all m (bs "content-length") with
    | [] => m
    | first :: values =>
        let repeated := negb (bool_decide (values = [])) in
        let agree := forallb (fun v => bytes_eqb (trim_ascii v) (trim_ascii first)) values in
        if repeated then
          let m := remove m (bs "content-length") in
          if agree then insert m (bs "content-length") first else m
        else m
    end.

Definition CONNECTION_SPECIFIC_REQUEST_HEADERS : list string :=
  ["connection"; "keep-alive"; "proxy-connection"; "transfer-encoding"; "upgrade"]%string.

Definition is_connection_specific_request_header (name : list Z) : bool :=
  existsb (fun s => bytes_eqb name (bs s)) CONNECTION_SPECIFIC_REQUEST_HEADERS.

Definition hex_val (b : Z) : option Z :=
  if between 0x30 0x39 b then Some (b - 0x30)
  else if between 0x61 0x66 b then Some (b - 0x61 + 10)
  else if between 0x41 0x46 b then Some (b - 0x41 + 10)
  else None.

Fixpoint percent_decode (bytes : list Z) : option (list Z) :=
  match bytes with
  | [] => Some []
  | b :: rest =>
      if b =? 0x25 then
        match rest with
        | h :: l :: rest' =>
            match hex_val h, hex_val l, percent_decode rest' with
            | Some hi, Some lo, Some out => Some (Z.lor (u8 (Z.shiftl hi 4)) lo :: out)
            | _, _, _ => None
            end
        | _ => None
        end
      else match percent_decode rest with Some out => Some (b :: out) | None => None end
  end.

Definition percent_decode_cow (input : list Z) : option (list Z) :=
  if negb (contains input 0x25) then Some input
  else
    match percent_decode input with
    | None => None
    | Some bytes =>
        if contains bytes 0 then None else if utf8_valid bytes then Some bytes else None
    end.

Definition coalesce_cookie_crumbs `{HttpCrate} (m : HeaderMap) : HeaderMap :=
  match get_all m (bs "cookie") with
  | first :: crumb :: crumbs =>
      let joined := fold_left (fun joined v => joined ++ bs "; " ++ v) (crumb :: crumbs) first in
      if header_value_ok joined then insert m (bs "cookie") joined else m
  | _ => m
  end.

(** [trim_start_matches("W/")]: every copy of the prefix. *)
Fixpoint strip_weak (s : list Z) : list Z :=
  match s with
  | a :: b :: s' => if (a =? 0x57) && (b =? 0x2f) then strip_weak s' else s
  | _ => s
  end.

Definition norm (s : list Z) : list Z := trim (strip_weak (trim s)).

(** The last four octets of an entity tag with the variant slot [;XX] and the quote. *)
Definition ls_suffix : list Z := [0x3b; 0x3b; 0x3b; 0x22].

Definition if_none_match_matches (if_none_match etag : list Z) : bool :=
  let inm := trim if_none_match in
  if bytes_eqb inm (bs "*") then true
  else
    let want := norm etag in
    let want_is_ls := ends_with want ls_suffix in
    let want_core := if want_is_ls then take (length want - 4) want else want in
    existsb (fun tok =>
      let t := norm tok in
      if bytes_eqb t want then true
      else if want_is_ls && (zlen t =? zlen want) then
        if (4 <=? zlen t) && bool_decide (last t = Some 0x22)
           && bool_decide (t !! (length t - 4)%nat = Some 0x3b)
        then bytes_eqb (take (length t - 4) t) want_core
        else false
      else false) (split 0x2c inm).

Definition matched_etag_variant (inm etag : list Z) : option (list Z) :=
  match strip_suffix ls_suffix etag with
  | None => None
  | Some core =>
      List.find (fun tok =>
        (zlen tok =? zlen etag) && negb (bytes_eqb tok etag) && bool_decide (last tok = Some 0x22)
        && bool_decide (tok !! (length tok - 4)%nat = Some 0x3b) && starts_with tok core)
        ((fun tok => trim (strip_weak (trim tok))) <$> split 0x2c inm)
  end.

(** ** Hop-by-hop fields *)

Lemma fold_remove_elem names m f : f ∈ fold_left remove names m ↔ f ∈ m ∧ f.1 ∉ names.
Proof.
  revert m. induction names as [|n names IH]; intros m; cbn [fold_left].
  - rewrite elem_of_nil. tauto.
  - rewrite IH, remove_elem, elem_of_cons. tauto.
Qed.

Lemma fold_remove_sublist names m : fold_left remove names m `sublist_of` m.
Proof.
  revert m. induction names as [|n names IH]; intros m; [done|]. cbn [fold_left].
  etrans; [apply IH|]. apply sublist_filter.
Qed.

(** ** Percent decoding *)

(** The octets an escaped string stands for. *)
Inductive escapes : list Z → list Z → Prop :=
| esc_nil : escapes [] []
| esc_plain b s out : b ≠ 0x25 → escapes s out → escapes (b :: s) (b :: out)
| esc_pct h l hi lo s out :
    hex_val h = Some hi → hex_val l = Some lo → escapes s out →
    escapes (0x25 :: h :: l :: s) (16 * hi + lo :: out).

Lemma hex_val_range b v : hex_val b = Some v → 0 <= v < 16.
Proof. unfold hex_val, between. repeat case_if; intros [= <-]; lia. Qed.

Lemma hex_octet hi lo : 0 <= hi < 16 → 0 <= lo < 16 → Z.lor (u8 (Z.shiftl hi 4)) lo = 16 * hi + lo.
Proof.
  intros Hh Hl. rewrite Z.shiftl_mul_pow2, u8_id by (unfold is_byte; lia).
  change (2 ^ 4) with 16. rewrite <-Z.add_nocarry_lor; [lia|].
  apply Z.bits_inj'. intros i Hi. rewrite Z.land_spec, Z.bits_0.
  change 16 with (2 ^ 4). rewrite <-Z.shiftl_mul_pow2 by lia.
  destruct (Z.ltb_spec i 4); [by rewrite Z.shiftl_spec_low|].
  by rewrite (testbit_above 4 lo), andb_false_r by lia.
Qed.

Lemma percent_decode_spec s out : percent_decode s = Some out ↔ escapes s out.
Proof.
  split.
  - remember (length s) as n eqn:Hn. revert s Hn out.
    induction (lt_wf n) as [n _ IH]. intros [|b rest] -> out; cbn [percent_decode].
    { intros [= <-]. constructor. }
    destruct (Z.eqb_spec b 0x25) as [->|Hb].
    + destruct rest as [|h [|l rest]]; try done.
      destruct (hex_val h) as [hi|] eqn:Hh; [|done]. destruct (hex_val l) as [lo|] eqn:Hl; [|done].
      destruct (percent_decode rest) as [o|] eqn:Ho; [|done]. intros [= <-].
      rewrite hex_octet by (by eapply hex_val_range).
      constructor; [done..|]. apply (IH (length rest)); [simpl; lia|done..].
    + destruct (percent_decode rest) as [o|] eqn:Ho; [|done]. intros [= <-].
      constructor; [done|]. apply (IH (length rest)); [simpl; lia|done..].
  - induction 1 as [|b s out Hb Hs IH|h l hi lo s out Hh Hl Hs IH]; [done|..]; cbn [percent_decode].
    + destruct (Z.eqb_spec b 0x25); [done|]. by rewrite IH.
    + rewrite Hh, Hl, IH. by rewrite hex_octet by (by eapply hex_val_range).
Qed.

(** Escaping every octet, with upper-case digits. *)
Definition hex_upper (v : Z) : Z := if v <? 10 then 0x30 + v else 0x41 + (v - 10).
Definition percent_encode (s : list Z) : list Z :=
  mjoin ((fun b => [0x25; hex_upper (b / 16); hex_upper (b mod 16)]) <$> s).

Lemma hex_val_upper v : 0 <= v < 16 → hex_val (hex_upper v) = Some v.
Proof.
  intros Hv. assert (Hall : Forall (fun n => hex_val (hex_upper n) = Some n) (seqZ 0 16))
    by repeat constructor.
  rewrite Forall_forall in Hall. apply Hall. rewrite elem_of_seqZ. lia.
Qed.

Lemma percent_encode_escapes s : octets s → escapes (percent_encode s) s.
Proof.
  induction 1 as [|b s Hb Hs IH]; [constructor|].
  change (percent_encode (b :: s))
    with (0x25 :: hex_upper (b / 16) :: hex_upper (b mod 16) :: percent_encode s).
  assert (Hd : b = 16 * (b / 16) + b mod 16) by (apply Z.div_mod; lia).
  rewrite Hd at 3. unfold is_byte in Hb. constructor; [| |done]; apply hex_val_upper.
  - split; [apply Z.div_pos; lia|apply Z.div_lt_upper_bound; lia].
  - by apply Z.mod_pos_bound.
Qed.

(** ** Properties *)

Definition http_ascii : HttpCrate := {|
  header_name s := if bool_decide (s = []) then None else Some (to_ascii_lowercase s);
  header_value_ok s := forallb (fun b => (b =? 9) || ((32 <=? b) && negb (b =? 127))) s;
  header_value_from_str_ok s := forallb (fun b => between 32 126 b || (b =? 9)) s;
  header_value_is_str s := forallb (fun b => between 32 126 b || (b =? 9)) s;
  method_ok s := negb (bool_decide (s = [])) && forallb is_ascii_alphabetic s;
  Uri := list Z;
  uri_try_from s := if starts_with s [0x2f] || bytes_eqb s [0x2a] then Some s else None;
  uri_has_scheme _ := false;
  uri_has_authority _ := false;
  uri_path_and_query_len s := length s;
  header_iter m := m;
|}.

(** Stripping removes exactly the hop-by-hop fields and the fields a Connection header
    names, and nothing else. *)
Theorem strip_hop_by_hop_exact `{HttpCrate} m f :
  f ∈ strip_hop_by_hop_response m ↔ f ∈ m ∧ (f.1 ∉ connection_named m) ∧ f.1 ∉ hop_by_hop.
Proof. unfold strip_hop_by_hop_response. rewrite !fold_remove_elem. tauto. Qed.

(** Percent decoding accepts exactly the strings whose escapes are well formed and
    replaces each escape by its octet, and inverts percent encoding. *)
Theorem percent_decode_exact s out :
  (percent_decode s = Some out ↔ escapes s out) ∧
  (octets s → percent_decode (percent_encode s) = Some s).
Proof.
  split; [apply percent_decode_spec|]. intros Hs.
  by apply percent_decode_spec, percent_encode_escapes.
Qed.

End http_util.
