(* ===== verification/Budget.v ===== *)
(** * The server-wide body budget: [crates/hj-core/src/budget.rs]

    One counter of reserved bytes is shared by every connection of the server. [try_acquire]
    and [release] as functions are what the connection models use; below them the same code
    is a step relation over any number of threads, in which the compare-and-swap loop of
    [reserve] is interleaved, and the counter is shown to stay the sum of the leases and
    within the budget. *)

From stdpp Require Import base list relations.
From Stdlib Require Import ZArith Lia.
From S2P Require Import Prelude.

Module budget.

Record BodyBufferBudget : Type := {
  max_bytes : Z;
  in_flight : Z;
  rejected : Z;
}.

Definition new (max_bytes : Z) : BodyBufferBudget :=
  {| max_bytes := max_bytes; in_flight := 0; rejected := 0 |}.

(** [reserve] when no other thread interferes. *)
Definition reserve (b : BodyBufferBudget) (n : Z) : bool * BodyBufferBudget :=
  if max_bytes b =? 0 then (true, b)
  else if max_bytes b <? saturating_add (in_flight b) n then (false, b)
  else
    (true,
     {| max_bytes := max_bytes b; in_flight := in_flight b + n; rejected := rejected b |}).

Definition try_acquire (b : BodyBufferBudget) (n : Z) : bool * BodyBufferBudget :=
  match reserve b n with
  | (true, b) => (true, b)
  | (false, b) =>
      (false,
       {| max_bytes := max_bytes b; in_flight := in_flight b; rejected := rejected b + 1 |})
  end.

Definition release (b : BodyBufferBudget) (n : Z) : BodyBufferBudget :=
  if (max_bytes b =? 0) || (n =? 0) then b
  else
    {| max_bytes := max_bytes b; in_flight := u64 (in_flight b - n); rejected := rejected b |}.

(** A [BodyBufferLease] is the number of bytes it holds. *)
Definition lease_reserve (b : BodyBufferBudget) (held n : Z) : bool * BodyBufferBudget * Z :=
  match try_acquire b n with
  | (false, b) => (false, b, held)
  | (true, b) => (true, b, held + n)
  end.

Definition lease_release (b : BodyBufferBudget) (held n : Z) : BodyBufferBudget * Z :=
  let n := Z.min n held in
  if n =? 0 then (b, held) else (release b n, held - n).

(** [drop] *)
Definition lease_drop (b : BodyBufferBudget) (held : Z) : BodyBufferBudget := release b held.

(** ** Threads *)

(** Where a thread is in [try_acquire]. *)
Inductive pc : Type :=
| Idle
| Loading (n : Z)            (* about to load [in_flight] *)
| Swapping (n cur : Z).      (* loaded [cur]; about to test it and swap *)

Record Thread : Type := { held : Z; at_pc : pc }.

Record World : Type := { shared : BodyBufferBudget; threads : list Thread }.

Definition with_in_flight (b : BodyBufferBudget) (x : Z) : BodyBufferBudget :=
  {| max_bytes := max_bytes b; in_flight := x; rejected := rejected b |}.

Definition with_thread (w : World) (i : nat) (t : Thread) : World :=
  {| shared := shared w; threads := <[i := t]> (threads w) |}.

(** One atomic action of thread [i]. The budget is not 0, which disables accounting. *)
Inductive step (w : World) : World → Prop :=
| step_start i t n :
    threads w !! i = Some t → at_pc t = Idle → 0 <= n <= U64_MAX →
    step w (with_thread w i {| held := held t; at_pc := Loading n |})
| step_load i t n :
    threads w !! i = Some t → at_pc t = Loading n →
    step w (with_thread w i {| held := held t; at_pc := Swapping n (in_flight (shared w)) |})
| step_refuse i t n cur :
    threads w !! i = Some t → at_pc t = Swapping n cur →
    max_bytes (shared w) < saturating_add cur n →
    step w (with_thread
      {| shared := {| max_bytes := max_bytes (shared w); in_flight := in_flight (shared w);
                      rejected := rejected (shared w) + 1 |};
         threads := threads w |} i {| held := held t; at_pc := Idle |})
| step_swap i t n cur :
    threads w !! i = Some t → at_pc t = Swapping n cur →
    saturating_add cur n <= max_bytes (shared w) → in_flight (shared w) = cur →
    step w (with_thread
      {| shared := with_in_flight (shared w) (cur + n); threads := threads w |}
      i {| held := held t + n; at_pc := Idle |})
| step_retry i t n cur :       (* another thread came between, or the weak swap failed *)
    threads w !! i = Some t → at_pc t = Swapping n cur →
    saturating_add cur n <= max_bytes (shared w) →
    step w (with_thread w i {| held := held t; at_pc := Swapping n (in_flight (shared w)) |})
| step_release i t n :         (* [lease_release], or [drop] with the whole lease *)
    threads w !! i = Some t → at_pc t = Idle → 0 <= n <= held t →
    step w (with_thread
      {| shared := release (shared w) n; threads := threads w |}
      i {| held := held t - n; at_pc := Idle |}).

Definition total_held (ts : list Thread) : Z := fold_right (fun t n => held t + n) 0 ts.

(** The number of bytes a thread is about to reserve. *)
Definition pc_ok (p : pc) : Prop :=
  match p with Idle => True | Loading n | Swapping n _ => 0 <= n <= U64_MAX end.

Record world_inv (w : World) : Prop := {
  inv_max : 0 < max_bytes (shared w) < U64_MAX;
  inv_sum : in_flight (shared w) = total_held (threads w);
  inv_bound : in_flight (shared w) <= max_bytes (shared w);
  inv_held : Forall (fun t => 0 <= held t ∧ pc_ok (at_pc t)) (threads w);
}.

Lemma total_held_insert ts i t t' :
  ts !! i = Some t → total_held (<[i := t']> ts) = total_held ts - held t + held t'.
Proof.
  revert i. induction ts as [|x ts IH]; intros [|i] H; simpl in *; try done.
  - injection H as ->. lia.
  - rewrite (IH i H). lia.
Qed.

Lemma total_held_ge ts i t :
  Forall (fun t => 0 <= held t ∧ pc_ok (at_pc t)) ts → ts !! i = Some t →
  held t <= total_held ts.
Proof.
  intros Hf. revert i. induction Hf as [|x ts [Hx _] Hf IH]; intros [|i] H; simpl in *; try done.
  - injection H as ->. enough (0 <= total_held ts) by lia. clear -Hf.
    induction Hf as [|y ts [Hy _] _ IH]; simpl; lia.
  - specialize (IH i H). lia.
Qed.

Lemma step_inv w w' : world_inv w → step w w' → world_inv w'.
Proof.
  intros [Hmax Hsum Hb Hh] Hs.
  assert (Hi : ∀ i t t', threads w !! i = Some t → 0 <= held t' ∧ pc_ok (at_pc t') →
    Forall (fun t => 0 <= held t ∧ pc_ok (at_pc t)) (<[i := t']> (threads w))).
  { intros. by apply Forall_insert. }
  assert (Ht : ∀ i t, threads w !! i = Some t → 0 <= held t ∧ pc_ok (at_pc t)).
  { intros i t Hl. by eapply Forall_lookup_1 in Hh. }
  assert (U : U64_MAX = 2 ^ 64 - 1) by done.
  destruct Hs as [i t n Hl Hp Hn|i t n Hl Hp|i t n cur Hl Hp Hr|i t n cur Hl Hp Hok Hc
                 |i t n cur Hl Hp Hok|i t n Hl Hp Hn]; destruct (Ht i t Hl) as [Hht Hpt];
    rewrite Hp in Hpt; simpl in Hpt.
  all: split; simpl; rewrite ?(total_held_insert _ _ _ _ Hl); simpl; try done; try lia;
    try (by apply (Hi i t); [|split; simpl; lia]).
  - unfold saturating_add in Hok. lia.
  - unfold release. case_if; [done|done].
  - unfold release. pose proof (total_held_ge _ _ _ Hh Hl). case_if; simpl; [|].
    + destruct (Z.eqb_spec (max_bytes (shared w)) 0), (Z.eqb_spec n 0); simpl in *; try done; lia.
    + rewrite (wrap_id 64) by lia. lia.
  - unfold release. pose proof (total_held_ge _ _ _ Hh Hl). case_if; simpl; [done|].
    rewrite (wrap_id 64) by lia. lia.
Qed.

(** A swap is one atomic [reserve]. *)
Lemma step_swap_reserve b n :
  0 < max_bytes b → saturating_add (in_flight b) n <= max_bytes b →
  reserve b n = (true, with_in_flight b (in_flight b + n)).
Proof. intros Hm Hs. unfold reserve. repeat case_if; try lia. done. Qed.

(** A server that has just started: [k] threads with nothing reserved. *)
Definition fresh (max : Z) (k : nat) : World :=
  {| shared := new max; threads := replicate k {| held := 0; at_pc := Idle |} |}.

Lemma fresh_inv max k : 0 < max < U64_MAX → world_inv (fresh max k).
Proof.
  intros Hm. split; simpl; [done| |lia|].
  - induction k; simpl; lia.
  - apply Forall_replicate. by split.
Qed.

(** ** Properties *)

(** C39. With any number of threads reserving, retrying, being refused and releasing in any
    interleaving of the atomic steps, the budget's counter is the sum of the leases and
    never above the capacity. *)
Theorem budget_bounded max k w :
  0 < max < U64_MAX → rtc step (fresh max k) w →
  in_flight (shared w) = total_held (threads w) ∧ total_held (threads w) <= max.
Proof.
  intros Hm Hr.
  assert (H : world_inv w ∧ max_bytes (shared w) = max).
  { revert w Hr. apply (rtc_ind_r (fun w => world_inv w ∧ max_bytes (shared w) = max));
      [split; [by apply fresh_inv|done]|].
    intros y z _ Hs [Hi Hmax]. split; [by eapply step_inv|].
    destruct Hs; try done. simpl. unfold release. by case_if. }
  destruct H as [[_ Hsum Hb _] Hmax]. rewrite <-Hmax, <-Hsum. done.
Qed.

(** Two threads load the counter before either swaps: only one of them gets the bytes. *)
Lemma budget_bounded_witness :
  ∃ w, rtc step (fresh 10 2) w ∧
    threads w = [{| held := 6; at_pc := Idle |}; {| held := 0; at_pc := Swapping 6 6 |}] ∧
    in_flight (shared w) = total_held (threads w) ∧ total_held (threads w) <= 10.
Proof.
  eexists. assert (Hr : rtc step (fresh 10 2)
    {| shared := {| max_bytes := 10; in_flight := 6; rejected := 0 |};
       threads := [{| held := 6; at_pc := Idle |}; {| held := 0; at_pc := Swapping 6 6 |}] |}).
  { eapply rtc_l; [apply (step_start _ 0%nat {| held := 0; at_pc := Idle |} 6); done|].
    eapply rtc_l; [apply (step_start _ 1%nat {| held := 0; at_pc := Idle |} 6); done|].
    eapply rtc_l; [apply (step_load _ 0%nat {| held := 0; at_pc := Loading 6 |} 6); done|].
    eapply rtc_l; [apply (step_load _ 1%nat {| held := 0; at_pc := Loading 6 |} 6); done|].
    eapply rtc_l; [apply (step_swap _ 0%nat {| held := 0; at_pc := Swapping 6 0 |} 6 0); done|].
    eapply rtc_l; [apply (step_retry _ 1%nat {| held := 0; at_pc := Swapping 6 0 |} 6 0); done|].
    apply rtc_refl. }
  split; [exact Hr|]. split; [reflexivity|].
  apply (budget_bounded 10 2 _); [by unfold U64_MAX|exact Hr].
Defined.

End budget.
