(* ===== verification/BodyDeadline.v ===== *)
(** * Deadlines of request bodies: [crates/hj-core/src/body_deadline.rs]

    The deadline moves with progress: only when [BODY_MIN_PROGRESS] octets arrived since it
    last moved, and never past the ceiling. Instants and durations are nanoseconds. *)

From stdpp Require Import base list.
From Stdlib Require Import ZArith Lia.
From S2P Require Import Prelude.

Module body_deadline.

Definition BODY_MIN_PROGRESS : Z := 16 * 1024.

(** Fifteen minutes. *)
Definition BODY_DEADLINE_CEILING : Z := 15 * 60 * 1000000000.

Record BodyProgress : Type := {
  ceiling : Z;
  mark : Z;
}.

Definition new (start ceiling received : Z) : BodyProgress :=
  {| ceiling := start + ceiling; mark := received |}.

Definition due (p : BodyProgress) (received : Z) : bool :=
  BODY_MIN_PROGRESS <=? saturating_sub received (mark p).

(** The progress, the deadline, and whether it moved. *)
Definition extend (p : BodyProgress) (deadline received timeout now : Z)
    : BodyProgress * Z * bool :=
  if negb (due p received) then (p, deadline, false)
  else
    let p' := {| ceiling := ceiling p; mark := received |} in
    let extended := Z.min (now + timeout) (ceiling p) in
    if extended <=? deadline then (p', deadline, false) else (p', extended, true).

(** The checks of one body: what had arrived, and when. *)
Fixpoint extend_all (p : BodyProgress) (deadline timeout : Z) (checks : list (Z * Z))
    : BodyProgress * Z :=
  match checks with
  | [] => (p, deadline)
  | (received, now) :: checks' =>
      let '(p, deadline, _) := extend p deadline received timeout now in
      extend_all p deadline timeout checks'
  end.

(** How often a deadline is moved. *)
Fixpoint moves (p : BodyProgress) (deadline timeout : Z) (checks : list (Z * Z)) : Z :=
  match checks with
  | [] => 0
  | (received, now) :: checks' =>
      let '(p, deadline, moved) := extend p deadline received timeout now in
      (if moved then 1 else 0) + moves p deadline timeout checks'
  end.

Lemma extend_spec p deadline received timeout now :
  let '(p', deadline', moved) := extend p deadline received timeout now in
  ceiling p' = ceiling p ∧ deadline <= deadline' <= Z.max deadline (ceiling p) ∧
  (mark p' = mark p ∨ mark p' = received ∧ mark p + BODY_MIN_PROGRESS <= received) ∧
  (if moved then mark p' = received ∧ mark p + BODY_MIN_PROGRESS <= received ∧
                 deadline' = Z.min (now + timeout) (ceiling p)
   else deadline' = deadline).
Proof.
  unfold extend, due, saturating_sub, BODY_MIN_PROGRESS. repeat case_if; cbn; split_and!; lia.
Qed.

Lemma extend_all_spec p deadline timeout checks :
  let '(p', deadline') := extend_all p deadline timeout checks in
  ceiling p' = ceiling p ∧ deadline <= deadline' <= Z.max deadline (ceiling p) ∧
  BODY_MIN_PROGRESS * moves p deadline timeout checks <= mark p' - mark p.
Proof.
  revert p deadline.
  induction checks as [|[received now] checks IH]; intros p deadline; cbn [extend_all moves].
  { split_and!; [done|lia..]. }
  pose proof (extend_spec p deadline received timeout now) as E.
  destruct (extend _ _ _ _ _) as [[p1 d1] moved]. destruct E as (Ec & Ed & Em & Emv).
  specialize (IH p1 d1). destruct (extend_all p1 d1 timeout checks) as [p2 d2].
  destruct IH as (-> & Hd & Hm). unfold BODY_MIN_PROGRESS in *. split_and!; [done|lia..|].
  destruct moved; lia.
Qed.

(** A body deadline never moves before its first value nor past the ceiling, and each
    time it moves at least 16 KiB arrived since it last moved. *)
Theorem body_deadline_progress start ceiling timeout received checks :
  0 <= timeout → 0 <= ceiling →
  let p := new start ceiling received in
  let '(p', deadline) := extend_all p (start + timeout) timeout checks in
  start + timeout <= deadline <= start + Z.max timeout ceiling ∧
  BODY_MIN_PROGRESS * moves p (start + timeout) timeout checks <= mark p' - received ∧
  (mark p' = received ∨ mark p' ∈ checks.*1).
Proof.
  intros Ht Hc p. pose proof (extend_all_spec p (start + timeout) timeout checks) as E.
  assert (Hm : ∀ p d, let '(p', _) := extend_all p d timeout checks in
    mark p' = mark p ∨ mark p' ∈ checks.*1).
  { clear. induction checks as [|[r now] checks IH]; intros p d; cbn [extend_all]; [by left|].
    pose proof (extend_spec p d r timeout now) as E.
    destruct (extend p d r timeout now) as [[p1 d1] moved]. destruct E as (_ & _ & Em & _).
    specialize (IH p1 d1). destruct (extend_all p1 d1 timeout checks) as [p2 d2].
    rewrite fmap_cons, elem_of_cons. cbn [fst]. destruct IH as [-> |]; [|by auto].
    destruct Em as [-> |[-> _]]; auto. }
  specialize (Hm p (start + timeout)). destruct (extend_all p _ timeout checks) as [p' d].
  destruct E as (_ & Hd & Hmv). cbn in *. split_and!; [lia..|done].
Qed.

Lemma body_deadline_progress_witness :
  let p := new 0 900 0 in
  let '(p', deadline) := extend_all p 60 60 [(20000, 50); (20001, 55); (40000, 100)] in
  60 <= deadline <= 900 ∧
  BODY_MIN_PROGRESS * moves p 60 60 [(20000, 50); (20001, 55); (40000, 100)] <= mark p' - 0 ∧
  (mark p' = 0 ∨ mark p' ∈ [20000; 20001; 40000]).
Proof.
  apply (body_deadline_progress 0 900 60 0 [(20000, 50); (20001, 55); (40000, 100)]); done.
Defined.

End body_deadline.
