(* ===== verification/H2State.v ===== *)
(** * Connection state: [crates/hj-h2/src/server/state.rs]

    The records of a server connection and the operations of [impl Recv]. Instants and
    durations are nanoseconds. The shared body budget, an [Arc] in the code, is threaded
    through the operations that use it; dropping a stream drops its lease. *)

From stdpp Require Import base list gmap strings.
From Stdlib Require Import ZArith Lia.
From S2P Require Import Prelude RustStr HttpUtil Budget H2Frame.

Import headers.
#[local] Open Scope record_scope.

Module state.

Record PeerSettings : Type := {
  max_frame_size : Z;
  initial_window : Z;
  first_settings_recorded : bool;
}.

Definition PeerSettings_default : PeerSettings :=
  {| max_frame_size := 16384; initial_window := 65535; first_settings_recorded := false |}.

#[export] Instance PeerSettings_eta : Eta PeerSettings := fun r =>
  {| max_frame_size := max_frame_size r; initial_window := initial_window r;
     first_settings_recorded := first_settings_recorded r |}.
#[export] Instance set_max_frame_size : Setter max_frame_size := ltac:(derive_setter).
#[export] Instance set_initial_window : Setter initial_window := ltac:(derive_setter).
#[export] Instance set_first_settings_recorded : Setter first_settings_recorded := ltac:(derive_setter).

(** A bounded set of the most recently recorded stream ids. *)
Record RecentIds : Type := {
  ids : gset Z;
  order : list Z;
}.

Definition RecentIds_default : RecentIds := {| ids := ∅; order := [] |}.

Definition contains (r : RecentIds) (sid : Z) : bool := bool_decide (sid ∈ ids r).

(** [while order.len() >= cap]: a round shortens [order] or ends the loop. *)
Fixpoint evict (cap : Z) (ids : gset Z) (order : list Z) : gset Z * list Z :=
  if cap <=? zlen order then
    match order with
    | [] => (ids, [])
    | oldest :: order' => evict cap (ids ∖ {[oldest]}) order'
    end
  else (ids, order).

Definition insert_id (r : RecentIds) (sid cap : Z) : RecentIds :=
  if (cap =? 0) || contains r sid then r
  else
    let '(ids, order) := evict cap (ids r) (order r) in
    {| ids := {[sid]} ∪ ids; order := order ++ [sid] |}.

(** The shared budget, when there is one. *)
Abbreviation Budget := (option budget.BodyBufferBudget).

Section state.
Context `{HttpCrate}.

(** What [Config::early_reject] is given of a request. *)
Record RequestHead : Type := {
  head_method : list Z;
  head_uri : Uri;
  head_authority : option (list Z);
  head_headers : HeaderMap;
}.

Record StreamState : Type := {
  header_block : list Z;
  method : option (list Z);
  path : option Uri;
  authority : option (list Z);
  headers : HeaderMap;
  headers_done : bool;
  end_stream : bool;
  refused : bool;
  header_charge : Z;
  body : list Z;
  body_lease : option Z;
  content_length : option Z;
  body_deadline : option Z;
  recv_window : Z;
}.

Definition StreamState_default : StreamState :=
  {| header_block := []; method := None; path := None; authority := None; headers := [];
     headers_done := false; end_stream := false; refused := false; header_charge := 0;
     body := []; body_lease := None; content_length := None; body_deadline := None;
     recv_window := 0 |}.

Record Recv : Type := {
  seen_settings : bool;
  last_client_stream : Z;
  goaway_last : option Z;
  open_header_block : option Z;
  discarding_header_block : bool;
  discard_header_block : list Z;
  discard_rst_code : Z;
  reset_ids : RecentIds;
  sent_reset_ids : RecentIds;
  max_concurrent : Z;
  conn_recv_window : Z;
  our_initial_window : Z;
  header_count_hint : Z;
  reset_debt_until : option Z;
  total_buffered : Z;
  max_request_body : Z;
  per_conn_request_body : Z;
  pending_header_bytes : Z;
  pending_header_mem : Z;
  no_progress_frames : Z;
  early_reject : option (RequestHead → option (Z * HeaderMap));
}.

#[export] Instance StreamState_eta : Eta StreamState := fun r =>
  {| header_block := header_block r; method := method r; path := path r; authority :=
     authority r; headers := headers r; headers_done := headers_done r; end_stream :=
     end_stream r; refused := refused r; header_charge := header_charge r; body := body r;
     body_lease := body_lease r; content_length := content_length r; body_deadline :=
     body_deadline r; recv_window := recv_window r |}.
#[export] Instance set_header_block : Setter header_block := ltac:(derive_setter).
#[export] Instance set_method : Setter method := ltac:(derive_setter).
#[export] Instance set_path : Setter path := ltac:(derive_setter).
#[export] Instance set_authority : Setter authority := ltac:(derive_setter).
#[export] Instance set_headers : Setter headers := ltac:(derive_setter).
#[export] Instance set_headers_done : Setter headers_done := ltac:(derive_setter).
#[export] Instance set_end_stream : Setter end_stream := ltac:(derive_setter).
#[export] Instance set_refused : Setter refused := ltac:(derive_setter).
#[export] Instance set_header_charge : Setter header_charge := ltac:(derive_setter).
#[export] Instance set_body : Setter body := ltac:(derive_setter).
#[export] Instance set_body_lease : Setter body_lease := ltac:(derive_setter).
#[export] Instance set_content_length : Setter content_length := ltac:(derive_setter).
#[export] Instance set_body_deadline : Setter body_deadline := ltac:(derive_setter).
#[export] Instance set_recv_window : Setter recv_window := ltac:(derive_setter).

#[export] Instance Recv_eta : Eta Recv := fun r =>
  {| seen_settings := seen_settings r; last_client_stream := last_client_stream r;
     goaway_last := goaway_last r; open_header_block := open_header_block r;
     discarding_header_block := discarding_header_block r; discard_header_block :=
     discard_header_block r; discard_rst_code := discard_rst_code r; reset_ids := reset_ids
     r; sent_reset_ids := sent_reset_ids r; max_concurrent := max_concurrent r;
     conn_recv_window := conn_recv_window r; our_initial_window := our_initial_window r;
     header_count_hint := header_count_hint r; reset_debt_until := reset_debt_until r;
     total_buffered := total_buffered r; max_request_body := max_request_body r;
     per_conn_request_body := per_conn_request_body r; pending_header_bytes :=
     pending_header_bytes r; pending_header_mem := pending_header_mem r; no_progress_frames
     := no_progress_frames r; early_reject := early_reject r |}.
#[export] Instance set_seen_settings : Setter seen_settings := ltac:(derive_setter).
#[export] Instance set_last_client_stream : Setter last_client_stream := ltac:(derive_setter).
#[export] Instance set_goaway_last : Setter goaway_last := ltac:(derive_setter).
#[export] Instance set_open_header_block : Setter open_header_block := ltac:(derive_setter).
#[export] Instance set_discarding_header_block : Setter discarding_header_block := ltac:(derive_setter).
#[export] Instance set_discard_header_block : Setter discard_header_block := ltac:(derive_setter).
#[export] Instance set_discard_rst_code : Setter discard_rst_code := ltac:(derive_setter).
#[export] Instance set_reset_ids : Setter reset_ids := ltac:(derive_setter).
#[export] Instance set_sent_reset_ids : Setter sent_reset_ids := ltac:(derive_setter).
#[export] Instance set_conn_recv_window : Setter conn_recv_window := ltac:(derive_setter).
#[export] Instance set_header_count_hint : Setter header_count_hint := ltac:(derive_setter).
#[export] Instance set_reset_debt_until : Setter reset_debt_until := ltac:(derive_setter).
#[export] Instance set_total_buffered : Setter total_buffered := ltac:(derive_setter).
#[export] Instance set_pending_header_bytes : Setter pending_header_bytes := ltac:(derive_setter).
#[export] Instance set_no_progress_frames : Setter no_progress_frames := ltac:(derive_setter).

Abbreviation Streams := (gmap Z StreamState).

Definition goaway_last_stream_id (r : Recv) : Recv * Z :=
  let id :=
    match goaway_last r with
    | Some prev => Z.min prev (last_client_stream r)
    | None => last_client_stream r
    end in
  (r <| goaway_last := Some id |>, id).

Definition note_reset (r : Recv) (sid : Z) : Recv :=
  r <| reset_ids := insert_id (reset_ids r) sid (2 * max_concurrent r) |>.

Definition release_stream (r : Recv) (st : StreamState) : Recv :=
  r <| total_buffered := saturating_sub (total_buffered r) (zlen (body st)) |>
    <| pending_header_bytes := saturating_sub (pending_header_bytes r) (header_charge st) |>.

(** Dropping a [StreamState] drops its lease. *)
Definition drop_lease (b : Budget) (lease : option Z) : Budget :=
  match b, lease with
  | Some b, Some held => Some (budget.lease_drop b held)
  | b, _ => b
  end.

Definition drop_receiving (r : Recv) (streams : Streams) (b : Budget) (sid : Z)
    : Recv * Streams * Budget :=
  match streams !! sid with
  | Some s => (release_stream r s, delete sid streams, drop_lease b (body_lease s))
  | None => (r, streams, b)
  end.

(** [lease.get_or_insert_with(..)] and [reserve] on it. *)
Definition reserve_on (b : Budget) (st : StreamState) (n : Z) : bool * Budget * StreamState :=
  match b with
  | Some bd =>
      let held := match body_lease st with Some h => h | None => 0 end in
      let '(ok, bd, held) := budget.lease_reserve bd held n in
      (ok, Some bd, st <| body_lease := Some held |>)
  | None => (true, None, st)
  end.

Definition admit_pending_headers (r : Recv) (b : Budget) (st : StreamState) (charge : Z)
    : bool * Recv * Budget * StreamState :=
  let total := saturating_add (pending_header_bytes r) charge in
  if negb (pending_header_bytes r =? 0) && (pending_header_mem r <? total)
  then (false, r, b, st)
  else
    let '(ok, b, st) := reserve_on b st charge in
    if ok
    then (true, r <| pending_header_bytes := total |>, b, st <| header_charge := charge |>)
    else (false, r, b, st).

Definition teardown_receiving (r : Recv) (streams : Streams) (b : Budget) (sid : Z)
    : Recv * Streams * Budget :=
  let '(r, streams, b) := drop_receiving r streams b sid in
  let r := note_reset r sid in
  (r <| sent_reset_ids := insert_id (sent_reset_ids r) sid (2 * max_concurrent r) |>,
   streams, b).

(** The second component says whether to emit RST_STREAM now. *)
Definition expire_receiving (r : Recv) (streams : Streams) (b : Budget) (sid : Z)
    : Recv * Streams * Budget * bool :=
  let open_block :=
    bool_decide (open_header_block r = Some sid) && negb (discarding_header_block r) in
  let r :=
    match streams !! sid with
    | Some st =>
        if open_block then
          r <| discard_header_block := header_block st |> <| discarding_header_block := true |>
            <| discard_rst_code := frame.error_code.CANCEL |>
        else r
    | None => r
    end in
  let '(r, streams, b) := teardown_receiving r streams b sid in
  (r, streams, b, negb open_block).

End state.

Abbreviation Streams := (gmap Z StreamState).

(** ** Recent ids *)

(** Distinct ids, recorded one after the other. *)
Definition insert_ids (cap : Z) (sids : list Z) : RecentIds :=
  fold_left (fun r sid => insert_id r sid cap) sids RecentIds_default.

(** What is kept of the ids: the newest. *)
Definition newest (cap : Z) (sids : list Z) : list Z := drop (length sids - Z.to_nat cap) sids.

Lemma evict_room cap s l : zlen l < cap → evict cap s l = (s, l).
Proof. intros Hl%Z.leb_gt. by destruct l; cbn [evict]; rewrite Hl. Qed.

Lemma evict_full cap s x l : zlen (x :: l) = cap → evict cap s (x :: l) = (s ∖ {[x]}, l).
Proof.
  intros Hl. cbn [evict]. destruct (Z.leb_spec cap (zlen (x :: l))); [|lia].
  apply evict_room. unfold zlen in *. cbn in Hl. lia.
Qed.

Lemma NoDup_suffix k (l : list Z) : NoDup l → NoDup (drop k l).
Proof. rewrite <- (take_drop k l) at 1. by intros (_ & _ & ?)%NoDup_app. Qed.

Lemma insert_ids_newest cap sids :
  1 <= cap → NoDup sids →
  order (insert_ids cap sids) = newest cap sids ∧
  ids (insert_ids cap sids) = list_to_set (newest cap sids).
Proof.
  intros Hcap. induction sids as [|sid sids IH] using rev_ind; [done|].
  intros (Hn & Hd & _)%NoDup_app. destruct (IH Hn) as [Ho Hi].
  unfold insert_ids in *. rewrite fold_left_app. cbn [fold_left].
  set (r := fold_left _ sids _) in *. clearbody r. unfold newest in *. rewrite length_app. cbn [length].
  set (k := (length sids - Z.to_nat cap)%nat) in *.
  assert (Hnew : sid ∉ drop k sids).
  { intros Hs%subseteq_drop. eapply Hd; [exact Hs|left]. }
  assert (Hl : length (drop k sids) = (length sids - k)%nat) by apply length_drop.
  pose proof (NoDup_suffix k sids Hn) as Hnd.
  unfold insert_id, contains. rewrite Hi, bool_decide_eq_false_2 by by rewrite elem_of_list_to_set.
  destruct (Z.eqb_spec cap 0); [lia|]. cbn [orb]. rewrite Ho.
  destruct (decide (length (drop k sids) = Z.to_nat cap)) as [Hfull|Hroom].
  - destruct (drop k sids) as [|x l] eqn:E; [cbn in Hfull; lia|].
    rewrite evict_full by (unfold zlen; lia). cbn [order ids].
    assert (El : drop (S k) sids = l) by (rewrite <- Nat.add_1_r, <- drop_drop, E; done).
    replace (length sids + 1 - Z.to_nat cap)%nat with (S k) by lia.
    rewrite drop_app_le, El by (cbn in Hl; lia). apply NoDup_cons in Hnd as [Hx _].
    split; [done|]. cbn. set_solver + Hx.
  - rewrite evict_room by (unfold zlen; lia). cbn [order ids].
    replace (length sids + 1 - Z.to_nat cap)%nat with k by lia.
    rewrite drop_app_le by lia. split; [done|]. set_solver +.
Qed.

(** The table of recent resets contains exactly the newest ids recorded, up to its
    capacity. *)
Theorem recent_ids_exact cap sids sid :
  1 <= cap → NoDup sids →
  contains (insert_ids cap sids) sid = true ↔ sid ∈ newest cap sids.
Proof.
  intros Hc Hn. destruct (insert_ids_newest cap sids Hc Hn) as [_ Hi].
  unfold contains. by rewrite bool_decide_eq_true, Hi, elem_of_list_to_set.
Qed.

Lemma recent_ids_exact_witness :
  contains (insert_ids 2 [1; 3; 5]) 3 = true ↔ 3 ∈ newest 2 [1; 3; 5].
Proof. apply recent_ids_exact; [lia|]. by repeat (apply NoDup_cons; split; [set_solver|]); apply NoDup_nil_2. Defined.

End state.
