(* ===== verification/H2Request.v ===== *)
(** * From a header block to a request: [crates/hj-h2/src/server/recv.rs], lines 46 to 66
    and 871 to 1431

    Decoding a block into a stream with the checks of RFC 9113 section 8, and building the
    request. The closure given to the HPACK decoder is [on_field], folded over the fields
    the decoder hands it. *)

From stdpp Require Import base list gmap strings.
From Stdlib Require Import ZArith Lia.
From S2P Require Import Prelude RustStr Net HttpUtil Budget H2Frame HpackString HpackTable.
From S2P Require Import HpackEncoder HpackDecoder H2State.

Import headers http_util net state.
#[local] Open Scope record_scope.

Module request.

(** What [decode_block_from] answers. *)
Inductive Decoded : Type :=
| DecodedOk
| Compression
| TooLarge
| Malformed.

Definition DECODED_FIELD_OVERHEAD : Z := 192.
Definition HEADER_COUNT_HINT_MAX : Z := 64.

Section request.
Context `{HttpCrate}.

(** The locals the closure captures; the stream is among them. *)
Record Decoding : Type := {
  st : StreamState;
  seen_regular : bool;
  malformed : bool;
  host_value : option (list Z);
  scheme_is_http : bool;
  path_is_asterisk : bool;
  seen_method : bool;
  seen_scheme : bool;
  seen_path : bool;
  seen_authority : bool;
}.

#[export] Instance Decoding_eta : Eta Decoding := fun r =>
  {| st := st r; seen_regular := seen_regular r; malformed := malformed r;
     host_value := host_value r; scheme_is_http := scheme_is_http r;
     path_is_asterisk := path_is_asterisk r; seen_method := seen_method r;
     seen_scheme := seen_scheme r; seen_path := seen_path r; seen_authority := seen_authority r |}.
#[export] Instance set_st : Setter st := ltac:(derive_setter).
#[export] Instance set_seen_regular : Setter seen_regular := ltac:(derive_setter).
#[export] Instance set_malformed : Setter malformed := ltac:(derive_setter).
#[export] Instance set_host_value : Setter host_value := ltac:(derive_setter).
#[export] Instance set_scheme_is_http : Setter scheme_is_http := ltac:(derive_setter).
#[export] Instance set_path_is_asterisk : Setter path_is_asterisk := ltac:(derive_setter).
#[export] Instance set_seen_method : Setter seen_method := ltac:(derive_setter).
#[export] Instance set_seen_scheme : Setter seen_scheme := ltac:(derive_setter).
#[export] Instance set_seen_path : Setter seen_path := ltac:(derive_setter).
#[export] Instance set_seen_authority : Setter seen_authority := ltac:(derive_setter).

Definition start (st : StreamState) : Decoding :=
  {| st := st; seen_regular := false; malformed := false; host_value := None;
     scheme_is_http := false; path_is_asterisk := false; seen_method := false;
     seen_scheme := false; seen_path := false; seen_authority := false |}.

Definition bad (a : Decoding) : Decoding := a <| malformed := true |>.

(** A field whose name starts with a colon. *)
Definition on_pseudo (is_trailers : bool) (a : Decoding) (name value : list Z) : Decoding :=
  if is_trailers || seen_regular a then bad a
  else if negb (utf8_valid name && utf8_valid value) then bad a
  else if bytes_eqb name (bs ":method") then
    if seen_method a then bad a
    else
      let a := a <| seen_method := true |> in
      if method_ok value then a <| st := (st a) <| method := Some value |> |> else bad a
  else if bytes_eqb name (bs ":scheme") then
    if seen_scheme a then bad a
    else
      let a := a <| seen_scheme := true |> in
      if negb (valid_uri_scheme value) then bad a
      else
        a <| scheme_is_http :=
               eq_ignore_ascii_case value (bs "http") || eq_ignore_ascii_case value (bs "https") |>
  else if bytes_eqb name (bs ":path") then
    if seen_path a then bad a
    else
      let a := a <| seen_path := true |> in
      if RustStr.contains value 0x23
         || (negb (bytes_eqb value (bs "*")) && negb (starts_with value (bs "/")))
      then bad a
      else
        match uri_try_from value with
        | Some u =>
            if negb (uri_has_scheme u) && negb (uri_has_authority u)
            then a <| path_is_asterisk := bytes_eqb value (bs "*") |>
                   <| st := (st a) <| path := Some u |> |>
            else bad a
        | None => bad a
        end
  else if bytes_eqb name (bs ":authority") then
    if seen_authority a then bad a
    else
      let a := a <| seen_authority := true |> in
      if valid_uri_authority value && header_value_from_str_ok value
      then a <| st := (st a) <| authority := Some value |> |>
      else bad a
  else bad a.

Definition is_edge_ws (b : option Z) : bool :=
  match b with Some b => (b =? 0x20) || (b =? 0x09) | None => false end.

(** [content-length], on a field that passed the syntax checks. *)
Definition on_content_length (a : Decoding) (value : list Z) : option Decoding :=
  if bool_decide (value = []) || negb (forallb is_ascii_digit value) then None
  else
    match parse_u64 value with
    | Some cl =>
        let ok := match content_length (st a) with None => true | Some prev => prev =? cl end in
        if ok then Some (a <| st := (st a) <| content_length := Some cl |> |>) else None
    | None => None
    end.

(** A regular field. *)
Definition on_regular (is_trailers : bool) (a : Decoding) (name value : list Z) : Decoding :=
  let a := a <| seen_regular := true |> in
  if negb (utf8_valid name) then bad a
  else if existsb is_ascii_uppercase name then bad a
  else if is_connection_specific_request_header name then bad a
  else if bytes_eqb name (bs "te") && negb (eq_ignore_ascii_case value (bs "trailers")) then bad a
  else
    let edge_ws := is_edge_ws (head value) || is_edge_ws (last value) in
    match header_name name with
    | Some n =>
        if header_value_ok value && negb edge_ws then
          if is_trailers then a
          else
            match (if bytes_eqb name (bs "content-length") then on_content_length a value
                   else Some a) with
            | None => bad a
            | Some a =>
                if bytes_eqb n (bs "host") then
                  match host_value a with
                  | Some _ => bad a
                  | None =>
                      a <| host_value := Some value |>
                        <| st := (st a) <| headers := append (headers (st a)) n value |> |>
                  end
                else a <| st := (st a) <| headers := append (headers (st a)) n value |> |>
            end
        else bad a
    | None => bad a
    end.

Definition on_field (is_trailers : bool) (a : Decoding) (f : header) : Decoding :=
  let '(name, value) := f in
  if malformed a then a
  else if bool_decide (head name = Some 0x3a) then on_pseudo is_trailers a name value
  else on_regular is_trailers a name value.

(** The checks after a request (not a trailer) block. *)
Definition request_ok (a : Decoding) : bool :=
  let m := method (st a) in
  if negb (seen_method a) || negb (seen_scheme a) || negb (seen_path a) then false
  else if bool_decide (m = Some (bs "CONNECT")) then false
  else if path_is_asterisk a && negb (bool_decide (m = Some (bs "OPTIONS"))) then false
  else
    match authority (st a) with
    | Some v =>
        header_value_is_str v
        && negb (negb (valid_uri_authority v) || (scheme_is_http a && negb (valid_http_authority v)))
    | None => true
    end
    && match host_value a with
       | Some h => header_value_is_str h && valid_http_authority h
       | None => true
       end
    && match authority (st a), host_value a with
       | Some v, Some h => bytes_eqb v h
       | _, _ => true
       end.

Definition decode_block_from (d : decoder.Decoder) (s : StreamState) (block : list Z)
    : decoder.Decoder * StreamState * Decoded :=
  let is_trailers := headers_done s in
  let '(d, fields, result) := decoder.decode_octets d block in
  let a := fold_left (on_field is_trailers) fields (start s) in
  match result with
  | Err hpack_string.HeaderListTooLarge => (d, st a, TooLarge)
  | Err _ => (d, st a, Compression)
  | Ok _ =>
      if malformed a then (d, st a, Malformed)
      else if is_trailers then (d, st a, DecodedOk)
      else if request_ok a then (d, (st a) <| headers_done := true |>, DecodedOk)
      else (d, st a, Malformed)
  end.

Definition decode_block (d : decoder.Decoder) (s : StreamState)
    : decoder.Decoder * StreamState * Decoded :=
  decode_block_from d (s <| header_block := [] |>) (header_block s).

Definition decode_discard_header_block (d : decoder.Decoder) (block : list Z)
    : decoder.Decoder * bool :=
  let '(d, _, result) := decoder.decode_octets d block in
  (d, match result with Ok _ | Err hpack_string.HeaderListTooLarge => true | Err _ => false end).

(** ** Charges *)

Definition USIZE_MAX : Z := U64_MAX.

(** [size_of_StreamState] is [std::mem::size_of::<StreamState>()]. *)
Definition pending_header_charge (size_of_StreamState : nat) (s : StreamState) : Z :=
  let fields :=
    fold_left (fun sum f => saturating_add sum (zlen f.1 + zlen f.2 + DECODED_FIELD_OVERHEAD))
      (headers s) 0 in
  let path := match path s with Some u => Z.of_nat (uri_path_and_query_len u) | None => 0 end in
  let authority := match authority s with Some v => zlen v | None => 0 end in
  let charge :=
    saturating_add (saturating_add fields (path + authority + 4 * DECODED_FIELD_OVERHEAD))
      (Z.of_nat size_of_StreamState) in
  if charge <? 2 ^ 32 then charge else 2 ^ 32 - 1.

Definition declared_body_too_large (s : option StreamState) (max_request_body : Z) : bool :=
  match s with
  | Some s =>
      negb (end_stream s)
      && match content_length s with Some cl => max_request_body <? cl | None => false end
  | None => false
  end.

Definition early_reject_response (r : Recv) (s : StreamState) : option (Z * HeaderMap) :=
  match early_reject r, method s, path s with
  | Some hook, Some m, Some u =>
      hook {| head_method := m; head_uri := u; head_authority := authority s;
              head_headers := headers s |}
  | _, _, _ => None
  end.

(** ** The request *)

(** [body_lease] is what stays reserved for the life of the body. *)
Record Request : Type := {
  req_method : list Z;
  req_uri : Uri;
  req_headers : HeaderMap;
  req_body : list Z;
  req_lease : option Z;
}.

Definition build_request (b : Budget) (s : StreamState) : Budget * option Request :=
  match method s, path s with
  | Some m, Some u =>
      let hs :=
        match authority s with Some v => headers.insert (headers s) (bs "host") v | None => headers s end in
      let '(b, lease) :=
        if bool_decide (body s = []) then (drop_lease b (body_lease s), None)
        else
          match b, body_lease s with
          | Some bd, Some held =>
              let '(bd, held) := budget.lease_release bd held (header_charge s) in
              (Some bd, Some held)
          | b, lease => (b, lease)
          end in
      (b, Some {| req_method := m; req_uri := u; req_headers := coalesce_cookie_crumbs hs;
                  req_body := body s; req_lease := lease |})
  | _, _ => (drop_lease b (body_lease s), None)
  end.

(** Does [maybe_send_100_continue] send? *)
Definition wants_100_continue (s : StreamState) : bool :=
  negb (end_stream s)
  && match headers.get (headers s) (bs "expect") with
     | Some v => header_value_is_str v && eq_ignore_ascii_case v (bs "100-continue")
     | None => false
     end.

(** ** What decoding leaves alone *)

(** The fields of a stream that hold its accounting. *)
Definition kept (s s' : StreamState) : Prop :=
  header_block s' = header_block s ∧ headers_done s' = headers_done s ∧
  end_stream s' = end_stream s ∧ refused s' = refused s ∧ header_charge s' = header_charge s ∧
  body s' = body s ∧ body_lease s' = body_lease s ∧ recv_window s' = recv_window s.

Lemma kept_refl s : kept s s.
Proof. done. Qed.

Lemma kept_trans s1 s2 s3 : kept s1 s2 → kept s2 s3 → kept s1 s3.
Proof. unfold kept. intuition congruence. Qed.

Lemma on_content_length_kept a v a' : on_content_length a v = Some a' → kept (st a) (st a').
Proof. unfold on_content_length. repeat case_match; intros; simplify_eq; done. Qed.

Lemma on_field_kept tr a f : kept (st a) (st (on_field tr a f)).
Proof.
  destruct f as [name value]. unfold on_field. case_if; [done|]. case_if.
  - unfold on_pseudo. repeat case_match; done.
  - unfold on_regular. destruct (if bytes_eqb name (bs "content-length") then _ else _) as [a'|] eqn:E.
    + assert (K : kept (st a) (st a')).
      { destruct (bytes_eqb name (bs "content-length")); [|by injection E as <-].
        by apply on_content_length_kept in E. }
      repeat case_match; done.
    + repeat case_match; done.
Qed.

Lemma fold_on_field_kept tr fs a : kept (st a) (st (fold_left (on_field tr) fs a)).
Proof.
  revert a. induction fs as [|f fs IH]; intros a; [done|]. cbn [fold_left].
  eapply kept_trans; [apply on_field_kept|apply IH].
Qed.

(** Decoding a block: the decoder moves on by exactly that block, and the stream keeps its
    accounting; only a request block that is whole and well-formed completes the headers. *)
Lemma decode_block_from_spec d s block d' s' r :
  decode_block_from d s block = (d', s', r) →
  d' = (decoder.decode_octets d block).1.1 ∧
  kept (s <| headers_done := headers_done s' |>) s' ∧
  (r = DecodedOk → headers_done s' = true) ∧ (headers_done s = true → headers_done s' = true).
Proof.
  unfold decode_block_from. destruct (decoder.decode_octets d block) as [[d1 fields] res].
  pose proof (fold_on_field_kept (headers_done s) fields (start s)) as K.
  set (a := fold_left _ fields (start s)) in *. clearbody a. cbn [start st] in K.
  pose proof K as (_ & Hd & _).
  intros Hr. unfold kept in *. destruct K as (K1 & _ & K2 & K3 & K4 & K5 & K6 & K7).
  repeat case_match; simplify_eq; cbn; split_and!; try done; congruence.
Qed.

End request.
End request.
