(* ===== verification/H2Recv.v ===== *)
(** * Receiving frames: [process_frame] of [crates/hj-h2/src/server/recv.rs]

    The state [process_frame] is given by mutable reference is one record, [Conn]. The
    macros of the function are functions here; a macro that returns from [process_frame]
    gives the final state and outcome. The [service] future is not run: a dispatched
    request is logged, as the code pushes it to [inflight]. *)

From stdpp Require Import base list gmap strings.
From Stdlib Require Import ZArith Lia.
From S2P Require Import Prelude RustStr HttpUtil Budget H2Frame HpackString.
From S2P Require Import HpackTable HpackEncoder HpackDecoder H2State H2Request.

Import headers http_util state request.
#[local] Open Scope record_scope.

Module recv.

Definition MAX_HEADER_BLOCK : Z := 64 * 1024.
Definition RAPID_RESET_BURST : Z := 200.
(** 100 ms. *)
Definition RAPID_RESET_REFILL : Z := 100000000.
Definition NO_PROGRESS_BUDGET : Z := 10000.

Inductive FrameOutcome : Type :=
| Continue
| StopReading
| PeerGoaway
| WindowUpdate (stream_id increment : Z)
| ResetStream (sid : Z)
| InitialWindowDelta (delta : Z).

(** ** Payloads *)

Definition has_flag (flags flag : Z) : bool := negb (Z.land flags flag =? 0).

(** The padding of a PADDED payload: what is left of the payload, and the pad length. *)
Definition pad_length (flags_byte : Z) (payload : list Z) : option (list Z * Z) :=
  if has_flag flags_byte frame.flags.PADDED then
    match payload with pad :: p => Some (p, pad) | [] => None end
  else Some (payload, 0).

Definition strip_padding (p : list Z) (pad : Z) : option (list Z) :=
  if zlen p <? pad then None else Some (take (Z.to_nat (zlen p - pad)) p).

Definition headers_block (flags_byte : Z) (payload : list Z) : option (list Z) :=
  match pad_length flags_byte payload with
  | None => None
  | Some (p, pad) =>
      if has_flag flags_byte frame.flags.PRIORITY then
        if zlen p <? 5 then None else strip_padding (drop 5 p) pad
      else strip_padding p pad
  end.

Definition data_block (flags_byte : Z) (payload : list Z) : option (list Z) :=
  match pad_length flags_byte payload with
  | None => None
  | Some (p, pad) => strip_padding p pad
  end.

(** The stream dependency in front of [p]. *)
Definition dependency (p : list Z) : option Z :=
  match p with
  | a :: b :: c :: d :: _ => Some (Z.land (from_be_bytes [a; b; c; d]) 0x7fffffff)
  | _ => None
  end.

Definition priority_dependency (flags_byte : Z) (payload : list Z) (is_headers : bool)
    : option Z :=
  if is_headers then
    if negb (has_flag flags_byte frame.flags.PRIORITY) then None
    else if has_flag flags_byte frame.flags.PADDED then
      match payload with _ :: p => dependency p | [] => None end
    else dependency payload
  else dependency payload.

(** ** Rapid resets *)

Section recv.
Context `{HttpCrate}.

Definition charge_inflight_reset_at (r : Recv) (now : Z) : Recv * bool :=
  let from := match reset_debt_until r with
              | Some t => if now <? t then t else now
              | None => now
              end in
  let until := from + RAPID_RESET_REFILL in
  (r <| reset_debt_until := Some until |>,
   RAPID_RESET_REFILL * RAPID_RESET_BURST <? until - now).

(** ** The connection *)

Record Conn : Type := {
  streams : Streams;
  dec : decoder.Decoder;
  memo : hpack_string.LongLiterals;
  enc : encoder.Encoder;
  out : list (list Z);
  peer : PeerSettings;
  recv : Recv;
  inflight : Z;
  cancelled : gset Z;
  inflight_sids : gset Z;
  budget : Budget;
  dispatched : list (Z * bool * Request);
}.

#[export] Instance Conn_eta : Eta Conn := fun r =>
  {| streams := streams r; dec := dec r; memo := memo r; enc := enc r; out := out r;
     peer := peer r; recv := recv r; inflight := inflight r; cancelled := cancelled r;
     inflight_sids := inflight_sids r; budget := budget r; dispatched := dispatched r |}.
#[export] Instance set_streams : Setter streams := ltac:(derive_setter).
#[export] Instance set_dec : Setter dec := ltac:(derive_setter).
#[export] Instance set_memo : Setter memo := ltac:(derive_setter).
#[export] Instance set_enc : Setter enc := ltac:(derive_setter).
#[export] Instance set_out : Setter out := ltac:(derive_setter).
#[export] Instance set_peer : Setter peer := ltac:(derive_setter).
#[export] Instance set_recv : Setter recv := ltac:(derive_setter).
#[export] Instance set_inflight : Setter inflight := ltac:(derive_setter).
#[export] Instance set_cancelled : Setter cancelled := ltac:(derive_setter).
#[export] Instance set_inflight_sids : Setter inflight_sids := ltac:(derive_setter).
#[export] Instance set_budget : Setter budget := ltac:(derive_setter).
#[export] Instance set_dispatched : Setter dispatched := ltac:(derive_setter).

(** [OutQueue::frames] *)
Definition frames (c : Conn) (octets : list Z) : Conn :=
  if bool_decide (octets = []) then c else c <| out := out c ++ [octets] |>.

(** [enc.encode_header] for each field, into a new block. *)
Definition encode (c : Conn) (fields : list header) : Conn * list Z :=
  let '(m, e, block) := encoder.encode_block (memo c) (enc c) fields in
  (c <| memo := m |> <| enc := e |>, block).

Definition put_stream (c : Conn) (sid : Z) (s : StreamState) : Conn :=
  c <| streams := <[sid := s]> (streams c) |>.

(** [recv.drop_receiving] and [recv.teardown_receiving] *)
Definition drop_receiving (c : Conn) (sid : Z) : Conn :=
  let '(r, ss, b) := state.drop_receiving (recv c) (streams c) (budget c) sid in
  c <| recv := r |> <| streams := ss |> <| budget := b |>.

Definition teardown_receiving (c : Conn) (sid : Z) : Conn :=
  let '(r, ss, b) := state.teardown_receiving (recv c) (streams c) (budget c) sid in
  c <| recv := r |> <| streams := ss |> <| budget := b |>.

Definition goaway (c : Conn) (code : Z) : Conn * FrameOutcome :=
  let '(r, last) := goaway_last_stream_id (recv c) in
  (frames (c <| recv := r |>) (frame.write_goaway last code), StopReading).

(** Take the handler of [sid] away and remember that it was cancelled. *)
Definition mark_cancelled (c : Conn) (sid : Z) : Conn :=
  let c := c <| inflight_sids := inflight_sids c ∖ {[sid]} |> in
  if Z.of_nat (size (cancelled c)) <? 2 * max_concurrent (recv c)
  then c <| cancelled := {[sid]} ∪ cancelled c |> else c.

(** Abort a running handler: the part the reset macro and the RST_STREAM arm share. *)
Definition abort_handler (c : Conn) (now sid : Z) : Conn * FrameOutcome :=
  if bool_decide (sid ∈ inflight_sids c) then
    let c := mark_cancelled c sid in
    let '(r, exhausted) := charge_inflight_reset_at (recv c) now in
    let c := c <| recv := r |> in
    if exhausted then goaway c frame.error_code.ENHANCE_YOUR_CALM else (c, ResetStream sid)
  else (c, ResetStream sid).

Definition rst (c : Conn) (now sid code : Z) : Conn * FrameOutcome :=
  let c := frames c (frame.write_rst_stream sid code) in
  abort_handler (teardown_receiving c sid) now sid.

Definition reject_too_large (c : Conn) (now sid : Z) (status : list Z) (client_open : bool)
    : Conn * FrameOutcome :=
  let '(c, block) := encode c [(bs ":status", status); (bs "content-length", bs "0")] in
  let c := frames c (frame.write_frame frame.kind.HEADERS
                       (Z.lor frame.flags.END_HEADERS frame.flags.END_STREAM) sid block) in
  if client_open then rst c now sid frame.error_code.NO_ERROR
  else (drop_receiving c sid, ResetStream sid).

(** [StatusCode::as_str] *)
Definition status_str (status : Z) : list Z :=
  [0x30 + status / 100; 0x30 + status / 10 mod 10; 0x30 + status mod 10].

(** [None] when the request is not rejected early. *)
Definition reject_early (c : Conn) (now sid : Z) : option (Conn * FrameOutcome) :=
  match streams c !! sid with
  | Some s =>
      if end_stream s then None
      else
        match early_reject_response (recv c) s with
        | Some (status, hs) =>
            let hs := headers.remove (strip_hop_by_hop_response hs) (bs "content-length") in
            let '(c, block) :=
              encode c ([(bs ":status", status_str status)] ++ header_iter hs
                        ++ [(bs "content-length", bs "0")]) in
            let c := frames c (field_block.write_field_block sid frame.flags.END_STREAM block
                                 (max_frame_size (peer c))) in
            Some (rst c now sid frame.error_code.NO_ERROR)
        | None => None
        end
  | None => None
  end.

(** [None] when the stream is not marked. *)
Definition refuse_if_marked (c : Conn) (now sid : Z) : option (Conn * FrameOutcome) :=
  match streams c !! sid with
  | Some s =>
      if refused s then
        let c := c <| streams := delete sid (streams c) |>
                   <| budget := drop_lease (budget c) (body_lease s) |> in
        Some (rst c now sid frame.error_code.REFUSED_STREAM)
      else None
  | None => None
  end.

Definition complete (c : Conn) (now sid : Z) : Conn * FrameOutcome :=
  match streams c !! sid with
  | None => (c, Continue)
  | Some s =>
      let r := release_stream ((recv c) <| no_progress_frames := 0 |>) s in
      let c := c <| streams := delete sid (streams c) |> <| recv := r |> in
      if match content_length s with Some cl => negb (cl =? zlen (body s)) | None => false end
      then
        rst (c <| budget := drop_lease (budget c) (body_lease s) |>) now sid
          frame.error_code.PROTOCOL_ERROR
      else
        let is_head := bool_decide (method s = Some (bs "HEAD")) in
        let hint := zlen (headers s) + match authority s with Some _ => 1 | None => 0 end in
        let c := c <| recv := (recv c) <| header_count_hint := Z.min hint HEADER_COUNT_HINT_MAX |> |> in
        let '(b, req) := build_request (budget c) s in
        let c := c <| budget := b |> in
        match req with
        | Some req =>
            (c <| dispatched := dispatched c ++ [(sid, is_head, req)] |>
               <| inflight := inflight c + 1 |>
               <| inflight_sids := {[sid]} ∪ inflight_sids c |>, Continue)
        | None => rst c now sid frame.error_code.PROTOCOL_ERROR
        end
  end.

Definition maybe_send_100_continue (c : Conn) (sid : Z) (s : StreamState) : Conn :=
  if wants_100_continue s then
    let '(c, block) := encode c [(bs ":status", bs "100")] in
    frames c (frame.write_frame frame.kind.HEADERS frame.flags.END_HEADERS sid block)
  else c.

(** [size_of_StreamState] is [std::mem::size_of::<StreamState>()]. *)
Context (size_of_StreamState : nat).

(** The tail of a request block that decoded: charge it, and dispatch it if it is whole. *)
Definition admit_or_complete (c : Conn) (now sid : Z) : Conn * FrameOutcome :=
  match streams c !! sid with
  | None => (c, Continue)
  | Some s =>
      if end_stream s then complete c now sid
      else
        let charge := pending_header_charge size_of_StreamState s in
        let '(ok, r, b, s) := admit_pending_headers (recv c) (budget c) s charge in
        let c := put_stream (c <| recv := r |> <| budget := b |>) sid s in
        if ok then (maybe_send_100_continue c sid s, Continue)
        else rst c now sid frame.error_code.REFUSED_STREAM
  end.

(** What follows END_HEADERS in the HEADERS and the CONTINUATION arm. *)
Definition finish_block (c : Conn) (now sid : Z) (decoded : Decoded) : Conn * FrameOutcome :=
  match decoded with
  | DecodedOk =>
      match refuse_if_marked c now sid with
      | Some result => result
      | None =>
          if declared_body_too_large (streams c !! sid) (max_request_body (recv c))
          then reject_too_large c now sid (bs "413") true
          else
            match reject_early c now sid with
            | Some result => result
            | None => admit_or_complete c now sid
            end
      end
  | Compression => goaway c frame.error_code.COMPRESSION_ERROR
  | TooLarge =>
      match refuse_if_marked c now sid with
      | Some result => result
      | None =>
          let client_open :=
            match streams c !! sid with Some s => negb (end_stream s) | None => false end in
          reject_too_large c now sid (bs "431") client_open
      end
  | Malformed => rst (drop_receiving c sid) now sid frame.error_code.PROTOCOL_ERROR
  end.

(** ** One arm per frame type *)

(** The loop over the parameters of SETTINGS; [inr] is a connection error. *)
Fixpoint apply_settings (c : Conn) (iw_delta : Z) (params : list (Z * Z))
    : (Conn * Z) + (Conn * FrameOutcome) :=
  match params with
  | [] => inl (c, iw_delta)
  | (id, value) :: params' =>
      if id =? frame.settings.ENABLE_PUSH then
        if 1 <? value then inr (goaway c frame.error_code.PROTOCOL_ERROR)
        else apply_settings c iw_delta params'
      else if id =? frame.settings.HEADER_TABLE_SIZE then
        apply_settings (c <| enc := encoder.set_peer_max_size (enc c) value |>) iw_delta params'
      else if id =? frame.settings.MAX_FRAME_SIZE then
        if negb ((16384 <=? value) && (value <=? 2 ^ 24 - 1))
        then inr (goaway c frame.error_code.PROTOCOL_ERROR)
        else apply_settings (c <| peer := (peer c) <| max_frame_size := value |> |>) iw_delta params'
      else if id =? frame.settings.INITIAL_WINDOW_SIZE then
        if 2 ^ 31 - 1 <? value then inr (goaway c frame.error_code.FLOW_CONTROL_ERROR)
        else
          apply_settings (c <| peer := (peer c) <| initial_window := value |> |>)
            (iw_delta + (value - initial_window (peer c))) params'
      else apply_settings c iw_delta params'
  end.

Definition on_settings (c : Conn) (hdr : frame.FrameHeader) (payload : list Z)
    : Conn * FrameOutcome :=
  if has_flag (frame.flags hdr) frame.flags.ACK then
    if negb (frame.length hdr =? 0) then goaway c frame.error_code.FRAME_SIZE_ERROR
    else (c, Continue)
  else if negb (frame.length hdr mod 6 =? 0) then goaway c frame.error_code.FRAME_SIZE_ERROR
  else
    match frame.parse_settings payload with
    | None => goaway c frame.error_code.FRAME_SIZE_ERROR
    | Some params =>
        match apply_settings c 0 params with
        | inr result => result
        | inl (c, iw_delta) =>
            let c := c <| peer := (peer c) <| first_settings_recorded := true |> |> in
            let c := frames c frame.write_settings_ack in
            if negb (iw_delta =? 0) then (c, InitialWindowDelta iw_delta) else (c, Continue)
        end
    end.

Definition on_window_update (c : Conn) (now sid : Z) (payload : list Z) : Conn * FrameOutcome :=
  if negb (sid =? 0) && ((sid mod 2 =? 0) || (last_client_stream (recv c) <? sid))
  then goaway c frame.error_code.PROTOCOL_ERROR
  else
    match frame.parse_window_update payload with
    | Some increment =>
        if increment =? 0 then
          if sid =? 0 then goaway c frame.error_code.PROTOCOL_ERROR
          else rst c now sid frame.error_code.PROTOCOL_ERROR
        else (c, WindowUpdate sid increment)
    | None => goaway c frame.error_code.FRAME_SIZE_ERROR
    end.

(** Keep a block that will not become a request in step with HPACK: decode it if it is
    whole, buffer it if not, and reset the stream with [code] when it ends. *)
Definition discard_block (c : Conn) (now sid : Z) (end_headers : bool) (block : list Z) (code : Z)
    : Conn * FrameOutcome :=
  if end_headers then
    let '(d, ok) := decode_discard_header_block (dec c) block in
    let c := c <| dec := d |> in
    if ok then rst c now sid code else goaway c frame.error_code.COMPRESSION_ERROR
  else
    (c <| recv := (recv c) <| discard_header_block := block |>
                           <| discarding_header_block := true |>
                           <| discard_rst_code := code |>
                           <| open_header_block := Some sid |> |>, Continue).

(** A HEADERS frame on an id that is not new and not being received. *)
Definition on_closed_headers (c : Conn) (now : Z) (hdr : frame.FrameHeader) (payload : list Z)
    : Conn * FrameOutcome :=
  let sid := frame.stream_id hdr in
  if negb (state.contains (reset_ids (recv c)) sid) then goaway c frame.error_code.PROTOCOL_ERROR
  else
    match headers_block (frame.flags hdr) payload with
    | None => goaway c frame.error_code.PROTOCOL_ERROR
    | Some block =>
        if MAX_HEADER_BLOCK <? zlen block then goaway c frame.error_code.COMPRESSION_ERROR
        else
          discard_block c now sid (has_flag (frame.flags hdr) frame.flags.END_HEADERS) block
            frame.error_code.STREAM_CLOSED
    end.

(** A HEADERS frame that cannot be served: it depends on itself, or it is a trailer block
    that does not end the stream. *)
Definition on_bad_headers (c : Conn) (now : Z) (hdr : frame.FrameHeader) (payload : list Z)
    : Conn * FrameOutcome :=
  let sid := frame.stream_id hdr in
  match headers_block (frame.flags hdr) payload with
  | None => goaway c frame.error_code.PROTOCOL_ERROR
  | Some block =>
      if MAX_HEADER_BLOCK <? zlen block then goaway c frame.error_code.COMPRESSION_ERROR
      else
        discard_block (drop_receiving c sid) now sid
          (has_flag (frame.flags hdr) frame.flags.END_HEADERS) block
          frame.error_code.PROTOCOL_ERROR
  end.

(** The stream a HEADERS frame opens or continues. *)
Definition opened_stream (c : Conn) (sid : Z) (refuse_new_stream : bool) : StreamState :=
  let s :=
    match streams c !! sid with
    | Some s => s
    | None => StreamState_default <| recv_window := our_initial_window (recv c) |>
    end in
  if refuse_new_stream then s <| refused := true |> else s.

(** A HEADERS frame that opens a stream, or ends one with trailers. *)
Definition on_good_headers (c : Conn) (now : Z) (hdr : frame.FrameHeader) (payload : list Z)
    (opens_new_stream : bool) (outstreams_len : Z) (accept_new_streams : bool)
    : Conn * FrameOutcome :=
  let sid := frame.stream_id hdr in
  let refuse_new_stream :=
    opens_new_stream
    && (negb accept_new_streams
        || (max_concurrent (recv c)
            <=? Z.of_nat (size (streams c)) + inflight c + outstreams_len)) in
  match headers_block (frame.flags hdr) payload with
  | None => goaway c frame.error_code.PROTOCOL_ERROR
  | Some block =>
      let s := opened_stream c sid refuse_new_stream in
      if MAX_HEADER_BLOCK <? zlen (header_block s) + zlen block
      then goaway (put_stream c sid s) frame.error_code.COMPRESSION_ERROR
      else
        let s :=
          if has_flag (frame.flags hdr) frame.flags.END_STREAM then s <| end_stream := true |>
          else s in
        if has_flag (frame.flags hdr) frame.flags.END_HEADERS then
          let c := c <| recv := (recv c) <| open_header_block := None |> |> in
          let '(d, s, decoded) :=
            if bool_decide (header_block s = []) then decode_block_from (dec c) s block
            else decode_block (dec c) (s <| header_block := header_block s ++ block |>) in
          finish_block (put_stream (c <| dec := d |>) sid s) now sid decoded
        else
          (put_stream (c <| recv := (recv c) <| open_header_block := Some sid |> |>) sid
             (s <| header_block := header_block s ++ block |>), Continue)
  end.

Definition on_headers (c : Conn) (now : Z) (hdr : frame.FrameHeader) (payload : list Z)
    (outstreams_len : Z) (accept_new_streams : bool) : Conn * FrameOutcome :=
  let sid := frame.stream_id hdr in
  let opens_new_stream := negb (bool_decide (is_Some (streams c !! sid))) in
  if opens_new_stream && (sid mod 2 =? 0) then goaway c frame.error_code.PROTOCOL_ERROR
  else if opens_new_stream && (sid <=? last_client_stream (recv c))
  then on_closed_headers c now hdr payload
  else
    let c :=
      if opens_new_stream then c <| recv := (recv c) <| last_client_stream := sid |> |> else c in
    let self_priority :=
      bool_decide (priority_dependency (frame.flags hdr) payload true = Some sid) in
    let unterminated_trailers :=
      match streams c !! sid with Some s => headers_done s | None => false end
      && negb (has_flag (frame.flags hdr) frame.flags.END_STREAM) in
    if self_priority || unterminated_trailers then on_bad_headers c now hdr payload
    else on_good_headers c now hdr payload opens_new_stream outstreams_len accept_new_streams.

Definition on_continuation (c : Conn) (now : Z) (hdr : frame.FrameHeader) (payload : list Z)
    : Conn * FrameOutcome :=
  let sid := frame.stream_id hdr in
  let end_headers := has_flag (frame.flags hdr) frame.flags.END_HEADERS in
  if discarding_header_block (recv c) then
    if MAX_HEADER_BLOCK <? zlen (discard_header_block (recv c)) + zlen payload
    then goaway c frame.error_code.COMPRESSION_ERROR
    else
      let block := discard_header_block (recv c) ++ payload in
      if end_headers then
        let code := discard_rst_code (recv c) in
        let c := c <| recv := (recv c) <| open_header_block := None |>
                                       <| discarding_header_block := false |>
                                       <| discard_header_block := [] |> |> in
        let '(d, ok) := decode_discard_header_block (dec c) block in
        let c := c <| dec := d |> in
        if ok then
          rst (c <| recv := (recv c) <| discard_rst_code := frame.error_code.STREAM_CLOSED |> |>)
            now sid code
        else goaway c frame.error_code.COMPRESSION_ERROR
      else (c <| recv := (recv c) <| discard_header_block := block |> |>, Continue)
  else
    match streams c !! sid with
    | None => goaway c frame.error_code.PROTOCOL_ERROR
    | Some s =>
        if MAX_HEADER_BLOCK <? zlen (header_block s) + zlen payload
        then goaway c frame.error_code.COMPRESSION_ERROR
        else
          let s := s <| header_block := header_block s ++ payload |> in
          if end_headers then
            let c := c <| recv := (recv c) <| open_header_block := None |> |> in
            let '(d, s, decoded) := decode_block (dec c) s in
            finish_block (put_stream (c <| dec := d |>) sid s) now sid decoded
          else (put_stream c sid s, Continue)
    end.

(** The connection window of a DATA frame: it is charged whole, and refilled in batches. *)
Definition charge_conn_window (c : Conn) (flow : Z) : Conn :=
  let window := conn_recv_window (recv c) - flow in
  let target := Z.max (our_initial_window (recv c)) 65535 in
  if window <=? target / 2 then
    frames (c <| recv := (recv c) <| conn_recv_window := target |> |>)
      (frame.write_window_update 0 (u32 (target - window)))
  else c <| recv := (recv c) <| conn_recv_window := window |> |>.

(** The stream window after the body was extended. *)
Definition refill_stream_window (c : Conn) (sid : Z) (s : StreamState) (end_stream_flag : bool)
    : Conn :=
  let iw := our_initial_window (recv c) in
  if negb end_stream_flag && (recv_window s <=? iw / 2) then
    frames (put_stream c sid (s <| recv_window := iw |>))
      (frame.write_window_update sid (u32 (iw - recv_window s)))
  else put_stream c sid s.

(** DATA on a stream that is being received, its windows charged. *)
Definition on_stream_data (c : Conn) (now sid : Z) (s : StreamState) (data : list Z)
    (end_stream_flag : bool) : Conn * FrameOutcome :=
  let body_len := zlen (body s) + zlen data in
  if match content_length s with Some cl => cl <? body_len | None => false end
  then rst c now sid frame.error_code.PROTOCOL_ERROR
  else if max_request_body (recv c) <? body_len
  then reject_too_large c now sid (bs "413") (negb end_stream_flag)
  else if per_conn_request_body (recv c) <? saturating_add (total_buffered (recv c)) (zlen data)
  then goaway c frame.error_code.ENHANCE_YOUR_CALM
  else
    let c := if bool_decide (data = []) then c
             else c <| recv := (recv c) <| no_progress_frames := 0 |> |> in
    let '(ok, b, s) := reserve_on (budget c) s (zlen data) in
    let c := put_stream (c <| budget := b |>) sid s in
    if negb ok then rst c now sid frame.error_code.REFUSED_STREAM
    else
      let c := c <| recv := (recv c) <| total_buffered :=
                              saturating_add (total_buffered (recv c)) (zlen data) |> |> in
      let s := s <| body := body s ++ data |> in
      let c := refill_stream_window c sid s end_stream_flag in
      if end_stream_flag && headers_done s then complete c now sid else (c, Continue).

Definition on_data (c : Conn) (now : Z) (hdr : frame.FrameHeader) (payload : list Z)
    : Conn * FrameOutcome :=
  let sid := frame.stream_id hdr in
  let flow := zlen payload in
  match data_block (frame.flags hdr) payload with
  | None => goaway c frame.error_code.PROTOCOL_ERROR
  | Some data =>
      if conn_recv_window (recv c) - flow <? 0 then
        goaway (c <| recv := (recv c) <| conn_recv_window := conn_recv_window (recv c) - flow |> |>)
          frame.error_code.FLOW_CONTROL_ERROR
      else
        let c := charge_conn_window c flow in
        match streams c !! sid with
        | None =>
            if (sid mod 2 =? 0) || (last_client_stream (recv c) <? sid)
            then goaway c frame.error_code.PROTOCOL_ERROR
            else if state.contains (sent_reset_ids (recv c)) sid then (c, Continue)
            else rst c now sid frame.error_code.STREAM_CLOSED
        | Some s =>
            let s := s <| recv_window := recv_window s - flow |> in
            let c := put_stream c sid s in
            if recv_window s <? 0
            then rst (drop_receiving c sid) now sid frame.error_code.FLOW_CONTROL_ERROR
            else
              on_stream_data c now sid s data
                (has_flag (frame.flags hdr) frame.flags.END_STREAM)
        end
  end.

Definition on_rst_stream (c : Conn) (now sid : Z) : Conn * FrameOutcome :=
  if (sid mod 2 =? 0) || (last_client_stream (recv c) <? sid)
  then goaway c frame.error_code.PROTOCOL_ERROR
  else
    let c := drop_receiving c sid in
    let c := c <| recv := note_reset (recv c) sid |> in
    abort_handler c now sid.

(** ** The whole function *)

(** Section 6: the frames that must, and must not, be on stream 0. *)
Definition bad_association (kind sid : Z) : bool :=
  if (kind =? frame.kind.DATA) || (kind =? frame.kind.HEADERS) || (kind =? frame.kind.PRIORITY)
     || (kind =? frame.kind.RST_STREAM) || (kind =? frame.kind.CONTINUATION)
  then sid =? 0
  else if (kind =? frame.kind.SETTINGS) || (kind =? frame.kind.PING) || (kind =? frame.kind.GOAWAY)
  then negb (sid =? 0)
  else kind =? frame.kind.PUSH_PROMISE.

Definition bad_len (kind length : Z) : bool :=
  if (kind =? frame.kind.RST_STREAM) || (kind =? frame.kind.WINDOW_UPDATE) then negb (length =? 4)
  else if kind =? frame.kind.PRIORITY then negb (length =? 5)
  else if kind =? frame.kind.PING then negb (length =? 8)
  else false.

(** The match on the frame type. *)
Definition dispatch (c : Conn) (now : Z) (hdr : frame.FrameHeader) (payload : list Z)
    (outstreams_len : Z) (accept_new_streams : bool) : Conn * FrameOutcome :=
  let kind := frame.kind hdr in
  let sid := frame.stream_id hdr in
  if kind =? frame.kind.SETTINGS then on_settings c hdr payload
  else if kind =? frame.kind.PING then
    if negb (has_flag (frame.flags hdr) frame.flags.ACK)
    then (frames c (frame.write_ping_ack payload), Continue) else (c, Continue)
  else if kind =? frame.kind.WINDOW_UPDATE then on_window_update c now sid payload
  else if kind =? frame.kind.GOAWAY then
    if zlen payload <? 8 then goaway c frame.error_code.FRAME_SIZE_ERROR else (c, PeerGoaway)
  else if kind =? frame.kind.HEADERS then
    on_headers c now hdr payload outstreams_len accept_new_streams
  else if kind =? frame.kind.CONTINUATION then on_continuation c now hdr payload
  else if kind =? frame.kind.DATA then on_data c now hdr payload
  else if kind =? frame.kind.RST_STREAM then on_rst_stream c now sid
  else if (kind =? frame.kind.PRIORITY)
          && bool_decide (priority_dependency (frame.flags hdr) payload false = Some sid)
  then rst c now sid frame.error_code.PROTOCOL_ERROR
  else (c, Continue).

Definition process_frame (c : Conn) (now : Z) (hdr : frame.FrameHeader) (payload : list Z)
    (outstreams_len : Z) (accept_new_streams : bool) : Conn * FrameOutcome :=
  let kind := frame.kind hdr in
  let sid := frame.stream_id hdr in
  if negb (seen_settings (recv c))
     && (negb (kind =? frame.kind.SETTINGS) || has_flag (frame.flags hdr) frame.flags.ACK)
  then goaway c frame.error_code.PROTOCOL_ERROR
  else
    let c := c <| recv := (recv c) <| seen_settings := true |>
                    <| no_progress_frames :=
                         Z.min (no_progress_frames (recv c) + 1) (2 ^ 32 - 1) |> |> in
    if NO_PROGRESS_BUDGET <? no_progress_frames (recv c)
    then goaway c frame.error_code.ENHANCE_YOUR_CALM
    else if match open_header_block (recv c) with
            | Some open => negb (kind =? frame.kind.CONTINUATION) || negb (sid =? open)
            | None => kind =? frame.kind.CONTINUATION
            end
    then goaway c frame.error_code.PROTOCOL_ERROR
    else if bad_association kind sid then goaway c frame.error_code.PROTOCOL_ERROR
    else if bad_len kind (frame.length hdr) then goaway c frame.error_code.FRAME_SIZE_ERROR
    else dispatch c now hdr payload outstreams_len accept_new_streams.

End recv.
End recv.
