(* ===== verification/H2RecvInv.v ===== *)
(** * What receiving frames keeps true

    The invariant of a connection between two frames, and its preservation by
    [process_frame] of [crates/hj-h2/src/server/recv.rs] as long as the connection is not
    being closed. *)

From stdpp Require Import base list gmap strings.
From Stdlib Require Import ZArith Lia.
From S2P Require Import Prelude RustStr HttpUtil Budget H2Frame HpackString.
From S2P Require Import HpackTable HpackEncoder HpackDecoder HpackSync H2State H2Request H2Recv.

Import headers state request recv.
#[local] Open Scope record_scope.

Section inv.
Context `{HttpCrate}.

(** ** The invariant

    Each part is stated on the values it depends on, so that it carries over to any
    connection in which those values are the same. *)

(** A sane configuration. *)
Record limits_ok (concurrent window max_body conn_body header_mem : Z) : Prop := {
  lim_concurrent : 0 <= concurrent;
  lim_window : 0 <= window < 2 ^ 31;
  lim_body : 0 <= max_body < 2 ^ 62;
  lim_conn_body : 0 <= conn_body < 2 ^ 62;
  lim_headers : 0 <= header_mem < 2 ^ 62;
}.

Definition body_size (s : StreamState) : Z := zlen (body s).

(** A stream that has not decoded its request headers, or is to be refused, has nothing
    charged to it. *)
Definition uncharged (s : StreamState) : Prop :=
  body s = [] ∧ header_charge s = 0 ∧ body_lease s = None.

Record stream_ok (last_client_stream max_body window sid : Z) (s : StreamState) : Prop := {
  ok_id : sid mod 2 = 1 ∧ 0 < sid <= last_client_stream;
  ok_body : body_size s <= max_body;
  ok_charge : 0 <= header_charge s < 2 ^ 32;
  ok_block : zlen (header_block s) <= MAX_HEADER_BLOCK;
  ok_octets : octets (header_block s);
  ok_window : 0 <= recv_window s <= window;
  ok_uncharged : headers_done s = false ∨ refused s = true → uncharged s;
}.

(** Between two frames only the stream whose header block is open has a partial block, no
    request headers yet, a refusal or an end of stream pending. *)
Definition stream_settled (open : option Z) (discarding : bool) (sid : Z) (s : StreamState)
    : Prop :=
  header_block s ≠ [] ∨ headers_done s = false ∨ refused s = true ∨ end_stream s = true →
  open = Some sid ∧ discarding = false.

(** The counters of the connection are the sums over its streams, and within the limits. *)
Record accounted (buffered header_bytes conn_body header_mem : Z) (ss : Streams) : Prop := {
  acc_body : buffered = sum_map body_size ss;
  acc_headers : header_bytes = sum_map header_charge ss;
  acc_body_max : buffered <= conn_body;
  acc_headers_max : header_bytes <= Z.max header_mem (2 ^ 32);
}.

Definition sids (ds : list (Z * bool * Request)) : list Z := (fun d => d.1.1) <$> ds.

(** Nothing is dispatched twice, and what was dispatched is no longer being received. *)
Record dispatch_ok (last_client_stream : Z) (ss : Streams) (running : gset Z)
    (ds : list (Z * bool * Request)) : Prop := {
  disp_nodup : NoDup (sids ds);
  disp_closed : ∀ sid, sid ∈ sids ds → sid <= last_client_stream ∧ ss !! sid = None;
  disp_running : ∀ sid, sid ∈ running → sid ∈ sids ds;
}.

Record hpack_ok (d : decoder.Decoder) (e : encoder.Encoder) (m : hpack_string.LongLiterals)
    : Prop := {
  hp_dec : decoder.decoder_inv d;
  hp_list : 0 <= decoder.max_list_size d < U64_MAX;
  hp_enc : encoder.encoder_inv e;
  hp_pending : encoder.pending_ok e;
  hp_fits : table_size (encoder.dynamic e) <= encoder.max_size e;
  hp_memo : hpack_string.memo_ok m;
}.

(** What holds throughout a frame. *)
Record conn_mid (c : Conn) : Prop := {
  mid_limits :
    limits_ok (max_concurrent (recv c)) (our_initial_window (recv c)) (max_request_body (recv c))
      (per_conn_request_body (recv c)) (pending_header_mem (recv c));
  mid_streams :
    map_Forall (stream_ok (last_client_stream (recv c)) (max_request_body (recv c))
                  (our_initial_window (recv c))) (streams c);
  mid_accounted :
    accounted (total_buffered (recv c)) (pending_header_bytes (recv c))
      (per_conn_request_body (recv c)) (pending_header_mem (recv c)) (streams c);
  mid_dispatch :
    dispatch_ok (last_client_stream (recv c)) (streams c) (inflight_sids c) (dispatched c);
  mid_hpack : hpack_ok (dec c) (enc c) (memo c);
  mid_window : 0 <= conn_recv_window (recv c) <= Z.max (our_initial_window (recv c)) 65535;
  mid_discard :
    zlen (discard_header_block (recv c)) <= MAX_HEADER_BLOCK ∧
    octets (discard_header_block (recv c));
}.

(** What holds between two frames. Trailers end their stream, so the stream of an open block
    either waits for its request headers or has ended. *)
Record conn_inv (c : Conn) : Prop := {
  inv_mid : conn_mid c;
  inv_settled :
    map_Forall (stream_settled (open_header_block (recv c)) (discarding_header_block (recv c)))
      (streams c);
  inv_open : ∀ sid, open_header_block (recv c) = Some sid →
    discarding_header_block (recv c) = true ∨
    ∃ s, streams c !! sid = Some s ∧ (headers_done s = true → end_stream s = true);
  inv_closed : open_header_block (recv c) = None → discarding_header_block (recv c) = false;
}.

(** The header block that is being received. *)
Definition open_block (c : Conn) : option (list Z) :=
  match open_header_block (recv c) with
  | None => None
  | Some sid =>
      Some (if discarding_header_block (recv c) then discard_header_block (recv c)
            else match streams c !! sid with Some s => header_block s | None => [] end)
  end.

(** What a frame that did not close the connection did: the HPACK decoder is [d], the open
    header block [blk], no closed stream was opened again, and at most one request was
    dispatched. *)
Record frame_ok (c c' : Conn) (d : decoder.Decoder) (blk : option (list Z)) : Prop := {
  fr_inv : conn_inv c';
  fr_dec : dec c' = d;
  fr_block : open_block c' = blk;
  fr_last : last_client_stream (recv c) <= last_client_stream (recv c');
  fr_closed : ∀ sid, sid <= last_client_stream (recv c) → streams c !! sid = None →
    streams c' !! sid = None;
  fr_dispatched : dispatched c' = dispatched c ∨
    ∃ x, dispatched c' = dispatched c ++ [x];
}.

(** In the course of a frame on the stream [sid] with no header block open: the other
    streams are as they were in [c0]. *)
Record working (c0 c : Conn) (sid : Z) : Prop := {
  wk_mid : conn_mid c;
  wk_open : open_header_block (recv c) = None;
  wk_discarding : discarding_header_block (recv c) = false;
  wk_settled : ∀ k s, k ≠ sid → streams c !! k = Some s → stream_settled None false k s;
  wk_last : last_client_stream (recv c0) <= last_client_stream (recv c);
  wk_others : ∀ k, k ≠ sid → streams c !! k = streams c0 !! k;
  wk_closed : sid <= last_client_stream (recv c0) → streams c0 !! sid = None →
    streams c !! sid = None;
  wk_dispatched : dispatched c = dispatched c0;
}.

(** ** Steps that do not touch what the invariant is about *)

Lemma mid_frames c o : conn_mid c → conn_mid (frames c o).
Proof. unfold frames. case_if; [done|]. intros []. by split. Qed.

Lemma working_frames c0 c sid o : working c0 c sid → working c0 (frames c o) sid.
Proof.
  unfold frames. case_if; [done|]. intros [[] ? ? ? ? ? ? ?]. by split; [split|..].
Qed.

Lemma frames_dec c o : dec (frames c o) = dec c.
Proof. unfold frames. by case_if. Qed.

Lemma frames_streams c o : streams (frames c o) = streams c.
Proof. unfold frames. by case_if. Qed.

(** ** Dropping a stream *)

Lemma mid_streams_nonneg c : conn_mid c →
  map_Forall (fun _ s => 0 <= body_size s) (streams c) ∧
  map_Forall (fun _ s => 0 <= header_charge s) (streams c).
Proof.
  intros [_ Hs _ _ _ _ _]. split; intros k s Hk.
  - apply zlen_nonneg.
  - apply (ok_charge _ _ _ _ _ (Hs k s Hk)).
Qed.

Lemma accounted_delete c sid s :
  conn_mid c → streams c !! sid = Some s →
  accounted (saturating_sub (total_buffered (recv c)) (zlen (body s)))
    (saturating_sub (pending_header_bytes (recv c)) (header_charge s))
    (per_conn_request_body (recv c)) (pending_header_mem (recv c)) (delete sid (streams c)).
Proof.
  intros Hm Hs. pose proof (mid_streams_nonneg c Hm) as [Hb Hh].
  pose proof (map_Forall_delete _ _ sid Hb) as Hb'. pose proof (map_Forall_delete _ _ sid Hh) as Hh'.
  apply (sum_map_nonneg body_size) in Hb'. apply (sum_map_nonneg header_charge) in Hh'.
  destruct (mid_accounted c Hm) as [A1 A2 A3 A4].
  pose proof (sum_map_delete body_size _ _ _ Hs). pose proof (sum_map_delete header_charge _ _ _ Hs).
  assert (0 <= body_size s) by apply zlen_nonneg.
  assert (0 <= header_charge s) by apply (Hh sid s Hs).
  change (zlen (body s)) with (body_size s). unfold saturating_sub. split; lia.
Qed.

Lemma dispatch_delete last ss running ds sid :
  dispatch_ok last ss running ds → dispatch_ok last (delete sid ss) running ds.
Proof.
  intros [H1 H2 H3]. split; [done| |done]. intros k Hk. destruct (H2 k Hk) as [? Hn]. split; [done|].
  rewrite lookup_delete_None. by right.
Qed.

Lemma drop_streams c sid : streams (drop_receiving c sid) = delete sid (streams c).
Proof.
  unfold drop_receiving, state.drop_receiving. destruct (streams c !! sid) eqn:E; [done|].
  cbn. by rewrite delete_id.
Qed.

Lemma working_drop c0 c sid : working c0 c sid → working c0 (drop_receiving c sid) sid.
Proof.
  intros W. pose proof (drop_streams c sid) as Hs. unfold drop_receiving, state.drop_receiving in *.
  destruct (streams c !! sid) as [s|] eqn:E; cycle 1.
  { destruct W as [[] ? ? ? ? ? ? ?]. by split. }
  pose proof (wk_mid _ _ _ W) as Hm. pose proof (accounted_delete c sid s Hm E).
  destruct W as [[] ? ? ? ? ? ? ?]. split; try done.
  - split; try done; [by apply map_Forall_delete|by apply dispatch_delete].
  - cbn. intros k st Hk Hl. rewrite lookup_delete_ne in Hl by done. eauto.
  - cbn. intros k Hk. rewrite lookup_delete_ne by done. eauto.
  - cbn. intros ? ?. apply lookup_delete_eq.
Qed.

Lemma drop_dec c sid : dec (drop_receiving c sid) = dec c.
Proof.
  unfold drop_receiving. by destruct (state.drop_receiving _ _ _ _) as [[? ?] ?].
Qed.

Lemma working_teardown c0 c sid : working c0 c sid → working c0 (teardown_receiving c sid) sid.
Proof.
  intros W%working_drop. unfold teardown_receiving, state.teardown_receiving, drop_receiving in *.
  destruct (state.drop_receiving _ _ _ _) as [[r ss] b]. destruct W as [[] ? ? ? ? ? ? ?].
  by split; [split|..].
Qed.

Lemma teardown_streams c sid : streams (teardown_receiving c sid) = delete sid (streams c).
Proof.
  rewrite <-drop_streams. unfold teardown_receiving, state.teardown_receiving, drop_receiving.
  by destruct (state.drop_receiving _ _ _ _) as [[r ss] b].
Qed.

Lemma teardown_dec c sid : dec (teardown_receiving c sid) = dec c.
Proof.
  unfold teardown_receiving. by destruct (state.teardown_receiving _ _ _ _) as [[? ?] ?].
Qed.

(** ** Ending the work on a stream *)

(** The stream is gone, or it has nothing pending. *)
Lemma working_done c0 c sid :
  working c0 c sid →
  (∀ s, streams c !! sid = Some s → stream_settled None false sid s) →
  frame_ok c0 c (dec c) None.
Proof.
  intros [Hm Ho Hd Hs Hl Hot Hc Hdi] Hsid. split; try done.
  - split; [done|..].
    + intros k s Hk. rewrite Ho, Hd. destruct (decide (k = sid)) as [->|]; eauto.
    + congruence.
    + done.
  - unfold open_block. by rewrite Ho.
  - intros k Hk Hn. destruct (decide (k = sid)) as [->|]; [auto|]. by rewrite Hot.
  - by left.
Qed.

(** The same with one more request dispatched. *)
Lemma working_dispatched c0 c sid x :
  working c0 c sid → streams c !! sid = None → sid <= last_client_stream (recv c) →
  x.1.1 = sid → sid ∉ sids (dispatched c) →
  frame_ok c0
    (c <| dispatched := dispatched c ++ [x] |> <| inflight := inflight c + 1 |>
       <| inflight_sids := {[sid]} ∪ inflight_sids c |>) (dec c) None.
Proof.
  intros W Hn Hl Hx Hnew. pose proof (working_done c0 c sid W) as Hd.
  destruct Hd as [[[] ? ? ?] ? ? ? ? ?]; [by rewrite Hn|].
  assert (Hs : sids (dispatched c ++ [x]) = sids (dispatched c) ++ [sid]).
  { unfold sids. by rewrite fmap_app, <-Hx. }
  split; try done.
  - split; try done. split; try done. cbn.
    destruct mid_dispatch0 as [D1 D2 D3]. split; rewrite Hs.
    + apply NoDup_app. split_and!; [done| |apply NoDup_singleton].
      intros y Hy ->%list_elem_of_singleton. done.
    + intros k [Hk | ->%list_elem_of_singleton]%elem_of_app; [by apply D2|done].
    + intros k [->%elem_of_singleton | Hk%D3]%elem_of_union; apply elem_of_app;
        [right; by apply list_elem_of_singleton|by left].
  - right. cbn. exists x. f_equal. apply (wk_dispatched _ _ _ W).
Qed.

Lemma goaway_stop c code c' o : goaway c code = (c', o) → o = StopReading.
Proof. unfold goaway. destruct (goaway_last_stream_id _). by intros [= _ <-]. Qed.

Lemma working_mark_cancelled c0 c sid :
  working c0 c sid → working c0 (mark_cancelled c sid) sid.
Proof.
  intros [[] ? ? ? ? ? ? ?]. destruct mid_dispatch0 as [D1 D2 D3].
  assert (D3' : ∀ k, k ∈ inflight_sids c ∖ {[sid]} → k ∈ sids (dispatched c)).
  { intros k [Hk _]%elem_of_difference. by apply D3. }
  unfold mark_cancelled. cbv zeta. case_if; (split; [split|..]; done).
Qed.

Lemma mark_cancelled_streams c sid :
  streams (mark_cancelled c sid) = streams c ∧ dec (mark_cancelled c sid) = dec c.
Proof. unfold mark_cancelled. cbv zeta. by case_if. Qed.

Lemma abort_handler_ok c0 c sid now c' o :
  working c0 c sid → streams c !! sid = None → abort_handler c now sid = (c', o) →
  o ≠ StopReading → frame_ok c0 c' (dec c) None.
Proof.
  intros W Hn Ha Ho. assert (Hw : working c0 c' sid ∧ streams c' = streams c ∧ dec c' = dec c).
  { unfold abort_handler in Ha. case_match; [|by simplify_eq].
    apply working_mark_cancelled in W. destruct (mark_cancelled_streams c sid) as [<- <-].
    set (c1 := mark_cancelled c sid) in *. clearbody c1.
    destruct (charge_inflight_reset_at _ now) as [r ex] eqn:Er. destruct ex; [by apply goaway_stop in Ha|].
    unfold charge_inflight_reset_at in Er. simplify_eq. split_and!; try done.
    destruct W as [[] ? ? ? ? ? ? ?]. by split; [split|..]. }
  destruct Hw as (W' & Hs & Hd). rewrite <-Hd. eapply working_done; [done|].
  rewrite Hs, Hn. done.
Qed.

Lemma rst_ok c0 c sid now code c' o :
  working c0 c sid → rst c now sid code = (c', o) → o ≠ StopReading →
  frame_ok c0 c' (dec c) None.
Proof.
  intros W Hr Ho. unfold rst in Hr. apply (abort_handler_ok c0) in Hr.
  - by rewrite teardown_dec, frames_dec in Hr.
  - by apply working_teardown, working_frames.
  - rewrite teardown_streams. apply lookup_delete_eq.
  - done.
Qed.

(** ** Encoding *)

Lemma encode_block_ok m e fs :
  encoder.encoder_inv e → encoder.pending_ok e →
  table_size (encoder.dynamic e) <= encoder.max_size e → hpack_string.memo_ok m →
  let '(m', e', _) := encoder.encode_block m e fs in
  encoder.encoder_inv e' ∧ encoder.pending_ok e' ∧
  table_size (encoder.dynamic e') <= encoder.max_size e' ∧ hpack_string.memo_ok m'.
Proof.
  revert m e. induction fs as [|[n v] fs IH]; intros m e Hi Hp Hf Hm; [done|].
  cbn [encoder.encode_block]. pose proof (encoder.encode_header_inv m e n v Hi Hp Hf) as Hh.
  pose proof (encode_header_wire m e n v Hm) as Hw. destruct (encoder.emit_size_update e) as [e1 u].
  destruct Hw as (m1 & Hm1 & E). rewrite E in *. destruct Hh as (? & ? & ? & _).
  specialize (IH m1 _ H0 H1 H2 Hm1).
  by destruct (encoder.encode_block m1 _ fs) as [[m2 e2] o2].
Qed.

Lemma working_encode c0 c sid fs c' blk :
  working c0 c sid → encode c fs = (c', blk) →
  working c0 c' sid ∧ streams c' = streams c ∧ dec c' = dec c ∧ recv c' = recv c ∧ peer c' = peer c.
Proof.
  intros [[] ? ? ? ? ? ? ?] He. unfold encode in He. destruct mid_hpack0.
  pose proof (encode_block_ok (memo c) (enc c) fs) as H'.
  destruct (encoder.encode_block (memo c) (enc c) fs) as [[m e] b]. simplify_eq.
  destruct H' as (? & ? & ? & ?); [done..|]. by split_and!.
Qed.

Lemma reject_too_large_ok c0 c sid now status open c' o :
  working c0 c sid → reject_too_large c now sid status open = (c', o) → o ≠ StopReading →
  frame_ok c0 c' (dec c) None.
Proof.
  intros W Hr Ho. unfold reject_too_large in Hr. destruct (encode c _) as [c1 blk] eqn:E.
  apply (working_encode c0 c sid) in E as (W1 & _ & Hd & _); [|done].
  apply (working_frames c0 c1 sid (frame.write_frame frame.kind.HEADERS
    (Z.lor frame.flags.END_HEADERS frame.flags.END_STREAM) sid blk)) in W1 as W2.
  rewrite <-Hd. destruct open.
  - apply (rst_ok c0) in Hr; [|done..]. by rewrite frames_dec in Hr.
  - simplify_eq. rewrite <-(frames_dec c1 (frame.write_frame frame.kind.HEADERS
      (Z.lor frame.flags.END_HEADERS frame.flags.END_STREAM) sid blk)).
    rewrite <-(drop_dec _ sid). eapply working_done; [by apply working_drop|].
    intros s. by rewrite drop_streams, lookup_delete_eq.
Qed.

(** ** Dispatching *)

(** A stream that is being received was not dispatched. *)
Lemma mid_not_dispatched c sid s :
  conn_mid c → streams c !! sid = Some s → sid ∉ sids (dispatched c).
Proof.
  intros Hm Hs Hin. apply (disp_closed _ _ _ _ (mid_dispatch _ Hm)) in Hin as [_ Hn]. congruence.
Qed.

(** Taking a stream off the map with its accounting returned, as [complete] does. *)
Lemma working_take c0 c sid s :
  working c0 c sid → streams c !! sid = Some s →
  working c0 (c <| streams := delete sid (streams c) |>
                <| recv := release_stream ((recv c) <| no_progress_frames := 0 |>) s |>) sid.
Proof.
  intros W E. pose proof (accounted_delete c sid s (wk_mid _ _ _ W) E).
  destruct W as [[] ? ? ? ? ? ? ?]. split; try done.
  - split; try done; [by apply map_Forall_delete|by apply dispatch_delete].
  - cbn. intros k st Hk Hl. rewrite lookup_delete_ne in Hl by done. eauto.
  - cbn. intros k Hk. rewrite lookup_delete_ne by done. eauto.
  - cbn. intros ? ?. apply lookup_delete_eq.
Qed.

Lemma complete_ok c0 c sid now c' o :
  working c0 c sid → complete c now sid = (c', o) → o ≠ StopReading →
  frame_ok c0 c' (dec c) None.
Proof.
  intros W Hr Ho. unfold complete in Hr. destruct (streams c !! sid) as [s|] eqn:E; cycle 1.
  { simplify_eq. eapply working_done; [done|]. by rewrite E. }
  pose proof (mid_not_dispatched c sid s (wk_mid _ _ _ W) E) as Hnew.
  assert (Hid : sid <= last_client_stream (recv c)).
  { apply (ok_id _ _ _ _ _ (mid_streams _ (wk_mid _ _ _ W) sid s E)). }
  apply (working_take c0 c sid s) in W; [|done].
  set (c1 := c <| streams := _ |> <| recv := _ |>) in *.
  assert (H1 : streams c1 !! sid = None ∧ dec c1 = dec c ∧ dispatched c1 = dispatched c ∧
    last_client_stream (recv c1) = last_client_stream (recv c))
    by (split_and!; try done; apply lookup_delete_eq).
  clearbody c1. destruct H1 as (Hn & Hd & Hdi & Hl). rewrite <-Hd. rewrite <-Hl in Hid.
  rewrite <-Hdi in Hnew. case_match.
  { apply (rst_ok c0) in Hr; [done| |done]. destruct W as [[] ? ? ? ? ? ? ?]. by split. }
  destruct (build_request _ s) as [b req]. set (c2 := _ <| budget := b |>) in Hr.
  assert (W2 : working c0 c2 sid) by (destruct W as [[] ? ? ? ? ? ? ?]; by split).
  destruct req as [req|]; [|by apply (rst_ok c0) in Hr].
  injection Hr as <- <-. by apply (working_dispatched c0 c2 sid (sid, _, req)).
Qed.

(** ** Replacing a stream *)

Lemma accounted_put tb ph cb hm ss sid (s s' : StreamState) :
  ss !! sid = Some s → body_size s' = body_size s → header_charge s' = header_charge s →
  accounted tb ph cb hm ss → accounted tb ph cb hm (<[sid := s']> ss).
Proof.
  intros Hs Hb Hc [A1 A2 A3 A4]. split; try done.
  - rewrite (sum_map_insert body_size _ _ _ s' Hs). lia.
  - rewrite (sum_map_insert header_charge _ _ _ s' Hs). lia.
Qed.

Lemma dispatch_put last ss running ds sid s :
  sid ∉ sids ds → dispatch_ok last ss running ds →
  dispatch_ok last (<[sid := s]> ss) running ds.
Proof.
  intros Hn [D1 D2 D3]. split; try done. intros k Hk. destruct (D2 k Hk) as [? Hk'].
  split; [done|]. rewrite lookup_insert_ne; [done|]. by intros ->.
Qed.

(** A stream that is there gets a state with the same charges. *)
Lemma working_put c0 c sid s s' :
  working c0 c sid → streams c !! sid = Some s →
  body_size s' = body_size s → header_charge s' = header_charge s →
  stream_ok (last_client_stream (recv c)) (max_request_body (recv c))
    (our_initial_window (recv c)) sid s' →
  working c0 (put_stream c sid s') sid.
Proof.
  intros W E Hb Hc Hok. pose proof (mid_not_dispatched c sid s (wk_mid _ _ _ W) E) as Hnew.
  destruct W as [[] ? ? ? ? ? Hcl ?]. split; try done.
  - split; try done; [|by eapply accounted_put|by apply dispatch_put].
    by apply map_Forall_insert_2.
  - cbn. intros k st Hk Hl. rewrite lookup_insert_ne in Hl by done. eauto.
  - cbn. intros k Hk. rewrite lookup_insert_ne by done. eauto.
  - intros Hk Hn. rewrite (Hcl Hk Hn) in E. done.
Qed.

(** A stream that is there, or a new one. *)
Definition present_or_new (c0 c : Conn) (sid : Z) (s : StreamState) : Prop :=
  streams c !! sid = Some s ∨
  streams c !! sid = None ∧ body s = [] ∧ header_charge s = 0 ∧
    last_client_stream (recv c0) < sid ∧ conn_mid c0.

Lemma working_put_opened c0 c sid s s' :
  working c0 c sid → present_or_new c0 c sid s →
  body_size s' = body_size s → header_charge s' = header_charge s →
  stream_ok (last_client_stream (recv c)) (max_request_body (recv c))
    (our_initial_window (recv c)) sid s' →
  working c0 (put_stream c sid s') sid.
Proof.
  intros W [E|(E & Hb0 & Hc0 & Hlt & M0)] Hb Hc Hok; [by eapply working_put|].
  assert (Hnew : sid ∉ sids (dispatched c)).
  { rewrite (wk_dispatched _ _ _ W). intros [Hle _]%(disp_closed _ _ _ _ (mid_dispatch _ M0)). lia. }
  unfold body_size in Hb. rewrite Hb0 in Hb. rewrite Hc0 in Hc. change (zlen []) with 0 in Hb.
  destruct W as [[Hlim Hst Hacc Hdsp Hhp Hwin Hdis] Hop Hdg Hset Hlast Hoth Hcl Hdpd].
  split; try done.
  - split; try done; [by apply map_Forall_insert_2| |by apply dispatch_put].
    destruct Hacc as [A1 A2 A3 A4]. cbn. split; try done.
    + rewrite sum_map_insert_new by done. unfold body_size at 1. lia.
    + rewrite sum_map_insert_new by done. lia.
  - cbn. intros k st Hk Hl. rewrite lookup_insert_ne in Hl by done. eauto.
  - cbn. intros k Hk. rewrite lookup_insert_ne by done. eauto.
  - lia.
Qed.

(** A HEADERS frame with a new id. *)
Lemma working_new_id c sid :
  working c c sid → last_client_stream (recv c) < sid →
  working c (c <| recv := (recv c) <| last_client_stream := sid |> |>) sid.
Proof.
  intros [[Hlim Hst Hacc [D1 D2 D3] Hhp Hwin Hdis] Hop Hdg Hset Hlast Hoth Hcl Hdpd] Hlt.
  split; try done; [|cbn; lia].
  split; try done.
  - intros k s Hk. destruct (Hst k s Hk) as [[? [? ?]] ? ? ? ? ? ?]. split; try done. cbn. lia.
  - cbn. split; try done. intros k Hk. destruct (D2 k Hk). split; [lia|done].
Qed.

(** Between two frames with no header block open. *)
Lemma inv_working c sid : conn_inv c → open_header_block (recv c) = None → working c c sid.
Proof.
  intros [Hm Hs _ Hc] Ho. specialize (Hc Ho). rewrite Ho, Hc in Hs. split; eauto; done.
Qed.

End inv.
