(* ===== verification/H2RecvFrames.v ===== *)
(** * Every frame keeps the invariant

    One lemma per arm of [process_frame] of [crates/hj-h2/src/server/recv.rs], and the
    properties of the whole function. *)

From stdpp Require Import base list gmap strings.
From Stdlib Require Import ZArith Lia.
From S2P Require Import Prelude RustStr HttpUtil Budget H2Frame HpackString.
From S2P Require Import HpackTable HpackEncoder HpackDecoder H2State H2Request H2Recv H2RecvInv.

Import headers state request recv.
#[local] Open Scope record_scope.

Section frames.
Context `{HttpCrate} (size_of_StreamState : nat).

(** ** The end of a request block *)

Lemma refuse_if_marked_ok c0 c sid now c' o :
  working c0 c sid → refuse_if_marked c now sid = Some (c', o) → o ≠ StopReading →
  frame_ok c0 c' (dec c) None.
Proof.
  intros W Hr Ho. unfold refuse_if_marked in Hr. destruct (streams c !! sid) as [s|] eqn:E; [|done].
  destruct (refused s) eqn:Er; [|done]. injection Hr as Hr.
  apply (rst_ok c0) in Hr; [done| |done].
  assert (Hu : uncharged s).
  { eapply ok_uncharged; [|by right]. by apply (mid_streams _ (wk_mid _ _ _ W)). }
  destruct Hu as (Hb & Hc & _).
  pose proof (accounted_delete c sid s (wk_mid _ _ _ W) E) as Ha. rewrite Hb, Hc in Ha.
  destruct W as [[Hlim Hst Hacc Hdsp Hhp Hwin Hdis] Hop Hdg Hset Hlast Hoth Hcl Hdpd].
  split; try done.
  - split; try done; [by apply map_Forall_delete| |by apply dispatch_delete].
    pose proof (mid_streams_nonneg c) as Hnn.
    destruct Ha as [A1 A2 A3 A4]. destruct Hacc as [B1 B2 B3 B4]. cbn.
    pose proof (sum_map_delete body_size _ _ _ E) as S1.
    pose proof (sum_map_delete header_charge _ _ _ E) as S2.
    unfold body_size in S1 at 2. rewrite Hb in S1. rewrite Hc in S2. change (zlen []) with 0 in S1.
    split; lia.
  - cbn. intros k st Hk Hl. rewrite lookup_delete_ne in Hl by done. eauto.
  - cbn. intros k Hk. rewrite lookup_delete_ne by done. eauto.
  - cbn. intros ? ?. apply lookup_delete_eq.
Qed.

Lemma reject_early_ok c0 c sid now c' o :
  working c0 c sid → reject_early c now sid = Some (c', o) → o ≠ StopReading →
  frame_ok c0 c' (dec c) None.
Proof.
  intros W Hr Ho. unfold reject_early in Hr. destruct (streams c !! sid) as [s|]; [|done].
  destruct (end_stream s); [done|]. destruct (early_reject_response _ s) as [[status hs]|]; [|done].
  destruct (encode c _) as [c1 blk] eqn:E. injection Hr as Hr.
  apply (working_encode c0 c sid) in E as (W1 & _ & Hd & _); [|done].
  apply (rst_ok c0) in Hr; [|by apply working_frames|done]. by rewrite frames_dec, Hd in Hr.
Qed.

(** The charge of a request waiting for its body. *)
Lemma fields_charge_nonneg (l : HeaderMap) acc :
  0 <= acc →
  0 <= fold_left (fun sum f => saturating_add sum (zlen f.1 + zlen f.2 + DECODED_FIELD_OVERHEAD))
         l acc.
Proof.
  revert acc. induction l as [|f l IH]; intros acc Hacc; [done|]. cbn [fold_left].
  apply IH. unfold saturating_add, DECODED_FIELD_OVERHEAD, U64_MAX.
  pose proof (zlen_nonneg f.1). pose proof (zlen_nonneg f.2). lia.
Qed.

Lemma pending_header_charge_range s : 0 <= pending_header_charge size_of_StreamState s < 2 ^ 32.
Proof.
  unfold pending_header_charge. cbv zeta.
  pose proof (fields_charge_nonneg (headers s) 0 ltac:(lia)) as Hf. set (fields := fold_left _ _ _) in *.
  clearbody fields. unfold saturating_add, DECODED_FIELD_OVERHEAD, U64_MAX.
  destruct (path s), (authority s) as [v|]; try pose proof (zlen_nonneg v); case_if; lia.
Qed.

Lemma reserve_on_kept b s n ok b' s' :
  reserve_on b s n = (ok, b', s') →
  header_block s' = header_block s ∧ headers_done s' = headers_done s ∧
  end_stream s' = end_stream s ∧ refused s' = refused s ∧ header_charge s' = header_charge s ∧
  body s' = body s ∧ recv_window s' = recv_window s.
Proof.
  unfold reserve_on. destruct b as [bd|]; [|by intros [= <- <- <-]].
  destruct (budget.lease_reserve _ _ n) as [[ok1 bd1] held]. by intros [= <- <- <-].
Qed.

Lemma maybe_send_100_continue_ok c0 c sid s :
  working c0 c sid →
  let c' := maybe_send_100_continue c sid s in
  working c0 c' sid ∧ streams c' = streams c ∧ dec c' = dec c.
Proof.
  intros W. unfold maybe_send_100_continue. cbv zeta. case_if; [|done].
  destruct (encode c _) as [c1 blk] eqn:E. apply (working_encode c0 c sid) in E as (W1 & Hs & Hd & _); [|done].
  split_and!; [by apply working_frames| |by rewrite frames_dec].
  rewrite <-Hs. unfold frames. by case_if.
Qed.

(** Charging the decoded headers to a stream. *)
Lemma working_admit c0 c sid s r b s' :
  working c0 c sid → streams c !! sid = Some s → headers_done s = true → refused s = false →
  uncharged s →
  admit_pending_headers (recv c) (budget c) s (pending_header_charge size_of_StreamState s)
  = (true, r, b, s') →
  working c0 (put_stream (c <| recv := r |> <| budget := b |>) sid s') sid ∧
  headers_done s' = true ∧ refused s' = false ∧ end_stream s' = end_stream s ∧
  header_block s' = header_block s.
Proof.
  intros W E Hd Hr (Hb & Hc & _) Ha. unfold admit_pending_headers in Ha.
  pose proof (pending_header_charge_range s) as Hch.
  set (charge := pending_header_charge _ s) in *. clearbody charge.
  case_match eqn:Hcap; [done|]. destruct (reserve_on _ s charge) as [[ok b1] s1] eqn:Er.
  destruct ok; [|done]. apply reserve_on_kept in Er as (K1 & K2 & K3 & K4 & K5 & K6 & K7).
  injection Ha as <- <- <-. cbn. split_and!; try congruence.
  pose proof (mid_not_dispatched c sid s (wk_mid _ _ _ W) E) as Hnew.
  pose proof (mid_streams_nonneg c (wk_mid _ _ _ W)) as [_ Hnn].
  destruct W as [[Hlim Hst Hacc Hdsp Hhp Hwin Hdis] Hop Hdg Hset Hlast Hoth Hcl Hdpd].
  split; try done.
  - destruct Hlim. destruct (Hst sid s E) as [S1 S2 S3 S4 S5 S6 S7].
    destruct Hacc as [A1 A2 A3 A4]. pose proof (sum_map_nonneg header_charge _ Hnn).
    assert (Hsat : saturating_add (pending_header_bytes (recv c)) charge
      = pending_header_bytes (recv c) + charge) by (unfold saturating_add, U64_MAX; lia).
    split; try done; cbn; [..|by apply dispatch_put].
    + apply map_Forall_insert_2; [|done].
      unfold body_size in *.
      split; cbn; unfold body_size in *; cbn; rewrite ?K1, ?K2, ?K4, ?K6, ?K7, ?Hd, ?Hr; try done.
      by intros [|].
    + rewrite Hsat in *. split; try done.
      * rewrite (sum_map_insert body_size _ _ _ _ E). unfold body_size at 2 3. cbn. rewrite K6. lia.
      * rewrite (sum_map_insert header_charge _ _ _ _ E). cbn. lia.
      * apply andb_false_iff in Hcap as [Hz%negb_false_iff%Z.eqb_eq|Hm%Z.ltb_ge]; lia.
  - cbn. intros k st Hk Hl. rewrite lookup_insert_ne in Hl by done. eauto.
  - cbn. intros k Hk. rewrite lookup_insert_ne by done. eauto.
  - intros Hk Hn. rewrite (Hcl Hk Hn) in E. done.
Qed.

(** The admission that failed left the charges alone. *)
Lemma admit_failed r b s charge r' b' s' :
  admit_pending_headers r b s charge = (false, r', b', s') →
  r' = r ∧ header_block s' = header_block s ∧ headers_done s' = headers_done s ∧
  refused s' = refused s ∧ header_charge s' = header_charge s ∧ body s' = body s ∧
  recv_window s' = recv_window s.
Proof.
  unfold admit_pending_headers. case_match; [by intros [= <- <- <-]|].
  destruct (reserve_on b s charge) as [[ok b1] s1] eqn:Er. apply reserve_on_kept in Er.
  destruct ok; [done|]. intros [= <- <- <-]. intuition.
Qed.

Lemma working_budget c0 c sid b : working c0 c sid → working c0 (c <| budget := b |>) sid.
Proof. intros [[] ? ? ? ? ? ? ?]. by split. Qed.

(** What [finish_block] is given when the block decoded. *)
Definition decoded_stream (c : Conn) (sid : Z) : Prop :=
  ∀ s, streams c !! sid = Some s → headers_done s = true ∧ header_block s = [] ∧
    (end_stream s = false → uncharged s).

Lemma admit_or_complete_ok c0 c sid now c' o :
  working c0 c sid → decoded_stream c sid → refuse_if_marked c now sid = None →
  admit_or_complete size_of_StreamState c now sid = (c', o) → o ≠ StopReading →
  frame_ok c0 c' (dec c) None.
Proof.
  intros W Hdec Href Hr Ho. unfold admit_or_complete, refuse_if_marked in *.
  destruct (streams c !! sid) as [s|] eqn:E; cycle 1.
  { simplify_eq. eapply working_done; [done|]. by rewrite E. }
  destruct (Hdec s E) as (Hd & Hb & Hu). destruct (refused s) eqn:Hrf; [done|].
  destruct (end_stream s) eqn:He; [by apply (complete_ok c0) in Hr|].
  destruct (admit_pending_headers _ _ s _) as [[[ok r] b] s'] eqn:Ea. destruct ok.
  - eapply working_admit in Ea as (W1 & K1 & K2 & K3 & K4); eauto.
    apply (maybe_send_100_continue_ok c0 _ sid s') in W1 as (W2 & Hs & Hdc).
    injection Hr as <- _. change (dec c) with (dec (put_stream (c <| recv := r |> <| budget := b |>) sid s')).
    rewrite <-Hdc. eapply working_done; [done|]. rewrite Hs. cbn. intros s1 Hs1.
    rewrite lookup_insert_eq in Hs1. injection Hs1 as <-. intros HH.
    rewrite K1, K2, K3, K4, He, Hb in HH. by destruct HH as [|[|[|]]].
  - apply admit_failed in Ea as (-> & K1 & K2 & K3 & K4 & K5 & K6).
    apply (working_budget c0 c sid b) in W as W1.
    apply (rst_ok c0) in Hr; [done| |done]. eapply working_put; [exact W1|exact E|..|].
    + unfold body_size. by rewrite K5.
    + done.
    + destruct (mid_streams _ (wk_mid _ _ _ W) sid s E).
      split; unfold body_size in *; cbn; rewrite ?K1, ?K2, ?K3, ?K4, ?K5, ?K6, ?Hd, ?Hrf; try done.
      by intros [|].
Qed.

Lemma finish_block_ok c0 c sid now decoded c' o :
  working c0 c sid → (decoded = DecodedOk → decoded_stream c sid) →
  finish_block size_of_StreamState c now sid decoded = (c', o) → o ≠ StopReading →
  frame_ok c0 c' (dec c) None.
Proof.
  intros W Hdec Hr Ho. unfold finish_block in Hr. destruct decoded.
  - destruct (refuse_if_marked c now sid) as [[c1 o1]|] eqn:Em.
    { simplify_eq. by eapply refuse_if_marked_ok. }
    destruct (declared_body_too_large _ _); [by eapply reject_too_large_ok|].
    destruct (reject_early c now sid) as [[c1 o1]|] eqn:Ee.
    { simplify_eq. by eapply reject_early_ok. }
    eapply admit_or_complete_ok; eauto.
  - by apply goaway_stop in Hr.
  - destruct (refuse_if_marked c now sid) as [[c1 o1]|] eqn:Em.
    { simplify_eq. by eapply refuse_if_marked_ok. }
    by eapply reject_too_large_ok.
  - apply (rst_ok c0) in Hr; [|by apply working_drop|done]. by rewrite drop_dec in Hr.
Qed.

(** ** Header blocks *)

Lemma hpack_ok_decode d e m block :
  hpack_ok d e m → octets block → hpack_ok (decoder.decode_octets d block).1.1 e m.
Proof.
  intros [H1 H2 H3 H4 H5 H6] Ho.
  destruct (decoder.decode_octets_inv d block H1 Ho H2) as [Hi [_ Hl]].
  split; try done. by rewrite Hl.
Qed.

Lemma working_decode c0 c sid block :
  working c0 c sid → octets block →
  working c0 (c <| dec := (decoder.decode_octets (dec c) block).1.1 |>) sid.
Proof.
  intros [[Hlim Hst Hacc Hdsp Hhp Hwin Hdis] Hop Hdg Hset Hlast Hoth Hcl Hdpd] Ho.
  split; try done. split; try done. by apply hpack_ok_decode.
Qed.

(** The work on a frame that leaves the header block of its stream open. *)
Lemma working_open c0 c c' sid blk :
  working c0 c sid → conn_mid c' → streams c' = streams c → dispatched c' = dispatched c →
  last_client_stream (recv c') = last_client_stream (recv c) → dec c' = dec c →
  open_header_block (recv c') = Some sid →
  (discarding_header_block (recv c') = true ∧ discard_header_block (recv c') = blk ∧
     streams c !! sid = None ∨
   discarding_header_block (recv c') = false ∧ ∃ s, streams c !! sid = Some s ∧
     header_block s = blk ∧ (headers_done s = true → end_stream s = true)) →
  frame_ok c0 c' (dec c) (Some blk).
Proof.
  intros [Hm Ho Hd Hs Hl Hot Hc Hdi] Hm' Es Ed El Ec Eo Hblk. split; try done.
  - split; [done|..].
    + intros k s Hk Hp. rewrite Es in Hk. rewrite Eo. destruct (decide (k = sid)) as [->|Hne].
      * destruct Hblk as [(_ & _ & ?)|[? _]]; [congruence|done].
      * by destruct (Hs k s Hne Hk Hp).
    + intros k Hk. rewrite Eo in Hk. injection Hk as <-.
      rewrite Es. destruct Hblk as [(? & _ & _)|[_ (s & ? & _ & ?)]]; eauto.
    + congruence.
  - unfold open_block. rewrite Eo, Es.
    destruct Hblk as [(-> & -> & _)|[-> (s & -> & -> & _)]]; done.
  - by rewrite El.
  - intros k Hk Hn. rewrite Es. destruct (decide (k = sid)) as [->|]; [auto|]. by rewrite Hot.
  - left. congruence.
Qed.

(** What a header fragment makes of the decoder and of the open block. *)
Definition block_step (d : decoder.Decoder) (end_headers : bool) (block : list Z)
    : decoder.Decoder * option (list Z) :=
  if end_headers then ((decoder.decode_octets d block).1.1, None) else (d, Some block).

Lemma discard_block_ok c0 c now sid end_headers block code c' o :
  working c0 c sid → streams c !! sid = None → octets block → zlen block <= MAX_HEADER_BLOCK →
  discard_block c now sid end_headers block code = (c', o) → o ≠ StopReading →
  let '(d, blk) := block_step (dec c) end_headers block in frame_ok c0 c' d blk.
Proof.
  intros W Hn Hoct Hlen Hr Ho. unfold discard_block, decode_discard_header_block in Hr.
  unfold block_step. destruct end_headers.
  - apply (working_decode c0 c sid block) in W; [|done].
    destruct (decoder.decode_octets (dec c) block) as [[d fs] res]. cbn [fst] in *.
    set (ok := match res with Ok _ => true | Err _ => _ end) in Hr. destruct ok.
    + by apply (rst_ok c0) in Hr.
    + by apply goaway_stop in Hr.
  - injection Hr as <- <-. eapply working_open; [exact W|..]; try done; [|by left].
    destruct W as [[Hlim Hst Hacc Hdsp Hhp Hwin Hdis] _ _ _ _ _ _ _]. by split.
Qed.

Lemma strip_padding_octets p pad block : octets p → strip_padding p pad = Some block → octets block.
Proof. unfold strip_padding. case_if; [done|]. intros Ho [= <-]. by apply Forall_take. Qed.

Lemma pad_length_octets fl payload p pad :
  octets payload → pad_length fl payload = Some (p, pad) → octets p.
Proof.
  unfold pad_length. case_if; [|by intros ? [= <- <-]].
  destruct payload; [done|]. by intros [_ Ho]%Forall_cons [= <- <-].
Qed.

Lemma headers_block_octets fl payload block :
  octets payload → headers_block fl payload = Some block → octets block.
Proof.
  unfold headers_block. intros Ho. destruct (pad_length fl payload) as [[p pad]|] eqn:E; [|done].
  apply pad_length_octets in E; [|done]. case_if; [case_if; [done|]|];
    intros Hs; (eapply strip_padding_octets; [|exact Hs]); auto using Forall_drop.
Qed.

Lemma on_closed_headers_ok c now hdr payload c' o :
  let sid := frame.stream_id hdr in
  working c c sid → streams c !! sid = None → octets payload →
  on_closed_headers c now hdr payload = (c', o) → o ≠ StopReading →
  ∃ block, headers_block (frame.flags hdr) payload = Some block ∧
    let '(d, blk) := block_step (dec c) (has_flag (frame.flags hdr) frame.flags.END_HEADERS) block in
    frame_ok c c' d blk.
Proof.
  intros sid W Hn Hoct Hr Ho. unfold on_closed_headers in Hr. fold sid in Hr.
  destruct (negb _); [by apply goaway_stop in Hr|].
  destruct (headers_block _ payload) as [block|] eqn:Eb; [|by apply goaway_stop in Hr].
  destruct (Z.ltb_spec MAX_HEADER_BLOCK (zlen block)); [by apply goaway_stop in Hr|].
  exists block. split; [done|]. eapply discard_block_ok; eauto. by eapply headers_block_octets.
Qed.

Lemma on_bad_headers_ok c0 c now hdr payload c' o :
  let sid := frame.stream_id hdr in
  working c0 c sid → octets payload →
  on_bad_headers c now hdr payload = (c', o) → o ≠ StopReading →
  ∃ block, headers_block (frame.flags hdr) payload = Some block ∧
    let '(d, blk) := block_step (dec c) (has_flag (frame.flags hdr) frame.flags.END_HEADERS) block in
    frame_ok c0 c' d blk.
Proof.
  intros sid W Hoct Hr Ho. unfold on_bad_headers in Hr. fold sid in Hr.
  destruct (headers_block _ payload) as [block|] eqn:Eb; [|by apply goaway_stop in Hr].
  destruct (Z.ltb_spec MAX_HEADER_BLOCK (zlen block)); [by apply goaway_stop in Hr|].
  exists block. split; [done|]. rewrite <-(drop_dec c sid).
  eapply discard_block_ok; [by apply working_drop| |by eapply headers_block_octets|done|exact Hr|done].
  rewrite drop_streams. apply lookup_delete_eq.
Qed.

(** Decoding into a stream keeps it well-formed. *)
Lemma decode_stream_ok last max_body window sid d s block d' s' r :
  stream_ok last max_body window sid s → decode_block_from d s block = (d', s', r) →
  stream_ok last max_body window sid s' ∧ body_size s' = body_size s ∧
  header_charge s' = header_charge s ∧ d' = (decoder.decode_octets d block).1.1.
Proof.
  intros [S1 S2 S3 S4 S5 S6 S7] Hd.
  apply decode_block_from_spec in Hd as (-> & (K1 & _ & K3 & K4 & K5 & K6 & K7 & K8) & _ & Hmono).
  cbn in *. unfold body_size in *. split_and!; [|by rewrite K6|done|done].
  split; unfold uncharged, body_size in *; rewrite ?K1, ?K4, ?K5, ?K6, ?K7, ?K8; try done.
  intros [Hf|Hf]; apply S7; [left|by right]. destruct (headers_done s); [|done]. by rewrite Hmono in Hf.
Qed.

(** The work stays the work when what it is not about changes. *)
Lemma working_block_closed c0 c sid :
  working c0 c sid →
  working c0 (c <| recv := (recv c) <| open_header_block := None |> |>) sid.
Proof. intros [[] ? ? ? ? ? ? ?]. by split; [split|..]. Qed.

(** END_HEADERS: the block is decoded into the stream, and the request taken from there. *)
Lemma decoded_block_ok c0 c sid s0 s block d s' decoded now c' o :
  working c0 c sid → present_or_new c0 c sid s0 →
  body_size s = body_size s0 → header_charge s = header_charge s0 →
  stream_ok (last_client_stream (recv c)) (max_request_body (recv c))
    (our_initial_window (recv c)) sid s →
  header_block s = [] → (end_stream s = false → headers_done s = false) → octets block →
  decode_block_from (dec c) s block = (d, s', decoded) →
  finish_block size_of_StreamState (put_stream (c <| dec := d |>) sid s') now sid decoded = (c', o) →
  o ≠ StopReading → frame_ok c0 c' (decoder.decode_octets (dec c) block).1.1 None.
Proof.
  intros W Hp Hb Hc Hok Hhb Hend Hoct Hdec Hr Ho.
  pose proof (decode_stream_ok _ _ _ _ _ _ _ _ _ _ Hok Hdec) as (Hok' & Hb' & Hc' & ->).
  pose proof (decode_block_from_spec _ _ _ _ _ _ Hdec) as (_ & K & Hdone & _).
  apply (finish_block_ok c0) in Hr; [done|..|done].
  - eapply working_put_opened; [by apply working_decode|exact Hp|congruence..|exact Hok'].
  - intros Hdk s1 Hs1. cbn in Hs1. rewrite lookup_insert_eq in Hs1. injection Hs1 as <-.
    destruct K as (K1 & _ & K3 & K4 & K5 & K6 & K7 & K8). cbn in *.
    split_and!; [auto|congruence|]. rewrite K3. intros He.
    destruct (ok_uncharged _ _ _ _ _ Hok) as (? & ? & ?); [left; auto|].
    unfold uncharged. split_and!; congruence.
Qed.

(** What [on_good_headers] knows of its stream. *)
Record opens (c0 c : Conn) (sid : Z) (opens_new end_stream : bool) : Prop := {
  opens_id : sid mod 2 = 1 ∧ 0 < sid <= last_client_stream (recv c);
  opens_stream :
    match streams c !! sid with
    | Some s => opens_new = false ∧ header_block s = [] ∧ end_stream = true
    | None => last_client_stream (recv c0) < sid ∧ conn_mid c0
    end;
}.

Lemma opened_stream_ok c0 c sid opens_new es refuse :
  working c0 c sid → opens c0 c sid opens_new es → (opens_new = false → refuse = false) →
  let s := opened_stream c sid refuse in
  present_or_new c0 c sid s ∧ header_block s = [] ∧ (es = false → headers_done s = false) ∧
  stream_ok (last_client_stream (recv c)) (max_request_body (recv c))
    (our_initial_window (recv c)) sid s.
Proof.
  intros W [Hid Hs] Href s. unfold s, opened_stream, present_or_new. destruct (streams c !! sid) as [s0|] eqn:E.
  - destruct Hs as (Hnew & Hb & Hes). rewrite (Href Hnew). split_and!; [by left|done|congruence|].
    by apply (mid_streams _ (wk_mid _ _ _ W)).
  - destruct Hs as [Hlt M0]. pose proof (mid_limits _ (wk_mid _ _ _ W)) as [].
    destruct refuse; (split_and!; [right; by split_and!|done..|]); split; unfold body_size, zlen, MAX_HEADER_BLOCK;
      cbn; try done; lia.
Qed.

(** No END_HEADERS: the stream keeps the fragment. *)
Lemma put_open_ok c0 c sid s s' blk :
  working c0 c sid → present_or_new c0 c sid s →
  body_size s' = body_size s → header_charge s' = header_charge s →
  stream_ok (last_client_stream (recv c)) (max_request_body (recv c))
    (our_initial_window (recv c)) sid s' →
  (headers_done s' = true → end_stream s' = true) → header_block s' = blk →
  frame_ok c0 (put_stream (c <| recv := (recv c) <| open_header_block := Some sid |> |>) sid s')
    (dec c) (Some blk).
Proof.
  intros W Hp Hb Hc Hok He <-. pose proof (working_put_opened c0 c sid s s' W Hp Hb Hc Hok) as W'.
  eapply (working_open c0 (put_stream c sid s')); try done.
  - destruct W' as [[] _ _ _ _ _ _ _]. by split.
  - right. split; [apply W'|]. exists s'. cbn. by rewrite lookup_insert_eq.
Qed.

Lemma on_good_headers_ok c0 c now hdr payload opens_new len accept c' o :
  let sid := frame.stream_id hdr in
  let fl := frame.flags hdr in
  working c0 c sid → opens c0 c sid opens_new (has_flag fl frame.flags.END_STREAM) → octets payload →
  on_good_headers size_of_StreamState c now hdr payload opens_new len accept = (c', o) →
  o ≠ StopReading →
  ∃ block, headers_block fl payload = Some block ∧
    let '(d, blk) := block_step (dec c) (has_flag fl frame.flags.END_HEADERS) block in
    frame_ok c0 c' d blk.
Proof.
  intros sid fl W Hopens Hoct Hr Ho. unfold on_good_headers in Hr. fold sid fl in Hr.
  set (refuse := opens_new && _) in Hr.
  assert (Href : opens_new = false → refuse = false) by (intros E; unfold refuse; by rewrite E).
  clearbody refuse.
  destruct (headers_block fl payload) as [block|] eqn:Eb; [|by apply goaway_stop in Hr].
  apply headers_block_octets in Eb as Hob; [|done].
  pose proof (opened_stream_ok c0 c sid _ _ refuse W Hopens Href) as (Hp & Hhb & Hes & Hok).
  set (s := opened_stream c sid refuse) in *. clearbody s. rewrite Hhb in Hr.
  destruct (Z.ltb_spec MAX_HEADER_BLOCK (zlen (@nil Z) + zlen block)) as [|Hlen]; [by apply goaway_stop in Hr|].
  change (zlen (@nil Z) + zlen block) with (zlen block) in Hlen.
  exists block. split; [done|].
  set (s1 := if has_flag fl frame.flags.END_STREAM then _ else s) in Hr.
  assert (H1 : body_size s1 = body_size s ∧ header_charge s1 = header_charge s ∧
    header_block s1 = [] ∧ (end_stream s1 = false → headers_done s1 = false) ∧
    (headers_done s1 = true → end_stream s1 = true) ∧
    stream_ok (last_client_stream (recv c)) (max_request_body (recv c))
      (our_initial_window (recv c)) sid s1).
  { subst s1. destruct (has_flag fl frame.flags.END_STREAM); split_and!; try done; try by destruct Hok.
    - intros _. by apply Hes.
    - by rewrite Hes. }
  clearbody s1. destruct H1 as (Hb1 & Hc1 & Hhb1 & Hend1 & Hend2 & Hok1).
  unfold block_step. destruct (has_flag fl frame.flags.END_HEADERS).
  - rewrite bool_decide_eq_true_2 in Hr by done.
    destruct (decode_block_from _ s1 block) as [[d s'] decoded] eqn:Ed.
    apply (working_block_closed c0) in W.
    eapply (decoded_block_ok c0 _ sid s s1 block) in Hr; eauto.
  - injection Hr as <- <-. rewrite Hhb1.
    change ([] ++ block) with block.
    eapply (put_open_ok c0 c sid s); try done.
    by destruct Hok1.
Qed.

Lemma on_headers_ok c now hdr payload len accept c' o :
  let sid := frame.stream_id hdr in
  let fl := frame.flags hdr in
  conn_inv c → open_header_block (recv c) = None → 0 < sid → octets payload →
  on_headers size_of_StreamState c now hdr payload len accept = (c', o) → o ≠ StopReading →
  ∃ block, headers_block fl payload = Some block ∧
    let '(d, blk) := block_step (dec c) (has_flag fl frame.flags.END_HEADERS) block in
    frame_ok c c' d blk.
Proof.
  intros sid fl Hinv Hopen Hsid Hoct Hr Ho. pose proof (inv_working c sid Hinv Hopen) as W.
  unfold on_headers in Hr. fold sid fl in Hr. destruct (streams c !! sid) as [s|] eqn:E.
  - rewrite bool_decide_eq_true_2 in Hr by eauto. cbn [negb andb] in Hr. rewrite E in Hr.
    assert (Hs : stream_settled None false sid s).
    { pose proof (inv_settled c Hinv sid s E) as Hs. by rewrite Hopen, (inv_closed c Hinv Hopen) in Hs. }
    assert (Hd : headers_done s = true ∧ header_block s = []).
    { destruct (headers_done s) eqn:?; [|by destruct Hs; auto].
      destruct (header_block s) eqn:Eh; [done|]. by destruct Hs; [left; rewrite Eh|]. }
    destruct Hd as [Hd Hb]. rewrite Hd in Hr.
    destruct (_ || _) eqn:Ebad; [by eapply on_bad_headers_ok|].
    apply orb_false_iff in Ebad as [_ Hes%negb_false_iff].
    eapply on_good_headers_ok; eauto. fold sid fl. split.
    + apply (mid_streams _ (inv_mid _ Hinv) sid s E).
    + by rewrite E.
  - rewrite bool_decide_eq_false_2 in Hr by (intros [? ?]; congruence). cbn [negb andb] in Hr.
    destruct (Z.eqb_spec (sid mod 2) 0) as [|Hodd]; [by apply goaway_stop in Hr|].
    destruct (Z.leb_spec sid (last_client_stream (recv c))) as [|Hlt]; [by eapply on_closed_headers_ok|].
    apply (working_new_id c sid) in W; [|done].
    set (c1 := c <| recv := _ |>) in *.
    destruct (_ || _) eqn:Ebad; [by eapply (on_bad_headers_ok c c1)|].
    eapply (on_good_headers_ok c c1); eauto. fold sid fl. split.
    + cbn. pose proof (Z.mod_pos_bound sid 2). lia.
    + cbn. rewrite E. split; [done|apply Hinv].
Qed.

(** Closing the block that was open on [sid]. *)
Lemma inv_close_block c sid :
  conn_inv c → open_header_block (recv c) = Some sid → discarding_header_block (recv c) = false →
  working c (c <| recv := (recv c) <| open_header_block := None |> |>) sid.
Proof.
  intros [[Hlim Hst Hacc Hdsp Hhp Hwin Hdis] Hs _ _] Ho Hd. split; try done.
  cbn. intros k s Hk E Hp. destruct (Hs k s E Hp). congruence.
Qed.

Lemma inv_close_discard c sid code :
  conn_inv c → open_header_block (recv c) = Some sid →
  working c (c <| recv := (recv c) <| open_header_block := None |>
                                   <| discarding_header_block := false |>
                                   <| discard_header_block := [] |>
                                   <| discard_rst_code := code |> |>) sid.
Proof.
  intros [[Hlim Hst Hacc Hdsp Hhp Hwin Hdis] Hs _ _] Ho. split; try done.
  cbn. intros k s Hk E Hp. destruct (Hs k s E Hp). congruence.
Qed.

(** A block that is open can be taken for one that is opened again. *)
Lemma reopen c sid :
  open_header_block (recv c) = Some sid →
  c = c <| recv := (recv c) <| open_header_block := None |> |>
        <| recv := (recv c) <| open_header_block := None |> <| open_header_block := Some sid |> |>.
Proof. destruct c as [? ? ? ? ? ? r ? ? ? ? ?], r. cbn. by intros ->. Qed.

Lemma discard_continuation_ok c now hdr payload c' o :
  let sid := frame.stream_id hdr in
  let fl := frame.flags hdr in
  conn_inv c → open_header_block (recv c) = Some sid →
  discarding_header_block (recv c) = true → octets payload →
  on_continuation size_of_StreamState c now hdr payload = (c', o) → o ≠ StopReading →
  let '(d, blk) := block_step (dec c) (has_flag fl frame.flags.END_HEADERS)
                     (discard_header_block (recv c) ++ payload) in
  frame_ok c c' d blk.
Proof.
  intros sid fl Hinv Hopen Hdis Hoct Hr Ho. destruct (mid_discard c (inv_mid c Hinv)) as [_ Hoct'].
  unfold on_continuation in Hr. fold sid fl in Hr. rewrite Hdis in Hr.
  destruct (Z.ltb_spec MAX_HEADER_BLOCK (zlen (discard_header_block (recv c)) + zlen payload))
    as [|Hlen]; [by apply goaway_stop in Hr|].
  rewrite <-zlen_app in Hlen. assert (Hob : octets (discard_header_block (recv c) ++ payload)).
  { by apply Forall_app. }
  set (block := discard_header_block (recv c) ++ payload) in *. clearbody block.
  unfold block_step. destruct (has_flag fl frame.flags.END_HEADERS).
  - pose proof (inv_close_discard c sid frame.error_code.STREAM_CLOSED Hinv Hopen) as W.
    apply (working_decode c _ sid block) in W; [|done]. unfold decode_discard_header_block in Hr.
    change (dec (c <| recv := _ |>)) with (dec c) in Hr, W.
    destruct (decoder.decode_octets (dec c) block) as [[d fs] res]. cbn [fst] in *.
    set (ok := match res with Ok _ => true | Err _ => _ end) in Hr. destruct ok.
    + by apply (rst_ok c) in Hr.
    + by apply goaway_stop in Hr.
  - injection Hr as <- <-. destruct Hinv as [[Hlim Hst Hacc Hdsp Hhp Hwin _] Hs Hop Hcl].
    split; try done; [..|by left].
    unfold open_block. cbn. by rewrite Hopen, Hdis.
Qed.

Lemma stream_continuation_ok c now hdr payload s c' o :
  let sid := frame.stream_id hdr in
  let fl := frame.flags hdr in
  conn_inv c → open_header_block (recv c) = Some sid →
  discarding_header_block (recv c) = false → streams c !! sid = Some s → octets payload →
  on_continuation size_of_StreamState c now hdr payload = (c', o) → o ≠ StopReading →
  let '(d, blk) := block_step (dec c) (has_flag fl frame.flags.END_HEADERS)
                     (header_block s ++ payload) in
  frame_ok c c' d blk.
Proof.
  intros sid fl Hinv Hopen Hdis E Hoct Hr Ho.
  pose proof (inv_close_block c sid Hinv Hopen Hdis) as W.
  pose proof (mid_streams c (inv_mid c Hinv) sid s E) as Hok.
  assert (Hend : headers_done s = true → end_stream s = true).
  { destruct (inv_open c Hinv sid Hopen) as [|(s' & E' & ?)]; [congruence|].
    rewrite E in E'. by injection E' as <-. }
  unfold on_continuation in Hr. fold sid fl in Hr. rewrite Hdis, E in Hr.
  destruct (Z.ltb_spec MAX_HEADER_BLOCK (zlen (header_block s) + zlen payload))
    as [|Hlen]; [by apply goaway_stop in Hr|].
  rewrite <-zlen_app in Hlen. assert (Hob : octets (header_block s ++ payload)).
  { apply Forall_app. split; [apply Hok|done]. }
  set (block := header_block s ++ payload) in *. clearbody block.
  unfold block_step. destruct (has_flag fl frame.flags.END_HEADERS).
  - unfold decode_block in Hr. cbn [header_block] in Hr.
    destruct (decode_block_from _ _ _) as [[d s'] decoded] eqn:Ed.
    eapply (decoded_block_ok c _ sid s (s <| header_block := [] |>) block) in Hr; eauto.
    + by left.
    + by destruct Hok.
    + cbn. destruct (headers_done s); [|done]. intros. by rewrite Hend in *.
  - injection Hr as <- <-. rewrite (reopen c sid Hopen) at 2.
    assert (Hp : present_or_new c (c <| recv := (recv c) <| open_header_block := None |> |>) sid s)
      by (by left).
    assert (Hok' : stream_ok (last_client_stream (recv c)) (max_request_body (recv c))
      (our_initial_window (recv c)) sid (s <| header_block := block |>)) by (by destruct Hok).
    apply (put_open_ok c _ sid s (s <| header_block := block |>) block W Hp); done.
Qed.

Lemma on_continuation_ok c now hdr payload blk c' o :
  conn_inv c → open_header_block (recv c) = Some (frame.stream_id hdr) → open_block c = Some blk →
  octets payload →
  on_continuation size_of_StreamState c now hdr payload = (c', o) → o ≠ StopReading →
  let '(d, blk) := block_step (dec c) (has_flag (frame.flags hdr) frame.flags.END_HEADERS)
                     (blk ++ payload) in
  frame_ok c c' d blk.
Proof.
  intros Hinv Hopen Hblk Hoct Hr Ho. unfold open_block in Hblk. rewrite Hopen in Hblk.
  destruct (discarding_header_block (recv c)) eqn:Hdis; injection Hblk as <-.
  - by eapply discard_continuation_ok.
  - destruct (inv_open c Hinv _ Hopen) as [|(s & E & _)]; [congruence|]. rewrite E.
    by eapply stream_continuation_ok.
Qed.

(** ** DATA *)

Lemma charge_conn_window_ok c0 c sid flow :
  working c0 c sid → 0 <= flow → 0 <= conn_recv_window (recv c) - flow →
  working c0 (charge_conn_window c flow) sid ∧
  streams (charge_conn_window c flow) = streams c ∧ dec (charge_conn_window c flow) = dec c.
Proof.
  intros [[Hlim Hst Hacc Hdsp Hhp Hwin Hdis] Hop Hdg Hset Hlast Hoth Hcl Hdpd] Hf Hw.
  unfold charge_conn_window. cbv zeta.
  destruct (_ <=? _); (split_and!; [|by rewrite ?frames_streams|by rewrite ?frames_dec]).
  - apply working_frames. split; try done. split; try done. cbn. lia.
  - split; try done. split; try done. cbn. lia.
Qed.

(** Dropping a stream looks only at its charges. *)
Lemma drop_put c sid s s' :
  streams c !! sid = Some s → body s' = body s → header_charge s' = header_charge s →
  body_lease s' = body_lease s → drop_receiving (put_stream c sid s') sid = drop_receiving c sid.
Proof.
  intros E Hb Hc Hl. unfold drop_receiving, state.drop_receiving, put_stream. cbn.
  rewrite lookup_insert_eq, E, delete_insert_eq. unfold release_stream. by rewrite Hb, Hc, Hl.
Qed.

(** The body grows by [data]. *)
Lemma working_extend c0 c sid s s' data :
  working c0 c sid → streams c !! sid = Some s → body s' = body s ++ data →
  header_charge s' = header_charge s →
  saturating_add (total_buffered (recv c)) (zlen data) <= per_conn_request_body (recv c) →
  stream_ok (last_client_stream (recv c)) (max_request_body (recv c))
    (our_initial_window (recv c)) sid s' →
  working c0
    (put_stream (c <| recv := (recv c) <| total_buffered :=
       saturating_add (total_buffered (recv c)) (zlen data) |> |>) sid s') sid.
Proof.
  intros W E Hb Hc Hmax Hok. pose proof (mid_not_dispatched c sid s (wk_mid _ _ _ W) E) as Hnew.
  pose proof (mid_streams_nonneg c (wk_mid _ _ _ W)) as [Hnn _]. apply sum_map_nonneg in Hnn.
  destruct W as [[Hlim Hst [A1 A2 A3 A4] Hdsp Hhp Hwin Hdis] Hop Hdg Hset Hlast Hoth Hcl Hdpd].
  assert (Hsat : saturating_add (total_buffered (recv c)) (zlen data)
    = total_buffered (recv c) + zlen data).
  { destruct Hlim. unfold saturating_add, U64_MAX in *. lia. }
  split; try done.
  - split; try done; cbn; [by apply map_Forall_insert_2| |by apply dispatch_put].
    rewrite Hsat in *. split; try done.
    + rewrite (sum_map_insert body_size _ _ _ _ E). unfold body_size at 2 3.
      rewrite Hb, zlen_app. lia.
    + rewrite (sum_map_insert header_charge _ _ _ _ E). lia.
  - cbn. intros k st Hk Hl. rewrite lookup_insert_ne in Hl by done. eauto.
  - cbn. intros k Hk. rewrite lookup_insert_ne by done. eauto.
  - intros Hk Hn. rewrite (Hcl Hk Hn) in E. done.
Qed.

(** A request whose body is being received. *)
Definition receiving (s : StreamState) : Prop :=
  header_block s = [] ∧ headers_done s = true ∧ refused s = false ∧ end_stream s = false.

Lemma receiving_settled sid s : receiving s ↔ stream_settled None false sid s.
Proof.
  unfold receiving, stream_settled. split.
  - intros (-> & -> & -> & ->) [|[|[|]]]; done.
  - intros Hs. assert (Hn : ¬ (header_block s ≠ [] ∨ headers_done s = false ∨ refused s = true ∨
      end_stream s = true)) by (intros HH; by destruct (Hs HH)).
    destruct (header_block s), (headers_done s), (refused s), (end_stream s); try done;
      exfalso; apply Hn; auto.
Qed.

(** A state with the same flow and the same charges is as good. *)
Lemma stream_ok_same last max_body window sid s s' :
  header_block s' = header_block s → headers_done s' = headers_done s → refused s' = refused s →
  header_charge s' = header_charge s → body s' = body s → recv_window s' = recv_window s →
  receiving s → stream_ok last max_body window sid s → stream_ok last max_body window sid s'.
Proof.
  intros K1 K2 K3 K4 K5 K6 (_ & Hd & Hr & _) [].
  split; unfold body_size in *; rewrite ?K1, ?K2, ?K3, ?K4, ?K5, ?K6, ?Hd, ?Hr; try done.
  by intros [|].
Qed.

Lemma refill_ok c0 c sid s s' data es :
  working c0 c sid → streams c !! sid = Some s → body s' = body s ++ data →
  header_charge s' = header_charge s →
  saturating_add (total_buffered (recv c)) (zlen data) <= per_conn_request_body (recv c) →
  stream_ok (last_client_stream (recv c)) (max_request_body (recv c))
    (our_initial_window (recv c)) sid s' → receiving s' →
  let c1 := c <| recv := (recv c) <| total_buffered :=
              saturating_add (total_buffered (recv c)) (zlen data) |> |> in
  let c2 := refill_stream_window c1 sid s' es in
  working c0 c2 sid ∧ dec c2 = dec c ∧ ∀ s2, streams c2 !! sid = Some s2 → receiving s2.
Proof.
  intros W E Hb Hc Hmax Hok Hrec. cbv zeta. unfold refill_stream_window. cbv zeta.
  case_match; split_and!; rewrite ?frames_dec, ?frames_streams; try done.
  - apply working_frames. eapply working_extend; try done.
    pose proof (mid_limits _ (wk_mid _ _ _ W)) as []. destruct Hok. split; try done. cbn. lia.
  - cbn. intros s2. rewrite lookup_insert_eq. by intros [= <-].
  - by eapply working_extend.
  - cbn. intros s2. rewrite lookup_insert_eq. by intros [= <-].
Qed.

Lemma on_stream_data_ok c0 c now sid s data es c' o :
  working c0 c sid → streams c !! sid = Some s → receiving s →
  on_stream_data c now sid s data es = (c', o) → o ≠ StopReading → frame_ok c0 c' (dec c) None.
Proof.
  intros W E Hrec Hr Ho. unfold on_stream_data in Hr. cbv zeta in Hr.
  case_match; [by apply (rst_ok c0) in Hr|].
  destruct (Z.ltb_spec (max_request_body (recv c)) (zlen (body s) + zlen data)) as [|Hbody];
    [by eapply reject_too_large_ok|].
  destruct (Z.ltb_spec (per_conn_request_body (recv c))
    (saturating_add (total_buffered (recv c)) (zlen data))) as [|Hmax]; [by apply goaway_stop in Hr|].
  set (c1 := if bool_decide (data = []) then c else _) in Hr.
  assert (H1 : working c0 c1 sid ∧ streams c1 !! sid = Some s ∧ dec c1 = dec c ∧
    (saturating_add (total_buffered (recv c1)) (zlen data) <= per_conn_request_body (recv c1)) ∧
    zlen (body s) + zlen data <= max_request_body (recv c1)).
  { subst c1. case_if; split_and!; try done. destruct W as [[] ? ? ? ? ? ? ?]. by split; [split|..]. }
  clearbody c1. clear W E Hmax Hbody. destruct H1 as (W & E & <- & Hmax & Hbody).
  destruct (reserve_on (budget c1) s (zlen data)) as [[ok b] s1] eqn:Er.
  apply reserve_on_kept in Er as (K1 & K2 & K3 & K4 & K5 & K6 & K7).
  pose proof (mid_streams _ (wk_mid _ _ _ W) sid s E) as Hok.
  assert (Hok1 : stream_ok (last_client_stream (recv c1)) (max_request_body (recv c1))
    (our_initial_window (recv c1)) sid s1) by (by eapply stream_ok_same).
  assert (W1 : working c0 (put_stream (c1 <| budget := b |>) sid s1) sid).
  { eapply working_put; [by apply working_budget|exact E| |done|done]. unfold body_size. by rewrite K6. }
  destruct ok; [|by apply (rst_ok c0) in Hr]. cbn [negb] in Hr.
  assert (E1 : streams (put_stream (c1 <| budget := b |>) sid s1) !! sid = Some s1)
    by apply lookup_insert_eq.
  change (dec c1) with (dec (put_stream (c1 <| budget := b |>) sid s1)).
  assert (Hrec1 : receiving (s1 <| body := body s1 ++ data |>)).
  { destruct Hrec as (? & ? & ? & ?). unfold receiving. cbn. split_and!; congruence. }
  eapply (refill_ok c0 _ sid s1 (s1 <| body := body s1 ++ data |>) data es) in W1
    as (W2 & Hd & Hs); [|done..| |done].
  - rewrite <-Hd. destruct (es && _); [by apply (complete_ok c0) in Hr|]. injection Hr as <- _.
    eapply working_done; [done|]. intros s2 E2%Hs. by apply receiving_settled.
  - destruct Hok1. split; try done; unfold body_size; cbn.
    + rewrite zlen_app, K6. done.
    + destruct Hrec as (_ & Hd & Hr' & _). rewrite K2, K4, Hd, Hr'. by intros [|].
Qed.

Lemma on_data_ok c now hdr payload c' o :
  conn_inv c → open_header_block (recv c) = None →
  on_data c now hdr payload = (c', o) → o ≠ StopReading → frame_ok c c' (dec c) None.
Proof.
  intros Hinv Hopen Hr Ho. unfold on_data in Hr. set (sid := frame.stream_id hdr) in *.
  pose proof (inv_working c sid Hinv Hopen) as W. cbv zeta in Hr.
  destruct (data_block _ payload) as [data|]; [|by apply goaway_stop in Hr].
  destruct (Z.ltb_spec (conn_recv_window (recv c) - zlen payload) 0) as [|Hw]; [by apply goaway_stop in Hr|].
  pose proof (zlen_nonneg payload) as Hf.
  apply (charge_conn_window_ok c c sid (zlen payload)) in W as (W & Hs & Hd); [|done..].
  set (c1 := charge_conn_window c (zlen payload)) in *. clearbody c1. rewrite <-Hd.
  destruct (streams c1 !! sid) as [s|] eqn:E.
  - pose proof (mid_streams _ (wk_mid _ _ _ W) sid s E) as Hok.
    assert (Hrec : receiving s).
    { apply (receiving_settled sid). rewrite Hs in E. pose proof (inv_settled c Hinv sid s E) as HH.
      by rewrite Hopen, (inv_closed c Hinv Hopen) in HH. }
    change (recv_window (s <| recv_window := recv_window s - zlen payload |>))
      with (recv_window s - zlen payload) in Hr.
    destruct (Z.ltb_spec (recv_window s - zlen payload) 0) as [Hneg|Hpos].
    + rewrite (drop_put c1 sid s) in Hr by done. rewrite <-(drop_dec c1 sid).
      eapply rst_ok; [|exact Hr|done]. by apply working_drop.
    + eapply (on_stream_data_ok c) in Hr; [exact Hr|..]; try done; [|apply lookup_insert_eq].
      eapply working_put; try done. destruct Hok. split; try done. cbn. lia.
  - case_match; [by apply goaway_stop in Hr|]. case_match; [|by apply (rst_ok c) in Hr].
    injection Hr as <- _. eapply working_done; [done|]. by rewrite E.
Qed.

End frames.
