(* ===== verification/H2RecvStep.v ===== *)
(** * [process_frame] as a whole

    The arms of [process_frame] of [crates/hj-h2/src/server/recv.rs] that carry no header
    block and no body, and the theorem on the whole function: it keeps the invariant, and
    HPACK decodes each header block once, whole and in order. *)

From stdpp Require Import base list gmap strings.
From Stdlib Require Import ZArith Lia.
From S2P Require Import Prelude RustStr HttpUtil Budget H2Frame HpackString.
From S2P Require Import HpackTable HpackEncoder HpackDecoder H2State H2Request H2Recv H2RecvInv.
From S2P Require Import H2RecvFrames.

Import headers state request recv.
#[local] Open Scope record_scope.

Section step.
Context `{HttpCrate} (size_of_StreamState : nat).

Lemma on_rst_stream_ok c now sid c' o :
  conn_inv c → open_header_block (recv c) = None → on_rst_stream c now sid = (c', o) →
  o ≠ StopReading → frame_ok c c' (dec c) None.
Proof.
  intros Hinv Hopen Hr Ho. pose proof (inv_working c sid Hinv Hopen) as W.
  unfold on_rst_stream in Hr. case_match; [by apply goaway_stop in Hr|].
  apply (abort_handler_ok c) in Hr; [|..|done].
  - by rewrite <-(drop_dec c sid).
  - apply working_drop in W. destruct W as [[] ? ? ? ? ? ? ?]. by split; [split|..].
  - cbn. rewrite drop_streams. apply lookup_delete_eq.
Qed.

(** A frame that left the streams alone. *)
Lemma untouched_ok c c' sid :
  conn_inv c → open_header_block (recv c) = None → working c c' sid → streams c' = streams c →
  frame_ok c c' (dec c') None.
Proof.
  intros Hinv Hopen W Hs. eapply working_done; [exact W|]. intros s E. rewrite Hs in E.
  pose proof (inv_settled c Hinv sid s E) as HH. by rewrite Hopen, (inv_closed c Hinv Hopen) in HH.
Qed.

Lemma on_window_update_ok c now sid payload c' o :
  conn_inv c → open_header_block (recv c) = None → on_window_update c now sid payload = (c', o) →
  o ≠ StopReading → frame_ok c c' (dec c) None.
Proof.
  intros Hinv Hopen Hr Ho. pose proof (inv_working c sid Hinv Hopen) as W.
  unfold on_window_update in Hr. case_match; [by apply goaway_stop in Hr|].
  destruct (frame.parse_window_update payload) as [n|]; [|by apply goaway_stop in Hr].
  destruct (n =? 0).
  - destruct (sid =? 0); [by apply goaway_stop in Hr|]. by apply (rst_ok c) in Hr.
  - injection Hr as <- _. by eapply untouched_ok.
Qed.

(** ** SETTINGS *)

Lemma settings_chunks_range payload :
  octets payload → Forall (fun '(id, value) => 0 <= value < 2 ^ 32) (frame.settings_chunks payload).
Proof.
  revert payload. fix IH 1.
  intros [|a [|b [|c [|d [|e [|f rest]]]]]] Ho; cbn [frame.settings_chunks]; try constructor.
  - do 2 apply Forall_cons in Ho as [_ Ho]. do 4 apply Forall_cons in Ho as [? Ho].
    apply (from_be_bytes_range [c; d; e; f]).
    do 4 (apply Forall_cons; split; [done|]). constructor.
  - apply IH. by do 6 apply Forall_cons in Ho as [_ Ho].
Qed.

Lemma hpack_ok_peer_max d e m value :
  0 <= value → hpack_ok d e m → hpack_ok d (encoder.set_peer_max_size e value) m.
Proof.
  intros Hv [H1 H2 H3 H4 H5 H6]. split; try done.
  - by apply encoder.set_peer_max_size_inv.
  - by apply encoder.set_peer_max_size_pending_ok.
  - unfold encoder.set_peer_max_size. cbv zeta. by case_if.
Qed.

Lemma apply_settings_ok c0 c sid delta params :
  working c0 c sid → Forall (fun '(id, value) => 0 <= value < 2 ^ 32) params →
  match apply_settings c delta params with
  | inl (c', _) => working c0 c' sid ∧ streams c' = streams c ∧ dec c' = dec c
  | inr (_, o) => o = StopReading
  end.
Proof.
  revert c delta. induction params as [|[id v] params IH]; intros c delta W Hp; [done|].
  apply Forall_cons in Hp as [Hv Hp]. cbn [apply_settings].
  assert (Hg : ∀ code, match goaway c code with (_, o) => o = StopReading end).
  { intros code. destruct (goaway c code) eqn:E. by apply goaway_stop in E. }
  assert (We : working c0 (c <| enc := encoder.set_peer_max_size (enc c) v |>) sid).
  { destruct W as [[] ? ? ? ? ? ? ?]. split; try done. split; try done.
    apply hpack_ok_peer_max; [lia|done]. }
  assert (Wp : ∀ p, working c0 (c <| peer := p |>) sid)
    by (intros p; destruct W as [[] ? ? ? ? ? ? ?]; by split).
  destruct (id =? frame.settings.ENABLE_PUSH).
  { destruct (1 <? v); [apply Hg|by apply IH]. }
  destruct (id =? frame.settings.HEADER_TABLE_SIZE); [exact (IH _ _ We Hp)|].
  destruct (id =? frame.settings.MAX_FRAME_SIZE).
  { destruct (negb _); [apply Hg|exact (IH _ _ (Wp _) Hp)]. }
  destruct (id =? frame.settings.INITIAL_WINDOW_SIZE); [|by apply IH].
  destruct (_ <? v); [apply Hg|exact (IH _ _ (Wp _) Hp)].
Qed.

Lemma on_settings_ok c hdr payload c' o :
  conn_inv c → open_header_block (recv c) = None → octets payload →
  on_settings c hdr payload = (c', o) → o ≠ StopReading → frame_ok c c' (dec c) None.
Proof.
  intros Hinv Hopen Hoct Hr Ho. pose proof (inv_working c 0 Hinv Hopen) as W.
  unfold on_settings in Hr. destruct (has_flag _ _).
  { destruct (negb _); [by apply goaway_stop in Hr|]. injection Hr as <- _. by eapply untouched_ok. }
  destruct (negb (frame.length hdr mod 6 =? 0)); [by apply goaway_stop in Hr|].
  unfold frame.parse_settings in Hr.
  destruct (negb (zlen payload mod 6 =? 0)); [by apply goaway_stop in Hr|].
  pose proof (apply_settings_ok c c 0 0 _ W (settings_chunks_range payload Hoct)) as Ha.
  destruct (apply_settings c 0 _) as [[c1 delta]|[c1 o1]]; [|by simplify_eq].
  destruct Ha as (W1 & Hs & Hd). set (c2 := frames _ _) in Hr.
  assert (c' = c2) as -> by (by destruct (negb _); simplify_eq).
  assert (W2 : working c c2 0).
  { apply working_frames. destruct W1 as [[] ? ? ? ? ? ? ?]. by split. }
  replace (dec c) with (dec c2) by (unfold c2; by rewrite frames_dec).
  by eapply untouched_ok; eauto; unfold c2; rewrite ?frames_streams.
Qed.

(** ** The whole function *)

(** What a frame does to the HPACK decoder and to the header block being assembled: a block
    is decoded once, when its END_HEADERS arrives, with its fragments in order. *)
Definition hpack_step (d : decoder.Decoder) (open : option (list Z)) (hdr : frame.FrameHeader)
    (payload : list Z) : decoder.Decoder * option (list Z) :=
  let end_headers := has_flag (frame.flags hdr) frame.flags.END_HEADERS in
  if frame.kind hdr =? frame.kind.HEADERS then
    match headers_block (frame.flags hdr) payload with
    | Some block => block_step d end_headers block
    | None => (d, open)
    end
  else if frame.kind hdr =? frame.kind.CONTINUATION then
    match open with
    | Some blk => block_step d end_headers (blk ++ payload)
    | None => (d, open)
    end
  else (d, open).

Lemma dispatch_closed_ok c now hdr payload len accept c' o :
  conn_inv c → open_header_block (recv c) = None → octets payload → 0 <= frame.stream_id hdr →
  (frame.kind hdr =? frame.kind.CONTINUATION) = false →
  bad_association (frame.kind hdr) (frame.stream_id hdr) = false →
  dispatch size_of_StreamState c now hdr payload len accept = (c', o) → o ≠ StopReading →
  let '(d, blk) := hpack_step (dec c) None hdr payload in frame_ok c c' d blk.
Proof.
  intros Hinv Hopen Hoct Hsid Hk Hassoc Hr Ho. unfold dispatch in Hr. unfold hpack_step.
  pose proof (inv_working c (frame.stream_id hdr) Hinv Hopen) as W. rewrite Hk in Hr.
  destruct (Z.eqb_spec (frame.kind hdr) frame.kind.HEADERS) as [Eh|Eh].
  - rewrite Eh in *. cbn in Hr. assert (Hpos : 0 < frame.stream_id hdr).
    { unfold bad_association in Hassoc. cbn in Hassoc. lia. }
    eapply on_headers_ok in Hr as (block & -> & Hf); eauto.
  - rewrite Hk. destruct (_ =? frame.kind.SETTINGS); [by eapply on_settings_ok|].
    destruct (_ =? frame.kind.PING).
    { destruct (negb _); injection Hr as <- _; [|by eapply untouched_ok].
      rewrite <-(frames_dec c (frame.write_ping_ack payload)).
      eapply untouched_ok; eauto using working_frames, frames_streams. }
    destruct (_ =? frame.kind.WINDOW_UPDATE); [by eapply on_window_update_ok|].
    destruct (_ =? frame.kind.GOAWAY).
    { destruct (_ <? 8); [by apply goaway_stop in Hr|]. injection Hr as <- _. by eapply untouched_ok. }
    destruct (_ =? frame.kind.DATA); [by eapply on_data_ok|].
    destruct (_ =? frame.kind.RST_STREAM); [by eapply on_rst_stream_ok|].
    destruct (_ && _); [by apply (rst_ok c) in Hr|]. injection Hr as <- _. by eapply untouched_ok.
Qed.

Lemma dispatch_continuation c now hdr payload len accept :
  frame.kind hdr = frame.kind.CONTINUATION →
  dispatch size_of_StreamState c now hdr payload len accept
  = on_continuation size_of_StreamState c now hdr payload.
Proof. intros Ek. unfold dispatch. by rewrite Ek. Qed.

Lemma inv_begin c :
  conn_inv c →
  conn_inv (c <| recv := (recv c) <| seen_settings := true |>
              <| no_progress_frames := Z.min (no_progress_frames (recv c) + 1) (2 ^ 32 - 1) |> |>).
Proof. intros [[] ? ? ?]. by split; [split|..]. Qed.

Lemma process_frame_ok c now hdr payload len accept c' o :
  conn_inv c → octets payload → 0 <= frame.stream_id hdr →
  process_frame size_of_StreamState c now hdr payload len accept = (c', o) → o ≠ StopReading →
  let '(d, blk) := hpack_step (dec c) (open_block c) hdr payload in frame_ok c c' d blk.
Proof.
  intros Hinv%inv_begin Hoct Hsid Hr Ho. unfold process_frame in Hr.
  destruct (negb (seen_settings _) && _); [by apply goaway_stop in Hr|].
  set (c1 := c <| recv := _ |>) in *.
  assert (H1 : dec c1 = dec c ∧ open_block c1 = open_block c ∧ streams c1 = streams c ∧
    dispatched c1 = dispatched c ∧ last_client_stream (recv c1) = last_client_stream (recv c))
    by (by split_and!).
  clearbody c1. destruct H1 as (<- & <- & Hs & Hd & Hl).
  destruct (Z.ltb NO_PROGRESS_BUDGET _); [by apply goaway_stop in Hr|].
  enough (G : let '(d, blk) := hpack_step (dec c1) (open_block c1) hdr payload in frame_ok c1 c' d blk).
  { destruct (hpack_step _ _ _ _) as [d blk]. destruct G. rewrite Hs, Hd, Hl in *. by split. }
  clear Hs Hd Hl c. rename c1 into c.
  destruct (open_header_block (recv c)) as [sid|] eqn:Eo.
  - destruct (Z.eqb_spec (frame.kind hdr) frame.kind.CONTINUATION) as [Ek|];
      [|by apply goaway_stop in Hr].
    destruct (Z.eqb_spec (frame.stream_id hdr) sid) as [Es|]; [|by apply goaway_stop in Hr].
    cbn [negb orb] in Hr. destruct (bad_association _ _); [by apply goaway_stop in Hr|].
    destruct (bad_len _ _); [by apply goaway_stop in Hr|].
    rewrite dispatch_continuation in Hr by done. unfold hpack_step. rewrite Ek.
    change (frame.kind.CONTINUATION =? frame.kind.HEADERS) with false. rewrite Z.eqb_refl.
    destruct (open_block c) as [blk|] eqn:Eb; [|unfold open_block in Eb; by rewrite Eo in Eb].
    eapply on_continuation_ok; eauto. by rewrite Es.
  - destruct (frame.kind hdr =? frame.kind.CONTINUATION) eqn:Ek; [by apply goaway_stop in Hr|].
    destruct (bad_association _ _) eqn:Ea; [by apply goaway_stop in Hr|].
    destruct (bad_len _ _); [by apply goaway_stop in Hr|].
    assert (Eb : open_block c = None) by (unfold open_block; by rewrite Eo).
    rewrite Eb. by eapply dispatch_closed_ok.
Qed.

End step.
