(* ===== verification/H2RecvPeer.v ===== *)
(** * The peer's settings, and what a frame asks of the connection loop

    Only SETTINGS changes what [process_frame] of [crates/hj-h2/src/server/recv.rs] knows of
    the peer, and the values it takes over are in the ranges of RFC 9113 section 6.5.2. Only
    WINDOW_UPDATE and SETTINGS ask for a change of a send window. *)

From stdpp Require Import base list gmap strings.
From Stdlib Require Import ZArith Lia.
From S2P Require Import Prelude RustStr HttpUtil Budget H2Frame HpackString.
From S2P Require Import HpackTable HpackEncoder HpackDecoder H2State H2Request H2Recv H2RecvInv.
From S2P Require Import H2RecvStep.

Import headers state request recv.
#[local] Open Scope record_scope.

Section peer.
Context `{HttpCrate} (size_of_StreamState : nat).

(** The last frame queued is a GOAWAY, with the stream id the connection committed to. *)
Definition announced (c : Conn) : Prop :=
  ∃ before last code, out c = before ++ [frame.write_goaway last code] ∧
    goaway_last (recv c) = Some last ∧ last <= last_client_stream (recv c).

(** The outcome is not about send windows, and a connection that stops has said so. *)
Definition plain (r : Conn * FrameOutcome) : Prop :=
  match r.2 with
  | WindowUpdate _ _ | InitialWindowDelta _ => False
  | StopReading => announced r.1
  | _ => True
  end.

(** The peer is as in [c]. *)
Definition keeps (c : Conn) (r : Conn * FrameOutcome) : Prop := peer r.1 = peer c ∧ plain r.

Lemma frames_peer c o : peer (frames c o) = peer c.
Proof. unfold frames. by case_if. Qed.

Lemma encode_peer c fs : peer (encode c fs).1 = peer c.
Proof. unfold encode. by destruct (encoder.encode_block _ _ _) as [[? ?] ?]. Qed.

Lemma drop_peer c sid : peer (drop_receiving c sid) = peer c.
Proof. unfold drop_receiving. by destruct (state.drop_receiving _ _ _ _) as [[? ?] ?]. Qed.

Lemma teardown_peer c sid : peer (teardown_receiving c sid) = peer c.
Proof. unfold teardown_receiving. by destruct (state.teardown_receiving _ _ _ _) as [[? ?] ?]. Qed.

Lemma goaway_announced c code : announced (goaway c code).1.
Proof.
  unfold goaway, goaway_last_stream_id. cbn [fst]. unfold frames.
  rewrite bool_decide_eq_false_2 by done. eexists _, _, _. split_and!; [done|done|]. cbn.
  destruct (goaway_last (recv c)); lia.
Qed.

Lemma goaway_peer c c0 code : peer c = peer c0 → keeps c0 (goaway c code).
Proof.
  intros Hp. split; [|apply goaway_announced].
  unfold goaway. destruct (goaway_last_stream_id _) as [r last]. cbn [fst]. by rewrite frames_peer.
Qed.

Lemma mark_cancelled_peer c sid : peer (mark_cancelled c sid) = peer c.
Proof. unfold mark_cancelled. cbv zeta. by case_if. Qed.

Lemma abort_handler_peer c c0 now sid : peer c = peer c0 → keeps c0 (abort_handler c now sid).
Proof.
  intros Hp. unfold abort_handler. destruct (bool_decide _); [|done].
  destruct (charge_inflight_reset_at _ _) as [r ex]. rewrite <-(mark_cancelled_peer c sid) in Hp.
  destruct ex; [by apply goaway_peer|done].
Qed.

Lemma rst_peer c c0 now sid code : peer c = peer c0 → keeps c0 (rst c now sid code).
Proof.
  intros Hp. unfold rst. apply abort_handler_peer. by rewrite teardown_peer, frames_peer.
Qed.

Lemma reject_too_large_peer c c0 now sid status open :
  peer c = peer c0 → keeps c0 (reject_too_large c now sid status open).
Proof.
  intros Hp. unfold reject_too_large.
  pose proof (encode_peer c [(bs ":status", status); (bs "content-length", bs "0")]) as He.
  destruct (encode c _) as [c1 blk]. cbn [fst] in He. destruct open.
  - apply rst_peer. by rewrite frames_peer, He.
  - split; [|done]. cbn [fst]. by rewrite drop_peer, frames_peer, He.
Qed.

Lemma reject_early_peer c now sid r : reject_early c now sid = Some r → keeps c r.
Proof.
  unfold reject_early. destruct (streams c !! sid) as [s|]; [|done].
  destruct (end_stream s); [done|]. destruct (early_reject_response _ s) as [[st hs]|]; [|done].
  match goal with |- context [encode c ?fs] => pose proof (encode_peer c fs) as He end.
  destruct (encode c _) as [c1 blk]. cbn [fst] in He. intros [= <-]. apply rst_peer.
  by rewrite frames_peer, He.
Qed.

Lemma refuse_if_marked_peer c now sid r : refuse_if_marked c now sid = Some r → keeps c r.
Proof.
  unfold refuse_if_marked. destruct (streams c !! sid) as [s|]; [|done].
  destruct (refused s); [|done]. intros [= <-]. by apply rst_peer.
Qed.

Lemma complete_peer c c0 now sid : peer c = peer c0 → keeps c0 (complete c now sid).
Proof.
  intros Hp. unfold complete. destruct (streams c !! sid) as [s|]; [|done].
  destruct (match content_length s with Some _ => _ | None => _ end); [by apply rst_peer|].
  destruct (build_request _ s) as [b [req|]]; [done|by apply rst_peer].
Qed.

Lemma maybe_send_100_continue_peer c sid s : peer (maybe_send_100_continue c sid s) = peer c.
Proof.
  unfold maybe_send_100_continue. destruct (wants_100_continue s); [|done].
  pose proof (encode_peer c [(bs ":status", bs "100")]) as He.
  destruct (encode c _) as [c1 blk]. cbn [fst] in He. by rewrite frames_peer.
Qed.

Lemma admit_or_complete_peer c now sid :
  keeps c (admit_or_complete size_of_StreamState c now sid).
Proof.
  unfold admit_or_complete. destruct (streams c !! sid) as [s|]; [|done].
  destruct (end_stream s); [by apply complete_peer|].
  destruct (admit_pending_headers _ _ s _) as [[[ok r] b] s'].
  destruct ok; [|by apply rst_peer]. split; [|done]. cbn [fst]. by rewrite maybe_send_100_continue_peer.
Qed.

Lemma finish_block_peer c c0 now sid decoded :
  peer c = peer c0 → keeps c0 (finish_block size_of_StreamState c now sid decoded).
Proof.
  intros Hp. unfold keeps. rewrite <-Hp. change (keeps c (finish_block size_of_StreamState c now sid decoded)).
  unfold finish_block. destruct decoded.
  - destruct (refuse_if_marked c now sid) eqn:Er; [by eapply refuse_if_marked_peer|].
    destruct (declared_body_too_large _ _); [by apply reject_too_large_peer|].
    destruct (reject_early c now sid) eqn:Ee; [by eapply reject_early_peer|].
    apply admit_or_complete_peer.
  - by apply goaway_peer.
  - destruct (refuse_if_marked c now sid) eqn:Er; [by eapply refuse_if_marked_peer|].
    by apply reject_too_large_peer.
  - apply rst_peer, drop_peer.
Qed.

(** ** The arms *)

Lemma on_window_update_peer c now sid payload : peer (on_window_update c now sid payload).1 = peer c.
Proof.
  unfold on_window_update. destruct (_ && _); [by apply goaway_peer|].
  destruct (frame.parse_window_update payload) as [n|]; [|by apply goaway_peer].
  destruct (n =? 0); [|done]. destruct (sid =? 0); [by apply goaway_peer|by apply rst_peer].
Qed.

Lemma discard_block_peer c c0 now sid eh block code :
  peer c = peer c0 → keeps c0 (discard_block c now sid eh block code).
Proof.
  intros Hp. unfold discard_block. destruct eh; [|done].
  destruct (decode_discard_header_block _ _) as [d ok].
  destruct ok; [by apply rst_peer|by apply goaway_peer].
Qed.

Lemma on_closed_headers_peer c now hdr payload : keeps c (on_closed_headers c now hdr payload).
Proof.
  unfold on_closed_headers. destruct (negb _); [by apply goaway_peer|].
  destruct (headers_block _ _); [|by apply goaway_peer].
  destruct (_ <? _); [by apply goaway_peer|by apply discard_block_peer].
Qed.

Lemma on_bad_headers_peer c c0 now hdr payload :
  peer c = peer c0 → keeps c0 (on_bad_headers c now hdr payload).
Proof.
  intros Hp. unfold on_bad_headers. destruct (headers_block _ _); [|by apply goaway_peer].
  destruct (_ <? _); [by apply goaway_peer|]. apply discard_block_peer. by rewrite drop_peer.
Qed.

Lemma on_good_headers_peer c c0 now hdr payload opens len accept :
  peer c = peer c0 →
  keeps c0 (on_good_headers size_of_StreamState c now hdr payload opens len accept).
Proof.
  intros Hp. unfold on_good_headers. destruct (headers_block _ _); [|by apply goaway_peer].
  set (s := opened_stream _ _ _). clearbody s. destruct (_ <? _); [by apply goaway_peer|].
  set (s1 := if has_flag _ frame.flags.END_STREAM then _ else s). clearbody s1.
  destruct (has_flag _ _); [|done].
  destruct (if bool_decide (header_block s1 = []) then _ else _) as [[d s2] decoded].
  by apply finish_block_peer.
Qed.

Lemma on_headers_peer c now hdr payload len accept :
  keeps c (on_headers size_of_StreamState c now hdr payload len accept).
Proof.
  unfold on_headers. set (opens := negb _). clearbody opens.
  destruct (opens && _); [by apply goaway_peer|]. destruct (opens && _); [apply on_closed_headers_peer|].
  set (c1 := if opens then _ else c). assert (Hp : peer c1 = peer c) by (subst c1; by destruct opens).
  clearbody c1. destruct (_ || _); [by apply on_bad_headers_peer|by apply on_good_headers_peer].
Qed.

Lemma on_continuation_peer c now hdr payload :
  keeps c (on_continuation size_of_StreamState c now hdr payload).
Proof.
  unfold on_continuation. destruct (discarding_header_block _).
  - destruct (_ <? _); [by apply goaway_peer|]. destruct (has_flag _ _); [|done].
    destruct (decode_discard_header_block _ _) as [d ok].
    destruct ok; [by apply rst_peer|by apply goaway_peer].
  - destruct (streams c !! _) as [s|]; [|by apply goaway_peer].
    destruct (_ <? _); [by apply goaway_peer|]. destruct (has_flag _ _); [|done].
    destruct (decode_block _ _) as [[d s'] decoded]. by apply finish_block_peer.
Qed.

Lemma charge_conn_window_peer c flow : peer (charge_conn_window c flow) = peer c.
Proof. unfold charge_conn_window. cbv zeta. destruct (_ <=? _); by rewrite ?frames_peer. Qed.

Lemma refill_stream_window_peer c sid s es : peer (refill_stream_window c sid s es) = peer c.
Proof. unfold refill_stream_window. cbv zeta. destruct (_ && _); by rewrite ?frames_peer. Qed.

Lemma on_stream_data_peer c c0 now sid s data es :
  peer c = peer c0 → keeps c0 (on_stream_data c now sid s data es).
Proof.
  intros Hp. unfold on_stream_data. cbv zeta.
  destruct (match content_length s with Some _ => _ | None => _ end); [by apply rst_peer|].
  destruct (_ <? _); [by apply reject_too_large_peer|]. destruct (_ <? _); [by apply goaway_peer|].
  set (c1 := if bool_decide (data = []) then c else _).
  assert (Hp1 : peer c1 = peer c0) by (subst c1; by destruct (bool_decide _)). clearbody c1.
  destruct (reserve_on _ s _) as [[ok b] s1]. destruct ok; [|by apply rst_peer].
  match goal with |- context [refill_stream_window ?x sid ?y es] =>
    pose proof (refill_stream_window_peer x sid y es) as Hr end.
  set (c2 := refill_stream_window _ _ _ _) in *.
  assert (Hp2 : peer c2 = peer c0) by (by rewrite Hr). clearbody c2.
  destruct (es && _); [by apply complete_peer|done].
Qed.

Lemma on_data_peer c now hdr payload : keeps c (on_data c now hdr payload).
Proof.
  unfold on_data. destruct (data_block _ payload); [|by apply goaway_peer].
  destruct (_ <? 0); [by apply goaway_peer|]. pose proof (charge_conn_window_peer c (zlen payload)) as Hp.
  set (c1 := charge_conn_window _ _) in *. clearbody c1.
  destruct (streams c1 !! _) as [s|].
  - destruct (_ <? 0); [apply rst_peer; by rewrite drop_peer|by apply on_stream_data_peer].
  - destruct (_ || _); [by apply goaway_peer|]. destruct (state.contains _ _); [done|by apply rst_peer].
Qed.

Lemma on_rst_stream_peer c now sid : keeps c (on_rst_stream c now sid).
Proof.
  unfold on_rst_stream. destruct (_ || _); [by apply goaway_peer|]. apply abort_handler_peer.
  apply drop_peer.
Qed.

(** ** SETTINGS *)

Record peer_ok (p : PeerSettings) : Prop := {
  peer_frame : 16384 <= max_frame_size p <= 2 ^ 24 - 1;
  peer_window : 0 <= initial_window p <= 2 ^ 31 - 1;
}.

Lemma keeps_ok c r : keeps c r → peer_ok (peer c) → peer_ok (peer r.1).
Proof. by intros [-> _]. Qed.

Lemma apply_settings_peer c delta params :
  peer_ok (peer c) → Forall (fun '(id, value) => 0 <= value < 2 ^ 32) params →
  match apply_settings c delta params with
  | inl (c', _) => peer_ok (peer c')
  | inr r => peer_ok (peer r.1)
  end.
Proof.
  revert c delta. induction params as [|[id v] params IH]; intros c delta Hp Hv; [done|].
  apply Forall_cons in Hv as [Hv Hvs]. cbn [apply_settings].
  assert (Hg : ∀ code, peer_ok (peer (goaway c code).1))
    by (intros; eapply keeps_ok; [by apply goaway_peer|done]).
  destruct (id =? frame.settings.ENABLE_PUSH).
  { destruct (1 <? v); [apply Hg|by apply IH]. }
  destruct (id =? frame.settings.HEADER_TABLE_SIZE); [by apply IH|].
  destruct (id =? frame.settings.MAX_FRAME_SIZE).
  { destruct (negb _) eqn:E; [apply Hg|]. apply IH; [|done]. destruct Hp. split; cbn; [|done].
    apply negb_false_iff, andb_true_iff in E as [? ?]. lia. }
  destruct (id =? frame.settings.INITIAL_WINDOW_SIZE); [|by apply IH].
  destruct (Z.ltb_spec (2 ^ 31 - 1) v); [apply Hg|]. apply IH; [|done].
  destruct Hp. split; cbn; [done|lia].
Qed.

Lemma on_settings_peer c hdr payload :
  peer_ok (peer c) → octets payload → peer_ok (peer (on_settings c hdr payload).1).
Proof.
  intros Hp Ho. assert (Hg : ∀ code, peer_ok (peer (goaway c code).1))
    by (intros; eapply keeps_ok; [by apply goaway_peer|done]).
  unfold on_settings. destruct (has_flag _ _); [destruct (negb _); [apply Hg|done]|].
  destruct (negb (frame.length hdr mod 6 =? 0)); [apply Hg|].
  unfold frame.parse_settings. destruct (negb (zlen payload mod 6 =? 0)); [apply Hg|].
  pose proof (apply_settings_peer c 0 _ Hp (settings_chunks_range payload Ho)) as Ha.
  destruct (apply_settings c 0 _) as [[c1 delta]|r]; [|done].
  destruct (negb (delta =? 0)); cbn [fst]; rewrite frames_peer; by destruct Ha.
Qed.

Lemma process_frame_peer c now hdr payload len accept :
  peer_ok (peer c) → octets payload →
  peer_ok (peer (process_frame size_of_StreamState c now hdr payload len accept).1).
Proof.
  intros Hp Ho. unfold process_frame.
  assert (Hg : ∀ c1 code, peer c1 = peer c → peer_ok (peer (goaway c1 code).1))
    by (intros; eapply keeps_ok; [by apply goaway_peer|done]).
  destruct (negb (seen_settings _) && _); [by apply Hg|].
  set (c1 := c <| recv := _ |>). assert (Hp1 : peer c1 = peer c) by done. clearbody c1.
  destruct (Z.ltb NO_PROGRESS_BUDGET _); [by apply Hg|].
  destruct (match open_header_block _ with Some _ => _ | None => _ end); [by apply Hg|].
  destruct (bad_association _ _); [by apply Hg|]. destruct (bad_len _ _); [by apply Hg|].
  rewrite <-Hp1 in Hp. clear Hg Hp1 c. unfold dispatch.
  assert (Hk : ∀ r, keeps c1 r → peer_ok (peer r.1)) by (intros; by eapply keeps_ok).
  destruct (_ =? frame.kind.SETTINGS); [by apply on_settings_peer|].
  destruct (_ =? frame.kind.PING); [destruct (negb _); cbn [fst]; by rewrite ?frames_peer|].
  destruct (_ =? frame.kind.WINDOW_UPDATE); [by rewrite on_window_update_peer|].
  destruct (_ =? frame.kind.GOAWAY); [destruct (_ <? _); [by apply Hk, goaway_peer|done]|].
  destruct (_ =? frame.kind.HEADERS); [apply Hk, on_headers_peer|].
  destruct (_ =? frame.kind.CONTINUATION); [apply Hk, on_continuation_peer|].
  destruct (_ =? frame.kind.DATA); [apply Hk, on_data_peer|].
  destruct (_ =? frame.kind.RST_STREAM); [apply Hk, on_rst_stream_peer|].
  destruct (_ && _); [by apply Hk, rst_peer|done].
Qed.

(** ** Outcomes *)

(** A grant is passed on only between header blocks, and only a GOAWAY stops the reading. *)
Definition outcome_ok (r : Conn * FrameOutcome) : Prop :=
  match r.2 with
  | WindowUpdate _ _ => open_header_block (recv r.1) = None
  | StopReading => announced r.1
  | _ => True
  end.

Lemma plain_outcome c r : keeps c r → outcome_ok r.
Proof. intros [_ Hp]. unfold plain, outcome_ok in *. by destruct r.2. Qed.

Lemma goaway_outcome c code : outcome_ok (goaway c code).
Proof. by apply (plain_outcome c), goaway_peer. Qed.

Lemma apply_settings_outcome c delta params :
  match apply_settings c delta params with inl _ => True | inr r => outcome_ok r end.
Proof.
  revert c delta. induction params as [|[id v] ps IH]; intros c delta; cbn [apply_settings]; [done|].
  destruct (_ =? _); [destruct (_ <? _); [apply goaway_outcome|apply IH]|].
  destruct (_ =? _); [apply IH|].
  destruct (_ =? _); [destruct (negb _); [apply goaway_outcome|apply IH]|].
  destruct (_ =? _); [|apply IH]. destruct (_ <? _); [apply goaway_outcome|apply IH].
Qed.

Lemma on_settings_outcome c hdr payload : outcome_ok (on_settings c hdr payload).
Proof.
  unfold on_settings. destruct (has_flag _ _); [destruct (negb _); [apply goaway_outcome|done]|].
  destruct (negb _); [apply goaway_outcome|].
  destruct (frame.parse_settings payload) as [ps|]; [|apply goaway_outcome].
  pose proof (apply_settings_outcome c 0 ps) as Hs.
  destruct (apply_settings c 0 ps) as [[c1 delta]|[c1 o]]; [|done]. by destruct (negb _).
Qed.

Lemma dispatch_outcome c now hdr payload len accept :
  open_header_block (recv c) = None →
  outcome_ok (dispatch size_of_StreamState c now hdr payload len accept).
Proof.
  intros Ho. pose proof (plain_outcome c) as Hk. unfold dispatch.
  destruct (_ =? frame.kind.SETTINGS); [apply on_settings_outcome|].
  destruct (_ =? frame.kind.PING); [by destruct (negb _)|].
  destruct (_ =? frame.kind.WINDOW_UPDATE).
  { unfold on_window_update. destruct (_ && _); [apply goaway_outcome|].
    destruct (frame.parse_window_update payload) as [m|]; [|apply goaway_outcome].
    destruct (m =? 0); [|done]. destruct (_ =? 0); [apply goaway_outcome|by apply Hk, rst_peer]. }
  destruct (_ =? frame.kind.GOAWAY); [destruct (_ <? _); [apply goaway_outcome|done]|].
  destruct (_ =? frame.kind.HEADERS); [apply Hk, on_headers_peer|].
  destruct (_ =? frame.kind.CONTINUATION); [apply Hk, on_continuation_peer|].
  destruct (_ =? frame.kind.DATA); [apply Hk, on_data_peer|].
  destruct (_ =? frame.kind.RST_STREAM); [apply Hk, on_rst_stream_peer|].
  destruct (_ && _); [by apply Hk, rst_peer|done].
Qed.

Lemma process_frame_outcome c now hdr payload len accept :
  outcome_ok (process_frame size_of_StreamState c now hdr payload len accept).
Proof.
  unfold process_frame. destruct (negb (seen_settings _) && _); [apply goaway_outcome|].
  set (c1 := c <| recv := _ |>). destruct (Z.ltb NO_PROGRESS_BUDGET _); [apply goaway_outcome|].
  clearbody c1. destruct (open_header_block (recv c1)) eqn:Eo.
  - destruct (Z.eqb_spec (frame.kind hdr) frame.kind.CONTINUATION) as [Ek|]; [|apply goaway_outcome].
    destruct (negb true || _); [apply goaway_outcome|].
    destruct (bad_association _ _); [apply goaway_outcome|].
    destruct (bad_len _ _); [apply goaway_outcome|]. rewrite dispatch_continuation by done.
    eapply plain_outcome, on_continuation_peer.
  - destruct (_ =? frame.kind.CONTINUATION); [apply goaway_outcome|].
    destruct (bad_association _ _); [apply goaway_outcome|].
    destruct (bad_len _ _); [apply goaway_outcome|]. by apply dispatch_outcome.
Qed.

End peer.
