(* ===== verification/H2SessionConn.v ===== *)
(** * What the connection loop does to the receiving side between frames

    Expiry, resets of the loop's own, finished handlers, response heads and deadlines keep
    the invariant of the connection, the HPACK decoder and the header block that is open
    ([crates/hj-h2/src/server/mod.rs]). *)

From stdpp Require Import base list gmap strings.
From Stdlib Require Import ZArith Lia.
From S2P Require Import Prelude RustStr HttpUtil Budget H2Frame HpackString.
From S2P Require Import HpackTable HpackEncoder HpackDecoder H2State H2Request H2Recv H2RecvInv.
From S2P Require Import H2RecvFrames H2RecvStep.

Import headers state request recv.
#[local] Open Scope record_scope.

Section steps.
Context `{HttpCrate}.

(** The connection is as sound as before, and HPACK where it was. *)
Record undisturbed (c c' : Conn) : Prop := {
  un_inv : conn_inv c → conn_inv c';
  un_dec : dec c' = dec c;
  un_block : conn_inv c → open_block c' = open_block c;
  un_dispatched : dispatched c' = dispatched c;
  un_last : last_client_stream (recv c') = last_client_stream (recv c);
  un_open : open_header_block (recv c') = open_header_block (recv c);
  un_streams : ∀ sid, streams c !! sid = None → streams c' !! sid = None;
  un_peer : peer c' = peer c;
}.

Lemma undisturbed_refl c : undisturbed c c.
Proof. by split. Qed.

Lemma undisturbed_trans c1 c2 c3 : undisturbed c1 c2 → undisturbed c2 c3 → undisturbed c1 c3.
Proof.
  intros [A1 A2 A3 A4 A5 A6 A7 A8] [B1 B2 B3 B4 B5 B6 B7 B8]. split; try congruence; auto.
  intros Hi. rewrite B3, A3; auto.
Qed.

Lemma undisturbed_frames c o : undisturbed c (frames c o).
Proof. unfold frames. case_if; [apply undisturbed_refl|]. split; try done. intros [[] ? ? ?]. by split. Qed.

Lemma undisturbed_out c o : undisturbed c (c <| out := o |>).
Proof. split; try done. intros [[] ? ? ?]. by split. Qed.

Lemma undisturbed_progress c :
  undisturbed c (c <| recv := (recv c) <| no_progress_frames := 0 |> |>).
Proof. split; try done. intros [[] ? ? ?]. by split. Qed.

Lemma undisturbed_goaway c code : undisturbed c (goaway c code).1.
Proof.
  unfold goaway, goaway_last_stream_id. cbn [fst].
  eapply undisturbed_trans; [|apply undisturbed_frames]. split; try done.
  intros [[] ? ? ?]. by split.
Qed.

(** A handler future is taken out of [inflight]. *)
Lemma undisturbed_handler c n sid :
  undisturbed c (c <| inflight := n |> <| inflight_sids := inflight_sids c ∖ {[sid]} |>
                   <| cancelled := cancelled c ∖ {[sid]} |>).
Proof.
  split; try done. intros [[Hlim Hst Hacc [D1 D2 D3] Hhp Hwin Hdis] ? ? ?].
  split; try done. split; try done. split; try done.
  cbn. intros k [Hk _]%elem_of_difference. by apply D3.
Qed.

(** A response head is encoded. *)
Lemma undisturbed_encode c fs m e block :
  encoder.encode_block (memo c) (enc c) fs = (m, e, block) →
  undisturbed c (c <| memo := m |> <| enc := e |>).
Proof.
  intros E. split; try done. intros [[Hlim Hst Hacc Hdsp [P1 P2 P3 P4 P5 P6] Hwin Hdis] ? ? ?].
  split; try done. split; try done.
  pose proof (encode_block_ok (memo c) (enc c) fs P3 P4 P5 P6) as Hok. rewrite E in Hok.
  destruct Hok as (? & ? & ? & ?). by split.
Qed.

(** Streams that differ in their deadlines only. *)
Definition same_stream (s s' : StreamState) : Prop :=
  header_block s' = header_block s ∧ headers_done s' = headers_done s ∧
  end_stream s' = end_stream s ∧ refused s' = refused s ∧ header_charge s' = header_charge s ∧
  body s' = body s ∧ body_lease s' = body_lease s ∧ recv_window s' = recv_window s.

Lemma undisturbed_deadlines c ss :
  (∀ k, option_Forall2 same_stream (streams c !! k) (ss !! k)) →
  undisturbed c (c <| streams := ss |>).
Proof.
  intros Hss.
  assert (Hn : ∀ k, streams c !! k = None → ss !! k = None).
  { intros k Hk. specialize (Hss k). rewrite Hk in Hss. by inversion Hss. }
  assert (Hb : ∀ k s', ss !! k = Some s' → ∃ s, streams c !! k = Some s ∧ same_stream s s').
  { intros k s' Hk. specialize (Hss k). rewrite Hk in Hss. inversion Hss; subst. eauto. }
  split; try done.
  - intros [[Hlim Hst [A1 A2 A3 A4] [D1 D2 D3] Hhp Hwin Hdis] Hset Hop Hcl].
    split; try done.
    + split; try done; cbn.
      * intros k s' (s & Hk & E1 & E2 & E3 & E4 & E5 & E6 & E7 & E8)%Hb.
        destruct (Hst k s Hk). split; unfold body_size, uncharged in *; by rewrite ?E1, ?E2, ?E4, ?E5, ?E6, ?E7, ?E8.
      * split; try done; [rewrite A1|rewrite A2]; apply sum_map_ext; intros k; specialize (Hss k);
          inversion Hss as [s s' (E1 & E2 & E3 & E4 & E5 & E6 & E7 & E8)|]; cbn; try done;
          unfold body_size; by rewrite ?E5, ?E6.
      * split; try done. intros k Hk. destruct (D2 k Hk). auto.
    + cbn. intros k s' (s & Hk & E1 & E2 & E3 & E4 & _)%Hb. specialize (Hset k s Hk).
      unfold stream_settled in *. by rewrite E1, E2, E3, E4.
    + cbn. intros k Hk. destruct (Hop k Hk) as [|(s & Hs & He)]; [by left|right].
      specialize (Hss k). rewrite Hs in Hss. inversion Hss as [? s' (E1 & E2 & E3 & _)|]. subst.
      exists s'. by rewrite E2, E3.
  - intros _. unfold open_block. cbn. destruct (open_header_block (recv c)) as [k|]; [|done].
    destruct (discarding_header_block (recv c)); [done|]. specialize (Hss k).
    inversion Hss as [s s' (E1 & _)|]; [by rewrite E1|done].
Qed.

(** ** Taking a stream away *)

(** The connection without the stream [sid], its charges returned and its id recorded. *)
Lemma undisturbed_without c sid s ids1 ids2 b :
  streams c !! sid = Some s →
  (open_header_block (recv c) = Some sid → discarding_header_block (recv c) = true) →
  undisturbed c
    (c <| recv := (release_stream (recv c) s) <| reset_ids := ids1 |> <| sent_reset_ids := ids2 |> |>
       <| streams := delete sid (streams c) |> <| budget := b |>).
Proof.
  intros E Hopen. split; try done.
  - intros Hinv. pose proof (accounted_delete c sid s (inv_mid c Hinv) E) as Ha.
    destruct Hinv as [[Hlim Hst Hacc Hdsp Hhp Hwin Hdis] Hset Hop Hcl]. split; try done.
    + split; try done; [by apply map_Forall_delete|by apply dispatch_delete].
    + cbn. by apply map_Forall_delete.
    + cbn. intros k Hk. destruct (decide (k = sid)) as [->|]; [left; by apply Hopen|].
      rewrite lookup_delete_ne by done. by apply Hop.
  - intros Hinv. unfold open_block. cbn. destruct (open_header_block (recv c)) as [k|]; [|done].
    destruct (decide (k = sid)) as [->|]; [by rewrite Hopen|]. by rewrite lookup_delete_ne.
  - cbn. intros k Hk. rewrite lookup_delete_None. by right.
Qed.

(** The same when the header block of [sid] is open: it is kept, to be thrown away. *)
Lemma undisturbed_without_open c sid s code ids1 ids2 b :
  streams c !! sid = Some s → open_header_block (recv c) = Some sid →
  discarding_header_block (recv c) = false →
  undisturbed c
    (c <| recv := (release_stream (recv c) s)
            <| discard_header_block := header_block s |> <| discarding_header_block := true |>
            <| discard_rst_code := code |> <| reset_ids := ids1 |> <| sent_reset_ids := ids2 |> |>
       <| streams := delete sid (streams c) |> <| budget := b |>).
Proof.
  intros E Hopen Hd. split; try done.
  - intros Hinv. pose proof (accounted_delete c sid s (inv_mid c Hinv) E) as Ha.
    destruct Hinv as [[Hlim Hst Hacc Hdsp Hhp Hwin Hdis] Hset Hop Hcl]. split; try done.
    + split; try done; [by apply map_Forall_delete|by apply dispatch_delete|].
      destruct (Hst sid s E). by split.
    + cbn. intros k st [Hk Hl]%lookup_delete_Some Hp.
      destruct (Hset k st Hl Hp) as [Ho _]. congruence.
    + by left.
    + cbn. congruence.
  - intros Hinv. unfold open_block. cbn. by rewrite Hopen, Hd, E.
  - cbn. intros k Hk. rewrite lookup_delete_None. by right.
Qed.

Lemma undisturbed_ids c ids1 ids2 b :
  undisturbed c (c <| recv := (recv c) <| reset_ids := ids1 |> <| sent_reset_ids := ids2 |> |>
                   <| streams := streams c |> <| budget := b |>).
Proof. split; try done. intros [[] ? ? ?]. by split. Qed.

Lemma undisturbed_teardown c sid :
  open_header_block (recv c) = None → undisturbed c (teardown_receiving c sid).
Proof.
  intros Ho. unfold teardown_receiving, state.teardown_receiving, state.drop_receiving, note_reset.
  destruct (streams c !! sid) as [s|] eqn:E.
  - apply undisturbed_without; [done|congruence].
  - apply undisturbed_ids.
Qed.

Lemma undisturbed_mark_cancelled c sid : undisturbed c (mark_cancelled c sid).
Proof.
  unfold mark_cancelled. cbv zeta.
  assert (U : ∀ cs, undisturbed c (c <| inflight_sids := inflight_sids c ∖ {[sid]} |> <| cancelled := cs |>)).
  { intros cs. split; try done. intros [[Hlim Hst Hacc [D1 D2 D3] Hhp Hwin Hdis] ? ? ?].
    split; try done. split; try done. split; try done.
    cbn. intros k [Hk _]%elem_of_difference. by apply D3. }
  case_if; [apply U|]. specialize (U (cancelled c)). by destruct c.
Qed.

Lemma undisturbed_abort c now sid : undisturbed c (abort_handler c now sid).1.
Proof.
  unfold abort_handler. destruct (bool_decide _); [|apply undisturbed_refl].
  eapply undisturbed_trans; [apply (undisturbed_mark_cancelled c sid)|].
  set (c1 := mark_cancelled c sid). clearbody c1. unfold charge_inflight_reset_at. cbv zeta.
  set (c2 := c1 <| recv := _ |>).
  assert (U : undisturbed c1 c2) by (split; try done; intros [[] ? ? ?]; by split).
  destruct (_ <? _); [|done]. eapply undisturbed_trans; [exact U|apply undisturbed_goaway].
Qed.

(** The peer let the body deadline of [sid] pass. A header block that is open on [sid] goes
    on being collected, to be thrown away. *)
Lemma undisturbed_expire c sid r ss b emit :
  expire_receiving (recv c) (streams c) (budget c) sid = (r, ss, b, emit) →
  undisturbed c (c <| recv := r |> <| streams := ss |> <| budget := b |>).
Proof.
  intros He. unfold expire_receiving, state.teardown_receiving, state.drop_receiving, note_reset in He.
  destruct (streams c !! sid) as [s|] eqn:E; cycle 1.
  { injection He as <- <- <- _. apply undisturbed_ids. }
  destruct (bool_decide (open_header_block (recv c) = Some sid)) eqn:Eo; cbn [andb] in He.
  - apply bool_decide_eq_true in Eo. destruct (discarding_header_block (recv c)) eqn:Ed; cbn [negb] in He.
    + injection He as <- <- <- _. by apply undisturbed_without.
    + injection He as <- <- <- _. by apply undisturbed_without_open.
  - apply bool_decide_eq_false in Eo. injection He as <- <- <- _. by apply undisturbed_without.
Qed.

End steps.
