(* ===== verification/H2Send.v ===== *)
(** * Writing responses: [crates/hj-h2/src/server/send.rs]

    The outgoing streams of a connection and the scheduler that writes their DATA frames
    under flow control. A streaming body and a response completion are opaque, as in the
    code; a pull of the next chunk is logged, and its result comes back to [apply_pull].
    The output queue is the list of its segments. *)

From stdpp Require Import base list gmap strings.
From Stdlib Require Import ZArith Lia.
From S2P Require Import Prelude RustStr HttpUtil H2Frame H2State.

#[local] Open Scope record_scope.

Module send.

Definition SEND_STALL_MIN_PROGRESS : Z := 16 * 1024.

Record SendStall : Type := {
  since : Z;
  progressed : Z;
}.

Section send.
Context {StreamBody Completion : Type}.

Record OutStream : Type := {
  completion : option Completion;
  pending : list Z;
  body : option StreamBody;
  pulling : bool;
  eof : bool;
  done : bool;
  window : Z;
  cancel : bool;
  stall : option SendStall;
  send_blocked : bool;
}.

#[global] Instance OutStream_eta : Eta OutStream := fun r =>
  {| completion := completion r; pending := pending r; body := body r; pulling := pulling r;
     eof := eof r; done := done r; window := window r; cancel := cancel r; stall := stall r;
     send_blocked := send_blocked r |}.
#[global] Instance set_completion : Setter completion := ltac:(derive_setter).
#[global] Instance set_pending : Setter pending := ltac:(derive_setter).
#[global] Instance set_body : Setter body := ltac:(derive_setter).
#[global] Instance set_pulling : Setter pulling := ltac:(derive_setter).
#[global] Instance set_eof : Setter eof := ltac:(derive_setter).
#[global] Instance set_done : Setter done := ltac:(derive_setter).
#[global] Instance set_window : Setter window := ltac:(derive_setter).
#[global] Instance set_cancel : Setter cancel := ltac:(derive_setter).
#[global] Instance set_stall : Setter stall := ltac:(derive_setter).
#[global] Instance set_send_blocked : Setter send_blocked := ltac:(derive_setter).

(** What the functions of the module are given by mutable reference: the streams, the
    schedule, [OutQueue] with its completions, the connection window, the pulls in flight
    and the two counters of blocked streams. *)
Record Sender : Type := {
  outstreams : gmap Z OutStream;
  send_schedule : list Z;
  queue : list (list Z);
  completions : list Completion;
  send_conn : Z;
  pulls : list (Z * StreamBody);
  SEND_BLOCKED_CONN : Z;
  SEND_BLOCKED_STREAM : Z;
}.

#[global] Instance Sender_eta : Eta Sender := fun r =>
  {| outstreams := outstreams r; send_schedule := send_schedule r; queue := queue r;
     completions := completions r; send_conn := send_conn r; pulls := pulls r;
     SEND_BLOCKED_CONN := SEND_BLOCKED_CONN r; SEND_BLOCKED_STREAM := SEND_BLOCKED_STREAM r |}.
#[global] Instance set_outstreams : Setter outstreams := ltac:(derive_setter).
#[global] Instance set_send_schedule : Setter send_schedule := ltac:(derive_setter).
#[global] Instance set_queue : Setter queue := ltac:(derive_setter).
#[global] Instance set_completions : Setter completions := ltac:(derive_setter).
#[global] Instance set_send_conn : Setter send_conn := ltac:(derive_setter).
#[global] Instance set_pulls : Setter pulls := ltac:(derive_setter).
#[global] Instance set_SEND_BLOCKED_CONN : Setter SEND_BLOCKED_CONN := ltac:(derive_setter).
#[global] Instance set_SEND_BLOCKED_STREAM : Setter SEND_BLOCKED_STREAM := ltac:(derive_setter).

(** [OutQueue::frames] and [OutQueue::body] push a segment unless it is empty. *)
Definition push (a : Sender) (seg : list Z) : Sender :=
  if bool_decide (seg = []) then a else a <| queue := queue a ++ [seg] |>.

(** [if let Some(completion) = st.completion.take() { out.completions.push(completion) }] *)
Definition take_completion (st : OutStream) (a : Sender) : OutStream * Sender :=
  match completion st with
  | Some c => (st <| completion := None |>, a <| completions := completions a ++ [c] |>)
  | None => (st, a)
  end.

Definition data_header (sid n flags : Z) : list Z :=
  frame.write {| frame.length := n; frame.kind := frame.kind.DATA; frame.flags := flags;
                 frame.stream_id := sid |}.

Definition note_send_blocked (st : OutStream) (conn_starved : bool) (a : Sender)
    : OutStream * Sender :=
  if send_blocked st then (st, a)
  else
    (st <| send_blocked := true |>,
     if conn_starved then a <| SEND_BLOCKED_CONN := SEND_BLOCKED_CONN a + 1 |>
     else a <| SEND_BLOCKED_STREAM := SEND_BLOCKED_STREAM a + 1 |>).

(** [st] is the stream [sid], borrowed from the map. *)
Definition pump_one_frame (sid : Z) (st : OutStream) (a : Sender) (max_frame : Z)
    : bool * OutStream * Sender :=
  if negb (bool_decide (pending st = [])) then
    let allow := Z.min (Z.min (send_conn a) (window st)) max_frame in
    if allow <=? 0 then
      let '(st, a) := note_send_blocked st (send_conn a <=? 0) a in (false, st, a)
    else
      let n := Z.min allow (zlen (pending st)) in
      let chunk := take (Z.to_nat n) (pending st) in
      let st := st <| send_blocked := false |> <| pending := drop (Z.to_nat n) (pending st) |> in
      let last := eof st && bool_decide (pending st = []) in
      let a := push a (data_header sid (u32 n) (if last then frame.flags.END_STREAM else 0)) in
      let a := push a chunk in
      let a := a <| send_conn := send_conn a - n |> in
      let st := st <| window := window st - n |> in
      if last then
        let '(st, a) := take_completion (st <| done := true |>) a in (true, st, a)
      else (true, st, a)
  else if eof st && negb (done st) then
    let a := push a (data_header sid 0 frame.flags.END_STREAM) in
    let '(st, a) := take_completion (st <| done := true |>) a in (true, st, a)
  else (false, st, a).

Definition advance_stall (now : Z) (stall : option SendStall) (sent : Z) (waiting : bool)
    : option SendStall :=
  if negb waiting then None
  else
    match stall with
    | Some s =>
        if saturating_add (progressed s) sent <? SEND_STALL_MIN_PROGRESS
        then Some {| since := since s; progressed := progressed s + sent |}
        else Some {| since := now; progressed := 0 |}
    | None => Some {| since := now; progressed := 0 |}
    end.

(** [if !st.done && st.pending.is_empty() && !st.eof && !st.pulling { .. }] *)
Definition start_pull (sid : Z) (st : OutStream) (a : Sender) : OutStream * Sender :=
  if negb (done st) && bool_decide (pending st = []) && negb (eof st) && negb (pulling st) then
    match body st with
    | Some b =>
        (st <| body := None |> <| pulling := true |> <| cancel := true |>,
         a <| pulls := pulls a ++ [(sid, b)] |>)
    | None => (st, a)
    end
  else (st, a).

(** The visit of a stream that is not done: the frame, the pull, and the stall clock. *)
Definition visit_stream (now max_frame sid : Z) (st : OutStream) (a : Sender)
    : bool * OutStream * Sender :=
  let window_before := window st in
  let '(wrote, st, a) := pump_one_frame sid st a max_frame in
  let '(st, a) := start_pull sid st a in
  let st :=
    if negb (done st) then
      let sent := Z.max (window_before - window st) 0 in
      st <| stall := advance_stall now (stall st) sent (negb (bool_decide (pending st = []))) |>
    else st in
  (wrote, st, a).

(** One round of the loop, on the stream at the front of the schedule. *)
Definition visit (now max_frame : Z) (sid : Z) (a : Sender) : bool * Sender :=
  let '(keep, wrote, a) :=
    match outstreams a !! sid with
    | Some st =>
        if negb (done st) then
          let '(wrote, st, a) := visit_stream now max_frame sid st a in
          (negb (done st), wrote, a <| outstreams := <[sid := st]> (outstreams a) |>)
        else (false, false, a)
    | None => (false, false, a)
    end in
  (wrote,
   if keep then a <| send_schedule := send_schedule a ++ [sid] |>
   else a <| outstreams := delete sid (outstreams a) |>).

(** [None] only when the fuel runs out. *)
Fixpoint pump_loop (fuel : nat) (now max_frame : Z) (a : Sender) (visits_without_output : nat)
    : option Sender :=
  match visits_without_output with
  | O => Some a
  | S visits =>
      match send_schedule a with
      | [] => Some a
      | sid :: rest =>
          match fuel with
          | O => None
          | S fuel =>
              let '(wrote, a) := visit now max_frame sid (a <| send_schedule := rest |>) in
              pump_loop fuel now max_frame a
                (if wrote then length (send_schedule a) else visits)
          end
      end
  end.

(** The frames that are left to write. *)
Definition work (m : gmap Z OutStream) : nat :=
  Z.to_nat (sum_map (fun st => zlen (pending st) + 1) m).

Definition pump_fuel (a : Sender) : nat :=
  (work (outstreams a) + 1) * (length (send_schedule a) + 1).

Definition pump_streams (now : Z) (peer : state.PeerSettings) (a : Sender) : option Sender :=
  let max_frame := Z.max (state.max_frame_size peer) 1 in
  pump_loop (pump_fuel a) now max_frame a (length (send_schedule a)).

Definition cancel_outstream (a : Sender) (sid : Z) : Sender :=
  a <| outstreams := delete sid (outstreams a) |>.

(** [inr] is an error of the body, which ends its completion with [ResponseEnd::Error]. *)
Definition apply_pull (sid : Z) (b : StreamBody) (res : option (list Z + unit)) (a : Sender)
    : Sender :=
  match outstreams a !! sid with
  | None => a
  | Some st =>
      let st := st <| pulling := false |> in
      match res with
      | Some (inl data) =>
          let st := st <| body := Some b |> in
          let st :=
            if bool_decide (pending st = []) then st <| pending := data |>
            else st <| pending := pending st ++ data |> in
          a <| outstreams := <[sid := st]> (outstreams a) |>
      | None => a <| outstreams := <[sid := st <| eof := true |>]> (outstreams a) |>
      | Some (inr _) =>
          let a := push a (frame.write_rst_stream sid frame.error_code.INTERNAL_ERROR) in
          let st := st <| completion := None |> <| done := true |> in
          a <| outstreams := <[sid := st]> (outstreams a) |>
      end
  end.

(** The streams whose stall window has expired are reset; the earliest deadline left. *)
Definition stall_expired (now timeout : Z) (st : OutStream) : bool :=
  match stall st with Some s => since s + timeout <=? now | None => false end.

Definition earliest (a b : option Z) : option Z :=
  match a, b with
  | Some a, Some b => Some (Z.min a b)
  | Some a, None => Some a
  | None, b => b
  end.

Definition reset_all (a : Sender) (expired : list Z) : Sender :=
  fold_left (fun a sid =>
    cancel_outstream (push a (frame.write_rst_stream sid frame.error_code.CANCEL)) sid) expired a.

Definition reset_stalled_streams (now : Z) (timeout : option Z) (a : Sender)
    : Sender * option Z :=
  match timeout with
  | None => (a, None)
  | Some timeout =>
      let entries := map_to_list (outstreams a) in
      let expired := (filter (fun e => stall_expired now timeout e.2 = true) entries).*1 in
      let waiting := omap (fun e => match stall e.2 with
                                    | Some s => if stall_expired now timeout e.2 then None
                                                else Some (since s + timeout)
                                    | None => None
                                    end) entries in
      (reset_all a expired, foldr (fun d e => earliest (Some d) e) None waiting)
  end.

(** One stream of the scan: the start of its wait is kept, or begins now, or is dropped. *)
Definition drain_idle_of (now : Z) (st : OutStream) (since : option Z) : option Z :=
  if done st || negb (pulling st) || negb (bool_decide (pending st = [])) then None
  else Some (match since with Some t => t | None => now end).

Definition reset_drain_idle_streams (now grace : Z) (idle_since : gmap Z Z) (a : Sender)
    : Sender * gmap Z Z * option Z :=
  let idle := map_imap (fun sid st => drain_idle_of now st (idle_since !! sid)) (outstreams a) in
  let expired := (filter (fun e => e.2 + grace <= now) (map_to_list idle)).*1 in
  let waiting := (fun e => e.2 + grace) <$> filter (fun e => ¬ (e.2 + grace <= now)) (map_to_list idle) in
  (reset_all a expired, foldr (fun sid m => delete sid m) idle expired,
   foldr (fun d e => earliest (Some d) e) None waiting).

End send.
End send.
