(* ===== verification/H2Pump.v ===== *)
(** * What the send scheduler guarantees

    [pump_streams] of [crates/hj-h2/src/server/send.rs] ends, writes the pending octets of
    each response in order within both flow-control windows and the peer's frame size, and
    stops only when no stream can write. *)

From stdpp Require Import base list gmap strings.
From Stdlib Require Import ZArith Lia.
From S2P Require Import Prelude RustStr HttpUtil H2Frame H2State H2Send.

Import send.
#[local] Open Scope record_scope.

Section pump.
Context {StreamBody Completion : Type}.
Abbreviation OutStream := (@OutStream StreamBody Completion).
Abbreviation Sender := (@Sender StreamBody Completion).

(** ** The log of a pass *)

(** A DATA frame: its stream, its payload, and whether it ends the stream. *)
Record Data : Type := {
  d_sid : Z;
  d_chunk : list Z;
  d_last : bool;
}.

Definition wire (f : Data) : list (list Z) :=
  data_header (d_sid f) (zlen (d_chunk f)) (if d_last f then frame.flags.END_STREAM else 0)
  :: (if bool_decide (d_chunk f = []) then [] else [d_chunk f]).

(** The frames of one stream. *)
Definition frames_of (sid : Z) (log : list Data) : list Data :=
  filter (fun f => d_sid f = sid) log.

Definition payload (log : list Data) : list Z := mjoin (d_chunk <$> log).

(** What a pass did to one stream: [l] are its frames. *)
Definition delivers (o o' : option OutStream) (l : list Data) : Prop :=
  match o with
  | Some st =>
      if done st then l = [] ∧ (o' = o ∨ o' = None)
      else
        zlen (payload l) <= Z.max 0 (window st) ∧
        match o' with
        | Some st' =>
            done st' = false ∧ pending st = payload l ++ pending st' ∧ eof st' = eof st ∧
            window st' = window st - zlen (payload l) ∧ Forall (fun f => d_last f = false) l
        | None =>
            eof st = true ∧ pending st = payload l ∧
            ∃ l0 f, l = l0 ++ [f] ∧ d_last f = true ∧ Forall (fun f => d_last f = false) l0
        end
  | None => o' = None ∧ l = []
  end.

Lemma payload_app l1 l2 : payload (l1 ++ l2) = payload l1 ++ payload l2.
Proof. unfold payload. by rewrite fmap_app, join_app. Qed.

Lemma frames_of_app sid l1 l2 : frames_of sid (l1 ++ l2) = frames_of sid l1 ++ frames_of sid l2.
Proof. apply filter_app. Qed.

Lemma delivers_refl o : delivers o o [].
Proof.
  destruct o as [st|]; [|done]. unfold delivers. destruct (done st) eqn:E; [auto|].
  change (zlen (payload [])) with 0. change (payload [] ++ pending st) with (pending st).
  split_and!; try done; lia.
Qed.

Lemma delivers_trans o1 o2 o3 l1 l2 :
  delivers o1 o2 l1 → delivers o2 o3 l2 → delivers o1 o3 (l1 ++ l2).
Proof.
  unfold delivers. destruct o1 as [s1|]; [destruct (done s1) eqn:D1|].
  - intros [-> [-> | ->]] H2; [by rewrite D1 in H2|]. destruct H2 as [-> ->]. auto.
  - intros [Hw H1]. destruct o2 as [s2|]; cycle 1.
    { intros [-> ->]. rewrite app_nil_r. done. }
    destruct H1 as (D2 & Hp & He & Hwin & Hl). rewrite D2. intros [Hw2 H2].
    rewrite payload_app, zlen_app. pose proof (zlen_nonneg (payload l1)). split; [lia|].
    destruct o3 as [s3|].
    + destruct H2 as (D3 & Hp2 & He2 & Hwin2 & Hl2).
      split_and!; [done| |congruence|lia|by apply Forall_app].
      by rewrite Hp, Hp2, app_assoc.
    + destruct H2 as (He2 & Hp2 & l0 & f & -> & Hf & Hl0).
      split_and!; [congruence|by rewrite Hp, Hp2|].
      exists (l1 ++ l0), f. split_and!; [by rewrite app_assoc|done|by apply Forall_app].
  - intros [-> ->] [-> ->]. done.
Qed.

(** ** One frame *)

(** A stream that cannot write: no credit, or nothing to send until its pull comes back. *)
Definition starved (conn : Z) (st : OutStream) : Prop :=
  pending st ≠ [] ∧ Z.min conn (window st) <= 0 ∨ pending st = [] ∧ eof st = false.

(** What a visit leaves alone. *)
Definition same_flow (st st' : OutStream) : Prop :=
  pending st' = pending st ∧ window st' = window st ∧ eof st' = eof st ∧ done st' = done st.

Definition same_output (a a' : Sender) : Prop :=
  outstreams a' = outstreams a ∧ send_schedule a' = send_schedule a ∧ queue a' = queue a ∧
  send_conn a' = send_conn a.

(** The frame [f] was written for [st]. *)
Record written (max_frame sid : Z) (f : Data) (st st' : OutStream) (a a' : Sender) : Prop := {
  wr_sid : d_sid f = sid;
  wr_queue : queue a' = queue a ++ wire f;
  wr_size : zlen (d_chunk f) <= max_frame;
  wr_conn : send_conn a' = send_conn a - zlen (d_chunk f);
  wr_credit : zlen (d_chunk f) <= Z.max 0 (Z.min (send_conn a) (window st));
  wr_pending : pending st = d_chunk f ++ pending st';
  wr_window : window st' = window st - zlen (d_chunk f);
  wr_eof : eof st' = eof st;
  wr_done : done st' = d_last f;
  wr_last : d_last f = true → eof st = true ∧ pending st' = [];
  wr_progress : d_last f = true ∨ d_chunk f ≠ [];
  wr_streams : outstreams a' = outstreams a;
  wr_schedule : send_schedule a' = send_schedule a;
}.

Lemma push_fields (a : Sender) seg :
  outstreams (push a seg) = outstreams a ∧ send_schedule (push a seg) = send_schedule a ∧
  send_conn (push a seg) = send_conn a ∧
  queue (push a seg) = queue a ++ (if bool_decide (seg = []) then [] else [seg]).
Proof. unfold push. case_bool_decide; cbn; by rewrite ?app_nil_r. Qed.

Lemma data_header_nonempty sid n fl : data_header sid n fl ≠ [].
Proof. unfold data_header, frame.write. cbn. done. Qed.

(** Taking the completion changes nothing else. *)
Lemma take_completion_fields (st : OutStream) (a : Sender) st' a' :
  take_completion st a = (st', a') → same_flow st st' ∧ same_output a a'.
Proof. unfold take_completion. case_match; by intros [= <- <-]. Qed.

Lemma note_send_blocked_fields (st : OutStream) starved (a : Sender) st' a' :
  note_send_blocked st starved a = (st', a') → same_flow st st' ∧ same_output a a'.
Proof. unfold note_send_blocked. repeat case_match; by intros [= <- <-]. Qed.

Lemma push_wire (a : Sender) sid chunk (last : bool) n :
  zlen chunk = n → 0 <= n < 2 ^ 32 →
  queue (push (push a (data_header sid (u32 n) (if last then frame.flags.END_STREAM else 0))) chunk)
  = queue a ++ wire {| d_sid := sid; d_chunk := chunk; d_last := last |}.
Proof.
  intros Hn Hr. destruct (push_fields (push a (data_header sid (u32 n)
    (if last then frame.flags.END_STREAM else 0))) chunk) as (_ & _ & _ & ->).
  destruct (push_fields a (data_header sid (u32 n) (if last then frame.flags.END_STREAM else 0)))
    as (_ & _ & _ & ->).
  rewrite bool_decide_eq_false_2 by apply data_header_nonempty.
  rewrite <-app_assoc. unfold wire. cbn [d_sid d_chunk d_last]. rewrite Hn.
  by rewrite (wrap_id 32) by lia.
Qed.

(** The frame with data. *)
Lemma pump_data_spec sid (st : OutStream) (a : Sender) max_frame wrote st' a' :
  0 < max_frame < 2 ^ 32 → done st = false → pending st ≠ [] →
  0 < Z.min (send_conn a) (window st) →
  pump_one_frame sid st a max_frame = (wrote, st', a') →
  wrote = true ∧ ∃ f, written max_frame sid f st st' a a'.
Proof.
  intros Hm Hd Hp Hc Hr. unfold pump_one_frame in Hr. rewrite bool_decide_eq_false_2 in Hr by done.
  cbn [negb] in Hr. cbv zeta in Hr.
  destruct (Z.leb_spec (Z.min (Z.min (send_conn a) (window st)) max_frame) 0); [lia|].
  remember (Z.min _ (zlen (pending st))) as n eqn:En in Hr.
  assert (Hpos : 0 < zlen (pending st)).
  { destruct (pending st); [done|]. rewrite zlen_cons. pose proof (zlen_nonneg l). lia. }
  assert (Hn : zlen (take (Z.to_nat n) (pending st)) = n) by (rewrite zlen_take; lia).
  pose proof (take_drop (Z.to_nat n) (pending st)) as Htd.
  set (chunk := take _ (pending st)) in *. set (rest := drop _ (pending st)) in *.
  assert (Hn0 : 0 < n <= Z.min (Z.min (send_conn a) (window st)) max_frame) by lia.
  assert (Hch : chunk ≠ []) by (intros E; rewrite E in Hn; unfold zlen in Hn; cbn in Hn; lia).
  clearbody chunk rest. clear En.
  set (last := eof _ && _) in Hr.
  pose proof (push_wire a sid chunk last n Hn ltac:(lia)) as Hq.
  set (a1 := push a (data_header _ _ _)) in *.
  destruct (push_fields a (data_header sid (u32 n) (if last then frame.flags.END_STREAM else 0)))
    as (F1 & F2 & F3 & _). fold a1 in F1, F2, F3.
  destruct (push_fields a1 chunk) as (G1 & G2 & G3 & _).
  set (a2 := push a1 chunk) in *. clearbody a2. rewrite F1, F2, F3 in *. clear F1 F2 F3. clearbody a1.
  assert (Hlast : last = true → eof st = true ∧ rest = []).
  { unfold last. cbn. intros [? ?%bool_decide_eq_true]%andb_true_iff. done. }
  clearbody last.
  set (st1 := st <| send_blocked := false |> <| pending := rest |>) in Hr.
  set (a3 := a2 <| send_conn := send_conn a2 - n |>) in Hr.
  set (st2 := st1 <| window := window st1 - n |>) in Hr.
  assert (H3 : wrote = true ∧ same_flow (st2 <| done := last |>) st' ∧ same_output a3 a').
  { destruct last; [|by injection Hr as <- <- <-].
    destruct (take_completion _ a3) as [st3 a4] eqn:Et. apply take_completion_fields in Et.
    by injection Hr as <- <- <-. }
  destruct H3 as (-> & (K1 & K2 & K3 & K4) & (L1 & L2 & L3 & L4)). cbn in K1, K2, K3, K4, L1, L2, L3, L4.
  split; [done|]. eexists {| d_sid := sid; d_chunk := chunk; d_last := last |}.
  split; cbn [d_sid d_chunk d_last]; rewrite ?K1, ?K2, ?K3, ?K4, ?L1, ?L2, ?L3, ?L4, ?Hn; auto; lia.
Qed.

(** The frame that only ends the stream. *)
Lemma pump_end_spec sid (st : OutStream) (a : Sender) max_frame wrote st' a' :
  0 < max_frame → done st = false → pending st = [] → eof st = true →
  pump_one_frame sid st a max_frame = (wrote, st', a') →
  wrote = true ∧ ∃ f, written max_frame sid f st st' a a'.
Proof.
  intros Hm Hd Hp He Hr. unfold pump_one_frame in Hr. rewrite Hp, He, Hd in Hr.
  rewrite bool_decide_eq_true_2 in Hr by done. cbn [negb andb] in Hr.
  destruct (push_fields a (data_header sid 0 frame.flags.END_STREAM)) as (F1 & F2 & F3 & F4).
  rewrite bool_decide_eq_false_2 in F4 by apply data_header_nonempty.
  destruct (take_completion _ _) as [st1 a1] eqn:Et.
  apply take_completion_fields in Et as ((K1 & K2 & K3 & K4) & (L1 & L2 & L3 & L4)).
  injection Hr as <- <- <-. split; [done|].
  exists {| d_sid := sid; d_chunk := []; d_last := true |}. cbn in K1, K2, K3, K4.
  split; cbn [d_sid d_chunk d_last]; change (zlen []) with 0;
    rewrite ?K1, ?K2, ?K3, ?K4, ?L1, ?L2, ?L3, ?L4, ?F1, ?F2, ?F3, ?F4; auto; try lia; done.
Qed.

Lemma pump_one_frame_spec sid (st : OutStream) (a : Sender) max_frame wrote st' a' :
  0 < max_frame < 2 ^ 32 → done st = false →
  pump_one_frame sid st a max_frame = (wrote, st', a') →
  wrote = false ∧ same_flow st st' ∧ same_output a a' ∧ starved (send_conn a) st ∨
  wrote = true ∧ ∃ f, written max_frame sid f st st' a a'.
Proof.
  intros Hm Hd Hr. destruct (decide (pending st = [])) as [Hp|Hp].
  - destruct (eof st) eqn:He; [right; eapply pump_end_spec; eauto; lia|left].
    unfold pump_one_frame in Hr. rewrite Hp, He in Hr.
    rewrite bool_decide_eq_true_2 in Hr by done. cbn [negb andb] in Hr. injection Hr as <- <- <-.
    split_and!; try done. by right.
  - destruct (decide (0 < Z.min (send_conn a) (window st))) as [Hc|Hc];
      [right; eapply pump_data_spec; eauto|left].
    unfold pump_one_frame in Hr. rewrite bool_decide_eq_false_2 in Hr by done. cbn in Hr.
    destruct (Z.leb_spec (Z.min (Z.min (send_conn a) (window st)) max_frame) 0); [|lia].
    destruct (note_send_blocked _ _ _) as [st1 a1] eqn:En. apply note_send_blocked_fields in En as [? ?].
    injection Hr as <- <- <-. split_and!; try done. left. split; [done|lia].
Qed.

(** ** A visit *)

Lemma start_pull_fields sid (st : OutStream) (a : Sender) st' a' :
  start_pull sid st a = (st', a') →
  same_flow st st' ∧ same_output a a' ∧
  (pending st = [] → eof st = false → done st = false → pulling st' = true ∨ body st' = None).
Proof.
  unfold start_pull. case_match eqn:E; [case_match|]; intros [= <- <-]; split_and!; try done; auto.
  intros Hp He Hd. rewrite Hp, He, Hd in E. cbn in E. left. by apply negb_false_iff.
Qed.

(** A starved stream that waits for its backend has its pull under way. *)
Definition pulled (st : OutStream) : Prop :=
  pending st = [] → eof st = false → pulling st = true ∨ body st = None.

Lemma visit_stream_spec now max_frame sid (st : OutStream) (a : Sender) wrote st' a' :
  0 < max_frame < 2 ^ 32 → done st = false →
  visit_stream now max_frame sid st a = (wrote, st', a') →
  wrote = false ∧ same_flow st st' ∧ same_output a a' ∧ starved (send_conn a) st ∧ pulled st' ∨
  wrote = true ∧ ∃ f, written max_frame sid f st st' a a'.
Proof.
  intros Hm Hd Hr. unfold visit_stream in Hr.
  destruct (pump_one_frame sid st a max_frame) as [[w1 st1] a1] eqn:E1.
  apply pump_one_frame_spec in E1; [|done..].
  destruct (start_pull sid st1 a1) as [st2 a2] eqn:E2. apply start_pull_fields in E2 as (S & O & Hpl).
  set (st3 := if negb (done st2) then _ else st2) in Hr.
  assert (H3 : same_flow st2 st3 ∧ pulling st3 = pulling st2 ∧ body st3 = body st2).
  { subst st3. by destruct (negb (done st2)). }
  clearbody st3. destruct H3 as ((A1 & A2 & A3 & A4) & A5 & A6). destruct S as (B1 & B2 & B3 & B4).
  destruct O as (O1 & O2 & O3 & O4). injection Hr as <- <- <-.
  destruct E1 as [(-> & (C1 & C2 & C3 & C4) & (D1 & D2 & D3 & D4) & Hs)|(-> & f & [])].
  - left. unfold same_flow, same_output, pulled. split_and!; try congruence. rewrite A5, A6.
    intros. apply Hpl; congruence.
  - right. split; [done|]. exists f. split; try done; try congruence. intros Hl.
    rewrite A1, B1. by apply wr_last0.
Qed.

(** The work that is left never grows, and every frame takes from it. *)
Lemma work_nonneg (m : gmap Z OutStream) : 0 <= sum_map (fun st => zlen (pending st) + 1) m.
Proof. apply sum_map_nonneg. intros k st _. pose proof (zlen_nonneg (pending st)). cbn. lia. Qed.

Lemma work_delete (m : gmap Z OutStream) k st :
  m !! k = Some st → (work (delete k m) < work m)%nat.
Proof.
  intros Hk. unfold work. rewrite (sum_map_delete _ m k st Hk).
  pose proof (work_nonneg (delete k m)). pose proof (zlen_nonneg (pending st)). lia.
Qed.

Lemma work_delete_le (m : gmap Z OutStream) k : (work (delete k m) <= work m)%nat.
Proof.
  destruct (m !! k) as [st|] eqn:E; [|by rewrite delete_id].
  pose proof (work_delete m k st E). lia.
Qed.

Lemma work_insert (m : gmap Z OutStream) k st st' :
  m !! k = Some st →
  (Z.of_nat (work (<[k := st']> m)) = Z.of_nat (work m) - zlen (pending st) + zlen (pending st')).
Proof.
  intros Hk. unfold work. rewrite (sum_map_insert _ m k st st' Hk).
  rewrite (sum_map_delete _ m k st Hk). pose proof (work_nonneg (delete k m)).
  pose proof (zlen_nonneg (pending st)). pose proof (zlen_nonneg (pending st')). lia.
Qed.

(** The streams are scheduled, each once. *)
Record scheduled (a : Sender) : Prop := {
  sch_nodup : NoDup (send_schedule a);
  sch_all : ∀ sid st, outstreams a !! sid = Some st → sid ∈ send_schedule a;
}.

(** What rounds of the loop did, with the frames they wrote. *)
Record pass (max_frame : Z) (a a' : Sender) (log : list Data) : Prop := {
  pass_queue : queue a' = queue a ++ mjoin (wire <$> log);
  pass_conn : send_conn a' = send_conn a - zlen (payload log);
  pass_credit : zlen (payload log) <= Z.max 0 (send_conn a);
  pass_size : Forall (fun f => zlen (d_chunk f) <= max_frame) log;
  pass_streams : ∀ sid,
    delivers (outstreams a !! sid) (outstreams a' !! sid) (frames_of sid log);
}.

Lemma pass_refl max_frame a : pass max_frame a a [].
Proof.
  split; try done; change (payload []) with (@nil Z); change (zlen []) with 0; try lia.
  - by rewrite app_nil_r.
  - intros sid. apply delivers_refl.
Qed.

Lemma pass_trans max_frame a1 a2 a3 l1 l2 :
  pass max_frame a1 a2 l1 → pass max_frame a2 a3 l2 → pass max_frame a1 a3 (l1 ++ l2).
Proof.
  intros [Q1 C1 R1 S1 D1] [Q2 C2 R2 S2 D2]. pose proof (zlen_nonneg (payload l1)).
  split; rewrite ?payload_app, ?zlen_app; try lia.
  - by rewrite Q2, Q1, fmap_app, join_app, app_assoc.
  - by apply Forall_app.
  - intros sid. rewrite frames_of_app. by eapply delivers_trans.
Qed.

(** A stream the loop has nothing to do for. *)
Definition resting (conn : Z) (st : OutStream) : Prop :=
  done st = false ∧ starved conn st ∧ pulled st.

(** One round. *)
Record round (max_frame sid : Z) (rest : list Z) (wrote : bool) (a a' : Sender) : Prop := {
  rd_pass : ∃ log, pass max_frame a a' log;
  rd_scheduled : scheduled a';
  rd_sub : send_schedule a' ⊆ send_schedule a;
  rd_length : (length (send_schedule a') <= length (send_schedule a))%nat;
  rd_work : (if wrote then work (outstreams a') < work (outstreams a)
             else work (outstreams a') <= work (outstreams a))%nat;
  rd_idle : wrote = false →
    send_conn a' = send_conn a ∧
    (∀ k, k ≠ sid → outstreams a' !! k = outstreams a !! k) ∧
    (send_schedule a' = rest ∨
     send_schedule a' = rest ++ [sid] ∧
     ∃ st, outstreams a' !! sid = Some st ∧ resting (send_conn a') st);
}.

(** The streams stay scheduled when the front one goes, or goes to the back. *)
Lemma scheduled_drop a sid rest a' :
  scheduled a → send_schedule a = sid :: rest →
  send_schedule a' = rest → outstreams a' = delete sid (outstreams a) → scheduled a'.
Proof.
  intros [Hn Ha] E Es Eo. rewrite E in *. apply NoDup_cons in Hn as [_ Hn]. split.
  - by rewrite Es.
  - intros k st. rewrite Es, Eo. intros [Hk Hl]%lookup_delete_Some.
    apply Ha in Hl as [-> |]%elem_of_cons; done.
Qed.

Lemma scheduled_keep a sid rest a' st' :
  scheduled a → send_schedule a = sid :: rest →
  send_schedule a' = rest ++ [sid] → outstreams a' = <[sid := st']> (outstreams a) → scheduled a'.
Proof.
  intros [Hn Ha] E Es Eo. rewrite E in *. apply NoDup_cons in Hn as [Hs Hn]. split.
  - rewrite Es. apply NoDup_app. split_and!; [done| |apply NoDup_singleton].
    by intros k Hk ->%list_elem_of_singleton.
  - intros k st. rewrite Es, Eo, elem_of_app, list_elem_of_singleton.
    intros [[-> _]|[_ Hl]]%lookup_insert_Some; [by right|].
    apply Ha in Hl as [-> |]%elem_of_cons; auto.
Qed.

(** A pass without output. *)
Lemma pass_silent max_frame a a' :
  queue a' = queue a → send_conn a' = send_conn a →
  (∀ sid, delivers (outstreams a !! sid) (outstreams a' !! sid) []) → pass max_frame a a' [].
Proof.
  intros Hq Hc Hd. split; try done; change (payload []) with (@nil Z); change (zlen []) with 0; try lia.
  by rewrite app_nil_r.
Qed.

Lemma round_drop max_frame sid rest a :
  scheduled a → send_schedule a = sid :: rest →
  match outstreams a !! sid with Some st => done st = true | None => True end →
  round max_frame sid rest false a
    (a <| send_schedule := rest |> <| outstreams := delete sid (outstreams a) |>).
Proof.
  intros Hs E Hd. split.
  - exists []. apply pass_silent; try done. cbn. intros k. destruct (decide (k = sid)) as [->|].
    + rewrite lookup_delete_eq. destruct (outstreams a !! sid) as [st|]; cbn; [|done].
      rewrite Hd. auto.
    + rewrite lookup_delete_ne by done. apply delivers_refl.
  - by eapply scheduled_drop.
  - rewrite E. cbn. set_solver +.
  - rewrite E. cbn. lia.
  - apply work_delete_le.
  - intros _. cbn. split_and!; [done|intros; by rewrite lookup_delete_ne|by left].
Qed.

Lemma round_idle max_frame sid rest a a1 st st' :
  scheduled a → send_schedule a = sid :: rest → outstreams a !! sid = Some st → done st = false →
  same_output (a <| send_schedule := rest |>) a1 → same_flow st st' →
  starved (send_conn a) st → pulled st' →
  round max_frame sid rest false a
    (a1 <| outstreams := <[sid := st']> (outstreams a1) |>
        <| send_schedule := send_schedule a1 ++ [sid] |>).
Proof.
  intros Hs E Hk Hd (O1 & O2 & O3 & O4) (F1 & F2 & F3 & F4) Hst Hp. cbn in O1, O2, O3, O4.
  split; cbn; rewrite ?O1, ?O2, ?O4.
  - exists []. apply pass_silent; try done. cbn. rewrite ?O1. intros k.
    destruct (decide (k = sid)) as [->|].
    + rewrite lookup_insert_eq, Hk. unfold delivers. rewrite Hd.
      change (payload []) with (@nil Z). change (zlen []) with 0.
      rewrite app_nil_l. split_and!; try congruence; try lia. constructor.
    + rewrite lookup_insert_ne by done. apply delivers_refl.
  - by apply (scheduled_keep a sid rest _ st' Hs E); cbn; rewrite ?O1, ?O2.
  - rewrite E. set_solver +.
  - rewrite E, length_app. cbn. lia.
  - pose proof (work_insert (outstreams a) sid st st' Hk). rewrite F1 in *. lia.
  - intros _. split_and!; [done|intros; by rewrite lookup_insert_ne|right; split; [done|]].
    exists st'. rewrite lookup_insert_eq. split; [done|]. unfold resting, starved in *.
    by rewrite F1, F2, F3, F4.
Qed.

(** The frame of one stream, as a pass. *)
Lemma pass_written max_frame sid a a1 a' st st' f :
  outstreams a !! sid = Some st → done st = false →
  outstreams a1 = outstreams a → queue a1 = queue a → send_conn a1 = send_conn a →
  written max_frame sid f st st' a1 a' →
  pass max_frame a
    (a' <| outstreams := if d_last f then delete sid (outstreams a) else <[sid := st']> (outstreams a) |>)
    [f].
Proof.
  intros Hk Hd E1 E2 E3 []. assert (Hp : payload [f] = d_chunk f) by apply app_nil_r.
  split; rewrite ?Hp.
  - change (mjoin (wire <$> [f])) with (wire f ++ []). rewrite app_nil_r, <-E2. done.
  - by rewrite <-E3.
  - rewrite <-E3. lia.
  - by constructor.
  - intros k. cbn -[frames_of delivers]. unfold frames_of. rewrite filter_cons, filter_nil, wr_sid0.
    destruct (decide (k = sid)) as [->|Hne]; [rewrite decide_True by done|rewrite decide_False by done].
    + rewrite Hk. unfold delivers. rewrite Hd, Hp. split; [lia|].
      destruct (d_last f) eqn:El.
      * rewrite lookup_delete_eq. destruct wr_last0 as [? Hp']; [done|]. rewrite Hp', app_nil_r in *.
        split_and!; try done. exists [], f. by split_and!.
      * rewrite lookup_insert_eq. split_and!; try done. by constructor.
    + destruct (d_last f); [rewrite lookup_delete_ne by done|rewrite lookup_insert_ne by done];
        apply delivers_refl.
Qed.

Lemma round_wrote max_frame sid rest a a1 st st' f :
  scheduled a → send_schedule a = sid :: rest → outstreams a !! sid = Some st → done st = false →
  written max_frame sid f st st' (a <| send_schedule := rest |>) a1 →
  round max_frame sid rest true a
    (let a2 := a1 <| outstreams := <[sid := st']> (outstreams a1) |> in
     if negb (done st') then a2 <| send_schedule := send_schedule a2 ++ [sid] |>
     else a2 <| outstreams := delete sid (outstreams a2) |>).
Proof.
  intros Hs E Hk Hd W. pose proof W as []. cbn in wr_streams0, wr_schedule0.
  eapply (pass_written max_frame sid a) in W as P; [|done..].
  cbv zeta. rewrite wr_done0. destruct (d_last f) eqn:El; cbn [negb].
  - split; try done; cbn; rewrite ?wr_streams0, ?wr_schedule0, ?delete_insert_eq.
    + exists [f]. by destruct P.
    + by apply (scheduled_drop a sid rest _ Hs E); cbn; rewrite ?wr_streams0, ?delete_insert_eq.
    + rewrite E. set_solver +.
    + rewrite E. cbn. lia.
    + by eapply work_delete.
  - split; try done; cbn; rewrite ?wr_streams0, ?wr_schedule0.
    + exists [f]. by destruct P.
    + by apply (scheduled_keep a sid rest _ st' Hs E); cbn; rewrite ?wr_streams0, ?wr_schedule0.
    + rewrite E. set_solver +.
    + rewrite E, length_app. cbn. lia.
    + pose proof (work_insert (outstreams a) sid st st' Hk). rewrite wr_pending0, zlen_app in *.
      destruct wr_progress0 as [|Hc]; [done|].
      assert (0 < zlen (d_chunk f)); [|lia]. destruct (d_chunk f) as [|x l]; [done|].
      rewrite zlen_cons. pose proof (zlen_nonneg l). lia.
Qed.

Lemma visit_round now max_frame sid rest a wrote a' :
  0 < max_frame < 2 ^ 32 → scheduled a → send_schedule a = sid :: rest →
  visit now max_frame sid (a <| send_schedule := rest |>) = (wrote, a') →
  round max_frame sid rest wrote a a'.
Proof.
  intros Hm Hs E Hv. unfold visit in Hv.
  change (outstreams (a <| send_schedule := rest |>)) with (outstreams a) in Hv.
  destruct (outstreams a !! sid) as [st|] eqn:Hk.
  - destruct (done st) eqn:Hd; cbn [negb] in Hv.
    + injection Hv as <- <-. apply round_drop; [done..|]. by rewrite Hk.
    + destruct (visit_stream now max_frame sid st _) as [[w st'] a1] eqn:Ev.
      apply visit_stream_spec in Ev as [(-> & F & O & St & Pl)|(-> & f & W)]; [|..|done|done].
      * injection Hv as <- <-. pose proof F as (_ & _ & _ & ->). rewrite Hd. cbn [negb].
        by eapply round_idle.
      * injection Hv as <- <-. by eapply round_wrote.
  - injection Hv as <- <-. apply round_drop; [done..|]. by rewrite Hk.
Qed.

(** ** The loop *)

(** The streams at the back of the schedule, visited since the last frame, are at rest. *)
Definition rests (a : Sender) (back : list Z) : Prop :=
  ∀ k, k ∈ back → ∃ st, outstreams a !! k = Some st ∧ resting (send_conn a) st.

(** What the loop ends with. *)
Definition settled (max_frame : Z) (a : Sender) (r : option Sender) : Prop :=
  ∃ a' log, r = Some a' ∧ pass max_frame a a' log ∧ scheduled a' ∧
    send_schedule a' ⊆ send_schedule a ∧
    ∀ k st, outstreams a' !! k = Some st → resting (send_conn a') st.

Lemma settled_here max_frame a :
  scheduled a → rests a (send_schedule a) → settled max_frame a (Some a).
Proof.
  intros Hs Hr. exists a, []. split_and!; [done|apply pass_refl|done..|]. intros k st Hk.
  destruct (Hr k (sch_all a Hs k st Hk)) as (st' & ? & ?). congruence.
Qed.

Lemma settled_step max_frame a a1 r log :
  pass max_frame a a1 log → send_schedule a1 ⊆ send_schedule a →
  settled max_frame a1 r → settled max_frame a r.
Proof.
  intros P Hsub (a' & log' & -> & P' & Hs & Hsub' & Hr). exists a', (log ++ log').
  split_and!; try done; [by eapply pass_trans|by etrans].
Qed.

(** An idle round moves the stream in front to those at rest, or drops it. *)
Lemma rests_round max_frame sid rest a a1 front back :
  scheduled a → send_schedule a = sid :: front ++ back → rest = front ++ back →
  round max_frame sid rest false a a1 → rests a back →
  ∃ back', send_schedule a1 = front ++ back' ∧ rests a1 back'.
Proof.
  intros Hs E -> R Hb. destruct (rd_idle _ _ _ _ _ _ R eq_refl) as (Hc & Ho & Hsch).
  assert (Hb' : rests a1 back).
  { intros k Hk. rewrite Hc, Ho; [by apply Hb|]. intros ->.
    pose proof (sch_nodup a Hs) as Hn. rewrite E in Hn. apply NoDup_cons in Hn as [Hn _].
    apply Hn, elem_of_app. by right. }
  destruct Hsch as [-> |(-> & st & Hk & Hr)]; [by exists back|].
  exists (back ++ [sid]). rewrite app_assoc. split; [done|].
  intros k [Hk' | ->%list_elem_of_singleton]%elem_of_app; [by apply Hb'|]. by exists st.
Qed.

Lemma pump_loop_spec now max_frame fuel N a visits front back :
  0 < max_frame < 2 ^ 32 → scheduled a → send_schedule a = front ++ back →
  length front = visits → (length (send_schedule a) <= N)%nat →
  (work (outstreams a) * (N + 1) + visits <= fuel)%nat → rests a back →
  settled max_frame a (pump_loop fuel now max_frame a visits).
Proof.
  intros Hm. revert a visits front back.
  induction fuel as [|fuel IH]; intros a visits front back Hs E Hf Hn Hfuel Hb.
  { assert (visits = 0%nat) as -> by lia. destruct front; [|done].
    apply settled_here; [done|by rewrite E]. }
  destruct front as [|sid front]; cbn in Hf; subst visits; cbn [pump_loop].
  { apply settled_here; [done|by rewrite E]. }
  rewrite E. change ((sid :: front) ++ back) with (sid :: front ++ back) in *.
  cbv beta iota. destruct (@visit StreamBody Completion now max_frame sid _) as [wrote a1] eqn:Ev.
  apply visit_round in Ev as R; [|done..].
  destruct (rd_pass _ _ _ _ _ _ R) as [log P]. pose proof (rd_scheduled _ _ _ _ _ _ R) as Hs1.
  pose proof (rd_length _ _ _ _ _ _ R) as Hl. pose proof (rd_work _ _ _ _ _ _ R) as Hw.
  eapply settled_step; [exact P|exact (rd_sub _ _ _ _ _ _ R)|]. destruct wrote.
  - apply (IH a1 _ (send_schedule a1) []); try done; [by rewrite app_nil_r|lia| |].
    + nia.
    + intros k Hk. by apply elem_of_nil in Hk.
  - eapply rests_round in R as (back' & E1 & Hb1); [|done..].
    apply (IH a1 _ front back'); try done; [lia|nia].
Qed.

Lemma pump_streams_settled now peer (a : Sender) :
  state.max_frame_size peer < 2 ^ 32 → scheduled a →
  settled (Z.max (state.max_frame_size peer) 1) a (pump_streams now peer a).
Proof.
  intros Hm Hs. unfold pump_streams, pump_fuel.
  apply (pump_loop_spec _ _ _ (length (send_schedule a)) a _ (send_schedule a) []); try done; try lia.
  - by rewrite app_nil_r.
  - intros k Hk. by apply elem_of_nil in Hk.
Qed.

(** ** Properties *)

(** C20. The send scheduler terminates; every response's octets go out in order and once, in
    DATA frames within the frame size and within both send windows; END_STREAM is sent once,
    after the last octet; and when it stops, every response left is waiting for credit or
    for its body: no response that could send is left behind. *)
Theorem pump_streams_correct now peer (a : Sender) :
  state.max_frame_size peer < 2 ^ 32 → scheduled a →
  ∃ a' log, pump_streams now peer a = Some a' ∧
    pass (Z.max (state.max_frame_size peer) 1) a a' log ∧ scheduled a' ∧
    send_schedule a' ⊆ send_schedule a ∧
    ∀ sid st, outstreams a' !! sid = Some st → resting (send_conn a') st.
Proof. apply pump_streams_settled. Qed.

End pump.

(** Two responses share a connection window of 5 octets in turn, with frames of 2. *)
Lemma pump_streams_correct_witness :
  let st p e := {| completion := None; pending := p; body := None; pulling := false; eof := e;
                   done := false; window := 100; cancel := false; stall := None;
                   send_blocked := false |} in
  let a : @Sender unit unit :=
    {| outstreams := {[1 := st [10; 11; 12] true; 3 := st [20; 21; 22; 23] false]};
       send_schedule := [1; 3]; queue := []; completions := []; send_conn := 5; pulls := [];
       SEND_BLOCKED_CONN := 0; SEND_BLOCKED_STREAM := 0 |} in
  let peer := {| state.max_frame_size := 2; state.initial_window := 65535;
                 state.first_settings_recorded := true |} in
  (∃ a' log, pump_streams 0 peer a = Some a' ∧ pass 2 a a' log ∧ scheduled a' ∧
    send_schedule a' ⊆ send_schedule a ∧
    ∀ sid st, outstreams a' !! sid = Some st → resting (send_conn a') st) ∧
  queue <$> pump_streams 0 peer a
  = Some [data_header 1 2 0; [10; 11]; data_header 3 2 0; [20; 21];
          data_header 1 1 frame.flags.END_STREAM; [12]].
Proof.
  intros st a peer. split; [|by vm_compute].
  apply (pump_streams_correct 0 peer a); [done|]. split.
  - cbn. apply NoDup_cons. split; [by intros ?%list_elem_of_singleton|apply NoDup_singleton].
  - intros k s Hk. cbn. rewrite elem_of_cons, list_elem_of_singleton.
    destruct (decide (k = 1)) as [->|]; [by left|]. destruct (decide (k = 3)) as [->|]; [by right|].
    exfalso. cbn in Hk. rewrite lookup_insert_ne, lookup_singleton_ne in Hk by congruence. done.
Defined.

