(* ===== verification/H2Response.v ===== *)
(** * Starting a response: [begin_response] of [crates/hj-h2/src/server/send.rs]

    The head of a response is encoded and its body registered for the send scheduler. The
    [size_hint] of a streaming body belongs to the [http_body] crate, and the body that
    streams a file does file I/O: both are parameters. *)

From stdpp Require Import base list gmap strings.
From Stdlib Require Import ZArith Lia.
From S2P Require Import Prelude RustStr HttpUtil H2Frame HpackString HpackTable.
From S2P Require Import HpackEncoder H2State H2Recv H2Send.

Import headers http_util send.
#[local] Open Scope record_scope.

Module response.

(** ** Early hints *)

(** [rel_at], for one relation. *)
Definition relation_at (rest rel : list Z) : bool :=
  (zlen rel <=? zlen rest) && eq_ignore_ascii_case (take (length rel) rest) rel
  || bool_decide (head rest = Some 0x22) && (zlen rel + 1 <? zlen rest)
     && eq_ignore_ascii_case (take (length rel) (drop 1 rest)) rel
     && bool_decide (rest !! (length rel + 1)%nat = Some 0x22).

Definition rel_at (rest : list Z) : bool :=
  existsb (relation_at rest) [bs "preload"; bs "preconnect"].

(** [b.windows(4).enumerate().any(..)] *)
Fixpoint is_early_hint_link (b : list Z) : bool :=
  match b with
  | [] => false
  | _ :: b' =>
      (4 <=? zlen b) && eq_ignore_ascii_case (take 4 b) (bs "rel=") && rel_at (drop 4 b)
      || is_early_hint_link b'
  end.

(** Bit [i] of the mask says whether value [i], of the first 64, is a hint. *)
Fixpoint hint_mask (i hints : Z) (values : list (list Z)) : Z :=
  match values with
  | [] => hints
  | v :: values' =>
      hint_mask (i + 1) (if is_early_hint_link v then Z.lor hints (Z.shiftl 1 i) else hints) values'
  end.

(** The values the emit loop keeps. *)
Fixpoint emitted_hints (i hints : Z) (values : list (list Z)) : list (list Z) :=
  match values with
  | [] => []
  | v :: values' =>
      (if (i <? 64) && negb (Z.land hints (Z.shiftl 1 i) =? 0) || (64 <=? i) && is_early_hint_link v
       then [v] else [])
      ++ emitted_hints (i + 1) hints values'
  end.

(** The fields of the interim 103 response, when one is sent. *)
Definition early_hints (m : HeaderMap) : option (list header) :=
  let links := get_all m (bs "link") in
  let hints := hint_mask 0 0 (take 64 links) in
  if negb (hints =? 0) || existsb is_early_hint_link (drop 64 links)
  then Some ((bs ":status", bs "103") :: ((fun v => (bs "link", v)) <$> emitted_hints 0 hints links))
  else None.

(** ** The response *)

Section response.
Context `{HttpCrate} {StreamBody Completion File : Type}.
Context (exact_size : StreamBody → option Z).

Record FileBody : Type := {
  file : File;
  len : Z;
  range : option (Z * Z);
  cached : option (list Z);
}.

Inductive Body : Type :=
| Empty
| Full (b : list Z)
| Stream (s : StreamBody)
| FileB (f : FileBody).

Context (file_stream_body : File → option (Z * Z) → Z → StreamBody).

Record Response : Type := {
  status : Z;
  headers : HeaderMap;
  completion_ext : option Completion;
  resp_body : Body;
}.

(** [FileBody::cached_ranged] of [crates/hj-core/src/body.rs] *)
Definition cached_ranged (f : FileBody) : option (list Z) :=
  match cached f with
  | None => None
  | Some c =>
      Some (match range f with
            | Some (s, e) =>
                let s := Z.min s (zlen c) in
                let e := Z.min (saturating_add e 1) (zlen c) in
                take (Z.to_nat (Z.max e s - s)) (drop (Z.to_nat s) c)
            | None => c
            end)
  end.

Definition body_to_bytes (b : Body) : list Z :=
  match b with
  | Empty => []
  | Full b => b
  | FileB f => match cached_ranged f with Some b => b | None => [] end
  | Stream _ => []
  end.

Definition streaming_unknown_len (b : Body) (m : HeaderMap) : bool :=
  match b with
  | Stream s =>
      match exact_size s with
      | None => true
      | Some n =>
          negb (bool_decide
            (match get m (bs "content-length") with
             | Some v => if header_value_is_str v then parse_u64 v else None
             | None => None
             end = Some n))
      end
  | _ => false
  end.

Abbreviation Sender := (@Sender StreamBody Completion).

Definition headers_only (a : Sender) (sid : Z) (block : list Z) (mf : Z)
    (completion : option Completion) : Sender :=
  let a := push a (field_block.write_field_block sid frame.flags.END_STREAM block mf) in
  match completion with
  | Some c => a <| completions := completions a ++ [c] |>
  | None => a
  end.

Definition register (a : Sender) (sid : Z) (pending : list Z) (body : option StreamBody)
    (eof : bool) (completion : option Completion) (window : Z) : Sender :=
  a <| outstreams := <[sid := {| completion := completion; pending := pending; body := body;
                                 pulling := false; eof := eof; done := false; window := window;
                                 cancel := false; stall := None; send_blocked := false |}]>
                       (outstreams a) |>
    <| send_schedule := send_schedule a ++ [sid] |>.

(** The body, once the header block is written. *)
Definition begin_body (a : Sender) (sid : Z) (block : list Z) (mf : Z) (b : Body)
    (completion : option Completion) (window : Z) : Sender :=
  let open_headers := push a (field_block.write_field_block sid 0 block mf) in
  let in_memory bytes :=
    if bool_decide (bytes = []) then headers_only a sid block mf completion
    else register open_headers sid bytes None true completion window in
  match b with
  | Empty => headers_only a sid block mf completion
  | Stream s => register open_headers sid [] (Some s) false completion window
  | FileB f =>
      match cached f with
      | None =>
          if len f =? 0 then headers_only a sid block mf completion
          else
            register open_headers sid [] (Some (file_stream_body (file f) (range f) (len f)))
              false completion window
      | Some _ => in_memory (body_to_bytes b)
      end
  | Full _ => in_memory (body_to_bytes b)
  end.

(** [StatusCode::is_success] *)
Definition is_success (status : Z) : bool := between 200 299 status.

Definition begin_response (sid : Z) (is_head : bool) (response : Response)
    (m : hpack_string.LongLiterals) (e : encoder.Encoder) (a : Sender) (pending_window : gmap Z Z)
    (peer : state.PeerSettings)
    : hpack_string.LongLiterals * encoder.Encoder * Sender * gmap Z Z :=
  let hs := strip_hop_by_hop_response (headers response) in
  let unknown_len := streaming_unknown_len (resp_body response) hs in
  let body_forbidden := response_body_forbidden is_head (status response) in
  let hs := sanitize_h2_h3_body_headers hs is_head (status response) unknown_len in
  let mf := Z.max (state.max_frame_size peer) 1 in
  let '(m, e, a) :=
    match (if is_success (status response) then early_hints hs else None) with
    | Some fields =>
        let '(m, e, block) := encoder.encode_block m e fields in
        (m, e, push a (field_block.write_field_block sid 0 block mf))
    | None => (m, e, a)
    end in
  let '(m, e, block) :=
    encoder.encode_block m e ((bs ":status", recv.status_str (status response)) :: header_iter hs) in
  let credit := match pending_window !! sid with Some c => c | None => 0 end in
  let window := Z.min (state.initial_window peer + credit) (2 ^ 31 - 1) in
  let a :=
    if body_forbidden then headers_only a sid block mf (completion_ext response)
    else begin_body a sid block mf (resp_body response) (completion_ext response) window in
  (m, e, a, delete sid pending_window).

End response.
End response.
