(* ===== verification/H2EarlyHints.v ===== *)
(** * Early hints

    [is_early_hint_link] of [crates/hj-h2/src/server/send.rs] against the four substring
    needles it replaces, and the fields of the 103 response against a filter. *)

From stdpp Require Import base list gmap strings.
From Stdlib Require Import ZArith Lia.
From S2P Require Import Prelude RustStr HttpUtil HpackString HpackTable H2Response.

Import headers response.

(** ** Needles *)

Definition relations : list (list Z) :=
  [bs "preload"; [0x22] ++ bs "preload" ++ [0x22];
   bs "preconnect"; [0x22] ++ bs "preconnect" ++ [0x22]].

Definition needles : list (list Z) := (fun rel => bs "rel=" ++ rel) <$> relations.

(** [n] occurs in the lower-cased value. *)
Definition occurs (n b : list Z) : Prop := ∃ before after, to_ascii_lowercase b = before ++ n ++ after.

(** A lower-case needle starts [b], in any case. *)
Definition begins (n b : list Z) : Prop := ∃ after, to_ascii_lowercase b = n ++ after.

Lemma begins_take n b :
  to_ascii_lowercase n = n →
  begins n b ↔ (length n <= length b)%nat ∧ eq_ignore_ascii_case (take (length n) b) n = true.
Proof.
  intros Hn. unfold begins, eq_ignore_ascii_case. rewrite Hn. unfold bytes_eqb. rewrite bool_decide_eq_true.
  unfold to_ascii_lowercase. split.
  - intros [after E]. assert (Hl : length b = length (n ++ after)) by (by rewrite <- E, length_fmap).
    rewrite length_app in Hl. split; [lia|].
    by rewrite fmap_take, E, take_app_length.
  - intros [_ E]. exists (drop (length n) (to_ascii_lowercase_u8 <$> b)).
    rewrite <- (take_drop (length n) (to_ascii_lowercase_u8 <$> b)) at 1. by rewrite <- fmap_take, E.
Qed.

Lemma begins_app n m b :
  to_ascii_lowercase n = n →
  begins (n ++ m) b ↔ begins n b ∧ begins m (drop (length n) b).
Proof.
  intros Hn. unfold begins, to_ascii_lowercase. split.
  - intros [after E]. split; [exists (m ++ after); by rewrite app_assoc|].
    exists after. by rewrite fmap_drop, E, <- app_assoc, drop_app_length.
  - intros [[a1 E1] [a2 E2]]. exists a2.
    rewrite fmap_drop, E1, drop_app_length in E2. by rewrite E1, E2, app_assoc.
Qed.

Lemma lower_quote b : to_ascii_lowercase_u8 b = 0x22 ↔ b = 0x22.
Proof.
  unfold to_ascii_lowercase_u8, is_ascii_uppercase, between. case_if; bool_hyps; lia.
Qed.

Lemma begins_quote b : begins [0x22] b ↔ head b = Some 0x22.
Proof.
  unfold begins. destruct b as [|x b]; cbn.
  - split; [by intros [? ?]|done].
  - split; [intros [after [= E _]]|intros [= ->]; by eexists].
    f_equal. by apply lower_quote.
Qed.

Lemma head_drop {A} n (l : list A) : head (drop n l) = l !! n.
Proof. revert l. induction n as [|n IH]; intros [|x l]; cbn; auto. Qed.

Lemma relation_at_spec rest rel :
  to_ascii_lowercase rel = rel →
  relation_at rest rel = true ↔ begins rel rest ∨ begins ([0x22] ++ rel ++ [0x22]) rest.
Proof.
  intros Hr. unfold relation_at. rewrite orb_true_iff, !andb_true_iff, !bool_decide_eq_true.
  rewrite (begins_app [0x22]), (begins_app rel), !begins_quote by done.
  rewrite (begins_take rel rest), (begins_take rel (drop 1 rest)) by done.
  rewrite Z.leb_le, Z.ltb_lt, head_drop, lookup_drop, length_drop. unfold zlen. cbn [length].
  replace (1 + length rel)%nat with (length rel + 1)%nat by lia. split.
  - intros [[? ?]|[[[? ?] ?] ?]]; [left; split; [lia|done]|right; split_and!; try done; lia].
  - intros [[? ?]|(? & [? ?] & Hl)]; [left; split; [lia|done]|right; split_and!; try done].
    apply lookup_lt_Some in Hl. lia.
Qed.

Lemma rel_at_spec rest : rel_at rest = true ↔ ∃ rel, rel ∈ relations ∧ begins rel rest.
Proof.
  unfold rel_at, relations. cbn [existsb].
  rewrite orb_false_r, orb_true_iff, !relation_at_spec by done. split.
  - intros [[Hb|Hb]|[Hb|Hb]]; eexists; (split; [|exact Hb]); set_solver +.
  - intros (rel & Hin & Hb). rewrite !elem_of_cons, elem_of_nil in Hin.
    destruct Hin as [-> | [-> | [-> | [-> | []]]]]; auto.
Qed.

Lemma hint_at_spec b :
  (4 <=? zlen b) && eq_ignore_ascii_case (take 4 b) (bs "rel=") && rel_at (drop 4 b) = true ↔
  ∃ n, n ∈ needles ∧ begins n b.
Proof.
  assert (Hrel : (4 <=? zlen b) && eq_ignore_ascii_case (take 4 b) (bs "rel=") = true ↔ begins (bs "rel=") b).
  { rewrite (begins_take (bs "rel=")), andb_true_iff, Z.leb_le by done. unfold zlen. cbn [length].
    change (length (bs "rel=")) with 4%nat. split; intros [? ?]; (split; [lia|done]). }
  rewrite andb_true_iff, Hrel, rel_at_spec. unfold needles. split.
  - intros (H1 & rel & Hin & H2). exists (bs "rel=" ++ rel).
    split; [by apply list_elem_of_fmap_2|]. by apply begins_app.
  - intros (n & (rel & -> & Hin)%list_elem_of_fmap & [H1 H2]%begins_app); [|done].
    split; [done|]. by exists rel.
Qed.

Lemma occurs_cons n x b : occurs n (x :: b) ↔ begins n (x :: b) ∨ occurs n b.
Proof.
  unfold occurs, begins. split.
  - intros ([|y before] & after & E); [left; by eexists|right]. cbn in E. injection E as _ E.
    by exists before, after.
  - intros [[after E]|(before & after & E)]; [by exists [], after|].
    exists (to_ascii_lowercase_u8 x :: before), after. cbn. by f_equal.
Qed.

Lemma is_early_hint_link_spec b :
  is_early_hint_link b = true ↔ ∃ n, n ∈ needles ∧ occurs n b.
Proof.
  induction b as [|x b IH].
  - split; [done|]. intros (n & Hn & before & after & E). cbn in E.
    symmetry in E. apply app_eq_nil in E as [_ [-> _]%app_eq_nil].
    unfold needles in Hn. apply list_elem_of_fmap in Hn as (rel & E & _). done.
  - change (is_early_hint_link (x :: b)) with
      ((4 <=? zlen (x :: b)) && eq_ignore_ascii_case (take 4 (x :: b)) (bs "rel=")
         && rel_at (drop 4 (x :: b)) || is_early_hint_link b).
    rewrite orb_true_iff, hint_at_spec, IH. split.
    + intros [(n & ? & ?)|(n & ? & ?)]; exists n; (split; [done|]); apply occurs_cons; auto.
    + intros (n & ? & [?|?]%occurs_cons); eauto.
Qed.

(** ** The mask *)

Lemma hint_mask_testbit i hints vs k :
  0 <= i → 0 <= k →
  Z.testbit (hint_mask i hints vs) k =
  Z.testbit hints k ||
  (i <=? k) && match vs !! Z.to_nat (k - i) with Some v => is_early_hint_link v | None => false end.
Proof.
  revert i hints. induction vs as [|v vs IH]; intros i hints Hi Hk; cbn [hint_mask].
  { by rewrite lookup_nil, andb_false_r, orb_false_r. }
  rewrite IH by lia.
  assert (Hset : Z.testbit (if is_early_hint_link v then Z.lor hints (Z.shiftl 1 i) else hints) k
    = Z.testbit hints k || (k =? i) && is_early_hint_link v).
  { destruct (is_early_hint_link v); [|by rewrite andb_false_r, orb_false_r].
    rewrite Z.lor_spec, Z.shiftl_1_l, Z.pow2_bits_eqb, andb_true_r, (Z.eqb_sym i) by lia. done. }
  rewrite Hset, <- orb_assoc. f_equal. destruct (Z.eqb_spec k i) as [->|].
  - rewrite Z.sub_diag. destruct (Z.leb_spec (i + 1) i); [lia|]. rewrite Z.leb_refl. cbn.
    by rewrite orb_false_r.
  - cbn [andb orb]. destruct (Z.leb_spec (i + 1) k), (Z.leb_spec i k); try lia.
    replace (Z.to_nat (k - i)) with (S (Z.to_nat (k - (i + 1)))) by lia. done.
Qed.

Lemma mask_bit x i : 0 <= i → negb (Z.land x (Z.shiftl 1 i) =? 0) = Z.testbit x i.
Proof.
  intros Hi. rewrite Z.shiftl_1_l. destruct (Z.testbit x i) eqn:E.
  - apply negb_true_iff, Z.eqb_neq. intros H0.
    apply (f_equal (fun z => Z.testbit z i)) in H0.
    by rewrite Z.land_spec, Z.pow2_bits_true, E, Z.bits_0 in H0 by lia.
  - apply negb_false_iff, Z.eqb_eq, Z.bits_inj'. intros k Hk.
    rewrite Z.land_spec, Z.bits_0, Z.pow2_bits_eqb by lia. destruct (Z.eqb_spec i k) as [<-|]; [by rewrite E|].
    by rewrite andb_false_r.
Qed.

Lemma emitted_hints_filter i hints vs :
  0 <= i → (∀ j v, vs !! j = Some v → i + Z.of_nat j < 64 →
    Z.testbit hints (i + Z.of_nat j) = is_early_hint_link v) →
  emitted_hints i hints vs = filter (fun v => is_early_hint_link v = true) vs.
Proof.
  revert i. induction vs as [|v vs IH]; intros i Hi Hb; [done|]. cbn [emitted_hints].
  rewrite IH; [|lia|].
  - rewrite filter_cons, mask_bit by done.
    assert (E : (i <? 64) && Z.testbit hints i || (64 <=? i) && is_early_hint_link v = is_early_hint_link v).
    { specialize (Hb 0%nat v eq_refl). rewrite Z.add_0_r in Hb.
      destruct (Z.ltb_spec i 64), (Z.leb_spec 64 i); try lia; cbn; [|done].
      by rewrite Hb, orb_false_r by lia. }
    rewrite E. by destruct (is_early_hint_link v).
  - intros j w Hj Hlt. rewrite <- (Hb (S j) w Hj) by lia. f_equal. lia.
Qed.

Lemma mask_nonzero vs : negb (hint_mask 0 0 vs =? 0) = existsb is_early_hint_link vs.
Proof.
  destruct (existsb is_early_hint_link vs) eqn:Ex.
  - apply existsb_exists in Ex as (v & Hv%list_elem_of_In & Ht).
    apply list_elem_of_lookup in Hv as [k Hk]. apply negb_true_iff, Z.eqb_neq. intros H0.
    pose proof (hint_mask_testbit 0 0 vs (Z.of_nat k)) as Hb.
    rewrite H0, !Z.bits_0, Z.sub_0_r, Nat2Z.id, Hk, Ht in Hb by lia.
    destruct (Z.leb_spec 0 (Z.of_nat k)); [|lia]. discriminate Hb; lia.
  - apply negb_false_iff, Z.eqb_eq, Z.bits_inj'. intros k Hk.
    rewrite hint_mask_testbit, Z.bits_0 by lia. cbn [orb].
    destruct (vs !! Z.to_nat (k - 0)) as [v|] eqn:El; [|by rewrite andb_false_r].
    destruct (is_early_hint_link v) eqn:Ev; [|by rewrite andb_false_r].
    apply not_true_iff_false in Ex as []. apply existsb_exists. exists v.
    split; [by eapply list_elem_of_In, list_elem_of_lookup_2|done].
Qed.

Lemma existsb_filter (f : list Z → bool) l : existsb f l = negb (bool_decide (filter (fun v => f v = true) l = [])).
Proof.
  induction l as [|v l IH]; [done|]. cbn [existsb]. rewrite filter_cons. by destruct (f v).
Qed.

Lemma early_hints_ok (m : HeaderMap) :
  early_hints m =
  match filter (fun v => is_early_hint_link v = true) (get_all m (bs "link")) with
  | [] => None
  | vs => Some ((bs ":status", bs "103") :: ((fun v => (bs "link", v)) <$> vs))
  end.
Proof.
  unfold early_hints. set (links := get_all m (bs "link")). cbv zeta.
  assert (Hem : emitted_hints 0 (hint_mask 0 0 (take 64 links)) links
    = filter (fun v => is_early_hint_link v = true) links).
  { apply emitted_hints_filter; [done|]. intros j v Hj Hlt. rewrite hint_mask_testbit, Z.bits_0 by lia.
    replace (Z.to_nat (0 + Z.of_nat j - 0)) with j by lia. rewrite lookup_take_lt, Hj by lia.
    destruct (Z.leb_spec 0 (0 + Z.of_nat j)); [done|lia]. }
  rewrite mask_nonzero, Hem, <- existsb_app, take_drop, existsb_filter.
  by destruct (filter _ links).
Qed.

(** The in-place scan of a Link value finds a hint exactly when one of the four needles
    (rel=preload, rel=preconnect, each bare or quoted) occurs in the lower-cased value. *)
Theorem early_hint_needles b : is_early_hint_link b = true ↔ ∃ n, n ∈ needles ∧ occurs n b.
Proof. apply is_early_hint_link_spec. Qed.

(** The 103 response carries exactly the Link values that are hints, in order, however
    many there are, and is sent exactly when there is one: the 64-bit mask loses none. *)
Theorem early_hints_are_the_hint_links m :
  early_hints m =
  match filter (fun v => is_early_hint_link v = true) (get_all m (bs "link")) with
  | [] => None
  | vs => Some ((bs ":status", bs "103") :: ((fun v => (bs "link", v)) <$> vs))
  end.
Proof. apply early_hints_ok. Qed.
