(* ===== verification/H2Session.v ===== *)
(** * The connection loop: [serve] of [crates/hj-h2/src/server/mod.rs]

    One iteration of the loop, cut at its awaits: the frames that are buffered are drained
    and their outcomes applied, deadlines are checked, finished handlers and body pulls are
    taken, the send scheduler runs, and one arm of the [select] fires. Sockets, timers and
    handlers are the environment: they come in as events. [OutQueue] is shared by receiving
    and sending; between the calls it is the [out] of [conn]. *)

From stdpp Require Import base list gmap strings.
From Stdlib Require Import ZArith Lia.
From S2P Require Import Prelude RustStr HttpUtil Budget BodyDeadline H2Frame HpackString.
From S2P Require Import HpackTable HpackEncoder HpackDecoder H2State H2Request H2Recv H2Send.
From S2P Require Import H2Response.

Import headers state recv.
#[local] Open Scope record_scope.

Module session.

(** ** Pure helpers *)

Definition next_header_block_deadline (was_open open : bool) (current arm : option Z)
    : option Z :=
  match was_open, open with
  | _, false => None
  | false, true => arm
  | true, true => current
  end.

Definition should_close (reading draining inflight_empty pulls_empty outstreams_empty
    receiving_empty : bool) : bool :=
  if negb reading && inflight_empty && pulls_empty then true
  else
    draining && inflight_empty && pulls_empty && outstreams_empty && receiving_empty.

Section session.
Context `{HttpCrate} {StreamBody Completion File : Type}.
Context (size_of_StreamState : nat) (exact_size : StreamBody → option Z).
Context (file_stream_body : File → option (Z * Z) → Z → StreamBody).

Abbreviation Sender := (@send.Sender StreamBody Completion).
Abbreviation Response := (@response.Response StreamBody Completion File).

Record Config : Type := {
  header_table_size : Z;
  max_concurrent_streams : Z;
  initial_window_size : Z;
  max_frame_size : Z;
  header_list_size : Z;
  cfg_max_request_body : Z;
  body_budget : Budget;
  cfg_pending_header_mem : Z;
  conn_idle_timeout : option Z;
  frame_read_timeout : option Z;
  request_body_timeout : option Z;
  request_body_ceiling : Z;
  send_stall_timeout : option Z;
  goaway_drain_timeout : Z;
  shutdown_idle_stream_timeout : option Z;
  cfg_early_reject : option (RequestHead → option (Z * HeaderMap));
}.

Definition secs (n : Z) : Z := n * 10 ^ 9.

Definition GOAWAY_DRAIN_TIMEOUT : Z := secs 300.

Definition SHUTDOWN_IDLE_STREAM_TIMEOUT : Z := secs 2.

Definition Config_default : Config :=
  {| header_table_size := 4096; max_concurrent_streams := 256; initial_window_size := 2 ^ 21;
     max_frame_size := 16384; header_list_size := 131072;
     cfg_max_request_body := 64 * 1024 * 1024; body_budget := None;
     cfg_pending_header_mem := 4 * 2 ^ 20; conn_idle_timeout := Some (secs 60); frame_read_timeout := Some (secs 15);
     request_body_timeout := Some (secs 60);
     request_body_ceiling := body_deadline.BODY_DEADLINE_CEILING;
     send_stall_timeout := Some (secs 60); goaway_drain_timeout := GOAWAY_DRAIN_TIMEOUT;
     shutdown_idle_stream_timeout := Some SHUTDOWN_IDLE_STREAM_TIMEOUT;
     cfg_early_reject := None |}.

(** The locals of the loop. [answered] are the streams whose handler future has left
    [inflight]. *)
Record Session : Type := {
  conn : Conn;
  sender : Sender;
  pending_window : gmap Z Z;
  inbuf : list Z;
  reading : bool;
  accepting : bool;
  draining : bool;
  drain : option Z;
  shutdown_drain : bool;
  drain_idle : gmap Z Z;
  partial_frame_deadline : option Z;
  header_block_deadline : option Z;
  body_progress : gmap Z body_deadline.BodyProgress;
  answered : list Z;
}.

#[export] Instance Session_eta : Eta Session := fun r =>
  {| conn := conn r; sender := sender r; pending_window := pending_window r; inbuf := inbuf r;
     reading := reading r; accepting := accepting r; draining := draining r; drain := drain r;
     shutdown_drain := shutdown_drain r; drain_idle := drain_idle r;
     partial_frame_deadline := partial_frame_deadline r;
     header_block_deadline := header_block_deadline r; body_progress := body_progress r;
     answered := answered r |}.
#[export] Instance set_conn : Setter conn := ltac:(derive_setter).
#[export] Instance set_sender : Setter sender := ltac:(derive_setter).
#[export] Instance set_pending_window : Setter pending_window := ltac:(derive_setter).
#[export] Instance set_inbuf : Setter inbuf := ltac:(derive_setter).
#[export] Instance set_reading : Setter reading := ltac:(derive_setter).
#[export] Instance set_accepting : Setter accepting := ltac:(derive_setter).
#[export] Instance set_draining : Setter draining := ltac:(derive_setter).
#[export] Instance set_drain : Setter drain := ltac:(derive_setter).
#[export] Instance set_shutdown_drain : Setter shutdown_drain := ltac:(derive_setter).
#[export] Instance set_drain_idle : Setter drain_idle := ltac:(derive_setter).
#[export] Instance set_partial_frame_deadline : Setter partial_frame_deadline := ltac:(derive_setter).
#[export] Instance set_header_block_deadline : Setter header_block_deadline := ltac:(derive_setter).
#[export] Instance set_body_progress : Setter body_progress := ltac:(derive_setter).
#[export] Instance set_answered : Setter answered := ltac:(derive_setter).

(** ** The start of a connection *)

Definition initial_recv (cfg : Config) : Recv :=
  {| seen_settings := false; last_client_stream := 0; goaway_last := None;
     open_header_block := None; discarding_header_block := false; discard_header_block := [];
     discard_rst_code := frame.error_code.STREAM_CLOSED; reset_ids := RecentIds_default;
     sent_reset_ids := RecentIds_default; max_concurrent := max_concurrent_streams cfg;
     conn_recv_window := Z.max (initial_window_size cfg) 65535;
     our_initial_window := initial_window_size cfg; header_count_hint := 0;
     reset_debt_until := None; total_buffered := 0;
     max_request_body := cfg_max_request_body cfg;
     per_conn_request_body := Z.min (cfg_max_request_body cfg * 4) U64_MAX;
     pending_header_bytes := 0; pending_header_mem := cfg_pending_header_mem cfg;
     no_progress_frames := 0; early_reject := cfg_early_reject cfg |}.

(** SETTINGS, and the WINDOW_UPDATE that grows the connection window. *)
Definition server_preface (cfg : Config) : list Z :=
  frame.write_settings
    [(frame.settings.HEADER_TABLE_SIZE, header_table_size cfg);
     (frame.settings.MAX_CONCURRENT_STREAMS, max_concurrent_streams cfg);
     (frame.settings.INITIAL_WINDOW_SIZE, initial_window_size cfg);
     (frame.settings.MAX_FRAME_SIZE, max_frame_size cfg);
     (frame.settings.MAX_HEADER_LIST_SIZE, header_list_size cfg)]
  ++ (if 0 <? initial_window_size cfg - 65535
      then frame.write_window_update 0 (initial_window_size cfg - 65535) else []).

(** [memo] is the shared cache of encoded literals. *)
Definition initial_conn (cfg : Config) (memo : hpack_string.LongLiterals) : Conn :=
  {| streams := ∅; dec := decoder.new (header_table_size cfg) (header_list_size cfg);
     memo := memo; enc := encoder.default; out := []; peer := PeerSettings_default;
     recv := initial_recv cfg; inflight := 0; cancelled := ∅; inflight_sids := ∅;
     budget := body_budget cfg; dispatched := [] |}.

Definition initial_sender : Sender :=
  {| send.outstreams := ∅; send.send_schedule := []; send.queue := []; send.completions := [];
     send.send_conn := 65535; send.pulls := []; send.SEND_BLOCKED_CONN := 0;
     send.SEND_BLOCKED_STREAM := 0 |}.

Definition start (cfg : Config) (memo : hpack_string.LongLiterals) : Session :=
  {| conn := initial_conn cfg memo; sender := initial_sender; pending_window := ∅; inbuf := [];
     reading := true; accepting := true; draining := false; drain := None;
     shutdown_drain := false; drain_idle := ∅; partial_frame_deadline := None; header_block_deadline := None; body_progress := ∅;
     answered := [] |}.

(** ** Outcomes *)

Definition stop_reading (s : Session) : Session :=
  s <| reading := false |> <| accepting := false |> <| draining := false |>.

(** GOAWAY with [code], and no more reading. *)
Definition fail (s : Session) (code : Z) : Session :=
  stop_reading (s <| conn := (goaway (conn s) code).1 |>).

(** Run a step of the send side on the shared output queue. *)
Definition on_sender (f : Sender → Sender) (s : Session) : Session :=
  let a := f ((sender s) <| send.queue := out (conn s) |>) in
  s <| sender := a |> <| conn := (conn s) <| out := send.queue a |> |>.

Definition I32_MAX : Z := 2 ^ 31 - 1.

(** A grant on the connection. *)
Definition on_conn_credit (s : Session) (increment : Z) : Session :=
  let was_blocked := send.send_conn (sender s) <=? 0 in
  let credit := send.send_conn (sender s) + increment in
  let s := s <| sender := (sender s) <| send.send_conn := credit |> |> in
  if I32_MAX <? credit then fail s frame.error_code.FLOW_CONTROL_ERROR
  else if was_blocked && (0 <? credit) then
    s <| conn := (conn s) <| recv := (recv (conn s)) <| no_progress_frames := 0 |> |> |>
  else s.

(** A grant on a stream whose response is being written. *)
Definition on_stream_credit (s : Session) (sid increment : Z) (st : send.OutStream) : Session :=
  let was_blocked := send.window st <=? 0 in
  let credit := send.window st + increment in
  let st := st <| send.window := credit |> in
  let put st s :=
    s <| sender := (sender s) <| send.outstreams := <[sid := st]> (send.outstreams (sender s)) |> |> in
  if I32_MAX <? credit then
    put (st <| send.done := true |>)
      (s <| conn := frames (conn s) (frame.write_rst_stream sid frame.error_code.FLOW_CONTROL_ERROR) |>)
  else if was_blocked && (0 <? credit) then
    put st (s <| conn := (conn s) <| recv := (recv (conn s)) <| no_progress_frames := 0 |> |> |>)
  else put st s.

(** A grant that came before the response. *)
Definition on_early_credit (s : Session) (now sid increment : Z) : Session :=
  let awaiting_response :=
    bool_decide (is_Some (streams (conn s) !! sid)) || bool_decide (sid ∈ inflight_sids (conn s)) in
  if awaiting_response
     && ((Z.of_nat (size (pending_window s)) <? 4096)
         || bool_decide (is_Some (pending_window s !! sid)))
  then
    let credit := match pending_window s !! sid with Some c => c | None => 0 end + increment in
    if I32_MAX <? initial_window (peer (conn s)) + credit then
      let c := frames (conn s) (frame.write_rst_stream sid frame.error_code.FLOW_CONTROL_ERROR) in
      let '(c, outcome) := abort_handler (teardown_receiving c sid) now sid in
      let s := s <| conn := c |> <| pending_window := delete sid (pending_window s) |> in
      match outcome with StopReading => stop_reading s | _ => s end
    else s <| pending_window := <[sid := credit]> (pending_window s) |>
  else s.

Definition on_window_delta (s : Session) (delta : Z) : Session :=
  let ss := (fun st : send.OutStream => st <| send.window := send.window st + delta |>)
              <$> send.outstreams (sender s) in
  let s := s <| sender := (sender s) <| send.outstreams := ss |> |> in
  if existsb (fun e => I32_MAX <? send.window e.2) (map_to_list ss)
  then fail s frame.error_code.FLOW_CONTROL_ERROR else s.

Definition apply_outcome (cfg : Config) (now : Z) (s : Session) (outcome : FrameOutcome) : Session :=
  match outcome with
  | Continue => s
  | StopReading => stop_reading s
  | PeerGoaway =>
      let s := if draining s then s
               else s <| draining := true |> <| drain := Some (now + goaway_drain_timeout cfg) |> in
      s <| accepting := false |>
  | ResetStream sid =>
      s <| sender := send.cancel_outstream (sender s) sid |>
        <| pending_window := delete sid (pending_window s) |>
  | WindowUpdate sid increment =>
      if sid =? 0 then on_conn_credit s increment
      else
        match send.outstreams (sender s) !! sid with
        | Some st => on_stream_credit s sid increment st
        | None => on_early_credit s now sid increment
        end
  | InitialWindowDelta delta => on_window_delta s delta
  end.

(** ** Draining the read buffer *)

Definition cap (cfg : Config) : Z := Z.min (max_frame_size cfg) (2 ^ 24).

(** The frame at the front of the buffer. *)
Inductive Next : Type :=
| NextFrame (hdr : frame.FrameHeader) (payload rest : list Z)
| TooLong
| Incomplete.

Definition next_frame (cap : Z) (buf : list Z) : Next :=
  match frame.parse buf with
  | None => Incomplete
  | Some hdr =>
      if cap <? frame.length hdr then TooLong
      else
        let buf := drop frame.LEN buf in
        let n := Z.to_nat (frame.length hdr) in
        if (length buf <? n)%nat then Incomplete else NextFrame hdr (take n buf) (drop n buf)
  end.

Definition on_frame (cfg : Config) (now : Z) (s : Session) (hdr : frame.FrameHeader)
    (payload : list Z) : Session :=
  let block_was_open := bool_decide (is_Some (open_header_block (recv (conn s)))) in
  let '(c, outcome) :=
    process_frame size_of_StreamState (conn s) now hdr payload
      (Z.of_nat (size (send.outstreams (sender s)))) (accepting s) in
  let s := s <| conn := c |>
             <| header_block_deadline :=
                  next_header_block_deadline block_was_open
                    (bool_decide (is_Some (open_header_block (recv c)))) (header_block_deadline s)
                    (match frame_read_timeout cfg with Some d => Some (now + d) | None => None end) |> in
  apply_outcome cfg now s outcome.

(** The frames that were handled come out with the session. A frame is at least nine
    octets, so the length of the buffer is enough fuel. *)
Fixpoint drain_frames (fuel : nat) (cfg : Config) (now : Z) (s : Session)
    : Session * list (frame.FrameHeader * list Z) :=
  match fuel with
  | O => (s, [])
  | S fuel =>
      if negb (reading s) then (s, [])
      else
        match next_frame (cap cfg) (inbuf s) with
        | Incomplete => (s, [])
        | TooLong => (fail s frame.error_code.FRAME_SIZE_ERROR, [])
        | NextFrame hdr payload rest =>
            let '(s, done) := drain_frames fuel cfg now
                                (on_frame cfg now (s <| inbuf := rest |>) hdr payload) in
            (s, (hdr, payload) :: done)
        end
  end.

(** ** Deadlines *)

Definition frame_deadlines (cfg : Config) (now : Z) (completed_frame : bool) (s : Session) : Session :=
  let s :=
    if bool_decide (inbuf s = []) then s <| partial_frame_deadline := None |>
    else if completed_frame || bool_decide (partial_frame_deadline s = None) then
      s <| partial_frame_deadline :=
             match frame_read_timeout cfg with Some d => Some (now + d) | None => None end |>
    else s in
  if reading s && match header_block_deadline s with Some d => d <=? now | None => false end
  then fail s frame.error_code.PROTOCOL_ERROR else s.

(** A stream waits for its body, and its deadline has not started. *)
Definition body_starts (st : StreamState) : bool :=
  headers_done st && negb (end_stream st) && bool_decide (body_deadline st = None).

Definition advance_body_deadlines (now timeout ceiling : Z) (s : Session) : Session :=
  let started := filter (fun e => body_starts e.2 = true) (streams (conn s)) in
  let ss := (fun st => if body_starts st then st <| body_deadline := Some (now + timeout) |> else st)
              <$> streams (conn s) in
  let progress :=
    ((fun st => body_deadline.new now ceiling (zlen (body st))) <$> started) ∪ body_progress s in
  let extended sid st :=
    match progress !! sid, body_deadline st with
    | Some p, Some deadline =>
        let '(p, deadline, _) := body_deadline.extend p deadline (zlen (body st)) timeout now in
        (Some p, st <| body_deadline := Some deadline |>)
    | p, _ => (p, st)
    end in
  if bool_decide (progress = ∅) then s <| conn := (conn s) <| streams := ss |> |>
  else
    s <| conn := (conn s) <| streams := map_imap (fun sid st => Some (extended sid st).2) ss |> |>
      <| body_progress := map_imap (fun sid st => (extended sid st).1) ss |>.

Definition body_expired (now : Z) (st : StreamState) : bool :=
  match body_deadline st with Some d => d <=? now | None => false end.

Definition expire (s : Session) (sid : Z) : Session :=
  let c := conn s in
  let '(r, ss, b, emit) := expire_receiving (recv c) (streams c) (budget c) sid in
  let c := c <| recv := r |> <| streams := ss |> <| budget := b |> in
  s <| pending_window := delete sid (pending_window s) |>
    <| conn := if emit then frames c (frame.write_rst_stream sid frame.error_code.CANCEL) else c |>.

Definition expire_all (now : Z) (s : Session) : Session :=
  fold_left expire (filter (fun e => body_expired now e.2 = true) (map_to_list (streams (conn s)))).*1 s.

Definition body_deadlines (cfg : Config) (now : Z) (s : Session) : Session :=
  let s := match request_body_timeout cfg with
           | Some d => advance_body_deadlines now d (request_body_ceiling cfg) s
           | None => s
           end in
  expire_all now s.

(** ** Handlers, pulls and output *)

(** A handler future has left [inflight]; without a response it was aborted. *)
Definition on_handler (s : Session) (sid : Z) (is_head : bool) (resp : option Response) : Session :=
  let c := (conn s) <| inflight := inflight (conn s) - 1 |>
                    <| inflight_sids := inflight_sids (conn s) ∖ {[sid]} |> in
  let was_cancelled := bool_decide (sid ∈ cancelled c) in
  let c := c <| cancelled := cancelled c ∖ {[sid]} |> in
  let s := s <| conn := c |> <| answered := answered s ++ [sid] |> in
  match resp with
  | None => s
  | Some resp =>
      if was_cancelled then s
      else
        let a := (sender s) <| send.queue := out c |> in
        let '(m, e, a, pw) :=
          response.begin_response exact_size file_stream_body sid is_head resp (memo c) (enc c) a
            (pending_window s) (peer c) in
        s <| conn := c <| memo := m |> <| enc := e |> <| out := send.queue a |> |>
          <| sender := a |> <| pending_window := pw |>
  end.

(** A stream has at most one pull in flight. *)
Definition on_pull (s : Session) (sid : Z) (b : StreamBody) (res : option (list Z + unit)) : Session :=
  let a := sender s in
  let s := s <| sender := a <| send.pulls := filter (fun p => p.1 ≠ sid) (send.pulls a) |> |> in
  on_sender (send.apply_pull sid b res) (s <| drain_idle := delete sid (drain_idle s) |>).

(** [pump_streams] and the resets of stalled and idle responses, then the flush. *)
Definition write_output (cfg : Config) (now : Z) (s : Session) : option (Session * list Z) :=
  let a := (sender s) <| send.queue := out (conn s) |> in
  match send.pump_streams now (peer (conn s)) a with
  | None => None
  | Some a =>
      let '(a, _) := send.reset_stalled_streams now (send_stall_timeout cfg) a in
      let '(a, idle) :=
        match shutdown_idle_stream_timeout cfg with
        | Some grace =>
            if shutdown_drain s then
              let '(a, idle, _) := send.reset_drain_idle_streams now grace (drain_idle s) a in (a, idle)
            else (a, drain_idle s)
        | None => (a, drain_idle s)
        end in
      Some (s <| sender := a <| send.queue := [] |> <| send.completions := [] |> |>
              <| drain_idle := idle |> <| conn := (conn s) <| out := [] |> |>, mjoin (send.queue a))
  end.

(** ** The arms of the [select] *)

Definition abandon_drain (s : Session) : Session :=
  let s := fold_left (fun s sid => let c := conn s in
             let '(r, ss, b, emit) := expire_receiving (recv c) (streams c) (budget c) sid in
             let c := c <| recv := r |> <| streams := ss |> <| budget := b |> in
             s <| conn := if emit then frames c (frame.write_rst_stream sid frame.error_code.CANCEL)
                          else c |>)
             (map_to_list (streams (conn s))).*1 s in
  let c := fold_left (fun c sid =>
             frames (mark_cancelled c sid) (frame.write_rst_stream sid frame.error_code.CANCEL))
             (elements (inflight_sids (conn s))) (conn s) in
  let s := s <| conn := c |> in
  let s := fold_left (fun s sid =>
             s <| conn := frames (conn s) (frame.write_rst_stream sid frame.error_code.CANCEL) |>
               <| sender := send.cancel_outstream (sender s) sid |>)
             (map_to_list (send.outstreams (sender s))).*1 s in
  let s := s <| pending_window := ∅ |> in
  s <| conn := (goaway (conn s) frame.error_code.NO_ERROR).1 |>.

Inductive Event : Type :=
| Handler (sid : Z) (is_head : bool) (resp : option Response)
| Pull (sid : Z) (b : StreamBody) (res : option (list Z + unit))
| Shutdown
| Read (octets : list Z)
| Eof
| FrameTimer
| Idle
| DrainTimer
| Wake.

Definition on_event (cfg : Config) (now : Z) (s : Session) (e : Event) : Session :=
  match e with
  | Handler sid is_head resp => on_handler s sid is_head resp
  | Pull sid b res => on_pull s sid b res
  | Shutdown =>
      if shutdown_drain s then s
      else
      let s := s <| shutdown_drain := true |> in
      if reading s && accepting s then
        s <| conn := (goaway (conn s) frame.error_code.NO_ERROR).1 |>
          <| accepting := false |> <| draining := true |>
          <| drain := Some (now + goaway_drain_timeout cfg) |>
      else s
  | Read octets => if reading s then s <| inbuf := inbuf s ++ octets |> else s
  | Eof => if reading s then stop_reading s else s
  | FrameTimer =>
      if reading s
         && bool_decide (is_Some (send.earliest (partial_frame_deadline s) (header_block_deadline s)))
      then fail s frame.error_code.PROTOCOL_ERROR else s
  | Idle =>
      if reading s && bool_decide (is_Some (conn_idle_timeout cfg))
      then fail s frame.error_code.NO_ERROR else s
  | DrainTimer => if reading s && draining s then stop_reading (abandon_drain s) else s
  | Wake => s
  end.

(** ** The loop *)

(** What the environment supplies to an iteration: the clock, the shared body budget and the
    thread's cache of encoded literals as the other connections left them, the handlers and
    the pulls that are ready, and the arm of the [select] that fires. *)
Record Turn : Type := {
  now : Z;
  shared : Budget;
  cache : hpack_string.LongLiterals;
  handlers : list (Z * bool * option Response);
  pulled : list (Z * StreamBody * option (list Z + unit));
  event : Event;
}.

(** The first half of an iteration: what is buffered is received, deadlines are checked. *)
Definition receive (cfg : Config) (now : Z) (s : Session)
    : Session * list (frame.FrameHeader * list Z) :=
  let '(s, handled) := drain_frames (length (inbuf s)) cfg now s in
  let s := frame_deadlines cfg now (negb (bool_decide (handled = []))) s in
  (body_deadlines cfg now s, handled).

(** The second half up to the flush. *)
Definition respond (cfg : Config) (t : Turn) (s : Session) : option (Session * list Z) :=
  let s := fold_left (fun s '(sid, is_head, resp) => on_handler s sid is_head resp) (handlers t) s in
  let s := fold_left (fun s '(sid, b, res) => on_pull s sid b res) (pulled t) s in
  write_output cfg (now t) s.

Definition closes (s : Session) : bool :=
  should_close (reading s) (draining s) (inflight (conn s) =? 0)
    (bool_decide (send.pulls (sender s) = [])) (bool_decide (send.outstreams (sender s) = ∅))
    (bool_decide (streams (conn s) = ∅)).

(** The session, whether it goes on, the frames handled and the octets written. [None] only
    when the scheduler's fuel runs out. *)
Definition iterate (cfg : Config) (s : Session) (t : Turn)
    : option (Session * bool * list (frame.FrameHeader * list Z) * list Z) :=
  let s := s <| conn := (conn s) <| budget := shared t |> <| memo := cache t |> |> in
  let '(s, handled) := receive cfg (now t) s in
  match respond cfg t s with
  | None => None
  | Some (s, octets) =>
      if closes s then Some (s, false, handled, octets)
      else Some (on_event cfg (now t) s (event t), true, handled, octets)
  end.

(** The loop over the turns the environment offers. The flag is false when the loop has
    ended. *)
Fixpoint run (cfg : Config) (s : Session) (ts : list Turn)
    : option (Session * bool * list (frame.FrameHeader * list Z) * list Z) :=
  match ts with
  | [] => Some (s, true, [], [])
  | t :: ts =>
      match iterate cfg s t with
      | None => None
      | Some (s, false, handled, octets) => Some (s, false, handled, octets)
      | Some (s, true, handled, octets) =>
          match run cfg s ts with
          | None => None
          | Some (s, on, handled', octets') => Some (s, on, handled ++ handled', octets ++ octets')
          end
      end
  end.

End session.
End session.
