(* ===== verification/H2SessionInv.v ===== *)
(** * What the connection loop keeps true

    Every step of the loop of [crates/hj-h2/src/server/mod.rs] other than a frame leaves the
    receiving side undisturbed; a frame does what [process_frame] says. So the HPACK decoder
    is always where the octets received so far put it, whatever else the connection was
    doing, and however those octets were cut into reads. *)

From stdpp Require Import base list gmap strings.
From Stdlib Require Import ZArith Lia.
From S2P Require Import Prelude RustStr HttpUtil Budget BodyDeadline H2Frame HpackString.
From S2P Require Import HpackTable HpackEncoder HpackDecoder H2State H2Request H2Recv H2RecvInv.
From S2P Require Import H2RecvFrames H2RecvStep H2RecvPeer H2SessionConn H2Send H2Pump H2Response.
From S2P Require Import H2Session.

Import headers state recv session.
#[local] Open Scope record_scope.

Section inv.
Context `{HttpCrate} {StreamBody Completion File : Type}.
Context (size_of_StreamState : nat) (exact_size : StreamBody → option Z).
Context (file_stream_body : File → option (Z * Z) → Z → StreamBody).

Abbreviation Sender := (@send.Sender StreamBody Completion).
Abbreviation OutStream := (@send.OutStream StreamBody Completion).
Abbreviation Response := (@response.Response StreamBody Completion File).
Abbreviation Session := (@Session _ StreamBody Completion).

(** ** The sending side *)

(** Every stream is scheduled once, and only streams whose handler has answered are. *)
Record sender_inv (answered : list Z) (a : Sender) : Prop := {
  sn_scheduled : scheduled a;
  sn_answered : ∀ k, k ∈ send.send_schedule a → k ∈ answered;
}.

(** No send window is over the limit of RFC 9113 section 6.9.1. *)
Record credit_ok (a : Sender) : Prop := {
  cr_conn : send.send_conn a <= I32_MAX;
  cr_streams : map_Forall (fun _ st => send.done st = false → send.window st <= I32_MAX)
                 (send.outstreams a);
}.

(** The streams of [a'] are among those of [a]. *)
Lemma sender_inv_sub answered a a' :
  sender_inv answered a → send.send_schedule a' = send.send_schedule a →
  (∀ k st, send.outstreams a' !! k = Some st → is_Some (send.outstreams a !! k)) →
  sender_inv answered a'.
Proof.
  intros [[Hn Ha] Hans] Es Ho. split; [split|]; rewrite Es; [done| |done].
  intros k st [st' Hk]%Ho. by eapply Ha.
Qed.

Lemma sender_inv_delete answered a sid :
  sender_inv answered a → sender_inv answered (send.cancel_outstream a sid).
Proof.
  intros Hs. eapply sender_inv_sub; [done|done|]. cbn. intros k st [_ Hk]%lookup_delete_Some. eauto.
Qed.

Lemma credit_ok_delete a sid : credit_ok a → credit_ok (send.cancel_outstream a sid).
Proof. intros [H1 H2]. split; [done|]. by apply map_Forall_delete. Qed.

Lemma sender_inv_put answered (a : Sender) sid st st' :
  send.outstreams a !! sid = Some st → sender_inv answered a →
  sender_inv answered (a <| send.outstreams := <[sid := st']> (send.outstreams a) |>).
Proof.
  intros Hk Hs. eapply sender_inv_sub; [done|done|]. cbn.
  intros k s [[<- _]|[_ Hl]]%lookup_insert_Some; eauto.
Qed.

Lemma credit_ok_put (a : Sender) sid st :
  (send.done st = false → send.window st <= I32_MAX) → credit_ok a →
  credit_ok (a <| send.outstreams := <[sid := st]> (send.outstreams a) |>).
Proof. intros Hw [H1 H2]. split; [done|]. by apply map_Forall_insert_2. Qed.

Lemma push_inv answered (a : Sender) seg :
  sender_inv answered a → sender_inv answered (send.push a seg).
Proof.
  intros Hs. destruct (push_fields a seg) as (Ho & Hsch & _). eapply sender_inv_sub; [done|done|].
  rewrite Ho. eauto.
Qed.

Lemma push_credit (a : Sender) seg : credit_ok a → credit_ok (send.push a seg).
Proof.
  intros [H1 H2]. destruct (push_fields a seg) as (Ho & _ & Hc & _). split; by rewrite ?Ho, ?Hc.
Qed.

(** Resets by the loop itself. *)
Lemma reset_all_inv answered expired a :
  sender_inv answered a → sender_inv answered (send.reset_all a expired).
Proof.
  unfold send.reset_all. revert a. induction expired as [|sid l IH]; intros a Hs; [done|]. cbn [fold_left].
  by apply IH, sender_inv_delete, push_inv.
Qed.

Lemma reset_all_credit expired a : credit_ok a → credit_ok (send.reset_all a expired).
Proof.
  unfold send.reset_all. revert a. induction expired as [|sid l IH]; intros a Hs; [done|]. cbn [fold_left].
  by apply IH, credit_ok_delete, push_credit.
Qed.

(** The scheduler. *)
Lemma pump_inv answered now p (a : Sender) :
  state.max_frame_size p < 2 ^ 32 → sender_inv answered a →
  ∃ a', send.pump_streams now p a = Some a' ∧ sender_inv answered a' ∧ (credit_ok a → credit_ok a').
Proof.
  intros Hm [Hs Ha]. destruct (pump_streams_settled now p a Hm Hs) as (a' & log & E & P & Hs' & Hsub & _).
  exists a'. split_and!; [done|split; [done|set_solver + Ha Hsub]|].
  intros [Hc Hw]. destruct P as [_ Pc _ _ Pd]. pose proof (zlen_nonneg (payload log)). split; [lia|].
  intros k st' Hk Hd. specialize (Pd k). rewrite Hk in Pd. unfold delivers in Pd.
  destruct (send.outstreams a !! k) as [st|] eqn:Ek; [|by destruct Pd].
  destruct (send.done st) eqn:Ed.
  - destruct Pd as [_ [[= ->]|]]; [congruence|done].
  - destruct Pd as (_ & _ & _ & _ & Hwin & _). specialize (Hw k st Ek Ed).
    pose proof (zlen_nonneg (payload (frames_of k log))). lia.
Qed.

(** A body chunk, or the end of a body. *)
Lemma apply_pull_inv answered sid b res (a : Sender) :
  sender_inv answered a → sender_inv answered (send.apply_pull sid b res a).
Proof.
  intros Hs. unfold send.apply_pull. destruct (send.outstreams a !! sid) as [st|] eqn:E; [|done].
  destruct res as [[data|]|]; try by eapply sender_inv_put.
  eapply sender_inv_put; [|by apply push_inv].
  destruct (push_fields a (frame.write_rst_stream sid frame.error_code.INTERNAL_ERROR)) as (-> & _).
  done.
Qed.

Lemma apply_pull_credit sid b res (a : Sender) :
  credit_ok a → credit_ok (send.apply_pull sid b res a).
Proof.
  intros Hc. unfold send.apply_pull. destruct (send.outstreams a !! sid) as [st|] eqn:E; [|done].
  pose proof (cr_streams a Hc sid st E) as Hst.
  destruct res as [[data|]|].
  - apply credit_ok_put; [|done]. by destruct (bool_decide _).
  - apply credit_ok_put; [done|by apply push_credit].
  - by apply credit_ok_put.
Qed.

(** A response begins. *)
Lemma register_inv answered (a : Sender) sid p b e c w :
  sid ∉ answered → sender_inv answered a →
  sender_inv (answered ++ [sid]) (response.register a sid p b e c w).
Proof.
  intros Hn [[Hnd Ha] Hans]. split; [split|]; cbn.
  - apply NoDup_app. split_and!; [done| |apply NoDup_singleton].
    intros k Hk ->%list_elem_of_singleton. by apply Hn, Hans.
  - intros k st. rewrite elem_of_app, list_elem_of_singleton.
    intros [[<- _]|[_ Hl]]%lookup_insert_Some; [by right|left; by eapply Ha].
  - intros k. rewrite !elem_of_app. intros [Hk|Hk]; auto.
Qed.

Lemma sender_inv_more answered sid a :
  sender_inv answered a → sender_inv (answered ++ [sid]) a.
Proof. intros [Hs Ha]. split; [done|]. intros k Hk%Ha. apply elem_of_app. by left. Qed.

Lemma register_credit (a : Sender) sid p b e c w :
  w <= I32_MAX → credit_ok a → credit_ok (response.register a sid p b e c w).
Proof. intros Hw [H1 H2]. split; [done|]. cbn. by apply map_Forall_insert_2. Qed.

Lemma headers_only_inv answered (a : Sender) sid block mf c :
  sender_inv answered a → sender_inv answered (response.headers_only a sid block mf c).
Proof.
  intros Hs%(push_inv _ _ (field_block.write_field_block sid frame.flags.END_STREAM block mf)).
  unfold response.headers_only. destruct c; [|done]. destruct Hs as [[] ?]. by split.
Qed.

Lemma headers_only_credit (a : Sender) sid block mf c :
  credit_ok a → credit_ok (response.headers_only a sid block mf c).
Proof.
  intros Hs%(push_credit _ (field_block.write_field_block sid frame.flags.END_STREAM block mf)).
  unfold response.headers_only. destruct c; [|done]. by destruct Hs.
Qed.

Lemma begin_body_inv answered (a : Sender) sid block mf b c w :
  sid ∉ answered → sender_inv answered a →
  sender_inv (answered ++ [sid]) (response.begin_body file_stream_body a sid block mf b c w).
Proof.
  intros Hn Hs. pose proof (sender_inv_more _ sid _ Hs) as Hs'.
  pose proof (push_inv _ _ (field_block.write_field_block sid 0 block mf) Hs) as Hp.
  unfold response.begin_body.
  repeat case_match; try by apply headers_only_inv. all: by apply register_inv.
Qed.

Lemma begin_body_credit (a : Sender) sid block mf b c w :
  w <= I32_MAX → credit_ok a →
  credit_ok (response.begin_body file_stream_body a sid block mf b c w).
Proof.
  intros Hw Hs. pose proof (push_credit _ (field_block.write_field_block sid 0 block mf) Hs) as Hp.
  unfold response.begin_body.
  repeat case_match; try by apply headers_only_credit. all: by apply register_credit.
Qed.

Lemma begin_response_inv answered sid is_head resp c (a : Sender) pw m' e' a' pw' :
  response.begin_response exact_size file_stream_body sid is_head resp (memo c) (enc c) a pw (peer c)
  = (m', e', a', pw') →
  sid ∉ answered → sender_inv answered a →
  undisturbed c (c <| memo := m' |> <| enc := e' |>) ∧ sender_inv (answered ++ [sid]) a' ∧
  (credit_ok a → credit_ok a') ∧ pw' = delete sid pw.
Proof.
  intros Hb Hn Hs. unfold response.begin_response in Hb. cbv zeta in Hb.
  set (hints := if response.is_success _ then _ else None) in Hb.
  set (mf := Z.max _ 1) in Hb. set (r1 := match hints with Some _ => _ | None => _ end) in Hb.
  assert (H1 : ∃ m1 e1 a1, r1 = (m1, e1, a1) ∧ undisturbed c (c <| memo := m1 |> <| enc := e1 |>) ∧
    sender_inv answered a1 ∧ (credit_ok a → credit_ok a1)).
  { subst r1. destruct hints as [fields|]; cycle 1.
    { exists (memo c), (enc c), a. split_and!; try done. destruct c. apply undisturbed_refl. }
    destruct (encoder.encode_block (memo c) (enc c) fields) as [[m1 e1] block] eqn:Ee.
    exists m1, e1, (send.push a (field_block.write_field_block sid 0 block mf)).
    split_and!; [done|by eapply undisturbed_encode|by apply push_inv|apply push_credit]. }
  clearbody r1. destruct H1 as (m1 & e1 & a1 & -> & U1 & Hs1 & Hc1).
  destruct (encoder.encode_block m1 e1 _) as [[m2 e2] block] eqn:Ee. injection Hb as <- <- <- <-.
  split_and!; [| | |done].
  - eapply undisturbed_trans; [exact U1|].
    exact (undisturbed_encode (c <| memo := m1 |> <| enc := e1 |>) _ m2 e2 block Ee).
  - destruct (http_util.response_body_forbidden _ _); [|by apply begin_body_inv].
    by apply sender_inv_more, headers_only_inv.
  - intros Hc%Hc1. destruct (http_util.response_body_forbidden _ _); [by apply headers_only_credit|].
    apply begin_body_credit; [unfold I32_MAX; lia|done].
Qed.

(** ** Steps that are not frames *)

(** Receiving is undisturbed, and the sending side stays sound. *)
Record quiet (s s' : Session) : Prop := {
  q_conn : undisturbed (conn s) (conn s');
  q_reading : reading s' = true → reading s = true;
  q_inbuf : inbuf s' = inbuf s;
  q_deadline : header_block_deadline s' = header_block_deadline s;
  q_answered : answered s' = answered s;
  q_sender : sender_inv (answered s) (sender s) → sender_inv (answered s') (sender s');
  q_credit : reading s' = true → credit_ok (sender s) → credit_ok (sender s');
  q_pending : Z.of_nat (size (pending_window s)) <= 4096 →
    Z.of_nat (size (pending_window s')) <= 4096;
}.

Lemma quiet_refl s : quiet s s.
Proof. split; auto using undisturbed_refl. Qed.

Lemma quiet_trans s1 s2 s3 : quiet s1 s2 → quiet s2 s3 → quiet s1 s3.
Proof.
  intros [A1 A2 A3 A4 A5 A6 A7 A8] [B1 B2 B3 B4 B5 B6 B7 B8]. split; auto; try congruence.
  by eapply undisturbed_trans.
Qed.

(** Only the connection changes. *)
Lemma quiet_conn s c : undisturbed (conn s) c → quiet s (s <| conn := c |>).
Proof. by split. Qed.

Lemma size_delete_le (m : gmap Z Z) k : (size (delete k m) <= size m)%nat.
Proof. rewrite map_size_delete. destruct (m !! k); cbn; [|done]. apply Nat.le_pred_l. Qed.

Lemma quiet_stop s : quiet s (stop_reading s).
Proof. by split. Qed.

Lemma quiet_fail s code : quiet s (fail s code).
Proof.
  unfold fail. eapply quiet_trans; [|apply quiet_stop]. apply quiet_conn, undisturbed_goaway.
Qed.

(** ** Outcomes *)

Lemma quiet_sender s (a : Sender) pw :
  (sender_inv (answered s) (sender s) → sender_inv (answered s) a) →
  (credit_ok (sender s) → credit_ok a) → (size pw <= size (pending_window s))%nat →
  quiet s (s <| sender := a |> <| pending_window := pw |>).
Proof. intros H1 H2 H3. split; try done; cbn; auto; lia. Qed.

Lemma on_conn_credit_quiet s n : quiet s (on_conn_credit s n).
Proof.
  unfold on_conn_credit. cbv zeta. destruct (Z.ltb_spec I32_MAX (send.send_conn (sender s) + n)).
  - unfold fail, stop_reading. split; try done; [|by intros [[] ?]]. apply undisturbed_goaway.
  - destruct (_ && _); split; try done; try (by intros [[] ?]); try (by intros _ []).
    apply undisturbed_progress.
Qed.

Lemma on_stream_credit_quiet s sid n st :
  send.outstreams (sender s) !! sid = Some st → quiet s (on_stream_credit s sid n st).
Proof.
  intros E. unfold on_stream_credit. cbv zeta.
  destruct (Z.ltb_spec I32_MAX (send.window st + n)).
  - split; try done; [apply undisturbed_frames|by eapply sender_inv_put|intros _; by apply credit_ok_put].
  - destruct (_ && _); split; try done; try (by eapply sender_inv_put);
      try (intros _; by apply credit_ok_put).
    apply undisturbed_progress.
Qed.

Lemma on_early_credit_quiet s now sid n :
  open_header_block (recv (conn s)) = None → quiet s (on_early_credit s now sid n).
Proof.
  intros Ho. unfold on_early_credit. cbv zeta. destruct (_ && _) eqn:Eroom; [|apply quiet_refl].
  destruct (I32_MAX <? _).
  - destruct (abort_handler _ now sid) as [c o] eqn:Ea.
    assert (U : undisturbed (conn s) c).
    { eapply undisturbed_trans; [apply undisturbed_frames|].
      eapply undisturbed_trans; [apply (undisturbed_teardown _ sid); unfold frames; by case_if|].
      pose proof (undisturbed_abort (teardown_receiving (frames (conn s)
        (frame.write_rst_stream sid frame.error_code.FLOW_CONTROL_ERROR)) sid) now sid) as U.
      by rewrite Ea in U. }
    assert (Q : quiet s (s <| conn := c |> <| pending_window := delete sid (pending_window s) |>)).
    { split; try done. pose proof (size_delete_le (pending_window s) sid). cbn. lia. }
    destruct o; try done. eapply quiet_trans; [exact Q|apply quiet_stop].
  - split; try done. cbn. intros Hs. rewrite map_size_insert.
    apply andb_true_iff in Eroom as [_ Hr]. destruct (pending_window s !! sid) as [c|]; [done|].
    apply orb_true_iff in Hr as [Hr%Z.ltb_lt|Hr%bool_decide_eq_true]; [lia|by destruct Hr].
Qed.

Lemma on_window_delta_quiet s delta : quiet s (on_window_delta s delta).
Proof.
  unfold on_window_delta. cbv zeta.
  set (ss := _ <$> send.outstreams (sender s)).
  set (s1 := s <| sender := _ |>).
  assert (Hs1 : sender_inv (answered s) (sender s) → sender_inv (answered s) (sender s1)).
  { intros Hs. eapply sender_inv_sub; [exact Hs|done|]. cbn. unfold ss. intros k st.
    rewrite lookup_fmap, fmap_Some. intros (? & -> & _). eauto. }
  destruct (existsb _ _) eqn:Ex.
  - unfold fail, stop_reading. split; try done. apply undisturbed_goaway.
  - split; try done. intros _ [Hc _]. split; [done|].
    intros k st Hk _. cbn in Hk. apply elem_of_map_to_list in Hk.
    destruct (Z.leb_spec (send.window st) I32_MAX) as [|Hgt]; [done|]. exfalso.
    apply not_true_iff_false in Ex. apply Ex, existsb_exists. exists (k, st).
    split; [by apply list_elem_of_In|]. cbn. lia.
Qed.

Lemma apply_outcome_quiet cfg now s o :
  (∀ sid n, o = WindowUpdate sid n → open_header_block (recv (conn s)) = None) →
  quiet s (apply_outcome cfg now s o).
Proof.
  intros Ho. destruct o as [| | |sid n|sid|delta]; cbn [apply_outcome].
  - apply quiet_refl.
  - apply quiet_stop.
  - by destruct (draining s).
  - destruct (sid =? 0); [apply on_conn_credit_quiet|].
    destruct (send.outstreams (sender s) !! sid) as [st|] eqn:E;
      [by apply on_stream_credit_quiet|]. by eapply on_early_credit_quiet, Ho.
  - apply quiet_sender; auto using sender_inv_delete, credit_ok_delete, size_delete_le.
  - apply on_window_delta_quiet.
Qed.

(** ** Deadlines *)

Lemma frame_deadlines_quiet cfg now completed s : quiet s (frame_deadlines cfg now completed s).
Proof.
  unfold frame_deadlines. set (s1 := if bool_decide (inbuf s = []) then _ else _).
  assert (Q : quiet s s1) by (subst s1; repeat case_match; by split).
  clearbody s1. destruct (_ && _); [|done]. eapply quiet_trans; [exact Q|apply quiet_fail].
Qed.

Lemma same_stream_deadline st d : same_stream st (st <| body_deadline := d |>).
Proof. done. Qed.

Lemma advance_body_deadlines_quiet now timeout ceiling s :
  quiet s (advance_body_deadlines now timeout ceiling s).
Proof.
  unfold advance_body_deadlines. cbv zeta.
  set (start := fun st => if body_starts st then st <| body_deadline := _ |> else st).
  assert (Hst : ∀ st, same_stream st (start st)) by (intros st; unfold start; by case_match).
  set (progress := _ ∪ body_progress s). case_match; (split; try done); apply undisturbed_deadlines;
    intros k; rewrite ?map_lookup_imap, lookup_fmap;
    destruct (streams (conn s) !! k) as [st|]; cbn; constructor; [done|].
  specialize (Hst st). set (st' := start st) in *. clearbody st'.
  repeat case_match; try done.
Qed.

Lemma expire_quiet s sid : quiet s (expire s sid).
Proof.
  unfold expire. cbv zeta.
  destruct (expire_receiving _ _ _ sid) as [[[r ss] b] emit] eqn:E. apply undisturbed_expire in E.
  pose proof (size_delete_le (pending_window s) sid).
  split; try done; [|cbn; lia]. destruct emit; [|done].
  eapply undisturbed_trans; [exact E|apply undisturbed_frames].
Qed.

Lemma fold_quiet {A} (f : Session → A → Session) l s :
  (∀ s x, quiet s (f s x)) → quiet s (fold_left f l s).
Proof.
  intros Hf. revert s. induction l as [|x l IH]; intros s; [apply quiet_refl|]. cbn [fold_left].
  eapply quiet_trans; [apply Hf|apply IH].
Qed.

Lemma body_deadlines_quiet cfg now s : quiet s (body_deadlines cfg now s).
Proof.
  unfold body_deadlines, expire_all. cbv zeta. eapply quiet_trans; [|apply fold_quiet, expire_quiet].
  case_match; [apply advance_body_deadlines_quiet|apply quiet_refl].
Qed.

(** ** Handlers, pulls and output *)

(** The stream is counted as answered, then its response begins. *)
Lemma on_handler_quiet s sid is_head resp :
  sid ∉ answered s → sender_inv (answered s) (sender s) →
  quiet (s <| answered := answered s ++ [sid] |>)
    (on_handler exact_size file_stream_body s sid is_head resp).
Proof.
  intros Hn Hs. unfold on_handler. cbv zeta.
  pose proof (undisturbed_handler (conn s) (inflight (conn s) - 1) sid) as U.
  set (c := (conn s) <| inflight := _ |> <| inflight_sids := _ |>) in *.
  destruct resp as [resp|]; [|by split]. destruct (bool_decide _); [by split|].
  set (c1 := c <| cancelled := _ |>) in *.
  clearbody c1.
  assert (Ha : sender_inv (answered s) ((sender s) <| send.queue := out c1 |>))
    by (destruct Hs as [[] ?]; by split).
  assert (Hca : credit_ok (sender s) → credit_ok ((sender s) <| send.queue := out c1 |>))
    by (intros []; by split).
  destruct (response.begin_response _ _ _ _ _ _ _ _ _ _) as [[[m e] a'] pw] eqn:Eb.
  destruct (begin_response_inv _ _ _ _ c1 _ _ _ _ _ _ Eb Hn Ha) as (U1 & Hs' & Hc' & ->).
  pose proof (size_delete_le (pending_window s) sid).
  split; try done; [|intros _ ?; by apply Hc', Hca|cbn; lia].
  eapply undisturbed_trans; [exact U|]. eapply undisturbed_trans; [exact U1|].
  apply undisturbed_out.
Qed.

Lemma on_pull_quiet s sid b res : quiet s (on_pull s sid b res).
Proof.
  unfold on_pull, on_sender. cbv zeta. split; try done; [apply undisturbed_out| |].
  - intros [[] ?]. by apply apply_pull_inv.
  - intros _ []. by apply apply_pull_credit.
Qed.

(** Everything up to the flush. The scheduler has fuel for the frame sizes a peer can ask
    for. *)
Lemma write_output_quiet cfg now s :
  peer_ok (peer (conn s)) → sender_inv (answered s) (sender s) →
  ∃ s' out, write_output cfg now s = Some (s', out) ∧ quiet s s'.
Proof.
  intros Hp Hs. unfold write_output. cbv zeta.
  set (a := (sender s) <| send.queue := out (conn s) |>).
  assert (Ha : sender_inv (answered s) a) by (destruct Hs as [[] ?]; by split).
  assert (Hca : credit_ok (sender s) → credit_ok a) by (intros []; by split). clearbody a.
  assert (Hm : state.max_frame_size (peer (conn s)) < 2 ^ 32) by (destruct Hp; lia).
  destruct (pump_inv _ now _ a Hm Ha) as (a1 & -> & Ha1 & Hc1).
  set (r2 := send.reset_stalled_streams now _ a1).
  assert (H2 : sender_inv (answered s) r2.1 ∧ (credit_ok a1 → credit_ok r2.1)).
  { subst r2. unfold send.reset_stalled_streams.
    destruct (send_stall_timeout cfg); [|done]. split; [by apply reset_all_inv|apply reset_all_credit]. }
  destruct r2 as [a2 w]. cbn [fst] in H2. destruct H2 as [Ha2 Hc2].
  set (r3 := match shutdown_idle_stream_timeout cfg with Some _ => _ | None => _ end).
  assert (H3 : sender_inv (answered s) r3.1 ∧ (credit_ok a2 → credit_ok r3.1)).
  { subst r3. destruct (shutdown_idle_stream_timeout cfg); [|done]. destruct (shutdown_drain s); [|done].
    split; [by apply reset_all_inv|apply reset_all_credit]. }
  destruct r3 as [a3 idle]. cbn [fst] in H3. destruct H3 as [Ha3 Hc3].
  eexists _, _. split; [done|]. split; try done; [apply undisturbed_out| |].
  - intros _. destruct Ha3 as [[] ?]. by split.
  - intros _ Hc. destruct (Hc3 (Hc2 (Hc1 (Hca Hc)))). by split.
Qed.

(** ** The arms of the [select] *)

Lemma fold_undisturbed {A} (f : Conn → A → Conn) l c :
  (∀ c x, undisturbed c (f c x)) → undisturbed c (fold_left f l c).
Proof.
  intros Hf. revert c. induction l as [|x l IH]; intros c; [apply undisturbed_refl|]. cbn [fold_left].
  eapply undisturbed_trans; [apply Hf|apply IH].
Qed.

Lemma abandon_drain_quiet s : quiet s (abandon_drain s).
Proof.
  unfold abandon_drain. cbv zeta.
  set (s1 := fold_left _ (map_to_list (streams (conn s))).*1 s).
  assert (Q1 : quiet s s1).
  { subst s1. apply fold_quiet. intros s0 sid.
    destruct (expire_receiving _ _ _ sid) as [[[r ss] b] emit] eqn:E. apply undisturbed_expire in E.
    apply quiet_conn. destruct emit; [|done].
    eapply undisturbed_trans; [exact E|apply undisturbed_frames]. }
  clearbody s1. eapply quiet_trans; [exact Q1|].
  set (c2 := fold_left _ (elements (inflight_sids (conn s1))) (conn s1)).
  assert (U2 : undisturbed (conn s1) c2).
  { subst c2. apply fold_undisturbed. intros c sid.
    eapply undisturbed_trans; [apply undisturbed_mark_cancelled|apply undisturbed_frames]. }
  clearbody c2. eapply quiet_trans; [exact (quiet_conn s1 c2 U2)|].
  set (s2 := s1 <| conn := c2 |>). clearbody s2. set (s3 := fold_left _ _ s2).
  assert (Q3 : quiet s2 s3).
  { subst s3. apply fold_quiet. intros s0 sid. split; try done; [apply undisturbed_frames|by apply sender_inv_delete|].
    intros _. by apply credit_ok_delete. }
  clearbody s3. eapply quiet_trans; [exact Q3|]. split; try done. apply undisturbed_goaway.
Qed.

(** Every arm but a read and a handler. *)
Lemma on_event_quiet cfg now s e :
  match e with Handler _ _ _ | Read _ => False | _ => True end →
  quiet s (on_event exact_size file_stream_body cfg now s e).
Proof.
  destruct e as [| sid b res | | | | | | |]; try done; intros _; cbn [on_event].
  - apply on_pull_quiet.
  - destruct (shutdown_drain s); [apply quiet_refl|].
    cbv zeta. destruct (_ && _); split; try done. apply undisturbed_goaway.
  - destruct (reading s); [apply quiet_stop|apply quiet_refl].
  - destruct (_ && _); [apply quiet_fail|apply quiet_refl].
  - destruct (_ && _); [apply quiet_fail|apply quiet_refl].
  - destruct (_ && _); [|apply quiet_refl].
    eapply quiet_trans; [apply abandon_drain_quiet|apply quiet_stop].
Qed.

End inv.
