(* ===== verification/H2SessionRun.v ===== *)
(** * The connection as a whole

    An invariant of the loop of [crates/hj-h2/src/server/mod.rs], kept by every iteration
    whatever the environment does; and the receiving side as a function of the octets
    received: the frames handled are the frames of the input, in order, and the HPACK
    decoder and the open header block are what these frames alone make of them. *)

From stdpp Require Import base list gmap strings.
From Stdlib Require Import ZArith Lia.
From S2P Require Import Prelude RustStr HttpUtil Budget BodyDeadline H2Frame HpackString.
From S2P Require Import HpackTable HpackEncoder HpackDecoder H2State H2Request H2Recv H2RecvInv.
From S2P Require Import H2RecvFrames H2RecvStep H2RecvPeer H2SessionConn H2Send H2Pump H2Response.
From S2P Require Import H2Session H2SessionInv.

Import headers state recv session.
#[local] Open Scope record_scope.

(** ** Frames of the input *)

(** The input begins with [frames], each within the size limit, and goes on with [rest]. *)
Inductive splits (cap : Z) : list Z → list (frame.FrameHeader * list Z) → list Z → Prop :=
| splits_nil buf : splits cap buf [] buf
| splits_cons buf hdr payload rest fs rest' :
    next_frame cap buf = NextFrame hdr payload rest → splits cap rest fs rest' →
    splits cap buf ((hdr, payload) :: fs) rest'.

Lemma parse_app buf more hdr : frame.parse buf = Some hdr → frame.parse (buf ++ more) = Some hdr.
Proof.
  unfold frame.parse, frame.LEN. do 9 (destruct buf as [|? buf]; [done|]). done.
Qed.

Lemma next_frame_app cap buf more hdr payload rest :
  next_frame cap buf = NextFrame hdr payload rest →
  next_frame cap (buf ++ more) = NextFrame hdr payload (rest ++ more).
Proof.
  unfold next_frame. destruct (frame.parse buf) as [h|] eqn:Ep; [|done].
  rewrite (parse_app _ _ _ Ep). destruct (cap <? frame.length h); [done|]. cbv zeta.
  assert (frame.LEN <= length buf)%nat as Hl.
  { unfold frame.parse, frame.LEN in *. do 9 (destruct buf as [|? buf]; [done|]). cbn. lia. }
  rewrite drop_app_le by done. set (b := drop frame.LEN buf).
  destruct (Nat.ltb_spec (length b) (Z.to_nat (frame.length h))) as [|Hn]; [done|].
  intros [= <- <- <-]. destruct (Nat.ltb_spec (length (b ++ more)) (Z.to_nat (frame.length h))) as [Hc|].
  - rewrite length_app in Hc. lia.
  - by rewrite take_app_le, drop_app_le by lia.
Qed.

Lemma splits_more cap buf fs rest more : splits cap buf fs rest → splits cap (buf ++ more) fs (rest ++ more).
Proof. induction 1; econstructor; eauto using next_frame_app. Qed.

Lemma splits_app cap buf fs mid gs rest :
  splits cap buf fs mid → splits cap mid gs rest → splits cap buf (fs ++ gs) rest.
Proof. induction 1; intros Hs; [done|]. econstructor; eauto. Qed.

(** The split is determined by the octets and the number of frames taken. *)
Lemma splits_fun cap buf fs rest gs rest' :
  splits cap buf fs rest → splits cap buf gs rest' → length fs = length gs → fs = gs ∧ rest = rest'.
Proof.
  intros Hs. revert gs. induction Hs as [buf|buf h p r fs rest Hn Hs IH]; intros gs Hg Hl.
  - destruct gs; [|done]. by inversion Hg.
  - destruct gs as [|[h' p'] gs]; [done|]. inversion Hg as [|? ? ? r' ? ? Hn' Hg']; subst.
    rewrite Hn in Hn'. injection Hn' as <- <- <-. injection Hl as Hl.
    by destruct (IH _ Hg' Hl) as [-> ->].
Qed.

Lemma next_frame_octets cap buf hdr payload rest :
  octets buf → next_frame cap buf = NextFrame hdr payload rest →
  0 <= frame.stream_id hdr ∧ octets payload ∧ octets rest ∧ (length rest < length buf)%nat.
Proof.
  intros Ho. pose proof (frame.parse_octets buf Ho) as Hp. unfold next_frame.
  destruct (frame.parse buf) as [h|]; [|done]. destruct (cap <? frame.length h); [done|]. cbv zeta.
  destruct Hp as ([_ _ _ Hs] & a & b & c & k & f & s0 & s1 & s2 & s3 & tl & -> & _).
  change (drop frame.LEN _) with tl. destruct (length tl <? _)%nat; [done|].
  apply Forall_app in Ho as [_ Ho].
  intros [= <- <- <-]. split_and!; [lia|by apply Forall_take|by apply Forall_drop|].
  rewrite length_app, length_drop. cbn. lia.
Qed.

Section run.
Context `{HttpCrate} {StreamBody Completion File : Type}.
Context (size_of_StreamState : nat) (exact_size : StreamBody → option Z).
Context (file_stream_body : File → option (Z * Z) → Z → StreamBody).

Abbreviation Response := (@response.Response StreamBody Completion File).
Abbreviation Session := (@Session _ StreamBody Completion).
Abbreviation Turn := (@Turn StreamBody Completion File).
Abbreviation Event := (@Event StreamBody Completion File).

(** ** The invariant of the loop *)

(** What holds while frames are still read. The deadline of a header block runs exactly
    while one is open. *)
Record receiving_inv (cfg : Config) (s : Session) : Prop := {
  rc_conn : conn_inv (conn s);
  rc_credit : credit_ok (sender s);
  rc_deadline : header_block_deadline s = None ↔
    open_header_block (recv (conn s)) = None ∨ frame_read_timeout cfg = None;
}.

Record session_inv (cfg : Config) (s : Session) : Prop := {
  se_receiving : reading s = true → receiving_inv cfg s;
  se_peer : peer_ok (peer (conn s));
  se_sender : sender_inv (answered s) (sender s);
  se_answered : NoDup (answered s);
  se_pending : Z.of_nat (size (pending_window s)) <= 4096;
  se_octets : octets (inbuf s);
}.

(** The HPACK decoder and the header block being received. *)
Definition hpack_state (c : Conn) : decoder.Decoder * option (list Z) := (dec c, open_block c).

(** What a list of frames makes of them. *)
Definition hpack_after (st : decoder.Decoder * option (list Z))
    (fs : list (frame.FrameHeader * list Z)) : decoder.Decoder * option (list Z) :=
  fold_left (fun '(d, blk) '(hdr, payload) => hpack_step d blk hdr payload) fs st.

Lemma hpack_after_app st fs gs : hpack_after st (fs ++ gs) = hpack_after (hpack_after st fs) gs.
Proof. apply fold_left_app. Qed.

(** None of the frames ends a header block. *)
Definition unfinished (fs : list (frame.FrameHeader * list Z)) : Prop :=
  Forall (fun f => has_flag (frame.flags f.1) frame.flags.END_HEADERS = false) fs.

Lemma hpack_step_unfinished d blk hdr payload :
  has_flag (frame.flags hdr) frame.flags.END_HEADERS = false →
  is_Some (hpack_step d (Some blk) hdr payload).2.
Proof.
  intros E. unfold hpack_step, block_step. rewrite E.
  destruct (_ =? _); [by destruct (headers_block _ _)|]. by destruct (_ =? _).
Qed.

Lemma hpack_after_unfinished fs d blk :
  unfinished fs → is_Some (hpack_after (d, Some blk) fs).2.
Proof.
  revert d blk. induction fs as [|[hdr payload] fs IH]; intros d blk Hu; [done|].
  apply Forall_cons in Hu as [Hf Hu]. unfold hpack_after. cbn [fold_left].
  pose proof (hpack_step_unfinished d blk hdr payload Hf) as Hs.
  destruct (hpack_step _ _ _ _) as [d' [blk'|]]; [by apply IH|by destruct Hs].
Qed.

Lemma open_block_Some c : is_Some (open_block c) ↔ is_Some (open_header_block (recv c)).
Proof. unfold open_block. destruct (open_header_block (recv c)); by rewrite ?is_Some_alt. Qed.

(** From [s] to [s'] the handlers of [new] answered, the frames [fs] were handled and the
    octets [inp] received. *)
Record received (cfg : Config) (s s' : Session) (new : list Z)
    (fs : list (frame.FrameHeader * list Z)) (inp : list Z) : Prop := {
  re_inv : session_inv cfg s';
  re_answered : answered s' = answered s ++ new;
  re_reading : reading s' = true →
    reading s = true ∧ splits (cap cfg) (inbuf s ++ inp) fs (inbuf s') ∧
    hpack_state (conn s') = hpack_after (hpack_state (conn s)) fs;
  re_deadline : reading s' = true → unfinished fs → ∀ d,
    header_block_deadline s = Some d → header_block_deadline s' = Some d;
}.

Lemma received_refl cfg s : session_inv cfg s → received cfg s s [] [] [].
Proof. intros Hs. split; [done|by rewrite app_nil_r| |done]. intros Hr. rewrite app_nil_r. split_and!; [done|constructor|done]. Qed.

Lemma received_trans cfg s1 s2 s3 new new' fs gs i j :
  received cfg s1 s2 new fs i → received cfg s2 s3 new' gs j →
  received cfg s1 s3 (new ++ new') (fs ++ gs) (i ++ j).
Proof.
  intros [_ A1 A2 A3] [B0 B1 B2 B3].
  split; [done|by rewrite B1, A1, app_assoc| |]; intros Hr;
    destruct (B2 Hr) as (Hr2 & Hs2 & Hh2); destruct (A2 Hr2) as (Hr1 & Hs1 & Hh1).
  - split_and!; [done| |by rewrite hpack_after_app, <- Hh1].
    rewrite app_assoc. eapply splits_app; [by apply splits_more|done].
  - intros [Hu1 Hu2]%Forall_app d Hd. auto.
Qed.

(** Steps that are not frames. *)
Lemma quiet_received cfg s s' : session_inv cfg s → quiet s s' → received cfg s s' [] [] [].
Proof.
  intros [I1 I2 I3 I4 I5 I6] [Q1 Q2 Q3 Q4 Q5 Q6 Q7 Q8]. split; [|by rewrite app_nil_r| |by rewrite Q4].
  - split; rewrite ?Q3, ?Q5, ?(un_peer _ _ Q1); auto; [|rewrite <- Q5; auto].
    intros Hr. destruct (I1 (Q2 Hr)) as [C1 C2 C3].
    split; [by apply (un_inv _ _ Q1)|auto|]. by rewrite Q4, (un_open _ _ Q1).
  - intros Hr. destruct (I1 (Q2 Hr)) as [C1 C2 C3]. rewrite app_nil_r, Q3.
    split_and!; [auto|constructor|]. unfold hpack_state.
    by rewrite (un_dec _ _ Q1), (un_block _ _ Q1).
Qed.

(** ** A frame *)

Lemma deadline_armed (was now_open : option Z) (current timeout : option Z) now :
  (current = None ↔ was = None ∨ timeout = None) →
  next_header_block_deadline (bool_decide (is_Some was)) (bool_decide (is_Some now_open)) current
    (match timeout with Some d => Some (now + d) | None => None end) = None
  ↔ now_open = None ∨ timeout = None.
Proof.
  intros Hc. destruct now_open as [k|]; cbn; [|by split; [left|]; destruct was].
  destruct was as [k'|]; cbn; [rewrite Hc; by split; intros [|]; auto|].
  destruct timeout; by split; [|intros []]; auto.
Qed.

Lemma deadline_kept (was now_open current arm timeout : option Z) d :
  (current = None ↔ was = None ∨ timeout = None) → (is_Some was → is_Some now_open) →
  current = Some d →
  next_header_block_deadline (bool_decide (is_Some was)) (bool_decide (is_Some now_open)) current arm
  = Some d.
Proof.
  intros Hc Ho ->. destruct was as [k|]; [|by discriminate (proj2 Hc (or_introl eq_refl))].
  by rewrite !bool_decide_eq_true_2 by auto.
Qed.

(** A quiet step after one that may have stopped the reading. *)
Lemma settle_received cfg s1 s2 :
  (reading s2 = true → receiving_inv cfg s1) →
  session_inv cfg (stop_reading s1) → quiet s1 s2 → session_inv cfg s2.
Proof.
  intros Hr [_ I2 I3 I4 I5 I6] [Q1 Q2 Q3 Q4 Q5 Q6 Q7 Q8].
  split; rewrite ?Q3, ?Q5, ?(un_peer _ _ Q1); auto; [|rewrite <- Q5; auto].
  intros Hr2. destruct (Hr Hr2) as [C1 C2 C3].
  split; [by apply (un_inv _ _ Q1)|auto|]. by rewrite Q4, (un_open _ _ Q1).
Qed.

Lemma on_frame_received cfg now s hdr payload rest :
  session_inv cfg s → reading s = true → next_frame (cap cfg) (inbuf s) = NextFrame hdr payload rest →
  let s' := on_frame size_of_StreamState cfg now (s <| inbuf := rest |>) hdr payload in
  received cfg s s' [] [(hdr, payload)] [] ∧ inbuf s' = rest.
Proof.
  intros Hs Hr Hn. destruct Hs as [I1 I2 I3 I4 I5 I6]. specialize (I1 Hr) as [C1 C2 C3].
  destruct (next_frame_octets _ _ _ _ _ I6 Hn) as (Hsid & Hpay & Hrest & _).
  unfold on_frame. set (s0 := s <| inbuf := rest |>).
  set (len := Z.of_nat (size (send.outstreams (sender s0)))).
  change (conn s0) with (conn s).
  pose proof (process_frame_peer size_of_StreamState (conn s) now hdr payload len (accepting s0) I2 Hpay) as Hp.
  pose proof (process_frame_outcome size_of_StreamState (conn s) now hdr payload len (accepting s0)) as Hg.
  pose proof (process_frame_ok size_of_StreamState (conn s) now hdr payload len (accepting s0)) as Hok.
  destruct (process_frame _ _ _ _ _ _ _) as [c o]. cbn [fst] in Hp.
  specialize (Hok c o C1 Hpay Hsid eq_refl).
  set (s1 := s0 <| conn := c |> <| header_block_deadline := _ |>).
  assert (Q : quiet s1 (apply_outcome cfg now s1 o)).
  { apply apply_outcome_quiet. intros sid n ->. exact Hg. }
  assert (Hne : reading (apply_outcome cfg now s1 o) = true → o ≠ StopReading) by by intros ? ->.
  set (s2 := apply_outcome cfg now s1 o) in *. clearbody s2.
  assert (Hf : reading s2 = true → receiving_inv cfg s1 ∧
    hpack_state c = hpack_step (dec (conn s)) (open_block (conn s)) hdr payload).
  { intros Hr2. specialize (Hok (Hne Hr2)). destruct (hpack_step _ _ _ _) as [d blk].
    destruct Hok as [F1 F2 F3 _ _ _]. unfold hpack_state. rewrite F2, F3. split; [|done].
    split; [done|done|]. by apply (deadline_armed _ _ (header_block_deadline s)). }
  split; [|exact (q_inbuf _ _ Q)]. split; [|by rewrite app_nil_r, (q_answered _ _ Q)| |].
  - eapply settle_received; [by intros []%Hf| |exact Q]. by split.
  - intros Hr2. destruct (Hf Hr2) as [[F1 _ _] Hh]. split_and!; [done| |].
    + rewrite app_nil_r, (q_inbuf _ _ Q). econstructor; [exact Hn|constructor].
    + cbn. rewrite <- Hh. unfold hpack_state. by rewrite (un_dec _ _ (q_conn _ _ Q)), (un_block _ _ (q_conn _ _ Q)).
  - intros Hr2 [Hu _]%Forall_cons d Hd. rewrite (q_deadline _ _ Q). destruct (Hf Hr2) as [_ Hh].
    apply (deadline_kept _ _ _ _ (frame_read_timeout cfg)); [exact C3| |exact Hd].
    intros [blk Hb]%open_block_Some. apply open_block_Some. rewrite Hb in Hh.
    pose proof (hpack_step_unfinished (dec (conn s)) blk hdr payload Hu) as Ho. by rewrite <- Hh in Ho.
Qed.

(** Every complete frame of the buffer is handled: the fuel is enough. *)
Lemma drain_frames_received cfg now fuel s s' fs :
  session_inv cfg s → (length (inbuf s) <= fuel)%nat →
  drain_frames size_of_StreamState fuel cfg now s = (s', fs) →
  received cfg s s' [] fs [] ∧ (reading s' = true → next_frame (cap cfg) (inbuf s') = Incomplete).
Proof.
  revert s s' fs. induction fuel as [|fuel IH]; intros s s' fs Hs Hl; cbn [drain_frames].
  { intros [= <- <-]. split; [by apply received_refl|]. intros _. by destruct (inbuf s); [|cbn in Hl; lia]. }
  destruct (reading s) eqn:Er; cbn [negb]; cycle 1.
  { intros [= <- <-]. split; [by apply received_refl|]. congruence. }
  destruct (next_frame (cap cfg) (inbuf s)) as [hdr payload rest| |] eqn:En.
  - destruct (on_frame_received cfg now s hdr payload rest Hs Er En) as [Hf Hb].
    destruct (drain_frames _ fuel cfg now _) as [s2 gs] eqn:Ed. intros [= <- <-].
    pose proof (next_frame_octets _ _ _ _ _ (se_octets _ _ Hs) En) as (_ & _ & _ & Hlt).
    apply IH in Ed as [Hr Hi]; [|exact (re_inv _ _ _ _ _ _ Hf)|rewrite Hb; lia].
    split; [exact (received_trans _ _ _ _ _ _ _ _ _ _ Hf Hr)|done].
  - intros [= <- <-]. split; [apply quiet_received; [done|apply quiet_fail]|done].
  - intros [= <- <-]. split; [by apply received_refl|done].
Qed.

(** ** An iteration *)

(** After the deadlines were checked, an open header block is not overdue. *)
Lemma frame_deadlines_due cfg now completed (s : Session) d :
  reading (frame_deadlines cfg now completed s) = true →
  header_block_deadline (frame_deadlines cfg now completed s) = Some d → now < d.
Proof.
  unfold frame_deadlines. set (s1 := if bool_decide (inbuf s = []) then _ else _). clearbody s1.
  destruct (reading s1) eqn:Er; cbn [andb]; [|congruence].
  destruct (header_block_deadline s1) as [d'|] eqn:Ed; [|congruence].
  destruct (Z.leb_spec d' now); [done|]. intros _. congruence.
Qed.

Lemma receive_received cfg now s s' fs :
  session_inv cfg s → receive size_of_StreamState cfg now s = (s', fs) →
  received cfg s s' [] fs [] ∧
  (reading s' = true → next_frame (cap cfg) (inbuf s') = Incomplete ∧
     ∀ d, header_block_deadline s' = Some d → now < d).
Proof.
  intros Hs. unfold receive. destruct (drain_frames _ _ cfg now s) as [s1 gs] eqn:Ed.
  apply drain_frames_received in Ed as [R1 Hi]; [|done|done]. intros [= <- <-].
  set (f := negb _). pose proof (frame_deadlines_quiet cfg now f s1) as Q2.
  pose proof (frame_deadlines_due cfg now f s1) as Hd.
  set (s2 := frame_deadlines cfg now f s1) in *. clearbody s2 f.
  pose proof (quiet_received cfg s1 s2 (re_inv _ _ _ _ _ _ R1) Q2) as R2.
  pose proof (body_deadlines_quiet cfg now s2) as Q3.
  pose proof (quiet_received cfg s2 _ (re_inv _ _ _ _ _ _ R2) Q3) as R3.
  split.
  - rewrite <- (app_nil_r gs). eapply (received_trans _ _ _ _ [] [] _ [] [] []); [exact R1|].
    exact (received_trans _ _ _ _ _ _ _ _ _ _ R2 R3).
  - intros Hr%(q_reading _ _ Q3). rewrite (q_inbuf _ _ Q3), (q_inbuf _ _ Q2), (q_deadline _ _ Q3).
    split; [by apply Hi, (q_reading _ _ Q2)|auto].
Qed.

(** A handler that answers a stream not yet answered. *)
Lemma on_handler_received cfg s sid is_head resp :
  session_inv cfg s → sid ∉ answered s →
  received cfg s (on_handler exact_size file_stream_body s sid is_head resp) [sid] [] [].
Proof.
  intros Hs Hn. set (s' := on_handler _ _ _ _ _ _). set (s1 := s <| answered := answered s ++ [sid] |>).
  assert (Hs1 : session_inv cfg s1).
  { destruct Hs as [I1 I2 I3 I4 I5 I6]. split; try done.
    - intros [C1 C2 C3]%I1. by split.
    - by apply sender_inv_more.
    - apply NoDup_app. split_and!; [done| |apply NoDup_singleton].
      by intros k Hk ->%list_elem_of_singleton. }
  assert (Q : quiet s1 s') by (apply on_handler_quiet; [done|apply Hs]).
  destruct (quiet_received cfg s1 s' Hs1 Q) as [R1 R2 R3 R4]. by split; [|exact (q_answered _ _ Q)|..].
Qed.

(** The streams whose handlers answer in a turn. *)
Definition event_sids (e : Event) : list Z := match e with Handler sid _ _ => [sid] | _ => [] end.

Definition turn_sids (t : Turn) : list Z := (fun h => h.1.1) <$> handlers t.

(** The octets a turn reads. *)
Definition event_input (e : Event) : list Z :=
  match e with Read o => o | _ => [] end.

Lemma handlers_received cfg hs s :
  session_inv cfg s → NoDup (answered s ++ ((fun h => h.1.1) <$> hs)) →
  received cfg s
    (fold_left (fun s '(sid, is_head, resp) => on_handler exact_size file_stream_body s sid is_head resp) hs s)
    ((fun h => h.1.1) <$> hs) [] [].
Proof.
  revert s. induction hs as [|[[sid is_head] resp] hs IH]; intros s Hs Hn; [by apply received_refl|].
  cbn [fold_left fmap list_fmap fst] in *.
  assert (Hsid : sid ∉ answered s).
  { intros Hin. apply NoDup_app in Hn as (_ & Hd & _). by eapply Hd, list_elem_of_here. }
  pose proof (on_handler_received cfg s sid is_head resp Hs Hsid) as R.
  apply (received_trans _ _ _ _ [sid] _ [] [] [] [] R), IH; [exact (re_inv _ _ _ _ _ _ R)|].
  by rewrite (re_answered _ _ _ _ _ _ R), <- app_assoc.
Qed.

Lemma pulls_quiet ps (s : Session) :
  quiet s (fold_left (fun s '(sid, b, res) => on_pull s sid b res) ps s).
Proof.
  revert s. induction ps as [|[[sid b] res] ps IH]; intros s; [apply quiet_refl|]. cbn [fold_left].
  eapply quiet_trans; [apply on_pull_quiet|apply IH].
Qed.

Lemma respond_received cfg t s :
  session_inv cfg s → NoDup (answered s ++ turn_sids t) →
  ∃ s' out, respond exact_size file_stream_body cfg t s = Some (s', out) ∧
    received cfg s s' (turn_sids t) [] [].
Proof.
  intros Hs Hn. unfold respond. cbv zeta. pose proof (handlers_received cfg (handlers t) s Hs Hn) as R1.
  set (s1 := fold_left _ (handlers t) s) in *. clearbody s1.
  pose proof (pulls_quiet (pulled t) s1) as Q2. set (s2 := fold_left _ (pulled t) s1) in *. clearbody s2.
  pose proof (quiet_received cfg s1 s2 (re_inv _ _ _ _ _ _ R1) Q2) as R2.
  destruct (re_inv _ _ _ _ _ _ R2) as [_ I2 I3 _ _ _].
  destruct (write_output_quiet cfg (now t) s2 I2 I3) as (s3 & out & -> & Q3).
  exists s3, out. split; [done|].
  pose proof (quiet_received cfg s2 s3 (re_inv _ _ _ _ _ _ R2) Q3) as R3.
  rewrite <- (app_nil_r (turn_sids t)). apply (received_trans _ _ _ _ _ [] [] [] [] [] R1).
  exact (received_trans _ _ _ _ _ _ _ _ _ _ R2 R3).
Qed.

Lemma on_event_received cfg now s e :
  session_inv cfg s → NoDup (answered s ++ event_sids e) → octets (event_input e) →
  received cfg s (on_event exact_size file_stream_body cfg now s e) (event_sids e) [] (event_input e).
Proof.
  intros Hs Hn Ho.
  destruct e as [sid is_head resp| | |o| | | | |];
    try (apply quiet_received; [done|by apply on_event_quiet]).
  - cbn [on_event event_sids event_input] in *. apply on_handler_received; [done|].
    apply NoDup_app in Hn as (_ & Hd & _). intros Hin. by eapply Hd, list_elem_of_here.
  - cbn [on_event event_sids event_input] in *. destruct (reading s) eqn:Er.
    + destruct Hs as [I1 I2 I3 I4 I5 I6]. split; [|by rewrite app_nil_r| |done].
      * split; try done; [intros _; destruct (I1 Er); by split|]. cbn. by apply Forall_app.
      * intros _. split_and!; [done|constructor|done].
    + split; [done|by rewrite app_nil_r| |done]. congruence.
Qed.

(** ** The loop *)

(** What the environment must keep to: the cache of encoded literals is sound, and octets
    are octets. *)
Definition turn_ok (t : Turn) : Prop :=
  hpack_string.memo_ok (cache t) ∧ octets (event_input (event t)).

Lemma undisturbed_shared c b m :
  hpack_string.memo_ok m → undisturbed c (c <| budget := b |> <| memo := m |>).
Proof.
  intros Hm. split; try done. intros [[Hlim Hst Hacc Hdsp [P1 P2 P3 P4 P5 P6] Hwin Hdis] ? ? ?].
  by split.
Qed.

(** All the streams answered in a turn, and what it leaves in the buffer. *)
Lemma iterate_received cfg s t :
  session_inv cfg s → turn_ok t → NoDup (answered s ++ turn_sids t ++ event_sids (event t)) →
  ∃ s' on fs out,
    iterate size_of_StreamState exact_size file_stream_body cfg s t = Some (s', on, fs, out) ∧
    received cfg s s' (turn_sids t ++ (if on then event_sids (event t) else [])) fs
      (if on then event_input (event t) else []) ∧
    (reading s' = true → unfinished fs → ∀ d, header_block_deadline s = Some d → now t < d).
Proof.
  intros Hs [Hm Ho] Hn. unfold iterate. cbv zeta.
  set (s0 := s <| conn := _ |>).
  pose proof (quiet_received cfg s s0 Hs (quiet_conn s _ (undisturbed_shared (conn s) (shared t) (cache t) Hm))) as R0.
  clearbody s0.
  destruct (receive _ cfg (now t) s0) as [s1 fs] eqn:Er.
  apply receive_received in Er as [R1 Hdue]; [|exact (re_inv _ _ _ _ _ _ R0)].
  pose proof (received_trans _ _ _ _ _ _ _ _ _ _ R0 R1) as R01. cbn [app] in R01.
  pose proof (re_answered _ _ _ _ _ _ R01) as Ha. rewrite app_nil_r in Ha.
  rewrite app_assoc in Hn. pose proof Hn as (Hn1 & _ & _)%NoDup_app.
  destruct (respond_received cfg t s1 (re_inv _ _ _ _ _ _ R1)) as (s2 & out & -> & R2); [by rewrite Ha|].
  pose proof (received_trans _ _ _ _ _ _ _ _ _ _ R01 R2) as R02. cbn [app] in R02.
  rewrite app_nil_r in R02.
  assert (Hd2 : reading s2 = true → unfinished fs → ∀ d, header_block_deadline s = Some d → now t < d).
  { intros Hr Hu d Hd. destruct (re_reading _ _ _ _ _ _ R2 Hr) as [Hr1 _].
    apply (Hdue Hr1), (re_deadline _ _ _ _ _ _ R01 Hr1 Hu d Hd). }
  destruct (closes s2).
  - eexists s2, false, fs, out. split_and!; [done|by rewrite app_nil_r|done].
  - pose proof (re_answered _ _ _ _ _ _ R02) as Ha2.
    pose proof (on_event_received cfg (now t) s2 (event t) (re_inv _ _ _ _ _ _ R2)) as R3.
    specialize (R3 ltac:(by rewrite Ha2) Ho).
    eexists _, true, fs, out. split_and!; [done| |].
    + rewrite <- (app_nil_r fs). exact (received_trans _ _ _ _ _ _ _ _ [] _ R02 R3).
    + intros Hr. destruct (re_reading _ _ _ _ _ _ R3 Hr) as [Hr2 _]. by apply Hd2.
Qed.

(** All that a list of turns brings in. *)
Definition all_sids (ts : list Turn) : list Z :=
  mjoin ((fun t => turn_sids t ++ event_sids (event t)) <$> ts).

Definition all_input (ts : list Turn) : list Z := mjoin ((fun t => event_input (event t)) <$> ts).

Lemma run_received cfg ts s :
  session_inv cfg s → Forall turn_ok ts → NoDup (answered s ++ all_sids ts) →
  ∃ s' on fs out,
    run size_of_StreamState exact_size file_stream_body cfg s ts = Some (s', on, fs, out) ∧
    session_inv cfg s' ∧
    (on = true → received cfg s s' (all_sids ts) fs (all_input ts) ∧
       (reading s' = true → unfinished fs → ∀ d, header_block_deadline s = Some d →
        Forall (fun t => now t < d) ts)).
Proof.
  revert s. induction ts as [|t ts IH]; intros s Hs Hok Hn; cbn [run].
  { exists s, true, [], []. split_and!; [done|done|]. intros _. split; [by apply received_refl|].
    intros _ _ d _. by constructor. }
  apply Forall_cons in Hok as [Ht Hok]. unfold all_sids in Hn. cbn [fmap list_fmap mjoin list_join] in Hn.
  rewrite app_assoc in Hn. pose proof Hn as (Hn1 & _ & _)%NoDup_app.
  destruct (iterate_received cfg s t Hs Ht Hn1) as (s1 & on & fs & out & -> & R1 & D1).
  pose proof (re_inv _ _ _ _ _ _ R1) as Hs1. destruct on; cycle 1.
  { exists s1, false, fs, out. split_and!; [done|done|]. done. }
  destruct (IH s1 Hs1 Hok) as (s2 & on & gs & out' & -> & Hs2 & R2).
  { rewrite (re_answered _ _ _ _ _ _ R1). exact Hn. }
  eexists _, _, _, _. split_and!; [done|done|]. intros Hon. destruct (R2 Hon) as [R2' D2].
  split; [exact (received_trans _ _ _ _ _ _ _ _ _ _ R1 R2')|].
  intros Hr [Hu1 Hu2]%Forall_app d Hd. destruct (re_reading _ _ _ _ _ _ R2' Hr) as [Hr1 _].
  constructor; [by apply D1|]. by apply D2, (re_deadline _ _ _ _ _ _ R1 Hr1 Hu1).
Qed.

(** ** The beginning *)

(** A sane configuration. *)
Record config_ok (cfg : Config) : Prop := {
  cf_table : 0 <= header_table_size cfg;
  cf_list : 0 <= header_list_size cfg < U64_MAX;
  cf_concurrent : 0 <= max_concurrent_streams cfg;
  cf_window : 0 <= initial_window_size cfg < 2 ^ 31;
  cf_body : 0 <= cfg_max_request_body cfg < 2 ^ 60;
  cf_headers : 0 <= cfg_pending_header_mem cfg < 2 ^ 62;
}.

Lemma start_inv cfg m :
  config_ok cfg → hpack_string.memo_ok m → session_inv cfg (start cfg m).
Proof.
  intros [K1 K2 K3 K4 K5 K6] Hm. split; try done.
  - intros _. split; [|split; [done|apply map_Forall_empty]|split; [by left|done]].
    split; [|apply map_Forall_empty|done|done]. split; cbn; try done.
    + split; cbn; try lia; unfold U64_MAX; lia.
    + split; cbn; rewrite ?sum_map_empty; unfold U64_MAX; lia.
    + split; cbn; [apply NoDup_nil_2|set_solver +|set_solver +].
    + lia.
  - split; [split; [apply NoDup_nil_2|done]|]. cbn. set_solver +.
  - apply NoDup_nil_2.
Qed.

End run.
