(* ===== verification/H2FieldBlockWire.v ===== *)
(** * A field block and its frames

    The frames [write_field_block] of [crates/hj-h2/src/server/send.rs] queues are within
    the peer's frame size, on the stream of the response, and a receiver that handles frames
    as [process_frame] does decodes exactly the block that was encoded, once. *)

From stdpp Require Import base list gmap strings.
From Stdlib Require Import ZArith Lia.
From S2P Require Import Prelude H2Frame HpackString HpackTable HpackEncoder HpackDecoder HttpUtil.
From S2P Require Import H2State H2Request H2Recv H2RecvInv H2RecvFrames H2RecvStep.
From S2P Require Import H2Session H2SessionRun.

Import session recv field_block.

(** A frame written is the frame read. *)
Lemma next_frame_write cap kind flags sid payload rest :
  is_byte kind → is_byte flags → 0 <= sid < 2 ^ 31 → zlen payload <= cap → cap < 2 ^ 24 →
  next_frame cap (frame.write_frame kind flags sid payload ++ rest) =
  NextFrame {| frame.length := zlen payload; frame.kind := kind; frame.flags := flags;
               frame.stream_id := sid |} payload rest.
Proof.
  intros Hk Hf Hs Hp Hc. unfold frame.write_frame, next_frame. rewrite <- app_assoc.
  pose proof (zlen_nonneg payload).
  assert (Hl : u32 (zlen payload) = zlen payload) by (apply wrap_id; lia). rewrite Hl.
  set (h := {| frame.length := _ |}).
  assert (Hw : frame.header_wf h) by (split; cbn; lia || done).
  rewrite (frame.parse_write h _ Hw). cbn [frame.length h].
  destruct (Z.ltb_spec cap (zlen payload)); [lia|]. cbv zeta.
  assert (Hn : length (frame.write h) = frame.LEN) by done.
  rewrite <- Hn, drop_app_length. unfold zlen. rewrite Nat2Z.id.
  rewrite take_app_length, drop_app_length, length_app.
  destruct (Nat.ltb_spec (length payload + length rest) (length payload)); [lia|done].
Qed.

(** The frames of a block that carry the rest of it. *)
Lemma continuations_split fuel sid max rest d blk :
  0 <= sid < 2 ^ 31 → (0 < max)%nat → Z.of_nat max < 2 ^ 24 → (length rest <= fuel)%nat → rest ≠ [] →
  ∃ fs, splits (Z.of_nat max) (continuations fuel sid max rest) fs [] ∧
    Forall (fun f => frame.stream_id f.1 = sid) fs ∧
    hpack_after (d, Some blk) fs = ((decoder.decode_octets d (blk ++ rest)).1.1, None).
Proof.
  intros Hsid H0 Hmax. revert rest blk. induction fuel as [|fuel IH]; intros rest blk Hl Hne.
  { destruct rest; [done|cbn in Hl; lia]. }
  cbn [continuations]. destruct (Nat.ltb_spec max (length rest)) as [Hlt|Hge].
  - destruct (IH (drop max rest) (blk ++ take max rest)) as (fs & Hs & Hf & Hh).
    { rewrite length_drop. lia. }
    { intros Hd%(f_equal length). rewrite length_drop in Hd. cbn in Hd. lia. }
    eexists (_ :: fs). split_and!.
    + econstructor; [|exact Hs]. apply next_frame_write; try done.
      unfold zlen. rewrite length_take. lia.
    + by constructor.
    + rewrite <- app_assoc, take_drop in Hh. exact Hh.
  - eexists [_]. split_and!.
    + econstructor; [|constructor]. rewrite <- (app_nil_r (frame.write_frame _ _ _ _)).
      apply next_frame_write; try done. unfold zlen. lia.
    + by repeat constructor.
    + done.
Qed.

Lemma headers_step d flags sid block :
  flags = 0 ∨ flags = frame.flags.END_STREAM →
  let hdr f := {| frame.length := zlen block; frame.kind := frame.kind.HEADERS; frame.flags := f;
                  frame.stream_id := sid |} in
  hpack_step d None (hdr flags) block = (d, Some block) ∧
  hpack_step d None (hdr (Z.lor flags frame.flags.END_HEADERS)) block =
    ((decoder.decode_octets d block).1.1, None).
Proof.
  assert (Hb : strip_padding block 0 = Some block).
  { unfold strip_padding. pose proof (zlen_nonneg block). destruct (Z.ltb_spec (zlen block) 0); [lia|].
    rewrite Z.sub_0_r. unfold zlen. by rewrite Nat2Z.id, firstn_all. }
  assert (Hh : ∀ f, f = 0 ∨ f = 1 ∨ f = 4 ∨ f = 5 → headers_block f block = Some block)
    by (intros f [-> | [-> | [-> | ->]]]; exact Hb).
  intros [-> | ->] hdr; unfold hpack_step, hdr; cbn [frame.kind frame.flags];
    (rewrite Z.eqb_refl, !Hh by (vm_compute; tauto)); done.
Qed.

(** The frames of a field block are within the peer's frame size and on the response's
    stream, and a receiver that handles frames as the server does decodes exactly the block
    that was encoded, once. *)
Theorem field_block_reassembled sid flags block max d :
  0 <= sid < 2 ^ 31 → flags = 0 ∨ flags = frame.flags.END_STREAM → 1 <= max < 2 ^ 24 →
  ∃ fs, splits max (write_field_block sid flags block max) fs [] ∧
    Forall (fun f => frame.stream_id f.1 = sid) fs ∧
    hpack_after (d, None) fs = ((decoder.decode_octets d block).1.1, None).
Proof.
  intros Hsid Hf Hmax. destruct (headers_step d flags sid block Hf) as [_ Hend].
  destruct (headers_step d flags sid (take (Z.to_nat max) block) Hf) as [Hopen _].
  assert (Hb : is_byte flags ∧ is_byte (Z.lor flags frame.flags.END_HEADERS))
    by (destruct Hf as [-> | ->]; done). destruct Hb as [Hb1 Hb2].
  unfold write_field_block. rewrite Z.max_l by lia.
  destruct (Z.leb_spec (zlen block) max) as [Hle|Hgt].
  - eexists [_]. split_and!.
    + econstructor; [|constructor]. rewrite <- (app_nil_r (frame.write_frame _ _ _ _)).
      apply next_frame_write; lia || done.
    + by repeat constructor.
    + exact Hend.
  - unfold zlen in Hgt. set (rest := drop (Z.to_nat max) block).
    destruct (continuations_split (length block) sid (Z.to_nat max) rest d (take (Z.to_nat max) block))
      as (fs & Hs & Hfs & Hh); [done|lia|lia| | |].
    { subst rest. rewrite length_drop. lia. }
    { intros Hd%(f_equal length). subst rest. rewrite length_drop in Hd. cbn in Hd. lia. }
    subst rest. rewrite take_drop in Hh. rewrite Z2Nat.id in Hs by lia.
    eexists (_ :: fs). split_and!.
    + econstructor; [|exact Hs]. apply next_frame_write; try done; [|lia].
      unfold zlen. rewrite length_take. lia.
    + by constructor.
    + rewrite <- Hh. unfold hpack_after. cbn [fold_left]. by rewrite Hopen.
Qed.

Lemma field_block_reassembled_witness :
  ∃ fs, splits 2 (write_field_block 5 0 [0x82; 0x86; 0x84] 2) fs [] ∧
    Forall (fun f => frame.stream_id f.1 = 5) fs ∧
    hpack_after (decoder.new 4096 65536, None) fs =
      ((decoder.decode_octets (decoder.new 4096 65536) [0x82; 0x86; 0x84]).1.1, None).
Proof. apply field_block_reassembled; [done|by left|done]. Defined.
