(* ===== verification/H2Connection.v ===== *)
(** * What the HTTP/2 server guarantees for a connection

    The theorems about [process_frame] and the loop of [crates/hj-h2/src/server/], at the
    level of whole frames and whole runs. *)

From stdpp Require Import base list gmap strings.
From Stdlib Require Import ZArith Lia.
From S2P Require Import Prelude RustStr HttpUtil Budget BodyDeadline H2Frame HpackString.
From S2P Require Import HpackTable HpackEncoder HpackDecoder H2State H2Request H2Recv H2RecvInv.
From S2P Require Import H2RecvFrames H2RecvStep H2RecvPeer H2SessionConn H2Send H2Pump H2Response.
From S2P Require Import H2Session H2SessionInv H2SessionRun.

Import headers state recv session.
#[local] Open Scope record_scope.

Section connection.
Context `{HttpCrate} {StreamBody Completion File : Type}.
Context (size_of_StreamState : nat) (exact_size : StreamBody → option Z).
Context (file_stream_body : File → option (Z * Z) → Z → StreamBody).

Abbreviation Session := (@Session _ StreamBody Completion).
Abbreviation Turn := (@Turn StreamBody Completion File).
Abbreviation run := (run size_of_StreamState exact_size file_stream_body).

(** What the environment does in [ts]: reads octets, offers sound caches, and answers a
    stream at most once. *)
Definition environment (ts : list Turn) : Prop := Forall turn_ok ts ∧ NoDup (all_sids ts).

(** C1. Whatever a client sends, however its octets are cut into reads and whatever the
    handlers, bodies, timers and other connections do in between, the loop never gets stuck,
    and while it reads, the frames handled are the frames of the octets received, in order,
    with the rest left in the buffer, and the HPACK decoder and the open header block are
    exactly what those frames alone make of them: each header block is decoded once, with
    its fragments in order. *)
Theorem session_receives_in_order cfg m ts :
  config_ok cfg → hpack_string.memo_ok m → environment ts →
  ∃ s on fs written, run cfg (start cfg m) ts = Some (s, on, fs, written) ∧
    (on = true → reading s = true →
     splits (cap cfg) (all_input ts) fs (inbuf s) ∧
     hpack_state (conn s) =
       hpack_after (decoder.new (header_table_size cfg) (header_list_size cfg), None) fs).
Proof.
  intros Hc Hm [Ht Hn].
  destruct (run_received size_of_StreamState exact_size file_stream_body cfg ts (start cfg m)
    (start_inv cfg m Hc Hm) Ht Hn) as (s & on & fs & w & E & _ & R).
  exists s, on, fs, w. split; [done|]. intros Hon Hr. destruct (R Hon) as [R' _].
  by destruct (re_reading _ _ _ _ _ _ R' Hr) as (_ & ? & ?).
Qed.

(** What a stream that is being received may hold. *)
Definition stream_bounded (r : Recv) (sid : Z) (st : StreamState) : Prop :=
  Z.odd sid = true ∧ 0 < sid <= last_client_stream r ∧ zlen (body st) <= max_request_body r ∧
  zlen (header_block st) <= MAX_HEADER_BLOCK ∧ 0 <= recv_window st <= our_initial_window r.


(** ** When a header block must be complete *)

(** At [now] the deadline of the header block is left, dropped, or set. *)
Definition armed (cfg : Config) (now : Z) (s s' : Session) : Prop :=
  ∀ d, header_block_deadline s' = Some d →
    header_block_deadline s = Some d ∨ ∃ timeout, frame_read_timeout cfg = Some timeout ∧ d = now + timeout.

Lemma armed_same cfg now s s' : header_block_deadline s' = header_block_deadline s → armed cfg now s s'.
Proof. intros E d Hd. left. congruence. Qed.

Lemma armed_trans cfg now s1 s2 s3 : armed cfg now s1 s2 → armed cfg now s2 s3 → armed cfg now s1 s3.
Proof. intros A B d [Hd|]%B; [by apply A|by right]. Qed.

Lemma on_frame_armed cfg now s hdr payload :
  armed cfg now s (on_frame size_of_StreamState cfg now s hdr payload).
Proof.
  unfold on_frame.
  pose proof (process_frame_outcome size_of_StreamState (conn s) now hdr payload
    (Z.of_nat (size (send.outstreams (sender s)))) (accepting s)) as Hg.
  destruct (process_frame _ _ _ _ _ _ _) as [c o].
  set (s1 := s <| conn := c |> <| header_block_deadline := _ |>).
  assert (Q : quiet s1 (apply_outcome cfg now s1 o)) by (apply apply_outcome_quiet; by intros ? ? ->).
  intros d. rewrite (q_deadline _ _ Q). cbn. unfold next_header_block_deadline.
  destruct (bool_decide (is_Some (open_header_block (recv c)))), (bool_decide _); try done; auto; [].
  destruct (frame_read_timeout cfg) as [tm|]; [|done]. intros [= <-]. right. eauto.
Qed.

Lemma drain_frames_armed cfg now fuel s :
  armed cfg now s (drain_frames size_of_StreamState fuel cfg now s).1.
Proof.
  revert s. induction fuel as [|fuel IH]; intros s; cbn [drain_frames]; [by apply armed_same|].
  destruct (reading s); [|by apply armed_same]. cbn [negb].
  destruct (next_frame (cap cfg) (inbuf s)) as [hdr payload rest| |]; try by apply armed_same.
  pose proof (on_frame_armed cfg now (s <| inbuf := rest |>) hdr payload) as A.
  specialize (IH (on_frame size_of_StreamState cfg now (s <| inbuf := rest |>) hdr payload)).
  destruct (drain_frames _ fuel cfg now _) as [s2 fs]. by eapply armed_trans.
Qed.

Lemma receive_armed cfg now s : armed cfg now s (receive size_of_StreamState cfg now s).1.
Proof.
  unfold receive. pose proof (drain_frames_armed cfg now (length (inbuf s)) s) as A.
  destruct (drain_frames _ _ cfg now s) as [s1 fs]. cbn [fst] in *.
  eapply armed_trans; [exact A|]. apply armed_same.
  by rewrite (q_deadline _ _ (body_deadlines_quiet _ _ _)), (q_deadline _ _ (frame_deadlines_quiet _ _ _ _)).
Qed.

Lemma on_handler_deadline (s : Session) sid is_head resp :
  header_block_deadline (on_handler exact_size file_stream_body s sid is_head resp) =
  header_block_deadline s.
Proof.
  unfold on_handler. cbv zeta. destruct resp; [|done]. destruct (bool_decide _); [done|].
  by destruct (response.begin_response _ _ _ _ _ _ _ _ _ _) as [[[? ?] ?] ?].
Qed.

Lemma write_output_deadline cfg now (s s' : Session) out :
  write_output cfg now s = Some (s', out) → header_block_deadline s' = header_block_deadline s.
Proof.
  unfold write_output. cbv zeta. destruct (send.pump_streams _ _ _) as [a|]; [|done].
  destruct (send.reset_stalled_streams _ _ a) as [a1 w].
  destruct (match shutdown_idle_stream_timeout cfg with Some _ => _ | None => _ end) as [a2 i].
  by intros [= <- _].
Qed.

Lemma respond_deadline cfg t (s : Session) s' out :
  respond exact_size file_stream_body cfg t s = Some (s', out) →
  header_block_deadline s' = header_block_deadline s.
Proof.
  unfold respond. cbv zeta. intros ->%write_output_deadline. rewrite (q_deadline _ _ (pulls_quiet _ _)).
  generalize s. induction (handlers t) as [|[[sid h] r] hs IH]; intros s0; [done|]. cbn [fold_left].
  by rewrite IH, on_handler_deadline.
Qed.

Lemma on_event_deadline cfg now (s : Session) e :
  header_block_deadline (on_event exact_size file_stream_body cfg now s e) = header_block_deadline s.
Proof.
  destruct e; try (apply (q_deadline s), on_event_quiet; exact I).
  - apply on_handler_deadline.
  - cbn [on_event]. by destruct (reading s).
Qed.

Lemma run_armed cfg ts (s : Session) s' on fs out d :
  run cfg s ts = Some (s', on, fs, out) → header_block_deadline s' = Some d →
  header_block_deadline s = Some d ∨
  ∃ t timeout, t ∈ ts ∧ frame_read_timeout cfg = Some timeout ∧ d = now t + timeout.
Proof.
  revert s fs out. induction ts as [|t ts IH]; intros s fs out; cbn [session.run].
  { intros [= <- _ _ _]. by left. }
  unfold iterate. cbv zeta. set (s0 := s <| conn := _ |>).
  pose proof (receive_armed cfg (now t) s0) as A.
  destruct (receive _ cfg (now t) s0) as [s1 fs1]. cbn [fst] in A.
  destruct (respond _ _ cfg t s1) as [[s2 out2]|] eqn:Er; [|done]. apply respond_deadline in Er.
  assert (Hs2 : header_block_deadline s2 = Some d → header_block_deadline s = Some d ∨
    ∃ t' timeout, t' ∈ t :: ts ∧ frame_read_timeout cfg = Some timeout ∧ d = now t' + timeout).
  { rewrite Er. intros [Hd|(tm & Htm & ->)]%A; [by left|]. right. exists t, tm. by split; [left|]. }
  destruct (closes s2); [intros [= <- _ _ _]; exact Hs2|].
  destruct (session.run _ _ _ cfg _ ts) as [[[[s3 on3] fs3] out3]|] eqn:E3; [|done].
  intros [= <- <- _ _] Hd. destruct (IH _ _ _ E3 Hd) as [Hd'|(t' & tm & ? & ?)].
  - apply Hs2. by rewrite on_event_deadline in Hd'.
  - right. exists t', tm. by split; [right|].
Qed.

(** C24. A header block gets the frame timeout from the frame that opened it: if the
    connection still reads at a turn at or after that deadline, then a frame with
    END_HEADERS arrived; frames that do not end the block never extend the deadline. *)
Theorem header_block_deadline_enforced cfg m ts ts' s fs written s' fs' written' d t :
  config_ok cfg → hpack_string.memo_ok m → environment (ts ++ ts') →
  run cfg (start cfg m) ts = Some (s, true, fs, written) → header_block_deadline s = Some d →
  run cfg s ts' = Some (s', true, fs', written') → reading s' = true → t ∈ ts' → d <= now t →
  (∃ opened timeout, opened ∈ ts ∧ frame_read_timeout cfg = Some timeout ∧ d = now opened + timeout) ∧
  Exists (fun f => has_flag (frame.flags f.1) frame.flags.END_HEADERS = true) fs'.
Proof.
  intros Hc Hm [Ht Hn] E1 Hd E2 Hr Hin Hlate. unfold all_sids in Hn.
  rewrite fmap_app, join_app in Hn. apply Forall_app in Ht as [Ht Ht'].
  pose proof Hn as (Hn1 & _ & _)%NoDup_app.
  destruct (run_received size_of_StreamState exact_size file_stream_body cfg ts (start cfg m)
    (start_inv cfg m Hc Hm) Ht Hn1) as (s1 & on & fs1 & w1 & E1' & I & R).
  rewrite E1 in E1'. injection E1' as <- <- <- <-. destruct (R eq_refl) as [R1 _].
  pose proof (re_answered _ _ _ _ _ _ R1) as Ha.
  destruct (run_received size_of_StreamState exact_size file_stream_body cfg ts' s I Ht')
    as (s2 & on & fs2 & w2 & E2' & _ & R2); [by rewrite Ha|].
  rewrite E2 in E2'. injection E2' as <- <- <- <-. destruct (R2 eq_refl) as [_ D2].
  split; [by destruct (run_armed cfg ts (start cfg m) s true fs written d E1 Hd)|].
  destruct (decide (unfinished fs')) as [Hu|Hu].
  - pose proof (D2 Hr Hu d Hd) as Hf. rewrite Forall_forall in Hf. specialize (Hf t Hin). lia.
  - apply not_Forall_Exists in Hu; [|apply _]. eapply Exists_impl; [exact Hu|].
    intros f Hf. by apply not_false_iff_true.
Qed.

(** ** A single frame *)

(** C11. process_frame on any frame either keeps the connection's invariant, decoding the
    header block the frame ends (if it ends one) exactly once, never reopening a closed
    stream and dispatching at most one request; or it stops the connection, and then the
    last frame queued is a GOAWAY with the stream id the connection committed to. *)
Theorem process_frame_sound c now hdr payload outstreams accepting c' o :
  conn_inv c → octets payload → 0 <= frame.stream_id hdr →
  process_frame size_of_StreamState c now hdr payload outstreams accepting = (c', o) →
  match o with
  | StopReading => announced c'
  | _ => let '(d, blk) := hpack_step (dec c) (open_block c) hdr payload in frame_ok c c' d blk
  end.
Proof.
  intros Hi Hp Hs E. pose proof (process_frame_outcome size_of_StreamState c now hdr payload outstreams accepting) as Ho.
  rewrite E in Ho.
  pose proof (process_frame_ok size_of_StreamState c now hdr payload outstreams accepting c' o Hi Hp Hs E) as Hok.
  destruct o; try exact Ho; by apply Hok.
Qed.

(** ** Rapid resets *)

(** A handler is aborted at each of the times, oldest first. *)
Definition resets (r : Recv) (times : list Z) : Recv :=
  fold_left (fun r now => (charge_inflight_reset_at r now).1) times r.

(** What the abort at position [i] of [n] has added to the debt, at the latest. *)
Definition debt_of (n : nat) (i : nat) (ti : Z) : Z :=
  ti + (Z.of_nat n - Z.of_nat i) * RAPID_RESET_REFILL.

(** The debt is the worst of the windows that end with the last abort. *)
Lemma resets_debt r times :
  reset_debt_until r = None →
  match reset_debt_until (resets r times) with
  | None => times = []
  | Some t =>
      (∃ i ti, times !! i = Some ti ∧ t = debt_of (length times) i ti) ∧
      ∀ i ti, times !! i = Some ti → debt_of (length times) i ti <= t
  end.
Proof.
  intros Hr. unfold debt_of. induction times as [|now times IH] using rev_ind; [by cbn; rewrite Hr|].
  unfold resets in *. rewrite fold_left_app. cbn [fold_left]. set (r' := fold_left _ times r) in *.
  clearbody r'. rewrite length_app. cbn [length].
  assert (Hlast : (times ++ [now]) !! length times = Some now)
    by (rewrite lookup_app_r by lia; by rewrite Nat.sub_diag).
  assert (Hall : ∀ i ti, (times ++ [now]) !! i = Some ti →
    (times !! i = Some ti) ∨ (i = length times ∧ ti = now)).
  { intros i ti [Hi|[Hl Hi]]%lookup_app_Some; [by left|right].
    apply list_lookup_singleton_Some in Hi as [? ->]. split; [lia|done]. }
  unfold charge_inflight_reset_at. cbn.
  destruct (reset_debt_until r') as [t|].
  - destruct IH as [(i & ti & Hi & ->) Hub]. split.
    + destruct (Z.ltb_spec now (ti + (Z.of_nat (length times) - Z.of_nat i) * RAPID_RESET_REFILL)).
      * exists i, ti. split; [by apply lookup_app_l_Some|lia].
      * exists (length times), now. split; [done|lia].
    + intros j tj [Hj|[-> ->]]%Hall; [specialize (Hub j tj Hj)|]; case_if; bool_hyps; lia.
  - subst times. split; [exists 0%nat, now; split; [done|cbn; lia]|].
    intros j tj [Hj|[-> ->]]%Hall; [done|]. cbn. lia.
Qed.

(** The rapid-reset budget is exhausted by an aborted handler exactly when some window
    ending with it holds more than 200 aborts plus one for each 100 ms it lasted. *)
Theorem rapid_reset_exact r times now :
  reset_debt_until r = None →
  (charge_inflight_reset_at (resets r times) now).2 = true ↔
  ∃ i ti, (times ++ [now]) !! i = Some ti ∧
    RAPID_RESET_BURST * RAPID_RESET_REFILL + (now - ti)
    < (zlen (times ++ [now]) - Z.of_nat i) * RAPID_RESET_REFILL.
Proof.
  intros Hr. pose proof (resets_debt r (times ++ [now]) Hr) as Hd. unfold debt_of in Hd.
  unfold resets in Hd. rewrite fold_left_app in Hd. cbn [fold_left] in Hd.
  fold (resets r times) in Hd. set (r' := resets r times) in *. clearbody r'. unfold zlen.
  unfold charge_inflight_reset_at in *. cbn in Hd |- *. rewrite Z.ltb_lt.
  destruct Hd as [(i & ti & Hi & Ht) Hub]. rewrite Ht in *. split.
  - intros Hlt. exists i, ti. split; [done|lia].
  - intros (j & tj & Hj & Hlt). specialize (Hub j tj Hj). lia.
Qed.

End connection.

(** ** Witnesses *)

(** A client that opens a request with an unfinished header block, and completes it. *)
Section example.
#[local] Existing Instance http_util.http_ascii.

Definition example_turn (now : Z) (octets : list Z) : @Turn unit unit unit :=
  {| session.now := now; shared := None; cache := hpack_string.empty_memo; handlers := [];
     pulled := []; event := Read octets |}.

Definition example_open : list (@Turn unit unit unit) :=
  [example_turn 0 (frame.write_settings [] ++
     frame.write_frame frame.kind.HEADERS frame.flags.END_STREAM 1 [0x82; 0x84]);
   example_turn 10 []].

Definition example_close : list (@Turn unit unit unit) :=
  [example_turn 20 (frame.write_frame frame.kind.CONTINUATION frame.flags.END_HEADERS 1
     [0x86; 0x41; 0x01; 0x61]);
   example_turn (10 + secs 15) []].

Definition example_run :=
  @run http_util.http_ascii unit unit unit 256 (fun _ => None) (fun _ _ _ => tt) Config_default.

Definition example_session : @Session http_util.http_ascii unit unit * bool * list (frame.FrameHeader * list Z) * list Z :=
  match example_run (start Config_default hpack_string.empty_memo) example_open with
  | Some r => r
  | None => (start Config_default hpack_string.empty_memo, false, [], [])
  end.

Lemma Config_default_ok : config_ok Config_default.
Proof. split; cbn; unfold U64_MAX; lia. Qed.

Lemma example_turn_ok now o : octets o → turn_ok (example_turn now o).
Proof. split; [apply hpack_string.empty_memo_ok|done]. Qed.

Lemma example_environment : environment (example_open ++ example_close).
Proof.
  split; [|apply NoDup_nil_2].
  repeat constructor; first [apply hpack_string.empty_memo_ok | unfold is_byte; lia | done].
Qed.

Lemma session_receives_in_order_witness :
  ∃ s on fs written, example_run (start Config_default hpack_string.empty_memo)
      (example_open ++ example_close) = Some (s, on, fs, written) ∧
    (on = true → reading s = true →
     splits (cap Config_default) (all_input (example_open ++ example_close)) fs (inbuf s) ∧
     hpack_state (conn s) = hpack_after (decoder.new 4096 131072, None) fs).
Proof.
  apply (session_receives_in_order 256 (fun _ => None) (fun _ _ _ => tt) Config_default).
  - exact Config_default_ok.
  - apply hpack_string.empty_memo_ok.
  - exact example_environment.
Defined.


Lemma header_block_deadline_enforced_witness :
  Exists (fun f => has_flag (frame.flags f.1) frame.flags.END_HEADERS = true)
    (match example_run example_session.1.1.1 example_close with
     | Some (_, _, fs, _) => fs
     | None => []
     end).
Proof.
  set (r := match example_run example_session.1.1.1 example_close with
            | Some r => r | None => example_session end).
  pose proof (header_block_deadline_enforced 256 (fun _ => None) (fun _ _ _ => tt) Config_default
    hpack_string.empty_memo example_open example_close example_session.1.1.1 example_session.1.2
    example_session.2 r.1.1.1 r.1.2 r.2 (10 + secs 15) (example_turn (10 + secs 15) [])
    Config_default_ok hpack_string.empty_memo_ok example_environment) as Hw.
  apply Hw; try (vm_compute; reflexivity); [|done]. right. left.
Defined.

Lemma process_frame_sound_witness :
  let c := initial_conn Config_default hpack_string.empty_memo in
  announced (process_frame 256 c 0 {| frame.length := 8; frame.kind := frame.kind.PING;
    frame.flags := 0; frame.stream_id := 0 |} [0; 0; 0; 0; 0; 0; 0; 0] 0 true).1.
Proof.
  intros c. set (hdr := {| frame.length := 8 |}). set (p := [0; 0; 0; 0; 0; 0; 0; 0]).
  destruct (process_frame 256 c 0 hdr p 0 true) as [c' o] eqn:E.
  pose proof (process_frame_sound 256 c 0 hdr p 0 true c' o) as Hs.
  assert (Ho : o = StopReading) by (vm_compute in E; by injection E as _ <-). subst o.
  apply Hs; [| |done|exact E].
  - destruct (start_inv (StreamBody := unit) (Completion := unit) Config_default hpack_string.empty_memo
      Config_default_ok hpack_string.empty_memo_ok) as [Hr _ _ _ _ _]. by destruct (Hr eq_refl).
  - repeat constructor; unfold is_byte; lia.
Defined.

(** 201 aborts at once are one too many. *)
Lemma rapid_reset_exact_witness :
  ∃ i ti, (replicate 200 5 ++ [5]) !! i = Some ti ∧
    RAPID_RESET_BURST * RAPID_RESET_REFILL + (5 - ti)
    < (zlen (replicate 200 5 ++ [5]) - Z.of_nat i) * RAPID_RESET_REFILL.
Proof.
  apply (rapid_reset_exact (initial_recv Config_default) (replicate 200 5) 5); [done|].
  vm_compute. reflexivity.
Defined.

End example.
