(* ===== verification/ShardLru.v ===== *)
(** * The intrusive lists of a cache shard: [Shard] of [crates/hj-cache/src/sharded/mod.rs]

    A shard keeps its entries in a map, and threads through the nodes of the map two
    doubly linked lists whose pointers are keys: the RAM list, on which every node is, and
    the disk list. The two have the same code, written here once over [which]. A failed
    [expect] is [None]. [linked w s l] says that the pointers of list [w] spell out [l],
    most recently used first; the operations on pointers are shown to be the operations on
    [l], and to leave everything else of the shard as it is. *)

From stdpp Require Import base list gmap.
From Stdlib Require Import ZArith Lia.
From S2P Require Import Prelude.

#[local] Open Scope record_scope.

Module lru.

(** ** The traits *)

Class ShardKey (K : Type) : Type := {
  nil_key : K;
  shard_index : K → Z → Z;
}.

Class CacheValue (V : Type) : Type := {
  v_ram_weight : V → Z;
  v_disk_weight : V → Z;
  v_deadline : V → option Z;
  v_is_fresh : V → Z → bool;
}.

Inductive EvictCause : Type := Size | Disk_ | Expired | Explicit.

Record DeadlineEntry {K : Type} : Type := {
  e_deadline : Z;
  e_generation : Z;
  e_key : K;
}.
Arguments DeadlineEntry : clear implicits.

Record Node {K V : Type} : Type := {
  value : V;
  ram_prev : K;
  ram_next : K;
  disk_prev : K;
  disk_next : K;
  ram_weight : Z;
  disk_weight : Z;
  generation : Z;
}.
Arguments Node : clear implicits.

(** Which of the two lists. *)
Inductive which : Type := Ram | Disk.

#[export] Instance which_eq_dec : EqDecision which.
Proof. solve_decision. Defined.

Definition other (w : which) : which := match w with Ram => Disk | Disk => Ram end.

Section shard.
Context {K V : Type} `{Countable K} `{!ShardKey K}.
Implicit Types (id k p q x : K) (l : list K).

#[export] Instance Node_eta : Eta (Node K V) := fun r =>
  {| value := value r; ram_prev := ram_prev r; ram_next := ram_next r;
     disk_prev := disk_prev r; disk_next := disk_next r; ram_weight := ram_weight r;
     disk_weight := disk_weight r; generation := generation r |}.
#[global] Instance set_value : Setter (@value K V) := ltac:(derive_setter).
#[global] Instance set_ram_prev : Setter (@ram_prev K V) := ltac:(derive_setter).
#[global] Instance set_ram_next : Setter (@ram_next K V) := ltac:(derive_setter).
#[global] Instance set_disk_prev : Setter (@disk_prev K V) := ltac:(derive_setter).
#[global] Instance set_disk_next : Setter (@disk_next K V) := ltac:(derive_setter).
#[global] Instance set_ram_weight : Setter (@ram_weight K V) := ltac:(derive_setter).
#[global] Instance set_disk_weight : Setter (@disk_weight K V) := ltac:(derive_setter).
#[global] Instance set_generation : Setter (@generation K V) := ltac:(derive_setter).

(** [expiry] is the binary heap as the list of its elements. *)
Record Shard : Type := {
  map : gmap K (Node K V);
  ram_head : K;
  ram_tail : K;
  disk_head : K;
  disk_tail : K;
  ram_used : Z;
  disk_used : Z;
  expiry : list (DeadlineEntry K);
  next_gen : Z;
}.

#[export] Instance Shard_eta : Eta Shard := fun r =>
  {| map := map r; ram_head := ram_head r; ram_tail := ram_tail r; disk_head := disk_head r;
     disk_tail := disk_tail r; ram_used := ram_used r; disk_used := disk_used r;
     expiry := expiry r; next_gen := next_gen r |}.
#[global] Instance set_map : Setter map := ltac:(derive_setter).
#[global] Instance set_ram_head : Setter ram_head := ltac:(derive_setter).
#[global] Instance set_ram_tail : Setter ram_tail := ltac:(derive_setter).
#[global] Instance set_disk_head : Setter disk_head := ltac:(derive_setter).
#[global] Instance set_disk_tail : Setter disk_tail := ltac:(derive_setter).
#[global] Instance set_ram_used : Setter ram_used := ltac:(derive_setter).
#[global] Instance set_disk_used : Setter disk_used := ltac:(derive_setter).
#[global] Instance set_expiry : Setter expiry := ltac:(derive_setter).
#[global] Instance set_next_gen : Setter next_gen := ltac:(derive_setter).

Implicit Types (s : Shard) (n : Node K V).

Definition shard_new : Shard :=
  {| map := ∅; ram_head := nil_key; ram_tail := nil_key; disk_head := nil_key;
     disk_tail := nil_key; ram_used := 0; disk_used := 0; expiry := []; next_gen := 0 |}.

Definition is_nil (k : K) : bool := bool_decide (k = nil_key).

(** The fields of list [w]. *)
Definition prev (w : which) n : K := match w with Ram => ram_prev n | Disk => disk_prev n end.
Definition next (w : which) n : K := match w with Ram => ram_next n | Disk => disk_next n end.
Definition head_of (w : which) s : K := match w with Ram => ram_head s | Disk => disk_head s end.
Definition tail_of (w : which) s : K := match w with Ram => ram_tail s | Disk => disk_tail s end.
Definition set_prev (w : which) k n : Node K V :=
  match w with Ram => n <| ram_prev := k |> | Disk => n <| disk_prev := k |> end.
Definition set_next (w : which) k n : Node K V :=
  match w with Ram => n <| ram_next := k |> | Disk => n <| disk_next := k |> end.
Definition set_head (w : which) k s : Shard :=
  match w with Ram => s <| ram_head := k |> | Disk => s <| disk_head := k |> end.
Definition set_tail (w : which) k s : Shard :=
  match w with Ram => s <| ram_tail := k |> | Disk => s <| disk_tail := k |> end.

(** [self.map.get_mut(k).expect(..)] and the assignments [f] to the node. *)
Definition get_mut (k : K) (f : Node K V → Node K V) s : option Shard :=
  n ← map s !! k; Some (s <| map := <[k := f n]> (map s) |>).

Definition push_front (w : which) id s : option Shard :=
  let old_head := head_of w s in
  s ← get_mut id (fun n => set_next w old_head (set_prev w nil_key n)) s;
  s ← (if negb (is_nil old_head) then get_mut old_head (set_prev w id) s
       else Some (set_tail w id s));
  Some (set_head w id s).

Definition unlink (w : which) id s : option Shard :=
  n ← map s !! id;
  let '(p, q) := (prev w n, next w n) in
  s ← (if negb (is_nil p) then get_mut p (set_next w q) s else Some (set_head w q s));
  s ← (if negb (is_nil q) then get_mut q (set_prev w p) s else Some (set_tail w p s));
  get_mut id (fun n => set_next w nil_key (set_prev w nil_key n)) s.

Definition touch (w : which) id s : option Shard :=
  if bool_decide (head_of w s = id) then Some s
  else s ← unlink w id s; push_front w id s.

Definition ram_push_front : K → Shard → option Shard := push_front Ram.
Definition ram_unlink : K → Shard → option Shard := unlink Ram.
Definition ram_touch : K → Shard → option Shard := touch Ram.
Definition disk_push_front : K → Shard → option Shard := push_front Disk.
Definition disk_unlink : K → Shard → option Shard := unlink Disk.
Definition disk_touch : K → Shard → option Shard := touch Disk.

Definition push_deadline id (deadline : option Z) (g : Z) s : Shard :=
  match deadline with
  | Some deadline =>
      s <| expiry := {| e_deadline := deadline; e_generation := g; e_key := id |} :: expiry s |>
  | None => s
  end.

Definition bump_gen s : Z * Shard :=
  let g := u32 (next_gen s + 1) in (g, s <| next_gen := g |>).

(** ** The list a shard's pointers spell out *)

Definition links (w : which) (m : gmap K (Node K V)) k : option (K * K) :=
  (fun n => (prev w n, next w n)) <$> m !! k.

(** The segment [l] between the nodes [p] and [q]. *)
Fixpoint seg (lk : K → option (K * K)) (p : K) (l : list K) (q : K) : Prop :=
  match l with
  | [] => True
  | x :: l' => lk x = Some (p, default q (head l')) ∧ seg lk x l' q
  end.

Record linked (w : which) s l : Prop := {
  lk_head : head_of w s = default nil_key (head l);
  lk_tail : tail_of w s = default nil_key (last l);
  lk_nodup : NoDup l;
  lk_nil : nil_key ∉ l;
  lk_seg : seg (links w (map s)) nil_key l nil_key;
}.

(** Following the [next] pointers. *)
Fixpoint walk (w : which) (m : gmap K (Node K V)) (fuel : nat) k : list K :=
  match fuel with
  | O => []
  | S fuel =>
      if is_nil k then []
      else k :: from_option (fun n => walk w m fuel (next w n)) [] (m !! k)
  end.

Definition order (w : which) s : list K := walk w (map s) (size (map s)) (head_of w s).

(** What the operations of list [w] leave alone: the shard without the pointers of [w]. *)
Definition strip (w : which) n : Node K V := set_prev w nil_key (set_next w nil_key n).

Definition forget (w : which) s : Shard :=
  set_head w nil_key (set_tail w nil_key (s <| map := strip w <$> map s |>)).

(** ** Segments *)

Lemma seg_ext (lk lk' : K → option (K * K)) p l q :
  (∀ x, x ∈ l → lk' x = lk x) → seg lk p l q → seg lk' p l q.
Proof.
  revert p. induction l as [|x l IH]; intros p Hlk; [done|]. intros [Hx Hl]. split.
  - by rewrite Hlk by set_solver +.
  - apply IH; [|done]. intros y Hy. apply Hlk. set_solver.
Qed.

Lemma seg_app lk p l1 l2 q :
  seg lk p (l1 ++ l2) q
  ↔ seg lk p l1 (default q (head l2)) ∧ seg lk (default p (last l1)) l2 q.
Proof.
  revert p. induction l1 as [|x l1 IH]; intros p; [by simpl; tauto|].
  cbn [seg app]. rewrite IH. destruct l1 as [|y l1]; [cbn; tauto|].
  rewrite last_cons_cons. cbn [head app default seg].
  destruct (last (y :: l1)) as [z|] eqn:E; [cbn; tauto|]. by apply last_None in E.
Qed.

Lemma seg_lookup lk p l1 k l2 q :
  seg lk p (l1 ++ k :: l2) q → lk k = Some (default p (last l1), default q (head l2)).
Proof. intros [_ [Hk _]]%seg_app. done. Qed.

(** The last node of a segment gets a new successor, the first a new predecessor. *)
Lemma seg_set_last lk lk' p l x q q' :
  seg lk p (l ++ [x]) q → x ∉ l → lk' x = Some (default p (last l), q') →
  (∀ y, y ≠ x → lk' y = lk y) → seg lk' p (l ++ [x]) q'.
Proof.
  rewrite !seg_app. intros [Hl _] Hx Hx' Hy. split; [|done].
  eapply seg_ext; [|exact Hl]. intros y Hin. apply Hy. by intros ->.
Qed.

Lemma seg_set_first lk lk' p p' x l q :
  seg lk p (x :: l) q → x ∉ l → lk' x = Some (p', default q (head l)) →
  (∀ y, y ≠ x → lk' y = lk y) → seg lk' p' (x :: l) q.
Proof.
  intros [_ Hl] Hx Hx' Hy. split; [done|]. eapply seg_ext; [|exact Hl].
  intros y Hin. apply Hy. by intros ->.
Qed.

(** ** One assignment through [get_mut] *)

Lemma get_mut_links w k f s p q :
  links w (map s) k = Some (p, q) → (∀ n, strip w (f n) = strip w n) →
  ∃ s' n, get_mut k f s = Some s' ∧ forget w s' = forget w s ∧
    head_of w s' = head_of w s ∧ tail_of w s' = tail_of w s ∧
    prev w n = p ∧ next w n = q ∧ links w (map s') k = Some (prev w (f n), next w (f n)) ∧
    ∀ y, y ≠ k → links w (map s') y = links w (map s) y.
Proof.
  intros (n & Hn & [= -> ->])%fmap_Some_1 Hf. unfold get_mut. rewrite Hn. simpl.
  eexists _, n. split; [done|]. split.
  { assert (Hm : strip w <$> <[k:=f n]> (map s) = strip w <$> map s);
      [|unfold forget; destruct w, s; cbn in *; by rewrite Hm].
    apply map_eq. intros y. rewrite !lookup_fmap.
    destruct (decide (y = k)) as [->|]; [rewrite lookup_insert_eq, Hn; cbn; by rewrite Hf|].
    by rewrite lookup_insert_ne. }
  split; [by destruct w|]. split; [by destruct w|]. do 2 (split; [done|]).
  unfold links. cbn [map set set_map]. rewrite lookup_insert_eq. split; [done|].
  intros y Hy. by rewrite lookup_insert_ne.
Qed.

Lemma strip_set_prev w k n : strip w (set_prev w k n) = strip w n.
Proof. by destruct w, n. Qed.
Lemma strip_set_next w k n : strip w (set_next w k n) = strip w n.
Proof. by destruct w, n. Qed.
Lemma strip_set_both w k q n : strip w (set_next w k (set_prev w q n)) = strip w n.
Proof. by destruct w, n. Qed.

Lemma forget_set_head w k s : forget w (set_head w k s) = forget w s.
Proof. by destruct w, s. Qed.
Lemma forget_set_tail w k s : forget w (set_tail w k s) = forget w s.
Proof. by destruct w, s. Qed.

(** The node before a gap is told its new successor; with no node before, the head is. *)
Lemma relink_next w s l q q' :
  seg (links w (map s)) nil_key l q → NoDup l → nil_key ∉ l →
  ∃ s', (if negb (is_nil (default nil_key (last l)))
         then get_mut (default nil_key (last l)) (set_next w q') s
         else Some (set_head w q' s)) = Some s' ∧
    forget w s' = forget w s ∧ tail_of w s' = tail_of w s ∧
    head_of w s' = (if bool_decide (l = []) then q' else head_of w s) ∧
    seg (links w (map s')) nil_key l q' ∧
    ∀ y, y ∉ l → links w (map s') y = links w (map s) y.
Proof.
  intros Hs Hd Hn. destruct l as [|x l1 _] using rev_ind; cbn.
  { unfold is_nil. rewrite bool_decide_true by done. cbn. eexists. split; [done|].
    split; [apply forget_set_head|]. by destruct w. }
  rewrite last_snoc. cbn. unfold is_nil. rewrite bool_decide_false by set_solver.
  apply NoDup_app in Hd as (_ & Hd & _). pose proof (seg_lookup _ _ _ _ _ _ Hs) as Hx.
  edestruct (get_mut_links w x (set_next w q')) as (s' & n & He & Hf & Hh & Ht & Hp & Hq & Hk & Hy).
  { exact Hx. } { apply strip_set_next. }
  exists s'. split; [done|]. split; [done|]. split; [done|].
  rewrite bool_decide_false by (by destruct l1). split; [done|]. split.
  - eapply seg_set_last; [exact Hs| |by rewrite Hk, <-Hp; destruct w|done].
    intros Hin. specialize (Hd x Hin). set_solver.
  - intros y Hin. apply Hy. set_solver.
Qed.

Lemma relink_prev w s l p p' :
  seg (links w (map s)) p l nil_key → NoDup l → nil_key ∉ l →
  ∃ s', (if negb (is_nil (default nil_key (head l)))
         then get_mut (default nil_key (head l)) (set_prev w p') s
         else Some (set_tail w p' s)) = Some s' ∧
    forget w s' = forget w s ∧ head_of w s' = head_of w s ∧
    tail_of w s' = (if bool_decide (l = []) then p' else tail_of w s) ∧
    seg (links w (map s')) p' l nil_key ∧
    ∀ y, y ∉ l → links w (map s') y = links w (map s) y.
Proof.
  intros Hs Hd Hn. destruct l as [|x l]; cbn.
  { unfold is_nil. rewrite bool_decide_true by done. cbn. eexists. split; [done|].
    split; [apply forget_set_tail|]. by destruct w. }
  unfold is_nil. rewrite bool_decide_false by set_solver.
  apply NoDup_cons in Hd as [Hd _]. destruct Hs as [Hx Hl].
  edestruct (get_mut_links w x (set_prev w p')) as (s' & n & He & Hf & Hh & Ht & Hp & Hq & Hk & Hy).
  { exact Hx. } { apply strip_set_prev. }
  exists s'. do 3 (split; [done|]). split; [done|]. split.
  - eapply seg_set_first; [split; [exact Hx|exact Hl]|done|by rewrite Hk, <-Hq; destruct w|done].
  - intros y Hin. apply Hy. set_solver.
Qed.

(** ** The operations on the pointers are the operations on the list *)

Lemma unlink_linked w s l1 id l2 :
  linked w s (l1 ++ id :: l2) →
  ∃ s', unlink w id s = Some s' ∧ forget w s' = forget w s ∧ linked w s' (l1 ++ l2).
Proof.
  intros [Hh Ht Hd Hn Hs]. unfold unlink.
  pose proof (seg_lookup _ _ _ _ _ _ Hs) as Hid.
  pose proof Hid as (n & Hid' & [= Hp Hq])%fmap_Some_1. rewrite Hid'. cbn. rewrite <-Hp, <-Hq.
  apply seg_app in Hs as [Hs1 [_ Hs2]]. cbn [default head] in Hs1.
  apply NoDup_app in Hd as (Hd1 & H12 & [Hd2 Hd3]%NoDup_cons).
  edestruct (relink_next w s l1) as (s1 & -> & Hf1 & Ht1 & Hh1 & Hl1 & Hy1);
    [done..|set_solver|]. cbn [mbind option_bind].
  edestruct (relink_prev w s1 l2 id (default nil_key (last l1)))
    as (s2 & -> & Hf2 & Hh2 & Ht2 & Hl2 & Hy2); [|done|set_solver|].
  { eapply seg_ext; [|done]. intros y Hin. apply Hy1. set_solver. }
  cbn [mbind option_bind].
  edestruct (get_mut_links w id (fun n => set_next w nil_key (set_prev w nil_key n)) s2)
    as (s3 & n3 & -> & Hf3 & Hh3 & Ht3 & _ & _ & _ & Hy3).
  { rewrite Hy2 by set_solver. rewrite Hy1 by set_solver. exact Hid. }
  { intros. apply strip_set_both. }
  exists s3. split; [done|]. split; [congruence|]. split.
  - rewrite Hh3, Hh2, Hh1, Hh. by destruct l1.
  - rewrite Ht3, Ht2, Ht1, Ht. rewrite !last_app. destruct l2 as [|y l2]; cbn.
    + by destruct (last l1).
    + by destruct (last (y :: l2)) eqn:E; [|apply last_None in E].
  - apply NoDup_app. split; [done|]. split; [|done]. set_solver.
  - set_solver.
  - apply seg_app. split; eapply seg_ext;
      [|eapply seg_ext; [|exact Hl1]| |exact Hl2]; intros y Hin; [apply Hy3|apply Hy2|apply Hy3];
      set_solver.
Qed.

Lemma push_front_linked w s l id :
  linked w s l → id ∉ l → id ≠ nil_key → is_Some (map s !! id) →
  ∃ s', push_front w id s = Some s' ∧ forget w s' = forget w s ∧ linked w s' (id :: l).
Proof.
  intros [Hh Ht Hd Hn Hs] Hid Hnil [n0 Hid']. unfold push_front. rewrite Hh.
  set (f := fun n => set_next w _ _).
  edestruct (get_mut_links w id f s) as (s1 & n & -> & Hf1 & Hh1 & Ht1 & _ & _ & Hk & Hy1).
  { unfold links. by rewrite Hid'. } { intros. apply strip_set_both. }
  cbn [mbind option_bind].
  edestruct (relink_prev w s1 l nil_key id) as (s2 & -> & Hf2 & Hh2 & Ht2 & Hl2 & Hy2); [|done..|].
  { eapply seg_ext; [|done]. intros y Hin. apply Hy1. set_solver. }
  cbn [mbind option_bind]. exists (set_head w id s2). split; [done|].
  split; [rewrite forget_set_head; congruence|]. split.
  - by destruct w.
  - replace (tail_of w (set_head w id s2)) with (tail_of w s2) by by destruct w.
    rewrite Ht2, Ht1, Ht. destruct l as [|y l]; [done|]. by rewrite last_cons_cons.
  - by apply NoDup_cons.
  - set_solver.
  - replace (map (set_head w id s2)) with (map s2) by by destruct w.
    split; [|done]. rewrite Hy2, Hk by done. unfold f. by destruct w.
Qed.

Lemma filter_ne_id id l : id ∉ l → filter (.≠ id) l = l.
Proof.
  induction l as [|x l IH]; intros Hl; [done|].
  rewrite filter_cons_True, IH by set_solver. done.
Qed.

Lemma filter_ne_split l1 id l2 :
  NoDup (l1 ++ id :: l2) → filter (.≠ id) (l1 ++ id :: l2) = l1 ++ l2.
Proof.
  intros (_ & H12 & [Hd2 _]%NoDup_cons)%NoDup_app.
  rewrite filter_app, filter_cons_False by tauto.
  by rewrite !filter_ne_id by set_solver.
Qed.

Lemma touch_linked w s l id :
  linked w s l → id ∈ l →
  ∃ s', touch w id s = Some s' ∧ forget w s' = forget w s ∧
    linked w s' (id :: filter (.≠ id) l).
Proof.
  intros Hl (l1 & l2 & ->)%list_elem_of_split. pose proof (lk_nodup _ _ _ Hl) as Hd.
  rewrite filter_ne_split by done. unfold touch. case_bool_decide as Hh.
  - exists s. split; [done|]. split; [done|]. destruct l1 as [|x l1]; [done|].
    rewrite (lk_head _ _ _ Hl) in Hh. cbn in Hh. subst x.
    apply NoDup_cons in Hd as [Hd _]. set_solver.
  - destruct (unlink_linked w s l1 id l2 Hl) as (s1 & -> & Hf1 & Hl1). cbn.
    edestruct (push_front_linked w s1 (l1 ++ l2) id) as (s2 & -> & Hf2 & Hl2); [done|..].
    { apply NoDup_app in Hd as (_ & ? & [? _]%NoDup_cons). set_solver. }
    { pose proof (lk_nil _ _ _ Hl). set_solver. }
    { assert (Hm : strip w <$> map s1 = strip w <$> map s).
      { apply (f_equal map) in Hf1. by destruct w. }
      pose proof (seg_lookup _ _ _ _ _ _ (lk_seg _ _ _ Hl)) as (n & Hn & _)%fmap_Some_1.
      apply (f_equal (.!! id)) in Hm. rewrite !lookup_fmap, Hn in Hm.
      by apply fmap_Some_1 in Hm as (n1 & -> & _). }
    exists s2. split; [done|]. split; [congruence|done].
Qed.

(** ** The list is read off the pointers *)

Lemma walk_seg w (m : gmap K (Node K V)) p l fuel :
  seg (links w m) p l nil_key → nil_key ∉ l → (length l ≤ fuel)%nat →
  walk w m fuel (default nil_key (head l)) = l.
Proof.
  revert p fuel. induction l as [|x l IH]; intros p fuel Hs Hn Hf.
  - destruct fuel; cbn; [done|]. unfold is_nil. by rewrite bool_decide_true.
  - destruct fuel as [|fuel]; cbn in *; [lia|]. unfold is_nil.
    rewrite bool_decide_false by set_solver. f_equal. destruct Hs as [Hx Hs].
    apply fmap_Some_1 in Hx as (n & -> & [= _ Hq]). cbn. rewrite <-Hq. eapply IH; [done|set_solver|lia].
Qed.

Lemma linked_present w s l k : linked w s l → k ∈ l → is_Some (map s !! k).
Proof.
  intros Hl (l1 & l2 & ->)%list_elem_of_split.
  pose proof (seg_lookup _ _ _ _ _ _ (lk_seg _ _ _ Hl)) as (n & Hn & _)%fmap_Some_1. by eexists.
Qed.

Lemma linked_order w s l : linked w s l → order w s = l.
Proof.
  intros Hl. unfold order. rewrite (lk_head _ _ _ Hl). eapply walk_seg; [apply Hl..|].
  rewrite <-size_dom, <-(size_list_to_set (C:=gset K) l) by apply Hl.
  apply subseteq_size. intros k Hk%elem_of_list_to_set.
  apply elem_of_dom. by eapply linked_present.
Qed.

(** The least recently used entry other than [id], as the eviction loops find it. *)
Definition tail_except (w : which) id s : K :=
  let t := tail_of w s in
  if bool_decide (t = id) then from_option (prev w) nil_key (map s !! t) else t.

Lemma tail_except_linked w s l id :
  linked w s l → id ≠ nil_key →
  tail_except w id s = default nil_key (last (filter (.≠ id) l)).
Proof.
  intros Hl Hid. unfold tail_except. rewrite (lk_tail _ _ _ Hl).
  destruct l as [|x l1 _] using rev_ind; cbn.
  { by rewrite bool_decide_false. }
  rewrite last_snoc. cbn. pose proof (lk_nodup _ _ _ Hl) as Hd. case_bool_decide as Hx.
  - subst x. rewrite filter_ne_split, app_nil_r by done.
    pose proof (seg_lookup _ _ _ _ _ _ (lk_seg _ _ _ Hl)) as (n & -> & [= -> _])%fmap_Some_1. done.
  - rewrite filter_app, filter_cons_True, filter_nil, last_snoc by done. done.
Qed.

(** ** What the operations on one list leave of the shard *)

Lemma forget_fields w s s' :
  forget w s' = forget w s →
  strip w <$> map s' = strip w <$> map s ∧ head_of (other w) s' = head_of (other w) s ∧
  tail_of (other w) s' = tail_of (other w) s ∧ ram_used s' = ram_used s ∧
  disk_used s' = disk_used s ∧ expiry s' = expiry s ∧ next_gen s' = next_gen s.
Proof. destruct w, s, s'; cbn; intros [=]; done. Qed.

Lemma forget_linked_other w s s' l :
  forget w s' = forget w s → linked (other w) s l → linked (other w) s' l.
Proof.
  intros (Hm & Hh & Ht & _)%forget_fields [Hh0 Ht0 Hd Hn Hs]. split; [congruence..|].
  eapply seg_ext; [|exact Hs]. intros k _. unfold links.
  apply (f_equal (.!! k)) in Hm. rewrite !lookup_fmap in Hm.
  destruct (map s' !! k) as [n'|], (map s !! k) as [n|]; cbn in *; try done.
  injection Hm as Hm. by destruct w, n, n'; cbn in *; injection Hm as [=]; subst.
Qed.

End shard.
End lru.
