(* ===== verification/ShardCache.v ===== *)
(** * The sharded cache: [ShardedCache] of [crates/hj-cache/src/sharded/mod.rs]

    [Access] is the [ShardAccess] of one locked shard with the global budget and the calls
    of the eviction hook made so far; [Cache] is the store. An operation on the store is
    what it does while it holds the lock of one shard after another. A failed [expect], an
    index out of range or a loop that runs out of fuel is [None]. *)

From stdpp Require Import base list gmap sorting.
From Stdlib Require Import ZArith Lia.
From S2P Require Import Prelude ShardLru.

Import lru.
#[local] Open Scope record_scope.

Module cache.

Definition SHARDS : Z := 256.

(** What the store asks of its [OnEvict]. *)
Inductive Hook {K V : Type} : Type :=
| on_evict (key : K) (value : V) (cause : EvictCause)
| after_unlock.
Arguments Hook : clear implicits.

Record GlobalBudget : Type := {
  g_ram_used : Z;
  g_disk_used : Z;
  ram_max : Z;
  disk_max : Z;
}.

#[export] Instance GlobalBudget_eta : Eta GlobalBudget := fun r =>
  {| g_ram_used := g_ram_used r; g_disk_used := g_disk_used r; ram_max := ram_max r;
     disk_max := disk_max r |}.
#[export] Instance set_g_ram_used : Setter g_ram_used := ltac:(derive_setter).
#[export] Instance set_g_disk_used : Setter g_disk_used := ltac:(derive_setter).

Definition try_replace (old_ram old_disk new_ram new_disk : Z) (g : GlobalBudget)
    : bool * GlobalBudget :=
  match checked_add (saturating_sub (g_ram_used g) old_ram) new_ram with
  | None => (false, g)
  | Some next_ram =>
      match checked_add (saturating_sub (g_disk_used g) old_disk) new_disk with
      | None => (false, g)
      | Some next_disk =>
          if (ram_max g <? next_ram) || (disk_max g <? next_disk) then (false, g)
          else (true, g <| g_ram_used := next_ram |> <| g_disk_used := next_disk |>)
      end
  end.

Definition release (ram disk : Z) (g : GlobalBudget) : GlobalBudget :=
  g <| g_ram_used := saturating_sub (g_ram_used g) ram |>
    <| g_disk_used := saturating_sub (g_disk_used g) disk |>.

Definition is_none_or (o : option Z) (p : Z → bool) : bool :=
  match o with Some x => p x | None => true end.

Definition replacement_pressure (old_ram old_disk new_ram new_disk : Z) (g : GlobalBudget)
    : bool * bool :=
  (is_none_or (checked_add (saturating_sub (g_ram_used g) old_ram) new_ram)
     (fun next => ram_max g <? next),
   is_none_or (checked_add (saturating_sub (g_disk_used g) old_disk) new_disk)
     (fun next => disk_max g <? next)).

Record ShardCacheConfig : Type := {
  max_ram_bytes : Z;
  max_disk_bytes : Z;
}.

Record ShardCacheStats : Type := {
  entries : Z;
  ram_bytes : Z;
  disk_bytes : Z;
}.

(** The order of the deadline heap. *)
Definition entry_le {K} (a b : DeadlineEntry K) : bool :=
  (e_deadline a <? e_deadline b)
  || ((e_deadline a =? e_deadline b) && (e_generation a <=? e_generation b)).

(** [BinaryHeap::pop]: a least element and the rest. *)
Fixpoint pop {K} (h : list (DeadlineEntry K)) : option (DeadlineEntry K * list (DeadlineEntry K)) :=
  match h with
  | [] => None
  | e :: h =>
      match pop h with
      | None => Some (e, [])
      | Some (e', h') => if entry_le e e' then Some (e, h) else Some (e', e :: h')
      end
  end.

Section access.
Context {K V : Type} `{Countable K} `{!ShardKey K} `{!CacheValue V}.
Implicit Types (id k : K) (v : V).

Abbreviation Shard := (@lru.Shard K V _ _).

Record Access : Type := {
  shard : Shard;
  global : GlobalBudget;
  ram_budget : Z;
  disk_budget : Z;
  hooks : list (Hook K V);
  evicted : bool;
}.

#[export] Instance Access_eta : Eta Access := fun r =>
  {| shard := shard r; global := global r; ram_budget := ram_budget r;
     disk_budget := disk_budget r; hooks := hooks r; evicted := evicted r |}.
#[global] Instance set_shard : Setter shard := ltac:(derive_setter).
#[global] Instance set_global : Setter global := ltac:(derive_setter).
#[global] Instance set_hooks : Setter hooks := ltac:(derive_setter).
#[global] Instance set_evicted : Setter evicted := ltac:(derive_setter).

Implicit Types a : Access.

(** ** [ShardAccess] *)

Definition acc_get id a : option V := value <$> map (shard a) !! id.

Definition contains id a : bool := bool_decide (is_Some (map (shard a) !! id)).

Definition on_disk id (s : Shard) : bool :=
  from_option (fun n => 0 <? disk_weight n) false (map s !! id).

Definition touch_ram id a : option Access :=
  if negb (contains id a) then Some a
  else s ← ram_touch id (shard a); Some (a <| shard := s |>).

Definition touch_disk id a : option Access :=
  if on_disk id (shard a) then s ← disk_touch id (shard a); Some (a <| shard := s |>)
  else Some a.

Definition acc_touch id a : option Access :=
  if negb (contains id a) then Some a
  else
    s ← ram_touch id (shard a);
    s ← (if on_disk id s then disk_touch id s else Some s);
    Some (a <| shard := s |>).

Definition teardown_inner id (cause : EvictCause) (release_global : bool) a : option Access :=
  match map (shard a) !! id with
  | None => Some a
  | Some n =>
      let '(ram_w, disk_w) := (ram_weight n, disk_weight n) in
      s ← ram_unlink id (shard a);
      s ← (if 0 <? disk_w then disk_unlink id s else Some s);
      let s := s <| ram_used := saturating_sub (ram_used s) ram_w |> in
      let s := s <| disk_used := saturating_sub (disk_used s) disk_w |> in
      node ← map s !! id;
      let s := s <| map := delete id (map s) |> in
      let g := if release_global then release ram_w disk_w (global a) else global a in
      Some (a <| shard := s |> <| global := g |> <| evicted := true |>
              <| hooks := hooks a ++ [on_evict id (value node) cause] |>)
  end.

Definition teardown id (cause : EvictCause) a : option Access :=
  teardown_inner id cause true a.

Definition cause_of (w : which) : EvictCause := match w with Ram => Size | Disk => Disk_ end.

Fixpoint reserve_loop (fuel : nat) id (old_ram old_disk new_ram new_disk : Z) a
    : option (bool * Access) :=
  match fuel with
  | O => None
  | S fuel =>
      let '(replaced, g) := try_replace old_ram old_disk new_ram new_disk (global a) in
      if replaced then Some (true, a <| global := g |>)
      else
        let impossible := (ram_max g <? new_ram) || (disk_max g <? new_disk) in
        let '(ram_over, disk_over) :=
          replacement_pressure old_ram old_disk new_ram new_disk g in
        if impossible then Some (false, a)
        else if negb disk_over && negb ram_over then Some (false, a)
        else
          let w := if disk_over then Disk else Ram in
          let victim := tail_except w id (shard a) in
          if is_nil victim then Some (false, a)
          else
            a ← teardown victim (cause_of w) a;
            reserve_loop fuel id old_ram old_disk new_ram new_disk a
  end.

Definition reserve_replacing id (old_ram old_disk new_ram new_disk : Z) a
    : option (bool * Access) :=
  reserve_loop (S (size (map (shard a)))) id old_ram old_disk new_ram new_disk a.

Definition insert_replacing id v a : option (bool * Access) :=
  let '(ram_w, disk_w) := (v_ram_weight v, v_disk_weight v) in
  let '(old_ram, old_disk) :=
    from_option (fun n => (ram_weight n, disk_weight n)) (0, 0) (map (shard a) !! id) in
  '(reserved, a) ← reserve_replacing id old_ram old_disk ram_w disk_w a;
  if negb reserved then Some (false, a)
  else
    a ← (if contains id a then teardown_inner id Explicit false a else Some a);
    let '(g, s) := bump_gen (shard a) in
    let node :=
      {| value := v; ram_prev := nil_key; ram_next := nil_key; disk_prev := nil_key;
         disk_next := nil_key; ram_weight := ram_w; disk_weight := disk_w;
         generation := g |} in
    let s := s <| map := <[id := node]> (map s) |> in
    s ← ram_push_front id s;
    s ← (if 0 <? disk_w then disk_push_front id s else Some s);
    let s := s <| ram_used := u64 (ram_used s + ram_w) |> in
    let s := s <| disk_used := u64 (disk_used s + disk_w) |> in
    n ← map s !! id;
    Some (true, a <| shard := push_deadline id (v_deadline (value n)) g s |>).

Fixpoint evict_over (w : which) (fuel : nat) (protect : K) a : option Access :=
  let over :=
    match w with
    | Ram => ram_budget a <? ram_used (shard a)
    | Disk => disk_budget a <? disk_used (shard a)
    end in
  if negb over then Some a
  else
    match fuel with
    | O => None
    | S fuel =>
        let t := tail_except w protect (shard a) in
        if is_nil t then Some a
        else a ← teardown t (cause_of w) a; evict_over w fuel protect a
    end.

Definition enforce_budgets (protect : K) a : option Access :=
  a ← evict_over Ram (S (size (map (shard a)))) protect a;
  evict_over Disk (S (size (map (shard a)))) protect a.

(** The new weights of a node, its place on the disk list and the accumulators. *)
Definition reweigh id (old_ram old_disk new_ram new_disk : Z) (s : Shard) : option Shard :=
  s ← get_mut id (fun n => n <| ram_weight := new_ram |> <| disk_weight := new_disk |>) s;
  s ← (if (0 <? old_disk) && (new_disk =? 0) then disk_unlink id s
       else if (old_disk =? 0) && (0 <? new_disk) then disk_push_front id s
       else Some s);
  let s := s <| ram_used := u64 (saturating_sub (ram_used s) old_ram + new_ram) |> in
  Some (s <| disk_used := u64 (saturating_sub (disk_used s) old_disk + new_disk) |>).

(** [mutate] once the closure has committed. *)
Definition commit id (old_ram old_disk : Z) v a : option (bool * Access) :=
  let '(new_ram, new_disk, deadline) := (v_ram_weight v, v_disk_weight v, v_deadline v) in
  '(reserved, a) ← reserve_replacing id old_ram old_disk new_ram new_disk a;
  if negb reserved then a ← teardown id Size a; Some (false, a)
  else
    s ← reweigh id old_ram old_disk new_ram new_disk (shard a);
    let '(g, s) := bump_gen s in
    let s :=
      match map s !! id with
      | Some n => s <| map := <[id := n <| generation := g |>]> (map s) |>
      | None => s
      end in
    let s := push_deadline id deadline g s in
    a ← enforce_budgets id (a <| shard := s |>);
    Some (true, a).

Definition mutate id (f : V → V * bool) a : option (bool * Access) :=
  match map (shard a) !! id with
  | None => Some (false, a)
  | Some n =>
      let '(old_ram, old_disk) := (ram_weight n, disk_weight n) in
      let '(v, committed) := f (value n) in
      let s := shard a in
      let s := s <| map := <[id := n <| value := v |>]> (map s) |> in
      let a := a <| shard := s |> in
      if negb committed then Some (false, a)
      else n ← map (shard a) !! id; commit id old_ram old_disk (value n) a
  end.

Definition reconcile_weights id (protect : K) a : option (bool * Access) :=
  match map (shard a) !! id with
  | None => Some (false, a)
  | Some n =>
      let '(old_ram, old_disk) := (ram_weight n, disk_weight n) in
      let '(new_ram, new_disk) := (v_ram_weight (value n), v_disk_weight (value n)) in
      '(reserved, a) ← reserve_replacing id old_ram old_disk new_ram new_disk a;
      if negb reserved then a ← teardown id Size a; Some (false, a)
      else
        s ← reweigh id old_ram old_disk new_ram new_disk (shard a);
        a ← enforce_budgets protect (a <| shard := s |>);
        Some (true, a)
  end.

(** What the closures of the store's operations do under the lock. *)

Definition get_in (now : Z) id a : option (option V * Access) :=
  match map (shard a) !! id with
  | None => Some (None, a)
  | Some node =>
      if negb (v_is_fresh (value node) now) then
        a ← teardown id Expired a; Some (None, a)
      else
        s ← ram_touch id (shard a);
        s ← (if 0 <? disk_weight node then disk_touch id s else Some s);
        Some (Some (value node), a <| shard := s |>)
  end.

Definition insert_in id v a : option (bool * Access) :=
  '(admitted, a) ← insert_replacing id v a;
  if negb admitted then Some (false, a)
  else a ← enforce_budgets id a; Some (true, a).

Fixpoint sweep_loop (fuel : nat) (now swept : Z) a : option (Z * Access) :=
  match pop (expiry (shard a)) with
  | None => Some (swept, a)
  | Some (top, rest) =>
      if now <? e_deadline top then Some (swept, a)
      else
        match fuel with
        | O => None
        | S fuel =>
            let '(id, g) := (e_key top, e_generation top) in
            let s := shard a in
            let s := s <| expiry := rest |> in
            let a := a <| shard := s |> in
            let due :=
              from_option (fun n => (generation n =? g) && negb (v_is_fresh (value n) now))
                false (map (shard a) !! id) in
            if due then a ← teardown id Expired a; sweep_loop fuel now (u64 (swept + 1)) a
            else sweep_loop fuel now swept a
        end
  end.

Definition sweep_in (now swept : Z) a : option (Z * Access) :=
  sweep_loop (length (expiry (shard a))) now swept a.

Fixpoint teardown_all (ids : list K) (cause : EvictCause) a : option Access :=
  match ids with
  | [] => Some a
  | id :: ids => a ← teardown id cause a; teardown_all ids cause a
  end.

Definition purge_in (predicate : K → V → bool) a : option Access :=
  let to_remove :=
    (filter (fun kn : K * Node K V => Is_true (predicate kn.1 (value kn.2))) (map_to_list (map (shard a)))).*1 in
  teardown_all to_remove Explicit a.

Definition clear_in a : option Access :=
  let s := shard a in
  let drained := map_to_list (map s) in
  let s' := s <| map := ∅ |> <| ram_used := 0 |> <| disk_used := 0 |> <| expiry := [] |>
      <| ram_head := nil_key |> <| ram_tail := nil_key |> <| disk_head := nil_key |>
      <| disk_tail := nil_key |> in
  Some (a <| shard := s' |> <| global := release (ram_used s) (disk_used s) (global a) |>
          <| hooks := hooks a ++ ((fun kn => on_evict kn.1 (value kn.2) Explicit) <$> drained) |>
          <| evicted := negb (bool_decide (drained = [])) |>).

(** ** [ShardedCache] *)

Record Cache : Type := {
  shards : list Shard;
  ram_budget_per_shard : Z;
  disk_budget_per_shard : Z;
  global_budget : GlobalBudget;
  log : list (Hook K V);
}.

Implicit Types c : Cache.

Definition new (config : ShardCacheConfig) : Cache :=
  let disk_total :=
    if 0 <? max_disk_bytes config then max_disk_bytes config else max_ram_bytes config in
  {| shards := replicate (Z.to_nat SHARDS) shard_new;
     ram_budget_per_shard := Z.max (max_ram_bytes config / SHARDS) 1;
     disk_budget_per_shard := Z.max (disk_total / SHARDS) 1;
     global_budget :=
       {| g_ram_used := 0; g_disk_used := 0; ram_max := max_ram_bytes config;
          disk_max := disk_total |};
     log := [] |}.

(** Shard [s] locked. *)
Definition enter c (s : Shard) : Access :=
  {| shard := s; global := global_budget c; ram_budget := ram_budget_per_shard c;
     disk_budget := disk_budget_per_shard c; hooks := log c; evicted := false |}.

(** The lock of shard [i] released, and the hook told if anything was evicted. *)
Definition leave c (i : nat) a : Cache :=
  {| shards := <[i := shard a]> (shards c);
     ram_budget_per_shard := ram_budget_per_shard c;
     disk_budget_per_shard := disk_budget_per_shard c; global_budget := global a;
     log := hooks a ++ (if evicted a then [after_unlock] else []) |}.

Definition locked {R} (i : nat) (f : Access → option (R * Access)) c : option (R * Cache) :=
  s ← shards c !! i;
  '(r, a) ← f (enter c s);
  Some (r, leave c i a).

Definition shard_for id : nat := Z.to_nat (shard_index id SHARDS).

Definition with_shard {R} id (f : Access → option (R * Access)) c : option (R * Cache) :=
  locked (shard_for id) f c.

Definition no_result (f : Access → option Access) a : option (unit * Access) :=
  a ← f a; Some (tt, a).

(** Each shard in turn. *)
Fixpoint for_shards {R} (ixs : list nat) (f : R → Access → option (R * Access)) (r : R) c
    : option (R * Cache) :=
  match ixs with
  | [] => Some (r, c)
  | i :: ixs => '(r, c) ← locked i (f r) c; for_shards ixs f r c
  end.

Definition all_shards c : list nat := seq 0 (length (shards c)).

Definition get (now : Z) id c : option (option V * Cache) := with_shard id (get_in now id) c.

Definition insert id v c : option Cache := snd <$> with_shard id (insert_in id v) c.

Definition remove id c : option Cache :=
  snd <$> with_shard id (no_result (teardown id Explicit)) c.

Definition sweep_expired (now : Z) c : option (Z * Cache) :=
  for_shards (all_shards c) (sweep_in now) 0 c.

Definition purge_if (predicate : K → V → bool) c : option Cache :=
  snd <$> for_shards (all_shards c) (fun _ : unit => no_result (purge_in predicate)) tt c.

Definition clear c : option Cache :=
  snd <$> for_shards (all_shards c) (fun _ : unit => no_result clear_in) tt c.

Definition stats c : ShardCacheStats :=
  fold_left (fun st s =>
      {| entries := u64 (entries st + Z.of_nat (size (map s)));
         ram_bytes := u64 (ram_bytes st + ram_used s);
         disk_bytes := u64 (disk_bytes st + disk_used s) |})
    (shards c) {| entries := 0; ram_bytes := 0; disk_bytes := 0 |}.

Definition for_each c : list (K * V) :=
  s ← shards c; prod_map (fun k => k) value <$> map_to_list (map s).

(** The length of the leading run of ids of one shard. *)
Fixpoint run_length (i : nat) (ids : list K) : nat :=
  match ids with
  | [] => 0
  | id :: ids => if bool_decide (shard_for id = i) then S (run_length i ids) else 0
  end.

Fixpoint groups_loop {R} (fuel : nat) (ids : list K) (f : R → list K → Access → option (R * Access))
    (r : R) c : option (R * Cache) :=
  match ids with
  | [] => Some (r, c)
  | id :: _ =>
      match fuel with
      | O => None
      | S fuel =>
          let end_ := run_length (shard_for id) ids in
          '(r, c) ← locked (shard_for id) (f r (take end_ ids)) c;
          groups_loop fuel (drop end_ ids) f r c
      end
  end.

Definition by_shard (x y : K) : Prop := (shard_for x <= shard_for y)%nat.

#[global] Instance by_shard_dec : RelDecision by_shard.
Proof. unfold by_shard. solve_decision. Defined.

(** [sort_unstable_by_key] leaves the order within a shard open; this is one of them. [r] is
    what the closure captures. *)
Definition with_shard_groups {R} (ids : list K) (f : R → list K → Access → option (R * Access))
    (r : R) c : option (R * Cache) :=
  let ids := merge_sort by_shard ids in
  groups_loop (length ids) ids f r c.

End access.
End cache.
