(* ===== verification/ShardCacheInv.v ===== *)
(** * The invariant of a locked shard

    [holds s m rl dl] says what the shard [s] stands for: the entries [m] (the nodes of its
    map without their pointers), the RAM list [rl] with every entry on it, the disk list
    [dl] with the disk-weighted ones, and accumulators that are the sums of the weights.
    [acc_ok] adds the global budget, in which this shard's bytes are one share. Every
    operation of [ShardAccess] is shown to succeed on such a shard, and what it does is
    stated on [m], [rl] and [dl]. *)

From stdpp Require Import base list gmap.
From Stdlib Require Import ZArith Lia.
From S2P Require Import Prelude ShardLru ShardCache.

Import lru cache.
#[local] Open Scope record_scope.

Module cache_inv.

Section inv.
Context {K V : Type} `{Countable K} `{!ShardKey K} `{!CacheValue V}.
Implicit Types (id k : K) (v : V) (m : gmap K (Node K V)) (rl dl l : list K).

Abbreviation Shard := (@lru.Shard K V _ _).
Abbreviation Access := (@cache.Access K V _ _).

(** A node without its pointers. *)
Definition bare (n : Node K V) : Node K V := strip Ram (strip Disk n).

Record holds (s : Shard) m rl dl : Prop := {
  h_ram : linked Ram s rl;
  h_disk : linked Disk s dl;
  h_map : bare <$> map s = m;
  h_rl : ∀ k, k ∈ rl ↔ is_Some (m !! k);
  h_dl : ∀ k, k ∈ dl ↔ ∃ n, m !! k = Some n ∧ 0 < disk_weight n;
  h_weights : map_Forall (fun _ n => 0 <= ram_weight n ∧ 0 <= disk_weight n) m;
  h_ram_used : ram_used s = sum_map ram_weight m;
  h_disk_used : disk_used s = sum_map disk_weight m;
}.

(** The share [o] of the other shards and an amount [e] reserved for this shard and not yet
    in its accumulators (or, where negative, still in them). *)
Record budget_ok (o e : Z * Z) (s : Shard) (g : GlobalBudget) : Prop := {
  b_others : 0 <= o.1 ∧ 0 <= o.2;
  b_ram : g_ram_used g = ram_used s + o.1 + e.1;
  b_disk : g_disk_used g = disk_used s + o.2 + e.2;
  b_ram_cap : g_ram_used g <= ram_max g <= U64_MAX;
  b_disk_cap : g_disk_used g <= disk_max g <= U64_MAX;
}.

Record acc_ok (o e : Z * Z) (a : Access) m rl dl : Prop := {
  a_holds : holds (shard a) m rl dl;
  a_budget : budget_ok o e (shard a) (global a);
}.

(** ** Pointers and entries *)

Lemma bare_strip w n n' : strip w n' = strip w n → bare n' = bare n.
Proof. destruct w, n, n'; cbn; intros [=]; by subst. Qed.

Lemma forget_bare w (s s' : Shard) :
  forget w s' = forget w s → bare <$> map s' = bare <$> map s.
Proof.
  intros (Hm & _)%forget_fields. apply map_eq. intros k.
  apply (f_equal (.!! k)) in Hm. rewrite !lookup_fmap in *.
  destruct (map s' !! k), (map s !! k); cbn in *; try done.
  injection Hm as Hm. f_equal. by eapply bare_strip.
Qed.

Lemma holds_lookup s m rl dl k n :
  holds s m rl dl → m !! k = Some n →
  ∃ n', map s !! k = Some n' ∧ bare n' = n.
Proof. intros Hs. rewrite <-(h_map _ _ _ _ Hs), lookup_fmap. intros (n' & ? & ?)%fmap_Some_1. eauto. Qed.

Lemma holds_lookup_bare s m rl dl k n' :
  holds s m rl dl → map s !! k = Some n' → m !! k = Some (bare n').
Proof. intros Hs Hk. by rewrite <-(h_map _ _ _ _ Hs), lookup_fmap, Hk. Qed.

Lemma holds_absent s m rl dl k :
  holds s m rl dl → map s !! k = None ↔ m !! k = None.
Proof. intros Hs. rewrite <-(h_map _ _ _ _ Hs), lookup_fmap. apply symmetry, fmap_None. Qed.

Lemma holds_orders s m rl dl : holds s m rl dl → order Ram s = rl ∧ order Disk s = dl.
Proof. intros Hs. split; apply linked_order; apply Hs. Qed.

Lemma holds_size s m rl dl : holds s m rl dl → size (map s) = size m.
Proof. intros Hs. by rewrite <-(h_map _ _ _ _ Hs), map_size_fmap. Qed.

Lemma sum_ram_nonneg s m rl dl : holds s m rl dl → 0 <= ram_used s ∧ 0 <= disk_used s.
Proof.
  intros Hs. rewrite (h_ram_used _ _ _ _ Hs), (h_disk_used _ _ _ _ Hs).
  split; apply sum_map_nonneg; intros k n Hk; apply (h_weights _ _ _ _ Hs k n Hk).
Qed.

(** Only the pointers of the lists matter to [linked]. *)
Lemma linked_fields w (s s' : Shard) l :
  head_of w s' = head_of w s → tail_of w s' = tail_of w s →
  (∀ k, k ∈ l → links w (map s') k = links w (map s) k) → linked w s l → linked w s' l.
Proof.
  intros Hh Ht Hk [Hh0 Ht0 Hd Hn Hs]. split; [congruence..|]. by eapply seg_ext.
Qed.

(** ** Removal *)

(** What only insertion and mutation change, and what nothing changes. *)
Definition clock (s : Shard) := (expiry s, next_gen s).
Definition caps (a : Access) := (ram_max (global a), disk_max (global a), ram_budget a, disk_budget a).

Lemma filter_ne_elem k x l : x ∈ filter (.≠ k) l ↔ x ≠ k ∧ x ∈ l.
Proof. by rewrite list_elem_of_filter. Qed.

Lemma linked_remove w (s : Shard) l k :
  linked w s l → k ∈ l →
  ∃ s', unlink w k s = Some s' ∧ forget w s' = forget w s ∧ linked w s' (filter (.≠ k) l).
Proof.
  intros Hl (l1 & l2 & ->)%list_elem_of_split.
  rewrite filter_ne_split by apply (lk_nodup _ _ _ Hl). by apply unlink_linked.
Qed.

(** A node that is on neither list can leave the map. *)
Lemma linked_delete w (s s' : Shard) l k :
  map s' = delete k (map s) → head_of w s' = head_of w s → tail_of w s' = tail_of w s →
  k ∉ l → linked w s l → linked w s' l.
Proof.
  intros Hm Hh Ht Hk. apply linked_fields; [done..|]. intros x Hx. unfold links.
  by rewrite Hm, lookup_delete_ne by set_solver.
Qed.

Lemma detach_ok s m rl dl k n :
  holds s m rl dl → m !! k = Some n →
  ∃ s1 s2 n', ram_unlink k s = Some s1 ∧
    (if 0 <? disk_weight n then disk_unlink k s1 else Some s1) = Some s2 ∧
    map s2 !! k = Some n' ∧ value n' = value n ∧ ram_used s2 = ram_used s ∧
    disk_used s2 = disk_used s ∧ clock s2 = clock s ∧
    bare <$> map s2 = m ∧ linked Ram s2 (filter (.≠ k) rl) ∧ linked Disk s2 (filter (.≠ k) dl).
Proof.
  intros Hs Hk. destruct (linked_remove Ram s rl k) as (s1 & E1 & F1 & L1).
  { apply Hs. } { apply (h_rl _ _ _ _ Hs). by eexists. }
  pose proof (forget_linked_other _ _ _ _ F1 (h_disk _ _ _ _ Hs)) as D1. cbn [other] in D1.
  pose proof (forget_bare _ _ _ F1) as M1. rewrite (h_map _ _ _ _ Hs) in M1.
  apply forget_fields in F1 as (_ & _ & _ & R1 & U1 & X1 & N1).
  enough (∃ s2, (if 0 <? disk_weight n then disk_unlink k s1 else Some s1) = Some s2 ∧
    ram_used s2 = ram_used s1 ∧ disk_used s2 = disk_used s1 ∧ clock s2 = clock s1 ∧
    bare <$> map s2 = m ∧ linked Ram s2 (filter (.≠ k) rl) ∧ linked Disk s2 (filter (.≠ k) dl))
    as (s2 & E2 & R2 & U2 & C2 & M2 & L2 & D2).
  { pose proof Hk as Hk'. rewrite <-M2, lookup_fmap in Hk'.
    apply fmap_Some_1 in Hk' as (n' & Hn' & ->). exists s1, s2, n'.
    unfold clock in *. split_and!; try done; congruence. }
  destruct (Z.ltb_spec 0 (disk_weight n)) as [Hw|Hw].
  - destruct (linked_remove Disk s1 dl k D1) as (s2 & E2 & F2 & L2).
    { apply (h_dl _ _ _ _ Hs). eauto. }
    pose proof (forget_linked_other _ _ _ _ F2 L1) as D2. cbn [other] in D2.
    pose proof (forget_bare _ _ _ F2) as M2.
    apply forget_fields in F2 as (_ & _ & _ & R2 & U2 & X2 & N2).
    exists s2. unfold clock. split_and!; try done; congruence.
  - exists s1. rewrite (filter_ne_id k dl); [done|]. intros Hin. apply (h_dl _ _ _ _ Hs) in Hin.
    destruct Hin as (n' & Hn' & ?). rewrite Hk in Hn'. injection Hn' as ->. lia.
Qed.

Lemma sums_delete m k n :
  m !! k = Some n →
  sum_map ram_weight (delete k m) = sum_map ram_weight m - ram_weight n ∧
  sum_map disk_weight (delete k m) = sum_map disk_weight m - disk_weight n.
Proof.
  intros Hk. rewrite (sum_map_delete ram_weight m k n Hk), (sum_map_delete disk_weight m k n Hk).
  lia.
Qed.

Lemma holds_weights_le s m rl dl k n :
  holds s m rl dl → m !! k = Some n →
  0 <= ram_weight n <= ram_used s ∧ 0 <= disk_weight n <= disk_used s.
Proof.
  intros Hs Hk. pose proof (h_weights _ _ _ _ Hs k n Hk) as Hw. cbn in Hw.
  rewrite (h_ram_used _ _ _ _ Hs), (h_disk_used _ _ _ _ Hs).
  pose proof (sum_map_ge ram_weight m k n) as Hr. pose proof (sum_map_ge disk_weight m k n) as Hd.
  assert (map_Forall (fun _ n => 0 <= ram_weight n) m).
  { intros x y Hx. apply (h_weights _ _ _ _ Hs x y Hx). }
  assert (map_Forall (fun _ n => 0 <= disk_weight n) m).
  { intros x y Hx. apply (h_weights _ _ _ _ Hs x y Hx). }
  specialize (Hr ltac:(done) Hk). specialize (Hd ltac:(done) Hk). lia.
Qed.

Lemma teardown_inner_ok o e a m rl dl k n c (b : bool) :
  acc_ok o e a m rl dl → m !! k = Some n → (b = true → e = (0, 0)) →
  ∃ a', teardown_inner k c b a = Some a' ∧
    acc_ok o (if b then (0, 0) else (e.1 + ram_weight n, e.2 + disk_weight n)) a'
      (delete k m) (filter (.≠ k) rl) (filter (.≠ k) dl) ∧
    hooks a' = hooks a ++ [on_evict k (value n) c] ∧ evicted a' = true ∧
    clock (shard a') = clock (shard a) ∧ caps a' = caps a.
Proof.
  intros [Hs Hb] Hk He. unfold teardown_inner.
  destruct (holds_lookup _ _ _ _ _ _ Hs Hk) as (n0 & Hn0 & Hbare). rewrite Hn0.
  pose proof (holds_weights_le _ _ _ _ _ _ Hs Hk) as [Hwr Hwd].
  replace (ram_weight n0) with (ram_weight n) by (by subst n).
  replace (disk_weight n0) with (disk_weight n) by (by subst n).
  destruct (detach_ok _ _ _ _ _ _ Hs Hk) as
    (s1 & s2 & n' & -> & E2 & Hn' & Hv & R2 & U2 & C2 & M2 & L2 & D2).
  cbn [mbind option_bind]. rewrite E2. cbn [mbind option_bind set set_ram_used set_disk_used map].
  rewrite Hn'. cbn [mbind option_bind]. eexists. split; [done|]. unfold saturating_sub, caps.
  rewrite Hv. destruct Hb as [[Ho1 Ho2] Hbr Hbd Hbc Hbe]. split; [|by destruct b].
  destruct (sums_delete m k n Hk) as [Sr Sd].
  split; cbn [shard global set set_shard set_global set_evicted set_hooks].
  - split; cbn [map ram_used disk_used set set_map set_ram_used set_disk_used].
    + apply (linked_delete Ram s2 _ _ k); [done..| |done]. rewrite filter_ne_elem. tauto.
    + apply (linked_delete Disk s2 _ _ k); [done..| |done]. rewrite filter_ne_elem. tauto.
    + by rewrite fmap_delete, M2.
    + intros x. rewrite filter_ne_elem, (h_rl _ _ _ _ Hs), lookup_delete_is_Some. split; intros [? ?]; done.
    + intros x. rewrite filter_ne_elem, (h_dl _ _ _ _ Hs). setoid_rewrite lookup_delete_Some.
      naive_solver.
    + apply map_Forall_delete, Hs.
    + rewrite R2, Sr, <-(h_ram_used _ _ _ _ Hs). lia.
    + rewrite U2, Sd, <-(h_disk_used _ _ _ _ Hs). lia.
  - destruct b; [rewrite He in * by done|]; split; cbn in *; unfold saturating_sub; lia.
Qed.

Lemma teardown_ok o a m rl dl k n c :
  acc_ok o (0, 0) a m rl dl → m !! k = Some n →
  ∃ a', teardown k c a = Some a' ∧
    acc_ok o (0, 0) a' (delete k m) (filter (.≠ k) rl) (filter (.≠ k) dl) ∧
    hooks a' = hooks a ++ [on_evict k (value n) c] ∧ evicted a' = true ∧
    clock (shard a') = clock (shard a) ∧ caps a' = caps a.
Proof. intros Ha Hk. by apply (teardown_inner_ok _ _ _ _ _ _ _ _ c true Ha Hk). Qed.

Lemma teardown_absent o e a m rl dl k c :
  acc_ok o e a m rl dl → m !! k = None → teardown k c a = Some a.
Proof.
  intros [Hs _] Hk. unfold teardown, teardown_inner.
  by rewrite (proj2 (holds_absent _ _ _ _ _ Hs) Hk).
Qed.

(** ** Eviction

    A sequence of evictions that spares [p]: each victim is the least recently used entry of
    the list that is over, [P] says which list is over at that point. *)

Definition lst (w : which) rl dl : list K := match w with Ram => rl | Disk => dl end.

Definition victim : Type := K * V * EvictCause.
Definition hook_of (v : victim) : Hook K V := on_evict v.1.1 v.1.2 v.2.

Inductive evictions (P : which → gmap K (Node K V) → Prop) (p : K)
  : gmap K (Node K V) → list K → list K → list victim →
    gmap K (Node K V) → list K → list K → Prop :=
| ev_done m rl dl : evictions P p m rl dl [] m rl dl
| ev_step w k n m rl dl vs m' rl' dl' :
    P w m → last (filter (.≠ p) (lst w rl dl)) = Some k → m !! k = Some n →
    evictions P p (delete k m) (filter (.≠ k) rl) (filter (.≠ k) dl) vs m' rl' dl' →
    evictions P p m rl dl ((k, value n, cause_of w) :: vs) m' rl' dl'.

Record effects (a a' : Access) (vs : list victim) : Prop := {
  ef_hooks : hooks a' = hooks a ++ (hook_of <$> vs);
  ef_evicted : evicted a' = evicted a || negb (bool_decide (vs = []));
  ef_clock : clock (shard a') = clock (shard a);
  ef_caps : caps a' = caps a;
}.

Lemma effects_nil a : effects a a [].
Proof. split; [by rewrite app_nil_r|by destruct (evicted a)|done..]. Qed.

Lemma effects_cons a a1 a' k v c vs :
  hooks a1 = hooks a ++ [on_evict k v c] → evicted a1 = true →
  clock (shard a1) = clock (shard a) → caps a1 = caps a →
  effects a1 a' vs → effects a a' ((k, v, c) :: vs).
Proof.
  intros Hh He Hc Hp [Hh' He' Hc' Hp']. split; [|by rewrite He', He, orb_true_r|congruence..].
  by rewrite Hh', Hh, <-app_assoc.
Qed.

Lemma effects_app a a1 a2 vs ws :
  effects a a1 vs → effects a1 a2 ws → effects a a2 (vs ++ ws).
Proof.
  intros [H1 E1 C1 P1] [H2 E2 C2 P2]. split; [|..|congruence|congruence].
  - by rewrite H2, H1, fmap_app, app_assoc.
  - rewrite E2, E1. by destruct (evicted a), vs, ws.
Qed.

Lemma evictions_app P p m rl dl vs m1 rl1 dl1 ws m2 rl2 dl2 :
  evictions P p m rl dl vs m1 rl1 dl1 → evictions P p m1 rl1 dl1 ws m2 rl2 dl2 →
  evictions P p m rl dl (vs ++ ws) m2 rl2 dl2.
Proof. induction 1; [done|]. intros. cbn. econstructor; eauto. Qed.

Lemma evictions_mono (P Q : which → gmap K (Node K V) → Prop) p m rl dl vs m' rl' dl' :
  (∀ w m, P w m → Q w m) → evictions P p m rl dl vs m' rl' dl' →
  evictions Q p m rl dl vs m' rl' dl'.
Proof. intros HPQ. induction 1; econstructor; eauto. Qed.

(** The entry that is spared keeps its place. *)
Lemma evictions_spared P p m rl dl vs m' rl' dl' :
  evictions P p m rl dl vs m' rl' dl' → m' !! p = m !! p.
Proof.
  induction 1 as [|w k n m rl dl vs m' rl' dl' _ Hk Hn _ IH]; [done|]. rewrite IH.
  apply lookup_delete_ne. intros ->. apply last_Some in Hk as [l Hk].
  assert (Hp : p ∈ filter (.≠ p) (lst w rl dl)) by (rewrite Hk; set_solver +).
  apply filter_ne_elem in Hp. tauto.
Qed.

Lemma evictions_subseteq P p m rl dl vs m' rl' dl' :
  evictions P p m rl dl vs m' rl' dl' → m' ⊆ m.
Proof. induction 1; [done|]. etrans; [done|]. apply delete_subseteq. Qed.

(** Every entry is still there or was handed to the hook, once. *)
Definition stored m : list (K * V) := prod_map (fun k => k) value <$> map_to_list m.

Lemma stored_delete m k n :
  m !! k = Some n → stored m ≡ₚ (k, value n) :: stored (delete k m).
Proof. intros Hk. unfold stored. by rewrite <-(map_to_list_delete m k n Hk). Qed.

Lemma evictions_conserve P p m rl dl vs m' rl' dl' :
  evictions P p m rl dl vs m' rl' dl' → stored m ≡ₚ stored m' ++ vs.*1.
Proof.
  induction 1 as [|w k n m rl dl vs m' rl' dl' _ Hk Hn _ IH]; [by rewrite app_nil_r|].
  rewrite (stored_delete m k n Hn), IH. cbn. by rewrite Permutation_middle.
Qed.

(** The victim an eviction loop finds. *)
Lemma victim_cases s m rl dl w p :
  holds s m rl dl → p ≠ nil_key →
  (is_nil (tail_except w p s) = true ∧ filter (.≠ p) (lst w rl dl) = [])
  ∨ ∃ n, is_nil (tail_except w p s) = false ∧
      last (filter (.≠ p) (lst w rl dl)) = Some (tail_except w p s) ∧
      m !! tail_except w p s = Some n.
Proof.
  intros Hs Hp. assert (Hl : linked w s (lst w rl dl)) by (destruct w; apply Hs).
  rewrite (tail_except_linked w s _ p Hl Hp). unfold is_nil.
  destruct (last (filter _ _)) as [k|] eqn:E; cbn; [right|left].
  - assert (Hk : k ∈ filter (.≠ p) (lst w rl dl)).
    { apply last_Some in E as [l' ->]. set_solver +. }
    apply filter_ne_elem in Hk as [_ Hk].
    assert (is_Some (m !! k)) as [n Hn].
    { destruct w; cbn in Hk; [by apply (h_rl _ _ _ _ Hs)|].
      apply (h_dl _ _ _ _ Hs) in Hk as (n & Hn & _). by eexists. }
    exists n. split; [|done]. apply bool_decide_false. intros ->. by apply (lk_nil _ _ _ Hl).
  - apply last_None in E. rewrite bool_decide_true by done. done.
Qed.

(** ** Reservation *)

Definition mem_used (w : which) m : Z :=
  sum_map (match w with Ram => ram_weight | Disk => disk_weight end) m.

Definition pick (w : which) (x : Z * Z) : Z := match w with Ram => x.1 | Disk => x.2 end.

Lemma try_replace_spec o s g old new :
  budget_ok o (0, 0) s g → 0 <= old.1 <= ram_used s → 0 <= old.2 <= disk_used s →
  0 <= new.1 → 0 <= new.2 →
  let over := (ram_max g <? ram_used s + o.1 - old.1 + new.1,
               disk_max g <? disk_used s + o.2 - old.2 + new.2) in
  replacement_pressure old.1 old.2 new.1 new.2 g = over ∧
  try_replace old.1 old.2 new.1 new.2 g =
    (if over.1 || over.2 then (false, g)
     else (true, g <| g_ram_used := ram_used s + o.1 - old.1 + new.1 |>
                   <| g_disk_used := disk_used s + o.2 - old.2 + new.2 |>)).
Proof.
  intros [[Ho1 Ho2] Hr Hd Hrc Hdc] H1 H2 Hn1 Hn2. cbn in *. rewrite !Z.add_0_r in *.
  unfold replacement_pressure, try_replace, checked_add, saturating_sub, is_none_or.
  rewrite Hr, Hd in *. rewrite !Z.max_l by lia.
  destruct (Z.leb_spec (ram_used s + o.1 - old.1 + new.1) U64_MAX),
    (Z.leb_spec (disk_used s + o.2 - old.2 + new.2) U64_MAX); cbn.
  - done.
  - rewrite (proj2 (Z.ltb_lt (disk_max g) _)) by lia. by rewrite orb_true_r.
  - rewrite (proj2 (Z.ltb_lt (ram_max g) _)) by lia. done.
  - rewrite !(proj2 (Z.ltb_lt _ _)) by lia. done.
Qed.

Definition weights_of m id : Z * Z :=
  from_option (fun n => (ram_weight n, disk_weight n)) (0, 0) (m !! id).

Lemma weights_of_le s m rl dl id :
  holds s m rl dl →
  0 <= (weights_of m id).1 <= ram_used s ∧ 0 <= (weights_of m id).2 <= disk_used s.
Proof.
  intros Hs. unfold weights_of. destruct (m !! id) as [n|] eqn:E; cbn.
  - by eapply holds_weights_le.
  - pose proof (sum_ram_nonneg _ _ _ _ Hs). lia.
Qed.

Lemma holds_used s m rl dl :
  holds s m rl dl → ram_used s = mem_used Ram m ∧ disk_used s = mem_used Disk m.
Proof. intros Hs. split; apply Hs. Qed.

(** The replacement of [old] by [new] does not fit list [w]'s cap. *)
Definition pressure (a : Access) (o old new : Z * Z) (w : which) m : Prop :=
  pick w (ram_max (global a), disk_max (global a))
    < mem_used w m + pick w o - pick w old + pick w new.

Lemma pressure_caps a a' o old new w m :
  caps a' = caps a → pressure a' o old new w m ↔ pressure a o old new w m.
Proof. unfold caps, pressure. intros [= -> -> _ _]. done. Qed.

Record reserved (o old new : Z * Z) id (a : Access) m rl dl (b : bool) (a' : Access) vs m' rl' dl'
    : Prop := {
  rs_evictions : evictions (pressure a o old new) id m rl dl vs m' rl' dl';
  rs_effects : effects a a' vs;
  rs_ok : acc_ok o (if b then (new.1 - old.1, new.2 - old.2) else (0, 0)) a' m' rl' dl';
  rs_full : b = false →
    ram_max (global a) < new.1 ∨ disk_max (global a) < new.2 ∨
    ∃ w, pressure a o old new w m' ∧ filter (.≠ id) (lst w rl' dl') = [];
}.

(** One turn of the loop: the reservation fits, or a list that is over is to give way. *)
Lemma reserve_loop_turn o old new id fuel a m rl dl :
  acc_ok o (0, 0) a m rl dl → old = weights_of m id → 0 <= new.1 → 0 <= new.2 →
  (∃ a', reserve_loop (S fuel) id old.1 old.2 new.1 new.2 a = Some (true, a') ∧
     effects a a' [] ∧ acc_ok o (new.1 - old.1, new.2 - old.2) a' m rl dl)
  ∨ ∃ w, pressure a o old new w m ∧
      reserve_loop (S fuel) id old.1 old.2 new.1 new.2 a =
        (if (ram_max (global a) <? new.1) || (disk_max (global a) <? new.2) then Some (false, a)
         else if is_nil (tail_except w id (shard a)) then Some (false, a)
         else
           a ← teardown (tail_except w id (shard a)) (cause_of w) a;
           reserve_loop fuel id old.1 old.2 new.1 new.2 a).
Proof.
  intros [Hs Hb] Ho H1 H2. pose proof (weights_of_le _ _ _ _ id Hs) as [Hw1 Hw2]. rewrite <-Ho in *.
  destruct (holds_used _ _ _ _ Hs) as [Ur Ud].
  destruct (try_replace_spec o (shard a) (global a) old new) as [Hp Ht]; [done..|].
  cbn [reserve_loop]. rewrite Ht. cbn zeta in Hp. unfold pressure.
  destruct (Z.ltb_spec (ram_max (global a)) (ram_used (shard a) + o.1 - old.1 + new.1)) as [Or|Or],
    (Z.ltb_spec (disk_max (global a)) (disk_used (shard a) + o.2 - old.2 + new.2)) as [Od|Od];
    cbn [orb fst snd] in *; rewrite ?Hp; cbn [negb andb].
  - right. exists Disk. split; [cbn; lia|done].
  - right. exists Ram. split; [cbn; lia|done].
  - right. exists Disk. split; [cbn; lia|done].
  - left. eexists. split; [done|]. destruct Hb as [? Hr Hd Hrc Hdc].
    split; [by destruct (effects_nil a); split|]. split; [done|]. split; cbn in *; lia.
Qed.

Lemma size_delete_lt m k n : m !! k = Some n → (size (delete k m) < size m)%nat.
Proof.
  intros Hk. rewrite map_size_delete_Some by eauto.
  assert (size m ≠ 0%nat) by (by eapply map_size_ne_0_lookup_2; eexists). lia.
Qed.

Lemma last_filter_ne p k l : last (filter (.≠ p) l) = Some k → k ≠ p ∧ k ∈ l.
Proof.
  intros [l' Hl]%last_Some. apply filter_ne_elem. rewrite Hl. set_solver +.
Qed.

Lemma reserve_loop_ok o old new id fuel a m rl dl :
  acc_ok o (0, 0) a m rl dl → (size m < fuel)%nat → id ≠ nil_key → old = weights_of m id →
  0 <= new.1 → 0 <= new.2 →
  ∃ b a' vs m' rl' dl', reserve_loop fuel id old.1 old.2 new.1 new.2 a = Some (b, a') ∧
    reserved o old new id a m rl dl b a' vs m' rl' dl'.
Proof.
  revert a m rl dl. induction fuel as [|fuel IH]; intros a m rl dl Ha Hf Hid Ho H1 H2; [lia|].
  destruct (reserve_loop_turn o old new id fuel a m rl dl) as [(a' & -> & He & Ha')|(w & Hw & ->)];
    [done..| |].
  { exists true, a', [], m, rl, dl. split; [done|]. by split; [apply ev_done|..]. }
  destruct (_ || _) eqn:Himp.
  { exists false, a, [], m, rl, dl. split; [done|]. split; [apply ev_done|apply effects_nil|done|].
    intros _. apply orb_true_iff in Himp as [?%Z.ltb_lt|?%Z.ltb_lt]; tauto. }
  destruct (victim_cases _ _ _ _ w id (a_holds _ _ _ _ _ _ Ha) Hid) as [[-> Hv]|(n & -> & Hv & Hn)].
  { exists false, a, [], m, rl, dl. split; [done|]. split; [apply ev_done|apply effects_nil|done|].
    eauto. }
  destruct (teardown_ok _ _ _ _ _ _ _ (cause_of w) Ha Hn)
    as (a1 & -> & Ha1 & Hh1 & He1 & Hc1 & Hp1). cbn [mbind option_bind].
  destruct (last_filter_ne _ _ _ Hv) as [Hne _].
  edestruct IH as (b & a' & vs & m' & rl' & dl' & -> & [Hev Hef Hok Hfull]); [exact Ha1| |done| |done..|].
  { pose proof (size_delete_lt m _ _ Hn). lia. }
  { unfold weights_of. by rewrite lookup_delete_ne. }
  eexists b, a', _, m', rl', dl'. split; [done|]. split; [|by eapply effects_cons|done|].
  - eapply ev_step; [done..|]. eapply evictions_mono; [|done]. intros w' m0. by apply pressure_caps.
  - pose proof Hp1 as Hq. unfold caps in Hq. injection Hq as E1 E2 _ _. rewrite <-E1, <-E2.
    intros [X|[X|(w' & X & Y)]]%Hfull; [tauto..|]. apply (pressure_caps a a1) in X; eauto.
Qed.

Lemma reserve_replacing_ok o new id a m rl dl :
  acc_ok o (0, 0) a m rl dl → id ≠ nil_key → 0 <= new.1 → 0 <= new.2 →
  let old := weights_of m id in
  ∃ b a' vs m' rl' dl', reserve_replacing id old.1 old.2 new.1 new.2 a = Some (b, a') ∧
    reserved o old new id a m rl dl b a' vs m' rl' dl'.
Proof.
  intros Ha Hid H1 H2 old. apply reserve_loop_ok; [done| |done..].
  rewrite (holds_size _ _ _ _ (a_holds _ _ _ _ _ _ Ha)). lia.
Qed.

(** ** Enforcement *)

Definition over_target (a : Access) (w : which) m : Prop :=
  pick w (ram_budget a, disk_budget a) < mem_used w m.

Lemma over_target_caps a a' w m : caps a' = caps a → over_target a' w m ↔ over_target a w m.
Proof. unfold caps, over_target. intros [= _ _ -> ->]. done. Qed.

Lemma evict_over_ok w o fuel p a m rl dl :
  acc_ok o (0, 0) a m rl dl → (size m < fuel)%nat → p ≠ nil_key →
  ∃ a' vs m' rl' dl', evict_over w fuel p a = Some a' ∧
    evictions (fun w' m => w' = w ∧ over_target a w m) p m rl dl vs m' rl' dl' ∧
    effects a a' vs ∧ acc_ok o (0, 0) a' m' rl' dl' ∧
    (over_target a w m' → filter (.≠ p) (lst w rl' dl') = []).
Proof.
  revert a m rl dl. induction fuel as [|fuel IH]; intros a m rl dl Ha Hf Hp; [lia|].
  destruct (holds_used _ _ _ _ (a_holds _ _ _ _ _ _ Ha)) as [Ur Ud]. cbn [evict_over].
  set (over := match w with Ram => _ | Disk => _ end).
  assert (Hov : over = true ↔ over_target a w m).
  { unfold over, over_target. destruct w; cbn; rewrite Z.ltb_lt; by rewrite ?Ur, ?Ud. }
  clearbody over. destruct over; cbn [negb]; cycle 1.
  { exists a, [], m, rl, dl. split; [done|]. split; [apply ev_done|].
    split; [apply effects_nil|]. split; [done|]. intros X%Hov. done. }
  destruct (victim_cases _ _ _ _ w p (a_holds _ _ _ _ _ _ Ha) Hp) as [[-> Hv]|(n & -> & Hv & Hn)].
  { exists a, [], m, rl, dl. split; [done|]. split; [apply ev_done|].
    split; [apply effects_nil|]. done. }
  destruct (teardown_ok _ _ _ _ _ _ _ (cause_of w) Ha Hn)
    as (a1 & -> & Ha1 & Hh1 & He1 & Hc1 & Hp1). cbn [mbind option_bind].
  edestruct IH as (a' & vs & m' & rl' & dl' & -> & Hev & Hef & Hok & Hfull); [exact Ha1| |done|].
  { pose proof (size_delete_lt m _ _ Hn). lia. }
  eexists a', _, m', rl', dl'. split; [done|]. split; [|split; [by eapply effects_cons|]].
  - eapply ev_step; [by split; [|apply Hov]|done..|]. eapply evictions_mono; [|done].
    intros w' m0 [-> ?]. split; [done|]. by apply (over_target_caps a a1).
  - split; [done|]. intros X. apply Hfull. by apply (over_target_caps a a1).
Qed.

Record enforced (o : Z * Z) (p : K) (a : Access) m rl dl (a' : Access) vs m' rl' dl' : Prop := {
  en_evictions : evictions (over_target a) p m rl dl vs m' rl' dl';
  en_effects : effects a a' vs;
  en_ok : acc_ok o (0, 0) a' m' rl' dl';
  en_target : ∀ w, over_target a w m' → filter (.≠ p) (lst w rl' dl') = [];
}.

(** Evictions only take away. *)
Lemma evictions_less P p m rl dl vs m' rl' dl' w :
  evictions P p m rl dl vs m' rl' dl' →
  map_Forall (fun _ n => 0 <= ram_weight n ∧ 0 <= disk_weight n) m →
  mem_used w m' <= mem_used w m ∧ lst w rl' dl' ⊆ lst w rl dl.
Proof.
  induction 1 as [|w' k n m rl dl vs m' rl' dl' _ _ Hn _ IH]; intros Hw; [done|].
  destruct IH as [IH1 IH2]; [by apply map_Forall_delete|]. destruct (Hw k n Hn) as [? ?].
  destruct (sums_delete m k n Hn) as [Sr Sd]. split.
  - etrans; [exact IH1|]. unfold mem_used; destruct w; lia.
  - etrans; [exact IH2|]. destruct w; apply list_subseteq_filter.
Qed.

Lemma enforce_budgets_ok o p a m rl dl :
  acc_ok o (0, 0) a m rl dl → p ≠ nil_key →
  ∃ a' vs m' rl' dl', enforce_budgets p a = Some a' ∧ enforced o p a m rl dl a' vs m' rl' dl'.
Proof.
  intros Ha Hp. unfold enforce_budgets.
  destruct (evict_over_ok Ram o (S (size (map (shard a)))) p a m rl dl)
    as (a1 & vs1 & m1 & rl1 & dl1 & -> & Hev1 & Hef1 & Ha1 & Ht1); [done| |done|].
  { rewrite (holds_size _ _ _ _ (a_holds _ _ _ _ _ _ Ha)). lia. }
  cbn [mbind option_bind].
  destruct (evict_over_ok Disk o (S (size (map (shard a1)))) p a1 m1 rl1 dl1)
    as (a2 & vs2 & m2 & rl2 & dl2 & -> & Hev2 & Hef2 & Ha2 & Ht2); [done| |done|].
  { rewrite (holds_size _ _ _ _ (a_holds _ _ _ _ _ _ Ha1)). lia. }
  pose proof (ef_caps _ _ _ Hef1) as Hc1.
  exists a2, (vs1 ++ vs2), m2, rl2, dl2. split; [done|]. split; [|by eapply effects_app|done|].
  - eapply evictions_app; (eapply evictions_mono; [|done]); intros w m0 [-> X]; [done|].
    by apply (over_target_caps a a1).
  - intros [] X; [|by apply Ht2, (over_target_caps a a1)].
    destruct (evictions_less _ _ _ _ _ _ _ _ _ Ram Hev2) as [Hu Hsub].
    { apply (h_weights _ _ _ _ (a_holds _ _ _ _ _ _ Ha1)). }
    specialize (Ht1 (Z.lt_le_trans _ _ _ X Hu)). cbn [lst] in *.
    apply elem_of_nil_inv. intros x [Hx Hin%Hsub]%filter_ne_elem.
    apply (not_elem_of_nil x). rewrite <-Ht1. by apply filter_ne_elem.
Qed.

End inv.
End cache_inv.
