(* ===== verification/ShardCacheOps.v ===== *)
(** * The operations of a locked shard

    [insert_replacing], [mutate], [reconcile_weights], the recency bumps and the bodies of
    the store's operations, on the invariant of [ShardCacheInv]. *)

From stdpp Require Import base list gmap.
From Stdlib Require Import ZArith Lia.
From S2P Require Import Prelude ShardLru ShardCache ShardCacheInv.

Import lru cache cache_inv.
#[local] Open Scope record_scope.

Module cache_ops.

Section ops.
Context {K V : Type} `{Countable K} `{!ShardKey K} `{!CacheValue V}.
Implicit Types (id k p : K) (v : V) (m : gmap K (Node K V)) (rl dl l : list K).

Abbreviation Shard := (@lru.Shard K V _ _).
Abbreviation Access := (@cache.Access K V _ _).

(** The weights a value reports are [u64]. *)
Definition weights_ok v : Prop := 0 <= v_ram_weight v ∧ 0 <= v_disk_weight v.

(** Every entry with a deadline is in the deadline heap, under its generation. *)
Definition covered (s : Shard) m : Prop :=
  ∀ k n d, m !! k = Some n → v_deadline (value n) = Some d →
    {| e_deadline := d; e_generation := generation n; e_key := k |} ∈ expiry s.

Definition front (b : bool) id l : list K := if b then id :: l else l.

(** The node of a new entry, without pointers. *)
Definition entry v (g : Z) : Node K V :=
  {| value := v; ram_prev := nil_key; ram_next := nil_key; disk_prev := nil_key;
     disk_next := nil_key; ram_weight := v_ram_weight v; disk_weight := v_disk_weight v;
     generation := g |}.

(** ** A new node *)

Lemma linked_insert w (s s' : Shard) l k n :
  map s' = <[k := n]> (map s) → head_of w s' = head_of w s → tail_of w s' = tail_of w s →
  k ∉ l → linked w s l → linked w s' l.
Proof.
  intros Hm Hh Ht Hk. apply linked_fields; [done..|]. intros x Hx. unfold links.
  by rewrite Hm, lookup_insert_ne by set_solver.
Qed.

Lemma attach_ok (s : Shard) rl dl id (b : bool) :
  linked Ram s rl → linked Disk s dl → id ∉ rl → id ∉ dl → id ≠ nil_key →
  is_Some (map s !! id) →
  ∃ s1 s2, ram_push_front id s = Some s1 ∧
    (if b then disk_push_front id s1 else Some s1) = Some s2 ∧
    bare <$> map s2 = bare <$> map s ∧ ram_used s2 = ram_used s ∧ disk_used s2 = disk_used s ∧
    clock s2 = clock s ∧ linked Ram s2 (id :: rl) ∧
    linked Disk s2 (front b id dl).
Proof.
  intros Hr Hd Hir Hid Hnil Hn.
  destruct (push_front_linked Ram s rl id) as (s1 & E1 & F1 & L1); [done..|].
  pose proof (forget_linked_other _ _ _ _ F1 Hd) as D1. cbn [other] in D1.
  pose proof (forget_bare _ _ _ F1) as M1.
  apply forget_fields in F1 as (_ & _ & _ & R1 & U1 & X1 & N1).
  exists s1. destruct b; cbn [front].
  - destruct (push_front_linked Disk s1 dl id) as (s2 & E2 & F2 & L2); [done..| |].
    { apply (f_equal (.!! id)) in M1. rewrite !lookup_fmap in M1. destruct Hn as [n0 Hn].
      rewrite Hn in M1. by apply fmap_Some_1 in M1 as (? & -> & _). }
    pose proof (forget_linked_other _ _ _ _ F2 L1) as D2. cbn [other] in D2.
    pose proof (forget_bare _ _ _ F2) as M2.
    apply forget_fields in F2 as (_ & _ & _ & R2 & U2 & X2 & N2).
    exists s2. unfold clock. split_and!; try done; congruence.
  - exists s1. unfold clock. split_and!; try done; congruence.
Qed.

Lemma holds_insert (s s0 : Shard) m rl dl id (n : Node K V) :
  holds s0 m rl dl → m !! id = None → 0 <= ram_weight n → 0 <= disk_weight n →
  linked Ram s (id :: rl) → linked Disk s (front (0 <? disk_weight n) id dl) →
  bare <$> map s = <[id := n]> m → ram_used s = ram_used s0 + ram_weight n →
  disk_used s = disk_used s0 + disk_weight n →
  holds s (<[id := n]> m) (id :: rl) (front (0 <? disk_weight n) id dl).
Proof.
  intros Hs Hn Hwr Hwd Hl Hd Hm Hr Hu. split; [done..| | | | |].
  - intros k. rewrite elem_of_cons, (h_rl _ _ _ _ Hs), lookup_insert_is_Some'.
    split; intros [?|?]; auto.
  - intros k. assert (Hk : k ∈ front (0 <? disk_weight n) id dl ↔
        (k = id ∧ 0 < disk_weight n) ∨ k ∈ dl).
    { unfold front. destruct (Z.ltb_spec 0 (disk_weight n)); [rewrite elem_of_cons; tauto|].
      intuition lia. }
    rewrite Hk, (h_dl _ _ _ _ Hs). setoid_rewrite lookup_insert_Some. split.
    + intros [[-> ?]|(n' & Hn' & ?)]; [exists n; tauto|]. exists n'. split; [|done].
      right. split; [|done]. intros ->. congruence.
    + intros (n' & [[-> ->]|[? ?]] & ?); eauto.
  - by apply map_Forall_insert_2, Hs.
  - rewrite Hr, (h_ram_used _ _ _ _ Hs), sum_map_insert_new by done. lia.
  - rewrite Hu, (h_disk_used _ _ _ _ Hs), sum_map_insert_new by done. lia.
Qed.

(** ** [insert_replacing] *)

(** What a new value displaces. *)
Definition replaced m id : list victim :=
  from_option (fun n => [(id, value n, Explicit)]) [] (m !! id).

Lemma displace_ok o e a m rl dl id :
  acc_ok o (e.1 - (weights_of m id).1, e.2 - (weights_of m id).2) a m rl dl →
  ∃ a', (if contains id a then teardown_inner id Explicit false a else Some a) = Some a' ∧
    acc_ok o e a' (delete id m) (filter (.≠ id) rl) (filter (.≠ id) dl) ∧
    effects a a' (replaced m id).
Proof.
  intros Ha. pose proof (a_holds _ _ _ _ _ _ Ha) as Hs. unfold contains, replaced, weights_of in *.
  destruct (m !! id) as [n|] eqn:Hid; cbn in *.
  - destruct (holds_lookup _ _ _ _ _ _ Hs Hid) as (n' & Hn' & _).
    rewrite bool_decide_true by (by rewrite Hn').
    destruct (teardown_inner_ok _ _ _ _ _ _ _ _ Explicit false Ha Hid)
      as (a' & -> & Ha' & Hh & He & Hc & Hp); [done|].
    exists a'. split; [done|]. cbn in Ha'. rewrite !Z.sub_add, <-surjective_pairing in Ha'.
    split; [done|]. eapply effects_cons; [done..|]. apply effects_nil.
  - rewrite bool_decide_false by (rewrite (proj2 (holds_absent _ _ _ _ _ Hs) Hid); by intros []).
    exists a. split; [done|]. rewrite !Z.sub_0_r, <-surjective_pairing in Ha.
    rewrite delete_id, !filter_ne_id; [split; [done|apply effects_nil]| | |done].
    + rewrite (h_dl _ _ _ _ Hs), Hid. by intros (? & ? & ?).
    + rewrite (h_rl _ _ _ _ Hs), Hid. by intros [].
Qed.

Definition due_entry id (deadline : option Z) (g : Z) : list (DeadlineEntry K) :=
  from_option (fun d => [{| e_deadline := d; e_generation := g; e_key := id |}]) [] deadline.

(** The part of [insert_replacing] after the displaced node is gone. *)
Lemma admit_ok o a m rl dl id v :
  acc_ok o (v_ram_weight v, v_disk_weight v) a m rl dl → m !! id = None → id ≠ nil_key →
  weights_ok v →
  ∃ s1 s2 n,
    let g := u32 (next_gen (shard a) + 1) in
    ram_push_front id ((shard a) <| next_gen := g |> <| map := <[id := entry v g]> (map (shard a)) |>)
      = Some s1 ∧
    (if 0 <? v_disk_weight v then disk_push_front id s1 else Some s1) = Some s2 ∧
    map s2 !! id = Some n ∧ value n = v ∧ clock s2 = (expiry (shard a), g) ∧
    (∀ a', shard a' = push_deadline id (v_deadline v) g
             (s2 <| ram_used := u64 (ram_used s2 + v_ram_weight v) |>
                 <| disk_used := u64 (disk_used s2 + v_disk_weight v) |>) →
       global a' = global a →
       acc_ok o (0, 0) a' (<[id := entry v g]> m) (id :: rl) (front (0 <? v_disk_weight v) id dl)).
Proof.
  intros [Hs Hb] Hid Hnil [Hwr Hwd]. set (g := u32 _). cbn zeta.
  set (s0 := _ <| map := _ |>).
  assert (Hrl : id ∉ rl) by (rewrite (h_rl _ _ _ _ Hs), Hid; by intros []).
  assert (Hdl : id ∉ dl) by (rewrite (h_dl _ _ _ _ Hs), Hid; by intros (? & ? & ?)).
  assert (Hm0 : bare <$> map s0 = <[id := entry v g]> m).
  { unfold s0. cbn [map set set_map]. by rewrite fmap_insert, (h_map _ _ _ _ Hs). }
  destruct (attach_ok s0 rl dl id (0 <? v_disk_weight v))
    as (s1 & s2 & E1 & E2 & M2 & R2 & U2 & C2 & L2 & D2); [..|done| |].
  { by eapply (linked_insert Ram (shard a)); [..|apply Hs]. }
  { by eapply (linked_insert Disk (shard a)); [..|apply Hs]. }
  { done. } { done. } { unfold s0. cbn [map set set_map]. rewrite lookup_insert_eq. by eexists. }
  rewrite Hm0 in M2. pose proof M2 as Hn. apply (f_equal (.!! id)) in Hn.
  rewrite lookup_fmap, lookup_insert_eq in Hn. apply fmap_Some_1 in Hn as (n & Hn & Hv).
  exists s1, s2, n. do 3 (split; [done|]). split; [by apply (f_equal value) in Hv|].
  split; [by rewrite C2|]. intros a' Hsh Hgl.
  pose proof (sum_ram_nonneg _ _ _ _ Hs). destruct Hb as [[? ?] Hbr Hbd Hbc Hbe]. cbn in *.
  assert (Hr : ram_used (shard a') = ram_used (shard a) + v_ram_weight v).
  { rewrite Hsh. unfold push_deadline. transitivity (u64 (ram_used s2 + v_ram_weight v)).
    - by destruct (v_deadline v).
    - rewrite R2. apply wrap_id. unfold U64_MAX, s0 in *. cbn. lia. }
  assert (Hd : disk_used (shard a') = disk_used (shard a) + v_disk_weight v).
  { rewrite Hsh. unfold push_deadline. transitivity (u64 (disk_used s2 + v_disk_weight v)).
    - by destruct (v_deadline v).
    - rewrite U2. apply wrap_id. unfold U64_MAX, s0 in *. cbn. lia. }
  assert (Hf : ∀ w l, linked w s2 l → linked w (shard a') l).
  { intros w l. rewrite Hsh. unfold push_deadline.
    apply linked_fields; by destruct w, (v_deadline v). }
  split.
  - apply (holds_insert (shard a') (shard a) m rl dl id (entry v g)); try done; [by apply Hf..|].
    rewrite Hsh. unfold push_deadline. by destruct (v_deadline v).
  - split; rewrite ?Hgl; cbn; lia.
Qed.

Definition weights v : Z * Z := (v_ram_weight v, v_disk_weight v).

(** The outcome of inserting [v] under [id]: [vs] made room, [ws] are all that went. *)
Record inserted o id v (a : Access) m rl dl (b : bool) (a' : Access) (vs ws : list victim)
    m1 rl1 dl1 : Prop := {
  is_evictions : evictions (pressure a o (weights_of m id) (weights v)) id m rl dl vs m1 rl1 dl1;
  is_gone : ws = (if b then vs ++ replaced m id else vs);
  is_hooks : hooks a' = hooks a ++ (hook_of <$> ws);
  is_evicted : evicted a' = evicted a || negb (bool_decide (ws = []));
  is_caps : caps a' = caps a;
  is_ok :
    let g := u32 (next_gen (shard a) + 1) in
    if b then
      acc_ok o (0, 0) a' (<[id := entry v g]> m1) (id :: filter (.≠ id) rl1)
        (front (0 <? v_disk_weight v) id (filter (.≠ id) dl1)) ∧
      clock (shard a') = (due_entry id (v_deadline v) g ++ expiry (shard a), g)
    else acc_ok o (0, 0) a' m1 rl1 dl1 ∧ clock (shard a') = clock (shard a);
  is_full : b = false →
    ram_max (global a) < v_ram_weight v ∨ disk_max (global a) < v_disk_weight v ∨
    ∃ w, pressure a o (weights_of m id) (weights v) w m1 ∧ filter (.≠ id) (lst w rl1 dl1) = [];
}.

Lemma weights_of_map (s : Shard) m rl dl id :
  holds s m rl dl →
  from_option (fun n => (ram_weight n, disk_weight n)) (0, 0) (map s !! id) = weights_of m id.
Proof.
  intros Hs. unfold weights_of. rewrite <-(h_map _ _ _ _ Hs), lookup_fmap.
  by destruct (map s !! id).
Qed.

Lemma insert_replacing_ok o id v a m rl dl :
  acc_ok o (0, 0) a m rl dl → id ≠ nil_key → weights_ok v →
  ∃ b a' vs ws m1 rl1 dl1, insert_replacing id v a = Some (b, a') ∧
    inserted o id v a m rl dl b a' vs ws m1 rl1 dl1.
Proof.
  intros Ha Hid [Hwr Hwd]. unfold insert_replacing.
  rewrite (weights_of_map _ _ _ _ id (a_holds _ _ _ _ _ _ Ha)).
  destruct (reserve_replacing_ok o (weights v) id a m rl dl)
    as (b & a1 & vs & m1 & rl1 & dl1 & E & [Hev Hef Hok Hfull]); [done..|].
  rewrite (surjective_pairing (weights_of m id)). cbn [weights fst snd] in E. rewrite E.
  cbn [mbind option_bind]. destruct b; cbn [negb]; cycle 1.
  { destruct Hef. exists false, a1, vs, vs, m1, rl1, dl1. split; [done|]. by split. }
  pose proof (evictions_spared _ _ _ _ _ _ _ _ _ Hev) as Hsp.
  assert (Hw : weights_of m1 id = weights_of m id) by (unfold weights_of; by rewrite Hsp).
  rewrite <-Hw in Hok. destruct (displace_ok o (weights v) a1 m1 rl1 dl1 id Hok)
    as (a2 & -> & Ha2 & Hef2). cbn [mbind option_bind bump_gen].
  pose proof (effects_app _ _ _ _ _ Hef Hef2) as [Hh He Hc Hp].
  destruct (admit_ok o a2 (delete id m1) _ _ id v Ha2)
    as (s1 & s2 & n & E1 & E2 & Hn & Hv & Hcl & Hfin); [apply lookup_delete_eq|done|by split|].
  assert (Hg : next_gen (shard a2) = next_gen (shard a)) by (unfold clock in Hc; congruence).
  assert (Hx : expiry (shard a2) = expiry (shard a)) by (unfold clock in Hc; congruence).
  cbn [set set_next_gen map] in *. rewrite Hg in *. fold (entry v (u32 (next_gen (shard a) + 1))).
  rewrite E1. cbn [mbind option_bind]. rewrite E2. cbn [mbind option_bind set set_ram_used set_disk_used map].
  rewrite Hn. cbn [mbind option_bind]. rewrite Hv. eexists true, _, vs, _, m1, rl1, dl1.
  split; [done|]. unfold replaced in *. rewrite Hsp in *. split; [done|done|exact Hh|exact He|exact Hp| |done].
  cbn zeta. split.
  - rewrite <-insert_delete_eq. apply Hfin; done.
  - unfold clock, push_deadline in *. injection Hcl as Hx' Hg'. rewrite <-Hx, <-Hx'.
    by destruct (v_deadline v); cbn; rewrite Hg'.
Qed.

(** ** A changed node *)

Lemma holds_set (s s0 : Shard) m rl dl dl' id (n n' : Node K V) :
  holds s0 m rl dl → m !! id = Some n → 0 <= ram_weight n' → 0 <= disk_weight n' →
  linked Ram s rl → linked Disk s dl' → bare <$> map s = <[id := n']> m →
  ram_used s = ram_used s0 - ram_weight n + ram_weight n' →
  disk_used s = disk_used s0 - disk_weight n + disk_weight n' →
  (∀ k, k ∈ dl' ↔ (k = id ∧ 0 < disk_weight n') ∨ (k ≠ id ∧ k ∈ dl)) →
  holds s (<[id := n']> m) rl dl'.
Proof.
  intros Hs Hid Hwr Hwd Hl Hd Hm Hr Hu Hdl. split; [done..| | | | |].
  - intros k. rewrite (h_rl _ _ _ _ Hs), lookup_insert_is_Some'. split; [auto|].
    intros [<-|?]; [by eexists|done].
  - intros k. rewrite Hdl, (h_dl _ _ _ _ Hs). setoid_rewrite lookup_insert_Some. split.
    + intros [[-> ?]|(? & n0 & Hn0 & ?)]; [exists n'; tauto|]. exists n0. split; [|done].
      right. by split.
    + intros (n0 & [[-> ->]|[? ?]] & ?); [by left|]. right. split; [done|]. eauto.
  - by apply map_Forall_insert_2, Hs.
  - rewrite Hr, (h_ram_used _ _ _ _ Hs), (sum_map_insert _ _ _ _ _ Hid). lia.
  - rewrite Hu, (h_disk_used _ _ _ _ Hs), (sum_map_insert _ _ _ _ _ Hid). lia.
Qed.

(** A node whose weights and pointers stay. *)
Lemma holds_same_weights (s s' : Shard) m rl dl id (n : Node K V) (f : Node K V → Node K V) :
  holds s m rl dl → map s !! id = Some n →
  (∀ n, bare (f n) = f (bare n)) →
  (∀ w n, prev w (f n) = prev w n ∧ next w (f n) = next w n) →
  (∀ n, ram_weight (f n) = ram_weight n ∧ disk_weight (f n) = disk_weight n) →
  map s' = <[id := f n]> (map s) →
  (∀ w, head_of w s' = head_of w s ∧ tail_of w s' = tail_of w s) →
  ram_used s' = ram_used s → disk_used s' = disk_used s →
  holds s' (<[id := f (bare n)]> m) rl dl.
Proof.
  intros Hs Hn Hb Hpn Hw Hm Hh Hr Hd. pose proof (holds_lookup_bare _ _ _ _ _ _ Hs Hn) as Hn'.
  destruct (Hw (bare n)) as [Wr Wd].
  destruct (h_weights _ _ _ _ Hs _ _ Hn') as [? ?].
  assert (Hl : ∀ w l, linked w s l → linked w s' l).
  { intros w l. apply linked_fields; [apply Hh..|]. intros k _. unfold links. rewrite Hm.
    destruct (decide (k = id)) as [->|]; [|by rewrite lookup_insert_ne].
    rewrite lookup_insert_eq, Hn. cbn. by destruct (Hpn w n) as [-> ->]. }
  eapply (holds_set s' s m rl dl dl id (bare n)); [done|done|lia..| | | |lia|lia|].
  - apply Hl, Hs.
  - apply Hl, Hs.
  - by rewrite Hm, fmap_insert, Hb, (h_map _ _ _ _ Hs).
  - intros k. rewrite (h_dl _ _ _ _ Hs), Wd. destruct (decide (k = id)) as [->|]; [|tauto].
    rewrite Hn'. split; [by intros (? & [= <-] & ?); left|]. intros [[_ ?]|[? _]]; [eauto|done].
Qed.

(** ** [reweigh] *)

Definition redisk (old new : Z) id dl : list K :=
  if (0 <? old) && (new =? 0) then filter (.≠ id) dl
  else if (old =? 0) && (0 <? new) then id :: dl
  else dl.

Definition set_weights (new : Z * Z) (n : Node K V) : Node K V :=
  n <| ram_weight := new.1 |> <| disk_weight := new.2 |>.

Lemma redisk_elem (s : Shard) m rl dl id n (new : Z) k :
  holds s m rl dl → m !! id = Some n → 0 <= new →
  k ∈ redisk (disk_weight n) new id dl ↔ (k = id ∧ 0 < new) ∨ (k ≠ id ∧ k ∈ dl).
Proof.
  intros Hs Hn Hnew. destruct (h_weights _ _ _ _ Hs _ _ Hn) as [_ Hw].
  assert (Hid : id ∈ dl ↔ 0 < disk_weight n).
  { rewrite (h_dl _ _ _ _ Hs), Hn. split; [by intros (? & [= ->] & ?)|eauto]. }
  unfold redisk. destruct (Z.ltb_spec 0 (disk_weight n)), (Z.eqb_spec new 0),
    (Z.eqb_spec (disk_weight n) 0), (Z.ltb_spec 0 new); try lia; cbn;
    rewrite ?filter_ne_elem, ?elem_of_cons; destruct (decide (k = id)) as [->|]; intuition lia.
Qed.

(** [reweigh]'s own changes to the disk list. *)
Lemma redisk_ok (s : Shard) rl dl id (old new : Z) :
  linked Ram s rl → linked Disk s dl → id ≠ nil_key → is_Some (map s !! id) →
  (id ∈ dl ↔ 0 < old) → 0 <= old → 0 <= new →
  ∃ s', (if (0 <? old) && (new =? 0) then disk_unlink id s
         else if (old =? 0) && (0 <? new) then disk_push_front id s
         else Some s) = Some s' ∧ forget Disk s' = forget Disk s ∧
    linked Ram s' rl ∧ linked Disk s' (redisk old new id dl).
Proof.
  intros Hr Hd Hnil Hid Hin Hold Hnew. unfold redisk, disk_unlink, disk_push_front.
  destruct (_ && _) eqn:E; bool_hyps.
  - destruct (linked_remove Disk s dl id) as (s' & -> & F & L); [done|by apply Hin|].
    exists s'. split; [done|]. split; [done|]. split; [|done]. by apply (forget_linked_other Disk s).
  - destruct ((old =? 0) && _) eqn:E2; bool_hyps; [|by exists s].
    destruct (push_front_linked Disk s dl id) as (s' & -> & F & L); [done|rewrite Hin; lia|done..|].
    exists s'. split; [done|]. split; [done|]. split; [|done]. by apply (forget_linked_other Disk s).
Qed.

Lemma reweigh_ok o a m rl dl id n (new : Z * Z) :
  acc_ok o (new.1 - ram_weight n, new.2 - disk_weight n) a m rl dl → m !! id = Some n →
  id ≠ nil_key → 0 <= new.1 → 0 <= new.2 →
  ∃ s, reweigh id (ram_weight n) (disk_weight n) new.1 new.2 (shard a) = Some s ∧
    clock s = clock (shard a) ∧ budget_ok o (0, 0) s (global a) ∧
    holds s (<[id := set_weights new n]> m) rl (redisk (disk_weight n) new.2 id dl).
Proof.
  intros [Hs Hb] Hn Hnil Hwr Hwd. unfold reweigh.
  destruct (holds_lookup _ _ _ _ _ _ Hs Hn) as (n0 & Hn0 & Hbare).
  destruct (holds_weights_le _ _ _ _ _ _ Hs Hn) as [Hor Hod].
  unfold get_mut. rewrite Hn0. cbn [mbind option_bind].
  set (s0 := _ <| map := _ |>).
  assert (Hl : ∀ w l, linked w (shard a) l → linked w s0 l).
  { intros w l. apply linked_fields; [by destruct w..|]. intros k _. unfold links, s0. cbn.
    destruct (decide (k = id)) as [->|]; [|by rewrite lookup_insert_ne].
    rewrite lookup_insert_eq, Hn0. by destruct w. }
  destruct (redisk_ok s0 rl dl id (disk_weight n) new.2) as (s1 & -> & F & L1 & D1);
    [apply Hl, Hs|apply Hl, Hs|done| | |lia|lia|].
  { unfold s0. cbn [map set set_map]. rewrite lookup_insert_eq. by eexists. }
  { rewrite (h_dl _ _ _ _ Hs), Hn. split; [by intros (? & [= ->] & ?)|eauto]. }
  cbn [mbind option_bind]. eexists. split; [done|].
  pose proof (forget_bare _ _ _ F) as M1.
  apply forget_fields in F as (_ & _ & _ & R1 & U1 & X1 & N1).
  split; [unfold clock, s0 in *; cbn in *; congruence|].
  destruct Hb as [[? ?] Hbr Hbd Hbc Hbe]. cbn [fst snd] in *.
  set (s2 := _ <| disk_used := _ |>).
  assert (Hr2 : ram_used s2 = ram_used (shard a) - ram_weight n + new.1).
  { unfold s2. cbn. rewrite R1. unfold s0, saturating_sub. cbn. rewrite Z.max_l by lia.
    apply wrap_id. unfold U64_MAX in *. lia. }
  assert (Hd2 : disk_used s2 = disk_used (shard a) - disk_weight n + new.2).
  { unfold s2. cbn. rewrite U1. unfold s0, saturating_sub. cbn. rewrite Z.max_l by lia.
    apply wrap_id. unfold U64_MAX in *. lia. }
  split; [split; cbn [fst snd]; lia|].
  eapply (holds_set s2 (shard a) m rl dl); [done|done|done|done| | | |done|done|].
  - by apply (linked_fields Ram s1).
  - by apply (linked_fields Disk s1).
  - etrans; [exact M1|]. unfold s0. cbn [map set set_map].
    rewrite fmap_insert, (h_map _ _ _ _ Hs). f_equal. by subst n.
  - intros k. by eapply redisk_elem.
Qed.

(** ** What every operation promises

    [L] are the entries the operation had to account for: each is stored or was handed to
    the hook, once. *)

Record post (o : Z * Z) (a a' : Access) (L : list (K * V)) m' rl' dl' (ws : list victim)
    : Prop := {
  po_ok : acc_ok o (0, 0) a' m' rl' dl';
  po_hooks : hooks a' = hooks a ++ (hook_of <$> ws);
  po_evicted : evicted a' = evicted a || negb (bool_decide (ws = []));
  po_caps : caps a' = caps a;
  po_conserve : L ≡ₚ stored m' ++ ws.*1;
}.

Lemma post_refl o a m rl dl : acc_ok o (0, 0) a m rl dl → post o a a (stored m) m rl dl [].
Proof. intros Ha. destruct (effects_nil a). split; try done. by rewrite app_nil_r. Qed.

Lemma post_effects o a a' P p m rl dl vs m' rl' dl' :
  evictions P p m rl dl vs m' rl' dl' → effects a a' vs → acc_ok o (0, 0) a' m' rl' dl' →
  post o a a' (stored m) m' rl' dl' vs.
Proof. intros Hev [Hh He Hc Hp] Ha. split; try done. by eapply evictions_conserve. Qed.

Lemma post_trans o a a1 a2 L m1 rl1 dl1 ws1 L2 m2 rl2 dl2 ws2 :
  post o a a1 L m1 rl1 dl1 ws1 → post o a1 a2 L2 m2 rl2 dl2 ws2 → stored m1 ≡ₚ L2 →
  post o a a2 L m2 rl2 dl2 (ws1 ++ ws2).
Proof.
  intros [_ H1 E1 C1 P1] [Ha2 H2 E2 C2 P2] HL.
  split; [done|by rewrite H2, H1, fmap_app, app_assoc| |congruence|].
  - rewrite E2, E1. by destruct (evicted a), ws1, ws2.
  - rewrite P1, HL, P2, fmap_app, <-!app_assoc. f_equiv. apply Permutation_app_comm.
Qed.

Lemma evictions_covered P p m rl dl vs m' rl' dl' (s s' : Shard) :
  evictions P p m rl dl vs m' rl' dl' → clock s' = clock s → covered s m → covered s' m'.
Proof.
  unfold clock, covered. intros Hev [= -> _] Hc k n d Hk. apply (Hc k n d).
  eapply lookup_weaken; [done|]. by eapply evictions_subseteq.
Qed.

Lemma teardown_post o a m rl dl k c :
  acc_ok o (0, 0) a m rl dl →
  ∃ a' ws, teardown k c a = Some a' ∧
    post o a a' (stored m) (delete k m) (filter (.≠ k) rl) (filter (.≠ k) dl) ws ∧
    ws = from_option (fun n => [(k, value n, c)]) [] (m !! k) ∧
    clock (shard a') = clock (shard a).
Proof.
  intros Ha. destruct (m !! k) as [n|] eqn:Hk; cbn.
  - destruct (teardown_ok _ _ _ _ _ _ _ c Ha Hk) as (a' & -> & Ha' & Hh & He & Hc & Hp).
    eexists a', _. split; [done|]. split; [|done]. split; [done..|by rewrite He, orb_true_r|done|].
    rewrite (stored_delete m k n Hk). cbn. by rewrite <-Permutation_cons_append.
  - exists a, []. split; [by eapply teardown_absent|]. split; [|done].
    pose proof (a_holds _ _ _ _ _ _ Ha) as Hs.
    rewrite delete_id, !filter_ne_id; [by apply post_refl| | |done].
    + rewrite (h_dl _ _ _ _ Hs), Hk. by intros (? & ? & ?).
    + rewrite (h_rl _ _ _ _ Hs), Hk. by intros [].
Qed.

Lemma stored_insert m id n :
  stored (<[id := n]> m) ≡ₚ (id, value n) :: stored (delete id m).
Proof.
  rewrite (stored_delete (<[id := n]> m) id n) by apply lookup_insert_eq.
  by rewrite delete_insert_eq.
Qed.

(** An insertion before the targets are enforced. *)
Lemma inserted_post o id v a m rl dl a' vs ws m1 rl1 dl1 :
  inserted o id v a m rl dl true a' vs ws m1 rl1 dl1 →
  let g := u32 (next_gen (shard a) + 1) in
  post o a a' (stored m ++ [(id, v)]) (<[id := entry v g]> m1) (id :: filter (.≠ id) rl1)
    (front (0 <? v_disk_weight v) id (filter (.≠ id) dl1)) ws.
Proof.
  intros [Hev -> Hh He Hc [Ha _] _] g. split; try done.
  rewrite stored_insert, (evictions_conserve _ _ _ _ _ _ _ _ _ Hev), fmap_app. cbn [value entry].
  pose proof (evictions_spared _ _ _ _ _ _ _ _ _ Hev) as Hsp.
  assert (Hx : stored m1 ≡ₚ stored (delete id m1) ++ (replaced m id).*1).
  { unfold replaced. rewrite <-Hsp. destruct (m1 !! id) as [n|] eqn:E; cbn.
    - by rewrite (stored_delete m1 id n E), <-Permutation_cons_append.
    - by rewrite delete_id, app_nil_r. }
  rewrite Hx, <-Permutation_cons_append, <-!app_assoc. cbn. do 2 f_equiv. apply Permutation_app_comm.
Qed.

(** The spared entry stays in front. *)
Lemma evictions_head P p m rl dl vs m' rl' dl' :
  evictions P p m rl dl vs m' rl' dl' → head rl = Some p → head rl' = Some p.
Proof.
  induction 1 as [|w k n m rl dl vs m' rl' dl' _ Hk _ _ IH]; intros Hp; [done|]. apply IH.
  destruct rl as [|x rl]; [done|]. injection Hp as ->.
  by rewrite filter_cons_True by (by apply last_filter_ne in Hk as [? _]).
Qed.

Lemma evictions_causes P p id m rl dl vs m' rl' dl' :
  evictions P p m rl dl vs m' rl' dl' →
  Forall (fun x => x.2 = Size ∨ x.2 = Disk_ ∨ x.1.1 = id) vs.
Proof. induction 1 as [|w]; constructor; [destruct w; auto|done]. Qed.

Lemma inserted_covered o id v a m rl dl a' vs ws m1 rl1 dl1 :
  inserted o id v a m rl dl true a' vs ws m1 rl1 dl1 → covered (shard a) m →
  covered (shard a') (<[id := entry v (u32 (next_gen (shard a) + 1))]> m1).
Proof.
  intros [Hev _ _ _ _ [_ Hc] _] Hcov k n d Hk Hd. unfold clock in Hc. injection Hc as -> _.
  apply lookup_insert_Some in Hk as [[-> <-]|[_ Hk]].
  - apply elem_of_app. left. cbn in *. rewrite Hd. cbn. set_solver +.
  - apply elem_of_app. right. apply Hcov; [|done].
    eapply lookup_weaken; [done|]. by eapply evictions_subseteq.
Qed.

Lemma insert_in_ok o id v a m rl dl :
  acc_ok o (0, 0) a m rl dl → id ≠ nil_key → weights_ok v →
  ∃ b a' m' rl' dl' ws, insert_in id v a = Some (b, a') ∧
    post o a a' (stored m ++ (if b then [(id, v)] else [])) m' rl' dl' ws ∧
    (covered (shard a) m → covered (shard a') m') ∧
    (b = true → m' !! id = Some (entry v (u32 (next_gen (shard a) + 1))) ∧ head rl' = Some id ∧
       ∀ w, over_target a w m' → filter (.≠ id) (lst w rl' dl') = []) ∧
    (b = false → m' !! id = m !! id ∧
       (ram_max (global a) < v_ram_weight v ∨ disk_max (global a) < v_disk_weight v ∨
        ∃ w, pressure a o (weights_of m id) (weights v) w m' ∧
          filter (.≠ id) (lst w rl' dl') = [])) ∧
    Forall (fun x => x.2 = Size ∨ x.2 = Disk_ ∨ x.1.1 = id) ws.
Proof.
  intros Ha Hid Hw. unfold insert_in.
  destruct (insert_replacing_ok o id v a m rl dl Ha Hid Hw)
    as (b & a1 & vs & ws & m1 & rl1 & dl1 & -> & Hins). cbn [mbind option_bind].
  destruct b; cbn [negb]; cycle 1.
  { destruct Hins as [Hev -> Hh He Hc [Ha1 Hcl] Hfull].
    exists false, a1, m1, rl1, dl1, vs. split; [done|]. rewrite app_nil_r.
    split; [eapply post_effects; [done|by split|done]|]. split; [by eapply evictions_covered|].
    split; [done|]. split; [intros _; split; [by eapply evictions_spared|by apply Hfull]|].
    by eapply evictions_causes. }
  assert (Hcs : Forall (fun x => x.2 = Size ∨ x.2 = Disk_ ∨ x.1.1 = id) ws).
  { destruct Hins as [Hev -> _ _ _ _ _]. apply Forall_app. split; [by eapply evictions_causes|].
    unfold replaced. destruct (m !! id); cbn; [|done]. apply Forall_singleton. auto. }
  pose proof (inserted_post _ _ _ _ _ _ _ _ _ _ _ _ _ Hins) as Hp. cbn zeta in Hp.
  edestruct (enforce_budgets_ok o id a1) as (a2 & vs2 & m2 & rl2 & dl2 & -> & [Hev2 Hef2 Ha2 Ht2]);
    [apply Hp|done|]. cbn [mbind option_bind].
  exists true, a2, m2, rl2, dl2, (ws ++ vs2). split; [done|].
  split; [eapply post_trans; [done|by eapply post_effects|done]|].
  split; [|split; [|split; [done|by apply Forall_app; split; [|eapply evictions_causes]]]].
  - intros Hc. eapply evictions_covered; [done|apply Hef2|by eapply inserted_covered].
  - intros _. split; [|split].
    + by rewrite (evictions_spared _ _ _ _ _ _ _ _ _ Hev2), lookup_insert_eq.
    + eapply evictions_head; [done|done].
    + intros w X. apply Ht2. by apply (over_target_caps a a1); [apply Hins|].
Qed.

(** ** Recency *)

Definition bump (b : bool) k l : list K := if b then k :: filter (.≠ k) l else l.

Lemma touch_holds w (s : Shard) m rl dl k :
  holds s m rl dl → k ∈ lst w rl dl →
  ∃ s', touch w k s = Some s' ∧ clock s' = clock s ∧ ram_used s' = ram_used s ∧
    disk_used s' = disk_used s ∧
    match w with
    | Ram => holds s' m (k :: filter (.≠ k) rl) dl
    | Disk => holds s' m rl (k :: filter (.≠ k) dl)
    end.
Proof.
  intros Hs Hk. destruct (touch_linked w s (lst w rl dl) k) as (s' & -> & F & L);
    [by destruct w; apply Hs|done|].
  exists s'. split; [done|]. pose proof (forget_bare _ _ _ F) as M.
  assert (Ho : linked (other w) s' (lst (other w) rl dl)).
  { eapply forget_linked_other; [done|]. by destruct w; apply Hs. }
  apply forget_fields in F as (_ & _ & _ & R & U & X & N). unfold clock. rewrite X, N.
  do 3 (split; [done|]). destruct Hs as [_ _ Hm Hrl Hdl Hw Hr Hu].
  assert (Hmem : ∀ l x, k ∈ l → x ∈ k :: filter (.≠ k) l ↔ x ∈ l).
  { intros l x Hkl. rewrite elem_of_cons, filter_ne_elem. destruct (decide (x = k)) as [->|]; tauto. }
  destruct w; cbn in *; (split; [done|done|congruence| | |done|congruence|congruence]);
    try done; intros x; by rewrite Hmem.
Qed.

Lemma acc_ok_shard o e (a a' : Access) s m rl dl rl' dl' :
  acc_ok o e a m rl dl → shard a' = s → global a' = global a →
  ram_used s = ram_used (shard a) → disk_used s = disk_used (shard a) → holds s m rl' dl' →
  acc_ok o e a' m rl' dl'.
Proof.
  intros [_ [? ? ? ? ?]] Hsh Hg Hr Hd Hs. split; rewrite Hsh; [done|].
  split; rewrite ?Hg, ?Hr, ?Hd; done.
Qed.

Lemma on_disk_elem (s : Shard) m rl dl k :
  holds s m rl dl → on_disk k s = bool_decide (k ∈ dl).
Proof.
  intros Hs. unfold on_disk. apply eq_bool_prop_intro. rewrite bool_decide_spec, (h_dl _ _ _ _ Hs).
  rewrite <-(h_map _ _ _ _ Hs), lookup_fmap. destruct (map s !! k) as [n|]; cbn.
  - rewrite Is_true_true, Z.ltb_lt. split; [intros; by exists (bare n)|by intros (? & [= <-] & ?)].
  - split; [done|by intros (? & ? & ?)].
Qed.

(** Both lists: what a hit does. *)
Lemma hit_ok (s : Shard) m rl dl k (b : bool) :
  holds s m rl dl → is_Some (m !! k) → b = bool_decide (k ∈ dl) →
  ∃ s1 s2, ram_touch k s = Some s1 ∧ on_disk k s1 = b ∧
    (if b then disk_touch k s1 else Some s1) = Some s2 ∧ clock s2 = clock s ∧
    ram_used s2 = ram_used s ∧ disk_used s2 = disk_used s ∧
    holds s2 m (k :: filter (.≠ k) rl) (bump b k dl).
Proof.
  intros Hs Hk ->. destruct (touch_holds Ram s m rl dl k Hs) as (s1 & E1 & C1 & R1 & U1 & H1).
  { cbn. by apply (h_rl _ _ _ _ Hs). }
  exists s1. cbn in H1. case_bool_decide as Hd.
  - destruct (touch_holds Disk s1 _ _ dl k H1) as (s2 & E2 & C2 & R2 & U2 & H2); [done|].
    exists s2. split; [done|]. split; [by rewrite (on_disk_elem _ _ _ _ _ H1), bool_decide_true|].
    split; [done|]. split_and!; [congruence..|done].
  - exists s1. split; [done|]. split; [by rewrite (on_disk_elem _ _ _ _ _ H1), bool_decide_false|].
    done.
Qed.

Lemma get_in_ok o now id a m rl dl :
  acc_ok o (0, 0) a m rl dl →
  ∃ r a' m' rl' dl' ws, get_in now id a = Some (r, a') ∧
    post o a a' (stored m) m' rl' dl' ws ∧ clock (shard a') = clock (shard a) ∧
    r = (v ← value <$> m !! id; if v_is_fresh v now then Some v else None) ∧
    (is_Some r → m' = m ∧ ws = [] ∧ rl' = id :: filter (.≠ id) rl ∧
       dl' = bump (bool_decide (id ∈ dl)) id dl) ∧
    (r = None → m' = delete id m).
Proof.
  intros Ha. pose proof (a_holds _ _ _ _ _ _ Ha) as Hs. unfold get_in.
  destruct (map (shard a) !! id) as [n|] eqn:Hn; cycle 1.
  { pose proof (proj1 (holds_absent _ _ _ _ _ Hs) Hn) as Hn'.
    exists None, a, m, rl, dl, []. split; [done|]. split; [by apply post_refl|].
    rewrite Hn'. split_and!; try done. intros _. by rewrite delete_id. }
  pose proof (holds_lookup_bare _ _ _ _ _ _ Hs Hn) as Hn'. rewrite Hn'. cbn [fmap option_fmap option_map mbind option_bind].
  change (value (bare n)) with (value n). destruct (v_is_fresh (value n) now) eqn:Hf; cbn [negb].
  - destruct (hit_ok (shard a) m rl dl id (0 <? disk_weight n) Hs)
      as (s1 & s2 & -> & _ & E2 & C2 & R2 & U2 & H2); [by eexists| |].
    { rewrite <-(on_disk_elem _ _ _ _ _ Hs). unfold on_disk. by rewrite Hn. }
    cbn [mbind option_bind]. rewrite E2. cbn [mbind option_bind].
    assert (Hd : bool_decide (id ∈ dl) = (0 <? disk_weight n)).
    { rewrite <-(on_disk_elem _ _ _ _ _ Hs). unfold on_disk. by rewrite Hn. }
    rewrite Hd. eexists _, _, m, _, _, []. split; [done|]. split; [|done].
    destruct (effects_nil a). split; try done; [|by rewrite app_nil_r].
    by eapply (acc_ok_shard o (0, 0) a).
  - destruct (teardown_post o a m rl dl id Expired Ha) as (a' & ws & -> & Hp & _ & Hc).
    cbn [mbind option_bind]. eexists _, _, _, _, _, ws. split; [done|]. split; [done|].
    by split_and!.
Qed.

(** The three recency bumps a wrapper can ask for. *)

Lemma bump_post o a s' m rl dl rl' dl' :
  acc_ok o (0, 0) a m rl dl → ram_used s' = ram_used (shard a) →
  disk_used s' = disk_used (shard a) → holds s' m rl' dl' →
  post o a (a <| shard := s' |>) (stored m) m rl' dl' [].
Proof.
  intros Ha Hr Hd Hs. destruct (effects_nil a). split; try done; [|by rewrite app_nil_r].
  by eapply (acc_ok_shard o (0, 0) a).
Qed.

Lemma contains_lookup o e a m rl dl k :
  acc_ok o e a m rl dl → contains k a = bool_decide (is_Some (m !! k)).
Proof.
  intros [Hs _]. unfold contains. apply bool_decide_ext.
  rewrite <-(h_map _ _ _ _ Hs), lookup_fmap. symmetry. apply fmap_is_Some.
Qed.

Lemma acc_touch_ok o a m rl dl k :
  acc_ok o (0, 0) a m rl dl →
  ∃ a' rl' dl', acc_touch k a = Some a' ∧ post o a a' (stored m) m rl' dl' [] ∧
    clock (shard a') = clock (shard a).
Proof.
  intros Ha. unfold acc_touch. rewrite (contains_lookup _ _ _ _ _ _ k Ha).
  case_bool_decide as Hk; cbn [negb]; [|exists a, rl, dl; eauto using post_refl].
  destruct (hit_ok (shard a) m rl dl k _ (a_holds _ _ _ _ _ _ Ha) Hk eq_refl)
    as (s1 & s2 & -> & Hd & E2 & C2 & R2 & U2 & H2).
  cbn [mbind option_bind]. rewrite Hd, E2. cbn [mbind option_bind].
  eexists _, _, _. split; [done|]. split; [by eapply bump_post|done].
Qed.

Lemma touch_ram_ok o a m rl dl k :
  acc_ok o (0, 0) a m rl dl →
  ∃ a' rl' dl', touch_ram k a = Some a' ∧ post o a a' (stored m) m rl' dl' [] ∧
    clock (shard a') = clock (shard a).
Proof.
  intros Ha. unfold touch_ram. rewrite (contains_lookup _ _ _ _ _ _ k Ha).
  case_bool_decide as Hk; cbn [negb]; [|exists a, rl, dl; eauto using post_refl].
  pose proof (a_holds _ _ _ _ _ _ Ha) as Hs.
  destruct (touch_holds Ram (shard a) m rl dl k Hs) as (s1 & E1 & C1 & R1 & U1 & H1).
  { by apply (h_rl _ _ _ _ Hs). }
  unfold ram_touch. rewrite E1. cbn [mbind option_bind].
  eexists _, _, _. split; [done|]. split; [by eapply bump_post|done].
Qed.

Lemma touch_disk_ok o a m rl dl k :
  acc_ok o (0, 0) a m rl dl →
  ∃ a' rl' dl', touch_disk k a = Some a' ∧ post o a a' (stored m) m rl' dl' [] ∧
    clock (shard a') = clock (shard a).
Proof.
  intros Ha. pose proof (a_holds _ _ _ _ _ _ Ha) as Hs. unfold touch_disk.
  rewrite (on_disk_elem _ _ _ _ k Hs).
  case_bool_decide as Hk; [|exists a, rl, dl; eauto using post_refl].
  destruct (touch_holds Disk (shard a) m rl dl k Hs) as (s1 & E1 & C1 & R1 & U1 & H1); [done|].
  unfold disk_touch. rewrite E1. cbn [mbind option_bind].
  eexists _, _, _. split; [done|]. split; [by eapply bump_post|done].
Qed.

End ops.
End cache_ops.
