(* ===== verification/ShardCacheMutate.v ===== *)
(** * In-place changes and bulk removal in a locked shard

    [mutate] and [reconcile_weights] change an entry where it is; the sweep of the deadline
    heap, [purge_if] and [clear] remove many. *)

From stdpp Require Import base list gmap.
From Stdlib Require Import ZArith Lia.
From S2P Require Import Prelude ShardLru ShardCache ShardCacheInv ShardCacheOps.

Import lru cache cache_inv cache_ops.
#[local] Open Scope record_scope.

Module cache_mutate.

Section mutate.
Context {K V : Type} `{Countable K} `{!ShardKey K} `{!CacheValue V}.
Implicit Types (id k p : K) (v : V) (m : gmap K (Node K V)) (rl dl l : list K).

Abbreviation Shard := (@lru.Shard K V _ _).
Abbreviation Access := (@cache.Access K V _ _).

Context (values_ok : ∀ v : V, weights_ok v).

(** ** The pieces of [mutate] *)

Lemma holds_value (s : Shard) m rl dl id n v :
  holds s m rl dl → map s !! id = Some n →
  holds (s <| map := <[id := n <| value := v |>]> (map s) |>)
    (<[id := (bare n) <| value := v |>]> m) rl dl.
Proof.
  intros Hs Hn. by apply (holds_same_weights s _ m rl dl id n (fun n => n <| value := v |>)).
Qed.

Lemma regenerate_ok (s : Shard) m rl dl id n deadline :
  holds s m rl dl → m !! id = Some n →
  let '(g, s1) := bump_gen s in
  let s2 := match map s1 !! id with
            | Some n => s1 <| map := <[id := n <| generation := g |>]> (map s1) |>
            | None => s1
            end in
  let s3 := push_deadline id deadline g s2 in
  g = u32 (next_gen s + 1) ∧ holds s3 (<[id := n <| generation := g |>]> m) rl dl ∧
  ram_used s3 = ram_used s ∧ disk_used s3 = disk_used s ∧
  clock s3 = (due_entry id deadline g ++ expiry s, g).
Proof.
  intros Hs Hn. cbn [bump_gen map set set_next_gen]. set (g := u32 _).
  destruct (holds_lookup _ _ _ _ _ _ Hs Hn) as (n' & Hn' & Hb). rewrite Hn'. cbn zeta.
  split; [done|]. rewrite <-Hb.
  split; [|by unfold push_deadline; destruct deadline].
  apply (holds_same_weights s _ m rl dl id n' (fun n => n <| generation := g |>)); try done.
  all: unfold push_deadline; destruct deadline; try done; intros []; done.
Qed.

Definition mutated (f : V → V * bool) id m : gmap K (Node K V) :=
  alter (fun n => n <| value := (f (value n)).1 |>) id m.

Lemma stored_same m id n n' :
  m !! id = Some n → value n' = value n → stored (<[id := n']> m) ≡ₚ stored m.
Proof. intros Hn Hv. by rewrite stored_insert, (stored_delete m id n Hn), Hv. Qed.

(** The reservation for a changed entry, and what follows it on either outcome. *)
Lemma settle_ok o id a m rl dl n :
  acc_ok o (0, 0) a m rl dl → m !! id = Some n → id ≠ nil_key →
  let w := weights (value n) in
  let reserve := reserve_replacing id (ram_weight n) (disk_weight n) w.1 w.2 a in
  (∃ a1 a2 m2 rl2 dl2 ws, reserve = Some (false, a1) ∧ teardown id Size a1 = Some a2 ∧
     post o a a2 (stored m) m2 rl2 dl2 ws ∧ m2 ⊆ m ∧ m2 !! id = None ∧
     clock (shard a2) = clock (shard a))
  ∨ (∃ P a1 s m1 rl1 dl1 vs, reserve = Some (true, a1) ∧
       reweigh id (ram_weight n) (disk_weight n) w.1 w.2 (shard a1) = Some s ∧
       clock s = clock (shard a) ∧ evictions P id m rl dl vs m1 rl1 dl1 ∧ effects a a1 vs ∧
       m1 !! id = Some n ∧ budget_ok o (0, 0) s (global a1) ∧
       holds s (<[id := set_weights w n]> m1) rl1 (redisk (disk_weight n) w.2 id dl1)).
Proof.
  intros Ha Hn Hid w reserve. destruct (values_ok (value n)) as [W1 W2].
  destruct (reserve_replacing_ok o w id a m rl dl)
    as (b & a1 & vs & m1 & rl1 & dl1 & E & [Hev Hef Hok _]); [done..|].
  unfold weights_of in *. rewrite Hn in *. cbn [from_option fst snd] in *.
  pose proof (evictions_spared _ _ _ _ _ _ _ _ _ Hev) as Hsp. rewrite Hn in Hsp. destruct b.
  - right. destruct (reweigh_ok o a1 m1 rl1 dl1 id n w) as (s & Es & Cs & Hb & Hs); [done..|].
    destruct Hef. eexists _, a1, s, m1, rl1, dl1, vs. split; [exact E|].
    split; [done|]. split; [congruence|]. by split_and!.
  - left. destruct (teardown_post o a1 m1 rl1 dl1 id Size Hok) as (a2 & ws & E2 & Hp & _ & Hc).
    eexists a1, a2, _, _, _, _. split; [exact E|]. split; [done|].
    split; [eapply post_trans; [by eapply post_effects|done|done]|].
    split; [etrans; [apply delete_subseteq|by eapply evictions_subseteq]|].
    split; [apply lookup_delete_eq|]. destruct Hef. congruence.
Qed.

Lemma covered_subseteq (s s' : Shard) m m' :
  m' ⊆ m → clock s' = clock s → covered s m → covered s' m'.
Proof.
  unfold clock, covered. intros Hm [= -> _] Hc k n d Hk. apply Hc. by eapply lookup_weaken.
Qed.

(** Enforcement after an entry was changed under a reservation. *)
Lemma settled_enforce o id p a a1 (a2 : Access) P m rl dl vs m1 rl1 dl1 n n' dl' :
  evictions P id m rl dl vs m1 rl1 dl1 → effects a a1 vs → m1 !! id = Some n →
  value n' = value n → p ≠ nil_key → global a2 = global a1 → hooks a2 = hooks a1 →
  evicted a2 = evicted a1 → caps a2 = caps a1 → budget_ok o (0, 0) (shard a2) (global a1) →
  holds (shard a2) (<[id := n']> m1) rl1 dl' →
  ∃ a' m' rl' dl'' ws, enforce_budgets p a2 = Some a' ∧
    post o a a' (stored m) m' rl' dl'' ws ∧ m' ⊆ <[id := n']> m1 ∧
    clock (shard a') = clock (shard a2) ∧ (p = id → m' !! id = Some n').
Proof.
  intros Hev [Hh He Hc Hp] Hn Hv Hpn Hg Hh2 He2 Hp2 Hb Hs.
  assert (Ha2 : acc_ok o (0, 0) a2 (<[id := n']> m1) rl1 dl') by (split; [done|by rewrite Hg]).
  destruct (enforce_budgets_ok o p a2 _ _ _ Ha2 Hpn)
    as (a' & ws & m' & rl' & dl'' & E & [Hev' Hef' Ha' _]).
  exists a', m', rl', dl'', (vs ++ ws). split; [done|].
  assert (Hpost : post o a a2 (stored m) (<[id := n']> m1) rl1 dl' vs).
  { split; [done|congruence..|].
    by rewrite (evictions_conserve _ _ _ _ _ _ _ _ _ Hev), (stored_same m1 id n n'). }
  split; [eapply post_trans; [done|by eapply post_effects|done]|].
  split; [by eapply evictions_subseteq|]. split; [by apply Hef'|].
  intros ->. by rewrite (evictions_spared _ _ _ _ _ _ _ _ _ Hev'), lookup_insert_eq.
Qed.

(** ** [mutate] *)

Lemma post_start o a1 a a' L m' rl' dl' ws :
  hooks a1 = hooks a → evicted a1 = evicted a → caps a1 = caps a →
  post o a1 a' L m' rl' dl' ws → post o a a' L m' rl' dl' ws.
Proof. intros Hh He Hc [? ? ? ? ?]. split; try done; congruence. Qed.

(** [a] holds the new value already; its weights and generation are the old ones. *)
Lemma commit_ok o id a m rl dl n :
  acc_ok o (0, 0) a m rl dl → m !! id = Some n → id ≠ nil_key →
  ∃ b a' m' rl' dl' ws, commit id (ram_weight n) (disk_weight n) (value n) a = Some (b, a') ∧
    post o a a' (stored m) m' rl' dl' ws ∧
    (covered (shard a) (delete id m) → covered (shard a') m') ∧
    (b = true → value <$> m' !! id = Some (value n)).
Proof.
  intros Ha Hn Hid. unfold commit.
  destruct (settle_ok o id a m rl dl n Ha Hn Hid) as
    [(a2 & a3 & m2 & rl2 & dl2 & ws & E & E2 & Hp & Hsub & Hno & Hc)
    |(P & a2 & s & m2 & rl2 & dl2 & vs & E & E2 & Cs & Hev & Hef & Hn2 & Hb2 & Hs2)];
    cbn [weights fst snd] in E, E2; rewrite E; cbn [mbind option_bind negb];
    rewrite E2; cbn [mbind option_bind].
  { exists false, a3, m2, rl2, dl2, ws. split; [done|]. split; [done|]. split; [|done].
    apply covered_subseteq; [|done]. rewrite <-(delete_id m2 id) by done. by apply delete_mono. }
  pose proof (regenerate_ok s _ _ _ id (set_weights (weights (value n)) n) (v_deadline (value n)) Hs2
    (lookup_insert_eq _ _ _)) as Hr.
  destruct (bump_gen s) as [g s1] eqn:Hg. cbn zeta in Hr. destruct Hr as (_ & Hs3 & R3 & U3 & C3).
  rewrite insert_insert_eq in Hs3. cbn [mbind option_bind]. set (s3 := push_deadline _ _ _ _) in *.
  destruct (settled_enforce o id id a a2 (a2 <| shard := s3 |>) P m rl dl vs m2 rl2 dl2 n
    ((set_weights (weights (value n)) n) <| generation := g |>)
    (redisk (disk_weight n) (weights (value n)).2 id dl2))
    as (a' & m' & rl' & dl' & ws & -> & Hp & Hsub & Hc & Hv); [done..| |exact Hs3|].
  { destruct Hb2. split; cbn [shard set set_shard]; rewrite ?R3, ?U3; done. }
  cbn [mbind option_bind]. exists true, a', m', rl', dl', ws. split; [done|]. split; [done|].
  split; [|intros _; by rewrite Hv].
  intros Hcov k n' d Hk Hd. eapply lookup_weaken in Hk; [|exact Hsub].
  unfold clock in *. cbn [shard set set_shard] in Hc. rewrite C3 in Hc. injection Hc as -> _.
  apply elem_of_app. apply lookup_insert_Some in Hk as [[-> <-]|[Hne Hk]].
  - left. cbn in *. rewrite Hd. cbn. set_solver +.
  - right. injection Cs as -> _. apply Hcov; [|done]. rewrite lookup_delete_ne by done.
    eapply lookup_weaken; [done|]. by eapply evictions_subseteq.
Qed.

Lemma mutate_ok o id f a m rl dl :
  acc_ok o (0, 0) a m rl dl → id ≠ nil_key →
  ∃ b a' m' rl' dl' ws, mutate id f a = Some (b, a') ∧
    post o a a' (stored (mutated f id m)) m' rl' dl' ws ∧
    ((∀ v, (f v).2 = false → v_deadline (f v).1 = v_deadline v) →
     covered (shard a) m → covered (shard a') m') ∧
    (b = true → ∃ n, m !! id = Some n ∧ (f (value n)).2 = true ∧
       value <$> m' !! id = Some (f (value n)).1).
Proof.
  intros Ha Hid. pose proof (a_holds _ _ _ _ _ _ Ha) as Hs. unfold mutate.
  destruct (map (shard a) !! id) as [n0|] eqn:Hn0; cycle 1.
  { pose proof (proj1 (holds_absent _ _ _ _ _ Hs) Hn0) as Hn. exists false, a, m, rl, dl, [].
    split; [done|]. unfold mutated. rewrite alter_id by (by rewrite Hn).
    split; [by apply post_refl|done]. }
  pose proof (holds_lookup_bare _ _ _ _ _ _ Hs Hn0) as Hn. set (n := bare n0) in *.
  change (value n0) with (value n). change (ram_weight n0) with (ram_weight n).
  change (disk_weight n0) with (disk_weight n).
  assert (Hmut : mutated f id m = <[id := n <| value := (f (value n)).1 |>]> m).
  { unfold mutated. by rewrite (alter_alt_Some _ m id n Hn). }
  rewrite Hmut. destruct (f (value n)) as [v b] eqn:Hf. cbn [fst].
  set (s1 := _ <| map := _ |>). set (a1 := a <| shard := s1 |>).
  set (n1 := n <| value := v |>). set (m1 := <[id := n1]> m).
  assert (Ha1 : acc_ok o (0, 0) a1 m1 rl dl).
  { destruct Ha as [_ [? ? ? ? ?]]. split; [by apply holds_value|by split]. }
  assert (Hm1 : m1 !! id = Some n1) by apply lookup_insert_eq.
  destruct b; cbn [negb]; cycle 1.
  { exists false, a1, m1, rl, dl, []. split; [done|].
    split; [by apply (post_start _ a1 a), post_refl|]. split; [|done].
    intros Hk Hc k n' d Hn' Hd. apply lookup_insert_Some in Hn' as [[-> <-]|[_ Hn']].
    - apply (Hc _ n d Hn). cbn in Hd. specialize (Hk (value n)). rewrite Hf in Hk.
      by rewrite <-(Hk eq_refl).
    - by apply (Hc k n' d). }
  replace (map (shard a1) !! id) with (Some (n0 <| value := v |>))
    by (unfold a1, s1; cbn [shard map set set_shard set_map]; by rewrite lookup_insert_eq).
  cbn [mbind option_bind]. destruct (commit_ok o id a1 m1 rl dl n1 Ha1 Hm1 Hid)
    as (b & a' & m' & rl' & dl' & ws & E & Hp & Hc & Hv).
  exists b, a', m', rl', dl', ws. split; [exact E|]. split; [by apply (post_start _ a1 a)|].
  split; [|intros Hb; exists n; rewrite Hf; auto].
  intros _ Hcov. apply Hc. unfold m1. rewrite delete_insert_eq.
  eapply (covered_subseteq (shard a)); [apply delete_subseteq|done|done].
Qed.

Lemma reconcile_weights_ok o id p a m rl dl :
  acc_ok o (0, 0) a m rl dl → id ≠ nil_key → p ≠ nil_key →
  ∃ b a' m' rl' dl' ws, reconcile_weights id p a = Some (b, a') ∧
    post o a a' (stored m) m' rl' dl' ws ∧ (covered (shard a) m → covered (shard a') m') ∧
    (b = true → p = id → value <$> m' !! id = value <$> m !! id).
Proof.
  intros Ha Hid Hp. pose proof (a_holds _ _ _ _ _ _ Ha) as Hs. unfold reconcile_weights.
  destruct (map (shard a) !! id) as [n0|] eqn:Hn0; cycle 1.
  { exists false, a, m, rl, dl, []. split; [done|]. split; [by apply post_refl|by split]. }
  pose proof (holds_lookup_bare _ _ _ _ _ _ Hs Hn0) as Hn.
  change (value n0) with (value (bare n0)). change (ram_weight n0) with (ram_weight (bare n0)).
  change (disk_weight n0) with (disk_weight (bare n0)).
  destruct (settle_ok o id a m rl dl (bare n0) Ha Hn Hid) as
    [(a2 & a3 & m2 & rl2 & dl2 & ws & E & E2 & Hpo & Hsub & Hno & Hc)
    |(P & a2 & s & m2 & rl2 & dl2 & vs & E & E2 & Cs & Hev & Hef & Hn2 & Hb2 & Hs2)];
    cbn [weights fst snd] in E, E2; rewrite E; cbn [mbind option_bind negb];
    rewrite E2; cbn [mbind option_bind].
  { exists false, a3, m2, rl2, dl2, ws. split; [done|]. split; [done|].
    split; [by apply covered_subseteq|done]. }
  destruct (settled_enforce o id p a a2 (a2 <| shard := s |>) P m rl dl vs m2 rl2 dl2 (bare n0)
    (set_weights (weights (value (bare n0))) (bare n0))
    (redisk (disk_weight (bare n0)) (weights (value (bare n0))).2 id dl2))
    as (a' & m' & rl' & dl' & ws & -> & Hpo & Hsub & Hc & Hkept); [done..|].
  cbn [mbind option_bind]. exists true, a', m', rl', dl', ws. split; [done|]. split; [done|].
  split; [|intros _ ->; by rewrite Hkept, Hn].
  intros Hcov k n' d Hk Hd. eapply lookup_weaken in Hk; [|exact Hsub].
  unfold clock in *. cbn [shard set set_shard] in Hc. rewrite Cs in Hc. injection Hc as -> _.
  apply lookup_insert_Some in Hk as [[-> <-]|[Hne Hk]].
  - by apply (Hcov _ (bare n0) d).
  - apply Hcov; [|done]. eapply lookup_weaken; [done|]. by eapply evictions_subseteq.
Qed.

End mutate.

Section removal.
Context {K V : Type} `{Countable K} `{!ShardKey K} `{!CacheValue V}.
Implicit Types (id k p : K) (v : V) (m : gmap K (Node K V)) (rl dl l : list K).

Abbreviation Shard := (@lru.Shard K V _ _).
Abbreviation Access := (@cache.Access K V _ _).

(** ** The deadline heap *)

Lemma pop_None (h : list (DeadlineEntry K)) : pop h = None → h = [].
Proof. destruct h as [|e h]; cbn; [done|]. destruct (pop h) as [[? ?]|]; [by case_match|done]. Qed.

Lemma pop_Some (h h' : list (DeadlineEntry K)) e :
  pop h = Some (e, h') → h ≡ₚ e :: h' ∧ ∀ x, x ∈ h' → e_deadline e <= e_deadline x.
Proof.
  revert e h'. induction h as [|y h IH]; intros e h' Hp; cbn in Hp; [done|].
  destruct (pop h) as [[z t]|] eqn:E; cycle 1.
  { injection Hp as <- <-. apply pop_None in E as ->. split; [done|]. intros x Hx. set_solver. }
  destruct (IH z t eq_refl) as [Hperm Hle]. unfold entry_le in Hp.
  destruct (_ || _) eqn:Hc; injection Hp as <- <-.
  - split; [done|]. intros x Hx. rewrite Hperm, elem_of_cons in Hx.
    assert (e_deadline y <= e_deadline z).
    { apply orb_true_iff in Hc as [?%Z.ltb_lt|[?%Z.eqb_eq _]%andb_true_iff]; lia. }
    destruct Hx as [->|Hx%Hle]; lia.
  - rewrite Hperm. split; [apply Permutation_swap|]. intros x [->|Hx]%elem_of_cons; [|auto].
    apply orb_false_iff in Hc as [?%Z.ltb_ge _]. lia.
Qed.

(** An entry the heap says is over at [now]. *)
Definition due (now : Z) (h : list (DeadlineEntry K)) k (n : Node K V) : Prop :=
  v_is_fresh (value n) now = false ∧
  ∃ e, e ∈ h ∧ e_key e = k ∧ e_generation e = generation n ∧ e_deadline e <= now.

Lemma due_cons now e h h' k n :
  h ≡ₚ e :: h' → e_deadline e <= now →
  due now h k n ↔
    (v_is_fresh (value n) now = false ∧ e_key e = k ∧ e_generation e = generation n)
    ∨ due now h' k n.
Proof.
  intros Hp He. unfold due. setoid_rewrite Hp. setoid_rewrite elem_of_cons. split.
  - intros (Hf & x & [->|Hx] & ? & ? & ?); [by left|]. right. eauto 10.
  - intros [(? & ? & ?)|(? & x & ? & ? & ? & ?)]; eauto 10.
Qed.

Record swept_to (o : Z * Z) (now swept : Z) (a : Access) m (swept' : Z) (a' : Access) m' rl' dl'
    (ws : list victim) : Prop := {
  sw_post : post o a a' (stored m) m' rl' dl' ws;
  sw_kept : ∀ k n, m' !! k = Some n ↔ m !! k = Some n ∧ ¬ due now (expiry (shard a)) k n;
  sw_heap : ∀ e, e ∈ expiry (shard a') ↔ e ∈ expiry (shard a) ∧ now < e_deadline e;
  sw_count : swept' = u64 (swept + zlen ws);
  sw_cause : Forall (fun w => w.2 = Expired) ws;
}.

Lemma sweep_stop o now swept a m rl dl :
  acc_ok o (0, 0) a m rl dl → 0 <= swept < 2 ^ 64 →
  (∀ e, e ∈ expiry (shard a) → now < e_deadline e) →
  swept_to o now swept a m swept a m rl dl [].
Proof.
  intros Ha Hsw Hall. split; [by apply post_refl| | | |done].
  - intros k n. split; [|tauto]. intros Hk. split; [done|]. intros (_ & e & He & _ & _ & Hd).
    specialize (Hall e He). lia.
  - intros e. split; [|tauto]. auto.
  - change (zlen (@nil victim)) with 0. rewrite Z.add_0_r. symmetry. by apply wrap_id.
Qed.

Lemma sweep_skip o now swept a (a1 : Access) m top rest swept' a' m' rl' dl' ws :
  expiry (shard a) ≡ₚ top :: rest → e_deadline top <= now →
  hooks a1 = hooks a → evicted a1 = evicted a → caps a1 = caps a → expiry (shard a1) = rest →
  (∀ n, m !! e_key top = Some n →
     ¬ (e_generation top = generation n ∧ v_is_fresh (value n) now = false)) →
  swept_to o now swept a1 m swept' a' m' rl' dl' ws →
  swept_to o now swept a m swept' a' m' rl' dl' ws.
Proof.
  intros Hp Hd Hh He Hc Hr Hno [Hpo Hk Hx Hs Hca]. split; [by eapply post_start|..|done|done].
  - intros k n. rewrite Hk, (due_cons _ _ _ _ _ _ Hp Hd), Hr. split; [|tauto].
    intros [Hm Hn]. split; [done|]. intros [(? & <- & ?)|?]; [|done]. by apply (Hno n Hm).
  - intros e. rewrite Hx, Hr, Hp, elem_of_cons. split; [tauto|]. intros [[->|?] ?]; [lia|done].
Qed.

Lemma sweep_take o now swept a (a1 a2 : Access) m top rest n swept' a' m' rl' dl' rl1 dl1 ws :
  expiry (shard a) ≡ₚ top :: rest → e_deadline top <= now → m !! e_key top = Some n →
  e_generation top = generation n → v_is_fresh (value n) now = false →
  hooks a1 = hooks a → evicted a1 = evicted a → caps a1 = caps a →
  post o a1 a2 (stored m) (delete (e_key top) m) rl1 dl1 [(e_key top, value n, Expired)] →
  expiry (shard a2) = rest →
  swept_to o now (u64 (swept + 1)) a2 (delete (e_key top) m) swept' a' m' rl' dl' ws →
  swept_to o now swept a m swept' a' m' rl' dl' ((e_key top, value n, Expired) :: ws).
Proof.
  intros Hp Hd Hn Hg Hf Hh He Hc Hpo1 Hr [Hpo Hk Hx Hs Hca].
  split; [|..|by constructor].
  - eapply post_start; [done..|]. apply (post_trans _ _ _ _ _ _ _ _ _ _ _ _ _ _ Hpo1 Hpo). done.
  - intros k n'. rewrite Hk, lookup_delete_Some, (due_cons _ _ _ _ _ _ Hp Hd), Hr. split.
    + intros [[? ?] ?]. split; [done|]. intros [(_ & ? & _)|?]; done.
    + intros [Hm Hnd]. split; [|tauto]. split; [|done]. intros <-. apply Hnd. left.
      rewrite Hn in Hm. injection Hm as <-. done.
  - intros e. rewrite Hx, Hr, Hp, elem_of_cons. split; [tauto|]. intros [[->|?] ?]; [lia|done].
  - rewrite Hs, zlen_cons. unfold wrap. rewrite Z.add_mod_idemp_l by lia. f_equal. lia.
Qed.

Lemma sweep_loop_ok o now fuel swept a m rl dl :
  acc_ok o (0, 0) a m rl dl → (length (expiry (shard a)) ≤ fuel)%nat → 0 <= swept < 2 ^ 64 →
  ∃ swept' a' m' rl' dl' ws, sweep_loop fuel now swept a = Some (swept', a') ∧
    swept_to o now swept a m swept' a' m' rl' dl' ws.
Proof.
  revert swept a m rl dl. induction fuel as [|fuel IH]; intros swept a m rl dl Ha Hlen Hsw.
  { destruct (expiry (shard a)) eqn:E; cbn in Hlen; [|lia]. cbn. rewrite E. cbn.
    eexists swept, a, m, rl, dl, []. split; [done|]. apply sweep_stop; [done..|].
    rewrite E. intros e He. set_solver. }
  cbn [sweep_loop]. destruct (pop (expiry (shard a))) as [[top rest]|] eqn:Hpop; cycle 1.
  { apply pop_None in Hpop. eexists swept, a, m, rl, dl, []. split; [done|].
    apply sweep_stop; [done..|]. rewrite Hpop. intros e He. set_solver. }
  apply pop_Some in Hpop as [Hperm Hmin]. destruct (Z.ltb_spec now (e_deadline top)) as [Hlt|Hle].
  { eexists swept, a, m, rl, dl, []. split; [done|]. apply sweep_stop; [done..|].
    intros e. rewrite Hperm. intros [->|He%Hmin]%elem_of_cons; lia. }
  set (s1 := _ <| expiry := rest |>). set (a1 := a <| shard := s1 |>).
  assert (Hrest : (length rest ≤ fuel)%nat) by (rewrite Hperm in Hlen; cbn in Hlen; lia).
  pose proof (a_holds _ _ _ _ _ _ Ha) as Hs.
  assert (Ha1 : acc_ok o (0, 0) a1 m rl dl).
  { eapply (acc_ok_shard _ _ a); [done..|]. destruct Hs as [Hr Hd ? ? ? ? ? ?].
    split; try done; [by apply (linked_fields Ram (shard a))|by apply (linked_fields Disk (shard a))]. }
  change (map (shard a1)) with (map (shard a)).
  destruct (from_option _ _ _) eqn:Hdue.
  - destruct (map (shard a) !! e_key top) as [n0|] eqn:Hn0; cbn in Hdue; [|done].
    apply andb_true_iff in Hdue as [Hg%Z.eqb_eq Hf%negb_true_iff].
    pose proof (holds_lookup_bare _ _ _ _ _ _ Hs Hn0) as Hn.
    destruct (teardown_post o a1 m rl dl (e_key top) Expired Ha1) as (a2 & ws & -> & Hpo & Hws & Hc).
    rewrite Hn in Hws. cbn in Hws. subst ws. cbn [mbind option_bind].
    assert (Hx2 : expiry (shard a2) = rest) by (unfold clock in Hc; by injection Hc as -> _).
    edestruct (IH (u64 (swept + 1)) a2) as (swept' & a' & m' & rl' & dl' & ws & -> & Hsw');
      [apply Hpo|by rewrite Hx2|by apply (wrap_range 64)|].
    eexists swept', a', m', rl', dl', _. split; [done|].
    by eapply (sweep_take o now swept a a1 a2 m top rest (bare n0)).
  - destruct (IH swept a1 m rl dl) as (swept' & a' & m' & rl' & dl' & ws & -> & Hsw'); [done..|].
    eexists swept', a', m', rl', dl', ws. split; [done|].
    eapply (sweep_skip o now swept a a1); [done..| |done].
    intros n Hn [Hg Hf]. destruct (holds_lookup _ _ _ _ _ _ Hs Hn) as (n' & Hn' & <-).
    rewrite Hn' in Hdue. cbn in Hdue. change (generation (bare n')) with (generation n') in Hg.
    change (value (bare n')) with (value n') in Hf.
    by rewrite Hf, Hg, Z.eqb_refl in Hdue.
Qed.

(** Where values are dead from their deadline on, nothing that is over stays. *)
Lemma swept_covered o now swept a m swept' a' m' rl' dl' ws :
  swept_to o now swept a m swept' a' m' rl' dl' ws →
  (∀ (v : V) d t, v_deadline v = Some d → d <= t → v_is_fresh v t = false) →
  covered (shard a) m →
  covered (shard a') m' ∧
  ∀ k n d, m' !! k = Some n → v_deadline (value n) = Some d → now < d.
Proof.
  intros [_ Hk Hx _ _] Hlaw Hc.
  assert (Hlate : ∀ k n d, m' !! k = Some n → v_deadline (value n) = Some d → now < d).
  { intros k n d [Hm Hnd]%Hk Hd. destruct (Z.ltb_spec now d) as [|Hle]; [done|]. exfalso.
    apply Hnd. split; [by eapply Hlaw|]. eexists. split; [by eapply Hc|]. done. }
  split; [|done]. intros k n d Hm Hd. apply Hx. split; [|by eapply Hlate].
  apply Hk in Hm as [Hm _]. by apply Hc.
Qed.

(** ** Bulk removal *)

Lemma teardown_all_ok o ids c a m rl dl :
  acc_ok o (0, 0) a m rl dl →
  ∃ a' m' rl' dl' ws, teardown_all ids c a = Some a' ∧ post o a a' (stored m) m' rl' dl' ws ∧
    (∀ k n, m' !! k = Some n ↔ m !! k = Some n ∧ k ∉ ids) ∧
    clock (shard a') = clock (shard a).
Proof.
  revert a m rl dl. induction ids as [|id ids IH]; intros a m rl dl Ha; cbn [teardown_all].
  { exists a, m, rl, dl, []. split; [done|]. split; [by apply post_refl|]. split; [|done].
    set_solver. }
  destruct (teardown_post o a m rl dl id c Ha) as (a1 & ws & -> & Hp & _ & Hc).
  cbn [mbind option_bind].
  destruct (IH a1 _ _ _ (po_ok _ _ _ _ _ _ _ _ Hp)) as (a' & m' & rl' & dl' & ws' & -> & Hp' & Hm & Hc').
  eexists a', m', rl', dl', _. split; [done|]. split; [by eapply post_trans|].
  split; [|congruence]. intros k n. rewrite Hm, lookup_delete_Some, not_elem_of_cons.
  clear. intuition congruence.
Qed.

Lemma purge_in_ok o pred a m rl dl :
  acc_ok o (0, 0) a m rl dl →
  ∃ a' m' rl' dl' ws, purge_in pred a = Some a' ∧ post o a a' (stored m) m' rl' dl' ws ∧
    (∀ k n, m' !! k = Some n ↔ m !! k = Some n ∧ pred k (value n) = false) ∧
    clock (shard a') = clock (shard a).
Proof.
  intros Ha. pose proof (a_holds _ _ _ _ _ _ Ha) as Hs. unfold purge_in.
  destruct (teardown_all_ok o ((filter (fun kn : K * Node K V => Is_true (pred kn.1 (value kn.2)))
    (map_to_list (map (shard a)))).*1) Explicit a m rl dl Ha)
    as (a' & m' & rl' & dl' & ws & E & Hp & Hm & Hc).
  exists a', m', rl', dl', ws. split; [done|]. split; [done|]. split; [|done].
  intros k n. rewrite Hm, <-not_true_iff_false.
  enough (Hiff : m !! k = Some n →
    k ∈ (filter (fun kn : K * Node K V => Is_true (pred kn.1 (value kn.2)))
           (map_to_list (map (shard a)))).*1 ↔ pred k (value n) = true)
    by (split; intros [Hk Hp']; (split; [done|]); contradict Hp'; by apply Hiff).
  intros Hk. destruct (holds_lookup _ _ _ _ _ _ Hs Hk) as (n' & Hn' & <-).
  change (value (bare n')) with (value n'). rewrite <-Is_true_true. split.
  - intros ([k1 n1] & -> & [Hp1 Hin%elem_of_map_to_list]%list_elem_of_filter)%list_elem_of_fmap.
    cbn in *. by rewrite Hn' in Hin; injection Hin as <-.
  - intros Hpk. apply list_elem_of_fmap. exists (k, n'). split; [done|].
    apply list_elem_of_filter. split; [done|]. by apply elem_of_map_to_list.
Qed.

Lemma linked_nil w (s : Shard) :
  head_of w s = nil_key → tail_of w s = nil_key → linked w s [].
Proof. intros Hh Ht. split; try done; [apply NoDup_nil_2|set_solver +]. Qed.

Lemma clear_in_ok o a m rl dl :
  acc_ok o (0, 0) a m rl dl → evicted a = false →
  ∃ a' ws, clear_in a = Some a' ∧ post o a a' (stored m) ∅ [] [] ws ∧ expiry (shard a') = [].
Proof.
  intros [Hs [[? ?] Hr Hd Hrc Hdc]] He. unfold clear_in.
  set (ws := (fun kn : K * Node K V => (kn.1, value kn.2, Explicit)) <$> map_to_list (map (shard a))).
  eexists _, ws. split; [done|]. split; [|done]. pose proof (sum_ram_nonneg _ _ _ _ Hs).
  split.
  - split.
    + split; try (by apply linked_nil); try done; cbn.
      * intros k. rewrite lookup_empty. split; [set_solver +|by intros []].
      * intros k. setoid_rewrite lookup_empty. split; [set_solver +|by intros (? & ? & ?)].
    + cbn in *. split; cbn; unfold saturating_sub; lia.
  - cbn [hooks set set_shard set_global set_hooks set_evicted]. f_equal. unfold ws.
    rewrite <-list_fmap_compose. done.
  - cbn [evicted set set_shard set_global set_hooks set_evicted]. rewrite He. unfold ws.
    by destruct (map_to_list (map (shard a))).
  - done.
  - unfold stored at 2. rewrite map_to_list_empty. cbn. unfold stored, ws.
    rewrite <-(h_map _ _ _ _ Hs), map_to_list_fmap, <-!list_fmap_compose.
    apply Permutation_refl'. apply list_fmap_ext. by intros ? [].
Qed.

End removal.
End cache_mutate.
