(* ===== verification/ShardCacheStore.v ===== *)
(** * The store as a whole

    [cache_ok] is the invariant of a [ShardedCache]: every shard is well linked and
    accounted for, a key is only in the shard its hash selects, and the global budget is the
    sum of what the shards hold and within its caps. Every operation keeps it. *)

From stdpp Require Import base list gmap.
From Stdlib Require Import ZArith Lia.
From S2P Require Import Prelude ShardLru ShardCache ShardCacheInv ShardCacheOps.
From S2P Require Import ShardCacheMutate.

Import lru cache cache_inv cache_ops cache_mutate.
#[local] Open Scope record_scope.

Module cache_store.

Section sums.
Context {A : Type}.

Fixpoint zsum (f : A → Z) (l : list A) : Z :=
  match l with
  | [] => 0
  | x :: l => f x + zsum f l
  end.

Lemma zsum_app f l k : zsum f (l ++ k) = zsum f l + zsum f k.
Proof. induction l as [|x l IH]; cbn; [done|]. rewrite IH. lia. Qed.

Lemma zsum_insert f l i x y :
  l !! i = Some x → zsum f (<[i := y]> l) = zsum f l - f x + f y.
Proof.
  revert i. induction l as [|z l IH]; intros [|i] Hi; [done..| |].
  - injection Hi as ->. cbn. lia.
  - change (<[S i := y]> (z :: l)) with (z :: <[i := y]> l). cbn [zsum]. rewrite (IH i Hi). lia.
Qed.

Lemma zsum_nonneg f l : (∀ x, x ∈ l → 0 <= f x) → 0 <= zsum f l.
Proof.
  induction l as [|x l IH]; intros Hf; cbn; [lia|].
  assert (0 <= f x) by (apply Hf; set_solver +).
  assert (0 <= zsum f l) by (apply IH; intros; apply Hf; set_solver). lia.
Qed.

Lemma zsum_ge f l i x : (∀ x, x ∈ l → 0 <= f x) → l !! i = Some x → f x <= zsum f l.
Proof.
  intros Hf. revert i. induction l as [|z l IH]; intros [|i] Hi; cbn in *; [done..| |].
  - injection Hi as ->. pose proof (zsum_nonneg f l) as Hn.
    enough (0 <= zsum f l) by lia. apply Hn. intros. apply Hf. set_solver.
  - assert (0 <= f z) by (apply Hf; set_solver +).
    enough (f x <= zsum f l) by lia. apply (IH ltac:(intros; apply Hf; set_solver) i Hi).
Qed.

End sums.

Section store.
Context {K V : Type} `{Countable K} `{!ShardKey K} `{!CacheValue V}.
Implicit Types (id k p : K) (v : V) (m : gmap K (Node K V)) (rl dl l : list K).

Abbreviation Shard := (@lru.Shard K V _ _).
Abbreviation Access := (@cache.Access K V _ _).
Abbreviation Cache := (@cache.Cache K V _ _).

Definition contents (s : Shard) : gmap K (Node K V) := bare <$> map s.

Record cache_ok (c : Cache) : Prop := {
  c_len : length (shards c) = Z.to_nat SHARDS;
  c_holds : ∀ i s, shards c !! i = Some s → ∃ rl dl, holds s (contents s) rl dl;
  c_home : ∀ i s k, shards c !! i = Some s → is_Some (map s !! k) → shard_for k = i;
  c_ram : g_ram_used (global_budget c) = zsum ram_used (shards c);
  c_disk : g_disk_used (global_budget c) = zsum disk_used (shards c);
  c_ram_cap : g_ram_used (global_budget c) <= ram_max (global_budget c) <= U64_MAX;
  c_disk_cap : g_disk_used (global_budget c) <= disk_max (global_budget c) <= U64_MAX;
}.

(** What the other shards hold. *)
Definition others (c : Cache) (s : Shard) : Z * Z :=
  (zsum ram_used (shards c) - ram_used s, zsum disk_used (shards c) - disk_used s).

Lemma c_used_nonneg c s : cache_ok c → s ∈ shards c → 0 <= ram_used s ∧ 0 <= disk_used s.
Proof.
  intros Hc [i Hi]%list_elem_of_lookup. destruct (c_holds _ Hc i s Hi) as (rl & dl & Hs).
  by eapply sum_ram_nonneg.
Qed.

Lemma enter_ok c i s :
  cache_ok c → shards c !! i = Some s →
  ∃ rl dl, acc_ok (others c s) (0, 0) (enter c s) (contents s) rl dl.
Proof.
  intros Hc Hi. destruct (c_holds _ Hc i s Hi) as (rl & dl & Hs). exists rl, dl.
  split; [done|]. pose proof Hc as [_ _ _ Hr Hd Hrc Hdc].
  pose proof (zsum_ge ram_used (shards c) i s) as Gr.
  pose proof (zsum_ge disk_used (shards c) i s) as Gd.
  assert (Hn : ∀ x, x ∈ shards c → 0 <= ram_used x ∧ 0 <= disk_used x) by (intros; by eapply c_used_nonneg).
  split; cbn; try lia. split.
  - enough (ram_used s <= zsum ram_used (shards c)) by lia. apply Gr; [|done]. intros. by apply Hn.
  - enough (disk_used s <= zsum disk_used (shards c)) by lia. apply Gd; [|done]. intros. by apply Hn.
Qed.

(** The entries of the store change by what the shard gains and loses. *)
Lemma stored_contents (s : Shard) : stored (contents s) ≡ₚ stored (map s).
Proof.
  unfold stored, contents. rewrite map_to_list_fmap, <-list_fmap_compose.
  apply Permutation_refl', list_fmap_ext. by intros ? [].
Qed.

Lemma for_each_insert (ss : list Shard) i s s' :
  ss !! i = Some s →
  (s ← ss; stored (map s)) ++ stored (map s') ≡ₚ (s ← <[i := s']> ss; stored (map s)) ++ stored (map s).
Proof.
  revert i. induction ss as [|t ss IH]; intros [|i] Hi; [done..| |].
  - injection Hi as ->. cbn. rewrite (Permutation_app_comm _ (stored (map s'))).
    rewrite <-app_assoc. f_equiv. apply Permutation_app_comm.
  - change (<[S i := s']> (t :: ss)) with (t :: <[i := s']> ss).
    cbn [mbind list_bind]. rewrite <-!app_assoc. f_equiv. by apply IH.
Qed.

(** ** Leaving a shard *)

Definition notice (ws : list victim) : list (Hook K V) :=
  (hook_of <$> ws) ++ (if bool_decide (ws = []) then [] else [after_unlock]).

(** Every deadline is in the heap of its shard. *)
Definition cache_covered (c : Cache) : Prop :=
  ∀ i s, shards c !! i = Some s → covered s (contents s).

(** [wss] are the victims of the locked sections, one after the other; [D] is what the
    deadlines need. *)
Record section_ok (D : Prop) (c c' : Cache) (gained lost : list (K * V)) (wss : list (list victim))
    : Prop := {
  se_ok : cache_ok c';
  se_log : log c' = log c ++ (wss ≫= notice);
  se_conserve : for_each c ++ gained ≡ₚ for_each c' ++ lost ++ (mjoin wss).*1;
  se_caps : ram_max (global_budget c') = ram_max (global_budget c) ∧
    disk_max (global_budget c') = disk_max (global_budget c);
  se_covered : D → cache_covered c → cache_covered c';
}.

Lemma stored_key m k v : (k, v) ∈ stored m ↔ ∃ n, m !! k = Some n ∧ value n = v.
Proof.
  unfold stored. rewrite list_elem_of_fmap. split.
  - intros ([k' n] & [= -> ->] & Hin%elem_of_map_to_list). eauto.
  - intros (n & Hn & <-). exists (k, n). split; [done|]. by apply elem_of_map_to_list.
Qed.

Lemma leave_acc_ok c i s a' m' rl' dl' :
  cache_ok c → shards c !! i = Some s → acc_ok (others c s) (0, 0) a' m' rl' dl' →
  (∀ k, is_Some (m' !! k) → shard_for k = i) → cache_ok (leave c i a').
Proof.
  intros Hc Hi [Hs [_ Hbr Hbd Hbrc Hbdc]] Hhome.
  assert (Hm : contents (shard a') = m') by apply Hs.
  pose proof (lookup_lt_Some _ _ _ Hi) as Hlt. unfold others in *. cbn in Hbr, Hbd.
  split; cbn [leave shards global_budget]; [..|done|done].
  - rewrite length_insert. apply Hc.
  - intros j t Hj. apply list_lookup_insert_Some in Hj as [(-> & <- & _)|[_ Hj]].
    + rewrite Hm. eauto.
    + by apply (c_holds _ Hc j).
  - intros j t k Hj Hk. apply list_lookup_insert_Some in Hj as [(-> & <- & _)|[_ Hj]].
    + apply Hhome. rewrite <-Hm. unfold contents. rewrite lookup_fmap. by apply fmap_is_Some.
    + by apply (c_home _ Hc j t).
  - rewrite (zsum_insert _ _ _ _ _ Hi). lia.
  - rewrite (zsum_insert _ _ _ _ _ Hi). lia.
Qed.

Lemma leave_cache_ok c i s a' m' rl' dl' ws L :
  cache_ok c → shards c !! i = Some s →
  post (others c s) (enter c s) a' L m' rl' dl' ws → (∀ k v, (k, v) ∈ L → shard_for k = i) →
  cache_ok (leave c i a').
Proof.
  intros Hc Hi [Ha _ _ _ Hcons] Hhome. eapply leave_acc_ok; [done..|].
  intros k [n Hn]. apply (Hhome k (value n)). rewrite Hcons. apply elem_of_app. left.
  apply stored_key. eauto.
Qed.

Lemma perm_account {A} (F F' S S' L g l w : list A) :
  F ++ S' ≡ₚ F' ++ S → S ++ g ≡ₚ l ++ L → L ≡ₚ S' ++ w → F ++ g ≡ₚ F' ++ l ++ w.
Proof.
  intros H1 H2 H3. apply (Permutation_app_inv_r S').
  rewrite <-app_assoc, (Permutation_app_comm g), app_assoc, H1, <-app_assoc, H2, H3.
  by rewrite (Permutation_app_comm S' w), <-!app_assoc.
Qed.

Lemma leave_ok D c i s a' m' rl' dl' ws L gained lost :
  cache_ok c → shards c !! i = Some s →
  post (others c s) (enter c s) a' L m' rl' dl' ws → (∀ k v, (k, v) ∈ L → shard_for k = i) →
  stored (contents s) ++ gained ≡ₚ lost ++ L →
  (D → covered s (contents s) → covered (shard a') m') →
  section_ok D c (leave c i a') gained lost [ws].
Proof.
  intros Hc Hi Hp Hhome HL Hcov. split; [by eapply leave_cache_ok|..].
  - destruct Hp as [_ Hh He _ _]. cbn. rewrite Hh, He, <-app_assoc. cbn. f_equal. unfold notice.
    rewrite app_nil_r. by case_bool_decide.
  - destruct Hp as [Hok _ _ _ Hcons]. pose proof (for_each_insert (shards c) i s (shard a') Hi) as Hf.
    assert (Hm : stored (map (shard a')) ≡ₚ stored m')
      by (rewrite <-stored_contents; unfold contents; by rewrite (h_map _ _ _ _ (a_holds _ _ _ _ _ _ Hok))).
    rewrite Hm in Hf. rewrite <-(stored_contents s) in Hf. unfold for_each at 2. cbn [leave shards].
    cbn [mjoin list_join]. rewrite app_nil_r.
    by apply (perm_account _ _ (stored (contents s)) (stored m') L).
  - destruct Hp as [_ _ _ Hcaps _]. unfold caps in Hcaps. cbn in *. by injection Hcaps as -> -> _ _.
  - intros HD Hc0 j t Hj. apply list_lookup_insert_Some in Hj as [(-> & <- & _)|[_ Hj]].
    + unfold contents. rewrite (h_map _ _ _ _ (a_holds _ _ _ _ _ _ (po_ok _ _ _ _ _ _ _ _ Hp))). eauto.
    + by apply (Hc0 j).
Qed.

Lemma section_refl D c : cache_ok c → section_ok D c c [] [] [].
Proof. intros Hc. split; try done. all: cbn; by rewrite ?app_nil_r. Qed.

Lemma section_trans D c c1 c2 wss wss' :
  section_ok D c c1 [] [] wss → section_ok D c1 c2 [] [] wss' →
  section_ok D c c2 [] [] (wss ++ wss').
Proof.
  intros [_ L1 C1 [P1 P2] V1] [Hok L2 C2 [P3 P4] V2]. split; [done|..|split; congruence|auto].
  - by rewrite L2, L1, bind_app, app_assoc.
  - rewrite !app_nil_r in *. rewrite C1, C2, join_app, fmap_app. cbn. rewrite <-app_assoc. f_equiv.
    apply Permutation_app_comm.
Qed.

Lemma contents_home c i s k v :
  cache_ok c → shards c !! i = Some s → (k, v) ∈ stored (contents s) → shard_for k = i.
Proof.
  intros Hc Hi (n & Hn & _)%stored_key. apply (c_home _ Hc i s k Hi).
  unfold contents in Hn. rewrite lookup_fmap in Hn. by apply fmap_Some_1 in Hn as (? & -> & _).
Qed.

(** A section that neither adds an entry nor changes one. *)
Lemma plain_section {R} D c i s (f : Access → option (R * Access)) r a' m' rl' dl' ws :
  cache_ok c → shards c !! i = Some s → f (enter c s) = Some (r, a') →
  post (others c s) (enter c s) a' (stored (contents s)) m' rl' dl' ws →
  (D → covered s (contents s) → covered (shard a') m') →
  locked i f c = Some (r, leave c i a') ∧ section_ok D c (leave c i a') [] [] [ws] ∧
  contents (shard a') = m'.
Proof.
  intros Hc Hi Hf Hp Hcov. unfold locked. rewrite Hi. cbn [mbind option_bind]. rewrite Hf.
  split; [done|]. split; [|apply (h_map _ _ _ _ (a_holds _ _ _ _ _ _ (po_ok _ _ _ _ _ _ _ _ Hp)))].
  eapply leave_ok; [done..| |by rewrite app_nil_r|done].
  intros k v. by apply (contents_home c).
Qed.

(** ** A pass over the shards *)

Lemma for_shards_ok {R} D (I : R → Prop) (g : R → list victim → R) (Q : Shard → Shard → Prop)
    (f : R → Access → option (R * Access)) ixs r c :
  (∀ r ws, I r → I (g r ws)) →
  (∀ c i s r, cache_ok c → shards c !! i = Some s → I r →
     ∃ a' m' rl' dl' ws, f r (enter c s) = Some (g r ws, a') ∧
       post (others c s) (enter c s) a' (stored (contents s)) m' rl' dl' ws ∧ Q s (shard a') ∧
       (D → covered s (contents s) → covered (shard a') m')) →
  cache_ok c → I r → NoDup ixs → (∀ i, i ∈ ixs → is_Some (shards c !! i)) →
  ∃ c' wss, for_shards ixs f r c = Some (fold_left g wss r, c') ∧
    section_ok D c c' [] [] wss ∧
    ∀ i s, shards c !! i = Some s → ∃ s', shards c' !! i = Some s' ∧
      (i ∈ ixs → Q s s') ∧ (i ∉ ixs → s' = s).
Proof.
  intros HI Hf. revert r c. induction ixs as [|i ixs IH]; intros r c Hc Hr Hd Hin; cbn [for_shards].
  { exists c, []. split; [done|]. split; [by apply section_refl|].
    intros j s Hj. exists s. split; [done|]. split; [by intros ?%not_elem_of_nil|done]. }
  apply NoDup_cons in Hd as [Hi Hd]. destruct (Hin i) as [s Hs]; [set_solver +|].
  destruct (Hf c i s r Hc Hs Hr) as (a' & m' & rl' & dl' & ws & Ef & Hp & HQ & Hcov).
  destruct (plain_section D c i s (f r) _ _ _ _ _ _ Hc Hs Ef Hp Hcov) as (El & Hsec & _).
  rewrite El. cbn [mbind option_bind].
  pose proof (lookup_lt_Some _ _ _ Hs) as Hlt.
  destruct (IH (g r ws) (leave c i a')) as (c' & wss & -> & Hsec' & Hsh);
    [apply Hsec|by apply HI|done| |].
  { intros j Hj. cbn. apply list_lookup_insert_is_Some. apply Hin. set_solver. }
  exists c', (ws :: wss). split; [done|]. split; [exact (section_trans _ _ _ _ [ws] _ Hsec Hsec')|].
  intros j t Hj. destruct (decide (j = i)) as [->|Hne].
  - rewrite Hs in Hj. injection Hj as <-.
    destruct (Hsh i (shard a')) as (s' & Hs' & _ & Hs2); [by apply list_lookup_insert_eq|].
    exists s'. split; [done|]. rewrite (Hs2 Hi). split; [done|]. set_solver.
  - destruct (Hsh j t) as (s' & Hs' & HQ' & Hs2); [by cbn; rewrite list_lookup_insert_ne|].
    exists s'. split; [done|]. split; [intros X; apply HQ'; set_solver|].
    intros X. apply Hs2. set_solver.
Qed.

(** ** The operations of the store *)

Context (values_ok : ∀ v : V, weights_ok v).
Context (index_ok : ∀ k, 0 <= shard_index k SHARDS < SHARDS).

Lemma shard_for_some c k : cache_ok c → ∃ s, shards c !! shard_for k = Some s.
Proof.
  intros Hc. apply lookup_lt_is_Some. rewrite (c_len _ Hc). unfold shard_for.
  pose proof (index_ok k). lia.
Qed.

(** What a client asks of the store. *)
Inductive Op : Type :=
| Get (now : Z) (k : K)
| Insert (k : K) (v : V)
| Remove (k : K)
| Mutate (k : K) (f : V → V * bool)
| Reconcile (k protect : K)
| Touch (k : K)
| TouchRam (k : K)
| TouchDisk (k : K)
| Sweep (now : Z)
| PurgeIf (predicate : K → V → bool)
| Clear.

Definition exec (op : Op) (c : Cache) : option Cache :=
  match op with
  | Get now k => snd <$> get now k c
  | Insert k v => insert k v c
  | Remove k => remove k c
  | Mutate k f => snd <$> with_shard k (mutate k f) c
  | Reconcile k protect => snd <$> with_shard k (reconcile_weights k protect) c
  | Touch k => snd <$> with_shard k (no_result (acc_touch k)) c
  | TouchRam k => snd <$> with_shard k (no_result (touch_ram k)) c
  | TouchDisk k => snd <$> with_shard k (no_result (touch_disk k)) c
  | Sweep now => snd <$> sweep_expired now c
  | PurgeIf predicate => purge_if predicate c
  | Clear => clear c
  end.

(** The [ShardKey] contract: the terminator is never a key. *)
Definition op_ok (op : Op) : Prop :=
  match op with
  | Insert k _ | Mutate k _ => k ≠ nil_key
  | Reconcile k protect => k ≠ nil_key ∧ protect ≠ nil_key
  | _ => True
  end.

(** What an operation brings in and takes out by itself. *)
Definition exchange (op : Op) (c : Cache) (gained lost : list (K * V)) : Prop :=
  match op with
  | Insert k v => lost = [] ∧ (gained = [] ∨ gained = [(k, v)])
  | Mutate k f =>
      (gained = [] ∧ lost = [])
      ∨ ∃ v, (k, v) ∈ for_each c ∧ lost = [(k, v)] ∧ gained = [(k, (f v).1)]
  | _ => gained = [] ∧ lost = []
  end.

(** The [CacheValue] contract: from its deadline on a value is dead. *)
Definition deadlines_dead : Prop :=
  ∀ (v : V) d t, v_deadline v = Some d → d <= t → v_is_fresh v t = false.

(** A closure that aborts has not moved the deadline. *)
Definition op_deadlines (op : Op) : Prop :=
  deadlines_dead ∧
  match op with
  | Mutate _ f => ∀ v, (f v).2 = false → v_deadline (f v).1 = v_deadline v
  | _ => True
  end.

Definition exec_ok (op : Op) (c : Cache) : Prop :=
  ∃ c' gained lost wss, exec op c = Some c' ∧ exchange op c gained lost ∧
    section_ok (op_deadlines op) c c' gained lost wss.

(** One section in which the closure keeps its entries. *)
Lemma with_shard_plain {R} D c k (f : Access → option (R * Access)) :
  cache_ok c →
  (∀ o a m rl dl, acc_ok o (0, 0) a m rl dl →
     ∃ r a' m' rl' dl' ws, f a = Some (r, a') ∧ post o a a' (stored m) m' rl' dl' ws ∧
       (D → covered (shard a) m → covered (shard a') m')) →
  ∃ c' wss, snd <$> with_shard k f c = Some c' ∧ section_ok D c c' [] [] wss.
Proof.
  intros Hc Hf. destruct (shard_for_some c k Hc) as [s Hs].
  destruct (enter_ok c _ s Hc Hs) as (rl & dl & Ha).
  destruct (Hf _ _ _ _ _ Ha) as (r & a' & m' & rl' & dl' & ws & Ef & Hp & Hcov).
  destruct (plain_section D c _ s f _ _ _ _ _ _ Hc Hs Ef Hp Hcov) as (El & Hsec & _).
  unfold with_shard. rewrite El. eauto.
Qed.

Lemma for_each_elem c i s k n :
  shards c !! i = Some s → contents s !! k = Some n → (k, value n) ∈ for_each c.
Proof.
  intros Hi Hn. unfold for_each. apply list_elem_of_bind. exists s.
  split; [|by eapply list_elem_of_lookup_2].
  change (_ <$> _) with (stored (map s)). rewrite <-stored_contents. apply stored_key. eauto.
Qed.

Lemma stored_mutated m f id n :
  m !! id = Some n →
  stored m ++ [(id, (f (value n)).1)] ≡ₚ [(id, value n)] ++ stored (mutated f id m).
Proof.
  intros Hn. unfold mutated. rewrite (alter_alt_Some _ m id n Hn), stored_insert.
  rewrite (stored_delete m id n Hn). cbn. by rewrite <-Permutation_cons_append.
Qed.

Lemma exec_mutate c k f : cache_ok c → k ≠ nil_key → exec_ok (Mutate k f) c.
Proof.
  intros Hc Hk. unfold exec_ok. cbn [exec exchange]. destruct (shard_for_some c k Hc) as [s Hs].
  destruct (enter_ok c _ s Hc Hs) as (rl & dl & Ha).
  destruct (mutate_ok values_ok _ k f _ _ _ _ Ha Hk)
    as (b & a' & m' & rl' & dl' & ws & Ef & Hp & Hcov & _).
  assert (Hcov' : op_deadlines (Mutate k f) → covered s (contents s) → covered (shard a') m')
    by (intros [_ Hk']; by apply Hcov).
  unfold with_shard, locked. rewrite Hs. cbn [mbind option_bind]. rewrite Ef. cbn.
  destruct (contents s !! k) as [n|] eqn:Hn.
  - eexists _, _, _, [ws]. split; [done|]. split; [right|].
    + exists (value n). split; [by eapply for_each_elem|]. done.
    + eapply leave_ok; [done..| |by apply stored_mutated|done].
      intros k' v' (n' & Hn' & _)%stored_key. unfold mutated in Hn'.
      destruct (decide (k' = k)) as [->|]; [done|]. rewrite lookup_alter_ne in Hn' by done.
      eapply (contents_home c); [done..|]. apply stored_key. eauto.
  - eexists _, _, _, [ws]. split; [done|]. split; [by left|].
    unfold mutated in Hp. rewrite alter_id in Hp by (by rewrite Hn).
    eapply leave_ok; [done..|by intros ? ?; apply (contents_home c)|by rewrite app_nil_r|done].
Qed.

Lemma exec_insert c k v : cache_ok c → k ≠ nil_key → exec_ok (Insert k v) c.
Proof.
  intros Hc Hk. unfold exec_ok. cbn [exec exchange]. destruct (shard_for_some c k Hc) as [s Hs].
  destruct (enter_ok c _ s Hc Hs) as (rl & dl & Ha).
  destruct (insert_in_ok _ k v _ _ _ _ Ha Hk (values_ok v))
    as (b & a' & m' & rl' & dl' & ws & Ef & Hp & Hcov & _).
  unfold insert, with_shard, locked. rewrite Hs. cbn [mbind option_bind]. rewrite Ef. cbn.
  eexists _, (if b then [(k, v)] else []), [], [ws]. split; [done|]. split; [by destruct b; auto|].
  eapply leave_ok; [done..| |done|auto].
  intros k' v' [Hin|Hin]%elem_of_app; [by eapply (contents_home c)|].
  destruct b; [|by apply not_elem_of_nil in Hin]. apply list_elem_of_singleton in Hin. by injection Hin as -> _.
Qed.

Lemma all_shards_some (c : Cache) i : i ∈ all_shards c → is_Some (shards c !! i).
Proof. unfold all_shards. rewrite elem_of_seq. intros. apply lookup_lt_is_Some. lia. Qed.

(** A pass over all shards. *)
Lemma pass_ok D (Q : Shard → Shard → Prop) (f : Access → option Access) c :
  cache_ok c →
  (∀ o a m rl dl, acc_ok o (0, 0) a m rl dl → evicted a = false →
     ∃ a' m' rl' dl' ws, f a = Some a' ∧ post o a a' (stored m) m' rl' dl' ws ∧
       (m = contents (shard a) → Q (shard a) (shard a')) ∧
       (D → covered (shard a) m → covered (shard a') m')) →
  ∃ c' wss, snd <$> for_shards (all_shards c) (fun _ : unit => no_result f) tt c = Some c' ∧
    section_ok D c c' [] [] wss ∧
    ∀ i s, shards c !! i = Some s → ∃ s', shards c' !! i = Some s' ∧ Q s s'.
Proof.
  intros Hc Hf. destruct (for_shards_ok D (fun _ : unit => True) (fun _ _ => tt) Q
    (fun _ => no_result f) (all_shards c) tt c) as (c' & wss & -> & Hsec & Hsh);
    [done| |done|done|apply NoDup_seq|apply all_shards_some|].
  { intros c0 i s _ Hc0 Hi _. destruct (enter_ok c0 i s Hc0 Hi) as (rl & dl & Ha).
    destruct (Hf _ _ _ _ _ Ha eq_refl) as (a' & m' & rl' & dl' & ws & Ef & Hp & HQ & Hcov).
    exists a', m', rl', dl', ws. unfold no_result. rewrite Ef. split; [done|]. split; [done|].
    split; [by apply HQ|done]. }
  exists c', wss. split; [done|]. split; [done|]. intros i s Hi.
  destruct (Hsh i s Hi) as (s' & Hs' & HQ & _). exists s'. split; [done|]. apply HQ.
  unfold all_shards. apply elem_of_seq. apply lookup_lt_Some in Hi. lia.
Qed.

Definition sweep_count (n : Z) (ws : list (@victim K V)) : Z := u64 (n + zlen ws).

Lemma sweep_count_total wss n :
  0 <= n < 2 ^ 64 → fold_left sweep_count wss n = u64 (n + zlen (mjoin wss)).
Proof.
  revert n. induction wss as [|ws wss IH]; intros n Hn; cbn [fold_left mjoin list_join].
  - change (zlen []) with 0. rewrite Z.add_0_r. symmetry. by apply wrap_id.
  - rewrite IH by (apply (wrap_range 64); lia). unfold sweep_count, wrap.
    by rewrite zlen_app, Z.add_mod_idemp_l, Z.add_assoc by lia.
Qed.

(** What the sweep leaves of one shard. *)
Definition swept_shard (now : Z) (s s' : Shard) : Prop :=
  (∀ k n, contents s' !! k = Some n ↔ contents s !! k = Some n ∧ ¬ due now (expiry s) k n) ∧
  ∀ e, e ∈ expiry s' ↔ e ∈ expiry s ∧ now < e_deadline e.

Lemma sweep_expired_ok now c :
  cache_ok c →
  ∃ c' wss, sweep_expired now c = Some (u64 (zlen (mjoin wss)), c') ∧
    section_ok deadlines_dead c c' [] [] wss ∧
    ∀ i s, shards c !! i = Some s → ∃ s', shards c' !! i = Some s' ∧ swept_shard now s s'.
Proof.
  intros Hc. destruct (for_shards_ok deadlines_dead (fun n : Z => 0 <= n < 2 ^ 64) sweep_count (swept_shard now)
    (sweep_in now) (all_shards c) 0 c) as (c' & wss & E & Hsec & Hsh);
    [|..|done|lia|apply NoDup_seq|apply all_shards_some|].
  { intros n ws _. apply (wrap_range 64). lia. }
  { intros c0 i s n Hc0 Hi Hn. destruct (enter_ok c0 i s Hc0 Hi) as (rl & dl & Ha).
    destruct (sweep_loop_ok _ now (length (expiry s)) n _ _ _ _ Ha)
      as (n' & a' & m' & rl' & dl' & ws & Ef & Hsw); [done|done|]. pose proof Hsw as [Hp Hk Hx -> _].
    exists a', m', rl', dl', ws. split; [done|]. split; [done|].
    split; [|by intros HD Hcov; eapply swept_covered]. split; [|done].
    unfold contents at 1. rewrite (h_map _ _ _ _ (a_holds _ _ _ _ _ _ (po_ok _ _ _ _ _ _ _ _ Hp))).
    done. }
  exists c', wss. unfold sweep_expired. rewrite E, sweep_count_total by lia. split; [done|].
  split; [done|]. intros i s Hi. destruct (Hsh i s Hi) as (s' & Hs' & HQ & _). exists s'.
  split; [done|]. apply HQ. unfold all_shards. apply elem_of_seq. apply lookup_lt_Some in Hi. lia.
Qed.

(** Every operation of the store succeeds and keeps its invariant. *)
Lemma exec_step op c : cache_ok c → op_ok op → exec_ok op c.
Proof.
  intros Hc Hop. unfold exec_ok.
  assert (Hplain : ∀ R k (f : Access → option (R * Access)),
    (∀ o a m rl dl, acc_ok o (0, 0) a m rl dl →
     ∃ r a' m' rl' dl' ws, f a = Some (r, a') ∧ post o a a' (stored m) m' rl' dl' ws ∧
       (covered (shard a) m → covered (shard a') m')) →
    ∃ c' gained lost wss, snd <$> with_shard k f c = Some c' ∧ (gained = [] ∧ lost = []) ∧
      section_ok (op_deadlines op) c c' gained lost wss).
  { intros R k f Hf. destruct (with_shard_plain (op_deadlines op) c k f Hc) as (c' & wss & E & Hs);
      [|eauto 10]. intros o a m rl dl Ha. destruct (Hf o a m rl dl Ha) as (? & ? & ? & ? & ? & ? & ? & ? & ?).
    eauto 12. }
  destruct op as [now k|k v|k|k f|k p|k|k|k|now|p|]; cbn [exec exchange op_ok] in *.
  - apply Hplain. intros o a m rl dl Ha.
    destruct (get_in_ok o now k a m rl dl Ha) as (r & a' & m' & rl' & dl' & ws & E & Hp & Hcl & Hr & Hh & Hm).
    exists r, a', m', rl', dl', ws. split; [done|]. split; [done|].
    apply covered_subseteq; [|done]. destruct r; [by destruct Hh as [-> _]|].
    rewrite Hm by done. apply delete_subseteq.
  - by apply exec_insert.
  - apply Hplain. intros o a m rl dl Ha. unfold no_result.
    destruct (teardown_post o a m rl dl k Explicit Ha) as (a' & ws & -> & Hp & _ & Hcl).
    eexists tt, a', _, _, _, ws. split; [done|]. split; [done|].
    apply covered_subseteq; [apply delete_subseteq|done].
  - by apply exec_mutate.
  - apply Hplain. intros o a m rl dl Ha. destruct Hop as [Hk Hpk].
    destruct (reconcile_weights_ok values_ok o k p a m rl dl Ha Hk Hpk)
      as (b & a' & m' & rl' & dl' & ws & ? & ? & ? & _). eauto 12.
  - apply Hplain. intros o a m rl dl Ha. unfold no_result.
    destruct (acc_touch_ok o a m rl dl k Ha) as (a' & rl' & dl' & -> & Hp & Hcl).
    eauto 12 using covered_subseteq.
  - apply Hplain. intros o a m rl dl Ha. unfold no_result.
    destruct (touch_ram_ok o a m rl dl k Ha) as (a' & rl' & dl' & -> & Hp & Hcl).
    eauto 12 using covered_subseteq.
  - apply Hplain. intros o a m rl dl Ha. unfold no_result.
    destruct (touch_disk_ok o a m rl dl k Ha) as (a' & rl' & dl' & -> & Hp & Hcl).
    eauto 12 using covered_subseteq.
  - destruct (sweep_expired_ok now c Hc) as (c' & wss & -> & [] & _). eexists c', [], [], wss.
    split; [done|]. split; [done|]. split; try done. intros [? _]. auto.
  - destruct (pass_ok (op_deadlines (PurgeIf p)) (fun _ _ => True) (purge_in p) c Hc)
      as (c' & wss & E & Hs & _); [|by exists c', [], [], wss].
    intros o a m rl dl Ha _. destruct (purge_in_ok o p a m rl dl Ha)
      as (a' & m' & rl' & dl' & ws & E & Hp & Hm & Hcl). exists a', m', rl', dl', ws.
    split; [done|]. split; [done|]. split; [done|]. intros _. apply covered_subseteq; [|done].
    apply map_subseteq_spec. intros k n Hk. by apply Hm in Hk as [? _].
  - destruct (pass_ok (op_deadlines Clear) (fun _ _ => True) clear_in c Hc)
      as (c' & wss & E & Hs & _); [|by exists c', [], [], wss].
    intros o a m rl dl Ha He. destruct (clear_in_ok o a m rl dl Ha He) as (a' & ws & E & Hp & _).
    exists a', ∅, [], [], ws. split; [done|]. split; [done|]. split; [done|].
    intros _ _ k n d Hk. by rewrite lookup_empty in Hk.
Qed.

(** ** From the empty store *)

Definition config_ok (config : ShardCacheConfig) : Prop :=
  0 <= max_ram_bytes config <= U64_MAX ∧ 0 <= max_disk_bytes config <= U64_MAX.

Lemma zsum_replicate {A} (f : A → Z) n x : f x = 0 → zsum f (replicate n x) = 0.
Proof. intros Hx. induction n; cbn; [done|]. lia. Qed.

Lemma new_ok config : config_ok config → cache_ok (new config).
Proof.
  intros [Hr Hd]. split; cbn [new shards global_budget g_ram_used g_disk_used ram_max disk_max].
  - apply length_replicate.
  - intros i s [-> _]%lookup_replicate. exists [], [].
    assert (He : contents shard_new = ∅) by apply fmap_empty. rewrite He.
    split; try (by apply linked_nil); try done; cbn.
    + intros k. rewrite lookup_empty. split; [set_solver +|by intros []].
    + intros k. setoid_rewrite lookup_empty. split; [set_solver +|by intros (? & ? & ?)].
  - intros i s k [-> _]%lookup_replicate [n Hn]. done.
  - by rewrite zsum_replicate.
  - by rewrite zsum_replicate.
  - lia.
  - case_match; bool_hyps; lia.
Qed.

Fixpoint run (ops : list Op) (c : Cache) : option Cache :=
  match ops with
  | [] => Some c
  | op :: ops => c ← exec op c; run ops c
  end.

Lemma run_ok ops c :
  cache_ok c → Forall op_ok ops →
  ∃ c', run ops c = Some c' ∧ cache_ok c' ∧
    ram_max (global_budget c') = ram_max (global_budget c) ∧
    disk_max (global_budget c') = disk_max (global_budget c).
Proof.
  revert c. induction ops as [|op ops IH]; intros c Hc Hops; cbn [run]; [eauto|].
  apply Forall_cons in Hops as [Hop Hops].
  destruct (exec_step op c Hc Hop) as (c1 & g & l & wss & -> & _ & [Hc1 _ _ [P1 P2] _]).
  cbn [mbind option_bind]. destruct (IH c1 Hc1 Hops) as (c' & -> & Hc' & P3 & P4).
  exists c'. split; [done|]. split; [done|]. split; congruence.
Qed.

End store.
End cache_store.
