(* ===== verification/ShardCacheTheorems.v ===== *)
(** * What the sharded cache promises

    The theorems on any store that operations can reach from an empty one: no operation
    panics, the caps hold, the lists and counters are exact; a lookup returns what was
    stored and is fresh; an insertion is admitted exactly when it fits beside the other
    shards; what makes room is least recently used; every value that leaves is handed to
    the hook once; the sweep leaves nothing that is over. *)

From stdpp Require Import base numbers list gmap.
From Stdlib Require Import ZArith Lia.
From S2P Require Import Prelude ShardLru ShardCache ShardCacheInv ShardCacheOps.
From S2P Require Import ShardCacheMutate ShardCacheStore.

Import lru cache cache_inv cache_ops cache_mutate cache_store.
#[local] Open Scope record_scope.

Module sharded_cache.

Section theorems.
Context {K V : Type} `{Countable K} `{!ShardKey K} `{!CacheValue V}.
Implicit Types (id k p : K) (v : V) (m : gmap K (Node K V)) (rl dl l : list K).

Abbreviation Shard := (@lru.Shard K V _ _).
Abbreviation Access := (@cache.Access K V _ _).
Abbreviation Cache := (@cache.Cache K V _ _).

Definition disk_total (config : ShardCacheConfig) : Z :=
  if 0 <? max_disk_bytes config then max_disk_bytes config else max_ram_bytes config.

(** The value stored under a key, without touching it. *)
Definition peek (c : Cache) k : option V :=
  s ← shards c !! shard_for k; value <$> map s !! k.

(** ** Counters *)

Lemma stats_fold (ss : list Shard) (st : ShardCacheStats) :
  0 <= entries st < 2 ^ 64 → 0 <= ram_bytes st < 2 ^ 64 → 0 <= disk_bytes st < 2 ^ 64 →
  fold_left (fun st s =>
      {| entries := u64 (entries st + Z.of_nat (size (map s)));
         ram_bytes := u64 (ram_bytes st + ram_used s);
         disk_bytes := u64 (disk_bytes st + disk_used s) |}) ss st
  = {| entries := u64 (entries st + zsum (fun s => Z.of_nat (size (map s))) ss);
       ram_bytes := u64 (ram_bytes st + zsum ram_used ss);
       disk_bytes := u64 (disk_bytes st + zsum disk_used ss) |}.
Proof.
  revert st. induction ss as [|s ss IH]; intros st He Hr Hd; cbn [fold_left zsum].
  - rewrite !Z.add_0_r, !(wrap_id 64) by done. by destruct st.
  - assert (Hw : ∀ x, 0 <= u64 x < 2 ^ 64) by (intros; by apply (wrap_range 64)).
    rewrite IH by (cbn; apply Hw). cbn [entries ram_bytes disk_bytes]. unfold wrap.
    by rewrite !Z.add_mod_idemp_l, !Z.add_assoc by lia.
Qed.

Lemma for_each_length (ss : list Shard) :
  zlen (s ← ss; stored (map s)) = zsum (fun s => Z.of_nat (size (map s))) ss.
Proof.
  induction ss as [|s ss IH]; [done|]. cbn [mbind list_bind zsum]. rewrite zlen_app.
  change (mbind _ ss) with (s ← ss; stored (map s)). rewrite IH. f_equal. unfold zlen, stored.
  by rewrite length_fmap, length_map_to_list.
Qed.

(** ** Lookup *)

Lemma peek_contents (c : Cache) k s :
  shards c !! shard_for k = Some s → peek c k = value <$> contents s !! k.
Proof.
  intros Hs. unfold peek, contents. rewrite Hs, lookup_fmap. cbn. by destruct (map s !! k).
Qed.

Lemma peek_leave (c : Cache) i s (a : Access) k :
  shards c !! i = Some s →
  peek (leave c i a) k =
    if bool_decide (shard_for k = i) then value <$> contents (shard a) !! k else peek c k.
Proof.
  intros Hi. apply lookup_lt_Some in Hi. case_bool_decide as Hk.
  - apply peek_contents. cbn. rewrite Hk. by apply list_lookup_insert_eq.
  - unfold peek. cbn. by rewrite list_lookup_insert_ne by done.
Qed.

(** ** Admission *)

Lemma sum_map_zero {A} (f : A → Z) (mm : gmap K A) :
  map_Forall (fun _ x => f x = 0) mm → sum_map f mm = 0.
Proof.
  induction mm as [|k x mm Hk IH] using map_ind; intros Hf; [apply sum_map_empty|].
  apply map_Forall_insert in Hf as [Hx Hf]; [|done]. rewrite sum_map_insert_new, Hx, IH by done. done.
Qed.

(** A list with nothing but [id] on it weighs what [id] does. *)
Lemma mem_used_only (s : Shard) m rl dl id w :
  holds s m rl dl → filter (.≠ id) (lst w rl dl) = [] →
  mem_used w m = pick w (weights_of m id).
Proof.
  intros Hs Hl. set (f := match w with Ram => @ram_weight K V | Disk => @disk_weight K V end).
  assert (Hz : ∀ k (n : Node K V), k ≠ id → m !! k = Some n → f n = 0).
  { intros k n Hk Hn. destruct (decide (f n = 0)) as [|Hf]; [done|]. exfalso.
    assert (k ∈ filter (.≠ id) (lst w rl dl)) as Hin; [|by rewrite Hl in Hin; apply not_elem_of_nil in Hin].
    apply filter_ne_elem. split; [done|]. destruct (h_weights _ _ _ _ Hs k n Hn) as [? ?].
    unfold f in Hf. destruct w; cbn in *; [apply (h_rl _ _ _ _ Hs); by eexists|].
    apply (h_dl _ _ _ _ Hs). exists n. split; [done|]. lia. }
  unfold mem_used, weights_of. fold f. destruct (m !! id) as [n|] eqn:E; cbn.
  - rewrite (sum_map_delete f m id n E), sum_map_zero; [unfold f; destruct w; cbn; lia|].
    intros k x [? ?]%lookup_delete_Some. by eapply Hz.
  - rewrite sum_map_zero; [by destruct w|]. intros k x Hx. eapply Hz; [|done]. congruence.
Qed.

(** [v] fits the caps beside [o]. *)
Definition fits (o : Z * Z) (a : Access) v : Prop :=
  o.1 + v_ram_weight v <= ram_max (global a) ∧ o.2 + v_disk_weight v <= disk_max (global a).

Lemma admission o id v a a' m m' rl' dl' (b : bool) ws L g :
  0 <= o.1 → 0 <= o.2 → post o a a' L m' rl' dl' ws →
  (b = true → m' !! id = Some (entry v g)) →
  (b = false → m' !! id = m !! id ∧
     (ram_max (global a) < v_ram_weight v ∨ disk_max (global a) < v_disk_weight v ∨
      ∃ w, pressure a o (weights_of m id) (weights v) w m' ∧ filter (.≠ id) (lst w rl' dl') = [])) →
  b = true ↔ fits o a v.
Proof.
  intros Ho1 Ho2 Hp Ht Hf. destruct Hp as [[Hs [_ Hr Hd Hrc Hdc]] _ _ Hcaps _].
  unfold caps in Hcaps. injection Hcaps as Cr Cd _ _. rewrite Cr in Hrc. rewrite Cd in Hdc.
  cbn in Hr, Hd. destruct b.
  - destruct (holds_weights_le _ _ _ _ _ _ Hs (Ht eq_refl)) as [W1 W2]. cbn in W1, W2.
    unfold fits. split; [lia|done].
  - split; [done|]. intros [F1 F2]. destruct (Hf eq_refl) as [Hid [X|[X|(w & X & Y)]]]; [lia..|].
    pose proof (mem_used_only _ _ _ _ _ _ Hs Y) as Hm. unfold pressure in X. rewrite Hm in X.
    unfold weights_of in X. rewrite Hid in X. destruct w; cbn in X; lia.
Qed.

(** The fate of the entries next to an inserted one. *)
Lemma insert_neighbours m m' k v (b : bool) (ws : list victim) k' :
  stored m ++ (if b then [(k, v)] else []) ≡ₚ stored m' ++ ws.*1 →
  Forall (fun x => x.2 = Size ∨ x.2 = Disk_ ∨ x.1.1 = k) ws → k' ≠ k →
  value <$> m' !! k' = value <$> m !! k'
  ∨ (m' !! k' = None ∧ ∃ v' cause, value <$> m !! k' = Some v' ∧ (cause = Size ∨ cause = Disk_) ∧
     (k', v', cause) ∈ ws).
Proof.
  intros Hperm Hcs Hne.
  assert (Hin : ∀ x, (k', x) ∈ stored m' ++ ws.*1 → (k', x) ∈ stored m).
  { intros x. rewrite <-Hperm, elem_of_app. intros [?|Hx]; [done|].
    destruct b; [|by apply not_elem_of_nil in Hx]. apply list_elem_of_singleton in Hx. congruence. }
  destruct (m' !! k') as [n'|] eqn:E'.
  - left. destruct (proj1 (stored_key m k' (value n'))) as (n & -> & Hv); [|by cbn; rewrite Hv].
    apply Hin, elem_of_app. left. apply stored_key. eauto.
  - destruct (m !! k') as [n|] eqn:E; [|by left]. right. split; [done|]. exists (value n).
    assert (Hx : (k', value n) ∈ stored m' ++ ws.*1).
    { rewrite <-Hperm. apply elem_of_app. left. apply stored_key. eauto. }
    apply elem_of_app in Hx as [(? & ? & _)%stored_key|Hx]; [congruence|].
    apply list_elem_of_fmap in Hx as ([[x y] cause] & [= <- <-] & Hx). exists cause.
    split; [done|]. rewrite Forall_forall in Hcs. destruct (Hcs _ Hx) as [?|[?|?]]; cbn in *; auto.
    congruence.
Qed.

Lemma only_front k l : NoDup l → head l = Some k → filter (.≠ k) l = [] → l = [k].
Proof.
  destruct l as [|x l]; [done|]. intros [Hx _]%NoDup_cons [= ->].
  rewrite filter_cons_False by tauto. rewrite filter_ne_id by done. by intros ->.
Qed.

Lemma within_target o a a' L m' rl' dl' ws k :
  post o a a' L m' rl' dl' ws → head rl' = Some k →
  (∀ w, over_target a w m' → filter (.≠ k) (lst w rl' dl') = []) →
  (ram_used (shard a') <= ram_budget a ∨ rl' = [k]) ∧
  (disk_used (shard a') <= disk_budget a ∨ ∀ x, x ∈ dl' → x = k).
Proof.
  intros [[Hs _] _ _ _ _] Hh Ht. destruct (holds_used _ _ _ _ Hs) as [-> ->]. split.
  - destruct (Z.leb_spec (mem_used Ram m') (ram_budget a)); [by left|right].
    apply only_front; [apply (lk_nodup _ _ _ (h_ram _ _ _ _ Hs))|done|by apply (Ht Ram)].
  - destruct (Z.leb_spec (mem_used Disk m') (disk_budget a)); [by left|right]. intros x Hx.
    destruct (decide (x = k)) as [|Hne]; [done|]. exfalso.
    assert (Hin : x ∈ filter (.≠ k) dl') by (by apply filter_ne_elem).
    specialize (Ht Disk ltac:(done)). cbn [lst] in Ht. rewrite Ht in Hin.
    by apply not_elem_of_nil in Hin.
Qed.

Context (values_ok : ∀ v : V, weights_ok v).
Context (index_ok : ∀ k, 0 <= shard_index k SHARDS < SHARDS).

(** A store that operations can reach. *)
Definition reachable (config : ShardCacheConfig) (c : Cache) : Prop :=
  ∃ ops, Forall op_ok ops ∧ run ops (new config) = Some c.

Lemma reachable_ok config c :
  config_ok config → reachable config c →
  cache_ok c ∧ ram_max (global_budget c) = max_ram_bytes config ∧
  disk_max (global_budget c) = disk_total config.
Proof.
  intros Hcf (ops & Hops & Hrun).
  destruct (run_ok values_ok index_ok ops (new config)) as (c' & E & Hc & Hr & Hd);
    [by apply new_ok|done|]. rewrite Hrun in E. injection E as <-. done.
Qed.

(** C5. From an empty store any sequence of operations runs without a failed expect and
    without running out of fuel; the RAM and disk bytes reported are the sums of the shards'
    counters and never above the configured caps; in every shard the RAM list threads
    exactly the entries of the map and the disk list exactly the disk-weighted ones, each
    once, every key is in the shard its hash selects, and the counters are the sums of the
    weights. *)
Theorem store_never_panics config ops :
  config_ok config → Forall op_ok ops →
  ∃ c, run ops (new config) = Some c ∧
    ram_bytes (stats c) = zsum ram_used (shards c) ∧
    ram_bytes (stats c) <= max_ram_bytes config ∧
    disk_bytes (stats c) = zsum disk_used (shards c) ∧
    disk_bytes (stats c) <= disk_total config ∧
    entries (stats c) = u64 (zlen (for_each c)) ∧
    ∀ i s, shards c !! i = Some s →
      NoDup (order Ram s) ∧ NoDup (order Disk s) ∧
      (∀ k, k ∈ order Ram s ↔ is_Some (map s !! k)) ∧
      (∀ k, k ∈ order Disk s ↔ ∃ n, map s !! k = Some n ∧ 0 < disk_weight n) ∧
      (∀ k, is_Some (map s !! k) → shard_for k = i) ∧
      ram_used s = sum_map ram_weight (map s) ∧ disk_used s = sum_map disk_weight (map s).
Proof.
  intros Hcf Hops.
  destruct (run_ok values_ok index_ok ops (new config)) as (c & E & Hc & Hr & Hd);
    [by apply new_ok|done|]. exists c. split; [done|].
  pose proof (zsum_nonneg ram_used (shards c)) as Nr.
  pose proof (zsum_nonneg disk_used (shards c)) as Nd.
  pose proof (c_ram_cap _ Hc) as Cr. pose proof (c_disk_cap _ Hc) as Cd.
  rewrite (c_ram _ Hc), Hr in Cr. rewrite (c_disk _ Hc), Hd in Cd. cbn in Cr, Cd.
  fold (disk_total config) in Cd.
  assert (Hn : ∀ x, x ∈ shards c → 0 <= ram_used x ∧ 0 <= disk_used x) by (intros; by eapply c_used_nonneg).
  specialize (Nr ltac:(intros; by apply Hn)). specialize (Nd ltac:(intros; by apply Hn)).
  unfold stats. rewrite stats_fold by done. cbn [entries ram_bytes disk_bytes]. rewrite !Z.add_0_l.
  unfold U64_MAX in *. rewrite !(wrap_id 64 (zsum ram_used _)), !(wrap_id 64 (zsum disk_used _)) by lia.
  split_and!; [done|lia|done|lia|by rewrite <-for_each_length|].
  intros i s Hi. destruct (c_holds _ Hc i s Hi) as (rl & dl & Hs).
  destruct (holds_orders _ _ _ _ Hs) as [-> ->].
  assert (Hl : ∀ k, contents s !! k = bare <$> map s !! k) by (intros; apply lookup_fmap).
  split_and!.
  - apply (lk_nodup _ _ _ (h_ram _ _ _ _ Hs)).
  - apply (lk_nodup _ _ _ (h_disk _ _ _ _ Hs)).
  - intros k. rewrite (h_rl _ _ _ _ Hs), Hl. apply fmap_is_Some.
  - intros k. rewrite (h_dl _ _ _ _ Hs), Hl. destruct (map s !! k) as [n|]; cbn.
    + split; [intros (? & [= <-] & ?)|intros (? & [= <-] & ?)]; by eexists.
    + split; by intros (? & ? & ?).
  - intros k. by apply (c_home _ Hc i s).
  - rewrite (h_ram_used _ _ _ _ Hs). apply sum_map_ext. intros k. rewrite Hl. by destruct (map s !! k).
  - rewrite (h_disk_used _ _ _ _ Hs). apply sum_map_ext. intros k. rewrite Hl. by destruct (map s !! k).
Qed.


(** A lookup in a reachable store returns the stored value exactly when there is one
    and it is fresh; a hit makes it the most recently used and changes nothing else, a value
    that is no longer fresh is removed, and every other key keeps its value. *)
Theorem get_exact config c now k :
  config_ok config → reachable config c →
  ∃ r c', get now k c = Some (r, c') ∧
    r = (v ← peek c k; if v_is_fresh v now then Some v else None) ∧
    (∀ k', peek c' k' = if bool_decide (k' = k) then r else peek c k') ∧
    (is_Some r → log c' = log c ∧ ∃ s, shards c' !! shard_for k = Some s ∧ head (order Ram s) = Some k).
Proof.
  intros Hcf Hre. destruct (reachable_ok config c Hcf Hre) as [Hc _].
  destruct (shard_for_some index_ok c k Hc) as [s Hs].
  destruct (enter_ok c _ s Hc Hs) as (rl & dl & Ha).
  destruct (get_in_ok _ now k _ _ _ _ Ha)
    as (r & a' & m' & rl' & dl' & ws & Ef & Hp & Hcl & Hr & Hh & Hm).
  destruct (plain_section False c _ s (get_in now k) _ _ _ _ _ _ Hc Hs Ef Hp) as (El & [_ Hlog _ _ _] & Hct); [done|].
  exists r, (leave c (shard_for k) a'). split; [done|].
  rewrite (peek_contents c k s Hs). split; [done|]. split.
  - intros k'. rewrite (peek_leave _ _ s) by done. rewrite Hct.
    destruct (decide (k' = k)) as [->|Hne].
    + rewrite !bool_decide_true by done. rewrite Hr in *. destruct (v ← _; _) as [v|] eqn:E.
      * destruct Hh as (-> & _); [by eexists|].
        destruct (contents s !! k) as [n|]; cbn in E |- *; [|done].
        destruct (v_is_fresh (value n) now); [exact E|done].
      * by rewrite Hm, lookup_delete_eq.
    + rewrite (bool_decide_false (k' = k)) by done.
      destruct (decide (shard_for k' = shard_for k)) as [Hsf|Hsf]; [|by rewrite bool_decide_false].
      rewrite bool_decide_true, (peek_contents c k' s) by congruence. destruct r as [v|].
      * by destruct Hh as (-> & _); [eexists|].
      * by rewrite Hm, lookup_delete_ne.
  - intros Hsome. destruct (Hh Hsome) as (_ & -> & -> & _). split; [by rewrite Hlog, app_nil_r|].
    exists (shard a'). split; [apply list_lookup_insert_eq; by eapply lookup_lt_Some|].
    destruct (holds_orders _ _ _ _ (a_holds _ _ _ _ _ _ (po_ok _ _ _ _ _ _ _ _ Hp))) as [-> _]. done.
Qed.

(** The caps the bytes of the other shards leave room under. *)
Definition store_fits (c : Cache) k v : Prop :=
  ∃ s, shards c !! shard_for k = Some s ∧ fits (others c s) (enter c s) v.

(** An insertion into a reachable store is admitted exactly when the value fits the RAM
    and disk caps beside what the other shards hold; then it is found under its key, most
    recently used, and its shard is within its target or holds nothing else to evict;
    otherwise its key is as before. Any other key keeps its value unless it was in the same
    shard and handed to the hook as a size or disk eviction. *)
Theorem insert_exact config c k v :
  config_ok config → reachable config c → k ≠ nil_key →
  ∃ c', insert k v c = Some c' ∧
    (store_fits c k v → peek c' k = Some v ∧
       ∃ s, shards c' !! shard_for k = Some s ∧ head (order Ram s) = Some k ∧
         (ram_used s <= ram_budget_per_shard c ∨ order Ram s = [k]) ∧
         (disk_used s <= disk_budget_per_shard c ∨ ∀ x, x ∈ order Disk s → x = k)) ∧
    (¬ store_fits c k v → peek c' k = peek c k) ∧
    ∀ k', k' ≠ k → peek c' k' = peek c k'
      ∨ (peek c' k' = None ∧ shard_for k' = shard_for k ∧
         ∃ v' cause, peek c k' = Some v' ∧ (cause = Size ∨ cause = Disk_) ∧
           on_evict k' v' cause ∈ drop (length (log c)) (log c')).
Proof.
  intros Hcf Hre Hk. destruct (reachable_ok config c Hcf Hre) as [Hc _].
  destruct (shard_for_some index_ok c k Hc) as [s Hs].
  destruct (enter_ok c _ s Hc Hs) as (rl & dl & Ha).
  destruct (b_others _ _ _ _ (a_budget _ _ _ _ _ _ Ha)) as [Ho1 Ho2].
  destruct (insert_in_ok _ k v _ _ _ _ Ha Hk (values_ok v))
    as (b & a' & m' & rl' & dl' & ws & Ef & Hp & _ & Ht & Hf & Hcs).
  pose proof (a_holds _ _ _ _ _ _ (po_ok _ _ _ _ _ _ _ _ Hp)) as Hs'.
  assert (Hfit : b = true ↔ store_fits c k v).
  { rewrite (admission _ k v _ a' (contents s) m' rl' dl' b ws _ _ Ho1 Ho2 Hp (fun E => proj1 (Ht E)) Hf).
    unfold store_fits. split; [eauto|]. intros (s0 & Hs0 & ?). congruence. }
  assert (Hpeek : ∀ k', peek (leave c (shard_for k) a') k' =
    if bool_decide (shard_for k' = shard_for k) then value <$> m' !! k' else peek c k').
  { intros k'. rewrite (peek_leave _ _ s) by done. unfold contents. by rewrite (h_map _ _ _ _ Hs'). }
  exists (leave c (shard_for k) a'). split.
  { unfold insert, with_shard, locked. rewrite Hs. cbn [mbind option_bind]. by rewrite Ef. }
  split_and!.
  - intros E%Hfit. destruct (Ht E) as (Hm & Hh & Htg). rewrite Hpeek, bool_decide_true, Hm by done.
    split; [done|]. exists (shard a'). split; [by apply list_lookup_insert_eq, (lookup_lt_Some _ _ s)|].
    destruct (holds_orders _ _ _ _ Hs') as [-> ->]. split; [done|].
    exact (within_target _ _ _ _ _ _ _ _ k Hp Hh Htg).
  - intros Hn. destruct b; [by destruct Hn; apply Hfit|]. destruct (Hf eq_refl) as [Hm _].
    by rewrite Hpeek, bool_decide_true, Hm, (peek_contents c k s).
  - intros k' Hne. rewrite Hpeek. destruct (decide (shard_for k' = shard_for k)) as [Hsf|Hsf];
      [rewrite bool_decide_true by done|left; by rewrite bool_decide_false].
    rewrite (peek_contents c k' s) by congruence.
    destruct (insert_neighbours _ _ _ _ _ _ k' (po_conserve _ _ _ _ _ _ _ _ Hp) Hcs Hne)
      as [?|(-> & v' & cause & Hv & Hca & Hin)]; [by left|]. right. split; [done|]. split; [done|].
    exists v', cause. split; [done|]. split; [done|].
    cbn [leave log]. rewrite (po_hooks _ _ _ _ _ _ _ _ Hp), <-app_assoc.
    cbn [enter hooks]. rewrite drop_app_length. apply elem_of_app. left.
    apply list_elem_of_fmap. by exists (k', v', cause).
Qed.

(** Enforcing the targets evicts one entry after another, each the least recently used
    one of a list that is over its target at that point and never the protected key, tells
    the hook of each, and stops only when each list is within its target or has no entry but
    the protected one. *)
Theorem evicts_least_recent o p (a : Access) m rl dl :
  acc_ok o (0, 0) a m rl dl → p ≠ nil_key →
  ∃ a' vs m' rl' dl', enforce_budgets p a = Some a' ∧
    evictions (over_target a) p m rl dl vs m' rl' dl' ∧
    order Ram (shard a') = rl' ∧ order Disk (shard a') = dl' ∧ contents (shard a') = m' ∧
    hooks a' = hooks a ++ (hook_of <$> vs) ∧
    ∀ w, over_target a w m' → filter (.≠ p) (lst w rl' dl') = [].
Proof.
  intros Ha Hp. destruct (enforce_budgets_ok o p a m rl dl Ha Hp)
    as (a' & vs & m' & rl' & dl' & E & [Hev Hef Ha' Ht]).
  exists a', vs, m', rl', dl'. split; [done|]. split; [done|].
  pose proof (a_holds _ _ _ _ _ _ Ha') as Hs. destruct (holds_orders _ _ _ _ Hs) as [-> ->].
  split_and!; try done; [apply Hs|apply Hef].
Qed.

(** ** The sweep *)

Lemma run_covered ops c c' :
  cache_ok c → Forall op_ok ops → Forall op_deadlines ops → cache_covered c →
  run ops c = Some c' → cache_covered c'.
Proof.
  revert c. induction ops as [|op ops IH]; intros c Hc Hops Hdl Hcov Hrun; cbn [run] in Hrun.
  { by injection Hrun as <-. }
  apply Forall_cons in Hops as [Hop Hops]. apply Forall_cons in Hdl as [Hd Hdl].
  destruct (exec_step values_ok index_ok op c Hc Hop) as (c1 & g & l & wss & E & _ & [Hc1 _ _ _ Hv]).
  rewrite E in Hrun. cbn [mbind option_bind] in Hrun. by apply (IH c1); auto.
Qed.

(** A sweep of a reachable store removes every entry whose deadline has passed, keeps
    every entry that is still fresh, and returns the number removed: the generation guards
    never orphan a live entry's deadline. *)
Theorem sweep_leaves_nothing_over config ops c now :
  config_ok config → Forall op_ok ops → Forall op_deadlines ops → deadlines_dead →
  run ops (new config) = Some c →
  ∃ swept c', sweep_expired now c = Some (swept, c') ∧
    swept = u64 (zlen (for_each c) - zlen (for_each c')) ∧
    (∀ k v d, peek c' k = Some v → v_deadline v = Some d → now < d) ∧
    (∀ k v, peek c k = Some v → v_is_fresh v now = true → peek c' k = Some v) ∧
    (∀ k v, peek c' k = Some v → peek c k = Some v).
Proof.
  intros Hcf Hops Hdl Hdead Hrun.
  destruct (reachable_ok config c Hcf) as [Hc _]; [by exists ops|].
  assert (Hcov : cache_covered c).
  { eapply run_covered; [by apply new_ok|done..| |done].
    intros i s [-> _]%lookup_replicate k n d Hk. unfold contents in Hk. cbn in Hk. done. }
  destruct (sweep_expired_ok now c Hc) as (c' & wss & E & [Hc' _ Hcons _ Hcov'] & Hsh).
  exists (u64 (zlen (mjoin wss))), c'. split; [done|]. split.
  { apply Permutation_length in Hcons. rewrite !length_app, length_fmap in Hcons.
    cbn [length] in Hcons. unfold zlen. f_equal. unfold victim in *. lia. }
  assert (Hpk : ∀ k s s', shards c !! shard_for k = Some s → shards c' !! shard_for k = Some s' →
     peek c k = value <$> contents s !! k ∧ peek c' k = value <$> contents s' !! k).
  { intros. split; by apply peek_contents. }
  split_and!; intros k v; destruct (shard_for_some index_ok c k Hc) as [s Hs];
    destruct (Hsh _ s Hs) as (s' & Hs' & Hk & Hx); destruct (Hpk k s s' Hs Hs') as [P1 P2]; rewrite ?P1, ?P2.
  - intros d (n & Hn & ->)%fmap_Some_1 Hd. specialize (Hcov' Hdead Hcov _ _ Hs' k n d Hn Hd).
    by apply Hx in Hcov' as [_ ?].
  - intros (n & Hn & ->)%fmap_Some_1 Hf. rewrite (proj2 (Hk k n)); [done|]. split; [done|].
    intros [Hnf _]. congruence.
  - intros (n & Hn & ->)%fmap_Some_1. apply Hk in Hn as [-> _]. done.
Qed.

End theorems.
(** ** A concrete store

    The keys and values of the store's own unit tests. *)

Module test_types.

#[export] Instance TestKey : ShardKey Z :=
  {| nil_key := U64_MAX; shard_index := fun k shards => Z.land k (shards - 1) |}.

Record TestValue : Type := {
  t_ram : N;
  t_disk : N;
  t_deadline : option Z;
}.

#[export] Instance TestValue_CacheValue : CacheValue TestValue :=
  {| v_ram_weight := fun v => Z.of_N (t_ram v);
     v_disk_weight := fun v => Z.of_N (t_disk v);
     v_deadline := t_deadline;
     v_is_fresh := fun v now => from_option (fun d => now <? d) true (t_deadline v) |}.

Lemma test_values_ok (v : TestValue) : weights_ok v.
Proof. split; apply N2Z.is_nonneg. Qed.

Lemma test_index_ok (k : Z) : 0 <= shard_index k SHARDS < SHARDS.
Proof.
  change (0 <= Z.land k (Z.ones 8) < 256). rewrite Z.land_ones by lia.
  by apply (Z.mod_pos_bound k 256).
Qed.

Lemma test_deadlines_dead : deadlines_dead (V := TestValue).
Proof. intros v d t Hv Hd. cbn in *. rewrite Hv. cbn. by apply Z.ltb_ge. Qed.

Definition config : ShardCacheConfig := {| max_ram_bytes := 1024; max_disk_bytes := 0 |}.

Definition ram (n : N) : TestValue := {| t_ram := n; t_disk := 0; t_deadline := None |}.
Definition expiring (n : N) (d : Z) : TestValue :=
  {| t_ram := n; t_disk := n; t_deadline := Some d |}.

Definition ops : list Op := [Insert 1 (ram 3); Insert 257 (expiring 2 50); Get 10 1].

Definition store : @cache.Cache Z TestValue _ _ :=
  default (new config) (run ops (new config)).

Lemma config_is_ok : config_ok config.
Proof. unfold config_ok, U64_MAX. cbn. lia. Qed.

Lemma ops_ok : Forall op_ok ops.
Proof. unfold ops. repeat constructor; done. Qed.

Lemma store_run : run ops (new config) = Some store.
Proof.
  destruct (run_ok test_values_ok test_index_ok ops (new config)) as (c & E & _);
    [apply new_ok, config_is_ok|apply ops_ok|]. unfold store. by rewrite E.
Qed.

Lemma store_reachable : reachable config store.
Proof. exists ops. split; [apply ops_ok|apply store_run]. Qed.

End test_types.

Import test_types.

Lemma store_never_panics_witness :
  ∃ c : @cache.Cache Z TestValue _ _,
    run ops (new config) = Some c ∧ ram_bytes (stats c) <= 1024.
Proof.
  destruct (store_never_panics test_values_ok test_index_ok config ops)
    as (c & E & _ & Hr & _); [apply config_is_ok|apply ops_ok|]. eauto.
Defined.


Lemma get_exact_witness : ∃ r c', get 20 1 store = Some (r, c').
Proof.
  destruct (get_exact test_values_ok test_index_ok config store 20 1)
    as (r & c' & E & _); [apply config_is_ok|apply store_reachable|]. eauto.
Defined.

Lemma insert_exact_witness :
  ∃ c', insert 513 (ram 5) store = Some c' ∧
    (¬ store_fits store 513 (ram 5) → peek c' 513 = peek store 513).
Proof.
  destruct (insert_exact test_values_ok test_index_ok config store 513 (ram 5))
    as (c' & E & _ & Hn & _); [apply config_is_ok|apply store_reachable|done|]. eauto.
Defined.

Lemma evicts_least_recent_witness :
  ∃ s rl dl a', acc_ok (others store s) (0, 0) (enter store s) (contents s) rl dl ∧
    enforce_budgets 1 (enter store s) = Some a'.
Proof.
  destruct (reachable_ok test_values_ok test_index_ok config store config_is_ok store_reachable)
    as [Hc _].
  destruct (shard_for_some test_index_ok store 1 Hc) as [s Hs].
  destruct (enter_ok store _ s Hc Hs) as (rl & dl & Ha). exists s, rl, dl.
  destruct (evicts_least_recent (others store s) 1 (enter store s) (contents s) rl dl Ha)
    as (a' & _ & _ & _ & _ & E & _); [done|]. eauto.
Defined.

Lemma sweep_leaves_nothing_over_witness :
  ∃ swept c', sweep_expired 60 store = Some (swept, c') ∧
    ∀ k v d, peek c' k = Some v → v_deadline v = Some d → 60 < d.
Proof.
  destruct (sweep_leaves_nothing_over test_values_ok test_index_ok config ops store 60)
    as (n & c' & E & _ & Hd & _); [apply config_is_ok|apply ops_ok| |apply test_deadlines_dead|apply store_run|].
  { repeat constructor; try done; apply test_deadlines_dead. }
  eauto.
Defined.

End sharded_cache.
