(* ===== verification/FastCgi.v ===== *)
(** * The FastCGI wire: [crates/hj-fastcgi/src/proto.rs] and [response.rs]

    Records out (BEGIN_REQUEST, the PARAMS and STDIN streams, END_REQUEST), records in, and
    the CGI head an application answers with. A [BytesMut] that is parsed from the front is
    the octets before and after. The application's side of the PARAMS stream, which the
    FastCGI specification defines, is [read_pairs]. *)

From stdpp Require Import base list strings.
From Stdlib Require Import ZArith Lia.
From S2P Require Import Prelude RustStr HttpUtil.

Import headers.
#[local] Open Scope result_scope.

Module fastcgi.

Definition FCGI_VERSION_1 : Z := 1.
Definition FCGI_RESPONDER : Z := 1.
Definition FCGI_KEEP_CONN : Z := 1.
Definition HEADER_LEN : nat := 8.
Definition MAX_CONTENT_LEN : Z := 65535.
Definition MAX_PAIR_FIELD_LEN : Z := 0x7fffffff.

Inductive RecordType : Type :=
| BeginRequest | AbortRequest | EndRequest | Params | Stdin | Stdout | Stderr | Data.

(** [kind as u8] *)
Definition record_type_u8 (kind : RecordType) : Z :=
  match kind with
  | BeginRequest => 1 | AbortRequest => 2 | EndRequest => 3 | Params => 4
  | Stdin => 5 | Stdout => 6 | Stderr => 7 | Data => 8
  end.

#[export] Instance RecordType_eq_dec : EqDecision RecordType.
Proof. solve_decision. Defined.

Inductive WireError : Type :=
| RequestId | Version | RecordType_ | Reserved | FieldTooLarge | ParamsTooLarge.

(** [RecordType::try_from] *)
Definition try_from (value : Z) : result WireError RecordType :=
  match value with
  | 1 => Ok BeginRequest | 2 => Ok AbortRequest | 3 => Ok EndRequest | 4 => Ok Params
  | 5 => Ok Stdin | 6 => Ok Stdout | 7 => Ok Stderr | 8 => Ok Data
  | _ => Err RecordType_
  end.

Record Record_ : Type := {
  kind : RecordType;
  request_id : Z;
  content : list Z;
}.

Definition record (kind : RecordType) (request_id : Z) (content : list Z)
    : result WireError (list Z) :=
  if request_id =? 0 then Err RequestId
  else if MAX_CONTENT_LEN <? zlen content then Err FieldTooLarge
  else
    let padding := (8 - zlen content mod 8) mod 8 in
    Ok ([FCGI_VERSION_1; record_type_u8 kind] ++ to_be_bytes 2 request_id
        ++ to_be_bytes 2 (u16 (zlen content)) ++ [u8 padding; 0] ++ content
        ++ replicate (Z.to_nat padding) 0).

Definition begin_request (request_id : Z) (keep_connection : bool) : result WireError (list Z) :=
  record BeginRequest request_id
    (to_be_bytes 2 FCGI_RESPONDER ++ [if keep_connection then FCGI_KEEP_CONN else 0]
     ++ replicate 5 0).

Definition put_len (out : list Z) (len : Z) : result WireError (list Z) :=
  if len <? 128 then Ok (out ++ [u8 len])
  else if len <=? MAX_PAIR_FIELD_LEN then Ok (out ++ to_be_bytes 4 (Z.lor (u32 len) 0x80000000))
  else Err FieldTooLarge.

(** [chunks(n)] *)
Fixpoint chunks_loop (fuel n : nat) (l : list Z) : list (list Z) :=
  match fuel, l with
  | S fuel, _ :: _ => take n l :: chunks_loop fuel n (drop n l)
  | _, _ => []
  end.
Definition chunks (n : Z) (l : list Z) : list (list Z) := chunks_loop (length l) (Z.to_nat n) l.

(** [map(..).collect::<Result<Vec<_>, _>>()] *)
Fixpoint collect {A B} (f : A → result WireError B) (l : list A) : result WireError (list B) :=
  match l with
  | [] => Ok []
  | x :: l => let? y := f x in let? ys := collect f l in Ok (y :: ys)
  end.

Definition encode_stream (kind : RecordType) (request_id : Z) (bytes : list Z)
    : result WireError (list (list Z)) :=
  if request_id =? 0 then Err RequestId
  else collect (record kind request_id) (chunks MAX_CONTENT_LEN bytes).

Fixpoint encode_pairs (pairs : list (list Z * list Z)) (max_encoded_bytes : Z) (encoded : list Z)
    : result WireError (list Z) :=
  match pairs with
  | [] => Ok encoded
  | (name, value) :: pairs =>
      let prefix := (if 128 <=? zlen name then 3 else 0) + (if 128 <=? zlen value then 3 else 0) + 2 in
      let added := s ← checked_add prefix (zlen name); checked_add s (zlen value) in
      let? added := ok_or added ParamsTooLarge in
      if saturating_sub max_encoded_bytes (zlen encoded) <? added then Err ParamsTooLarge
      else
        let? encoded := put_len encoded (zlen name) in
        let? encoded := put_len encoded (zlen value) in
        encode_pairs pairs max_encoded_bytes (encoded ++ name ++ value)
  end.

Definition encode_name_value_pairs (request_id : Z) (pairs : list (list Z * list Z))
    (max_encoded_bytes : Z) : result WireError (list (list Z)) :=
  if request_id =? 0 then Err RequestId
  else
    let? encoded := encode_pairs pairs max_encoded_bytes [] in
    let? records := encode_stream Params request_id encoded in
    let? last := record Params request_id [] in
    Ok (records ++ [last]).

Definition end_stream (kind : RecordType) (request_id : Z) : result WireError (list Z) :=
  record kind request_id [].

Definition end_request (request_id app_status : Z) : result WireError (list Z) :=
  record EndRequest request_id (to_be_bytes 4 app_status ++ replicate 4 0).

(** The record and what is left of the input, or [None] with the input untouched. *)
Definition parse_record (input : list Z) : result WireError (option (Record_ * list Z)) :=
  match input with
  | b0 :: b1 :: b2 :: b3 :: b4 :: b5 :: b6 :: b7 :: body =>
      if negb (b0 =? FCGI_VERSION_1) then Err Version
      else
        let? kind := try_from b1 in
        let request_id := from_be_bytes [b2; b3] in
        if request_id =? 0 then Err RequestId
        else
          let content_len := Z.to_nat (from_be_bytes [b4; b5]) in
          let padding_len := Z.to_nat b6 in
          if negb (b7 =? 0) then Err Reserved
          else if (length body <? content_len + padding_len)%nat then Ok None
          else
            Ok (Some ({| kind := kind; request_id := request_id;
                         content := take content_len body |},
                      drop (content_len + padding_len) body))
  | _ => Ok None
  end.

(** ** The response *)

Inductive ResponseError : Type := Incomplete | TooLarge | Malformed | IncompleteRequest.

Record CgiHead : Type := {
  status : Z;
  headers : HeaderMap;
  body_prefix : list Z;
}.

Definition is_origin_cache_control (name : list Z) : bool :=
  existsb (bytes_eqb name)
    [bs "x-litespeed-purge"; bs "x-litespeed-cache-control"; bs "x-litespeed-tag";
     bs "x-litespeed-vary"; bs "x-wf-capsule"; bs "x-wf-capsule-tags"; bs "x-cache-optimizer"].

Definition is_hop_by_hop (name : list Z) : bool :=
  existsb (bytes_eqb name)
    [bs "connection"; bs "keep-alive"; bs "proxy-connection"; bs "transfer-encoding";
     bs "upgrade"; bs "te"; bs "trailer"].

(** [windows(4).position(..)] of CRLF CRLF: what is before it and what is after it. *)
Fixpoint find_boundary (bytes : list Z) : option (list Z * list Z) :=
  match strip_prefix [13; 10; 13; 10] bytes with
  | Some rest => Some ([], rest)
  | None =>
      match bytes with
      | [] => None
      | b :: bytes =>
          match find_boundary bytes with
          | Some (head, rest) => Some (b :: head, rest)
          | None => None
          end
      end
  end.

(** [StatusCode::from_u16] of the [http] crate takes 100 to 999. *)
Definition parse_status (value : list Z) : result ResponseError Z :=
  let code :=
    word ← head (split 0x20 value);
    word ← (if utf8_valid word then Some word else None);
    code ← parse_unsigned 65535 word;
    code ← (if between 100 999 code then Some code else None);
    if between 100 199 code then None else Some code in
  ok_or code Malformed.

Section head.
Context `{HttpCrate}.

(** One line that is neither empty nor folded, split at its first colon. *)
Definition parse_line (line : list Z) : result ResponseError (list Z * list Z) :=
  if bool_decide (line = []) || (match line with b :: _ => (b =? 0x20) || (b =? 9) | [] => false end)
  then Err Malformed
  else
    match split_once 0x3a line with
    | None => Err Malformed
    | Some (name, rest) =>
        let? name := ok_or (header_name name) Malformed in
        Ok (name, default rest (strip_prefix [0x20] rest))
    end.

Record HeadState : Type := {
  hs_status : option Z;
  hs_headers : HeaderMap;
  hs_count : Z;
}.

(** The body of the loop, after the line's end. *)
Definition take_line (max_headers : Z) (line : list Z) (st : HeadState)
    : result ResponseError HeadState :=
  let? field := parse_line line in
  let (name, value) := field in
  if bytes_eqb name (bs "status") then
    if bool_decide (hs_status st ≠ None) then Err Malformed
    else
      let? code := parse_status value in
      Ok {| hs_status := Some code; hs_headers := hs_headers st; hs_count := hs_count st |}
  else
    let count := hs_count st + 1 in
    if max_headers <? count then Err TooLarge
    else if is_hop_by_hop name || is_origin_cache_control name then
      Ok {| hs_status := hs_status st; hs_headers := hs_headers st; hs_count := count |}
    else if negb (header_value_ok value) then Err Malformed
    else
      Ok {| hs_status := hs_status st; hs_headers := append (hs_headers st) name value;
            hs_count := count |}.

Fixpoint head_lines (max_headers : Z) (lines : list (list Z)) (st : HeadState)
    : result ResponseError HeadState :=
  match lines with
  | [] => Ok st
  | raw :: lines =>
      let? line :=
        match strip_suffix [13] raw with
        | Some line => Ok line
        | None => if bool_decide (lines = []) then Ok raw else Err Malformed
        end in
      let? st := take_line max_headers line st in
      head_lines max_headers lines st
  end.

Definition parse_cgi_head (bytes : list Z) (max_header_bytes max_headers : Z)
    : result ResponseError CgiHead :=
  match find_boundary bytes with
  | None => Err Incomplete
  | Some (head, rest) =>
      let head_len := zlen head + 4 in
      if (max_header_bytes <? head_len) || (max_headers =? 0) then Err TooLarge
      else
        let? st := head_lines max_headers (split 10 head)
            {| hs_status := None; hs_headers := []; hs_count := 0 |} in
        let status :=
          match hs_status st with
          | Some code => code
          | None => if contains_key (hs_headers st) (bs "location") then 302 else 200
          end in
        Ok {| status := status; headers := hs_headers st; body_prefix := rest |}
  end.

End head.

Definition parse_end_request (content : list Z) : result ResponseError Z :=
  match content with
  | [b0; b1; b2; b3; protocol_status; _; _; _] =>
      if negb (protocol_status =? 0) then Err IncompleteRequest
      else Ok (from_be_bytes [b0; b1; b2; b3])
  | _ => Err IncompleteRequest
  end.

(** ** Records *)

Lemma Ok_inj {E A} (x y : A) : @Ok E A x = Ok y → x = y.
Proof. congruence. Qed.

Lemma from_be_bytes_2 x : 0 <= x < 65536 → ∃ a b, to_be_bytes 2 x = [a; b] ∧ from_be_bytes [a; b] = x.
Proof.
  intros Hx. pose proof (length_to_be_bytes 2 x) as Hl.
  destruct (to_be_bytes 2 x) as [|a [|b [|]]] eqn:E; try done. exists a, b. split; [done|].
  rewrite <-E. apply from_to_be_bytes_id. exact Hx.
Qed.

Lemma try_from_u8 k : try_from (record_type_u8 k) = Ok k.
Proof. by destruct k. Qed.

Lemma padding_range (n : Z) : 0 <= (8 - n mod 8) mod 8 < 8.
Proof. by apply Z.mod_pos_bound. Qed.

(** What a record on the wire parses back to, whatever follows it. *)
Lemma parse_record_write k id c out rest :
  0 <= id < 65536 → record k id c = Ok out →
  parse_record (out ++ rest) = Ok (Some ({| kind := k; request_id := id; content := c |}, rest))
  ∧ (8 ≤ length out)%nat.
Proof.
  intros Hid. unfold record. destruct (Z.eqb_spec id 0); [done|].
  destruct (Z.ltb_spec MAX_CONTENT_LEN (zlen c)) as [|Hc]; [done|]. intros <-%Ok_inj.
  unfold MAX_CONTENT_LEN in Hc. pose proof (zlen_nonneg c). pose proof (padding_range (zlen c)) as Hp.
  set (pad := (8 - zlen c mod 8) mod 8) in *. clearbody pad.
  rewrite (wrap_id 16), (wrap_id 8) by lia.
  destruct (from_be_bytes_2 id) as (a & b & -> & Ei); [done|].
  destruct (from_be_bytes_2 (zlen c)) as (x & y & -> & Ec); [lia|].
  split; [|cbn; lia]. rewrite <-!app_assoc. cbn [app parse_record].
  rewrite Z.eqb_refl. cbn [negb]. rewrite try_from_u8, Ei, Ec. cbn [negb].
  destruct (Z.eqb_spec id 0); [done|]. cbn [negb Z.eqb].
  assert (El : Z.to_nat (zlen c) = length c) by (unfold zlen; lia). rewrite El.
  rewrite !length_app, length_replicate. destruct (Nat.ltb_spec (length c + (Z.to_nat pad + length rest))
    (length c + Z.to_nat pad)); [lia|].
  rewrite take_app_length, app_assoc, drop_app_length'; [done|].
  by rewrite length_app, length_replicate.
Qed.

(** The header of a record, read. *)
Record Header : Type := {
  h_kind : RecordType;
  h_id : Z;
  h_content : nat;
  h_padding : nat;
}.

Definition parse_header (b0 b1 b2 b3 b4 b5 b6 b7 : Z) : result WireError Header :=
  if negb (b0 =? FCGI_VERSION_1) then Err Version
  else
    let? kind := try_from b1 in
    if from_be_bytes [b2; b3] =? 0 then Err RequestId
    else if negb (b7 =? 0) then Err Reserved
    else
      Ok {| h_kind := kind; h_id := from_be_bytes [b2; b3];
            h_content := Z.to_nat (from_be_bytes [b4; b5]); h_padding := Z.to_nat b6 |}.

Lemma parse_record_header b0 b1 b2 b3 b4 b5 b6 b7 body :
  parse_record (b0 :: b1 :: b2 :: b3 :: b4 :: b5 :: b6 :: b7 :: body) =
    let? h := parse_header b0 b1 b2 b3 b4 b5 b6 b7 in
    if (length body <? h_content h + h_padding h)%nat then Ok None
    else Ok (Some ({| kind := h_kind h; request_id := h_id h; content := take (h_content h) body |},
                   drop (h_content h + h_padding h) body)).
Proof.
  cbn [parse_record]. unfold parse_header. destruct (negb (b0 =? _)); [done|].
  destruct (try_from b1); [|done]. destruct (from_be_bytes [b2; b3] =? 0); [done|].
  by destruct (negb (b7 =? 0)).
Qed.

Ltac header_cases a :=
  destruct a as [|b0 [|b1 [|b2 [|b3 [|b4 [|b5 [|b6 [|b7 body]]]]]]]]; try done;
  cbn [app]; rewrite ?parse_record_header;
  destruct (parse_header b0 b1 b2 b3 b4 b5 b6 b7) as [h|]; try done.

(** More input never changes what was decided. *)
Lemma parse_record_app a b r rest :
  parse_record a = Ok (Some (r, rest)) → parse_record (a ++ b) = Ok (Some (r, rest ++ b)).
Proof.
  header_cases a. rewrite length_app. destruct (Nat.ltb_spec (length body) (h_content h + h_padding h)); [done|].
  intros [= <- <-].
  destruct (Nat.ltb_spec (length body + length b) (h_content h + h_padding h)); [lia|].
  rewrite take_app_le, drop_app_le by lia. done.
Qed.

Lemma parse_record_app_err a b e : parse_record a = Err e → parse_record (a ++ b) = Err e.
Proof. header_cases a. by destruct (length body <? _)%nat. Qed.

Lemma parse_record_shorter a r rest :
  parse_record a = Ok (Some (r, rest)) → (length rest + 8 ≤ length a)%nat.
Proof.
  header_cases a. destruct (Nat.ltb_spec (length body) (h_content h + h_padding h)); [done|].
  intros [= <- <-]. rewrite length_drop. cbn. lia.
Qed.

(** ** The head *)

Definition kept (f : list Z * list Z) : Prop :=
  f.1 ≠ bs "status" ∧ is_hop_by_hop f.1 = false ∧ is_origin_cache_control f.1 = false.

#[export] Instance kept_dec f : Decision (kept f).
Proof. unfold kept. apply _. Defined.

Section cgi_head.
Context `{HttpCrate}.

Lemma parse_status_range value c : parse_status value = Ok c → 200 <= c <= 999.
Proof.
  unfold parse_status. destruct (head (split 0x20 value)) as [w|]; [|done]. cbn [mbind option_bind].
  destruct (utf8_valid w); [|done]. cbn [mbind option_bind].
  destruct (parse_unsigned 65535 w) as [n|]; [|done]. cbn [mbind option_bind].
  destruct (between 100 999 n) eqn:E1; [|done]. cbn [mbind option_bind].
  destruct (between 100 199 n) eqn:E2; [done|]. intros <-%Ok_inj. unfold between in *. bool_hyps. lia.
Qed.

(** The fields of the lines. *)
Definition is_line (raw : list Z) (f : list Z * list Z) : Prop :=
  parse_line raw = Ok f ∨ ∃ line, raw = line ++ [13] ∧ parse_line line = Ok f.

Definition is_status (f : list Z * list Z) : Prop := f.1 = bs "status".

Lemma take_line_ok max line st st' :
  take_line max line st = Ok st' →
  ∃ f, parse_line line = Ok f ∧
    hs_headers st' = hs_headers st ++ filter kept [f] ∧
    hs_count st' = hs_count st + zlen (filter (fun f => ¬ is_status f) [f]) ∧
    (hs_count st <= max → hs_count st' <= max) ∧
    (is_status f ∧ hs_status st = None ∧ (∃ code, parse_status f.2 = Ok code ∧ hs_status st' = Some code) ∨
     ¬ is_status f ∧ hs_status st' = hs_status st) ∧
    (kept f → header_value_ok f.2 = true).
Proof.
  unfold take_line. destruct (parse_line line) as [[name value]|] eqn:El; [|done].
  destruct (bytes_eqb name (bs "status")) eqn:Es.
  { apply bytes_eqb_eq in Es as ->. destruct (bool_decide_reflect (hs_status st ≠ None)) as [|Hn]; [done|].
    destruct (parse_status value) as [code|] eqn:Ec; [|done]. intros <-%Ok_inj. eexists. split; [done|].
    cbn [hs_headers hs_count hs_status]. rewrite !filter_cons, decide_False, decide_False, !filter_nil
      by (unfold kept, is_status; cbn; naive_solver).
    rewrite app_nil_r. split; [done|]. split; [change (zlen (@nil (list Z * list Z))) with 0; lia|]. split; [done|].
    split; [left|by intros [? _]]. split; [done|]. split; [by destruct (hs_status st); [destruct Hn|]|].
    by eexists. }
  apply bytes_eqb_neq in Es. destruct (Z.ltb_spec max (hs_count st + 1)); [done|].
  assert (Hf : filter (fun f : list Z * list Z => ¬ is_status f) [(name, value)] = [(name, value)])
    by (rewrite filter_cons, decide_True by done; done).
  destruct (is_hop_by_hop name || is_origin_cache_control name) eqn:Eh.
  - intros <-%Ok_inj. eexists. split; [done|]. cbn [hs_headers hs_count hs_status]. rewrite Hf.
    assert (Hk : ¬ kept (name, value)) by (intros (_ & H1 & H2); cbn in *; by rewrite H1, H2 in Eh).
    rewrite filter_cons, decide_False, filter_nil, app_nil_r by done. naive_solver.
  - destruct (header_value_ok value) eqn:Ev; [|done]. cbn [negb]. intros <-%Ok_inj. eexists. split; [done|].
    cbn [hs_headers hs_count hs_status]. rewrite Hf. apply orb_false_iff in Eh as [? ?].
    rewrite filter_cons, decide_True by done. naive_solver.
Qed.

(** The one Status line, or none. *)
Definition status_of (fields : list (list Z * list Z)) (code : option Z) : Prop :=
  match filter is_status fields with
  | [] => code = None
  | [f] => ∃ c, parse_status f.2 = Ok c ∧ code = Some c
  | _ => False
  end.

Lemma head_lines_ok max lines st st' :
  head_lines max lines st = Ok st' → hs_count st <= max →
  ∃ fields, Forall2 is_line lines fields ∧
    hs_headers st' = hs_headers st ++ filter kept fields ∧
    hs_count st + zlen (filter (fun f => ¬ is_status f) fields) <= max ∧
    match hs_status st with
    | None => status_of fields (hs_status st')
    | Some _ => filter is_status fields = [] ∧ hs_status st' = hs_status st
    end ∧
    Forall (fun f => kept f → header_value_ok f.2 = true) fields.
Proof.
  revert st. induction lines as [|raw lines IH]; intros st; cbn [head_lines].
  { intros <-%Ok_inj Hle. exists []. split; [constructor|]. rewrite app_nil_r. split; [done|].
    split; [by rewrite Z.add_0_r|]. by destruct (hs_status st). }
  destruct (match strip_suffix [13] raw with Some _ => _ | None => _ end) as [line|] eqn:El; [|done].
  destruct (take_line max line st) as [st1|] eqn:Et; [|done]. intros Hh Hle.
  apply take_line_ok in Et as (f & Hp & Hd & Hc & Hle1 & Hs & Hv).
  apply IH in Hh as (fields & Hl & Hd' & Hc' & Hs' & Hv'); [|auto]. exists (f :: fields).
  change (f :: fields) with ([f] ++ fields). rewrite !filter_app, zlen_app, Hd', Hd, <-app_assoc.
  assert (Hline : is_line raw f).
  { destruct (strip_suffix [13] raw) as [l|] eqn:E; [|destruct (bool_decide (lines = [])); [left|done]].
    - right. exists l. apply Ok_inj in El as ->. split; [|done].
      unfold strip_suffix in E. destruct (strip_prefix (rev [13]) (rev raw)) as [r|] eqn:E'; [|done].
      apply strip_prefix_some in E'. injection E as <-. rewrite <-(rev_involutive raw), E'. done.
    - by apply Ok_inj in El as ->. }
  split; [by constructor|]. split; [done|]. split; [lia|]. split; [|by constructor].
  unfold status_of in *. rewrite filter_app. destruct Hs as [(Hst & Hn & code & Hcode & Hs)|[Hst Hs]].
  - rewrite Hn, (filter_cons_True _ f []), filter_nil by done. cbn [app]. rewrite Hs in Hs'.
    destruct Hs' as [-> ->]. eauto.
  - rewrite (filter_cons_False _ f []), filter_nil by done. cbn [app]. by rewrite <-Hs.
Qed.

(** An accepted CGI head has its fields in order without Status, hop-by-hop and
    cache-control fields, at most the configured number of them, the status of the one
    Status line or 302 or 200, never informational, and the octets after the blank line as
    the start of the body. *)
Theorem cgi_head_exact bytes max_bytes max_headers p :
  0 <= max_headers → parse_cgi_head bytes max_bytes max_headers = Ok p →
  ∃ head fields code, find_boundary bytes = Some (head, body_prefix p) ∧
    zlen head + 4 <= max_bytes ∧ Forall2 is_line (split 10 head) fields ∧
    headers p = filter kept fields ∧ zlen (headers p) <= max_headers ∧
    Forall (fun f => header_value_ok f.2 = true) (headers p) ∧
    status_of fields code ∧ 200 <= status p <= 999 ∧
    status p = match code with
               | Some c => c
               | None => if contains_key (headers p) (bs "location") then 302 else 200
               end.
Proof.
  intros Hmax. unfold parse_cgi_head. destruct (find_boundary bytes) as [[head rest]|]; [|done].
  destruct (_ || _) eqn:Eb; [done|]. apply orb_false_iff in Eb as [Eb%Z.ltb_ge _].
  destruct (head_lines _ _ _) as [st|] eqn:Eh; [|done]. intros <-%Ok_inj.
  apply head_lines_ok in Eh as (fields & Hl & Hd & Hc & Hs & Hv); [|done]. cbn [hs_status hs_headers hs_count app] in *.
  exists head, fields, (hs_status st). cbn [status headers body_prefix]. rewrite Hd.
  split; [done|]. split; [done|]. split; [done|]. split; [done|].
  split; [|split; [|split; [done|split; [|done]]]].
  - etrans; [|exact Hc]. clear. induction fields as [|f fields IH]; [done|].
    rewrite !filter_cons. destruct (decide (kept f)) as [Hk|], (decide (¬ is_status f)) as [|Hn];
      rewrite ?zlen_cons; try lia. by destruct Hn; destruct Hk.
  - apply Forall_forall. intros f [Hk Hf]%list_elem_of_filter. by apply (proj1 (Forall_forall _ _) Hv).
  - unfold status_of in Hs. destruct (filter is_status fields) as [|f [|? ?]]; [|destruct Hs as (c & Hp & ->)|done].
    + rewrite Hs. destruct (contains_key _ _); lia.
    + by eapply parse_status_range.
Qed.

End cgi_head.

Definition test_head : list Z :=
  bs "Status: 404 Not Found" ++ [13; 10] ++ bs "Connection: close" ++ [13; 10] ++ bs "X-A: b"
  ++ [13; 10; 13; 10] ++ bs "body".

Lemma cgi_head_exact_witness :
  match parse_cgi_head (H := http_util.http_ascii) test_head 100 4 with
  | Ok p => p = {| status := 404; headers := [(bs "x-a", bs "b")]; body_prefix := bs "body" |} ∧
      200 <= status p <= 999
  | Err _ => False
  end.
Proof.
  pose proof (cgi_head_exact (H := http_util.http_ascii) test_head 100 4) as He.
  destruct (parse_cgi_head _ _ _) as [p|] eqn:E; [|by vm_compute in E].
  destruct (He p ltac:(lia) eq_refl) as (head & fields & code & _ & _ & _ & _ & _ & _ & _ & Hs & _).
  split; [|exact Hs]. vm_compute in E. by apply Ok_inj in E as <-.
Defined.

End fastcgi.
