(* ===== verification/FastCgiPool.v ===== *)
(** * The connection pool: [crates/hj-fastcgi/src/pool.rs]

    The state behind the lock, and what the tasks outside it hold: slots reserved for a dial
    under way ([SlotGuard]) and connections handed out ([PooledConnection]). A step is one
    critical section of one task, so any interleaving of tasks is a sequence of steps. A
    stream is a number; whether it answers its probe is what [is_healthy] says. *)

From stdpp Require Import base list relations.
From Stdlib Require Import ZArith Lia.
From S2P Require Import Prelude.

Module pool.

Record Idle : Type := { stream : nat; since : Z }.

Record State : Type := { open : Z; idle : list Idle }.

Record PooledConnection : Type := { conn_stream : nat; reusable : bool }.

Section pool.
Context (max_open idle_timeout : Z).

(** The first loop of [acquire_inner]: the front of the queue has been idle longest. *)
Fixpoint drop_stale (now : Z) (open : Z) (l : list Idle) : State :=
  match l with
  | i :: l' =>
      if idle_timeout <=? now - since i then drop_stale now (open - 1) l'
      else {| open := open; idle := l |}
  | [] => {| open := open; idle := [] |}
  end.

(** The second loop, on the queue from its back. *)
Fixpoint pop_healthy (is_healthy : nat → bool) (open : Z) (back : list Idle)
    : option nat * State :=
  match back with
  | i :: back =>
      if is_healthy (stream i) then (Some (stream i), {| open := open; idle := rev back |})
      else pop_healthy is_healthy (open - 1) back
  | [] => (None, {| open := open; idle := [] |})
  end.

Inductive Acquired : Type := Reused (s : nat) | Reserve | Wait.

(** The critical section of [acquire_inner]. *)
Definition acquire_locked (now : Z) (is_healthy : nat → bool) (st : State) : Acquired * State :=
  let st := drop_stale now (open st) (idle st) in
  match pop_healthy is_healthy (open st) (rev (idle st)) with
  | (Some s, st) => (Reused s, st)
  | (None, st) =>
      if open st <? max_open then (Reserve, {| open := open st + 1; idle := idle st |})
      else (Wait, st)
  end.

Definition release_open (st : State) : State := {| open := open st - 1; idle := idle st |}.

(** [mark_reusable] and [drop] of a connection. *)
Definition mark_reusable (c : PooledConnection) : PooledConnection :=
  {| conn_stream := conn_stream c; reusable := true |}.

Definition drop_conn (now : Z) (c : PooledConnection) (st : State) : State :=
  if reusable c
  then {| open := open st; idle := idle st ++ [{| stream := conn_stream c; since := now |}] |}
  else release_open st.

(** ** Tasks *)

Record World : Type := {
  state : State;
  dialing : nat;
  leased : list PooledConnection;
}.

Definition fresh_conn (s : nat) : PooledConnection := {| conn_stream := s; reusable := false |}.

Inductive step : World → World → Prop :=
  | step_reuse now is_healthy s st' w :
      acquire_locked now is_healthy (state w) = (Reused s, st') →
      step w {| state := st'; dialing := dialing w; leased := fresh_conn s :: leased w |}
  | step_reserve now is_healthy st' w :
      acquire_locked now is_healthy (state w) = (Reserve, st') →
      step w {| state := st'; dialing := S (dialing w); leased := leased w |}
  | step_wait now is_healthy st' w :
      acquire_locked now is_healthy (state w) = (Wait, st') →
      step w {| state := st'; dialing := dialing w; leased := leased w |}
  (** the dial succeeds: the guard is disarmed *)
  | step_connected s d w :
      dialing w = S d →
      step w {| state := state w; dialing := d; leased := fresh_conn s :: leased w |}
  (** it fails, times out or is cancelled: the guard is dropped *)
  | step_abandoned d w :
      dialing w = S d →
      step w {| state := release_open (state w); dialing := d; leased := leased w |}
  | step_mark l1 c l2 w :
      leased w = l1 ++ c :: l2 →
      step w {| state := state w; dialing := dialing w; leased := l1 ++ mark_reusable c :: l2 |}
  | step_drop now l1 c l2 w :
      leased w = l1 ++ c :: l2 →
      step w {| state := drop_conn now c (state w); dialing := dialing w; leased := l1 ++ l2 |}.

Definition init : World :=
  {| state := {| open := 0; idle := [] |}; dialing := 0; leased := [] |}.

(** ** The cap *)

(** [n] of the open connections are not idle. *)
Definition counted (n : Z) (st : State) : Prop := open st = zlen (idle st) + n ∧ 0 <= n.

Lemma drop_stale_counted now o l n :
  counted n {| open := o; idle := l |} →
  counted n (drop_stale now o l) ∧ open (drop_stale now o l) <= o.
Proof.
  revert o. induction l as [|i l IH]; intros o Hc; [cbn; split; [done|lia]|]. cbn [drop_stale].
  case_if; [|cbn; split; [done|lia]].
  destruct (IH (o - 1)) as [? ?]; [|split; [done|lia]].
  destruct Hc as [Hc ?]. unfold counted. cbn [open idle] in *. rewrite zlen_cons in Hc. lia.
Qed.

Lemma pop_healthy_counted h o back n r st :
  o = zlen back + n → 0 <= n → pop_healthy h o back = (r, st) →
  open st <= o ∧
  match r with
  | Some _ => counted (n + 1) st
  | None => counted n st ∧ open st = n
  end.
Proof.
  revert o. induction back as [|i back IH]; intros o Ho Hn; cbn [pop_healthy].
  { intros [= <- <-]. unfold counted, zlen in *. cbn in *. lia. }
  rewrite zlen_cons in Ho. case_if.
  - intros [= <- <-]. unfold counted, zlen in *. cbn [open idle]. rewrite length_rev. lia.
  - intros [Hle Hr]%IH; [|lia..]. split; [lia|done].
Qed.

Lemma acquire_locked_counted now h st n r st' :
  counted n st → open st <= max_open → acquire_locked now h st = (r, st') →
  open st' <= max_open ∧ counted (match r with Wait => n | _ => n + 1 end) st' ∧
  (r = Wait → max_open <= n).
Proof.
  intros Hc Hmax. unfold acquire_locked. destruct st as [o l]. cbn [open idle] in *.
  apply (drop_stale_counted now) in Hc as [Hc Hle]. destruct (drop_stale now o l) as [o1 l1].
  cbn [open idle] in *. destruct Hc as [Ho Hn]. cbn [open idle] in Ho.
  destruct (pop_healthy h o1 (rev l1)) as [[s|] st1] eqn:Ep; apply (pop_healthy_counted _ _ _ n) in Ep;
    try done; try (unfold zlen in *; rewrite length_rev; lia).
  - intros [= <- <-]. split; [lia|]. split; [tauto|done].
  - destruct Ep as (? & Hc & E0).
    destruct (Z.ltb_spec (open st1) max_open); intros [= <- <-]; [|split; [lia|]; split; [done|lia]].
    unfold counted in *. cbn [open idle]. split; [lia|]. split; [lia|done].
Qed.

Definition outside (w : World) : Z := Z.of_nat (dialing w) + zlen (leased w).

Definition world_ok (w : World) : Prop :=
  counted (outside w) (state w) ∧ open (state w) <= max_open.

Lemma step_ok w w' : world_ok w → step w w' → world_ok w'.
Proof.
  intros [Hc Hmax] Hs. destruct Hs as [now h s st' w E|now h st' w E|now h st' w E|s d w E|d w E|l1 c l2 w E|now l1 c l2 w E].
  1-3: destruct (acquire_locked_counted _ _ _ _ _ _ Hc Hmax E) as (? & Hc' & _); split; [|done];
    unfold outside in *; cbn [dialing leased state]; rewrite ?zlen_cons;
    by match goal with |- counted ?n _ => replace n with (Z.of_nat (dialing w) + zlen (leased w) + 1) by lia
       | |- _ => idtac end.
  all: unfold world_ok, outside, counted in *; cbn [dialing leased state release_open open idle] in *.
  - rewrite zlen_cons. lia.
  - pose proof (zlen_nonneg (leased w)). lia.
  - rewrite E in Hc. rewrite zlen_app, zlen_cons in *. lia.
  - rewrite E, !zlen_app, zlen_cons in Hc. pose proof (zlen_nonneg l1). pose proof (zlen_nonneg l2).
    unfold drop_conn. destruct (reusable c); cbn [open idle release_open];
      rewrite ?zlen_app; change (zlen [_]) with 1; lia.
Qed.

(** C35. However acquisitions, dials, cancelled dials and returned connections interleave,
    the open count is the idle, leased and dialing connections together and within the cap,
    and an acquisition waits only when as many as the cap are in use. *)
Theorem pool_within_cap w :
  0 < max_open → rtc step init w →
  open (state w) = zlen (idle (state w)) + zlen (leased w) + Z.of_nat (dialing w) ∧
  0 <= open (state w) <= max_open ∧
  ∀ now is_healthy st', acquire_locked now is_healthy (state w) = (Wait, st') →
    zlen (leased w) + Z.of_nat (dialing w) = max_open.
Proof.
  intros Hpos Hr. assert (Hok : world_ok w).
  { revert w Hr. apply (rtc_ind_r world_ok).
    - unfold world_ok, counted, outside, zlen. cbn. lia.
    - intros w w' _ Hs Hw. by eapply step_ok. }
  destruct Hok as [Hc Hmax]. pose proof (zlen_nonneg (idle (state w))). pose proof (zlen_nonneg (leased w)).
  assert (Hs : open (state w) = zlen (idle (state w)) + zlen (leased w) + Z.of_nat (dialing w))
    by (destruct Hc; unfold outside in *; lia).
  split; [done|]. split; [lia|]. intros now h st' E.
  destruct (acquire_locked_counted _ _ _ _ _ _ Hc Hmax E) as (_ & _ & Hw). specialize (Hw eq_refl).
  unfold outside in Hw. lia.
Qed.

End pool.

(** Dial, mark, return, and take it again. *)
Lemma pool_within_cap_witness :
  ∃ w, leased w = [fresh_conn 7] ∧ rtc (step 1 30) init w ∧ open (state w) <= 1.
Proof.
  set (w := {| state := {| open := 1; idle := [] |}; dialing := 0; leased := [fresh_conn 7] |}).
  assert (Hr : rtc (step 1 30) init w).
  { eapply rtc_l; [by eapply (step_reserve _ _ 0 (fun _ => true))|].
    eapply rtc_l; [by eapply (step_connected _ _ 7 0)|].
    eapply rtc_l; [by eapply (step_mark _ _ [] (fresh_conn 7) [])|].
    eapply rtc_l; [by eapply (step_drop _ _ 5 [] (mark_reusable (fresh_conn 7)) [])|].
    apply rtc_once. by apply (step_reuse _ _ 6 (fun _ => true) 7 {| open := 1; idle := [] |}
      {| state := {| open := 1; idle := [{| stream := 7; since := 5 |}] |}; dialing := 0; leased := [] |}). }
  exists w. split; [done|]. split; [done|].
  destruct (pool_within_cap 1 30 w ltac:(lia) Hr) as (_ & [_ Hle] & _). exact Hle.
Defined.

End pool.
