(* ===== verification/FastCgiExchange.v ===== *)
(** * A FastCGI exchange: [crates/hj-fastcgi/src/handler.rs]

    [FastCgi::handle]: the body is collected under the server-wide budget, the request is
    written as records, and the response is read with [next_record], [CgiHeadBoundary],
    [feed] and [pump_response]. The CGI environment is what [build] makes of the headers, and
    the frames of the body are what the connection delivers. The socket is the list of what its reads give; when it is exhausted the
    next read times out. The body channel is [accepts], which says whether the receiver still
    takes its next chunk, and the chunks it was given. *)

From stdpp Require Import base list strings.
From Stdlib Require Import ZArith Lia.
From S2P Require Import Prelude RustStr HttpUtil Budget FastCgi.

Import headers fastcgi budget.
#[local] Open Scope result_scope.

Module exchange.

Definition REQUEST_ID : Z := 1.

Definition STDIN_INLINE_WRITE_MAX : Z := 64 * 1024.

Inductive HandlerError : Type :=
  | BadGateway | GatewayTimeout | Io
  | PayloadTooLarge | ServiceUnavailable | RequestHeaderFieldsTooLarge
  (** the panic of an [expect] *)
  | Panicked.

Inductive PoolError : Type := Timeout | Connect.

Definition map_pool_error (error : PoolError) : HandlerError :=
  match error with Timeout => GatewayTimeout | Connect => ServiceUnavailable end.

(** ** The request *)

Definition safe_extra_env_name (name : list Z) : bool :=
  let first b := is_ascii_uppercase b || (b =? 0x5f) in
  let valid :=
    negb (bool_decide (name = [])) && forallb (fun b => first b || is_ascii_digit b) name
    && match name with b :: _ => first b | [] => false end in
  if negb valid || starts_with name (bs "HTTP_") || starts_with name (bs "SSL_")
     || starts_with name (bs "REDIRECT_") then false
  else
    negb (existsb (bytes_eqb name)
      [bs "AUTH_TYPE"; bs "CONTENT_LENGTH"; bs "CONTENT_TYPE"; bs "DOCUMENT_ROOT";
       bs "GATEWAY_INTERFACE"; bs "HTTPS"; bs "PATH_INFO"; bs "PATH_TRANSLATED";
       bs "QUERY_STRING"; bs "REMOTE_ADDR"; bs "REMOTE_PORT"; bs "REMOTE_USER";
       bs "REQUEST_METHOD"; bs "REQUEST_TIME"; bs "REQUEST_TIME_FLOAT"; bs "REQUEST_URI";
       bs "SCRIPT_FILENAME"; bs "SCRIPT_NAME"; bs "SERVER_ADDR"; bs "SERVER_NAME";
       bs "SERVER_PORT"; bs "SERVER_PROTOCOL"; bs "SERVER_SOFTWARE"]).

(** [base_env]: the names and values added, or the name refused. *)
Fixpoint base_env (env values : list (list Z * list Z)) : result (list Z) (list (list Z * list Z)) :=
  match values with
  | [] => Ok env
  | (name, value) :: values =>
      if negb (safe_extra_env_name name) || existsb (Z.eqb 0) value then Err name
      else base_env (env ++ [(name, value)]) values
  end.

(** A frame of the incoming body: data, trailers, or an error of the connection. *)
Inductive Frame : Type := Data (data : list Z) | Trailers | Broken.

(** [collect_body]: the bytes and what their lease holds. An error drops the lease. *)
Fixpoint collect_body (frames : list Frame) (max : Z) (b : BodyBufferBudget) (held : Z)
    (bytes : list Z) : result HandlerError (list Z * Z) * BodyBufferBudget :=
  match frames with
  | [] => (Ok (bytes, held), b)
  | Broken :: _ => (Err BadGateway, lease_drop b held)
  | Trailers :: frames => collect_body frames max b held bytes
  | Data data :: frames =>
      if saturating_sub max (zlen bytes) <? zlen data then (Err PayloadTooLarge, lease_drop b held)
      else
        let '(reserved, b, held) := lease_reserve b held (zlen data) in
        if reserved then collect_body frames max b held (bytes ++ data)
        else (Err ServiceUnavailable, lease_drop b held)
  end.

(** [write_head] and [write_request]: what they write. *)
Definition write_head (params : list (list Z)) : result WireError (list Z) :=
  let? begin := begin_request REQUEST_ID false in
  Ok (begin ++ mjoin params).

Definition write_request (params : list (list Z)) (body : list Z) (keep_conn : bool)
    : result WireError (list Z) :=
  let? begin := begin_request REQUEST_ID keep_conn in
  let? stdin := encode_stream Stdin REQUEST_ID body in
  let? last := end_stream Stdin REQUEST_ID in
  Ok (begin ++ mjoin params ++ mjoin stdin ++ last).

(** What [pump_stdin] writes when it is not cancelled. *)
Definition pump_stdin (body : list Z) : result WireError (list Z) :=
  let? records := collect (encode_stream Stdin REQUEST_ID) (chunks 65535 body) in
  let? last := end_stream Stdin REQUEST_ID in
  Ok (mjoin (mjoin records) ++ last).

Section request.
Context `{HttpCrate}.

(** [content_length]: the values of the request, each of digits only. *)
Fixpoint content_length_loop (values : list (list Z)) (length : option Z)
    : result HandlerError (option Z) :=
  match values with
  | [] => Ok length
  | raw :: values =>
      let parsed :=
        if header_value_is_str raw && negb (bool_decide (raw = [])) && forallb is_ascii_digit raw
        then parse_u64 raw else None in
      let? value := ok_or parsed BadGateway in
      match length with
      | Some previous =>
          if negb (previous =? value) then Err BadGateway else content_length_loop values (Some value)
      | None => content_length_loop values (Some value)
      end
  end.

Definition content_length (m : HeaderMap) : result HandlerError (option Z) :=
  content_length_loop (get_all m (bs "content-length")) None.

Record FastCgi : Type := {
  max_body : Z;
  max_params : Z;
}.

(** The request of [handle] up to the first read: the octets written to the application
    (by a task of their own when the body is large), and whether the connection may be kept.
    The lease is dropped once the body is written. *)
Definition send_request (self : FastCgi) (method_has_body : bool) (m : HeaderMap)
    (build : HeaderMap → list (list Z * list Z)) (frames : list Frame)
    (acquire : result PoolError unit) (b : BodyBufferBudget)
    : result HandlerError (list Z * bool) * BodyBufferBudget :=
  match content_length m with
  | Err e => (Err e, b)
  | Ok declared =>
      if (match declared with Some len => max_body self <? len | None => false end)
      then (Err PayloadTooLarge, b)
      else
        match collect_body frames (max_body self) b 0 [] with
        | (Err e, b) => (Err e, b)
        | (Ok (body, held), b) =>
            let b := lease_drop b held in
            if (match declared with Some len => negb (len =? zlen body) | None => false end)
            then (Err BadGateway, b)
            else
              let m :=
                if bool_decide (declared ≠ None) || negb (bool_decide (body = [])) || method_has_body
                then insert m (bs "content-length") (to_string (zlen body)) else m in
              match encode_name_value_pairs REQUEST_ID (build m) (max_params self) with
              | Err _ => (Err RequestHeaderFieldsTooLarge, b)
              | Ok params =>
                match acquire with
                | Err e => (Err (map_pool_error e), b)
                | Ok _ =>
                  let keep_conn := bool_decide (body = []) in
                  let split := STDIN_INLINE_WRITE_MAX <? zlen body in
                  let wrote :=
                    if split then
                      let? head := write_head params in
                      let? stdin := pump_stdin body in
                      Ok (head ++ stdin)
                    else write_request params body keep_conn in
                  match wrote with
                  | Ok octets => (Ok (octets, negb split && keep_conn), b)
                  | Err _ => (Err Panicked, b)
                  end
                end
              end
        end
  end.

End request.

(** ** The response *)

Inductive Read : Type := Got (bytes : list Z) | TimedOut | Failed.

Fixpoint next_record (reads : list Read) (wire : list Z)
    : result HandlerError (Record_ * list Z * list Read) :=
  match parse_record wire with
  | Err _ => Err BadGateway
  | Ok (Some (record, wire)) => Ok (record, wire, reads)
  | Ok None =>
      match reads with
      | [] | TimedOut :: _ => Err GatewayTimeout
      | Failed :: _ => Err Io
      | Got [] :: _ => Err BadGateway
      | Got bytes :: reads => next_record reads (wire ++ bytes)
      end
  end.

Definition require_response_record (record : Record_) : result HandlerError unit :=
  if negb (request_id record =? REQUEST_ID) then Err BadGateway else Ok tt.

(** [CgiHeadBoundary::find]: the end of the head, and the new [scanned]. *)
Definition find (scanned : nat) (bytes : list Z) : option nat * nat :=
  let start := Nat.min (scanned - 3) (length bytes) in
  ((fun hr => (start + length hr.1 + 4)%nat) <$> find_boundary (drop start bytes), length bytes).

Definition log_stderr (bytes : list Z) (seen limit : Z) : Z :=
  if (limit <=? seen) || bool_decide (bytes = []) then seen
  else seen + Z.min (zlen bytes) (limit - seen).

Record Limits : Type := {
  max_response_header : Z;
  max_response_headers : Z;
  stderr_limit : Z;
}.

Section exchange.
Context `{HttpCrate} (limits : Limits).

(** The loop of [handle] up to the head. *)
Fixpoint read_head (fuel : nat) (reads : list Read) (wire header : list Z) (scanned : nat)
    (stderr_seen : Z) : result HandlerError (CgiHead * list Z * list Read * Z) :=
  match fuel with
  | O => Err GatewayTimeout
  | S fuel =>
      let? next := next_record reads wire in
      let '(record, wire, reads) := next in
      let? _ := require_response_record record in
      match kind record with
      | Stdout =>
          if bool_decide (content record = []) then Err BadGateway
          else if max_response_header limits <=? zlen header then Err BadGateway
          else
            let header := header ++ content record in
            let '(found, scanned) := find scanned header in
            if bool_decide (found ≠ None) then
              match parse_cgi_head header (max_response_header limits) (max_response_headers limits) with
              | Ok parsed => Ok (parsed, wire, reads, stderr_seen)
              | Err _ => Err BadGateway
              end
            else if max_response_header limits <? zlen header then Err BadGateway
            else read_head fuel reads wire header scanned stderr_seen
      | Stderr =>
          read_head fuel reads wire header scanned
            (log_stderr (content record) stderr_seen (stderr_limit limits))
      | _ => Err BadGateway
      end
  end.

(** One value of Content-Length, against the one before it. *)
Fixpoint agree_lengths (words : list (list Z)) (length : option Z) : result HandlerError (option Z) :=
  match words with
  | [] => Ok length
  | word :: words =>
      let? value := ok_or (parse_u64 (trim word)) BadGateway in
      match length with
      | Some previous => if negb (previous =? value) then Err BadGateway else agree_lengths words (Some value)
      | None => agree_lengths words (Some value)
      end
  end.

Fixpoint agree_fields (values : list (list Z)) (length : option Z) : result HandlerError (option Z) :=
  match values with
  | [] => Ok length
  | raw :: values =>
      if negb (header_value_is_str raw) then Err BadGateway
      else
        let? length := agree_lengths (split 0x2c raw) length in
        agree_fields values length
  end.

Definition response_content_length (m : HeaderMap) : result HandlerError (option Z) :=
  agree_fields (get_all m (bs "content-length")) None.

(** The body being fed: the bytes counted and the chunks sent. *)
Record Fed : Type := {
  sent : Z;
  delivered : list (list Z);
}.

Context (accepts : nat → bool).

Definition feed (chunk : list Z) (expected : option Z) (discard : bool) (f : Fed) : bool * Fed :=
  if (match expected with Some n => saturating_sub n (sent f) <? zlen chunk | None => false end)
  then (false, f)
  else
    let f := {| sent := u64 (sent f + zlen chunk); delivered := delivered f |} in
    if negb discard && negb (bool_decide (chunk = [])) then
      if accepts (length (delivered f)) then
        (true, {| sent := sent f; delivered := delivered f ++ [chunk] |})
      else (false, f)
    else (true, f).

Fixpoint pump_loop (fuel : nat) (reads : list Read) (wire : list Z) (expected : option Z)
    (discard stdout_ended stderr_ended : bool) (stderr_seen : Z) (f : Fed) : bool * Fed :=
  match fuel with
  | O => (false, f)
  | S fuel =>
      match next_record reads wire with
      | Err _ => (false, f)
      | Ok (record, wire, reads) =>
          match require_response_record record with
          | Err _ => (false, f)
          | Ok _ =>
              let empty := bool_decide (content record = []) in
              match kind record with
              | Stdout =>
                  if stdout_ended then (false, f)
                  else if empty then
                    pump_loop fuel reads wire expected discard true stderr_ended stderr_seen f
                  else
                    let '(clean, f) := feed (content record) expected discard f in
                    if clean then
                      pump_loop fuel reads wire expected discard stdout_ended stderr_ended stderr_seen f
                    else (false, f)
              | Stderr =>
                  if stderr_ended then (false, f)
                  else if empty then
                    pump_loop fuel reads wire expected discard stdout_ended true stderr_seen f
                  else
                    pump_loop fuel reads wire expected discard stdout_ended stderr_ended
                      (log_stderr (content record) stderr_seen (stderr_limit limits)) f
              | EndRequest =>
                  match parse_end_request (content record) with
                  | Ok _ =>
                      ((match expected with Some n => n =? sent f | None => true end), f)
                  | Err _ => (false, f)
                  end
              | _ => (false, f)
              end
          end
      end
  end.

(** Whether the response was complete (its connection is then clean, otherwise the body is
    aborted), and the chunks of the body. *)
Definition pump_response (fuel : nat) (reads : list Read) (wire prefix : list Z)
    (expected : option Z) (stderr_seen : Z) (discard : bool) : bool * Fed :=
  let '(clean, f) := feed prefix expected discard {| sent := 0; delivered := [] |} in
  if clean then pump_loop fuel reads wire expected discard false false stderr_seen f else (false, f).

Record Response : Type := {
  r_status : Z;
  r_headers : HeaderMap;
  r_clean : bool;
  r_body : list (list Z);
}.

(** [handle] from the first read on. A turn of either loop takes a record off the wire, so as
    many turns as there are octets are enough. *)
Definition respond (fuel : nat) (is_head : bool) (reads : list Read) : result HandlerError Response :=
  let? got := read_head fuel reads [] [] 0 0 in
  let '(parsed, wire, reads, stderr_seen) := got in
  let? declared := if is_head then Ok None else response_content_length (headers parsed) in
  let body_forbidden := http_util.response_body_forbidden is_head (status parsed) in
  let expected := if body_forbidden then None else declared in
  let '(clean, f) :=
    pump_response fuel reads wire (body_prefix parsed) expected stderr_seen body_forbidden in
  Ok {| r_status := status parsed; r_headers := headers parsed; r_clean := clean;
        r_body := delivered f |}.

End exchange.
End exchange.
