(* ===== verification/FastCgiParams.v ===== *)
(** * The request reaches the application

    The application's side as the FastCGI specification has it: a stream is the contents of
    its records up to the empty one, and PARAMS is a sequence of name-value pairs whose
    lengths take one octet, or four with the top bit set. *)

From stdpp Require Import base list sets strings.
From Stdlib Require Import ZArith Lia.
From S2P Require Import Prelude RustStr HttpUtil Budget FastCgi FastCgiExchange.

Import fastcgi headers budget exchange.
#[local] Open Scope result_scope.

Module params.

Definition read_len (l : list Z) : option (Z * list Z) :=
  match l with
  | [] => None
  | b :: rest =>
      if b <? 128 then Some (b, rest)
      else
        match rest with
        | b1 :: b2 :: b3 :: rest => Some (Z.land (from_be_bytes [b; b1; b2; b3]) 0x7fffffff, rest)
        | _ => None
        end
  end.

Definition read_pair (l : list Z) : option ((list Z * list Z) * list Z) :=
  '(n, l) ← read_len l;
  '(v, l) ← read_len l;
  let '(n, v) := (Z.to_nat n, Z.to_nat v) in
  if (length l <? n + v)%nat then None
  else Some ((take n l, take v (drop n l)), drop (n + v) l).

Fixpoint read_pairs (fuel : nat) (l : list Z) : option (list (list Z * list Z)) :=
  match fuel, l with
  | _, [] => Some []
  | O, _ => None
  | S fuel, _ => '(p, l) ← read_pair l; ps ← read_pairs fuel l; Some (p :: ps)
  end.

Fixpoint read_stream (fuel : nat) (k : RecordType) (id : Z) (l : list Z)
    : option (list Z * list Z) :=
  match fuel with
  | O => None
  | S fuel =>
      match parse_record l with
      | Ok (Some (r, l)) =>
          if negb (bool_decide (kind r = k) && (request_id r =? id)) then None
          else if bool_decide (content r = []) then Some ([], l)
          else '(c, l) ← read_stream fuel k id l; Some (content r ++ c, l)
      | _ => None
      end
  end.

(** A whole request: whether the connection is to be kept, the environment and the body. *)
Definition read_request (l : list Z) : option (bool * list (list Z * list Z) * list Z) :=
  let fuel := S (length l) in
  match parse_record l with
  | Ok (Some (r, l)) =>
      if negb (bool_decide (kind r = BeginRequest) && (request_id r =? 1)) then None
      else
        match content r with
        | [0; 1; flags; _; _; _; _; _] =>
            '(payload, l) ← read_stream fuel Params 1 l;
            env ← read_pairs (length payload) payload;
            '(body, l) ← read_stream fuel Stdin 1 l;
            if bool_decide (l = []) then Some (Z.testbit flags 0, env, body) else None
        | _ => None
        end
  | _ => None
  end.

(** ** What is written *)

Definition len_octets (n : Z) : list Z :=
  if n <? 128 then [n] else to_be_bytes 4 (Z.lor n 0x80000000).

Definition pair_octets (p : list Z * list Z) : list Z :=
  len_octets (zlen p.1) ++ len_octets (zlen p.2) ++ p.1 ++ p.2.

Definition pairs_octets (ps : list (list Z * list Z)) : list Z := mjoin (pair_octets <$> ps).

Lemma pairs_octets_cons p ps : pairs_octets (p :: ps) = pair_octets p ++ pairs_octets ps.
Proof. done. Qed.

Definition pair_ok (p : list Z * list Z) : Prop :=
  zlen p.1 <= MAX_PAIR_FIELD_LEN ∧ zlen p.2 <= MAX_PAIR_FIELD_LEN.

#[export] Instance pair_ok_dec p : Decision (pair_ok p).
Proof. unfold pair_ok. solve_decision. Defined.

Lemma lor_top n : 0 <= n < 2 ^ 31 → Z.lor n 0x80000000 = n + 2 ^ 31.
Proof.
  intros Hn. change 0x80000000 with (2 ^ 31). rewrite <-Z.lxor_lor, <-Z.add_nocarry_lxor; [done|..];
    apply Z.bits_inj'; intros i Hi; rewrite Z.land_spec, Z.bits_0;
    rewrite Z.pow2_bits_eqb by lia; destruct (Z.eqb_spec 31 i) as [<-|];
    rewrite ?andb_false_r, ?(testbit_above 31 n) by lia; done.
Qed.

Lemma read_len_write n rest :
  0 <= n <= MAX_PAIR_FIELD_LEN → read_len (len_octets n ++ rest) = Some (n, rest).
Proof.
  unfold MAX_PAIR_FIELD_LEN. intros Hn. unfold len_octets. destruct (Z.ltb_spec n 128) as [Hlt|Hge].
  { cbn. by rewrite (proj2 (Z.ltb_lt n 128)). }
  rewrite lor_top by lia. pose proof (length_to_be_bytes 4 (n + 2 ^ 31)) as Hl.
  pose proof (from_to_be_bytes_id 4 (n + 2 ^ 31) ltac:(change (8 * Z.of_nat 4) with 32; lia)) as Hf.
  pose proof (octets_to_be_bytes 4 (n + 2 ^ 31)) as Ho.
  destruct (to_be_bytes 4 (n + 2 ^ 31)) as [|a [|b [|c [|d [|]]]]]; try done.
  cbn [app read_len]. assert (Ha : (a <? 128) = false).
  { apply Z.ltb_ge. apply Forall_cons in Ho as [Ha Ho].
    pose proof (from_be_bytes_range [b; c; d] Ho) as Hr. change (zlen [b; c; d]) with 3 in Hr.
    unfold from_be_bytes in Hf, Hr. cbn [fold_left] in Hf, Hr. lia. }
  rewrite Ha, Hf. f_equal. f_equal. change 0x7fffffff with (Z.ones 31).
  rewrite Z.land_ones by lia. change (n + 2 ^ 31) with (n + 1 * 2 ^ 31).
  rewrite Z.mod_add by lia. apply Z.mod_small. lia.
Qed.

Lemma read_pair_write p rest : pair_ok p → read_pair (pair_octets p ++ rest) = Some (p, rest).
Proof.
  destruct p as [n v]. intros [Hn Hv]. unfold pair_octets, read_pair. cbn [fst snd] in *.
  pose proof (zlen_nonneg n). pose proof (zlen_nonneg v). rewrite <-!app_assoc.
  rewrite read_len_write by lia. cbn [mbind option_bind]. rewrite read_len_write by lia.
  cbn [mbind option_bind]. unfold zlen. rewrite !Nat2Z.id, !length_app.
  destruct (Nat.ltb_spec (length n + (length v + length rest)) (length n + length v)); [lia|].
  rewrite take_app_length, drop_app_length, take_app_length. f_equal. f_equal.
  rewrite app_assoc, drop_app_length'; [done|]. by rewrite length_app.
Qed.

#[export] Instance pair_codec : Codec pair_octets read_pair pair_ok.
Proof. intros p rest. apply read_pair_write. Qed.

Lemma len_octets_nonempty n : (1 ≤ length (len_octets n))%nat.
Proof. unfold len_octets. case_if; [done|]. by rewrite length_to_be_bytes; lia. Qed.

Lemma read_pairs_write ps fuel :
  Forall pair_ok ps → (length (pairs_octets ps) ≤ fuel)%nat →
  read_pairs fuel (pairs_octets ps) = Some ps.
Proof.
  revert fuel. induction ps as [|p ps IH]; intros fuel Hok Hf; [by destruct fuel|].
  apply Forall_cons in Hok as [Hp Hps]. rewrite pairs_octets_cons in *.
  rewrite length_app in Hf. assert (Hl : (2 ≤ length (pair_octets p))%nat).
  { unfold pair_octets. rewrite !length_app. pose proof (len_octets_nonempty (zlen p.1)).
    pose proof (len_octets_nonempty (zlen p.2)). lia. }
  destruct fuel as [|fuel]; [lia|].
  assert (Hr : read_pairs (S fuel) (pair_octets p ++ pairs_octets ps) =
    '(p, l) ← read_pair (pair_octets p ++ pairs_octets ps); ps ← read_pairs fuel l; Some (p :: ps)).
  { by destruct (pair_octets p); [cbn in Hl; lia|]. }
  etrans; [exact Hr|]. rewrite (codec_roundtrip p _ Hp). cbn [mbind option_bind].
  rewrite IH; [done|done|]. lia.
Qed.

(** ** The encoder *)

Lemma put_len_spec out n :
  0 <= n → put_len out n = if n <=? MAX_PAIR_FIELD_LEN then Ok (out ++ len_octets n) else Err FieldTooLarge.
Proof.
  intros Hn. unfold put_len, len_octets, MAX_PAIR_FIELD_LEN. destruct (Z.ltb_spec n 128).
  - rewrite (wrap_id 8) by lia. by rewrite (proj2 (Z.leb_le _ _)) by lia.
  - destruct (Z.leb_spec n 0x7fffffff); [|done]. by rewrite (wrap_id 32) by lia.
Qed.

Lemma zlen_len_octets n : zlen (len_octets n) = 1 + (if 128 <=? n then 3 else 0).
Proof.
  unfold len_octets. rewrite Z.leb_antisym. destruct (n <? 128); [done|].
  unfold zlen. by rewrite length_to_be_bytes.
Qed.

(** [encode_pairs] writes the pairs, and refuses exactly what is too long. *)
Lemma encode_pairs_spec ps max acc out :
  0 <= max <= U64_MAX → zlen acc <= max →
  encode_pairs ps max acc = Ok out ↔
    Forall pair_ok ps ∧ out = acc ++ pairs_octets ps ∧ zlen out <= max.
Proof.
  intros Hmax. revert acc. induction ps as [|[n v] ps IH]; intros acc Hacc.
  { cbn. rewrite app_nil_r. split; [intros [= <-]; auto|by intros (_ & -> & _)]. }
  cbn [encode_pairs]. pose proof (zlen_nonneg n). pose proof (zlen_nonneg v). pose proof (zlen_nonneg acc).
  set (size := zlen (pair_octets (n, v))).
  assert (Hsz : size = (if 128 <=? zlen n then 3 else 0) + (if 128 <=? zlen v then 3 else 0) + 2
    + zlen n + zlen v).
  { unfold size, pair_octets. rewrite !zlen_app, !zlen_len_octets. cbn [fst snd]. lia. }
  set (pre := (if 128 <=? zlen n then 3 else 0) + (if 128 <=? zlen v then 3 else 0) + 2) in *.
  assert (0 <= pre) by (unfold pre; repeat case_if; lia).
  assert (Htot : ∀ o, o = acc ++ pairs_octets ((n, v) :: ps) → zlen acc + size <= zlen o).
  { intros o ->. rewrite pairs_octets_cons, !zlen_app.
    pose proof (zlen_nonneg (pairs_octets ps)). fold size. lia. }
  assert (Hadd : (s ← checked_add pre (zlen n); checked_add s (zlen v)) =
    if size <=? U64_MAX then Some size else None).
  { unfold checked_add. destruct (Z.leb_spec (pre + zlen n) U64_MAX); cbn; rewrite ?Hsz; [done|].
    by rewrite (proj2 (Z.leb_gt _ _)) by lia. }
  rewrite Hadd. destruct (Z.leb_spec size U64_MAX); cbn [ok_or];
    [|split; [done|intros (_ & Ho & ?); specialize (Htot out Ho); lia]].
  unfold saturating_sub. rewrite Z.max_l by lia.
  destruct (Z.ltb_spec (max - zlen acc) size);
    [split; [done|intros (_ & Ho & ?); specialize (Htot out Ho); lia]|].
  rewrite put_len_spec by lia. destruct (Z.leb_spec (zlen n) MAX_PAIR_FIELD_LEN) as [Hn|Hn];
    [|split; [done|intros ([[? ?] ?]%Forall_cons & _); cbn in *; lia]].
  rewrite put_len_spec by lia. destruct (Z.leb_spec (zlen v) MAX_PAIR_FIELD_LEN) as [Hv|Hv];
    [|split; [done|intros ([[? ?] ?]%Forall_cons & _); cbn in *; lia]].
  assert (Hnext : (((acc ++ len_octets (zlen n)) ++ len_octets (zlen v)) ++ n ++ v) = acc ++ pair_octets (n, v)).
  { unfold pair_octets. cbn [fst snd]. by rewrite <-!app_assoc. }
  rewrite Hnext, IH by (rewrite zlen_app; fold size; lia). rewrite Forall_cons, pairs_octets_cons, <-app_assoc.
  unfold pair_ok at 2. cbn [fst snd]. tauto.
Qed.

(** ** Streams *)

Lemma mjoin_cons {A} (x : list A) xs : mjoin (x :: xs) = x ++ mjoin xs.
Proof. done. Qed.

Lemma chunks_loop_spec fuel n l :
  (0 < n)%nat → (length l ≤ fuel)%nat →
  mjoin (chunks_loop fuel n l) = l ∧
  Forall (fun c => c ≠ [] ∧ (length c ≤ n)%nat) (chunks_loop fuel n l).
Proof.
  intros Hn. revert l. induction fuel as [|fuel IH]; intros l Hl.
  { destruct l; [done|cbn in Hl; lia]. }
  destruct l as [|b l]; [done|]. cbn [chunks_loop].
  destruct (IH (drop n (b :: l))) as [Hj Hall]; [rewrite length_drop; lia|].
  split; [rewrite mjoin_cons, Hj; apply take_drop|].
  constructor; [|done]. split; [destruct n; [lia|done]|]. rewrite length_take. lia.
Qed.

Lemma chunks_spec l :
  mjoin (chunks MAX_CONTENT_LEN l) = l ∧
  Forall (fun c => c ≠ [] ∧ zlen c <= MAX_CONTENT_LEN) (chunks MAX_CONTENT_LEN l).
Proof.
  unfold chunks. set (n := Z.to_nat MAX_CONTENT_LEN).
  assert (Hn : Z.of_nat n = MAX_CONTENT_LEN) by (by apply Z2Nat.id).
  destruct (chunks_loop_spec (length l) n l) as [Hj Hall]; [unfold MAX_CONTENT_LEN in Hn; lia|lia|].
  split; [done|]. eapply Forall_impl; [exact Hall|]. intros c [? ?]. unfold zlen. split; [done|lia].
Qed.

Lemma record_ok k id c :
  id ≠ 0 → zlen c <= MAX_CONTENT_LEN → ∃ out, record k id c = Ok out.
Proof.
  intros Hid Hc. unfold record. rewrite (proj2 (Z.eqb_neq _ _) Hid), (proj2 (Z.ltb_ge _ _) Hc). eauto.
Qed.

Lemma collect_records k id cs :
  id ≠ 0 → Forall (fun c => c ≠ [] ∧ zlen c <= MAX_CONTENT_LEN) cs →
  ∃ outs, collect (record k id) cs = Ok outs ∧ Forall2 (fun c out => record k id c = Ok out) cs outs.
Proof.
  intros Hid. induction 1 as [|c cs [_ Hc] _ (outs & E & H2)]; cbn; [by eexists|].
  destruct (record_ok k id c Hid Hc) as [out Eo]. rewrite Eo, E. eexists. split; [done|]. by constructor.
Qed.

Lemma read_stream_step fuel k id c out rest :
  0 < id < 65536 → record k id c = Ok out →
  read_stream (S fuel) k id (out ++ rest) =
    if bool_decide (c = []) then Some ([], rest)
    else '(cs, l) ← read_stream fuel k id rest; Some (c ++ cs, l).
Proof.
  intros Hid Hc. cbn [read_stream]. destruct (parse_record_write k id c out rest ltac:(lia) Hc) as [-> _].
  cbn [kind request_id content]. by rewrite Z.eqb_refl, bool_decide_true.
Qed.

Lemma read_stream_write k id cs outs last rest :
  0 < id < 65536 → Forall (fun c => c ≠ []) cs →
  Forall2 (fun c out => record k id c = Ok out) cs outs → record k id [] = Ok last →
  read_stream (S (length outs)) k id (mjoin outs ++ last ++ rest) = Some (mjoin cs, rest).
Proof.
  intros Hid Hne. induction 1 as [|c out cs outs Hc _ IH]; intros Hlast.
  - change (mjoin []) with (@nil Z). cbn [app length].
    by rewrite (read_stream_step _ _ _ [] last), bool_decide_true.
  - apply Forall_cons in Hne as [Hc0 Hne]. rewrite !mjoin_cons, <-app_assoc. cbn [length].
    rewrite (read_stream_step _ _ _ c out), bool_decide_false, IH by done. done.
Qed.

(** A stream written with [encode_stream] and its end is read back. *)
Lemma stream_delivered k id bytes :
  0 < id < 65536 →
  ∃ outs last, encode_stream k id bytes = Ok outs ∧ record k id [] = Ok last ∧
    ∀ rest, read_stream (S (length outs)) k id (mjoin outs ++ last ++ rest) = Some (bytes, rest).
Proof.
  intros Hid. unfold encode_stream. rewrite (proj2 (Z.eqb_neq id 0)) by lia.
  destruct (chunks_spec bytes) as [Hj Hall].
  destruct (collect_records k id (chunks MAX_CONTENT_LEN bytes)) as (outs & -> & H2); [lia|done|].
  destruct (record_ok k id [] ltac:(lia) ltac:(done)) as [last El].
  exists outs, last. do 2 (split; [done|]). intros rest.
  rewrite (read_stream_write k id (chunks MAX_CONTENT_LEN bytes)), Hj; [done|lia| |done|done].
  eapply Forall_impl; [exact Hall|]. by intros c [? _].
Qed.

Lemma params_delivered id pairs max :
  0 < id < 65536 → 0 <= max <= U64_MAX →
  match encode_name_value_pairs id pairs max with
  | Ok records =>
      Forall pair_ok pairs ∧ zlen (pairs_octets pairs) <= max ∧
      ∀ rest, read_stream (length records) Params id (mjoin records ++ rest)
        = Some (pairs_octets pairs, rest)
  | Err e => Exists (fun p => ¬ pair_ok p) pairs ∨ max < zlen (pairs_octets pairs)
  end.
Proof.
  intros Hid Hmax. unfold encode_name_value_pairs. rewrite (proj2 (Z.eqb_neq id 0)) by lia.
  pose proof (encode_pairs_spec pairs max []) as Hspec.
  destruct (encode_pairs pairs max []) as [payload|e] eqn:E; cycle 1.
  { destruct (decide (Forall pair_ok pairs)) as [Hok|Hno].
    - right. destruct (Z.leb_spec (zlen (pairs_octets pairs)) max) as [Hle|]; [|done].
      by pose proof (proj2 (Hspec (pairs_octets pairs) Hmax ltac:(change (zlen (@nil Z)) with 0; lia))
        (conj Hok (conj eq_refl Hle))).
    - left. apply not_Forall_Exists in Hno; [done|apply _]. }
  destruct (proj1 (Hspec payload Hmax ltac:(change (zlen (@nil Z)) with 0; lia)) eq_refl) as (Hok & Hp & Hlen).
  cbn [app] in Hp. subst payload.
  destruct (stream_delivered Params id (pairs_octets pairs) Hid) as (outs & last & -> & -> & Hread).
  do 2 (split; [done|]). intros rest.
  rewrite length_app, Nat.add_1_r, join_app, <-app_assoc, mjoin_cons. change (mjoin []) with (@nil Z).
  by rewrite app_nil_r, Hread.
Qed.

(** ** The whole request *)

(** A turn takes a record, so there are as many turns as octets. *)
Lemma read_stream_fuel fuel fuel' k id l x :
  read_stream fuel k id l = Some x → (length l < fuel')%nat → read_stream fuel' k id l = Some x.
Proof.
  revert fuel' l x. induction fuel as [|fuel IH]; intros fuel' l x; [done|].
  destruct fuel' as [|fuel']; [lia|]. cbn [read_stream].
  destruct (parse_record l) as [[[r l']|]|] eqn:Ep; try done. apply parse_record_shorter in Ep.
  destruct (negb _); [done|]. destruct (bool_decide (content r = [])); [done|]. intros Hs Hle.
  destruct (read_stream fuel k id l') as [[c l'']|] eqn:E; [|done].
  by rewrite (IH fuel' l' (c, l'') E) by lia.
Qed.

Lemma chunks_single c : c ≠ [] → zlen c <= MAX_CONTENT_LEN → chunks MAX_CONTENT_LEN c = [c].
Proof.
  intros Hne Hl. unfold chunks. assert (Hn : (length c ≤ Z.to_nat MAX_CONTENT_LEN)%nat) by (unfold zlen in Hl; lia).
  set (n := Z.to_nat MAX_CONTENT_LEN) in *. clearbody n. destruct c as [|b c]; [done|].
  cbn [length chunks_loop]. rewrite take_ge, drop_ge by done. by destruct (length c).
Qed.

(** Chunking twice is chunking once. *)
Lemma pump_stdin_records cs :
  Forall (fun c => c ≠ [] ∧ zlen c <= MAX_CONTENT_LEN) cs →
  ∃ outs, collect (encode_stream Stdin REQUEST_ID) cs = Ok ((fun x => [x]) <$> outs) ∧
    collect (record Stdin REQUEST_ID) cs = Ok outs.
Proof.
  induction 1 as [|c cs [Hne Hl] _ (outs & E1 & E2)]; [by exists []|].
  destruct (record_ok Stdin REQUEST_ID c ltac:(done) Hl) as [out Eo]. exists (out :: outs).
  cbn [collect fmap list_fmap]. rewrite E1, E2, Eo. split; [|done].
  unfold encode_stream at 1. change (REQUEST_ID =? 0) with false. cbn iota.
  rewrite chunks_single by done. cbn [collect]. by rewrite Eo.
Qed.

Lemma mjoin_singletons {A} (l : list A) : mjoin ((fun x => [x]) <$> l) = l.
Proof. induction l as [|x l IH]; [done|]. cbn [fmap list_fmap]. rewrite mjoin_cons. cbn. by f_equal. Qed.

Lemma pump_stdin_spec body :
  pump_stdin body =
    let? records := encode_stream Stdin REQUEST_ID body in
    let? last := end_stream Stdin REQUEST_ID in
    Ok (mjoin records ++ last).
Proof.
  unfold pump_stdin. change 65535 with MAX_CONTENT_LEN.
  destruct (pump_stdin_records (chunks MAX_CONTENT_LEN body)) as (outs & E1 & E2);
    [apply chunks_spec|].
  rewrite E1. unfold encode_stream. change (REQUEST_ID =? 0) with false. cbn iota. rewrite E2.
  by rewrite mjoin_singletons.
Qed.

(** The data of a body. *)
Definition data_of (frames : list Frame) : list Z :=
  mjoin ((fun f => match f with Data d => d | _ => [] end) <$> frames).

Definition budget_ok (b : BodyBufferBudget) : Prop :=
  0 <= max_bytes b < U64_MAX ∧ 0 <= in_flight b <= U64_MAX.

(** The lease of a body being collected is the bytes reserved for it since [b]. *)
Definition leased (b b' : BodyBufferBudget) (held : Z) : Prop :=
  max_bytes b' = max_bytes b ∧ 0 <= held ∧
  in_flight b' = in_flight b + (if max_bytes b =? 0 then 0 else held).

Lemma lease_drop_leased b b' held :
  budget_ok b → leased b b' held → in_flight (lease_drop b' held) = in_flight b.
Proof.
  intros [Hm Hf] (E & Hh & Ef). unfold lease_drop, release. rewrite E.
  destruct (Z.eqb_spec (max_bytes b) 0); cbn [orb]; [lia|].
  destruct (Z.eqb_spec held 0); [lia|]. cbn [in_flight]. rewrite wrap_id; [lia|].
  unfold U64_MAX in Hf. lia.
Qed.

Lemma lease_reserve_leased b b' held n b'' held' ok :
  leased b b' held → 0 <= n → lease_reserve b' held n = (ok, b'', held') →
  leased b b'' held' ∧ held' = if ok then held + n else held.
Proof.
  intros (E & Hh & Ef) Hn. unfold lease_reserve, try_acquire, reserve. rewrite E.
  destruct (Z.eqb_spec (max_bytes b) 0) as [E0|E0].
  { intros [= <- <- <-]. split; [|done]. unfold leased. rewrite (proj2 (Z.eqb_eq _ _) E0) in *. lia. }
  unfold leased. rewrite (proj2 (Z.eqb_neq _ _) E0) in *.
  destruct (_ <? _); intros [= <- <- <-]; cbn; (split; [lia|done]).
Qed.

Lemma collect_body_spec frames max b b' held bytes :
  0 <= max → budget_ok b → leased b b' held → zlen bytes <= max →
  match collect_body frames max b' held bytes with
  | (Ok (body, held'), b'') =>
      body = bytes ++ data_of frames ∧ zlen body <= max ∧ leased b b'' held' ∧ Broken ∉ frames
  | (Err e, b'') => in_flight b'' = in_flight b ∧ e ≠ Panicked
  end.
Proof.
  intros Hmax Hb. revert b' held bytes. induction frames as [|f frames IH]; intros b' held bytes Hl Hlen.
  { cbn. rewrite app_nil_r. split; [done|]. split; [done|]. split; [done|]. apply not_elem_of_nil. }
  assert (Hcons : data_of (f :: frames) = match f with Data d => d | _ => [] end ++ data_of frames) by done.
  rewrite Hcons. cbn [collect_body]. destruct f as [d| |].
  - unfold saturating_sub. rewrite Z.max_l by lia. destruct (Z.ltb_spec (max - zlen bytes) (zlen d)).
    { split; [by apply lease_drop_leased|done]. }
    destruct (lease_reserve b' held (zlen d)) as [[ok b''] held'] eqn:E.
    pose proof (zlen_nonneg d). destruct (lease_reserve_leased _ _ _ _ _ _ _ Hl ltac:(done) E) as [Hl' _].
    destruct ok; [|split; [by apply lease_drop_leased|done]].
    specialize (IH b'' held' (bytes ++ d) Hl' ltac:(rewrite zlen_app; lia)).
    destruct (collect_body _ _ _ _ _) as [[[body held'']|e] b3]; [|done].
    rewrite app_assoc. set_solver.
  - specialize (IH b' held bytes Hl Hlen).
    destruct (collect_body _ _ _ _ _) as [[[body held'']|e] b3]; [|done]. set_solver.
  - split; [by apply lease_drop_leased|done].
Qed.

(** The octets of a request are read back as the request. *)
Lemma read_request_written keep env max params body begin stdin last :
  0 <= max <= U64_MAX → begin_request REQUEST_ID keep = Ok begin →
  encode_name_value_pairs REQUEST_ID env max = Ok params →
  encode_stream Stdin REQUEST_ID body = Ok stdin → end_stream Stdin REQUEST_ID = Ok last →
  read_request (begin ++ mjoin params ++ mjoin stdin ++ last) = Some (keep, env, body).
Proof.
  intros Hmax Eb Ep Es El. pose proof (params_delivered REQUEST_ID env max ltac:(done) Hmax) as Hp.
  rewrite Ep in Hp. destruct Hp as (Hok & _ & Hread).
  destruct (stream_delivered Stdin REQUEST_ID body ltac:(done)) as (outs & last' & Es' & El' & Hread').
  rewrite Es in Es'. apply Ok_inj in Es' as <-. unfold end_stream in El. rewrite El in El'.
  apply Ok_inj in El' as <-. unfold read_request.
  destruct (parse_record_write BeginRequest REQUEST_ID _ _ (mjoin params ++ mjoin stdin ++ last)
    ltac:(done) Eb) as [-> _].
  cbn [kind request_id content]. rewrite bool_decide_true by done. cbn [andb negb REQUEST_ID Z.eqb Pos.eqb].
  change (to_be_bytes 2 FCGI_RESPONDER ++ [if keep then FCGI_KEEP_CONN else 0] ++ replicate 5 0)
    with [0; 1; if keep then FCGI_KEEP_CONN else 0; 0; 0; 0; 0; 0]. cbv iota beta.
  rewrite (read_stream_fuel (length params) _ _ _ _ _ (Hread _))
    by (rewrite !length_app; lia).
  cbn [mbind option_bind]. rewrite read_pairs_write by done. cbn [mbind option_bind].
  specialize (Hread' []). rewrite app_nil_r in Hread'.
  rewrite (read_stream_fuel _ _ _ _ _ _ Hread') by (rewrite !length_app; lia).
  cbn [mbind option_bind]. rewrite bool_decide_true by done. by destruct keep.
Qed.

(** Inline or by the task of a large body, the same octets are written. *)
Lemma written params body begin stdin last :
  begin_request REQUEST_ID (bool_decide (body = [])) = Ok begin →
  encode_stream Stdin REQUEST_ID body = Ok stdin → end_stream Stdin REQUEST_ID = Ok last →
  (if STDIN_INLINE_WRITE_MAX <? zlen body then
     let? head := write_head params in let? stdin := pump_stdin body in Ok (head ++ stdin)
   else write_request params body (bool_decide (body = [])))
  = Ok (begin ++ mjoin params ++ mjoin stdin ++ last) ∧
  negb (STDIN_INLINE_WRITE_MAX <? zlen body) && bool_decide (body = []) = bool_decide (body = []).
Proof.
  intros Eb Es El. unfold write_head, write_request. rewrite pump_stdin_spec, Es, El.
  destruct (Z.ltb_spec STDIN_INLINE_WRITE_MAX (zlen body)) as [Hb|]; [|by rewrite Eb].
  rewrite bool_decide_false in * by (intros ->; done). rewrite Eb. split; [|done].
  by rewrite <-app_assoc.
Qed.

Section request.
Context `{HttpCrate}.

Lemma content_length_loop_none values length d :
  content_length_loop values length = Ok d → d = None ↔ values = [] ∧ length = None.
Proof.
  revert length. induction values as [|raw values IH]; intros length; cbn [content_length_loop].
  { intros ->%Ok_inj. naive_solver. }
  destruct (if _ && _ then _ else _) as [v|]; cbn [ok_or]; [|done].
  assert (Hs : content_length_loop values (Some v) = Ok d → d = None ↔ raw :: values = [] ∧ length = None)
    by (intros Hd%IH; naive_solver).
  destruct length as [p|]; [destruct (negb (p =? v)); [done|]|]; exact Hs.
Qed.

Lemma content_length_no_panic m : content_length m ≠ Err Panicked.
Proof.
  unfold content_length. generalize (@None Z) as length.
  induction (get_all m (bs "content-length")) as [|raw values IH]; intros length; [done|].
  cbn [content_length_loop]. destruct (if _ && _ then _ else _) as [v|]; cbn [ok_or]; [|done].
  destruct length as [p|]; [destruct (negb (p =? v)); [done|]|]; apply IH.
Qed.

(** C18. Whatever the frames of the request body, the octets written to a FastCGI
    application are one request that the application reads back as exactly the environment
    built and exactly the data of the body, inline or through the task for large bodies; the
    connection is offered for reuse exactly when no STDIN octet was sent, a declared
    Content-Length is the length of the data, no expect panics, and the body budget is as
    before, also on every error. *)
Theorem request_delivered self method_has_body m build frames acquire b :
  0 <= max_params self <= U64_MAX → 0 <= max_body self → budget_ok b →
  match send_request self method_has_body m build frames acquire b with
  | (Ok (octets, keep_conn), b') =>
      read_request octets =
        Some (keep_conn, build (if bool_decide (get_all m (bs "content-length") ≠ []) || method_has_body
                                   || negb (bool_decide (data_of frames = []))
                                then insert m (bs "content-length") (to_string (zlen (data_of frames)))
                                else m), data_of frames) ∧
      keep_conn = bool_decide (data_of frames = []) ∧
      zlen (data_of frames) <= max_body self ∧ (Broken ∉ frames) ∧
      (∀ n, content_length m = Ok (Some n) → n = zlen (data_of frames)) ∧
      in_flight b' = in_flight b
  | (Err e, b') => e ≠ Panicked ∧ in_flight b' = in_flight b
  end.
Proof.
  intros Hmax Hbody Hb. unfold send_request.
  destruct (content_length m) as [declared|e] eqn:Ed;
    [|split; [by intros ->; eapply content_length_no_panic|done]].
  destruct (match declared with Some _ => _ | None => _ end); [done|].
  assert (Hl : leased b b 0) by (unfold leased; repeat case_if; lia).
  pose proof (collect_body_spec frames (max_body self) b b 0 [] Hbody Hb Hl ltac:(done)) as Hc.
  destruct (collect_body frames (max_body self) b 0 []) as [[[body held]|e] b']; [|tauto].
  cbn [app] in Hc. destruct Hc as (-> & Hlen & Hl' & Hbroken).
  pose proof (lease_drop_leased b b' held Hb Hl') as Hdrop.
  destruct (match declared with Some _ => _ | None => _ end) eqn:Em; [done|].
  set (m' := if _ || _ || _ then _ else m).
  assert (Em' : m' = if bool_decide (get_all m (bs "content-length") ≠ []) || method_has_body
                        || negb (bool_decide (data_of frames = []))
                     then insert m (bs "content-length") (to_string (zlen (data_of frames))) else m).
  { unfold m'. apply content_length_loop_none in Ed.
    rewrite (bool_decide_ext (get_all m (bs "content-length") ≠ []) (declared ≠ None)) by naive_solver.
    by rewrite <-orb_assoc, (orb_comm (negb _)), orb_assoc. }
  rewrite <-Em'. clearbody m'. clear Em'.
  assert (Hdecl : ∀ n, @Ok HandlerError _ declared = Ok (Some n) → n = zlen (data_of frames)).
  { intros n ->%Ok_inj. apply negb_false_iff, Z.eqb_eq in Em. done. }
  pose proof (read_request_written (bool_decide (data_of frames = [])) (build m') (max_params self)) as Hrd.
  destruct (encode_name_value_pairs REQUEST_ID (build m') (max_params self)) as [params|e]; [|done].
  destruct acquire as [[]|[]]; [|done..].
  destruct (stream_delivered Stdin REQUEST_ID (data_of frames) ltac:(done)) as (stdin & last & Es & El & _).
  destruct (record_ok BeginRequest REQUEST_ID (to_be_bytes 2 FCGI_RESPONDER
    ++ [if bool_decide (data_of frames = []) then FCGI_KEEP_CONN else 0] ++ replicate 5 0)
    ltac:(done) ltac:(done)) as [begin Eb].
  destruct (written params _ begin stdin last Eb Es El) as [-> ->].
  split; [by apply (Hrd params _ _ stdin last)|]. done.
Qed.

End request.

Lemma request_delivered_witness :
  let r := send_request (H := http_util.http_ascii) {| max_body := 100; max_params := 200 |} true
             [(bs "content-length", bs "3")] (fun m => (bs "REQUEST_METHOD", bs "POST") :: m)
             [Data (bs "a="); Data (bs "1"); Trailers] (Ok tt) (new 1000) in
  match r.1 with
  | Ok (octets, keep_conn) =>
      read_request octets =
        Some (false, [(bs "REQUEST_METHOD", bs "POST"); (bs "content-length", bs "3")], bs "a=1")
  | Err _ => False
  end.
Proof.
  pose proof (request_delivered (H := http_util.http_ascii) {| max_body := 100; max_params := 200 |} true
    [(bs "content-length", bs "3")] (fun m => (bs "REQUEST_METHOD", bs "POST") :: m)
    [Data (bs "a="); Data (bs "1"); Trailers] (Ok tt) (new 1000)
    ltac:(cbn; unfold U64_MAX; lia) ltac:(cbn; lia) ltac:(unfold budget_ok, U64_MAX; cbn; lia)) as Hr.
  cbv zeta. destruct (send_request _ _ _ _ _ _ _) as [[[octets keep]|e] b] eqn:E; [|by vm_compute in E].
  destruct Hr as (Hr & -> & _). cbn [fst]. rewrite Hr. vm_compute. reflexivity.
Defined.

End params.
