(* ===== verification/FastCgiResponse.v ===== *)
(** * The response of the application reaches the client

    What [respond] makes of a connection depends on the octets it delivers and not on how the
    reads cut them up, and a response that ends cleanly is the CGI response the records
    carry. *)

From stdpp Require Import base list strings.
From Stdlib Require Import ZArith Lia.
From S2P Require Import Prelude RustStr HttpUtil Budget FastCgi FastCgiExchange.

Import fastcgi headers exchange.
#[local] Open Scope result_scope.

Module response.

(** The octets the reads give up to their end, and how they end. *)
Fixpoint flatten (reads : list Read) : list Z * HandlerError :=
  match reads with
  | [] | TimedOut :: _ => ([], GatewayTimeout)
  | Failed :: _ => ([], Io)
  | Got [] :: _ => ([], BadGateway)
  | Got bytes :: reads => let '(rest, last) := flatten reads in (bytes ++ rest, last)
  end.

(** What is still to be read: the octets and how they end. *)
Definition ahead (reads : list Read) (wire : list Z) : list Z * HandlerError :=
  (wire ++ (flatten reads).1, (flatten reads).2).

Lemma next_record_ahead reads wire :
  match parse_record (ahead reads wire).1 with
  | Err _ => next_record reads wire = Err BadGateway
  | Ok None => next_record reads wire = Err (ahead reads wire).2
  | Ok (Some (r, rest)) =>
      ∃ wire' reads', next_record reads wire = Ok (r, wire', reads') ∧
        ahead reads' wire' = (rest, (ahead reads wire).2)
  end.
Proof.
  revert wire. induction reads as [|x reads IH]; intros wire; unfold ahead; cbn [next_record flatten fst snd];
    destruct (parse_record wire) as [[[r rest]|]|e] eqn:E.
  all: try (erewrite parse_record_app_err by exact E; done).
  all: try (erewrite parse_record_app by exact E; eauto).
  { by rewrite app_nil_r, E. }
  destruct x as [[|b bytes]| |]; cbn [fst snd]; rewrite ?app_nil_r, ?E; try done.
  specialize (IH (wire ++ b :: bytes)). unfold ahead in IH.
  destruct (flatten reads) as [o last]. cbn [fst snd] in *. by rewrite <-app_assoc in IH.
Qed.

Lemma next_record_same reads1 wire1 reads2 wire2 :
  ahead reads1 wire1 = ahead reads2 wire2 →
  match next_record reads1 wire1, next_record reads2 wire2 with
  | Err a, Err b => a = b
  | Ok (r1, w1, rs1), Ok (r2, w2, rs2) =>
      r1 = r2 ∧ ahead rs1 w1 = ahead rs2 w2 ∧
      (length (ahead rs1 w1).1 < length (ahead reads1 wire1).1)%nat
  | _, _ => False
  end.
Proof.
  intros E. pose proof (next_record_ahead reads1 wire1) as H1.
  pose proof (next_record_ahead reads2 wire2) as H2. rewrite <-E in H2.
  destruct (parse_record (ahead reads1 wire1).1) as [[[r rest]|]|e] eqn:Ep; [|by rewrite H1, H2..].
  destruct H1 as (w1 & rs1 & -> & A1), H2 as (w2 & rs2 & -> & A2).
  apply parse_record_shorter in Ep. rewrite A1, A2. cbn [fst]. split; [done|]. split; [done|lia].
Qed.

(** ** The records of a stream *)

Inductive parses : list Z → list Record_ → list Z → Prop :=
  | parses_nil o : parses o [] o
  | parses_cons o r o' rs rest :
      parse_record o = Ok (Some (r, o')) → request_id r = REQUEST_ID →
      parses o' rs rest → parses o (r :: rs) rest.

Lemma parses_app o rs1 o' rs2 rest : parses o rs1 o' → parses o' rs2 rest → parses o (rs1 ++ rs2) rest.
Proof. induction 1; [done|]. intros. cbn. econstructor; eauto. Qed.

Lemma parses_app_inv o rs1 rs2 rest :
  parses o (rs1 ++ rs2) rest → ∃ o', parses o rs1 o' ∧ parses o' rs2 rest.
Proof.
  revert o. induction rs1 as [|r rs1 IH]; intros o; [intros; eexists; split; [constructor|done]|].
  inversion_clear 1 as [|? ? o1 ? ? Hr Hid Hp]. apply IH in Hp as (o' & ? & ?).
  exists o'. split; [by econstructor|done].
Qed.

(** The STDOUT stream of the records. *)
Definition stdout (rs : list Record_) : list Z := mjoin (content <$> filter (fun r => kind r = Stdout) rs).

Lemma stdout_cons r rs : stdout (r :: rs) = (if decide (kind r = Stdout) then content r else []) ++ stdout rs.
Proof. unfold stdout. rewrite filter_cons. by destruct (decide (kind r = Stdout)). Qed.

Lemma stdout_app rs1 rs2 : stdout (rs1 ++ rs2) = stdout rs1 ++ stdout rs2.
Proof. unfold stdout. by rewrite filter_app, fmap_app, join_app. Qed.

(** Output records up to an END_REQUEST that reports a completed request. *)
Definition complete (rs : list Record_) : Prop :=
  ∃ rs' e status, rs = rs' ++ [e] ∧ Forall (fun r => kind r = Stdout ∨ kind r = Stderr) rs' ∧
    kind e = EndRequest ∧ parse_end_request (content e) = Ok status.

Lemma complete_cons r rs : kind r = Stdout ∨ kind r = Stderr → complete rs → complete (r :: rs).
Proof.
  intros Hr (rs' & e & st & -> & Hall & He & Hp). exists (r :: rs'), e, st.
  split; [done|]. split; [by constructor|done].
Qed.

Lemma next_record_ok reads wire r wire' reads' :
  next_record reads wire = Ok (r, wire', reads') →
  parse_record (ahead reads wire).1 = Ok (Some (r, (ahead reads' wire').1)).
Proof.
  intros E. pose proof (next_record_ahead reads wire) as Ha. rewrite E in Ha.
  destruct (parse_record _) as [[[r' rest]|]|]; try done.
  destruct Ha as (w & rs & [= <- <- <-] & A). by rewrite A.
Qed.

Lemma require_ok r u : require_response_record r = Ok u → request_id r = REQUEST_ID.
Proof. unfold require_response_record. destruct (Z.eqb_spec (request_id r) REQUEST_ID); done. Qed.

(** ** The end of the head *)

Lemma find_boundary_spec a h r : find_boundary a = Some (h, r) → a = h ++ [13; 10; 13; 10] ++ r.
Proof.
  revert h. induction a as [|x a IH]; intros h; [done|]. cbn [find_boundary].
  destruct (strip_prefix _ (x :: a)) as [rest|] eqn:Es.
  { intros [= <- <-]. by apply strip_prefix_some in Es. }
  destruct (find_boundary a) as [[h' r']|]; [|done]. intros [= <- <-]. by rewrite (IH h' eq_refl).
Qed.

Lemma find_boundary_app a b h r : find_boundary a = Some (h, r) → find_boundary (a ++ b) = Some (h, r ++ b).
Proof.
  revert h. induction a as [|x a IH]; intros h; [done|]. cbn [app find_boundary].
  change (x :: a ++ b) with ((x :: a) ++ b).
  destruct (strip_prefix _ (x :: a)) as [rest|] eqn:Es.
  { intros [= <- <-]. apply strip_prefix_some in Es. rewrite Es, <-app_assoc.
    by rewrite (proj2 (strip_prefix_some _ _ _) eq_refl). }
  destruct (find_boundary a) as [[h' r']|] eqn:Ef; [|done]. intros [= <- <-].
  rewrite (IH h' eq_refl). destruct (strip_prefix _ ((x :: a) ++ b)) as [rest|] eqn:Es'; [|done].
  exfalso. apply strip_prefix_some in Es'.
  apply find_boundary_spec in Ef as ->. cbn [app] in Es, Es'.
  destruct h' as [|x1 [|x2 [|x3 h']]]; cbn [app] in Es, Es'; simplify_eq.
Qed.

(** Scanning only the new octets with three before them is scanning all of them. *)
Lemma find_boundary_drop n l :
  find_boundary (take n l) = None →
  find_boundary l = (fun hr => (take (n - 3) l ++ hr.1, hr.2)) <$> find_boundary (drop (n - 3) l).
Proof.
  revert l. induction n as [|n IH]; intros l Hn.
  { change (drop (0 - 3) l) with l. change (take (0 - 3) l) with (@nil Z).
    by destruct (find_boundary l) as [[]|]. }
  destruct (decide (n < 3)%nat) as [Hs|Hs].
  { replace (S n - 3)%nat with 0%nat by lia. rewrite drop_0, take_0.
    by destruct (find_boundary l) as [[]|]. }
  destruct l as [|x l]; [by rewrite take_nil, drop_nil|].
  replace (S n - 3)%nat with (S (n - 3)) by lia. cbn [take drop] in *.
  cbn [find_boundary] in Hn. cbn [find_boundary]. change (x :: take n l) with (take (S n) (x :: l)) in Hn.
  destruct (strip_prefix [13; 10; 13; 10] (x :: l)) as [rest|] eqn:Es.
  { apply strip_prefix_some in Es. rewrite Es, take_app_ge in Hn by (cbn; lia).
    by rewrite (proj2 (strip_prefix_some _ _ _) eq_refl) in Hn. }
  destruct (strip_prefix _ (take _ _)); [done|].
  rewrite IH by (by destruct (find_boundary (take n l)) as [[]|]).
  by destruct (find_boundary (drop (n - 3) l)) as [[]|].
Qed.

(** [CgiHeadBoundary::find] gives what a scan of the whole buffer gives. *)
Lemma find_exact header c :
  find_boundary header = None →
  find (length header) (header ++ c) =
    ((fun hr => (length hr.1 + 4)%nat) <$> find_boundary (header ++ c), length (header ++ c)).
Proof.
  intros Hn. unfold find. rewrite Nat.min_l by (rewrite length_app; lia). f_equal.
  rewrite (find_boundary_drop (length header) (header ++ c)) by (by rewrite take_app_length).
  destruct (find_boundary (drop _ _)) as [[h r]|]; cbn; [|done]. f_equal.
  rewrite length_app, length_take, length_app. lia.
Qed.

Section response.
Context `{HttpCrate} (limits : Limits) (accepts : nat → bool).

(** ** Fragmentation *)

Ltac same_record Hsame :=
  let Hn := fresh in
  pose proof (next_record_same _ _ _ _ Hsame) as Hn;
  destruct (next_record _ _) as [[[r w1] rs1]|e1], (next_record _ _) as [[[r2 w2] rs2]|e2];
    [|done|done|];
  [destruct Hn as (<- & Ha & Hl); destruct (require_response_record r) as [[]|]; [|done]|];
  [|by subst].

Lemma read_head_same fuel1 fuel2 reads1 wire1 reads2 wire2 header scanned seen :
  ahead reads1 wire1 = ahead reads2 wire2 →
  (length (ahead reads1 wire1).1 < fuel1)%nat → (length (ahead reads1 wire1).1 < fuel2)%nat →
  match read_head limits fuel1 reads1 wire1 header scanned seen,
        read_head limits fuel2 reads2 wire2 header scanned seen with
  | Err a, Err b => a = b
  | Ok (p1, w1, rs1, n1), Ok (p2, w2, rs2, n2) =>
      p1 = p2 ∧ ahead rs1 w1 = ahead rs2 w2 ∧ n1 = n2 ∧
      (length (ahead rs1 w1).1 ≤ length (ahead reads1 wire1).1)%nat
  | _, _ => False
  end.
Proof.
  revert fuel2 reads1 wire1 reads2 wire2 header scanned seen.
  induction fuel1 as [|fuel1 IH]; intros [|fuel2] reads1 wire1 reads2 wire2 header scanned seen Hsame H1 H2; [lia..|].
  cbn [read_head]. same_record Hsame. cbn zeta.
  assert (Hrec : ∀ header scanned seen, 
    match read_head limits fuel1 rs1 w1 header scanned seen, read_head limits fuel2 rs2 w2 header scanned seen with
    | Err a, Err b => a = b
    | Ok (p1, w1, rs1, n1), Ok (p2, w2, rs2, n2) =>
        p1 = p2 ∧ ahead rs1 w1 = ahead rs2 w2 ∧ n1 = n2 ∧
        (length (ahead rs1 w1).1 ≤ length (ahead reads1 wire1).1)%nat
    | _, _ => False
    end).
  { intros header' scanned' seen'. specialize (IH fuel2 _ _ _ _ header' scanned' seen' Ha ltac:(lia) ltac:(lia)).
    destruct (read_head _ _ _ _ _ _ _) as [[[[p1 w1'] rs1'] n1]|], (read_head _ _ _ _ _ _ _) as [[[[p2 w2'] rs2'] n2]|]; try done.
    destruct IH as (? & ? & ? & ?). repeat split; [done..|lia]. }
  destruct (kind r); try done; try apply Hrec.
  destruct (bool_decide (content r = [])); [done|]. destruct (_ <=? _); [done|].
  destruct (find _ _) as [found scanned']. destruct (bool_decide (found ≠ None)).
  - destruct (parse_cgi_head _ _ _); [|done]. repeat split; [done|lia].
  - destruct (_ <? _); [done|]. apply Hrec.
Qed.

Lemma pump_loop_same fuel1 fuel2 reads1 wire1 reads2 wire2 expected discard so se seen f :
  ahead reads1 wire1 = ahead reads2 wire2 →
  (length (ahead reads1 wire1).1 < fuel1)%nat → (length (ahead reads1 wire1).1 < fuel2)%nat →
  pump_loop limits accepts fuel1 reads1 wire1 expected discard so se seen f =
  pump_loop limits accepts fuel2 reads2 wire2 expected discard so se seen f.
Proof.
  revert fuel2 reads1 wire1 reads2 wire2 so se seen f.
  induction fuel1 as [|fuel1 IH]; intros [|fuel2] reads1 wire1 reads2 wire2 so se seen f Hsame H1 H2; [lia..|].
  cbn [pump_loop]. same_record Hsame. cbn zeta.
  assert (Hrec : ∀ so se seen f, pump_loop limits accepts fuel1 rs1 w1 expected discard so se seen f =
    pump_loop limits accepts fuel2 rs2 w2 expected discard so se seen f) by (intros; apply IH; [done|lia..]).
  destruct (kind r); try done.
  - destruct so; [done|]. destruct (bool_decide _); [apply Hrec|].
    destruct (feed _ _ _ _ _) as [[] f']; [apply Hrec|done].
  - destruct se; [done|]. destruct (bool_decide _); apply Hrec.
Qed.

(** The response depends only on the octets the connection delivers and on how it ends,
    not on how the reads cut them, and as many turns of the loops as there are octets are
    enough. *)
Theorem response_of_octets is_head reads1 reads2 fuel1 fuel2 :
  flatten reads1 = flatten reads2 →
  (length (flatten reads1).1 < fuel1)%nat → (length (flatten reads1).1 < fuel2)%nat →
  respond limits accepts fuel1 is_head reads1 = respond limits accepts fuel2 is_head reads2.
Proof.
  intros E H1 H2. unfold respond.
  assert (Hsame : ahead reads1 [] = ahead reads2 []) by (unfold ahead; by rewrite E).
  assert (Ha : ahead reads1 [] = flatten reads1) by (unfold ahead; by destruct (flatten reads1)).
  pose proof (read_head_same fuel1 fuel2 reads1 [] reads2 [] [] 0 0 Hsame) as Hh. rewrite Ha in Hh.
  specialize (Hh H1 H2).
  destruct (read_head limits fuel1 _ _ _ _ _) as [[[[p1 w1] rs1] n1]|e1],
    (read_head limits fuel2 _ _ _ _ _) as [[[[p2 w2] rs2] n2]|e2]; try done; [|by subst].
  destruct Hh as (<- & Hs & <- & Hl). destruct (if is_head then _ else _) as [declared|]; [|done].
  cbn zeta. unfold pump_response. destruct (feed _ _ _ _ _) as [[] f]; [|done].
  by rewrite (pump_loop_same fuel1 fuel2 rs1 w1 rs2 w2) by (done || lia).
Qed.

(** ** What a response is *)

Lemma read_head_ok fuel reads wire header scanned seen p wire' reads' seen' :
  read_head limits fuel reads wire header scanned seen = Ok (p, wire', reads', seen') →
  ∃ rs, parses (ahead reads wire).1 rs (ahead reads' wire').1 ∧
    Forall (fun r => kind r = Stdout ∨ kind r = Stderr) rs ∧
    parse_cgi_head (header ++ stdout rs) (max_response_header limits) (max_response_headers limits) = Ok p.
Proof.
  revert reads wire header scanned seen.
  induction fuel as [|fuel IH]; intros reads wire header scanned seen; [done|]. cbn [read_head].
  destruct (next_record reads wire) as [[[r w1] rs1]|] eqn:En; [|done]. apply next_record_ok in En.
  destruct (require_response_record r) eqn:Er; [|done]. apply require_ok in Er.
  destruct (kind r) eqn:Ek; try done; cbn zeta.
  - destruct (bool_decide (content r = [])); [done|]. destruct (_ <=? _); [done|].
    destruct (find _ _) as [found scanned']. destruct (bool_decide (found ≠ None)).
    + destruct (parse_cgi_head _ _ _) as [p'|] eqn:Ep; [|done]. intros [= <- <- <- <-].
      exists [r]. split; [econstructor; [done|done|constructor]|]. split; [apply Forall_singleton; auto|].
      rewrite stdout_cons, decide_True by done. cbn. by rewrite app_nil_r.
    + destruct (_ <? _); [done|]. intros (rs & Hp & Hall & Hc)%IH. exists (r :: rs).
      split; [by econstructor|]. split; [constructor; auto|].
      by rewrite stdout_cons, decide_True, app_assoc.
  - intros (rs & Hp & Hall & Hc)%IH. exists (r :: rs).
    split; [by econstructor|]. split; [constructor; auto|].
    rewrite stdout_cons, decide_False by congruence. done.
Qed.

(** The count of the body against a declared length. *)
Definition counted (expected : option Z) (f : Fed) : Prop :=
  ∀ n, expected = Some n → 0 <= sent f <= n ∧ n <= U64_MAX.

Lemma feed_spec chunk expected discard f clean f' :
  counted expected f → feed accepts chunk expected discard f = (clean, f') →
  if clean then
    counted expected f' ∧ (∀ n, expected = Some n → sent f' = sent f + zlen chunk) ∧
    mjoin (delivered f') = mjoin (delivered f) ++ (if discard then [] else chunk)
  else mjoin (delivered f') = mjoin (delivered f).
Proof.
  intros Hc. unfold feed. destruct (match expected with Some _ => _ | None => _ end) eqn:Ee.
  { by intros [= <- <-]. }
  assert (Hn : ∀ n, expected = Some n → u64 (sent f + zlen chunk) = sent f + zlen chunk ∧
    0 <= sent f + zlen chunk <= n ∧ n <= U64_MAX).
  { intros n ->. specialize (Hc n eq_refl). unfold saturating_sub in Ee. apply Z.ltb_ge in Ee.
    rewrite Z.max_l in Ee by lia. pose proof (zlen_nonneg chunk).
    split; [apply wrap_id; unfold U64_MAX in *; lia|lia]. }
  assert (Hcount : ∀ d, counted expected {| sent := u64 (sent f + zlen chunk); delivered := d |}).
  { intros d n Ex. cbn. destruct (Hn n Ex) as (-> & ?). lia. }
  cbn zeta. cbn [sent delivered]. destruct discard; cbn [negb andb].
  { intros [= <- <-]. cbn. rewrite app_nil_r. split; [done|]. split; [|done]. intros n Ex. by apply Hn in Ex as [? _]. }
  destruct (bool_decide_reflect (chunk = [])) as [->|Hne]; cbn [negb].
  { intros [= <- <-]. cbn [sent delivered]. rewrite app_nil_r. split; [done|]. split; [|done].
    intros n Ex. by apply Hn in Ex as [? _]. }
  destruct (accepts _); intros [= <- <-]; cbn [sent delivered]; [|done].
  split; [done|]. split; [intros n Ex; by apply Hn in Ex as [? _]|].
  rewrite join_app. cbn. by rewrite app_nil_r.
Qed.

Lemma pump_response_loop_spec fuel reads wire expected discard so se seen f clean f' :
  counted expected f →
  pump_loop limits accepts fuel reads wire expected discard so se seen f = (clean, f') →
  ∃ rs rest, parses (ahead reads wire).1 rs rest ∧
    mjoin (delivered f') = mjoin (delivered f) ++ (if discard then [] else stdout rs) ∧
    (clean = true → complete rs ∧ ∀ n, expected = Some n → n = sent f + zlen (stdout rs)).
Proof.
  revert reads wire so se seen f. induction fuel as [|fuel IH]; intros reads wire so se seen f Hc.
  all: assert (Hstop : (false, f) = (clean, f') → ∃ rs rest, parses (ahead reads wire).1 rs rest ∧
    mjoin (delivered f') = mjoin (delivered f) ++ (if discard then [] else stdout rs) ∧
    (clean = true → complete rs ∧ ∀ n, expected = Some n → n = sent f + zlen (stdout rs))).
  1, 3: intros [= <- <-]; exists [], (ahead reads wire).1; split; [constructor|];
    split; [by destruct discard; rewrite app_nil_r|done].
  { exact Hstop. }
  cbn [pump_loop]. destruct (next_record reads wire) as [[[r w1] rs1]|] eqn:En; [|done].
  apply next_record_ok in En.
  destruct (require_response_record r) eqn:Er; [|done]. apply require_ok in Er. cbn zeta.
  destruct (kind r) eqn:Ek; try done.
  - destruct (parse_end_request _) as [st|] eqn:Ep; [|done]. intros [= <- <-]. exists [r], (ahead rs1 w1).1.
    split; [by repeat econstructor|]. rewrite stdout_cons, decide_False by congruence.
    split; [by destruct discard; rewrite app_nil_r|]. intros Hn.
    split; [exists [], r, st; by repeat constructor|]. intros n ->. apply Z.eqb_eq in Hn.
    change (zlen ([] ++ stdout [])) with 0. lia.
  - destruct so; [done|]. destruct (bool_decide_reflect (content r = [])) as [E0|Hne].
    { intros (rs & rest & Hp & Hd & Hcl)%IH; [|done]. exists (r :: rs), rest.
      rewrite stdout_cons, E0. destruct (decide _); cbn [app].
      all: split; [by econstructor|]; split; [done|]; intros [??]%Hcl; split; [apply complete_cons; auto|done]. }
    destruct (feed _ _ _ _ _) as [[] f1] eqn:Ef; pose proof (feed_spec _ _ _ _ _ _ Hc Ef) as Hf; cbn iota in Hf.
    + destruct Hf as (Hc1 & Hs1 & Hd1). intros (rs & rest & Hp & Hd & Hcl)%IH; [|done].
      exists (r :: rs), rest. rewrite stdout_cons, decide_True by done. split; [by econstructor|].
      rewrite Hd, Hd1, <-app_assoc. split; [by destruct discard|]. intros [? Hn]%Hcl.
      split; [apply complete_cons; auto|]. intros n Ex. rewrite (Hn n Ex), (Hs1 n Ex), zlen_app. lia.
    + intros [= <- <-]. exists [], (ahead reads wire).1. split; [constructor|]. rewrite Hf.
      split; [by destruct discard; rewrite app_nil_r|done].
  - destruct se; [done|]. intros Hl.
    assert (∃ se seen, pump_loop limits accepts fuel rs1 w1 expected discard so se seen f = (clean, f')) as (se' & seen' & Hl')
      by (destruct (bool_decide _); eauto).
    apply IH in Hl' as (rs & rest & Hp & Hd & Hcl); [|done]. exists (r :: rs), rest.
    rewrite stdout_cons, decide_False by congruence. split; [by econstructor|]. split; [done|].
    intros [? ?]%Hcl. split; [apply complete_cons; auto|done].
Qed.

Lemma response_content_length_range m n : response_content_length m = Ok (Some n) → 0 <= n <= U64_MAX.
Proof.
  assert (Hw : ∀ words l, (∀ n, l = Some n → 0 <= n <= U64_MAX) →
    ∀ n, agree_lengths words l = Ok (Some n) → 0 <= n <= U64_MAX).
  { intros words. induction words as [|w words IH]; intros l Hl m'; cbn [agree_lengths].
    { intros ->%Ok_inj. auto. }
    destruct (parse_u64 (trim w)) as [v|] eqn:Ev; cbn [ok_or]; [|done].
    apply parse_unsigned_range in Ev; [|unfold U64_MAX; lia].
    destruct l as [p|]; [destruct (negb _); [done|]|]; apply IH; intros ? [= <-]; lia. }
  unfold response_content_length. assert (Hn : ∀ n, @None Z = Some n → 0 <= n <= U64_MAX) by done.
  revert Hn. generalize (@None Z) as l. induction (get_all m _) as [|raw values IH]; intros l Hl; cbn [agree_fields].
  { intros ->%Ok_inj. auto. }
  destruct (negb _); [done|]. destruct (agree_lengths _ _) as [l'|] eqn:E; [|done].
  apply IH. intros m' ->. by eapply Hw.
Qed.

Lemma parse_cgi_head_prefix bytes mb mh p :
  parse_cgi_head bytes mb mh = Ok p → ∃ head, find_boundary bytes = Some (head, body_prefix p).
Proof.
  unfold parse_cgi_head. destruct (find_boundary bytes) as [[h r]|]; [|done]. destruct (_ || _); [done|].
  destruct (head_lines _ _ _); [|done]. intros <-%Ok_inj. by eexists.
Qed.

Lemma pump_response_spec fuel reads wire prefix expected seen discard clean f :
  (∀ n, expected = Some n → 0 <= n <= U64_MAX) →
  pump_response limits accepts fuel reads wire prefix expected seen discard = (clean, f) →
  ∃ rs rest, parses (ahead reads wire).1 rs rest ∧
    mjoin (delivered f) `prefix_of` (if discard then [] else prefix ++ stdout rs) ∧
    (clean = true →
      complete rs ∧ mjoin (delivered f) = (if discard then [] else prefix ++ stdout rs) ∧
      ∀ n, expected = Some n → zlen (prefix ++ stdout rs) = n).
Proof.
  intros Hex. unfold pump_response. set (f0 := {| sent := 0; delivered := [] |}).
  assert (Hc0 : counted expected f0) by (intros n En; specialize (Hex n En); cbn; lia).
  destruct (feed _ _ _ _ f0) as [[] f1] eqn:Ef; pose proof (feed_spec _ _ _ _ _ _ Hc0 Ef) as Hf; cbn iota in Hf.
  - destruct Hf as (Hc1 & Hs1 & Hd1). change (mjoin (delivered f0)) with (@nil Z) in Hd1. cbn [app] in Hd1.
    intros (rs & rest & Hp & Hd & Hcl)%pump_response_loop_spec; [|done]. exists rs, rest.
    assert (E : mjoin (delivered f) = if discard then [] else prefix ++ stdout rs)
      by (rewrite Hd, Hd1; by destruct discard).
    split; [done|]. rewrite E. split; [done|]. intros [? Hn]%Hcl. split; [done|]. split; [done|].
    intros n En. rewrite zlen_app, (Hn n En), (Hs1 n En). cbn. lia.
  - intros [= <- <-]. exists [], (ahead reads wire).1. split; [constructor|]. rewrite Hf.
    split; [apply prefix_nil|done].
Qed.

(** C6. A response taken from an application is the CGI response its records carry: its body
    is a prefix of the STDOUT octets after the head, and a response that ends cleanly has
    all of them, follows an END_REQUEST that reports completion, and has the length its
    Content-Length declares. *)
Theorem response_faithful fuel is_head reads r :
  respond limits accepts fuel is_head reads = Ok r →
  let forbidden := http_util.response_body_forbidden is_head (r_status r) in
  ∃ rs rest head body, parses (flatten reads).1 rs rest ∧
    find_boundary (stdout rs) = Some (head, body) ∧
    mjoin (r_body r) `prefix_of` (if forbidden then [] else body) ∧
    (r_clean r = true →
      complete rs ∧ mjoin (r_body r) = (if forbidden then [] else body) ∧
      ∀ n, forbidden = false → response_content_length (r_headers r) = Ok (Some n) → zlen body = n).
Proof.
  unfold respond. assert (Ha : ahead reads [] = flatten reads) by (unfold ahead; by destruct (flatten reads)).
  destruct (read_head _ _ _ _ _ _ _) as [[[[p w] reads'] seen]|] eqn:Eh; [|done].
  apply read_head_ok in Eh as (rs1 & Hp1 & Hk1 & Hhead). rewrite Ha in Hp1. cbn [app] in Hhead.
  apply parse_cgi_head_prefix in Hhead as [head Hb].
  destruct (if is_head then _ else _) as [declared|] eqn:Ed; [|done]. cbn zeta.
  set (forbidden := http_util.response_body_forbidden is_head (status p)).
  destruct (pump_response _ _ _ _ _ _ _ _ _) as [clean f] eqn:Epump. intros <-%Ok_inj.
  cbn [r_status r_headers r_clean r_body]. fold forbidden.
  assert (Hdecl : forbidden = false → response_content_length (headers p) = Ok declared)
    by (by destruct is_head).
  apply pump_response_spec in Epump as (rs & rest & Hp & Hpre & Hcl).
  2: { destruct forbidden; [done|]. intros n ->. by eapply response_content_length_range, Hdecl. }
  exists (rs1 ++ rs), rest, head, (body_prefix p ++ stdout rs). split; [by eapply parses_app|].
  rewrite stdout_app. split; [by apply find_boundary_app|]. split; [done|].
  intros (Hdone & Hbody & Hn)%Hcl. split; [|split; [done|]].
  - clear -Hk1 Hdone. induction Hk1 as [|x rs1 Hx _ IH]; [done|]. by apply complete_cons.
  - intros n Hf Hl. rewrite (Hdecl Hf) in Hl. apply Ok_inj in Hl as ->. apply Hn. by rewrite Hf.
Qed.

(** ** A response that is delivered *)

Lemma next_record_parses reads wire r rs rest :
  parses (ahead reads wire).1 (r :: rs) rest →
  ∃ wire' reads', next_record reads wire = Ok (r, wire', reads') ∧
    require_response_record r = Ok tt ∧ parses (ahead reads' wire').1 rs rest ∧
    (length (ahead reads' wire').1 < length (ahead reads wire).1)%nat.
Proof.
  intros Hp. inversion_clear Hp as [|? ? o' ? ? Hr Hid Hrest]. pose proof (next_record_ahead reads wire) as Ha.
  rewrite Hr in Ha. destruct Ha as (w & rs' & En & A). exists w, rs'. rewrite A. cbn [fst].
  apply parse_record_shorter in Hr. split; [done|]. split; [|split; [done|lia]].
  unfold require_response_record. by rewrite Hid.
Qed.

(** The records before the one that ends the head. *)
Definition in_head (r : Record_) : Prop := kind r = Stdout ∧ content r ≠ [] ∨ kind r = Stderr.

(** The records after it: nothing follows the end of its stream. *)
Fixpoint in_body (stdout_ended stderr_ended : bool) (rs : list Record_) : Prop :=
  match rs with
  | [] => True
  | r :: rs =>
      match kind r with
      | Stdout => stdout_ended = false ∧ in_body (bool_decide (content r = [])) stderr_ended rs
      | Stderr => stderr_ended = false ∧ in_body stdout_ended (bool_decide (content r = [])) rs
      | _ => False
      end
  end.

Lemma find_boundary_none a b : find_boundary (a ++ b) = None → find_boundary a = None.
Proof. destruct (find_boundary a) as [[h r]|] eqn:E; [|done]. by rewrite (find_boundary_app _ b _ _ E). Qed.

Lemma read_head_delivers rs r rest p fuel reads wire header seen :
  parses (ahead reads wire).1 (rs ++ [r]) rest → Forall in_head rs → kind r = Stdout → content r ≠ [] →
  find_boundary (header ++ stdout rs) = None →
  zlen (header ++ stdout rs) < max_response_header limits →
  parse_cgi_head (header ++ stdout rs ++ content r)
    (max_response_header limits) (max_response_headers limits) = Ok p →
  (length (ahead reads wire).1 < fuel)%nat →
  ∃ wire' reads' seen',
    read_head limits fuel reads wire header (length header) seen = Ok (p, wire', reads', seen') ∧
    (ahead reads' wire').1 = rest ∧ (length rest ≤ length (ahead reads wire).1)%nat.
Proof.
  intros Hp Hall Hk Hne. revert fuel reads wire header seen Hp.
  induction Hall as [|x rs Hx Hall IH]; intros [|fuel] reads wire header seen Hp Hb Hmax Hok Hf; [lia| |lia|];
    apply next_record_parses in Hp as (w1 & rs1 & En & Er & Hp & Hl); cbn [read_head]; rewrite En, Er.
  - change (stdout []) with (@nil Z) in *. rewrite app_nil_r in Hb, Hmax. cbn [app] in Hok. rewrite Hk.
    rewrite bool_decide_false, (proj2 (Z.leb_gt _ _)), find_exact by done.
    destruct (parse_cgi_head_prefix _ _ _ _ Hok) as [h ->]. rewrite bool_decide_true by done. rewrite Hok.
    inversion_clear Hp. do 3 eexists. split; [done|]. split; [done|lia].
  - rewrite stdout_cons in *. destruct Hx as [[Hx Hxne]|Hx]; rewrite Hx.
    + rewrite decide_True in * by done. rewrite !app_assoc in Hb, Hmax. rewrite <-(app_assoc (content x)), app_assoc in Hok.
      rewrite bool_decide_false by done. pose proof (zlen_nonneg (content x)).
      rewrite !zlen_app in Hmax. pose proof (zlen_nonneg (stdout rs)).
      rewrite (proj2 (Z.leb_gt _ _)) by lia. apply find_boundary_none in Hb as Hb'.
      rewrite find_exact, Hb' by (by eapply find_boundary_none). cbn [fmap option_fmap option_map].
      rewrite bool_decide_false, (proj2 (Z.ltb_ge _ _)) by (rewrite ?zlen_app; naive_solver lia).
      edestruct (IH fuel rs1 w1 (header ++ content x)) as (w' & rs' & seen' & E & ? & ?); [done|done| |done|lia|].
      { rewrite !zlen_app. lia. }
      do 3 eexists. split; [exact E|]. split; [done|lia].
    + rewrite decide_False in * by congruence. cbn [app] in *.
      edestruct (IH fuel rs1 w1 header) as (w' & rs' & seen' & E & ? & ?); [done..|lia|].
      do 3 eexists. split; [exact E|]. split; [done|lia].
Qed.

Lemma feed_accepted chunk expected discard f :
  (∀ i, accepts i = true) →
  (∀ n, expected = Some n → 0 <= sent f ∧ sent f + zlen chunk <= n) →
  (feed accepts chunk expected discard f).1 = true.
Proof.
  intros Hacc Hn. unfold feed. destruct (match expected with Some _ => _ | None => _ end) eqn:E.
  - destruct expected as [n|]; [|done]. apply Z.ltb_lt in E. unfold saturating_sub in E.
    specialize (Hn n eq_refl). pose proof (zlen_nonneg chunk). lia.
  - cbn zeta. by destruct (_ && _); rewrite ?Hacc.
Qed.

Lemma pump_loop_delivers rs e status rest fuel reads wire expected discard so se seen f :
  (∀ i, accepts i = true) →
  parses (ahead reads wire).1 (rs ++ [e]) rest → in_body so se rs →
  kind e = EndRequest → parse_end_request (content e) = Ok status → counted expected f →
  (∀ n, expected = Some n → n = sent f + zlen (stdout rs)) →
  (length (ahead reads wire).1 < fuel)%nat →
  ∃ f', pump_loop limits accepts fuel reads wire expected discard so se seen f = (true, f') ∧
    mjoin (delivered f') = mjoin (delivered f) ++ (if discard then [] else stdout rs).
Proof.
  intros Hacc Hp Hall Hk He. revert fuel reads wire so se seen f Hp Hall.
  induction rs as [|x rs IH]; intros [|fuel] reads wire so se seen f Hp Hall Hc Hn Hf; [lia| |lia|];
    apply next_record_parses in Hp as (w1 & rs1 & En & Er & Hp & Hl); cbn [pump_loop]; rewrite En, Er; cbn zeta.
  { rewrite Hk, He. exists f. split; [|by destruct discard; rewrite app_nil_r].
    destruct expected as [n|]; [|done]. specialize (Hn n eq_refl).
    change (zlen (stdout [])) with 0 in Hn. f_equal. apply Z.eqb_eq. lia. }
  rewrite stdout_cons in *. cbn [in_body] in Hall. destruct (kind x) eqn:Ek; try done.
  - destruct Hall as [-> Hall]. rewrite decide_True in * by done.
    destruct (bool_decide_reflect (content x = [])) as [E0|Hne].
    { rewrite E0 in *. apply IH; [done..|lia]. }
    destruct (feed _ _ _ _ _) as [clean f1] eqn:Ef. pose proof (feed_spec _ _ _ _ _ _ Hc Ef) as Hs.
    assert (clean = true) as ->.
    { pose proof (feed_accepted (content x) expected discard f Hacc) as Ht. rewrite Ef in Ht. apply Ht.
      intros n En'. destruct (Hc n En') as [[? _] _]. specialize (Hn n En'). rewrite zlen_app in Hn.
      pose proof (zlen_nonneg (stdout rs)). lia. }
    destruct Hs as (Hc1 & Hs1 & Hd1). edestruct (IH fuel rs1 w1) as (f' & E & Hd); [done|done|done| |lia|].
    { intros n En'. rewrite (Hn n En'), (Hs1 n En'), zlen_app. lia. }
    exists f'. split; [exact E|]. rewrite Hd, Hd1, <-app_assoc. by destruct discard.
  - destruct Hall as [-> Hall]. rewrite decide_False in * by congruence. cbn [app] in *.
    destruct (bool_decide (content x = [])); (apply IH; [done..|lia]).
Qed.

Lemma pump_response_delivers rs e status rest fuel reads wire prefix expected seen discard :
  (∀ i, accepts i = true) →
  parses (ahead reads wire).1 (rs ++ [e]) rest → in_body false false rs →
  kind e = EndRequest → parse_end_request (content e) = Ok status →
  (∀ n, expected = Some n → n = zlen (prefix ++ stdout rs) ∧ n <= U64_MAX) →
  (length (ahead reads wire).1 < fuel)%nat →
  ∃ f, pump_response limits accepts fuel reads wire prefix expected seen discard = (true, f) ∧
    mjoin (delivered f) = if discard then [] else prefix ++ stdout rs.
Proof.
  intros Hacc Hp Hall Hk He Hn Hf. unfold pump_response. set (f0 := {| sent := 0; delivered := [] |}).
  pose proof (zlen_nonneg prefix). pose proof (zlen_nonneg (stdout rs)). setoid_rewrite zlen_app in Hn.
  assert (Hc0 : counted expected f0) by (intros n En; specialize (Hn n En); cbn; lia).
  destruct (feed _ _ _ _ f0) as [clean f1] eqn:Ef. pose proof (feed_spec _ _ _ _ _ _ Hc0 Ef) as Hs.
  assert (clean = true) as ->.
  { pose proof (feed_accepted prefix expected discard f0 Hacc) as Ht. rewrite Ef in Ht. apply Ht.
    intros n En'. specialize (Hn n En'). cbn. lia. }
  destruct Hs as (Hc1 & Hs1 & Hd1).
  destruct (pump_loop_delivers rs e status rest fuel reads wire expected discard false false seen f1)
    as (f & -> & Hd); [done..| |done|].
  { intros n En. specialize (Hn n En). rewrite (Hs1 n En). cbn. lia. }
  exists f. split; [done|]. rewrite Hd, Hd1. by destruct discard.
Qed.


End response.

(** ** An exchange *)

Definition test_limits : Limits :=
  {| max_response_header := 100; max_response_headers := 8; stderr_limit := 16 |}.

Definition octets_of (rs : list (RecordType * list Z)) : list Z :=
  mjoin ((fun kc => match record kc.1 1 kc.2 with Ok o => o | Err _ => [] end) <$> rs).

Definition test_response : list Z :=
  octets_of [(Stdout, bs "Content-Length: 5" ++ [13; 10; 13]); (Stderr, bs "note");
             (Stdout, [10] ++ bs "hel"); (Stdout, bs "lo"); (EndRequest, replicate 8 0)].

Definition test_reply (fuel : nat) (reads : list Read) : result HandlerError Response :=
  respond (H := http_util.http_ascii) test_limits (fun _ => true) fuel false reads.

Lemma response_of_octets_witness :
  test_reply 200 [Got (take 30 test_response); Got (drop 30 test_response)] =
  test_reply 300 ((fun b => Got [b]) <$> test_response).
Proof.
  apply (response_of_octets (H := http_util.http_ascii) test_limits (fun _ => true));
    [by vm_compute|apply Nat.ltb_lt; by vm_compute..].
Defined.

Definition test_record (k : RecordType) (c : list Z) : Record_ := {| kind := k; request_id := 1; content := c |}.


Lemma response_faithful_witness :
  match test_reply 200 [Got test_response] with
  | Ok r => r_clean r = true ∧ mjoin (r_body r) `prefix_of` bs "hello"
  | Err _ => False
  end.
Proof.
  pose proof (response_faithful (H := http_util.http_ascii) test_limits (fun _ => true) 200 false
    [Got test_response]) as Hr.
  unfold test_reply. destruct (respond _ _ _ _ _) as [r|e] eqn:E; [|by vm_compute in E].
  specialize (Hr r eq_refl) as (rs & rest & head & body & _). vm_compute in E. apply Ok_inj in E as <-.
  split; [done|]. by exists [].
Defined.

End response.
