(* ===== verification/PageMeta.v ===== *)
(** * Resident metadata of the page cache: [crates/hj-pagecache/src/metablob.rs]

    The key, headers and tags of a cached page are written as one record and compressed.
    zstd is a parameter, the class [Zstd]; its law is what [decompress] documents. A
    [Cursor] is what it has not read yet. *)

From stdpp Require Import base list strings.
From Stdlib Require Import ZArith Lia.
From S2P Require Import Prelude RustStr HttpUtil.

#[local] Open Scope result_scope.

(** [compress] and [decompress] of a [zstd::bulk] context with the shared dictionary. *)
Class Zstd : Type := {
  compress : list Z → option (list Z);
  decompress : list Z → Z → option (list Z);
}.

Class ZstdLaw `{Zstd} : Prop :=
  decompress_compress raw c : compress raw = Some c → decompress c (zlen raw) = Some raw.

Module page_meta.

Record PageCacheKey : Type := {
  vhost_id : Z;
  secure : bool;
  host : list Z;
  path : list Z;
  normalized_query : list Z;
  key_vary_value : list Z;
  private_owner : Z;
}.

#[export] Instance PageCacheKey_eq_dec : EqDecision PageCacheKey.
Proof. solve_decision. Defined.

Inductive PageScope : Type := Public | Private (owner_hash : Z).

Inductive PageBody : Type :=
| InMem (bytes : list Z)
| File (file_path : list Z) (len : Z) (disk_total : N) (body_id : Z)
| Derived (identity_len : Z).

Record CachedResponse : Type := {
  status : Z;
  identity : list Z;
  headers : list (list Z * list Z);
  body : PageBody;
  variants : list (list Z * list Z);
  variants_filled : bool;
  dict_gen : Z;
  tags : list (list Z);
  vary_cookie_name : list Z;
  vary_value : list Z;
  scope : PageScope;
  stored_at : Z;
  ttl : Z;
  swr : Z;
  sie : Z;
}.

Record DecodedMeta : Type := {
  d_key : PageCacheKey;
  d_status : Z;
  d_identity : list Z;
  d_headers : list (list Z * list Z);
  d_tags : list (list Z);
  d_vary_cookie_name : list Z;
  d_vary_value : list Z;
  d_scope : PageScope;
}.

Record MetaBlob : Type := { compressed : list Z; raw_len : Z }.

Inductive MetaError : Type := meta_error (msg : string).

Definition MAGIC : list Z := bs "HJPM".
Definition VERSION : Z := 2.
Definition MAX_RAW_META : Z := 4 * 2 ^ 20.
Definition MAX_COMP_META : Z := 4 * 2 ^ 20.

Definition to_le_bytes (n : nat) (x : Z) : list Z := rev (to_be_bytes n x).
Definition from_le_bytes (l : list Z) : Z := from_be_bytes (rev l).

(** ** Writing *)

Definition push_lp (buf bytes : list Z) : result MetaError (list Z) :=
  if 2 ^ 32 - 1 <? zlen bytes then Err (meta_error "field over format bound")
  else Ok (buf ++ to_le_bytes 4 (u32 (zlen bytes)) ++ bytes).

Fixpoint push_tags (m : list Z) (tags : list (list Z)) : result MetaError (list Z) :=
  match tags with
  | [] => Ok m
  | t :: tags => let? m := push_lp m t in push_tags m tags
  end.

Fixpoint push_headers (m : list Z) (headers : list (list Z * list Z)) : result MetaError (list Z) :=
  match headers with
  | [] => Ok m
  | (n, v) :: headers =>
      let? m := push_lp m n in
      let? m := push_lp m v in
      push_headers m headers
  end.

Definition flag (b : bool) : Z := if b then 1 else 0.

Definition encode_raw (key : PageCacheKey) (entry : CachedResponse) : result MetaError (list Z) :=
  if (65535 <? zlen (tags entry)) || (65535 <? zlen (headers entry))
  then Err (meta_error "tag/header count over format bound")
  else
    let m := MAGIC ++ to_le_bytes 2 VERSION ++ to_le_bytes 4 (vhost_id key) ++ [flag (secure key)] in
    let? m := push_lp m (host key) in
    let? m := push_lp m (path key) in
    let? m := push_lp m (normalized_query key) in
    let? m := push_lp m (key_vary_value key) in
    let m := m ++ to_le_bytes 8 (private_owner key) ++ to_le_bytes 2 (status entry) in
    let '(is_private, scope_owner) :=
      match scope entry with Public => (0, 0) | Private owner_hash => (1, owner_hash) end in
    let m := m ++ [is_private] ++ to_le_bytes 8 scope_owner in
    let? m := push_lp m (identity entry) in
    let? m := push_lp m (vary_cookie_name entry) in
    let? m := push_lp m (vary_value entry) in
    let m := m ++ to_le_bytes 2 (u16 (zlen (tags entry))) in
    let? m := push_tags m (tags entry) in
    let m := m ++ to_le_bytes 2 (u16 (zlen (headers entry))) in
    let? m := push_headers m (headers entry) in
    if MAX_RAW_META <? zlen m then Err (meta_error "raw metadata over format bound") else Ok m.

(** ** Reading *)

Definition read (n : nat) (c : list Z) : result MetaError (list Z * list Z) :=
  if (length c <? n)%nat then Err (meta_error "field past metadata end")
  else Ok (take n c, drop n c).

Definition read_int (n : nat) (c : list Z) : result MetaError (Z * list Z) :=
  let? r := read n c in
  let '(b, c) := r in
  Ok (from_le_bytes b, c).

Definition read_lp (c : list Z) : result MetaError (list Z * list Z) :=
  let? r := read_int 4 c in
  let '(n, c) := r in
  read (Z.to_nat n) c.

Definition read_string (c : list Z) : result MetaError (list Z * list Z) :=
  let? r := read_lp c in
  let '(s, c) := r in
  if utf8_valid s then Ok (s, c) else Err (meta_error "bad utf-8").

Fixpoint read_tags (n : nat) (c : list Z) : result MetaError (list (list Z) * list Z) :=
  match n with
  | O => Ok ([], c)
  | S n =>
      let? r := read_string c in
      let '(t, c) := r in
      let? r := read_tags n c in
      let '(ts, c) := r in
      Ok (t :: ts, c)
  end.

Section codec.
Context `{HttpCrate} `{Zstd}.

Fixpoint read_headers (n : nat) (c : list Z)
    : result MetaError (list (list Z * list Z) * list Z) :=
  match n with
  | O => Ok ([], c)
  | S n =>
      let? r := read_lp c in
      let '(name, c) := r in
      let? name := ok_or (header_name name) (meta_error "bad header name") in
      let? r := read_lp c in
      let '(value, c) := r in
      if negb (header_value_ok value) then Err (meta_error "bad header value")
      else
        let? r := read_headers n c in
        let '(hs, c) := r in
        Ok ((name, value) :: hs, c)
  end.

Definition decode_raw (raw : list Z) : result MetaError DecodedMeta :=
  let? r := read 4 raw in
  let '(magic, c) := r in
  if negb (bytes_eqb magic MAGIC) then Err (meta_error "bad metadata magic")
  else
    let? r := read_int 2 c in
    let '(version, c) := r in
    if negb (version =? VERSION) then Err (meta_error "unknown metadata version")
    else
      let? r := read_int 4 c in
      let '(vhost_id, c) := r in
      let? r := read_int 1 c in
      let '(secure, c) := r in
      let? r := read_string c in
      let '(host, c) := r in
      let? r := read_string c in
      let '(path, c) := r in
      let? r := read_string c in
      let '(normalized_query, c) := r in
      let? r := read_string c in
      let '(key_vary_value, c) := r in
      let? r := read_int 8 c in
      let '(private_owner, c) := r in
      let? r := read_int 2 c in
      let '(status, c) := r in
      let? r := read_int 1 c in
      let '(is_private, c) := r in
      let? r := read_int 8 c in
      let '(scope_owner, c) := r in
      let? r := read_string c in
      let '(identity, c) := r in
      let? r := read_string c in
      let '(vary_cookie_name, c) := r in
      let? r := read_string c in
      let '(vary_value, c) := r in
      let? r := read_int 2 c in
      let '(tag_count, c) := r in
      let? r := read_tags (Z.to_nat tag_count) c in
      let '(tags, c) := r in
      let? r := read_int 2 c in
      let '(header_count, c) := r in
      let? r := read_headers (Z.to_nat header_count) c in
      let '(headers, c) := r in
      if negb (bool_decide (c = [])) then Err (meta_error "trailing metadata bytes")
      else
        Ok {| d_key :=
                {| vhost_id := vhost_id; secure := negb (secure =? 0); host := host; path := path;
                   normalized_query := normalized_query; key_vary_value := key_vary_value;
                   private_owner := private_owner |};
              d_status := status; d_identity := identity; d_headers := headers; d_tags := tags;
              d_vary_cookie_name := vary_cookie_name; d_vary_value := vary_value;
              d_scope := if negb (is_private =? 0) then Private scope_owner else Public |}.

Definition encode (key : PageCacheKey) (entry : CachedResponse) : result MetaError MetaBlob :=
  let? raw := encode_raw key entry in
  let? compressed := ok_or (compress raw) (meta_error "zstd metadata encode failed") in
  if MAX_COMP_META <? zlen compressed
  then Err (meta_error "compressed metadata over format bound")
  else Ok {| raw_len := u32 (zlen raw); compressed := compressed |}.

Definition decode (m : MetaBlob) : result MetaError DecodedMeta :=
  if (MAX_COMP_META <? zlen (compressed m)) || (MAX_RAW_META <? raw_len m)
  then Err (meta_error "metadata length over format bound")
  else
    let? raw := ok_or (decompress (compressed m) (raw_len m)) (meta_error "zstd metadata decode failed") in
    decode_raw raw.

End codec.

Definition to_cached_response (d : DecodedMeta) (body : PageBody) (variants : list (list Z * list Z))
    (variants_filled : bool) (dict_gen stored_at ttl swr sie : Z) : CachedResponse :=
  {| status := d_status d; identity := d_identity d; headers := d_headers d; body := body;
     variants := variants; variants_filled := variants_filled; dict_gen := dict_gen;
     tags := d_tags d; vary_cookie_name := d_vary_cookie_name d; vary_value := d_vary_value d;
     scope := d_scope d; stored_at := stored_at; ttl := ttl; swr := swr; sie := sie |}.

(** ** What is written is read *)

(** What the types of the source give: widths, UTF-8 strings, header names and values. *)
Record key_ok (key : PageCacheKey) : Prop := {
  k_vhost : 0 <= vhost_id key < 2 ^ 32;
  k_owner : 0 <= private_owner key < 2 ^ 64;
  k_strings : Forall (fun s => utf8_valid s = true)
    [host key; path key; normalized_query key; key_vary_value key];
}.

Record entry_ok `{HttpCrate} (entry : CachedResponse) : Prop := {
  e_status : 0 <= status entry < 2 ^ 16;
  e_scope : match scope entry with Public => True | Private o => 0 <= o < 2 ^ 64 end;
  e_strings : Forall (fun s => utf8_valid s = true)
    ([identity entry; vary_cookie_name entry; vary_value entry] ++ tags entry);
  e_headers : Forall (fun h => header_name h.1 = Some h.1 ∧ header_value_ok h.2 = true) (headers entry);
}.

Definition lp (b : list Z) : list Z := to_le_bytes 4 (zlen b) ++ b.

Lemma push_lp_ok m b m' : push_lp m b = Ok m' → zlen b < 2 ^ 32 ∧ m' = m ++ lp b.
Proof.
  unfold push_lp. destruct (Z.ltb_spec (2 ^ 32 - 1) (zlen b)); [done|]. pose proof (zlen_nonneg b).
  rewrite (wrap_id 32) by lia. intros [= <-]. split; [lia|done].
Qed.

Lemma read_int_write n x rest : 0 <= x < 2 ^ (8 * Z.of_nat n) → read_int n (to_le_bytes n x ++ rest) = Ok (x, rest).
Proof.
  intros Hx. unfold read_int, read, to_le_bytes, from_le_bytes.
  assert (Hl : length (rev (to_be_bytes n x)) = n) by (by rewrite length_rev, length_to_be_bytes).
  rewrite length_app, Hl. destruct (Nat.ltb_spec (n + length rest) n); [lia|].
  rewrite take_app_length', drop_app_length', rev_involutive by done. by rewrite from_to_be_bytes_id.
Qed.

Lemma read_byte b rest : read_int 1 ([b] ++ rest) = Ok (b, rest).
Proof. done. Qed.

Lemma read_lp_write b rest : zlen b < 2 ^ 32 → read_lp (lp b ++ rest) = Ok (b, rest).
Proof.
  intros Hb. pose proof (zlen_nonneg b). unfold read_lp, lp. rewrite <-app_assoc, read_int_write by lia.
  unfold read, zlen. rewrite Nat2Z.id, length_app. destruct (Nat.ltb_spec (length b + length rest) (length b)); [lia|].
  by rewrite take_app_length, drop_app_length.
Qed.

Lemma read_string_write b rest :
  zlen b < 2 ^ 32 → utf8_valid b = true → read_string (lp b ++ rest) = Ok (b, rest).
Proof. intros Hb Hu. unfold read_string. by rewrite read_lp_write, Hu. Qed.

Lemma push_tags_ok m ts m' :
  push_tags m ts = Ok m' → Forall (fun t => zlen t < 2 ^ 32) ts ∧ m' = m ++ mjoin (lp <$> ts).
Proof.
  revert m. induction ts as [|t ts IH]; intros m; cbn [push_tags].
  { intros [= <-]. split; [constructor|by rewrite app_nil_r]. }
  destruct (push_lp m t) as [m1|] eqn:E; [|done]. apply push_lp_ok in E as [Ht ->].
  intros [Hts ->]%IH. split; [by constructor|]. by rewrite <-app_assoc.
Qed.

Lemma read_tags_write ts rest :
  Forall (fun t => zlen t < 2 ^ 32) ts → Forall (fun t => utf8_valid t = true) ts →
  read_tags (length ts) (mjoin (lp <$> ts) ++ rest) = Ok (ts, rest).
Proof.
  induction ts as [|t ts IH]; intros Hl Hu; [done|]. apply Forall_cons in Hl as [? Hl], Hu as [? Hu].
  cbn [length read_tags fmap list_fmap]. change (mjoin (lp t :: (lp <$> ts))) with (lp t ++ mjoin (lp <$> ts)).
  by rewrite <-app_assoc, read_string_write, IH by done.
Qed.

Definition header_octets (h : list Z * list Z) : list Z := lp h.1 ++ lp h.2.

Lemma push_headers_ok m hs m' :
  push_headers m hs = Ok m' →
  Forall (fun h => zlen h.1 < 2 ^ 32 ∧ zlen h.2 < 2 ^ 32) hs ∧ m' = m ++ mjoin (header_octets <$> hs).
Proof.
  revert m. induction hs as [|[n v] hs IH]; intros m; cbn [push_headers].
  { intros [= <-]. split; [constructor|by rewrite app_nil_r]. }
  destruct (push_lp m n) as [m1|] eqn:E1; [|done]. apply push_lp_ok in E1 as [Hn ->].
  destruct (push_lp _ v) as [m2|] eqn:E2; [|done]. apply push_lp_ok in E2 as [Hv ->].
  intros [Hhs ->]%IH. split; [by constructor|].
  change (mjoin (header_octets <$> (n, v) :: hs)) with ((lp n ++ lp v) ++ mjoin (header_octets <$> hs)).
  by rewrite <-!app_assoc.
Qed.

Section roundtrip.
Context `{HttpCrate} `{ZstdLaw}.

Lemma read_headers_write hs rest :
  Forall (fun h => zlen h.1 < 2 ^ 32 ∧ zlen h.2 < 2 ^ 32) hs →
  Forall (fun h => header_name h.1 = Some h.1 ∧ header_value_ok h.2 = true) hs →
  read_headers (length hs) (mjoin (header_octets <$> hs) ++ rest) = Ok (hs, rest).
Proof.
  induction hs as [|[n v] hs IH]; intros Hl Hu; [done|].
  apply Forall_cons in Hl as [[? ?] Hl], Hu as [[Hn Hv] Hu]. cbn [fst snd] in *.
  cbn [length read_headers fmap list_fmap].
  change (mjoin (header_octets (n, v) :: (header_octets <$> hs)))
    with ((lp n ++ lp v) ++ mjoin (header_octets <$> hs)).
  rewrite <-!app_assoc, read_lp_write, Hn by done. cbn [ok_or].
  rewrite read_lp_write, Hv by done. cbn [negb]. by rewrite IH.
Qed.

Definition decoded_of (key : PageCacheKey) (entry : CachedResponse) : DecodedMeta :=
  {| d_key := key; d_status := status entry; d_identity := identity entry;
     d_headers := headers entry; d_tags := tags entry;
     d_vary_cookie_name := vary_cookie_name entry; d_vary_value := vary_value entry;
     d_scope := scope entry |}.

(** The record field by field. *)
Definition raw_octets (key : PageCacheKey) (entry : CachedResponse) : list Z :=
  MAGIC ++ to_le_bytes 2 VERSION ++ to_le_bytes 4 (vhost_id key) ++ [flag (secure key)]
  ++ lp (host key) ++ lp (path key) ++ lp (normalized_query key) ++ lp (key_vary_value key)
  ++ to_le_bytes 8 (private_owner key) ++ to_le_bytes 2 (status entry)
  ++ [match scope entry with Public => 0 | Private _ => 1 end]
  ++ to_le_bytes 8 (match scope entry with Public => 0 | Private o => o end)
  ++ lp (identity entry) ++ lp (vary_cookie_name entry) ++ lp (vary_value entry)
  ++ to_le_bytes 2 (zlen (tags entry)) ++ mjoin (lp <$> tags entry)
  ++ to_le_bytes 2 (zlen (headers entry)) ++ mjoin (header_octets <$> headers entry).

Definition fields_fit (key : PageCacheKey) (entry : CachedResponse) : Prop :=
  Forall (fun s => zlen s < 2 ^ 32)
    ([host key; path key; normalized_query key; key_vary_value key; identity entry;
      vary_cookie_name entry; vary_value entry] ++ tags entry) ∧
  Forall (fun h => zlen h.1 < 2 ^ 32 ∧ zlen h.2 < 2 ^ 32) (headers entry) ∧
  zlen (tags entry) < 2 ^ 16 ∧ zlen (headers entry) < 2 ^ 16.

Ltac pushed E := match type of E with push_lp _ _ = _ => apply push_lp_ok in E as [? ->] end.

Lemma encode_raw_ok key entry raw :
  encode_raw key entry = Ok raw →
  raw = raw_octets key entry ∧ fields_fit key entry ∧ zlen raw <= MAX_RAW_META.
Proof.
  unfold encode_raw. destruct (_ || _) eqn:Ec; [done|]. apply orb_false_iff in Ec as [Et%Z.ltb_ge Eh%Z.ltb_ge].
  pose proof (zlen_nonneg (tags entry)). pose proof (zlen_nonneg (headers entry)).
  rewrite !(wrap_id 16) by lia. cbn zeta.
  destruct (push_lp _ (host key)) as [m1|] eqn:E1; [pushed E1|done].
  destruct (push_lp _ (path key)) as [m2|] eqn:E2; [pushed E2|done].
  destruct (push_lp _ (normalized_query key)) as [m3|] eqn:E3; [pushed E3|done].
  destruct (push_lp _ (key_vary_value key)) as [m4|] eqn:E4; [pushed E4|done].
  destruct (match scope entry with Public => _ | Private _ => _ end) as [ip so] eqn:Es.
  destruct (push_lp _ (identity entry)) as [m5|] eqn:E5; [pushed E5|done].
  destruct (push_lp _ (vary_cookie_name entry)) as [m6|] eqn:E6; [pushed E6|done].
  destruct (push_lp _ (vary_value entry)) as [m7|] eqn:E7; [pushed E7|done].
  destruct (push_tags _ _) as [m8|] eqn:E8; [|done]. apply push_tags_ok in E8 as [Ht ->].
  destruct (push_headers _ _) as [m9|] eqn:E9; [|done]. apply push_headers_ok in E9 as [Hh ->].
  match goal with |- context [MAX_RAW_META <? ?z] => destruct (Z.ltb_spec MAX_RAW_META z); [done|] end.
  intros [= <-]. split; [|split; [|done]].
  - unfold raw_octets. destruct (scope entry); injection Es as <- <-; by rewrite <-!app_assoc.
  - split; [|split; [done|lia]]. repeat constructor; done.
Qed.

Lemma decode_raw_write key entry :
  key_ok key → entry_ok entry → fields_fit key entry →
  decode_raw (raw_octets key entry) = Ok (decoded_of key entry).
Proof.
  intros [Hv Ho Hks] [Hst Hsc Hes Hhs] (Hfit & Hhfit & Ht & Hh). unfold decode_raw, raw_octets.
  repeat apply Forall_cons in Hks as [? Hks]. cbn [app] in Hes, Hfit.
  repeat (apply Forall_cons in Hes as [? Hes] || apply Forall_cons in Hfit as [? Hfit]).
  pose proof (zlen_nonneg (tags entry)). pose proof (zlen_nonneg (headers entry)).
  assert (Hm : ∀ r, read 4 (MAGIC ++ r) = Ok (MAGIC, r)) by done. rewrite Hm, bytes_eqb_refl. cbn [negb].
  rewrite read_int_write by done. rewrite Z.eqb_refl. cbn [negb].
  rewrite read_int_write, read_byte by lia. rewrite !read_string_write by done.
  rewrite read_int_write, read_int_write, read_byte, read_int_write by (done || by destruct (scope entry)).
  rewrite !read_string_write, read_int_write by (done || lia).
  unfold zlen at 1. rewrite Nat2Z.id, read_tags_write, read_int_write by (done || lia).
  unfold zlen. rewrite Nat2Z.id. rewrite <-(app_nil_r (mjoin (header_octets <$> _))), read_headers_write by done.
  rewrite bool_decide_true by done. cbn [negb]. unfold decoded_of. f_equal. destruct key as [? sec ?????]. cbn.
  f_equal; [by destruct sec|by destruct (scope entry)].
Qed.

Lemma meta_decode_encode key entry m :
  key_ok key → entry_ok entry → encode key entry = Ok m → decode m = Ok (decoded_of key entry).
Proof.
  intros Hk He. unfold encode, decode. destruct (encode_raw key entry) as [raw|] eqn:Er; [|done].
  apply encode_raw_ok in Er as (-> & Hfit & Hlen). pose proof (zlen_nonneg (raw_octets key entry)).
  destruct (compress _) as [c|] eqn:Ec; cbn [ok_or]; [|done].
  destruct (Z.ltb_spec MAX_COMP_META (zlen c)); [done|]. intros [= <-]. cbn [compressed raw_len].
  unfold MAX_RAW_META in *. rewrite (wrap_id 32) by lia.
  rewrite (proj2 (Z.ltb_ge _ _)), (proj2 (Z.ltb_ge _ _)) by lia. cbn [orb].
  rewrite (decompress_compress _ _ Ec). cbn [ok_or]. by apply decode_raw_write.
Qed.

End roundtrip.

End page_meta.
