(* ===== verification/PageStore.v ===== *)
(** * The page store: [crates/hj-pagecache/src/store.rs]

    The full-page response store over the sharded cache, with its tag index and purge
    epochs, when it keeps bodies in RAM only (no file tier). An operation is what it does
    under the page-commit lock or the lock of one shard, and the purge clock counts without
    wrapping at 2^64. The eviction hook of the store
    drops the tags of an entry; the calls the cache logs are applied in their order.

    The weights of entries count struct sizes and allocated capacities, which are the
    compiler's and the allocator's; they are parameters. Instants are nanoseconds. *)

From stdpp Require Import base list gmap.
From Stdlib Require Import ZArith Lia.
From S2P Require Import Prelude RustStr HttpUtil ShardLru ShardCache PageMeta.

Import page_meta.
#[local] Open Scope record_scope.

Module page_store.

(** ** Keys *)

Definition FNV_OFFSET : Z := 0xcbf29ce484222325.
Definition FNV_PRIME : Z := 0x00000100000001B3.

Definition eat_byte (h b : Z) : Z := u64 (Z.lxor h b * FNV_PRIME).

(** The bytes of a field and its separator. *)
Definition eat (h : Z) (bytes : list Z) : Z := eat_byte (fold_left eat_byte bytes h) 0xFF.

Definition key_hash (key : PageCacheKey) : Z :=
  let h :=
    fold_left eat
      [to_le_bytes 4 (vhost_id key); [flag (secure key)]; host key; path key;
       normalized_query key; key_vary_value key; to_le_bytes 8 (private_owner key)] FNV_OFFSET in
  if h =? U64_MAX then 0 else h.

Definition from_raw_page_hash (raw : Z) : Z := Z.land raw (2 ^ 63 - 1).

(** [CacheKeyId::new] *)
Definition key_id (key : PageCacheKey) : Z := from_raw_page_hash (key_hash key).

Definition for_static (vhost_id : Z) (path : list Z) : Z :=
  let h := fold_left eat [to_le_bytes 4 vhost_id; path] FNV_OFFSET in
  let id := Z.lor h (2 ^ 63) in
  if id =? U64_MAX then 2 ^ 63 else id.

Definition NIL : Z := U64_MAX.

#[export] Instance CacheKeyId_ShardKey : lru.ShardKey Z :=
  {| lru.nil_key := NIL; lru.shard_index := fun id shards => Z.land id (shards - 1) |}.

(** ** Entries *)

Inductive Freshness : Type := Fresh | Stale | ErrorOnly | Gone.

#[export] Instance Freshness_eq_dec : EqDecision Freshness.
Proof. solve_decision. Defined.

Inductive EntryState : Type :=
| EFresh (r : CachedResponse)
| EStale (r : CachedResponse)
| EErrorOnly (r : CachedResponse)
| EMiss.

Record Node : Type := {
  meta : MetaBlob;
  decoded : option DecodedMeta;
  resp_snapshot : option CachedResponse;
  n_tags : list (list Z);
  n_body : PageBody;
  n_variants : list (list Z * list Z);
  n_variants_filled : bool;
  n_dict_gen : Z;
  render_epoch : Z;
  n_stored_at : Z;
  n_ttl : Z;
  n_swr : Z;
  n_sie : Z;
}.

#[export] Instance Node_eta : Eta Node := fun r =>
  {| meta := meta r; decoded := decoded r; resp_snapshot := resp_snapshot r; n_tags := n_tags r;
     n_body := n_body r; n_variants := n_variants r; n_variants_filled := n_variants_filled r;
     n_dict_gen := n_dict_gen r; render_epoch := render_epoch r; n_stored_at := n_stored_at r;
     n_ttl := n_ttl r; n_swr := n_swr r; n_sie := n_sie r |}.
#[export] Instance set_decoded : Setter decoded := ltac:(derive_setter).
#[export] Instance set_resp_snapshot : Setter resp_snapshot := ltac:(derive_setter).

Record FileId : Type := { size : Z; mtime_secs : Z; mtime_nanos : Z; inode : Z }.

#[export] Instance FileId_eq_dec : EqDecision FileId.
Proof. solve_decision. Defined.

Record StaticNode : Type := {
  source_path : list Z;
  file_id : FileId;
  content_type : list Z;
  etag : list Z;
  last_modified : list Z;
  s_body : PageBody;
}.

Inductive CacheEntry : Type := Page (n : Node) | Static (s : StaticNode).

Definition as_page (e : CacheEntry) : option Node :=
  match e with Page n => Some n | Static _ => None end.

Definition as_static (e : CacheEntry) : option StaticNode :=
  match e with Static s => Some s | Page _ => None end.

Definition retention (n : Node) : Z := n_ttl n + Z.max (n_swr n) (n_sie n).

(** [duration_since] is zero for an earlier instant. *)
Definition freshness (n : Node) (now : Z) : Freshness :=
  let age := Z.max 0 (now - n_stored_at n) in
  if age <? n_ttl n then Fresh
  else if age <? n_ttl n + n_swr n then Stale
  else if age <? n_ttl n + n_sie n then ErrorOnly
  else Gone.

Definition is_fresh (n : Node) (now : Z) : bool := negb (bool_decide (freshness n now = Gone)).

(** [checked_add] of an [Instant] and a retention does not overflow. *)
Definition deadline (n : Node) : option Z := Some (n_stored_at n + retention n).

Definition body_disk_weight (b : PageBody) : Z :=
  match b with File _ _ disk_total _ => Z.of_N disk_total | _ => 0 end.

Class Weights : Type := {
  node_ram_weight : Node → N;
  static_ram_weight : StaticNode → N;
}.

#[export] Instance CacheEntry_CacheValue `{Weights} : lru.CacheValue CacheEntry := {|
  lru.v_ram_weight := fun e =>
    match e with Page n => Z.of_N (node_ram_weight n) | Static s => Z.of_N (static_ram_weight s) end;
  lru.v_disk_weight := fun e =>
    match e with Page n => body_disk_weight (n_body n) | Static s => body_disk_weight (s_body s) end;
  lru.v_deadline := fun e => match e with Page n => deadline n | Static _ => None end;
  lru.v_is_fresh := fun e now => match e with Page n => is_fresh n now | Static _ => true end;
|}.

Section node.
Context `{HttpCrate} `{Zstd}.

Definition from_cached (key : PageCacheKey) (entry : CachedResponse) (render_epoch : Z)
    : result MetaError Node :=
  match encode key entry with
  | Err e => Err e
  | Ok meta =>
      Ok {| meta := meta; decoded := None; resp_snapshot := None; n_tags := tags entry;
            n_body := body entry; n_variants := variants entry;
            n_variants_filled := variants_filled entry; n_dict_gen := dict_gen entry;
            render_epoch := render_epoch; n_stored_at := stored_at entry; n_ttl := ttl entry;
            n_swr := swr entry; n_sie := sie entry |}
  end.

(** The node with its locks set, and the snapshot. *)
Definition build_snapshot (n : Node) : result MetaError (Node * CachedResponse) :=
  let read := match decoded n with Some d => Ok d | None => decode (meta n) end in
  match read with
  | Err e => Err e
  | Ok d =>
      let resp :=
        to_cached_response d (n_body n) (n_variants n) (n_variants_filled n) (n_dict_gen n)
          (n_stored_at n) (n_ttl n) (n_swr n) (n_sie n) in
      Ok (n <| decoded := Some d |> <| resp_snapshot := Some resp |>, resp)
  end.

Definition with_decoded {R} (n : Node) (inspect : DecodedMeta → R) : result MetaError R :=
  match decoded n with
  | Some d => Ok (inspect d)
  | None => match decode (meta n) with Ok d => Ok (inspect d) | Err e => Err e end
  end.

End node.

(** ** The tag index *)

(** Tag to keys; the shards of the source only split its lock. *)
Abbreviation Tag := (list Z).
Abbreviation TagIndex := (gmap Tag (gset Z)).

Definition ti_insert (tag : Tag) (id : Z) (ti : TagIndex) : TagIndex :=
  <[tag := {[id]} ∪ default ∅ (ti !! tag)]> ti.

Definition remove_membership (id : Z) (ti : TagIndex) (tag : Tag) : TagIndex :=
  match ti !! tag with
  | Some set =>
      let set := set ∖ {[id]} in
      if bool_decide (set = ∅) then delete tag ti else <[tag := set]> ti
  | None => ti
  end.

Definition remove_tag (tag : Tag) (ti : TagIndex) : option (gset Z) * TagIndex :=
  (ti !! tag, delete tag ti).

Definition register (id : Z) (tags : list Tag) (ti : TagIndex) : TagIndex :=
  fold_left (fun ti tag => ti_insert tag id ti) tags ti.

Definition unregister (id : Z) (tags : list Tag) (ti : TagIndex) : TagIndex :=
  fold_left (remove_membership id) tags ti.

(** [StoreEvict::on_evict] *)
Definition store_evict (ti : TagIndex) (h : cache.Hook Z CacheEntry) : TagIndex :=
  match h with
  | cache.on_evict id (Page n) _ => unregister id (n_tags n) ti
  | _ => ti
  end.

(** The calls logged since [before]. *)
Definition settle (before after : list (cache.Hook Z CacheEntry)) (ti : TagIndex) : TagIndex :=
  fold_left store_evict (drop (length before) after) ti.

(** ** The store *)

Section store.
Context `{HttpCrate} `{Zstd} `{Weights}.

Abbreviation Cache := (@cache.Cache Z CacheEntry _ _).
Abbreviation Access := (@cache.Access Z CacheEntry _ _).

Record PageStore : Type := {
  max_obj_bytes : Z;
  max_static_obj_bytes : Z;
  inner : Cache;
  tag_index : TagIndex;
  purge_seq : Z;
  purge_all_epoch : Z;
  tag_purge_epoch : gmap Tag Z;
  tag_epoch_prune_floor : Z;
  active_render_epochs : gmap Z Z;
}.

#[export] Instance PageStore_eta : Eta PageStore := fun r =>
  {| max_obj_bytes := max_obj_bytes r; max_static_obj_bytes := max_static_obj_bytes r;
     inner := inner r; tag_index := tag_index r;
     purge_seq := purge_seq r; purge_all_epoch := purge_all_epoch r;
     tag_purge_epoch := tag_purge_epoch r; tag_epoch_prune_floor := tag_epoch_prune_floor r;
     active_render_epochs := active_render_epochs r |}.
#[global] Instance set_inner : Setter inner := ltac:(derive_setter).
#[global] Instance set_tag_index : Setter tag_index := ltac:(derive_setter).
#[global] Instance set_purge_seq : Setter purge_seq := ltac:(derive_setter).
#[global] Instance set_purge_all_epoch : Setter purge_all_epoch := ltac:(derive_setter).
#[global] Instance set_tag_purge_epoch : Setter tag_purge_epoch := ltac:(derive_setter).
#[global] Instance set_tag_epoch_prune_floor : Setter tag_epoch_prune_floor := ltac:(derive_setter).
#[global] Instance set_active_render_epochs : Setter active_render_epochs := ltac:(derive_setter).

Implicit Types (s : PageStore) (a : Access).

Definition new (max_obj_bytes max_static_obj_bytes : Z) (config : cache.ShardCacheConfig) : PageStore :=
  {| max_obj_bytes := max_obj_bytes; max_static_obj_bytes := max_static_obj_bytes; inner := cache.new config; tag_index := ∅; purge_seq := 0;
     purge_all_epoch := 0; tag_purge_epoch := ∅; tag_epoch_prune_floor := 0;
     active_render_epochs := ∅ |}.

Definition purge_epoch s : Z := purge_seq s.

Definition begin_render (epoch : Z) s : PageStore :=
  s <| active_render_epochs :=
         <[epoch := default 0 (active_render_epochs s !! epoch) + 1]> (active_render_epochs s) |>.

(** [RenderEpochGuard::drop] *)
Definition end_render (epoch : Z) s : PageStore :=
  match active_render_epochs s !! epoch with
  | None => s
  | Some n =>
      let n := saturating_sub n 1 in
      s <| active_render_epochs :=
             if n =? 0 then delete epoch (active_render_epochs s)
             else <[epoch := n]> (active_render_epochs s) |>
  end.

Definition purged_after s (tags : list Tag) (epoch : Z) : bool :=
  (epoch <? purge_all_epoch s)
  || existsb (fun tag => from_option (fun e => epoch <? e) false (tag_purge_epoch s !! tag)) tags.

(** A value changed through its [OnceLock]s. *)
Definition set_value (id : Z) (e : CacheEntry) a : Access :=
  a <| cache.shard :=
         (cache.shard a) <| lru.map :=
           alter (fun n => n <| lru.value := e |>) id (lru.map (cache.shard a)) |> |>.

Definition get_locked (key : PageCacheKey) (id : Z) (ident : list Z) (now : Z) a
    : option (option (Freshness * CachedResponse) * Access) :=
  match cache.acc_get id a ≫= as_page with
  | None => Some (None, a)
  | Some node =>
      let fresh := freshness node now in
      if bool_decide (fresh = Gone) then
        a ← cache.teardown id lru.Expired a; Some (None, a)
      else
        let freshly_built := bool_decide (resp_snapshot node = None) in
        let built :=
          match resp_snapshot node with Some snap => Ok (node, snap) | None => build_snapshot node end in
        match built with
        | Err _ => a ← cache.teardown id lru.Explicit a; Some (None, a)
        | Ok (node, snap) =>
            let a := set_value id (Page node) a in
            d ← decoded node;
            let key_matches := bool_decide (d_key d = key) in
            let identity_ok := bytes_eqb (identity snap) ident in
            let body_is_file := match body snap with File _ _ _ _ => true | _ => false end in
            '(kept, a) ← (if freshly_built then cache.reconcile_weights id id a else Some (true, a));
            if negb kept then Some (None, a)
            else if negb key_matches then Some (None, a)
            else if negb identity_ok then Some (None, a)
            else
              a ← cache.touch_ram id a;
              a ← (if body_is_file && (bool_decide (fresh = Fresh) || bool_decide (fresh = Stale))
                   then cache.touch_disk id a else Some a);
              Some (Some (fresh, snap), a)
        end
  end.

(** What a change of the cache did to the tag index. *)
Definition with_inner s (c : Cache) : PageStore :=
  s <| inner := c |> <| tag_index := settle (cache.log (inner s)) (cache.log c) (tag_index s) |>.

Definition get_entry_inner (key : PageCacheKey) (id : Z) (ident : list Z) (now : Z) s
    : option (EntryState * PageStore) :=
  '(outcome, c) ← cache.with_shard id (get_locked key id ident now) (inner s);
  let s := with_inner s c in
  match outcome with
  | None => Some (EMiss, s)
  | Some (Fresh, r) => Some (EFresh r, s)
  | Some (Stale, r) => Some (EStale r, s)
  | Some (ErrorOnly, r) => Some (EErrorOnly r, s)
  | Some (Gone, _) => None
  end.

Definition get_entry (key : PageCacheKey) (ident : list Z) (now : Z) s
    : option (EntryState * PageStore) :=
  get_entry_inner key (key_id key) ident now s.

(** The predecessor under [id]: its tags, or [None] when it is another key's entry. *)
Definition predecessor (key : PageCacheKey) (id : Z) a : option (option (list Tag) * Access) :=
  match cache.acc_get id a ≫= as_page with
  | None => Some (Some [], a)
  | Some prev =>
      match with_decoded prev (fun d => bool_decide (d_key d = key)) with
      | Ok true => Some (Some (n_tags prev), a)
      | Ok false => Some (None, a)
      | Err _ => a ← cache.teardown id lru.Explicit a; Some (Some [], a)
      end
  end.

(** The installation once the predecessor's tags are known. With a file tier the source asks
    [purged_after] once more after it has published the file. *)
Definition install s (id : Z) (node : Node) (tags previous_tags : list Tag) (epoch : Z)
    (ti : TagIndex) a : option ((bool * TagIndex) * Access) :=
  let provisional := filter (fun tag => tag ∉ previous_tags) tags in
  let ti := register id provisional ti in
  if purged_after s tags epoch then Some ((false, unregister id provisional ti), a)
  else
    '(admitted, a1) ← cache.insert_replacing id (Page node) a;
    let ti := settle (cache.hooks a) (cache.hooks a1) ti in
    if negb admitted then Some ((false, unregister id provisional ti), a1)
    else
      let ti := register id tags ti in
      a2 ← cache.enforce_budgets id a1;
      let ti := settle (cache.hooks a1) (cache.hooks a2) ti in
      if negb (cache.contains id a2) then Some ((false, ti), a2)
      else if purged_after s tags epoch then
        a3 ← cache.teardown id lru.Explicit a2;
        Some ((false, settle (cache.hooks a2) (cache.hooks a3) ti), a3)
      else Some ((true, ti), a2).

Definition store_locked s (key : PageCacheKey) (id : Z) (node : Node) (tags : list Tag) (epoch : Z) a
    : option ((bool * TagIndex) * Access) :=
  let ti := tag_index s in
  if purged_after s tags epoch then Some ((false, ti), a)
  else
    '(prev, a1) ← predecessor key id a;
    let ti := settle (cache.hooks a) (cache.hooks a1) ti in
    match prev with
    | None => Some ((false, ti), a1)
    | Some previous_tags =>
        let previous_tags := if cache.contains id a1 then previous_tags else [] in
        install s id node tags previous_tags epoch ti a1
    end.

Definition body_len (b : PageBody) : Z :=
  match b with InMem bytes => zlen bytes | File _ len _ _ => len | Derived len => len end.

Definition store_if_not_purged_since_hashed (raw_hash : Z) (key : PageCacheKey)
    (entry : CachedResponse) (epoch : Z) s : option (bool * PageStore) :=
  if max_obj_bytes s <? body_len (body entry) then Some (false, s)
  else
    let id := from_raw_page_hash raw_hash in
    match from_cached key entry epoch with
    | Err _ => Some (false, s)
    | Ok node =>
        '(r, c) ← cache.with_shard id (store_locked s key id node (tags entry) epoch) (inner s);
        let '(installed, ti) := r in
        Some (installed, s <| inner := c |> <| tag_index := ti |>)
    end.

Definition store_if_not_purged_since (key : PageCacheKey) (entry : CachedResponse) (epoch : Z) s
    : option (bool * PageStore) :=
  store_if_not_purged_since_hashed (key_hash key) key entry epoch s.

Definition store (key : PageCacheKey) (entry : CachedResponse) s : option (bool * PageStore) :=
  store_if_not_purged_since key entry (purge_epoch s) s.

Definition invalidate_key (key : PageCacheKey) s : option PageStore :=
  c ← cache.remove (key_id key) (inner s); Some (with_inner s c).

Definition purge_tagged_id_locked (tag : Tag) (epoch : Z) (ti : TagIndex) (id : Z) a
    : option (TagIndex * Access) :=
  match cache.acc_get id a ≫= as_page with
  | None => Some (ti, a)
  | Some node =>
      if negb (bool_decide (tag ∈ n_tags node)) then Some (ti, a)
      else if epoch <=? render_epoch node then Some (ti_insert tag id ti, a)
      else
        a1 ← cache.teardown id lru.Explicit a;
        Some (settle (cache.hooks a) (cache.hooks a1) ti, a1)
  end.

Fixpoint purge_group (tag : Tag) (epoch : Z) (ti : TagIndex) (group : list Z) a
    : option (TagIndex * Access) :=
  match group with
  | [] => Some (ti, a)
  | id :: group =>
      '(ti, a) ← purge_tagged_id_locked tag epoch ti id a;
      purge_group tag epoch ti group a
  end.

Fixpoint purge_each (epoch : Z) (tags : list Tag) s : option PageStore :=
  match tags with
  | [] => Some s
  | tag :: tags =>
      let s := s <| tag_purge_epoch := <[tag := epoch]> (tag_purge_epoch s) |> in
      let '(set, ti) := remove_tag tag (tag_index s) in
      '(ti, c) ← (match set with
                  | Some set =>
                      cache.with_shard_groups (elements set) (purge_group tag epoch) ti (inner s)
                  | None => Some (ti, inner s)
                  end);
      purge_each epoch tags (s <| inner := c |> <| tag_index := ti |>)
  end.

Definition purge_tags (tags : list Tag) s : option PageStore :=
  let epoch := purge_seq s + 1 in
  purge_each epoch tags (s <| purge_seq := epoch |>).

Definition purge_all s : option PageStore :=
  let epoch := purge_seq s + 1 in
  let s := s <| purge_seq := epoch |> <| purge_all_epoch := epoch |> <| tag_purge_epoch := ∅ |>
             <| tag_index := ∅ |> in
  c ← cache.purge_if (fun _ e => bool_decide (is_Some (as_page e))) (inner s);
  Some (with_inner s c).

Definition sweep_expired (now : Z) s : option (Z * PageStore) :=
  '(swept, c) ← cache.sweep_expired now (inner s);
  Some (swept, with_inner s c).

(** The least key of the [BTreeMap]. *)
Definition first_key (m : gmap Z Z) : option Z :=
  fold_right (fun kv acc => Some (from_option (Z.min kv.1) kv.1 acc)) None (map_to_list m).

Definition prune_tag_purge_epoch s : PageStore :=
  let floor := tag_epoch_prune_floor s in
  let s :=
    if 0 <? floor then
      let active_floor := first_key (active_render_epochs s) in
      s <| tag_purge_epoch :=
             filter (fun te => Is_true ((floor <? te.2)
                                        || from_option (fun e => e <? te.2) false active_floor))
               (tag_purge_epoch s) |>
    else s in
  s <| tag_epoch_prune_floor := purge_seq s |>.

(** ** Static files

    A path is its UTF-8 text. *)

Definition static_locked (id : Z) (path : list Z) (fresh_id : FileId) a
    : option (option StaticNode * Access) :=
  match cache.acc_get id a ≫= as_static with
  | None => Some (None, a)
  | Some entry =>
      if negb (bytes_eqb (source_path entry) path) then Some (None, a)
      else if negb (bool_decide (file_id entry = fresh_id)) then
        a ← cache.teardown id lru.Explicit a; Some (None, a)
      else
        let on_disk := match s_body entry with File _ _ _ _ => true | _ => false end in
        a ← cache.touch_ram id a;
        a ← (if on_disk then cache.touch_disk id a else Some a);
        Some (Some entry, a)
  end.

Definition get_static (vhost_id : Z) (path : list Z) (fresh_id : FileId) s
    : option (option StaticNode * PageStore) :=
  let id := for_static vhost_id path in
  '(r, c) ← cache.with_shard id (static_locked id path fresh_id) (inner s);
  Some (r, with_inner s c).

Definition store_static_locked (id : Z) (path : list Z) (entry : StaticNode) a
    : option (bool * Access) :=
  let foreign :=
    match cache.acc_get id a ≫= as_static with
    | Some prev => negb (bytes_eqb (source_path prev) path)
    | None => false
    end in
  if foreign then Some (false, a)
  else
    '(admitted, a) ← cache.insert_replacing id (Static entry) a;
    if negb admitted then Some (false, a)
    else a ← cache.enforce_budgets id a; Some (cache.contains id a, a).

Definition store_static (vhost_id : Z) (path : list Z) (file_id : FileId) (bytes : list Z)
    (content_type etag last_modified : list Z) s : option (bool * PageStore) :=
  if max_static_obj_bytes s <? zlen bytes then Some (false, s)
  else
    let id := for_static vhost_id path in
    let entry :=
      {| source_path := path; file_id := file_id; content_type := content_type; etag := etag;
         last_modified := last_modified; s_body := InMem bytes |} in
    '(installed, c) ← cache.with_shard id (store_static_locked id path entry) (inner s);
    Some (installed, with_inner s c).

Definition invalidate_static (vhost_id : Z) (path : list Z) s : option PageStore :=
  c ← cache.remove (for_static vhost_id path) (inner s); Some (with_inner s c).

End store.
End page_store.
