(* ===== verification/PageStoreInv.v ===== *)
(** * The tag index follows the cache

    Inside a locked shard: every removal, insertion and in-place change of the cache keeps
    the entries good and the tag index exact, that is, a key is under a tag exactly when the
    cache has a page with that tag under that key. *)

From stdpp Require Import base list gmap.
From Stdlib Require Import ZArith Lia.
From S2P Require Import Prelude RustStr HttpUtil ShardLru ShardCache ShardCacheInv.
From S2P Require Import ShardCacheOps ShardCacheMutate ShardCacheStore PageMeta PageStore.

Import page_meta page_store cache_inv cache_ops cache_mutate cache_store.
#[local] Open Scope record_scope.

Module page_inv.

(** ** The contract of the cache's keys and values *)

Lemma key_id_raw key : from_raw_page_hash (key_hash key) = key_id key.
Proof. unfold key_id. reflexivity. Qed.

Lemma key_id_range key : 0 <= key_id key < 2 ^ 63.
Proof.
  unfold key_id, from_raw_page_hash. change (2 ^ 63 - 1) with (Z.ones 63). rewrite Z.land_ones by lia.
  apply Z.mod_pos_bound. lia.
Qed.

Lemma key_id_not_nil key : key_id key ≠ lru.nil_key.
Proof. pose proof (key_id_range key). change lru.nil_key with U64_MAX. unfold U64_MAX. lia. Qed.

Lemma for_static_not_nil vhost path : for_static vhost path ≠ lru.nil_key.
Proof.
  change lru.nil_key with U64_MAX. unfold for_static. cbn zeta.
  destruct (Z.eqb_spec (Z.lor (fold_left eat [to_le_bytes 4 vhost; path] FNV_OFFSET) (2 ^ 63)) U64_MAX); [|done].
  unfold U64_MAX. lia.
Qed.

(** The top bit keeps the ids of static files and pages apart. *)
Lemma for_static_not_key vhost path key : for_static vhost path ≠ key_id key.
Proof.
  enough (Z.testbit (for_static vhost path) 63 = true) as Hs.
  { intros E. rewrite E in Hs. pose proof (key_id_range key) as Hk.
    rewrite Z.bits_above_log2 in Hs; [done|lia|].
    destruct (decide (key_id key = 0)) as [->|]; [done|]. apply Z.log2_lt_pow2; lia. }
  unfold for_static. cbn zeta.
  destruct (Z.eqb_spec (Z.lor (fold_left eat [to_le_bytes 4 vhost; path] FNV_OFFSET) (2 ^ 63)) U64_MAX); [done|].
  by rewrite Z.lor_spec, Z.pow2_bits_true, orb_true_r.
Qed.

Lemma shard_index_ok (k : Z) : 0 <= lru.shard_index k cache.SHARDS < cache.SHARDS.
Proof.
  change (0 <= Z.land k (Z.ones 8) < 256). rewrite Z.land_ones by lia. by apply (Z.mod_pos_bound k 256).
Qed.

Lemma entry_weights_ok `{Weights} (e : CacheEntry) : weights_ok e.
Proof. destruct e as [n|s]; split; cbn; try lia; [destruct (n_body n)|destruct (s_body s)]; cbn; lia. Qed.

(** The deadline given to the cache is the instant from which the entry is gone. *)
Lemma deadline_dead (n : Node) d t :
  0 <= n_ttl n → 0 <= n_swr n → 0 <= n_sie n → deadline n = Some d →
  is_fresh n t = bool_decide (Z.max t (n_stored_at n) < d).
Proof.
  intros Ht Hw He [= <-]. unfold is_fresh, freshness, retention.
  destruct (Z.ltb_spec (Z.max 0 (t - n_stored_at n)) (n_ttl n));
    [|destruct (Z.ltb_spec (Z.max 0 (t - n_stored_at n)) (n_ttl n + n_swr n));
      [|destruct (Z.ltb_spec (Z.max 0 (t - n_stored_at n)) (n_ttl n + n_sie n))]].
  all: rewrite ?(bool_decide_false (_ = Gone)), ?(bool_decide_true (Gone = Gone)) by done; cbn [negb].
  all: symmetry; try (apply bool_decide_true; lia); apply bool_decide_false; lia.
Qed.

(** ** Membership *)

Definition member (ti : TagIndex) (t : Tag) (id : Z) : Prop := id ∈ default ∅ (ti !! t).

Lemma member_insert ti t id t' id' :
  member (ti_insert t id ti) t' id' ↔ (t' = t ∧ id' = id) ∨ member ti t' id'.
Proof.
  unfold member, ti_insert. destruct (decide (t' = t)) as [->|Hne].
  - rewrite lookup_insert_eq. cbn. set_solver.
  - rewrite lookup_insert_ne by done. naive_solver.
Qed.

Lemma member_remove ti t id t' id' :
  member (remove_membership id ti t) t' id' ↔ member ti t' id' ∧ ¬ (t' = t ∧ id' = id).
Proof.
  unfold member, remove_membership. destruct (ti !! t) as [set|] eqn:Et.
  - destruct (decide (t' = t)) as [->|Hne].
    + rewrite Et. cbn. case_bool_decide as Hs.
      * rewrite lookup_delete_eq. cbn. set_solver.
      * rewrite lookup_insert_eq. cbn. set_solver.
    + case_bool_decide; rewrite ?lookup_delete_ne, ?lookup_insert_ne by done; naive_solver.
  - destruct (decide (t' = t)) as [->|Hne]; [rewrite Et; cbn; set_solver|naive_solver].
Qed.

Lemma member_register ti ts id t' id' :
  member (register id ts ti) t' id' ↔ (t' ∈ ts ∧ id' = id) ∨ member ti t' id'.
Proof.
  unfold register. revert ti. induction ts as [|t ts IH]; intros ti; cbn [fold_left].
  { rewrite elem_of_nil. naive_solver. }
  rewrite IH, member_insert, elem_of_cons. naive_solver.
Qed.

Lemma member_unregister ti ts id t' id' :
  member (unregister id ts ti) t' id' ↔ member ti t' id' ∧ ¬ (t' ∈ ts ∧ id' = id).
Proof.
  unfold unregister. revert ti. induction ts as [|t ts IH]; intros ti; cbn [fold_left].
  { rewrite elem_of_nil. naive_solver. }
  rewrite IH, member_remove, elem_of_cons. naive_solver.
Qed.

Abbreviation victim := (@cache_inv.victim Z CacheEntry).

(** What the hook takes out for the victims [ws]. *)
Definition untagged (ws : list victim) (t : Tag) (id : Z) : Prop :=
  ∃ n c, (id, Page n, c) ∈ ws ∧ t ∈ n_tags n.

Lemma member_evict ws ti t id :
  member (fold_left store_evict (hook_of <$> ws) ti) t id ↔ member ti t id ∧ ¬ untagged ws t id.
Proof.
  unfold untagged. revert ti. induction ws as [|[[k e] c] ws IH]; intros ti; cbn [fmap list_fmap fold_left].
  { setoid_rewrite elem_of_nil. naive_solver. }
  rewrite IH. setoid_rewrite elem_of_cons. unfold hook_of at 1. cbn [fst snd store_evict].
  destruct e as [n|s]; cbn [store_evict]; [rewrite member_unregister|]; naive_solver.
Qed.

Lemma member_settle (l l' : list (cache.Hook Z CacheEntry)) ws ti t id :
  l' = l ++ (hook_of <$> ws) →
  member (settle l l' ti) t id ↔ member ti t id ∧ ¬ untagged ws t id.
Proof. intros ->. unfold settle. rewrite drop_app_length. apply member_evict. Qed.

Lemma settle_trans (l l1 l2 : list (cache.Hook Z CacheEntry)) ti :
  l `prefix_of` l1 → l1 `prefix_of` l2 → settle l1 l2 (settle l l1 ti) = settle l l2 ti.
Proof.
  intros [x ->] [y ->]. unfold settle. rewrite <-app_assoc, !drop_app_length, app_assoc, drop_app_length.
  by rewrite fold_left_app.
Qed.

(** ** What leaves a locked shard *)

Section locked.
Context `{HC : HttpCrate} `{HZ : Zstd} `{HW : Weights}.

Abbreviation Access := (@cache.Access Z CacheEntry _ _).
Abbreviation Entries := (gmap Z (lru.Node Z CacheEntry)).
Implicit Types (m : Entries) (a : Access) (i : nat).

Definition val m (k : Z) : option CacheEntry := lru.value <$> m !! k.

Lemma stored_val m k e : (k, e) ∈ stored m ↔ val m k = Some e.
Proof.
  rewrite stored_key. unfold val. rewrite fmap_Some. split; [intros (n & ? & <-)|intros (n & ? & ->)]; eauto.
Qed.

Lemma stored_nodup m : NoDup (stored m).*1.
Proof.
  unfold stored. rewrite <-list_fmap_compose. rewrite (list_fmap_ext _ fst).
  - apply NoDup_fst_map_to_list.
  - intros _ [k n] _. done.
Qed.

(** A list that accounts for the entries after and the victims. *)
Lemma account_val (L : list (Z * CacheEntry)) m (ws : list victim) k :
  NoDup L.*1 → L ≡ₚ stored m ++ ws.*1 →
  (∀ e, (k, e) ∈ L → (val m k = Some e ∧ ∀ e' c, (k, e', c) ∉ ws)
                     ∨ (val m k = None ∧ ∃ c, (k, e, c) ∈ ws)) ∧
  ((∀ e, (k, e) ∉ L) → val m k = None ∧ ∀ e' c, (k, e', c) ∉ ws).
Proof.
  intros Hnd HL. assert (Hnd' : NoDup ((stored m).*1 ++ ws.*1.*1)).
  { rewrite <-fmap_app. by rewrite <-(fmap_Permutation fst _ _ HL). }
  apply NoDup_app in Hnd' as (_ & Hdis & Hnd').
  assert (Hin : ∀ e, (k, e) ∈ L ↔ val m k = Some e ∨ ∃ c, (k, e, c) ∈ ws).
  { intros e. rewrite HL, elem_of_app, stored_val, list_elem_of_fmap. split.
    - intros [?|([[k' e'] c] & [= -> ->] & ?)]; eauto.
    - intros [?|[c ?]]; [auto|]. right. by exists (k, e, c). }
  assert (Hw : ∀ e c, (k, e, c) ∈ ws → k ∈ ws.*1.*1).
  { intros e c Hwc. apply list_elem_of_fmap. exists (k, e). split; [done|].
    apply list_elem_of_fmap. by exists (k, e, c). }
  assert (Hs : ∀ e, val m k = Some e → k ∈ (stored m).*1).
  { intros e He. apply list_elem_of_fmap. exists (k, e). split; [done|]. by apply stored_val. }
  split.
  - intros e [He|[c He]]%Hin; [left; split; [done|]|right; split; [|eauto]].
    + intros e' c Hc. by eapply Hdis; [eapply Hs|eapply Hw].
    + destruct (val m k) as [e'|] eqn:Ev; [|done]. exfalso. by eapply Hdis; [eapply Hs|eapply Hw].
  - intros Hno. split.
    + destruct (val m k) as [e|] eqn:Ev; [|done]. exfalso. apply (Hno e), Hin. auto.
    + intros e c Hc. apply (Hno e), Hin. eauto.
Qed.

(** The entries of shard [i] are [m], those of the others [P]. *)
Definition glue i m (P : Z → option CacheEntry) (k : Z) : option CacheEntry :=
  if decide (cache.shard_for k = i) then val m k else P k.

Definition tags_exact (P : Z → option CacheEntry) (ti : TagIndex) : Prop :=
  ∀ t id, member ti t id ↔ ∃ n, P id = Some (Page n) ∧ t ∈ n_tags n.

Context (G : Z → CacheEntry → Prop).

Record inside (o : Z * Z) i (cp : Z * Z * Z * Z) a m : Prop := {
  in_acc : ∃ rl dl, acc_ok o (0, 0) a m rl dl;
  in_caps : caps a = cp;
  in_home : ∀ k e, val m k = Some e → cache.shard_for k = i;
  in_good : ∀ k e, val m k = Some e → G k e;
}.

(** A page with the tag is under the key. *)
Definition tagged (P : Z → option CacheEntry) (t : Tag) (id : Z) : Prop :=
  ∃ n, P id = Some (Page n) ∧ t ∈ n_tags n.

Lemma removed_val m m' (ws : list victim) :
  stored m ≡ₚ stored m' ++ ws.*1 →
  ∀ k, (val m' k = val m k ∧ ∀ e c, (k, e, c) ∉ ws)
       ∨ (val m' k = None ∧ ∃ e c, val m k = Some e ∧ (k, e, c) ∈ ws).
Proof.
  intros HL k. destruct (account_val (stored m) m' ws k (stored_nodup m) HL) as [H1 H2].
  destruct (val m k) as [e|] eqn:Ev.
  - destruct (H1 e) as [[-> ?]|[-> (c & ?)]]; [by apply stored_val|auto|right; eauto].
  - left. apply H2. intros e. by rewrite stored_val, Ev.
Qed.

(** What the hook does for victims, on a key of any shard. *)
Lemma removed_tagged i m m' (ws : list victim) P t id :
  stored m ≡ₚ stored m' ++ ws.*1 → (∀ k e, val m k = Some e → cache.shard_for k = i) →
  tagged (glue i m' P) t id ↔ tagged (glue i m P) t id ∧ ¬ untagged ws t id.
Proof.
  intros HL Hh. pose proof (removed_val _ _ _ HL id) as Hk. unfold tagged, untagged, glue.
  destruct (decide (cache.shard_for id = i)) as [Hi|Hi].
  - destruct Hk as [[-> Hno]|[-> (e & c & -> & Hw)]].
    + split; [|naive_solver]. intros (n & ? & ?). split; [eauto|]. intros (n' & c & ? & _). by eapply Hno.
    + split; [by intros (? & ? & _)|]. intros [(n & [= ->] & Hn) []]. eauto.
  - split; [|naive_solver]. intros (n & Hn & Htn). split; [eauto|]. intros (n' & c & Hw & _).
    apply Hi. destruct Hk as [[_ Hno]|[_ (e & ? & He & _)]]; [by destruct (Hno _ _ Hw)|eauto].
Qed.

(** Entries only leave; the index may be exact on the pairs [F] only. *)
Lemma inside_removed_on (F : Tag → Z → Prop) o i cp a a' m m' rl' dl' ws P ti :
  inside o i cp a m → (∀ t k, member ti t k ↔ tagged (glue i m P) t k ∧ F t k) →
  post o a a' (stored m) m' rl' dl' ws →
  inside o i cp a' m' ∧
  (∀ t k, member (settle (cache.hooks a) (cache.hooks a') ti) t k ↔ tagged (glue i m' P) t k ∧ F t k) ∧
  cache.hooks a `prefix_of` cache.hooks a' ∧ ∀ k, val m' k = val m k ∨ val m' k = None.
Proof.
  intros [Ha Hc Hh Hg] Ht [Ha' Hhk _ Hcaps HL]. pose proof (removed_val _ _ _ HL) as Hk.
  assert (Hsub : ∀ k e, val m' k = Some e → val m k = Some e) by (intros k e; destruct (Hk k) as [[-> _]|[-> _]]; done).
  split; [split; [by do 2 eexists|congruence|by eauto|by eauto]|]. split.
  - intros t id. rewrite (member_settle _ _ ws) by done.
    rewrite (Ht t id), (removed_tagged i m m' ws P t id HL Hh). tauto.
  - split; [rewrite Hhk; by eexists|]. intros k. destruct (Hk k) as [[-> _]|[-> _]]; auto.
Qed.

Lemma inside_removed o i cp a a' m m' rl' dl' ws P ti :
  inside o i cp a m → tags_exact (glue i m P) ti → post o a a' (stored m) m' rl' dl' ws →
  inside o i cp a' m' ∧ tags_exact (glue i m' P) (settle (cache.hooks a) (cache.hooks a') ti) ∧
  cache.hooks a `prefix_of` cache.hooks a' ∧ ∀ k, val m' k = val m k ∨ val m' k = None.
Proof.
  intros Hi Ht Hp. assert (Ht1 : ∀ t k, member ti t k ↔ tagged (glue i m P) t k ∧ True).
  { intros t k. rewrite (Ht t k). unfold tagged. tauto. }
  destruct (inside_removed_on (fun _ _ => True) _ _ _ _ _ _ _ _ _ _ P ti Hi Ht1 Hp) as (? & Ht' & ? & ?).
  split_and!; try done. intros t k. rewrite (Ht' t k). unfold tagged. tauto.
Qed.

Lemma teardown_inside_on (F : Tag → Z → Prop) o i cp a m P ti k c :
  inside o i cp a m → (∀ t k, member ti t k ↔ tagged (glue i m P) t k ∧ F t k) →
  ∃ a', cache.teardown k c a = Some a' ∧ inside o i cp a' (delete k m) ∧
    ∀ t k', member (settle (cache.hooks a) (cache.hooks a') ti) t k' ↔
            tagged (glue i (delete k m) P) t k' ∧ F t k'.
Proof.
  intros Hi Ht. destruct (in_acc _ _ _ _ _ Hi) as (rl & dl & Ha).
  destruct (teardown_post o a m rl dl k c Ha) as (a' & ws & E & Hp & _). exists a'. split; [done|].
  by destruct (inside_removed_on F _ _ _ _ _ _ _ _ _ _ _ _ Hi Ht Hp) as (? & ? & _).
Qed.

Lemma teardown_inside o i cp a m P ti k c :
  inside o i cp a m → tags_exact (glue i m P) ti →
  ∃ a', cache.teardown k c a = Some a' ∧ inside o i cp a' (delete k m) ∧
    tags_exact (glue i (delete k m) P) (settle (cache.hooks a) (cache.hooks a') ti) ∧
    cache.hooks a `prefix_of` cache.hooks a'.
Proof.
  intros Hi Ht. destruct (in_acc _ _ _ _ _ Hi) as (rl & dl & Ha).
  destruct (teardown_post o a m rl dl k c Ha) as (a' & ws & E & Hp & _). exists a'. split; [done|].
  by destruct (inside_removed _ _ _ _ _ _ _ _ _ _ _ _ Hi Ht Hp) as (? & ? & ? & _).
Qed.

Lemma enforce_inside o i cp a m P ti k :
  inside o i cp a m → tags_exact (glue i m P) ti → k ≠ lru.nil_key →
  ∃ a' m', cache.enforce_budgets k a = Some a' ∧ inside o i cp a' m' ∧
    tags_exact (glue i m' P) (settle (cache.hooks a) (cache.hooks a') ti) ∧ val m' k = val m k ∧
    cache.hooks a `prefix_of` cache.hooks a' ∧ ∀ k, val m' k = val m k ∨ val m' k = None.
Proof.
  intros Hi Ht Hk. destruct (in_acc _ _ _ _ _ Hi) as (rl & dl & Ha).
  destruct (enforce_budgets_ok o k a m rl dl Ha Hk) as (a' & vs & m' & rl' & dl' & E & [Hev Hef Ha' _]).
  pose proof (post_effects _ _ _ _ _ _ _ _ _ _ _ _ Hev Hef Ha') as Hp.
  exists a', m'. split; [done|].
  destruct (inside_removed _ _ _ _ _ _ _ _ _ _ _ _ Hi Ht Hp) as (? & ? & ? & ?).
  split_and!; try done. unfold val. by rewrite (evictions_spared _ _ _ _ _ _ _ _ _ Hev).
Qed.

Lemma inside_same o i cp a a' m rl' dl' P ti :
  inside o i cp a m → tags_exact (glue i m P) ti → post o a a' (stored m) m rl' dl' [] →
  inside o i cp a' m ∧ tags_exact (glue i m P) (settle (cache.hooks a) (cache.hooks a') ti) ∧
  cache.hooks a `prefix_of` cache.hooks a'.
Proof. intros Hi Ht Hp. by destruct (inside_removed _ _ _ _ _ _ _ _ _ _ _ _ Hi Ht Hp) as (? & ? & ? & _). Qed.

(** A value changed in place, with the same tags. *)
Lemma set_value_inside o i cp a m P ti k e e' :
  inside o i cp a m → tags_exact (glue i m P) ti → val m k = Some e → G k e' →
  n_tags <$> as_page e' = n_tags <$> as_page e →
  ∃ m', inside o i cp (set_value k e' a) m' ∧ tags_exact (glue i m' P) ti ∧
    val m' k = Some e' ∧ ∀ k', k' ≠ k → val m' k' = val m k'.
Proof.
  intros [(rl & dl & Ha) Hc Hh Hg] Ht He Hge Htags. pose proof (a_holds _ _ _ _ _ _ Ha) as Hs.
  unfold val in He. apply fmap_Some_1 in He as (n & Hn & ->).
  destruct (holds_lookup _ _ _ _ _ _ Hs Hn) as (n' & Hn' & Hb).
  pose proof (holds_value (cache.shard a) m rl dl k n' e' Hs Hn') as Hs'.
  set (m' := <[k := (bare n') <| lru.value := e' |>]> m) in *.
  assert (Hk : val m' k = Some e') by (unfold val, m'; by rewrite lookup_insert_eq).
  assert (Hne : ∀ k', k' ≠ k → val m' k' = val m k') by (intros; unfold val, m'; by rewrite lookup_insert_ne).
  exists m'. split; [|split; [|done]].
  - split.
    + exists rl, dl. unfold set_value. rewrite (alter_alt_Some _ _ _ _ Hn'). split; [done|].
      by destruct (a_budget _ _ _ _ _ _ Ha).
    + done.
    + intros k' e1 Hk'. destruct (decide (k' = k)) as [->|Hd]; [|rewrite Hne in Hk' by done; eauto].
      apply (Hh k (lru.value n)). unfold val. by rewrite Hn.
    + intros k' e1 Hk'. destruct (decide (k' = k)) as [->|Hd]; [congruence|rewrite Hne in Hk' by done; eauto].
  - intros t id. rewrite (Ht t id). unfold glue. destruct (decide (cache.shard_for id = i)); [|done].
    destruct (decide (id = k)) as [->|Hd]; [|by rewrite Hne]. rewrite Hk. unfold val. rewrite Hn. cbn.
    destruct e' as [n1|], (lru.value n) as [n2|]; cbn in Htags; try done.
    + injection Htags as Htags. split; intros (x & [= <-] & Hx); eexists; (split; [done|congruence]).
    + by split; intros (? & ? & _).
Qed.

(** The victims of an insertion: under other keys what was evicted, under its own key what it
    replaced. *)
Lemma insert_untagged i m P id (vs : list victim) (b : bool) :
  cache.shard_for id = i → (∀ e c, (id, e, c) ∉ vs) →
  let ws := vs ++ (if b then replaced m id else []) in
  (∀ t k, k ≠ id → untagged ws t k ↔ untagged vs t k) ∧
  ∀ t, untagged ws t id ↔ b = true ∧ tagged (glue i m P) t id.
Proof.
  intros Hi Hvs ws. unfold untagged, ws. setoid_rewrite elem_of_app. split.
  - intros t k Hd. split; [|naive_solver]. intros (n & c & [?|Hr] & ?); [eauto|]. exfalso.
    destruct b; [|by apply elem_of_nil in Hr]. unfold replaced in Hr.
    destruct (m !! id); [|by apply elem_of_nil in Hr]. apply list_elem_of_singleton in Hr. congruence.
  - intros t. unfold tagged, glue. rewrite decide_True by done. destruct b.
    + unfold replaced, val. destruct (m !! id) as [n0|]; cbn.
      * setoid_rewrite list_elem_of_singleton. split.
        -- intros (n & c & [Hin|[= <- ->]] & Ht); [by destruct (Hvs _ _ Hin)|]. eauto.
        -- intros (_ & n & [= Hn] & Ht). exists n, lru.Explicit. rewrite Hn. auto.
      * setoid_rewrite elem_of_nil. split; [|by intros (_ & n & ? & _)].
        intros (n & c & [Hin|[]] & Ht). by destruct (Hvs _ _ Hin).
    + split; [|by intros [? _]]. setoid_rewrite elem_of_nil.
      intros (n & c & [Hin|[]] & _). by destruct (Hvs _ _ Hin).
Qed.

(** An insertion: exact for the other keys, and what is left under [id]. *)
Lemma insert_inside o i cp a m id e :
  inside o i cp a m → G id e → cache.shard_for id = i → id ≠ lru.nil_key →
  ∃ b a' m', cache.insert_replacing id e a = Some (b, a') ∧ inside o i cp a' m' ∧
    val m' id = (if b then Some e else val m id) ∧
    (∀ k, k ≠ id → val m' k = val m k ∨ val m' k = None) ∧
    cache.hooks a `prefix_of` cache.hooks a' ∧
    ∀ P ti, (∀ t k, k ≠ id → member ti t k ↔ tagged (glue i m P) t k) →
      let ti' := settle (cache.hooks a) (cache.hooks a') ti in
      (∀ t k, k ≠ id → member ti' t k ↔ tagged (glue i m' P) t k) ∧
      ∀ t, member ti' t id ↔ member ti t id ∧ ¬ (b = true ∧ tagged (glue i m P) t id).
Proof.
  intros Hi Hge Hid Hnil. destruct (in_acc _ _ _ _ _ Hi) as (rl & dl & Ha).
  destruct (insert_replacing_ok o id e a m rl dl Ha Hnil (entry_weights_ok e))
    as (b & a' & vs & ws & m1 & rl1 & dl1 & E & [Hev Hws Hhk _ Hcaps Hok _]).
  pose proof (evictions_conserve _ _ _ _ _ _ _ _ _ Hev) as HL. pose proof (removed_val _ _ _ HL) as Hk.
  pose proof (evictions_spared _ _ _ _ _ _ _ _ _ Hev) as Hsp.
  destruct Hi as [_ Hc Hh Hg].
  assert (Hvs : ∀ e' c, (id, e', c) ∉ vs).
  { intros e' c Hin. destruct (Hk id) as [[_ Hno]|[Hn (e1 & ? & He1 & _)]]; [by eapply Hno|].
    unfold val in Hn, He1. rewrite Hsp in Hn. congruence. }
  assert (Hold : val m1 id = val m id) by (unfold val; by rewrite Hsp).
  set (m' := if b then <[id := entry e (u32 (lru.next_gen (cache.shard a) + 1))]> m1 else m1).
  assert (Hid' : val m' id = if b then Some e else val m id).
  { unfold m'. destruct b; [unfold val; by rewrite lookup_insert_eq|done]. }
  assert (Hne : ∀ k, k ≠ id → val m' k = val m1 k).
  { intros k Hd. unfold m'. destruct b; [|done]. unfold val. by rewrite lookup_insert_ne. }
  assert (Hsub : ∀ k e', k ≠ id → val m' k = Some e' → val m k = Some e').
  { intros k e' Hd. rewrite Hne by done. destruct (Hk k) as [[-> _]|[-> _]]; done. }
  exists b, a', m'. split; [done|]. split.
  { split; [|congruence|..].
    - unfold m'. destruct b; destruct Hok; eauto.
    - intros k e' Hk'. destruct (decide (k = id)) as [->|Hd]; [done|eauto].
    - intros k e' Hk'. destruct (decide (k = id)) as [->|Hd]; [|eauto].
      rewrite Hid' in Hk'. destruct b; [congruence|eauto]. }
  split; [done|]. split; [intros k Hd; rewrite Hne by done; destruct (Hk k) as [[-> _]|[-> _]]; auto|].
  split; [rewrite Hhk; by eexists|]. intros P ti Hti ti'.
  assert (Hws' : ws = vs ++ (if b then replaced m id else [])) by (rewrite Hws; destruct b; by rewrite ?app_nil_r).
  destruct (insert_untagged i m P id vs b Hid Hvs) as [Hun Hun']. rewrite <-Hws' in Hun, Hun'.
  split; intros t; [intros k Hd|]; unfold ti'; rewrite (member_settle _ _ ws) by done.
  - rewrite (Hun t k Hd), (Hti t k Hd), <-(removed_tagged i m m1 vs P t k HL Hh).
    unfold tagged, glue. by rewrite (Hne k Hd).
  - by rewrite Hun'.
Qed.

Lemma acc_get_inside o i cp a m id : inside o i cp a m → cache.acc_get id a = val m id.
Proof.
  intros [(rl & dl & Ha) _ _ _]. unfold cache.acc_get, val.
  rewrite <-(h_map _ _ _ _ (a_holds _ _ _ _ _ _ Ha)), lookup_fmap. by destruct (lru.map _ !! id).
Qed.

End locked.
End page_inv.
