(* ===== verification/PageStoreOps.v ===== *)
(** * Lookups, stores and purges inside a locked shard

    [good] is what every entry satisfies: a page is the encoding of a response that was
    offered under its key, its memos are that response, and its render began no earlier than
    the last purge of any of its tags. *)

From stdpp Require Import base list gmap.
From Stdlib Require Import ZArith Lia.
From S2P Require Import Prelude RustStr HttpUtil ShardLru ShardCache ShardCacheInv.
From S2P Require Import ShardCacheOps ShardCacheMutate ShardCacheStore PageMeta PageStore.
From S2P Require Import PageStoreInv.

Import page_meta page_store cache_inv cache_ops cache_mutate cache_store page_inv.
#[local] Open Scope record_scope.

Module page_ops.

(** A response offered to the store, with the epoch of its render. *)
Record Offer : Type := { o_key : PageCacheKey; o_entry : CachedResponse; o_epoch : Z }.

Section ops.
Context `{HC : HttpCrate} `{HZ : Zstd} `{HL : !ZstdLaw} `{HW : Weights}.

Abbreviation Access := (@cache.Access Z CacheEntry _ _).
Abbreviation Entries := (gmap Z (lru.Node Z CacheEntry)).
Implicit Types (m : Entries) (a : Access) (i : nat).

Definition offer_ok (f : Offer) : Prop := key_ok (o_key f) ∧ entry_ok (o_entry f).

(** The node is that of the offer, with its memos set or not. *)
Record node_of (f : Offer) (n : Node) : Prop := {
  no_fields : ∃ n0, from_cached (o_key f) (o_entry f) (o_epoch f) = Ok n0 ∧
    n = n0 <| decoded := decoded n |> <| resp_snapshot := resp_snapshot n |>;
  no_decoded : ∀ d, decoded n = Some d → d = decoded_of (o_key f) (o_entry f);
  no_snapshot : ∀ r, resp_snapshot n = Some r → r = o_entry f ∧ is_Some (decoded n);
}.

Lemma node_of_from_cached f n :
  from_cached (o_key f) (o_entry f) (o_epoch f) = Ok n → node_of f n.
Proof.
  intros E. assert (Hn : decoded n = None ∧ resp_snapshot n = None).
  { unfold from_cached in E. by destruct (encode _ _); [injection E as <-|]. }
  destruct Hn as [Hd Hr]. split; [|by rewrite Hd|by rewrite Hr]. exists n. split; [done|]. by destruct n.
Qed.

Lemma node_of_facts f n :
  node_of f n → n_tags n = tags (o_entry f) ∧ render_epoch n = o_epoch f ∧
    encode (o_key f) (o_entry f) = Ok (meta n) ∧
    ∀ d, to_cached_response d (n_body n) (n_variants n) (n_variants_filled n) (n_dict_gen n)
           (n_stored_at n) (n_ttl n) (n_swr n) (n_sie n) =
         to_cached_response d (body (o_entry f)) (variants (o_entry f)) (variants_filled (o_entry f))
           (dict_gen (o_entry f)) (stored_at (o_entry f)) (ttl (o_entry f)) (swr (o_entry f))
           (sie (o_entry f)).
Proof.
  intros [(n0 & E & Hn) _ _]. unfold from_cached in E. destruct (encode _ _) as [b|]; [|done].
  injection E as <-. rewrite Hn. done.
Qed.

Lemma node_of_read f n :
  offer_ok f → node_of f n →
  (match decoded n with Some d => Ok d | None => decode (meta n) end)
    = Ok (decoded_of (o_key f) (o_entry f)).
Proof.
  intros [Hk He] Hn. destruct (decoded n) as [d|] eqn:Ed.
  - by rewrite (no_decoded _ _ Hn d Ed).
  - destruct (node_of_facts _ _ Hn) as (_ & _ & Henc & _). by eapply meta_decode_encode.
Qed.

Lemma node_of_with_decoded {R} f n (inspect : DecodedMeta → R) :
  offer_ok f → node_of f n → with_decoded n inspect = Ok (inspect (decoded_of (o_key f) (o_entry f))).
Proof.
  intros Hf Hn. pose proof (node_of_read f n Hf Hn) as Hr. unfold with_decoded.
  destruct (decoded n); [by injection Hr as ->|by rewrite Hr].
Qed.

(** A first hit sets both memos. *)
Lemma node_of_build f n :
  offer_ok f → node_of f n →
  ∃ n', build_snapshot n = Ok (n', o_entry f) ∧ node_of f n' ∧ n_tags n' = n_tags n ∧
    decoded n' = Some (decoded_of (o_key f) (o_entry f)) ∧ resp_snapshot n' = Some (o_entry f).
Proof.
  intros Hf Hn. unfold build_snapshot. rewrite (node_of_read f n Hf Hn).
  destruct (node_of_facts _ _ Hn) as (_ & _ & _ & ->).
  assert (Hr : to_cached_response (decoded_of (o_key f) (o_entry f)) (body (o_entry f)) (variants (o_entry f))
    (variants_filled (o_entry f)) (dict_gen (o_entry f)) (stored_at (o_entry f)) (ttl (o_entry f))
    (swr (o_entry f)) (sie (o_entry f)) = o_entry f) by (by destruct (o_entry f)).
  rewrite Hr. eexists. split; [done|]. split; [|done]. destruct Hn as [(n0 & E & Hn) _ _]. split.
  - exists n0. split; [done|]. rewrite Hn. by destruct n0.
  - by intros d [= <-].
  - intros r [= <-]. split; [done|]. by eexists.
Qed.

(** ** Good entries *)

Section good.
Context (offers : list Offer) (statics : list StaticNode) (all_epoch : Z) (last : Tag → Z).

Definition rendered_since (f : Offer) : Prop :=
  all_epoch <= o_epoch f ∧ ∀ t, t ∈ tags (o_entry f) → last t <= o_epoch f.

Definition good (id : Z) (e : CacheEntry) : Prop :=
  match e with
  | Page n => ∃ f, f ∈ offers ∧ offer_ok f ∧ node_of f n ∧ id = key_id (o_key f) ∧ rendered_since f
  | Static s => s ∈ statics
  end.

Abbreviation inside := (page_inv.inside good).

(** A served page is an offer for the key asked for. *)
Record serves (f : Offer) (n : Node) (key : PageCacheKey) (ident : list Z) (now : Z)
    (fr : Freshness) (r : CachedResponse) : Prop := {
  sv_offer : f ∈ offers;
  sv_ok : offer_ok f;
  sv_node : node_of f n;
  sv_key : o_key f = key;
  sv_entry : o_entry f = r;
  sv_identity : identity r = ident;
  sv_since : rendered_since f;
  sv_fresh : fr = freshness n now;
  sv_not_gone : fr ≠ Gone;
}.

Lemma touches_inside o i cp a m P ti id (b : bool) :
  inside o i cp a m → tags_exact (glue i m P) ti →
  ∃ a1 a2, cache.touch_ram id a = Some a1 ∧
    (if b then cache.touch_disk id a1 else Some a1) = Some a2 ∧ inside o i cp a2 m ∧
    tags_exact (glue i m P) (settle (cache.hooks a) (cache.hooks a2) ti) ∧
    cache.hooks a `prefix_of` cache.hooks a2.
Proof.
  intros Hi Ht. destruct (in_acc _ _ _ _ _ _ Hi) as (rl & dl & Ha).
  destruct (touch_ram_ok o a m rl dl id Ha) as (a1 & rl1 & dl1 & E1 & Hp1 & _).
  destruct b; cycle 1.
  { exists a1, a1. split; [done|]. split; [done|]. by eapply inside_same. }
  destruct (touch_disk_ok o a1 m rl1 dl1 id (po_ok _ _ _ _ _ _ _ _ Hp1)) as (a2 & rl2 & dl2 & E2 & Hp2 & _).
  exists a1, a2. split; [done|]. split; [done|].
  eapply inside_same; [done|done|]. by eapply (post_trans o a a1 a2 _ _ _ _ []).
Qed.

(** The two ways a hit reaches the guards. *)
Lemma snapshot_inside o i cp a m P ti id n :
  inside o i cp a m → tags_exact (glue i m P) ti → val m id = Some (Page n) → id ≠ lru.nil_key →
  ∃ f n' b a' m',
    (match resp_snapshot n with Some snap => Ok (n, snap) | None => build_snapshot n end) = Ok (n', o_entry f) ∧
    decoded n' = Some (decoded_of (o_key f) (o_entry f)) ∧
    (f ∈ offers ∧ offer_ok f ∧ node_of f n ∧ rendered_since f) ∧
    (node_of f n' ∧ resp_snapshot n' = Some (o_entry f)) ∧
    (if bool_decide (resp_snapshot n = None)
     then cache.reconcile_weights id id (set_value id (Page n') a)
     else Some (true, set_value id (Page n') a)) = Some (b, a') ∧
    inside o i cp a' m' ∧
    tags_exact (glue i m' P) (settle (cache.hooks a) (cache.hooks a') ti) ∧
    cache.hooks a `prefix_of` cache.hooks a' ∧ (b = true → val m' id = Some (Page n')).
Proof.
  intros Hi Ht Hv Hnil. destruct (in_good _ _ _ _ _ _ Hi id (Page n) Hv) as (f & Hf & Hok & Hn & Hid & Hr).
  enough (∃ n', (match resp_snapshot n with Some snap => Ok (n, snap) | None => build_snapshot n end)
      = Ok (n', o_entry f) ∧ decoded n' = Some (decoded_of (o_key f) (o_entry f)) ∧ node_of f n' ∧
      n_tags n' = n_tags n ∧ resp_snapshot n' = Some (o_entry f)) as (n' & E & Ed & Hn' & Etags & Esn).
  { exists f, n'. assert (Hg : good id (Page n')) by (exists f; auto).
    destruct (set_value_inside good o i cp a m P ti id (Page n) (Page n') Hi Ht Hv Hg)
      as (m1 & Hi1 & Ht1 & Hv1 & _); [cbn; by rewrite Etags|].
    case_bool_decide; cycle 1.
    { exists true, (set_value id (Page n') a), m1. unfold settle.
      change (cache.hooks (set_value id (Page n') a)) with (cache.hooks a).
      rewrite drop_all. by split_and!. }
    destruct (in_acc _ _ _ _ _ _ Hi1) as (rl & dl & Ha1).
    destruct (reconcile_weights_ok entry_weights_ok o id id _ m1 rl dl Ha1 Hnil Hnil)
      as (b & a' & m' & rl' & dl' & ws & Er & Hp & _ & Hkept).
    destruct (inside_removed good _ _ _ _ _ _ _ _ _ _ _ _ Hi1 Ht1 Hp) as (? & ? & ? & _).
    exists b, a', m'. split_and!; try done. intros Hb. unfold val. by rewrite Hkept. }
  destruct (resp_snapshot n) as [r|] eqn:Es.
  - destruct (no_snapshot _ _ Hn r Es) as [-> [d Hd]]. exists n. split; [done|].
    by rewrite Hd, (no_decoded _ _ Hn d Hd).
  - destruct (node_of_build f n Hok Hn) as (n' & E & Hn' & Et & Ed & Esn). exists n'. by split_and!.
Qed.

Lemma get_locked_inside o i cp a m P ti key ident now :
  inside o i cp a m → tags_exact (glue i m P) ti →
  ∃ r a' m', get_locked key (key_id key) ident now a = Some (r, a') ∧ inside o i cp a' m' ∧
    tags_exact (glue i m' P) (settle (cache.hooks a) (cache.hooks a') ti) ∧
    ∀ fr resp, r = Some (fr, resp) → ∃ f n n', val m (key_id key) = Some (Page n) ∧
      serves f n key ident now fr resp ∧
      val m' (key_id key) = Some (Page n') ∧ node_of f n' ∧ resp_snapshot n' = Some resp.
Proof.
  intros Hi Ht. unfold get_locked. rewrite (acc_get_inside _ _ _ _ _ _ _ Hi).
  assert (Hsame : ti = settle (cache.hooks a) (cache.hooks a) ti) by (unfold settle; by rewrite drop_all).
  destruct (val m (key_id key)) as [[n|st]|] eqn:Hv; cbn [mbind option_bind as_page];
    [|exists None, a, m; rewrite <-Hsame; by split_and!..].
  case_bool_decide as Hgone.
  { destruct (teardown_inside good o i cp a m P ti (key_id key) lru.Expired Hi Ht) as (a' & -> & ? & ? & _).
    cbn [mbind option_bind]. eexists None, a', _. by split_and!. }
  destruct (snapshot_inside o i cp a m P ti _ n Hi Ht Hv (key_id_not_nil key))
    as (f & n' & b & a1 & m1 & -> & -> & (Hf & Hok & Hn & Hr) & (Hn' & Hsn) & -> & Hi1 & Ht1 & Hpre & Hv1).
  cbn [mbind option_bind]. destruct b; cbn [negb]; [|eexists None, a1, m1; by split_and!].
  case_bool_decide as Hkey; cbn [negb]; [|eexists None, a1, m1; by split_and!].
  destruct (bytes_eqb (identity (o_entry f)) ident) eqn:Eid; cbn [negb]; [|eexists None, a1, m1; by split_and!].
  apply bytes_eqb_eq in Eid.
  destruct (touches_inside o i cp a1 m1 P _ (key_id key)
    ((match body (o_entry f) with File _ _ _ _ => true | _ => false end)
     && (bool_decide (freshness n now = Fresh) || bool_decide (freshness n now = Stale))) Hi1 Ht1)
    as (a2 & a3 & -> & E3 & Hi3 & Ht3 & Hpre3).
  cbn [mbind option_bind]. rewrite E3. cbn [mbind option_bind]. rewrite (settle_trans _ _ _ _ Hpre Hpre3) in Ht3.
  eexists _, a3, m1. split_and!; try done. intros fr resp [= <- <-]. exists f, n, n'.
  split; [done|]. split; [by split|]. split; [by apply Hv1|done].
Qed.

(** A page that was served before is served again, as long as it is not gone. *)
Lemma get_again_inside o i cp a m P ti ident now f n :
  inside o i cp a m → tags_exact (glue i m P) ti → val m (key_id (o_key f)) = Some (Page n) →
  node_of f n → resp_snapshot n = Some (o_entry f) → identity (o_entry f) = ident → freshness n now ≠ Gone →
  ∃ a', get_locked (o_key f) (key_id (o_key f)) ident now a = Some (Some (freshness n now, o_entry f), a').
Proof.
  intros Hi Ht Hv Hn Hsn Hid Hng. destruct (no_snapshot _ _ Hn _ Hsn) as [_ [d Hd]].
  pose proof (no_decoded _ _ Hn d Hd) as Hdd. unfold get_locked.
  rewrite (acc_get_inside _ _ _ _ _ _ _ Hi), Hv. cbn [mbind option_bind as_page].
  rewrite (bool_decide_false (freshness n now = Gone)), Hsn by done. rewrite Hd. cbn [mbind option_bind].
  rewrite (bool_decide_false (Some _ = None)) by done. cbn [mbind option_bind negb].
  rewrite Hdd. cbn [d_key decoded_of]. rewrite (bool_decide_true (o_key f = o_key f)) by done.
  rewrite (proj2 (bytes_eqb_eq _ _) Hid). cbn [negb].
  destruct (set_value_inside good o i cp a m P ti _ (Page n) (Page n) Hi Ht Hv) as (m1 & Hi1 & Ht1 & _);
    [by apply (in_good _ _ _ _ _ _ Hi)|done|].
  destruct (touches_inside o i cp _ m1 P ti (key_id (o_key f))
    ((match body (o_entry f) with File _ _ _ _ => true | _ => false end)
     && (bool_decide (freshness n now = Fresh) || bool_decide (freshness n now = Stale))) Hi1 Ht1)
    as (a2 & a3 & -> & E3 & _). cbn [mbind option_bind]. rewrite E3. cbn [mbind option_bind]. eauto.
Qed.

(** ** Stores *)

Definition tags_under m (id : Z) : list Tag :=
  match val m id with Some (Page n) => n_tags n | _ => [] end.

Lemma tagged_under i m P id t : cache.shard_for id = i → tagged (glue i m P) t id ↔ t ∈ tags_under m id.
Proof.
  intros Hi. unfold tagged, glue, tags_under. rewrite decide_True by done. split.
  - by intros (n & -> & ?).
  - destruct (val m id) as [[n|]|]; [eauto|by intros ?%elem_of_nil..].
Qed.

Lemma predecessor_inside o i cp a m key :
  inside o i cp a m →
  ∃ prev, predecessor key (key_id key) a = Some (prev, a) ∧
    ∀ pt, prev = Some pt → pt = tags_under m (key_id key).
Proof.
  intros Hi. unfold predecessor, tags_under. rewrite (acc_get_inside _ _ _ _ _ _ _ Hi).
  destruct (val m (key_id key)) as [[n|st]|] eqn:Hv; cbn [mbind option_bind as_page];
    [|eexists; split; [done|by intros pt [= <-]]..].
  destruct (in_good _ _ _ _ _ _ Hi _ _ Hv) as (f & Hf & Hok & Hn & Hid & _).
  rewrite (node_of_with_decoded f n _ Hok Hn). cbn [d_key decoded_of].
  case_bool_decide; eexists; (split; [done|]); [by intros pt [= <-]|done].
Qed.

(** The tags of a node put under its key make the index exact again. *)
Lemma register_exact i m P ti id ts :
  (∀ t k, k ≠ id → member ti t k ↔ tagged (glue i m P) t k) → (∀ t, member ti t id → t ∈ ts) →
  cache.shard_for id = i → tags_under m id = ts → tags_exact (glue i m P) (register id ts ti).
Proof.
  intros Hne Hid Hi Ht t k. rewrite member_register. destruct (decide (k = id)) as [->|Hd].
  - fold (tagged (glue i m P) t id). rewrite (tagged_under i m P id t Hi), Ht. naive_solver.
  - fold (tagged (glue i m P) t k). rewrite <-(Hne t k Hd). naive_solver.
Qed.

(** And provisional tags taken back leave those of the predecessor. *)
Lemma unregister_exact i m P ti id ts prov :
  prov = filter (fun t => t ∉ tags_under m id) ts →
  (∀ t k, k ≠ id → member ti t k ↔ tagged (glue i m P) t k) →
  (∀ t, member ti t id ↔ t ∈ prov ∨ t ∈ tags_under m id) →
  cache.shard_for id = i → tags_exact (glue i m P) (unregister id prov ti).
Proof.
  intros -> Hne Hid Hi t k. rewrite member_unregister. destruct (decide (k = id)) as [->|Hd].
  - fold (tagged (glue i m P) t id). rewrite (tagged_under i m P id t Hi), Hid, list_elem_of_filter.
    destruct (decide (t ∈ tags_under m id)); tauto.
  - fold (tagged (glue i m P) t k). rewrite <-(Hne t k Hd). naive_solver.
Qed.

Lemma install_inside (s : PageStore) o i cp a m P ti id node ts epoch :
  inside o i cp a m → tags_exact (glue i m P) ti → cache.shard_for id = i → id ≠ lru.nil_key →
  n_tags node = ts → (purged_after s ts epoch = false → good id (Page node)) →
  ∃ b ti' a' m', install s id node ts (tags_under m id) epoch ti a = Some ((b, ti'), a') ∧
    inside o i cp a' m' ∧ tags_exact (glue i m' P) ti' ∧
    (b = true → val m' id = Some (Page node)) ∧
    ∀ k, k ≠ id → val m' k = val m k ∨ val m' k = None.
Proof.
  intros Hi Ht Hsh Hnil Hts Hgood. unfold install. set (prov := filter _ ts).
  assert (Hne : ∀ t k, k ≠ id → member (register id prov ti) t k ↔ tagged (glue i m P) t k).
  { intros t k Hd. rewrite member_register, (Ht t k). unfold tagged. naive_solver. }
  assert (Hid : ∀ t, member (register id prov ti) t id ↔ t ∈ prov ∨ t ∈ tags_under m id).
  { intros t. rewrite member_register, (Ht t id). fold (tagged (glue i m P) t id).
    rewrite (tagged_under i m P id t Hsh). naive_solver. }
  destruct (purged_after s ts epoch) eqn:Ep.
  { eexists false, _, a, m. split; [done|]. split; [done|]. split; [by eapply unregister_exact|]. split; [done|by left]. }
  destruct (insert_inside good o i cp a m id (Page node) Hi (Hgood eq_refl) Hsh Hnil)
    as (b & a1 & m1 & -> & Hi1 & Hv1 & Hsub1 & _ & Hti). destruct (Hti P _ Hne) as [Hne1 Hid1].
  cbn [mbind option_bind]. destruct b; cbn [negb]; cycle 1.
  { eexists false, _, a1, m1. split; [done|]. split; [done|]. split; [|by split].
    assert (Hu : tags_under m1 id = tags_under m id) by (unfold tags_under; by rewrite Hv1).
    eapply (unregister_exact i m1 P _ id ts); [by rewrite Hu|done| |done].
    intros t. rewrite Hid1, Hid, Hu. naive_solver. }
  assert (Hex : tags_exact (glue i m1 P) (register id ts (settle (cache.hooks a) (cache.hooks a1) (register id prov ti)))).
  { apply register_exact; [done| |done|unfold tags_under; by rewrite Hv1].
    intros t [Hm Hno]%Hid1. apply Hid in Hm as [Hm|Hm]; [by apply list_elem_of_filter in Hm as [_ ?]|].
    destruct Hno. split; [done|]. by apply tagged_under. }
  destruct (enforce_inside good o i cp a1 m1 P _ id Hi1 Hex Hnil) as (a2 & m2 & -> & Hi2 & Ht2 & Hv2 & _ & Hsub2).
  cbn [mbind option_bind]. destruct (in_acc _ _ _ _ _ _ Hi2) as (rl2 & dl2 & Ha2).
  assert (Hsub : ∀ k, k ≠ id → val m2 k = val m k ∨ val m2 k = None).
  { intros k Hd. destruct (Hsub2 k) as [->|]; auto. }
  destruct (cache.contains id a2); cbn [negb].
  - eexists true, _, a2, m2. split_and!; try done. intros _. congruence.
  - eexists false, _, a2, m2. by split_and!.
Qed.

Lemma store_locked_inside (s : PageStore) o i cp a m P f node :
  inside o i cp a m → tags_exact (glue i m P) (tag_index s) →
  let id := key_id (o_key f) in
  cache.shard_for id = i → from_cached (o_key f) (o_entry f) (o_epoch f) = Ok node →
  f ∈ offers → offer_ok f →
  (purged_after s (tags (o_entry f)) (o_epoch f) = false → rendered_since f) →
  ∃ b ti' a' m', store_locked s (o_key f) id node (tags (o_entry f)) (o_epoch f) a = Some ((b, ti'), a') ∧
    inside o i cp a' m' ∧ tags_exact (glue i m' P) ti' ∧
    (b = true → val m' id = Some (Page node) ∧ rendered_since f).
Proof.
  intros Hi Ht id Hsh En Hf Hok Hr. unfold store_locked.
  destruct (purged_after _ _ _) eqn:Ep; [eexists false, _, a, m; by split_and!|].
  destruct (predecessor_inside o i cp a m (o_key f) Hi) as (prev & Epred & Hprev).
  fold id in Epred, Hprev. rewrite Epred. cbn [mbind option_bind].
  assert (Hsame : settle (cache.hooks a) (cache.hooks a) (tag_index s) = tag_index s) by (unfold settle; by rewrite drop_all).
  rewrite Hsame. destruct prev as [pt|]; [|eexists false, _, a, m; by split_and!].
  specialize (Hprev pt eq_refl). subst pt.
  assert (Hpt : (if cache.contains id a then tags_under m id else []) = tags_under m id).
  { destruct (in_acc _ _ _ _ _ _ Hi) as (rl & dl & Ha). rewrite (contains_lookup _ _ _ _ _ _ _ Ha).
    case_bool_decide as Hc; [done|]. unfold tags_under, val. by destruct (m !! id) as [?|]; [destruct Hc; eexists|]. }
  rewrite Hpt. pose proof (node_of_from_cached f node En) as Hn.
  destruct (install_inside s o i cp a m P (tag_index s) id node (tags (o_entry f)) (o_epoch f))
    as (b & ti' & a' & m' & E & Hi' & Ht' & Hb & _); try done; [apply key_id_not_nil| | |].
  - by destruct (node_of_facts _ _ Hn).
  - intros _. exists f. by split_and!; auto.
  - exists b, ti', a', m'. split_and!; try done. intros Hbt. split; auto.
Qed.

(** ** Static files *)

Lemma static_locked_inside o i cp a m P ti id path fresh_id :
  inside o i cp a m → tags_exact (glue i m P) ti →
  ∃ r a' m', static_locked id path fresh_id a = Some (r, a') ∧ inside o i cp a' m' ∧
    tags_exact (glue i m' P) (settle (cache.hooks a) (cache.hooks a') ti) ∧
    ∀ st, r = Some st → st ∈ statics ∧ source_path st = path ∧ file_id st = fresh_id.
Proof.
  intros Hi Ht. unfold static_locked. rewrite (acc_get_inside _ _ _ _ _ _ _ Hi).
  assert (Hsame : ti = settle (cache.hooks a) (cache.hooks a) ti) by (unfold settle; by rewrite drop_all).
  destruct (val m id) as [[n|st]|] eqn:Hv; cbn [mbind option_bind as_static];
    [by exists None, a, m; rewrite <-Hsame| |by exists None, a, m; rewrite <-Hsame].
  destruct (bytes_eqb (source_path st) path) eqn:Ep; cbn [negb]; [|by exists None, a, m; rewrite <-Hsame].
  apply bytes_eqb_eq in Ep. case_bool_decide as Ef; cbn [negb]; cycle 1.
  { destruct (teardown_inside good o i cp a m P ti id lru.Explicit Hi Ht) as (a' & -> & ? & ? & _).
    cbn [mbind option_bind]. eexists None, a', _. by split_and!. }
  destruct (touches_inside o i cp a m P ti id
    (match s_body st with File _ _ _ _ => true | _ => false end) Hi Ht) as (a1 & a2 & -> & E2 & Hi2 & Ht2 & _).
  cbn [mbind option_bind]. rewrite E2. cbn [mbind option_bind].
  eexists _, a2, m. split_and!; try done. intros st' [= <-]. split; [|done].
  exact (in_good _ _ _ _ _ _ Hi id (Static st) Hv).
Qed.

(** No page is under the id of a static file. *)
Lemma static_id_untagged o i cp a m P vhost path t :
  inside o i cp a m → cache.shard_for (for_static vhost path) = i →
  ¬ tagged (glue i m P) t (for_static vhost path).
Proof.
  intros Hi Hsh (n & Hn & _). unfold glue in Hn. rewrite decide_True in Hn by done.
  destruct (in_good _ _ _ _ _ _ Hi _ _ Hn) as (f & _ & _ & _ & Hid & _).
  by apply (for_static_not_key vhost path (o_key f)).
Qed.

Lemma store_static_locked_inside o i cp a m P ti vhost path st :
  inside o i cp a m → tags_exact (glue i m P) ti → st ∈ statics →
  let id := for_static vhost path in
  cache.shard_for id = i →
  ∃ b a' m', store_static_locked id path st a = Some (b, a') ∧ inside o i cp a' m' ∧
    tags_exact (glue i m' P) (settle (cache.hooks a) (cache.hooks a') ti) ∧
    (b = true → val m' id = Some (Static st)).
Proof.
  intros Hi Ht Hst id Hsh. unfold store_static_locked. set (foreign := match _ with Some _ => _ | None => false end).
  destruct foreign; [by exists false, a, m; unfold settle; rewrite drop_all|].
  destruct (insert_inside good o i cp a m id (Static st) Hi Hst Hsh (for_static_not_nil _ _))
    as (b & a1 & m1 & -> & Hi1 & Hv1 & _ & Hpre & Hti). destruct (Hti P ti) as [Hne Hid]; [by intros t k _|].
  cbn [mbind option_bind].
  assert (Hex : tags_exact (glue i m1 P) (settle (cache.hooks a) (cache.hooks a1) ti)).
  { intros t k. destruct (decide (k = id)) as [->|Hd]; [|by apply Hne]. rewrite Hid, (Ht t id).
    fold (tagged (glue i m P) t id). fold (tagged (glue i m1 P) t id).
    pose proof (static_id_untagged o i cp a m P vhost path t Hi Hsh).
    pose proof (static_id_untagged o i cp a1 m1 P vhost path t Hi1 Hsh). tauto. }
  destruct b; cbn [negb]; [|by exists false, a1, m1; split_and!].
  destruct (enforce_inside good o i cp a1 m1 P _ id Hi1 Hex (for_static_not_nil _ _))
    as (a2 & m2 & -> & Hi2 & Ht2 & Hv2 & Hpre2 & _).
  cbn [mbind option_bind]. rewrite (settle_trans _ _ _ _ Hpre Hpre2) in Ht2.
  eexists _, a2, m2. split_and!; try done. intros _. by rewrite Hv2.
Qed.

End good.
End ops.
End page_ops.
