(* ===== verification/PageStorePurge.v ===== *)
(** * Locked sections of the store, and purges

    What a closure that keeps the entries of one shard good and the index exact does to the
    whole store; that a purge of tags removes exactly the pages with one of them. *)

From stdpp Require Import base list gmap sorting.
From Stdlib Require Import ZArith Lia.
From S2P Require Import Prelude RustStr HttpUtil ShardLru ShardCache ShardCacheInv.
From S2P Require Import ShardCacheOps ShardCacheMutate ShardCacheStore ShardCacheTheorems.
From S2P Require Import PageMeta PageStore PageStoreInv PageStoreOps.

Import page_meta page_store cache_inv cache_ops cache_mutate cache_store page_inv page_ops.
#[local] Open Scope record_scope.

Module page_purge.

Section sections.
Context `{HC : HttpCrate} `{HZ : Zstd} `{HW : Weights}.

Abbreviation Cache := (@cache.Cache Z CacheEntry _ _).
Abbreviation Access := (@cache.Access Z CacheEntry _ _).
Abbreviation Entries := (gmap Z (lru.Node Z CacheEntry)).
Abbreviation View := (Z → option CacheEntry).
Abbreviation peek := (@sharded_cache.peek Z CacheEntry _ _ _).

Implicit Types (m : Entries) (a : Access) (i : nat) (c : Cache) (P : View) (G : Z → CacheEntry → Prop).

Definition all_good G P : Prop := ∀ k e, P k = Some e → G k e.

Lemma tags_exact_ext P P' ti : (∀ k, P' k = P k) → tags_exact P ti → tags_exact P' ti.
Proof. intros He Ht t id. rewrite (Ht t id). by setoid_rewrite He. Qed.

(** ** Entering and leaving *)

Lemma enter_page G c i s :
  cache_ok c → all_good G (peek c) → cache.shards c !! i = Some s →
  inside G (others c s) i (caps (cache.enter c s)) (cache.enter c s) (contents s) ∧
  ∀ k, glue i (contents s) (peek c) k = peek c k.
Proof.
  intros Hc Hg Hi. destruct (enter_ok c i s Hc Hi) as (rl & dl & Ha).
  assert (Hp : ∀ k, cache.shard_for k = i → peek c k = val (contents s) k).
  { intros k Hk. apply sharded_cache.peek_contents. by rewrite Hk. }
  assert (Hh : ∀ k e, val (contents s) k = Some e → cache.shard_for k = i).
  { intros k e He. eapply (contents_home c); [done..|]. by apply stored_val. }
  split.
  - split; [eauto|done|done|]. intros k e He. apply Hg. rewrite Hp; [done|eauto].
  - intros k. unfold glue. destruct (decide _) as [Hk|]; [|done]. by rewrite Hp.
Qed.

Lemma settle_unlock l (h : list (cache.Hook Z CacheEntry)) (b : bool) ti :
  settle l (h ++ (if b then [cache.after_unlock] else [])) ti = settle l h ti.
Proof.
  destruct b; [|by rewrite app_nil_r]. unfold settle. rewrite drop_app, fold_left_app.
  by destruct (length l - length h)%nat as [|[]].
Qed.

Lemma leave_page G c i s a' m' :
  cache_ok c → cache.shards c !! i = Some s →
  inside G (others c s) i (caps (cache.enter c s)) a' m' →
  cache_ok (cache.leave c i a') ∧ ∀ k, peek (cache.leave c i a') k = glue i m' (peek c) k.
Proof.
  intros Hc Hi [(rl & dl & Ha) _ Hh _]. split.
  - eapply leave_acc_ok; [done..|]. intros k [n Hn]. apply (Hh k (lru.value n)). unfold val. by rewrite Hn.
  - intros k. rewrite (sharded_cache.peek_leave c i s a' k Hi). unfold contents, glue, val.
    rewrite (h_map _ _ _ _ (a_holds _ _ _ _ _ _ Ha)).
    destruct (decide (cache.shard_for k = i)); [by rewrite bool_decide_true|by rewrite bool_decide_false].
Qed.

(** What holds of the closure holds of the section. *)
Lemma locked_page {R} G (Q : R → Entries → list (cache.Hook Z CacheEntry) → Prop)
    (f : Access → option (R * Access)) c i :
  cache_ok c → all_good G (peek c) → is_Some (cache.shards c !! i) →
  (∀ o cp a m, inside G o i cp a m → (∀ k, glue i m (peek c) k = peek c k) → cache.hooks a = cache.log c →
     ∃ r a' m', f a = Some (r, a') ∧ inside G o i cp a' m' ∧ Q r m' (cache.hooks a')) →
  ∃ r m' h' c' b, cache.locked i f c = Some (r, c') ∧ cache_ok c' ∧ all_good G (peek c') ∧
    (∀ k, peek c' k = glue i m' (peek c) k) ∧ Q r m' h' ∧
    cache.log c' = h' ++ (if b : bool then [cache.after_unlock] else []).
Proof.
  intros Hc Hg [s Hs] Hf. destruct (enter_page G c i s Hc Hg Hs) as [Hi Hpk].
  destruct (Hf _ _ _ _ Hi Hpk eq_refl) as (r & a' & m' & Ef & Hi' & HQ).
  destruct (leave_page G c i s a' m' Hc Hs Hi') as [Hc' Hpk'].
  exists r, m', (cache.hooks a'), (cache.leave c i a'), (cache.evicted a').
  split_and!; try done.
  - unfold cache.locked. rewrite Hs. cbn [mbind option_bind]. by rewrite Ef.
  - intros k e. rewrite Hpk'. unfold glue. destruct (decide _); [|apply Hg].
    apply (in_good _ _ _ _ _ _ Hi').
Qed.

(** ** One section of the store *)

(** The cache is sound, its entries are good and the index is exact. *)
Record sound G c (ti : TagIndex) : Prop := {
  sd_cache : cache_ok c;
  sd_good : all_good G (peek c);
  sd_tags : tags_exact (peek c) ti;
}.

Lemma shard_some c k : cache_ok c → is_Some (cache.shards c !! cache.shard_for k).
Proof. intros Hc. by destruct (shard_for_some shard_index_ok c k Hc) as [s ->]; eexists. Qed.

(** A closure that tells the hook of what it removes. *)
Lemma section_sound {R} G (Q : R → Entries → list (cache.Hook Z CacheEntry) → Prop)
    (f : Access → option (R * Access)) c i ti :
  sound G c ti → is_Some (cache.shards c !! i) →
  (∀ o cp a m, inside G o i cp a m → (∀ k, glue i m (peek c) k = peek c k) →
     cache.hooks a = cache.log c → tags_exact (glue i m (peek c)) ti →
     ∃ r a' m', f a = Some (r, a') ∧ inside G o i cp a' m' ∧
       tags_exact (glue i m' (peek c)) (settle (cache.hooks a) (cache.hooks a') ti) ∧
       Q r m' (cache.hooks a')) →
  ∃ r m' h' c', cache.locked i f c = Some (r, c') ∧
    sound G c' (settle (cache.log c) (cache.log c') ti) ∧
    (∀ k, peek c' k = glue i m' (peek c) k) ∧ Q r m' h' ∧ h' `prefix_of` cache.log c'.
Proof.
  intros [Hc Hg Ht] Hi Hf.
  destruct (locked_page G (fun r m' h' => tags_exact (glue i m' (peek c)) (settle (cache.log c) h' ti) ∧ Q r m' h')
    f c i Hc Hg Hi) as (r & m' & h' & c' & b & E & Hc' & Hg' & Hpk & [Ht' HQ] & Hlog).
  { intros o cp a m Hin Hpk Hh. destruct (Hf o cp a m Hin Hpk Hh) as (r & a' & m' & E & ? & ? & ?).
    - by eapply tags_exact_ext.
    - exists r, a', m'. by rewrite <-Hh. }
  exists r, m', h', c'. split_and!; try done; [|rewrite Hlog; by eexists].
  split; [done|done|]. rewrite Hlog, settle_unlock. by eapply tags_exact_ext.
Qed.

Lemma remove_sound G c ti k :
  sound G c ti →
  ∃ c', cache.remove k c = Some c' ∧ sound G c' (settle (cache.log c) (cache.log c') ti) ∧
    ∀ k', peek c' k' = if bool_decide (k' = k) then None else peek c k'.
Proof.
  intros Hs. pose proof (sd_cache _ _ _ Hs) as Hc.
  destruct (section_sound G (fun (_ : unit) m' _ => ∀ k', cache.shard_for k' = cache.shard_for k →
      val m' k' = if bool_decide (k' = k) then None else peek c k')
    (cache.no_result (cache.teardown k lru.Explicit)) c (cache.shard_for k) ti Hs (shard_some c k Hc))
    as (r & m' & h' & c' & E & Hs' & Hpk & HQ & _).
  { intros o cp a m Hin Hpk _ Ht.
    destruct (teardown_inside G o _ cp a m _ ti k lru.Explicit Hin Ht) as (a' & Ef & Hi' & Ht' & _).
    exists tt, a', (delete k m). unfold cache.no_result. rewrite Ef. split_and!; try done.
    intros k' Hk'. rewrite <-Hpk. unfold glue, val. rewrite decide_True by done.
    case_bool_decide as Hd; [by rewrite Hd, lookup_delete_eq|by rewrite lookup_delete_ne]. }
  exists c'. unfold cache.remove, cache.with_shard. rewrite E. split_and!; try done.
  intros k'. rewrite Hpk. unfold glue. destruct (decide _); [auto|]. by rewrite bool_decide_false by naive_solver.
Qed.

(** ** Passes over the shards *)

Lemma sweep_page G o i cp a m P ti now n :
  inside G o i cp a m → tags_exact (glue i m P) ti → 0 <= n < 2 ^ 64 →
  ∃ n' a' m', cache.sweep_in now n a = Some (n', a') ∧ inside G o i cp a' m' ∧
    tags_exact (glue i m' P) (settle (cache.hooks a) (cache.hooks a') ti) ∧
    0 <= n' < 2 ^ 64 ∧ cache.hooks a `prefix_of` cache.hooks a'.
Proof.
  intros Hi Ht Hn. destruct (in_acc _ _ _ _ _ _ Hi) as (rl & dl & Ha).
  destruct (sweep_loop_ok o now (length (lru.expiry (cache.shard a))) n a m rl dl Ha)
    as (n' & a' & m' & rl' & dl' & ws & E & Hsw); [done|done|]. pose proof Hsw as [Hp _ _ -> _].
  destruct (inside_removed G _ _ _ _ _ _ _ _ _ _ _ _ Hi Ht Hp) as (? & ? & ? & _).
  eexists _, a', m'. split_and!; try done; by apply (wrap_range 64).
Qed.

Lemma sweep_shards_sound G now ixs n c ti :
  sound G c ti → 0 <= n < 2 ^ 64 → Forall (fun i => (i < Z.to_nat cache.SHARDS)%nat) ixs →
  ∃ n' c', cache.for_shards ixs (cache.sweep_in now) n c = Some (n', c') ∧
    sound G c' (settle (cache.log c) (cache.log c') ti) ∧ cache.log c `prefix_of` cache.log c'.
Proof.
  revert n c ti. induction ixs as [|i ixs IH]; intros n c ti Hs Hn Hix; cbn [cache.for_shards].
  { exists n, c. split; [done|]. unfold settle. by rewrite drop_all. }
  apply Forall_cons in Hix as [Hi Hix].
  destruct (section_sound G (fun n' _ h' => 0 <= n' < 2 ^ 64 ∧ cache.log c `prefix_of` h')
    (cache.sweep_in now n) c i ti Hs) as (n1 & m1 & h1 & c1 & -> & Hs1 & _ & [Hn1 Hp1] & Hp2).
  { apply lookup_lt_is_Some. by rewrite (c_len _ (sd_cache _ _ _ Hs)). }
  { intros o cp a m Hin _ <- Ht. destruct (sweep_page G o i cp a m _ ti now n Hin Ht Hn)
      as (n' & a' & m' & ? & ? & ? & ? & ?). by exists n', a', m'. }
  cbn [mbind option_bind]. assert (Hp : cache.log c `prefix_of` cache.log c1) by (by etrans).
  destruct (IH n1 c1 _ Hs1 Hn1 Hix) as (n2 & c2 & E & Hs2 & Hp3).
  exists n2, c2. rewrite (settle_trans _ _ _ _ Hp Hp3) in Hs2. split_and!; [done|done|by etrans].
Qed.

Lemma sweep_sound G c ti now :
  sound G c ti →
  ∃ n c', cache.sweep_expired now c = Some (n, c') ∧ sound G c' (settle (cache.log c) (cache.log c') ti).
Proof.
  intros Hs. destruct (sweep_shards_sound G now (cache.all_shards c) 0 c ti Hs) as (n & c' & E & ? & _);
    [lia| |by exists n, c'].
  apply Forall_forall. intros i. unfold cache.all_shards. rewrite elem_of_seq, (c_len _ (sd_cache _ _ _ Hs)). lia.
Qed.

Lemma settle_empty l l' t k : ¬ member (settle l l' ∅) t k.
Proof.
  unfold settle. generalize (drop (length l) l') as h. intros h.
  assert (Hno : ∀ ti, (∀ t k, ¬ member ti t k) → ∀ t k, ¬ member (fold_left store_evict h ti) t k).
  { induction h as [|x h IH]; intros ti Hti; [done|]. cbn [fold_left]. apply IH. intros t' k'.
    destruct x as [id [n|] c|]; cbn; [|apply Hti..]. rewrite member_unregister. naive_solver. }
  apply Hno. intros t' k'. unfold member. rewrite lookup_empty. set_solver.
Qed.

(** Every page goes, every static file stays. *)
Lemma purge_pages_sound G G' c :
  cache_ok c → all_good G (peek c) → (∀ k st, G k (Static st) → G' k (Static st)) →
  ∃ c', cache.purge_if (fun _ e => bool_decide (is_Some (as_page e))) c = Some c' ∧
    sound G' c' (settle (cache.log c) (cache.log c') ∅) ∧
    ∀ k, peek c' k = (e ← peek c k; match e with Static _ => Some e | Page _ => None end).
Proof.
  intros Hc Hg Hgs.
  destruct (pass_ok False (fun s s' => ∀ k n, contents s' !! k = Some n ↔
      contents s !! k = Some n ∧ bool_decide (is_Some (as_page (lru.value n))) = false)
    (cache.purge_in (fun _ e => bool_decide (is_Some (as_page e)))) c Hc) as (c' & wss & E & [Hc' _ _ _ _] & Hsh).
  { intros o a m rl dl Ha _. destruct (purge_in_ok o (fun _ e => bool_decide (is_Some (as_page e))) a m rl dl Ha)
      as (a' & m' & rl' & dl' & ws & Ef & Hp & Hm & _). exists a', m', rl', dl', ws. split_and!; try done.
    intros ->. unfold contents at 1.
    rewrite (h_map _ _ _ _ (a_holds _ _ _ _ _ _ (po_ok _ _ _ _ _ _ _ _ Hp))). exact Hm. }
  assert (Hpk : ∀ k, peek c' k = (e ← peek c k; match e with Static _ => Some e | Page _ => None end)).
  { intros k. destruct (shard_some c k Hc) as [s Hs]. destruct (Hsh _ s Hs) as (s' & Hs' & Hk).
    rewrite (sharded_cache.peek_contents c' k s' Hs'), (sharded_cache.peek_contents c k s Hs).
    specialize (Hk k). destruct (contents s' !! k) as [n'|] eqn:E'.
    - destruct (proj1 (Hk n') eq_refl) as [-> Hb]. cbn. revert Hb. by destruct (lru.value n').
    - destruct (contents s !! k) as [n|] eqn:En; [|done]. cbn. destruct (lru.value n) as [p|st] eqn:Ev; [done|].
      specialize (Hk n). rewrite Ev in Hk. by discriminate (proj2 Hk (conj eq_refl eq_refl)). }
  exists c'. split; [done|]. split; [|done]. split; [done| |].
  - intros k e. rewrite Hpk. destruct (peek c k) as [[p|st]|] eqn:Ep; cbn; [done| |done]. intros [= <-]. by apply Hgs, Hg.
  - intros t k. split; [by intros ?%settle_empty|]. rewrite Hpk.
    intros (n & Hn & _). by destruct (peek c k) as [[p|st]|].
Qed.

(** ** A purge of one tag *)

(** The page under a key has the tag. *)
Definition has_tag (tag : Tag) (e : option CacheEntry) : bool :=
  match e with Some (Page n) => bool_decide (tag ∈ n_tags n) | _ => false end.

Lemma has_tag_tagged P t k : has_tag t (P k) = true ↔ tagged P t k.
Proof.
  unfold has_tag, tagged. destruct (P k) as [[n|]|]; [|split; [done|by intros (? & ? & _)]..].
  rewrite bool_decide_eq_true. naive_solver.
Qed.

Section purge.
Context (G : Z → CacheEntry → Prop) (tag : Tag) (epoch : Z) (P0 : View).
Context (older : ∀ k n, P0 k = Some (Page n) → render_epoch n < epoch).

(** With the ids [R] still to come. *)
Definition purging (R : list Z) (k : Z) : option CacheEntry :=
  if has_tag tag (P0 k) && negb (bool_decide (k ∈ R)) then None else P0 k.

Record half (R : list Z) P (ti : TagIndex) : Prop := {
  hf_view : ∀ k, P k = purging R k;
  hf_tags : ∀ t k, member ti t k ↔ tagged P t k ∧ (t = tag → k ∉ R);
}.

Lemma half_ext R R' P P' ti :
  (∀ k, k ∈ R' ↔ k ∈ R) → (∀ k, P' k = P k) → half R P ti → half R' P' ti.
Proof.
  intros HR HP [Hv Ht]. split.
  - intros k. rewrite HP, Hv. unfold purging. by rewrite (bool_decide_ext _ _ (HR k)).
  - intros t k. rewrite (Ht t k), (HR k). unfold tagged. by setoid_rewrite HP.
Qed.

(** An id without the tag needs nothing. *)
Lemma half_skip R P ti id : has_tag tag (P0 id) = false → half (id :: R) P ti → half R P ti.
Proof.
  intros Hno [Hv Ht]. assert (Hid : P id = P0 id) by (rewrite Hv; unfold purging; by rewrite Hno). split.
  - intros k. rewrite Hv. unfold purging. destruct (decide (k = id)) as [->|Hd]; [by rewrite Hno|].
    rewrite (bool_decide_ext (k ∈ id :: R) (k ∈ R)); [done|set_solver].
  - intros t k. rewrite (Ht t k), not_elem_of_cons. split; [tauto|]. intros [Htk HR]. split; [done|].
    intros ->. split; [|auto]. intros ->. apply has_tag_tagged in Htk. congruence.
Qed.

Lemma purge_id_half o i cp a m P ti id R :
  inside G o i cp a m → half (id :: R) (glue i m P) ti → cache.shard_for id = i → id ∉ R →
  ∃ ti' a' m', purge_tagged_id_locked tag epoch ti id a = Some (ti', a') ∧ inside G o i cp a' m' ∧
    half R (glue i m' P) ti'.
Proof.
  intros Hi Hf Hsh HR. unfold purge_tagged_id_locked. rewrite (acc_get_inside _ _ _ _ _ _ _ Hi).
  assert (Hv : val m id = P0 id).
  { pose proof (hf_view _ _ _ Hf id) as Hid. unfold glue, purging in Hid. rewrite decide_True in Hid by done.
    rewrite Hid, (bool_decide_true (id ∈ _)), andb_false_r by set_solver +. done. }
  destruct (has_tag tag (P0 id)) eqn:Eh; cycle 1.
  { exists ti, a, m. pose proof (half_skip _ _ _ _ Eh Hf) as Hf'. rewrite Hv.
    destruct (P0 id) as [[n|]|]; cbn in Eh |- *; [|by split_and!..]. by rewrite Eh. }
  destruct (teardown_inside_on G (fun t k => t = tag → k ∉ id :: R) o i cp a m P ti id lru.Explicit
    Hi (hf_tags _ _ _ Hf)) as (a' & -> & Hi' & Ht').
  rewrite Hv. destruct (P0 id) as [[n|]|] eqn:E0; [|done..]. cbn in Eh |- *. rewrite Eh. cbn [negb].
  rewrite (proj2 (Z.leb_gt _ _) (older id n E0)). eexists _, a', _. split_and!; [done..|].
  assert (Hgone : glue i (delete id m) P id = None).
  { unfold glue, val. by rewrite decide_True, lookup_delete_eq. }
  split.
  - intros k. destruct (decide (k = id)) as [->|Hd].
    + rewrite Hgone. unfold purging. rewrite E0. cbn. by rewrite Eh, bool_decide_false.
    + transitivity (glue i m P k); [unfold glue, val; by rewrite lookup_delete_ne|].
      rewrite (hf_view _ _ _ Hf). unfold purging.
      rewrite (bool_decide_ext (k ∈ id :: R) (k ∈ R)); [done|set_solver].
  - intros t k. rewrite (Ht' t k), not_elem_of_cons. split; [tauto|]. intros [Htk Hk]. split; [done|].
    intros ->. split; [|auto]. intros ->. destruct Htk as (? & Htk & _). congruence.
Qed.

Lemma purge_group_half o i cp P group R a m ti :
  inside G o i cp a m → half (group ++ R) (glue i m P) ti → Forall (fun k => cache.shard_for k = i) group →
  NoDup (group ++ R) →
  ∃ ti' a' m', purge_group tag epoch ti group a = Some (ti', a') ∧ inside G o i cp a' m' ∧
    half R (glue i m' P) ti'.
Proof.
  revert a m ti. induction group as [|id group IH]; intros a m ti Hi Hf Hsh Hnd; cbn [purge_group].
  { by exists ti, a, m. }
  apply Forall_cons in Hsh as [Hid Hsh]. apply NoDup_cons in Hnd as [Hni Hnd].
  destruct (purge_id_half o i cp a m P ti id _ Hi Hf Hid Hni) as (ti1 & a1 & m1 & -> & Hi1 & Hf1).
  cbn [mbind option_bind]. eauto.
Qed.

Lemma run_length_run i ids :
  Forall (fun k : Z => cache.shard_for k = i) (take (cache.run_length i ids) ids).
Proof.
  induction ids as [|id ids IH]; [constructor|]. cbn. case_bool_decide; [|constructor].
  by constructor.
Qed.

Lemma purge_groups_half fuel ids c ti :
  (length ids ≤ fuel)%nat → NoDup ids → cache_ok c → all_good G (peek c) → half ids (peek c) ti →
  ∃ ti' c', cache.groups_loop fuel ids (purge_group tag epoch) ti c = Some (ti', c') ∧ cache_ok c' ∧
    all_good G (peek c') ∧ half [] (peek c') ti'.
Proof.
  revert ids c ti. induction fuel as [|fuel IH]; intros [|id ids] c ti Hlen Hnd Hc Hg Hf;
    cbn [length] in Hlen; [by exists ti, c|lia|by exists ti, c|].
  cbn [cache.groups_loop]. set (i := cache.shard_for id). set (n := cache.run_length i (id :: ids)).
  assert (Hn : (0 < n)%nat) by (unfold n; cbn; rewrite bool_decide_true by done; lia).
  rewrite <-(take_drop n (id :: ids)) in Hf, Hnd.
  destruct (locked_page G (fun ti' m' _ => half (drop n (id :: ids)) (glue i m' (peek c)) ti')
    (purge_group tag epoch ti (take n (id :: ids))) c i Hc Hg (shard_some c id Hc))
    as (ti1 & m1 & h1 & c1 & b & -> & Hc1 & Hg1 & Hpk & Hf1 & _).
  { intros o cp a m Hin Hpk _. apply (purge_group_half o i cp (peek c) _ _ a m); [done| |apply run_length_run|done].
    by eapply half_ext. }
  cbn [mbind option_bind]. apply NoDup_app in Hnd as (_ & _ & Hnd). apply IH; try done.
  - rewrite length_drop. cbn [length]. lia.
  - by eapply half_ext.
Qed.

End purge.

Lemma purge_tag_sound G tag epoch c ti :
  (∀ k n, peek c k = Some (Page n) → render_epoch n < epoch) → sound G c ti →
  ∃ ti' c',
    (match (remove_tag tag ti).1 with
     | Some set =>
         cache.with_shard_groups (elements set) (purge_group tag epoch) (remove_tag tag ti).2 c
     | None => Some ((remove_tag tag ti).2, c)
     end) = Some (ti', c') ∧
    sound G c' ti' ∧ ∀ k, peek c' k = if has_tag tag (peek c k) then None else peek c k.
Proof.
  intros Hlt [Hc Hg Ht]. set (ids := elements (default ∅ (ti !! tag))).
  assert (Hf : half tag (peek c) ids (peek c) (delete tag ti)).
  { split.
    - intros k. unfold purging. destruct (has_tag tag (peek c k)) eqn:E; [|done]. cbn [andb].
      apply has_tag_tagged in E. rewrite bool_decide_true; [done|].
      unfold ids. apply elem_of_elements. by apply (Ht tag k).
    - intros t k. unfold member, ids. rewrite elem_of_elements. destruct (decide (t = tag)) as [->|Hd].
      + rewrite lookup_delete_eq. cbn. specialize (Ht tag k). unfold member, tagged in *. set_solver.
      + rewrite lookup_delete_ne by done. specialize (Ht t k). unfold member, tagged in *. naive_solver. }
  enough (∃ ti' c', (match ti !! tag with
     | Some set => cache.with_shard_groups (elements set) (purge_group tag epoch) (delete tag ti) c
     | None => Some (delete tag ti, c) end) = Some (ti', c') ∧ cache_ok c' ∧ all_good G (peek c') ∧
     half tag (peek c) [] (peek c') ti') as (ti' & c' & E & Hc' & Hg' & [Hv' Ht']).
  { exists ti', c'. split; [done|]. split.
    - split; [done|done|]. intros t k. rewrite (Ht' t k). unfold tagged. set_solver.
    - intros k. rewrite Hv'. unfold purging. rewrite bool_decide_false by set_solver +. by rewrite andb_true_r. }
  unfold ids in Hf. destruct (ti !! tag) as [set|]; cbn [default from_option] in Hf.
  - assert (Hperm : merge_sort cache.by_shard (elements set) ≡ₚ elements set) by apply merge_sort_Permutation.
    apply purge_groups_half with (P0 := peek c); try done.
    + rewrite Hperm. apply NoDup_elements.
    + eapply half_ext; [..|done|by apply Hf]. intros k. by rewrite Hperm.
  - rewrite elements_empty in Hf. by exists (delete tag ti), c.
Qed.

End sections.
End page_purge.
