(* ===== verification/PageStoreRun.v ===== *)
(** * What the page store keeps through any sequence of operations

    The operations as steps on a store and the history of what was offered and purged; the
    invariant of every store the steps reach. A step that stores or begins a render uses an
    epoch that was the purge clock at some point since the last prune, or that of a render
    still active. *)

From stdpp Require Import base list gmap.
From Stdlib Require Import ZArith Lia.
From S2P Require Import Prelude RustStr HttpUtil ShardLru ShardCache ShardCacheInv.
From S2P Require Import ShardCacheOps ShardCacheMutate ShardCacheStore ShardCacheTheorems.
From S2P Require Import PageMeta PageStore PageStoreInv PageStoreOps PageStorePurge.

Import page_meta page_store cache_inv cache_ops cache_mutate cache_store page_inv page_ops page_purge.
#[local] Open Scope record_scope.

Module page_run.

(** What was offered and stored, and the epochs of the last purges. *)
Record History : Type := {
  offers : list Offer;
  statics : list StaticNode;
  last : Tag → Z;
  last_all : Z;
}.

Definition no_history : History :=
  {| offers := []; statics := []; last := fun _ => 0; last_all := 0 |}.

Inductive Op : Type :=
| Get (key : PageCacheKey) (ident : list Z) (now : Z)
| Store (f : Offer)
| Invalidate (key : PageCacheKey)
| PurgeTags (ts : list Tag)
| PurgeAll
| Sweep (now : Z)
| BeginRender (epoch : Z)
| EndRender (epoch : Z)
| Prune
| GetStatic (vhost : Z) (path : list Z) (fresh_id : FileId)
| StoreStatic (vhost : Z) (st : StaticNode) (bytes : list Z)
| InvalidateStatic (vhost : Z) (path : list Z).

Section run.
Context `{HC : HttpCrate} `{HZ : Zstd} `{HL : !ZstdLaw} `{HW : Weights}.

Abbreviation peek := (@sharded_cache.peek Z CacheEntry _ _ _).
Implicit Types (s : PageStore) (h : History).

Definition exec (op : Op) s : option PageStore :=
  match op with
  | Get key ident now => snd <$> get_entry key ident now s
  | Store f => snd <$> store_if_not_purged_since (o_key f) (o_entry f) (o_epoch f) s
  | Invalidate key => invalidate_key key s
  | PurgeTags ts => purge_tags ts s
  | PurgeAll => purge_all s
  | Sweep now => snd <$> sweep_expired now s
  | BeginRender epoch => Some (begin_render epoch s)
  | EndRender epoch => Some (end_render epoch s)
  | Prune => Some (prune_tag_purge_epoch s)
  | GetStatic vhost path fresh_id => snd <$> get_static vhost path fresh_id s
  | StoreStatic vhost st bytes =>
      snd <$> store_static vhost (source_path st) (file_id st) bytes (content_type st) (etag st)
                (last_modified st) s
  | InvalidateStatic vhost path => invalidate_static vhost path s
  end.

Definition with_bytes (st : StaticNode) (bytes : list Z) : StaticNode :=
  {| source_path := source_path st; file_id := file_id st; content_type := content_type st;
     etag := etag st; last_modified := last_modified st; s_body := InMem bytes |}.

(** The history after the step from [s]. *)
Definition note (op : Op) s h : History :=
  match op with
  | Store f =>
      {| offers := f :: offers h; statics := statics h; last := last h; last_all := last_all h |}
  | StoreStatic _ st bytes =>
      {| offers := offers h; statics := with_bytes st bytes :: statics h; last := last h;
         last_all := last_all h |}
  | PurgeTags ts =>
      {| offers := offers h; statics := statics h;
         last := fun t => if bool_decide (t ∈ ts) then purge_epoch s + 1 else last h t;
         last_all := last_all h |}
  | PurgeAll =>
      {| offers := offers h; statics := statics h; last := last h; last_all := purge_epoch s + 1 |}
  | _ => h
  end.

(** A render may still be stored under the epoch. *)
Definition open_epoch s (e : Z) : Prop :=
  tag_epoch_prune_floor s <= e ∨ is_Some (active_render_epochs s !! e).

Definition allowed (op : Op) s : Prop :=
  match op with
  | Store f => offer_ok f ∧ o_epoch f <= purge_epoch s ∧ open_epoch s (o_epoch f)
  | BeginRender e => tag_epoch_prune_floor s <= e <= purge_epoch s
  | _ => True
  end.

Inductive reachable (obj static_obj : Z) (config : cache.ShardCacheConfig) : PageStore → History → Prop :=
| reach_new : reachable obj static_obj config (new obj static_obj config) no_history
| reach_step s h op s' :
    reachable obj static_obj config s h → allowed op s → exec op s = Some s' →
    reachable obj static_obj config s' (note op s h).

(** ** The invariant *)

Definition is_good h : Z → CacheEntry → Prop := good (offers h) (statics h) (last_all h) (last h).

Record store_inv s h : Prop := {
  si_sound : sound (is_good h) (inner s) (tag_index s);
  si_all : purge_all_epoch s = last_all h;
  si_all_seq : last_all h <= purge_seq s;
  si_last : ∀ t, last h t <= purge_seq s;
  si_offers : ∀ f, f ∈ offers h → o_epoch f <= purge_seq s;
  si_floor : tag_epoch_prune_floor s <= purge_seq s;
  si_stamps : ∀ t e, open_epoch s e → e < last h t →
    e < last_all h ∨ ∃ x, tag_purge_epoch s !! t = Some x ∧ e < x;
}.

(** Only the cache and the index change. *)
Lemma store_inv_inner s h c ti :
  store_inv s h → sound (is_good h) c ti → store_inv (s <| inner := c |> <| tag_index := ti |>) h.
Proof. intros [? ? ? ? ? ? ?] Hs. by split. Qed.

Lemma good_offers h f k e :
  is_good h k e → good (f :: offers h) (statics h) (last_all h) (last h) k e.
Proof. destruct e as [n|st]; cbn; [|done]. intros (g & ? & ? & ? & ? & ?). exists g. set_solver. Qed.

Lemma good_statics h st k e :
  is_good h k e → good (offers h) (st :: statics h) (last_all h) (last h) k e.
Proof. destruct e as [n|st']; cbn; set_solver. Qed.

Lemma sound_mono G G' c ti : (∀ k e, G k e → G' k e) → sound G c ti → sound G' c ti.
Proof. intros HG [? Hg ?]. split; try done. intros k e He. by apply HG, Hg. Qed.

Lemma good_epoch s h k n : store_inv s h → peek (inner s) k = Some (Page n) → render_epoch n <= purge_seq s.
Proof.
  intros Hs Hk. destruct (sd_good _ _ _ (si_sound _ _ Hs) k _ Hk) as (f & Hf & _ & Hn & _).
  destruct (node_of_facts _ _ Hn) as (_ & -> & _). by apply (si_offers _ _ Hs).
Qed.

(** ** Lookups *)

Definition answered (h : History) (key : PageCacheKey) (ident : list Z) (r : CachedResponse) : Prop :=
  identity r = ident ∧
  ∃ f, f ∈ offers h ∧ o_key f = key ∧ o_entry f = r ∧ last_all h <= o_epoch f ∧
    ∀ t, t ∈ tags r → last h t <= o_epoch f.

Definition age (r : CachedResponse) (now : Z) : Z := Z.max 0 (now - stored_at r).

(** What a lookup may answer. *)
Definition answer_ok h key ident (now : Z) (e : EntryState) : Prop :=
  match e with
  | EMiss => True
  | EFresh r => answered h key ident r ∧ age r now < ttl r
  | EStale r => answered h key ident r ∧ ttl r <= age r now < ttl r + swr r
  | EErrorOnly r =>
      answered h key ident r ∧ ttl r <= age r now ∧ ttl r + swr r <= age r now < ttl r + sie r
  end.

Lemma node_of_times f n :
  node_of f n → n_stored_at n = stored_at (o_entry f) ∧ n_ttl n = ttl (o_entry f) ∧
    n_swr n = swr (o_entry f) ∧ n_sie n = sie (o_entry f).
Proof.
  intros [(n0 & E & Hn) _ _]. unfold from_cached in E. destruct (encode _ _) as [b|]; [|done].
  injection E as <-. by rewrite Hn.
Qed.

Definition state_of (fr : Freshness) (r : CachedResponse) : EntryState :=
  match fr with Fresh => EFresh r | Stale => EStale r | ErrorOnly => EErrorOnly r | Gone => EMiss end.

Lemma serves_answer h f n key ident now fr r :
  serves (offers h) (last_all h) (last h) f n key ident now fr r →
  answer_ok h key ident now (state_of fr r).
Proof.
  intros [Hf _ Hn Hk He Hi [Ha Hl] Hfr Hg].
  assert (Hans : answered h key ident r) by (split; [done|]; exists f; by rewrite <-He).
  destruct (node_of_times f n Hn) as (E1 & E2 & E3 & E4). rewrite He in *. subst fr.
  unfold freshness in *. rewrite E1, E2, E3, E4 in *. fold (age r now) in *.
  destruct (Z.ltb_spec (age r now) (ttl r)); [done|].
  destruct (Z.ltb_spec (age r now) (ttl r + swr r)); [done|].
  destruct (Z.ltb_spec (age r now) (ttl r + sie r)); [done|]. done.
Qed.

(** The class of a response at an instant. *)
Definition state_at (r : CachedResponse) (now : Z) : EntryState :=
  if age r now <? ttl r then EFresh r
  else if age r now <? ttl r + swr r then EStale r
  else if age r now <? ttl r + sie r then EErrorOnly r
  else EMiss.

Lemma state_of_freshness f n now :
  node_of f n → state_of (freshness n now) (o_entry f) = state_at (o_entry f) now.
Proof.
  intros Hn. destruct (node_of_times f n Hn) as (E1 & E2 & E3 & E4). unfold freshness, state_at.
  rewrite E1, E2, E3, E4. fold (age (o_entry f) now). by repeat case_if.
Qed.

(** The page under the key and what a hit leaves there. *)
Definition hit s s' (key : PageCacheKey) (ident : list Z) (now : Z) (e : EntryState) : Prop :=
  ∃ f n n', peek (inner s) (key_id key) = Some (Page n) ∧ node_of f n ∧ offer_ok f ∧ o_key f = key ∧
    identity (o_entry f) = ident ∧ e = state_at (o_entry f) now ∧
    peek (inner s') (key_id key) = Some (Page n') ∧ node_of f n' ∧ resp_snapshot n' = Some (o_entry f).

Lemma get_entry_inv s h key ident now :
  store_inv s h →
  ∃ r s', get_entry key ident now s = Some (r, s') ∧ store_inv s' h ∧ answer_ok h key ident now r ∧
    (r = EMiss ∨ hit s s' key ident now r).
Proof.
  intros Hs. pose proof (si_sound _ _ Hs) as Hsd. unfold get_entry, get_entry_inner, cache.with_shard.
  destruct (section_sound (is_good h)
    (fun r m' _ => ∀ fr resp, r = Some (fr, resp) →
       ∃ f n n', peek (inner s) (key_id key) = Some (Page n) ∧
         serves (offers h) (last_all h) (last h) f n key ident now fr resp ∧
         val m' (key_id key) = Some (Page n') ∧ node_of f n' ∧ resp_snapshot n' = Some resp)
    (get_locked key (key_id key) ident now) (inner s) (cache.shard_for (key_id key)) (tag_index s) Hsd
    (shard_some _ _ (sd_cache _ _ _ Hsd))) as (r & m' & h' & c' & -> & Hsd' & Hpk & HQ & _).
  { intros o cp a m Hin Hpk _ Ht.
    destruct (get_locked_inside (offers h) (statics h) (last_all h) (last h) o _ cp a m (peek (inner s))
      (tag_index s) key ident now Hin Ht) as (r & a' & m' & ? & ? & ? & Hr). exists r, a', m'.
    rewrite <-Hpk. unfold glue. rewrite decide_True by done. by split_and!. }
  cbn [mbind option_bind]. pose proof (store_inv_inner s h c' _ Hs Hsd') as Hs'.
  destruct r as [[fr resp]|]; [|exists EMiss, (with_inner s c'); by split_and!; auto].
  destruct (HQ fr resp eq_refl) as (f & n & n' & Hpn & Hf & Hv & Hn' & Hsn).
  pose proof (serves_answer _ _ _ _ _ _ _ _ Hf) as Hans.
  destruct Hf as [_ Hok Hn Hk He Hid _ Hfr Hg].
  exists (state_of fr resp), (with_inner s c'). split; [by destruct fr|]. split_and!; [done..|]. right.
  exists f, n, n'. split_and!; try done; [by rewrite He| | |by rewrite He].
  - rewrite <-He, Hfr. by apply state_of_freshness.
  - cbn. rewrite Hpk. unfold glue. by rewrite decide_True.
Qed.

(** A page served before is served again. *)
Lemma get_again s h f n ident now :
  store_inv s h → peek (inner s) (key_id (o_key f)) = Some (Page n) → node_of f n →
  resp_snapshot n = Some (o_entry f) → identity (o_entry f) = ident →
  ∃ s', get_entry (o_key f) ident now s = Some (state_at (o_entry f) now, s').
Proof.
  intros Hs Hpn Hn Hsn Hid. rewrite <-(state_of_freshness f n now Hn).
  destruct (decide (freshness n now = Gone)) as [Hg|Hg].
  - destruct (get_entry_inv s h (o_key f) ident now Hs) as (r & s' & E & _ & _ & Hr). exists s'. rewrite E.
    do 2 f_equal. rewrite Hg. destruct Hr as [->|(f' & n1 & _ & Hp1 & Hn1 & _ & _ & _ & -> & _)]; [done|].
    rewrite <-(state_of_freshness f' n1 now Hn1). rewrite Hpn in Hp1. injection Hp1 as <-. by rewrite Hg.
  - pose proof (si_sound _ _ Hs) as [Hc Hgd Ht]. destruct (shard_some _ (key_id (o_key f)) Hc) as [sh Hsh].
    destruct (enter_page _ _ _ _ Hc Hgd Hsh) as [Hi Hpk].
    destruct (get_again_inside _ _ _ _ _ _ _ _ _ (peek (inner s)) (tag_index s) ident now f n Hi) as (a' & Ea); try done.
    + by eapply tags_exact_ext.
    + rewrite <-Hpn, <-Hpk. unfold glue. by rewrite decide_True.
    + unfold get_entry, get_entry_inner, cache.with_shard, cache.locked. rewrite Hsh. cbn [mbind option_bind].
      rewrite Ea. cbn [mbind option_bind]. by destruct (freshness n now); eauto.
Qed.

(** ** Stores *)

(** An epoch that may still be stored and is not refused is not before a purge. *)
Lemma not_purged_since s h ts e :
  store_inv s h → open_epoch s e → purged_after s ts e = false →
  last_all h <= e ∧ ∀ t, t ∈ ts → last h t <= e.
Proof.
  intros Hs Ho Hp. unfold purged_after in Hp. apply orb_false_iff in Hp as [Ha Ht].
  rewrite (si_all _ _ Hs) in Ha. apply Z.ltb_ge in Ha. split; [done|]. intros t Htt.
  destruct (Z.le_gt_cases (last h t) e) as [|Hlt]; [done|]. exfalso.
  destruct (si_stamps _ _ Hs t e Ho Hlt) as [?|(x & Hx & ?)]; [lia|].
  assert (existsb (fun tag => from_option (fun e0 => e <? e0) false (tag_purge_epoch s !! tag)) ts = true)
    as Hex; [|congruence].
  apply existsb_exists. exists t. split; [by apply list_elem_of_In|]. rewrite Hx. by apply Z.ltb_lt.
Qed.

Lemma store_inv_section s h f node :
  store_inv s h → allowed (Store f) s → from_cached (o_key f) (o_entry f) (o_epoch f) = Ok node →
  let id := key_id (o_key f) in
  ∃ b ti' c', cache.with_shard id (store_locked s (o_key f) id node (tags (o_entry f)) (o_epoch f)) (inner s)
      = Some ((b, ti'), c') ∧ sound (is_good (note (Store f) s h)) c' ti' ∧
    (b = true → peek c' id = Some (Page node)).
Proof.
  intros Hs (Hok & Hle & Ho) En id. destruct (sound_mono _ _ _ _ (good_offers h f) (si_sound _ _ Hs)) as [Hc Hg Ht].
  destruct (locked_page (is_good (note (Store f) s h))
    (fun (r : bool * TagIndex) m' _ => tags_exact (glue (cache.shard_for id) m' (peek (inner s))) r.2 ∧
       (r.1 = true → val m' id = Some (Page node)))
    (store_locked s (o_key f) id node (tags (o_entry f)) (o_epoch f)) (inner s) (cache.shard_for id) Hc Hg
    (shard_some _ _ Hc)) as ([b ti'] & m' & h' & c' & z & E & Hc' & Hg' & Hpk & [Ht' Hb] & _).
  { intros o cp a m Hin Hpk _.
    destruct (store_locked_inside (f :: offers h) (statics h) (last_all h) (last h) s o (cache.shard_for id) cp a m
      (peek (inner s)) f node) as (b & ti' & a' & m' & E & Hin' & Ht' & Hb); try done.
    - by eapply tags_exact_ext.
    - set_solver +.
    - intros Hp. destruct (not_purged_since s h _ _ Hs Ho Hp). by split.
    - exists (b, ti'), a', m'. split_and!; try done. cbn. intros Hbt. by destruct (Hb Hbt). }
  exists b, ti', c'. split; [done|]. split.
  - split; [done|done|]. by eapply tags_exact_ext.
  - intros Hbt. rewrite Hpk. unfold glue. rewrite decide_True by done. by apply Hb.
Qed.

Lemma store_inv_note s h f :
  store_inv s h → allowed (Store f) s → store_inv s (note (Store f) s h).
Proof.
  intros [Hsd ? ? ? Hof ? ?] (_ & Hle & _). split; cbn; try done.
  - exact (sound_mono _ _ _ _ (good_offers h f) Hsd).
  - intros g [->|Hg]%elem_of_cons; [done|auto].
Qed.

Lemma store_page_inv s h f :
  store_inv s h → allowed (Store f) s →
  ∃ b s', store_if_not_purged_since (o_key f) (o_entry f) (o_epoch f) s = Some (b, s') ∧
    store_inv s' (note (Store f) s h) ∧
    (b = true → ∃ node, from_cached (o_key f) (o_entry f) (o_epoch f) = Ok node ∧
       peek (inner s') (key_id (o_key f)) = Some (Page node)).
Proof.
  intros Hs Hal. pose proof (store_inv_note s h f Hs Hal) as Hs1.
  unfold store_if_not_purged_since, store_if_not_purged_since_hashed.
  destruct (max_obj_bytes s <? body_len (body (o_entry f))); [exists false, s; by split_and!|]. cbn zeta.
  destruct (from_cached _ _ _) as [node|] eqn:En; [|exists false, s; by split_and!].
  rewrite key_id_raw.
  destruct (store_inv_section s h f node Hs Hal En) as (b & ti' & c' & -> & Hsd & Hb).
  cbn [mbind option_bind]. eexists b, _. split; [done|]. split; [by apply store_inv_inner|].
  intros Hbt. exists node. split; [done|]. by apply Hb.
Qed.

(** ** Removals *)

Lemma remove_inv s h k :
  store_inv s h → ∃ c, cache.remove k (inner s) = Some c ∧ store_inv (with_inner s c) h.
Proof.
  intros Hs. destruct (remove_sound _ _ _ k (si_sound _ _ Hs)) as (c & E & Hsd & _).
  exists c. split; [done|]. by apply store_inv_inner.
Qed.

Lemma sweep_inv s h now :
  store_inv s h → ∃ n s', sweep_expired now s = Some (n, s') ∧ store_inv s' h.
Proof.
  intros Hs. destruct (sweep_sound _ _ _ now (si_sound _ _ Hs)) as (n & c & E & Hsd).
  unfold sweep_expired. rewrite E. cbn [mbind option_bind]. eexists n, _. split; [done|]. by apply store_inv_inner.
Qed.

(** The view without the pages that have one of the tags. *)
Definition without (ts : list Tag) (P : Z → option CacheEntry) (k : Z) : option CacheEntry :=
  if existsb (fun t => has_tag t (P k)) ts then None else P k.

Lemma purge_each_sound G epoch ts s :
  sound G (inner s) (tag_index s) → (∀ k n, peek (inner s) k = Some (Page n) → render_epoch n < epoch) →
  ∃ c' ti' st', purge_each epoch ts s =
      Some (s <| tag_purge_epoch := st' |> <| inner := c' |> <| tag_index := ti' |>) ∧
    sound G c' ti' ∧ (∀ k, peek c' k = without ts (peek (inner s)) k) ∧
    ∀ t, st' !! t = if bool_decide (t ∈ ts) then Some epoch else tag_purge_epoch s !! t.
Proof.
  revert s. induction ts as [|tag ts IH]; intros s Hsd Hlt; cbn [purge_each].
  { exists (inner s), (tag_index s), (tag_purge_epoch s). split_and!; [by destruct s|done|done|].
    intros t. by rewrite bool_decide_false by set_solver +. }
  destruct (purge_tag_sound G tag epoch (inner s) (tag_index s) Hlt Hsd) as (ti1 & c1 & E & Hsd1 & Hpk1).
  unfold remove_tag in E |- *. cbn [fst snd] in E.
  change (tag_index (s <| tag_purge_epoch := _ |>)) with (tag_index s).
  change (inner (s <| tag_purge_epoch := _ |>)) with (inner s). rewrite E. cbn [mbind option_bind].
  destruct (IH (s <| tag_purge_epoch := <[tag := epoch]> (tag_purge_epoch s) |> <| inner := c1 |>
    <| tag_index := ti1 |>)) as (c' & ti' & st' & -> & Hsd' & Hpk' & Hst); [done| |].
  { intros k n. cbn [inner]. rewrite Hpk1. destruct (has_tag tag _); [done|apply Hlt]. }
  exists c', ti', st'. split_and!; [by destruct s|done|..].
  - intros k. rewrite Hpk'. unfold without. cbn [inner existsb]. rewrite Hpk1.
    destruct (has_tag tag (peek (inner s) k)) eqn:Eh; cbn; [by destruct (existsb _ ts)|done].
  - intros t. rewrite Hst. cbn. destruct (decide (t = tag)) as [->|Hd].
    + rewrite lookup_insert_eq, (bool_decide_true (tag ∈ tag :: ts)) by set_solver +. by destruct (bool_decide _).
    + rewrite lookup_insert_ne by done. by rewrite (bool_decide_ext (t ∈ tag :: ts) (t ∈ ts)) by set_solver.
Qed.

Lemma purge_tags_inv s h ts :
  store_inv s h →
  ∃ s', purge_tags ts s = Some s' ∧ store_inv s' (note (PurgeTags ts) s h) ∧
    (∀ k, peek (inner s') k = without ts (peek (inner s)) k) ∧
    (∀ t, t ∈ ts → tag_purge_epoch s' !! t = Some (purge_epoch s + 1)).
Proof.
  intros Hs. unfold purge_tags. set (s0 := s <| purge_seq := purge_seq s + 1 |>).
  destruct (purge_each_sound (is_good h) (purge_seq s + 1) ts s0 (si_sound _ _ Hs))
    as (c' & ti' & st' & -> & [Hc Hg Ht] & Hpk & Hst).
  { intros k n Hk. pose proof (good_epoch s h k n Hs Hk). lia. }
  eexists. split; [done|]. split; [|split; [done|intros t Htt; cbn; by rewrite Hst, bool_decide_true]].
  destruct Hs as [_ Hall Haseq Hlast Hof Hfl Hstamp]. split; cbn; try done; [|lia| |intros f Hf; specialize (Hof f Hf); lia|lia|].
  - split; [done| |done]. intros k e Hk. specialize (Hg k e Hk). destruct e as [n|st]; [|done].
    destruct Hg as (f & Hf & Hok & Hn & Hid & [Ha Hl]). exists f. split_and!; try done. split; [done|].
    intros t Htt. cbn. case_bool_decide as Hin; [|auto]. exfalso. rewrite Hpk in Hk. unfold without in Hk.
    destruct (existsb _ ts) eqn:Ee; [done|]. apply not_true_iff_false in Ee. apply Ee.
    apply existsb_exists. exists t. split; [by apply list_elem_of_In|].
    change (peek (inner s0) k) with (peek (inner s) k) in Hk |- *. rewrite Hk. cbn.
    destruct (node_of_facts _ _ Hn) as (-> & _). by apply bool_decide_true.
  - intros t. case_bool_decide; [unfold purge_epoch; lia|specialize (Hlast t); lia].
  - intros t e Ho. rewrite Hst. case_bool_decide; [|by apply Hstamp]. intros He. right. by eexists.
Qed.

Lemma purge_all_inv s h :
  store_inv s h →
  ∃ s', purge_all s = Some s' ∧ store_inv s' (note PurgeAll s h) ∧
    (∀ k, peek (inner s') k = (e ← peek (inner s) k; match e with Static _ => Some e | Page _ => None end)) ∧
    purge_all_epoch s' = purge_epoch s + 1.
Proof.
  intros Hs. pose proof (si_sound _ _ Hs) as [Hc Hg _]. unfold purge_all. cbn [inner].
  destruct (purge_pages_sound (is_good h) (is_good (note PurgeAll s h)) (inner s) Hc Hg) as (c' & E & Hsd & Hpk); [done|].
  change (inner (_ <| tag_index := ∅ |>)) with (inner s). rewrite E. cbn [mbind option_bind].
  eexists. split; [done|]. split_and!; try done.
  destruct Hs as [_ Hall Haseq Hlast Hof Hfl Hstamp]. split; cbn; try done; unfold purge_epoch; try lia.
  - intros t. specialize (Hlast t). lia.
  - intros f Hf. specialize (Hof f Hf). lia.
  - intros t e _ He. specialize (Hlast t). left. lia.
Qed.

(** ** The purge clock *)

Lemma begin_render_inv s h e :
  store_inv s h → allowed (BeginRender e) s → store_inv (begin_render e s) h.
Proof.
  intros [? ? ? ? ? ? Hst] [Hlo Hhi]. split; try done. intros t e' Ho. apply Hst.
  destruct Ho as [Ho|Ho]; [by left|]. cbn in Ho. destruct (decide (e' = e)) as [->|Hd]; [by left|].
  rewrite lookup_insert_ne in Ho by done. by right.
Qed.

Lemma end_render_inv s h e : store_inv s h → store_inv (end_render e s) h.
Proof.
  intros Hs. unfold end_render. destruct (active_render_epochs s !! e) as [n|] eqn:En; [|done].
  destruct Hs as [? ? ? ? ? ? Hst]. split; try done. intros t e' Ho. apply Hst.
  destruct Ho as [Ho|Ho]; [by left|]. right. cbn in Ho.
  destruct (decide (e' = e)) as [->|Hd]; [by rewrite En; eexists|].
  destruct (_ =? 0); by rewrite ?lookup_delete_ne, ?lookup_insert_ne in Ho by done.
Qed.

Lemma first_key_least (m : gmap Z Z) e :
  is_Some (m !! e) → ∃ k, first_key m = Some k ∧ k <= e.
Proof.
  intros [n Hn%elem_of_map_to_list]. unfold first_key. revert Hn. generalize (map_to_list m) as l.
  induction l as [|[k v] l IH]; [by intros ?%elem_of_nil|]. intros [[= <- <-]|Hin]%elem_of_cons; cbn [fold_right fst].
  - eexists. split; [done|]. destruct (fold_right _ _ l); cbn; lia.
  - destruct (IH Hin) as (k' & -> & Hle). eexists. split; [done|]. cbn. lia.
Qed.

Lemma prune_inv s h : store_inv s h → store_inv (prune_tag_purge_epoch s) h.
Proof.
  intros [Hsd Ha Has Hl Ho Hf Hst]. unfold prune_tag_purge_epoch. cbn zeta.
  assert (Hst' : ∀ t e, is_Some (active_render_epochs s !! e) → e < last h t → e < last_all h ∨
    ∃ x, filter (fun te : Tag * Z => Is_true ((tag_epoch_prune_floor s <? te.2)
           || from_option (fun e => e <? te.2) false (first_key (active_render_epochs s))))
           (tag_purge_epoch s) !! t = Some x ∧ e < x).
  { intros t e Hac He. destruct (Hst t e (or_intror Hac) He) as [?|(x & Hx & Hlt)]; [by left|right].
    exists x. split; [|done]. apply map_lookup_filter_Some. split; [done|].
    destruct (first_key_least _ _ Hac) as (k & -> & Hk). cbn. apply Is_true_true, orb_true_iff. right.
    apply Z.ltb_lt. lia. }
  destruct (0 <? tag_epoch_prune_floor s); (split; cbn; try done; intros t e [Hfl|Hac] He; cbn in *;
    [specialize (Hl t); lia|]); [by apply Hst'|by apply Hst; [right|]].
Qed.

(** ** Static files *)

Lemma get_static_inv s h vhost path fresh_id :
  store_inv s h →
  ∃ r s', get_static vhost path fresh_id s = Some (r, s') ∧ store_inv s' h ∧
    ∀ st, r = Some st → st ∈ statics h ∧ source_path st = path ∧ file_id st = fresh_id.
Proof.
  intros Hs. pose proof (si_sound _ _ Hs) as Hsd. unfold get_static, cache.with_shard.
  set (id := for_static vhost path).
  destruct (section_sound (is_good h)
    (fun r _ _ => ∀ st, r = Some st → st ∈ statics h ∧ source_path st = path ∧ file_id st = fresh_id)
    (static_locked id path fresh_id) (inner s) (cache.shard_for id) (tag_index s) Hsd
    (shard_some _ _ (sd_cache _ _ _ Hsd))) as (r & m' & h' & c' & -> & Hsd' & _ & HQ & _).
  { intros o cp a m Hin _ _ Ht.
    destruct (static_locked_inside (offers h) (statics h) (last_all h) (last h) o _ cp a m (peek (inner s))
      (tag_index s) id path fresh_id Hin Ht) as (r & a' & m' & ? & ? & ? & ?). by exists r, a', m'. }
  cbn [mbind option_bind]. exists r, (with_inner s c'). split_and!; try done. by apply store_inv_inner.
Qed.

Lemma store_static_inv s h vhost st bytes :
  store_inv s h →
  ∃ b s', store_static vhost (source_path st) (file_id st) bytes (content_type st) (etag st)
            (last_modified st) s = Some (b, s') ∧
    store_inv s' (note (StoreStatic vhost st bytes) s h) ∧
    (b = true → peek (inner s') (for_static vhost (source_path st)) = Some (Static (with_bytes st bytes))).
Proof.
  intros Hs. set (h1 := note (StoreStatic vhost st bytes) s h).
  assert (Hs1 : store_inv s h1).
  { destruct Hs as [Hsd ? ? ? ? ? ?]. split; try done. exact (sound_mono _ _ _ _ (good_statics h _) Hsd). }
  unfold store_static. destruct (max_static_obj_bytes s <? zlen bytes); [exists false, s; by split_and!|].
  pose proof (si_sound _ _ Hs1) as Hsd. cbn zeta. unfold cache.with_shard.
  set (id := for_static vhost (source_path st)).
  destruct (section_sound (is_good h1) (fun b m' _ => b = true → val m' id = Some (Static (with_bytes st bytes)))
    (store_static_locked id (source_path st) (with_bytes st bytes)) (inner s) (cache.shard_for id) (tag_index s) Hsd
    (shard_some _ _ (sd_cache _ _ _ Hsd))) as (b & m' & h' & c' & E & Hsd' & Hpk & HQ & _).
  { intros o cp a m Hin _ _ Ht.
    destruct (store_static_locked_inside (offers h1) (statics h1) (last_all h1) (last h1) o (cache.shard_for id) cp a m
      (peek (inner s)) (tag_index s) vhost (source_path st) (with_bytes st bytes) Hin Ht)
      as (b & a' & m' & ? & ? & ? & ?); [set_solver +|done|]. by exists b, a', m'. }
  unfold with_bytes in E. rewrite E. cbn [mbind option_bind]. exists b, (with_inner s c').
  split_and!; [done|by apply store_inv_inner|]. intros Hb. cbn. rewrite Hpk. unfold glue.
  rewrite decide_True by done. auto.
Qed.

(** ** Every step *)

Lemma new_inv obj static_obj config :
  config_ok config → store_inv (new obj static_obj config) no_history.
Proof.
  intros Hcf. assert (Hno : ∀ k, peek (cache.new config) k = None).
  { intros k. unfold sharded_cache.peek. destruct (cache.shards _ !! _) as [sh|] eqn:E; [|done].
    by apply lookup_replicate in E as [-> _]. }
  split; cbn; try done; [|set_solver|lia]. split; [by apply new_ok|intros k e; by rewrite Hno|].
  intros t id. rewrite Hno. unfold member. rewrite lookup_empty. cbn. set_solver.
Qed.

Lemma exec_inv s h op :
  store_inv s h → allowed op s → ∃ s', exec op s = Some s' ∧ store_inv s' (note op s h).
Proof.
  intros Hs Hal. destruct op as [key ident now|f|key|ts| |now|e|e| |v p fid|v st bytes|v p]; cbn [exec note].
  - destruct (get_entry_inv s h key ident now Hs) as (r & s' & -> & ? & _). eauto.
  - destruct (store_page_inv s h f Hs Hal) as (b & s' & -> & ? & _). eauto.
  - destruct (remove_inv s h (key_id key) Hs) as (c & E & ?). unfold invalidate_key. rewrite E. eauto.
  - destruct (purge_tags_inv s h ts Hs) as (s' & -> & ? & _). eauto.
  - destruct (purge_all_inv s h Hs) as (s' & -> & ? & _). eauto.
  - destruct (sweep_inv s h now Hs) as (n & s' & -> & ?). eauto.
  - eexists. split; [done|]. by apply begin_render_inv.
  - eexists. split; [done|]. by apply end_render_inv.
  - eexists. split; [done|]. by apply prune_inv.
  - destruct (get_static_inv s h v p fid Hs) as (r & s' & -> & ? & _). eauto.
  - destruct (store_static_inv s h v st bytes Hs) as (b & s' & -> & ? & _). eauto.
  - destruct (remove_inv s h (for_static v p) Hs) as (c & E & ?). unfold invalidate_static. rewrite E. eauto.
Qed.

Lemma reachable_inv obj static_obj config s h :
  config_ok config → reachable obj static_obj config s h → store_inv s h.
Proof.
  intros Hcf Hr. induction Hr as [|s h op s' _ IH Hal E]; [by apply new_inv|].
  destruct (exec_inv s h op IH Hal) as (s1 & E1 & Hs1). congruence.
Qed.

End run.
End page_run.
