(* ===== verification/PageStoreTheorems.v ===== *)
(** * What the page cache promises

    Of every store that steps reach from an empty one: no step fails and the tag index is
    exact; a lookup answers only a response that was offered under the very key, not older
    than the last purge of its tags, in the class its age gives; a purge removes exactly the
    pages it names and refuses the renders that began before it; what was stored is what is
    served. *)

From stdpp Require Import base list gmap.
From Stdlib Require Import ZArith Lia.
From S2P Require Import Prelude RustStr HttpUtil ShardLru ShardCache ShardCacheInv.
From S2P Require Import ShardCacheOps ShardCacheMutate ShardCacheStore ShardCacheTheorems.
From S2P Require Import PageMeta PageStore PageStoreInv PageStoreOps PageStorePurge.
From S2P Require Import PageStoreRun.

Import page_meta page_store cache_inv cache_ops cache_mutate cache_store page_inv page_ops page_purge page_run.
#[local] Open Scope record_scope.

Module page_cache.

Section theorems.
Context `{HC : HttpCrate} `{HZ : Zstd} `{HL : !ZstdLaw} `{HW : Weights}.

Abbreviation peek := (@sharded_cache.peek Z CacheEntry _ _ _).
Implicit Types (s : PageStore) (h : History).

(** A refused store changes nothing. *)
Lemma store_refused s key entry e :
  cache_ok (inner s) → purged_after s (tags entry) e = true →
  store_if_not_purged_since key entry e s = Some (false, s).
Proof.
  intros Hc Hp. unfold store_if_not_purged_since, store_if_not_purged_since_hashed.
  destruct (max_obj_bytes s <? body_len (body entry)); [done|]. cbn zeta.
  destruct (from_cached _ _ _) as [node|]; [|done]. rewrite key_id_raw. unfold cache.with_shard, cache.locked.
  destruct (shard_some _ (key_id key) Hc) as [sh Hsh]. rewrite Hsh. cbn [mbind option_bind].
  unfold store_locked. rewrite Hp. cbn [mbind option_bind]. do 2 f_equal.
  unfold cache.leave, cache.enter. cbn. rewrite list_insert_id, app_nil_r by done.
  destruct s as [? ? c ? ? ? ? ? ?]. by destruct c.
Qed.

Lemma stamp_refuses s ts t e x :
  t ∈ ts → tag_purge_epoch s !! t = Some x → e < x → purged_after s ts e = true.
Proof.
  intros Ht Hx He. unfold purged_after. apply orb_true_iff. right. apply existsb_exists. exists t.
  split; [by apply list_elem_of_In|]. rewrite Hx. by apply Z.ltb_lt.
Qed.

Lemma node_of_unique f f' n :
  offer_ok f → offer_ok f' → node_of f n → node_of f' n → o_entry f = o_entry f'.
Proof.
  intros Hf Hf' Hn Hn'. destruct (node_of_build f n Hf Hn) as (n1 & E & _).
  destruct (node_of_build f' n Hf' Hn') as (n2 & E' & _). congruence.
Qed.

Lemma without_page ts (P : Z → option CacheEntry) k :
  without ts P k =
    match P k with
    | Some (Page n) => if bool_decide (Exists (.∈ n_tags n) ts) then None else Some (Page n)
    | e => e
    end.
Proof.
  unfold without. destruct (P k) as [[n|st]|]; cbn; [|by induction ts..].
  enough (existsb (fun t => bool_decide (t ∈ n_tags n)) ts = bool_decide (Exists (.∈ n_tags n) ts)) as -> by done.
  induction ts as [|t ts IH]; [by rewrite bool_decide_false by by intros ?%Exists_nil|]. cbn [existsb]. rewrite IH.
  rewrite <-bool_decide_or. apply bool_decide_ext. by rewrite Exists_cons.
Qed.

(** C7. Whatever stores, purges, renders, sweeps, prunes and lookups came before, a lookup
    in the page store does not fail, and the response it serves was offered under exactly
    the key asked for, has the identity asked for, was rendered no earlier than the last
    purge of any of its tags and the last full purge, and is fresh, stale or error-only as
    its age says. *)
Theorem served_pages_sound obj static_obj config s h key ident now :
  config_ok config → reachable obj static_obj config s h →
  ∃ r s', get_entry key ident now s = Some (r, s') ∧ answer_ok h key ident now r.
Proof.
  intros Hcf Hr. pose proof (reachable_inv _ _ _ _ _ Hcf Hr) as Hs.
  destruct (get_entry_inv s h key ident now Hs) as (r & s' & E & _ & Ha & _). eauto.
Qed.

(** Every step of the page store succeeds, and afterwards a key is under a tag in the
    tag index exactly when the cache holds a page with that tag under that key: evictions,
    replacements, refused stores and purges leave no orphan and lose no membership. *)
Theorem tag_index_exact obj static_obj config s h op :
  config_ok config → reachable obj static_obj config s h → allowed op s →
  ∃ s', exec op s = Some s' ∧
    ∀ t id, id ∈ default ∅ (tag_index s' !! t) ↔
      ∃ n, peek (inner s') id = Some (Page n) ∧ t ∈ n_tags n.
Proof.
  intros Hcf Hr Hal. pose proof (reachable_inv _ _ _ _ _ Hcf Hr) as Hs.
  destruct (exec_inv s h op Hs Hal) as (s' & E & Hs'). exists s'. split; [done|].
  exact (sd_tags _ _ _ (si_sound _ _ Hs')).
Qed.


(** A full purge removes every page and no static file, and from then on refuses every
    store whose render began before it. *)
Theorem purge_all_exact obj static_obj config s h :
  config_ok config → reachable obj static_obj config s h →
  ∃ s', purge_all s = Some s' ∧
    (∀ k, peek (inner s') k =
       match peek (inner s) k with Some (Static st) => Some (Static st) | _ => None end) ∧
    ∀ key entry e, e <= purge_epoch s → store_if_not_purged_since key entry e s' = Some (false, s').
Proof.
  intros Hcf Hr. pose proof (reachable_inv _ _ _ _ _ Hcf Hr) as Hs.
  destruct (purge_all_inv s h Hs) as (s' & E & Hs' & Hpk & Hall). exists s'. split; [done|]. split.
  - intros k. rewrite Hpk. by destruct (peek (inner s) k) as [[]|].
  - intros key entry e He. apply store_refused; [apply (si_sound _ _ Hs')|].
    unfold purged_after. rewrite Hall. apply orb_true_iff. left. apply Z.ltb_lt. lia.
Qed.


Lemma static_found s h vhost st :
  store_inv s h → peek (inner s) (for_static vhost (source_path st)) = Some (Static st) →
  ∀ fid, ∃ s', get_static vhost (source_path st) fid s =
    Some (if bool_decide (file_id st = fid) then Some st else None, s').
Proof.
  intros Hs Hp fid. pose proof (si_sound _ _ Hs) as [Hc Hg Ht].
  unfold get_static, cache.with_shard, cache.locked. set (id := for_static vhost (source_path st)) in *.
  destruct (shard_some _ id Hc) as [sh Hsh]. rewrite Hsh. cbn [mbind option_bind].
  destruct (enter_page _ _ _ _ Hc Hg Hsh) as [Hi Hpk].
  pose proof (tags_exact_ext _ _ _ Hpk Ht) as Ht'. unfold static_locked.
  rewrite (acc_get_inside _ _ _ _ _ _ _ Hi).
  assert (Hv : val (contents sh) id = Some (Static st)).
  { rewrite <-Hp, <-Hpk. unfold glue. by rewrite decide_True. }
  rewrite Hv. cbn [mbind option_bind as_static]. rewrite bytes_eqb_refl. cbn [negb].
  case_bool_decide as Hf; cbn [negb].
  - destruct (touches_inside _ _ _ _ _ _ _ _ _ (peek (inner s)) (tag_index s) id
      (match s_body st with File _ _ _ _ => true | _ => false end) Hi Ht') as (a1 & a2 & -> & E2 & _).
    cbn [mbind option_bind]. rewrite E2. cbn [mbind option_bind]. eauto.
  - destruct (teardown_inside _ _ _ _ _ _ (peek (inner s)) (tag_index s) id lru.Explicit Hi Ht') as (a' & -> & _).
    cbn [mbind option_bind]. eauto.
Qed.

(** A static lookup returns only an entry stored for that path with the file identity
    asked for, and an entry that was stored is found again under its identity and under no
    other. *)
Theorem static_files_sound obj static_obj config s h vhost st bytes :
  config_ok config → reachable obj static_obj config s h →
  (∀ path fid, ∃ r s', get_static vhost path fid s = Some (r, s') ∧
     ∀ st', r = Some st' → st' ∈ statics h ∧ source_path st' = path ∧ file_id st' = fid) ∧
  ∃ b s1, store_static vhost (source_path st) (file_id st) bytes (content_type st) (etag st)
            (last_modified st) s = Some (b, s1) ∧
    (b = true → ∀ fid, ∃ s2, get_static vhost (source_path st) fid s1 =
       Some (if bool_decide (file_id st = fid) then Some (with_bytes st bytes) else None, s2)).
Proof.
  intros Hcf Hr. pose proof (reachable_inv _ _ _ _ _ Hcf Hr) as Hs. split.
  - intros path fid. destruct (get_static_inv s h vhost path fid Hs) as (r & s' & E & _ & Hst). eauto.
  - destruct (store_static_inv s h vhost st bytes Hs) as (b & s1 & E & Hs1 & Hb). exists b, s1. split; [done|].
    intros Hbt fid. exact (static_found s1 _ vhost (with_bytes st bytes) Hs1 (Hb Hbt) fid).
Qed.

Lemma eat_range (x : Z) bytes : 0 <= eat x bytes < 2 ^ 64.
Proof. unfold eat, eat_byte at 1. apply (wrap_range 64). lia. Qed.

Lemma static_bit_range (x : Z) : 0 <= x < 2 ^ 64 → 2 ^ 63 <= Z.lor x (2 ^ 63) < 2 ^ 64.
Proof.
  intros Hx. assert (E : Z.lor x (2 ^ 63) / 2 ^ 63 = 1).
  { rewrite <-Z.shiftr_div_pow2, Z.shiftr_lor, !Z.shiftr_div_pow2 by lia.
    assert (x / 2 ^ 63 = 0 ∨ x / 2 ^ 63 = 1) as [-> | ->]; [|done|done].
    pose proof (Z.div_lt_upper_bound x (2 ^ 63) 2). pose proof (Z.div_pos x (2 ^ 63)). lia. }
  pose proof (Z.div_mod (Z.lor x (2 ^ 63)) (2 ^ 63)). pose proof (Z.mod_pos_bound (Z.lor x (2 ^ 63)) (2 ^ 63)). lia.
Qed.

(** C40. The id of a page has the top bit clear, that of a static file has it set, neither
    is the terminator of the intrusive lists, and both select one of the 256 shards. *)
Theorem cache_ids_typed key vhost path :
  0 <= key_id key < 2 ^ 63 ∧ 2 ^ 63 <= for_static vhost path < NIL ∧
  (cache.shard_for (key_id key) < 256)%nat ∧ (cache.shard_for (for_static vhost path) < 256)%nat.
Proof.
  split; [apply key_id_range|]. split.
  - unfold for_static, NIL. cbn zeta. cbn [fold_left].
    pose proof (static_bit_range _ (eat_range (eat FNV_OFFSET (to_le_bytes 4 vhost)) path)) as Hr.
    destruct (Z.eqb_spec (Z.lor (eat (eat FNV_OFFSET (to_le_bytes 4 vhost)) path) (2 ^ 63)) U64_MAX);
      unfold U64_MAX in *; lia.
  - unfold cache.shard_for. split; match goal with |- (Z.to_nat (lru.shard_index ?k _) < _)%nat =>
      pose proof (shard_index_ok k) as Hk end; unfold cache.SHARDS in *; lia.
Qed.

(** A metadata blob decodes to the key and, with the fields kept beside it, to exactly
    the response it was encoded from. *)
Theorem page_metadata_roundtrip key entry m :
  key_ok key → entry_ok entry → encode key entry = Ok m →
  ∃ d, decode m = Ok d ∧ d_key d = key ∧
    to_cached_response d (body entry) (variants entry) (variants_filled entry) (dict_gen entry)
      (stored_at entry) (ttl entry) (swr entry) (sie entry) = entry.
Proof.
  intros Hk He Em. exists (decoded_of key entry). split; [by apply meta_decode_encode|].
  split; [done|]. by destruct entry.
Qed.

End theorems.

(** ** A concrete store *)

Module example.

#[export] Instance zstd_stored : Zstd :=
  {| compress := fun raw => Some raw; decompress := fun c _ => Some c |}.

#[export] Instance zstd_stored_law : ZstdLaw.
Proof. by intros raw c [= <-]. Qed.

#[export] Instance weights : Weights :=
  {| node_ram_weight := fun n => N.of_nat (length (compressed (meta n)));
     static_ram_weight := fun s => match s_body s with InMem b => N.of_nat (length b) | _ => 0%N end |}.

#[export] Existing Instance http_util.http_ascii.

Definition config : cache.ShardCacheConfig := {| cache.max_ram_bytes := 100000; cache.max_disk_bytes := 0 |}.

Definition key : PageCacheKey :=
  {| vhost_id := 1; secure := true; host := [97]; path := [47]; normalized_query := [];
     key_vary_value := []; private_owner := 0 |}.

Definition response : CachedResponse :=
  {| status := 200; identity := []; headers := []; body := InMem [104; 105]; variants := [];
     variants_filled := false; dict_gen := 0; tags := [[112]; [113]]; vary_cookie_name := [];
     vary_value := []; scope := Public; stored_at := 10; ttl := 60; swr := 0; sie := 0 |}.

Definition offer : Offer := {| o_key := key; o_entry := response; o_epoch := 0 |}.

Definition file : StaticNode :=
  {| source_path := [47; 97]; file_id := {| size := 1; mtime_secs := 2; mtime_nanos := 3; inode := 4 |};
     content_type := []; etag := []; last_modified := []; s_body := InMem [7] |}.

Lemma example_config_ok : config_ok config.
Proof. unfold config_ok, U64_MAX. cbn. lia. Qed.

Lemma offer_is_ok : offer_ok offer.
Proof.
  split; split; cbn; try lia; try done.
  - by repeat apply Forall_cons_2.
  - by repeat apply Forall_cons_2.
Qed.

Definition empty : PageStore := new 1000 1000 config.

Lemma empty_reachable : reachable 1000 1000 config empty no_history.
Proof. constructor. Qed.

Lemma store_allowed : allowed (Store offer) empty.
Proof. split; [apply offer_is_ok|]. split; [done|by left]. Qed.

(** The store with the page in it. *)
Definition primed : PageStore := default empty (exec (Store offer) empty).

Lemma primed_reachable : reachable 1000 1000 config primed (note (Store offer) empty no_history).
Proof.
  econstructor; [apply empty_reachable|apply store_allowed|].
  destruct (exec_inv empty no_history (Store offer)) as (s' & E & _);
    [apply new_inv, example_config_ok|apply store_allowed|]. unfold primed. by rewrite E.
Qed.

End example.

Import example.

Lemma served_pages_sound_witness :
  ∃ r s', get_entry key [] 20 primed = Some (r, s').
Proof.
  destruct (served_pages_sound 1000 1000 config primed _ key [] 20 example_config_ok primed_reachable)
    as (r & s' & E & _). eauto.
Defined.

Lemma tag_index_exact_witness : ∃ s', exec (PurgeTags [[112]]) primed = Some s'.
Proof.
  destruct (tag_index_exact 1000 1000 config primed _ (PurgeTags [[112]]) example_config_ok primed_reachable)
    as (s' & E & _); [done|]. eauto.
Defined.


Lemma purge_all_exact_witness :
  ∃ s', purge_all primed = Some s' ∧ store_if_not_purged_since key response 0 s' = Some (false, s').
Proof.
  destruct (purge_all_exact 1000 1000 config primed _ example_config_ok primed_reachable)
    as (s' & E & _ & Hno). exists s'. split; [done|]. apply Hno. by vm_compute.
Defined.


Lemma static_files_sound_witness :
  ∃ b s1, store_static 1 (source_path file) (file_id file) [7] [] [] [] primed = Some (b, s1).
Proof.
  destruct (static_files_sound 1000 1000 config primed _ 1 file [7] example_config_ok primed_reachable)
    as (_ & b & s1 & E & _). eauto.
Defined.

Lemma page_metadata_roundtrip_witness :
  ∃ m d, encode key response = Ok m ∧ decode m = Ok d ∧ d_key d = key.
Proof.
  destruct (encode key response) as [m|] eqn:E; [|by vm_compute in E].
  destruct (page_metadata_roundtrip key response m) as (d & Ed & Hk & _);
    [apply offer_is_ok|apply offer_is_ok|done|]. eauto.
Defined.
End page_cache.
