(* ===== verification/H1Codec.v ===== *)
(** * HTTP/1.1 request framing: [crates/httpjet/src/uring/codec.rs]

    The body framing of a request head, and the resumable decoder of chunked bodies over a
    growing buffer. Offsets and lengths are [usize]; a buffer is shorter than 2^64 - 1. A
    step of the decoder loop moves the cursor or parses the line at it, so twice the buffer
    and two more turns are enough. *)

From stdpp Require Import base list strings.
From Stdlib Require Import ZArith Lia.
From S2P Require Import Prelude RustStr.

#[local] Open Scope record_scope.

Module codec.

Definition MAX_REQUEST_HEADERS : nat := 100.

(** What [httparse] reports of a buffer, without the head itself. *)
Inductive HeadStatus : Type := Complete (head_len : Z) | Partial | TooManyHeaders | OtherError.

Inductive RequestHeadProgress : Type :=
| HeadComplete (head_len : Z)
| HeadPartial
| HeadTooLarge
| HeadBad.

Definition request_head_progress (parsed : HeadStatus) (buffered max_head : Z) : RequestHeadProgress :=
  match parsed with
  | Complete head_len => if max_head <? head_len then HeadTooLarge else HeadComplete head_len
  | Partial => if max_head <? buffered then HeadTooLarge else HeadPartial
  | TooManyHeaders => HeadTooLarge
  | OtherError => HeadBad
  end.

Inductive BodyFraming : Type := Length (n : Z) | Chunked | Reject.

Definition MAX_BRIDGED_CHUNKED_BODY : Z := 256 * 1024 * 1024.
Definition MAX_CHUNKED_RAW : Z := MAX_BRIDGED_CHUNKED_BODY + 2 ^ 20.
Definition MAX_CHUNK_LINE : Z := 8 * 1024.

Definition is_ows (b : Z) : bool := (b =? 0x20) || (b =? 0x09).

Fixpoint leading_ows (v : list Z) : Z :=
  match v with
  | b :: v => if is_ows b then 1 + leading_ows v else 0
  | [] => 0
  end.

Definition trailing_ows (v : list Z) : Z := leading_ows (rev v).

(** [buf[from..to]] *)
Definition slice (from to : Z) (buf : list Z) : list Z :=
  take (Z.to_nat (to - from)) (drop (Z.to_nat from) buf).

Definition te_is_chunked (value : list Z) : bool :=
  let start := leading_ows value in
  let end_ := zlen value - trailing_ows value in
  if end_ <? start then false
  else eq_ignore_ascii_case (slice start end_ value) (bs "chunked").

(** [trim_matches([' ', '\t'])] *)
Definition trim_ows (s : list Z) : list Z := trim_end_matches is_ows (drop_while is_ows s).

Definition parse_length (v : list Z) : option Z :=
  if utf8_valid v then
    let s := trim_ows v in
    if negb (bool_decide (s = [])) && forallb is_ascii_digit s then parse_u64 s else None
  else None.

Fixpoint resolve_loop (values : list (list Z)) (out : option Z) : option (option Z) :=
  match values with
  | [] => Some out
  | v :: values =>
      match parse_length v with
      | None => None
      | Some parsed =>
          match out with
          | Some prev => if negb (prev =? parsed) then None else resolve_loop values (Some parsed)
          | None => resolve_loop values (Some parsed)
          end
      end
  end.

(** [None] is [Err(())]. *)
Definition resolve_content_length (values : list (list Z)) : option (option Z) :=
  resolve_loop values None.

Definition classify_framing (cl_values : list (list Z)) (chunked te_other : bool) : BodyFraming :=
  match resolve_content_length cl_values with
  | None => Reject
  | Some cl =>
      let saw_cl := bool_decide (is_Some cl) in
      if te_other || (chunked && saw_cl) then Reject
      else if chunked then Chunked
      else Length (default 0 cl)
  end.

(** ** Lines *)

Fixpoint find_crlf (l : list Z) : option Z :=
  match l with
  | [] => None
  | b :: l =>
      if (b =? 0x0d) && match l with c :: _ => c =? 0x0a | [] => false end then Some 0
      else Z.add 1 <$> find_crlf l
  end.

Definition find_crlf_from (buf : list Z) (from : Z) : option Z :=
  if zlen buf <? from then None else Z.add from <$> find_crlf (drop (Z.to_nat from) buf).

Definition framing_line_clean (line : list Z) : bool :=
  forallb (fun b => (b =? 0x09) || ((0x20 <=? b) && negb (b =? 0x7f))) line.

Definition trailer_line_valid (line : list Z) : bool :=
  match split_once 0x3a line with
  | None => false
  | Some (name, _) =>
      negb (bool_decide (name = []))
      && forallb (fun b => is_ascii_alphanumeric b || contains (bs "!#$%&'*+-.^_`|~") b) name
      && framing_line_clean line
  end.

Definition parse_chunk_size (line : list Z) : option Z :=
  if negb (framing_line_clean line) then None
  else
    let hex := default line (head (split 0x3b line)) in
    let trimmed := trim_ows hex in
    if bool_decide (trimmed = []) || negb (forallb is_ascii_hexdigit trimmed) then None
    else parse_hex U64_MAX trimmed.

Definition chunked_accounted_bytes (decoded acc_len head_len : Z) : Z :=
  decoded + saturating_sub acc_len head_len.

(** ** The chunked decoder *)

Inductive ChunkStep : Type := Done (end_ : Z) | NeedMore | Bad.

Record ChunkedDecoder : Type := {
  body : list Z;
  pos : Z;
  scan : Z;
  pending : option (Z * Z);
  in_trailers : bool;
  start : Z;
  max_body : Z;
  max_raw : Z;
  too_large : bool;
}.

#[export] Instance ChunkedDecoder_eta : Eta ChunkedDecoder := fun r =>
  {| body := body r; pos := pos r; scan := scan r; pending := pending r;
     in_trailers := in_trailers r; start := start r; max_body := max_body r;
     max_raw := max_raw r; too_large := too_large r |}.
#[export] Instance set_body : Setter body := ltac:(derive_setter).
#[export] Instance set_pos : Setter pos := ltac:(derive_setter).
#[export] Instance set_scan : Setter scan := ltac:(derive_setter).
#[export] Instance set_pending : Setter pending := ltac:(derive_setter).
#[export] Instance set_in_trailers : Setter in_trailers := ltac:(derive_setter).
#[export] Instance set_max_body : Setter max_body := ltac:(derive_setter).
#[export] Instance set_max_raw : Setter max_raw := ltac:(derive_setter).
#[export] Instance set_too_large : Setter too_large := ltac:(derive_setter).

Definition new (start : Z) : ChunkedDecoder :=
  {| body := []; pos := start; scan := start; pending := None; in_trailers := false;
     start := start; max_body := MAX_BRIDGED_CHUNKED_BODY; max_raw := MAX_CHUNKED_RAW;
     too_large := false |}.

(** The decoder, and the end of the line or the length buffered of it. *)
Definition next_line_end (buf : list Z) (d : ChunkedDecoder) : ChunkedDecoder * (Z + Z) :=
  match find_crlf_from buf (Z.max (scan d) (pos d)) with
  | Some cr => (d, inl cr)
  | None =>
      (d <| scan := Z.max (saturating_sub (zlen buf) 1) (pos d) |>,
       inr (saturating_sub (zlen buf) (pos d)))
  end.

Definition unterminated (buf : list Z) (line_len : Z) (d : ChunkedDecoder) : ChunkStep :=
  if (MAX_CHUNK_LINE <? line_len) || (max_raw d <? saturating_sub (zlen buf) (start d)) then Bad
  else NeedMore.

Fixpoint advance_loop (fuel : nat) (buf : list Z) (d : ChunkedDecoder)
    : option (ChunkStep * ChunkedDecoder) :=
  match fuel with
  | O => None
  | S fuel =>
      match pending d with
      | Some (data_start, size) =>
          let need := saturating_add (saturating_add data_start size) 2 in
          if zlen buf <? need then Some (NeedMore, d)
          else if negb (bytes_eqb (slice (data_start + size) need buf) [0x0d; 0x0a]) then Some (Bad, d)
          else
            advance_loop fuel buf
              (d <| body := body d ++ slice data_start (data_start + size) buf |>
                 <| pending := None |> <| pos := need |>)
      | None =>
          let '(d, line) := next_line_end buf d in
          if in_trailers d then
            match line with
            | inr line_len => Some (unterminated buf line_len d, d)
            | inl line_end =>
                let next := line_end + 2 in
                if max_raw d <? saturating_sub next (start d) then Some (Bad, d)
                else if line_end =? pos d then Some (Done next, d)
                else if negb (trailer_line_valid (slice (pos d) line_end buf)) then Some (Bad, d)
                else advance_loop fuel buf (d <| pos := next |>)
            end
          else
            match line with
            | inr line_len => Some (unterminated buf line_len d, d)
            | inl line_end =>
                let data_start := line_end + 2 in
                if max_raw d <? saturating_sub data_start (start d) then Some (Bad, d)
                else
                  match parse_chunk_size (slice (pos d) line_end buf) with
                  | None => Some (Bad, d)
                  | Some size =>
                      if size =? 0 then
                        advance_loop fuel buf (d <| pos := data_start |> <| in_trailers := true |>)
                      else if max_body d <? saturating_add (zlen (body d)) size then
                        Some (Bad, d <| too_large := true |>)
                      else
                        let need := saturating_add (saturating_add data_start size) 2 in
                        if max_raw d <? saturating_sub need (start d) then Some (Bad, d)
                        else advance_loop fuel buf (d <| pending := Some (data_start, size) |>)
                  end
            end
      end
  end.

Definition advance (buf : list Z) (d : ChunkedDecoder) : option (ChunkStep * ChunkedDecoder) :=
  advance_loop (2 * length buf + 2) buf d.

Definition head_has_bare_lf (head : list Z) : bool :=
  let fix go (prev : option Z) (l : list Z) :=
    match l with
    | [] => false
    | b :: l => ((b =? 0x0a) && negb (bool_decide (prev = Some 0x0d))) || go (Some b) l
    end in
  go None head.

End codec.
