(* ===== verification/H1Chunked.v ===== *)
(** * The chunked decoder against the grammar of RFC 9112

    [chunked wire body] is the grammar of section 7.1: chunks of a size line and as much
    data, a last chunk, trailer lines and an empty line. Whatever the reads, the decoder
    accepts only octets of the grammar, and accepts all of it within its limits. *)

From stdpp Require Import base list strings.
From Stdlib Require Import ZArith Lia.
From S2P Require Import Prelude RustStr H1Codec.

Import codec.
#[local] Open Scope record_scope.

Module chunked_body.

(** [line] bounds the lines. *)
Inductive trailers (line : list Z → Prop) : list Z → Prop :=
| tr_end : trailers line CRLF
| tr_line t w :
    trailer_line_valid t = true → line t → trailers line w → trailers line (t ++ CRLF ++ w).

Inductive chunked (line : list Z → Prop) : list Z → list Z → Prop :=
| ck_last l w :
    parse_chunk_size l = Some 0 → line l → trailers line w → chunked line (l ++ CRLF ++ w) []
| ck_data l n data w b :
    parse_chunk_size l = Some n → line l → 0 < n → zlen data = n → chunked line w b →
    chunked line (l ++ CRLF ++ data ++ CRLF ++ w) (data ++ b).

(** ** Lines *)

Definition clean (l : list Z) : Prop := framing_line_clean l = true.

Lemma clean_cons b l : clean (b :: l) → b ≠ 0x0d ∧ clean l.
Proof.
  unfold clean, framing_line_clean. cbn [forallb]. intros [Hb Hl]%andb_true_iff. split; [|done].
  intros ->. done.
Qed.

Lemma chunk_line_clean l n : parse_chunk_size l = Some n → clean l.
Proof. unfold parse_chunk_size, clean. by destruct (framing_line_clean l). Qed.

Lemma trailer_line_clean l : trailer_line_valid l = true → clean l ∧ l ≠ [].
Proof.
  unfold trailer_line_valid, clean. destruct (split_once 0x3a l) as [[x y]|] eqn:E; [|done].
  intros [_ Hc]%andb_true_iff. split; [done|]. by intros ->.
Qed.

Lemma parse_chunk_size_range l n : parse_chunk_size l = Some n → 0 <= n <= U64_MAX.
Proof.
  unfold parse_chunk_size. destruct (framing_line_clean l); [|done]. cbn [negb].
  destruct (bool_decide _ || _); [done|]. apply parse_hex_range. done.
Qed.

Lemma find_crlf_clean l x : clean l → find_crlf (l ++ CRLF ++ x) = Some (zlen l).
Proof.
  induction l as [|b l IH]; [done|]. intros [Hb Hl]%clean_cons. cbn [app find_crlf].
  rewrite (proj2 (Z.eqb_neq _ _) Hb). cbn [andb]. fold (app l (CRLF ++ x)). rewrite (IH Hl). cbn.
  by rewrite zlen_cons.
Qed.

(** A line whose end has not arrived. *)
Lemma find_crlf_cut l x j :
  clean l → (j < length l + 2)%nat → find_crlf (take j (l ++ CRLF ++ x)) = None.
Proof.
  revert j. induction l as [|b l IH]; intros j Hl Hj.
  - cbn in Hj. destruct j as [|[|j]]; [done|done|lia].
  - apply clean_cons in Hl as [Hb Hl]. destruct j as [|j]; [done|]. cbn [app take find_crlf].
    rewrite (proj2 (Z.eqb_neq _ _) Hb). cbn [andb]. fold (app l (CRLF ++ x)).
    rewrite IH; [done|done|cbn in Hj; lia].
Qed.

Lemma find_crlf_some l k :
  find_crlf l = Some k → 0 <= k ∧ ∃ x, l = take (Z.to_nat k) l ++ CRLF ++ x ∧ zlen (take (Z.to_nat k) l) = k.
Proof.
  revert k. induction l as [|b l IH]; intros k; cbn [find_crlf]; [done|].
  destruct ((b =? 0x0d) && _) eqn:E.
  - intros [= <-]. apply andb_true_iff in E as [->%Z.eqb_eq E]. destruct l as [|c l]; [done|].
    apply Z.eqb_eq in E as ->. split; [lia|]. by exists l.
  - destruct (find_crlf l) as [j|]; [|done]. cbn. intros [= <-]. destruct (IH j eq_refl) as (Hj & x & Hx & Hl).
    split; [lia|]. exists x. replace (Z.to_nat (1 + j)) with (S (Z.to_nat j)) by lia. cbn [take].
    rewrite zlen_cons, Hl. split; [|done]. by rewrite Hx at 1.
Qed.

(** A part without a line end may be skipped. *)
Lemma find_crlf_skip a b :
  find_crlf (a ++ take 1 b) = None → find_crlf (a ++ b) = Z.add (zlen a) <$> find_crlf b.
Proof.
  induction a as [|x a IH]; intros Hn.
  - cbn. by destruct (find_crlf b) as [j|].
  - cbn [app find_crlf] in Hn |- *.
    assert (Hh : match a ++ b with c :: _ => c =? 0x0a | [] => false end
      = match a ++ take 1 b with c :: _ => c =? 0x0a | [] => false end) by (destruct a; [by destruct b|done]).
    rewrite Hh. destruct ((x =? 0x0d) && _); [done|].
    rewrite IH by (by destruct (find_crlf (a ++ take 1 b))). destruct (find_crlf b) as [j|]; [|done].
    cbn. f_equal. rewrite zlen_cons. lia.
Qed.

Lemma line_unique l l' x x' :
  clean l → clean l' → l ++ CRLF ++ x = l' ++ CRLF ++ x' → l = l' ∧ x = x'.
Proof.
  intros Hl Hl' E. pose proof (find_crlf_clean l x Hl) as H1. pose proof (find_crlf_clean l' x' Hl') as H2.
  rewrite E, H2 in H1. injection H1 as H1. apply app_inj_1 in E as [-> E]; [|unfold zlen in H1; lia].
  by apply app_inv_head in E.
Qed.

(** ** The grammar is unambiguous *)

Lemma trailers_unique L L' w w' t t' :
  trailers L w → trailers L' w' → w ++ t = w' ++ t' → w = w' ∧ t = t'.
Proof.
  intros Hw. revert w' t t'. induction Hw as [|l w Hl _ _ IH]; intros w' t t' [|l' w1 Hl' _ Hw1] E.
  - by apply app_inv_head in E.
  - rewrite <-!app_assoc in E. apply trailer_line_clean in Hl' as [Hc Hn].
    by apply (line_unique [] l') in E as [<- _].
  - rewrite <-!app_assoc in E. apply trailer_line_clean in Hl as [Hc Hn].
    by apply (line_unique l []) in E as [-> _].
  - rewrite <-!app_assoc in E. apply trailer_line_clean in Hl as [Hc _]. apply trailer_line_clean in Hl' as [Hc' _].
    apply line_unique in E as [-> E]; [|done..]. by apply (IH w1) in E as [-> ->].
Qed.

Lemma chunked_unique L L' w w' b b' t t' :
  chunked L w b → chunked L' w' b' → w ++ t = w' ++ t' → w = w' ∧ b = b' ∧ t = t'.
Proof.
  intros Hw. revert w' b' t t'.
  induction Hw as [l w Hl _ Hw|l n data w b Hl _ Hn Hd _ IH];
    intros w' b' t t' [l' w1 Hl' _ Hw1|l' n' data' w1 b1 Hl' _ Hn' Hd' Hw1] E;
    rewrite <-!app_assoc in E;
    (apply line_unique in E as [-> E]; [|by eapply chunk_line_clean..]); rewrite Hl in Hl'.
  - by apply (trailers_unique _ _ _ _ _ _ Hw Hw1) in E as [-> ->].
  - injection Hl' as El. lia.
  - injection Hl' as El. lia.
  - injection Hl' as El. apply app_inj_1 in E as [-> E]; [|unfold zlen in *; lia]. apply app_inv_head in E.
    by apply (IH w1 b1) in E as (-> & -> & ->).
Qed.

(** ** Slices *)

Lemma slice_app_l from to a b : 0 <= from → to <= zlen a → slice from to (a ++ b) = slice from to a.
Proof.
  intros Hf Ht. unfold slice. destruct (Z.le_gt_cases to from).
  { by replace (Z.to_nat (to - from)) with 0%nat by lia. }
  unfold zlen in Ht. rewrite drop_app_le by lia. rewrite take_app_le; [done|]. rewrite length_drop. lia.
Qed.

Lemma slice_snoc from mid to buf :
  0 <= from <= mid → mid <= to → slice from mid buf ++ slice mid to buf = slice from to buf.
Proof.
  intros Hf Hm. unfold slice.
  replace (Z.to_nat mid) with (Z.to_nat from + Z.to_nat (mid - from))%nat by lia.
  rewrite <-drop_drop. replace (Z.to_nat (to - from)) with (Z.to_nat (mid - from) + Z.to_nat (to - mid))%nat by lia.
  apply take_take_drop.
Qed.

Lemma slice_length from to buf : 0 <= from <= to → to <= zlen buf → zlen (slice from to buf) = to - from.
Proof. intros. unfold slice. rewrite zlen_take, zlen_drop. lia. Qed.

(** What follows the cursor, cut where it is found. *)
Lemma slice_drop from n buf x y :
  0 <= from → drop (Z.to_nat from) buf = x ++ y → zlen x = n → slice from (from + n) buf = x.
Proof.
  intros Hf E Hn. unfold slice. rewrite E. replace (Z.to_nat (from + n - from)) with (length x) by (unfold zlen in *; lia).
  by rewrite take_app_length.
Qed.

(** ** The cursor *)

Definition rest (d : ChunkedDecoder) (buf : list Z) : list Z := drop (Z.to_nat (pos d)) buf.

(** The cursor is in the buffer, and no line end starts between it and the resume point. *)
Record cursor (d : ChunkedDecoder) (buf : list Z) : Prop := {
  cursor_range : 0 <= start d <= pos d ∧ pos d <= zlen buf;
  cursor_scan : pos d < scan d →
    scan d < zlen buf ∧ find_crlf (slice (pos d) (scan d + 1) buf) = None;
}.

Lemma cursor_new n buf : 0 <= n <= zlen buf → cursor (new n) buf.
Proof. intros. split; cbn; lia. Qed.

Lemma cursor_more d buf more : cursor d buf → cursor d (buf ++ more).
Proof.
  intros [Hr Hs]. assert (0 <= zlen more) by apply zlen_nonneg. split; [rewrite zlen_app; lia|].
  intros Hlt. apply Hs in Hlt as [Hl Hn]. rewrite zlen_app. split; [lia|]. rewrite slice_app_l by lia. done.
Qed.

Lemma rest_more d buf more : cursor d buf → rest d (buf ++ more) = rest d buf ++ more.
Proof. intros [Hr _]. unfold rest. rewrite drop_app_le; [done|]. unfold zlen in Hr. lia. Qed.

Lemma find_crlf_at d buf :
  cursor d buf →
  find_crlf_from buf (Z.max (scan d) (pos d)) = Z.add (pos d) <$> find_crlf (rest d buf).
Proof.
  intros [Hr Hs]. unfold find_crlf_from. destruct (Z.le_gt_cases (scan d) (pos d)) as [Hle|Hgt].
  { rewrite Z.max_r by lia. by rewrite (proj2 (Z.ltb_ge _ _)) by lia. }
  destruct (Hs Hgt) as [Hl Hn]. rewrite Z.max_l by lia.
  rewrite (proj2 (Z.ltb_ge _ _)) by lia.
  assert (Hsp : rest d buf = slice (pos d) (scan d) buf ++ drop (Z.to_nat (scan d)) buf).
  { unfold rest, slice. rewrite <-(take_drop (Z.to_nat (scan d - pos d)) (drop (Z.to_nat (pos d)) buf)) at 1.
    rewrite drop_drop. do 2 f_equal. lia. }
  rewrite Hsp, find_crlf_skip.
  - rewrite slice_length by lia. destruct (find_crlf (drop (Z.to_nat (scan d)) buf)); [|reflexivity]. cbn. f_equal. lia.
  - rewrite <-Hn. rewrite <-(slice_snoc (pos d) (scan d) (scan d + 1)) by lia. do 2 f_equal.
    unfold slice. f_equal. lia.
Qed.

Definition unfound (d : ChunkedDecoder) (buf : list Z) : ChunkedDecoder :=
  d <| scan := Z.max (saturating_sub (zlen buf) 1) (pos d) |>.

Lemma next_line d buf :
  cursor d buf →
  next_line_end buf d = match find_crlf (rest d buf) with
                        | Some k => (d, inl (pos d + k))
                        | None => (unfound d buf, inr (zlen buf - pos d))
                        end.
Proof.
  intros Hc. unfold next_line_end. rewrite find_crlf_at by done.
  destruct (find_crlf (rest d buf)); [done|]. cbn. unfold unfound. do 2 f_equal.
  destruct Hc as [Hr _]. unfold saturating_sub. lia.
Qed.

Lemma cursor_unfound d buf : cursor d buf → find_crlf (rest d buf) = None → cursor (unfound d buf) buf.
Proof.
  intros [Hr Hs] Hn. split; cbn; [done|]. unfold saturating_sub. intros Hlt.
  rewrite Z.max_l by lia. split; [lia|]. rewrite <-Hn. f_equal. unfold slice, rest.
  rewrite take_ge; [done|]. rewrite length_drop. unfold zlen in *. lia.
Qed.

(** ** One turn of the loop *)

Definition turn (buf : list Z) (d : ChunkedDecoder) : (ChunkStep * ChunkedDecoder) + ChunkedDecoder :=
  match pending d with
  | Some (data_start, size) =>
      let need := saturating_add (saturating_add data_start size) 2 in
      if zlen buf <? need then inl (NeedMore, d)
      else if negb (bytes_eqb (slice (data_start + size) need buf) CRLF) then inl (Bad, d)
      else inr (d <| body := body d ++ slice data_start (data_start + size) buf |>
                  <| pending := None |> <| pos := need |>)
  | None =>
      match next_line_end buf d with
      | (d, inr line_len) => inl (unterminated buf line_len d, d)
      | (d, inl line_end) =>
          let next := line_end + 2 in
          let line := slice (pos d) line_end buf in
          if max_raw d <? saturating_sub next (start d) then inl (Bad, d)
          else if in_trailers d then
            if line_end =? pos d then inl (Done next, d)
            else if negb (trailer_line_valid line) then inl (Bad, d)
            else inr (d <| pos := next |>)
          else
            match parse_chunk_size line with
            | None => inl (Bad, d)
            | Some size =>
                let need := saturating_add (saturating_add next size) 2 in
                if size =? 0 then inr (d <| pos := next |> <| in_trailers := true |>)
                else if max_body d <? saturating_add (zlen (body d)) size then
                  inl (Bad, d <| too_large := true |>)
                else if max_raw d <? saturating_sub need (start d) then inl (Bad, d)
                else inr (d <| pending := Some (next, size) |>)
            end
      end
  end.

Lemma advance_loop_turn fuel buf d :
  advance_loop (S fuel) buf d = match turn buf d with
                                | inl r => Some r
                                | inr d => advance_loop fuel buf d
                                end.
Proof.
  cbn [advance_loop]. unfold turn. destruct (pending d) as [[ds n]|].
  { destruct (zlen buf <? _); [done|]. fold CRLF. by destruct (negb _). }
  destruct (next_line_end buf d) as [d1 [e|n]]; [|by destruct (in_trailers d1)].
  destruct (in_trailers d1).
  - destruct (max_raw d1 <? _); [done|]. destruct (e =? pos d1); [done|]. by destruct (negb _).
  - destruct (max_raw d1 <? _); [done|]. destruct (parse_chunk_size _) as [n|]; [|done].
    destruct (n =? 0); [done|]. destruct (max_body d1 <? _); [done|]. by destruct (max_raw d1 <? _).
Qed.

(** ** What has been read so far *)

Definition any (_ : list Z) : Prop := True.

(** Every completion of the octets before the cursor is a completion of the body. *)
Record decoding (d : ChunkedDecoder) (buf : list Z) : Prop := {
  dec_cursor : cursor d buf;
  dec_size : zlen (body d) <= max_body d ∧ zlen (body d) <= pos d - start d;
  dec_pending ds n : pending d = Some (ds, n) →
    in_trailers d = false ∧ 0 < n ∧ saturating_add (zlen (body d)) n <= max_body d ∧
    ∃ l x, rest d buf = l ++ CRLF ++ x ∧ ds = pos d + zlen l + 2 ∧ parse_chunk_size l = Some n;
  dec_chunks w b : in_trailers d = false →
    chunked any w b → chunked any (slice (start d) (pos d) buf ++ w) (body d ++ b);
  dec_trailers w : in_trailers d = true →
    trailers any w → chunked any (slice (start d) (pos d) buf ++ w) (body d);
}.

Lemma decoding_new n buf : 0 <= n <= zlen buf → decoding (new n) buf.
Proof.
  intros Hn. split.
  - by apply cursor_new.
  - cbn. unfold zlen, MAX_BRIDGED_CHUNKED_BODY. cbn. lia.
  - intros ds k H. discriminate H.
  - intros w b _ Hw. cbn. unfold slice. by rewrite Z.sub_diag.
  - intros w H. discriminate H.
Qed.

Lemma decoding_more d buf more : decoding d buf → decoding d (buf ++ more).
Proof.
  intros [Hc Hz Hp Hk Ht]. pose proof (cursor_range _ _ Hc) as Hr. split.
  - by apply cursor_more.
  - done.
  - intros ds n Hd. destruct (Hp ds n Hd) as (Ht' & Hn & Hm & l & x & Hx & E & Hl). split_and!; [done..|].
    exists l, (x ++ more). rewrite rest_more, Hx by done. by rewrite <-!app_assoc.
  - intros w b. rewrite slice_app_l by lia. apply Hk.
  - intros w. rewrite slice_app_l by lia. apply Ht.
Qed.

(** The cursor moved over [x]. *)
Lemma rest_moved d d' buf x y :
  cursor d buf → rest d buf = x ++ y → pos d' = pos d + zlen x → start d' = start d → scan d' = scan d →
  scan d <= pos d' → cursor d' buf ∧ rest d' buf = y ∧
  slice (start d') (pos d') buf = slice (start d) (pos d) buf ++ x.
Proof.
  intros [Hr Hs] E Hp Est Esc Hle. assert (0 <= zlen x) by apply zlen_nonneg. unfold rest in *.
  assert (Hlen : zlen (drop (Z.to_nat (pos d)) buf) = zlen x + zlen y) by (rewrite E; apply zlen_app).
  rewrite zlen_drop in Hlen. assert (0 <= zlen y) by apply zlen_nonneg. split_and!.
  - split; lia.
  - rewrite Hp. replace (Z.to_nat (pos d + zlen x)) with (Z.to_nat (pos d) + length x)%nat by (unfold zlen; lia).
    rewrite <-drop_drop, E. apply drop_app_length.
  - rewrite Est, <-(slice_snoc (start d) (pos d)) by lia. f_equal. rewrite Hp. by eapply slice_drop; [lia|..].
Qed.

Lemma scan_before d buf k : cursor d buf → find_crlf (rest d buf) = Some k → scan d <= pos d + k.
Proof.
  intros Hc Hk. pose proof (find_crlf_at d buf Hc) as H. rewrite Hk in H. unfold find_crlf_from in H.
  destruct (zlen buf <? _); [done|]. destruct (find_crlf (drop _ buf)) as [j|] eqn:Ej; [|done].
  apply find_crlf_some in Ej as [Hj _]. injection H. lia.
Qed.

(** The turns of the loop before it returns. *)
Definition measure (d : ChunkedDecoder) (buf : list Z) : Z :=
  2 * (zlen buf - pos d) + match pending d with Some _ => 0 | None => 1 end.

Definition same_limits (d d' : ChunkedDecoder) : Prop :=
  start d' = start d ∧ max_body d' = max_body d ∧ max_raw d' = max_raw d.

(** The line at the cursor, when it has ended. *)
Lemma line_found d buf k :
  cursor d buf → find_crlf (rest d buf) = Some k →
  ∃ l x, rest d buf = l ++ CRLF ++ x ∧ zlen l = k ∧ slice (pos d) (pos d + k) buf = l ∧
    pos d + k + 2 <= zlen buf.
Proof.
  intros Hc Hk. destruct (find_crlf_some _ _ Hk) as (Hk0 & x & Hx & Hl).
  set (l := take (Z.to_nat k) (rest d buf)) in *. exists l, x. pose proof (cursor_range _ _ Hc) as Hr.
  split_and!; [done|done|by eapply slice_drop; [lia|..]|].
  assert (H : zlen (rest d buf) = k + 2 + zlen x) by (rewrite Hx, !zlen_app, Hl; unfold CRLF, zlen; cbn; lia).
  unfold rest in H. rewrite zlen_drop in H. pose proof (zlen_nonneg x). lia.
Qed.

Lemma crlf_app l y : l ++ CRLF ++ y = (l ++ CRLF) ++ y.
Proof. by rewrite <-app_assoc. Qed.
Lemma zlen_crlf l : zlen (l ++ CRLF) = zlen l + 2.
Proof. rewrite zlen_app. done. Qed.

(** A size line, parsed but not passed. *)
Lemma size_line_decoding d buf l x n :
  decoding d buf → pending d = None → in_trailers d = false → rest d buf = l ++ CRLF ++ x →
  parse_chunk_size l = Some n → 0 < n → saturating_add (zlen (body d)) n <= max_body d →
  decoding (d <| pending := Some (pos d + zlen l + 2, n) |>) buf.
Proof.
  intros [Hc Hz Hp Hk Ht] Hnp Htr E Hl Hn Hb. split; cbn; [by destruct Hc|done| |done|done].
  intros ds m [= <- <-]. split_and!; [done..|]. by exists l, x.
Qed.

(** The line of the last chunk. *)
Lemma last_chunk_decoding d buf l x :
  decoding d buf → pending d = None → in_trailers d = false → rest d buf = l ++ CRLF ++ x →
  parse_chunk_size l = Some 0 →
  decoding (d <| pos := pos d + zlen l + 2 |> <| in_trailers := true |>) buf.
Proof.
  intros [Hc Hz Hp Hk Ht] Hnp Htr E Hl. pose proof (find_crlf_clean l x (chunk_line_clean _ _ Hl)) as Hf.
  rewrite <-E in Hf. pose proof (scan_before _ _ _ Hc Hf) as Hs. rewrite crlf_app in E.
  set (d' := d <| pos := _ |> <| in_trailers := true |>).
  destruct (rest_moved d d' buf _ _ Hc E) as (Hc' & Hr' & Hsl); [rewrite zlen_crlf; cbn; lia|done|done|cbn; lia|].
  split; [done|cbn; pose proof (zlen_nonneg l); lia|cbn; congruence|done|]. intros w _ Hw. rewrite Hsl, <-app_assoc.
  cbn. rewrite <-(app_nil_r (body d)). apply Hk; [done|]. rewrite <-app_assoc. by constructor.
Qed.

Lemma trailer_decoding d buf l x :
  decoding d buf → pending d = None → in_trailers d = true → rest d buf = l ++ CRLF ++ x →
  trailer_line_valid l = true → decoding (d <| pos := pos d + zlen l + 2 |>) buf.
Proof.
  intros [Hc Hz Hp Hk Ht] Hnp Htr E Hl.
  pose proof (find_crlf_clean l x (proj1 (trailer_line_clean _ Hl))) as Hf.
  rewrite <-E in Hf. pose proof (scan_before _ _ _ Hc Hf) as Hs. rewrite crlf_app in E.
  set (d' := d <| pos := _ |>).
  destruct (rest_moved d d' buf _ _ Hc E) as (Hc' & Hr' & Hsl); [rewrite zlen_crlf; cbn; lia|done|done|cbn; lia|].
  split; [done|cbn; pose proof (zlen_nonneg l); lia|cbn; congruence|cbn; congruence|]. intros w _ Hw.
  rewrite Hsl, <-app_assoc. cbn. apply Ht; [done|]. rewrite <-app_assoc. by constructor.
Qed.

(** The data of a chunk. *)
Lemma data_decoding d buf l data x n :
  decoding d buf → pending d = Some (pos d + zlen l + 2, n) →
  rest d buf = l ++ CRLF ++ data ++ CRLF ++ x → zlen data = n → zlen buf < U64_MAX →
  parse_chunk_size l = Some n →
  decoding (d <| body := body d ++ data |> <| pending := None |> <| pos := pos d + zlen l + 2 + n + 2 |>) buf.
Proof.
  intros [Hc Hz Hp Hk Ht] Hd E Hn Hu Hl. destruct (Hp _ _ Hd) as (Htr & Hn0 & Hb & _).
  pose proof (find_crlf_clean l (data ++ CRLF ++ x) (chunk_line_clean _ _ Hl)) as Hf.
  rewrite <-E in Hf. pose proof (scan_before _ _ _ Hc Hf) as Hs.
  set (d' := d <| body := _ |> <| pending := None |> <| pos := _ |>).
  replace (l ++ CRLF ++ data ++ CRLF ++ x) with (((l ++ CRLF) ++ data ++ CRLF) ++ x) in E by (by rewrite <-!app_assoc).
  destruct (rest_moved d d' buf _ _ Hc E) as (Hc' & Hr' & Hsl);
    [rewrite zlen_app, !zlen_crlf; cbn; lia|done|done|cbn; lia|].
  pose proof (cursor_range _ _ Hc') as Hrg. cbn in Hrg. pose proof (zlen_nonneg l).
  unfold saturating_add in Hb. split; [done|cbn; rewrite zlen_app; lia|cbn; congruence| |cbn; congruence].
  intros w b _ Hw. rewrite Hsl, <-!app_assoc. cbn -[app]. rewrite <-!app_assoc. apply Hk; [done|].
  by apply (ck_data any l n).
Qed.

(** The octets after a size line, when the data and the line end after it are there. *)
Lemma chunk_data_split d buf l x n :
  cursor d buf → rest d buf = l ++ CRLF ++ x → 0 <= n → pos d + zlen l + 2 + n + 2 <= zlen buf →
  slice (pos d + zlen l + 2 + n) (pos d + zlen l + 2 + n + 2) buf = CRLF →
  x = slice (pos d + zlen l + 2) (pos d + zlen l + 2 + n) buf ++ CRLF
      ++ drop (Z.to_nat (pos d + zlen l + 2 + n + 2)) buf.
Proof.
  intros [Hr _] E Hn Hle Hc. pose proof (zlen_nonneg l). unfold rest in E.
  assert (Hx : x = drop (Z.to_nat (pos d + zlen l + 2)) buf).
  { replace (Z.to_nat (pos d + zlen l + 2)) with (Z.to_nat (pos d) + length (l ++ CRLF))%nat
      by (rewrite length_app; unfold zlen in *; cbn; lia).
    by rewrite <-drop_drop, E, crlf_app, drop_app_length. }
  rewrite <-Hc, app_assoc, slice_snoc by lia. unfold slice. rewrite Hx.
  rewrite <-(take_drop (Z.to_nat (n + 2)) (drop _ buf)) at 1. rewrite drop_drop. f_equal; f_equal; lia.
Qed.

(** ** Soundness *)

Lemma turn_decoding d d' buf :
  decoding d buf → zlen buf < U64_MAX → turn buf d = inr d' →
  decoding d' buf ∧ same_limits d d' ∧ measure d' buf < measure d buf.
Proof.
  intros Hd Hu. pose proof (dec_cursor _ _ Hd) as Hc. unfold turn, measure.
  destruct (pending d) as [[ds n]|] eqn:Ep.
  - destruct (dec_pending _ _ Hd _ _ Ep) as (Htr & Hn & Hb & l & x & E & -> & Hl).
    destruct (Z.ltb_spec (zlen buf) (saturating_add (saturating_add (pos d + zlen l + 2) n) 2)) as [|Hge]; [done|].
    destruct (bytes_eqb _ CRLF) eqn:Ec; [|done]. cbn [negb]. intros [= <-].
    assert (Hneed : saturating_add (saturating_add (pos d + zlen l + 2) n) 2 = pos d + zlen l + 2 + n + 2)
      by (unfold saturating_add in *; lia).
    rewrite Hneed in *. apply bytes_eqb_eq in Ec. set (data := slice (pos d + zlen l + 2) _ buf).
    assert (Hx : x = data ++ CRLF ++ drop (Z.to_nat (pos d + zlen l + 2 + n + 2)) buf).
    { apply (chunk_data_split d buf l x n) in E; [done|done|lia|lia|done]. }
    pose proof (zlen_nonneg l). split_and!; [|done|cbn; lia].
    eapply (data_decoding d buf l data); [done|done|by rewrite E, Hx at 1| |done|done].
    pose proof (cursor_range _ _ Hc). unfold data. rewrite slice_length; lia.
  - rewrite next_line by done. destruct (find_crlf (rest d buf)) as [k|] eqn:Ek; [|done].
    destruct (line_found d buf k Hc Ek) as (l & x & E & Hlk & Hs & Hle). rewrite Hs, <-Hlk in *.
    pose proof (zlen_nonneg l). destruct (max_raw d <? _); [done|]. destruct (in_trailers d) eqn:Et.
    + destruct (_ =? pos d); [done|]. destruct (trailer_line_valid l) eqn:Ev; [|done]. cbn [negb]. intros [= <-].
      split_and!; [by eapply trailer_decoding|done|cbn; rewrite Ep; lia].
    + destruct (parse_chunk_size l) as [n|] eqn:En; [|done]. destruct (Z.eqb_spec n 0) as [->|Hn].
      { intros [= <-]. split_and!; [by eapply last_chunk_decoding|done|cbn; rewrite Ep; lia]. }
      destruct (Z.ltb_spec (max_body d) (saturating_add (zlen (body d)) n)); [done|].
      destruct (max_raw d <? _); [done|]. intros [= <-]. apply parse_chunk_size_range in En as Hr.
      split_and!; [eapply size_line_decoding; try done; lia|done|cbn; lia].
Qed.

(** What the decoder may answer. *)
Definition sound_step (d : ChunkedDecoder) (buf : list Z) (step : ChunkStep) (d' : ChunkedDecoder) : Prop :=
  same_limits d d' ∧
  match step with
  | Done e =>
      start d <= e <= zlen buf ∧ e - start d <= max_raw d ∧ zlen (body d') <= max_body d ∧
      chunked any (slice (start d) e buf) (body d')
  | NeedMore => decoding d' buf
  | Bad => True
  end.

Lemma turn_stop d d' step buf :
  decoding d buf → zlen buf < U64_MAX → turn buf d = inl (step, d') → sound_step d buf step d'.
Proof.
  intros Hd Hu. pose proof (dec_cursor _ _ Hd) as Hc. pose proof (cursor_range _ _ Hc) as Hr. unfold turn, sound_step.
  destruct (pending d) as [[ds n]|] eqn:Ep.
  { destruct (zlen buf <? _); [by intros [= <- <-]|]. destruct (negb _); [by intros [= <- <-]|done]. }
  rewrite next_line by done. destruct (find_crlf (rest d buf)) as [k|] eqn:Ek.
  - destruct (line_found d buf k Hc Ek) as (l & x & E & Hlk & Hs & Hle).
    destruct (Z.ltb_spec (max_raw d) (saturating_sub (pos d + k + 2) (start d))) as [|Hraw]; [by intros [= <- <-]|].
    destruct (in_trailers d) eqn:Et.
    + destruct (Z.eqb_spec (pos d + k) (pos d)) as [Hk0|Hk0]; [|destruct (negb _); [by intros [= <- <-]|done]].
      intros [= <- <-]. destruct l; [|rewrite zlen_cons in Hlk; pose proof (zlen_nonneg l); lia].
      unfold saturating_sub in Hraw. pose proof (dec_size _ _ Hd).
      split; [done|]. split; [lia|]. split; [lia|]. split; [lia|]. rewrite Hk0.
      rewrite <-(slice_snoc _ (pos d)) by lia. rewrite (slice_drop (pos d) 2 buf CRLF x) by (done || lia).
      apply (dec_trailers _ _ Hd _ Et). constructor.
    + destruct (parse_chunk_size _) as [n|]; [|by intros [= <- <-]]. destruct (n =? 0); [done|].
      destruct (max_body d <? _); [by intros [= <- <-]|]. destruct (max_raw d <? _); [by intros [= <- <-]|done].
  - intros [= <- <-]. split; [done|]. unfold unterminated. destruct (_ || _); [done|].
    destruct Hd. split; try done. by apply cursor_unfound.
Qed.

Lemma advance_loop_sound fuel d d' step buf :
  decoding d buf → zlen buf < U64_MAX → advance_loop fuel buf d = Some (step, d') → sound_step d buf step d'.
Proof.
  revert d. induction fuel as [|fuel IH]; intros d Hd Hu; [done|]. rewrite advance_loop_turn.
  destruct (turn buf d) as [[s1 d1]|d1] eqn:Et; [intros [= -> ->]; by apply turn_stop|].
  destruct (turn_decoding _ _ _ Hd Hu Et) as (Hd1 & (Es & Eb & Er) & _). intros Ha.
  apply IH in Ha; [|done|done]. destruct Ha as [(Es' & Eb' & Er') Hst]. rewrite Es, Eb, Er in *.
  split; [by split_and!|done].
Qed.

Lemma advance_total d buf :
  decoding d buf → zlen buf < U64_MAX → ∃ step d', advance buf d = Some (step, d').
Proof.
  intros Hd Hu. unfold advance.
  assert (H : measure d buf < Z.of_nat (2 * length buf + 2)).
  { unfold measure. pose proof (cursor_range _ _ (dec_cursor _ _ Hd)). unfold zlen. destruct (pending d); lia. }
  revert d Hd H. generalize (2 * length buf + 2)%nat. induction n as [|n IH]; intros d Hd Hm.
  - unfold measure in Hm. pose proof (cursor_range _ _ (dec_cursor _ _ Hd)). destruct (pending d); lia.
  - rewrite advance_loop_turn. destruct (turn buf d) as [[s1 d1]|d1] eqn:Et; [by eexists _, _|].
    destruct (turn_decoding _ _ _ Hd Hu Et) as (Hd1 & _ & Hlt). apply IH; [done|lia].
Qed.

(** ** Completeness *)

(** A line that the bound on unterminated lines never refuses, with its CR. *)
Definition short (l : list Z) : Prop := zlen l < MAX_CHUNK_LINE.

(** What the decoder still has to read, and the data it will add. *)
Inductive ahead (d : ChunkedDecoder) : list Z → list Z → Prop :=
| ah_trailers w : in_trailers d = true → pending d = None → trailers short w → ahead d w []
| ah_chunks w b : in_trailers d = false → pending d = None → chunked short w b → ahead d w b
| ah_data l n data w b :
    in_trailers d = false → pending d = Some (pos d + zlen l + 2, n) →
    parse_chunk_size l = Some n → zlen data = n → chunked short w b →
    ahead d (l ++ CRLF ++ data ++ CRLF ++ w) (data ++ b).

(** In the stream [buf ++ more] the body ends at [e] and is [all]. *)
Record on_track (d : ChunkedDecoder) (buf more all : list Z) (e : Z) : Prop := {
  trk_decoding : decoding d buf;
  trk_limits : zlen all <= max_body d ∧ e - start d <= max_raw d ∧ e < U64_MAX;
  trk_ahead : ∃ w b tail, rest d buf ++ more = w ++ tail ∧ ahead d w b ∧ all = body d ++ b ∧ e = pos d + zlen w;
}.

Lemma trailers_length w : trailers short w → 2 <= zlen w.
Proof.
  induction 1 as [|t w Ht Hs Hw IH]; [done|]. rewrite crlf_app, zlen_app, zlen_crlf.
  pose proof (zlen_nonneg t). lia.
Qed.

Lemma chunked_length w b : chunked short w b → 4 <= zlen w ∧ zlen b <= zlen w.
Proof.
  induction 1 as [l w Hl Hs Hw|l n data w b Hl Hs Hn Hd Hw IH].
  - apply trailers_length in Hw. rewrite crlf_app, zlen_app, zlen_crlf. pose proof (zlen_nonneg l).
    unfold zlen in *. cbn in *. lia.
  - rewrite crlf_app, !zlen_app. change (zlen CRLF) with 2. pose proof (zlen_nonneg l). lia.
Qed.

Lemma line_arrived d buf more l x :
  cursor d buf → clean l → rest d buf ++ more = l ++ CRLF ++ x →
  find_crlf (rest d buf) = Some (zlen l) ∧ (∃ x', rest d buf = l ++ CRLF ++ x' ∧ x = x' ++ more)
  ∨ find_crlf (rest d buf) = None ∧ zlen buf < pos d + zlen l + 2.
Proof.
  intros Hc Hl E. pose proof (cursor_range _ _ Hc) as Hr.
  destruct (decide (length (rest d buf) < length l + 2)%nat) as [Hlt|Hge].
  - right. assert (Hcut : rest d buf = take (length (rest d buf)) (l ++ CRLF ++ x)) by (by rewrite <-E, take_app_length).
    split; [rewrite Hcut; by apply find_crlf_cut|]. unfold rest in Hlt. rewrite length_drop in Hlt. unfold zlen. lia.
  - left. rewrite crlf_app in E. apply app_eq_inv in E as [(k & E1 & E2)|(k & E1 & E2)].
    + split; [rewrite E1, <-crlf_app; by apply find_crlf_clean|]. exists k. by rewrite E1, <-crlf_app.
    + assert (k = []) as -> by (apply length_zero_iff_nil; rewrite <-(app_nil_r (l ++ CRLF)) in E1;
        apply (f_equal length) in E1; rewrite !length_app in E1; cbn in E1; lia).
      rewrite app_nil_r in E1. cbn in E2. subst more. split; [rewrite <-E1, <-(app_nil_r (l ++ CRLF)), <-crlf_app; by apply find_crlf_clean|].
      exists []. by rewrite app_nil_r.
Qed.

(** What a turn makes of a decoder that is on track. *)
Definition tracked (d : ChunkedDecoder) (buf more all : list Z) (e : Z)
    (r : (ChunkStep * ChunkedDecoder) + ChunkedDecoder) : Prop :=
  match r with
  | inr d' => on_track d' buf more all e
  | inl (NeedMore, d') => zlen buf < e ∧ on_track d' buf more all e
  | inl (Done e', d') => e' = e ∧ body d' = all
  | inl (Bad, _) => False
  end.

(** A turn goes on with the rest [w'] of the body. *)
Lemma tracked_next d d' buf more all e w' b' tail :
  on_track d buf more all e → zlen buf < U64_MAX → turn buf d = inr d' →
  rest d' buf ++ more = w' ++ tail → ahead d' w' b' → all = body d' ++ b' → e = pos d' + zlen w' →
  tracked d buf more all e (inr d').
Proof.
  intros Ht Hu Et E Ha Hall He. destruct Ht as [Hd Hlim _].
  destruct (turn_decoding _ _ _ Hd Hu Et) as (Hd' & (Es & Eb & Er) & _).
  split; [done|by rewrite Es, Eb, Er|]. by exists w', b', tail.
Qed.

(** The line at the cursor has not arrived. *)
Lemma tracked_wait d buf more all e :
  on_track d buf more all e → pending d = None → find_crlf (rest d buf) = None →
  zlen buf <= pos d + MAX_CHUNK_LINE → zlen buf < e →
  tracked d buf more all e (turn buf d).
Proof.
  intros [Hd Hlim Ha] Hp Hn Hb He. pose proof (dec_cursor _ _ Hd) as Hc. unfold turn. rewrite Hp, next_line, Hn by done.
  unfold unterminated. cbn [tracked]. destruct (Z.ltb_spec MAX_CHUNK_LINE (zlen buf - pos d)); [lia|].
  destruct (Z.ltb_spec (max_raw (unfound d buf)) (saturating_sub (zlen buf) (start (unfound d buf)))) as [Hr|].
  { pose proof (cursor_range _ _ Hc). cbn in Hr. unfold saturating_sub in Hr. lia. }
  cbn. split; [done|]. split; [|done|].
  - destruct Hd. split; try done. by apply cursor_unfound.
  - destruct Ha as (w & b & tail & E & Hw & Hrest). exists w, b, tail. split_and!; try done; [|apply Hrest..].
    destruct Hw; by econstructor.
Qed.

Lemma rest_step d d' buf x y :
  cursor d buf → rest d buf = x ++ y → pos d' = pos d + zlen x → rest d' buf = y.
Proof.
  intros [Hr _] E Hp. unfold rest in *. rewrite Hp.
  replace (Z.to_nat (pos d + zlen x)) with (Z.to_nat (pos d) + length x)%nat by (unfold zlen; lia).
  rewrite <-drop_drop, E. apply drop_app_length.
Qed.

(** The turn on a line that has arrived, within the bound on the wire. *)
Lemma turn_line d buf l x :
  cursor d buf → pending d = None → clean l → rest d buf = l ++ CRLF ++ x →
  pos d + zlen l + 2 - start d <= max_raw d →
  let next := pos d + zlen l + 2 in
  turn buf d =
    if in_trailers d then
      if zlen l =? 0 then inl (Done next, d)
      else if negb (trailer_line_valid l) then inl (Bad, d) else inr (d <| pos := next |>)
    else
      match parse_chunk_size l with
      | None => inl (Bad, d)
      | Some size =>
          let need := saturating_add (saturating_add next size) 2 in
          if size =? 0 then inr (d <| pos := next |> <| in_trailers := true |>)
          else if max_body d <? saturating_add (zlen (body d)) size then
            inl (Bad, d <| too_large := true |>)
          else if max_raw d <? saturating_sub need (start d) then inl (Bad, d)
          else inr (d <| pending := Some (next, size) |>)
      end.
Proof.
  intros Hc Hp Hl E Hm next. pose proof (cursor_range _ _ Hc) as Hr. unfold turn.
  rewrite Hp, next_line, E, find_crlf_clean by done.
  rewrite (slice_drop (pos d) (zlen l) buf l (CRLF ++ x)) by (done || lia).
  destruct (Z.ltb_spec (max_raw d) (saturating_sub (pos d + zlen l + 2) (start d))) as [Hb|_].
  { unfold saturating_sub in Hb. pose proof (zlen_nonneg l). lia. }
  by replace (pos d + zlen l =? pos d) with (zlen l =? 0) by (destruct (Z.eqb_spec (zlen l) 0); symmetry;
    [apply Z.eqb_eq|apply Z.eqb_neq]; lia).
Qed.

Lemma zlen_0 (l : list Z) : zlen l = 0 → l = [].
Proof. unfold zlen. intros. apply length_zero_iff_nil. lia. Qed.

Lemma trailers_line w :
  trailers short w → ∃ l w1, w = l ++ CRLF ++ w1 ∧ clean l ∧ short l ∧
    (l = [] ∧ w1 = [] ∨ trailer_line_valid l = true ∧ trailers short w1).
Proof.
  destruct 1 as [|t w1 Hv Hs Hw1].
  - exists [], []. split_and!; try done. by left.
  - exists t, w1. split_and!; try done; [apply (trailer_line_clean t Hv)|by right].
Qed.

Lemma tracked_trailers d buf more all e :
  on_track d buf more all e → zlen buf < U64_MAX → in_trailers d = true → pending d = None →
  tracked d buf more all e (turn buf d).
Proof.
  intros Ht Hu Htr Hp. pose proof Ht as [Hd Hlim (w & b & tail & E & Ha & Hall & He)].
  pose proof (dec_cursor _ _ Hd) as Hc. destruct Ha as [w _ _ Hw| |]; [|congruence..].
  destruct (trailers_line w Hw) as (l & w1 & -> & Hcl & Hsh & Hcase). rewrite <-!app_assoc in E. unfold short in Hsh.
  rewrite crlf_app, zlen_app, zlen_crlf in He. pose proof (zlen_nonneg w1). pose proof (zlen_nonneg l).
  destruct (line_arrived _ _ _ _ _ Hc Hcl E) as [(Hf & x' & Ex & Ew)|[Hf Hlt]]; [|apply tracked_wait; (done || lia)].
  pose proof (turn_line d buf l x' Hc Hp Hcl Ex ltac:(lia)) as Et. rewrite Htr in Et.
  destruct Hcase as [[-> ->]|[Hv Hw1]].
  - rewrite Et. cbn. change (zlen (@nil Z)) with 0 in *. split; [lia|]. by rewrite Hall, app_nil_r.
  - destruct (Z.eqb_spec (zlen l) 0) as [Hz|]; [by apply zlen_0, (trailer_line_clean l Hv) in Hz|].
    rewrite Hv in Et. cbn [negb] in Et. rewrite Et. rewrite crlf_app in Ex.
    eapply (tracked_next d _ buf more all e w1 [] tail); try done; [|by constructor|cbn; lia].
    by rewrite (rest_step d _ buf _ _ Hc Ex), <-Ew by (rewrite zlen_crlf; cbn; lia).
Qed.

Lemma tracked_size d buf more all e :
  on_track d buf more all e → zlen buf < U64_MAX → in_trailers d = false → pending d = None →
  tracked d buf more all e (turn buf d).
Proof.
  intros Ht Hu Htr Hp. pose proof Ht as [Hd Hlim (w & b & tail & E & Ha & Hall & He)].
  pose proof (dec_cursor _ _ Hd) as Hc. pose proof (cursor_range _ _ Hc) as Hr.
  destruct Ha as [|w b _ _ Hw|]; [congruence| |congruence].
  destruct Hw as [l w1 Hl Hsh Hw1|l n data w1 b Hl Hsh Hn Hdn Hw1]; unfold short in Hsh;
    rewrite <-!app_assoc in E; rewrite crlf_app, !zlen_app in He; change (zlen CRLF) with 2 in He;
    pose proof (zlen_nonneg w1); pose proof (zlen_nonneg l); pose proof (chunk_line_clean _ _ Hl) as Hcl;
    (destruct (line_arrived _ _ _ _ _ Hc Hcl E) as [(Hf & x' & Ex & Ew)|[Hf Hlt]]; [|apply tracked_wait; (done || lia)]);
    pose proof (turn_line d buf l x' Hc Hp Hcl Ex ltac:(lia)) as Et; rewrite Htr, Hl in Et; cbn zeta in Et.
  - rewrite Et. cbn [Z.eqb]. rewrite crlf_app in Ex.
    eapply (tracked_next d _ buf more all e w1 [] tail); try done; [|by constructor|cbn; lia].
    by rewrite (rest_step d _ buf _ _ Hc Ex), <-Ew by (rewrite zlen_crlf; cbn; lia).
  - assert (Hall' : zlen all = zlen (body d) + n + zlen b) by (rewrite Hall, !zlen_app; lia).
    pose proof (zlen_nonneg b). unfold saturating_add, saturating_sub in Et.
    destruct (Z.eqb_spec n 0); [lia|]. rewrite (proj2 (Z.ltb_ge _ _)), (proj2 (Z.ltb_ge _ _)) in Et by lia.
    rewrite Et. eapply (tracked_next d _ buf more all e (l ++ CRLF ++ data ++ CRLF ++ w1) (data ++ b) tail); try done.
    + cbn -[app]. by rewrite <-!app_assoc.
    + by apply (ah_data _ l n).
    + rewrite crlf_app, !zlen_app. change (zlen CRLF) with 2. cbn. lia.
Qed.

Lemma slice_after d buf x y z from to :
  cursor d buf → rest d buf = x ++ y ++ z → from = pos d + zlen x → to = from + zlen y →
  slice from to buf = y.
Proof.
  intros Hc E -> ->. pose proof (cursor_range _ _ Hc). pose proof (zlen_nonneg x).
  apply (slice_drop _ _ _ _ z); [lia| |done].
  change (rest (d <| pos := pos d + zlen x |>) buf = y ++ z). by eapply rest_step.
Qed.

Lemma tracked_data d buf more all e ds n :
  on_track d buf more all e → zlen buf < U64_MAX → pending d = Some (ds, n) →
  tracked d buf more all e (turn buf d).
Proof.
  intros Ht Hu Hp. pose proof Ht as [Hd Hlim (w & b & tail & E & Ha & Hall & He)].
  pose proof (dec_cursor _ _ Hd) as Hc. pose proof (cursor_range _ _ Hc) as Hr.
  destruct Ha as [| |l n' data w1 b Htr Hp' Hl Hdn Hw1]; [congruence..|]. rewrite Hp in Hp'. injection Hp' as -> ->.
  apply parse_chunk_size_range in Hl as Hn. rewrite crlf_app, !zlen_app in He. change (zlen CRLF) with 2 in He.
  pose proof (zlen_nonneg w1). pose proof (zlen_nonneg l).
  assert (Hneed : saturating_add (saturating_add (pos d + zlen l + 2) n') 2 = pos d + zlen l + 2 + n' + 2)
    by (unfold saturating_add; lia).
  unfold turn at 1. rewrite Hp, Hneed. destruct (Z.ltb_spec (zlen buf) (pos d + zlen l + 2 + n' + 2)) as [|Hge].
  { cbn. split; [lia|done]. }
  assert (Ex : ∃ x, rest d buf = ((l ++ CRLF) ++ data ++ CRLF) ++ x ∧ w1 ++ tail = x ++ more).
  { rewrite <-!app_assoc in E. replace (l ++ _) with (((l ++ CRLF) ++ data ++ CRLF) ++ w1 ++ tail) in E by (by rewrite <-!app_assoc).
    apply app_eq_inv in E as [(k & E1 & E2)|(k & E1 & E2)]; [by exists k|]. exists []. cbn. rewrite app_nil_r.
    assert (Hz : zlen k <= 0).
    { apply (f_equal zlen) in E1. rewrite !zlen_app in E1. change (zlen CRLF) with 2 in E1.
      unfold rest in E1. rewrite zlen_drop in E1. lia. }
    assert (k = []) as -> by (apply zlen_0; pose proof (zlen_nonneg k); lia). by rewrite app_nil_r in E1. }
  destruct Ex as (x & Ex & Ew).
  assert (Hdata : slice (pos d + zlen l + 2) (pos d + zlen l + 2 + n') buf = data).
  { eapply (slice_after d buf (l ++ CRLF)); [done|rewrite Ex, <-!app_assoc; done|rewrite zlen_crlf; lia|lia]. }
  assert (Hend : slice (pos d + zlen l + 2 + n') (pos d + zlen l + 2 + n' + 2) buf = CRLF).
  { eapply (slice_after d buf ((l ++ CRLF) ++ data)); [done|rewrite Ex, <-!app_assoc; done| |done].
    rewrite zlen_app, zlen_crlf; lia. }
  rewrite Hend, Hdata. cbn [negb]. change (bytes_eqb CRLF CRLF) with true. cbn [negb].
  eapply (tracked_next d _ buf more all e w1 b tail); [done|done| | | | |].
  - unfold turn. by rewrite Hp, Hneed, (proj2 (Z.ltb_ge _ _) Hge), Hend, Hdata.
  - rewrite (rest_step d _ buf _ _ Hc Ex); [done|]. rewrite zlen_app, !zlen_crlf. cbn. lia.
  - by constructor.
  - cbn -[app]. by rewrite <-app_assoc.
  - cbn. lia.
Qed.

Lemma turn_tracked d buf more all e :
  on_track d buf more all e → zlen buf < U64_MAX → tracked d buf more all e (turn buf d).
Proof.
  intros Ht Hu. destruct (pending d) as [[ds n]|] eqn:Ep; [by eapply tracked_data|].
  destruct (in_trailers d) eqn:Et; [by apply tracked_trailers|by apply tracked_size].
Qed.

(** A decoder on track reads to the end of the body, or asks for more of it. *)
Lemma advance_complete d buf more all e :
  on_track d buf more all e → zlen buf < U64_MAX →
  (zlen buf < e ∧ ∃ d', advance buf d = Some (NeedMore, d') ∧ on_track d' buf more all e)
  ∨ (e <= zlen buf ∧ ∃ d', advance buf d = Some (Done e, d') ∧ body d' = all).
Proof.
  intros Ht Hu. pose proof (advance_total d buf (trk_decoding _ _ _ _ _ Ht) Hu) as (step & d' & Ha). rewrite Ha.
  unfold advance in Ha. revert d Ht Ha. generalize (2 * length buf + 2)%nat.
  induction n as [|n IH]; intros d Ht Ha; [done|]. pose proof Ha as Ha0. rewrite advance_loop_turn in Ha.
  pose proof (turn_tracked _ _ _ _ _ Ht Hu) as Htr. destruct (turn buf d) as [[s d1]|d1] eqn:Et; [|by apply (IH d1)].
  injection Ha as -> ->. destruct step as [e'| |]; [right|left|done].
  - destruct Htr as [-> Hb]. apply advance_loop_sound in Ha0; [|apply Ht|done].
    destruct Ha0 as (_ & Hr & _). split; [lia|by eexists].
  - destruct Htr as [Hlt Ht']. split; [done|by eexists].
Qed.

Lemma on_track_more d buf r more all e : on_track d buf (r ++ more) all e → on_track d (buf ++ r) more all e.
Proof.
  intros [Hd Hl (w & b & tail & E & Hr)]. split; [by apply decoding_more|done|]. exists w, b, tail.
  rewrite rest_more, <-app_assoc by apply Hd. done.
Qed.

End chunked_body.
