(* ===== verification/H1Response.v ===== *)
(** * Writing HTTP/1.1 responses: [crates/httpjet/src/uring/mod.rs]

    The head and body of a response as the octets that reach the client, through writes
    that may take any part of what they are given, fail, or stall past the send-progress
    clock. [Out] is the connection's sending side: what it accepted, and the results the
    next calls of [write], [sendfile] and [read_at] will return; a script that has ended is
    a connection that has failed. A duration is a number of nanoseconds. The pauses of the
    bandwidth throttle do not change the octets; a throttle is only present or absent. *)

From stdpp Require Import base list strings.
From Stdlib Require Import ZArith Lia.
From S2P Require Import Prelude RustStr HttpUtil HpackString HpackTable H2Response.

Import headers http_util.
#[local] Open Scope record_scope.

(** [StatusCode::canonical_reason] of the [http] crate. *)
Class StatusText : Type := canonical_reason : Z → option (list Z).

Module h1_response.

(** ** Heads *)

Definition is_hop_by_hop_response (n : list Z) : bool :=
  existsb (bytes_eqb n)
    [bs "connection"; bs "keep-alive"; bs "transfer-encoding"; bs "upgrade"; bs "te";
     bs "trailer"; bs "proxy-connection"; bs "proxy-authenticate"].

Inductive H1ResponseFraming : Type := ContentLength (n : Z) | Chunked | Unframed.

(** [None] when the [?] of the loop leaves it. *)
Fixpoint declared_loop `{HttpCrate} (values : list (list Z)) (declared : option Z) : option Z :=
  match values with
  | [] => declared
  | value :: values =>
      if negb (header_value_is_str value) then None
      else
        match parse_u64 (trim value) with
        | None => None
        | Some parsed =>
            match declared with
            | Some prior => if prior =? parsed then declared_loop values (Some parsed) else None
            | None => declared_loop values (Some parsed)
            end
        end
  end.

Definition declared_response_length `{HttpCrate} (m : HeaderMap) : option Z :=
  declared_loop (get_all m (bs "content-length")) None.

Definition or_unframed (len : option Z) : H1ResponseFraming :=
  match len with Some n => ContentLength n | None => Unframed end.

Definition h1_response_framing `{HttpCrate} (status : Z) (m : HeaderMap) (known_len : option Z)
    (is_head : bool) : H1ResponseFraming :=
  if between 100 199 status || (status =? 204) then Unframed
  else if status =? 205 then ContentLength 0
  else if status =? 304 then or_unframed (declared_response_length m)
  else if is_head then
    or_unframed (match declared_response_length m with Some n => Some n | None => known_len end)
  else match known_len with Some n => ContentLength n | None => Chunked end.

(** The digits are written from the end of an array of [i] bytes; [None] is an index below
    its start. *)
Fixpoint decimal_loop (i : nat) (v : Z) (tmp : list Z) : option (list Z) :=
  match i with
  | O => None
  | S i =>
      let tmp := (0x30 + v mod 10) :: tmp in
      if v / 10 =? 0 then Some tmp else decimal_loop i (v / 10) tmp
  end.

Definition push_u64_decimal (out : list Z) (v : Z) : option (list Z) :=
  app out <$> decimal_loop 20 v [].

Fixpoint hex_loop (i : nat) (v : Z) (tmp : list Z) : option (list Z) :=
  match i with
  | O => None
  | S i =>
      match bs "0123456789abcdef" !! Z.to_nat (Z.land v 0xf) with
      | None => None
      | Some c =>
          let v := Z.shiftr v 4 in
          if v =? 0 then Some (c :: tmp) else hex_loop i v (c :: tmp)
      end
  end.

Definition push_u64_hex (out : list Z) (v : Z) : option (list Z) :=
  app out <$> hex_loop 16 v [].

Definition push_h1_status_line (out : list Z) (status : Z) (reason : list Z) : option (list Z) :=
  out ← push_u64_decimal (out ++ bs "HTTP/1.1 ") status;
  Some (out ++ [0x20] ++ reason ++ CRLF).

Definition push_field (out : list Z) (f : list Z * list Z) : list Z :=
  out ++ f.1 ++ bs ": " ++ f.2 ++ CRLF.

Definition serialize_h1_head_framed `{HttpCrate, StatusText} (status : Z) (m : HeaderMap)
    (framing : H1ResponseFraming) (keep_alive : bool) : option (list Z) :=
  let reason := default [] (canonical_reason status) in
  out ← push_h1_status_line [] status reason;
  let out :=
    fold_left (fun out f =>
      if bytes_eqb f.1 (bs "content-length") || is_hop_by_hop_response f.1 then out
      else push_field out f) (header_iter m) out in
  out ← match framing with
        | ContentLength n =>
            out ← push_u64_decimal (out ++ bs "content-length: ") n;
            Some (out ++ CRLF)
        | Chunked => Some (out ++ bs "transfer-encoding: chunked" ++ CRLF)
        | Unframed => Some out
        end;
  Some (out ++ (if keep_alive then bs "connection: keep-alive" else bs "connection: close")
        ++ CRLF ++ CRLF).

Definition serialize_h1_response_head `{HttpCrate, StatusText} (status : Z) (m : HeaderMap)
    (body_len : Z) (is_head keep_alive : bool) : option (list Z) :=
  let known_len := if negb is_head || (0 <? body_len) then Some body_len else None in
  serialize_h1_head_framed status m (h1_response_framing status m known_len is_head) keep_alive.

Definition serialize_h1_stream_head `{HttpCrate, StatusText} (status : Z) (m : HeaderMap)
    (len : option Z) (is_head keep_alive : bool) : option (list Z) :=
  serialize_h1_head_framed status m (h1_response_framing status m len is_head) keep_alive.

Definition serialize_h1_upgrade_response `{HttpCrate, StatusText} (status : Z) (m : HeaderMap)
    : option (list Z) :=
  let reason := default [] (canonical_reason status) in
  out ← push_h1_status_line [] status reason;
  let '(out, has_connection, has_upgrade) :=
    fold_left (fun '(out, has_connection, has_upgrade) f =>
      if bytes_eqb f.1 (bs "content-length") || bytes_eqb f.1 (bs "transfer-encoding")
         || bytes_eqb f.1 (bs "keep-alive") || bytes_eqb f.1 (bs "proxy-connection")
      then (out, has_connection, has_upgrade)
      else (push_field out f, has_connection || bytes_eqb f.1 (bs "connection"),
            has_upgrade || bytes_eqb f.1 (bs "upgrade")))
      (header_iter m) (out, false, false) in
  let out := if has_upgrade then out else out ++ bs "upgrade: websocket" ++ CRLF in
  let out := if has_connection then out else out ++ bs "connection: upgrade" ++ CRLF in
  Some (out ++ CRLF).

Definition build_103_early_hints (m : HeaderMap) : option (list Z) :=
  let links := filter (fun v => response.is_early_hint_link v = true) (get_all m (bs "link")) in
  if bool_decide (links = []) then None
  else
    Some (fold_left (fun interim v => interim ++ bs "Link: " ++ utf8_lossy v ++ CRLF) links
            (bs "HTTP/1.1 103 Early Hints" ++ CRLF) ++ CRLF).

Definition with_interim (interim : option (list Z)) (head : list Z) : list Z :=
  match interim with Some wire => wire ++ head | None => head end.

(** ** The send-progress clock *)

Definition H1_SEND_MIN_PROGRESS : Z := 16 * 1024.
Definition H1_WRITE_PROGRESS_GRAIN : Z := 64 * 1024.
Definition DURATION_MAX : Z := U64_MAX * 10 ^ 9 + 999999999.

Record SendProgress : Type := { window : option Z; blocked : Z; progressed : Z }.

#[export] Instance SendProgress_eta : Eta SendProgress := fun r =>
  {| window := window r; blocked := blocked r; progressed := progressed r |}.
#[export] Instance set_blocked : Setter blocked := ltac:(derive_setter).
#[export] Instance set_progressed : Setter progressed := ltac:(derive_setter).

Definition progress_new (window : option Z) : SendProgress :=
  {| window := window; blocked := 0; progressed := 0 |}.

(** [Duration::saturating_add] and the like. *)
Definition dur_add (a b : Z) : Z := Z.min (a + b) DURATION_MAX.
Definition dur_mul (a n : Z) : Z := Z.min (a * n) DURATION_MAX.

Definition budget (p : SendProgress) (len : Z) : option Z :=
  window ← window p;
  let owed := H1_SEND_MIN_PROGRESS - progressed p in
  let reportable := Z.min len H1_WRITE_PROGRESS_GRAIN in
  let extra := saturating_sub reportable owed / H1_SEND_MIN_PROGRESS in
  Some (saturating_sub window (blocked p) + dur_mul window extra).

(** [None] is the timeout. *)
Definition record (p : SendProgress) (sent waited : Z) : option SendProgress :=
  match window p with
  | None => Some p
  | Some window =>
      let p := p <| progressed := saturating_add (progressed p) sent |>
                 <| blocked := dur_add (blocked p) waited |> in
      let earned := progressed p / H1_SEND_MIN_PROGRESS in
      let p :=
        if 0 <? earned then
          p <| progressed := progressed p mod H1_SEND_MIN_PROGRESS |>
            <| blocked := saturating_sub (blocked p)
                            (dur_mul window (Z.min earned (2 ^ 32 - 1))) |>
        else p in
      if window <=? blocked p then None else Some p
  end.

(** ** Writes *)

(** A call of [write] takes part of the octets after waiting, is interrupted, fails, or is
    still waiting when its budget ends. *)
Inductive Written : Type :=
| Accepted (n waited : Z)
| Interrupted (waited : Z)
| Broken
| Stalled.

Inductive Sendfile : Type :=
| Sent (n : Z)
| SendInterrupted
| SendAgain (slept : Z)
| SendUnsupported
| SendError.

Record Out : Type := {
  wire : list Z;
  writes : list Written;
  sends : list Sendfile;
  reads : list (option Z);
  progress : SendProgress;
}.

#[export] Instance Out_eta : Eta Out := fun r =>
  {| wire := wire r; writes := writes r; sends := sends r; reads := reads r; progress := progress r |}.
#[export] Instance set_wire : Setter wire := ltac:(derive_setter).
#[export] Instance set_writes : Setter writes := ltac:(derive_setter).
#[export] Instance set_sends : Setter sends := ltac:(derive_setter).
#[export] Instance set_reads : Setter reads := ltac:(derive_setter).
#[export] Instance set_progress : Setter progress := ltac:(derive_setter).

(** What [timed] reports of the wait: nothing without a budget. *)
Definition timed (p : SendProgress) (len waited : Z) : Z :=
  match budget p len with None => 0 | Some _ => waited end.

Fixpoint write_loop (ws : list Written) (buf : list Z) (o : Out) : bool * Out :=
  if bool_decide (buf = []) then (true, o <| writes := ws |>)
  else
    match ws with
    | [] | Broken :: _ => (false, o <| writes := tail ws |>)
    | Stalled :: ws =>
        match budget (progress o) (zlen buf) with
        | None => write_loop ws buf o
        | Some _ => (false, o <| writes := ws |>)
        end
    | Interrupted waited :: ws =>
        match record (progress o) 0 (timed (progress o) (zlen buf) waited) with
        | None => (false, o <| writes := ws |>)
        | Some p => write_loop ws buf (o <| progress := p |>)
        end
    | Accepted n waited :: ws =>
        let n := Z.max 0 (Z.min n (zlen buf)) in
        if n =? 0 then (false, o <| writes := ws |>)
        else
          let o' := o <| wire := wire o ++ take (Z.to_nat n) buf |> in
          match record (progress o) n (timed (progress o) (zlen buf) waited) with
          | None => (false, o' <| writes := ws |>)
          | Some p => write_loop ws (drop (Z.to_nat n) buf) (o' <| progress := p |>)
          end
    end.

Definition write_all (buf : list Z) (o : Out) : bool * Out := write_loop (writes o) buf o.

(** The vectored write goes through the octets of its parts in order. *)
Definition write_vectored (parts : list (list Z)) (o : Out) : bool * Out :=
  write_loop (writes o) (concat parts) o.

(** ** Bodies *)

Record WriteOutcome : Type := { close : bool; failed : bool }.

Definition outcome_new (failed keep_alive : bool) : WriteOutcome :=
  {| close := failed || negb keep_alive; failed := failed |}.

(** The rest of the body in slices of 64 KiB. *)
Fixpoint paced_loop (fuel : nat) (body : list Z) (o : Out) : bool * Out :=
  match fuel, body with
  | _, [] => (true, o)
  | O, _ => (false, o)
  | S fuel, _ =>
      let slice := Z.to_nat (64 * 1024) in
      match write_all (take slice body) o with
      | (false, o) => (false, o)
      | (true, o) => paced_loop fuel (drop slice body) o
      end
  end.

Definition paced_h1_body (head body : list Z) (o : Out) : bool * Out :=
  match write_all head o with
  | (false, o) => (false, o)
  | (true, o) => paced_loop (length body) body o
  end.

(** What the channel of a streamed body yields; its end is the end of the list. [Idle] is
    a body given up because it waited past the grace of a shutdown. *)
Inductive StreamItem : Type := Data (b : list Z) | UpstreamAbort | Idle.

(** [None] is a panic of the size prefix. *)
Fixpoint stream_loop (chunked : bool) (rx : list StreamItem) (o : Out) : option (bool * Out) :=
  match rx with
  | [] => Some (true, o)
  | (UpstreamAbort | Idle) :: _ => Some (false, o)
  | Data b :: rx =>
      if bool_decide (b = []) then stream_loop chunked rx o
      else
        wrote ← (if chunked then
                   prefix ← push_u64_hex [] (zlen b);
                   Some (write_vectored [prefix ++ CRLF; b; CRLF] o)
                 else Some (write_all b o));
        match wrote with
        | (false, o) => Some (false, o)
        | (true, o) => stream_loop chunked rx o
        end
  end.

Definition write_h1_stream `{HttpCrate, StatusText} (interim : option (list Z)) (status : Z)
    (m : HeaderMap) (rx : list StreamItem) (len : option Z) (is_head keep_alive http10 : bool)
    (o : Out) : option (WriteOutcome * Out) :=
  let close_delimited :=
    http10 && match h1_response_framing status m len is_head with Chunked => true | _ => false end in
  let keep_alive := keep_alive && negb close_delimited in
  head ← (if close_delimited then serialize_h1_head_framed status m Unframed false
          else serialize_h1_stream_head status m len is_head keep_alive);
  match write_all (with_interim interim head) o with
  | (false, o) => Some (outcome_new true keep_alive, o)
  | (true, o) =>
      if response_body_forbidden is_head status then Some (outcome_new false keep_alive, o)
      else
        let chunked := bool_decide (len = None) && negb close_delimited in
        drained ← stream_loop chunked rx o;
        match drained with
        | (false, o) => Some (outcome_new true keep_alive, o)
        | (true, o) =>
            if chunked then
              match write_all (bs "0" ++ CRLF ++ CRLF) o with
              | (false, o) => Some (outcome_new true keep_alive, o)
              | (true, o) => Some (outcome_new false keep_alive, o)
              end
            else Some (outcome_new false keep_alive, o)
        end
  end.

(** A file body: its length, the range asked for, and the octets of the file when it can be
    opened. *)
Record FileBody : Type := {
  file_len : Z;
  file_range : option (Z * Z);
  file : option (list Z);
}.

Definition H1_FILE_READ_CHUNK : Z := 256 * 1024.

(** [None] is fuel that ran out: each turn takes a result from the script of [sendfile] or
    of [read_at]. *)
Fixpoint file_loop (fuel : nat) (throttle use_sendfile : bool) (content : list Z) (offset end_ : Z)
    (o : Out) : option (bool * Out) :=
  match fuel with
  | O => None
  | S fuel =>
      if end_ <=? offset then Some (true, o)
      else
        let chunk := if throttle then 64 * 1024 else 1024 * 1024 in
        let want := Z.min (end_ - offset) chunk in
        let rest := drop (Z.to_nat offset) content in
        if use_sendfile then
          match sends o with
          | [] => Some (false, o)
          | sent :: ss =>
              let o := o <| sends := ss |> in
              match sent with
              | SendError => Some (false, o)
              | SendInterrupted => file_loop fuel throttle true content offset end_ o
              | SendUnsupported => file_loop fuel throttle false content offset end_ o
              | SendAgain slept =>
                  match record (progress o) 0 slept with
                  | None => Some (false, o)
                  | Some p => file_loop fuel throttle true content offset end_ (o <| progress := p |>)
                  end
              | Sent n =>
                  let n := Z.max 0 (Z.min (Z.min n want) (zlen rest)) in
                  if n =? 0 then Some (false, o)
                  else
                    let o := o <| wire := wire o ++ take (Z.to_nat n) rest |> in
                    match record (progress o) n 0 with
                    | None => Some (false, o)
                    | Some p =>
                        file_loop fuel throttle true content (offset + n) end_ (o <| progress := p |>)
                    end
              end
          end
        else
          let want := Z.min want H1_FILE_READ_CHUNK in
          match reads o with
          | [] => Some (false, o)
          | read :: rs =>
              let o := o <| reads := rs |> in
              match read with
              | None => Some (false, o)
              | Some n =>
                  let n := Z.max 0 (Z.min (Z.min n want) (zlen rest)) in
                  if n =? 0 then Some (false, o)
                  else
                    match write_all (take (Z.to_nat n) rest) o with
                    | (false, o) => Some (false, o)
                    | (true, o) => file_loop fuel throttle false content (offset + n) end_ o
                    end
              end
          end
  end.

Definition write_h1_file `{HttpCrate, StatusText} (interim : option (list Z)) (status : Z)
    (m : HeaderMap) (body : FileBody) (is_head keep_alive throttle sendfile_fd : bool) (o : Out)
    : option (bool * Out) :=
  let '(start, len) :=
    match file_range body with
    | Some (start, end_) => (start, u64 (saturating_sub end_ start + 1))
    | None => (0, file_len body)
    end in
  head ← serialize_h1_stream_head status m (Some len) is_head keep_alive;
  match write_all (with_interim interim head) o with
  | (false, o) => Some (false, o)
  | (true, o) =>
      if response_body_forbidden is_head status || (len =? 0) then Some (true, o)
      else
        match file body, checked_add start len with
        | Some content, Some end_ =>
            file_loop (length (sends o) + length (reads o) + 2) throttle sendfile_fd content start end_ o
        | _, _ => Some (false, o)
        end
  end.

Inductive BridgeBody : Type :=
| Full (body : list Z)
| File (body : FileBody)
| Stream (rx : list StreamItem) (len : option Z).

Record BridgeResp : Type := { status : Z; headers : HeaderMap; body : BridgeBody }.

Definition write_h1_response `{HttpCrate, StatusText} (resp : BridgeResp)
    (is_head keep_alive http10 throttle sendfile_fd : bool) (send_window : option Z) (o : Out)
    : option (WriteOutcome * Out) :=
  let o := o <| progress := progress_new send_window |> in
  let interim := if http10 then None else build_103_early_hints (headers resp) in
  match body resp with
  | Full body =>
      head ← serialize_h1_response_head (status resp) (headers resp) (zlen body) is_head keep_alive;
      let head := with_interim interim head in
      let body_forbidden := response_body_forbidden is_head (status resp) in
      let '(ok, o) :=
        if body_forbidden || bool_decide (body = []) then write_all head o
        else if throttle then paced_h1_body head body o
        else write_vectored [head; body] o in
      Some (outcome_new (negb ok) keep_alive, o)
  | File body =>
      wrote ← write_h1_file interim (status resp) (headers resp) body is_head keep_alive throttle
                sendfile_fd o;
      let '(ok, o) := wrote in
      Some (outcome_new (negb ok) keep_alive, o)
  | Stream rx len =>
      write_h1_stream interim (status resp) (headers resp) rx len is_head keep_alive http10 o
  end.

End h1_response.
