(* ===== verification/H1ResponseWire.v ===== *)
(** * What an HTTP/1.1 response puts on the wire

    The writers of [H1Response], one by one: the decimal and hexadecimal texts they print and
    the chunks they make are read back by the decoder of [H1Codec], and whatever the socket
    does, what it accepted is a prefix of the text, and all of it when no failure is
    reported ([sends_all]). *)

From stdpp Require Import base list strings.
From Stdlib Require Import ZArith Lia.
From S2P Require Import Prelude RustStr HttpUtil HpackString HpackTable H2Response.
From S2P Require Import H1Codec H1Chunked H1Response.

Import headers http_util h1_response codec chunked_body.
#[local] Open Scope record_scope.

Module response_wire.

(** ** Numbers *)

Lemma decimal_loop_digits i v tmp :
  0 <= v < 10 ^ Z.of_nat (S i) → decimal_loop (S i) v tmp = Some (digits_loop (S i) v tmp).
Proof.
  revert v tmp. induction i as [|i IH]; intros v tmp Hv.
  - change (10 ^ Z.of_nat 1) with 10 in Hv. cbn. rewrite Z.div_small by lia. by rewrite (proj2 (Z.ltb_lt _ _)) by lia.
  - change (decimal_loop (S (S i)) v tmp) with
      (if v / 10 =? 0 then Some ((0x30 + v mod 10) :: tmp) else decimal_loop (S i) (v / 10) ((0x30 + v mod 10) :: tmp)).
    change (digits_loop (S (S i)) v tmp) with
      (if v <? 10 then (0x30 + v mod 10) :: tmp else digits_loop (S i) (v / 10) ((0x30 + v mod 10) :: tmp)).
    rewrite Nat2Z.inj_succ, Z.pow_succ_r in Hv by lia. pose proof (Z.div_mod v 10 ltac:(lia)).
    pose proof (Z.mod_pos_bound v 10 ltac:(lia)). destruct (Z.ltb_spec v 10).
    + by rewrite Z.div_small by lia.
    + rewrite (proj2 (Z.eqb_neq _ _)) by lia. apply IH. lia.
Qed.

Lemma push_decimal out v : 0 <= v <= U64_MAX → push_u64_decimal out v = Some (out ++ to_string v).
Proof. intros Hv. unfold push_u64_decimal. rewrite decimal_loop_digits by (unfold U64_MAX in Hv; lia). done. Qed.

Definition hex_text (v : Z) : list Z := default [] (hex_loop 16 v []).

Lemma hex_char d :
  0 <= d < 16 → ∃ c, bs "0123456789abcdef" !! Z.to_nat d = Some c ∧ is_ascii_hexdigit c = true ∧ hex_digit c = d.
Proof.
  intros Hd. assert (Hc : d = 0 ∨ d = 1 ∨ d = 2 ∨ d = 3 ∨ d = 4 ∨ d = 5 ∨ d = 6 ∨ d = 7 ∨ d = 8 ∨ d = 9 ∨ d = 10
    ∨ d = 11 ∨ d = 12 ∨ d = 13 ∨ d = 14 ∨ d = 15) by lia.
  repeat (destruct Hc as [->|Hc]; [by eexists|]). subst d. by eexists.
Qed.

Lemma hex_loop_parse i v tmp :
  0 <= v <= U64_MAX → v < 16 ^ Z.of_nat (S i) →
  ∃ ds, hex_loop (S i) v tmp = Some (ds ++ tmp) ∧ ds ≠ [] ∧ forallb is_ascii_hexdigit ds = true ∧
    parse_hex U64_MAX ds = Some v.
Proof.
  revert v tmp. induction i as [|i IH]; intros v tmp Hv Hi.
  all: assert (Hl : Z.land v 0xf = v mod 16) by apply (Z.land_ones v 4 ltac:(lia)).
  all: assert (Hs : Z.shiftr v 4 = v / 16) by apply (Z.shiftr_div_pow2 v 4 ltac:(lia)).
  all: pose proof (Z.div_mod v 16 ltac:(lia)); pose proof (Z.mod_pos_bound v 16 ltac:(lia)) as Hm.
  all: destruct (hex_char (v mod 16) Hm) as (c & Hc & Hx & Hd).
  all: assert (Hlast : v / 16 = 0 → parse_hex U64_MAX [c] = Some v) by
    (intros; cbn; rewrite Hx, Hd; cbn; rewrite (proj2 (Z.ltb_ge _ _)) by lia; f_equal; lia).
  - change (16 ^ Z.of_nat 1) with 16 in Hi. cbn [hex_loop]. rewrite Hl, Hc, Hs.
    assert (v / 16 = 0) by (apply Z.div_small; lia). rewrite (proj2 (Z.eqb_eq _ _)) by done. exists [c].
    split_and!; [done|done| |by apply Hlast]. cbn. by rewrite Hx.
  - remember (S i) as j. cbn [hex_loop]. rewrite Hl, Hc, Hs. subst j. destruct (Z.eqb_spec (v / 16) 0).
    { exists [c]. split_and!; [done|done| |by apply Hlast]. cbn. by rewrite Hx. }
    rewrite Nat2Z.inj_succ, Z.pow_succ_r in Hi by lia.
    destruct (IH (v / 16) (c :: tmp)) as (ds & -> & Hne & Hds & Hp); [lia..|]. exists (ds ++ [c]). split_and!.
    + by rewrite <-app_assoc.
    + by destruct ds.
    + rewrite forallb_app, Hds. cbn. by rewrite Hx.
    + unfold parse_hex in *. rewrite parse_hex_digits_app, Hp. cbn. rewrite Hx, Hd.
      rewrite (proj2 (Z.ltb_ge _ _)) by lia. f_equal. lia.
Qed.

Lemma hex_text_push v :
  0 <= v <= U64_MAX → push_u64_hex [] v = Some (hex_text v) ∧ hex_text v ≠ [] ∧
    forallb is_ascii_hexdigit (hex_text v) = true ∧ parse_hex U64_MAX (hex_text v) = Some v.
Proof.
  intros Hv. destruct (hex_loop_parse 15 v [] Hv) as (ds & E & Hne & Hds & Hp).
  { change (16 ^ Z.of_nat 16) with (2 ^ 64). unfold U64_MAX in Hv. lia. }
  unfold hex_text, push_u64_hex. rewrite E, app_nil_r. done.
Qed.

Lemma hexdigit_plain b :
  is_ascii_hexdigit b = true → is_ows b = false ∧ b ≠ 0x3b ∧ (b =? 0x09) || ((0x20 <=? b) && negb (b =? 0x7f)) = true.
Proof.
  unfold is_ascii_hexdigit, is_ascii_digit, between, is_ows. intros Hb.
  assert (0x30 <= b <= 0x39 ∨ 0x61 <= b <= 0x66 ∨ 0x41 <= b <= 0x46) by (bool_hyps; lia).
  split_and!; [|lia|]; repeat match goal with |- context [?x =? ?y] => destruct (Z.eqb_spec x y); try lia end; try done.
Qed.

Lemma drop_while_none p s : forallb (fun b => negb (p b)) s = true → drop_while p s = s.
Proof. destruct s as [|b s]; [done|]. cbn. intros [Hb _]%andb_true_iff. by destruct (p b). Qed.

Lemma trim_ows_plain s : forallb (fun b => negb (is_ows b)) s = true → trim_ows s = s.
Proof.
  intros Hs. unfold trim_ows, trim_end_matches. rewrite (drop_while_none _ s) by done.
  rewrite drop_while_none; [apply rev_involutive|]. apply forallb_forall. intros b Hb. apply in_rev in Hb.
  rewrite forallb_forall in Hs. by apply Hs.
Qed.

Lemma split_plain c s : c ∉ s → split c s = [s].
Proof.
  induction s as [|b s IH]; [done|]. intros [Hb Hs]%not_elem_of_cons. cbn. rewrite (IH Hs).
  by rewrite (proj2 (Z.eqb_neq _ _)) by done.
Qed.

Lemma parse_chunk_size_hex ds n :
  ds ≠ [] → forallb is_ascii_hexdigit ds = true → parse_hex U64_MAX ds = Some n → parse_chunk_size ds = Some n.
Proof.
  intros Hne Hds Hp. pose proof (proj1 (forallb_forall _ _) Hds) as Hall. unfold parse_chunk_size.
  assert (Hc : framing_line_clean ds = true).
  { apply forallb_forall. intros b Hb. by apply hexdigit_plain, Hall. }
  rewrite Hc. cbn [negb]. rewrite split_plain by (intros ?%list_elem_of_In%Hall%hexdigit_plain; tauto). cbn [head default id].
  rewrite trim_ows_plain.
  - rewrite Hds. rewrite bool_decide_false by done. done.
  - apply forallb_forall. intros b Hb. destruct (hexdigit_plain b (Hall b Hb)) as [-> _]. done.
Qed.

(** ** Chunks *)

Definition chunk_text (b : list Z) : list Z := hex_text (zlen b) ++ CRLF ++ b ++ CRLF.
Definition last_chunk : list Z := bs "0" ++ CRLF ++ CRLF.

Lemma chunk_texts_chunked bodies :
  Forall (fun b => 0 < zlen b <= U64_MAX) bodies →
  chunked any (concat (chunk_text <$> bodies) ++ last_chunk) (concat bodies).
Proof.
  induction 1 as [|b bodies Hb _ IH].
  - apply (ck_last any (bs "0") CRLF); [done|done|constructor].
  - cbn [fmap list_fmap concat]. unfold chunk_text at 1. rewrite <-!app_assoc.
    destruct (hex_text_push (zlen b)) as (_ & Hne & Hds & Hp); [lia|].
    apply (ck_data any _ (zlen b)); [by apply parse_chunk_size_hex|done|lia|done|done].
Qed.

(** What was cut before the last chunk holds no complete body. *)
Lemma chunk_texts_cut bodies k w t b :
  Forall (fun b => 0 < zlen b <= U64_MAX) bodies →
  k `prefix_of` concat (chunk_text <$> bodies) → chunked any w b → k ≠ w ++ t.
Proof.
  intros Hb [s E] Hw ->. pose proof (chunk_texts_chunked bodies Hb) as Hall.
  destruct (chunked_unique _ _ _ _ _ _ (t ++ s ++ last_chunk) [] Hw Hall) as [Ew _].
  { rewrite app_nil_r, E, <-!app_assoc. done. }
  apply (f_equal length) in Ew. rewrite E, !length_app in Ew. cbn in Ew. lia.
Qed.

(** ** Writes *)

(** [o'] is [o] after [k] more octets were accepted. *)
Definition sent (o o' : Out) (k : list Z) : Prop := wire o' = wire o ++ k.

Lemma write_loop_sent ws buf o ok o' :
  write_loop ws buf o = (ok, o') → ∃ k, sent o o' k ∧ k `prefix_of` buf ∧ (ok = true → k = buf).
Proof.
  revert buf o. induction ws as [|[n waited|waited| |] ws IH]; intros buf o; cbn [write_loop];
    (destruct (bool_decide_reflect (buf = [])) as [->|Hne];
      [intros [= <- <-]; exists []; split_and!; [by unfold sent; cbn; rewrite app_nil_r|apply prefix_nil|done]|]).
  - intros [= <- <-]. exists []. split_and!; [by unfold sent; cbn; rewrite app_nil_r|apply prefix_nil|done].
  - set (m := Z.max 0 (Z.min n (zlen buf))). destruct (Z.eqb_spec m 0).
    { intros [= <- <-]. exists []. split_and!; [by unfold sent; cbn; rewrite app_nil_r|apply prefix_nil|done]. }
    destruct (record _ m _) as [p|].
    + intros H. apply IH in H as (k & Hk & Hp & Hok). exists (take (Z.to_nat m) buf ++ k). split_and!.
      * unfold sent in *. rewrite Hk. cbn -[take]. by rewrite <-app_assoc.
      * rewrite <-(take_drop (Z.to_nat m) buf) at 2. by apply prefix_app.
      * intros ?. rewrite Hok by done. apply take_drop.
    + intros [= <- <-]. exists (take (Z.to_nat m) buf). split_and!; [done|by exists (drop (Z.to_nat m) buf); rewrite take_drop|done].
  - destruct (record _ 0 _) as [p|]; [exact (IH buf (o <| progress := p |>))|]. intros [= <- <-].
    exists []. split_and!; [by unfold sent; cbn; rewrite app_nil_r|apply prefix_nil|done].
  - intros [= <- <-]. exists []. split_and!; [by unfold sent; cbn; rewrite app_nil_r|apply prefix_nil|done].
  - destruct (h1_response.budget _ _); [|apply IH]. intros [= <- <-].
    exists []. split_and!; [by unfold sent; cbn; rewrite app_nil_r|apply prefix_nil|done].
Qed.

Lemma sent_nil o : sent o o [].
Proof. unfold sent. by rewrite app_nil_r. Qed.
Lemma sent_trans o o1 o2 k k' : sent o o1 k → sent o1 o2 k' → sent o o2 (k ++ k').
Proof. unfold sent. intros -> ->. by rewrite <-app_assoc. Qed.

(** The octets [all], or on failure some first part of them, were accepted. *)
Definition sends_all (o : Out) (r : bool * Out) (all : list Z) : Prop :=
  ∃ k, sent o r.2 k ∧ k `prefix_of` all ∧ (r.1 = true → k = all).

Lemma write_all_sends buf o : sends_all o (write_all buf o) buf.
Proof. unfold sends_all, write_all. destruct (write_loop _ _ _) eqn:E. by apply write_loop_sent in E. Qed.
Lemma write_vectored_sends parts o : sends_all o (write_vectored parts o) (concat parts).
Proof. unfold sends_all, write_vectored. destruct (write_loop _ _ _) eqn:E. by apply write_loop_sent in E. Qed.

(** A write followed by more, when it succeeded. *)
Lemma sends_all_seq o r r' x y :
  sends_all o r x → (r.1 = false → r'.1 = false ∧ r'.2 = r.2) → (r.1 = true → sends_all r.2 r' y) →
  sends_all o r' (x ++ y).
Proof.
  intros (k & Hk & Hp & Hok) Hf Ht. destruct r as [[] o1]; cbn in *.
  - destruct (Ht eq_refl) as (k' & Hk' & Hp' & Hok'). exists (k ++ k'). rewrite (Hok eq_refl) in *.
    split_and!; [by eapply sent_trans|by apply prefix_app|]. intros ?. by rewrite Hok'.
  - destruct (Hf eq_refl) as [E E2]. exists k. rewrite E2. split_and!; [done|by apply prefix_app_r|congruence].
Qed.

Lemma sends_all_done o : sends_all o (true, o) [].
Proof. exists []. split_and!; [apply sent_nil|done|done]. Qed.
Lemma sends_all_failed o x : sends_all o (false, o) x.
Proof. exists []. split_and!; [apply sent_nil|apply prefix_nil|done]. Qed.
Lemma sends_all_script o o' r x : wire o = wire o' → sends_all o r x → sends_all o' r x.
Proof. intros E (k & Hk & Hr). exists k. split; [|done]. unfold sent in *. by rewrite <-E. Qed.

#[local] Hint Resolve write_all_sends write_vectored_sends sends_all_done sends_all_failed : core.

Lemma paced_loop_sends fuel body o :
  (length body <= fuel)%nat → sends_all o (paced_loop fuel body o) body.
Proof.
  revert body o. induction fuel as [|fuel IH]; intros body o Hf; [by destruct body; [|cbn in Hf; lia]|].
  destruct body as [|b body]; [done|]. cbn [paced_loop]. set (n := Z.to_nat (64 * 1024)).
  assert (Hn : (0 < n)%nat) by (apply (Z2Nat.inj_lt 0 (64 * 1024)); lia). clearbody n.
  set (l := b :: body) in *. enough (H : ∀ r, r = take n l ++ drop n l → sends_all o
    match write_all (take n l) o with (true, o) => paced_loop fuel (drop n l) o | (false, o) => (false, o) end r)
    by (apply H; by rewrite take_drop). intros r ->.
  eapply sends_all_seq; [apply write_all_sends| |]; destruct (write_all _ o) as [[] o1]; cbn [fst snd]; try done.
  intros _. apply IH. rewrite length_drop. cbn in *. lia.
Qed.

Lemma paced_body_sends head body o : sends_all o (paced_h1_body head body o) (head ++ body).
Proof.
  unfold paced_h1_body. eapply sends_all_seq; [apply (write_all_sends head)| |]; destruct (write_all head o) as [[] o1]; try done.
  intros _. by apply paced_loop_sends.
Qed.

(** ** Streams *)

(** The data of a stream that ended, and of one that did not. *)
Fixpoint stream_data (rx : list StreamItem) : list (list Z) :=
  match rx with
  | Data b :: rx => if bool_decide (b = []) then stream_data rx else b :: stream_data rx
  | _ => []
  end.

Definition stream_ended (rx : list StreamItem) : bool :=
  forallb (fun i => match i with Data _ => true | _ => false end) rx.

Definition stream_text (chunked : bool) (rx : list StreamItem) : list Z :=
  if chunked then concat (chunk_text <$> stream_data rx) else concat (stream_data rx).

Definition item_fits (i : StreamItem) : Prop :=
  match i with Data b => zlen b <= U64_MAX | _ => True end.

Lemma stream_data_fits rx :
  Forall item_fits rx → Forall (fun b => 0 < zlen b <= U64_MAX) (stream_data rx).
Proof.
  induction 1 as [|[b| |] rx Hi _ IH]; cbn; [done| |done|done]. destruct (bool_decide_reflect (b = [])); [done|].
  constructor; [|done]. cbn in Hi. split; [|done]. destruct b; [done|]. rewrite zlen_cons. pose proof (zlen_nonneg b). lia.
Qed.

Lemma stream_loop_sends chunked rx o :
  Forall item_fits rx →
  ∃ r, stream_loop chunked rx o = Some r ∧ sends_all o r (stream_text chunked rx) ∧
    (r.1 = true → stream_ended rx = true).
Proof.
  intros Hf. revert o. induction Hf as [|[b| |] rx Hi _ IH]; intros o; cbn [stream_loop].
  - eexists. split; [done|]. by destruct chunked.
  - cbn [stream_ended forallb andb]. fold (stream_ended rx). unfold stream_text. cbn [stream_data].
    destruct (bool_decide_reflect (b = [])) as [->|Hne]; [apply IH|].
    assert (Hw : ∃ r0, (if chunked then prefix ← push_u64_hex [] (zlen b); Some (write_vectored [prefix ++ CRLF; b; CRLF] o)
        else Some (write_all b o)) = Some r0 ∧ sends_all o r0 (if chunked then chunk_text b else b)).
    { destruct chunked; [|by eexists]. cbn in Hi. pose proof (zlen_nonneg b).
      destruct (hex_text_push (zlen b)) as (-> & _); [lia|]. cbn. eexists. split; [done|].
      pose proof (write_vectored_sends [hex_text (zlen b) ++ CRLF; b; CRLF] o) as Hv. cbn [concat] in Hv.
      rewrite app_nil_r, <-app_assoc in Hv. exact Hv. }
    destruct Hw as ([ok o1] & -> & Hs). cbn [mbind option_bind].
    assert (Htext : stream_text chunked (Data b :: rx) = (if chunked then chunk_text b else b) ++ stream_text chunked rx).
    { unfold stream_text. cbn [stream_data]. rewrite bool_decide_false by done. by destruct chunked. }
    unfold stream_text in Htext. cbn [stream_data] in Htext. rewrite bool_decide_false in Htext by done. rewrite Htext.
    destruct ok.
    + destruct (IH o1) as (r & -> & Hr & He). exists r. split_and!; [done| |done].
      by eapply sends_all_seq; [exact Hs|done|].
    + exists (false, o1). split_and!; [done| |done]. by eapply sends_all_seq; [exact Hs|done|].
  - exists (false, o). split_and!; [done|done|done].
  - exists (false, o). split_and!; [done|done|done].
Qed.

(** ** Files *)

Lemma write_all_scripts buf o : sends (write_all buf o).2 = sends o ∧ reads (write_all buf o).2 = reads o.
Proof.
  unfold write_all. generalize (writes o) as ws. intros ws. revert buf o.
  induction ws as [|[n waited|waited| |] ws IH]; intros buf o; cbn [write_loop]; destruct (bool_decide (buf = [])); try done.
  - destruct (_ =? 0); [done|]. destruct (record _ _ _); [|done]. by rewrite !(proj1 (IH _ _)), !(proj2 (IH _ _)).
  - destruct (record _ _ _); [|done]. by rewrite !(proj1 (IH _ _)), !(proj2 (IH _ _)).
  - by destruct (h1_response.budget _ _).
Qed.

Definition script_left (o : Out) : nat := length (sends o) + length (reads o).

(** The range was sent, and was there. *)
Definition file_sent (o : Out) (r : bool * Out) (content : list Z) (offset end_ : Z) : Prop :=
  sends_all o r (slice offset end_ content) ∧ (r.1 = true → offset < end_ → end_ <= zlen content).

Lemma file_sent_failed o o' content offset end_ : wire o' = wire o → file_sent o (false, o') content offset end_.
Proof. intros E. split; [|done]. apply (sends_all_script o'); [done|]. apply sends_all_failed. Qed.

Lemma file_sent_script o o' r content offset end_ :
  wire o' = wire o → file_sent o' r content offset end_ → file_sent o r content offset end_.
Proof. intros E [Hs Hl]. split; [|done]. by apply (sends_all_script o'). Qed.

(** [n] more octets of the range. *)
Lemma file_sent_more o r r' content offset end_ n :
  0 <= offset → 0 < n <= end_ - offset → n <= zlen (drop (Z.to_nat offset) content) →
  sends_all o r (take (Z.to_nat n) (drop (Z.to_nat offset) content)) →
  (r.1 = false → r'.1 = false ∧ r'.2 = r.2) → (r.1 = true → file_sent r.2 r' content (offset + n) end_) →
  file_sent o r' content offset end_.
Proof.
  intros Ho Hn Hr Hs Hf Ht. rewrite zlen_drop in Hr. split.
  - rewrite <-(slice_snoc offset (offset + n) end_) by lia. eapply sends_all_seq; [|exact Hf|intros E; apply (Ht E)].
    unfold slice. by replace (offset + n - offset) with n by lia.
  - intros E Hlt. destruct r as [[] o1]; cbn in *; [|destruct (Hf eq_refl); congruence].
    destruct (Ht eq_refl) as [_ Hend]. destruct (Z.lt_ge_cases (offset + n) end_); [by apply Hend|lia].
Qed.

Lemma file_loop_sends fuel throttle use content offset end_ o :
  0 <= offset → (script_left o < fuel)%nat →
  ∃ r, file_loop fuel throttle use content offset end_ o = Some r ∧ file_sent o r content offset end_.
Proof.
  revert use offset o. induction fuel as [|fuel IH]; intros use offset o Ho Hf; [lia|]. cbn [file_loop].
  destruct (Z.leb_spec end_ offset).
  { eexists. split; [done|]. split; [|cbn; lia]. unfold slice.
    replace (Z.to_nat (end_ - offset)) with 0%nat by lia. apply sends_all_done. }
  set (want := Z.min (end_ - offset) _). assert (Hwant : 0 < want <= end_ - offset) by (unfold want; destruct throttle; lia).
  set (rest := drop (Z.to_nat offset) content). clearbody want. unfold script_left in *. destruct use.
  - destruct (sends o) as [|s ss] eqn:Es; [eexists; split; [done|by apply file_sent_failed]|].
    set (o1 := o <| sends := ss |>). cbn in Hf.
    destruct s as [n| |slept| |]; [| | | |eexists; split; [done|by apply file_sent_failed]].
    + set (m := Z.max 0 (Z.min (Z.min n want) (zlen rest))). destruct (Z.eqb_spec m 0); [eexists; split; [done|by apply file_sent_failed]|].
      assert (Hm : 0 < m <= want ∧ m <= zlen rest) by (pose proof (zlen_nonneg rest); lia).
      set (o2 := o1 <| wire := wire o1 ++ take (Z.to_nat m) rest |>).
      assert (H2 : sends_all o (true, o2) (take (Z.to_nat m) rest)).
      { exists (take (Z.to_nat m) rest). split_and!; [done|by exists []; rewrite app_nil_r|done]. }
      destruct (record (progress o2) m 0) as [p|].
      * destruct (IH true (offset + m) (o2 <| progress := p |>)) as (r & -> & Hr); [lia|cbn; lia|]. exists r. split; [done|].
        apply (file_sent_more o (true, o2) r content offset end_ m); [done|lia|apply Hm|done|done|]. intros _. by apply (file_sent_script _ (o2 <| progress := p |>)).
      * eexists. split; [done|]. split; [|done]. destruct H2 as (k & Hk & Hp & _). exists k. split_and!; [done| |done].
        rewrite <-(slice_snoc offset (offset + m) end_) by lia. apply prefix_app_r. unfold slice.
        by replace (offset + m - offset) with m by lia.
    + destruct (IH true offset o1) as (r & -> & Hr); [done|cbn; lia|]. exists r. split; [done|]. by apply (file_sent_script _ o1).
    + destruct (record (progress o1) 0 slept) as [p|]; [|eexists; split; [done|by apply file_sent_failed]].
      destruct (IH true offset (o1 <| progress := p |>)) as (r & -> & Hr); [done|cbn; lia|]. exists r.
      split; [done|]. by apply (file_sent_script _ (o1 <| progress := p |>)).
    + destruct (IH false offset o1) as (r & -> & Hr); [done|cbn; lia|]. exists r. split; [done|]. by apply (file_sent_script _ o1).
  - destruct (reads o) as [|[n|] rs] eqn:Er; try (eexists; split; [done|by apply file_sent_failed]).
    set (o1 := o <| reads := rs |>). cbn in Hf. set (m := Z.max 0 (Z.min (Z.min n (Z.min want H1_FILE_READ_CHUNK)) (zlen rest))).
    destruct (Z.eqb_spec m 0); [eexists; split; [done|by apply file_sent_failed]|].
    assert (Hm : 0 < m <= want ∧ m <= zlen rest) by (pose proof (zlen_nonneg rest); lia).
    pose proof (write_all_sends (take (Z.to_nat m) rest) o1) as Hw.
    pose proof (write_all_scripts (take (Z.to_nat m) rest) o1) as [E1 E2].
    destruct (write_all (take (Z.to_nat m) rest) o1) as [[] o2] eqn:Ew; cbn [snd] in E1, E2.
    + destruct (IH false (offset + m) o2) as (r & -> & Hr); [lia|rewrite E1, E2; cbn; lia|]. exists r. split; [done|].
      apply (file_sent_script _ o1); [done|]. by apply (file_sent_more o1 (true, o2) r content offset end_ m); [done|lia|apply Hm|exact Hw| |].
    + eexists. split; [done|]. apply (file_sent_script _ o1); [done|].
      by apply (file_sent_more o1 (false, o2) _ content offset end_ m); [done|lia|apply Hm|exact Hw| |].
Qed.

End response_wire.
