(* ===== verification/H1ResponseTheorems.v ===== *)
(** * Reading back an HTTP/1.1 response

    [read_final] reads the head of a response as a client does, past interim responses, and
    [delimits] is the body length rule of RFC 9112, section 6.3. What [write_h1_response]
    sent is read back as the response it was given. *)

From stdpp Require Import base list strings.
From Stdlib Require Import ZArith Lia.
From S2P Require Import Prelude RustStr HttpUtil HpackString HpackTable H2Response.
From S2P Require Import H1Codec H1Chunked H1Response H1ResponseWire.

Import headers http_util h1_response chunked_body response_wire.
Import (hints) codec.
#[local] Open Scope record_scope.

Module response_read.

Abbreviation trim_ows := codec.trim_ows.
Abbreviation find_crlf := codec.find_crlf.

(** ** The reader *)

Definition read_line (s : list Z) : option (list Z * list Z) :=
  k ← find_crlf s; Some (take (Z.to_nat k) s, drop (Z.to_nat k + 2) s).

Fixpoint read_fields (fuel : nat) (s : list Z) : option (HeaderMap * list Z) :=
  match fuel with
  | O => None
  | S fuel =>
      '(line, rest) ← read_line s;
      if bool_decide (line = []) then Some ([], rest)
      else
        '(name, value) ← split_once 0x3a line;
        '(fields, rest) ← read_fields fuel rest;
        Some ((name, trim_ows value) :: fields, rest)
  end.

Definition read_head (s : list Z) : option (Z * HeaderMap * list Z) :=
  '(line, rest) ← read_line s;
  line ← strip_prefix (bs "HTTP/1.1 ") line;
  '(code, _) ← split_once 0x20 line;
  status ← parse_u64 code;
  '(fields, rest) ← read_fields (length rest) rest;
  Some (status, fields, rest).

(** Past [interims] responses of class 1xx. *)
Fixpoint read_final (interims : nat) (s : list Z) : option (Z * HeaderMap * list Z) :=
  match read_head s with
  | None => None
  | Some (status, fields, rest) =>
      if between 100 199 status && negb (status =? 101) then
        match interims with O => None | S n => read_final n rest end
      else Some (status, fields, rest)
  end.

(** The octets after the head that are the body, and whether the end of the connection ends
    them. *)
Inductive delimits (is_head : bool) (status : Z) (fields : HeaderMap) : list Z → list Z → bool → Prop :=
| dl_none :
    is_head = true ∨ 100 <= status <= 199 ∨ status = 204 ∨ status = 304 →
    delimits is_head status fields [] [] false
| dl_chunked w b :
    is_head = false → status ≠ 204 → status ≠ 304 →
    get_all fields (bs "transfer-encoding") = [bs "chunked"] →
    get_all fields (bs "content-length") = [] → chunked any w b →
    delimits is_head status fields w b false
| dl_length w v :
    is_head = false → status ≠ 204 → status ≠ 304 →
    get_all fields (bs "transfer-encoding") = [] →
    get_all fields (bs "content-length") = [v] → parse_u64 v = Some (zlen w) →
    delimits is_head status fields w w false
| dl_close w :
    is_head = false → status ≠ 204 → status ≠ 304 →
    get_all fields (bs "transfer-encoding") = [] → get_all fields (bs "content-length") = [] →
    delimits is_head status fields w w true.

(** ** Heads *)

Definition field_text (f : list Z * list Z) : list Z := f.1 ++ bs ": " ++ f.2 ++ CRLF.

Definition head_text (status : Z) (reason : list Z) (fields : HeaderMap) : list Z :=
  bs "HTTP/1.1 " ++ to_string status ++ [0x20] ++ reason ++ CRLF
  ++ concat (field_text <$> fields) ++ CRLF.

(** A field the [http] crate admits. *)
Definition field_ok (f : list Z * list Z) : Prop :=
  f.1 ≠ [] ∧ clean f.1 ∧ (0x3a ∉ f.1) ∧ clean f.2.

Lemma field_ok_const n v :
  negb (bytes_eqb n []) && codec.framing_line_clean n && negb (contains n 0x3a) = true → clean v → field_ok (n, v).
Proof.
  rewrite !andb_true_iff, !negb_true_iff. intros [[Hne Hn] Hc] Hv. split_and!; [|done| |done].
  - by apply bytes_eqb_neq in Hne.
  - by apply contains_false.
Qed.

Lemma clean_app a b : clean a → clean b → clean (a ++ b).
Proof. unfold clean, codec.framing_line_clean. intros Ha Hb. by rewrite forallb_app, Ha, Hb. Qed.

Lemma read_line_clean l rest : clean l → read_line (l ++ CRLF ++ rest) = Some (l, rest).
Proof.
  intros Hl. unfold read_line. rewrite find_crlf_clean by done. cbn [mbind option_bind].
  unfold zlen. rewrite Nat2Z.id, take_app_length. rewrite <-drop_drop, drop_app_length. done.
Qed.

Lemma trim_ows_space v : trim_ows (0x20 :: v) = trim_ows v.
Proof. done. Qed.

Lemma read_fields_text fuel fields rest :
  Forall field_ok fields → (length fields < fuel)%nat →
  read_fields fuel (concat (field_text <$> fields) ++ CRLF ++ rest)
  = Some ((fun f => (f.1, trim_ows f.2)) <$> fields, rest).
Proof.
  intros Hf. revert fuel. induction Hf as [|[n v] fields (Hne & Hn & Hc & Hv) _ IH]; intros [|fuel] Hl; cbn in Hl; try lia.
  - cbn [fmap list_fmap concat read_fields]. by rewrite (read_line_clean [] rest).
  - cbn [fmap list_fmap concat read_fields]. unfold field_text at 1. cbn [fst snd] in *.
    assert (E : forall x, (n ++ bs ": " ++ v ++ CRLF) ++ x = (n ++ 0x3a :: 0x20 :: v) ++ CRLF ++ x).
    { intros x. by rewrite <-!app_assoc. }
    rewrite <-app_assoc, E, read_line_clean; [|by apply clean_app]. cbn [mbind option_bind].
    rewrite bool_decide_false by (by destruct n).
    rewrite (proj2 (split_once_some _ _ n (0x20 :: v))) by done. cbn [mbind option_bind].
    rewrite IH by lia. cbn [mbind option_bind]. by rewrite trim_ows_space.
Qed.

Lemma digits_loop_digits fuel n acc :
  0 <= n → forallb is_ascii_digit acc = true → forallb is_ascii_digit (digits_loop fuel n acc) = true.
Proof.
  revert n acc. induction fuel as [|fuel IH]; intros n acc Hn Ha; [done|]. cbn [digits_loop].
  pose proof (Z.mod_pos_bound n 10 ltac:(lia)).
  assert (Hd : forallb is_ascii_digit ((0x30 + n mod 10) :: acc) = true).
  { cbn. rewrite Ha, andb_true_r. unfold is_ascii_digit, between. by rewrite !(proj2 (Z.leb_le _ _)) by lia. }
  destruct (n <? 10); [done|]. apply IH; [by apply Z.div_pos|done].
Qed.

Lemma to_string_digits n b : 0 <= n → b ∈ to_string n → is_ascii_digit b = true.
Proof.
  intros Hn Hb. pose proof (digits_loop_digits 20 n [] Hn eq_refl) as H. rewrite forallb_forall in H.
  by apply H, list_elem_of_In.
Qed.

Lemma digits_plain s :
  (∀ b, b ∈ s → is_ascii_digit b = true) →
  clean s ∧ (0x20 ∉ s) ∧ (0x3a ∉ s) ∧ forallb (fun b => negb (codec.is_ows b)) s = true.
Proof.
  intros Hs. assert (Hr : ∀ b, b ∈ s → 0x30 <= b <= 0x39).
  { intros b Hb. specialize (Hs b Hb). unfold is_ascii_digit, between in Hs. bool_hyps. lia. }
  split_and!.
  - apply forallb_forall. intros b Hb%list_elem_of_In%Hr. rewrite (proj2 (Z.leb_le _ _)) by lia.
    rewrite (proj2 (Z.eqb_neq b 0x7f)) by lia. apply orb_true_r.
  - intros ?%Hr. lia.
  - intros ?%Hr. lia.
  - apply forallb_forall. intros b Hb%list_elem_of_In%Hr. unfold codec.is_ows.
    by rewrite !(proj2 (Z.eqb_neq _ _)) by lia.
Qed.

Lemma read_head_text status reason fields rest :
  0 <= status <= U64_MAX → clean reason → Forall field_ok fields →
  read_head (head_text status reason fields ++ rest)
  = Some (status, (fun f => (f.1, trim_ows f.2)) <$> fields, rest).
Proof.
  intros Hs Hr Hf. unfold read_head, head_text.
  destruct (digits_plain (to_string status)) as (Hc & Hsp & _); [intros b; apply to_string_digits; lia|].
  assert (E : ∀ x, (bs "HTTP/1.1 " ++ to_string status ++ [0x20] ++ reason ++ CRLF ++ x) ++ rest
    = (bs "HTTP/1.1 " ++ to_string status ++ 0x20 :: reason) ++ CRLF ++ x ++ rest).
  { intros x. by rewrite <-!app_assoc. }
  rewrite E, read_line_clean by (apply clean_app; [done|apply clean_app; [done|exact Hr]]). cbn [mbind option_bind].
  rewrite (proj2 (strip_prefix_some _ _ (to_string status ++ 0x20 :: reason))) by done. cbn [mbind option_bind].
  rewrite (proj2 (split_once_some _ _ (to_string status) reason)) by done. cbn [mbind option_bind].
  rewrite parse_to_string by done. cbn [mbind option_bind]. rewrite <-app_assoc, read_fields_text; [done|done|].
  rewrite !length_app. cbn. assert (length fields <= length (concat (field_text <$> fields)))%nat; [|lia].
  clear. induction fields as [|f fields IH]; cbn; [lia|]. unfold field_text at 1. rewrite !length_app. cbn. lia.
Qed.

Definition framing_field (framing : H1ResponseFraming) : HeaderMap :=
  match framing with
  | ContentLength n => [(bs "content-length", to_string n)]
  | Chunked => [(bs "transfer-encoding", bs "chunked")]
  | Unframed => []
  end.

Definition framing_ok (framing : H1ResponseFraming) : Prop :=
  match framing with ContentLength n => 0 <= n <= U64_MAX | _ => True end.

(** A field of the response that is passed on. *)
Definition kept (f : list Z * list Z) : Prop :=
  bytes_eqb f.1 (bs "content-length") || is_hop_by_hop_response f.1 = false.

Section read.
Context `{Http : HttpCrate, Text : StatusText}.

(** [HeaderMap::iter] yields fields of the map, and reason phrases have no line ends. *)
Hypothesis iter_fields : ∀ m f, f ∈ header_iter m → f ∈ m.
Hypothesis reason_clean : ∀ status, clean (default [] (canonical_reason status)).

Definition response_fields (m : HeaderMap) (framing : H1ResponseFraming) (keep_alive : bool) : HeaderMap :=
  filter kept (header_iter m) ++ framing_field framing
  ++ [(bs "connection", if keep_alive then bs "keep-alive" else bs "close")].

Lemma push_head_fields out fs :
  fold_left (fun out f =>
    if bytes_eqb f.1 (bs "content-length") || is_hop_by_hop_response f.1 then out else push_field out f) fs out
  = out ++ concat (field_text <$> filter kept fs).
Proof.
  revert out. induction fs as [|f fs IH]; intros out; cbn [fold_left]; [by rewrite app_nil_r|].
  rewrite IH. destruct (_ || is_hop_by_hop_response f.1) eqn:Ek; rewrite filter_cons.
  - by rewrite decide_False by (unfold kept; congruence).
  - rewrite decide_True by exact Ek. cbn [fmap list_fmap concat]. unfold push_field, field_text. by rewrite <-!app_assoc.
Qed.

Lemma serialize_text status m framing keep_alive :
  0 <= status <= U64_MAX → framing_ok framing →
  serialize_h1_head_framed status m framing keep_alive
  = Some (head_text status (default [] (canonical_reason status)) (response_fields m framing keep_alive)).
Proof.
  intros Hs Hf. unfold serialize_h1_head_framed, push_h1_status_line. rewrite push_decimal by done.
  cbn [mbind option_bind]. rewrite push_head_fields. unfold response_fields, head_text.
  rewrite !fmap_app, !concat_app. destruct framing as [n| |]; cbn [framing_field framing_ok] in *.
  - rewrite push_decimal by done. cbn [mbind option_bind fmap list_fmap concat]. f_equal. unfold field_text.
    rewrite app_nil_r, <-!app_assoc. by destruct keep_alive.
  - cbn [mbind option_bind fmap list_fmap concat]. f_equal. unfold field_text.
    rewrite app_nil_r, <-!app_assoc. by destruct keep_alive.
  - cbn [mbind option_bind fmap list_fmap concat]. f_equal. unfold field_text.
    rewrite <-!app_assoc. by destruct keep_alive.
Qed.

Lemma response_fields_ok m framing keep_alive :
  Forall field_ok m → framing_ok framing → Forall field_ok (response_fields m framing keep_alive).
Proof.
  intros Hm Hf. unfold response_fields. rewrite !Forall_app. split_and!.
  - apply Forall_forall. intros f [_ Hi]%list_elem_of_filter. apply iter_fields in Hi. by eapply Forall_forall in Hm.
  - destruct framing as [n| |]; cbn in *; [|by constructor; [apply field_ok_const|]|done].
    constructor; [|done]. apply field_ok_const; [done|]. apply digits_plain. intros b. apply to_string_digits. lia.
  - constructor; [|done]. apply field_ok_const; [done|by destruct keep_alive].
Qed.

(** What the client sees of the fields. *)
Definition seen (fs : HeaderMap) : HeaderMap := (fun f => (f.1, trim_ows f.2)) <$> fs.

Lemma get_all_seen fs n : get_all (seen fs) n = trim_ows <$> get_all fs n.
Proof.
  induction fs as [|[k v] fs IH]; [done|]. change (seen ((k, v) :: fs)) with ((k, trim_ows v) :: seen fs).
  rewrite !get_all_cons, IH. by case_decide.
Qed.

Lemma get_all_app fs gs n : get_all (fs ++ gs) n = get_all fs n ++ get_all gs n.
Proof. unfold get_all. by rewrite filter_app, fmap_app. Qed.

Lemma get_all_kept fs n :
  bytes_eqb n (bs "content-length") || is_hop_by_hop_response n = true → get_all (filter kept fs) n = [].
Proof.
  intros Hn. induction fs as [|[k v] fs IH]; [done|]. rewrite filter_cons.
  destruct (bytes_eqb k (bs "content-length") || is_hop_by_hop_response k) eqn:Ek.
  - by rewrite decide_False by (unfold kept; cbn [fst]; congruence).
  - rewrite decide_True by exact Ek. rewrite get_all_cons, IH. rewrite decide_False; [done|]. congruence.
Qed.

Definition framing_values (framing : H1ResponseFraming) : list (list Z) * list (list Z) :=
  match framing with
  | ContentLength n => ([], [to_string n])
  | Chunked => ([bs "chunked"], [])
  | Unframed => ([], [])
  end.

Lemma response_framing m framing keep_alive :
  framing_ok framing → let fs := seen (response_fields m framing keep_alive) in
  get_all fs (bs "transfer-encoding") = (framing_values framing).1 ∧
  get_all fs (bs "content-length") = (framing_values framing).2 ∧
  get_all fs (bs "connection") = [if keep_alive then bs "keep-alive" else bs "close"].
Proof.
  intros Hf fs. unfold fs, response_fields. rewrite !get_all_seen, !get_all_app, !get_all_kept by done.
  destruct framing as [n| |]; cbn [framing_field framing_values fst snd]; rewrite !get_all_cons; cbn in Hf.
  - assert (Ht : trim_ows (to_string n) = to_string n).
    { apply trim_ows_plain, digits_plain. intros b. apply to_string_digits. lia. }
    split_and!; [by destruct keep_alive| |by destruct keep_alive].
    change ([trim_ows (to_string n)] = [to_string n]). by rewrite Ht.
  - by destruct keep_alive.
  - by destruct keep_alive.
Qed.

(** ** Interim responses *)

Lemma lossy_clean s : clean s → clean (utf8_lossy s).
Proof.
  assert (Hc : ∀ b s, clean (b :: s) ↔ (b =? 0x09) || ((0x20 <=? b) && negb (b =? 0x7f)) = true ∧ clean s).
  { intros. unfold clean, codec.framing_line_clean. cbn [forallb]. apply andb_true_iff. }
  assert (Hbad : ∀ s, clean s → clean ([0xef; 0xbf; 0xbd] ++ s)) by (intros; by apply clean_app).
  induction s as [s IH] using (induction_ltof1 _ length). intros Hs.
  assert (Hrec : ∀ t, (length t < length s)%nat → clean t → clean (utf8_lossy t)) by (intros; by apply IH).
  clear IH. destruct s as [|b s1]; [done|]. apply Hc in Hs as [Hb Hs1]. cbn [utf8_lossy].
  destruct (b <? 0x80); [apply Hc; split; [done|apply Hrec; [cbn; lia|done]]|].
  destruct (between 0xc2 0xdf b).
  { destruct s1 as [|c s2]; [done|]. pose proof (proj1 (Hc _ _) Hs1) as [Hcc Hs2].
    destruct (cont c); [do 2 (apply Hc; split; [done|])|apply Hbad]; apply Hrec; (done || cbn; lia). }
  destruct (between 0xe0 0xf4 b); [|apply Hbad, Hrec; (done || cbn; lia)].
  destruct s1 as [|c s2]; [done|]. pose proof (proj1 (Hc _ _) Hs1) as [Hcc Hs2].
  destruct (utf8_second b c); [|apply Hbad, Hrec; (done || cbn; lia)].
  destruct s2 as [|d s3]; [done|]. pose proof (proj1 (Hc _ _) Hs2) as [Hcd Hs3].
  destruct (cont d); [|apply Hbad, Hrec; (done || cbn; lia)].
  destruct (b <? 0xf0); [do 3 (apply Hc; split; [done|]); apply Hrec; (done || cbn; lia)|].
  destruct s3 as [|e s4]; [done|]. pose proof (proj1 (Hc _ _) Hs3) as [Hce Hs4].
  destruct (cont e); [do 4 (apply Hc; split; [done|])|apply Hbad]; apply Hrec; (done || cbn; lia).
Qed.

Lemma early_hints_text m interim :
  Forall field_ok m → build_103_early_hints m = Some interim →
  ∃ fs, Forall field_ok fs ∧ interim = head_text 103 (bs "Early Hints") fs.
Proof.
  intros Hm. unfold build_103_early_hints. set (links := filter _ _). destruct (bool_decide _); [done|]. intros [= <-].
  assert (Hl : ∀ v, v ∈ links → clean v).
  { intros v [_ Hv]%list_elem_of_filter. unfold get_all in Hv. apply list_elem_of_fmap in Hv as (f & -> & Hf).
    apply list_elem_of_filter in Hf as [_ Hf]. by eapply Forall_forall in Hm as (_ & _ & _ & Hv). }
  clearbody links. exists ((fun v => (bs "Link", utf8_lossy v)) <$> links). split.
  - apply Forall_fmap, Forall_forall. intros v Hv. apply field_ok_const; [done|]. by apply lossy_clean, Hl.
  - unfold head_text. rewrite !app_assoc. f_equal.
    assert (E : ∀ ls x, fold_left (fun interim v => interim ++ bs "Link: " ++ utf8_lossy v ++ CRLF) ls x
      = x ++ concat (field_text <$> ((fun v => (bs "Link", utf8_lossy v)) <$> ls))).
    { induction ls as [|v ls IH]; intros x; cbn [fold_left]; [by rewrite app_nil_r|]. rewrite IH.
      cbn [fmap list_fmap concat]. unfold field_text at 2. by rewrite <-!app_assoc. }
    rewrite E. done.
Qed.

(** The head is found past an interim response. *)
Lemma read_final_text m (http10 : bool) status reason fields rest :
  Forall field_ok m → Forall field_ok fields → clean reason → 200 <= status <= 999 →
  read_final 1 (with_interim (if http10 then None else build_103_early_hints m) (head_text status reason fields) ++ rest)
  = Some (status, seen fields, rest).
Proof.
  intros Hm Hf Hr Hs. assert (U : 999 < U64_MAX) by done.
  assert (Hfin : between 100 199 status = false) by (unfold between; apply andb_false_iff; right; apply Z.leb_gt; lia).
  assert (Hone : ∀ n, read_final n (head_text status reason fields ++ rest) = Some (status, seen fields, rest)).
  { intros n. destruct n; cbn [read_final]; rewrite read_head_text, Hfin by (done || lia); done. }
  destruct http10; [apply Hone|]. destruct (build_103_early_hints m) as [interim|] eqn:Ei; [|apply Hone].
  destruct (early_hints_text m interim Hm Ei) as (fs & Hfs & ->). cbn [with_interim]. rewrite <-app_assoc.
  cbn [read_final]. rewrite read_head_text by (done || lia). cbn [read_final]. apply (Hone 0%nat).
Qed.

(** ** Bodies *)

Lemma delimits_forbidden m known_len is_head status keep_alive :
  200 <= status → response_body_forbidden is_head status = true →
  let framing := h1_response_framing status m known_len is_head in framing_ok framing →
  delimits is_head status (seen (response_fields m framing keep_alive)) [] [] false.
Proof.
  intros Hs Hf framing Hok. unfold response_body_forbidden, body_forbidden_status in Hf.
  destruct is_head; [by apply dl_none; left|]. cbn in Hf.
  assert (Hc : status = 204 ∨ status = 304 ∨ status = 205).
  { unfold between in Hf. bool_hyps; try lia; auto. }
  destruct Hc as [->|[->| ->]]; [apply dl_none; auto..|].
  pose proof (response_framing m framing keep_alive Hok) as (E1 & E2 & _). by apply (dl_length _ _ _ [] (to_string 0)).
Qed.

Lemma framing_plain m known_len is_head status :
  response_body_forbidden is_head status = false →
  is_head = false ∧ status ≠ 204 ∧ status ≠ 304 ∧
  h1_response_framing status m known_len is_head = match known_len with Some n => ContentLength n | None => Chunked end.
Proof.
  unfold response_body_forbidden, body_forbidden_status, h1_response_framing. destruct is_head; [done|]. cbn [orb].
  rewrite !orb_false_iff. intros [[[Hi H204] H205] H304]. rewrite Hi, H204, H205, H304. cbn.
  apply Z.eqb_neq in H204, H304. done.
Qed.

Lemma declared_loop_range vs d n :
  (∀ n, d = Some n → 0 <= n <= U64_MAX) → declared_loop vs d = Some n → 0 <= n <= U64_MAX.
Proof.
  revert d. induction vs as [|v vs IH]; intros d Hd; cbn; [apply Hd|]. destruct (negb _); [done|].
  destruct (parse_u64 (trim v)) as [k|] eqn:Ek; [|done]. apply parse_unsigned_range in Ek; [|done].
  destruct d as [prior|]; [destruct (prior =? k); [|done]|]; apply IH; by intros ? [= <-].
Qed.

Lemma response_framing_ok m known_len is_head status :
  (∀ n, known_len = Some n → 0 <= n <= U64_MAX) → framing_ok (h1_response_framing status m known_len is_head).
Proof.
  intros Hk. assert (Hd : ∀ n, declared_response_length m = Some n → 0 <= n <= U64_MAX).
  { intros n. by apply declared_loop_range. }
  unfold h1_response_framing. destruct (_ || _); [done|]. destruct (_ =? 205); [done|].
  destruct (declared_response_length m) as [d|], known_len as [k|]; destruct (_ =? 304); try destruct is_head; cbn; auto.
Qed.

(** ** Responses *)

Definition file_bounds (fb : FileBody) : Z * Z :=
  match file_range fb with
  | Some (start, end_) => (start, u64 (saturating_sub end_ start + 1))
  | None => (0, file_len fb)
  end.

Definition payload (b : BridgeBody) : list Z :=
  match b with
  | Full b => b
  | File fb =>
      let '(start, len) := file_bounds fb in codec.slice start (start + len) (default [] (file fb))
  | Stream rx _ => concat (stream_data rx)
  end.

(** Lengths are of their machine type, and a stream of a declared length that ends has it. *)
Definition body_ok (b : BridgeBody) : Prop :=
  match b with
  | Full b => zlen b <= U64_MAX
  | File fb =>
      0 <= file_len fb <= U64_MAX ∧ ∀ start end_, file_range fb = Some (start, end_) → 0 <= start
  | Stream rx len =>
      Forall item_fits rx ∧
      ∀ n, len = Some n → 0 <= n <= U64_MAX ∧ (stream_ended rx = true → zlen (concat (stream_data rx)) = n)
  end.

(** The client reads [k] as the response, whatever follows it. *)
Definition reads_as (is_head : bool) (resp : BridgeResp) (out : WriteOutcome) (k : list Z) : Prop :=
  ∃ fields wire until_close,
    (∀ more, read_final 1 (k ++ more) = Some (status resp, fields, wire ++ more)) ∧
    delimits is_head (status resp) fields wire
      (if response_body_forbidden is_head (status resp) then [] else payload (body resp)) until_close ∧
    get_all fields (bs "connection") = [if close out then bs "close" else bs "keep-alive"] ∧
    (until_close = true → close out = true).

(** The interim response, the head and the body of a response. *)
Definition message (m : HeaderMap) (http10 : bool) (status : Z) (framing : H1ResponseFraming)
    (keep_alive : bool) (body : list Z) : list Z :=
  with_interim (if http10 then None else build_103_early_hints m)
    (head_text status (default [] (canonical_reason status)) (response_fields m framing keep_alive)) ++ body.

Lemma message_reads resp http10 is_head framing keep_alive wire until_close :
  Forall field_ok (headers resp) → 200 <= status resp <= 999 → framing_ok framing →
  delimits is_head (status resp) (seen (response_fields (headers resp) framing keep_alive)) wire
    (if response_body_forbidden is_head (status resp) then [] else payload (body resp)) until_close →
  (until_close = true → keep_alive = false) →
  reads_as is_head resp (outcome_new false keep_alive)
    (message (headers resp) http10 (status resp) framing keep_alive wire).
Proof.
  intros Hm Hs Hf Hd Hu. eexists _, wire, until_close. split_and!.
  - intros more. unfold message. rewrite <-app_assoc. apply read_final_text; [done| |apply reason_clean|done].
    by apply response_fields_ok.
  - done.
  - rewrite (proj2 (proj2 (response_framing _ framing keep_alive Hf))). by destruct keep_alive.
  - intros E. cbn. by rewrite (Hu E).
Qed.

Lemma with_interim_app interim a b : with_interim interim a ++ b = with_interim interim (a ++ b).
Proof. destruct interim; cbn; [by rewrite <-app_assoc|done]. Qed.

(** The write reports success only when the client can read the response. *)
Definition written (is_head : bool) (resp : BridgeResp) (o : Out) (r : option (WriteOutcome * Out)) : Prop :=
  ∃ out o' k, r = Some (out, o') ∧ sent o o' k ∧ (failed out = true → close out = true) ∧
    (failed out = false → reads_as is_head resp out k).

Lemma full_reads resp b is_head keep_alive http10 throttle sendfile_fd send_window o :
  body resp = Full b → body_ok (Full b) → Forall field_ok (headers resp) → 200 <= status resp <= 999 →
  written is_head resp o (write_h1_response resp is_head keep_alive http10 throttle sendfile_fd send_window o).
Proof.
  intros Eb Hb Hm Hs. cbn in Hb. unfold written, write_h1_response. rewrite Eb. unfold serialize_h1_response_head.
  set (o0 := o <| progress := _ |>). set (known := if negb is_head || (0 <? zlen b) then Some (zlen b) else None). pose proof (zlen_nonneg b).
  assert (Hf : framing_ok (h1_response_framing (status resp) (headers resp) known is_head)).
  { apply response_framing_ok. intros n. unfold known. destruct (_ || _); [intros [= <-]; lia|done]. }
  rewrite serialize_text by (done || unfold U64_MAX; lia). cbn [mbind option_bind].
  set (framing := h1_response_framing _ _ _ _) in *. set (head := with_interim _ _).
  set (r := if response_body_forbidden _ _ || _ then _ else _).
  assert (Hr : sends_all o0 r (head ++ if response_body_forbidden is_head (status resp) then [] else b)).
  { subst r. destruct (response_body_forbidden _ _); cbn [orb]; [rewrite app_nil_r; apply write_all_sends|].
    destruct (bool_decide_reflect (b = [])) as [->|]; [rewrite app_nil_r; apply write_all_sends|].
    destruct throttle; [apply paced_body_sends|]. rewrite <-(app_nil_r b) at 2. apply write_vectored_sends. }
  destruct r as [ok o'] eqn:Er. destruct Hr as (k & Hk & _ & Hok). eexists _, o', k. split; [done|]. split; [done|].
  split; [by destruct ok|]. destruct ok; [|done]. intros _. specialize (Hok eq_refl). subst k.
  assert (Hd : delimits is_head (status resp) (seen (response_fields (headers resp) framing keep_alive))
    (if response_body_forbidden is_head (status resp) then [] else b)
    (if response_body_forbidden is_head (status resp) then [] else b) false).
  { destruct (response_body_forbidden is_head (status resp)) eqn:Ef; [apply delimits_forbidden; (done || lia)|].
    destruct (framing_plain (headers resp) known _ _ Ef) as (-> & H1 & H2 & E3). fold framing in E3. cbn in known.
    destruct (response_framing (headers resp) framing keep_alive Hf) as (E1 & E2 & _). rewrite E3 in E1, E2, Hf |- *.
    cbn in E1, E2, Hf. apply (dl_length _ _ _ b (to_string (zlen b))); try done. by apply parse_to_string. }
  apply (message_reads resp http10 is_head framing keep_alive _ false); try done.
  rewrite Eb. cbn [payload]. exact Hd.
Qed.

(** A body of known length, when it was sent whole. *)
Lemma delimits_length m is_head status keep_alive wire :
  response_body_forbidden is_head status = false → zlen wire <= U64_MAX →
  let framing := h1_response_framing status m (Some (zlen wire)) is_head in
  delimits is_head status (seen (response_fields m framing keep_alive)) wire wire false.
Proof.
  intros Ef Hl framing. destruct (framing_plain m (Some (zlen wire)) _ _ Ef) as (-> & H1 & H2 & E3). unfold framing.
  rewrite E3. pose proof (zlen_nonneg wire).
  destruct (response_framing m (ContentLength (zlen wire)) keep_alive) as (E1 & E2 & _); [cbn; lia|].
  apply (dl_length _ _ _ wire (to_string (zlen wire))); try done. apply parse_to_string. lia.
Qed.

Lemma file_sends fb start len m (http10 : bool) is_head status keep_alive throttle sendfile_fd o wire :
  body_ok (File fb) → 0 <= status <= 999 → file_bounds fb = (start, len) →
  wire = (if response_body_forbidden is_head status then [] else payload (File fb)) →
  ∃ r, write_h1_file (if http10 then None else build_103_early_hints m) status m fb is_head keep_alive
         throttle sendfile_fd o = Some r ∧
    sends_all o r (message m http10 status (h1_response_framing status m (Some len) is_head) keep_alive wire) ∧
    0 <= len <= U64_MAX ∧
    (r.1 = true → response_body_forbidden is_head status = false → zlen wire = len).
Proof.
  intros [Hlen Hrange] Hs Ebd Ewire. unfold write_h1_file. fold (file_bounds fb). rewrite Ebd.
  assert (Hb : 0 <= start ∧ 0 <= len <= U64_MAX).
  { unfold file_bounds in Ebd. destruct (file_range fb) as [[a e]|]; injection Ebd as <- <-; [|lia].
    split; [by eapply Hrange|]. unfold u64, wrap, U64_MAX. pose proof (Z.mod_pos_bound (saturating_sub e a + 1) (2 ^ 64)). lia. }
  destruct Hb as [Hst Hl]. unfold serialize_h1_stream_head.
  rewrite serialize_text by (first [unfold U64_MAX; lia | apply response_framing_ok; intros ? [= <-]; done]).
  cbn [mbind option_bind]. set (head := with_interim _ _).
  assert (Hwire : ∀ r, sends_all o r (head ++ wire) →
    sends_all o r (message m http10 status (h1_response_framing status m (Some len) is_head) keep_alive wire)) by done.
  pose proof (write_all_sends head o) as Hw. destruct (write_all head o) as [[] o1] eqn:Ew.
  2:{ eexists. split_and!; [done| |lia|lia|done]. apply Hwire. by eapply sends_all_seq. }
  cbn [payload] in Ewire. rewrite Ebd in Ewire. destruct (response_body_forbidden is_head status); cbn [orb].
  { eexists. split_and!; [done| |lia|lia|done]. apply Hwire. by rewrite Ewire, app_nil_r. }
  destruct (Z.eqb_spec len 0) as [->|Hnz].
  { assert (Hnil : wire = []) by (rewrite Ewire; unfold codec.slice; by replace (start + 0 - start) with 0 by lia).
    eexists. split_and!; [done| |lia|lia|by rewrite Hnil]. apply Hwire. rewrite Hnil. by rewrite app_nil_r. }
  assert (Hfail : ∃ r, Some (false, o1) = Some r ∧ sends_all o r (head ++ wire) ∧ 0 <= len <= U64_MAX ∧
    (r.1 = true → false = false → zlen wire = len)).
  { eexists. split_and!; [done| |lia|lia|done]. eapply sends_all_seq; [exact Hw|done|]. intros _. apply sends_all_failed. }
  destruct (file fb) as [content|]; [|done]. destruct (checked_add start len) as [e|] eqn:Ec; [|done].
  assert (e = start + len) as -> by (unfold checked_add in Ec; destruct (_ <=? _); congruence).
  destruct (file_loop_sends (length (sends o1) + length (reads o1) + 2) throttle sendfile_fd content start (start + len) o1)
    as (r & -> & Hr & Hend); [done|unfold script_left; lia|].
  exists r. split_and!; [done| |lia|lia|].
  - apply Hwire. eapply sends_all_seq; [exact Hw|done|]. intros _. by rewrite Ewire.
  - intros Hok _. specialize (Hend Hok ltac:(lia)). rewrite Ewire. cbn [default id]. rewrite slice_length by lia. lia.
Qed.

Lemma file_reads resp fb is_head keep_alive http10 throttle sendfile_fd send_window o :
  body resp = File fb → body_ok (File fb) → Forall field_ok (headers resp) → 200 <= status resp <= 999 →
  written is_head resp o (write_h1_response resp is_head keep_alive http10 throttle sendfile_fd send_window o).
Proof.
  intros Eb Hb Hm Hs. unfold written, write_h1_response. rewrite Eb. set (o0 := o <| progress := _ |>).
  destruct (file_bounds fb) as [start len] eqn:Ebd.
  destruct (file_sends fb start len (headers resp) http10 is_head (status resp) keep_alive throttle sendfile_fd o0
    _ Hb ltac:(lia) Ebd eq_refl) as ([ok o'] & -> & Hs' & Hl & Hz). cbn [mbind option_bind].
  destruct Hs' as (k & Hk & _ & Hok). eexists _, o', k. split; [done|]. split; [done|]. split; [by destruct ok|].
  destruct ok; [|done]. intros _. rewrite (Hok eq_refl).
  apply (message_reads resp http10 is_head _ keep_alive _ false); try done.
  - apply response_framing_ok. intros ? [= <-]. lia.
  - rewrite Eb. destruct (response_body_forbidden is_head (status resp)) eqn:Ef.
    + apply delimits_forbidden; [lia|done|]. apply response_framing_ok. intros ? [= <-]. lia.
    + specialize (Hz eq_refl eq_refl). revert Hz. set (wire := payload (File fb)). intros <-. apply delimits_length; [done|lia].
Qed.

(** The octets after the head of a streamed response, if it is sent whole. *)
Definition stream_wire (chunked : bool) (rx : list StreamItem) : list Z :=
  stream_text chunked rx ++ if chunked then last_chunk else [].

Lemma framing_chunked m len is_head status :
  h1_response_framing status m len is_head = Chunked → response_body_forbidden is_head status = false ∧ len = None.
Proof.
  unfold h1_response_framing, response_body_forbidden, body_forbidden_status.
  destruct (between 100 199 status), (status =? 204), (status =? 205), (status =? 304), is_head; cbn; try done;
    destruct (declared_response_length m); destruct len; done.
Qed.

(** The connection ends a body of unknown length for a client of HTTP/1.0. *)
Definition close_delimited (http10 : bool) (framing : H1ResponseFraming) : bool :=
  http10 && match framing with Chunked => true | _ => false end.

Lemma stream_sends m http10 status rx len is_head keep_alive o :
  body_ok (Stream rx len) → 0 <= status <= 999 →
  let f := h1_response_framing status m len is_head in
  let cd := close_delimited http10 f in
  let forbidden := response_body_forbidden is_head status in
  let chunked := bool_decide (len = None) && negb cd in
  let all := message m http10 status (if cd then Unframed else f) (keep_alive && negb cd)
               (if forbidden then [] else stream_wire chunked rx) in
  ∃ ok o', write_h1_stream (if http10 then None else build_103_early_hints m) status m rx len is_head
      keep_alive http10 o = Some (outcome_new (negb ok) (keep_alive && negb cd), o') ∧
    sends_all o (ok, o') all ∧
    (forbidden = false → stream_ended rx = false → ok = false ∧
      sends_all o (ok, o') (message m http10 status (if cd then Unframed else f) (keep_alive && negb cd)
        (stream_text chunked rx))).
Proof.
  intros [Hrx Hlen] Hs f cd forbidden chunked all. unfold write_h1_stream. fold f.
  change (http10 && _) with cd. unfold serialize_h1_stream_head. fold f.
  assert (Hf : framing_ok f) by (apply response_framing_ok; intros n Hn; by apply Hlen in Hn as [? _]).
  set (head := head_text status (default [] (canonical_reason status))
    (response_fields m (if cd then Unframed else f) (keep_alive && negb cd))).
  assert (Eh : (if cd then serialize_h1_head_framed status m Unframed false
    else serialize_h1_head_framed status m f (keep_alive && negb cd)) = Some head).
  { unfold head. assert (0 <= status <= U64_MAX) by (unfold U64_MAX; lia).
    destruct cd; rewrite serialize_text by done; [by rewrite andb_false_r|done]. }
  rewrite Eh. cbn [mbind option_bind]. set (wi := with_interim _ head).
  assert (Hall : all = wi ++ if forbidden then [] else stream_wire chunked rx) by done. clearbody all.
  change (message _ _ _ _ _ (stream_text chunked rx)) with (wi ++ stream_text chunked rx).
  pose proof (write_all_sends wi o) as Hw. destruct (write_all wi o) as [[] o1].
  2:{ exists false, o1. split_and!; [done| |intros _ _; split; [done|]]; [rewrite Hall|]; by eapply sends_all_seq. }
  fold forbidden. destruct forbidden.
  { exists true, o1. split_and!; [done| |done]. by rewrite Hall, app_nil_r. }
  fold chunked. destruct (stream_loop_sends chunked rx o1 Hrx) as ([ok o2] & -> & Hr & He). cbn [mbind option_bind fst] in *.
  assert (Htext : sends_all o (ok, o2) (wi ++ stream_text chunked rx)) by (by eapply sends_all_seq; [exact Hw|done|]).
  unfold stream_wire in Hall. rewrite app_assoc in Hall. rewrite Hall. destruct ok.
  2:{ exists false, o2. split_and!; [done| |done]. by eapply sends_all_seq; [exact Htext|done|]. }
  rewrite He by done. destruct chunked.
  - pose proof (write_all_sends last_chunk o2) as Hl. fold last_chunk. destruct (write_all last_chunk o2) as [ok o3].
    exists ok, o3. split_and!; [by destruct ok| |done]. by eapply sends_all_seq; [exact Htext|done|].
  - exists true, o2. split_and!; [done| |done]. by rewrite app_nil_r.
Qed.

Lemma stream_reads resp rx len is_head keep_alive http10 throttle sendfile_fd send_window o :
  body resp = Stream rx len → body_ok (Stream rx len) → Forall field_ok (headers resp) → 200 <= status resp <= 999 →
  written is_head resp o (write_h1_response resp is_head keep_alive http10 throttle sendfile_fd send_window o).
Proof.
  intros Eb Hb Hm Hs. unfold written, write_h1_response. rewrite Eb. set (o0 := o <| progress := _ |>).
  destruct (stream_sends (headers resp) http10 (status resp) rx len is_head keep_alive o0 Hb ltac:(lia))
    as (ok & o' & -> & (k & Hk & _ & Hok) & He).
  eexists _, o', k. split; [done|]. split; [done|]. split; [by destruct ok|]. destruct ok; [|done]. intros _.
  rewrite (Hok eq_refl). destruct Hb as [Hrx Hlen].
  set (f := h1_response_framing (status resp) (headers resp) len is_head) in *.
  assert (Hf : framing_ok f) by (apply response_framing_ok; intros n Hn; by apply Hlen in Hn as [? _]).
  destruct (close_delimited http10 f) eqn:Ecd.
  - apply andb_true_iff in Ecd as [-> Ef]. destruct f eqn:Eff; try done. apply framing_chunked in Eff as [Efb ->].
    apply (message_reads resp true is_head Unframed _ _ true); try done; [|by rewrite andb_false_r].
    destruct (framing_plain (headers resp) None _ _ Efb) as (-> & H1 & H2 & _). rewrite Efb, Eb. cbn [payload negb].
    rewrite andb_false_r. unfold stream_wire, stream_text. rewrite app_nil_r.
    destruct (response_framing (headers resp) Unframed false) as (E1 & E2 & _); [done|]. by apply dl_close.
  - apply (message_reads resp http10 is_head f _ _ false); try done.
    destruct (response_body_forbidden is_head (status resp)) eqn:Efb; [apply delimits_forbidden; (done || lia)|].
    destruct (stream_ended rx) eqn:Een; [|by destruct (He eq_refl eq_refl)]. rewrite Eb. cbn [payload negb]. rewrite andb_true_r. destruct len as [n|].
    + destruct (Hlen n eq_refl) as [Hn Hz]. specialize (Hz eq_refl). cbn. unfold stream_wire, stream_text. rewrite app_nil_r.
      subst n. apply delimits_length; [done|lia].
    + destruct (framing_plain (headers resp) None _ _ Efb) as (-> & H1 & H2 & E3). fold f in E3. cbn in E3. cbn.
      destruct (response_framing (headers resp) f keep_alive Hf) as (E1 & E2 & _). rewrite E3 in *.
      apply dl_chunked; try done. by apply chunk_texts_chunked, stream_data_fits.
Qed.

(** A response whose parts are of their types. *)
Definition response_ok (resp : BridgeResp) : Prop :=
  body_ok (body resp) ∧ Forall field_ok (headers resp) ∧ 200 <= status resp <= 999.

Lemma response_written resp is_head keep_alive http10 throttle sendfile_fd send_window o :
  response_ok resp →
  written is_head resp o (write_h1_response resp is_head keep_alive http10 throttle sendfile_fd send_window o).
Proof.
  intros (Hb & Hm & Hs). destruct (body resp) eqn:Eb; [by eapply full_reads|by eapply file_reads|by eapply stream_reads].
Qed.

Lemma upgrade_total m : is_Some (serialize_h1_upgrade_response 101 m).
Proof.
  unfold serialize_h1_upgrade_response, push_h1_status_line. rewrite push_decimal by done. cbn [mbind option_bind].
  destruct (fold_left _ _ _) as [[x y] z]. by eexists.
Qed.


(** When the source of a streamed response ends before its end, the write is reported
    failed, the connection closes, and what is on the wire after the head is no complete
    chunked body, nor begins with one. *)
Theorem aborted_stream_unfinished m status rx is_head keep_alive o out o' :
  Forall item_fits rx → stream_ended rx = false → 0 <= status <= 999 →
  h1_response_framing status m None is_head = Chunked →
  write_h1_stream (build_103_early_hints m) status m rx None is_head keep_alive false o = Some (out, o') →
  failed out = true ∧ close out = true ∧
  ∀ wire w t b, sent o o' (message m false status Chunked keep_alive wire) → chunked any w b → wire ≠ w ++ t.
Proof.
  intros Hrx Hend Hs Hf Hw. pose proof (framing_chunked _ _ _ _ Hf) as [Hfb _].
  destruct (stream_sends m false status rx None is_head keep_alive o) as (ok & o1 & E & _ & He); [done|done|].
  cbn [negb] in E. rewrite Hw in E. injection E as -> ->. destruct (He Hfb Hend) as (-> & k & Hk & Hp & _).
  rewrite Hf in Hp. cbn in Hp, Hk. rewrite andb_true_r in Hp. split_and!; [done|done|].
  intros wire w t b Hs'. assert (k = message m false status Chunked keep_alive wire) as ->.
  { unfold sent in *. rewrite Hk in Hs'. by apply app_inv_head in Hs'. }
  apply chunk_texts_cut with (bodies := stream_data rx); [by apply stream_data_fits|].
  unfold message in Hp. by apply prefix_app_inv in Hp.
Qed.

End read.

(** ** The send-progress clock *)

(** The attempts of a response's writes: the octets each moved and the time it waited. *)
Fixpoint record_all (p : SendProgress) (attempts : list (Z * Z)) : option SendProgress :=
  match attempts with
  | [] => Some p
  | (moved, waited) :: attempts => p ← record p moved waited; record_all p attempts
  end.

Definition total_moved (attempts : list (Z * Z)) : Z := fold_right (fun a n => a.1 + n) 0 attempts.
Definition total_waited (attempts : list (Z * Z)) : Z := fold_right (fun a n => a.2 + n) 0 attempts.

Definition attempt_ok (a : Z * Z) : Prop := 0 <= a.1 <= U64_MAX - H1_SEND_MIN_PROGRESS ∧ 0 <= a.2.

Definition clock_ok (w : Z) (p : SendProgress) : Prop :=
  window p = Some w ∧ 0 <= blocked p < w ∧ 0 <= progressed p < H1_SEND_MIN_PROGRESS.

(** An attempt pays its wait from the window, and earns a window for each 16 KiB. *)
Lemma record_clock w p moved waited p' :
  0 < w → clock_ok w p → attempt_ok (moved, waited) → blocked p + waited <= DURATION_MAX →
  record p moved waited = Some p' →
  clock_ok w p' ∧ blocked p' <= blocked p + waited ∧ ∃ earned, 0 <= earned ∧ blocked p + waited <= blocked p' + w * earned ∧
    progressed p + moved = progressed p' + H1_SEND_MIN_PROGRESS * earned.
Proof.
  intros Hw (Ew & Hb & Hp) [Hm Ht] Hd. cbn in Hm, Ht. unfold clock_ok, record. rewrite Ew. cbn zeta.
  unfold saturating_add, dur_add. cbn -[H1_SEND_MIN_PROGRESS U64_MAX DURATION_MAX Z.mul Z.add Z.sub Z.max Z.min Z.div Z.modulo dur_mul].
  rewrite (Z.min_l (progressed p + moved)), (Z.min_l (blocked p + waited)) by lia.
  assert (Hmin : 0 < H1_SEND_MIN_PROGRESS) by done. set (M := H1_SEND_MIN_PROGRESS) in *. clearbody M.
  pose proof (Z.div_mod (progressed p + moved) M ltac:(lia)). pose proof (Z.mod_pos_bound (progressed p + moved) M Hmin).
  assert (0 <= (progressed p + moved) / M) by (apply Z.div_pos; lia). set (e := (progressed p + moved) / M) in *. clearbody e.
  destruct (Z.ltb_spec 0 e); cbn -[Z.mul Z.add Z.sub Z.max Z.min dur_mul Z.modulo].
  - set (credit := dur_mul w _). assert (0 <= credit <= w * e) by (unfold credit, dur_mul; nia).
    unfold saturating_sub. destruct (Z.leb_spec w (Z.max (blocked p + waited - credit) 0)); [done|]. intros [= <-].
    split; [|split; [|exists e]]; cbn -[Z.mul Z.add Z.sub Z.max Z.modulo]; [split_and!; (done || lia)|lia|lia].
  - destruct (Z.leb_spec w (blocked p + waited)); [done|]. intros [= <-].
    split; [|split; [|exists 0]]; cbn -[Z.mul Z.add]; [split_and!; (done || nia)|lia|lia].
Qed.

(** A client that reads a response slowly is waited for less than one window plus one
    window for each 16 KiB it took. *)
Theorem slow_reader_cut_off w attempts p :
  0 < w → Forall attempt_ok attempts → total_waited attempts <= DURATION_MAX →
  record_all (progress_new (Some w)) attempts = Some p →
  total_waited attempts < w * (1 + total_moved attempts / H1_SEND_MIN_PROGRESS).
Proof.
  intros Hw Hok Hd Hr.
  assert (H : ∀ p0, clock_ok w p0 → blocked p0 + total_waited attempts <= DURATION_MAX →
    record_all p0 attempts = Some p →
    clock_ok w p ∧ ∃ earned, 0 <= earned ∧ blocked p0 + total_waited attempts <= blocked p + w * earned ∧
      progressed p0 + total_moved attempts = progressed p + H1_SEND_MIN_PROGRESS * earned).
  { clear Hr Hd. induction Hok as [|[moved waited] attempts Ha Hok IH]; intros p0 Hc Hd.
    - intros [= <-]. split; [done|]. exists 0. cbn. lia.
    - cbn [record_all total_waited total_moved fold_right fst snd] in *. fold (total_waited attempts) (total_moved attempts) in *.
      assert (0 <= total_waited attempts).
      { clear -Hok. induction Hok as [|a l [_ Ha] _ IH]; cbn; [done|]. unfold total_waited in IH. lia. }
      destruct (record p0 moved waited) as [p1|] eqn:E1; [|done]. cbn [mbind option_bind].
      destruct (record_clock w p0 moved waited p1) as (Hc1 & Hle1 & e1 & He1 & Hb1 & Hp1); [done|done|done|lia|done|].
      intros Hr. destruct Hc1 as (Ew1 & Hbl1 & Hpr1). destruct (IH p1) as (Hc2 & e2 & He2 & Hb2 & Hp2); [done| |done|].
      + lia.
      + split; [done|]. exists (e1 + e2). lia. }
  destruct (H (progress_new (Some w))) as ((_ & Hb & Hp) & e & He & Hle & Hmv); [by split_and!; cbn|done|done|].
  cbn [blocked progressed progress_new] in Hle, Hmv.
  assert (total_moved attempts / H1_SEND_MIN_PROGRESS = e) as ->; [|nia].
  symmetry. apply (Z.div_unique_pos _ _ _ (progressed p)); [done|lia].
Qed.

(** ** An example *)

Definition example_text : StatusText := fun s => if s =? 200 then Some (bs "OK") else None.

Definition example_resp : BridgeResp :=
  {| status := 200;
     headers := [(bs "link", bs "</a.css>; rel=preload"); (bs "content-length", bs "9");
                 (bs "x-a", bs "b")];
     body := Stream [Data (bs "hello "); Data []; Data (bs "world")] None |}.

Definition example_out : Out :=
  {| wire := []; writes := [Accepted 3 1; Interrupted 0; Accepted 1000 2; Accepted 5 1; Accepted 999 0;
       Accepted 999 0; Accepted 999 0; Accepted 999 0]; sends := []; reads := [];
     progress := progress_new None |}.

Lemma example_fields_ok : Forall field_ok (headers example_resp).
Proof. repeat (apply Forall_cons; split; [by apply field_ok_const|]). constructor. Qed.

Lemma example_iter m f : f ∈ @header_iter http_ascii m → f ∈ m.
Proof. done. Qed.

Lemma example_reason status : clean (default [] (@canonical_reason example_text status)).
Proof. unfold canonical_reason, example_text. by destruct (status =? 200). Qed.


Lemma slow_reader_cut_off_witness :
  total_waited [(20000, 5); (0, 3)] < 6 * (1 + total_moved [(20000, 5); (0, 3)] / H1_SEND_MIN_PROGRESS).
Proof.
  eapply (slow_reader_cut_off 6 [(20000, 5); (0, 3)]).
  - lia.
  - repeat (apply Forall_cons; split; [split; [by split|done]|]). constructor.
  - done.
  - vm_compute. reflexivity.
Defined.

Definition example_aborted : list StreamItem := [Data (bs "half"); UpstreamAbort].

Lemma aborted_stream_unfinished_witness :
  ∃ out o', @write_h1_stream http_ascii example_text (build_103_early_hints []) 200 [] example_aborted None false
      true false example_out = Some (out, o') ∧
    failed out = true ∧ close out = true ∧
    ∀ wire w t b, sent example_out o' (@message http_ascii example_text [] false 200 Chunked true wire) →
      chunked any w b → wire ≠ w ++ t.
Proof.
  eexists _, _. split; [vm_compute; reflexivity|].
  eapply (@aborted_stream_unfinished http_ascii example_text [] 200 example_aborted false true example_out).
  - repeat (apply Forall_cons; split; [by vm_compute|]). constructor.
  - reflexivity.
  - lia.
  - reflexivity.
  - vm_compute. reflexivity.
Defined.

End response_read.
