(* ===== verification/H1Head.v ===== *)
(** * HTTP/1.1 request heads: [crates/httpjet/src/uring/mod.rs]

    What the intake makes of a parsed head: the method, the target, the header map and the
    framing of the body. The parser itself is the [httparse] crate, and the parts of a URI
    are those of the [http] crate: both are parameters. *)

From stdpp Require Import base list strings.
From Stdlib Require Import ZArith Lia.
From S2P Require Import Prelude RustStr HttpUtil Net H1Codec.

Import headers http_util codec.
#[local] Open Scope record_scope.

(** A head as [httparse::Request] holds it. *)
Record RawHead : Type := {
  raw_method : option (list Z);
  raw_path : option (list Z);
  raw_version : option Z;
  raw_headers : list (list Z * list Z);
}.

(** [httparse::Request::parse]. *)
Class Httparse : Type := parse_head : list Z → HeadStatus * RawHead.

(** What [httparse] promises of a complete head: it is a nonempty prefix of the buffer,
    and what follows it does not change it. *)
Class HttparseLaws `{Httparse} : Prop :=
  parse_complete buf n raw :
    parse_head buf = (codec.Complete n, raw) →
    0 < n <= zlen buf ∧ ∀ more, parse_head (take (Z.to_nat n) buf ++ more) = (codec.Complete n, raw).

(** [httparse] does not take back an error when more arrives. *)
Class HttparseFinal `{Httparse} : Prop :=
  parse_error_final buf more st :
    (parse_head buf).1 = st → st = codec.TooManyHeaders ∨ st = codec.OtherError → (parse_head (buf ++ more)).1 = st.

(** The parts of [http::Uri]. *)
Class UriParts `{HttpCrate} : Type := {
  uri_scheme_str : Uri → option (list Z);
  uri_authority : Uri → option (list Z);
  uri_path : Uri → list Z;
  uri_query : Uri → option (list Z);
}.

Module h1_head.

Definition expect_is_100_continue (value : list Z) : bool :=
  eq_ignore_ascii_case (trim_ascii value) (bs "100-continue").

Definition request_target `{UriParts} (method raw : list Z) (uri : Uri)
    : option (Uri * option (list Z)) :=
  if bytes_eqb raw (bs "*") then
    if bytes_eqb method (bs "OPTIONS") then Some (uri, None) else None
  else if starts_with raw (bs "/") then
    if negb (uri_has_scheme uri) && negb (uri_has_authority uri) then Some (uri, None) else None
  else
    scheme ← uri_scheme_str uri;
    if negb (eq_ignore_ascii_case scheme (bs "http")) && negb (eq_ignore_ascii_case scheme (bs "https"))
    then None
    else
      authority ← uri_authority uri;
      if negb (net.valid_http_authority authority) then None
      else
        let path := if bool_decide (uri_path uri = []) then bs "/" else uri_path uri in
        let origin :=
          match uri_query uri with Some query => path ++ bs "?" ++ query | None => path end in
        uri ← uri_try_from origin;
        Some (uri, Some authority).

Inductive ParsedReq `{HttpCrate} : Type :=
| Parsed (method : list Z) (uri : Uri) (headers : HeaderMap) (head_len : Z) (framing : BodyFraming)
    (keep_alive expect_continue http10 : bool)
| ParsedPartial
| ParsedBad
| MethodNotAllowed
| HeadersTooLarge.

(** The locals of the loop over the header lines. *)
Record Scan : Type := {
  host_value : option (list Z);
  hdr_map : HeaderMap;
  cl_values : list (list Z);
  chunked : bool;
  te_other : bool;
  host_count : Z;
  conn_close : bool;
  close_option : bool;
  expect_continue : bool;
}.

#[export] Instance Scan_eta : Eta Scan := fun r =>
  {| host_value := host_value r; hdr_map := hdr_map r; cl_values := cl_values r;
     chunked := chunked r; te_other := te_other r; host_count := host_count r;
     conn_close := conn_close r; close_option := close_option r;
     expect_continue := expect_continue r |}.
#[export] Instance set_host_value : Setter host_value := ltac:(derive_setter).
#[export] Instance set_hdr_map : Setter hdr_map := ltac:(derive_setter).
#[export] Instance set_cl_values : Setter cl_values := ltac:(derive_setter).
#[export] Instance set_chunked : Setter chunked := ltac:(derive_setter).
#[export] Instance set_te_other : Setter te_other := ltac:(derive_setter).
#[export] Instance set_host_count : Setter host_count := ltac:(derive_setter).
#[export] Instance set_conn_close : Setter conn_close := ltac:(derive_setter).
#[export] Instance set_close_option : Setter close_option := ltac:(derive_setter).
#[export] Instance set_expect_continue : Setter expect_continue := ltac:(derive_setter).

Definition connection_tokens (value : list Z) (s : Scan) : Scan :=
  fold_left (fun s tok =>
    let tok := trim_ascii tok in
    if eq_ignore_ascii_case tok (bs "close") then
      s <| close_option := true |> <| conn_close := true |>
    else if eq_ignore_ascii_case tok (bs "keep-alive") && negb (close_option s) then
      s <| conn_close := false |>
    else s) (split 0x2c value) s.

(** The end of the loop body: the line joins the map. *)
Definition scan_append `{HttpCrate} (h : list Z * list Z) (s : Scan) : Scan :=
  match header_name h.1 with
  | Some n =>
      if header_value_ok h.2 then
        if bytes_eqb n (bs "content-length") && contains_key (hdr_map s) (bs "content-length") then s
        else s <| hdr_map := append (hdr_map s) n h.2 |>
      else s
  | None => s
  end.

Definition scan_header `{HttpCrate} (version : option Z) (s : Scan) (h : list Z * list Z) : Scan :=
  let named name := eq_ignore_ascii_case h.1 (bs name) in
  let s :=
    if named "expect" then
      s <| expect_continue := bool_decide (version = Some 1) && expect_is_100_continue h.2 |>
    else s in
  if named "content-length" then scan_append h (s <| cl_values := cl_values s ++ [h.2] |>)
  else if named "transfer-encoding" then
    if te_is_chunked h.2 then s <| chunked := true |> else s <| te_other := true |>
  else if named "host" then
    scan_append h
      (s <| host_count := host_count s + 1 |>
         <| host_value := match host_value s with Some v => Some v | None => Some h.2 end |>)
  else if named "connection" then scan_append h (connection_tokens h.2 s)
  else scan_append h s.

Definition scan_start (version : option Z) : Scan :=
  {| host_value := None; hdr_map := []; cl_values := []; chunked := false; te_other := false;
     host_count := 0; conn_close := bool_decide (version = Some 0); close_option := false;
     expect_continue := false |}.

Definition materialize_head `{UriParts} (req : RawHead) (head_len : Z) : ParsedReq :=
  let method := default (bs "GET") (raw_method req) in
  if negb (method_ok method) then ParsedBad
  else if bytes_eqb method (bs "CONNECT") then MethodNotAllowed
  else
    let raw_target := default (bs "/") (raw_path req) in
    if contains raw_target 0x23 then ParsedBad
    else
      match uri ← uri_try_from raw_target; request_target method raw_target uri with
      | None => ParsedBad
      | Some (uri, target_authority) =>
          let version := raw_version req in
          let s := fold_left (scan_header version) (raw_headers req) (scan_start version) in
          let m := coalesce_cookie_crumbs (hdr_map s) in
          let host :=
            match target_authority with
            | Some authority =>
                if header_value_from_str_ok authority then Some (insert m (bs "host") authority) else None
            | None =>
                match host_value s with
                | Some value => if utf8_valid value && net.valid_http_authority value then Some m else None
                | None => if bool_decide (version = Some 1) then None else Some m
                end
            end in
          match host with
          | None => ParsedBad
          | Some m =>
              let framing :=
                if 1 <? host_count s then Reject
                else if bool_decide (version = Some 0) && (chunked s || te_other s) then Reject
                else classify_framing (cl_values s) (chunked s) (te_other s) in
              Parsed method uri m head_len framing (negb (conn_close s)) (expect_continue s)
                (bool_decide (version = Some 0))
          end
      end.

End h1_head.

(** A parser of request heads: the laws asked of [httparse] above hold of one that waits for
    the empty line, and cuts what is before it at line ends, colons and spaces. The examples
    of the connection run on it. *)
Module plain_parser.

(** Where the head ends. *)
Fixpoint head_end (buf : list Z) : option nat :=
  if bool_decide (take 4 buf = CRLF ++ CRLF) then Some 4%nat
  else match buf with [] => None | _ :: buf => S <$> head_end buf end.

Definition field_line (line : list Z) : option (list Z * list Z) :=
  nv ← split_once 0x3a line; Some (nv.1, trim_ascii nv.2).

Definition raw_head (head : list Z) : RawHead :=
  let lines := split 0x0a head in
  let words := split 0x20 (trim_ascii (default [] (lines !! 0%nat))) in
  {| raw_method := words !! 0%nat;
     raw_path := words !! 1%nat;
     raw_version := if bytes_eqb (default [] (words !! 2%nat)) (bs "HTTP/1.0") then Some 0 else Some 1;
     raw_headers := omap field_line (drop 1 lines) |}.

#[export] Instance parser : Httparse := fun buf =>
  match head_end buf with
  | Some n => (codec.Complete (Z.of_nat n), raw_head (take n buf))
  | None => (codec.Partial, raw_head [])
  end.

#[export] Instance parts : @UriParts http_ascii :=
  @Build_UriParts http_ascii (fun _ => None) (fun _ => None) (fun u => u) (fun _ => None).

Lemma head_end_bound buf n : head_end buf = Some n → (4 <= n <= length buf)%nat.
Proof.
  revert n. induction buf as [|x buf IH]; intros n; cbn [head_end];
    (case_bool_decide as Ht; [apply (f_equal length) in Ht; rewrite length_take in Ht; change (length (CRLF ++ CRLF)) with 4%nat in Ht; intros [= <-]; lia|]).
  - done.
  - destruct (head_end buf) as [k|]; [|done]. intros [= <-]. specialize (IH k eq_refl). cbn. lia.
Qed.

Lemma head_end_more buf n more : head_end buf = Some n → head_end (take n buf ++ more) = Some n.
Proof.
  revert n. induction buf as [|x buf IH]; intros n Hn; pose proof (head_end_bound _ _ Hn) as Hb; [cbn in Hb; lia|].
  assert (Ht : take 4 (take n (x :: buf) ++ more) = take 4 (x :: buf)).
  { rewrite take_app_le by (rewrite length_take; lia). rewrite take_take. f_equal. lia. }
  cbn [head_end] in Hn. case_bool_decide as E.
  - injection Hn as <-. cbn [take app head_end]. cbn [take app] in Ht. rewrite bool_decide_true; [done|]. rewrite Ht. exact E.
  - destruct (head_end buf) as [k|] eqn:Ek; [|done]. injection Hn as <-. cbn [take app head_end] in Ht |- *.
    rewrite bool_decide_false by (rewrite Ht; exact E). by rewrite (IH k eq_refl).
Qed.

#[export] Instance parser_laws : HttparseLaws.
Proof.
  intros buf n raw. unfold parse_head, parser. destruct (head_end buf) as [k|] eqn:E; [|done]. intros [= <- <-].
  pose proof (head_end_bound _ _ E). split; [unfold zlen; lia|]. intros more.
  rewrite Nat2Z.id, (head_end_more _ _ more E). do 2 f_equal. rewrite take_app_le by (rewrite length_take; lia).
  rewrite take_take. f_equal. lia.
Qed.

#[export] Instance parser_final : HttparseFinal.
Proof.
  intros buf more st. unfold parse_head, parser. destruct (head_end buf); cbn; intros <- [H|H]; discriminate H.
Qed.

End plain_parser.
