(* ===== verification/H1HeadTheorems.v ===== *)
(** * What a request head says after the intake

    The framing of a body against its three inputs, and that the header map handed on agrees
    with it: no Transfer-Encoding, at most one Content-Length and that of the framing, and
    one valid Host. *)

From stdpp Require Import base list strings.
From Stdlib Require Import ZArith Lia.
From S2P Require Import Prelude RustStr HttpUtil Net H1Codec H1Head.

Import headers http_util codec h1_head.
#[local] Open Scope record_scope.

(** What the [http] crate documents of names and values. *)
Class HttpLaws `{HttpCrate} : Prop := {
  (** A name is kept in lower case. *)
  header_name_lower s n : header_name s = Some n → n = to_ascii_lowercase s;
  (** Letters and hyphens make a name. *)
  header_name_total s :
    s ≠ [] → forallb (fun b => is_ascii_alphabetic b || (b =? 0x2d)) s = true → is_Some (header_name s);
  (** A value has no control characters but the tab. *)
  header_value_total v :
    forallb (fun b => (b =? 9) || ((32 <=? b) && negb (b =? 127))) v = true → header_value_ok v = true;
  (** Visible ASCII is a value as a string. *)
  header_value_from_str_total v : forallb (between 32 126) v = true → header_value_from_str_ok v = true;
}.

#[export] Instance http_ascii_laws : @HttpLaws http_ascii.
Proof.
  split; cbn.
  - intros s n. case_bool_decide; [done|]. by intros [= <-].
  - intros s Hs _. rewrite bool_decide_false by done. by eexists.
  - done.
  - intros v Hv. apply forallb_forall. intros b Hb. rewrite forallb_forall in Hv. by rewrite (Hv b Hb).
Qed.

Module head_theorems.

(** ** Framing *)

(** Every value is the length [n]. *)
Definition agreed (n : Z) (vs : list (list Z)) : Prop := Forall (fun v => parse_length v = Some n) vs.

Lemma resolve_loop_from vs n :
  resolve_loop vs (Some n) = if decide (agreed n vs) then Some (Some n) else None.
Proof.
  induction vs as [|v vs IH]; cbn [resolve_loop]; [by rewrite decide_True by constructor|].
  destruct (parse_length v) as [k|] eqn:Ek; [|rewrite decide_False; [done|]; intros [? _]%Forall_cons; congruence].
  destruct (Z.eqb_spec n k) as [<-|Hne]; cbn [negb].
  - rewrite IH. destruct (decide (agreed n vs)) as [Ha|Ha].
    + by rewrite decide_True by (by constructor).
    + rewrite decide_False; [done|]. by intros [_ ?]%Forall_cons.
  - rewrite decide_False; [done|]. intros [? _]%Forall_cons. congruence.
Qed.

Lemma resolve_spec vs :
  match resolve_content_length vs with
  | Some None => vs = []
  | Some (Some n) => vs ≠ [] ∧ agreed n vs
  | None => vs ≠ [] ∧ ∀ n, ¬ agreed n vs
  end.
Proof.
  unfold resolve_content_length. destruct vs as [|v vs]; [done|]. cbn [resolve_loop].
  destruct (parse_length v) as [n|] eqn:En.
  - rewrite resolve_loop_from. destruct (decide (agreed n vs)) as [Ha|Ha].
    + split; [done|]. by constructor.
    + split; [done|]. intros k [Ek Hk]%Forall_cons. assert (k = n) as -> by congruence. done.
  - split; [done|]. intros k [Ek _]%Forall_cons. congruence.
Qed.

Lemma agreed_unique n k vs : vs ≠ [] → agreed n vs → agreed k vs → n = k.
Proof. destruct vs as [|v vs]; [done|]. intros _ [E1 _]%Forall_cons [E2 _]%Forall_cons. congruence. Qed.


(** ** The header map *)

Lemma eq_ignore_case_lower s lit :
  to_ascii_lowercase lit = lit → eq_ignore_ascii_case s lit = true ↔ to_ascii_lowercase s = lit.
Proof. intros E. unfold eq_ignore_ascii_case. rewrite E. apply bytes_eqb_eq. Qed.

Lemma lower_letters s :
  forallb (fun b => is_ascii_alphabetic b || (b =? 0x2d)) (to_ascii_lowercase s) = true →
  forallb (fun b => is_ascii_alphabetic b || (b =? 0x2d)) s = true.
Proof.
  induction s as [|b s IH]; [done|]. cbn [to_ascii_lowercase fmap list_fmap forallb]. rewrite !andb_true_iff.
  intros [Hb Hs]. split; [|by apply IH]. unfold to_ascii_lowercase_u8 in Hb.
  destruct (is_ascii_uppercase b) eqn:E; [|done]. unfold is_ascii_alphabetic. by rewrite E, orb_true_r.
Qed.

Section laws.
Context `{Http : HttpCrate, Laws : !HttpLaws}.

Abbreviation admitted := (fun v => header_value_ok v = true).

(** The name of a line that is spelt [lit] up to case. *)
Lemma named_header s lit :
  lit ≠ [] → forallb (fun b => is_ascii_alphabetic b || (b =? 0x2d)) lit = true →
  to_ascii_lowercase s = lit → header_name s = Some lit.
Proof.
  intros Hne Hl E. destruct (header_name_total s) as [n En].
  - by intros ->; subst lit.
  - apply lower_letters. by rewrite E.
  - rewrite En. f_equal. apply header_name_lower in En. congruence.
Qed.

Lemma append_other h s k : to_ascii_lowercase h.1 ≠ k → get_all (hdr_map (scan_append h s)) k = get_all (hdr_map s) k.
Proof.
  intros Hk. unfold scan_append. destruct (header_name h.1) as [n|] eqn:En; [|done].
  apply header_name_lower in En as ->. destruct (header_value_ok h.2); [|done]. destruct (_ && _); [done|].
  cbn -[get_all append]. rewrite get_all_append, decide_False by done. apply app_nil_r.
Qed.

Lemma append_fields h s :
  let s' := scan_append h s in
  cl_values s' = cl_values s ∧ host_value s' = host_value s ∧ host_count s' = host_count s.
Proof. unfold scan_append. by repeat case_match. Qed.

Lemma tokens_fields value s :
  let s' := connection_tokens value s in
  hdr_map s' = hdr_map s ∧ cl_values s' = cl_values s ∧ host_value s' = host_value s ∧ host_count s' = host_count s.
Proof.
  unfold connection_tokens. generalize (split 0x2c value) as toks. intros toks. revert s.
  induction toks as [|t toks IH]; intros s; cbn [fold_left]; [done|].
  destruct (eq_ignore_ascii_case _ (bs "close")); [exact (IH (s <| close_option := true |> <| conn_close := true |>))|].
  destruct (_ && _); [exact (IH (s <| conn_close := false |>))|exact (IH s)].
Qed.

(** The lines read so far, [hosts] those of Host. *)
Record scanned (hosts : list (list Z)) (s : Scan) : Prop := {
  sc_te : get_all (hdr_map s) (bs "transfer-encoding") = [];
  sc_cl : get_all (hdr_map s) (bs "content-length") = take 1 (filter admitted (cl_values s));
  sc_first : host_value s = head hosts;
  sc_count : host_count s = zlen hosts;
  sc_host : get_all (hdr_map s) (bs "host") = filter admitted hosts;
}.

Lemma scanned_same hosts s s' :
  hdr_map s' = hdr_map s → cl_values s' = cl_values s → host_value s' = host_value s → host_count s' = host_count s →
  scanned hosts s → scanned hosts s'.
Proof. intros E1 E2 E3 E4 []. split; by rewrite ?E1, ?E2, ?E3, ?E4. Qed.

(** A line of another name. *)
Lemma scanned_other hosts s h :
  scanned hosts s → to_ascii_lowercase h.1 ≠ bs "transfer-encoding" →
  to_ascii_lowercase h.1 ≠ bs "content-length" → to_ascii_lowercase h.1 ≠ bs "host" →
  scanned hosts (scan_append h s).
Proof.
  intros [] H1 H2 H3. destruct (append_fields h s) as (E1 & E2 & E3).
  split; rewrite ?append_other, ?E1, ?E2, ?E3 by done; done.
Qed.

Lemma scanned_length hosts s h :
  scanned hosts s → to_ascii_lowercase h.1 = bs "content-length" →
  scanned hosts (scan_append h (s <| cl_values := cl_values s ++ [h.2] |>)).
Proof.
  intros [Hte Hcl Hf Hc Hh] E. set (s1 := s <| cl_values := _ |>). destruct (append_fields h s1) as (E1 & E2 & E3).
  split; rewrite ?E1, ?E2, ?E3; cbn [s1 set]; try done; try (rewrite append_other by (by rewrite E); done).
  change (cl_values s1) with (cl_values s ++ [h.2]). rewrite filter_app, filter_cons, filter_nil.
  unfold scan_append. rewrite (named_header h.1 (bs "content-length")) by done.
  destruct (header_value_ok h.2); [|by rewrite decide_False, app_nil_r by done].
  rewrite decide_True by done. change (hdr_map s1) with (hdr_map s). unfold contains_key. rewrite Hcl.
  rewrite (proj2 (bytes_eqb_eq _ _)) by done. cbn [andb].
  destruct (filter admitted (cl_values s)) as [|v vs] eqn:Ef.
  - rewrite bool_decide_false by (by intros []). change (hdr_map _) with (append (hdr_map s) (bs "content-length") h.2).
    by rewrite get_all_append, Hcl, decide_True by done.
  - rewrite bool_decide_true by done. done.
Qed.

Lemma scanned_host hosts s h :
  scanned hosts s → to_ascii_lowercase h.1 = bs "host" →
  scanned (hosts ++ [h.2]) (scan_append h
    (s <| host_count := host_count s + 1 |>
       <| host_value := match host_value s with Some v => Some v | None => Some h.2 end |>)).
Proof.
  intros [Hte Hcl Hf Hc Hh] E. set (s1 := s <| host_count := _ |> <| host_value := _ |>).
  destruct (append_fields h s1) as (E1 & E2 & E3).
  split; rewrite ?E1, ?E2, ?E3; try (rewrite append_other by (by rewrite E); done).
  - cbn. rewrite Hf. by destruct hosts.
  - cbn. rewrite Hc, zlen_app. done.
  - unfold scan_append. rewrite (named_header h.1 (bs "host")) by done.
    rewrite filter_app, filter_cons, filter_nil. destruct (header_value_ok h.2).
    + rewrite decide_True by done. rewrite (proj2 (bytes_eqb_neq _ _)) by done. cbn [andb].
      change (hdr_map _) with (append (hdr_map s) (bs "host") h.2) at 1.
      by rewrite get_all_append, Hh, decide_True by done.
    + by rewrite decide_False, app_nil_r by done.
Qed.

Definition host_lines (hs : list (list Z * list Z)) : list (list Z) :=
  (filter (fun h => to_ascii_lowercase h.1 = bs "host") hs).*2.

Lemma scan_header_scanned version hosts s h :
  scanned hosts s → scanned (hosts ++ host_lines [h]) (scan_header version s h).
Proof.
  intros Hs. unfold scan_header. set (s1 := if _ : bool then s <| expect_continue := _ |> else s).
  assert (Hs1 : scanned hosts s1) by (subst s1; destruct (eq_ignore_ascii_case h.1 (bs "expect")); [by apply (scanned_same hosts s)|done]).
  unfold host_lines. rewrite filter_cons, filter_nil.
  destruct (eq_ignore_ascii_case h.1 (bs "content-length")) eqn:E1.
  { apply eq_ignore_case_lower in E1; [|done]. rewrite decide_False by (by rewrite E1). rewrite app_nil_r. by apply scanned_length. }
  destruct (eq_ignore_ascii_case h.1 (bs "transfer-encoding")) eqn:E2.
  { apply eq_ignore_case_lower in E2; [|done]. rewrite decide_False by (by rewrite E2). rewrite app_nil_r.
    destruct (te_is_chunked h.2); by apply (scanned_same _ s1). }
  destruct (eq_ignore_ascii_case h.1 (bs "host")) eqn:E3.
  { apply eq_ignore_case_lower in E3; [|done]. rewrite decide_True by done. by apply scanned_host. }
  assert (Hn : to_ascii_lowercase h.1 ≠ bs "transfer-encoding" ∧ to_ascii_lowercase h.1 ≠ bs "content-length" ∧
    to_ascii_lowercase h.1 ≠ bs "host").
  { split_and!; intros E; apply (eq_ignore_case_lower h.1) in E; (done || congruence). }
  destruct Hn as (H1 & H2 & H3). rewrite decide_False by done. rewrite app_nil_r.
  destruct (eq_ignore_ascii_case h.1 (bs "connection")); [|by apply scanned_other].
  apply scanned_other; [|done..]. destruct (tokens_fields h.2 s1) as (? & ? & ? & ?). by apply (scanned_same _ s1).
Qed.

Lemma scan_all version hs :
  scanned (host_lines hs) (fold_left (scan_header version) hs (scan_start version)).
Proof.
  assert (H : ∀ hosts s, scanned hosts s → scanned (hosts ++ host_lines hs) (fold_left (scan_header version) hs s)).
  { induction hs as [|h hs IH]; intros hosts s Hs; cbn [fold_left]; [by rewrite app_nil_r|].
    replace (host_lines (h :: hs)) with (host_lines [h] ++ host_lines hs)
      by (unfold host_lines; by rewrite <-fmap_app, <-filter_app).
    rewrite app_assoc. by apply IH, scan_header_scanned. }
  apply (H []). by split.
Qed.

Lemma coalesce_other m k : k ≠ bs "cookie" → get_all (coalesce_cookie_crumbs m) k = get_all m k.
Proof.
  intros Hk. unfold coalesce_cookie_crumbs. destruct (get_all m (bs "cookie")) as [|v [|v' vs]]; try done.
  destruct (header_value_ok _); [|done]. by rewrite get_all_insert, decide_False.
Qed.

(** ** Lengths *)

Lemma drop_while_app p s : ∃ pre, s = pre ++ drop_while p s ∧ ∀ b, b ∈ pre → p b = true.
Proof.
  induction s as [|b s (pre & E & Hp)]; [by exists []; split; [|intros ? ?%not_elem_of_nil]|]. cbn.
  destruct (p b) eqn:Eb; [|exists []; split; [done|intros ? []%not_elem_of_nil]].
  exists (b :: pre). split; [cbn; by f_equal|]. intros c [->|Hc]%elem_of_cons; auto.
Qed.

Lemma trim_ows_app s : ∃ pre post, s = pre ++ trim_ows s ++ post ∧ ∀ b, b ∈ pre ∨ b ∈ post → is_ows b = true.
Proof.
  destruct (drop_while_app is_ows s) as (pre & E & Hpre).
  destruct (drop_while_app is_ows (rev (drop_while is_ows s))) as (post & E' & Hpost).
  exists pre, (rev post). split.
  - rewrite E at 1. f_equal. unfold trim_ows, trim_end_matches. rewrite <-rev_app_distr, <-E'. by rewrite rev_involutive.
  - intros b [Hb|Hb]; [by apply Hpre|]. apply Hpost. apply list_elem_of_In, in_rev. by apply list_elem_of_In.
Qed.

(** A length is digits between spaces and tabs, so it is a header value. *)
Lemma parse_length_admitted v n : parse_length v = Some n → header_value_ok v = true.
Proof.
  unfold parse_length. destruct (utf8_valid v); [|done]. destruct (_ && _) eqn:E; [|done]. intros _.
  apply andb_true_iff in E as [_ Hd]. apply header_value_total, forallb_forall. intros b Hb%list_elem_of_In.
  destruct (trim_ows_app v) as (pre & post & Ev & Hows).
  assert (Hcase : is_ows b = true ∨ is_ascii_digit b = true).
  { rewrite Ev, !elem_of_app in Hb. destruct Hb as [Hb|[Hb|Hb]]; [left; auto| |left; auto].
    right. rewrite forallb_forall in Hd. by apply Hd, list_elem_of_In. }
  unfold is_ows, is_ascii_digit, between in Hcase. destruct Hcase as [[->%Z.eqb_eq| ->%Z.eqb_eq]%orb_true_iff|Hc]; [done|done|].
  apply andb_true_iff in Hc as [?%Z.leb_le ?%Z.leb_le].
  rewrite (proj2 (Z.leb_le 32 b)), (proj2 (Z.eqb_neq b 127)) by lia. apply orb_true_r.
Qed.

Lemma authority_admitted v : net.valid_http_authority v = true → header_value_ok v = true.
Proof.
  intros Hv. apply header_value_total, forallb_forall. intros b Hb%list_elem_of_In.
  pose proof (net.http_authority_visible v b Hv Hb).
  rewrite (proj2 (Z.leb_le 32 b)), (proj2 (Z.eqb_neq b 127)) by lia. apply orb_true_r.
Qed.

(** ** What is handed on *)

(** The header map says of the body what the framing says. *)
Record head_agrees (m : HeaderMap) (framing : BodyFraming) : Prop := {
  agrees_te : get_all m (bs "transfer-encoding") = [];
  agrees_length n : framing = Length n →
    get_all m (bs "content-length") = [] ∧ n = 0 ∨
    ∃ v, get_all m (bs "content-length") = [v] ∧ parse_length v = Some n;
  agrees_chunked : framing = Chunked → get_all m (bs "content-length") = [];
}.

(** One valid Host, or none where the version allows it. *)
Definition host_ok (m : HeaderMap) (version : option Z) : Prop :=
  (∃ h, get_all m (bs "host") = [h] ∧ net.valid_http_authority h = true)
  ∨ get_all m (bs "host") = [] ∧ version ≠ Some 1.

Lemma request_target_authority `{Parts : !UriParts} method raw uri uri' a :
  request_target method raw uri = Some (uri', Some a) → net.valid_http_authority a = true.
Proof.
  unfold request_target. destruct (bytes_eqb raw _); [by destruct (bytes_eqb method _)|].
  destruct (starts_with raw _); [by destruct (_ && _)|]. destruct (uri_scheme_str uri); [|done]. cbn.
  destruct (_ && _); [done|]. destruct (uri_authority uri) as [x|]; [|done]. cbn.
  destruct (net.valid_http_authority x) eqn:E; [|done]. cbn. destruct (uri_try_from _); [|done]. by intros [= _ <-].
Qed.

Lemma framing_cases cls chunked other :
  match classify_framing cls chunked other with
  | Length n => chunked = false ∧ (cls = [] ∧ n = 0 ∨ cls ≠ [] ∧ agreed n cls)
  | Chunked => cls = []
  | Reject => True
  end.
Proof.
  unfold classify_framing. pose proof (resolve_spec cls) as Hr. destruct (resolve_content_length cls) as [[k|]|]; [| |done].
  - destruct other, chunked; cbn; naive_solver.
  - destruct other, chunked; cbn; naive_solver.
Qed.

(** The map of the scan agrees with the framing the scan decides. *)
Lemma scan_agrees hosts s m framing :
  scanned hosts s → (∀ k, k = bs "transfer-encoding" ∨ k = bs "content-length" → get_all m k = get_all (hdr_map s) k) →
  framing = Reject ∨ framing = classify_framing (cl_values s) (chunked s) (te_other s) →
  head_agrees m framing.
Proof.
  intros [Hte Hcl _ _ _] Hm Hf. pose proof (framing_cases (cl_values s) (chunked s) (te_other s)) as Hc.
  split; [rewrite Hm by auto; done| |].
  - intros n ->. destruct Hf as [?|Hf]; [done|]. rewrite <-Hf in Hc. destruct Hc as [_ [[Hc ->]|[Hne Ha]]];
      rewrite Hm, Hcl by auto; [left; by rewrite Hc|right].
    destruct (cl_values s) as [|v vs]; [done|]. apply Forall_cons in Ha as [Hv _]. exists v. split; [|done].
    rewrite filter_cons, decide_True by (by eapply parse_length_admitted). done.
  - intros ->. destruct Hf as [?|Hf]; [done|]. rewrite <-Hf in Hc. by rewrite Hm, Hcl, Hc by auto.
Qed.

(** The map with the authority chosen for it. *)
Lemma host_chosen hosts s m0 auth version m1 :
  scanned hosts s → (∀ k, k ≠ bs "cookie" → get_all m0 k = get_all (hdr_map s) k) →
  (∀ a, auth = Some a → net.valid_http_authority a = true) →
  match auth with
  | Some authority => if header_value_from_str_ok authority then Some (insert m0 (bs "host") authority) else None
  | None =>
      match host_value s with
      | Some value => if utf8_valid value && net.valid_http_authority value then Some m0 else None
      | None => if bool_decide (version = Some 1) then None else Some m0
      end
  end = Some m1 →
  (∀ k, k = bs "transfer-encoding" ∨ k = bs "content-length" → get_all m1 k = get_all (hdr_map s) k) ∧
  (host_count s <= 1 → host_ok m1 version).
Proof.
  intros Hs Hm0 Hauth. destruct auth as [a|].
  { destruct (header_value_from_str_ok a); [|done]. intros [= <-]. split.
    - intros k Hk. rewrite get_all_insert, decide_False by (destruct Hk; by subst). apply Hm0. destruct Hk; by subst.
    - intros _. left. exists a. rewrite get_all_insert, decide_True by done. auto. }
  intros Eh. assert (Hbase : m1 = m0 ∧ match host_value s with
    | Some v => net.valid_http_authority v = true | None => version ≠ Some 1 end).
  { revert Eh. destruct (host_value s) as [v|].
    - destruct (utf8_valid v); cbn; [|done]. destruct (net.valid_http_authority v); [|done]. by intros [= <-].
    - destruct (bool_decide_reflect (version = Some 1)); [done|]. by intros [= <-]. }
  destruct Hbase as [-> Hv]. split; [intros k Hk; apply Hm0; destruct Hk; by subst|].
  intros Hone. unfold host_ok. rewrite Hm0, (sc_host _ _ Hs) by done. rewrite (sc_first _ _ Hs) in Hv.
  rewrite (sc_count _ _ Hs) in Hone. destruct hosts as [|h [|h' hs]]; cbn in Hv.
  - by right.
  - left. exists h. rewrite filter_cons, decide_True by (by apply authority_admitted). done.
  - rewrite !zlen_cons in Hone. pose proof (zlen_nonneg hs). lia.
Qed.

(** What the intake may rely on. *)
Definition head_result (req : RawHead) (n : Z) (method : list Z) (m : HeaderMap) (len : Z) (framing : BodyFraming)
    (http10 : bool) : Prop :=
  len = n ∧ head_agrees m framing ∧ (framing ≠ Reject → host_ok m (raw_version req)) ∧
  method ≠ bs "CONNECT" ∧ (http10 = true → framing ≠ Chunked).

Lemma materialize_head_agrees `{Parts : !UriParts} req n method uri m len framing keep_alive expect http10 :
  materialize_head req n = Parsed method uri m len framing keep_alive expect http10 →
  head_result req n method m len framing http10.
Proof.
  unfold materialize_head. destruct (negb (method_ok _)); [done|]. destruct (bytes_eqb _ (bs "CONNECT")) eqn:Ecn; [done|].
  apply bytes_eqb_neq in Ecn. destruct (contains _ 0x23); [done|].
  destruct (uri_try_from _) as [u|]; [|done]. cbn [mbind option_bind].
  destruct (request_target _ _ u) as [[u' auth]|] eqn:Et; [|done].
  set (s := fold_left _ _ _). pose proof (scan_all (raw_version req) (raw_headers req)) as Hs. fold s in Hs.
  set (m0 := coalesce_cookie_crumbs (hdr_map s)). set (fr := if 1 <? host_count s then Reject else _).
  assert (Hfr : fr = Reject ∨ fr = classify_framing (cl_values s) (chunked s) (te_other s)).
  { unfold fr. destruct (1 <? _); [by left|]. destruct (bool_decide (raw_version req = Some 0) && _); [by left|by right]. }
  assert (H10 : bool_decide (raw_version req = Some 0) = true → fr ≠ Chunked).
  { intros Hv. unfold fr. rewrite Hv. destruct (1 <? _); [done|]. destruct (chunked s), (te_other s); try done.
    cbn. unfold classify_framing. by destruct (resolve_content_length _) as [[]|]. }
  destruct (match auth with Some _ => _ | None => _ end) as [m1|] eqn:Eh; [|done].
  intros [= <- <- <- <- <- <- <- <-].
  destruct (host_chosen _ s m0 auth (raw_version req) m1 Hs) as [Hk Hh].
  - intros k Hk. by apply coalesce_other.
  - intros a ->. by eapply request_target_authority.
  - done.
  - split; [done|]. split_and!; [by eapply scan_agrees| |done|exact H10].
    intros Hrej. apply Hh. unfold fr in Hrej. by destruct (Z.ltb_spec 1 (host_count s)).
Qed.

(** C17. The header map made of a parsed head agrees with the framing of its body: no
    Transfer-Encoding is left, there is at most one Content-Length and it says the framed
    length, there is exactly one Host and it is a valid authority (none only before
    HTTP/1.1), CONNECT is refused and HTTP/1.0 is never chunked. *)
Theorem head_agrees_framing `{Parts : !UriParts} req n method uri m len framing keep_alive expect http10 :
  materialize_head req n = Parsed method uri m len framing keep_alive expect http10 →
  head_result req n method m len framing http10.
Proof. apply materialize_head_agrees. Qed.

End laws.

(** ** An example *)

Definition example_raw : RawHead :=
  plain_parser.raw_head (bs "POST /a HTTP/1.1" ++ CRLF ++ bs "Host: a.example" ++ CRLF
    ++ bs "Content-Length: 3" ++ CRLF ++ CRLF).

Lemma head_agrees_framing_witness :
  ∃ m, @materialize_head http_ascii plain_parser.parts example_raw 56 =
      @Parsed http_ascii (bs "POST") (bs "/a") m 56 (Length 3) true false false ∧
    head_result example_raw 56 (bs "POST") m 56 (Length 3) false.
Proof.
  eexists. split; [vm_compute; reflexivity|].
  eapply (@head_agrees_framing http_ascii http_ascii_laws plain_parser.parts). vm_compute. reflexivity.
Defined.

End head_theorems.
