(* ===== verification/H1Body.v ===== *)
(** * Decoding request bodies: [crates/httpjet/src/uring/request_body.rs]

    The codecs are third-party crates: a decoder is the list of results its [read] returns
    over a body, an error or the octets of one call, and the end of the list is the end of
    the stream. [None] is a decoder that could not be set up. The budget is the shared one
    as this request sees it. *)

From stdpp Require Import base list strings.
From Stdlib Require Import ZArith Lia.
From S2P Require Import Prelude RustStr HttpUtil Budget.

Import headers.

Module request_body.

Inductive ContentCoding : Type := Gzip | Brotli | Zstd.

#[export] Instance ContentCoding_eq : EqDecision ContentCoding.
Proof. solve_decision. Defined.

(** The decoders: [None] at an error of [read]. *)
Class Decoders : Type := decoder : ContentCoding → list Z → option (list (option (list Z))).

Record RequestDecompression : Type := { brotli : bool; zstd : bool }.

(** [None] is an error message. *)
Definition parse_extra (value : list Z) : option RequestDecompression :=
  fold_left (fun policy item =>
    match policy with
    | None => None
    | Some policy =>
        let item := trim item in
        if bool_decide (item = []) then Some policy
        else
          let item := to_ascii_lowercase item in
          if bytes_eqb item (bs "br") || bytes_eqb item (bs "brotli") then
            Some {| brotli := true; zstd := zstd policy |}
          else if bytes_eqb item (bs "zstd") then Some {| brotli := brotli policy; zstd := true |}
          else None
    end) (split 0x2c value) (Some {| brotli := false; zstd := false |}).

Definition allows (policy : RequestDecompression) (coding : ContentCoding) : bool :=
  match coding with Gzip => true | Brotli => brotli policy | Zstd => zstd policy end.

Definition from_headers `{HttpCrate} (m : HeaderMap) : option ContentCoding :=
  match get_all m (bs "content-encoding") with
  | [value] =>
      if negb (header_value_is_str value) then None
      else
        let first := trim value in
        if contains first 0x2c then None
        else if eq_ignore_ascii_case first (bs "gzip") then Some Gzip
        else if eq_ignore_ascii_case first (bs "br") then Some Brotli
        else if eq_ignore_ascii_case first (bs "zstd") then Some Zstd
        else None
  | _ => None
  end.

Definition workspace_charge (coding : ContentCoding) : Z :=
  match coding with Gzip => 0 | Brotli | Zstd => 17 * 1024 * 1024 end.

Definition enabled_content_coding `{HttpCrate} (m : HeaderMap) (policy : RequestDecompression)
    : option ContentCoding :=
  match from_headers m with
  | Some coding => if allows policy coding then Some coding else None
  | None => None
  end.

Definition finish_body_decodes `{HttpCrate} (m : HeaderMap) (data : list Z) (policy : RequestDecompression)
    : bool :=
  negb (bool_decide (data = [])) && bool_decide (is_Some (enabled_content_coding m policy)).

Definition EXPANSION_FLOOR : Z := 2 ^ 20.
Definition MAX_EXPANSION_RATIO : Z := 64.
Definition INLINE_MAX_ENCODED : Z := 16 * 1024.
Definition INLINE_MAX_DECODED : Z := 256 * 1024.
Definition MAX_DECODE : Z := 16 * 1024 * 1024.

Record DecodeLimits : Type := { max_body : Z; expansion : Z; inline : Z }.

Inductive DecodeResult : Type := Complete | MalformedOrCodecCap | TooLarge | NoCapacity | InlineLimit.

(** The result, with the octets decoded, the budget and what the lease of the output holds.
    [try_reserve_exact] is the allocator's word, and fails with [alloc]. *)
Fixpoint decode_reader (alloc : Z → bool) (results : list (option (list Z))) (limits : DecodeLimits)
    (decoded : list Z) (b : budget.BodyBufferBudget) (held : Z)
    : DecodeResult * list Z * budget.BodyBufferBudget * Z :=
  match results with
  | [] => (Complete, decoded, b, held)
  | None :: _ => (MalformedOrCodecCap, decoded, b, held)
  | Some chunk :: results =>
      if bool_decide (chunk = []) then (Complete, decoded, b, held)
      else
        let size := saturating_add (zlen decoded) (zlen chunk) in
        if max_body limits <? size then (TooLarge, decoded, b, held)
        else if (MAX_DECODE <=? size) || (expansion limits <? size) then
          (MalformedOrCodecCap, decoded, b, held)
        else if inline limits <? size then (InlineLimit, decoded, b, held)
        else
          match budget.lease_reserve b held (zlen chunk) with
          | (false, b, held) => (NoCapacity, decoded, b, held)
          | (true, b, held) =>
              if negb (alloc size) then (NoCapacity, decoded, b, held)
              else decode_reader alloc results limits (decoded ++ chunk) b held
          end
  end.

(** The leases of an outcome: [Decoded] hands its own on. *)
Inductive DecodeOutcome : Type :=
| Decoded (body : list Z) (held : Z)
| Undecoded
| Refused (status : Z)
| Deferred.

Definition saturating_mul (a b : Z) : Z := Z.min (a * b) U64_MAX.

Definition decode_entity `{Decoders} (alloc : Z → bool) (coding : ContentCoding) (encoded : list Z)
    (b : budget.BodyBufferBudget) (max_body inline_limit : Z)
    : DecodeOutcome * budget.BodyBufferBudget :=
  match budget.lease_reserve b 0 (workspace_charge coding) with
  | (false, b, workspace) => (Refused 503, budget.lease_drop b workspace)
  | (true, b, workspace) =>
      let limits :=
        {| max_body := max_body;
           expansion := Z.max (saturating_mul (zlen encoded) MAX_EXPANSION_RATIO) EXPANSION_FLOOR;
           inline := inline_limit |} in
      match decoder coding encoded with
      | None => (Undecoded, budget.lease_drop b workspace)
      | Some results =>
          let '(result, decoded, b, held) := decode_reader alloc results limits [] b 0 in
          match result with
          | Complete => (Decoded decoded held, budget.lease_drop b workspace)
          | MalformedOrCodecCap => (Undecoded, budget.lease_drop (budget.lease_drop b held) workspace)
          | TooLarge => (Refused 413, budget.lease_drop (budget.lease_drop b held) workspace)
          | NoCapacity => (Refused 503, budget.lease_drop (budget.lease_drop b held) workspace)
          | InlineLimit => (Deferred, budget.lease_drop (budget.lease_drop b held) workspace)
          end
      end
  end.

(** [slot] is whether the blocking pool ran the decode. *)
Definition offload_decode `{Decoders} (alloc : Z → bool) (slot : bool) (coding : ContentCoding)
    (encoded : list Z) (b : budget.BodyBufferBudget) (max_body : Z)
    : DecodeOutcome * budget.BodyBufferBudget :=
  if slot then decode_entity alloc coding encoded b max_body U64_MAX else (Refused 503, b).

(** The body, with the lease it holds, and the header map; [inr] is the status refused. *)
Definition decode_body `{Decoders} (alloc : Z → bool) (slot : bool) (m : HeaderMap) (coding : ContentCoding)
    (encoded : list Z) (encoded_held : Z) (b : budget.BodyBufferBudget) (max_body : Z)
    : (list Z * Z + Z) * HeaderMap * budget.BodyBufferBudget :=
  let '(inline, b) :=
    if zlen encoded <=? INLINE_MAX_ENCODED then
      decode_entity alloc coding encoded b max_body INLINE_MAX_DECODED
    else (Deferred, b) in
  let '(outcome, b) :=
    match inline with
    | Deferred => offload_decode alloc slot coding encoded b max_body
    | done => (done, b)
    end in
  match outcome with
  | Decoded decoded held =>
      (inl (decoded, held),
       remove (insert m (bs "content-length") (to_string (zlen decoded))) (bs "content-encoding"),
       budget.lease_drop b encoded_held)
  | Undecoded | Deferred => (inl (encoded, encoded_held), m, b)
  | Refused status => (inr status, m, budget.lease_drop b encoded_held)
  end.

Definition finish_body `{HttpCrate, Decoders} (alloc : Z → bool) (slot : bool) (m : HeaderMap) (data : list Z)
    (lease : option Z) (b : budget.BodyBufferBudget) (max_body : Z) (policy : RequestDecompression)
    : (list Z * Z + Z) * HeaderMap * budget.BodyBufferBudget :=
  let '(ok, b, held) :=
    match lease with
    | Some held => (true, b, held)
    | None => if bool_decide (data = []) then (true, b, 0) else budget.lease_reserve b 0 (zlen data)
    end in
  if negb ok then (inr 503, m, budget.lease_drop b held)
  else if bool_decide (data = []) then (inl (data, held), m, b)
  else
    match enabled_content_coding m policy with
    | None => (inl (data, held), m, b)
    | Some coding => decode_body alloc slot m coding data held b max_body
    end.

(** ** Facts *)

(** An attempt without the inline limit. *)
Definition unlimited (l : DecodeLimits) : DecodeLimits :=
  {| max_body := max_body l; expansion := expansion l; inline := U64_MAX |}.

(** A decode that does not run into the inline limit does what the full one does. *)
Lemma decode_reader_inline alloc results l decoded b held :
  (decode_reader alloc results l decoded b held).1.1.1 ≠ InlineLimit →
  decode_reader alloc results l decoded b held = decode_reader alloc results (unlimited l) decoded b held.
Proof.
  revert decoded b held. induction results as [|[chunk|] results IH]; intros decoded b held; cbn [decode_reader]; try done.
  destruct (bool_decide (chunk = [])); [done|]. cbn [max_body expansion inline unlimited].
  destruct (max_body l <? _); [done|]. destruct (_ || _); [done|].
  destruct (inline l <? _); [done|]. rewrite (proj2 (Z.ltb_ge U64_MAX _)) by (unfold saturating_add; lia).
  destruct (budget.lease_reserve b held (zlen chunk)) as [[[] b'] held']; [|done].
  destruct (negb _); [done|]. apply IH.
Qed.

(** ** Leases *)

Record budget_ok (b : budget.BodyBufferBudget) : Prop := {
  ok_flight : 0 <= budget.in_flight b;
  ok_max : budget.in_flight b <= budget.max_bytes b < U64_MAX;
}.

(** The budget with [n] more octets in flight; a budget of 0 counts nothing. *)
Definition charged (b : budget.BodyBufferBudget) (n : Z) : budget.BodyBufferBudget :=
  if budget.max_bytes b =? 0 then b else budget.with_in_flight b (budget.in_flight b + n).

(** The budget with [k] more refusals on record. *)
Definition refused (b : budget.BodyBufferBudget) (k : Z) : budget.BodyBufferBudget :=
  {| budget.max_bytes := budget.max_bytes b; budget.in_flight := budget.in_flight b;
     budget.rejected := budget.rejected b + k |}.

Lemma charged_0 b : charged b 0 = b.
Proof. unfold charged, budget.with_in_flight. destruct b as [mx fl rj]. cbn. rewrite Z.add_0_r. by destruct (mx =? 0). Qed.
Lemma charged_add b n k : charged (charged b n) k = charged b (n + k).
Proof.
  unfold charged. destruct (budget.max_bytes b =? 0) eqn:E; rewrite ?E; [done|]. cbn. rewrite E.
  unfold budget.with_in_flight. cbn. f_equal. lia.
Qed.
Lemma refused_0 b : refused b 0 = b.
Proof. destruct b. unfold refused. cbn. f_equal. lia. Qed.
Lemma charged_refused b n k : charged (refused b k) n = refused (charged b n) k.
Proof. unfold charged, refused. cbn. by destruct (budget.max_bytes b =? 0). Qed.

(** [n] more octets fit. *)
Definition fits (b : budget.BodyBufferBudget) (n : Z) : Prop :=
  budget.max_bytes b ≠ 0 → budget.in_flight b + n <= budget.max_bytes b.

Lemma charged_ok b n : budget_ok b → 0 <= n → fits b n → budget_ok (charged b n).
Proof.
  intros [Hf Hm] Hn Hfit. unfold charged. destruct (Z.eqb_spec (budget.max_bytes b) 0) as [|Hne]; [by split|].
  specialize (Hfit Hne). split; cbn; lia.
Qed.

Lemma fits_add b n k : fits b n → fits (charged b n) k → fits b (n + k).
Proof.
  intros H1 H2 Hne. unfold fits, charged in H2. rewrite (proj2 (Z.eqb_neq _ _) Hne) in H2. cbn in H2. lia.
Qed.

Lemma reserve_charged b held n ok b' held' :
  budget_ok b → 0 <= n → budget.lease_reserve b held n = (ok, b', held') →
  if ok then b' = charged b n ∧ held' = held + n ∧ fits b n else b' = refused b 1 ∧ held' = held.
Proof.
  intros [Hf Hm] Hn. unfold budget.lease_reserve, budget.try_acquire, budget.reserve, charged, fits.
  destruct (Z.eqb_spec (budget.max_bytes b) 0); [by intros [= <- <- <-]|].
  destruct (Z.ltb_spec (budget.max_bytes b) (saturating_add (budget.in_flight b) n)) as [|Hle]; [by intros [= <- <- <-]|].
  intros [= <- <- <-]. split_and!; [done|done|]. intros _. unfold saturating_add in Hle. lia.
Qed.

(** A lease that is dropped gives back what it holds. *)
Lemma drop_charged b n k :
  budget_ok b → 0 <= n → fits b n → budget.lease_drop (refused (charged b n) k) n = refused b k.
Proof.
  intros [Hf Hm] Hn Hfit. unfold budget.lease_drop, budget.release, refused, charged. cbn.
  destruct (Z.eqb_spec (budget.max_bytes b) 0) as [E|E]; cbn; [by rewrite (proj2 (Z.eqb_eq _ _) E)|].
  specialize (Hfit E). rewrite (proj2 (Z.eqb_neq _ _) E). cbn. destruct (Z.eqb_spec n 0) as [->|]; cbn.
  - f_equal. lia.
  - f_equal. unfold u64, wrap. unfold U64_MAX in Hm. rewrite Z.mod_small; lia.
Qed.

(** What a decode reserved, and whether it was refused. *)
Lemma decode_reader_charged alloc results l decoded b held result decoded' b' held' :
  budget_ok b → decode_reader alloc results l decoded b held = (result, decoded', b', held') →
  ∃ n k, 0 <= n ∧ fits b n ∧ b' = refused (charged b n) k ∧ held' = held + n ∧ (result ≠ NoCapacity → k = 0) ∧
    (result = Complete → zlen decoded' = zlen decoded + n).
Proof.
  revert decoded b held. induction results as [|[chunk|] results IH]; intros decoded b held Hb; cbn [decode_reader].
  1, 3: intros [= <- <- <- <-]; exists 0, 0; rewrite charged_0, refused_0; destruct Hb; split_and!; (done || lia || by intros _; lia).
  assert (Hstop : ∀ r, r ≠ NoCapacity → (r, decoded, b, held) = (result, decoded', b', held') → ∃ n k, 0 <= n ∧ fits b n ∧
    b' = refused (charged b n) k ∧ held' = held + n ∧ (result ≠ NoCapacity → k = 0) ∧
    (result = Complete → zlen decoded' = zlen decoded + n)).
  { intros r Hr [= <- <- <- <-]. exists 0, 0. rewrite charged_0, refused_0. destruct Hb.
    split_and!; (done || lia || by intros _; lia). }
  destruct (bool_decide (chunk = [])); [by apply Hstop|]. destruct (max_body l <? _); [by apply Hstop|].
  destruct (_ || _); [by apply Hstop|]. destruct (inline l <? _); [by apply Hstop|]. clear Hstop.
  destruct (budget.lease_reserve b held (zlen chunk)) as [[ok b1] held1] eqn:Er. pose proof (zlen_nonneg chunk).
  apply reserve_charged in Er; [|done|done]. destruct ok.
  2:{ destruct Er as [-> ->]. intros [= <- <- <- <-]. exists 0, 1. rewrite charged_0. destruct Hb. split_and!; (done || lia || by intros _; lia). }
  destruct Er as (-> & -> & Hfit). destruct (negb _).
  - intros [= <- <- <- <-]. exists (zlen chunk), 0. rewrite refused_0. split_and!; done.
  - intros Hd. apply IH in Hd as (n & k & Hn & Hf & -> & -> & Hk & Hz); [|by apply charged_ok].
    exists (zlen chunk + n), k. rewrite charged_add. split_and!; [lia|by apply fits_add|done|lia|done|].
    intros E. rewrite (Hz E), zlen_app. lia.
Qed.

(** What a reader yields when it is read to its end. *)
Inductive yields : list (option (list Z)) → list Z → Prop :=
| y_end : yields [] []
| y_empty rs : yields (Some [] :: rs) []
| y_chunk c rs b : c ≠ [] → yields rs b → yields (Some c :: rs) (c ++ b).

Lemma decode_reader_yields alloc results l decoded b held decoded' b' held' :
  decode_reader alloc results l decoded b held = (Complete, decoded', b', held') →
  ∃ body, yields results body ∧ decoded' = decoded ++ body.
Proof.
  revert decoded b held. induction results as [|[chunk|] results IH]; intros decoded b held; cbn [decode_reader].
  - intros [= <- <- <-]. exists []. split; [constructor|]. by rewrite app_nil_r.
  - destruct (bool_decide_reflect (chunk = [])) as [->|Hc].
    { intros [= <- <- <-]. exists []. split; [constructor|]. by rewrite app_nil_r. }
    destruct (max_body l <? _); [done|]. destruct (_ || _); [done|]. destruct (inline l <? _); [done|].
    destruct (budget.lease_reserve b held (zlen chunk)) as [[[] b1] held1]; [|done]. destruct (negb _); [done|].
    intros (body & Hy & ->)%IH. exists (chunk ++ body). split; [by constructor|]. by rewrite app_assoc.
  - done.
Qed.

(** The sizes the limits allow. *)
Lemma decode_reader_size alloc results l decoded b held decoded' b' held' :
  zlen decoded <= max_body l → zlen decoded < MAX_DECODE → zlen decoded <= expansion l →
  decode_reader alloc results l decoded b held = (Complete, decoded', b', held') →
  zlen decoded' <= max_body l ∧ zlen decoded' < MAX_DECODE ∧ zlen decoded' <= expansion l.
Proof.
  revert decoded b held. induction results as [|[chunk|] results IH]; intros decoded b held H1 H2 H3; cbn [decode_reader].
  - by intros [= <- <- <-].
  - destruct (bool_decide (chunk = [])); [by intros [= <- <- <-]|].
    destruct (Z.ltb_spec (max_body l) (saturating_add (zlen decoded) (zlen chunk))); [done|].
    destruct (Z.leb_spec MAX_DECODE (saturating_add (zlen decoded) (zlen chunk))) as [|Hd]; [done|].
    destruct (Z.ltb_spec (expansion l) (saturating_add (zlen decoded) (zlen chunk))); [done|]. cbn [orb].
    destruct (inline l <? _); [done|]. destruct (budget.lease_reserve b held (zlen chunk)) as [[[] b1] held1]; [|done].
    destruct (negb _); [done|]. assert (U : MAX_DECODE < U64_MAX) by done. unfold saturating_add in *.
    apply IH; rewrite zlen_app; lia.
  - done.
Qed.

Lemma charged_comm b n k : charged (charged b n) k = charged (charged b k) n.
Proof. rewrite !charged_add. f_equal. lia. Qed.

Lemma fits_swap b n k : fits b (n + k) → fits (charged b k) n.
Proof. unfold fits, charged. destruct (Z.eqb_spec (budget.max_bytes b) 0); cbn; intros H H'; [done|]. specialize (H H'). lia. Qed.

Lemma fits_less b n k : 0 <= k → fits b (n + k) → fits b n.
Proof. intros Hk H Hne. specialize (H Hne). lia. Qed.

Lemma workspace_nonneg coding : 0 <= workspace_charge coding.
Proof. by destruct coding. Qed.

Section decode.
Context `{Dec : Decoders} (alloc : Z → bool).

(** The whole output of the decoder on a body. *)
Definition decodes (coding : ContentCoding) (encoded body : list Z) : Prop :=
  ∃ results, decoder coding encoded = Some results ∧ yields results body.

(** What a decode leaves of the budget: the lease of its output, or nothing. *)
Definition outcome_charge (b : budget.BodyBufferBudget) (coding : ContentCoding) (encoded : list Z) (mb : Z) (outcome : DecodeOutcome)
    (b' : budget.BodyBufferBudget) : Prop :=
  match outcome with
  | Decoded body held =>
      b' = charged b held ∧ fits b held ∧ held = zlen body ∧ zlen body <= mb ∧ zlen body < MAX_DECODE ∧
      zlen body <= Z.max (saturating_mul (zlen encoded) MAX_EXPANSION_RATIO) EXPANSION_FLOOR ∧
      decodes coding encoded body
  | Refused status => (status = 413 ∨ status = 503) ∧ ∃ k, b' = refused b k
  | Undecoded | Deferred => b' = b
  end.

Lemma decode_entity_charged coding encoded b mb inl outcome b' :
  budget_ok b → 0 <= mb → decode_entity alloc coding encoded b mb inl = (outcome, b') →
  outcome_charge b coding encoded mb outcome b'.
Proof.
  intros Hb Hmb. unfold decode_entity. pose proof (workspace_nonneg coding) as Hw. set (w := workspace_charge coding) in *.
  destruct (budget.lease_reserve b 0 w) as [[ok b1] held1] eqn:Er. apply reserve_charged in Er; [|done|done].
  destruct ok.
  2:{ destruct Er as [-> ->]. intros [= <- <-]. split; [by right|]. exists 1.
      pose proof (drop_charged b 0 1 Hb ltac:(lia)) as H. rewrite charged_0 in H. apply H. destruct Hb. unfold fits. lia. }
  destruct Er as (-> & -> & Hfw). rewrite Z.add_0_l. pose proof (charged_ok b w Hb Hw Hfw) as Hb1.
  assert (Hdw : ∀ k, budget.lease_drop (refused (charged b w) k) w = refused b k) by (intros; by apply drop_charged).
  destruct (decoder coding encoded) as [results|] eqn:Edec.
  2:{ intros [= <- <-]. cbn. by rewrite <-(refused_0 (charged b w)), Hdw, refused_0. }
  set (l := {| max_body := mb; expansion := _; inline := inl |}).
  destruct (decode_reader alloc results l [] (charged b w) 0) as [[[result decoded] b2] held] eqn:Ed.
  pose proof (decode_reader_charged _ _ _ _ _ _ _ _ _ _ Hb1 Ed) as (n & k & Hn & Hfn & -> & -> & Hk & Hz). rewrite Z.add_0_l.
  assert (Hdrop : budget.lease_drop (budget.lease_drop (refused (charged (charged b w) n) k) n) w = refused b k)
    by (rewrite drop_charged; done).
  destruct result; intros [= <- <-]; cbn.
  - rewrite (Hk ltac:(done)) in *. specialize (Hz eq_refl). change (zlen (@nil Z)) with 0 in Hz. rewrite Z.add_0_l in Hz. subst n.
    pose proof (fits_add _ _ _ Hfw Hfn) as Hft.
    assert (Hexp : zlen (@nil Z) <= expansion l) by (transitivity EXPANSION_FLOOR; [done|apply Z.le_max_r]).
    destruct (decode_reader_size alloc results l [] _ _ _ _ _ Hmb eq_refl Hexp Ed) as (H1 & H2 & H3). split_and!.
    + rewrite charged_comm, drop_charged, refused_0; [done| |done|by apply fits_swap].
      apply charged_ok; [done|done|]. apply (fits_less _ _ w); [done|]. by rewrite Z.add_comm.
    + apply (fits_less _ _ w); [done|]. by rewrite Z.add_comm.
    + done.
    + done.
    + done.
    + done.
    + exists results. split; [done|]. by apply decode_reader_yields in Ed as (body & Hy & ->).
  - by rewrite Hdrop, (Hk ltac:(done)), refused_0.
  - split; [by left|]. exists k. by rewrite Hdrop.
  - split; [by right|]. exists k. by rewrite Hdrop.
  - by rewrite Hdrop, (Hk ltac:(done)), refused_0.
Qed.

(** Decoding without the attempt on the serving thread. *)
Definition decode_full (m : HeaderMap) (coding : ContentCoding) (encoded : list Z) (encoded_held : Z)
    (b : budget.BodyBufferBudget) (mb : Z) : (list Z * Z + Z) * HeaderMap * budget.BodyBufferBudget :=
  let '(outcome, b) := decode_entity alloc coding encoded b mb U64_MAX in
  match outcome with
  | Decoded decoded held =>
      (inl (decoded, held),
       remove (insert m (bs "content-length") (to_string (zlen decoded))) (bs "content-encoding"),
       budget.lease_drop b encoded_held)
  | Undecoded | Deferred => (inl (encoded, encoded_held), m, b)
  | Refused status => (inr status, m, budget.lease_drop b encoded_held)
  end.

Lemma decode_entity_inline coding encoded b mb inl :
  (decode_entity alloc coding encoded b mb inl).1 ≠ Deferred →
  decode_entity alloc coding encoded b mb inl = decode_entity alloc coding encoded b mb U64_MAX.
Proof.
  unfold decode_entity. destruct (budget.lease_reserve b 0 _) as [[[] b1] w]; [|done].
  destruct (decoder coding encoded) as [results|]; [|done].
  set (l := {| max_body := mb; expansion := _; inline := inl |}).
  change {| max_body := mb; expansion := _; inline := U64_MAX |} with (unlimited l).
  intros Hne. rewrite <-decode_reader_inline; [done|].
  intros E. apply Hne. destruct (decode_reader alloc results l [] b1 0) as [[[result decoded] b2] held].
  cbn in E. by subst result.
Qed.

(** Trying a small body on the serving thread first gives the same body, headers,
    refusal and budget as decoding it on the blocking pool at once. *)
Theorem inline_decode_same m coding encoded encoded_held b mb :
  budget_ok b → 0 <= mb →
  decode_body alloc true m coding encoded encoded_held b mb = decode_full m coding encoded encoded_held b mb.
Proof.
  intros Hb Hmb. unfold decode_body, decode_full, offload_decode. destruct (zlen encoded <=? INLINE_MAX_ENCODED).
  2:{ by destruct (decode_entity alloc coding encoded b mb U64_MAX) as [[] b1]. }
  destruct (decode_entity alloc coding encoded b mb INLINE_MAX_DECODED) as [o1 b1] eqn:E1.
  destruct o1 as [body held| |st|].
  1, 2, 3: pose proof (decode_entity_inline coding encoded b mb INLINE_MAX_DECODED) as Hi; rewrite E1 in Hi;
    rewrite <-Hi by done; done.
  apply decode_entity_charged in E1; [|done|done]. cbn in E1. subst b1.
  by destruct (decode_entity alloc coding encoded b mb U64_MAX) as [[] b1].
Qed.

(** The outcome that [decode_body] answers with. *)
Lemma decode_body_cases slot m coding encoded encoded_held b mb :
  budget_ok b → 0 <= mb →
  ∃ outcome b1, outcome_charge b coding encoded mb outcome b1 ∧
    decode_body alloc slot m coding encoded encoded_held b mb =
    match outcome with
    | Decoded decoded held =>
        (inl (decoded, held),
         remove (insert m (bs "content-length") (to_string (zlen decoded))) (bs "content-encoding"),
         budget.lease_drop b1 encoded_held)
    | Undecoded | Deferred => (inl (encoded, encoded_held), m, b1)
    | Refused status => (inr status, m, budget.lease_drop b1 encoded_held)
    end.
Proof.
  intros Hb Hmb. unfold decode_body.
  set (first := if _ <=? _ then decode_entity _ _ _ _ _ _ else _).
  assert (H1 : outcome_charge b coding encoded mb first.1 first.2).
  { unfold first. destruct (_ <=? _); [|done]. destruct (decode_entity _ _ _ _ _ _) eqn:E. by apply decode_entity_charged in E. }
  destruct first as [o1 b1]. cbn in H1.
  assert (H2 : outcome_charge b coding encoded mb (offload_decode alloc slot coding encoded b mb).1
    (offload_decode alloc slot coding encoded b mb).2).
  { unfold offload_decode. destruct slot; [|split; [by right|exists 0; by rewrite refused_0]].
    destruct (decode_entity _ _ _ _ _ _) eqn:E. by apply decode_entity_charged in E. }
  destruct o1 as [body held| |st|]; [by eexists _, b1..|]. cbn in H1. subst b1.
  destruct (offload_decode _ _ _ _ _ _) as [o2 b2]. by eexists o2, b2.
Qed.

End decode.

(** ** What the decoded request carries *)

Lemma refused_ok b k : budget_ok b → budget_ok (refused b k).
Proof. by intros []. Qed.
Lemma refused_add b k k' : refused (refused b k) k' = refused b (k + k').
Proof. unfold refused. cbn. f_equal. lia. Qed.
Lemma fits_refused b k n : fits (refused b k) n ↔ fits b n.
Proof. done. Qed.

(** A budget in which a lease holds [held] octets. *)
Definition leased (b0 b : budget.BodyBufferBudget) (held : Z) : Prop :=
  0 <= held ∧ fits b0 held ∧ ∃ k, b = refused (charged b0 held) k.

(** The budget without the lease, but for refusals. *)
Definition restored (b0 b : budget.BodyBufferBudget) : Prop := ∃ k, b = refused b0 k.

Lemma leased_ok b0 b held : budget_ok b0 → leased b0 b held → budget_ok b.
Proof. intros Hb (Hh & Hf & k & ->). by apply refused_ok, charged_ok. Qed.

Lemma leased_drop b0 b held : budget_ok b0 → leased b0 b held → restored b0 (budget.lease_drop b held).
Proof. intros Hb (Hh & Hf & k & ->). exists k. by apply drop_charged. Qed.

Lemma leased_0 b : budget_ok b → leased b b 0.
Proof. intros [Hf Hm]. split_and!; [done|intros _; lia|]. exists 0. by rewrite charged_0, refused_0. Qed.

(** What [finish_body] makes of a body and its lease. *)
Definition finished `{HttpCrate, Decoders} (m : HeaderMap) (data : list Z) (held mb : Z) (policy : RequestDecompression)
    (b0 : budget.BodyBufferBudget) (r : (list Z * Z + Z) * HeaderMap * budget.BodyBufferBudget) : Prop :=
  match r with
  | (inl (body, kept), m', b') =>
      leased b0 b' kept ∧
      (body = data ∧ m' = m ∧ kept = held ∨
       (∃ coding, enabled_content_coding m policy = Some coding ∧ decodes coding data body) ∧
       kept = zlen body ∧ zlen body <= mb ∧ zlen body < MAX_DECODE ∧
       m' = remove (insert m (bs "content-length") (to_string (zlen body))) (bs "content-encoding"))
  | (inr status, m', b') => (status = 413 ∨ status = 503) ∧ m' = m ∧ restored b0 b'
  end.

Lemma finish_body_leased `{Http : HttpCrate, Dec : Decoders} alloc slot m data held b0 b mb policy :
  budget_ok b0 → leased b0 b held → 0 <= mb →
  finished m data held mb policy b0 (finish_body alloc slot m data (Some held) b mb policy).
Proof.
  intros Hb Hl Hmb. unfold finish_body. cbn [negb]. destruct (bool_decide_reflect (data = [])) as [->|].
  { split; [done|by left]. }
  destruct (enabled_content_coding m policy) as [coding|] eqn:Ec; [|split; [done|by left]].
  destruct (decode_body_cases alloc slot m coding data held b mb (leased_ok _ _ _ Hb Hl) Hmb) as (outcome & b1 & Ho & ->).
  destruct outcome as [body kept| |st|]; cbn in Ho.
  - destruct Ho as (-> & Hf2 & -> & Hmax & Hcap & _ & Hdec). destruct Hl as (Hh & Hf & k & ->). pose proof (zlen_nonneg body).
    pose proof (fits_add _ _ _ Hf (proj1 (fits_refused _ k _) Hf2)) as Hft.
    assert (Hfb : fits b0 (zlen body)) by (apply (fits_less _ _ held); [done|]; by rewrite Z.add_comm).
    split; [|right; split_and!; [by exists coding|done..]]. split_and!; [done|done|]. exists k.
    rewrite charged_refused, charged_comm. apply drop_charged; [by apply charged_ok|done|by apply fits_swap].
  - subst b1. split; [done|by left].
  - destruct Ho as [Hst (k & ->)]. split_and!; [done|done|]. destruct Hl as (Hh & Hf & k' & ->). exists (k' + k).
    rewrite refused_add. by apply drop_charged.
  - subst b1. split; [done|by left].
Qed.

(** Finishing a request body either keeps it with its headers and its lease, or
    replaces it by the whole output of the decoder of its enabled coding, within the request
    limit and the decode cap, with its length in Content-Length and in the budget and no
    Content-Encoding, or refuses it with 413 or 503 and gives everything back to the budget.
    *)
Theorem decoded_body_accounted `{Http : HttpCrate, Dec : Decoders} alloc slot m data held b0 b mb policy :
  budget_ok b0 → leased b0 b held → 0 <= mb →
  finished m data held mb policy b0 (finish_body alloc slot m data (Some held) b mb policy).
Proof. apply finish_body_leased. Qed.

(** The lease of a body, if it has one. *)
Definition lease_held (lease : option Z) : Z := default 0 lease.

Lemma finish_body_any `{Http : HttpCrate, Dec : Decoders} alloc slot m data lease b0 b mb policy :
  budget_ok b0 → leased b0 b (lease_held lease) → 0 <= mb →
  ∃ held, finished m data held mb policy b0 (finish_body alloc slot m data lease b mb policy).
Proof.
  intros Hb Hl Hmb. destruct lease as [held|]; [exists held; by apply finish_body_leased|]. cbn in Hl.
  unfold finish_body. destruct (bool_decide_reflect (data = [])) as [->|Hne]; [exists 0; cbn; split; [done|by left]|].
  destruct (budget.lease_reserve b 0 (zlen data)) as [[ok b1] held] eqn:Er.
  apply reserve_charged in Er; [|by eapply leased_ok|apply zlen_nonneg]. destruct Hl as (_ & _ & k & ->).
  rewrite charged_0 in Er. exists (zlen data). destruct ok.
  - destruct Er as (-> & -> & Hfit). rewrite Z.add_0_l.
    pose proof (finish_body_leased alloc slot m data (zlen data) b0 (charged (refused b0 k) (zlen data)) mb policy Hb) as H.
    unfold finish_body in H. cbn [negb] in H. rewrite bool_decide_false in H by done. apply H; [|done].
    split_and!; [apply zlen_nonneg|done|]. exists k. by rewrite charged_refused.
  - destruct Er as [-> ->]. split_and!; [by right|done|]. exists (k + 1). rewrite refused_add.
    pose proof (drop_charged b0 0 (k + 1) Hb ltac:(lia)) as H. rewrite charged_0 in H. apply H. destruct Hb. intros _. lia.
Qed.

(** ** An example *)

(** A decoder whose output is the body twice over. *)
Definition example_decoders : Decoders := fun coding encoded =>
  match coding with Gzip => Some [Some encoded; Some encoded] | _ => None end.

Definition example_budget : budget.BodyBufferBudget := budget.new 100000.

Lemma inline_decode_same_witness :
  @decode_body example_decoders (fun _ => true) true [] Gzip (bs "abc") 3 (charged example_budget 3) 1000
  = @decode_full example_decoders (fun _ => true) [] Gzip (bs "abc") 3 (charged example_budget 3) 1000.
Proof. apply (@inline_decode_same example_decoders); [by split|done]. Defined.

Lemma decoded_body_accounted_witness :
  @finished http_util.http_ascii example_decoders [(bs "content-encoding", bs "gzip")] (bs "abc") 3 1000
    {| brotli := false; zstd := false |} example_budget
    (@finish_body http_util.http_ascii example_decoders (fun _ => true) true
      [(bs "content-encoding", bs "gzip")] (bs "abc") (Some 3) (charged example_budget 3) 1000
      {| brotli := false; zstd := false |})
  ∧ (@finish_body http_util.http_ascii example_decoders (fun _ => true) true
      [(bs "content-encoding", bs "gzip")] (bs "abc") (Some 3) (charged example_budget 3) 1000
      {| brotli := false; zstd := false |}).1.1 = inl (bs "abcabc", 6).
Proof.
  split; [|vm_compute; reflexivity]. apply (@decoded_body_accounted http_util.http_ascii example_decoders).
  - by split.
  - split_and!; [done|done|]. exists 0. by rewrite refused_0.
  - done.
Defined.

End request_body.
