(* ===== verification/H1Connection.v ===== *)
(** * An HTTP/1.1 connection: [handle_h1_bridged] of [crates/httpjet/src/uring/mod.rs]

    The keep-alive loop: the head is read and framed, the body is read, charged to the
    shared budget and decoded, the request is dispatched, and the response is written. The
    connection's input is the list of what its reads return; an empty read, and the end of
    the list, is a read that returned nothing: the end of the stream, an error, or a
    deadline that passed. Deadlines, the capacities of buffers and the counters of closed
    connections are left out; what the pipeline answers is a parameter. *)

From stdpp Require Import base list strings.
From Stdlib Require Import ZArith Lia.
From S2P Require Import Prelude RustStr HttpUtil Budget Net HpackString HpackTable H2Response.
From S2P Require Import H1Codec H1Response H1Head H1Body.

Import headers http_util.
Import (hints) h1_response codec.
#[local] Open Scope record_scope.

Module h1_connection.

Record Request `{HttpCrate} : Type := {
  method : list Z;
  uri : Uri;
  headers : HeaderMap;
  body : list Z;
  http10 : bool;
  decode_tried : bool;
  upgrade : bool;
}.

(** What the pipeline answers: nothing when its task is gone, else a response, whether an
    upgrade is ready, and whether the server is shutting down. *)
Record Answer : Type := { resp : h1_response.BridgeResp; upgrade_ready : bool; cancelled : bool }.

Record Config `{HttpCrate} : Type := {
  max_req_header_size : Z;
  max_req_body_size : Z;
  max_keepalive_requests : Z;
  request_decompression : request_body.RequestDecompression;
  (** [plaintext_mtls_redirect]: the target it leaves, and its redirect. *)
  mtls_gate : option (list Z → Uri → HeaderMap → bool → Uri * option h1_response.BridgeResp);
  send_window : option Z;
  throttle : bool;
  sendfile_fd : bool;
  (** The allocator and the blocking pool of the body decoders. *)
  alloc : Z → bool;
  slot : bool;
}.

Record Conn : Type := {
  acc : list Z;
  reads : list (list Z);
  budget : budget.BodyBufferBudget;
  out : h1_response.Out;
  served : Z;
}.

#[export] Instance Conn_eta : Eta Conn := fun r =>
  {| acc := acc r; reads := reads r; budget := budget r; out := out r; served := served r |}.
#[export] Instance set_acc : Setter acc := ltac:(derive_setter).
#[export] Instance set_reads : Setter reads := ltac:(derive_setter).
#[export] Instance set_budget : Setter budget := ltac:(derive_setter).
#[export] Instance set_out : Setter out := ltac:(derive_setter).
#[export] Instance set_served : Setter served := ltac:(derive_setter).

Definition keepalive_exhausted (served max : Z) : bool := Z.max max 1 <=? served.

Definition take_fixed_body (acc : list Z) (head_len body_len : Z) : list Z * list Z :=
  let acc := drop (Z.to_nat head_len) acc in
  if body_len =? 0 then ([], acc)
  else (take (Z.to_nat body_len) acc, drop (Z.to_nat body_len) acc).

(** ** Writes of the intake *)

(** [stream.write_all], which has no clock. *)
Definition plain_write (buf : list Z) (o : h1_response.Out) : bool * h1_response.Out :=
  h1_response.write_all buf (o <| h1_response.progress := h1_response.progress_new None |>).

Definition status_text (status : Z) (reason : list Z) : list Z :=
  bs "HTTP/1.1 " ++ to_string status ++ bs " " ++ reason ++ CRLF
  ++ bs "connection: close" ++ CRLF ++ bs "content-length: 0" ++ CRLF ++ CRLF.

(** The refusal is written and the connection ends. *)
Definition write_status_close (status : Z) (reason : list Z) (c : Conn) : Conn :=
  c <| out := (plain_write (status_text status reason) (out c)).2 |>.

Definition write_continue (c : Conn) : Conn :=
  c <| out := (plain_write (bs "HTTP/1.1 100 Continue" ++ CRLF ++ CRLF) (out c)).2 |>.

(** ** Heads *)

Definition parse_step `{UriParts, Httparse} (max_head : Z) (acc : list Z) : h1_head.ParsedReq :=
  let '(parsed, raw) := parse_head acc in
  match codec.request_head_progress parsed (zlen acc) max_head with
  | codec.HeadComplete head_len =>
      if codec.head_has_bare_lf (take (Z.to_nat head_len) acc) then h1_head.ParsedBad
      else h1_head.materialize_head raw head_len
  | codec.HeadPartial => h1_head.ParsedPartial
  | codec.HeadTooLarge => h1_head.HeadersTooLarge
  | codec.HeadBad => h1_head.ParsedBad
  end.

(** The head read, with the buffer and the reads left; [None] when the client is gone. *)
Fixpoint read_head `{UriParts, Httparse} (max_head : Z) (acc : list Z) (reads : list (list Z))
    : option (h1_head.ParsedReq * list Z * list (list Z)) :=
  match parse_step max_head acc with
  | h1_head.ParsedPartial =>
      if max_head <? zlen acc then Some (h1_head.HeadersTooLarge, acc, reads)
      else
        match reads with
        | [] => None
        | b :: reads => if bool_decide (b = []) then None else read_head max_head (acc ++ b) reads
        end
  | parsed => Some (parsed, acc, reads)
  end.

(** ** Bodies *)

Definition UPFRONT_RESERVE : Z := 64 * 1024.

(** What the intake of a body ends with. *)
Inductive Intake : Type :=
| Body (body : list Z) (lease : option Z) (acc : list Z) (reads : list (list Z)) (b : budget.BodyBufferBudget)
| Refuse (status : Z) (reads : list (list Z)) (b : budget.BodyBufferBudget)
| Hangup (reads : list (list Z)) (b : budget.BodyBufferBudget).

Definition drop_lease (b : budget.BodyBufferBudget) (lease : option Z) : budget.BodyBufferBudget :=
  match lease with Some held => budget.lease_drop b held | None => b end.

(** The reservation of a body: the lease, and how much of the body it covers. *)
Definition ensure_reserved (b : budget.BodyBufferBudget) (lease : option Z) (reserved buffered : Z)
    : bool * budget.BodyBufferBudget * option Z * Z :=
  if buffered <=? reserved then (true, b, lease, reserved)
  else
    match budget.lease_reserve b (default 0 lease) (buffered - reserved) with
    | (true, b, held) => (true, b, Some held, buffered)
    | (false, b, held) => (false, b, Some held, reserved)
    end.

Fixpoint read_fixed (head_len content_length : Z) (acc : list Z) (reads : list (list Z))
    (b : budget.BodyBufferBudget) (lease : option Z) (reserved : Z) : Intake :=
  let total := saturating_add head_len content_length in
  if total <=? zlen acc then
    let '(body, acc) := take_fixed_body acc head_len content_length in Body body lease acc reads b
  else
    match reads with
    | [] => Hangup [] (drop_lease b lease)
    | r :: reads =>
        if bool_decide (r = []) then Hangup reads (drop_lease b lease)
        else
          let acc := acc ++ r in
          let buffered := Z.min (saturating_sub (zlen acc) head_len) content_length in
          match ensure_reserved b lease reserved buffered with
          | (false, b, lease, _) => Refuse 503 reads (drop_lease b lease)
          | (true, b, lease, reserved) => read_fixed head_len content_length acc reads b lease reserved
          end
    end.

(** [None] is fuel of the decoder that ran out. *)
Fixpoint read_chunked (head_len : Z) (acc : list Z) (reads : list (list Z))
    (b : budget.BodyBufferBudget) (lease : option Z) (accounted : Z) (dec : codec.ChunkedDecoder)
    : option Intake :=
  match codec.advance acc dec with
  | None => None
  | Some (step, dec) =>
      let buffered := codec.chunked_accounted_bytes (zlen (codec.body dec)) (zlen acc) head_len in
      match ensure_reserved b lease accounted buffered with
      | (false, b, lease, _) => Some (Refuse 503 reads (drop_lease b lease))
      | (true, b, lease, accounted) =>
          match step with
          | codec.Done end_ =>
              let bb := codec.body dec in
              let acc := drop (Z.to_nat end_) acc in
              let excess := saturating_sub accounted (zlen bb) in
              let '(b, lease) :=
                match lease with
                | Some held =>
                    if 0 <? excess then
                      let '(b, held) := budget.lease_release b held excess in (b, Some held)
                    else (b, lease)
                | None => (b, lease)
                end in
              Some (Body bb lease acc reads b)
          | codec.Bad =>
              Some (Refuse (if codec.too_large dec then 413 else 400) reads (drop_lease b lease))
          | codec.NeedMore =>
              match reads with
              | [] => Some (Hangup [] (drop_lease b lease))
              | r :: reads =>
                  if bool_decide (r = []) then Some (Hangup reads (drop_lease b lease))
                  else read_chunked head_len (acc ++ r) reads b lease accounted dec
              end
          end
      end
  end.

Definition chunked_decoder (head_len max_body : Z) : codec.ChunkedDecoder :=
  (codec.new head_len) <| codec.max_body := max_body |>
                     <| codec.max_raw := saturating_add max_body (2 ^ 20) |>.

(** The intake of the body, the header map with its length, and whether [100 Continue] is
    written first. *)
Definition read_body (max_body head_len : Z) (framing : codec.BodyFraming) (expect_continue : bool)
    (c : Conn) : option (Intake * Conn) :=
  match framing with
  | codec.Reject => Some (Refuse 400 (reads c) (budget c), c)
  | codec.Length content_length =>
      if max_body <? content_length then Some (Refuse 413 (reads c) (budget c), c)
      else
        let '(ok, b, lease, reserved) :=
          if 0 <? content_length then
            ensure_reserved (budget c) None 0 (Z.min content_length UPFRONT_RESERVE)
          else (true, budget c, None, 0) in
        if negb ok then Some (Refuse 503 (reads c) (drop_lease b lease), c)
        else
          let total := saturating_add head_len content_length in
          let c :=
            if expect_continue && (0 <? content_length) && (zlen (acc c) <? total) then write_continue c
            else c in
          Some (read_fixed head_len content_length (acc c) (reads c) b lease reserved, c)
  | codec.Chunked =>
      let c := if expect_continue then write_continue c else c in
      intake ← read_chunked head_len (acc c) (reads c) (budget c) None 0 (chunked_decoder head_len max_body);
      Some (intake, c)
  end.

Definition with_length `{HttpCrate} (framing : codec.BodyFraming) (m : HeaderMap) (body : list Z) : HeaderMap :=
  match framing with
  | codec.Chunked =>
      if header_value_from_str_ok (to_string (zlen body)) then
        insert m (bs "content-length") (to_string (zlen body))
      else m
  | _ => m
  end.

(** ** Requests *)

Definition is_websocket_upgrade `{HttpCrate} (m : HeaderMap) : bool :=
  let upgrade_ws :=
    match get m (bs "upgrade") with
    | Some v => header_value_is_str v && eq_ignore_ascii_case v (bs "websocket")
    | None => false
    end in
  if negb upgrade_ws then false
  else
    match get m (bs "connection") with
    | Some v =>
        header_value_is_str v
        && existsb (fun t => eq_ignore_ascii_case (trim t) (bs "upgrade")) (split 0x2c v)
    | None => false
    end.

(** One turn of the connection loop ends the connection or not, with what it dispatched. *)
Inductive Turn `{HttpCrate} : Type :=
| KeepOpen (c : Conn) (req : Request)
| Close (c : Conn) (req : option Request).

Section turn.
Context `{Http : HttpCrate, !UriParts, Parser : Httparse, Text : StatusText, Dec : request_body.Decoders}.
Context (cfg : Config) (dispatch : Request → option Answer).

Definition refuse_reason (status : Z) : list Z :=
  if status =? 400 then bs "Bad Request"
  else if status =? 413 then bs "Payload Too Large"
  else bs "Service Unavailable".

(** The response to a dispatched request. *)
Definition answer (c : Conn) (req : Request) (keep_alive : bool) : option Turn :=
  match dispatch req with
  | None => Some (Close c (Some req))
  | Some ans =>
      if h1_response.status (resp ans) =? 101 then
        if negb (upgrade req && upgrade_ready ans) then
          Some (Close (write_status_close 502 (bs "Bad Gateway") c) (Some req))
        else
          head ← h1_response.serialize_h1_upgrade_response 101 (h1_response.headers (resp ans));
          Some (Close (c <| out := (plain_write head (out c)).2 |>) (Some req))
      else
        let is_head := bytes_eqb (method req) (bs "HEAD") in
        let keep_alive := keep_alive && negb (cancelled ans) in
        wrote ← h1_response.write_h1_response (resp ans) is_head keep_alive (http10 req) (throttle cfg)
                  (sendfile_fd cfg) (send_window cfg) (out c);
        let '(outcome, o) := wrote in
        let c := c <| out := o |> in
        Some (if h1_response.close outcome then Close c (Some req) else KeepOpen c req)
  end.

(** The request made of a head and its body. *)
Definition make_request (method : list Z) (uri : Uri) (m : HeaderMap) (body : list Z)
    (http10 decode_tried : bool) : Request :=
  let m := if http10 then remove m (bs "upgrade") else m in
  {| method := method; uri := uri; headers := m; body := body; http10 := http10;
     decode_tried := decode_tried; upgrade := negb http10 && is_websocket_upgrade m |}.

(** The body is decoded and the request dispatched. *)
Definition finish (method : list Z) (uri : Uri) (m : HeaderMap) (body : list Z) (lease : option Z)
    (keep_alive http10 : bool) (c : Conn) : option Turn :=
  let policy := request_decompression cfg in
  let decode_tried := request_body.finish_body_decodes m body policy in
  let '(r, m, b) :=
    request_body.finish_body (alloc cfg) (slot cfg) m body lease (budget c) (max_req_body_size cfg) policy in
  let c := c <| budget := b |> in
  match r with
  | inr status =>
      Some (Close (write_status_close status (default (bs "Bad Request") (canonical_reason status)) c) None)
  | inl (body, held) =>
      answer (c <| budget := budget.lease_drop (budget c) held |>)
        (make_request method uri m body http10 decode_tried) keep_alive
  end.

Definition carries_body (framing : codec.BodyFraming) : bool :=
  match framing with
  | codec.Length len => (0 <? len) && (len <=? max_req_body_size cfg)
  | codec.Chunked => true
  | codec.Reject => false
  end.

(** A request refused from its head, or the target that is left. *)
Definition mtls_probe (framing : codec.BodyFraming) (method : list Z) (uri : Uri) (m : HeaderMap)
    (http10 : bool) : Uri * option h1_response.BridgeResp :=
  match mtls_gate cfg with
  | Some gate => if carries_body framing then gate method uri m http10 else (uri, None)
  | None => (uri, None)
  end.

Definition handle_head (parsed : h1_head.ParsedReq) (c : Conn) : option Turn :=
  match parsed with
  | h1_head.ParsedBad | h1_head.ParsedPartial => Some (Close (write_status_close 400 (bs "Bad Request") c) None)
  | h1_head.HeadersTooLarge =>
      Some (Close (write_status_close 431 (bs "Request Header Fields Too Large") c) None)
  | h1_head.MethodNotAllowed => Some (Close (write_status_close 405 (bs "Method Not Allowed") c) None)
  | h1_head.Parsed method uri m head_len framing keep_alive expect_continue http10 =>
      let c := c <| served := Z.min (served c + 1) (2 ^ 32 - 1) |> in
      let keep_alive := keep_alive && negb (keepalive_exhausted (served c) (max_keepalive_requests cfg)) in
      let '(uri, redirect) := mtls_probe framing method uri m http10 in
      match redirect with
      | Some redirect =>
          wrote ← h1_response.write_h1_response redirect (bytes_eqb method (bs "HEAD")) false http10
                    (throttle cfg) false (send_window cfg) (out c);
          Some (Close (c <| out := wrote.2 |>) None)
      | None =>
          intake ← read_body (max_req_body_size cfg) head_len framing expect_continue c;
          let '(intake, c) := intake in
          match intake with
          | Refuse status rs b =>
              Some (Close (write_status_close status (refuse_reason status)
                             (c <| acc := [] |> <| reads := rs |> <| budget := b |>)) None)
          | Hangup rs b => Some (Close (c <| acc := [] |> <| reads := rs |> <| budget := b |>) None)
          | Body body lease rest rs b =>
              finish method uri (with_length framing m body) body lease keep_alive http10
                (c <| acc := rest |> <| reads := rs |> <| budget := b |>)
          end
      end
  end.

(** The next request: the idle read, the head and what follows from it. *)
Definition handle_request (c : Conn) : option Turn :=
  let idle :=
    if bool_decide (acc c = []) then
      match reads c with
      | [] => None
      | b :: rs => if bool_decide (b = []) then None else Some (c <| acc := b |> <| reads := rs |>)
      end
    else Some c in
  match idle with
  | None => Some (Close c None)
  | Some c =>
      match read_head (Z.max (max_req_header_size cfg) 8192) (acc c) (reads c) with
      | None => Some (Close (c <| acc := [] |> <| reads := [] |>) None)
      | Some (parsed, rest, rs) => handle_head parsed (c <| acc := rest |> <| reads := rs |>)
      end
  end.

(** The connection, and the requests it dispatched. [None] is fuel that ran out, or a panic. *)
Fixpoint serve (fuel : nat) (c : Conn) : option (Conn * list Request) :=
  match fuel with
  | O => None
  | S fuel =>
      turn ← handle_request c;
      match turn with
      | Close c req => Some (c, match req with Some req => [req] | None => [] end)
      | KeepOpen c req =>
          rest ← serve fuel c;
          Some (rest.1, req :: rest.2)
      end
  end.

End turn.

End h1_connection.
