(* ===== verification/H1ConnectionTheorems.v ===== *)
(** * What an HTTP/1.1 connection dispatches

    Every request that is dispatched is a segment of the octets received, the segments
    follow one another, and the request says of its body what its framing said; the budget
    is given back. *)

From stdpp Require Import base list strings.
From Stdlib Require Import ZArith Lia.
From S2P Require Import Prelude RustStr HttpUtil Budget Net HpackString HpackTable H2Response.
From S2P Require Import H1Codec H1Chunked H1Response H1ResponseWire H1ResponseTheorems H1Head H1HeadTheorems H1Body.
From S2P Require Import H1Connection.

Import headers http_util h1_connection.
Import chunked_body request_body head_theorems.
Import (hints) h1_response codec.
#[local] Open Scope record_scope.

Module connection_theorems.

(** ** Reservations *)

(** The lease of the body being read holds [r] octets. *)
Definition reserving (b0 b : budget.BodyBufferBudget) (lease : option Z) (r : Z) : Prop :=
  leased b0 b r ∧ lease_held lease = r.

Lemma reserving_start b : budget_ok b → reserving b b None 0.
Proof. intros. split; [by apply leased_0|done]. Qed.

Lemma reserving_drop b0 b lease r : budget_ok b0 → reserving b0 b lease r → restored b0 (drop_lease b lease).
Proof.
  intros Hb [Hl <-]. destruct lease as [held|]; cbn in *; [by apply leased_drop|].
  destruct Hl as (_ & _ & k & ->). exists k. by rewrite charged_0.
Qed.

Lemma ensure_reserved_spec b0 b lease r buffered :
  budget_ok b0 → reserving b0 b lease r →
  match ensure_reserved b lease r buffered with
  | (true, b', lease', r') => reserving b0 b' lease' r' ∧ r' = Z.max r buffered
  | (false, b', lease', _) => restored b0 (drop_lease b' lease')
  end.
Proof.
  intros Hb [Hl Eh]. unfold ensure_reserved. destruct (Z.leb_spec buffered r); [split; [done|lia]|].
  fold (lease_held lease). rewrite Eh.
  destruct (budget.lease_reserve b r (buffered - r)) as [[ok b1] held] eqn:Er.
  apply reserve_charged in Er; [|by eapply leased_ok|lia]. destruct Hl as (Hr & Hf & k & ->). destruct ok.
  - destruct Er as (-> & -> & Hfit). split; [|lia]. split; [|cbn; lia]. split_and!; [lia| |].
    + replace buffered with (r + (buffered - r)) by lia. by apply fits_add.
    + exists k. rewrite charged_refused, charged_add. by replace (r + (buffered - r)) with buffered by lia.
  - destruct Er as [-> ->]. exists (k + 1). cbn. rewrite refused_add. by apply drop_charged.
Qed.

(** ** Bodies *)

Lemma take_fixed_body_spec acc head_len n :
  0 <= head_len → 0 <= n → head_len + n <= zlen acc →
  let '(body, acc') := take_fixed_body acc head_len n in
  acc = take (Z.to_nat head_len) acc ++ body ++ acc' ∧ zlen body = n.
Proof.
  intros Hh Hn Hl. unfold take_fixed_body. destruct (Z.eqb_spec n 0) as [->|].
  - split; [cbn [app]; by rewrite take_drop|done].
  - split; [by rewrite !take_drop|]. rewrite zlen_take, zlen_drop. lia.
Qed.

Lemma take_head_app (acc r : list Z) n : 0 <= n <= zlen acc → take (Z.to_nat n) (acc ++ r) = take (Z.to_nat n) acc.
Proof. intros. rewrite take_app_le; [done|]. unfold zlen in *. lia. Qed.

(** What the intake of a body may end with: [wire] was taken, and it was [body] framed. *)
Definition intake_ok (b0 : budget.BodyBufferBudget) (head stream : list Z) (framed : list Z → list Z → Prop)
    (i : Intake) : Prop :=
  match i with
  | Body body lease acc' reads' b' =>
      leased b0 b' (lease_held lease) ∧
      ∃ wire, stream = head ++ wire ++ acc' ++ concat reads' ∧ framed wire body
  | Refuse status _ b' => restored b0 b'
  | Hangup _ b' => restored b0 b'
  end.

Definition fixed (n : Z) (wire body : list Z) : Prop := wire = body ∧ zlen body = n.

Lemma fixed_done b0 b lease r head_len n acc reads :
  reserving b0 b lease r → 0 <= head_len → 0 <= n → head_len + n <= zlen acc →
  intake_ok b0 (take (Z.to_nat head_len) acc) (acc ++ concat reads) (fixed n)
    (let '(body, acc') := take_fixed_body acc head_len n in Body body lease acc' reads b).
Proof.
  intros [Hl <-] Hh Hn Hex. pose proof (take_fixed_body_spec acc head_len n Hh Hn Hex) as Hs.
  destruct (take_fixed_body acc head_len n) as [body acc']. destruct Hs as [E Hz]. split; [done|].
  exists body. split; [rewrite E at 1; by rewrite <-!app_assoc|done].
Qed.

Lemma read_fixed_ok b0 head_len n acc reads b lease r :
  budget_ok b0 → reserving b0 b lease r → 0 <= head_len <= zlen acc → 0 <= n →
  zlen (acc ++ concat reads) < U64_MAX →
  intake_ok b0 (take (Z.to_nat head_len) acc) (acc ++ concat reads) (fixed n)
    (read_fixed head_len n acc reads b lease r).
Proof.
  intros Hb. revert acc b lease r. induction reads as [|x reads IH]; intros acc b lease r Hr Hh Hn Hu.
  all: assert (Hdone : saturating_add head_len n <= zlen acc → ∀ rs,
    intake_ok b0 (take (Z.to_nat head_len) acc) (acc ++ concat rs) (fixed n)
      (let '(body, acc') := take_fixed_body acc head_len n in Body body lease acc' rs b)).
  1, 3: intros Ht rs; eapply fixed_done; [done| | |]; [lia|done|]; rewrite zlen_app in Hu;
    match type of Hu with _ + zlen ?c < _ => pose proof (zlen_nonneg c) end; unfold saturating_add in Ht; lia.
  all: cbn [read_fixed]; destruct (Z.leb_spec (saturating_add head_len n) (zlen acc)) as [Ht|_]; [by apply Hdone|].
  - by eapply reserving_drop.
  - destruct (bool_decide (x = [])); [by eapply reserving_drop|].
    set (buffered := Z.min _ n). pose proof (ensure_reserved_spec b0 b lease r buffered Hb Hr) as He.
    destruct (ensure_reserved b lease r buffered) as [[[[] b1] lease1] r1]; [|done]. destruct He as [Hr1 _].
    cbn [concat]. rewrite app_assoc, <-(take_head_app acc x) by done.
    apply IH; [done| |done|by rewrite <-app_assoc]. rewrite zlen_app. pose proof (zlen_nonneg x). lia.
Qed.

(** ** Chunked bodies *)

Definition chunked_within (max_body max_raw : Z) (wire body : list Z) : Prop :=
  chunked any wire body ∧ zlen body <= max_body ∧ zlen wire <= max_raw.

Lemma release_leased b0 b held n :
  budget_ok b0 → leased b0 b held → 0 <= n →
  let '(b', held') := budget.lease_release b held n in leased b0 b' held'.
Proof.
  intros Hb Hl Hn. unfold budget.lease_release. destruct (Z.eqb_spec (Z.min n held) 0); [done|].
  destruct Hl as (Hh & Hf & k & ->). set (x := Z.min n held) in *.
  assert (Hx : 0 < x <= held) by lia. split_and!; [lia| |].
  - apply (fits_less _ _ x); [lia|]. by replace (held - x + x) with held by lia.
  - exists k. replace held with ((held - x) + x) at 1 by lia. rewrite <-charged_add.
    apply (drop_charged (charged b0 (held - x)) x k).
    + apply charged_ok; [done|lia|]. apply (fits_less _ _ x); [lia|]. by replace (held - x + x) with held by lia.
    + lia.
    + apply fits_swap. by replace (x + (held - x)) with held by lia.
Qed.

(** The end of a chunked body, and the lease cut to it. *)
Lemma chunked_done b0 b lease r head_len dec dec' acc reads e :
  budget_ok b0 → reserving b0 b lease r → codec.start dec = head_len →
  sound_step dec acc (codec.Done e) dec' → decoding dec acc →
  intake_ok b0 (take (Z.to_nat head_len) acc) (acc ++ concat reads)
    (chunked_within (codec.max_body dec) (codec.max_raw dec))
    (let bb := codec.body dec' in
     let excess := saturating_sub r (zlen bb) in
     let '(b, lease) :=
       match lease with
       | Some held =>
           if 0 <? excess then let '(b, held) := budget.lease_release b held excess in (b, Some held)
           else (b, lease)
       | None => (b, lease)
       end in
     Body bb lease (drop (Z.to_nat e) acc) reads b).
Proof.
  intros Hb [Hl Eh] Es (_ & He & Hraw & Hbody & Hc) Hd. rewrite Es in *. cbn zeta.
  pose proof (cursor_range _ _ (dec_cursor _ _ Hd)) as Hr0. rewrite Es in Hr0.
  assert (Hacc : acc = take (Z.to_nat head_len) acc ++ codec.slice head_len e acc ++ drop (Z.to_nat e) acc).
  { unfold codec.slice. rewrite <-(take_drop (Z.to_nat head_len) acc) at 1. f_equal.
    rewrite <-(take_drop (Z.to_nat (e - head_len)) (drop _ acc)) at 1. f_equal. rewrite drop_drop. f_equal. lia. }
  assert (Hwire : ∀ b' lease', leased b0 b' (lease_held lease') →
    intake_ok b0 (take (Z.to_nat head_len) acc) (acc ++ concat reads)
      (chunked_within (codec.max_body dec) (codec.max_raw dec))
      (Body (codec.body dec') lease' (drop (Z.to_nat e) acc) reads b')).
  { intros b' lease' Hl'. split; [done|]. exists (codec.slice head_len e acc). split.
    - rewrite Hacc at 1. by rewrite <-!app_assoc.
    - split_and!; [done|done|]. rewrite slice_length; lia. }
  destruct lease as [held|]; [|apply Hwire; by rewrite Eh]. cbn in Eh. subst held.
  destruct (Z.ltb_spec 0 (saturating_sub r (zlen (codec.body dec')))); [|by apply Hwire].
  pose proof (release_leased b0 b r (saturating_sub r (zlen (codec.body dec'))) Hb Hl ltac:(lia)) as Hrel.
  destruct (budget.lease_release b r _) as [b1 held1]. by apply Hwire.
Qed.

Lemma read_chunked_ok b0 head_len acc reads b lease r dec :
  budget_ok b0 → reserving b0 b lease r → decoding dec acc → codec.start dec = head_len →
  zlen (acc ++ concat reads) < U64_MAX →
  ∃ i, read_chunked head_len acc reads b lease r dec = Some i ∧
    intake_ok b0 (take (Z.to_nat head_len) acc) (acc ++ concat reads)
      (chunked_within (codec.max_body dec) (codec.max_raw dec)) i.
Proof.
  intros Hb. revert acc b lease r dec. induction reads as [|x reads IH]; intros acc b lease r dec Hr Hd Es Hu.
  all: assert (Hua : zlen acc < U64_MAX) by (rewrite zlen_app in Hu;
    match type of Hu with _ + zlen ?c < _ => pose proof (zlen_nonneg c) end; lia).
  all: destruct (advance_total dec acc Hd Hua) as (step & dec' & Ha); cbn [read_chunked]; rewrite Ha;
    apply (advance_loop_sound _ _ _ _ _ Hd Hua) in Ha as Hst;
    set (buffered := codec.chunked_accounted_bytes _ _ _);
    pose proof (ensure_reserved_spec b0 b lease r buffered Hb Hr) as He;
    destruct (ensure_reserved b lease r buffered) as [[[[] b1] lease1] r1];
    [destruct He as [Hr1 _]|by eexists].
  all: destruct step as [e| |]; [|destruct Hst as [(Es' & Em & Ew) Hd']|eexists; split; [done|]; by eapply reserving_drop].
  - eexists. split; [|exact (chunked_done _ _ _ _ _ _ _ _ [] e Hb Hr1 Es Hst Hd)]. cbn zeta.
    by destruct lease1 as [held|]; [destruct (0 <? _); [destruct (budget.lease_release _ _ _)|]|].
  - eexists. split; [done|]. by eapply reserving_drop.
  - eexists. split; [|exact (chunked_done _ _ _ _ _ _ _ _ (x :: reads) e Hb Hr1 Es Hst Hd)]. cbn zeta.
    by destruct lease1 as [held|]; [destruct (0 <? _); [destruct (budget.lease_release _ _ _)|]|].
  - destruct (bool_decide (x = [])); [eexists; split; [done|]; by eapply reserving_drop|].
    pose proof (cursor_range _ _ (dec_cursor _ _ Hd)) as Hr0. rewrite Es in *.
    destruct (IH (acc ++ x) b1 lease1 r1 dec') as (i & Hi & Hok);
      [done|by apply decoding_more|done|by rewrite <-app_assoc|]. exists i. split; [done|].
    cbn [concat]. rewrite app_assoc, <-(take_head_app acc x) by lia. by rewrite Em, Ew in Hok.
Qed.

(** ** The body of a request *)

Definition framed_body (framing : codec.BodyFraming) (max_body : Z) (wire body : list Z) : Prop :=
  match framing with
  | codec.Length n => wire = body ∧ zlen body = n ∧ n <= max_body
  | codec.Chunked => chunked any wire body ∧ zlen body <= max_body
  | codec.Reject => False
  end.

Lemma intake_weaken b0 head stream (P Q : list Z → list Z → Prop) i :
  (∀ w b, P w b → Q w b) → intake_ok b0 head stream P i → intake_ok b0 head stream Q i.
Proof.
  intros H. destruct i as [body lease acc' reads' b'| |]; [|done|done]. intros [Hl (w & E & Hw)].
  split; [done|]. exists w. auto.
Qed.

Lemma chunked_decoder_decoding n mb buf : 0 <= n <= zlen buf → 0 <= mb → decoding (chunked_decoder n mb) buf.
Proof.
  intros Hn Hmb. destruct (decoding_new n buf Hn) as [Hc Hz Hp Hk Ht]. split; [by destruct Hc| |done|done|done].
  cbn. unfold zlen. cbn. lia.
Qed.

Definition stream (c : Conn) : list Z := acc c ++ concat (reads c).

Definition continue_text : list Z := bs "HTTP/1.1 100 Continue" ++ CRLF ++ CRLF.

(** [c'] is [c] after a part of an interim response. *)
Definition after_interim (c c' : Conn) : Prop :=
  acc c' = acc c ∧ reads c' = reads c ∧ budget c' = budget c ∧ served c' = served c ∧
  ∃ k, response_wire.sent (out c) (out c') k ∧ k `prefix_of` continue_text.

Lemma after_interim_refl c : after_interim c c.
Proof. split_and!; try done. exists []. split; [apply response_wire.sent_nil|apply prefix_nil]. Qed.

Lemma after_interim_continue c : after_interim c (write_continue c).
Proof.
  split_and!; try done. unfold write_continue, plain_write. cbn.
  destruct (response_wire.write_all_sends continue_text ((out c) <| h1_response.progress := h1_response.progress_new None |>))
    as (k & Hk & Hp & _). by exists k.
Qed.

Lemma read_body_ok max_body head_len framing expect c :
  budget_ok (budget c) → 0 <= max_body → 0 <= head_len <= zlen (acc c) → zlen (stream c) < U64_MAX →
  (∀ n, framing = codec.Length n → 0 <= n) →
  ∃ i c', read_body max_body head_len framing expect c = Some (i, c') ∧ after_interim c c' ∧
    intake_ok (budget c) (take (Z.to_nat head_len) (acc c)) (stream c) (framed_body framing max_body) i.
Proof.
  intros Hb Hmb Hh Hu Hlen. assert (Hsame : restored (budget c) (budget c)) by (exists 0; by rewrite refused_0).
  unfold read_body. destruct framing as [n| |].
  - specialize (Hlen n eq_refl). destruct (Z.ltb_spec max_body n); [by eexists _, c; split_and!; [|apply after_interim_refl|]|].
    set (r0 := if 0 <? n then _ else _).
    assert (Hr : match r0 with
      | (true, b, lease, r) => reserving (budget c) b lease r
      | (false, b, lease, _) => restored (budget c) (drop_lease b lease) end).
    { unfold r0. destruct (0 <? n); [|by apply reserving_start].
      pose proof (ensure_reserved_spec (budget c) (budget c) None 0 (Z.min n UPFRONT_RESERVE) Hb (reserving_start _ Hb)) as He.
      by destruct (ensure_reserved _ _ _ _) as [[[[] ?] ?] ?]; [destruct He|]. }
    destruct r0 as [[[[] b] lease] r]; cbn [negb]; [|by eexists _, c; split_and!; [|apply after_interim_refl|]].
    set (c1 := if _ : bool then write_continue c else c).
    assert (Hi : after_interim c c1) by (unfold c1; destruct (_ && _); [apply after_interim_continue|apply after_interim_refl]).
    eexists _, c1. split_and!; [done|done|]. destruct Hi as (-> & -> & _).
    eapply intake_weaken; [|by apply read_fixed_ok]. intros w bd [-> <-]. done.
  - set (c1 := if _ : bool then write_continue c else c).
    assert (Hi : after_interim c c1) by (unfold c1; destruct expect; [apply after_interim_continue|apply after_interim_refl]).
    pose proof Hi as (-> & -> & -> & _).
    destruct (read_chunked_ok (budget c) head_len (acc c) (reads c) (budget c) None 0 (chunked_decoder head_len max_body))
      as (i & -> & Hok); [done|by apply reserving_start|by apply chunked_decoder_decoding|done|done|].
    eexists i, c1. split_and!; [done|done|]. eapply intake_weaken; [|exact Hok]. by intros w bd (Hc & Hz & _).
  - eexists _, c. split_and!; [done|apply after_interim_refl|done].
Qed.

(** ** Heads *)

Section heads.
Context `{Http : HttpCrate, Parts : !UriParts, Parser : Httparse, PLaws : !HttparseLaws}.

(** A complete head that was accepted. *)
Definition head_text (max_head : Z) (head : list Z) (raw : RawHead) : Prop :=
  parse_head head = (codec.Complete (zlen head), raw) ∧ 0 < zlen head <= max_head ∧ codec.head_has_bare_lf head = false.

Lemma parse_step_parsed max_head acc method uri m n framing ka expect h10 :
  parse_step max_head acc = h1_head.Parsed method uri m n framing ka expect h10 →
  ∃ raw n', h1_head.materialize_head raw n' = h1_head.Parsed method uri m n framing ka expect h10 ∧
    head_text max_head (take (Z.to_nat n') acc) raw ∧ 0 <= n' <= zlen acc ∧ zlen (take (Z.to_nat n') acc) = n'.
Proof.
  unfold parse_step. destruct (parse_head acc) as [parsed raw] eqn:Ep. destruct parsed as [k| | |]; cbn; try done.
  - destruct (Z.ltb_spec max_head k); [done|]. destruct (codec.head_has_bare_lf _) eqn:El; [done|]. intros Hm.
    destruct (parse_complete _ _ _ Ep) as [Hk Hall]. exists raw, k.
    assert (Hz : zlen (take (Z.to_nat k) acc) = k) by (rewrite zlen_take; lia).
    split_and!; [done| |lia|lia|done]. split_and!; [|lia|lia|done]. rewrite Hz. specialize (Hall []). by rewrite app_nil_r in Hall.
  - by destruct (max_head <? zlen acc).
Qed.

Lemma read_head_accepted max_head acc reads parsed acc' reads' :
  read_head max_head acc reads = Some (parsed, acc', reads') →
  acc ++ concat reads = acc' ++ concat reads' ∧
  (parsed = h1_head.HeadersTooLarge ∨ parsed = parse_step max_head acc').
Proof.
  revert acc. induction reads as [|x reads IH]; intros acc; cbn [read_head].
  - destruct (parse_step max_head acc) eqn:E; try (intros [= <- <- <-]; by auto).
    destruct (max_head <? zlen acc); [|done]. intros [= <- <- <-]. auto.
  - destruct (parse_step max_head acc) eqn:E; try (intros [= <- <- <-]; by auto).
    destruct (max_head <? zlen acc); [intros [= <- <- <-]; auto|]. destruct (bool_decide _); [done|].
    intros Hr. apply IH in Hr as [Es Hp]. split; [|done]. cbn [concat]. by rewrite app_assoc, Es.
Qed.

End heads.

(** ** Requests *)

Lemma parse_length_to_string n : 0 <= n <= U64_MAX → codec.parse_length (to_string n) = Some n.
Proof.
  intros Hn. pose proof (parse_to_string n Hn) as Hp. pose proof (response_read.to_string_digits n) as Hd.
  destruct (response_read.digits_plain (to_string n)) as (_ & _ & _ & Hows); [intros b; apply Hd; lia|].
  unfold codec.parse_length. rewrite ascii_utf8.
  - rewrite response_wire.trim_ows_plain by done. rewrite bool_decide_false by (by intros E; rewrite E in Hp).
    cbn [negb andb]. assert (forallb is_ascii_digit (to_string n) = true) as ->; [|done].
    apply forallb_forall. intros b Hb. apply Hd; [lia|by apply list_elem_of_In].
  - apply Forall_forall. intros b Hb. apply Hd in Hb; [|lia]. unfold is_ascii_digit, between in Hb. bool_hyps. lia.
Qed.

Lemma parse_length_nonneg v n : codec.parse_length v = Some n → 0 <= n.
Proof.
  unfold codec.parse_length. destruct (utf8_valid v); [|done]. destruct (_ && _); [|done].
  intros H%parse_unsigned_range; [lia|done].
Qed.

(** The header map says how long the body is. *)
Definition body_agrees (m : HeaderMap) (body : list Z) : Prop :=
  get_all m (bs "transfer-encoding") = [] ∧
  (get_all m (bs "content-length") = [] ∧ body = [] ∨
   ∃ v, get_all m (bs "content-length") = [v] ∧ codec.parse_length v = Some (zlen body)).

Section requests.
Context `{Http : HttpCrate, HLaws : !HttpLaws, Parts : !UriParts}.

Lemma with_length_agrees framing m max_body wire data :
  head_agrees m framing → framed_body framing max_body wire data → zlen data <= U64_MAX →
  body_agrees (with_length framing m data) data ∧
  get_all (with_length framing m data) (bs "host") = get_all m (bs "host").
Proof.
  intros [Hte Hl Hc] Hf Hz. destruct framing as [n| |]; cbn [framed_body with_length] in *; [| |done].
  - split; [|done]. split; [done|]. destruct Hf as (-> & <- & _). destruct (Hl _ eq_refl) as [[E Ez]|Hv]; [|by right].
    left. split; [done|]. by apply zlen_0.
  - rewrite header_value_from_str_total.
    + pose proof (zlen_nonneg data). split; [split|].
      * by rewrite get_all_insert, decide_False.
      * right. exists (to_string (zlen data)). rewrite get_all_insert, decide_True by done. split; [done|].
        apply parse_length_to_string. lia.
      * by rewrite get_all_insert, decide_False.
    + apply forallb_forall. intros b Hb%list_elem_of_In. apply response_read.to_string_digits in Hb; [|apply zlen_nonneg].
      unfold is_ascii_digit, between in *. bool_hyps. by rewrite !(proj2 (Z.leb_le _ _)) by lia.
Qed.

(** Decoding keeps the agreement. *)
Lemma finished_agrees `{Dec : request_body.Decoders} m data held mb policy b0 body kept m' b' :
  body_agrees m data → mb <= U64_MAX → finished m data held mb policy b0 (inl (body, kept), m', b') →
  body_agrees m' body ∧ get_all m' (bs "host") = get_all m (bs "host").
Proof.
  intros [Hte Hcl] Hmb [_ [(-> & -> & _)|(_ & _ & Hz & _ & ->)]]; [done|]. split; [split|].
  - by rewrite get_all_remove, get_all_insert, !decide_False.
  - right. exists (to_string (zlen body)). rewrite get_all_remove, get_all_insert, decide_False, decide_True by done.
    split; [done|]. apply parse_length_to_string. pose proof (zlen_nonneg body). lia.
  - by rewrite get_all_remove, get_all_insert, !decide_False.
Qed.

Lemma make_request_agrees method uri m body h10 tried :
  body_agrees m body →
  let req := make_request method uri m body h10 tried in
  body_agrees (headers req) body ∧ get_all (headers req) (bs "host") = get_all m (bs "host").
Proof.
  intros [Hte Hcl] req. unfold req, make_request. cbn [headers]. destruct h10; [|done].
  split; [split|]; by rewrite ?get_all_remove, ?decide_False.
Qed.

End requests.

(** ** One turn *)

Lemma plain_write_sent buf o : ∃ k, response_wire.sent o (plain_write buf o).2 k.
Proof.
  unfold plain_write. destruct (response_wire.write_all_sends buf (o <| h1_response.progress := h1_response.progress_new None |>))
    as (k & Hk & _). by exists k.
Qed.

Lemma status_close_sent status reason c : ∃ k, response_wire.sent (out c) (out (write_status_close status reason c)) k.
Proof. apply plain_write_sent. Qed.

(** Nothing that was sent is taken back. *)
Definition grows (c c' : Conn) : Prop := ∃ k, response_wire.sent (out c) (out c') k.

Lemma grows_trans c c1 c2 : grows c c1 → grows c1 c2 → grows c c2.
Proof. intros [k Hk] [k' Hk']. exists (k ++ k'). by eapply response_wire.sent_trans. Qed.

Lemma status_close_grows c c' status reason : out c' = out c → grows c (write_status_close status reason c').
Proof. intros E. unfold grows. rewrite <-E. apply status_close_sent. Qed.

Lemma grows_refl c : grows c c.
Proof. exists []. apply response_wire.sent_nil. Qed.

Section turns.
Context `{Http : HttpCrate, HLaws : !HttpLaws, Parts : !UriParts, Parser : Httparse, PLaws : !HttparseLaws}.
Context `{Text : StatusText, Dec : request_body.Decoders}.
Context (cfg : Config) (dispatch : Request → option Answer).

Hypothesis iter_fields : ∀ m f, f ∈ header_iter m → f ∈ m.
Hypothesis reason_clean : ∀ status, clean (default [] (canonical_reason status)).
Hypothesis body_limit : 0 <= max_req_body_size cfg <= U64_MAX.
Hypothesis answers_ok : ∀ req ans, dispatch req = Some ans →
  h1_response.status (resp ans) = 101 ∨ response_read.response_ok (resp ans).
Hypothesis gate_ok : ∀ gate method uri m h10 redirect, mtls_gate cfg = Some gate →
  (gate method uri m h10).2 = Some redirect → response_read.response_ok redirect.

Definition max_head : Z := Z.max (max_req_header_size cfg) 8192.

(** [seg] is the text of the request [req]. *)
Definition request_text (seg : list Z) (req : Request) : Prop :=
  ∃ head wire raw uri m framing ka expect data,
    seg = head ++ wire ∧ head_text max_head head raw ∧
    h1_head.materialize_head raw (zlen head) = h1_head.Parsed (method req) uri m (zlen head) framing ka expect (http10 req) ∧
    framed_body framing (max_req_body_size cfg) wire data ∧
    (body req = data ∨
       (∃ coding, enabled_content_coding (with_length framing m data) (request_decompression cfg) = Some coding ∧
          decodes coding data (body req)) ∧
       zlen (body req) <= max_req_body_size cfg) ∧
    body_agrees (headers req) (body req) ∧ host_ok (headers req) (raw_version raw).

(** The client reads the answer to [req] in [k], after a part of an interim response. *)
Definition answered (req : Request) (k : list Z) : Prop :=
  ∃ interim wire ans outcome,
    k = interim ++ wire ∧ interim `prefix_of` continue_text ∧ dispatch req = Some ans ∧
    h1_response.close outcome = false ∧
    response_read.reads_as (bytes_eqb (method req) (bs "HEAD")) (resp ans) outcome wire.

(** What a turn did with the connection it was given. *)
Definition turn_ok (c : Conn) (t : Turn) : Prop :=
  match t with
  | KeepOpen c' req =>
      restored (budget c) (budget c') ∧
      ∃ seg k, request_text seg req ∧ stream c = seg ++ stream c' ∧ response_wire.sent (out c) (out c') k ∧ answered req k
  | Close c' (Some req) =>
      restored (budget c) (budget c') ∧ grows c c' ∧ ∃ seg rest, request_text seg req ∧ stream c = seg ++ rest
  | Close c' None => restored (budget c) (budget c') ∧ grows c c'
  end.

Lemma answer_ok c req keep_alive :
  ∃ t, answer cfg dispatch c req keep_alive = Some t ∧
    match t with
    | KeepOpen c' req' =>
        req' = req ∧ acc c' = acc c ∧ reads c' = reads c ∧ budget c' = budget c ∧
        ∃ k ans outcome, response_wire.sent (out c) (out c') k ∧ dispatch req = Some ans ∧
          h1_response.close outcome = false ∧
          response_read.reads_as (bytes_eqb (method req) (bs "HEAD")) (resp ans) outcome k
    | Close c' req' => req' = Some req ∧ budget c' = budget c ∧ ∃ k, response_wire.sent (out c) (out c') k
    end.
Proof.
  unfold answer. destruct (dispatch req) as [ans|] eqn:Ed; [|by eexists; split; [done|]; split_and!; [done|done|apply grows_refl]].
  pose proof (answers_ok _ _ Ed) as Hok.
  destruct (Z.eqb_spec (h1_response.status (resp ans)) 101).
  { destruct (negb _); [eexists; split; [done|]; split_and!; [done|done|apply status_close_sent]|].
    destruct (response_read.upgrade_total (h1_response.headers (resp ans))) as [head ->].
    eexists. split; [done|]. split_and!; [done|done|]. apply plain_write_sent. }
  destruct Hok as [?|Hok]; [done|].
  destruct (response_read.response_written iter_fields reason_clean (resp ans) (bytes_eqb (method req) (bs "HEAD"))
    (keep_alive && negb (cancelled ans)) (http10 req) (throttle cfg) (sendfile_fd cfg) (send_window cfg) (out c) Hok)
    as (outcome & o' & k & -> & Hk & Hf & Hr). cbn [mbind option_bind].
  destruct (h1_response.close outcome) eqn:Ec; [by eexists; split; [done|]; split_and!; [..|exists k]|]. eexists. split; [done|]. cbn.
  split_and!; try done. assert (Hnf : h1_response.failed outcome = false)
    by (destruct (h1_response.failed outcome); [specialize (Hf eq_refl); congruence|done]).
  exists k, ans, outcome. split_and!; [done|done|done|by apply Hr].
Qed.

(** [req] is the request made of a header map and the octets of its body. *)
Definition carries (m : HeaderMap) (data mth : list Z) (h10 : bool) (req : Request) : Prop :=
  method req = mth ∧ http10 req = h10 ∧ body_agrees (headers req) (body req) ∧
  get_all (headers req) (bs "host") = get_all m (bs "host") ∧
  (body req = data ∨
   (∃ coding, enabled_content_coding m (request_decompression cfg) = Some coding ∧ decodes coding data (body req)) ∧
   zlen (body req) <= max_req_body_size cfg).

Lemma finish_ok b0 c mth u m data lease keep_alive h10 :
  budget_ok b0 → leased b0 (budget c) (lease_held lease) → body_agrees m data →
  ∃ t, finish cfg dispatch mth u m data lease keep_alive h10 c = Some t ∧
    match t with
    | KeepOpen c' req =>
        restored b0 (budget c') ∧ acc c' = acc c ∧ reads c' = reads c ∧
        (∃ k, response_wire.sent (out c) (out c') k ∧ ∀ interim, interim `prefix_of` continue_text → answered req (interim ++ k)) ∧
        carries m data mth h10 req
    | Close c' (Some req) => restored b0 (budget c') ∧ grows c c' ∧ carries m data mth h10 req
    | Close c' None => restored b0 (budget c') ∧ grows c c'
    end.
Proof.
  intros Hb Hl Hag. unfold finish.
  destruct (finish_body_any (alloc cfg) (slot cfg) m data lease b0 (budget c) (max_req_body_size cfg)
    (request_decompression cfg) Hb Hl (proj1 body_limit)) as (held & Hf).
  destruct (finish_body _ _ _ _ _ _ _ _) as [[r m'] b']. destruct r as [[bd kept]|status].
  2:{ eexists. split; [done|]. destruct Hf as (_ & _ & Hres). split; [done|].
      by apply status_close_grows. }
  pose proof (finished_agrees _ _ _ _ _ _ _ _ _ _ Hag (proj2 body_limit) Hf) as [Hag' Hhost].
  pose proof Hf as [Hl' Hcase]. set (req := make_request _ _ _ _ _ _).
  destruct (make_request_agrees mth u m' bd h10 (finish_body_decodes m data (request_decompression cfg)) Hag') as [Hra Hrh].
  fold req in Hra, Hrh. set (c1 := c <| budget := b' |> <| budget := _ |>).
  assert (Hres : restored b0 (budget c1)) by (by apply leased_drop).
  assert (Hcr : carries m data mth h10 req).
  { split_and!; [done|done|done|by rewrite Hrh|]. cbn. destruct Hcase as [(-> & _)|(Hen & _ & Hz & _)]; auto. }
  destruct (answer_ok c1 req keep_alive) as (t & -> & Ht). eexists. split; [done|].
  destruct t as [c' req'|c' req'].
  - destruct Ht as (-> & Ea & Er & Eb & k & ans & outcome & Hk & Hd & Hc & Hreads). rewrite Eb.
    split_and!; try done. exists k. split; [done|]. intros interim Hi. by exists interim, k, ans, outcome.
  - destruct Ht as (-> & Eb & Hg). rewrite Eb. done.
Qed.

(** A request whose head and body were read. *)
Lemma carries_text raw head wire u m framing ka expect data req :
  head_text max_head head raw →
  h1_head.materialize_head raw (zlen head) = h1_head.Parsed (method req) u m (zlen head) framing ka expect (http10 req) →
  framed_body framing (max_req_body_size cfg) wire data →
  get_all (with_length framing m data) (bs "host") = get_all m (bs "host") →
  carries (with_length framing m data) data (method req) (http10 req) req →
  request_text (head ++ wire) req.
Proof.
  intros Hh Hm Hf Hw (_ & _ & Hb & Hhost & Hdata). destruct (materialize_head_agrees _ _ _ _ _ _ _ _ _ _ Hm) as (_ & _ & Hok & _).
  exists head, wire, raw, u, m, framing, ka, expect, data. split_and!; try done.
  unfold host_ok in *. rewrite Hhost, Hw. apply Hok. by intros ->.
Qed.

Lemma handle_head_ok c parsed :
  budget_ok (budget c) → zlen (stream c) < U64_MAX →
  (parsed = h1_head.HeadersTooLarge ∨ parsed = parse_step max_head (acc c)) →
  ∃ t, handle_head cfg dispatch parsed c = Some t ∧ turn_ok c t.
Proof.
  intros Hb Hu Hp. assert (Hsame : restored (budget c) (budget c)) by (exists 0; by rewrite refused_0).
  destruct parsed as [mth u m n framing ka expect h10| | | |];
    try (eexists; split; [done|]; split; [done|apply status_close_sent]). destruct Hp as [?|Hp]; [done|].
  symmetry in Hp. apply parse_step_parsed in Hp as (raw & n' & Hm & Hh & Hn & Hz).
  destruct (materialize_head_agrees _ _ _ _ _ _ _ _ _ _ Hm) as (-> & Hag & _). cbn [handle_head].
  set (c1 := c <| served := _ |>). destruct (mtls_probe cfg framing mth u m h10) as [u1 redirect] eqn:Eg.
  destruct redirect as [redirect|].
  { assert (Hok : response_read.response_ok redirect).
    { unfold mtls_probe in Eg. destruct (mtls_gate cfg) as [gate|] eqn:Egate; [|done].
      destruct (carries_body cfg framing); [|done]. eapply gate_ok; [done|]. by rewrite Eg. }
    destruct (response_read.response_written iter_fields reason_clean redirect (bytes_eqb mth (bs "HEAD")) false h10
      (throttle cfg) false (send_window cfg) (out c1) Hok) as (oc & o' & kr & -> & Hkr & _).
    eexists. split; [done|]. split; [done|by exists kr]. }
  destruct (read_body_ok (max_req_body_size cfg) n' framing expect c1) as (i & c2 & -> & Hi & Hok).
  { done. } { lia. } { done. } { done. }
  { intros k ->. destruct (agrees_length _ _ Hag k eq_refl) as [[_ ->]|(v & _ & Hv)]; [done|by eapply parse_length_nonneg]. }
  cbn [mbind option_bind]. destruct Hi as (Ea & Er & Eb & _ & k & Hk & Hpre).
  assert (Hg : grows c c2) by (by exists k).
  destruct i as [data lease acc' reads' b'|status reads' b'|reads' b'].
  2:{ eexists. split; [done|]. split; [done|]. eapply grows_trans; [exact Hg|].
      by apply status_close_grows. }
  2:{ eexists. split; [done|]. split; [done|]. exact Hg. }
  destruct Hok as [Hl (wire & Es & Hf)].
  assert (Hzd : zlen data <= U64_MAX) by (destruct framing; cbn in Hf; [destruct Hf as (_ & <- & ?); lia|lia|done]).
  destruct (with_length_agrees framing m _ wire data Hag Hf Hzd) as [Hba Hwh].
  set (c3 := c2 <| acc := acc' |> <| reads := reads' |> <| budget := b' |>).
  destruct (finish_ok (budget c) c3 mth u1 (with_length framing m data) data lease
    (ka && negb (keepalive_exhausted (served c1) (max_keepalive_requests cfg))) h10 Hb Hl Hba) as (t & Ht & Hres).
  exists t. split; [exact Ht|]. rewrite <-Hz in Hm. destruct t as [c' req|c' [req|]].
  3:{ destruct Hres as [Hrs Hg3]. split; [done|]. eapply grows_trans; [exact Hg|]. exact Hg3. }
  - destruct Hres as (Hrs & Ea' & Er' & (k' & Hk' & Hans) & Hcr). pose proof Hcr as (E1 & E2 & _). subst mth h10.
    split; [done|]. exists (take (Z.to_nat n') (acc c) ++ wire), (k ++ k'). split_and!.
    + by eapply carries_text.
    + unfold stream at 2. rewrite Ea', Er', <-app_assoc. exact Es.
    + by eapply response_wire.sent_trans.
    + by apply Hans.
  - destruct Hres as (Hrs & Hg3 & Hcr). pose proof Hcr as (E1 & E2 & _). subst mth h10.
    split; [done|]. split; [eapply grows_trans; [exact Hg|exact Hg3]|]. exists (take (Z.to_nat n') (acc c) ++ wire), (acc' ++ concat reads'). split.
    + by eapply carries_text.
    + rewrite <-app_assoc. exact Es.
Qed.

Lemma turn_ok_same c c' t :
  stream c = stream c' → budget c = budget c' → out c = out c' → turn_ok c t → turn_ok c' t.
Proof. intros E1 E2 E3. destruct t as [c1 req|c1 [req|]]; unfold turn_ok, grows; by rewrite E1, E2, E3 || rewrite E2, E3. Qed.

Lemma handle_request_ok c :
  budget_ok (budget c) → zlen (stream c) < U64_MAX → ∃ t, handle_request cfg dispatch c = Some t ∧ turn_ok c t.
Proof.
  intros Hb Hu. assert (Hsame : restored (budget c) (budget c)) by (exists 0; by rewrite refused_0). unfold handle_request.
  set (idle := if _ : bool then _ else _).
  assert (Hidle : match idle with None => True | Some c1 => stream c1 = stream c ∧ budget c1 = budget c ∧ out c1 = out c end).
  { unfold idle. destruct (bool_decide_reflect (acc c = [])) as [Ea|]; [|done].
    destruct (reads c) as [|x rs] eqn:Er; [done|]. destruct (bool_decide (x = [])); [done|].
    unfold stream. cbn. by rewrite Ea, Er. }
  destruct idle as [c1|]; [|eexists; split; [done|]; split; [done|apply grows_refl]].
  destruct Hidle as (Es & Eb & Eo).
  destruct (read_head (Z.max (max_req_header_size cfg) 8192) (acc c1) (reads c1)) as [[[parsed rest] rs]|] eqn:Eh.
  2:{ eexists. split; [done|]. split; [by rewrite <-Eb in *|]. exists []. cbn. rewrite Eo. apply response_wire.sent_nil. }
  apply read_head_accepted in Eh as [Est Hp]. set (c2 := c1 <| acc := rest |> <| reads := rs |>).
  assert (Hst : stream c2 = stream c) by (rewrite <-Es; symmetry; exact Est).
  destruct (handle_head_ok c2 parsed) as (t & Ht & Hok); [by cbn; rewrite Eb|by rewrite Hst|done|].
  exists t. split; [done|]. by apply (turn_ok_same c2).
Qed.

Lemma request_text_nonempty seg req : request_text seg req → 0 < zlen seg.
Proof.
  intros (head & wire & raw & ? & ? & ? & ? & ? & ? & -> & (_ & Hh & _) & _). rewrite zlen_app.
  pose proof (zlen_nonneg wire). lia.
Qed.


End turns.

(** ** An example *)

Definition example_config : @Config http_ascii :=
  @Build_Config http_ascii 8192 1000 100 {| brotli := false; zstd := false |} None (Some 60) false true (fun _ => true) true.

Definition example_dispatch (_ : @Request http_ascii) : option Answer :=
  Some {| resp := response_read.example_resp; upgrade_ready := false; cancelled := false |}.

Definition example_head : list Z :=
  bs "POST /a HTTP/1.1" ++ CRLF ++ bs "Host: a.example" ++ CRLF ++ bs "Transfer-Encoding: chunked" ++ CRLF ++ CRLF.

Definition example_wire : list Z := bs "3" ++ CRLF ++ bs "abc" ++ CRLF ++ bs "0" ++ CRLF ++ CRLF.

Definition example_next : list Z := bs "GET /b HTTP/1.1" ++ CRLF ++ bs "Host: a.example" ++ CRLF ++ CRLF.

(** Two requests that arrive in three reads, cut inside a field and inside a chunk. *)
Definition example_conn : Conn :=
  let t := example_head ++ example_wire ++ example_next in
  {| acc := []; reads := [take 23 t; take 48 (drop 23 t); drop 71 t]; budget := example_budget;
     out := response_read.example_out; served := 0 |}.

Definition example_serve (fuel : nat) (c : Conn) : option (Conn * list (@Request http_ascii)) :=
  @serve http_ascii plain_parser.parts plain_parser.parser response_read.example_text example_decoders example_config
    example_dispatch fuel c.


End connection_theorems.
