(* ===== verification/H1Segmentation.v ===== *)
(** * Reads of any size

    A request that arrives, in whatever pieces, is the request that is dispatched: the head
    is found when it is complete, the body when it ends, and what follows is left for the
    next request. *)

From stdpp Require Import base list strings.
From Stdlib Require Import ZArith Lia.
From S2P Require Import Prelude RustStr HttpUtil Budget Net HpackString HpackTable H2Response.
From S2P Require Import H1Codec H1Chunked H1Response H1ResponseWire H1ResponseTheorems H1Head H1HeadTheorems H1Body.
From S2P Require Import H1Connection H1ConnectionTheorems.

Import headers http_util h1_connection.
Import chunked_body request_body head_theorems connection_theorems.
Import (hints) h1_response codec.
#[local] Open Scope record_scope.

Module segmentation.

(** ** Reservations that fit *)

Lemma reserve_fits b held n :
  budget_ok b → 0 <= n → fits b n → ∃ b' held', budget.lease_reserve b held n = (true, b', held').
Proof.
  intros [Hf Hm] Hn Hfit. unfold budget.lease_reserve, budget.try_acquire, budget.reserve.
  destruct (Z.eqb_spec (budget.max_bytes b) 0) as [|Hne]; [by eexists _, _|]. specialize (Hfit Hne).
  rewrite (proj2 (Z.ltb_ge _ _)) by (unfold saturating_add; lia). by eexists _, _.
Qed.

Lemma ensure_reserved_fits b0 b lease r buffered bound :
  budget_ok b0 → reserving b0 b lease r → r <= bound → buffered <= bound → fits b0 bound →
  ∃ b' lease' r', ensure_reserved b lease r buffered = (true, b', lease', r') ∧ reserving b0 b' lease' r' ∧ r' <= bound.
Proof.
  intros Hb Hr Hrb Hbb Hf. pose proof (ensure_reserved_spec b0 b lease r buffered Hb Hr) as Hs.
  assert (Hok : ∃ b' lease' r', ensure_reserved b lease r buffered = (true, b', lease', r')).
  { unfold ensure_reserved. destruct (Z.leb_spec buffered r); [by eexists _, _, _|].
    destruct Hr as [Hl _]. destruct (reserve_fits b (default 0 lease) (buffered - r)) as (b' & held' & ->).
    - by eapply leased_ok.
    - lia.
    - destruct Hl as (Hr0 & Hfr & k & ->). apply fits_refused, fits_swap. replace (buffered - r + r) with buffered by lia.
      apply (fits_less _ _ (bound - buffered)); [lia|]. by replace (buffered + (bound - buffered)) with bound by lia.
    - by eexists _, _, _. }
  destruct Hok as (b' & lease' & r' & E). rewrite E in Hs. destruct Hs as [Hr' ->].
  exists b', lease', (Z.max r buffered). split_and!; [done|done|lia].
Qed.

(** ** Bodies *)

(** The whole body was taken, and what follows it was left. *)
Definition takes (data rest : list Z) (i : Intake) : Prop :=
  ∃ lease acc' reads' b', i = Body data lease acc' reads' b' ∧ acc' ++ concat reads' = rest.

Abbreviation nonempty := (Forall (fun r : list Z => r ≠ [])).

Lemma read_fixed_takes b0 bound head data rest acc reads b lease r :
  budget_ok b0 → fits b0 bound → reserving b0 b lease r → r <= bound → zlen data <= bound → nonempty reads →
  acc ++ concat reads = head ++ data ++ rest → zlen head <= zlen acc → zlen (head ++ data ++ rest) < U64_MAX →
  takes data rest (read_fixed (zlen head) (zlen data) acc reads b lease r).
Proof.
  intros Hb Hf. revert acc b lease r.
  assert (Hdone : ∀ acc reads b lease, acc ++ concat reads = head ++ data ++ rest → zlen head + zlen data <= zlen acc →
    takes data rest (let '(body, acc') := take_fixed_body acc (zlen head) (zlen data) in Body body lease acc' reads b)).
  { intros acc rs b lease E Hle. pose proof (take_fixed_body_spec acc (zlen head) (zlen data) (zlen_nonneg _) (zlen_nonneg _) Hle) as Hs.
    destruct (take_fixed_body _ _ _) as [body acc']. destruct Hs as [Ea Hz]. rewrite Ea, <-!app_assoc in E.
    apply app_inj_1 in E as [_ E]; [|rewrite length_take; unfold zlen in *; lia].
    apply app_inj_1 in E as [-> E]; [|unfold zlen in *; lia]. by exists lease, acc', rs, b. }
  induction reads as [|x reads IH]; intros acc b lease r Hr Hrb Hdb Hne E Hh Hu; cbn [read_fixed].
  - cbn in E. rewrite app_nil_r in E. assert (zlen head + zlen data <= zlen acc).
    { rewrite E, !zlen_app. pose proof (zlen_nonneg rest). lia. }
    rewrite (proj2 (Z.leb_le _ _)) by (unfold saturating_add; lia). apply Hdone; [cbn; by rewrite app_nil_r|done].
  - destruct (Z.leb_spec (saturating_add (zlen head) (zlen data)) (zlen acc)) as [Ht|].
    { apply Hdone; [done|]. rewrite !zlen_app in Hu. pose proof (zlen_nonneg rest). unfold saturating_add in Ht. lia. }
    apply Forall_cons in Hne as [Hx Hne]. rewrite bool_decide_false by done.
    set (buffered := Z.min _ (zlen data)).
    destruct (ensure_reserved_fits b0 b lease r buffered bound Hb Hr Hrb) as (b1 & lease1 & r1 & -> & Hr1 & Hrb1); [lia|done|].
    apply IH; try done; [cbn [concat] in E; by rewrite <-app_assoc|]. rewrite zlen_app. pose proof (zlen_nonneg x). lia.
Qed.

Lemma chunked_takes b lease r (data acc rest : list Z) reads e :
  acc ++ concat reads = rest → (Z.to_nat e <= length acc)%nat →
  ∃ i, (let '(b, lease) :=
          match lease with
          | Some held =>
              if 0 <? saturating_sub r (zlen data) then
                let '(b, held) := budget.lease_release b held (saturating_sub r (zlen data)) in (b, Some held)
              else (b, lease)
          | None => (b, lease)
          end in
        Some (Body data lease (drop (Z.to_nat e) acc) reads b)) = Some i ∧ takes data (drop (Z.to_nat e) rest) i.
Proof.
  intros <- Hle. destruct (match lease with Some _ => _ | None => _ end) as [b1 lease1].
  eexists. split; [done|]. exists lease1, (drop (Z.to_nat e) acc), reads, b1. split; [done|]. by rewrite drop_app_le.
Qed.

(** One call of the decoder and the reservation after it. *)
Lemma chunked_step b0 bound head_len acc more b lease r dec data e :
  budget_ok b0 → fits b0 bound → reserving b0 b lease r → r <= bound → on_track dec acc more data e →
  codec.start dec = head_len → zlen (acc ++ more) < U64_MAX → zlen data + zlen (acc ++ more) <= bound →
  ∃ step dec' b1 lease1 r1, codec.advance acc dec = Some (step, dec') ∧
    ensure_reserved b lease r (codec.chunked_accounted_bytes (zlen (codec.body dec')) (zlen acc) head_len)
      = (true, b1, lease1, r1) ∧ reserving b0 b1 lease1 r1 ∧ r1 <= bound ∧
    (step = codec.NeedMore ∧ zlen acc < e ∧ on_track dec' acc more data e ∧ codec.start dec' = head_len
     ∨ step = codec.Done e ∧ e <= zlen acc ∧ codec.body dec' = data).
Proof.
  intros Hb Hf Hr Hrb Ht Es Hu Hbd. rewrite zlen_app in Hu, Hbd. pose proof (zlen_nonneg more).
  pose proof (cursor_range _ _ (dec_cursor _ _ (trk_decoding _ _ _ _ _ Ht))) as Hcur. rewrite Es in Hcur.
  assert (Hall : ∀ dec', zlen (codec.body dec') <= zlen data → ∃ b1 lease1 r1,
    ensure_reserved b lease r (codec.chunked_accounted_bytes (zlen (codec.body dec')) (zlen acc) head_len)
      = (true, b1, lease1, r1) ∧ reserving b0 b1 lease1 r1 ∧ r1 <= bound).
  { intros dec' Hz. apply (ensure_reserved_fits b0); try done. unfold codec.chunked_accounted_bytes, saturating_sub. lia. }
  destruct (advance_complete _ _ _ _ _ Ht ltac:(lia)) as [(Hlt & dec' & Ha & Ht')|(Hle & dec' & Ha & Hd)].
  - assert (Hz : zlen (codec.body dec') <= zlen data).
    { destruct (trk_ahead _ _ _ _ _ Ht') as (w & bd & tail & _ & _ & -> & _). rewrite zlen_app. pose proof (zlen_nonneg bd). lia. }
    destruct (Hall dec' Hz) as (b1 & lease1 & r1 & E1 & Hr1 & Hrb1). exists codec.NeedMore, dec', b1, lease1, r1.
    split_and!; [done..|]. left. split_and!; try done.
    apply (advance_loop_sound _ _ _ _ _ (trk_decoding _ _ _ _ _ Ht)) in Ha as [(E & _) _]; [|lia]. by rewrite E.
  - destruct (Hall dec') as (b1 & lease1 & r1 & E1 & Hr1 & Hrb1); [by rewrite Hd|].
    exists (codec.Done e), dec', b1, lease1, r1. split_and!; [done..|]. by right.
Qed.

Lemma read_chunked_takes b0 bound head_len acc reads b lease r dec data e :
  budget_ok b0 → fits b0 bound → reserving b0 b lease r → r <= bound → nonempty reads →
  on_track dec acc (concat reads) data e → codec.start dec = head_len → e <= zlen (acc ++ concat reads) < U64_MAX →
  zlen data + zlen (acc ++ concat reads) <= bound →
  ∃ i, read_chunked head_len acc reads b lease r dec = Some i ∧ takes data (drop (Z.to_nat e) (acc ++ concat reads)) i.
Proof.
  intros Hb Hf. revert acc b lease r dec. induction reads as [|x reads IH]; intros acc b lease r dec Hr Hrb Hne Ht Es Hu Hbd.
  all: destruct (chunked_step b0 bound head_len acc _ b lease r dec data e Hb Hf Hr Hrb Ht Es ltac:(lia) Hbd)
    as (step & dec' & b1 & lease1 & r1 & Ha & He & Hr1 & Hrb1 & [(-> & Hlt & Ht' & Es')|(-> & Hle & Hd)]);
    cbn [read_chunked]; rewrite Ha, He.
  - cbn in Hu. rewrite app_nil_r in Hu. lia.
  - rewrite Hd. apply chunked_takes; [done|unfold zlen in Hle; lia].
  - apply Forall_cons in Hne as [Hx Hne]. rewrite bool_decide_false by done. cbn [concat] in *.
    rewrite app_assoc in *. apply IH; try done. by apply on_track_more.
  - rewrite Hd. apply chunked_takes; [done|unfold zlen in Hle; lia].
Qed.

(** A body within the limits, in lines that are never refused before they end. *)
Definition framed_short (framing : codec.BodyFraming) (max_body : Z) (wire data : list Z) : Prop :=
  match framing with
  | codec.Length n => wire = data ∧ zlen data = n ∧ n <= max_body
  | codec.Chunked =>
      chunked short wire data ∧ zlen data <= max_body ∧ zlen wire <= saturating_add max_body (2 ^ 20)
  | codec.Reject => False
  end.

Lemma chunked_on_track head wire rest data max_body acc more :
  chunked short wire data → zlen data <= max_body → zlen wire <= saturating_add max_body (2 ^ 20) →
  acc ++ more = head ++ wire ++ rest → zlen head <= zlen acc → zlen (acc ++ more) < U64_MAX →
  on_track (chunked_decoder (zlen head) max_body) acc more data (zlen head + zlen wire).
Proof.
  intros Hc Hd Hw E Hh Hu. pose proof (zlen_nonneg head). pose proof (zlen_nonneg data). split.
  - apply chunked_decoder_decoding; lia.
  - cbn. rewrite E, !zlen_app in Hu. pose proof (zlen_nonneg rest). lia.
  - exists wire, data, rest. split_and!; [|by apply ah_chunks|done|done]. unfold chunked_body.rest. cbn.
    rewrite <-drop_app_le by (unfold zlen in *; lia). rewrite E.
    replace (Z.to_nat (zlen head)) with (length head) by (unfold zlen; lia). apply drop_app_length.
Qed.

Lemma read_body_takes max_body head wire rest data framing expect c :
  budget_ok (budget c) → fits (budget c) (2 * zlen (stream c)) → zlen (stream c) < U64_MAX → nonempty (reads c) →
  stream c = head ++ wire ++ rest → zlen head <= zlen (acc c) → framed_short framing max_body wire data →
  ∃ i c', read_body max_body (zlen head) framing expect c = Some (i, c') ∧ after_interim c c' ∧ takes data rest i.
Proof.
  intros Hb Hf Hu Hne E Hh Hfr. unfold read_body. destruct framing as [n| |]; cbn in Hfr; [| |done].
  - destruct Hfr as (-> & <- & Hmax). rewrite (proj2 (Z.ltb_ge _ _)) by done. pose proof (zlen_nonneg data).
    assert (Hz : zlen data <= zlen (stream c)) by (rewrite E, !zlen_app; pose proof (zlen_nonneg head); pose proof (zlen_nonneg rest); lia).
    set (r0 := if 0 <? zlen data then _ else _).
    assert (Hr : ∃ b lease r, r0 = (true, b, lease, r) ∧ reserving (budget c) b lease r ∧ r <= 2 * zlen (stream c)).
    { unfold r0. destruct (0 <? zlen data); [|eexists _, _, _; split_and!; [done|by apply reserving_start|lia]].
      apply (ensure_reserved_fits (budget c)); [done|by apply reserving_start|lia|lia|done]. }
    destruct Hr as (b & lease & r & -> & Hr & Hrb). cbn [negb]. set (c1 := if _ : bool then write_continue c else c).
    assert (Hi : after_interim c c1) by (unfold c1; destruct (_ && _); [apply after_interim_continue|apply after_interim_refl]).
    eexists _, c1. split_and!; [done|done|]. destruct Hi as (-> & -> & _).
    apply (read_fixed_takes (budget c) (2 * zlen (stream c)) head data rest); try done; [lia|]. by rewrite <-E.
  - destruct Hfr as (Hc & Hmax & Hraw). set (c1 := if _ : bool then write_continue c else c).
    assert (Hi : after_interim c c1) by (unfold c1; destruct expect; [apply after_interim_continue|apply after_interim_refl]).
    pose proof Hi as (-> & -> & -> & _). pose proof (chunked_length _ _ Hc) as [_ Hlen].
    assert (Hz : zlen (stream c) = zlen head + zlen wire + zlen rest) by (rewrite E, !zlen_app; lia).
    pose proof (zlen_nonneg head). pose proof (zlen_nonneg rest). pose proof (zlen_nonneg wire).
    destruct (read_chunked_takes (budget c) (2 * zlen (stream c)) (zlen head) (acc c) (reads c) (budget c) None 0
      (chunked_decoder (zlen head) max_body) data (zlen head + zlen wire)) as (i & -> & Ht); try done.
    + by apply reserving_start.
    + lia.
    + by eapply chunked_on_track.
    + fold (stream c). lia.
    + fold (stream c). lia.
    + eexists i, c1. split_and!; [done|done|]. revert Ht. fold (stream c). rewrite E, app_assoc.
      replace (Z.to_nat (zlen head + zlen wire)) with (length (head ++ wire)) by (rewrite length_app; unfold zlen; lia).
      by rewrite drop_app_length.
Qed.

(** ** Heads *)

Section heads.
Context `{Http : HttpCrate, Parts : !UriParts, Parser : Httparse, PLaws : !HttparseLaws, PFinal : !HttparseFinal}.

(** A part of a head is not yet a head. *)
Lemma parse_partial buf more raw :
  parse_head (buf ++ more) = (codec.Complete (zlen (buf ++ more)), raw) → more ≠ [] → (parse_head buf).1 = codec.Partial.
Proof.
  intros Hp Hm. destruct (parse_head buf) as [st raw'] eqn:E. cbn. destruct st as [n| | |]; [|done|..].
  - destruct (parse_complete _ _ _ E) as [Hn Hall]. specialize (Hall (drop (Z.to_nat n) buf ++ more)).
    rewrite app_assoc, take_drop, Hp in Hall. injection Hall as Ez _. rewrite zlen_app in Ez.
    destruct more as [|x more]; [done|]. rewrite zlen_cons in Ez. pose proof (zlen_nonneg more). lia.
  - pose proof (parse_error_final buf more codec.TooManyHeaders) as H. rewrite E, Hp in H. cbn in H.
    specialize (H eq_refl (or_introl eq_refl)). done.
  - pose proof (parse_error_final buf more codec.OtherError) as H. rewrite E, Hp in H. cbn in H.
    specialize (H eq_refl (or_intror eq_refl)). done.
Qed.

Lemma read_head_takes max_head head raw more acc reads :
  head_text max_head head raw → h1_head.materialize_head raw (zlen head) ≠ h1_head.ParsedPartial →
  nonempty reads → acc ++ concat reads = head ++ more →
  ∃ acc' reads', read_head max_head acc reads = Some (h1_head.materialize_head raw (zlen head), acc', reads') ∧
    acc' ++ concat reads' = head ++ more ∧ zlen head <= zlen acc' ∧ nonempty reads'.
Proof.
  intros (Hp & Hz & Hlf) Hnp. revert acc.
  assert (Hfull : ∀ acc rs, acc ++ concat rs = head ++ more → zlen head <= zlen acc →
    parse_step max_head acc = h1_head.materialize_head raw (zlen head)).
  { intros acc rs E Hle. assert (Hacc : take (Z.to_nat (zlen head)) acc = head).
    { apply (f_equal (take (length head))) in E. rewrite take_app_length, take_app_le in E by (unfold zlen in Hle; lia).
      by replace (Z.to_nat (zlen head)) with (length head) by (unfold zlen; lia). }
    destruct (parse_complete _ _ _ Hp) as [_ Hall]. specialize (Hall (drop (Z.to_nat (zlen head)) acc)).
    assert (Hself : take (Z.to_nat (zlen head)) head = head) by (apply take_ge; unfold zlen; lia). rewrite Hself in Hall.
    rewrite <-Hacc in Hall at 1. rewrite take_drop in Hall. unfold parse_step. rewrite Hall. cbn.
    rewrite (proj2 (Z.ltb_ge _ _)) by lia. by rewrite Hacc, Hlf. }
  assert (Hpart : ∀ acc rs, acc ++ concat rs = head ++ more → zlen acc < zlen head →
    parse_step max_head acc = h1_head.ParsedPartial ∧ (max_head <? zlen acc) = false).
  { intros acc rs E Hlt. assert (Hh : ∃ x, head = acc ++ x ∧ x ≠ []).
    { apply app_eq_inv in E as [(x & Ea & _)|(x & Ea & _)].
      - exfalso. apply (f_equal zlen) in Ea. rewrite zlen_app in Ea. pose proof (zlen_nonneg x). lia.
      - exists x. split; [done|]. intros ->. rewrite app_nil_r in Ea. subst. lia. }
    destruct Hh as (x & Eh & Hx). assert (Hst : (parse_head acc).1 = codec.Partial) by (eapply parse_partial; [by rewrite <-Eh|done]).
    unfold parse_step. destruct (parse_head acc) as [st raw']. cbn in Hst. subst st. cbn.
    rewrite (proj2 (Z.ltb_ge max_head (zlen acc))) by lia. done. }
  induction reads as [|x reads IH]; intros acc Hne E; cbn [read_head];
    (destruct (Z.le_gt_cases (zlen head) (zlen acc)) as [Hle|Hgt];
      [rewrite (Hfull _ _ E Hle); eexists acc, _; split_and!; [by destruct (h1_head.materialize_head raw (zlen head))|done..]|]).
  - exfalso. cbn in E. rewrite app_nil_r in E. subst acc. rewrite zlen_app in Hgt. pose proof (zlen_nonneg more). lia.
  - destruct (Hpart _ _ E ltac:(lia)) as [-> ->]. apply Forall_cons in Hne as [Hx Hne]. rewrite bool_decide_false by done.
    apply IH; [done|]. cbn [concat] in E. by rewrite <-app_assoc.
Qed.

End heads.

Section requests.
Context `{Http : HttpCrate, Parts : !UriParts, Parser : Httparse, PLaws : !HttparseLaws, PFinal : !HttparseFinal}.
Context `{Text : StatusText, Dec : request_body.Decoders}.
Context (cfg : Config) (dispatch : Request → option Answer).
Hypothesis no_gate : mtls_gate cfg = None.

Lemma handle_head_takes method uri m head wire rest data framing ka expect h10 c :
  budget_ok (budget c) → fits (budget c) (2 * zlen (stream c)) → zlen (stream c) < U64_MAX → nonempty (reads c) →
  stream c = head ++ wire ++ rest → zlen head <= zlen (acc c) →
  framed_short framing (max_req_body_size cfg) wire data →
  ∃ lease c1,
    handle_head cfg dispatch (h1_head.Parsed method uri m (zlen head) framing ka expect h10) c =
      finish cfg dispatch method uri (with_length framing m data) data lease
        (ka && negb (keepalive_exhausted (served c1) (max_keepalive_requests cfg))) h10 c1 ∧
    served c1 = Z.min (served c + 1) (2 ^ 32 - 1) ∧ stream c1 = rest.
Proof.
  intros Hb Hf Hu Hne E Hh Hfr. cbn [handle_head]. unfold mtls_probe. rewrite no_gate.
  set (c0 := c <| served := _ |>).
  destruct (read_body_takes (max_req_body_size cfg) head wire rest data framing expect c0)
    as (i & c' & -> & Hi & lease & acc' & reads' & b' & -> & Hrest); try done.
  cbn [mbind option_bind]. destruct Hi as (_ & _ & _ & Hs & _).
  exists lease, (c' <| acc := acc' |> <| reads := reads' |> <| budget := b' |>). cbn. rewrite Hs. by split_and!.
Qed.


End requests.

(** ** Examples *)

(** The cap on a chunk line only meets a line whose end has not arrived: one read of a
    longer line is accepted, and the same octets in two reads are refused. *)
Lemma chunk_line_cap_by_reads :
  let line := bs "0;" ++ replicate (Z.to_nat 8192) 0x61 in
  let wire := line ++ CRLF ++ CRLF in
  fst <$> codec.advance wire (chunked_decoder 0 1000) = Some (codec.Done (zlen wire)) ∧
  fst <$> codec.advance line (chunked_decoder 0 1000) = Some codec.Bad.
Proof. split; vm_compute; reflexivity. Qed.

Lemma example_chunked : chunked short example_wire (bs "abc").
Proof.
  apply (ck_data short (bs "3") 3 (bs "abc") (bs "0" ++ CRLF ++ CRLF) []); try by vm_compute.
  apply ck_last; [by vm_compute|by vm_compute|apply tr_end].
Qed.


End segmentation.
