(* ===== verification/Acl.v ===== *)
(** * Access control: [crates/hj-acl/src/lib.rs]

    The allow and deny rules of the peers, trust in proxies, and the client address that
    forwarded headers name. Networks are those of the [ipnet] crate, and the patterns of
    denied directories those of [globset]: both are parameters. A configuration error is
    [None]. *)

From stdpp Require Import base list strings sorting.
From Stdlib Require Import ZArith Lia.
From S2P Require Import Prelude RustStr HttpUtil Net.

Import headers ip.

(** [ipnet::IpNet]. *)
Class IpnetCrate : Type := {
  IpNet : Type;
  net_addr : IpNet → IpAddr;
  net_prefix_len : IpNet → Z;
  net_contains : IpNet → IpAddr → bool;
  (** [str::parse::<IpNet>], [IpNet::new] and [trunc]. *)
  net_parse : list Z → option IpNet;
  net_new : IpAddr → Z → option IpNet;
  net_trunc : IpNet → IpNet;
  (** [Ipv6Net::default()] *)
  net_all_v6 : IpNet;
}.

(** [GlobBuilder::build]: a pattern, and whether case is ignored. *)
Class GlobCrate : Type := {
  GlobSet : Type;
  glob_ok : list Z → bool;
  (** [GlobSetBuilder::build] *)
  glob_set : list (bool * list Z) → option GlobSet;
  glob_match : GlobSet → list Z → bool;
}.

Module acl.

(** ** Addresses and networks *)

(** [str::parse::<IpAddr>] *)
Definition parse_ip_addr (s : list Z) : option IpAddr :=
  match read_ipv4_addr s with
  | Some (a, []) => Some (V4 a)
  | Some _ => None
  | None => V6 <$> parse_ipv6 s
  end.

Definition is_port_suffix (s : list Z) : bool :=
  match strip_prefix (bs ":") s with
  | Some p => negb (bool_decide (p = [])) && forallb is_ascii_digit p
  | None => false
  end.

Definition parse_ip (s : list Z) : option IpAddr :=
  let s := trim s in
  if bool_decide (s = []) then None
  else
    let whole (s : list Z) := parse_ip_addr (default s (head (split 0x25 s))) in
    match strip_prefix (bs "[") s with
    | Some rest =>
        '(inner, after) ← split_once 0x5d rest;
        if negb (bool_decide (after = [])) && negb (is_port_suffix after) then None else whole inner
    | None =>
        match split_once 0x3a s with
        | Some (host, port) =>
            if negb (contains port 0x3a) then
              if negb (is_port_suffix (0x3a :: port)) then None else V4 <$> parse_ipv4 host
            else whole s
        | None => whole s
        end
    end.

Section networks.
Context `{Ipnet : IpnetCrate}.

(** [u32::leading_ones] and [u32::trailing_zeros] *)
Fixpoint leading_ones (bits : nat) (n : Z) : Z :=
  match bits with
  | O => 0
  | S bits => if Z.testbit n (Z.of_nat bits) then 1 + leading_ones bits n else 0
  end.

Fixpoint trailing_zeros (bits : nat) (n : Z) : Z :=
  match bits with
  | O => 0
  | S bits => if Z.testbit n 0 then 0 else 1 + trailing_zeros bits (Z.shiftr n 1)
  end.

(** [u32::from(Ipv4Addr)] *)
Definition ipv4_bits (octets : list Z) : Z := fold_left (fun acc b => acc * 256 + b) octets 0.

Definition partial_octet (o : list Z) : option Z :=
  let canonical := bytes_eqb o (bs "0") || (negb (starts_with o (bs "0")) && negb (bool_decide (o = []))) in
  if canonical && (zlen o <=? 3) && forallb is_ascii_digit o then parse_unsigned 255 o else None.

Definition partial_ipv4 (spec : list Z) : option IpNet :=
  written ←
    match split_once 0x2a spec with
    | Some (head, tail) =>
        if forallb (fun b => (b =? 0x2a) || (b =? 0x2e)) tail then strip_suffix (bs ".") head else None
    | None => Some (default spec (strip_suffix (bs ".") spec))
    end;
  if bool_decide (written = []) then None
  else
    octets ← mapM partial_octet (split 0x2e written);
    if (4 <? zlen octets) then None
    else net_new (V4 (octets ++ replicate (4 - length octets) 0)) (8 * zlen octets).

(** [fold_mapped_v4] of [crates/hj-geo/src/lib.rs] *)
Definition fold_mapped_v4 (net : IpNet) : option IpNet :=
  match net_addr net with
  | V6 [0; 0; 0; 0; 0; 0xffff; ab; cd] =>
      let v4 := V4 [ab / 256; ab mod 256; cd / 256; cd mod 256] in
      if net_prefix_len net <? 96 then None else net_trunc <$> net_new v4 (net_prefix_len net - 96)
  | _ => Some net
  end.

Definition unbracketed (spec : list Z) : option (list Z) :=
  match strip_prefix (bs "[") spec with
  | Some rest =>
      '(addr, tail) ← split_once 0x5d rest;
      if negb (bool_decide (tail = []) || starts_with tail (bs "/")) || negb (bool_decide (is_Some (parse_ipv6 addr)))
      then None else Some (addr ++ tail)
  | None => Some spec
  end.

Definition parse_cidr (spec : list Z) : option IpNet :=
  spec ← unbracketed spec;
  net ←
    match net_parse spec with
    | Some net => Some net
    | None =>
        match split_once 0x2f spec with
        | Some (addr, mask) =>
            addr ← parse_ipv4 addr;
            mask ← parse_ipv4 mask;
            let mask := ipv4_bits mask in
            if negb (leading_ones 32 mask + trailing_zeros 32 mask =? 32) then None
            else net_new (V4 addr) (leading_ones 32 mask)
        | None =>
            match parse_ip_addr spec with
            | Some ip => net_new ip (match ip with V4 _ => 32 | V6 _ => 128 end)
            | None => partial_ipv4 spec
            end
        end
    end;
  match net_addr net with
  | V6 _ =>
      if (net_prefix_len net =? 128) && is_unspecified (net_addr net) then
        Some net_all_v6
      else fold_mapped_v4 net
  | V4 _ => fold_mapped_v4 net
  end.

(** ** Rules *)

Record Rule : Type := { net : option IpNet; allow : bool; trusted : bool }.

Definition prefix_len (r : Rule) : Z :=
  match net r with None => 0 | Some n => net_prefix_len n end.

Definition matches (r : Rule) (ip : IpAddr) : bool :=
  match net r with None => true | Some n => net_contains n ip end.

(** [AccessRule] and the two fields of [Security] that are used. *)
Record AccessRule : Type := { spec : list Z; rule_allow : bool; rule_trusted : bool }.
Record Security : Type := { access_control : list AccessRule; access_deny_dir : list (list Z) }.

Definition parse_rule (ar : AccessRule) : option Rule :=
  let spec := trim (spec ar) in
  let trusted := rule_trusted ar && rule_allow ar in
  if bytes_eqb spec (bs "*") || eq_ignore_ascii_case spec (bs "ALL") then
    Some {| net := None; allow := rule_allow ar; trusted := trusted |}
  else
    net ← parse_cidr spec;
    Some {| net := Some net; allow := rule_allow ar; trusted := trusted |}.

(** The order of the sort keys [(Reverse(prefix_len), allow)]. *)
Definition key_le (a b : Rule) : bool :=
  (prefix_len b <? prefix_len a) || ((prefix_len a =? prefix_len b) && implb (allow a) (allow b)).

(** [slice::sort_by_key], which is stable. *)
Fixpoint insert_rule (r : Rule) (rules : list Rule) : list Rule :=
  match rules with
  | [] => [r]
  | x :: rules => if key_le r x then r :: x :: rules else x :: insert_rule r rules
  end.

Definition sort_rules (rules : list Rule) : list Rule := foldr insert_rule [] rules.

(** ** Denied directories *)

Definition builtin_globs : list (bool * list Z) :=
  (fun p => (true, bs p)) <$>
    ["**/.ht*"; ".ht*"; "**/.env"; ".env"; "**/*.pem"; "*.pem"; "**/*.key"; "*.key"; "**/token*.json";
     "token*.json"; "**/client_secret*.json"; "client_secret*.json"; "**/.oci/**"; ".oci/**"; "**/.git/**";
     ".git/**"]%string.

Definition add_glob `{GlobCrate} (builder : list (bool * list Z)) (pat : list Z) : option (list (bool * list Z)) :=
  if glob_ok pat then Some (builder ++ [(false, pat)]) else None.

Definition add_dir `{GlobCrate} (builder : list (bool * list Z)) (raw : list Z) : option (list (bool * list Z)) :=
  let spec := trim raw in
  if bool_decide (spec = []) then Some builder
  else
    let recursive := ends_with spec (bs "/*") || ends_with spec (bs "/**") in
    let stem :=
      match strip_suffix (bs "/*") spec with
      | Some s => s
      | None => default spec (strip_suffix (bs "/**") spec)
      end in
    let stem := trim_end_matches (Z.eqb 0x2f) stem in
    let itself := if bool_decide (stem = []) then bs "/" else stem in
    builder ← add_glob builder itself;
    if recursive then add_glob builder (stem ++ bs "/**") else Some builder.

Definition build_deny_globs `{GlobCrate} (dirs : list (list Z)) : option GlobSet :=
  builder ← foldl (fun b raw => b ← b; add_dir b raw) (Some builtin_globs) dirs;
  glob_set builder.

Record AccessControl `{GlobCrate} : Type := { rules : list Rule; all_trusted : bool; deny_globs : GlobSet }.

Definition from_security `{GlobCrate} (security : Security) : option AccessControl :=
  rules ← mapM parse_rule (access_control security);
  let rules := sort_rules (rev rules) in
  let all_trusted := existsb (fun r => bool_decide (net r = None)) rules && forallb trusted rules in
  deny_globs ← build_deny_globs (access_deny_dir security);
  Some {| rules := rules; all_trusted := all_trusted; deny_globs := deny_globs |}.

Section queries.
Context `{Globs : GlobCrate} (acl : AccessControl).

Definition deny_dir_match (resolved_path : list Z) : bool := glob_match (deny_globs acl) resolved_path.

(** [true] is [AclDecision::Allow]. *)
Definition check_peer (ip : IpAddr) : bool :=
  match find (fun rule => matches rule (to_canonical ip)) (rules acl) with
  | Some rule => allow rule
  | None => true
  end.

Definition check_client (peer client : IpAddr) : bool :=
  if check_peer peer then
    if bool_decide (to_canonical client = to_canonical peer) then true else check_peer client
  else false.

Definition is_trusted (ip : IpAddr) : bool :=
  if all_trusted acl then true
  else
    match find (fun rule => matches rule (to_canonical ip)) (rules acl) with
    | Some rule => trusted rule
    | None => false
    end.

(** ** Forwarded addresses *)

Context `{Http : HttpCrate}.

Definition xff_line (value : list Z) : list (option IpAddr) :=
  if header_value_is_str value then
    parse_ip <$> filter (fun p => p ≠ []) (trim <$> split 0x2c value)
  else [None].

Definition xff_entries (m : HeaderMap) : list (option IpAddr) :=
  get_all m (bs "x-forwarded-for") ≫= xff_line.

Definition first_valid_ip (m : HeaderMap) (name : list Z) : option IpAddr :=
  v ← get m name;
  if header_value_is_str v then parse_ip v else None.

Definition rightmost_valid_xff (m : HeaderMap) : option IpAddr := mjoin (last (xff_entries m)).

(** The addresses of one line. *)
Definition line_ips (value : list Z) : list IpAddr :=
  if header_value_is_str value then omap (fun p => parse_ip (trim p)) (split 0x2c value) else [].

(** The general walk. *)
Fixpoint leftmost_walk (ips : list IpAddr) (first_parsed : option IpAddr) : option IpAddr :=
  match ips with
  | [] => first_parsed
  | ip :: ips =>
      let first_parsed := match first_parsed with None => Some ip | f => f end in
      if negb (is_trusted ip) then Some ip else leftmost_walk ips first_parsed
  end.

Definition leftmost_untrusted_xff (m : HeaderMap) : option IpAddr :=
  let values := get_all m (bs "x-forwarded-for") in
  if all_trusted acl then head (values ≫= line_ips)
  else
    match values with
    | [v] =>
        match line_ips v with
        | [only] => Some only
        | ips => leftmost_walk ips None
        end
    | _ => leftmost_walk (values ≫= line_ips) None
    end.

Fixpoint rightmost_walk (entries : list (option IpAddr)) (first : option IpAddr) : option IpAddr :=
  match entries with
  | [] => first
  | None :: _ => None
  | Some ip :: entries => if negb (is_trusted ip) then Some ip else rightmost_walk entries first
  end.

Definition rightmost_untrusted_xff (m : HeaderMap) : option IpAddr :=
  let entries := xff_entries m in
  rightmost_walk (rev entries) (mjoin (head entries)).

Definition resolve_client_ip (peer : IpAddr) (m : HeaderMap) (use_ip_in_proxy_header : Z)
    (is_tls_mtls_ok : bool) : IpAddr :=
  let peer := to_canonical peer in
  if use_ip_in_proxy_header =? 4 then default peer (rightmost_valid_xff m)
  else if use_ip_in_proxy_header =? 1 then default peer (leftmost_untrusted_xff m)
  else
    let honor := if use_ip_in_proxy_header =? 0 then false else is_trusted peer && is_tls_mtls_ok in
    if negb honor then peer
    else
      match first_valid_ip m (bs "cf-connecting-ip") with
      | Some ip => ip
      | None => default peer (rightmost_untrusted_xff m)
      end.

End queries.

(** ** The rule that decides *)

Lemma key_le_total a b : key_le a b = true ∨ key_le b a = true.
Proof. unfold key_le. destruct (allow a), (allow b); cbn; lia. Qed.

Lemma key_le_trans a b c : key_le a b = true → key_le b c = true → key_le a c = true.
Proof. unfold key_le. destruct (allow a), (allow b), (allow c); cbn; lia. Qed.

(** The least of the keys, the first one among equals. *)
Definition best (P : Rule → bool) (l : list Rule) : option Rule :=
  foldr (fun r found =>
    if P r then match found with Some x => if key_le r x then Some r else Some x | None => Some r end
    else found) None l.

Inductive ordered : list Rule → Prop :=
| ord_nil : ordered []
| ord_cons r l : Forall (fun x => key_le r x = true) l → ordered l → ordered (r :: l).

Lemma insert_rule_elem r l x : x ∈ insert_rule r l ↔ x = r ∨ x ∈ l.
Proof.
  induction l as [|y l IH]; cbn; [by rewrite list_elem_of_singleton, elem_of_nil; naive_solver|].
  destruct (key_le r y); rewrite !elem_of_cons; naive_solver.
Qed.

Lemma insert_rule_ordered r l : ordered l → ordered (insert_rule r l).
Proof.
  induction 1 as [|y l Hy Ho IH]; cbn; [repeat constructor|]. destruct (key_le r y) eqn:E.
  - constructor; [|by constructor]. constructor; [done|]. eapply Forall_impl; [exact Hy|]. intros x. by apply key_le_trans.
  - constructor; [|done]. apply Forall_forall. intros x [->|Hx]%insert_rule_elem.
    + destruct (key_le_total r y); congruence.
    + by eapply Forall_forall in Hx; [|exact Hy].
Qed.

Lemma find_insert P r l :
  ordered l →
  find P (insert_rule r l) =
  if P r then match find P l with Some x => if key_le r x then Some r else Some x | None => Some r end else find P l.
Proof.
  induction 1 as [|y l Hy Ho IH]; cbn; [done|]. destruct (key_le r y) eqn:E; cbn.
  - destruct (P r); [|done]. destruct (P y); [by rewrite E|]. destruct (find P l) as [x|] eqn:Ef; [|done].
    apply find_some in Ef as [Hx _]. rewrite <-list_elem_of_In in Hx. rewrite Forall_forall in Hy.
    by rewrite (key_le_trans r y x E (Hy x Hx)).
  - destruct (P y); [|done]. rewrite E. by destruct (P r).
Qed.

Lemma find_sorted P l : find P (sort_rules l) = best P l.
Proof.
  assert (Ho : ∀ l, ordered (sort_rules l)) by (intros l0; induction l0; [constructor|by apply insert_rule_ordered]).
  induction l as [|r l IH]; [done|]. cbn. fold (sort_rules l). rewrite find_insert by done. by rewrite IH.
Qed.

Lemma best_none P l x : best P l = None → x ∈ l → P x = false.
Proof.
  induction l as [|y l IH]; [by intros _ ?%elem_of_nil|]. cbn [best foldr]. fold (best P l).
  destruct (P y) eqn:Ey; [destruct (best P l); [by destruct (key_le _ _)|done]|].
  intros Hb [->|Hx]%elem_of_cons; [done|by apply IH].
Qed.

Lemma best_least P l r : best P l = Some r → r ∈ l ∧ P r = true ∧ ∀ x, x ∈ l → P x = true → key_le r x = true.
Proof.
  revert r. induction l as [|y l IH]; intros r; cbn [best foldr]; [done|]. fold (best P l).
  destruct (P y) eqn:Ey.
  - destruct (best P l) as [x|] eqn:Eb.
    + destruct (IH x eq_refl) as (Hx & Px & Hl). destruct (key_le y x) eqn:Ek; intros [= <-].
      * split_and!; [left|done|]. intros z [->|Hz]%elem_of_cons Pz; [by destruct (key_le_total y y)|].
        eapply key_le_trans; [exact Ek|by apply Hl].
      * split_and!; [by right|done|]. intros z [->|Hz]%elem_of_cons Pz; [|by apply Hl].
        destruct (key_le_total x y); congruence.
    + intros [= <-]. split_and!; [left|done|]. intros z [->|Hz]%elem_of_cons Pz; [by destruct (key_le_total y y)|].
      by rewrite (best_none P l z) in Pz.
  - intros Hb. destruct (IH r Hb) as (Hx & Px & Hl). split_and!; [by right|done|].
    intros z [->|Hz]%elem_of_cons Pz; [congruence|by apply Hl].
Qed.

Lemma best_at P l1 r l2 :
  P r = true → (∀ x, x ∈ l1 → P x = true → key_le x r = false) → (∀ x, x ∈ l2 → P x = true → key_le r x = true) →
  best P (l1 ++ r :: l2) = Some r.
Proof.
  intros Hr H1 H2. induction l1 as [|y l1 IH]; cbn [app best foldr].
  - fold (best P l2). rewrite Hr. destruct (best P l2) as [x|] eqn:Eb; [|done].
    apply best_least in Eb as (Hx & Px & _). by rewrite (H2 x Hx Px).
  - fold (best P (l1 ++ r :: l2)). rewrite IH by (intros x Hx; apply H1; by right).
    destruct (P y) eqn:Ey; [|done]. by rewrite (H1 y (list_elem_of_here _ _) Ey).
Qed.

Lemma best_split P l r :
  best P l = Some r → ∃ l1 l2, l = l1 ++ r :: l2 ∧ ∀ x, x ∈ l1 → P x = true → key_le x r = false.
Proof.
  revert r. induction l as [|y l IH]; intros r; cbn [best foldr]; [done|]. fold (best P l).
  assert (Hskip : ∀ x, best P l = Some x → (P y = true → key_le y x = false) →
    ∃ l1 l2, y :: l = l1 ++ x :: l2 ∧ ∀ z, z ∈ l1 → P z = true → key_le z x = false).
  { intros x Hx Hy. destruct (IH x Hx) as (l1 & l2 & -> & H1). exists (y :: l1), l2. split; [done|].
    intros z [->|Hz]%elem_of_cons Pz; [by apply Hy|by apply H1]. }
  assert (Hhere : ∃ l1 l2, y :: l = l1 ++ y :: l2 ∧ ∀ z, z ∈ l1 → P z = true → key_le z y = false).
  { exists [], l. split; [done|]. intros z Hz. by apply elem_of_nil in Hz. }
  destruct (P y); [|intros Hb; by apply Hskip]. destruct (best P l) as [x|]; [|by intros [= <-]].
  destruct (key_le y x) eqn:Ek; intros [= <-]; [done|]. by apply Hskip.
Qed.

(** ** Theorems *)

Section theorems.
Context `{Globs : GlobCrate}.

(** [r] matches [ip], and no rule that does is more specific. *)
Definition most_specific (parsed : list Rule) (ip : IpAddr) (r : Rule) : Prop :=
  r ∈ parsed ∧ matches r ip = true ∧ ∀ x, x ∈ parsed → matches x ip = true → prefix_len x <= prefix_len r.

Lemma parse_rule_trusted ar r : parse_rule ar = Some r → trusted r = true → allow r = true.
Proof.
  unfold parse_rule. destruct (_ || _); [intros [= <-]; cbn; by destruct (rule_allow ar); [|rewrite andb_false_r]|].
  destruct (parse_cidr _); [|done]. intros [= <-]. cbn. by destruct (rule_allow ar); [|rewrite andb_false_r].
Qed.

(** What [from_security] makes of a configuration. *)
Lemma from_security_rules security acl :
  from_security security = Some acl →
  ∃ parsed, mapM parse_rule (access_control security) = Some parsed ∧
    (∀ P, find P (rules acl) = best P (rev parsed)) ∧ (∀ r, r ∈ rules acl ↔ r ∈ parsed) ∧
    all_trusted acl = existsb (fun r => bool_decide (net r = None)) (rules acl) && forallb trusted (rules acl) ∧
    ∀ r, r ∈ parsed → trusted r = true → allow r = true.
Proof.
  unfold from_security. destruct (mapM parse_rule _) as [parsed|] eqn:Em; [|done]. cbn [mbind option_bind].
  destruct (build_deny_globs _); [|done]. intros [= <-]. exists parsed. cbn. split_and!; [done| | |done|].
  - intros P. apply find_sorted.
  - intros r. transitivity (r ∈ rev parsed); [|rewrite !list_elem_of_In; symmetry; apply in_rev].
    generalize (rev parsed). intros l. induction l as [|x l IH]; [done|]. cbn. fold (sort_rules l). rewrite insert_rule_elem, elem_of_cons. by rewrite IH.
  - intros r Hr. apply mapM_Some in Em. apply list_elem_of_lookup in Hr as [k Hk].
    eapply Forall2_lookup_r in Em as (ar & _ & Ha); [|exact Hk]. by eapply parse_rule_trusted.
Qed.

Lemma is_trusted_find security acl ip :
  from_security security = Some acl →
  is_trusted acl ip = match find (fun r => matches r (to_canonical ip)) (rules acl) with Some r => trusted r | None => false end.
Proof.
  intros (parsed & _ & _ & _ & Ha & _)%from_security_rules. unfold is_trusted.
  destruct (all_trusted acl); [|done]. symmetry in Ha. apply andb_true_iff in Ha as [He Hall].
  apply existsb_exists in He as (r & Hr & Hn). apply bool_decide_eq_true in Hn. rewrite forallb_forall in Hall.
  destruct (find _ _) as [x|] eqn:Ef.
  - apply find_some in Ef as [Hx _]. by rewrite Hall.
  - eapply find_none in Ef; [|exact Hr]. unfold matches in Ef. by rewrite Hn in Ef.
Qed.

Lemma elem_of_rev {A} (x : A) l : x ∈ rev l ↔ x ∈ l.
Proof. rewrite !list_elem_of_In. symmetry. apply in_rev. Qed.

Lemma best_top parsed ip r :
  best (fun r => matches r ip) (rev parsed) = Some r →
  most_specific parsed ip r ∧ ∀ x, most_specific parsed ip x → implb (allow r) (allow x) = true.
Proof.
  intros (Hr & Pr & Hl)%best_least. rewrite elem_of_rev in Hr.
  assert (Hk : ∀ x, x ∈ parsed → matches x ip = true → key_le r x = true) by (intros x; rewrite <-elem_of_rev; apply Hl).
  split.
  - split_and!; [done|done|]. intros x Hx Px. specialize (Hk x Hx Px). unfold key_le in Hk. lia.
  - intros x (Hx & Px & Hmax). specialize (Hk x Hx Px). specialize (Hmax r Hr Pr). unfold key_le in Hk.
    destruct (Z.ltb_spec (prefix_len x) (prefix_len r)); [lia|]. cbn in Hk. by apply andb_true_iff in Hk as [_ ?].
Qed.

Lemma top_exists parsed ip r : most_specific parsed ip r → is_Some (best (fun r => matches r ip) (rev parsed)).
Proof.
  intros (Hr & Pr & _). destruct (best _ _) eqn:E; [by eexists|]. rewrite <-elem_of_rev in Hr.
  pose proof (best_none _ _ r E Hr) as Hn. cbn in Hn. congruence.
Qed.

(** The last of the most specific rules, when all of them allow. *)
Lemma best_last parsed ip before r after :
  parsed = before ++ r :: after → most_specific parsed ip r → (∀ x, most_specific parsed ip x → allow x = true) →
  (∀ x, x ∈ after → ¬ most_specific parsed ip x) →
  best (fun r => matches r ip) (rev parsed) = Some r.
Proof.
  intros E Hr Hall Hlast. pose proof Hr as (_ & Pr & Hmax). rewrite E, rev_app_distr. cbn [rev]. rewrite <-app_assoc.
  assert (Htop : ∀ x, x ∈ parsed → matches x ip = true → prefix_len r <= prefix_len x → most_specific parsed ip x).
  { intros x Hx Px Hle. split_and!; [done|done|]. intros y Hy Py. specialize (Hmax y Hy Py). lia. }
  apply best_at; [done| |]; intros x Hx%(proj1 (elem_of_rev _ _)) Px.
  - assert (Hin : x ∈ parsed) by (rewrite E; apply elem_of_app; right; by right).
    pose proof (Hmax x Hin Px) as Hle. unfold key_le.
    destruct (Z.ltb_spec (prefix_len r) (prefix_len x)) as [|Hge]; [lia|].
    destruct (Z.eqb_spec (prefix_len x) (prefix_len r)) as [Heq|]; [|done]. exfalso. apply (Hlast x Hx), Htop; [done|done|lia].
  - assert (Hin : x ∈ parsed) by (rewrite E; apply elem_of_app; by left).
    pose proof (Hmax x Hin Px) as Hle. unfold key_le. destruct (Z.ltb_spec (prefix_len x) (prefix_len r)); [done|].
    rewrite (Hall r Hr), (Hall x (Htop x Hin Px ltac:(lia))). cbn. lia.
Qed.

(** C22. An access control built from a configuration denies a peer exactly when one of the
    matching rules of the longest prefix denies; it trusts a peer exactly when all of these
    allow and the one configured last among them is trusted; and a client behind a peer is
    admitted exactly when both addresses are. *)
Theorem acl_most_specific security acl ip :
  from_security security = Some acl →
  ∃ parsed, mapM parse_rule (access_control security) = Some parsed ∧
  let top := most_specific parsed (to_canonical ip) in
  (check_peer acl ip = false ↔ ∃ r, top r ∧ allow r = false) ∧
  (is_trusted acl ip = true ↔
     (∀ r, top r → allow r = true) ∧
     ∃ before r after, parsed = before ++ r :: after ∧ top r ∧ trusted r = true ∧ ∀ x, x ∈ after → ¬ top x) ∧
  ∀ client, check_client acl ip client = true ↔ check_peer acl ip = true ∧ check_peer acl client = true.
Proof.
  intros Hs. pose proof (from_security_rules _ _ Hs) as (parsed & Hp & Hf & _ & _ & Ht). exists parsed. split; [done|]. intros top.
  pose proof (is_trusted_find _ _ ip Hs) as Htr. rewrite Hf in Htr.
  assert (Hc : check_peer acl ip = match best (fun r => matches r (to_canonical ip)) (rev parsed) with
                                   | Some r => allow r | None => true end) by (unfold check_peer; by rewrite Hf).
  split_and!.
  - rewrite Hc. split.
    + destruct (best _ _) as [r|] eqn:Eb; [|done]. intros Ha. exists r. split; [|done]. by apply best_top in Eb as [].
    + intros (r & Hr & Ha). destruct (top_exists _ _ _ Hr) as [x Ex]. rewrite Ex. apply best_top in Ex as [_ Hi].
      specialize (Hi r Hr). rewrite Ha in Hi. by destruct (allow x).
  - rewrite Htr. split.
    + destruct (best _ _) as [r|] eqn:Eb; [|done]. intros Hr. pose proof (best_top _ _ _ Eb) as [Htop Hi].
      assert (Ha : allow r = true) by (apply Ht; [by destruct Htop|done]). rewrite Ha in Hi. cbn [implb] in Hi. split; [exact Hi|].
      apply best_split in Eb as (l1 & l2 & El & H1). exists (rev l2), r, (rev l1). split_and!; [|done|done|].
      * rewrite <-(rev_involutive parsed), El, rev_app_distr. cbn. by rewrite <-app_assoc.
      * intros x Hx%(proj1 (elem_of_rev _ _)) Hxt. pose proof Hxt as (Hin & Px & Hmax). specialize (H1 x Hx Px).
        destruct Htop as (Hrin & Pr & Hmax'). specialize (Hmax r Hrin Pr). specialize (Hmax' x Hin Px).
        unfold key_le in H1. rewrite (Hi x Hxt), Ha in H1. cbn in H1. lia.
    + intros (Hall & before & r & after & E & Htop & Hr & Hlast). by rewrite (best_last parsed _ before r after).
  - intros client. unfold check_client. destruct (check_peer acl ip) eqn:Ep; [|naive_solver].
    case_bool_decide as E; [|naive_solver]. split; [|done]. intros _. split; [done|].
    rewrite <-Ep. unfold check_peer. by rewrite E.
Qed.

Context `{Http : HttpCrate}.

(** The fast paths of the walk from the client side give what the walk gives. *)
Theorem leftmost_fast_paths acl m :
  leftmost_untrusted_xff acl m = leftmost_walk acl (get_all m (bs "x-forwarded-for") ≫= line_ips) None.
Proof.
  unfold leftmost_untrusted_xff. destruct (all_trusted acl) eqn:Ea.
  - destruct (_ ≫= line_ips) as [|ip ips]; [done|]. cbn.
    assert (Hw : ∀ ips f, leftmost_walk acl ips (Some f) = Some f).
    { induction ips0 as [|x ips0 IH]; intros f; [done|]. cbn. unfold is_trusted. rewrite Ea. apply IH. }
    unfold is_trusted. rewrite Ea. cbn. by rewrite Hw.
  - destruct (get_all m _) as [|v [|v' vs]]; [done| |done]. cbn [mbind list_bind]. rewrite app_nil_r.
    destruct (line_ips v) as [|only [|x ips]]; [done| |done]. cbn. by destruct (is_trusted acl only).
Qed.

Definition trusted_hop (acl : AccessControl) (e : option IpAddr) : Prop := ∃ ip, e = Some ip ∧ is_trusted acl ip = true.

Lemma rightmost_walk_skip acl near rest first :
  Forall (trusted_hop acl) near → rightmost_walk acl (rev near ++ rest) first = rightmost_walk acl rest first.
Proof.
  intros Hn. assert (Hr : Forall (trusted_hop acl) (rev near)).
  { apply Forall_forall. intros x. rewrite elem_of_rev. by apply Forall_forall. }
  induction Hr as [|x l (ip & -> & Ht) _ IH]; [done|]. cbn. by rewrite Ht.
Qed.


End theorems.

End networks.

(** ** An example *)

Fixpoint bits_be (width : nat) (n : Z) : list bool :=
  match width with O => [] | S width => Z.testbit n (Z.of_nat width) :: bits_be width n end.

Definition ip_bits (ip : IpAddr) : list bool :=
  match ip with V4 os => os ≫= bits_be 8 | V6 ss => ss ≫= bits_be 16 end.

Definition same_family (a b : IpAddr) : bool :=
  match a, b with V4 _, V4 _ | V6 _, V6 _ => true | _, _ => false end.

(** A network as an address and the length of its prefix. *)
Definition plain_ipnet : IpnetCrate := {|
  IpNet := IpAddr * Z;
  net_addr := fst;
  net_prefix_len := snd;
  net_contains n ip :=
    same_family n.1 ip && bool_decide (take (Z.to_nat n.2) (ip_bits n.1) = take (Z.to_nat n.2) (ip_bits ip));
  net_parse s := '(a, p) ← split_once 0x2f s; a ← parse_ip_addr a; p ← parse_unsigned 128 p; Some (a, p);
  net_new a p := Some (a, p);
  net_trunc n := n;
  net_all_v6 := (V6 (replicate 8 0), 0);
|}.

Definition plain_globs : GlobCrate := {|
  GlobSet := list (bool * list Z);
  glob_ok _ := true;
  glob_set := Some;
  glob_match set path := existsb (fun g => bytes_eqb g.2 path) set;
|}.

Definition example_security : Security := {|
  access_control :=
    [{| spec := bs "ALL"; rule_allow := true; rule_trusted := false |};
     {| spec := bs "10.1.0.0/16"; rule_allow := false; rule_trusted := false |};
     {| spec := bs "10.*"; rule_allow := true; rule_trusted := true |}];
  access_deny_dir := [bs "/etc/*"] |}.

Definition example_acl : @AccessControl plain_ipnet plain_globs :=
  default (@Build_AccessControl plain_ipnet plain_globs [] false []) (@from_security plain_ipnet plain_globs example_security).

Definition example_headers : HeaderMap :=
  [(bs "x-forwarded-for", bs "1.1.1.1, 192.0.2.7:80"); (bs "x-forwarded-for", bs "10.0.0.9")].

#[local] Ltac by_vm := match goal with |- _ = ?b => vm_cast_no_check (@eq_refl _ b) end.

Lemma acl_most_specific_witness :
  @check_peer plain_ipnet plain_globs example_acl (V6 [0; 0; 0; 0; 0; 0xffff; 0x0a01; 5]) = false ∧
  ∃ parsed, mapM (@parse_rule plain_ipnet) (access_control example_security) = Some parsed ∧
    ∃ r, @most_specific plain_ipnet parsed (V4 [10; 1; 0; 5]) r ∧ @allow plain_ipnet r = false.
Proof.
  split; [by_vm|].
  edestruct (@acl_most_specific plain_ipnet plain_globs example_security example_acl (V6 [0; 0; 0; 0; 0; 0xffff; 0x0a01; 5]))
    as (parsed & Hp & Hd & _); [by_vm|].
  exists parsed. split; [exact Hp|]. apply (proj1 Hd). by_vm.
Defined.


End acl.
