(* ===== verification/Throttle.v ===== *)
(** * Requests per client: [crates/hj-acl/src/throttle.rs]

    A fixed window of requests per client address, in 64 shards that each hold at most 4096
    addresses. An operation is what it does under the lock of one shard; its clock is an
    argument, and instants and durations are nanoseconds. The two counters are atomics that
    only count. *)

From stdpp Require Import base list gmap sorting.
From Stdlib Require Import ZArith Lia.
From S2P Require Import Prelude Net.

Import ip.
#[local] Open Scope record_scope.

#[export] Instance IpAddr_countable : Countable IpAddr.
Proof.
  refine (inj_countable'
    (fun ip => match ip with V4 os => inl os | V6 ss => inr ss end)
    (fun x : list Z + list Z => match x with inl os => V4 os | inr ss => V6 ss end) _).
  by intros [].
Defined.

Module throttle.

Definition SHARDS : Z := 64.
Definition MAX_IPS_PER_SHARD : Z := 4096.

Record Window : Type := { start : Z; count : Z }.

Record Shard : Type := { map : gmap IpAddr Window; sweep_after : option Z }.

#[export] Instance Shard_eta : Eta Shard := fun r => {| map := map r; sweep_after := sweep_after r |}.
#[export] Instance set_map : Setter map := ltac:(derive_setter).
#[export] Instance set_sweep_after : Setter sweep_after := ltac:(derive_setter).

Record ClientThrottle : Type := {
  rate : Z;
  window : Z;
  shards : list Shard;
  rejected : Z;
  allowed : Z;
}.

#[export] Instance ClientThrottle_eta : Eta ClientThrottle := fun r =>
  {| rate := rate r; window := window r; shards := shards r; rejected := rejected r; allowed := allowed r |}.
#[export] Instance set_rate : Setter rate := ltac:(derive_setter).
#[export] Instance set_window : Setter window := ltac:(derive_setter).
#[export] Instance set_shards : Setter shards := ltac:(derive_setter).
#[export] Instance set_rejected : Setter rejected := ltac:(derive_setter).
#[export] Instance set_allowed : Setter allowed := ltac:(derive_setter).

Definition empty_shard : Shard := {| map := ∅; sweep_after := None |}.

Definition disabled : ClientThrottle :=
  {| rate := 0; window := 10 ^ 9; shards := replicate (Z.to_nat SHARDS) empty_shard; rejected := 0; allowed := 0 |}.

(** The two fields of the tuning block. *)
Definition from_tuning (per_ip_rate per_ip_rate_window : Z) : ClientThrottle :=
  if per_ip_rate =? 0 then disabled
  else disabled <| rate := per_ip_rate |> <| window := per_ip_rate_window |>.

Definition enabled (t : ClientThrottle) : bool := negb (rate t =? 0).

Definition same_limits (t other : ClientThrottle) : bool :=
  (rate t =? rate other) && (window t =? window other).

(** [fetch_add] wraps. *)
Definition inherit_counters (t old : ClientThrottle) : ClientThrottle :=
  t <| rejected := u64 (rejected t + rejected old) |> <| allowed := u64 (allowed t + allowed old) |>.

Definition octets_of (ip : IpAddr) : list Z :=
  match ip with V4 os => os | V6 ss => ss ≫= (fun s => [s / 256; s mod 256]) end.

Definition shard_of_canonical (ip : IpAddr) : Z :=
  let h := fold_left (fun h b => u64 (Z.lxor h b * 0x100000001b3)) (octets_of ip) 0x9e3779b97f4a7c15 in
  Z.shiftr h 48 mod SHARDS.

(** [Instant::duration_since], which is zero for an instant in the future. *)
Definition duration_since (now start : Z) : Z := Z.max 0 (now - start).

Definition would_allow (t : ClientThrottle) (ip : IpAddr) (now : Z) : bool :=
  if rate t =? 0 then true
  else
    let ip := to_canonical ip in
    match shards t !! Z.to_nat (shard_of_canonical ip) with
    | None => false
    | Some shard =>
        match map shard !! ip with
        | None => true
        | Some w => (window t <=? duration_since now (start w)) || (count w <? rate t)
        end
    end.

Definition live (t : ClientThrottle) (now : Z) (w : Window) : bool := duration_since now (start w) <? window t.

(** The least start of the windows kept. *)
Definition earliest_start (m : gmap IpAddr Window) : option Z :=
  map_fold (fun _ w earliest =>
    match earliest with Some e => if start w <? e then Some (start w) else Some e | None => Some (start w) end) None m.

Definition sweep (t : ClientThrottle) (now : Z) (s : Shard) : Shard :=
  if (MAX_IPS_PER_SHARD <=? Z.of_nat (size (map s)))
     && match sweep_after s with None => true | Some at_ => at_ <=? now end
  then
    let kept := filter (fun kw => Is_true (live t now kw.2)) (map s) in
    {| map := kept; sweep_after := (fun start => start + window t) <$> earliest_start kept |}
  else s.

(** The verdict, whether the address is counted, and the shard. *)
Definition admit_shard (t : ClientThrottle) (ip : IpAddr) (now : Z) (s : Shard) : bool * Shard :=
  let s := sweep t now s in
  match map s !! ip with
  | None =>
      if MAX_IPS_PER_SHARD <=? Z.of_nat (size (map s)) then (true, s)
      else (true, s <| map := <[ip := {| start := now; count := 1 |}]> (map s) |>)
  | Some w =>
      if window t <=? duration_since now (start w) then
        (true, s <| map := <[ip := {| start := now; count := 1 |}]> (map s) |>)
      else if rate t <=? count w then (false, s)
      else (true, s <| map := <[ip := {| start := start w; count := count w + 1 |}]> (map s) |>)
  end.

(** [None] is a shard index out of range. *)
Definition admit_ (t : ClientThrottle) (ip : IpAddr) (count_rejection : bool) (now : Z) : option (bool * ClientThrottle) :=
  if rate t =? 0 then Some (true, t)
  else
    let ip := to_canonical ip in
    let i := Z.to_nat (shard_of_canonical ip) in
    s ← shards t !! i;
    let '(ok, s) := admit_shard t ip now s in
    let t := t <| shards := <[i := s]> (shards t) |> in
    Some (ok, if ok then t <| allowed := u64 (allowed t + 1) |>
              else if count_rejection then t <| rejected := u64 (rejected t + 1) |> else t).

Definition allow (t : ClientThrottle) (ip : IpAddr) (now : Z) : option (bool * ClientThrottle) := admit_ t ip true now.

Definition allow_deferring_rejection (t : ClientThrottle) (ip : IpAddr) (now : Z) : option (bool * ClientThrottle) :=
  admit_ t ip false now.

(** ** Windows of one address *)

(** Whether a request of [ip] would be counted. *)
Definition counted (t : ClientThrottle) (ip : IpAddr) (now : Z) : bool :=
  match shards t !! Z.to_nat (shard_of_canonical (to_canonical ip)) with
  | None => false
  | Some s =>
      let s := sweep t now s in
      bool_decide (is_Some (map s !! to_canonical ip)) || (Z.of_nat (size (map s)) <? MAX_IPS_PER_SHARD)
  end.

(** The instants of [x] to [x + w], without the last one. *)
Definition within (x w : Z) (ts : list Z) : Z := zlen (filter (fun t => x <= t < x + w) ts).

(** The instants at which an address was counted, and its last window. *)
Inductive windows (r w : Z) : list Z → option (Z * Z) → Prop :=
| ws_nil : windows r w [] None
| ws_open ts last now :
    windows r w ts last → (∀ s k, last = Some (s, k) → s + w <= now) → windows r w (ts ++ [now]) (Some (now, 1))
| ws_more ts s k now :
    windows r w ts (Some (s, k)) → s <= now < s + w → k < r → windows r w (ts ++ [now]) (Some (s, k + 1)).

Lemma within_snoc x w ts now :
  within x w (ts ++ [now]) = within x w ts + if bool_decide (x <= now < x + w) then 1 else 0.
Proof.
  unfold within. rewrite filter_app, zlen_app, filter_cons, filter_nil.
  by destruct (decide (x <= now < x + w)); [rewrite bool_decide_true|rewrite bool_decide_false].
Qed.

Lemma within_late x w ts : Forall (fun t => t < x) ts → within x w ts = 0.
Proof.
  unfold within. induction 1 as [|t ts Ht _ IH]; [done|]. rewrite filter_cons, decide_False by lia. exact IH.
Qed.

Lemma windows_bounds r w ts last :
  0 < r → 0 < w → windows r w ts last →
  (∀ x, within x w ts <= 2 * r) ∧
  ∀ s k, last = Some (s, k) →
    1 <= k <= r ∧ Forall (fun t => t < s + w) ts ∧ within s w ts = k ∧
    (∀ x, s <= x → within x w ts <= k) ∧ ∀ x, s - w < x → within x w ts <= r + k.
Proof.
  intros Hr Hw. induction 1 as [|ts last now Hws [IH1 IH2] Hgap|ts s k now Hws [IH1 IH2] Hin Hk].
  - split; [|done]. intros x. change (within x w []) with 0. lia.
  - assert (Hlate : Forall (fun t => t < now) ts ∧ ∀ x, now - w < x → within x w ts <= r).
    { destruct last as [[s k]|].
      - destruct (IH2 s k eq_refl) as (Hk & Hall & _ & Hin & _). specialize (Hgap s k eq_refl). split.
        + eapply Forall_impl; [exact Hall|]. cbn. lia.
        + intros x Hx. specialize (Hin x ltac:(lia)). lia.
      - inversion Hws. split; [constructor|]. intros x _. change (within x w []) with 0. lia. }
    destruct Hlate as [Hlate Hr1]. split.
    + intros x. rewrite within_snoc. specialize (IH1 x). case_bool_decide; [|lia]. specialize (Hr1 x ltac:(lia)). lia.
    + intros s k [= <- <-]. split_and!; [lia|lia| | | |].
      * apply Forall_app. split; [eapply Forall_impl; [exact Hlate|]; cbn; lia|]. repeat constructor. lia.
      * rewrite within_snoc, within_late by done. rewrite bool_decide_true; lia.
      * intros x Hx. rewrite within_snoc, within_late; [case_bool_decide; lia|]. eapply Forall_impl; [exact Hlate|]. cbn. lia.
      * intros x Hx. rewrite within_snoc. specialize (Hr1 x Hx). case_bool_decide; lia.
  - destruct (IH2 s k eq_refl) as (Hkr & Hall & He & Hi & Hb). split.
    + intros x. rewrite within_snoc. specialize (IH1 x). case_bool_decide; [|lia]. specialize (Hb x ltac:(lia)). lia.
    + intros s' k' [= <- <-]. split_and!; [lia|lia| | | |].
      * apply Forall_app. split; [done|]. repeat constructor. lia.
      * rewrite within_snoc, bool_decide_true by lia. lia.
      * intros x Hx. rewrite within_snoc. specialize (Hi x Hx). case_bool_decide; lia.
      * intros x Hx. rewrite within_snoc. specialize (Hb x Hx). case_bool_decide; lia.
Qed.

(** ** Any sequence of requests *)

(** The throttle after requests in the order of their clocks, with the requests that were
    counted. *)
Inductive reach (r w : Z) : Z → list (IpAddr * Z) → ClientThrottle → Prop :=
| reach_new now : reach r w now [] (from_tuning r w)
| reach_admit now log t ip count_rejection now' ok t' :
    reach r w now log t → now <= now' → admit_ t ip count_rejection now' = Some (ok, t') →
    reach r w now' (log ++ if ok && counted t ip now' then [(to_canonical ip, now')] else []) t'.

Definition times (c : IpAddr) (log : list (IpAddr * Z)) : list Z := snd <$> filter (fun e => e.1 = c) log.

Lemma times_app c l1 l2 : times c (l1 ++ l2) = times c l1 ++ times c l2.
Proof. unfold times. by rewrite filter_app, fmap_app. Qed.

Lemma times_one c c' now : times c [(c', now)] = if bool_decide (c' = c) then [now] else [].
Proof. unfold times. rewrite filter_cons. cbn. by destruct (decide (c' = c)); [rewrite bool_decide_true|rewrite bool_decide_false]. Qed.

(** A shard at an instant. *)
Record shard_ok (w now : Z) (s : Shard) : Prop := {
  so_size : Z.of_nat (size (map s)) <= MAX_IPS_PER_SHARD;
  so_past : ∀ k x, map s !! k = Some x → start x <= now;
  so_sweep : ∀ at_, sweep_after s = Some at_ → at_ <= now + w ∧ ∀ k x, map s !! k = Some x → at_ <= start x + w;
}.

(** The windows of [c] are those of the shard. *)
Definition follows (r w now : Z) (ts : list Z) (x : option Window) : Prop :=
  match x with
  | Some x => windows r w ts (Some (start x, count x))
  | None => ∃ last, windows r w ts last ∧ ∀ s k, last = Some (s, k) → s + w <= now
  end.

Lemma earliest_start_least m e :
  earliest_start m = Some e → (∃ k x, m !! k = Some x ∧ start x = e) ∧ ∀ k x, m !! k = Some x → e <= start x.
Proof.
  assert (H : match earliest_start m with
              | Some e => (∃ k x, m !! k = Some x ∧ start x = e) ∧ ∀ k x, m !! k = Some x → e <= start x
              | None => m = ∅ end); [|by intros E; rewrite E in H].
  unfold earliest_start. apply (map_fold_weak_ind (fun e m => match e with
    | Some e => (∃ k x, m !! k = Some x ∧ start x = e) ∧ ∀ k x, m !! k = Some x → e <= start x
    | None => m = ∅ end)); [done|].
  intros i x m' [e'|] Hi.
  - intros ((k & y & Hk & He) & Hl). destruct (Z.ltb_spec (start x) e').
    + split; [exists i, x; by rewrite lookup_insert_eq|].
      intros k' x' [[<- <-]|[_ Hx]]%lookup_insert_Some; [done|]. specialize (Hl _ _ Hx). lia.
    + split; [exists k, y; rewrite lookup_insert_ne; [done|congruence]|].
      intros k' x' [[<- <-]|[_ Hx]]%lookup_insert_Some; [done|]. by eapply Hl.
  - intros ->. split; [exists i, x; by rewrite lookup_insert_eq|].
    intros k' x' [[<- <-]|[_ Hx]]%lookup_insert_Some; [done|]. by rewrite lookup_empty in Hx.
Qed.

Lemma live_spec t now x : start x <= now → live t now x = true ↔ now < start x + window t.
Proof. intros Hx. unfold live, duration_since. lia. Qed.

(** A sweep drops only windows that are over, and leaves only live ones when it cannot make room. *)
Lemma sweep_ok t now now' s :
  shard_ok (window t) now s → now <= now' → 0 < window t →
  shard_ok (window t) now' (sweep t now' s) ∧
  (∀ k x, map (sweep t now' s) !! k = Some x → map s !! k = Some x) ∧
  (∀ k x, map s !! k = Some x → map (sweep t now' s) !! k = None → start x + window t <= now') ∧
  (MAX_IPS_PER_SHARD <= Z.of_nat (size (map (sweep t now' s))) → ∀ k x, map (sweep t now' s) !! k = Some x → now' < start x + window t).
Proof.
  intros [Hsz Hpast Hsw] Hle Hw. unfold sweep.
  destruct (Z.leb_spec MAX_IPS_PER_SHARD (Z.of_nat (size (map s)))) as [Hfull|Hroom]; cbn [andb].
  2:{ split_and!; [|done|congruence|lia]. split; [done| |].
      - intros k x Hx. specialize (Hpast k x Hx). lia.
      - intros a Ha. destruct (Hsw a Ha) as [? H]. split; [lia|done]. }
  destruct (match sweep_after s with None => true | Some at_ => at_ <=? now' end) eqn:Ea.
  - set (kept := filter _ (map s)). cbn [map].
    assert (Hk : ∀ k x, kept !! k = Some x ↔ map s !! k = Some x ∧ now' < start x + window t).
    { intros k x. unfold kept. rewrite map_lookup_filter_Some. cbn. split.
      - intros [Hx Hl%Is_true_true_1]. split; [done|]. apply live_spec in Hl; [done|]. specialize (Hpast k x Hx). lia.
      - intros [Hx Hl]. split; [done|]. apply Is_true_true_2. apply live_spec; [|done]. specialize (Hpast k x Hx). lia. }
    split_and!.
    + split; cbn [map sweep_after].
      * pose proof (map_size_filter (fun kw => Is_true (live t now' kw.2)) (map s)). unfold kept. lia.
      * intros k x [Hx _]%Hk. specialize (Hpast k x Hx). lia.
      * intros a Ha. apply fmap_Some in Ha as (e & He & ->). apply earliest_start_least in He as [(k & x & Hx & <-) Hl].
        apply Hk in Hx as [Hx _]. specialize (Hpast k x Hx). split; [lia|]. intros k' x' Hx'. specialize (Hl k' x' Hx'). lia.
    + intros k x [Hx _]%Hk. done.
    + intros k x Hx Hn. destruct (Z.le_gt_cases (start x + window t) now') as [|Hl]; [done|]. exfalso.
      rewrite (proj2 (Hk k x)) in Hn; [done|]. split; [done|lia].
    + intros _ k x [_ Hl]%Hk. done.
  - destruct (sweep_after s) as [a|] eqn:Es; [|done]. destruct (Hsw a eq_refl) as [Ha Hall].
    split_and!; [|done|congruence|].
    + split; [done| |]; [intros k x Hx; specialize (Hpast k x Hx); lia|].
      intros a' Ha'. rewrite Es in Ha'. injection Ha' as <-. split; [lia|done].
    + intros _ k x Hx. specialize (Hall k x Hx). lia.
Qed.

Lemma follows_sweep t r now now' s k ts :
  shard_ok (window t) now s → now <= now' → 0 < window t →
  follows r (window t) now ts (map s !! k) → follows r (window t) now' ts (map (sweep t now' s) !! k).
Proof.
  intros Hs Hle Hw Hf. destruct (sweep_ok t now now' s Hs Hle Hw) as (_ & Hkeep & Hdrop & _).
  destruct (map (sweep t now' s) !! k) as [x|] eqn:E; [by rewrite (Hkeep _ _ E) in Hf|].
  destruct (map s !! k) as [x|] eqn:Ex; cbn in Hf |- *.
  - eexists. split; [exact Hf|]. intros s0 k0 [= <- <-]. by eapply Hdrop.
  - destruct Hf as (last & Hf & Hl). exists last. split; [done|]. intros s0 k0 E0. specialize (Hl s0 k0 E0). lia.
Qed.

Lemma map_set s m : map (s <| map := m |>) = m.
Proof. done. Qed.
Lemma sweep_after_set s m : sweep_after (s <| map := m |>) = sweep_after s.
Proof. done. Qed.

Lemma insert_ok w now s ip x :
  shard_ok w now s → start x <= now → 0 < w →
  Z.of_nat (size (map s)) < MAX_IPS_PER_SHARD ∨ is_Some (map s !! ip) →
  (∀ at_, sweep_after s = Some at_ → at_ <= start x + w) →
  shard_ok w now (s <| map := <[ip := x]> (map s) |>).
Proof.
  intros [Hsz Hpast Hsw] Hx Hw Hroom Ha. split; rewrite map_set, ?sweep_after_set.
  - destruct (map s !! ip) as [y|] eqn:E.
    + by rewrite map_size_insert_Some.
    + rewrite map_size_insert_None by done. destruct Hroom as [|[]]; [lia|done].
  - intros k y [[<- <-]|[_ Hy]]%lookup_insert_Some; [done|]. by eapply Hpast.
  - intros a Ea. destruct (Hsw a Ea) as [? Hall]. split; [done|].
    intros k y [[<- <-]|[_ Hy]]%lookup_insert_Some; [by apply Ha|by eapply Hall].
Qed.

Lemma admit_shard_ok t now now' ip s ok s' :
  0 < rate t → 0 < window t → shard_ok (window t) now s → now <= now' → admit_shard t ip now' s = (ok, s') →
  let tracked := bool_decide (is_Some (map (sweep t now' s) !! ip)) || (Z.of_nat (size (map (sweep t now' s))) <? MAX_IPS_PER_SHARD) in
  shard_ok (window t) now' s' ∧
  (∀ ts, follows (rate t) (window t) now ts (map s !! ip) →
     follows (rate t) (window t) now' (ts ++ if ok && tracked then [now'] else []) (map s' !! ip)) ∧
  (∀ k ts, k ≠ ip → follows (rate t) (window t) now ts (map s !! k) → follows (rate t) (window t) now' ts (map s' !! k)) ∧
  (ok = false → ∃ x, map s !! ip = Some x ∧ start x <= now' < start x + window t ∧ rate t <= count x).
Proof.
  intros Hr Hw Hs Hle. unfold admit_shard. destruct (sweep_ok t now now' s Hs Hle Hw) as (Hs1 & Hkeep & _ & _).
  pose proof (fun k ts => follows_sweep t (rate t) now now' s k ts Hs Hle Hw) as Hf. set (s1 := sweep t now' s) in *.
  pose proof Hs1 as [_ Hpast Hsw].
  assert (Hother : ∀ x k ts, k ≠ ip → follows (rate t) (window t) now ts (map s !! k) →
    follows (rate t) (window t) now' ts (map (s1 <| map := <[ip := x]> (map s1) |>) !! k)).
  { intros x k ts Hk Hts. rewrite map_set, lookup_insert_ne by done. by apply Hf. }
  destruct (map s1 !! ip) as [x|] eqn:Ex.
  - specialize (Hpast ip x Ex). unfold duration_since. rewrite bool_decide_true by (by eexists). cbn [orb].
    destruct (Z.leb_spec (window t) (Z.max 0 (now' - start x))) as [Hover|Hin].
    + intros [= <- <-]. split_and!; [|intros ts Hts|by apply Hother|done].
      * apply insert_ok; [done|cbn; lia|done|by right; rewrite Ex; eexists|]. cbn. intros a Ha. apply Hsw in Ha as [? _]. lia.
      * rewrite map_set, lookup_insert_eq. cbn. apply Hf in Hts. rewrite Ex in Hts. cbn in Hts.
        eapply ws_open; [exact Hts|]. intros s0 k0 [= <- <-]. lia.
    + destruct (Z.leb_spec (rate t) (count x)) as [Hmax|Hmore]; intros [= <- <-].
      * split_and!; [done| |by intros; apply Hf|intros _; exists x; split_and!; [by apply Hkeep|lia|lia|done]].
        intros ts Hts. cbn. rewrite app_nil_r. by apply Hf.
      * split_and!; [|intros ts Hts|by apply Hother|done].
        -- apply insert_ok; [done|done|done|by right; rewrite Ex; eexists|]. cbn. intros a Ha. apply Hsw in Ha as [_ Ha]. by eapply Ha.
        -- rewrite map_set, lookup_insert_eq. cbn. apply Hf in Hts. rewrite Ex in Hts. cbn in Hts.
           apply ws_more; [done|lia|lia].
  - rewrite bool_decide_false by (by intros []). cbn [orb].
    destruct (Z.leb_spec MAX_IPS_PER_SHARD (Z.of_nat (size (map s1)))) as [Hfull|Hroom]; intros [= <- <-].
    + rewrite (proj2 (Z.ltb_ge _ _)) by done. split_and!; [done| |by intros; apply Hf|done].
      intros ts Hts. cbn. rewrite app_nil_r. by apply Hf.
    + rewrite (proj2 (Z.ltb_lt _ _)) by done. split_and!; [|intros ts Hts|by apply Hother|done].
      * apply insert_ok; [done|cbn; lia|done|by left|]. cbn. intros a Ha. apply Hsw in Ha as [? _]. lia.
      * rewrite map_set, lookup_insert_eq. cbn. apply Hf in Hts. rewrite Ex in Hts.
        destruct Hts as (last & Hts & Hl). by eapply ws_open.
Qed.

(** The window the throttle has for [c]. *)
Definition window_of (t : ClientThrottle) (c : IpAddr) : option Window :=
  s ← shards t !! Z.to_nat (shard_of_canonical c); map s !! c.

Record throttle_ok (r w now : Z) (log : list (IpAddr * Z)) (t : ClientThrottle) : Prop := {
  to_rate : rate t = r;
  to_window : window t = w;
  to_shards : length (shards t) = Z.to_nat SHARDS;
  to_shard : ∀ i s, shards t !! i = Some s → shard_ok w now s;
  to_history : ∀ c, follows r w now (times c log) (window_of t c);
}.

Lemma shard_index ip : (Z.to_nat (shard_of_canonical ip) < Z.to_nat SHARDS)%nat.
Proof. unfold shard_of_canonical. pose proof (Z.mod_pos_bound (Z.shiftr (fold_left (λ h b, u64 (Z.lxor h b * 0x100000001b3)) (octets_of ip) 0x9e3779b97f4a7c15) 48) SHARDS ltac:(done)). lia. Qed.

Lemma shard_ok_later w now now' s : now <= now' → 0 < w → shard_ok w now s → shard_ok w now' s.
Proof.
  intros Hle Hw [Hsz Hpast Hsw]. split; [done| |].
  - intros k x Hx. specialize (Hpast k x Hx). lia.
  - intros a Ha. destruct (Hsw a Ha). split; [lia|done].
Qed.

Lemma follows_later r w now now' ts x : now <= now' → follows r w now ts x → follows r w now' ts x.
Proof.
  intros Hle. destruct x; [done|]. intros (last & Hl & Hg). exists last. split; [done|].
  intros s k E. specialize (Hg s k E). lia.
Qed.

Lemma throttle_admit_ok r w now log t ip count_rejection now' :
  0 < r → 0 < w → throttle_ok r w now log t → now <= now' →
  ∃ ok t', admit_ t ip count_rejection now' = Some (ok, t') ∧
    throttle_ok r w now' (log ++ if ok && counted t ip now' then [(to_canonical ip, now')] else []) t' ∧
    (ok = false → ∃ x, window_of t (to_canonical ip) = Some x ∧ start x <= now' < start x + w ∧ r <= count x).
Proof.
  intros Hr Hw [Er Ew Hlen Hsh Hh] Hle. unfold admit_, counted, window_of. rewrite Er.
  rewrite (proj2 (Z.eqb_neq r 0)) by lia. set (c := to_canonical ip). set (i := Z.to_nat (shard_of_canonical c)).
  destruct (lookup_lt_is_Some_2 (shards t) i) as [s Es]; [rewrite Hlen; apply shard_index|]. rewrite Es. cbn [mbind option_bind].
  destruct (admit_shard t c now' s) as [ok s'] eqn:Ea. subst r w.
  destruct (admit_shard_ok t now now' c s ok s' Hr Hw (Hsh i s Es) Hle Ea) as (Hs' & Hself & Hrest & Hno).
  eexists ok, _. split; [done|]. split; [|done].
  set (t1 := t <| shards := <[i := s']> (shards t) |>). set (t2 := if ok then _ else _).
  assert (E2 : rate t2 = rate t ∧ window t2 = window t ∧ shards t2 = <[i := s']> (shards t)) by (unfold t2; by destruct ok, count_rejection).
  destruct E2 as (E2r & E2w & E2s). split; rewrite ?E2s; [done|done|by rewrite length_insert| |].
  - intros j s0 [(<- & <- & _)|(Hne & Hj)]%list_lookup_insert_Some; [done|]. by eapply shard_ok_later, Hsh.
  - intros c'. unfold window_of. rewrite E2s, times_app. specialize (Hh c'). unfold window_of in Hh.
    destruct (decide (Z.to_nat (shard_of_canonical c') = i)) as [Ei|Ne].
    + rewrite Ei, Es in Hh. cbn [mbind option_bind] in Hh. rewrite Ei, list_lookup_insert_eq by (by eapply lookup_lt_Some). cbn [mbind option_bind].
      destruct (decide (c' = c)) as [->|Hc].
      * apply Hself in Hh. revert Hh. destruct (ok && _); [|done]. rewrite times_one, bool_decide_true by done. done.
      * apply Hrest in Hh; [|done]. destruct (ok && _); [rewrite times_one, bool_decide_false by done|]; by rewrite app_nil_r.
    + rewrite list_lookup_insert_ne by done. apply (follows_later _ _ _ now') in Hh; [|done].
      assert (c' ≠ c) by (intros ->; by apply Ne).
      destruct (ok && _); [rewrite times_one, bool_decide_false by done|]; by rewrite app_nil_r.
Qed.

Lemma reach_ok r w now log t : 0 < r → 0 < w → reach r w now log t → throttle_ok r w now log t.
Proof.
  intros Hr Hw. induction 1 as [now|now log t ip cr now' ok t' Hre IH Hle Ha].
  - unfold from_tuning. rewrite (proj2 (Z.eqb_neq r 0)) by lia. split; [done|done|by cbn; rewrite length_replicate| |].
    + intros i s. cbn. intros [-> _]%lookup_replicate. split; cbn; [by vm_compute|by intros k x Hx; rewrite lookup_empty in Hx|done].
    + intros c. unfold window_of. cbn -[Z.to_nat]. rewrite lookup_replicate_2 by apply shard_index. cbn.
      rewrite lookup_empty. exists None. split; [constructor|done].
  - destruct (throttle_admit_ok r w now log t ip cr now' Hr Hw IH Hle) as (ok1 & t1 & E & Hok & _). rewrite Ha in E.
    by injection E as <- <-.
Qed.



End throttle.
