(* ===== verification/ProxyProtocol.v ===== *)
(** * The PROXY protocol: [crates/httpjet/src/uring/proxy_protocol_wire.rs] and
    [proxy_protocol.rs]

    The header a load balancer puts in front of a connection, in its binary and its text
    form, and the reader that strips it from the socket. A socket is the octets that will
    arrive and the most each read takes of them; a read of nothing is the end of the stream,
    an error or the deadline. *)

From stdpp Require Import base list strings.
From Stdlib Require Import ZArith Lia.
From S2P Require Import Prelude RustStr Net.

Import ip.
#[local] Open Scope record_scope.

Module proxy_protocol.

Definition V2_SIGNATURE : list Z :=
  [0x0d; 0x0a; 0x0d; 0x0a; 0x00; 0x0d; 0x0a; 0x51; 0x55; 0x49; 0x54; 0x0a].
Definition V2_HEADER_LEN : Z := 16.
Definition V1_MAX_LINE : Z := 107.

Definition claimed_source_forbidden (ip : IpAddr) : bool :=
  let canonical := to_canonical ip in is_loopback canonical || is_unspecified canonical.

Record ProxyHeader : Type := { src : option (IpAddr * Z); consumed : Z }.

(** An octet of a buffer that is known to be long enough. *)
Definition at_ (buf : list Z) (i : nat) : Z := nth i buf 0.

Definition be16 (a b : Z) : Z := a * 256 + b.

(** [Ipv6Addr::from([u8; 16])] *)
Fixpoint segments (o : list Z) : list Z :=
  match o with a :: b :: o => be16 a b :: segments o | _ => [] end.

Definition parse_v2_source (family : Z) (addr : list Z) : option (IpAddr * Z) :=
  if family =? 1 then
    if zlen addr <? 12 then None
    else Some (V4 (take 4 addr), be16 (at_ addr 8) (at_ addr 9))
  else if family =? 2 then
    if zlen addr <? 36 then None
    else Some (V6 (segments (take 16 addr)), be16 (at_ addr 32) (at_ addr 33))
  else None.

Definition parse_v2 (buf : list Z) : option ProxyHeader :=
  if (zlen buf <? V2_HEADER_LEN) || negb (bytes_eqb (take 12 buf) V2_SIGNATURE) then None
  else
    let ver_cmd := at_ buf 12 in
    if negb (Z.shiftr ver_cmd 4 =? 2) then None
    else
      let len := be16 (at_ buf 14) (at_ buf 15) in
      if zlen buf <? V2_HEADER_LEN + len then None
      else if Z.land ver_cmd 0x0f =? 0 then Some {| src := None; consumed := V2_HEADER_LEN + len |}
      else if negb (Z.land ver_cmd 0x0f =? 1) then None
      else
        let family := Z.shiftr (at_ buf 13) 4 in
        let transport := Z.land (at_ buf 13) 0x0f in
        if negb (transport =? 1) then None
        else
          src ← parse_v2_source family (take (Z.to_nat len) (drop 16 buf));
          if claimed_source_forbidden src.1 then None
          else Some {| src := Some src; consumed := V2_HEADER_LEN + len |}.

Definition parse_v1_port (value : list Z) : option Z :=
  if bool_decide (value = []) || negb (forallb is_ascii_digit value)
     || ((1 <? zlen value) && starts_with value (bs "0"))
  then None else parse_unsigned 65535 value.

Definition strip_crlf (line : list Z) : option (list Z) := strip_suffix CRLF line.

Definition parse_v1_ip (family src dst : list Z) : option IpAddr :=
  if bytes_eqb family (bs "TCP4") then src ← parse_ipv4 src; _ ← parse_ipv4 dst; Some (V4 src)
  else if bytes_eqb family (bs "TCP6") then src ← parse_ipv6 src; _ ← parse_ipv6 dst; Some (V6 src)
  else None.

Definition parse_v1 (line : list Z) : option ProxyHeader :=
  text ← strip_crlf line;
  if negb (utf8_valid text) then None
  else
    fields ← strip_prefix (bs "PROXY ") text;
    if bytes_eqb fields (bs "UNKNOWN") || starts_with fields (bs "UNKNOWN ") then
      Some {| src := None; consumed := zlen text + 2 |}
    else
      match split 0x20 text with
      | [proxy; family; src; dst; sport; dport] =>
          if negb (bytes_eqb proxy (bs "PROXY")) then None
          else
            sport ← parse_v1_port sport;
            _ ← parse_v1_port dport;
            ip ← parse_v1_ip family src dst;
            if claimed_source_forbidden ip then None
            else Some {| src := Some (ip, sport); consumed := zlen text + 2 |}
      | _ => None
      end.

(** ** The reader *)

Record Socket : Type := { pending : list Z; sizes : list nat }.

(** One read of at most [want] octets, and at least one while there are any. *)
Definition read (want : nat) (s : Socket) : list Z * Socket :=
  let n := match sizes s with [] => want | k :: _ => Nat.min want (S k) end in
  (take n (pending s), {| pending := drop n (pending s); sizes := tail (sizes s) |}).

Definition V2_READ_CHUNK : nat := Z.to_nat (16 * 1024).

(** [None] is the end of the stream. *)
Fixpoint read_to (fuel : nat) (s : Socket) (buf : list Z) (total : nat) : option (list Z) * Socket :=
  if (length buf <? total)%nat then
    match fuel with
    | O => (None, s)
    | S fuel =>
        let '(got, s) := read (Nat.min (total - length buf) V2_READ_CHUNK) s in
        if bool_decide (got = []) then (None, s) else read_to fuel s (buf ++ got) total
    end
  else (Some buf, s).

Fixpoint read_line (fuel : nat) (s : Socket) (line : list Z) : list Z * Socket :=
  match fuel with
  | O => (line, s)
  | S fuel =>
      let '(got, s) := read 1 s in
      match got with
      | [] => (line, s)
      | b :: _ => if b =? 0x0a then (line ++ [b], s) else read_line fuel s (line ++ [b])
      end
  end.

(** The outer [None] is an error of the socket, the inner one a connection without a valid
    header. *)
Definition read_and_strip (s : Socket) : option (option ProxyHeader) * Socket :=
  match read_to 12 s [] 12 with
  | (None, s) => (None, s)
  | (Some prefix, s) =>
      if bytes_eqb prefix V2_SIGNATURE then
        match read_to 4 s prefix 16 with
        | (None, s) => (None, s)
        | (Some header, s) =>
            let len := Z.to_nat (be16 (at_ header 14) (at_ header 15)) in
            match read_to len s header (16 + len) with
            | (None, s) => (None, s)
            | (Some full, s) => (Some (parse_v2 full), s)
            end
        end
      else if starts_with prefix (bs "PROXY ") then
        let '(line, s) := read_line (Z.to_nat (V1_MAX_LINE - 12)) s prefix in (Some (parse_v1 line), s)
      else (Some None, s)
  end.

(** ** Headers as the PROXY protocol describes them *)

Definition be16_octets (n : Z) : list Z := [n / 256; n mod 256].

Inductive v1_text : list Z → option (IpAddr * Z) → Prop :=
| v1_unknown tail : tail = [] ∨ starts_with tail (bs " ") = true → v1_text (bs "PROXY UNKNOWN" ++ tail) None
| v1_known family s d sport dport ip p :
    parse_v1_ip family s d = Some ip → parse_v1_port sport = Some p → is_Some (parse_v1_port dport) →
    claimed_source_forbidden ip = false →
    v1_text (join 0x20 [bs "PROXY"; family; s; d; sport; dport]) (Some (ip, p)).

Inductive proxy_header : list Z → option (IpAddr * Z) → Prop :=
| ph_local family payload :
    zlen payload <= 65535 →
    proxy_header (V2_SIGNATURE ++ [0x20; family] ++ be16_octets (zlen payload) ++ payload) None
| ph_tcp4 a d sport dport more :
    length a = 4%nat → length d = 4%nat → 0 <= sport <= 65535 → length dport = 2%nat →
    claimed_source_forbidden (V4 a) = false →
    let payload := a ++ d ++ be16_octets sport ++ dport ++ more in
    zlen payload <= 65535 →
    proxy_header (V2_SIGNATURE ++ [0x21; 0x11] ++ be16_octets (zlen payload) ++ payload) (Some (V4 a, sport))
| ph_tcp6 a d sport dport more :
    length a = 16%nat → length d = 16%nat → 0 <= sport <= 65535 → length dport = 2%nat →
    claimed_source_forbidden (V6 (segments a)) = false →
    let payload := a ++ d ++ be16_octets sport ++ dport ++ more in
    zlen payload <= 65535 →
    proxy_header (V2_SIGNATURE ++ [0x21; 0x21] ++ be16_octets (zlen payload) ++ payload) (Some (V6 (segments a), sport))
| ph_v1 text source :
    v1_text text source → utf8_valid text = true → 0x0a ∉ text → zlen text + 2 <= V1_MAX_LINE →
    proxy_header (text ++ CRLF) source.

(** ** Reads *)

Lemma read_spec want s :
  (1 <= want)%nat → ∃ n, (1 <= n <= want)%nat ∧ (read want s).1 = take n (pending s) ∧ pending (read want s).2 = drop n (pending s).
Proof. intros Hw. unfold read. destruct (sizes s) as [|k l]; [by exists want|]. exists (Nat.min want (S k)). split; [lia|done]. Qed.

Lemma read_to_spec fuel s buf total :
  (length buf <= total)%nat → (total - length buf <= fuel)%nat →
  let need := (total - length buf)%nat in
  if bool_decide (need <= length (pending s))%nat then
    (read_to fuel s buf total).1 = Some (buf ++ take need (pending s)) ∧
    pending (read_to fuel s buf total).2 = drop need (pending s)
  else (read_to fuel s buf total).1 = None.
Proof.
  revert s buf. induction fuel as [|fuel IH]; intros s buf Hb Hf; cbn [read_to].
  - replace (total - length buf)%nat with O by lia. rewrite bool_decide_true by lia.
    rewrite (proj2 (Nat.ltb_ge _ _)) by lia. by rewrite take_0, app_nil_r, drop_0.
  - destruct (Nat.ltb_spec (length buf) total) as [Hlt|Hge].
    2:{ replace (total - length buf)%nat with O by lia. rewrite bool_decide_true by lia. by rewrite take_0, app_nil_r, drop_0. }
    destruct (read_spec (Nat.min (total - length buf) V2_READ_CHUNK) s) as (n & Hn & Hgot & Hp).
    { assert (1 <= V2_READ_CHUNK)%nat by (unfold V2_READ_CHUNK; lia). lia. }
    destruct (read _ s) as [got s1]. cbn in Hgot, Hp. subst got.
    destruct (bool_decide_reflect (take n (pending s) = [])) as [E|E].
    { assert (Ep : pending s = []) by (destruct n; [lia|]; by destruct (pending s)). rewrite Ep.
      rewrite bool_decide_false by (cbn; lia). done. }
    assert (Hl : (length (take n (pending s)) = Nat.min n (length (pending s)))%nat) by apply length_take.
    specialize (IH s1 (buf ++ take n (pending s))). rewrite length_app, Hl, Hp, length_drop in IH.
    specialize (IH ltac:(lia) ltac:(destruct (pending s); [by destruct n|cbn in *; lia])). cbn zeta in IH |- *.
    destruct (Nat.le_gt_cases (total - length buf) (length (pending s))) as [Hle|Hgt].
    + rewrite bool_decide_true in IH |- * by lia. destruct IH as [-> ->].
      rewrite <-app_assoc, drop_drop. split; [|f_equal; lia]. do 2 f_equal.
      rewrite take_take_drop. f_equal. lia.
    + rewrite bool_decide_false in IH |- * by lia. done.
Qed.

Lemma read_line_spec fuel s line :
  ∃ p, (read_line fuel s line).1 = line ++ p ∧ pending s = p ++ pending (read_line fuel s line).2 ∧
    (length p <= fuel)%nat ∧ ∀ q b, p = q ++ [b] → 0x0a ∉ q.
Proof.
  revert s line. induction fuel as [|fuel IH]; intros s line; cbn [read_line].
  { exists []. rewrite app_nil_r. split_and!; [done|done|done|]. by intros [] ?. }
  destruct (read_spec 1 s) as (n & Hn & Hgot & Hp); [done|]. assert (n = 1)%nat as -> by lia.
  destruct (read 1 s) as [got s1]. cbn in Hgot, Hp. subst got.
  destruct (pending s) as [|b rest] eqn:E; cbn [take].
  { exists []. cbn [fst snd app]. rewrite app_nil_r, Hp. split_and!; [done|done|cbn; lia|]. by intros [] ?. }
  cbn in Hp. rewrite ?drop_0 in Hp. destruct (Z.eqb_spec b 0x0a) as [->|Hb].
  - exists [0x0a]. cbn. rewrite Hp. split_and!; [done|done|lia|]. intros [|y q] x Eq; [apply not_elem_of_nil|].
    injection Eq as _ Eq. by destruct q.
  - destruct (IH s1 (line ++ [b])) as (p & E1 & E2 & E3 & E4). exists (b :: p). rewrite E1, <-app_assoc.
    split_and!; [done|by rewrite <-Hp, E2|cbn; lia|]. intros [|x q] y Eq; [apply not_elem_of_nil|].
    injection Eq as <- Eq. apply not_elem_of_cons. split; [congruence|]. by eapply E4.
Qed.

(** A line that ends in time. *)
Lemma read_line_whole fuel s line q rest :
  pending s = q ++ [0x0a] ++ rest → 0x0a ∉ q → (length q < fuel)%nat →
  (read_line fuel s line).1 = line ++ q ++ [0x0a] ∧ pending (read_line fuel s line).2 = rest.
Proof.
  revert s line q. induction fuel as [|fuel IH]; intros s line q E Hq Hf; [lia|]. cbn [read_line].
  destruct (read_spec 1 s) as (n & Hn & Hgot & Hp); [done|]. assert (n = 1)%nat as -> by lia.
  destruct (read 1 s) as [got s1]. cbn in Hgot, Hp. subst got. rewrite E in Hp |- *.
  destruct q as [|b q]; cbn in Hp |- *; [by rewrite ?drop_0 in Hp|].
  apply not_elem_of_cons in Hq as [Hb Hq]. rewrite (proj2 (Z.eqb_neq b 0x0a)) by congruence.
  rewrite ?drop_0 in Hp. destruct (IH s1 (line ++ [b]) q) as [-> ->]; [done|done|cbn in Hf; lia|]. by rewrite <-app_assoc.
Qed.

Lemma read_to_cases fuel s buf total :
  (length buf <= total)%nat → (total - length buf <= fuel)%nat →
  (∃ s', read_to fuel s buf total = (None, s')) ∨
  ∃ got s', read_to fuel s buf total = (Some (buf ++ got), s') ∧ pending s = got ++ pending s' ∧
    length got = (total - length buf)%nat.
Proof.
  intros Hb Hf. pose proof (read_to_spec fuel s buf total Hb Hf) as H. cbn zeta in H.
  destruct (read_to fuel s buf total) as [r s']. cbn in H. case_bool_decide as Hn; [right|left; exists s'; by rewrite H].
  destruct H as [-> Hp]. eexists _, s'. split_and!; [done|by rewrite Hp, take_drop|]. rewrite length_take. lia.
Qed.

Lemma read_to_exact fuel s buf got rest :
  pending s = got ++ rest → (length got <= fuel)%nat →
  ∃ s', read_to fuel s buf (length buf + length got) = (Some (buf ++ got), s') ∧ pending s' = rest.
Proof.
  intros E Hf. pose proof (read_to_spec fuel s buf (length buf + length got) ltac:(lia) ltac:(lia)) as H. cbn zeta in H.
  replace (length buf + length got - length buf)%nat with (length got) in H by lia.
  rewrite bool_decide_true, E, take_app_length, drop_app_length in H by (rewrite E, length_app; lia).
  destruct (read_to _ _ _ _) as [r s']. cbn in H. destruct H as [-> <-]. by exists s'.
Qed.

(** ** The binary header *)

Lemma parse_v2_fields vc fam l1 l2 payload :
  zlen payload = be16 l1 l2 →
  parse_v2 (V2_SIGNATURE ++ [vc; fam; l1; l2] ++ payload) =
  if negb (Z.shiftr vc 4 =? 2) then None
  else if Z.land vc 0x0f =? 0 then Some {| src := None; consumed := 16 + zlen payload |}
  else if negb (Z.land vc 0x0f =? 1) then None
  else if negb (Z.land fam 0x0f =? 1) then None
  else
    source ← parse_v2_source (Z.shiftr fam 4) payload;
    if claimed_source_forbidden source.1 then None else Some {| src := Some source; consumed := 16 + zlen payload |}.
Proof.
  intros Hl. unfold parse_v2. cbn [V2_SIGNATURE app take at_ nth drop]. rewrite <-Hl.
  assert (Hz : zlen (13 :: 10 :: 13 :: 10 :: 0 :: 13 :: 10 :: 81 :: 85 :: 73 :: 84 :: 10 :: vc :: fam :: l1 :: l2 :: payload)
    = 16 + zlen payload) by (rewrite !zlen_cons; lia).
  rewrite Hz. pose proof (zlen_nonneg payload). rewrite (proj2 (Z.ltb_ge _ V2_HEADER_LEN)) by (unfold V2_HEADER_LEN; lia).
  rewrite bytes_eqb_refl. cbn [negb orb]. rewrite Z.ltb_irrefl || rewrite (proj2 (Z.ltb_ge _ (V2_HEADER_LEN + zlen payload))) by (unfold V2_HEADER_LEN; lia).
  rewrite drop_0, take_ge by (unfold zlen; lia). done.
Qed.

Lemma strip_v2 s vc fam l1 l2 payload rest :
  pending s = V2_SIGNATURE ++ [vc; fam; l1; l2] ++ payload ++ rest → zlen payload = be16 l1 l2 →
  ∃ s', read_and_strip s = (Some (parse_v2 (V2_SIGNATURE ++ [vc; fam; l1; l2] ++ payload)), s') ∧ pending s' = rest.
Proof.
  intros E Hl. unfold read_and_strip.
  destruct (read_to_exact 12 s [] V2_SIGNATURE _ E) as (s1 & R1 & E1); [done|]. cbn [length V2_SIGNATURE Nat.add app] in R1. rewrite R1.
  rewrite bytes_eqb_refl.
  destruct (read_to_exact 4 s1 V2_SIGNATURE [vc; fam; l1; l2] _ E1) as (s2 & R2 & E2); [done|].
  cbn [length V2_SIGNATURE Nat.add] in R2. rewrite R2. cbn [V2_SIGNATURE app at_ nth]. rewrite <-Hl.
  replace (Z.to_nat (zlen payload)) with (length payload) by (unfold zlen; lia).
  destruct (read_to_exact (length payload) s2 (V2_SIGNATURE ++ [vc; fam; l1; l2]) payload _ E2) as (s3 & R3 & E3); [done|].
  cbn [length V2_SIGNATURE Nat.add app] in R3. cbn [Nat.add]. rewrite R3. by exists s3.
Qed.

Lemma strip_inv s hd s' :
  read_and_strip s = (Some (Some hd), s') →
  (∃ vc fam l1 l2 payload, pending s = V2_SIGNATURE ++ [vc; fam; l1; l2] ++ payload ++ pending s' ∧
     length payload = Z.to_nat (be16 l1 l2) ∧ parse_v2 (V2_SIGNATURE ++ [vc; fam; l1; l2] ++ payload) = Some hd) ∨
  ∃ prefix p, pending s = prefix ++ p ++ pending s' ∧ length prefix = 12%nat ∧ (length p <= 95)%nat ∧
    (∀ q b, p = q ++ [b] → 0x0a ∉ q) ∧ parse_v1 (prefix ++ p) = Some hd.
Proof.
  unfold read_and_strip. destruct (read_to_cases 12 s [] 12) as [(s1 & ->)|(prefix & s1 & -> & E1 & L1)]; [cbn; lia|cbn; lia|done|].
  cbn [app]. destruct (bytes_eqb prefix V2_SIGNATURE) eqn:Es.
  - apply bytes_eqb_eq in Es as ->.
    destruct (read_to_cases 4 s1 V2_SIGNATURE 16) as [(s2 & ->)|(h & s2 & -> & E2 & L2)]; [cbn; lia|cbn; lia|done|].
    destruct h as [|vc [|fam [|l1 [|l2 [|]]]]]; try (cbn in L2; lia). cbn [V2_SIGNATURE app at_ nth].
    set (len := Z.to_nat (be16 l1 l2)).
    destruct (read_to_cases len s2 (V2_SIGNATURE ++ [vc; fam; l1; l2]) (16 + len)) as [(s3 & R3)|(payload & s3 & R3 & E3 & L3)];
      [cbn; lia|cbn; lia|cbn [V2_SIGNATURE app] in R3; by rewrite R3|].
    cbn [V2_SIGNATURE app] in R3. rewrite R3. intros [= Hp <-]. left. exists vc, fam, l1, l2, payload.
    split_and!; [by rewrite E1, E2, E3|cbn in L3; lia|exact Hp].
  - destruct (starts_with prefix _); [|done].
    pose proof (read_line_spec (Z.to_nat (V1_MAX_LINE - 12)) s1 prefix) as (p & Hl & Hp & Hn & Hq).
    destruct (read_line _ s1 prefix) as [line s2]. cbn in Hl, Hp. subst line. intros [= Hv <-]. right. exists prefix, p.
    split_and!; [by rewrite E1, Hp|cbn in L1; lia|exact Hn|done|done].
Qed.

Lemma be16_octets_be16 l1 l2 : is_byte l1 → is_byte l2 → be16_octets (be16 l1 l2) = [l1; l2].
Proof. unfold is_byte, be16_octets, be16. intros H1 H2. f_equal; [|f_equal]; Z.to_euclidean_division_equations; lia. Qed.

Lemma be16_be16_octets n : be16 (n / 256) (n mod 256) = n.
Proof. unfold be16. Z.to_euclidean_division_equations; lia. Qed.

Lemma nibbles v h l : Z.shiftr v 4 = h → Z.land v 0x0f = l → v = 16 * h + l.
Proof.
  rewrite Z.shiftr_div_pow2 by lia. change 0x0f with (Z.ones 4). rewrite Z.land_ones by lia. change (2 ^ 4) with 16.
  Z.to_euclidean_division_equations; lia.
Qed.

Lemma at_drop buf i : (i < length buf)%nat → drop i buf = at_ buf i :: drop (S i) buf.
Proof.
  intros Hi. unfold at_. apply drop_S. destruct (nth_lookup_or_length buf i 0) as [->|]; [done|lia].
Qed.

(** Two addresses of [k] octets and two ports. *)
Lemma payload_split k payload :
  (2 * k + 4 <= length payload)%nat →
  payload = take k payload ++ take k (drop k payload) ++ [at_ payload (2 * k); at_ payload (2 * k + 1)] ++
    take 2 (drop (2 * k + 2) payload) ++ drop (2 * k + 4) payload.
Proof.
  intros Hl. rewrite <-(take_drop k payload) at 1. f_equal. rewrite <-(take_drop k (drop k payload)) at 1. f_equal.
  rewrite drop_drop. replace (k + k)%nat with (2 * k)%nat by lia. rewrite at_drop by lia. cbn [app]. f_equal.
  replace (S (2 * k)) with (2 * k + 1)%nat by lia. rewrite at_drop by lia. f_equal.
  replace (S (2 * k + 1)) with (2 * k + 2)%nat by lia. rewrite <-(take_drop 2 (drop (2 * k + 2) payload)) at 1. f_equal.
  rewrite drop_drop. f_equal. lia.
Qed.

Lemma at_octet buf i : octets buf → is_byte (at_ buf i).
Proof.
  intros Ho. unfold at_. destruct (nth_in_or_default i buf 0) as [Hin| ->]; [|by unfold is_byte].
  rewrite Forall_forall in Ho. apply Ho. by apply list_elem_of_In.
Qed.

Lemma parse_v2_sound vc fam l1 l2 payload hd :
  octets (V2_SIGNATURE ++ [vc; fam; l1; l2] ++ payload) → length payload = Z.to_nat (be16 l1 l2) →
  parse_v2 (V2_SIGNATURE ++ [vc; fam; l1; l2] ++ payload) = Some hd →
  proxy_header (V2_SIGNATURE ++ [vc; fam; l1; l2] ++ payload) (src hd) ∧
  consumed hd = zlen (V2_SIGNATURE ++ [vc; fam; l1; l2] ++ payload).
Proof.
  intros Ho Hlen. rewrite !Forall_app in Ho. destruct Ho as (_ & Ho & Hp). rewrite !Forall_cons in Ho.
  destruct Ho as (_ & _ & H1 & H2 & _).
  assert (Hz : zlen payload = be16 l1 l2) by (unfold zlen, be16, is_byte in *; lia).
  rewrite parse_v2_fields by done. pose proof (be16_octets_be16 l1 l2 H1 H2) as Hb. rewrite <-Hz in Hb.
  assert (Hc : zlen (V2_SIGNATURE ++ [vc; fam; l1; l2] ++ payload) = 16 + zlen payload) by (rewrite !zlen_app; change (zlen V2_SIGNATURE) with 12; change (zlen [vc; fam; l1; l2]) with 4; lia).
  assert (Hmax : zlen payload <= 65535) by (rewrite Hz; unfold be16, is_byte in *; lia).
  destruct (Z.eqb_spec (Z.shiftr vc 4) 2) as [Ev|]; [|done]. cbn [negb].
  destruct (Z.eqb_spec (Z.land vc 0x0f) 0) as [E0|_].
  { intros [= <-]. cbn [src consumed]. split; [|done]. rewrite (nibbles vc 2 0 Ev E0).
    pose proof (ph_local fam payload Hmax) as H. by rewrite Hb in H. }
  destruct (Z.eqb_spec (Z.land vc 0x0f) 1) as [E1|]; [|done]. destruct (Z.eqb_spec (Z.land fam 0x0f) 1) as [Ef|]; [|done]. cbn [negb].
  rewrite (nibbles vc 2 1 Ev E1). unfold parse_v2_source.
  destruct (Z.eqb_spec (Z.shiftr fam 4) 1) as [E4|_]; [|destruct (Z.eqb_spec (Z.shiftr fam 4) 2) as [E6|_]; [|done]].
  - rewrite (nibbles fam 1 1 E4 Ef). destruct (Z.ltb_spec (zlen payload) 12) as [|Hl]; [done|]. cbn [mbind option_bind fst].
    destruct (claimed_source_forbidden _) eqn:Ec; [done|]. intros [= <-]. cbn [src consumed]. split; [|done].
    assert (Hlen' : (2 * 4 + 4 <= length payload)%nat) by (unfold zlen in Hl; lia).
    pose proof (ph_tcp4 (take 4 payload) (take 4 (drop 4 payload)) (be16 (at_ payload 8) (at_ payload 9))
      (take 2 (drop 10 payload)) (drop 12 payload)) as H. cbn zeta in H.
    pose proof (payload_split 4 payload Hlen') as Hsp. cbn [Nat.mul Nat.add] in Hsp.
    rewrite (be16_octets_be16 (at_ payload 8) (at_ payload 9)), <-Hsp, Hb in H
      by (by apply at_octet). apply H; try done; try (rewrite !length_take, ?length_drop; lia).
    pose proof (at_octet payload 8 Hp). pose proof (at_octet payload 9 Hp). unfold be16, is_byte in *. lia.
  - rewrite (nibbles fam 2 1 E6 Ef). destruct (Z.ltb_spec (zlen payload) 36) as [|Hl]; [done|]. cbn [mbind option_bind fst].
    destruct (claimed_source_forbidden _) eqn:Ec; [done|]. intros [= <-]. cbn [src consumed]. split; [|done].
    assert (Hlen' : (2 * 16 + 4 <= length payload)%nat) by (unfold zlen in Hl; lia).
    pose proof (ph_tcp6 (take 16 payload) (take 16 (drop 16 payload)) (be16 (at_ payload 32) (at_ payload 33))
      (take 2 (drop 34 payload)) (drop 36 payload)) as H. cbn zeta in H.
    pose proof (payload_split 16 payload Hlen') as Hsp. cbn [Nat.mul Nat.add] in Hsp.
    rewrite (be16_octets_be16 (at_ payload 32) (at_ payload 33)), <-Hsp, Hb in H
      by (by apply at_octet). apply H; try done; try (rewrite !length_take, ?length_drop; lia).
    pose proof (at_octet payload 32 Hp). pose proof (at_octet payload 33 Hp). unfold be16, is_byte in *. lia.
Qed.

(** The source of two addresses of [k] octets and two ports. *)
Lemma payload_source k a d sport dport more :
  length a = k → length d = k → 0 <= sport →
  let payload := a ++ d ++ be16_octets sport ++ dport ++ more in
  take k payload = a ∧ be16 (at_ payload (2 * k)) (at_ payload (2 * k + 1)) = sport.
Proof.
  intros Ha Hd Hs payload. unfold payload, at_. split; [by rewrite <-Ha; apply take_app_length|].
  rewrite !(app_nth2 a), !(app_nth2 d) by lia. rewrite Ha, Hd.
  replace (2 * k - k - k)%nat with O by lia. replace (2 * k + 1 - k - k)%nat with 1%nat by lia. apply be16_be16_octets.
Qed.

Lemma strip_binary s vc fam payload rest source :
  pending s = V2_SIGNATURE ++ [vc; fam] ++ be16_octets (zlen payload) ++ payload ++ rest →
  (vc = 0x20 ∧ source = None ∨
   vc = 0x21 ∧ Z.land fam 0x0f = 1 ∧ ∃ src, parse_v2_source (Z.shiftr fam 4) payload = Some src ∧
     claimed_source_forbidden src.1 = false ∧ source = Some src) →
  ∃ s', read_and_strip s = (Some (Some {| src := source;
      consumed := zlen (V2_SIGNATURE ++ [vc; fam] ++ be16_octets (zlen payload) ++ payload) |}), s') ∧ pending s' = rest.
Proof.
  intros E Hc. unfold be16_octets in *.
  destruct (strip_v2 s vc fam (zlen payload / 256) (zlen payload mod 256) payload rest) as (s' & -> & Hr); [done|by rewrite be16_be16_octets|].
  exists s'. split; [|done]. rewrite parse_v2_fields by (by rewrite be16_be16_octets).
  assert (Hz : 16 + zlen payload = zlen (V2_SIGNATURE ++ [vc; fam] ++ [zlen payload / 256; zlen payload mod 256] ++ payload)).
  { rewrite !zlen_app. change (zlen V2_SIGNATURE) with 12. change (zlen [vc; fam]) with 2.
    change (zlen [zlen payload / 256; zlen payload mod 256]) with 2. lia. }
  rewrite Hz. do 2 f_equal. destruct Hc as [[-> ->]|(-> & -> & src & Hp & Hf & ->)]; [done|]. cbn [negb Z.eqb]. rewrite Hp. cbn [mbind option_bind]. by rewrite Hf.
Qed.

(** ** The text header *)

Lemma strip_suffix_some p s r : strip_suffix p s = Some r ↔ s = r ++ p.
Proof.
  unfold strip_suffix. destruct (strip_prefix (rev p) (rev s)) as [x|] eqn:E; cbn.
  - apply strip_prefix_some in E. apply (f_equal (@rev Z)) in E. rewrite rev_app_distr, !rev_involutive in E. subst s.
    split; [by intros [= <-]|]. intros H. f_equal. by apply app_inj_2 in H as [].
  - split; [done|]. intros ->. rewrite rev_app_distr in E.
    assert (H : strip_prefix (rev p) (rev p ++ rev r) = Some (rev r)) by (by apply strip_prefix_some). congruence.
Qed.

Lemma parse_ip_chars family s d ip :
  parse_v1_ip family s d = Some ip →
  (family = bs "TCP4" ∨ family = bs "TCP6") ∧
  Forall (fun b => net.literal_char b = true) s ∧ Forall (fun b => net.literal_char b = true) d.
Proof.
  assert (H4 : ∀ x a, parse_ipv4 x = Some a → Forall (fun b => net.literal_char b = true) x).
  { intros x a. unfold parse_ipv4. destruct (15 <? zlen x); [done|]. destruct (read_ipv4_addr x) as [[o r]|] eqn:E; [|done].
    apply net.read_ipv4_literal in E as (u & -> & Hu). destruct r; [|done]. intros _. by rewrite app_nil_r. }
  unfold parse_v1_ip. destruct (bytes_eqb family (bs "TCP4")) eqn:E4; [|destruct (bytes_eqb family (bs "TCP6")) eqn:E6; [|done]].
  - apply bytes_eqb_eq in E4 as ->. destruct (parse_ipv4 s) eqn:Es; [|done]. destruct (parse_ipv4 d) eqn:Ed; [|done].
    intros _. split_and!; [by left|by eapply H4..].
  - apply bytes_eqb_eq in E6 as ->. destruct (parse_ipv6 s) eqn:Es; [|done]. destruct (parse_ipv6 d) eqn:Ed; [|done].
    intros _. split_and!; [by right|by eapply net.parse_ipv6_literal..].
Qed.

Lemma port_chars v n : parse_v1_port v = Some n → Forall (fun b => is_ascii_digit b = true) v.
Proof.
  unfold parse_v1_port. destruct (forallb is_ascii_digit v) eqn:E; [|by rewrite orb_true_r].
  intros _. rewrite forallb_forall in E. apply Forall_forall. intros x Hx. apply E. by apply list_elem_of_In.
Qed.

Lemma chars_exclude (P : Z → bool) c l : Forall (fun b => P b = true) l → P c = false → c ∉ l.
Proof. intros Hl Hc Hin. rewrite Forall_forall in Hl. apply Hl in Hin. congruence. Qed.

(** The pieces of a line with addresses have neither spaces nor line ends. *)
Lemma known_pieces family s d sport dport ip p c :
  parse_v1_ip family s d = Some ip → parse_v1_port sport = Some p → is_Some (parse_v1_port dport) →
  c = 0x20 ∨ c = 0x0a → Forall (fun x => c ∉ x) [bs "PROXY"; family; s; d; sport; dport].
Proof.
  intros (Hf & Hs & Hd)%parse_ip_chars Hp%port_chars [dp Hdp%port_chars] Hc.
  assert (Hl : net.literal_char c = false ∧ is_ascii_digit c = false) by (by destruct Hc as [->| ->]). destruct Hl as [Hl Hn].
  repeat (apply Forall_cons; split); [| | | | | |constructor].
  2:{ destruct Hf as [->| ->]; destruct Hc as [->| ->]; rewrite <-contains_false; done. }
  1:{ destruct Hc as [->| ->]; rewrite <-contains_false; done. }
  all: by eapply chars_exclude.
Qed.

Lemma join_excludes c sep xs : c ≠ sep → Forall (fun x => c ∉ x) xs → c ∉ join sep xs.
Proof.
  intros Hc. induction xs as [|x [|y xs] IH]; intros Hx; [apply not_elem_of_nil|by apply Forall_cons in Hx as []|].
  apply Forall_cons in Hx as [Hx Hxs]. change (join sep (x :: y :: xs)) with (x ++ sep :: join sep (y :: xs)).
  rewrite not_elem_of_app, not_elem_of_cons. split_and!; [done|done|by apply IH].
Qed.

Lemma starts_with_true s p : starts_with s p = true ↔ ∃ r, s = p ++ r.
Proof.
  unfold starts_with. destruct (strip_prefix p s) as [r|] eqn:E; split; try done.
  - intros _. exists r. by apply strip_prefix_some.
  - intros [r Hr%strip_prefix_some]. congruence.
Qed.

Lemma parse_v1_complete text source :
  v1_text text source → utf8_valid text = true →
  parse_v1 (text ++ CRLF) = Some {| src := source; consumed := zlen text + 2 |}.
Proof.
  intros Ht Hu. unfold parse_v1, strip_crlf. rewrite (proj2 (strip_suffix_some CRLF (text ++ CRLF) text) eq_refl).
  cbn [mbind option_bind]. rewrite Hu. cbn [negb]. destruct Ht as [tail Htail|family s d sport dport ip p Hip Hsp Hdp Hf].
  - assert (Hun : strip_prefix (bs "PROXY ") (bs "PROXY UNKNOWN" ++ tail) = Some (bs "UNKNOWN" ++ tail)) by (by apply strip_prefix_some).
    rewrite Hun. cbn [mbind option_bind].
    destruct Htail as [->|[r ->]%starts_with_true]; [by rewrite app_nil_r|].
    rewrite (proj2 (starts_with_true (bs "UNKNOWN" ++ bs " " ++ r) (bs "UNKNOWN "))) by (by exists r). by rewrite orb_true_r.
  - assert (Hfam : strip_prefix (bs "PROXY ") (join 0x20 [bs "PROXY"; family; s; d; sport; dport]) =
      Some (join 0x20 [family; s; d; sport; dport])) by (by apply strip_prefix_some).
    rewrite Hfam. cbn [mbind option_bind]. rewrite split_join by (done || by eapply known_pieces; [..|by left]).
    assert (Hno : bytes_eqb (join 0x20 [family; s; d; sport; dport]) (bs "UNKNOWN")
      || starts_with (join 0x20 [family; s; d; sport; dport]) (bs "UNKNOWN ") = false).
    { pose proof (parse_ip_chars _ _ _ _ Hip) as [[->| ->] _]; done. }
    rewrite Hno, bytes_eqb_refl, Hsp. cbn [negb mbind option_bind]. destruct Hdp as [dp ->]. cbn [mbind option_bind].
    rewrite Hip. cbn [mbind option_bind]. by rewrite Hf.
Qed.

Lemma parse_v1_sound line hd :
  parse_v1 line = Some hd →
  ∃ text, line = text ++ CRLF ∧ utf8_valid text = true ∧ v1_text text (src hd) ∧ consumed hd = zlen text + 2.
Proof.
  unfold parse_v1, strip_crlf. destruct (strip_suffix CRLF line) as [text|] eqn:El; [|done]. apply strip_suffix_some in El as ->.
  cbn [mbind option_bind]. destruct (utf8_valid text) eqn:Hu; [|done]. cbn [negb].
  destruct (strip_prefix (bs "PROXY ") text) as [fields|] eqn:Ef; [|done]. apply strip_prefix_some in Ef. cbn [mbind option_bind].
  destruct (_ || _) eqn:Eun.
  - intros [= <-]. exists text. split_and!; [done|done| |done]. cbn [src]. apply orb_true_iff in Eun as [E|E].
    + apply bytes_eqb_eq in E. subst. apply (v1_unknown []). by left.
    + apply starts_with_true in E as [r ->]. subst. apply (v1_unknown (bs " " ++ r)). right. apply starts_with_true. by exists r.
  - destruct (split 0x20 text) as [|proxy [|family [|s [|d [|sport [|dport [|]]]]]]] eqn:Es; try done.
    destruct (bytes_eqb proxy (bs "PROXY")) eqn:Ep; [|done]. apply bytes_eqb_eq in Ep as ->. cbn [negb].
    destruct (parse_v1_port sport) as [p|] eqn:Hsp; [|done]. destruct (parse_v1_port dport) eqn:Hdp; [|done]. cbn [mbind option_bind].
    destruct (parse_v1_ip family s d) as [ip|] eqn:Hip; [|done]. cbn [mbind option_bind].
    destruct (claimed_source_forbidden ip) eqn:Hf; [done|]. intros [= <-]. exists text. split_and!; [done|done| |done].
    rewrite <-(join_split 0x20 text), Es. by eapply v1_known.
Qed.

(** No line end before the last octet. *)
Lemma v1_text_one_line text source prefix p :
  v1_text text source → text ++ CRLF = prefix ++ p → length prefix = 12%nat → (∀ q b, p = q ++ [b] → 0x0a ∉ q) → 0x0a ∉ text.
Proof.
  intros Ht E Hl Hq. destruct Ht as [tail _|family s d sport dport ip q Hip Hsp Hdp _].
  - apply (f_equal (drop 12)) in E. rewrite <-Hl, drop_app_length, Hl in E. change (bs "N" ++ tail ++ CRLF = p) in E. subst p.
    specialize (Hq (bs "N" ++ tail ++ [0x0d]) 0x0a). rewrite <-!app_assoc in Hq.
    specialize (Hq eq_refl). rewrite not_elem_of_app. split; [by rewrite <-contains_false|].
    intros Hin. apply Hq. apply elem_of_app. right. apply elem_of_app. by left.
  - apply join_excludes; [done|]. eapply known_pieces; [done..|by right].
Qed.

Lemma v1_text_long text source : v1_text text source → ∃ rest, text = bs "PROXY " ++ rest ∧ (12 <= length text)%nat.
Proof.
  intros [tail _|family s d sport dport ip q Hip _ _ _].
  - exists (bs "UNKNOWN" ++ tail). split; [done|]. rewrite length_app. cbn. lia.
  - exists (join 0x20 [family; s; d; sport; dport]). split; [done|].
    pose proof (parse_ip_chars _ _ _ _ Hip) as [[->| ->] _]; cbn [join]; rewrite !length_app; cbn [length];
      rewrite ?length_app; cbn; rewrite ?length_app; cbn; lia.
Qed.

Lemma strip_text s text source rest :
  pending s = (text ++ CRLF) ++ rest → v1_text text source → utf8_valid text = true → 0x0a ∉ text →
  zlen text + 2 <= V1_MAX_LINE →
  ∃ s', read_and_strip s = (Some (Some {| src := source; consumed := zlen (text ++ CRLF) |}), s') ∧ pending s' = rest.
Proof.
  intros E Ht Hu Hlf Hmax. destruct (v1_text_long _ _ Ht) as (fields & Ef & Hlong). unfold read_and_strip.
  assert (Es : pending s = take 12 text ++ drop 12 text ++ [0x0d] ++ [0x0a] ++ rest).
  { by rewrite E, <-app_assoc, (app_assoc (take 12 text)), take_drop. }
  assert (Hl12 : length (take 12 text) = 12%nat) by (rewrite length_take; lia).
  destruct (read_to_exact 12 s [] (take 12 text) _ Es) as (s1 & R1 & E1); [lia|]. cbn [length Nat.add app] in R1.
  rewrite Hl12 in R1. rewrite R1.
  assert (Hsig : bytes_eqb (take 12 text) V2_SIGNATURE = false) by (rewrite Ef; by apply bytes_eqb_neq).
  assert (Hst : starts_with (take 12 text) (bs "PROXY ") = true) by (rewrite Ef; by apply starts_with_true; eexists).
  rewrite Hsig, Hst. rewrite (app_assoc (drop 12 text)) in E1.
  destruct (read_line_whole (Z.to_nat (V1_MAX_LINE - 12)) s1 (take 12 text) (drop 12 text ++ [0x0d]) rest E1) as [L1 L2].
  - rewrite not_elem_of_app. split; [|by rewrite <-contains_false]. intros Hin. apply Hlf. rewrite <-(take_drop 12 text).
    apply elem_of_app. by right.
  - rewrite length_app, length_drop. unfold zlen in Hmax. cbn. lia.
  - destruct (read_line _ s1 _) as [line s2]. cbn in L1, L2. exists s2. split; [|done]. do 2 f_equal. subst line.
    rewrite <-app_assoc, app_assoc, take_drop. change ([0x0d] ++ [0x0a]) with CRLF. rewrite zlen_app. by apply parse_v1_complete.
Qed.


(** A header of 28 octets and a request behind it, in reads of at most five octets. *)
Definition example_socket : Socket :=
  {| pending := V2_SIGNATURE ++ [0x21; 0x11] ++ be16_octets 12 ++ [203; 0; 113; 9] ++ [10; 0; 0; 1] ++ be16_octets 8080 ++ [0; 80]
       ++ bs "GET / HTTP/1.1"; sizes := replicate 40 4%nat |}.


End proxy_protocol.
