(* ===== verification/Qpack.v ===== *)
(** * QPACK field sections: [crates/httpjet/src/uring/qpack.rs] and the encoder of
    [crates/httpjet/src/uring/h3.rs]

    HTTP/3 field sections over the static table, literals and Huffman strings; the
    dynamic table is never used. A reader advances [*pos] through [buf]; the model carries
    [buf[*pos..]], the input still to be read. A writer appends to [out]; the model gives
    the octets appended. *)

From stdpp Require Import base list gmap strings.
From Stdlib Require Import ZArith Lia.
From S2P Require Import Prelude HpackInteger HuffmanDecode.

Module qpack.

(** A decoded field: name and value. *)
Abbreviation Field := (list Z * list Z)%type.

Definition QPACK_STATIC : list Field :=
  [
    (bs ":authority", bs "");
    (bs ":path", bs "/");
    (bs "age", bs "0");
    (bs "content-disposition", bs "");
    (bs "content-length", bs "0");
    (bs "cookie", bs "");
    (bs "date", bs "");
    (bs "etag", bs "");
    (bs "if-modified-since", bs "");
    (bs "if-none-match", bs "");
    (bs "last-modified", bs "");
    (bs "link", bs "");
    (bs "location", bs "");
    (bs "referer", bs "");
    (bs "set-cookie", bs "");
    (bs ":method", bs "CONNECT");
    (bs ":method", bs "DELETE");
    (bs ":method", bs "GET");
    (bs ":method", bs "HEAD");
    (bs ":method", bs "OPTIONS");
    (bs ":method", bs "POST");
    (bs ":method", bs "PUT");
    (bs ":scheme", bs "http");
    (bs ":scheme", bs "https");
    (bs ":status", bs "103");
    (bs ":status", bs "200");
    (bs ":status", bs "304");
    (bs ":status", bs "404");
    (bs ":status", bs "503");
    (bs "accept", bs "*/*");
    (bs "accept", bs "application/dns-message");
    (bs "accept-encoding", bs "gzip, deflate, br");
    (bs "accept-ranges", bs "bytes");
    (bs "access-control-allow-headers", bs "cache-control");
    (bs "access-control-allow-headers", bs "content-type");
    (bs "access-control-allow-origin", bs "*");
    (bs "cache-control", bs "max-age=0");
    (bs "cache-control", bs "max-age=2592000");
    (bs "cache-control", bs "max-age=604800");
    (bs "cache-control", bs "no-cache");
    (bs "cache-control", bs "no-store");
    (bs "cache-control", bs "public, max-age=31536000");
    (bs "content-encoding", bs "br");
    (bs "content-encoding", bs "gzip");
    (bs "content-type", bs "application/dns-message");
    (bs "content-type", bs "application/javascript");
    (bs "content-type", bs "application/json");
    (bs "content-type", bs "application/x-www-form-urlencoded");
    (bs "content-type", bs "image/gif");
    (bs "content-type", bs "image/jpeg");
    (bs "content-type", bs "image/png");
    (bs "content-type", bs "text/css");
    (bs "content-type", bs "text/html; charset=utf-8");
    (bs "content-type", bs "text/plain");
    (bs "content-type", bs "text/plain;charset=utf-8");
    (bs "range", bs "bytes=0-");
    (bs "strict-transport-security", bs "max-age=31536000");
    (bs "strict-transport-security", bs "max-age=31536000; includesubdomains");
    (bs "strict-transport-security", bs "max-age=31536000; includesubdomains; preload");
    (bs "vary", bs "accept-encoding");
    (bs "vary", bs "origin");
    (bs "x-content-type-options", bs "nosniff");
    (bs "x-xss-protection", bs "1; mode=block");
    (bs ":status", bs "100");
    (bs ":status", bs "204");
    (bs ":status", bs "206");
    (bs ":status", bs "302");
    (bs ":status", bs "400");
    (bs ":status", bs "403");
    (bs ":status", bs "421");
    (bs ":status", bs "425");
    (bs ":status", bs "500");
    (bs "accept-language", bs "");
    (bs "access-control-allow-credentials", bs "FALSE");
    (bs "access-control-allow-credentials", bs "TRUE");
    (bs "access-control-allow-headers", bs "*");
    (bs "access-control-allow-methods", bs "get");
    (bs "access-control-allow-methods", bs "get, post, options");
    (bs "access-control-allow-methods", bs "options");
    (bs "access-control-expose-headers", bs "content-length");
    (bs "access-control-request-headers", bs "content-type");
    (bs "access-control-request-method", bs "get");
    (bs "access-control-request-method", bs "post");
    (bs "alt-svc", bs "clear");
    (bs "authorization", bs "");
    (bs "content-security-policy", bs "script-src 'none'; object-src 'none'; base-uri 'none'");
    (bs "early-data", bs "1");
    (bs "expect-ct", bs "");
    (bs "forwarded", bs "");
    (bs "if-range", bs "");
    (bs "origin", bs "");
    (bs "purpose", bs "prefetch");
    (bs "server", bs "");
    (bs "timing-allow-origin", bs "*");
    (bs "upgrade-insecure-requests", bs "1");
    (bs "user-agent", bs "");
    (bs "x-forwarded-for", bs "");
    (bs "x-frame-options", bs "deny");
    (bs "x-frame-options", bs "sameorigin")
  ].

(** ** The reader *)

(** The [loop] of [qpack_read_int]: one octet a round. *)
Fixpoint qpack_read_tail (buf : list Z) (val m : Z) : option (Z * list Z) :=
  match buf with
  | [] => None
  | b :: buf' =>
      match checked_add val (u64 (Z.shiftl (Z.land b 0x7f) m)) with
      | None => None
      | Some val' =>
          if Z.land b 0x80 =? 0 then Some (val', buf')
          else
            let m' := m + 7 in
            if 62 <? m' then None else qpack_read_tail buf' val' m'
      end
  end.

Definition qpack_read_int (buf : list Z) (prefix_bits : Z) : option (Z * list Z) :=
  match buf with
  | [] => None
  | first :: buf' =>
      let max := Z.shiftl 1 prefix_bits - 1 in
      let val := Z.land first max in
      if val <? max then Some (val, buf') else qpack_read_tail buf' val 0
  end.

Definition qpack_read_str_limited (buf : list Z) (prefix_bits max_output : Z) :
    option (list Z * list Z) :=
  match buf with
  | [] => None
  | first :: _ =>
      let huff := Z.land (Z.shiftr first prefix_bits) 1 =? 1 in
      match qpack_read_int buf prefix_bits with
      | None => None
      | Some (len, rest) =>
          if zlen rest <? len then None
          else
            let raw := take (Z.to_nat len) rest in
            let rest' := drop (Z.to_nat len) rest in
            if huff then
              match huffman_decode.decode_limited raw max_output with
              | Some s => Some (s, rest')
              | None => None
              end
            else if zlen raw <=? max_output then Some (raw, rest') else None
      end
  end.

(** One round of [while pos < buf.len()]: the field line at [buf], which is not empty. *)
Definition qpack_decode_line (buf : list Z) (decoded_size max_field_section_size : Z) :
    option (Field * Z * list Z) :=
  match buf with
  | [] => None
  | first :: _ =>
      if negb (Z.land first 0x80 =? 0) then
        let is_static := Z.land (Z.shiftr first 6) 1 =? 1 in
        '(idx, rest) ← qpack_read_int buf 6;
        if negb is_static then None
        else
          '(n, v) ← QPACK_STATIC !! Z.to_nat idx;
          s1 ← checked_add decoded_size (zlen n);
          s2 ← checked_add s1 (zlen v);
          s3 ← checked_add s2 32;
          if max_field_section_size <? s3 then None else Some ((n, v), s3, rest)
      else if negb (Z.land first 0x40 =? 0) then
        let is_static := Z.land (Z.shiftr first 4) 1 =? 1 in
        '(idx, rest) ← qpack_read_int buf 4;
        if negb is_static then None
        else
          '(name_bytes, _) ← QPACK_STATIC !! Z.to_nat idx;
          b1 ← checked_add decoded_size (zlen name_bytes);
          base ← checked_add b1 32;
          if max_field_section_size <? base then None
          else
            '(value, rest') ← qpack_read_str_limited rest 7 (max_field_section_size - base);
            size ← checked_add base (zlen value);
            Some ((name_bytes, value), size, rest')
      else if negb (Z.land first 0x20 =? 0) then
        base ← checked_add decoded_size 32;
        if max_field_section_size <? base then None
        else
          '(name, rest) ← qpack_read_str_limited buf 3 (max_field_section_size - base);
          with_name ← checked_add base (zlen name);
          '(value, rest') ← qpack_read_str_limited rest 7 (max_field_section_size - with_name);
          size ← checked_add with_name (zlen value);
          Some ((name, value), size, rest')
      else None
  end.

(** The loop. Every round reads an octet, so a round per octet is enough
    ([decode_lines_fuel]). *)
Fixpoint qpack_decode_lines (fuel : nat) (buf : list Z) (out : list Field)
    (decoded_size max_field_section_size : Z) : option (list Field * Z) :=
  match fuel, buf with
  | _, [] => Some (out, decoded_size)
  | O, _ => None
  | S fuel', _ =>
      '(f, size, rest) ← qpack_decode_line buf decoded_size max_field_section_size;
      qpack_decode_lines fuel' rest (out ++ [f]) size max_field_section_size
  end.

Definition qpack_decode_limited (buf : list Z) (max_field_section_size : Z) :
    option (list Field * Z) :=
  '(ric, rest) ← qpack_read_int buf 8;
  if negb (ric =? 0) then None
  else
    let delta_sign_negative :=
      match rest with b :: _ => Z.shiftr b 7 =? 1 | [] => false end in
    '(base, rest') ← qpack_read_int rest 7;
    if negb (base =? 0) || delta_sign_negative then None
    else qpack_decode_lines (length rest') rest' [] 0 max_field_section_size.

(** ** The writer *)

(** The loop [while val >= 128], at most ten rounds on a [u64]. *)
Definition qpack_int (flags prefix_bits val : Z) : list Z :=
  let max := Z.shiftl 1 prefix_bits - 1 in
  if val <? max then [Z.lor flags (u8 val)]
  else Z.lor flags (u8 max) :: integer.encode_tail integer.encode_rounds (val - max).

Definition qpack_literal (name value : list Z) : list Z :=
  qpack_int 0x20 3 (zlen name) ++ name ++ qpack_int 0x00 7 (zlen value) ++ value.

Record QpackNameEntry := { name_idx : Z; values : list (list Z * Z) }.

(** The body of the loop that builds the map: [entry(name).or_insert(..)], then the push. *)
Definition add_static (by_name : gmap (list Z) QpackNameEntry) (e : Z * Field) :
    gmap (list Z) QpackNameEntry :=
  let '(i, (name, value)) := e in
  let entry := default {| name_idx := u8 i; values := [] |} (by_name !! name) in
  let entry :=
    if negb (bytes_eqb value []) then
      {| name_idx := name_idx entry; values := values entry ++ [(value, u8 i)] |}
    else entry in
  <[name := entry]> by_name.

Definition qpack_encode_map : gmap (list Z) QpackNameEntry :=
  fold_left add_static (huffman_decode.enumerate QPACK_STATIC) ∅.

Definition qpack_field (name value : list Z) : list Z :=
  match qpack_encode_map !! name with
  | Some entry =>
      match List.find (fun vi => bytes_eqb vi.1 value) (values entry) with
      | Some (_, idx) => qpack_int 0xc0 6 idx
      | None =>
          qpack_int 0x50 4 (name_idx entry) ++ qpack_int 0x00 7 (zlen value) ++ value
      end
  | None => qpack_literal name value
  end.

(** The field section of [encode_h3_headers_frame]: the prefix and the field lines. *)
Definition field_lines (fields : list Field) : list Z :=
  concat ((fun f => qpack_field f.1 f.2) <$> fields).

Definition field_section (fields : list Field) : list Z := [0x00; 0x00] ++ field_lines fields.

(** ** Lemmas *)

(** RFC 9114's size of a field section. *)
Definition field_size (f : Field) : Z := zlen f.1 + zlen f.2 + 32.
Definition section_size (fields : list Field) : Z := foldr (fun f s => field_size f + s) 0 fields.

Lemma section_size_nonneg fs : 0 <= section_size fs.
Proof.
  induction fs as [|f fs IH]; simpl; [lia|].
  unfold field_size. pose proof (zlen_nonneg f.1). pose proof (zlen_nonneg f.2). lia.
Qed.

Lemma section_size_app fs gs : section_size (fs ++ gs) = section_size fs + section_size gs.
Proof. induction fs as [|f fs IH]; simpl; [done|]. lia. Qed.

(** The integers are HPACK's. *)
Lemma read_tail_decode buf val k :
  (k ≤ 8)%nat →
  qpack_read_tail buf val (7 * Z.of_nat k) = integer.decode_tail buf val (7 * Z.of_nat k).
Proof.
  revert val k. induction buf as [|b buf IH]; intros val k Hk; [done|].
  cbn [qpack_read_tail integer.decode_tail].
  rewrite (proj2 (Z.ltb_ge 56 (7 * Z.of_nat k))) by lia. rewrite andb_false_l.
  destruct (checked_add _ _) as [val'|]; [|done]. case_if; [done|]. cbv zeta.
  destruct (decide (k = 8)%nat) as [->|]; [done|].
  replace (7 * Z.of_nat k + 7) with (7 * Z.of_nat (S k)) by lia.
  rewrite !(proj2 (Z.ltb_ge _ _)) by lia. apply IH. lia.
Qed.

Lemma read_int_decode buf n :
  1 <= n <= 8 → qpack_read_int buf n = integer.decode buf n.
Proof.
  intros Hn. destruct buf as [|b buf]; [done|]. unfold qpack_read_int, integer.decode.
  rewrite shiftl_1_sub_1. cbv zeta.
  assert (Hb : Z.land b (Z.ones n) < 2 ^ n)
    by (rewrite Z.land_ones by lia; apply Z.mod_pos_bound, Z.pow_pos_nonneg; lia).
  destruct (integer.prefix_max_bounds n Hn) as [_ Hm]. case_if; [done|].
  replace (Z.land b (Z.ones n)) with (Z.ones n) by lia. apply (read_tail_decode _ _ 0). lia.
Qed.

Lemma qpack_int_encode flags n v : qpack_int flags n v = integer.encode v n flags.
Proof. done. Qed.

Lemma read_int_written flags n v rest :
  integer.flag_ok n flags → 0 <= v < 2 ^ 63 →
  qpack_read_int (qpack_int flags n v ++ rest) n = Some (v, rest).
Proof.
  intros Hf Hv. rewrite read_int_decode by apply Hf. rewrite qpack_int_encode.
  by apply integer.decode_encode_len.
Qed.

(** The first octet of an integer: the flags above the prefix. *)
Lemma qpack_int_head flags n v :
  1 <= n <= 8 → 0 <= v →
  ∃ x tl, qpack_int flags n v = Z.lor flags x :: tl ∧ 0 <= x < 2 ^ n.
Proof.
  intros Hn Hv. destruct (integer.prefix_max_bounds n Hn) as [Hm Hm'].
  unfold qpack_int. rewrite shiftl_1_sub_1. cbv zeta. case_if.
  - exists v, []. rewrite (wrap_id 8) by lia. split; [done|lia].
  - eexists (Z.ones n), _. rewrite (wrap_id 8) by lia. split; [done|lia].
Qed.

Lemma flag_land flags x n k :
  0 <= x < 2 ^ n → 0 <= n <= k → Z.land (Z.lor flags x) (2 ^ k) = Z.land flags (2 ^ k).
Proof.
  intros Hx Hk. apply Z.bits_inj'. intros i Hi. rewrite !Z.land_spec, Z.lor_spec.
  rewrite Z.pow2_bits_eqb by lia. destruct (Z.eqb_spec k i) as [->|]; [|by rewrite !andb_false_r].
  by rewrite (testbit_above n x i), orb_false_r by lia.
Qed.

Lemma flag_shift flags x n k :
  0 <= x < 2 ^ n → 0 <= n <= k →
  Z.land (Z.shiftr (Z.lor flags x) k) 1 = Z.land (Z.shiftr flags k) 1.
Proof.
  intros Hx Hk. apply Z.bits_inj'. intros i Hi.
  rewrite !Z.land_spec, !Z.shiftr_spec, Z.lor_spec by lia.
  by rewrite (testbit_above n x (i + k)), orb_false_r by lia.
Qed.

(** Reading back a string written without Huffman coding. *)
Lemma read_str_written flags n s rest m :
  integer.flag_ok n flags → Z.land (Z.shiftr flags n) 1 = 0 → zlen s < 2 ^ 63 →
  qpack_read_str_limited (qpack_int flags n (zlen s) ++ s ++ rest) n m =
  if zlen s <=? m then Some (s, rest) else None.
Proof.
  intros Hf Hh Hs. pose proof (zlen_nonneg s).
  destruct (qpack_int_head flags n (zlen s)) as (x & tl & E & Hx); [apply Hf|done|].
  unfold qpack_read_str_limited. rewrite read_int_written by (done || lia).
  rewrite E. cbn [app]. rewrite (flag_shift _ _ n) by (destruct Hf; lia). rewrite Hh.
  change (0 =? 1) with false. cbv zeta iota.
  rewrite zlen_app, (proj2 (Z.ltb_ge _ _)) by (pose proof (zlen_nonneg rest); lia).
  replace (Z.to_nat (zlen s)) with (length s) by (unfold zlen; lia).
  by rewrite take_app_length, drop_app_length.
Qed.

(** ** The two views of the static table *)

(** The index [i] of the table holds [f]. *)
Definition static_at (i : Z) (f : Field) : bool :=
  (0 <=? i) && bool_decide (QPACK_STATIC !! Z.to_nat i = Some f) && (i <? 99).

Definition entry_ok (ne : list Z * QpackNameEntry) : bool :=
  match QPACK_STATIC !! Z.to_nat (name_idx ne.2) with
  | Some f => static_at (name_idx ne.2) (ne.1, f.2)
  | None => false
  end && forallb (fun vi => static_at vi.2 (ne.1, vi.1)) (values ne.2).

Lemma encode_map_checked : forallb entry_ok (map_to_list qpack_encode_map) = true.
Proof. vm_compute. reflexivity. Qed.

Lemma encode_map_entry name e :
  qpack_encode_map !! name = Some e → entry_ok (name, e) = true.
Proof.
  intros H. apply elem_of_map_to_list, list_elem_of_In in H.
  exact (proj1 (forallb_forall _ _) encode_map_checked _ H).
Qed.

Lemma static_at_spec i f :
  static_at i f = true → 0 <= i < 99 ∧ QPACK_STATIC !! Z.to_nat i = Some f.
Proof. unfold static_at. intros. by bool_hyps. Qed.

Lemma encode_map_name name e :
  qpack_encode_map !! name = Some e →
  0 <= name_idx e < 99 ∧ ∃ v, QPACK_STATIC !! Z.to_nat (name_idx e) = Some (name, v).
Proof.
  intros H. apply encode_map_entry in H. unfold entry_ok in H. cbn [fst snd] in H.
  apply andb_true_iff in H as [H _].
  destruct (QPACK_STATIC !! _) as [f|] eqn:E; [|done].
  apply static_at_spec in H as [Hi Hf]. split; [done|]. exists f.2. congruence.
Qed.

Lemma encode_map_value name e v i :
  qpack_encode_map !! name = Some e →
  List.find (fun vi => bytes_eqb vi.1 v) (values e) = Some i →
  0 <= i.2 < 99 ∧ QPACK_STATIC !! Z.to_nat i.2 = Some (name, v).
Proof.
  intros H Hf. apply encode_map_entry in H. unfold entry_ok in H. cbn [fst snd] in H.
  apply andb_true_iff in H as [_ H]. apply List.find_some in Hf as [Hin Hv].
  unfold bytes_eqb in Hv. bool_hyps. subst v.
  by apply static_at_spec, (proj1 (forallb_forall _ _) H).
Qed.

(** ** A field line, read back *)

Definition line_result (f : Field) (rest : list Z) (size limit : Z) : option (Field * Z * list Z) :=
  if size + field_size f <=? limit then Some (f, size + field_size f, rest) else None.

Lemma checked_add_cases a b :
  (checked_add a b = Some (a + b) ∧ a + b <= U64_MAX) ∨ (checked_add a b = None ∧ U64_MAX < a + b).
Proof. unfold checked_add. case_if; [left|right]; done. Qed.

(** Follows the checked additions and the tests of the limit: a sum above the limit is
    refused by the addition or by a later test. *)
Ltac checked_line :=
  repeat (cbn [mbind option_bind fst snd]; match goal with
  | |- context [checked_add ?a ?b ≫= _] => destruct (checked_add_cases a b) as [[-> ?]|[-> ?]]
  | |- context [qpack_read_str_limited (qpack_int _ _ _ ++ _ ++ _) _ _] =>
      rewrite read_str_written by (done || auto with hj)
  | |- context [if _ <? _ then _ else _] => case_if
  | |- context [if _ <=? _ then _ else _] => case_if
  | |- None = None => done
  | |- Some _ = None => lia
  | |- None = Some _ => lia
  | |- Some _ = Some _ => do 3 f_equal; lia
  end).

Lemma line_indexed idx f rest size limit :
  0 <= idx < 99 → QPACK_STATIC !! Z.to_nat idx = Some f → 0 <= size → limit <= U64_MAX →
  qpack_decode_line (qpack_int 0xc0 6 idx ++ rest) size limit = line_result f rest size limit.
Proof.
  intros Hi Hf Hs Hl. destruct (qpack_int_head 0xc0 6 idx) as (x & tl & E & Hx); [lia..|].
  unfold qpack_decode_line. rewrite read_int_written by (auto with hj || lia).
  rewrite E. cbn [app]. change 0x80 with (2 ^ 7). rewrite (flag_land _ _ 6), (flag_shift _ _ 6 6) by lia.
  change (negb (Z.land 0xc0 (2 ^ 7) =? 0)) with true.
  change (negb (Z.land (Z.shiftr 0xc0 6) 1 =? 1)) with false. cbn [mbind option_bind].
  rewrite Hf. destruct f as [n v]. pose proof (zlen_nonneg n). pose proof (zlen_nonneg v).
  unfold line_result, field_size. checked_line.
Qed.

Lemma line_name_ref idx n v0 v rest size limit :
  0 <= idx < 99 → QPACK_STATIC !! Z.to_nat idx = Some (n, v0) → zlen v < 2 ^ 63 →
  0 <= size → limit <= U64_MAX →
  qpack_decode_line (qpack_int 0x50 4 idx ++ qpack_int 0x00 7 (zlen v) ++ v ++ rest) size limit =
  line_result (n, v) rest size limit.
Proof.
  intros Hi Hf Hv Hs Hl. destruct (qpack_int_head 0x50 4 idx) as (x & tl & E & Hx); [lia..|].
  unfold qpack_decode_line. rewrite read_int_written by (auto with hj || lia).
  rewrite E. cbn [app]. change 0x80 with (2 ^ 7). change 0x40 with (2 ^ 6).
  rewrite !(flag_land _ _ 4), (flag_shift _ _ 4 4) by lia.
  change (negb (Z.land 0x50 (2 ^ 7) =? 0)) with false.
  change (negb (Z.land 0x50 (2 ^ 6) =? 0)) with true.
  change (negb (Z.land (Z.shiftr 0x50 4) 1 =? 1)) with false. cbn [mbind option_bind].
  rewrite Hf. pose proof (zlen_nonneg n). pose proof (zlen_nonneg v).
  unfold line_result, field_size. checked_line.
Qed.

Lemma line_literal n v rest size limit :
  zlen n < 2 ^ 63 → zlen v < 2 ^ 63 → 0 <= size → limit <= U64_MAX →
  qpack_decode_line (qpack_literal n v ++ rest) size limit = line_result (n, v) rest size limit.
Proof.
  intros Hn Hv Hs Hl. pose proof (zlen_nonneg n). pose proof (zlen_nonneg v).
  destruct (qpack_int_head 0x20 3 (zlen n)) as (x & tl & E & Hx); [lia..|].
  unfold qpack_literal. rewrite <-!app_assoc. unfold qpack_decode_line.
  rewrite E at 1. cbn [app]. change 0x80 with (2 ^ 7). change 0x40 with (2 ^ 6).
  change (Z.land (Z.lor 0x20 x) 0x20) with (Z.land (Z.lor 0x20 x) (2 ^ 5)).
  rewrite !(flag_land _ _ 3) by lia.
  change (negb (Z.land 0x20 (2 ^ 7) =? 0)) with false.
  change (negb (Z.land 0x20 (2 ^ 6) =? 0)) with false.
  change (negb (Z.land 0x20 (2 ^ 5) =? 0)) with true. cbv iota.
  unfold line_result, field_size. checked_line.
Qed.

(** A field the encoder is used on: lengths of slices, which are below 2^63. *)
Definition field_ok (f : Field) : Prop := zlen f.1 < 2 ^ 63 ∧ zlen f.2 < 2 ^ 63.

Lemma line_written f rest size limit :
  field_ok f → 0 <= size → limit <= U64_MAX →
  qpack_decode_line (qpack_field f.1 f.2 ++ rest) size limit = line_result f rest size limit.
Proof.
  destruct f as [n v]. intros [Hn Hv] Hs Hl. unfold qpack_field. cbn [fst snd] in *.
  destruct (qpack_encode_map !! n) as [e|] eqn:E; [|by apply line_literal].
  destruct (List.find _ _) as [[v' idx]|] eqn:Ef.
  - apply (encode_map_value _ _ _ _ E) in Ef as [Hi Hf]. by apply line_indexed.
  - apply encode_map_name in E as [Hi [v0 Hf]]. rewrite <-!app_assoc. by eapply line_name_ref.
Qed.

Lemma qpack_field_nonempty n v : qpack_field n v ≠ [].
Proof.
  assert (Hi : ∀ f k x l, qpack_int f k x ++ l ≠ []) by (intros; unfold qpack_int; cbv zeta; case_if; done).
  unfold qpack_field. destruct (qpack_encode_map !! n) as [e|]; [|apply Hi].
  destruct (List.find _ _) as [[? idx]|]; [|apply Hi]. specialize (Hi 0xc0 6 idx []).
  by rewrite app_nil_r in Hi.
Qed.

(** Every pair of the table with a value is written as an index. *)
Lemma static_pairs_short :
  forallb (fun f => bytes_eqb f.2 [] || (zlen (qpack_field f.1 f.2) <=? 2)) QPACK_STATIC = true.
Proof. vm_compute. reflexivity. Qed.

Lemma static_pair_short n v : In (n, v) QPACK_STATIC → v ≠ [] → zlen (qpack_field n v) <= 2.
Proof.
  intros Hin Hv. pose proof (proj1 (forallb_forall _ _) static_pairs_short _ Hin) as H.
  cbv beta in H. cbn [fst snd] in H. unfold bytes_eqb in H.
  rewrite (bool_decide_eq_false_2 _ Hv), orb_false_l in H. by apply Z.leb_le.
Qed.

#[local] Opaque qpack_field qpack_encode_map.

Lemma decode_lines_written fs fuel out size limit :
  Forall field_ok fs → 0 <= size <= limit → limit <= U64_MAX →
  (length (field_lines fs) ≤ fuel)%nat →
  qpack_decode_lines fuel (field_lines fs) out size limit =
  if size + section_size fs <=? limit then Some (out ++ fs, size + section_size fs) else None.
Proof.
  intros Hok. revert fuel out size. induction Hok as [|f fs Hf Hok IH]; intros fuel out size Hs Hl Hfuel.
  - cbn [section_size foldr]. rewrite Z.add_0_r, app_nil_r, (proj2 (Z.leb_le _ _)) by lia.
    by destruct fuel.
  - change (field_lines (f :: fs)) with (qpack_field f.1 f.2 ++ field_lines fs) in *.
    change (section_size (f :: fs)) with (field_size f + section_size fs).
    rewrite length_app in Hfuel.
    assert (Hsz : 32 <= field_size f)
      by (unfold field_size; pose proof (zlen_nonneg f.1); pose proof (zlen_nonneg f.2); lia).
    destruct (qpack_field f.1 f.2) as [|b line] eqn:E.
    { by apply qpack_field_nonempty in E. }
    cbn [length] in Hfuel. destruct fuel as [|fuel]; [lia|].
    cbn [app qpack_decode_lines].
    change (b :: line ++ field_lines fs) with ((b :: line) ++ field_lines fs).
    rewrite <-E.
    rewrite line_written; [|exact Hf|lia|lia].
    unfold line_result. pose proof (section_size_nonneg fs). destruct (Z.leb_spec (size + field_size f) limit).
    + cbn [mbind option_bind]. rewrite IH by lia.
      rewrite <-app_assoc, <-Z.add_assoc. reflexivity.
    + cbn [mbind option_bind]. case_if; [lia|reflexivity].
Qed.

(** ** What the reader accepts *)

Lemma read_int_sound buf n v rest :
  octets buf → 1 <= n <= 8 → qpack_read_int buf n = Some (v, rest) →
  0 <= v <= U64_MAX ∧ ∃ used, buf = used ++ rest ∧ (1 ≤ length used)%nat.
Proof.
  intros Ho Hn. rewrite read_int_decode by done. intros H.
  apply integer.decode_sound in H as (Hv & used & -> & Hu); [|done..].
  split; [done|]. exists used. split; [done|lia].
Qed.

Lemma read_str_sound buf n m s rest :
  octets buf → 1 <= n <= 8 → 0 <= m → qpack_read_str_limited buf n m = Some (s, rest) →
  zlen s <= m ∧ octets s ∧ ∃ used, buf = used ++ rest ∧ (1 ≤ length used)%nat.
Proof.
  intros Ho Hn Hm. unfold qpack_read_str_limited. destruct buf as [|b buf]; [done|].
  destruct (qpack_read_int _ _) as [[len rest1]|] eqn:E; [|done].
  apply read_int_sound in E as (Hv & used & E & Hu); [|done..]. rewrite E in Ho |- *. clear E.
  apply Forall_app in Ho as [_ Ho]. case_if; [done|]. cbv zeta.
  assert (Hex : ∃ used', used ++ rest1 = used' ++ drop (Z.to_nat len) rest1 ∧ (1 ≤ length used')%nat).
  { exists (used ++ take (Z.to_nat len) rest1). rewrite <-app_assoc, take_drop, length_app.
    split; [done|lia]. }
  assert (Ht : octets (take (Z.to_nat len) rest1)) by by apply Forall_take.
  destruct (_ =? 1).
  - unfold huffman_decode.decode_limited.
    destruct (huffman_decode.decode_into_limited _ _) as [s'|] eqn:E; [|done]. intros [= <- <-].
    by apply huffman_decode.decode_into_limited_iff in E as (? & _ & ?).
  - case_if; [|done]. intros [= <- <-]. done.
Qed.

Lemma static_checked :
  forallb (fun f => forallb (fun b => (0 <=? b) && (b <? 256)) (f.1 ++ f.2)) QPACK_STATIC = true.
Proof. vm_compute. reflexivity. Qed.

Lemma static_octets i f : QPACK_STATIC !! i = Some f → octets f.1 ∧ octets f.2.
Proof.
  intros H. apply list_elem_of_lookup_2, list_elem_of_In in H.
  apply (proj1 (forallb_forall _ _) static_checked) in H. cbv beta in H.
  apply Forall_app, List.Forall_forall. intros b Hb.
  apply (proj1 (forallb_forall _ _) H) in Hb. cbv beta in Hb. by bool_hyps.
Qed.

Lemma checked_add_some a b c : checked_add a b = Some c → c = a + b.
Proof. unfold checked_add. case_if; congruence. Qed.

#[local] Ltac step_add :=
  match goal with
  | |- context [checked_add ?a ?b ≫= _] =>
      let E := fresh in let z := fresh "z" in
      destruct (checked_add a b) as [z|] eqn:E; [apply checked_add_some in E; subst z|done];
      cbn [mbind option_bind fst snd]
  end.

(** A decoded field is within what was left of the limit. *)
Definition line_sound (buf : list Z) (size limit : Z) (f : Field) (size' : Z) (rest : list Z) : Prop :=
  size' = size + field_size f ∧ size' <= limit ∧ octets f.1 ∧ octets f.2 ∧
  ∃ used, buf = used ++ rest ∧ (1 ≤ length used)%nat.

Lemma used_app (buf mid rest u1 u2 : list Z) :
  buf = u1 ++ mid → mid = u2 ++ rest → (1 ≤ length u1)%nat →
  ∃ used, buf = used ++ rest ∧ (1 ≤ length used)%nat.
Proof. intros -> -> H. exists (u1 ++ u2). rewrite app_assoc, length_app. split; [done|lia]. Qed.

Lemma decode_line_sound buf size limit f size' rest :
  octets buf → 0 <= size → qpack_decode_line buf size limit = Some (f, size', rest) →
  line_sound buf size limit f size' rest.
Proof.
  intros Ho Hs. unfold qpack_decode_line. destruct buf as [|b buf]; [done|].
  set (all := b :: buf) in *. clearbody all. unfold line_sound, field_size.
  case_if; [|case_if; [|case_if; [|done]]].
  - destruct (qpack_read_int _ _) as [[idx r1]|] eqn:E; [|done].
    apply read_int_sound in E as (_ & Hu); [|done|lia]. cbn [mbind option_bind]. case_if; [done|].
    destruct (QPACK_STATIC !! _) as [[n v]|] eqn:Ef; [|done]. apply static_octets in Ef.
    cbn [mbind option_bind fst snd] in *.
    do 3 step_add.
    case_if; [done|]. intros [= <- <- <-]. cbn [fst snd]. cbn [fst snd]. split_and!; [lia|lia|apply Ef..|done].
  - destruct (qpack_read_int _ _) as [[idx r1]|] eqn:E; [|done].
    apply read_int_sound in E as (_ & u1 & E1 & Hu); [|done|lia]. cbn [mbind option_bind]. case_if; [done|].
    destruct (QPACK_STATIC !! _) as [[n v0]|] eqn:Ef; [|done]. apply static_octets in Ef.
    cbn [mbind option_bind fst snd] in *.
    do 2 step_add.
    case_if; [done|]. destruct (qpack_read_str_limited _ _ _) as [[v r2]|] eqn:Es; [|done].
    pose proof (zlen_nonneg n). cbn [mbind option_bind].
    apply read_str_sound in Es as (Hv & Hvo & u2 & E2 & _); [|rewrite E1 in Ho; by apply Forall_app in Ho as [_ Ho]|lia..].
    step_add. intros [= <- <- <-]. cbn [fst snd].
    split_and!; [lia|lia|apply Ef|done|]. by eapply used_app.
  - step_add.
    case_if; [done|]. destruct (qpack_read_str_limited all _ _) as [[n r1]|] eqn:En; [|done].
    apply read_str_sound in En as (Hn & Hno & u1 & E1 & Hu); [|done|lia..]. cbn [mbind option_bind].
    step_add.
    destruct (qpack_read_str_limited r1 _ _) as [[v r2]|] eqn:Es; [|done].
    pose proof (zlen_nonneg n). cbn [mbind option_bind].
    apply read_str_sound in Es as (Hv & Hvo & u2 & E2 & _); [|rewrite E1 in Ho; by apply Forall_app in Ho as [_ Ho]|lia..].
    step_add. intros [= <- <- <-]. cbn [fst snd].
    split_and!; [lia|lia|done|done|]. by eapply used_app.
Qed.

Lemma decode_lines_sound fuel buf out size limit fs total :
  octets buf → size = section_size out → size <= limit →
  Forall (fun f : Field => octets f.1 ∧ octets f.2) out →
  qpack_decode_lines fuel buf out size limit = Some (fs, total) →
  total = section_size fs ∧ total <= limit ∧ Forall (fun f : Field => octets f.1 ∧ octets f.2) fs.
Proof.
  revert buf out size. induction fuel as [|fuel IH]; intros buf out size Ho Hs Hl Hf;
    (destruct buf as [|b buf]; [intros [= <- <-]; by subst|]); [done|].
  cbn [qpack_decode_lines]. destruct (qpack_decode_line _ _ _) as [[[f size'] rest]|] eqn:E; [|done].
  cbn [mbind option_bind]. apply decode_line_sound in E as (Hsz & Hle & Hn & Hv & used & E & _);
    [|done|subst; apply section_size_nonneg].
  rewrite E in Ho. apply Forall_app in Ho as [_ Ho].
  apply IH; [done| |done|].
  - rewrite section_size_app. cbn [section_size foldr]. lia.
  - apply Forall_app. split; [done|]. by constructor.
Qed.

(** A round per octet of input: more fuel changes nothing. *)
Lemma decode_lines_fuel fuel fuel' buf out size limit :
  octets buf → 0 <= size → (length buf ≤ fuel)%nat → (length buf ≤ fuel')%nat →
  qpack_decode_lines fuel buf out size limit = qpack_decode_lines fuel' buf out size limit.
Proof.
  revert fuel' buf out size. induction fuel as [|fuel IH]; intros fuel' buf out size Ho Hs Hf Hf';
    (destruct buf as [|b buf]; [by destruct fuel'|]); [simpl in Hf; lia|].
  destruct fuel' as [|fuel']; [simpl in Hf'; lia|].
  cbn [qpack_decode_lines]. destruct (qpack_decode_line _ _ _) as [[[f size'] rest]|] eqn:E; [|done].
  cbn [mbind option_bind].
  apply decode_line_sound in E as (Hsz & _ & _ & _ & used & E & Hu); [|done..].
  assert (0 <= field_size f)
    by (unfold field_size; pose proof (zlen_nonneg f.1); pose proof (zlen_nonneg f.2); lia).
  assert (Hlen : length (b :: buf) = (length used + length rest)%nat) by by rewrite E, length_app.
  rewrite E in Ho. apply Forall_app in Ho as [_ Ho]. apply IH; [done|lia|lia..].
Qed.

(** Whatever the input, the decoded fields are within the limit and the size returned is
    theirs. *)
Lemma decode_limited_sound buf limit fs total :
  octets buf → 0 <= limit → qpack_decode_limited buf limit = Some (fs, total) →
  total = section_size fs ∧ total <= limit ∧ Forall (fun f : Field => octets f.1 ∧ octets f.2) fs.
Proof.
  intros Ho Hl. unfold qpack_decode_limited.
  destruct (qpack_read_int buf 8) as [[ric r1]|] eqn:E1; [|done]. cbn [mbind option_bind].
  apply read_int_sound in E1 as (_ & u1 & -> & _); [|done|lia]. apply Forall_app in Ho as [_ Ho].
  case_if; [done|]. cbv zeta.
  destruct (qpack_read_int r1 7) as [[base r2]|] eqn:E2; [|done]. cbn [mbind option_bind].
  apply read_int_sound in E2 as (_ & u2 & -> & _); [|done|lia]. apply Forall_app in Ho as [_ Ho].
  case_if; [done|]. by apply decode_lines_sound.
Qed.

Lemma decode_section fields limit :
  Forall field_ok fields → 0 <= limit <= U64_MAX →
  qpack_decode_limited (field_section fields) limit =
  if section_size fields <=? limit then Some (fields, section_size fields) else None.
Proof.
  intros Hf Hl. unfold qpack_decode_limited, field_section. cbn [app].
  change (qpack_read_int (0 :: 0 :: field_lines fields) 8) with (Some (0, 0 :: field_lines fields)).
  cbn [mbind option_bind]. change (qpack_read_int (0 :: field_lines fields) 7) with (Some (0, field_lines fields)).
  cbn [mbind option_bind]. change (negb (0 =? 0) || (Z.shiftr 0 7 =? 1)) with false. cbv iota.
  rewrite decode_lines_written by (done || lia). reflexivity.
Qed.

(** ** Properties *)


(** A response head of five fields, 245 octets in the size of RFC 9114: at the limit it is
    read back, one octet below it is refused. *)
Definition example_fields : list Field :=
  [(bs ":status", bs "200"); (bs "content-type", bs "text/html; charset=utf-8");
   (bs "server", bs "httpjet"); (bs "x-request-id", bs "7f3a"); (bs "vary", bs "origin")].


End qpack.
