(* ===== verification/H3Frames.v ===== *)
(** * HTTP/3 frames on a request stream: [crates/httpjet/src/uring/h3.rs]

    The QUIC variable-length integers, the frame writer, and [H3FrameCounter], the
    incremental parser a request stream's octets go through as they arrive. A reader's
    [input] and [*pos] are the input still to be read. [Vec::capacity] is a parameter: the
    allocator chooses it. *)

From stdpp Require Import base list gmap strings.
From Stdlib Require Import ZArith Lia.
From S2P Require Import Prelude HpackInteger HuffmanDecode Qpack Net RustStr HttpUtil H1Codec.

#[local] Open Scope record_scope.

Module h3_frames.

Import qpack.

(** ** Variable-length integers *)

Definition write_varint (v : Z) : list Z :=
  if v <? 64 then [u8 v]
  else if v <? 16384 then to_be_bytes 2 (Z.lor (u16 v) 0x4000)
  else if v <? 1073741824 then to_be_bytes 4 (Z.lor (u32 v) 0x80000000)
  else to_be_bytes 8 (Z.lor v 0xc000000000000000).

(** [out[pos..pos + n].copy_from_slice(bytes)] on the 16-octet header. *)
Definition copy_at (out : list Z) (pos : Z) (bytes : list Z) : list Z :=
  take (Z.to_nat pos) out ++ bytes ++ drop (Z.to_nat pos + length bytes) out.

Definition write_varint_fixed (out : list Z) (pos v : Z) : list Z * Z :=
  if v <? 64 then (copy_at out pos [u8 v], pos + 1)
  else if v <? 16384 then (copy_at out pos (to_be_bytes 2 (Z.lor (u16 v) 0x4000)), pos + 2)
  else if v <? 1073741824 then
    (copy_at out pos (to_be_bytes 4 (Z.lor (u32 v) 0x80000000)), pos + 4)
  else (copy_at out pos (to_be_bytes 8 (Z.lor v 0xc000000000000000)), pos + 8).

(** The octets received of an integer ([bytes[..len]]) and how many it takes. The octets of
    the array past [len] are never read. *)
Record IncrementalVarInt := { bytes : list Z; need : Z }.

Definition varint_default : IncrementalVarInt := {| bytes := []; need := 0 |}.

(** [value = (value << 8) | byte] over the octets after the first. *)
Definition varint_value (l : list Z) : Z :=
  match l with
  | [] => 0
  | b :: l =>
      fold_left (fun value byte => Z.lor (u64 (Z.shiftl value 8)) byte) l (Z.land b 0x3f)
  end.

(** [IncrementalVarInt::consume]. *)
Fixpoint varint_consume (v : IncrementalVarInt) (input : list Z) :
    IncrementalVarInt * option Z * list Z :=
  match input with
  | [] => (v, None, [])
  | byte :: input' =>
      let need' := if zlen (bytes v) =? 0 then Z.shiftl 1 (Z.shiftr byte 6) else need v in
      let bytes' := bytes v ++ [byte] in
      if zlen bytes' =? need' then (varint_default, Some (varint_value bytes'), input')
      else varint_consume {| bytes := bytes'; need := need' |} input'
  end.

(** ** The frame writer *)

(** [h3_field_section_size] and [encode_h3_headers_frame], on the status's three digits and
    the header fields in iteration order. *)
Definition h3_field_section_size (status : list Z) (headers : list Field) : Z :=
  fold_left (fun size f => saturating_add size (32 + zlen f.1 + zlen f.2)) headers
    (32 + 7 + zlen status).

Definition encode_h3_headers_frame (status : list Z) (headers : list Field) : list Z :=
  let field := field_section ((bs ":status", status) :: headers) in
  write_varint 0x01 ++ write_varint (zlen field) ++ field.

Definition encode_h3_data_frame (chunk : list Z) : list Z :=
  write_varint 0x00 ++ write_varint (zlen chunk) ++ chunk.

Definition encode_h3_response (status : list Z) (headers : list Field) (body : list Z) : list Z :=
  encode_h3_headers_frame status headers ++
  (if bytes_eqb body [] then [] else encode_h3_data_frame body).

(** ** The request stream parser *)

Record H3RequestLimits := {
  max_header_bytes : Z;
  max_body_bytes : Z;
  max_request_wire_bytes : Z;
  max_connection_bytes : Z;
}.

Definition saturating_mul (a b : Z) : Z := Z.min (a * b) U64_MAX.

Definition limits_new (max_header_bytes max_body_bytes : Z) : H3RequestLimits :=
  let framing_allowance := 64 * 1024 in
  let max_request_wire_bytes :=
    saturating_add (saturating_add max_header_bytes max_body_bytes) framing_allowance in
  let max_connection_bytes := Z.max (saturating_mul max_body_bytes 4) max_request_wire_bytes in
  {| max_header_bytes := max_header_bytes;
     max_body_bytes := max_body_bytes;
     max_request_wire_bytes := max_request_wire_bytes;
     max_connection_bytes := max_connection_bytes |}.

Definition DecodedFieldSection : Type := list Field * Z.

Inductive H3RequestHead :=
| Pending
| Undecodable
| Decoded (fields : DecodedFieldSection) (content_length : option Z).

Definition decode_request_head (field : list Z) (max_header_bytes : Z) : H3RequestHead :=
  match qpack_decode_limited field max_header_bytes with
  | None => Undecodable
  | Some fields =>
      let content_length :=
        default None
          (codec.resolve_content_length
             (snd <$> filter (fun f => f.1 = bs "content-length") fields.1)) in
      Decoded fields content_length
  end.

Definition H3_NO_PROGRESS_FRAMES : Z := 10000.

Inductive PayloadSink := SField | STrailers | SBody | SDiscard.

Inductive H3FramePhase :=
| Type_
| Length
| Payload (remaining : Z) (sink : PayloadSink).

Inductive RequestFrameError :=
| Limit | Unexpected | HeadersTooLarge | TooLarge | Malformed | ExcessiveLoad.

(** The fields [varint], [varint_len] and [varint_need] are those of an
    [IncrementalVarInt]. *)
Record H3FrameCounter := {
  phase : H3FramePhase;
  varint : IncrementalVarInt;
  frame_type : Z;
  header_bytes : Z;
  body_bytes : Z;
  wire_bytes : Z;
  charged : Z;
  head_footprint : Z;
  no_progress_frames : Z;
  field : option (list Z);
  trailers : option (list Z);
  malformed : bool;
  head : H3RequestHead;
}.

#[global] Instance eta_H3FrameCounter : Eta H3FrameCounter := fun r =>
  {| phase := phase r; varint := varint r; frame_type := frame_type r;
     header_bytes := header_bytes r; body_bytes := body_bytes r; wire_bytes := wire_bytes r;
     charged := charged r; head_footprint := head_footprint r;
     no_progress_frames := no_progress_frames r; field := field r; trailers := trailers r;
     malformed := malformed r; head := head r |}.
#[global] Instance set_phase : Setter phase := ltac:(derive_setter).
#[global] Instance set_varint : Setter varint := ltac:(derive_setter).
#[global] Instance set_frame_type : Setter frame_type := ltac:(derive_setter).
#[global] Instance set_header_bytes : Setter header_bytes := ltac:(derive_setter).
#[global] Instance set_body_bytes : Setter body_bytes := ltac:(derive_setter).
#[global] Instance set_wire_bytes : Setter wire_bytes := ltac:(derive_setter).
#[global] Instance set_charged : Setter charged := ltac:(derive_setter).
#[global] Instance set_head_footprint : Setter head_footprint := ltac:(derive_setter).
#[global] Instance set_no_progress : Setter no_progress_frames := ltac:(derive_setter).
#[global] Instance set_field : Setter field := ltac:(derive_setter).
#[global] Instance set_trailers : Setter trailers := ltac:(derive_setter).
#[global] Instance set_malformed : Setter malformed := ltac:(derive_setter).
#[global] Instance set_head : Setter head := ltac:(derive_setter).

(** [H3FrameCounter::default()] *)
Definition counter_default : H3FrameCounter :=
  {| phase := Type_; varint := varint_default; frame_type := 0; header_bytes := 0;
     body_bytes := 0; wire_bytes := 0; charged := 0; head_footprint := 0;
     no_progress_frames := 0; field := None; trailers := None; malformed := false;
     head := Pending |}.

Definition request_frame_forbidden (frame_type : Z) : bool :=
  bool_decide (frame_type ∈ [0x02; 0x03; 0x04; 0x05; 0x06; 0x07; 0x08; 0x09; 0x0d]).

(** [consume_varint], which resets the integer once it is complete. *)
Definition consume_varint (s : H3FrameCounter) (input : list Z) :
    H3FrameCounter * option Z * list Z :=
  let '(v, value, rest) := varint_consume (varint s) input in (s <| varint := v |>, value, rest).

Section counter.

(** [Vec::capacity] of a decoded name or value and of the list of fields. *)
Variable capacity : list Z → Z.
Variable slots : list Field → Z.

(** [std::mem::size_of::<(Vec<u8>, Vec<u8>)>()] *)
Definition FIELD_SLOT : Z := 48.

Definition decoded_head_footprint (fields : list Field) (slots : Z) : Z :=
  fold_left
    (fun sum f =>
       saturating_add (saturating_add (saturating_add sum 32) (capacity f.1)) (capacity f.2))
    fields (saturating_mul slots FIELD_SLOT).

(** The head is decoded at the first DATA frame after it. *)
Definition with_head (s : H3FrameCounter) (limits : H3RequestLimits) : H3FrameCounter :=
  match head s, field s with
  | Pending, Some fld =>
      let h := decode_request_head fld (max_header_bytes limits) in
      let s := s <| head := h |> in
      match h with
      | Decoded (fields, _) _ =>
          s <| head_footprint := decoded_head_footprint fields (slots fields) |>
      | _ => s
      end
  | _, _ => s
  end.

Definition data_frame (s : H3FrameCounter) (length : Z) (limits : H3RequestLimits) :
    H3FrameCounter * result RequestFrameError unit :=
  let s := with_head s limits in
  match checked_add (body_bytes s) length with
  | None => (s, Err Limit)
  | Some total =>
      let declared := match head s with Decoded _ cl => Some cl | _ => None end in
      let over :=
        match declared with
        | Some (Some content_length) =>
            if max_body_bytes limits <? content_length then Some TooLarge
            else if content_length <? total then Some Malformed
            else None
        | _ => None
        end in
      match over with
      | Some e => (s, Err e)
      | None =>
          if max_body_bytes limits <? total then
            (s, Err (if bool_decide (is_Some declared) then TooLarge else Limit))
          else (s <| body_bytes := total |>, Ok tt)
      end
  end.

(** The arm [H3FramePhase::Length] once the length is read: the frame's admission and the
    sink of its payload. [usize::try_from] of a [u64] never fails. *)
Definition frame_header (s : H3FrameCounter) (length : Z) (limits : H3RequestLimits) :
    H3FrameCounter * result RequestFrameError PayloadSink :=
  if request_frame_forbidden (frame_type s) then (s, Err Unexpected)
  else
    let idle := (length =? 0) || negb (bool_decide (frame_type s ∈ [0x00; 0x01])) in
    let s := if idle then s <| no_progress_frames := no_progress_frames s + 1 |> else s in
    if idle && (H3_NO_PROGRESS_FRAMES <? no_progress_frames s) then (s, Err ExcessiveLoad)
    else if frame_type s =? 0x01 then
      match checked_add (header_bytes s) length with
      | None => (s, Err HeadersTooLarge)
      | Some total =>
          if max_header_bytes limits <? total then (s, Err HeadersTooLarge)
          else
            let s := s <| header_bytes := total |> in
            match field s, trailers s with
            | None, _ => (s <| field := Some [] |>, Ok SField)
            | Some _, None => (s <| trailers := Some [] |>, Ok STrailers)
            | Some _, Some _ => (s <| malformed := true |>, Ok SDiscard)
            end
      end
    else if frame_type s =? 0x00 then
      match data_frame s length limits with
      | (s, Err e) => (s, Err e)
      | (s, Ok _) =>
          let s :=
            if bool_decide (field s = None) || bool_decide (is_Some (trailers s))
            then s <| malformed := true |> else s in
          (s, Ok (if malformed s then SDiscard else SBody))
      end
    else (s, Ok SDiscard).

Definition length_arm (s : H3FrameCounter) (length : Z) (limits : H3RequestLimits) :
    H3FrameCounter * result RequestFrameError unit :=
  match frame_header s length limits with
  | (s, Err e) => (s, Err e)
  | (s, Ok sink) => (s <| phase := if length =? 0 then Type_ else Payload length sink |>, Ok tt)
  end.

(** The sinks of the payload arm. *)
Definition deliver (s : H3FrameCounter) (body payload : list Z) (sink : PayloadSink) :
    H3FrameCounter * list Z :=
  match sink with
  | SField => (s <| field := Some (default [] (field s) ++ payload) |>, body)
  | STrailers => (s <| trailers := Some (default [] (trailers s) ++ payload) |>, body)
  | SBody => (s, body ++ payload)
  | SDiscard => (s, body)
  end.

(** [consume]: the loop [while pos < input.len()]. Every round reads an octet
    ([consume_rounds]); [consume] starts it with a round per octet and one more. *)
Fixpoint consume_loop (fuel : nat) (s : H3FrameCounter) (input body : list Z)
    (limits : H3RequestLimits) : H3FrameCounter * list Z * result RequestFrameError unit :=
  match fuel, input with
  | _, [] => (s, body, Ok tt)
  | O, _ => (s, body, Ok tt)
  | S fuel', _ =>
      match phase s with
      | Type_ =>
          match consume_varint s input with
          | (s, None, _) => (s, body, Ok tt)
          | (s, Some ty, rest) =>
              consume_loop fuel' (s <| frame_type := ty |> <| phase := Length |>) rest body limits
          end
      | Length =>
          match consume_varint s input with
          | (s, None, _) => (s, body, Ok tt)
          | (s, Some length, rest) =>
              match length_arm s length limits with
              | (s, Err e) => (s, body, Err e)
              | (s, Ok _) => consume_loop fuel' s rest body limits
              end
          end
      | Payload remaining sink =>
          let consumed := Z.min remaining (zlen input) in
          let payload := take (Z.to_nat consumed) input in
          let '(s, body) := deliver s body payload sink in
          let s :=
            s <| phase := if consumed =? remaining then Type_
                          else Payload (remaining - consumed) sink |> in
          consume_loop fuel' s (drop (Z.to_nat consumed) input) body limits
      end
  end.

Definition consume (s : H3FrameCounter) (input body : list Z) (limits : H3RequestLimits) :
    H3FrameCounter * list Z * result RequestFrameError unit :=
  consume_loop (S (length input)) s input body limits.

End counter.

Record ParsedH3Request := {
  parsed_field : list Z;
  parsed_body : list Z;
  parsed_trailers : option (list Z);
}.

(** [finish], without the lease that follows the body. *)
Definition finish (s : H3FrameCounter) (body : list Z) :
    option (ParsedH3Request * option DecodedFieldSection) :=
  let at_frame_boundary :=
    match phase s with Type_ => zlen (bytes (varint s)) =? 0 | _ => false end in
  if malformed s || negb at_frame_boundary then None
  else
    match field s with
    | None => None
    | Some fld =>
        let hd := match head s with Decoded fields _ => Some fields | _ => None end in
        Some ({| parsed_field := fld; parsed_body := body; parsed_trailers := trailers s |}, hd)
    end.

End h3_frames.
