(* ===== verification/H3FramesWire.v ===== *)
(** * HTTP/3 frames: variable-length integers and the tokens of a request stream

    What [write_varint] writes is read back, the incremental parser of [H3Frames] reads a
    stream frame by frame ([consume_frame], [tokenise]), and how the stream is cut into
    datagrams does not matter ([consume_app]). *)

From stdpp Require Import base list gmap strings.
From Stdlib Require Import ZArith Lia.
From S2P Require Import Prelude HpackInteger HuffmanDecode Qpack Net RustStr HttpUtil H1Codec H3Frames.

#[local] Open Scope record_scope.

Module h3_wire.

Import qpack h3_frames.

(** ** Integers *)

Lemma lor_add m v k : 0 <= m → 0 <= v < 2 ^ m → Z.lor v (k * 2 ^ m) = v + k * 2 ^ m.
Proof.
  intros Hm Hv. assert (Hl : Z.land v (k * 2 ^ m) = 0).
  { apply Z.bits_inj'. intros j Hj. rewrite Z.land_spec, Z.bits_0. destruct (Z.ltb_spec j m);
      [by rewrite Z.mul_pow2_bits_low, andb_false_r by lia|by rewrite (testbit_above m v)]. }
  by rewrite Z.add_nocarry_lxor, Z.lxor_lor.
Qed.

Lemma from_be_bytes_cons b l :
  from_be_bytes (b :: l) = b * 2 ^ (8 * zlen l) + from_be_bytes l.
Proof.
  induction l as [|c l IH] using rev_ind.
  - unfold from_be_bytes, zlen. simpl. lia.
  - rewrite app_comm_cons, !from_be_bytes_app, IH, zlen_app. change (zlen [c]) with 1.
    pose proof (zlen_nonneg l). rewrite Z.mul_add_distr_l, Z.pow_add_r by lia. lia.
Qed.

(** The octets after the first, gathered on a [u64] without loss. *)
Lemma varint_fold l a :
  octets l → 0 <= a < 2 ^ (64 - 8 * zlen l) → zlen l <= 8 →
  fold_left (fun value byte => Z.lor (u64 (Z.shiftl value 8)) byte) l a =
  a * 2 ^ (8 * zlen l) + from_be_bytes l.
Proof.
  revert a. induction l as [|b l IH]; intros a Ho Ha Hl.
  - unfold from_be_bytes, zlen. simpl. lia.
  - inversion Ho as [|? ? Hb Ho']; subst. rewrite zlen_cons in *. pose proof (zlen_nonneg l).
    cbn [fold_left]. rewrite from_be_bytes_cons, Z.shiftl_mul_pow2 by lia.
    assert (2 ^ (64 - 8 * (1 + zlen l)) * 2 ^ 8 = 2 ^ (64 - 8 * zlen l)) as Hp
      by (rewrite <-Z.pow_add_r by lia; f_equal; lia).
    assert (2 ^ (64 - 8 * zlen l) <= 2 ^ 64) by (apply Z.pow_le_mono_r; lia).
    unfold is_byte in Hb. rewrite (wrap_id 64) by lia.
    rewrite Z.lor_comm, (lor_add 8) by (unfold is_byte in Hb; lia). rewrite IH; [|done|lia..].
    rewrite Z.mul_add_distr_l, Z.pow_add_r by lia. lia.
Qed.

Lemma varint_value_spec b l :
  octets (b :: l) → zlen l <= 7 →
  varint_value (b :: l) = (b mod 64) * 2 ^ (8 * zlen l) + from_be_bytes l.
Proof.
  intros Ho Hl. inversion Ho; subst. unfold varint_value.
  assert (Hb : 0 <= b mod 64 < 64) by (apply Z.mod_pos_bound; lia).
  change 0x3f with (Z.ones 6). rewrite (Z.land_ones b 6) by lia. change (2 ^ 6) with 64.
  apply varint_fold; [done| |lia].
  pose proof (zlen_nonneg l). assert (2 ^ 8 <= 2 ^ (64 - 8 * zlen l)) by (apply Z.pow_le_mono_r; lia). lia.
Qed.

Lemma varint_value_range w :
  octets w → zlen w <= 8 → 0 <= varint_value w < 2 ^ 62.
Proof.
  destruct w as [|b l]; [simpl; lia|]. intros Ho Hl. rewrite zlen_cons in Hl.
  rewrite varint_value_spec by (done || lia). inversion Ho; subst.
  pose proof (Z.mod_pos_bound b 64 ltac:(lia)). pose proof (zlen_nonneg l).
  pose proof (from_be_bytes_range l ltac:(done)).
  assert (0 < 2 ^ (8 * zlen l) <= 2 ^ 56) by (split; [apply Z.pow_pos_nonneg|apply Z.pow_le_mono_r]; lia).
  change (2 ^ 62) with (64 * 2 ^ 56). nia.
Qed.

(** The octets [w] are one integer, [v], and nothing else. *)
Definition varint_wire (v : Z) (w : list Z) : Prop :=
  varint_consume varint_default w = (varint_default, Some v, []).

(** An integer partly read: the first octet has fixed its length. *)
Definition varint_wf (v : IncrementalVarInt) : Prop :=
  octets (bytes v) ∧
  match bytes v with
  | [] => v = varint_default
  | b :: _ => need v = Z.shiftl 1 (Z.shiftr b 6) ∧ zlen (bytes v) < need v
  end.

Lemma varint_default_wf : varint_wf varint_default.
Proof. by split. Qed.

Lemma varint_need b : is_byte b → 1 <= Z.shiftl 1 (Z.shiftr b 6) <= 8.
Proof.
  intros Hb. rewrite Z.shiftl_1_l, Z.shiftr_div_pow2 by lia. unfold is_byte in Hb.
  assert (0 <= b / 2 ^ 6 <= 3).
  { split; [apply Z.div_pos; lia|]. apply Z.lt_succ_r, Z.div_lt_upper_bound; lia. }
  change 1 with (2 ^ 0). change 8 with (2 ^ 3). split; apply Z.pow_le_mono_r; lia.
Qed.

(** One octet at a time. *)
Lemma varint_consume_cons v b rest :
  varint_consume v (b :: rest) =
  match varint_consume v [b] with
  | (v', Some x, _) => (v', Some x, rest)
  | (v', None, _) => varint_consume v' rest
  end.
Proof. cbn [varint_consume]. cbv zeta. by destruct (_ =? _). Qed.

Lemma varint_step v b :
  varint_wf v → is_byte b →
  match varint_consume v [b] with
  | (v', Some x, r) => v' = varint_default ∧ r = [] ∧ x = varint_value (bytes v ++ [b]) ∧ 0 <= x < 2 ^ 62
  | (v', None, r) => varint_wf v' ∧ r = [] ∧ bytes v' = bytes v ++ [b]
  end.
Proof.
  intros [Ho Hv] Hb. cbn [varint_consume]. cbv zeta.
  assert (Ho' : octets (bytes v ++ [b])) by (apply Forall_app; split; [done|by apply Forall_singleton]).
  destruct (bytes v) as [|c l] eqn:E.
  - change (zlen [] =? 0) with true. cbv iota. pose proof (varint_need b Hb).
    destruct (Z.eqb_spec (zlen ([] ++ [b])) (Z.shiftl 1 (Z.shiftr b 6))).
    + pose proof (varint_value_range _ Ho' ltac:(lia)). split_and!; try done; lia.
    + split_and!; try done. cbn. split; [done|]. unfold zlen in *. simpl in *. lia.
  - inversion Ho as [|? ? Hc ?]; subst. destruct Hv as [Hn Hl]. pose proof (varint_need c Hc).
    rewrite zlen_cons in Hl |- *. pose proof (zlen_nonneg l).
    rewrite (proj2 (Z.eqb_neq (1 + zlen l) 0)) by lia.
    assert (Hz : zlen ((c :: l) ++ [b]) = 2 + zlen l) by (unfold zlen; rewrite length_app; simpl; lia).
    rewrite Hz. destruct (Z.eqb_spec (2 + zlen l) (need v)).
    + pose proof (varint_value_range _ Ho' ltac:(lia)). split_and!; try done; lia.
    + split_and!; try done. split; [done|]. split; [done|].
      change (zlen ((c :: l) ++ [b]) < need v). lia.
Qed.

(** What the reader does on any input: it takes one integer off the front, or all of the
    input. *)
Lemma varint_consume_spec input v :
  varint_wf v → octets input →
  match varint_consume v input with
  | (v', Some x, rest) =>
      v' = varint_default ∧ 0 <= x < 2 ^ 62 ∧
      ∃ w, input = w ++ rest ∧ w ≠ [] ∧ varint_consume v w = (varint_default, Some x, [])
  | (v', None, rest) => varint_wf v' ∧ rest = [] ∧ bytes v' = bytes v ++ input
  end.
Proof.
  revert v. induction input as [|b input IH]; intros v Hv Ho.
  - cbn. by rewrite app_nil_r.
  - inversion Ho as [|? ? Hb Ho']; subst. rewrite varint_consume_cons.
    pose proof (varint_step v b Hv Hb) as Hs.
    destruct (varint_consume v [b]) as [[v' [x|]] r] eqn:E.
    + destruct Hs as (-> & -> & _ & Hx). split_and!; try done; try lia. by exists [b].
    + destruct Hs as (Hv' & -> & Hbs). specialize (IH v' Hv' Ho').
      destruct (varint_consume v' input) as [[v'' [x|]] r'].
      * destruct IH as (-> & Hx & w & -> & _ & Hw). split_and!; try done; try lia.
        exists (b :: w). split_and!; try done. by rewrite varint_consume_cons, E.
      * destruct IH as (Hv'' & -> & Hb2). split_and!; try done. by rewrite Hb2, Hbs, <-app_assoc.
Qed.

Lemma varint_wire_app v w rest v0 x :
  varint_consume v0 w = (v, Some x, []) → varint_consume v0 (w ++ rest) = (v, Some x, rest).
Proof.
  revert v0. induction w as [|b w IH]; intros v0; [done|].
  rewrite <-app_comm_cons, (varint_consume_cons v0 b w), (varint_consume_cons v0 b (w ++ rest)).
  destruct (varint_consume v0 [b]) as [[v' [y|]] r]; [|apply IH].
  by intros [= -> -> ->].
Qed.

Lemma varint_wire_range v w : octets w → varint_wire v w → 0 <= v < 2 ^ 62.
Proof.
  unfold varint_wire. intros Ho Hw.
  pose proof (varint_consume_spec w varint_default varint_default_wf Ho) as Hs.
  rewrite Hw in Hs. apply Hs.
Qed.

(** Octets whose first announces their number are one integer. *)
Lemma varint_wire_intro b l :
  octets (b :: l) → zlen (b :: l) = Z.shiftl 1 (Z.shiftr b 6) →
  varint_wire (varint_value (b :: l)) (b :: l).
Proof.
  intros Ho Hn. unfold varint_wire.
  assert (Hgen : ∀ k pre, b :: l = pre ++ k → k ≠ [] →
    varint_consume {| bytes := pre; need := match pre with [] => 0 | _ => zlen (b :: l) end |} k =
    (varint_default, Some (varint_value (b :: l)), [])); [|by apply (Hgen (b :: l) [])].
  induction k as [|c k IH]; [done|]. intros pre E _. cbn [varint_consume bytes need]. cbv zeta.
  assert (Hneed : (if zlen pre =? 0 then Z.shiftl 1 (Z.shiftr c 6)
                   else match pre with [] => 0 | _ => zlen (b :: l) end) = zlen (b :: l)).
  { destruct pre as [|p pre]; [injection E as -> _; by rewrite Hn|].
    rewrite (proj2 (Z.eqb_neq _ _)); [done|]. rewrite zlen_cons. pose proof (zlen_nonneg pre). lia. }
  rewrite Hneed. destruct k as [|d k].
  - rewrite E, Z.eqb_refl. done.
  - rewrite (proj2 (Z.eqb_neq _ _)).
    2:{ rewrite E, !zlen_app, !zlen_cons. pose proof (zlen_nonneg k). change (zlen []) with 0. lia. }
    specialize (IH (pre ++ [c])). rewrite <-app_assoc in IH. specialize (IH E ltac:(done)).
    destruct pre; exact IH.
Qed.

(** The octets of [v] with the tag [k] in the two top bits. *)
Lemma varint_tagged n k v :
  (n ≤ 7)%nat → 0 <= k <= 3 → Z.of_nat (S n) = 2 ^ k → 0 <= v < 2 ^ (8 * Z.of_nat n + 6) →
  varint_wire v (to_be_bytes (S n) (v + k * 2 ^ (8 * Z.of_nat n + 6))).
Proof.
  intros Hn Hk Hlen Hv. set (x := v + k * 2 ^ (8 * Z.of_nat n + 6)).
  assert (Hp : 2 ^ (8 * Z.of_nat n + 6) = 64 * 2 ^ (8 * Z.of_nat n)) by (rewrite Z.pow_add_r by lia; lia).
  assert (Hp2 : 2 ^ (8 * Z.of_nat (S n)) = 256 * 2 ^ (8 * Z.of_nat n)).
  { replace (8 * Z.of_nat (S n)) with (8 + 8 * Z.of_nat n) by lia. rewrite Z.pow_add_r by lia. lia. }
  assert (HP : 0 < 2 ^ (8 * Z.of_nat n)) by (apply Z.pow_pos_nonneg; lia).
  pose proof (octets_to_be_bytes (S n) x) as Ho. pose proof (length_to_be_bytes (S n) x) as Hl.
  pose proof (from_to_be_bytes_id (S n) x ltac:(unfold x; nia)) as Hx.
  destruct (to_be_bytes (S n) x) as [|b l]; [done|]. injection Hl as Hl.
  assert (Hzl : zlen l = Z.of_nat n) by (unfold zlen; lia).
  rewrite from_be_bytes_cons, Hzl in Hx. apply Forall_cons in Ho as [Hb Ho'].
  pose proof (from_be_bytes_range l Ho') as Hr. rewrite Hzl in Hr.
  pose proof (Z.mod_pos_bound b 64 ltac:(lia)) as Hm. pose proof (Z.div_mod b 64 ltac:(lia)) as Hd.
  assert (Hq : b / 64 = k ∧ (b mod 64) * 2 ^ (8 * Z.of_nat n) + from_be_bytes l = v).
  { apply (Z.div_mod_unique (64 * 2 ^ (8 * Z.of_nat n))); [left; nia|left; lia|unfold x in Hx; nia]. }
  replace v with (varint_value (b :: l)).
  - apply varint_wire_intro; [by constructor|]. rewrite Z.shiftr_div_pow2 by lia. change (2 ^ 6) with 64.
    rewrite (proj1 Hq), Z.shiftl_1_l, zlen_cons. lia.
  - rewrite varint_value_spec by (by constructor || lia). rewrite Hzl. apply Hq.
Qed.

Lemma write_varint_wire v : 0 <= v < 2 ^ 62 → varint_wire v (write_varint v).
Proof.
  intros Hv. unfold write_varint. case_if; [|case_if; [|case_if]].
  - pose proof (varint_tagged 0 0 v) as H. cbn [to_be_bytes] in H.
    change (8 * Z.of_nat 0 + 6) with 6 in H. change (8 * Z.of_nat 0) with 0 in H.
    rewrite Z.mul_0_l, Z.add_0_r, Z.shiftr_0_r in H. apply H; lia.
  - rewrite (wrap_id 16) by lia. change 0x4000 with (1 * 2 ^ 14). rewrite (lor_add 14) by lia.
    pose proof (varint_tagged 1 1 v) as H. change (8 * Z.of_nat 1 + 6) with 14 in H. apply H; lia.
  - rewrite (wrap_id 32) by lia. change 0x80000000 with (2 * 2 ^ 30). rewrite (lor_add 30) by lia.
    pose proof (varint_tagged 3 2 v) as H. change (8 * Z.of_nat 3 + 6) with 30 in H. apply H; lia.
  - change 0xc000000000000000 with (3 * 2 ^ 62). rewrite (lor_add 62) by lia.
    pose proof (varint_tagged 7 3 v) as H. change (8 * Z.of_nat 7 + 6) with 62 in H. apply H; lia.
Qed.

Lemma write_varint_octets v : octets (write_varint v).
Proof. unfold write_varint. repeat case_if; auto with hj. Qed.

(** [write_varint_fixed] writes the same octets at its position. *)
Lemma write_varint_fixed_same out pos v :
  write_varint_fixed out pos v = (copy_at out pos (write_varint v), pos + zlen (write_varint v)).
Proof. unfold write_varint_fixed, write_varint. by repeat case_if. Qed.

Section counter.

Context (capacity : list Z → Z) (slots : list Field → Z) (limits : H3RequestLimits).

#[local] Abbreviation consume_loop := (consume_loop capacity slots).
#[local] Abbreviation consume := (consume capacity slots).
#[local] Abbreviation length_arm := (length_arm capacity slots).
#[local] Abbreviation frame_header := (frame_header capacity slots).

(** ** The invariant of the parser between rounds *)

Definition counter_inv (s : H3FrameCounter) : Prop :=
  varint_wf (varint s) ∧ match phase s with Payload r _ => 0 < r | _ => True end.

Lemma with_head_keeps s :
  phase (with_head capacity slots s limits) = phase s ∧
  varint (with_head capacity slots s limits) = varint s.
Proof.
  unfold with_head. destruct (head s); try done. destruct (field s); try done. cbv zeta.
  by destruct (decode_request_head _ _) as [| |[]].
Qed.

Lemma data_frame_keeps s n :
  phase (data_frame capacity slots s n limits).1 = phase s ∧
  varint (data_frame capacity slots s n limits).1 = varint s.
Proof.
  destruct (with_head_keeps s) as [<- <-]. unfold data_frame. cbv zeta.
  generalize (with_head capacity slots s limits) as s1. intros s1. by repeat case_match.
Qed.

Lemma frame_header_keeps s n :
  phase (frame_header s n limits).1 = phase s ∧ varint (frame_header s n limits).1 = varint s.
Proof.
  unfold frame_header. destruct (request_frame_forbidden _); [done|]. cbv zeta.
  set (idle := _ || _). set (s1 := if idle then _ else s).
  assert (H1 : phase s1 = phase s ∧ varint s1 = varint s) by by unfold s1; destruct idle.
  destruct H1 as [<- <-]. clearbody s1. destruct (idle && _); [by split|]. destruct (_ =? 1).
  - destruct (checked_add _ _); [|done]. case_if; [done|]. cbn.
    by destruct (field s1), (trailers s1).
  - destruct (frame_type s1 =? 0); [|by split]. destruct (data_frame_keeps s1 n) as [<- <-].
    destruct (data_frame _ _ _ _ _) as [s2 []]; [|done]. cbv beta iota. destruct (bool_decide _ || bool_decide _); by split.
Qed.

Lemma length_arm_inv s n s' :
  counter_inv s → 0 <= n → length_arm s n limits = (s', Ok tt) → counter_inv s'.
Proof.
  intros [Hv _] Hn. unfold length_arm. destruct (frame_header _ _ _) as [s1 [sink|e]] eqn:E; [|done].
  destruct (frame_header_keeps s n) as [_ Hk]. rewrite E in Hk. cbn in Hk. intros [= <-]. split; cbn; [by rewrite Hk|].
  destruct (Z.eqb_spec n 0); [done|lia].
Qed.

(** One round of the loop. *)
Inductive outcome :=
| Next (s : H3FrameCounter) (rest body : list Z)
| Stop (s : H3FrameCounter) (body : list Z) (r : result RequestFrameError unit).

Definition round (s : H3FrameCounter) (input body : list Z) : outcome :=
  match phase s with
  | Type_ =>
      match consume_varint s input with
      | (s, None, _) => Stop s body (Ok tt)
      | (s, Some ty, rest) => Next (s <| frame_type := ty |> <| phase := Length |>) rest body
      end
  | Length =>
      match consume_varint s input with
      | (s, None, _) => Stop s body (Ok tt)
      | (s, Some n, rest) =>
          match length_arm s n limits with
          | (s, Err e) => Stop s body (Err e)
          | (s, Ok _) => Next s rest body
          end
      end
  | Payload remaining sink =>
      let consumed := Z.min remaining (zlen input) in
      let '(s, body) := deliver s body (take (Z.to_nat consumed) input) sink in
      Next (s <| phase := if consumed =? remaining then Type_
                          else Payload (remaining - consumed) sink |>)
        (drop (Z.to_nat consumed) input) body
  end.

Lemma consume_loop_round fuel s b input body :
  consume_loop (S fuel) s (b :: input) body limits =
  match round s (b :: input) body with
  | Next s rest body => consume_loop fuel s rest body limits
  | Stop s body r => (s, body, r)
  end.
Proof.
  cbn [h3_frames.consume_loop]. unfold round. destruct (phase s).
  - by destruct (consume_varint _ _) as [[? []] ?].
  - destruct (consume_varint _ _) as [[? []] ?]; [|done]. by destruct (length_arm _ _ _) as [? []].
  - cbv zeta. by destruct (deliver _ _ _ _).
Qed.

Lemma deliver_keeps s body payload sink :
  phase (deliver s body payload sink).1 = phase s ∧ varint (deliver s body payload sink).1 = varint s.
Proof. by destruct sink. Qed.

Lemma round_next s input body s' rest body' :
  counter_inv s → octets input → input ≠ [] → round s input body = Next s' rest body' →
  counter_inv s' ∧ octets rest ∧ (length rest < length input)%nat.
Proof.
  intros [Hv Hp] Ho Hne. unfold round, consume_varint.
  pose proof (varint_consume_spec input (varint s) Hv Ho) as Hs.
  destruct (phase s) as [| |remaining sink] eqn:Eph.
  - destruct (varint_consume _ _) as [[v [x|]] r]; [|done]. destruct Hs as (-> & _ & w & -> & Hw & _).
    intros [= <- <- <-]. apply Forall_app in Ho as [_ Ho]. split_and!; [split; [apply varint_default_wf|done]|done|].
    rewrite length_app. destruct w; [done|simpl; lia].
  - destruct (varint_consume _ _) as [[v [x|]] r]; [|done]. destruct Hs as (-> & Hx & w & -> & Hw & _).
    destruct (length_arm _ _ _) as [s1 [[]|e]] eqn:E; [|done]. intros [= <- <- <-].
    apply Forall_app in Ho as [_ Ho]. split_and!; [|done|rewrite length_app; destruct w; [done|simpl; lia]].
    eapply length_arm_inv; [|apply Hx|exact E]. split; [apply varint_default_wf|]. cbn.
    by rewrite Eph.
  - cbv zeta. clear Hs. set (k := Z.min remaining (zlen input)).
    assert (Hk : 0 < k).
    { destruct input; [done|]. unfold k. rewrite zlen_cons. pose proof (zlen_nonneg input). lia. }
    destruct (deliver_keeps s body (take (Z.to_nat k) input) sink) as [_ Hkv].
    destruct (deliver _ _ _ _) as [s1 b1]. intros [= <- <- <-]. cbn in Hkv.
    split_and!; [split; cbn; [by rewrite Hkv|]|by apply Forall_drop|].
    + destruct (Z.eqb_spec k remaining); [done|]. unfold k in *. lia.
    + rewrite length_drop. destruct input; [done|simpl length]. lia.
Qed.

(** Rounds: one per octet is enough. *)
Lemma consume_rounds fuel fuel' s input body :
  counter_inv s → octets input → (length input ≤ fuel)%nat → (length input ≤ fuel')%nat →
  consume_loop fuel s input body limits = consume_loop fuel' s input body limits.
Proof.
  revert fuel' s input body. induction fuel as [|fuel IH]; intros fuel' s input body Hi Ho Hf Hf';
    (destruct input as [|b input]; [by destruct fuel'|]); [simpl in Hf; lia|].
  destruct fuel' as [|fuel']; [simpl in Hf'; lia|]. rewrite !consume_loop_round.
  destruct (round _ _ _) as [s1 r1 b1|] eqn:E; [|done].
  apply round_next in E as (Hi1 & Ho1 & Hl); [|done..]. simpl length in *. apply IH; [done..|lia|lia].
Qed.

Lemma consume_round s b input body :
  counter_inv s → octets (b :: input) →
  consume s (b :: input) body limits =
  match round s (b :: input) body with
  | Next s rest body => consume s rest body limits
  | Stop s body r => (s, body, r)
  end.
Proof.
  intros Hi Ho. unfold consume. rewrite consume_loop_round. destruct (round _ _ _) as [s1 r1 b1|] eqn:E; [|done].
  apply round_next in E as (Hi1 & Ho1 & Hl); [|done..]. simpl length in *. apply consume_rounds; [done..|lia|lia].
Qed.

Lemma deliver_app s body p1 p2 sink :
  (let '(s1, b1) := deliver s body p1 sink in deliver s1 b1 p2 sink) = deliver s body (p1 ++ p2) sink.
Proof. destruct sink; cbn; try done; by rewrite <-?app_assoc. Qed.

Lemma deliver_phase s p body payload sink :
  deliver (s <| phase := p |>) body payload sink =
  (let '(s1, b1) := deliver s body payload sink in (s1 <| phase := p |>, b1)).
Proof. by destruct sink. Qed.

(** A payload taken in two steps. *)
Lemma round_payload s b rest body remaining sink :
  phase s = Payload remaining sink → 1 < remaining → rest ≠ [] →
  ∃ s1 b1, round s [b] body = Next s1 [] b1 ∧ phase s1 = Payload (remaining - 1) sink ∧
    round s (b :: rest) body = round s1 rest b1.
Proof.
  intros Hp Hr Hne. unfold round at 1 2. rewrite Hp. cbv zeta.
  change (zlen [b]) with 1. rewrite (Z.min_r remaining 1) by lia.
  change (take (Z.to_nat 1) [b]) with [b]. change (drop (Z.to_nat 1) [b]) with (@nil Z).
  rewrite (proj2 (Z.eqb_neq 1 remaining)) by lia.
  set (k := Z.min (remaining - 1) (zlen rest)).
  assert (Hk : Z.min remaining (zlen (b :: rest)) = 1 + k) by (rewrite zlen_cons; unfold k; lia).
  assert (0 < k).
  { destruct rest; [done|]. unfold k. rewrite zlen_cons. pose proof (zlen_nonneg rest). lia. }
  rewrite Hk. replace (Z.to_nat (1 + k)) with (S (Z.to_nat k)) by lia.
  change (take (S (Z.to_nat k)) (b :: rest)) with ([b] ++ take (Z.to_nat k) rest).
  rewrite <-(deliver_app s body [b] (take (Z.to_nat k) rest) sink).
  destruct (deliver s body [b] sink) as [s1 b1] eqn:E. eexists _, _. split; [done|]. split; [done|].
  unfold round. cbn [phase set_phase set]. cbv zeta. fold k. rewrite deliver_phase.
  destruct (deliver s1 b1 _ sink) as [s2 b2]. cbn [drop].
  replace (1 + k =? remaining) with (k =? remaining - 1)
    by (destruct (Z.eqb_spec k (remaining - 1)), (Z.eqb_spec (1 + k) remaining); lia).
  replace (remaining - (1 + k)) with (remaining - 1 - k) by lia. done.
Qed.

Lemma consume_nil s body : consume s [] body limits = (s, body, Ok tt).
Proof. done. Qed.

(** A stream is read octet by octet. *)
Lemma consume_cons s b rest body :
  counter_inv s → octets (b :: rest) →
  consume s (b :: rest) body limits =
  match consume s [b] body limits with
  | (s1, b1, Ok _) => consume s1 rest b1 limits
  | (s1, b1, Err e) => (s1, b1, Err e)
  end.
Proof.
  intros Hi Ho. pose proof Ho as Ho2. apply Forall_cons in Ho2 as [Hb Hor].
  assert (Hob : octets [b]) by by apply Forall_singleton.
  rewrite (consume_round s b rest), (consume_round s b []) by done.
  destruct (phase s) as [| |remaining sink] eqn:Ep.
  3:{ pose proof (proj2 Hi) as Hr. rewrite Ep in Hr.
      destruct (decide (remaining = 1)) as [->|Hr1]; [|destruct (decide (rest = [])) as [->|Hne]].
      - unfold round. rewrite Ep. cbv zeta.
        rewrite !Z.min_l by (rewrite ?zlen_cons; change (zlen []) with 0; pose proof (zlen_nonneg rest); lia).
        change (take (Z.to_nat 1) (b :: rest)) with [b]. change (take (Z.to_nat 1) [b]) with [b].
        by destruct (deliver _ _ _ _).
      - destruct (round s [b] body) as [s1 r1 b1|s1 b1 r] eqn:E; [|by destruct r as [[]|]].
        apply round_next in E as (_ & _ & Hl); [|done..]. destruct r1; [done|simpl in Hl; lia].
      - destruct (round_payload s b rest body remaining sink) as (s1 & b1 & E & Hp & ->); [done|lia|done|].
        rewrite E, consume_nil. apply round_next in E as (Hi1 & _ & _); [|done..].
        destruct rest as [|c rest]; [done|]. by rewrite consume_round. }
  all: unfold round; rewrite Ep; unfold consume_varint; rewrite (varint_consume_cons _ b rest);
    pose proof (varint_step (varint s) b (proj1 Hi) Hb) as Hs;
    destruct (varint_consume (varint s) [b]) as [[v [x|]] r];
    [destruct Hs as (-> & -> & _) | destruct Hs as (Hv & -> & _)].
  - done.
  - destruct rest as [|c rest]; [done|]. rewrite consume_round by (done || by split; cbn; [|rewrite Ep]).
    unfold round. cbn [phase set_varint set]. rewrite Ep. unfold consume_varint. cbn [varint set_varint set].
    by destruct (varint_consume v _) as [[? []] ?].
  - destruct (length_arm _ _ _) as [? [[]|]]; done.
  - destruct rest as [|c rest]; [done|]. rewrite consume_round by (done || by split; cbn; [|rewrite Ep]).
    unfold round. cbn [phase set_varint set]. rewrite Ep. unfold consume_varint. cbn [varint set_varint set].
    by destruct (varint_consume v _) as [[? []] ?].
Qed.

Lemma consume_one_inv s b body s1 b1 :
  counter_inv s → is_byte b → consume s [b] body limits = (s1, b1, Ok tt) → counter_inv s1.
Proof.
  intros Hi Hb. rewrite consume_round by (done || by apply Forall_singleton).
  destruct (round s [b] body) as [s' r' b'|s' b' r'] eqn:E.
  - apply round_next in E as (Hi1 & _ & Hl); [|done|by apply Forall_singleton|done].
    destruct r'; [|simpl in Hl; lia]. by intros [= <- <-].
  - intros [= <- <- ->]. revert E. unfold round, consume_varint.
    pose proof (varint_step (varint s) b (proj1 Hi) Hb) as Hs.
    destruct (phase s) as [| |remaining sink] eqn:Ep.
    + destruct (varint_consume (varint s) [b]) as [[v [x|]] r]; [done|].
      intros [= <- <-]. split; [apply Hs|]. cbn. by rewrite Ep.
    + destruct (varint_consume (varint s) [b]) as [[v [x|]] r].
      * by destruct (length_arm _ _ _) as [? []].
      * intros [= <- <-]. split; [apply Hs|]. cbn. by rewrite Ep.
    + cbv zeta. by destruct (deliver _ _ _ _).
Qed.

(** The invariant holds as long as the stream is accepted. *)
Lemma consume_inv s input body s1 b1 :
  counter_inv s → octets input → consume s input body limits = (s1, b1, Ok tt) → counter_inv s1.
Proof.
  revert s body. induction input as [|b input IH]; intros s body Hi Ho.
  - rewrite consume_nil. by intros [= <- <-].
  - rewrite consume_cons by done. apply Forall_cons in Ho as [Hb Ho].
    destruct (consume s [b] body limits) as [[s2 b2] [[]|e]] eqn:E; [|done].
    apply IH; [|done]. by eapply consume_one_inv.
Qed.

(** Where the stream is cut does not matter. *)
Lemma consume_app s a b body :
  counter_inv s → octets (a ++ b) →
  consume s (a ++ b) body limits =
  match consume s a body limits with
  | (s1, b1, Ok _) => consume s1 b b1 limits
  | (s1, b1, Err e) => (s1, b1, Err e)
  end.
Proof.
  revert s body. induction a as [|c a IH]; intros s body Hi Ho; [done|].
  rewrite <-app_comm_cons in *. apply Forall_cons in Ho as Ho2. destruct Ho2 as [Hc Ho2].
  rewrite consume_cons, (consume_cons s c a); [|done| |done..].
  2:{ constructor; [done|]. by apply Forall_app in Ho2 as [? _]. }
  destruct (consume s [c] body limits) as [[s2 b2] [[]|e]] eqn:E; [|done].
  apply IH; [|done]. by eapply consume_one_inv.
Qed.

End counter.

End h3_wire.
