(* ===== verification/H3FramesTheorems.v ===== *)
(** * HTTP/3 request streams: what the incremental parser accepts

    A stream is a sequence of frames, each a type and a payload ([stream_wire]). The parser
    of [H3Frames] accepts exactly the streams that hold one request within the limits, and
    keeps its field sections and its body ([h3_request_exact]), however the stream is cut
    into chunks ([h3_segmentation]). *)

From stdpp Require Import base list gmap strings.
From Stdlib Require Import ZArith Lia.
From S2P Require Import Prelude HpackInteger HuffmanDecode Qpack Net RustStr HttpUtil H1Codec H3Frames H3FramesWire.

#[local] Open Scope record_scope.

Module h3_stream.

Import qpack h3_frames h3_wire.

(** ** Frames on the wire *)

Abbreviation frame := (Z * list Z)%type.

Definition frame_wire (f : frame) (w : list Z) : Prop :=
  ∃ tw lw, varint_wire f.1 tw ∧ varint_wire (zlen f.2) lw ∧ w = tw ++ lw ++ f.2.

Inductive stream_wire : list frame → list Z → Prop :=
| wire_nil : stream_wire [] []
| wire_cons f fs w p : frame_wire f w → stream_wire fs p → stream_wire (f :: fs) (w ++ p).

(** The frames that make a request: HEADERS (1) and DATA (0). *)
Definition relevant (fs : list frame) : list frame := filter (fun f => f.1 = 0 ∨ f.1 = 1) fs.

(** A header section, the DATA payloads, and perhaps trailers. *)
Definition shape (fs : list frame) (fld : option (list Z)) (ds : list (list Z))
    (trl : option (list Z)) : Prop :=
  match fld with
  | None => relevant fs = [] ∧ ds = [] ∧ trl = None
  | Some f =>
      relevant fs = (1, f) :: (pair 0 <$> ds) ++ match trl with None => [] | Some t => [(1, t)] end
  end.

(** Octets of payload in the frames of type [ty]. *)
Definition payload_sum (ty : Z) (fs : list frame) : Z :=
  foldr (fun f n => (if f.1 =? ty then zlen f.2 else 0) + n) 0 fs.

(** Frames that advance neither head nor body. *)
Definition idle (f : frame) : bool := (zlen f.2 =? 0) || negb (bool_decide (f.1 ∈ [0x00; 0x01])).
Definition idles (fs : list frame) : Z := foldr (fun f n => (if idle f then 1 else 0) + n) 0 fs.

Definition has_data (fs : list frame) : bool := existsb (fun f => f.1 =? 0) fs.

(** The head decoded for the first DATA frame, if there is one. *)
Definition head_of (limits : H3RequestLimits) (fs : list frame) (fld : option (list Z)) : H3RequestHead :=
  match fld with
  | Some f => if has_data fs then decode_request_head f (max_header_bytes limits) else Pending
  | None => Pending
  end.

(** The limits. *)
Record admitted (limits : H3RequestLimits) (fs : list frame) (fld : option (list Z)) : Prop := {
  adm_types : Forall (fun f => request_frame_forbidden f.1 = false) fs;
  adm_idle : idles fs <= H3_NO_PROGRESS_FRAMES;
  adm_header : payload_sum 1 fs <= max_header_bytes limits;
  adm_body : payload_sum 0 fs <= max_body_bytes limits;
  adm_length :
    match head_of limits fs fld with
    | Decoded _ (Some content_length) =>
        content_length <= max_body_bytes limits ∧ payload_sum 0 fs <= content_length
    | _ => True
    end;
}.

Lemma payload_sum_app ty fs gs : payload_sum ty (fs ++ gs) = payload_sum ty fs + payload_sum ty gs.
Proof. induction fs; simpl; [done|lia]. Qed.

Lemma idles_app fs gs : idles (fs ++ gs) = idles fs + idles gs.
Proof. induction fs; simpl; [done|lia]. Qed.

Lemma payload_sum_nonneg ty fs : 0 <= payload_sum ty fs.
Proof. induction fs as [|f fs IH]; simpl; [lia|]. pose proof (zlen_nonneg f.2). case_if; lia. Qed.

Lemma idles_nonneg fs : 0 <= idles fs.
Proof. induction fs; simpl; [lia|]. case_if; lia. Qed.

Lemma has_data_app fs gs : has_data (fs ++ gs) = has_data fs || has_data gs.
Proof. apply existsb_app. Qed.

(** The same by scanning the frames, which is how the parser sees them. *)
Definition view : Type := option (list Z) * list (list Z) * option (list Z).

Definition scan (v : option view) (f : frame) : option view :=
  match v with
  | None => None
  | Some (fld, ds, trl) =>
      if f.1 =? 1 then
        match fld, trl with
        | None, None => Some (Some f.2, ds, None)
        | Some _, None => Some (fld, ds, Some f.2)
        | _, _ => None
        end
      else if f.1 =? 0 then
        match fld, trl with
        | Some _, None => Some (fld, ds ++ [f.2], None)
        | _, _ => None
        end
      else Some (fld, ds, trl)
  end.

Definition scan_all (fs : list frame) : option view := fold_left scan fs (Some (None, [], None)).

Lemma scan_all_snoc fs f : scan_all (fs ++ [f]) = scan (scan_all fs) f.
Proof. unfold scan_all. by rewrite fold_left_app. Qed.

Lemma relevant_app fs gs : relevant (fs ++ gs) = relevant fs ++ relevant gs.
Proof. apply filter_app. Qed.

Lemma relevant_yes f : f.1 = 0 ∨ f.1 = 1 → relevant [f] = [f].
Proof. intros H. unfold relevant. by rewrite filter_cons_True. Qed.

Lemma relevant_no f : f.1 ≠ 0 → f.1 ≠ 1 → relevant [f] = [].
Proof. intros H0 H1. unfold relevant. rewrite filter_cons_False; [done|]. by intros [?|?]. Qed.

Lemma scan_relevant fs v : fold_left scan fs v = fold_left scan (relevant fs) v.
Proof.
  revert v. induction fs as [|f fs IH]; intros v; [done|]. cbn [fold_left].
  change (f :: fs) with ([f] ++ fs). rewrite relevant_app, fold_left_app, <-IH. f_equal.
  destruct (decide (f.1 = 0 ∨ f.1 = 1)) as [H|H]; [by rewrite relevant_yes|].
  rewrite relevant_no by tauto. destruct v as [[[]]|]; [|done]. cbn.
  by rewrite !(proj2 (Z.eqb_neq _ _)) by tauto.
Qed.

Lemma scan_shape fs fld ds trl : scan_all fs = Some (fld, ds, trl) ↔ shape fs fld ds trl.
Proof.
  split.
  - revert fld ds trl. induction fs as [|f fs IH] using rev_ind; intros fld ds trl.
    { intros [= <- <- <-]. done. }
    rewrite scan_all_snoc. destruct (scan_all fs) as [[[fld0 ds0] trl0]|]; [|done].
    specialize (IH _ _ _ eq_refl). unfold shape in *. rewrite relevant_app. destruct f as [ty d]. cbn [scan fst snd].
    destruct (Z.eqb_spec ty 1) as [->|H1]; [|destruct (Z.eqb_spec ty 0) as [->|H0]].
    + rewrite relevant_yes by auto. destruct fld0 as [f0|], trl0 as [t0|]; try done; intros [= <- <- <-].
      * by rewrite IH, app_nil_r.
      * by destruct IH as (-> & -> & _).
    + rewrite relevant_yes by auto. destruct fld0 as [f0|], trl0 as [t0|]; try done; intros [= <- <- <-].
      by rewrite IH, !app_nil_r, fmap_app.
    + rewrite relevant_no by done. intros [= <- <- <-]. by rewrite app_nil_r.
  - unfold scan_all, shape. rewrite scan_relevant. destruct fld as [f0|].
    + intros ->. cbn [fold_left scan fst snd]. change (1 =? 1) with true. cbv iota. rewrite fold_left_app.
      assert (Hd : ∀ l a, fold_left scan (pair 0 <$> l) (Some (Some f0, a, None)) = Some (Some f0, a ++ l, None)).
      { induction l as [|d l IH]; intros a; [by rewrite app_nil_r|]. cbn. rewrite IH. by rewrite <-app_assoc. }
      rewrite Hd. by destruct trl.
    + by intros (-> & -> & ->).
Qed.

Section counter.

Context (capacity : list Z → Z) (slots : list Field → Z) (limits : H3RequestLimits).

#[local] Abbreviation consume := (consume capacity slots).
#[local] Abbreviation length_arm := (length_arm capacity slots).
#[local] Abbreviation frame_header := (frame_header capacity slots).

(** Between two frames. *)
Definition boundary (s : H3FrameCounter) : Prop := phase s = Type_ ∧ varint s = varint_default.

(** What the parser does with one whole frame. *)
Definition frame_step (s : H3FrameCounter) (body : list Z) (f : frame) :
    H3FrameCounter * list Z * result RequestFrameError unit :=
  match length_arm (s <| varint := varint_default |> <| frame_type := f.1 |> <| phase := Length |>)
          (zlen f.2) limits with
  | (s, Err e) => (s, body, Err e)
  | (s, Ok _) =>
      match phase s with
      | Payload _ sink =>
          let '(s, body) := deliver s body f.2 sink in (s <| phase := Type_ |>, body, Ok tt)
      | _ => (s, body, Ok tt)
      end
  end.

Fixpoint run_frames (s : H3FrameCounter) (body : list Z) (fs : list frame) :
    H3FrameCounter * list Z * result RequestFrameError unit :=
  match fs with
  | [] => (s, body, Ok tt)
  | f :: fs =>
      match frame_step s body f with
      | (s, body, Ok _) => run_frames s body fs
      | (s, body, Err e) => (s, body, Err e)
      end
  end.

Lemma boundary_inv s : boundary s → counter_inv s.
Proof. intros [Hp Hv]. split; [rewrite Hv; apply varint_default_wf|by rewrite Hp]. Qed.

Lemma varint_wire_nonempty v w : varint_wire v w → w ≠ [].
Proof. by intros H ->. Qed.

(** A round on an input known not to be empty. *)
Lemma consume_round' s input body :
  counter_inv s → octets input → input ≠ [] →
  consume s input body limits =
  match round capacity slots limits s input body with
  | Next s rest body => consume s rest body limits
  | Stop s body r => (s, body, r)
  end.
Proof. intros Hi Ho Hne. destruct input; [done|]. by apply consume_round. Qed.

Lemma round_type s tw rest body ty :
  boundary s → varint_wire ty tw →
  round capacity slots limits s (tw ++ rest) body =
  Next (s <| varint := varint_default |> <| frame_type := ty |> <| phase := Length |>) rest body.
Proof.
  intros [Hp Hv] Hw. unfold round, consume_varint. rewrite Hp, Hv.
  by rewrite (varint_wire_app _ _ rest _ _ Hw).
Qed.

Lemma round_length s lw rest body n :
  phase s = Length → varint s = varint_default → varint_wire n lw →
  round capacity slots limits s (lw ++ rest) body =
  match length_arm (s <| varint := varint_default |>) n limits with
  | (s, Err e) => Stop s body (Err e)
  | (s, Ok _) => Next s rest body
  end.
Proof.
  intros Hp Hv Hw. unfold round, consume_varint. rewrite Hp, Hv.
  by rewrite (varint_wire_app _ _ rest _ _ Hw).
Qed.

Lemma round_whole_payload s payload rest body sink :
  phase s = Payload (zlen payload) sink →
  round capacity slots limits s (payload ++ rest) body =
  let '(s, body) := deliver s body payload sink in Next (s <| phase := Type_ |>) rest body.
Proof.
  intros Hp. unfold round. rewrite Hp. cbv zeta. rewrite zlen_app.
  rewrite Z.min_l by (pose proof (zlen_nonneg rest); lia). rewrite Z.eqb_refl.
  replace (Z.to_nat (zlen payload)) with (length payload) by (unfold zlen; lia).
  by rewrite take_app_length, drop_app_length.
Qed.

Lemma length_arm_result s n s' :
  length_arm s n limits = (s', Ok tt) →
  varint s' = varint s ∧
  (n = 0 ∧ phase s' = Type_ ∨ n ≠ 0 ∧ ∃ sink, phase s' = Payload n sink).
Proof.
  unfold h3_frames.length_arm. destruct (frame_header_keeps capacity slots limits s n) as [_ Hk].
  destruct (frame_header _ _ _) as [s1 [sink|e]]; [|done]. intros [= <-]. cbn in *. split; [done|].
  destruct (Z.eqb_spec n 0); [by left|right; eauto].
Qed.

Lemma consume_frame s body f w rest :
  boundary s → frame_wire f w → octets (w ++ rest) →
  consume s (w ++ rest) body limits =
  match frame_step s body f with
  | (s, body, Ok _) => consume s rest body limits
  | (s, body, Err e) => (s, body, Err e)
  end.
Proof.
  intros Hb (tw & lw & Ht & Hl & ->) Ho. rewrite <-!app_assoc in *.
  pose proof (varint_wire_nonempty _ _ Ht). pose proof (varint_wire_nonempty _ _ Hl).
  rewrite consume_round'; [|by apply boundary_inv|done|by destruct tw]. erewrite round_type by done.
  apply Forall_app in Ho as [_ Ho]. set (s1 := s <| varint := _ |> <| frame_type := _ |> <| phase := _ |>).
  assert (Hi1 : counter_inv s1) by (split; [apply varint_default_wf|done]).
  rewrite consume_round'; [|done..|by destruct lw]. erewrite round_length by done.
  apply Forall_app in Ho as [_ Ho]. unfold frame_step. fold s1.
  change (s1 <| varint := varint_default |>) with s1.
  destruct (length_arm s1 (zlen f.2) limits) as [s2 [[]|e]] eqn:E; [|done].
  assert (Hi2 : counter_inv s2) by (eapply length_arm_inv; [exact Hi1|exact (zlen_nonneg f.2)|exact E]).
  apply length_arm_result in E as [_ [[Hz ->]|(Hz & sink & Hp)]].
  - destruct f.2; [done|]. rewrite zlen_cons in Hz. pose proof (zlen_nonneg l). lia.
  - rewrite Hp, consume_round'; [|done..|by destruct f.2]. rewrite (round_whole_payload _ _ _ _ sink) by done.
    by destruct (deliver _ _ _ _).
Qed.

Lemma frame_step_boundary s body f s' body' :
  frame_step s body f = (s', body', Ok tt) → boundary s'.
Proof.
  unfold frame_step. destruct (length_arm _ _ _) as [s1 [[]|e]] eqn:E; [|done].
  apply length_arm_result in E as [Hv [[_ Hp]|(_ & sink & Hp)]]; rewrite Hp.
  - intros [= <- <-]. by split.
  - destruct (deliver_keeps s1 body f.2 sink) as [_ Hk].
    destruct (deliver _ _ _ _) as [s2 b2]. intros [= <- <-]. split; [done|]. cbn in *. congruence.
Qed.

(** A stream of whole frames. *)
Lemma consume_stream s body fs p :
  boundary s → stream_wire fs p → octets p →
  consume s p body limits = run_frames s body fs.
Proof.
  intros Hb Hw. revert s body Hb. induction Hw as [|f fs w p Hf Hw IH]; intros s body Hb Ho; [done|].
  erewrite consume_frame by done. cbn [run_frames].
  destruct (frame_step s body f) as [[s1 b1] [[]|e]] eqn:E; [|done].
  apply IH; [by eapply frame_step_boundary|by apply Forall_app in Ho as [_ Ho]].
Qed.

(** Either an integer comes first, or the input ends inside one. *)
Lemma first_varint input :
  octets input →
  (∃ v w rest, input = w ++ rest ∧ varint_wire v w ∧ 0 <= v) ∨
  (∃ v, varint_consume varint_default input = (v, None, []) ∧ bytes v = input).
Proof.
  intros Ho. pose proof (varint_consume_spec input varint_default varint_default_wf Ho) as Hs.
  destruct (varint_consume varint_default input) as [[v [x|]] rest].
  - left. destruct Hs as (-> & Hx & w & -> & _ & Hw). exists x, w, rest. split_and!; [done..|lia].
  - right. destruct Hs as (_ & -> & Hb). by exists v.
Qed.

(** Input that ends inside a frame leaves the parser there. *)
Lemma split_frame s input body s' body' :
  boundary s → octets input → input ≠ [] → consume s input body limits = (s', body', Ok tt) →
  phase s' = Type_ → bytes (varint s') = [] →
  ∃ f w rest, frame_wire f w ∧ input = w ++ rest.
Proof.
  intros Hb Ho Hne Hc Hp Hv.
  destruct (first_varint input Ho) as [(ty & tw & r1 & -> & Ht & _)|(v & E & Hbv)].
  2:{ rewrite consume_round' in Hc by (done || by apply boundary_inv). unfold round, consume_varint in Hc.
      rewrite (proj1 Hb), (proj2 Hb), E in Hc. injection Hc as <- <-. cbn in Hv. by subst. }
  rewrite consume_round' in Hc by (done || by apply boundary_inv). erewrite round_type in Hc by done.
  apply Forall_app in Ho as [_ Ho]. revert Hc. set (s1 := s <| varint := _ |> <| frame_type := _ |> <| phase := _ |>).
  intros Hc. assert (Hi1 : counter_inv s1) by (split; [apply varint_default_wf|done]).
  destruct (decide (r1 = [])) as [->|Hr1]; [injection Hc as <- <-; done|].
  destruct (first_varint r1 Ho) as [(n & lw & r2 & -> & Hl & Hn)|(v & E & Hbv)].
  2:{ rewrite consume_round' in Hc by done. unfold round, consume_varint in Hc.
      change (phase s1) with Length in Hc. change (varint s1) with varint_default in Hc.
      rewrite E in Hc. injection Hc as <- <-. done. }
  rewrite consume_round' in Hc by done. erewrite round_length in Hc by done.
  apply Forall_app in Ho as [_ Ho]. change (s1 <| varint := varint_default |>) with s1 in Hc.
  destruct (length_arm s1 n limits) as [s2 [[]|e]] eqn:E; [|done].
  assert (Hi2 : counter_inv s2) by (eapply length_arm_inv; [exact Hi1|exact Hn|exact E]).
  destruct (Z.leb_spec n (zlen r2)) as [Hle|Hlt].
  - exists (ty, take (Z.to_nat n) r2), (tw ++ lw ++ take (Z.to_nat n) r2), (drop (Z.to_nat n) r2).
    rewrite <-!app_assoc, take_drop. split; [|done]. exists tw, lw. split_and!; [done| |done].
    cbn [snd]. rewrite zlen_take. by replace (Z.min _ _) with n by lia.
  - exfalso. apply length_arm_result in E as [_ [[-> _]|(_ & sink & Hp2)]]; [pose proof (zlen_nonneg r2); lia|].
    destruct (decide (r2 = [])) as [->|Hr2]; [injection Hc as <- <-; congruence|].
    rewrite consume_round' in Hc by done. unfold round in Hc. rewrite Hp2 in Hc. cbv zeta in Hc.
    rewrite Z.min_r, (proj2 (Z.eqb_neq _ _)) in Hc by lia.
    rewrite (drop_ge r2) in Hc by (unfold zlen; lia).
    destruct (deliver _ _ _ _). injection Hc as <- <-. done.
Qed.

(** An accepted stream that ends between frames is a sequence of whole frames. *)
Lemma tokenise input s body s' body' :
  boundary s → octets input → consume s input body limits = (s', body', Ok tt) →
  phase s' = Type_ → bytes (varint s') = [] →
  ∃ fs, stream_wire fs input ∧ run_frames s body fs = (s', body', Ok tt).
Proof.
  remember (length input) as n eqn:Hn. revert input Hn s body.
  induction (lt_wf n) as [n _ IH]. intros input -> s body Hb Ho Hc Hp Hv.
  destruct (decide (input = [])) as [->|Hne].
  { injection Hc as <- <-. exists []. split; [constructor|done]. }
  destruct (split_frame s input body s' body') as (f & w & rest & Hf & ->); [done..|].
  erewrite consume_frame in Hc by done.
  destruct (frame_step s body f) as [[s1 b1] [[]|e]] eqn:E; [|done].
  destruct (IH (length rest)) with (input := rest) (s := s1) (body := b1) as (fs & Hw & Hr);
    [|done|by eapply frame_step_boundary|by apply Forall_app in Ho as [_ Ho]|done..|].
  { rewrite length_app. destruct Hf as (tw & lw & Ht & _ & ->). apply varint_wire_nonempty in Ht.
    destruct tw; [done|]. simpl. lia. }
  exists (f :: fs). split; [by constructor|]. cbn [run_frames]. by rewrite E.
Qed.

(** ** Frames, one after the other *)

Record good (fs : list frame) (s : H3FrameCounter) (body : list Z) : Prop := {
  g_boundary : boundary s;
  g_scan : ∃ ds, scan_all fs = Some (field s, ds, trailers s) ∧ body = concat ds;
  g_wf : malformed s = false;
  g_header : header_bytes s = payload_sum 1 fs;
  g_body : body_bytes s = payload_sum 0 fs;
  g_idle : no_progress_frames s = idles fs;
  g_head : head s = head_of limits fs (field s);
  g_adm : admitted limits fs (field s);
}.

(** The fields of the state after an admitted frame. *)
Lemma frame_step_ok s body f s3 sink :
  frame_header (s <| varint := varint_default |> <| frame_type := f.1 |> <| phase := Length |>)
    (zlen f.2) limits = (s3, Ok sink) →
  (sink = SField → is_Some (field s3)) → (sink = STrailers → is_Some (trailers s3)) →
  ∃ s' body', frame_step s body f = (s', body', Ok tt) ∧
    field s' = match sink with SField => Some (default [] (field s3) ++ f.2) | _ => field s3 end ∧
    trailers s' = match sink with STrailers => Some (default [] (trailers s3) ++ f.2) | _ => trailers s3 end ∧
    body' = match sink with SBody => body ++ f.2 | _ => body end ∧
    malformed s' = malformed s3 ∧ header_bytes s' = header_bytes s3 ∧ body_bytes s' = body_bytes s3 ∧
    no_progress_frames s' = no_progress_frames s3 ∧ head s' = head s3.
Proof.
  intros E Hf Ht. unfold frame_step, length_arm. rewrite E. cbn [phase set_phase set].
  destruct (Z.eqb_spec (zlen f.2) 0) as [Hz|Hz].
  - assert (f.2 = []) as -> by (destruct f.2; [done|rewrite zlen_cons in Hz; pose proof (zlen_nonneg l); lia]).
    eexists _, _. split; [done|]. rewrite !app_nil_r.
    destruct sink; split_and!; try done; cbn.
    + by destruct Hf as [? ->].
    + by destruct Ht as [? ->].
  - destruct sink; cbn; eexists _, _; (split; [done|]); split_and!; done.
Qed.

Lemma frame_step_err s body f s3 e :
  frame_header (s <| varint := varint_default |> <| frame_type := f.1 |> <| phase := Length |>)
    (zlen f.2) limits = (s3, Err e) →
  frame_step s body f = (s3, body, Err e).
Proof. intros E. unfold frame_step, length_arm. by rewrite E. Qed.

(** The arms of [frame_header] for HEADERS and DATA. *)
Definition headers_arm (s : H3FrameCounter) (n : Z) : H3FrameCounter * result RequestFrameError PayloadSink :=
  match checked_add (header_bytes s) n with
  | None => (s, Err HeadersTooLarge)
  | Some total =>
      if max_header_bytes limits <? total then (s, Err HeadersTooLarge)
      else
        let s := s <| header_bytes := total |> in
        match field s, trailers s with
        | None, _ => (s <| field := Some [] |>, Ok SField)
        | Some _, None => (s <| trailers := Some [] |>, Ok STrailers)
        | Some _, Some _ => (s <| malformed := true |>, Ok SDiscard)
        end
  end.

Definition data_arm (s : H3FrameCounter) (n : Z) : H3FrameCounter * result RequestFrameError PayloadSink :=
  match data_frame capacity slots s n limits with
  | (s, Err e) => (s, Err e)
  | (s, Ok _) =>
      let s :=
        if bool_decide (field s = None) || bool_decide (is_Some (trailers s))
        then s <| malformed := true |> else s in
      (s, Ok (if malformed s then SDiscard else SBody))
  end.

(** The state once a frame without progress is counted. *)
Definition counted (s : H3FrameCounter) (f : frame) : H3FrameCounter :=
  let s := s <| varint := varint_default |> <| frame_type := f.1 |> <| phase := Length |> in
  if idle f then s <| no_progress_frames := no_progress_frames s + 1 |> else s.

Lemma frame_header_arms s f :
  frame_header (s <| varint := varint_default |> <| frame_type := f.1 |> <| phase := Length |>)
    (zlen f.2) limits =
  if request_frame_forbidden f.1
  then (s <| varint := varint_default |> <| frame_type := f.1 |> <| phase := Length |>, Err Unexpected)
  else if idle f && (H3_NO_PROGRESS_FRAMES <? no_progress_frames (counted s f))
  then (counted s f, Err ExcessiveLoad)
  else if f.1 =? 1 then headers_arm (counted s f) (zlen f.2)
  else if f.1 =? 0 then data_arm (counted s f) (zlen f.2)
  else (counted s f, Ok SDiscard).
Proof.
  unfold h3_frames.frame_header. cbn [frame_type set_frame_type set_phase set]. fold (idle f).
  destruct (request_frame_forbidden f.1); [done|]. unfold counted. by destruct (idle f).
Qed.

Lemma counted_fields s f :
  field (counted s f) = field s ∧ trailers (counted s f) = trailers s ∧
  malformed (counted s f) = malformed s ∧ head (counted s f) = head s ∧
  header_bytes (counted s f) = header_bytes s ∧ body_bytes (counted s f) = body_bytes s ∧
  no_progress_frames (counted s f) = no_progress_frames s + (if idle f then 1 else 0).
Proof. unfold counted. cbv zeta. destruct (idle f); split_and!; try done. cbn. lia. Qed.

(** What one more frame does to the sums. *)
Lemma sums_snoc fs f :
  payload_sum 1 (fs ++ [f]) = payload_sum 1 fs + (if f.1 =? 1 then zlen f.2 else 0) ∧
  payload_sum 0 (fs ++ [f]) = payload_sum 0 fs + (if f.1 =? 0 then zlen f.2 else 0) ∧
  idles (fs ++ [f]) = idles fs + (if idle f then 1 else 0) ∧
  has_data (fs ++ [f]) = has_data fs || (f.1 =? 0).
Proof.
  rewrite !payload_sum_app, idles_app, has_data_app. cbn [payload_sum idles has_data foldr existsb].
  rewrite orb_false_r. split_and!; try done; lia.
Qed.

(** The outcomes of a frame after a good prefix. *)
Inductive stepped (fs : list frame) (s : H3FrameCounter) (body : list Z) (f : frame) : Prop :=
| step_good s' body' :
    frame_step s body f = (s', body', Ok tt) → good (fs ++ [f]) s' body' → stepped fs s body f
| step_malformed s' body' :
    frame_step s body f = (s', body', Ok tt) → malformed s' = true → scan_all (fs ++ [f]) = None →
    stepped fs s body f
| step_refused s' body' e :
    frame_step s body f = (s', body', Err e) →
    (∀ fld ds trl, scan_all (fs ++ [f]) = Some (fld, ds, trl) → ¬ admitted limits (fs ++ [f]) fld) →
    stepped fs s body f.

Context (Hmax_h : max_header_bytes limits <= U64_MAX) (Hmax_b : max_body_bytes limits <= U64_MAX).

Lemma scan_no_field fs ds trl : scan_all fs = Some (None, ds, trl) → trl = None ∧ ds = [] ∧ has_data fs = false.
Proof.
  intros H%scan_shape. destruct H as (Hr & -> & ->). split_and!; try done.
  apply not_true_is_false. intros (f & Hin & Hf)%existsb_exists. apply Z.eqb_eq in Hf.
  apply list_elem_of_In in Hin. assert (Hel : f ∈ relevant fs) by (apply list_elem_of_filter; auto).
  rewrite Hr in Hel. by apply not_elem_of_nil in Hel.
Qed.

(** An admitted frame that leaves the head alone. *)
Lemma admitted_snoc fs f fld fld' :
  admitted limits fs fld → request_frame_forbidden f.1 = false →
  idles (fs ++ [f]) <= H3_NO_PROGRESS_FRAMES → payload_sum 1 (fs ++ [f]) <= max_header_bytes limits →
  f.1 ≠ 0 → head_of limits (fs ++ [f]) fld' = head_of limits fs fld →
  admitted limits (fs ++ [f]) fld'.
Proof.
  intros [A1 A2 A3 A4 A5] Hf Hi Hh H0 Hhd. destruct (sums_snoc fs f) as (_ & Hb & _ & _).
  rewrite (proj2 (Z.eqb_neq _ _) H0), Z.add_0_r in Hb. split; try done; rewrite ?Hhd, ?Hb; try done.
  apply Forall_app. split; [done|by apply Forall_singleton].
Qed.

Lemma head_of_same fs f fld : f.1 ≠ 0 → head_of limits (fs ++ [f]) fld = head_of limits fs fld.
Proof.
  intros H0. unfold head_of. destruct (sums_snoc fs f) as (_ & _ & _ & ->).
  by rewrite (proj2 (Z.eqb_neq _ _) H0), orb_false_r.
Qed.

Lemma step_other fs s body f :
  good fs s body → f.1 ≠ 0 → f.1 ≠ 1 → request_frame_forbidden f.1 = false →
  idles (fs ++ [f]) <= H3_NO_PROGRESS_FRAMES →
  frame_header (s <| varint := varint_default |> <| frame_type := f.1 |> <| phase := Length |>)
    (zlen f.2) limits = (counted s f, Ok SDiscard) → stepped fs s body f.
Proof.
  intros G H0 H1 Hf Hi E. destruct (counted_fields s f) as (F1 & F2 & F3 & F4 & F5 & F6 & F7).
  destruct (frame_step_ok s body f _ _ E) as (s' & b' & Es & P1 & P2 & P3 & P4 & P5 & P6 & P7 & P8); [done..|].
  destruct (sums_snoc fs f) as (Q1 & Q2 & Q3 & _).
  rewrite (proj2 (Z.eqb_neq _ _) H0), Z.add_0_r in Q2. rewrite (proj2 (Z.eqb_neq _ _) H1), Z.add_0_r in Q1.
  destruct G as [G1 (ds & Gs & Gb) G3 G4 G5 G6 G7 G8]. apply (step_good _ _ _ _ s' b' Es).
  split; rewrite ?P1, ?P2, ?P4, ?P5, ?P6, ?P7, ?P8, ?F1, ?F2, ?F3, ?F4, ?F5, ?F6, ?F7; try congruence.
  - by eapply frame_step_boundary.
  - exists ds. split; [|congruence]. rewrite scan_all_snoc, Gs. cbn.
    by rewrite !(proj2 (Z.eqb_neq _ _)).
  - rewrite head_of_same by done. congruence.
  - eapply admitted_snoc; [exact G8|done..| |done|by apply head_of_same].
    rewrite Q1. apply G8.
Qed.

Lemma step_headers fs s body f :
  good fs s body → f.1 = 1 → request_frame_forbidden f.1 = false →
  idles (fs ++ [f]) <= H3_NO_PROGRESS_FRAMES →
  frame_header (s <| varint := varint_default |> <| frame_type := f.1 |> <| phase := Length |>)
    (zlen f.2) limits = headers_arm (counted s f) (zlen f.2) → stepped fs s body f.
Proof.
  intros G H1 Hf Hi E. destruct (counted_fields s f) as (F1 & F2 & F3 & F4 & F5 & F6 & F7).
  destruct (sums_snoc fs f) as (Q1 & Q2 & Q3 & _). rewrite H1 in Q1, Q2. cbn in Q1, Q2. rewrite Z.add_0_r in Q2.
  destruct G as [G1 (ds & Gs & Gb) G3 G4 G5 G6 G7 G8].
  assert (Hover : max_header_bytes limits < header_bytes (counted s f) + zlen f.2 →
    ∀ fld ds trl, scan_all (fs ++ [f]) = Some (fld, ds, trl) → ¬ admitted limits (fs ++ [f]) fld).
  { intros Hlt fld' ds' trl' _ [_ _ Ah _ _]. rewrite F5, G4 in Hlt. lia. }
  unfold headers_arm in E. destruct (checked_add_cases (header_bytes (counted s f)) (zlen f.2)) as [[Ec Hc]|[Ec Hc]];
    rewrite Ec in E; [|by eapply step_refused; [by apply frame_step_err|apply Hover; lia]].
  destruct (Z.ltb_spec (max_header_bytes limits) (header_bytes (counted s f) + zlen f.2)) as [Hlt|Hle];
    [by eapply step_refused; [by apply frame_step_err|apply Hover; lia]|].
  cbv zeta in E. cbn [field trailers set_header_bytes set] in E. rewrite F1, F2 in E.
  assert (Hadm : ∀ fld', head_of limits fs fld' = head_of limits fs (field s) → admitted limits (fs ++ [f]) fld').
  { intros fld' Hh. eapply admitted_snoc; [exact G8|done..| |lia|by rewrite head_of_same by lia].
    rewrite Q1, <-G4, <-F5. done. }
  assert (Hscan : scan_all (fs ++ [f]) = scan (Some (field s, ds, trailers s)) f) by by rewrite scan_all_snoc, Gs.
  unfold scan in Hscan. rewrite H1 in Hscan. change (1 =? 1) with true in Hscan. cbv iota in Hscan.
  destruct (field s) as [f0|] eqn:Ef; [destruct (trailers s) as [t0|] eqn:Et|].
  - destruct (frame_step_ok s body f _ _ E) as (s' & b' & Es & _ & _ & _ & P4 & _); [done..|].
    by eapply step_malformed.
  - destruct (frame_step_ok s body f _ _ E) as (s' & b' & Es & P1 & P2 & P3 & P4 & P5 & P6 & P7 & P8); [done|by eauto|].
    apply (step_good _ _ _ _ s' b' Es). cbn in P1, P2, P4, P5, P6, P7, P8. rewrite F1 in P1.
    split; rewrite ?P1, ?P2, ?P4, ?P5, ?P6, ?P7, ?P8; try congruence.
    + by eapply frame_step_boundary.
    + exists ds. by rewrite P3.
    + rewrite head_of_same by lia. congruence.
    + by apply Hadm.
  - apply scan_no_field in Gs as (Et & -> & Hd). rewrite Et in Hscan.
    destruct (frame_step_ok s body f _ _ E) as (s' & b' & Es & P1 & P2 & P3 & P4 & P5 & P6 & P7 & P8); [by eauto|done|].
    apply (step_good _ _ _ _ s' b' Es). cbn in P1, P2, P4, P5, P6, P7, P8. rewrite F2, Et in P2.
    assert (Hh : head_of limits fs (Some f.2) = Pending) by (unfold head_of; by rewrite Hd).
    split; rewrite ?P1, ?P2, ?P4, ?P5, ?P6, ?P7, ?P8; try congruence.
    + by eapply frame_step_boundary.
    + exists []. by rewrite P3.
    + rewrite head_of_same by lia. rewrite Hh, F4, G7. done.
    + apply Hadm. by rewrite Hh.
Qed.

Lemma with_head_fields s :
  let s' := with_head capacity slots s limits in
  field s' = field s ∧ trailers s' = trailers s ∧ malformed s' = malformed s ∧
  header_bytes s' = header_bytes s ∧ body_bytes s' = body_bytes s ∧
  no_progress_frames s' = no_progress_frames s ∧
  head s' = match head s, field s with
            | Pending, Some fld => decode_request_head fld (max_header_bytes limits)
            | h, _ => h
            end.
Proof.
  cbv zeta. unfold with_head. destruct (head s) eqn:Eh; [|by rewrite Eh..].
  destruct (field s) eqn:Ef; [|by rewrite Ef, Eh]. cbv zeta.
  destruct (decode_request_head _ _) as [| |[fs n] cl]; cbn; by rewrite ?Ef.
Qed.

(** The tests of [data_frame] on the decoded head [h] and the body octets [total]. *)
Lemma data_frame_cases s n (h := head (with_head capacity slots s limits)) :
  (data_frame capacity slots s n limits = ((with_head capacity slots s limits) <| body_bytes := body_bytes s + n |>, Ok tt) ∧
   body_bytes s + n <= max_body_bytes limits ∧
   match h with
   | Decoded _ (Some cl) => cl <= max_body_bytes limits ∧ body_bytes s + n <= cl
   | _ => True
   end) ∨
  ((∃ s' e, data_frame capacity slots s n limits = (s', Err e)) ∧
   ¬ (body_bytes s + n <= max_body_bytes limits ∧
      match h with
      | Decoded _ (Some cl) => cl <= max_body_bytes limits ∧ body_bytes s + n <= cl
      | _ => True
      end)).
Proof.
  unfold data_frame. cbv zeta. destruct (with_head_fields s) as (_ & _ & _ & _ & Hb & _). fold h. rewrite Hb.
  destruct (checked_add_cases (body_bytes s) n) as [[-> Hc]|[-> Hc]]; [|right; split; [by eauto|lia]].
  destruct h as [| |fs [cl|]].
  4,1,2: case_if; [right; split; [by eauto|lia]|by left].
  case_if; [right; split; [by eauto|lia]|]. case_if; [right; split; [by eauto|lia]|].
  case_if; [right; split; [by eauto|lia]|]. left. split_and!; done.
Qed.

Lemma step_data fs s body f :
  good fs s body → f.1 = 0 → request_frame_forbidden f.1 = false →
  idles (fs ++ [f]) <= H3_NO_PROGRESS_FRAMES →
  frame_header (s <| varint := varint_default |> <| frame_type := f.1 |> <| phase := Length |>)
    (zlen f.2) limits = data_arm (counted s f) (zlen f.2) → stepped fs s body f.
Proof.
  intros G H0 Hf Hi E. destruct (counted_fields s f) as (F1 & F2 & F3 & F4 & F5 & F6 & F7).
  destruct (sums_snoc fs f) as (Q1 & Q2 & Q3 & Q4). rewrite H0 in Q1, Q2, Q4. cbn in Q1, Q2, Q4.
  rewrite Z.add_0_r in Q1. rewrite orb_true_r in Q4.
  destruct G as [G1 (ds & Gs & Gb) G3 G4 G5 G6 G7 G8].
  destruct (with_head_fields (counted s f)) as (W1 & W2 & W3 & W4 & W5 & W6 & W7).
  rewrite F1 in W1. rewrite F2 in W2. rewrite F3, G3 in W3.
  assert (Hscan : scan_all (fs ++ [f]) = scan (Some (field s, ds, trailers s)) f) by by rewrite scan_all_snoc, Gs.
  unfold scan in Hscan. rewrite H0 in Hscan. change (0 =? 1) with false in Hscan. change (0 =? 0) with true in Hscan.
  cbv iota in Hscan. unfold data_arm in E.
  pose proof (data_frame_cases (counted s f) (zlen f.2)) as Hcases. cbv zeta in Hcases.
  rewrite F6, G5, <-Q2 in Hcases.
  destruct (field s) as [f0|] eqn:Ef; [destruct (trailers s) as [t0|] eqn:Et|].
  - destruct Hcases as [[Ed _]|[(s3 & e & Ed) _]]; rewrite Ed in E; cbv zeta in E.
    + cbn [field trailers set_body_bytes set] in E. rewrite W1, W2 in E.
      destruct (frame_step_ok s body f _ _ E) as (s' & b' & Es & _ & _ & _ & P4 & _); [done..|]. by eapply step_malformed.
    + eapply step_refused; [by apply frame_step_err|]. by rewrite Hscan.
  - assert (Hhead : head (with_head capacity slots (counted s f) limits) = head_of limits (fs ++ [f]) (Some f0)).
    { rewrite W7, F4, F1, G7. unfold head_of. rewrite Q4. destruct (has_data fs); [|done].
      by destruct (decode_request_head _ _) eqn:?. }
    rewrite Hhead in Hcases. destruct Hcases as [(Ed & Hle & Hcl)|[(s3 & e & Ed) Hno]]; rewrite Ed in E; cbv zeta in E.
    + cbn [field trailers malformed set_body_bytes set] in E. rewrite W1, W2 in E.
      change (bool_decide (Some f0 = None) || bool_decide (is_Some (@None (list Z)))) with false in E.
      cbv iota in E. cbn [malformed set_body_bytes set] in E. rewrite W3 in E.
      destruct (frame_step_ok s body f _ _ E) as (s' & b' & Es & P1 & P2 & P3 & P4 & P5 & P6 & P7 & P8); [done..|].
      apply (step_good _ _ _ _ s' b' Es). cbn in P1, P2, P4, P5, P6, P7, P8.
      split; rewrite ?P1, ?P2, ?P4, ?P5, ?P6, ?P7, ?P8, ?W1, ?W2; try congruence.
      * by eapply frame_step_boundary.
      * exists (ds ++ [f.2]). rewrite P3, Gb, concat_app. cbn. by rewrite app_nil_r.
      * destruct G8 as [A1 A2 A3 A4 A5]. split; try done; [apply Forall_app; split; [done|by apply Forall_singleton]|lia].
    + eapply step_refused; [by apply frame_step_err|]. intros fld' ds' trl' Hs [A1 A2 A3 A4 A5].
      rewrite Hscan in Hs. injection Hs as <- <- <-. by apply Hno.
  - destruct Hcases as [[Ed _]|[(s3 & e & Ed) _]]; rewrite Ed in E; cbv zeta in E.
    + cbn [field trailers set_body_bytes set] in E. rewrite W1 in E.
      change (bool_decide (@None (list Z) = None)) with true in E.
      destruct (frame_step_ok s body f _ _ E) as (s' & b' & Es & _ & _ & _ & P4 & _); [done..|]. by eapply step_malformed.
    + eapply step_refused; [by apply frame_step_err|]. by rewrite Hscan.
Qed.

Lemma step_cases fs s body f : good fs s body → stepped fs s body f.
Proof.
  intros G. pose proof (frame_header_arms s f) as E. destruct (counted_fields s f) as (_ & _ & _ & _ & _ & _ & F7).
  destruct (sums_snoc fs f) as (_ & _ & Q3 & _).
  destruct (request_frame_forbidden f.1) eqn:Ef.
  { eapply step_refused; [by apply frame_step_err|]. intros fld ds trl _ [A1 _ _ _ _].
    apply Forall_app in A1 as [_ A1]. inversion A1. congruence. }
  rewrite (g_idle _ _ _ G), <-Q3 in F7. rewrite F7 in E.
  pose proof (adm_idle _ _ _ (g_adm _ _ _ G)) as Ai.
  destruct (idle f && (H3_NO_PROGRESS_FRAMES <? idles (fs ++ [f]))) eqn:Ei.
  { eapply step_refused; [by apply frame_step_err|]. intros fld ds trl _ [_ A2 _ _ _]. bool_hyps. lia. }
  assert (Hi : idles (fs ++ [f]) <= H3_NO_PROGRESS_FRAMES).
  { apply andb_false_iff in Ei as [Ei|Ei]; [rewrite Q3, Ei; lia|by bool_hyps]. }
  destruct (Z.eqb_spec f.1 1); [by apply step_headers|].
  destruct (Z.eqb_spec f.1 0); [by apply step_data|by apply step_other].
Qed.

(** A malformed sequence stays malformed. *)
Lemma frame_step_malformed s body f s' body' :
  frame_step s body f = (s', body', Ok tt) → malformed s = true → malformed s' = true.
Proof.
  intros E Hm. pose proof (frame_header_arms s f) as Eh. destruct (counted_fields s f) as (F1 & F2 & F3 & _).
  assert (Hall : ∀ s3 sink, frame_header (s <| varint := varint_default |> <| frame_type := f.1 |>
      <| phase := Length |>) (zlen f.2) limits = (s3, Ok sink) → malformed s3 = true).
  { intros s3 sink. rewrite Eh. destruct (request_frame_forbidden f.1); [done|].
    destruct (idle f && _); [done|]. destruct (f.1 =? 1); [|destruct (f.1 =? 0)].
    - unfold headers_arm. destruct (checked_add _ _); [|done]. case_if; [done|]. cbv zeta. cbn.
      destruct (field _), (trailers _); intros [= <- <-]; cbn; congruence.
    - unfold data_arm. destruct (with_head_fields (counted s f)) as (_ & _ & W3 & _).
      destruct (data_frame_cases (counted s f) (zlen f.2)) as [[-> _]|[(s4 & e & ->) _]]; [|done].
      cbv zeta. intros [= <- <-]. destruct (bool_decide _ || bool_decide _); cbn; congruence.
    - intros [= <- <-]. congruence. }
  revert E. unfold frame_step, h3_frames.length_arm.
  destruct (frame_header _ _ _) as [s3 [sink|e]]; [|done]. specialize (Hall s3 sink eq_refl).
  cbn [phase set_phase set]. destruct (zlen f.2 =? 0).
  - by intros [= <- <-].
  - by destruct sink; intros [= <- <-].
Qed.

Lemma run_malformed s body fs s' body' :
  run_frames s body fs = (s', body', Ok tt) → malformed s = true → malformed s' = true.
Proof.
  revert s body. induction fs as [|f fs IH]; intros s body; cbn [run_frames]; [by intros [= <- <-]|].
  destruct (frame_step s body f) as [[s1 b1] [[]|e]] eqn:E; [|done].
  intros Hr Hm. eapply IH; [done|]. by eapply frame_step_malformed.
Qed.

Lemma scan_none gs : fold_left scan gs None = None.
Proof. by induction gs. Qed.

(** Once the header section is found it stays. *)
Lemma scan_field gs f0 ds trl v :
  fold_left scan gs (Some (Some f0, ds, trl)) = Some v → v.1.1 = Some f0.
Proof.
  revert ds trl. induction gs as [|g gs IH]; intros ds trl; [by intros [= <-]|]. cbn [fold_left scan].
  destruct (g.1 =? 1); [|destruct (g.1 =? 0)]; [| |apply IH]; destruct trl; rewrite ?scan_none; (done || apply IH).
Qed.

Lemma admitted_prefix fs gs fld ds trl :
  scan_all (fs ++ gs) = Some (fld, ds, trl) → admitted limits (fs ++ gs) fld →
  ∃ fld' ds' trl', scan_all fs = Some (fld', ds', trl') ∧ admitted limits fs fld'.
Proof.
  intros Hs [A1 A2 A3 A4 A5]. unfold scan_all in Hs. rewrite fold_left_app in Hs. fold (scan_all fs) in Hs.
  destruct (scan_all fs) as [[[fld' ds'] trl']|] eqn:Ep; [|by rewrite scan_none in Hs].
  exists fld', ds', trl'. split; [done|]. apply Forall_app in A1 as [A1 _].
  rewrite idles_app in A2. rewrite payload_sum_app in A3, A4.
  pose proof (idles_nonneg gs). pose proof (payload_sum_nonneg 1 gs). pose proof (payload_sum_nonneg 0 gs).
  split; [done|lia..|]. destruct fld' as [f0|]; [|done].
  apply scan_field in Hs. cbn in Hs. subst fld. revert A5. unfold head_of. rewrite has_data_app, payload_sum_app.
  destruct (has_data fs); [|done]. cbn [orb]. destruct (decode_request_head _ _) as [| |? [cl|]]; try done. lia.
Qed.

Lemma run_good pre s body fs :
  good pre s body →
  (∀ s' body', run_frames s body fs = (s', body', Ok tt) → malformed s' = false → good (pre ++ fs) s' body') ∧
  (∀ fld ds trl, scan_all (pre ++ fs) = Some (fld, ds, trl) → admitted limits (pre ++ fs) fld →
     ∃ s' body', run_frames s body fs = (s', body', Ok tt) ∧ good (pre ++ fs) s' body').
Proof.
  revert pre s body. induction fs as [|f fs IH]; intros pre s body G.
  { rewrite app_nil_r. split; [intros s' b' [= <- <-]; done|]. intros. by exists s, body. }
  replace (pre ++ f :: fs) with ((pre ++ [f]) ++ fs) by by rewrite <-app_assoc.
  cbn [run_frames]. destruct (step_cases pre s body f G) as [s1 b1 -> G1|s1 b1 -> Hm Hn|s1 b1 e -> Hno].
  - by apply IH.
  - split; [intros s' b' Hr Hf; apply run_malformed in Hr; [congruence|done]|].
    intros fld ds trl Hs Ha. destruct (admitted_prefix _ _ _ _ _ Hs Ha) as (? & ? & ? & Hp & _). congruence.
  - split; [done|]. intros fld ds trl Hs Ha.
    destruct (admitted_prefix _ _ _ _ _ Hs Ha) as (fld' & ds' & trl' & Hp & Hap). by destruct (Hno _ _ _ Hp).
Qed.

Lemma default_good : 0 <= max_header_bytes limits → 0 <= max_body_bytes limits → good [] counter_default [].
Proof. intros Hh Hb. split; [by split|by exists []|done..|]. by split. Qed.

End counter.

(** ** Properties *)

(** C8. The incremental parser of request streams accepts exactly the octet strings that are
    frames holding one request within the limits: a field section, data and perhaps
    trailers, no forbidden frame and not too many idle ones; and it returns that section,
    the concatenated data, the trailers and the decoded head. *)
Theorem h3_request_exact capacity slots limits p req hd :
  octets p → 0 <= max_header_bytes limits <= U64_MAX → 0 <= max_body_bytes limits <= U64_MAX →
  (∃ s body, consume capacity slots counter_default p [] limits = (s, body, Ok tt) ∧
     finish s body = Some (req, hd)) ↔
  (∃ fs ds, stream_wire fs p ∧ shape fs (Some (parsed_field req)) ds (parsed_trailers req) ∧
     parsed_body req = concat ds ∧ admitted limits fs (Some (parsed_field req)) ∧
     hd = match head_of limits fs (Some (parsed_field req)) with
          | Decoded fields _ => Some fields
          | _ => None
          end).
Proof.
  intros Ho Hh Hb. assert (G0 : good limits [] counter_default []) by (apply default_good; lia). split.
  - intros (s & body & Hc & Hf). unfold finish in Hf.
    destruct (malformed s) eqn:Hm; [done|]. destruct (phase s) eqn:Hp; [|done..].
    destruct (Z.eqb_spec (zlen (bytes (varint s))) 0) as [Hz|]; [|done]. cbn [negb orb] in Hf.
    destruct (tokenise capacity slots limits p counter_default [] s body) as (fs & Hw & Hr);
      [by split|done..|by destruct (bytes (varint s))|].
    destruct (run_good capacity slots limits (proj2 Hh) (proj2 Hb) [] _ _ fs G0) as [Hg _].
    destruct (Hg s body Hr Hm) as [_ (ds & Hs & ->) _ _ _ _ Hhd Ha].
    destruct (field s) as [f0|]; [|done]. injection Hf as <- <-. exists fs, ds.
    cbn [parsed_field parsed_body parsed_trailers].
    split_and!; [done|exact (proj1 (scan_shape fs (Some f0) ds _) Hs)|done..|by rewrite Hhd].
  - intros (fs & ds & Hw & Hs%scan_shape & Hbd & Ha & ->).
    destruct (run_good capacity slots limits (proj2 Hh) (proj2 Hb) [] _ _ fs G0) as [_ Hg].
    destruct (Hg _ _ _ Hs Ha) as (s & body & Hr & G).
    exists s, body. erewrite consume_stream; [|by split|done..]. split; [done|].
    destruct G as [[Hp Hv] (ds' & Hs' & ->) Hm _ _ _ Hhd _]. rewrite app_nil_l, Hs in Hs'.
    injection Hs' as Hf Hd Ht. unfold finish. rewrite Hm, Hp, Hv, <-Hf, Hhd, <-Hf, <-Ht, <-Hd, <-Hbd. by destruct req.
Qed.

(** Chunks of a stream, as the connection delivers them. *)
Fixpoint feed (capacity : list Z → Z) (slots : list Field → Z) (s : H3FrameCounter) (body : list Z)
    (limits : H3RequestLimits) (chunks : list (list Z)) :
    H3FrameCounter * list Z * result RequestFrameError unit :=
  match chunks with
  | [] => (s, body, Ok tt)
  | c :: chunks =>
      match consume capacity slots s c body limits with
      | (s, body, Ok _) => feed capacity slots s body limits chunks
      | (s, body, Err e) => (s, body, Err e)
      end
  end.

(** C29. A request stream gives the same parser state, body and verdict however QUIC cuts
    its octets into chunks. *)
Theorem h3_segmentation capacity slots limits chunks :
  octets (concat chunks) →
  feed capacity slots counter_default [] limits chunks =
  consume capacity slots counter_default (concat chunks) [] limits.
Proof.
  assert (Hd : counter_inv counter_default) by (apply boundary_inv; by split).
  revert Hd. generalize counter_default as s, (@nil Z) as body.
  induction chunks as [|c chunks IH]; intros s body Hi Ho; [done|]. cbn [concat feed] in *.
  rewrite consume_app by done.
  destruct (consume capacity slots s c body limits) as [[s1 b1] [[]|e]] eqn:E; [|done].
  apply Forall_app in Ho as [Hc Ho]. apply IH; [|done].
  exact (consume_inv capacity slots limits s c body s1 b1 Hi Hc E).
Qed.

(** A request cut into three chunks, the second cut inside a frame header. *)
Lemma h3_segmentation_witness :
  feed zlen zlen counter_default [] (limits_new 100 100)
    [[0x21; 0x40]; [0x02; 7; 7; 0x01; 0x04; 0; 0]; [0xd1; 0xc1; 0x00; 0x02; 104; 105]] =
  consume zlen zlen counter_default
    [0x21; 0x40; 0x02; 7; 7; 0x01; 0x04; 0; 0; 0xd1; 0xc1; 0x00; 0x02; 104; 105] [] (limits_new 100 100).
Proof.
  apply (h3_segmentation zlen zlen (limits_new 100 100)
    [[0x21; 0x40]; [0x02; 7; 7; 0x01; 0x04; 0; 0]; [0xd1; 0xc1; 0x00; 0x02; 104; 105]]).
  repeat constructor; done.
Defined.

(** A reserved frame, a header section, a body in two DATA frames, and trailers. *)
Lemma h3_request_exact_witness :
  ∃ s body,
    consume zlen zlen counter_default
      [0x21; 0x40; 0x02; 7; 7; 0x01; 0x04; 0; 0; 0xd1; 0xc1; 0x00; 0x02; 104; 105; 0x00; 0x01; 33;
       0x01; 0x02; 0; 0] [] (limits_new 100 100) = (s, body, Ok tt) ∧
    finish s body =
      Some ({| parsed_field := [0; 0; 0xd1; 0xc1]; parsed_body := [104; 105; 33]; parsed_trailers := Some [0; 0] |},
            Some ([(bs ":method", bs "GET"); (bs ":path", bs "/")], 80)).
Proof.
  apply (h3_request_exact zlen zlen (limits_new 100 100)
    [0x21; 0x40; 0x02; 7; 7; 0x01; 0x04; 0; 0; 0xd1; 0xc1; 0x00; 0x02; 104; 105; 0x00; 0x01; 33;
     0x01; 0x02; 0; 0]); [repeat constructor; done|cbn; unfold U64_MAX; lia..|].
  exists [(0x21, [7; 7]); (1, [0; 0; 0xd1; 0xc1]); (0, [104; 105]); (0, [33]); (1, [0; 0])], [[104; 105]; [33]].
  split_and!; [|done|done| |by vm_compute].
  - change ([0x21; 0x40; 0x02; 7; 7; 0x01; 0x04; 0; 0; 0xd1; 0xc1; 0x00; 0x02; 104; 105; 0x00; 0x01; 33;
     0x01; 0x02; 0; 0]) with ([0x21; 0x40; 0x02; 7; 7] ++ [0x01; 0x04; 0; 0; 0xd1; 0xc1] ++
      [0x00; 0x02; 104; 105] ++ [0x00; 0x01; 33] ++ [0x01; 0x02; 0; 0] ++ []).
    repeat apply wire_cons; try apply wire_nil.
    + by exists [0x21], [0x40; 0x02].
    + by exists [0x01], [0x04].
    + by exists [0x00], [0x02].
    + by exists [0x00], [0x01].
    + by exists [0x01], [0x02].
  - split; try by vm_compute. by repeat constructor.
Defined.

(** ** The response on the wire *)

Lemma write_varint_frame ty payload :
  0 <= ty < 2 ^ 62 → zlen payload < 2 ^ 62 →
  frame_wire (ty, payload) (write_varint ty ++ write_varint (zlen payload) ++ payload).
Proof.
  intros Ht Hp. exists (write_varint ty), (write_varint (zlen payload)).
  split_and!; try done; apply write_varint_wire; [done|]. pose proof (zlen_nonneg payload). cbn. lia.
Qed.

Lemma field_section_size_exact status headers :
  section_size ((bs ":status", status) :: headers) <= U64_MAX →
  h3_field_section_size status headers = section_size ((bs ":status", status) :: headers).
Proof.
  unfold h3_field_section_size. cbn [section_size foldr]. fold (section_size headers).
  assert (Ha : field_size (bs ":status", status) = 32 + 7 + zlen status)
    by (unfold field_size; cbn [fst snd]; change (zlen (bs ":status")) with 7; lia).
  rewrite Ha. generalize (32 + 7 + zlen status) as a.
  induction headers as [|f headers IH]; intros a; cbn [section_size foldr fold_left]; [intros _; lia|].
  fold (section_size headers). intros Hle. pose proof (section_size_nonneg headers).
  unfold saturating_add at 2. unfold field_size in *. rewrite Z.min_l by lia. rewrite IH by lia. lia.
Qed.

Lemma response_frames field body :
  zlen field < 2 ^ 62 → zlen body < 2 ^ 62 →
  stream_wire ((1, field) :: (if bytes_eqb body [] then [] else [(0, body)]))
    ((write_varint 1 ++ write_varint (zlen field) ++ field) ++
     (if bytes_eqb body [] then [] else encode_h3_data_frame body)).
Proof.
  intros Hf Hb. constructor; [by apply write_varint_frame|]. case_if; [constructor|].
  rewrite <-(app_nil_r (encode_h3_data_frame body)). constructor; [by apply write_varint_frame|constructor].
Qed.

(** An encoded response is a HEADERS frame and, unless the body is empty, a DATA frame; its
    field section decodes to the status and the headers, with the size that is checked. *)
Theorem h3_response_wire status headers body :
  let fields := (bs ":status", status) :: headers in
  Forall field_ok fields → section_size fields <= U64_MAX →
  zlen (field_section fields) < 2 ^ 62 → zlen body < 2 ^ 62 →
  stream_wire ((1, field_section fields) :: (if bytes_eqb body [] then [] else [(0, body)]))
    (encode_h3_response status headers body) ∧
  qpack_decode_limited (field_section fields) U64_MAX =
    Some (fields, h3_field_section_size status headers).
Proof.
  intros fields Hok Hs Hf Hb. split; [by apply (response_frames (field_section fields))|].
  rewrite field_section_size_exact by exact Hs. fold fields. clearbody fields.
  rewrite decode_section; [|exact Hok|unfold U64_MAX; lia]. by rewrite (proj2 (Z.leb_le _ _) Hs).
Qed.

Lemma h3_response_wire_witness :
  stream_wire [(1, field_section ((bs ":status", bs "200") :: [(bs "server", bs "httpjet")])); (0, bs "ok")]
    (encode_h3_response (bs "200") [(bs "server", bs "httpjet")] (bs "ok")) ∧
  qpack_decode_limited (field_section [(bs ":status", bs "200"); (bs "server", bs "httpjet")]) U64_MAX =
    Some ([(bs ":status", bs "200"); (bs "server", bs "httpjet")], 87).
Proof.
  refine (h3_response_wire (bs "200") [(bs "server", bs "httpjet")] (bs "ok") _ _ _ _).
  - repeat constructor.
  - vm_compute. discriminate.
  - vm_compute. reflexivity.
  - vm_compute. reflexivity.
Defined.

End h3_stream.
