(* ===== verification/H3Control.v ===== *)
(** * HTTP/3 control streams: [crates/httpjet/src/uring/h3.rs]

    The peer's unidirectional streams: the SETTINGS parser, the control stream parser, the
    registration of critical streams, and the local control and QPACK streams a connection
    opens. A parser returns its state or the connection error that ends the stream; after
    an error the stream's parser is dropped. *)

From stdpp Require Import base list gmap strings.
From Stdlib Require Import ZArith Lia.
From S2P Require Import Prelude HpackInteger HuffmanDecode Qpack Net RustStr HttpUtil H1Codec H3Frames H3FramesWire.

#[local] Open Scope record_scope.

Module h3_control.

Import h3_frames.

Definition H3_STREAM_CREATION_ERROR : Z := 0x0103.
Definition H3_CLOSED_CRITICAL_STREAM : Z := 0x0104.
Definition H3_FRAME_UNEXPECTED : Z := 0x0105.
Definition H3_EXCESSIVE_LOAD : Z := 0x0107.
Definition H3_SETTINGS_ERROR : Z := 0x0109.
Definition H3_MISSING_SETTINGS : Z := 0x010a.
Definition MAX_SETTINGS_PAYLOAD : Z := 64 * 1024.

Record H3ConnectionError := { code : Z; reason : list Z }.

Definition error {A} (code : Z) (reason : string) : result H3ConnectionError A :=
  Err {| code := code; reason := bs reason |}.

(** ** SETTINGS *)

Record PeerSettings := {
  qpack_max_table_capacity : option Z;
  max_field_section_size : option Z;
  qpack_blocked_streams : option Z;
  enable_connect_protocol : option Z;
  h3_datagram : option Z;
}.

#[global] Instance eta_PeerSettings : Eta PeerSettings := fun r =>
  {| qpack_max_table_capacity := qpack_max_table_capacity r;
     max_field_section_size := max_field_section_size r;
     qpack_blocked_streams := qpack_blocked_streams r;
     enable_connect_protocol := enable_connect_protocol r;
     h3_datagram := h3_datagram r |}.
#[global] Instance set_capacity : Setter qpack_max_table_capacity := ltac:(derive_setter).
#[global] Instance set_section_size : Setter max_field_section_size := ltac:(derive_setter).
#[global] Instance set_blocked : Setter qpack_blocked_streams := ltac:(derive_setter).
#[global] Instance set_connect : Setter enable_connect_protocol := ltac:(derive_setter).
#[global] Instance set_datagram : Setter h3_datagram := ltac:(derive_setter).

Definition settings_default : PeerSettings :=
  {| qpack_max_table_capacity := None; max_field_section_size := None;
     qpack_blocked_streams := None; enable_connect_protocol := None; h3_datagram := None |}.

Record SettingsParser := {
  s_varint : IncrementalVarInt;
  pending_id : option Z;
  seen : gset Z;
  parsed : PeerSettings;
}.

Definition parser_default : SettingsParser :=
  {| s_varint := varint_default; pending_id := None; seen := ∅; parsed := settings_default |}.

(** The [match id] of [SettingsParser::consume]. *)
Definition assign_setting (p : PeerSettings) (id value : Z) : result H3ConnectionError PeerSettings :=
  if id =? 0x01 then Ok (p <| qpack_max_table_capacity := Some value |>)
  else if (0x02 <=? id) && (id <=? 0x05) then
    error H3_SETTINGS_ERROR "reserved HTTP/2 setting identifier"
  else if id =? 0x06 then Ok (p <| max_field_section_size := Some value |>)
  else if id =? 0x07 then Ok (p <| qpack_blocked_streams := Some value |>)
  else if id =? 0x08 then
    if value <=? 1 then Ok (p <| enable_connect_protocol := Some value |>)
    else error H3_SETTINGS_ERROR "invalid enable-connect setting"
  else if id =? 0x33 then
    if value <=? 1 then Ok (p <| h3_datagram := Some value |>)
    else error H3_SETTINGS_ERROR "invalid H3 datagram setting"
  else Ok p.

(** The body of the loop on a complete integer. *)
Definition settings_value (s : SettingsParser) (value : Z) : result H3ConnectionError SettingsParser :=
  match pending_id s with
  | Some id =>
      if bool_decide (id ∈ seen s) then error H3_SETTINGS_ERROR "duplicate HTTP/3 setting"
      else
        match assign_setting (parsed s) id value with
        | Err e => Err e
        | Ok p => Ok {| s_varint := s_varint s; pending_id := None; seen := {[id]} ∪ seen s; parsed := p |}
        end
  | None =>
      Ok {| s_varint := s_varint s; pending_id := Some value; seen := seen s; parsed := parsed s |}
  end.

(** [SettingsParser::consume]: every round reads an octet. *)
Fixpoint settings_loop (fuel : nat) (s : SettingsParser) (input : list Z) :
    result H3ConnectionError SettingsParser :=
  match fuel, input with
  | _, [] => Ok s
  | O, _ => Ok s
  | S fuel', _ =>
      match varint_consume (s_varint s) input with
      | (v, None, _) =>
          Ok {| s_varint := v; pending_id := pending_id s; seen := seen s; parsed := parsed s |}
      | (v, Some value, rest) =>
          match settings_value {| s_varint := v; pending_id := pending_id s; seen := seen s;
                                  parsed := parsed s |} value with
          | Err e => Err e
          | Ok s => settings_loop fuel' s rest
          end
      end
  end.

Definition settings_consume (s : SettingsParser) (input : list Z) : result H3ConnectionError SettingsParser :=
  settings_loop (length input) s input.

Definition settings_finish (s : SettingsParser) : result H3ConnectionError PeerSettings :=
  if negb (zlen (bytes (s_varint s)) =? 0) || bool_decide (is_Some (pending_id s))
  then error H3_SETTINGS_ERROR "truncated HTTP/3 setting"
  else Ok (parsed s).

(** ** The control stream *)

Inductive ControlFramePhase :=
| CType
| CLength
| CPayload (remaining : Z).

Record ControlStreamParser := {
  c_phase : ControlFramePhase;
  c_varint : IncrementalVarInt;
  c_frame_type : Z;
  settings_received : bool;
  settings : option SettingsParser;
  completed_settings : option PeerSettings;
}.

#[global] Instance eta_ControlStreamParser : Eta ControlStreamParser := fun r =>
  {| c_phase := c_phase r; c_varint := c_varint r; c_frame_type := c_frame_type r;
     settings_received := settings_received r; settings := settings r;
     completed_settings := completed_settings r |}.
#[global] Instance set_c_phase : Setter c_phase := ltac:(derive_setter).
#[global] Instance set_c_varint : Setter c_varint := ltac:(derive_setter).
#[global] Instance set_c_frame_type : Setter c_frame_type := ltac:(derive_setter).
#[global] Instance set_settings_received : Setter settings_received := ltac:(derive_setter).
#[global] Instance set_settings : Setter settings := ltac:(derive_setter).
#[global] Instance set_completed : Setter completed_settings := ltac:(derive_setter).

Definition control_default : ControlStreamParser :=
  {| c_phase := CType; c_varint := varint_default; c_frame_type := 0; settings_received := false;
     settings := None; completed_settings := None |}.

Definition finish_payload (c : ControlStreamParser) : result H3ConnectionError ControlStreamParser :=
  if c_frame_type c =? 0x04 then
    match settings_finish (default parser_default (settings c)) with
    | Err e => Err e
    | Ok p => Ok (c <| settings := None |> <| completed_settings := Some p |> <| c_phase := CType |>)
    end
  else Ok (c <| c_phase := CType |>).

(** The arm [ControlFramePhase::Type] on a complete type. *)
Definition control_type (c : ControlStreamParser) (frame_type : Z) :
    result H3ConnectionError ControlStreamParser :=
  if negb (settings_received c) && negb (frame_type =? 0x04) then
    error H3_MISSING_SETTINGS "SETTINGS is not the first control frame"
  else if (frame_type =? 0x04) && settings_received c then
    error H3_FRAME_UNEXPECTED "duplicate SETTINGS frame"
  else if bool_decide (frame_type ∈ [0x00; 0x01; 0x02; 0x05; 0x06; 0x08; 0x09]) then
    error H3_FRAME_UNEXPECTED "frame is forbidden on the control stream"
  else Ok (c <| c_frame_type := frame_type |> <| c_phase := CLength |>).

(** The arm [ControlFramePhase::Length] on a complete length, a [usize]. *)
Definition control_length (c : ControlStreamParser) (length : Z) :
    result H3ConnectionError ControlStreamParser :=
  let is_settings := c_frame_type c =? 0x04 in
  if is_settings && (MAX_SETTINGS_PAYLOAD <? length) then
    error H3_EXCESSIVE_LOAD "HTTP/3 SETTINGS payload is excessive"
  else
    let c :=
      if is_settings
      then c <| settings_received := true |> <| settings := Some parser_default |> else c in
    if length =? 0 then finish_payload c else Ok (c <| c_phase := CPayload length |>).

(** The arm [ControlFramePhase::Payload]. The SETTINGS parser exists while its payload is
    read ([control_inv]); the source [expect]s it. *)
Definition control_payload (c : ControlStreamParser) (remaining : Z) (payload : list Z) :
    result H3ConnectionError ControlStreamParser :=
  match
    (if c_frame_type c =? 0x04 then
       match settings_consume (default parser_default (settings c)) payload with
       | Err e => Err e
       | Ok sp => Ok (c <| settings := Some sp |>)
       end
     else Ok c)
  with
  | Err e => Err e
  | Ok c =>
      if zlen payload =? remaining then finish_payload c
      else Ok (c <| c_phase := CPayload (remaining - zlen payload) |>)
  end.

Fixpoint control_loop (fuel : nat) (c : ControlStreamParser) (input : list Z) :
    result H3ConnectionError ControlStreamParser :=
  match fuel, input with
  | _, [] => Ok c
  | O, _ => Ok c
  | S fuel', _ =>
      match c_phase c with
      | CType =>
          match varint_consume (c_varint c) input with
          | (v, None, _) => Ok (c <| c_varint := v |>)
          | (v, Some ty, rest) =>
              match control_type (c <| c_varint := v |>) ty with
              | Err e => Err e
              | Ok c => control_loop fuel' c rest
              end
          end
      | CLength =>
          match varint_consume (c_varint c) input with
          | (v, None, _) => Ok (c <| c_varint := v |>)
          | (v, Some n, rest) =>
              match control_length (c <| c_varint := v |>) n with
              | Err e => Err e
              | Ok c => control_loop fuel' c rest
              end
          end
      | CPayload remaining =>
          let consumed := Z.min remaining (zlen input) in
          match control_payload c remaining (take (Z.to_nat consumed) input) with
          | Err e => Err e
          | Ok c => control_loop fuel' c (drop (Z.to_nat consumed) input)
          end
      end
  end.

(** [ControlStreamParser::consume]. *)
Definition control_consume (c : ControlStreamParser) (input : list Z) :
    result H3ConnectionError ControlStreamParser :=
  control_loop (S (length input)) c input.

(** ** Unidirectional streams of the peer *)

Inductive PeerUniKind := UPending | UControl | UQpackEncoder | UQpackDecoder | UUnknown.

#[global] Instance PeerUniKind_eq_dec : EqDecision PeerUniKind.
Proof. solve_decision. Defined.

Record PeerUniStream := {
  kind : PeerUniKind;
  stream_type : IncrementalVarInt;
  control : ControlStreamParser;
}.

Definition uni_default : PeerUniStream :=
  {| kind := UPending; stream_type := varint_default; control := control_default |}.

(** The part of [H3State] the unidirectional streams use; a stream id is an integer. *)
Record H3Uni := {
  peer_control : option Z;
  peer_qpack_encoder : option Z;
  peer_qpack_decoder : option Z;
  peer_uni : gmap Z PeerUniStream;
  peer_max_field_section_size : option Z;
  peer_settings : option PeerSettings;
}.

#[global] Instance eta_H3Uni : Eta H3Uni := fun r =>
  {| peer_control := peer_control r; peer_qpack_encoder := peer_qpack_encoder r;
     peer_qpack_decoder := peer_qpack_decoder r; peer_uni := peer_uni r;
     peer_max_field_section_size := peer_max_field_section_size r; peer_settings := peer_settings r |}.
#[global] Instance set_peer_control : Setter peer_control := ltac:(derive_setter).
#[global] Instance set_peer_encoder : Setter peer_qpack_encoder := ltac:(derive_setter).
#[global] Instance set_peer_decoder : Setter peer_qpack_decoder := ltac:(derive_setter).
#[global] Instance set_peer_uni : Setter peer_uni := ltac:(derive_setter).
#[global] Instance set_peer_max : Setter peer_max_field_section_size := ltac:(derive_setter).
#[global] Instance set_peer_settings : Setter peer_settings := ltac:(derive_setter).

Definition register_peer_uni_type (st : H3Uni) (id stream_type : Z) :
    H3Uni * result H3ConnectionError PeerUniKind :=
  let dup := error H3_STREAM_CREATION_ERROR "duplicate HTTP/3 critical stream" in
  if stream_type =? 0x00 then
    if bool_decide (is_Some (peer_control st)) then (st, dup)
    else (st <| peer_control := Some id |>, Ok UControl)
  else if stream_type =? 0x01 then
    (st, error H3_STREAM_CREATION_ERROR "client opened an HTTP/3 push stream")
  else if stream_type =? 0x02 then
    if bool_decide (is_Some (peer_qpack_encoder st)) then (st, dup)
    else (st <| peer_qpack_encoder := Some id |>, Ok UQpackEncoder)
  else if stream_type =? 0x03 then
    if bool_decide (is_Some (peer_qpack_decoder st)) then (st, dup)
    else (st <| peer_qpack_decoder := Some id |>, Ok UQpackDecoder)
  else (st, Ok UUnknown).

(** The octets after the stream type, on a stream whose kind is known. *)
Definition consume_control (st : H3Uni) (stream : PeerUniStream) (input : list Z) :
    H3Uni * result H3ConnectionError PeerUniStream :=
  if bool_decide (kind stream = UControl) then
    match control_consume (control stream) input with
    | Err e => (st, Err e)
    | Ok c =>
        match completed_settings c with
        | Some s =>
            (st <| peer_max_field_section_size := max_field_section_size s |>
                <| peer_settings := Some s |>,
             Ok {| kind := kind stream; stream_type := stream_type stream;
                   control := c <| completed_settings := None |> |})
        | None =>
            (st, Ok {| kind := kind stream; stream_type := stream_type stream; control := c |})
        end
    end
  else (st, Ok stream).

Definition consume_peer_uni (st : H3Uni) (id : Z) (stream : PeerUniStream) (input : list Z) :
    H3Uni * result H3ConnectionError PeerUniStream :=
  if bool_decide (kind stream = UPending) then
    match varint_consume (stream_type stream) input with
    | (v, None, _) =>
        (st, Ok {| kind := kind stream; stream_type := v; control := control stream |})
    | (v, Some ty, rest) =>
        match register_peer_uni_type st id ty with
        | (st, Err e) => (st, Err e)
        | (st, Ok k) =>
            consume_control st {| kind := k; stream_type := v; control := control stream |} rest
        end
    end
  else consume_control st stream input.

Definition finish_peer_uni (stream : PeerUniStream) : result H3ConnectionError unit :=
  match kind stream with
  | UPending => Ok tt
  | UControl =>
      if negb (settings_received (control stream))
      then error H3_MISSING_SETTINGS "control stream closed before SETTINGS"
      else error H3_CLOSED_CRITICAL_STREAM "HTTP/3 critical stream closed"
  | UQpackEncoder | UQpackDecoder => error H3_CLOSED_CRITICAL_STREAM "HTTP/3 critical stream closed"
  | UUnknown => Ok tt
  end.

(** How the readable chunks of a stream ended ([for_each_stream_chunk]). *)
Inductive ReadEnd := ROpen | RFin | RGone.

(** The chunks of one pass over a stream, until one is refused. *)
Fixpoint consume_chunks (st : H3Uni) (id : Z) (stream : PeerUniStream) (chunks : list (list Z)) :
    H3Uni * result H3ConnectionError PeerUniStream :=
  match chunks with
  | [] => (st, Ok stream)
  | c :: chunks =>
      match consume_peer_uni st id stream c with
      | (st, Err e) => (st, Err e)
      | (st, Ok stream) => consume_chunks st id stream chunks
      end
  end.

(** One turn of the loop of [service_peer_uni]: what the connection reads from the stream
    [id] is an argument. *)
Definition service_stream (st : H3Uni) (id : Z) (chunks : list (list Z)) (end_ : ReadEnd) :
    H3Uni * result H3ConnectionError unit :=
  match peer_uni st !! id with
  | None => (st, Ok tt)
  | Some stream =>
      let st := st <| peer_uni := delete id (peer_uni st) |> in
      match consume_chunks st id stream chunks with
      | (st, Err e) => (st, Err e)
      | (st, Ok stream) =>
          match end_ with
          | ROpen => (st <| peer_uni := <[id := stream]> (peer_uni st) |>, Ok tt)
          | RFin | RGone => (st, finish_peer_uni stream)
          end
      end
  end.

(** [accept(Dir::Uni)]: a new stream of the peer. *)
Definition accept_uni (st : H3Uni) (id : Z) : H3Uni :=
  match peer_uni st !! id with
  | Some _ => st
  | None => st <| peer_uni := <[id := uni_default]> (peer_uni st) |>
  end.

End h3_control.
