(* ===== verification/H3ControlTheorems.v ===== *)
(** * HTTP/3 control streams: what the parsers of [H3Control] accept

    A SETTINGS payload is a list of identifier and value pairs ([settings_exact]); a control
    stream is SETTINGS followed by frames that are allowed there ([control_stream_exact]),
    however it is cut into chunks ([control_app]); a connection has at most one critical
    stream of each kind ([critical_streams]). *)

From stdpp Require Import base list gmap strings.
From Stdlib Require Import ZArith Lia.
From S2P Require Import Prelude HpackInteger HuffmanDecode Qpack Net RustStr HttpUtil H1Codec H3Frames H3FramesWire H3FramesTheorems H3Control.

#[local] Open Scope record_scope.

Module h3_control_theorems.

Import h3_frames h3_wire h3_stream h3_control.

(** ** SETTINGS, octet by octet *)

Definition with_varint (s : SettingsParser) (v : IncrementalVarInt) : SettingsParser :=
  {| s_varint := v; pending_id := pending_id s; seen := seen s; parsed := parsed s |}.

Lemma settings_value_varint s value s' : settings_value s value = Ok s' → s_varint s' = s_varint s.
Proof.
  unfold settings_value. destruct (pending_id s); [|by intros [= <-]].
  case_if; [done|]. destruct (assign_setting _ _ _); [|done]. by intros [= <-].
Qed.

Lemma settings_loop_S fuel s b input :
  settings_loop (S fuel) s (b :: input) =
  match varint_consume (s_varint s) (b :: input) with
  | (v, None, _) => Ok (with_varint s v)
  | (v, Some value, rest) =>
      match settings_value (with_varint s v) value with
      | Err e => Err e
      | Ok s => settings_loop fuel s rest
      end
  end.
Proof. done. Qed.

Lemma settings_fuel fuel fuel' s input :
  varint_wf (s_varint s) → octets input → (length input ≤ fuel)%nat → (length input ≤ fuel')%nat →
  settings_loop fuel s input = settings_loop fuel' s input.
Proof.
  revert fuel' s input. induction fuel as [|fuel IH]; intros fuel' s input Hw Ho Hf Hf';
    (destruct input as [|b input]; [by destruct fuel'|]); [simpl in Hf; lia|].
  destruct fuel' as [|fuel']; [simpl in Hf'; lia|]. rewrite !settings_loop_S.
  pose proof (varint_consume_spec (b :: input) (s_varint s) Hw Ho) as Hs.
  destruct (varint_consume _ _) as [[v [x|]] rest]; [|done]. destruct Hs as (-> & _ & w & E & Hne & _).
  destruct (settings_value _ x) as [s1|e] eqn:Ev; [|done]. apply settings_value_varint in Ev.
  apply (f_equal length) in E as Hl. rewrite length_app in Hl. rewrite E in Ho. apply Forall_app in Ho as [_ Ho].
  assert (0 < length w)%nat by (destruct w; [done|simpl; lia]). simpl length in *.
  apply IH; [rewrite Ev; apply varint_default_wf|done|lia|lia].
Qed.

Lemma settings_cons s b rest :
  varint_wf (s_varint s) → octets (b :: rest) →
  settings_consume s (b :: rest) =
  match settings_consume s [b] with Ok s1 => settings_consume s1 rest | Err e => Err e end.
Proof.
  intros Hw Ho. apply Forall_cons in Ho as [Hb Ho]. unfold settings_consume. cbn [length].
  rewrite !settings_loop_S, (varint_consume_cons _ b rest).
  pose proof (varint_step (s_varint s) b Hw Hb) as Hs.
  destruct (varint_consume (s_varint s) [b]) as [[v [x|]] r].
  - destruct Hs as (-> & -> & _). by destruct (settings_value _ x).
  - destruct Hs as (Hv & -> & _). destruct rest as [|c rest]; [done|]. cbn [length].
    rewrite (settings_loop_S _ (with_varint s v)).
    cbn [s_varint with_varint]. pose proof (varint_consume_spec (c :: rest) v Hv Ho) as Hs.
    destruct (varint_consume v (c :: rest)) as [[v' [x|]] r']; [|done]. destruct Hs as (-> & _ & w & E & Hne & _).
    change (with_varint (with_varint s v) varint_default) with (with_varint s varint_default).
    destruct (settings_value _ x) as [s1|e] eqn:Ev; [|done]. apply settings_value_varint in Ev.
    apply (f_equal length) in E as Hl. rewrite length_app in Hl. rewrite E in Ho. apply Forall_app in Ho as [_ Ho].
    assert (0 < length w)%nat by (destruct w; [done|simpl; lia]). simpl length in *.
    apply settings_fuel; [rewrite Ev; apply varint_default_wf|done|lia|lia].
Qed.

Lemma settings_one_wf s b s1 :
  varint_wf (s_varint s) → is_byte b → settings_consume s [b] = Ok s1 → varint_wf (s_varint s1).
Proof.
  intros Hw Hb. unfold settings_consume. cbn [length]. rewrite settings_loop_S.
  pose proof (varint_step (s_varint s) b Hw Hb) as Hs.
  destruct (varint_consume (s_varint s) [b]) as [[v [x|]] r].
  - destruct Hs as (-> & -> & _). destruct (settings_value _ x) as [s2|] eqn:Ev; [|done].
    intros [= <-]. apply settings_value_varint in Ev. rewrite Ev. apply varint_default_wf.
  - intros [= <-]. apply Hs.
Qed.

Lemma settings_wf s input s1 :
  varint_wf (s_varint s) → octets input → settings_consume s input = Ok s1 → varint_wf (s_varint s1).
Proof.
  revert s. induction input as [|b input IH]; intros s Hw Ho; [by intros [= <-]|].
  rewrite settings_cons by done. apply Forall_cons in Ho as [Hb Ho].
  destruct (settings_consume s [b]) as [s2|] eqn:E; [|done]. apply IH; [|done]. by eapply settings_one_wf.
Qed.

Lemma settings_app s a b :
  varint_wf (s_varint s) → octets (a ++ b) →
  settings_consume s (a ++ b) =
  match settings_consume s a with Ok s1 => settings_consume s1 b | Err e => Err e end.
Proof.
  revert s. induction a as [|c a IH]; intros s Hw Ho; [done|]. rewrite <-app_comm_cons in *.
  pose proof Ho as Ho2. apply Forall_cons in Ho2 as [Hc Ho2].
  rewrite settings_cons, (settings_cons s c a); [|done| |done..].
  2:{ constructor; [done|]. by apply Forall_app in Ho2 as [? _]. }
  destruct (settings_consume s [c]) as [s1|] eqn:E; [|done]. apply IH; [|done]. by eapply settings_one_wf.
Qed.

(** ** SETTINGS, pair by pair *)

Definition pair_wire (kv : Z * Z) (w : list Z) : Prop :=
  ∃ kw vw, varint_wire kv.1 kw ∧ varint_wire kv.2 vw ∧ w = kw ++ vw.

Inductive pairs_wire : list (Z * Z) → list Z → Prop :=
| pairs_nil : pairs_wire [] []
| pairs_cons kv kvs w p : pair_wire kv w → pairs_wire kvs p → pairs_wire (kv :: kvs) (w ++ p).

(** A setting RFC 9114 allows: no HTTP/2 identifier, and flags are 0 or 1. *)
Definition valid_setting (kv : Z * Z) : Prop :=
  ¬ (0x02 <= kv.1 <= 0x05) ∧ (kv.1 = 0x08 ∨ kv.1 = 0x33 → kv.2 <= 1).

(** The settings of a list of pairs. *)
Definition settings_of (kvs : list (Z * Z)) : PeerSettings :=
  let m : gmap Z Z := list_to_map kvs in
  {| qpack_max_table_capacity := m !! 0x01; max_field_section_size := m !! 0x06;
     qpack_blocked_streams := m !! 0x07; enable_connect_protocol := m !! 0x08;
     h3_datagram := m !! 0x33 |}.

Lemma settings_of_snoc kvs k v :
  k ∉ kvs.*1 →
  settings_of (kvs ++ [(k, v)]) =
  let m : gmap Z Z := <[k := v]> (list_to_map kvs) in
  {| qpack_max_table_capacity := m !! 0x01; max_field_section_size := m !! 0x06;
     qpack_blocked_streams := m !! 0x07; enable_connect_protocol := m !! 0x08;
     h3_datagram := m !! 0x33 |}.
Proof. intros Hk. unfold settings_of. by rewrite list_to_map_snoc. Qed.

Lemma assign_spec kvs k v :
  k ∉ kvs.*1 →
  match assign_setting (settings_of kvs) k v with
  | Ok p => valid_setting (k, v) ∧ p = settings_of (kvs ++ [(k, v)])
  | Err _ => ¬ valid_setting (k, v)
  end.
Proof.
  intros Hk. rewrite settings_of_snoc by done. unfold assign_setting, valid_setting. cbn [fst snd].
  set (m := list_to_map kvs : gmap Z Z). unfold settings_of. fold m.
  repeat case_if; cbn; first [lia | split; [lia|]];
    subst; rewrite ?lookup_insert_eq, ?lookup_insert_ne by lia; try done.
Qed.

Definition at_pair (kvs : list (Z * Z)) (s : SettingsParser) : Prop :=
  s_varint s = varint_default ∧ pending_id s = None ∧ seen s = list_to_set kvs.*1 ∧
  parsed s = settings_of kvs ∧ NoDup kvs.*1 ∧ Forall valid_setting kvs.

(** A whole integer. *)
Lemma settings_integer s x w rest :
  s_varint s = varint_default → varint_wire x w → octets (w ++ rest) →
  settings_consume s (w ++ rest) =
  match settings_value s x with Ok s1 => settings_consume s1 rest | Err e => Err e end.
Proof.
  intros Hv Hw Ho. pose proof (varint_wire_nonempty _ _ Hw) as Hne.
  destruct w as [|b w]; [done|]. cbn [app]. unfold settings_consume at 1. cbn [length].
  rewrite settings_loop_S, Hv. rewrite app_comm_cons, (varint_wire_app _ _ rest _ _ Hw).
  replace (with_varint s varint_default) with s by (destruct s; cbn in *; by subst).
  destruct (settings_value s x) as [s1|] eqn:E; [|done]. apply settings_value_varint in E.
  apply settings_fuel; [rewrite E, Hv; apply varint_default_wf| |rewrite length_app; lia|lia].
  cbn [app] in Ho. apply Forall_cons in Ho as [_ Ho]. by apply Forall_app in Ho as [_ Ho].
Qed.

Lemma settings_pair kvs s kv w rest :
  at_pair kvs s → pair_wire kv w → octets (w ++ rest) →
  (∃ s', settings_consume s (w ++ rest) = settings_consume s' rest ∧ at_pair (kvs ++ [kv]) s') ∨
  (∃ e, settings_consume s (w ++ rest) = Err e) ∧ ¬ (NoDup (kvs ++ [kv]).*1 ∧ Forall valid_setting (kvs ++ [kv])).
Proof.
  intros (Hv & Hp & Hs & Hps & Hnd & Hvs) (kw & vw & Hk & Hvw & ->) Ho. destruct kv as [k v]. cbn [fst snd] in *.
  rewrite <-app_assoc in *. remember (settings_consume s (kw ++ vw ++ rest)) as res eqn:E.
  rewrite (settings_integer s k) in E by done. unfold settings_value in E. rewrite Hp in E.
  apply Forall_app in Ho as [_ Ho]. rewrite (settings_integer _ v) in E by done.
  unfold settings_value in E. cbn [pending_id seen parsed s_varint] in E. rewrite Hs, Hps in E.
  destruct (decide (k ∈ kvs.*1)) as [Hin|Hin].
  - right. rewrite bool_decide_eq_true_2 in E by by apply elem_of_list_to_set. split; [eexists; rewrite E; reflexivity|].
    intros [Hn _]. rewrite fmap_app in Hn. apply NoDup_app in Hn as (_ & Hn & _). apply (Hn k Hin).
    by apply list_elem_of_singleton.
  - rewrite bool_decide_eq_false_2 in E by by rewrite elem_of_list_to_set. pose proof (assign_spec kvs k v Hin) as Ha.
    destruct (assign_setting _ k v) as [p|e].
    + left. destruct Ha as [Hva ->]. eexists. split; [exact E|]. unfold at_pair. cbn [s_varint pending_id seen parsed].
      rewrite fmap_app. cbn [fmap list_fmap fst]. split_and!; try done.
      * rewrite list_to_set_app_L. cbn [list_to_set]. set_solver.
      * apply NoDup_app. split_and!; [done| |apply NoDup_singleton]. intros x Hx Hx'%list_elem_of_singleton. by subst.
      * apply Forall_app. split; [done|by apply Forall_singleton].
    + right. split; [eexists; rewrite E; reflexivity|]. intros [_ Hva]. apply Forall_app in Hva as [_ Hva]. by inversion Hva.
Qed.

Lemma settings_run kvs0 s kvs p :
  at_pair kvs0 s → pairs_wire kvs p → octets p →
  (∃ s', settings_consume s p = Ok s' ∧ at_pair (kvs0 ++ kvs) s') ∨
  (∃ e, settings_consume s p = Err e) ∧ ¬ (NoDup (kvs0 ++ kvs).*1 ∧ Forall valid_setting (kvs0 ++ kvs)).
Proof.
  intros Ha Hw. revert kvs0 s Ha. induction Hw as [|kv kvs w p Hkv Hw IH]; intros kvs0 s Ha Ho.
  - left. exists s. rewrite app_nil_r. done.
  - replace (kvs0 ++ kv :: kvs) with ((kvs0 ++ [kv]) ++ kvs) by by rewrite <-app_assoc.
    destruct (settings_pair kvs0 s kv w p Ha Hkv Ho) as [(s' & -> & Ha')|[[e ->] Hn]].
    + apply IH; [done|]. by apply Forall_app in Ho as [_ Ho].
    + right. split; [by eexists|]. intros [Hd Hv]. apply Hn.
      rewrite fmap_app in Hd. apply NoDup_app in Hd as (Hd & _). by apply Forall_app in Hv as [Hv _].
Qed.

(** A payload that is not a list of pairs is truncated. *)
Lemma settings_tokenise input s s' ps :
  s_varint s = varint_default → pending_id s = None → octets input →
  settings_consume s input = Ok s' → settings_finish s' = Ok ps → ∃ kvs, pairs_wire kvs input.
Proof.
  remember (length input) as n eqn:Hn. revert input Hn s. induction (lt_wf n) as [n _ IH].
  intros input -> s Hv Hp Ho Hc Hf.
  assert (Hbad : ∀ v s2, settings_finish (with_varint s2 v) = Ok ps → bytes v = []).
  { intros v s2. unfold settings_finish. cbn [s_varint with_varint]. case_if; [done|]. bool_hyps.
    intros _. destruct (bytes v); [done|]. rewrite zlen_cons in *. pose proof (zlen_nonneg l). lia. }
  destruct (decide (input = [])) as [->|Hne]; [exists []; constructor|].
  destruct (first_varint input Ho) as [(k & kw & r1 & -> & Hk & _)|(v & E & Hbv)].
  2:{ destruct input as [|b input]; [done|]. unfold settings_consume in Hc. cbn [length] in Hc.
      rewrite settings_loop_S, Hv, E in Hc. injection Hc as <-. apply Hbad in Hf. congruence. }
  rewrite (settings_integer s k) in Hc by done. unfold settings_value in Hc. rewrite Hp in Hc.
  pose proof (varint_wire_nonempty _ _ Hk) as Hkne. apply Forall_app in Ho as [_ Ho].
  destruct (decide (r1 = [])) as [->|Hr1].
  { injection Hc as <-. unfold settings_finish in Hf. cbn in Hf. by rewrite orb_true_r in Hf. }
  destruct (first_varint r1 Ho) as [(v & vw & r2 & -> & Hvw & _)|(v & E & Hbv)].
  2:{ destruct r1 as [|b r1]; [done|]. unfold settings_consume in Hc. cbn [length] in Hc.
      rewrite settings_loop_S in Hc. cbn [s_varint] in Hc. rewrite Hv, E in Hc. injection Hc as <-. apply Hbad in Hf. congruence. }
  rewrite (settings_integer _ v) in Hc by done. apply Forall_app in Ho as [_ Ho].
  unfold settings_value in Hc. cbn [pending_id seen parsed s_varint] in Hc.
  destruct (bool_decide _); [done|]. destruct (assign_setting _ _ _) as [p|]; [|done].
  destruct (IH (length r2)) with (input := r2) (s := {| s_varint := s_varint s; pending_id := None;
    seen := {[k]} ∪ seen s; parsed := p |}) as [kvs Hkvs]; [|done..|].
  { rewrite !length_app. destruct kw; [done|simpl; lia]. }
  exists ((k, v) :: kvs). rewrite app_assoc. constructor; [|done]. by exists kw, vw.
Qed.

(** What a SETTINGS payload means. *)
Definition settings_payload (p : list Z) (ps : PeerSettings) : Prop :=
  ∃ kvs, pairs_wire kvs p ∧ NoDup kvs.*1 ∧ Forall valid_setting kvs ∧ ps = settings_of kvs.

Lemma settings_exact p ps :
  octets p →
  (∃ s, settings_consume parser_default p = Ok s ∧ settings_finish s = Ok ps) ↔ settings_payload p ps.
Proof.
  intros Ho. assert (H0 : at_pair [] parser_default) by (split_and!; (done || constructor)). split.
  - intros (s & Hc & Hf). destruct (settings_tokenise p parser_default s ps) as [kvs Hw]; [done..|].
    destruct (settings_run [] _ kvs p H0 Hw Ho) as [(s' & Hc' & Ha)|[[e Hc'] _]]; [|congruence].
    rewrite Hc in Hc'. injection Hc' as <-. destruct Ha as (Hv & Hpd & _ & Hps & Hn & Hvs).
    exists kvs. split_and!; try done. unfold settings_finish in Hf. rewrite Hv, Hpd in Hf. injection Hf as <-. done.
  - intros (kvs & Hw & Hn & Hvs & ->).
    destruct (settings_run [] _ kvs p H0 Hw Ho) as [(s & Hc & Ha)|[_ Hno]]; [|by destruct Hno].
    exists s. split; [done|]. destruct Ha as (Hv & Hpd & _ & Hps & _). unfold settings_finish. by rewrite Hv, Hpd, Hps.
Qed.

(** ** The control stream, round by round *)

Inductive c_outcome :=
| CNext (c : ControlStreamParser) (rest : list Z)
| CStop (r : result H3ConnectionError ControlStreamParser).

Definition next (r : result H3ConnectionError ControlStreamParser) (rest : list Z) : c_outcome :=
  match r with Ok c => CNext c rest | Err e => CStop (Err e) end.

Definition c_round (c : ControlStreamParser) (input : list Z) : c_outcome :=
  match c_phase c with
  | CType =>
      match varint_consume (c_varint c) input with
      | (v, None, _) => CStop (Ok (c <| c_varint := v |>))
      | (v, Some ty, rest) => next (control_type (c <| c_varint := v |>) ty) rest
      end
  | CLength =>
      match varint_consume (c_varint c) input with
      | (v, None, _) => CStop (Ok (c <| c_varint := v |>))
      | (v, Some n, rest) => next (control_length (c <| c_varint := v |>) n) rest
      end
  | CPayload remaining =>
      let consumed := Z.min remaining (zlen input) in
      next (control_payload c remaining (take (Z.to_nat consumed) input)) (drop (Z.to_nat consumed) input)
  end.

Lemma control_loop_S fuel c b input :
  control_loop (S fuel) c (b :: input) =
  match c_round c (b :: input) with CNext c rest => control_loop fuel c rest | CStop r => r end.
Proof.
  cbn [control_loop]. unfold c_round, next. destruct (c_phase c).
  - destruct (varint_consume _ _) as [[? []] ?]; [|done]. by destruct (control_type _ _).
  - destruct (varint_consume _ _) as [[? []] ?]; [|done]. by destruct (control_length _ _).
  - cbv zeta. by destruct (control_payload _ _ _).
Qed.

Definition control_inv (c : ControlStreamParser) : Prop :=
  varint_wf (c_varint c) ∧ varint_wf (s_varint (default parser_default (settings c))) ∧
  match c_phase c with CPayload r => 0 < r | _ => True end.

Lemma finish_payload_inv c c' :
  varint_wf (c_varint c) → varint_wf (s_varint (default parser_default (settings c))) →
  finish_payload c = Ok c' → control_inv c'.
Proof.
  intros Hv Hs. unfold finish_payload. case_if.
  - destruct (settings_finish _); [|done]. by intros [= <-].
  - by intros [= <-].
Qed.

Lemma control_type_inv c ty c' : control_inv c → control_type c ty = Ok c' → control_inv c'.
Proof. intros (Hv & Hs & _). unfold control_type. repeat (case_if; [done|]). by intros [= <-]. Qed.

Lemma control_length_inv c n c' : control_inv c → 0 <= n → control_length c n = Ok c' → control_inv c'.
Proof.
  intros (Hv & Hs & _) Hn. unfold control_length. cbv zeta. case_if; [done|].
  set (c1 := if c_frame_type c =? 4 then _ else c).
  assert (H1 : varint_wf (c_varint c1) ∧ varint_wf (s_varint (default parser_default (settings c1)))).
  { unfold c1. case_if; [|done]. split; [done|]. apply varint_default_wf. }
  destruct H1 as [H1 H2]. clearbody c1. case_if; [by apply finish_payload_inv|].
  intros [= <-]. split_and!; try done. cbn. lia.
Qed.

Lemma control_payload_inv c r payload c' :
  control_inv c → octets payload → zlen payload <= r → control_payload c r payload = Ok c' → control_inv c'.
Proof.
  intros (Hv & Hs & _) Ho Hr. unfold control_payload.
  destruct (if c_frame_type c =? 4 then _ else _) as [c1|] eqn:E; [|done].
  assert (H1 : varint_wf (c_varint c1) ∧ varint_wf (s_varint (default parser_default (settings c1)))).
  { revert E. case_if; [|by intros [= <-]].
    destruct (settings_consume _ _) as [sp|] eqn:Ec; [|done]. intros [= <-]. split; [done|]. by eapply settings_wf. }
  destruct H1 as [H1 H2]. case_if; [by apply finish_payload_inv|].
  intros [= <-]. split_and!; try done. cbn. lia.
Qed.

Lemma c_round_next c input c' rest :
  control_inv c → octets input → input ≠ [] → c_round c input = CNext c' rest →
  control_inv c' ∧ octets rest ∧ (length rest < length input)%nat.
Proof.
  intros Hi Ho Hne. pose proof Hi as (Hv & Hs & Hp). unfold c_round, next.
  pose proof (varint_consume_spec input (c_varint c) Hv Ho) as Hc.
  destruct (c_phase c) as [| |r] eqn:Ep.
  - destruct (varint_consume _ _) as [[v [x|]] r]; [|done]. destruct Hc as (-> & _ & w & -> & Hw & _).
    destruct (control_type _ x) as [c1|] eqn:E; [|done]. intros [= <- <-]. apply Forall_app in Ho as [_ Ho].
    split_and!; [|done|rewrite length_app; destruct w; [done|simpl; lia]].
    eapply control_type_inv; [|exact E]. split_and!; [apply varint_default_wf|done|cbn; by rewrite Ep].
  - destruct (varint_consume _ _) as [[v [x|]] r]; [|done]. destruct Hc as (-> & Hx & w & -> & Hw & _).
    destruct (control_length _ x) as [c1|] eqn:E; [|done]. intros [= <- <-]. apply Forall_app in Ho as [_ Ho].
    split_and!; [|done|rewrite length_app; destruct w; [done|simpl; lia]].
    eapply control_length_inv; [|apply Hx|exact E]. split_and!; [apply varint_default_wf|done|cbn; by rewrite Ep].
  - cbv zeta. clear Hc. set (k := Z.min r (zlen input)).
    assert (Hk : 0 < k).
    { destruct input; [done|]. unfold k. rewrite zlen_cons. pose proof (zlen_nonneg input). lia. }
    destruct (control_payload _ _ _) as [c1|] eqn:E; [|done]. intros [= <- <-].
    split_and!; [|by apply Forall_drop|rewrite length_drop; destruct input; [done|simpl length]; lia].
    eapply control_payload_inv; [exact Hi| | |exact E]; [by apply Forall_take|]. rewrite zlen_take. unfold k. lia.
Qed.

Lemma control_fuel fuel fuel' c input :
  control_inv c → octets input → (length input ≤ fuel)%nat → (length input ≤ fuel')%nat →
  control_loop fuel c input = control_loop fuel' c input.
Proof.
  revert fuel' c input. induction fuel as [|fuel IH]; intros fuel' c input Hi Ho Hf Hf';
    (destruct input as [|b input]; [by destruct fuel'|]); [simpl in Hf; lia|].
  destruct fuel' as [|fuel']; [simpl in Hf'; lia|]. rewrite !control_loop_S.
  destruct (c_round _ _) as [c1 r1|] eqn:E; [|done].
  apply c_round_next in E as (Hi1 & Ho1 & Hl); [|done..]. simpl length in *. apply IH; [done..|lia|lia].
Qed.

Lemma control_round c input :
  control_inv c → octets input → input ≠ [] →
  control_consume c input =
  match c_round c input with CNext c rest => control_consume c rest | CStop r => r end.
Proof.
  intros Hi Ho Hne. destruct input as [|b input]; [done|]. unfold control_consume. rewrite control_loop_S.
  destruct (c_round _ _) as [c1 r1|] eqn:E; [|done].
  apply c_round_next in E as (Hi1 & Ho1 & Hl); [|done..]. simpl length in *. apply control_fuel; [done..|lia|lia].
Qed.

(** A payload taken in two steps. *)
Lemma control_payload_split c b rest r :
  control_inv c → octets (b :: rest) → c_phase c = CPayload r → 1 < r → rest ≠ [] →
  match control_payload c r [b] with
  | Ok c1 => c_phase c1 = CPayload (r - 1) ∧ c_round c (b :: rest) = c_round c1 rest
  | Err e => c_round c (b :: rest) = CStop (Err e)
  end.
Proof.
  intros (Hv & Hs & _) Ho Hp Hr Hne. unfold c_round. rewrite Hp. cbv zeta.
  set (k := Z.min (r - 1) (zlen rest)).
  assert (Hk : Z.min r (zlen (b :: rest)) = 1 + k) by (rewrite zlen_cons; unfold k; lia).
  assert (0 < k <= zlen rest).
  { destruct rest; [done|]. unfold k. rewrite zlen_cons. pose proof (zlen_nonneg rest). lia. }
  rewrite Hk. replace (Z.to_nat (1 + k)) with (S (Z.to_nat k)) by lia. cbn [take drop firstn skipn].
  assert (Hob : octets ([b] ++ take (Z.to_nat k) rest)).
  { apply Forall_cons in Ho as [Hb Ho]. constructor; [done|by apply Forall_take]. }
  assert (Hlen : zlen (b :: take (Z.to_nat k) rest) = 1 + k) by (rewrite zlen_cons, zlen_take; lia).
  unfold control_payload. rewrite Hlen. change (zlen [b]) with 1.
  rewrite (proj2 (Z.eqb_neq 1 r)) by lia.
  assert (Heq : (1 + k =? r) = (k =? r - 1))
    by (destruct (Z.eqb_spec k (r - 1)), (Z.eqb_spec (1 + k) r); lia).
  assert (Hk' : zlen (take (Z.to_nat k) rest) = k) by (rewrite zlen_take; lia).
  change (b :: take (Z.to_nat k) rest) with ([b] ++ take (Z.to_nat k) rest).
  destruct (c_frame_type c =? 4) eqn:Et.
  - rewrite settings_app by done. destruct (settings_consume _ [b]) as [sp|] eqn:E1; [|done].
    split; [done|]. cbn. fold k. rewrite Et, Hk', Heq. destruct (settings_consume sp _) as [sp2|]; [|done].
    by replace (r - (1 + k)) with (r - 1 - k) by lia.
  - split; [done|]. cbn. fold k. rewrite Et, Hk', Heq. by replace (r - (1 + k)) with (r - 1 - k) by lia.
Qed.

Lemma control_cons c b rest :
  control_inv c → octets (b :: rest) →
  control_consume c (b :: rest) =
  match control_consume c [b] with Ok c1 => control_consume c1 rest | Err e => Err e end.
Proof.
  intros Hi Ho. pose proof Ho as Ho2. apply Forall_cons in Ho2 as [Hb Hor].
  assert (Hob : octets [b]) by by apply Forall_singleton.
  rewrite (control_round c (b :: rest)), (control_round c [b]) by done.
  destruct (c_phase c) as [| |r] eqn:Ep.
  3:{ pose proof (proj2 (proj2 Hi)) as Hr. rewrite Ep in Hr.
      assert (Hone : c_round c [b] = next (control_payload c r [b]) []).
      { unfold c_round. rewrite Ep. cbv zeta. change (zlen [b]) with 1. by rewrite (Z.min_r r 1) by lia. }
      destruct (decide (r = 1)) as [->|Hr1]; [|destruct (decide (rest = [])) as [->|Hne]].
      - rewrite Hone. unfold c_round. rewrite Ep. cbv zeta.
        rewrite Z.min_l by (rewrite zlen_cons; pose proof (zlen_nonneg rest); lia).
        change (take (Z.to_nat 1) (b :: rest)) with [b]. change (drop (Z.to_nat 1) (b :: rest)) with rest.
        unfold next. by destruct (control_payload c 1 [b]).
      - rewrite Hone. unfold next. by destruct (control_payload c r [b]).
      - pose proof (control_payload_split c b rest r Hi Ho Ep ltac:(lia) Hne) as Hs. rewrite Hone.
        destruct (control_payload c r [b]) as [c1|e] eqn:E; cbn [next]; [|by rewrite Hs].
        destruct Hs as [Hp1 ->]. change (control_consume c1 []) with (@Ok H3ConnectionError _ c1). cbv iota.
        rewrite (control_round c1 rest); [done| |done..].
        eapply control_payload_inv; [exact Hi|exact Hob| |exact E]. change (zlen [b]) with 1. lia. }
  all: unfold c_round; rewrite Ep; rewrite (varint_consume_cons _ b rest);
    pose proof (varint_step (c_varint c) b (proj1 Hi) Hb) as Hs;
    destruct (varint_consume (c_varint c) [b]) as [[v [x|]] r];
    [destruct Hs as (-> & -> & _) | destruct Hs as (Hv & -> & _)].
  - unfold next. by destruct (control_type _ x).
  - destruct rest as [|d rest]; [done|].
    rewrite (control_round (c <| c_varint := v |>)); [|by split_and!; [|apply Hi|cbn; rewrite Ep]|done..].
    unfold c_round. cbn [c_phase set_c_varint set]. rewrite Ep. cbn [c_varint set_c_varint set].
    by destruct (varint_consume v _) as [[? []] ?].
  - unfold next. by destruct (control_length _ x).
  - destruct rest as [|d rest]; [done|].
    rewrite (control_round (c <| c_varint := v |>)); [|by split_and!; [|apply Hi|cbn; rewrite Ep]|done..].
    unfold c_round. cbn [c_phase set_c_varint set]. rewrite Ep. cbn [c_varint set_c_varint set].
    by destruct (varint_consume v _) as [[? []] ?].
Qed.

Lemma control_one_inv c b c1 :
  control_inv c → is_byte b → control_consume c [b] = Ok c1 → control_inv c1.
Proof.
  intros Hi Hb. assert (Hob : octets [b]) by by apply Forall_singleton. rewrite control_round by done.
  destruct (c_round c [b]) as [c' r'|r'] eqn:E.
  - apply c_round_next in E as (Hi1 & _ & Hl); [|done..]. destruct r'; [|simpl in Hl; lia]. by intros [= <-].
  - intros ->. revert E. unfold c_round, next.
    pose proof (varint_step (c_varint c) b (proj1 Hi) Hb) as Hs.
    destruct (c_phase c) as [| |r] eqn:Ep.
    + destruct (varint_consume (c_varint c) [b]) as [[v [x|]] r]; [by destruct (control_type _ x)|].
      intros [= <-]. split_and!; [apply Hs|apply Hi|cbn; by rewrite Ep].
    + destruct (varint_consume (c_varint c) [b]) as [[v [x|]] r]; [by destruct (control_length _ x)|].
      intros [= <-]. split_and!; [apply Hs|apply Hi|cbn; by rewrite Ep].
    + cbv zeta. by destruct (control_payload _ _ _).
Qed.

(** Where the stream is cut does not matter. *)
Lemma control_app c a b :
  control_inv c → octets (a ++ b) →
  control_consume c (a ++ b) =
  match control_consume c a with Ok c1 => control_consume c1 b | Err e => Err e end.
Proof.
  revert c. induction a as [|d a IH]; intros c Hi Ho; [done|]. rewrite <-app_comm_cons in *.
  pose proof Ho as Ho2. apply Forall_cons in Ho2 as [Hd Ho2].
  rewrite control_cons, (control_cons c d a); [|done| |done..].
  2:{ constructor; [done|]. by apply Forall_app in Ho2 as [? _]. }
  destruct (control_consume c [d]) as [c1|] eqn:E; [|done]. apply IH; [|done]. by eapply control_one_inv.
Qed.

(** ** The control stream, frame by frame *)

Definition c_boundary (c : ControlStreamParser) : Prop :=
  c_phase c = CType ∧ c_varint c = varint_default ∧ settings c = None.

Definition control_step (c : ControlStreamParser) (f : frame) : result H3ConnectionError ControlStreamParser :=
  match control_type (c <| c_varint := varint_default |>) f.1 with
  | Err e => Err e
  | Ok c =>
      match control_length c (zlen f.2) with
      | Err e => Err e
      | Ok c => if zlen f.2 =? 0 then Ok c else control_payload c (zlen f.2) f.2
      end
  end.

Lemma c_boundary_inv c : c_boundary c → control_inv c.
Proof. intros (Hp & Hv & Hs). unfold control_inv. rewrite Hp, Hv, Hs. split_and!; [apply varint_default_wf..|done]. Qed.

Lemma control_type_result c ty c' :
  control_type c ty = Ok c' → c_phase c' = CLength ∧ c_varint c' = c_varint c ∧ c_frame_type c' = ty ∧
  settings c' = settings c.
Proof. unfold control_type. repeat (case_if; [done|]). by intros [= <-]. Qed.

Lemma finish_payload_result c c' :
  finish_payload c = Ok c' → c_phase c' = CType ∧ c_varint c' = c_varint c.
Proof. unfold finish_payload. case_if; [destruct (settings_finish _); [|done]|]; by intros [= <-]. Qed.

Lemma control_length_result c n c' :
  control_length c n = Ok c' → c_varint c' = c_varint c ∧
  (n = 0 ∧ c_phase c' = CType ∨ n ≠ 0 ∧ c_phase c' = CPayload n).
Proof.
  unfold control_length. cbv zeta. case_if; [done|]. set (c1 := if c_frame_type c =? 4 then _ else c).
  assert (H1 : c_varint c1 = c_varint c) by (unfold c1; by case_if). rewrite <-H1. clearbody c1. case_if.
  - intros [Hp Hv]%finish_payload_result. split; [done|by left].
  - intros [= <-]. split; [done|by right].
Qed.

Lemma round_ctype c tw rest ty :
  c_boundary c → varint_wire ty tw →
  c_round c (tw ++ rest) = next (control_type (c <| c_varint := varint_default |>) ty) rest.
Proof. intros (Hp & Hv & _) Hw. unfold c_round. rewrite Hp, Hv. by rewrite (varint_wire_app _ _ rest _ _ Hw). Qed.

Lemma round_clength c lw rest n :
  c_phase c = CLength → c_varint c = varint_default → varint_wire n lw →
  c_round c (lw ++ rest) = next (control_length c n) rest.
Proof.
  intros Hp Hv Hw. unfold c_round. rewrite Hp, Hv. rewrite (varint_wire_app _ _ rest _ _ Hw).
  f_equal. f_equal. destruct c. cbn in *. by subst.
Qed.

Lemma round_cpayload c payload rest :
  c_phase c = CPayload (zlen payload) →
  c_round c (payload ++ rest) = next (control_payload c (zlen payload) payload) rest.
Proof.
  intros Hp. unfold c_round. rewrite Hp. cbv zeta. rewrite zlen_app.
  rewrite Z.min_l by (pose proof (zlen_nonneg rest); lia).
  replace (Z.to_nat (zlen payload)) with (length payload) by (unfold zlen; lia).
  by rewrite take_app_length, drop_app_length.
Qed.

Lemma control_frame c f w rest :
  c_boundary c → frame_wire f w → octets (w ++ rest) →
  control_consume c (w ++ rest) =
  match control_step c f with Ok c => control_consume c rest | Err e => Err e end.
Proof.
  intros Hb (tw & lw & Ht & Hl & ->) Ho. rewrite <-!app_assoc in *.
  pose proof (varint_wire_nonempty _ _ Ht). pose proof (varint_wire_nonempty _ _ Hl).
  rewrite control_round; [|by apply c_boundary_inv|done|by destruct tw]. erewrite round_ctype by done.
  apply Forall_app in Ho as [_ Ho]. unfold control_step.
  destruct (control_type _ f.1) as [c1|] eqn:E1; [|done]. cbn [next].
  assert (Hi1 : control_inv c1).
  { eapply control_type_inv; [|exact E1]. split_and!; [apply varint_default_wf|apply (c_boundary_inv c Hb)|].
    cbn. by rewrite (proj1 Hb). }
  apply control_type_result in E1 as (Hp1 & Hv1 & _).
  rewrite control_round; [|done..|by destruct lw]. erewrite round_clength by done.
  apply Forall_app in Ho as [_ Ho]. destruct (control_length c1 _) as [c2|] eqn:E2; [|done]. cbn [next].
  assert (Hi2 : control_inv c2) by (eapply control_length_inv; [exact Hi1|exact (zlen_nonneg f.2)|exact E2]).
  apply control_length_result in E2 as [_ [[Hz _]|[Hz Hp2]]].
  - rewrite Hz. change (0 =? 0) with true. cbv iota. destruct f.2; [done|]. rewrite zlen_cons in Hz. pose proof (zlen_nonneg l). lia.
  - rewrite (proj2 (Z.eqb_neq _ _) Hz). rewrite control_round; [|done..|by destruct f.2].
    rewrite round_cpayload by done. by destruct (control_payload c2 _ _).
Qed.

(** Input that ends inside a frame leaves the parser there. *)
Lemma control_split c input c' :
  c_boundary c → octets input → input ≠ [] → control_consume c input = Ok c' →
  c_phase c' = CType → bytes (c_varint c') = [] → ∃ f w rest, frame_wire f w ∧ input = w ++ rest.
Proof.
  intros Hb Ho Hne Hc Hp Hv. pose proof (c_boundary_inv c Hb) as Hi.
  destruct (first_varint input Ho) as [(ty & tw & r1 & -> & Ht & _)|(v & E & Hbv)].
  2:{ rewrite control_round in Hc by done. unfold c_round in Hc.
      rewrite (proj1 Hb), (proj1 (proj2 Hb)), E in Hc. injection Hc as <-. cbn in Hv. by subst. }
  rewrite control_round in Hc by done. erewrite round_ctype in Hc by done. apply Forall_app in Ho as [_ Ho].
  destruct (control_type _ ty) as [c1|] eqn:E1; [|done]. cbn [next] in Hc.
  assert (Hi1 : control_inv c1).
  { eapply control_type_inv; [|exact E1]. split_and!; [apply varint_default_wf|apply Hi|]. cbn. by rewrite (proj1 Hb). }
  apply control_type_result in E1 as (Hp1 & Hv1 & _).
  destruct (decide (r1 = [])) as [->|Hr1]; [injection Hc as <-; congruence|].
  destruct (first_varint r1 Ho) as [(n & lw & r2 & -> & Hl & Hn)|(v & E & Hbv)].
  2:{ rewrite control_round in Hc by done. unfold c_round in Hc. rewrite Hp1, Hv1 in Hc. cbn [c_varint set_c_varint set] in Hc.
      rewrite E in Hc. injection Hc as <-. cbn in Hp. congruence. }
  rewrite control_round in Hc by done. erewrite round_clength in Hc by done. apply Forall_app in Ho as [_ Ho].
  destruct (control_length c1 n) as [c2|] eqn:E2; [|done]. cbn [next] in Hc.
  assert (Hi2 : control_inv c2) by (eapply control_length_inv; [exact Hi1|exact Hn|exact E2]).
  destruct (Z.leb_spec n (zlen r2)) as [Hle|Hlt].
  - exists (ty, take (Z.to_nat n) r2), (tw ++ lw ++ take (Z.to_nat n) r2), (drop (Z.to_nat n) r2).
    rewrite <-!app_assoc, take_drop. split; [|done]. exists tw, lw. split_and!; [done| |done].
    cbn [snd]. rewrite zlen_take. by replace (Z.min _ _) with n by lia.
  - exfalso. apply control_length_result in E2 as [_ [[-> _]|(_ & Hp2)]]; [pose proof (zlen_nonneg r2); lia|].
    destruct (decide (r2 = [])) as [->|Hr2]; [injection Hc as <-; congruence|].
    rewrite control_round in Hc by done. unfold c_round in Hc. rewrite Hp2 in Hc. cbv zeta in Hc.
    rewrite Z.min_r in Hc by lia. rewrite (drop_ge r2) in Hc by (unfold zlen; lia).
    rewrite (take_ge r2) in Hc by (unfold zlen; lia). unfold control_payload in Hc.
    destruct (if c_frame_type c2 =? 4 then _ else _) as [c3|]; [|done].
    rewrite (proj2 (Z.eqb_neq _ _)) in Hc by lia. injection Hc as <-. done.
Qed.

(** ** What the control stream means *)

(** A frame that may follow SETTINGS. *)
Definition allowed (f : frame) : Prop := f.1 ∉ [0x00; 0x01; 0x02; 0x04; 0x05; 0x06; 0x08; 0x09].

Definition control_ok (fs : list frame) (ps : PeerSettings) : Prop :=
  ∃ sp rest, fs = (0x04, sp) :: rest ∧ zlen sp <= MAX_SETTINGS_PAYLOAD ∧ settings_payload sp ps ∧
    Forall allowed rest.

Definition c_good (fs : list frame) (c : ControlStreamParser) : Prop :=
  c_boundary c ∧
  match fs with
  | [] => settings_received c = false ∧ completed_settings c = None
  | _ => settings_received c = true ∧ ∃ ps, completed_settings c = Some ps ∧ control_ok fs ps
  end.

(** SETTINGS as the first frame. *)
Lemma settings_step c sp :
  c_boundary c → settings_received c = false → octets sp →
  match control_step c (0x04, sp) with
  | Ok c' => c_good [(0x04, sp)] c'
  | Err _ => ∀ ps gs, ¬ control_ok ((0x04, sp) :: gs) ps
  end.
Proof.
  intros (Hp & Hv & Hs) Hr Ho. unfold control_step. cbn [fst snd].
  assert (Ht : control_type (c <| c_varint := varint_default |>) 4 =
    Ok (c <| c_varint := varint_default |> <| c_frame_type := 4 |> <| c_phase := CLength |>)).
  { unfold control_type. cbn [settings_received set_c_varint set]. by rewrite Hr. }
  rewrite Ht. clear Ht. set (c1 := c <| c_varint := _ |> <| c_frame_type := _ |> <| c_phase := _ |>).
  unfold control_length. change (c_frame_type c1 =? 4) with true. cbv zeta. cbn [andb].
  destruct (Z.ltb_spec MAX_SETTINGS_PAYLOAD (zlen sp)) as [Hlt|Hle].
  { intros ps gs (sp' & rest & [= <- <-] & Hle & _). lia. }
  pose proof (settings_exact sp) as Hex.
  assert (Hone : ∀ c3 s, c_frame_type c3 = 4 → settings c3 = Some s → settings_received c3 = true →
      c_varint c3 = varint_default → settings_consume parser_default sp = Ok s →
      match finish_payload c3 with
      | Ok c' => c_good [(0x04, sp)] c'
      | Err _ => ∀ ps gs, ¬ control_ok ((0x04, sp) :: gs) ps
      end).
  { intros c3 s Ht Hs3 Hr3 Hv3 Hc. unfold finish_payload. rewrite Ht, Hs3. change (4 =? 4) with true. change (default parser_default (Some s)) with s. cbv iota.
    destruct (settings_finish s) as [ps|e] eqn:Ef.
    - split; [by split_and!|]. split; [done|]. exists ps. split; [done|]. exists sp, []. split_and!; [done..| |constructor].
      apply Hex; [done|]. by exists s.
    - intros ps gs (sp' & rest & [= <- <-] & _ & Hpay & _). apply (Hex ps Ho) in Hpay as (s' & Hc' & Hf'). congruence. }
  destruct (Z.eqb_spec (zlen sp) 0) as [Hz|Hz].
  - assert (sp = []) as -> by (destruct sp; [done|]; rewrite zlen_cons in Hz; pose proof (zlen_nonneg sp); lia).
    match goal with |- context [finish_payload ?c3] => specialize (Hone c3 parser_default eq_refl eq_refl eq_refl eq_refl eq_refl) end.
    destruct (finish_payload _); exact Hone.
  - unfold control_payload. change (c_frame_type (c1 <| settings_received := true |>
      <| settings := Some parser_default |> <| c_phase := CPayload (zlen sp) |>) =? 4) with true.
    cbn [settings set_settings set_settings_received set_c_phase set default id]. cbv iota.
    destruct (settings_consume parser_default sp) as [s|e] eqn:Ec.
    + rewrite Z.eqb_refl. by apply (Hone _ s).
    + intros ps gs (sp' & rest & [= <- <-] & _ & Hpay & _). apply (Hex ps Ho) in Hpay as (s' & Hc' & _). congruence.
Qed.

(** A frame after SETTINGS. *)
Lemma later_step c f :
  c_boundary c → settings_received c = true →
  match control_step c f with
  | Ok c' => allowed f ∧ c_boundary c' ∧ settings_received c' = true ∧
             completed_settings c' = completed_settings c
  | Err _ => ¬ allowed f
  end.
Proof.
  intros (Hp & Hv & Hs) Hr. unfold control_step, allowed. unfold control_type at 1.
  cbn [settings_received set_c_varint set]. rewrite Hr. cbn [negb andb]. rewrite andb_true_r.
  destruct (Z.eqb_spec f.1 4) as [->|H4]; [by intros []; set_solver|].
  case_bool_decide as Hin; [intros Hn; apply Hn; set_solver|].
  assert (Ha : f.1 ∉ [0x00; 0x01; 0x02; 0x04; 0x05; 0x06; 0x08; 0x09]) by set_solver.
  set (c1 := c <| c_varint := _ |> <| c_frame_type := _ |> <| c_phase := _ |>).
  assert (Ht : (c_frame_type c1 =? 4) = false) by by apply Z.eqb_neq.
  unfold control_length. rewrite Ht. cbn [andb]. destruct (Z.eqb_spec (zlen f.2) 0).
  - unfold finish_payload. rewrite Ht. by split_and!.
  - unfold control_payload. change (c_frame_type (c1 <| c_phase := CPayload (zlen f.2) |>)) with (c_frame_type c1).
    rewrite Ht, Z.eqb_refl. unfold finish_payload.
    change (c_frame_type (c1 <| c_phase := CPayload (zlen f.2) |>)) with (c_frame_type c1). rewrite Ht. by split_and!.
Qed.

Lemma control_step_spec fs c f :
  c_good fs c → octets f.2 →
  match control_step c f with
  | Ok c' => c_good (fs ++ [f]) c'
  | Err _ => ∀ ps gs, ¬ control_ok (fs ++ f :: gs) ps
  end.
Proof.
  intros [Hb Hc] Ho. destruct fs as [|f0 fs].
  - destruct Hc as [Hr Hn]. destruct f as [ty sp]. destruct (decide (ty = 4)) as [->|Ht]; [by apply settings_step|].
    unfold control_step, control_type. cbn [fst snd settings_received set_c_varint set]. rewrite Hr.
    rewrite (proj2 (Z.eqb_neq _ _) Ht). cbn. intros ps gs (sp' & rest & [= ? ?] & _). congruence.
  - destruct Hc as (Hr & ps & Hps & (sp & rest & [= -> ->] & Hl & Hpay & Hall)).
    pose proof (later_step c f Hb Hr) as Hs. destruct (control_step c f) as [c'|e].
    + destruct Hs as (Ha & Hb' & Hr' & Hc'). split; [done|]. split; [done|]. exists ps. split; [congruence|].
      exists sp, (rest ++ [f]). split_and!; try done. apply Forall_app. split; [done|by apply Forall_singleton].
    + intros ps' gs (sp' & rest' & [= <- <-] & _ & _ & Hall'). apply Hs. rewrite Forall_app, Forall_cons in Hall'. apply Hall'.
Qed.

Lemma control_run fs0 c fs p :
  c_good fs0 c → stream_wire fs p → octets p →
  match control_consume c p with
  | Ok c' => c_good (fs0 ++ fs) c'
  | Err _ => ∀ ps, ¬ control_ok (fs0 ++ fs) ps
  end.
Proof.
  intros Hg Hw. revert fs0 c Hg. induction Hw as [|f fs w p Hf Hw IH]; intros fs0 c Hg Ho.
  - cbn. by rewrite app_nil_r.
  - pose proof Hg as [Hb _]. rewrite (control_frame c f) by done. apply Forall_app in Ho as [How Ho].
    assert (Hof : octets f.2).
    { destruct Hf as (tw & lw & _ & _ & ->). apply Forall_app in How as [_ How]. by apply Forall_app in How as [_ How]. }
    pose proof (control_step_spec fs0 c f Hg Hof) as Hs. destruct (control_step c f) as [c1|e].
    + specialize (IH _ _ Hs Ho). by rewrite <-app_assoc in IH.
    + intros ps. apply Hs.
Qed.

Lemma control_step_boundary c f c' : c_boundary c → control_step c f = Ok c' → c_phase c' = CType.
Proof.
  intros Hb. unfold control_step. destruct (control_type _ _) as [c1|]; [|done].
  destruct (control_length _ _) as [c2|] eqn:E; [|done].
  apply control_length_result in E as [_ [[-> Hp]|[Hn Hp]]]; [by intros [= <-]|].
  rewrite (proj2 (Z.eqb_neq _ _) Hn). unfold control_payload.
  destruct (if c_frame_type c2 =? 4 then _ else _) as [c3|]; [|done]. rewrite Z.eqb_refl.
  by intros [? _]%finish_payload_result.
Qed.

(** An accepted stream that ends between frames is a sequence of whole frames. *)
Lemma control_tokenise fs0 c input c' :
  c_good fs0 c → octets input → control_consume c input = Ok c' →
  c_phase c' = CType → bytes (c_varint c') = [] → ∃ fs, stream_wire fs input.
Proof.
  remember (length input) as n eqn:Hn. revert input Hn fs0 c. induction (lt_wf n) as [n _ IH].
  intros input -> fs0 c Hg Ho Hc Hp Hv. destruct (decide (input = [])) as [->|Hne]; [exists []; constructor|].
  destruct (control_split c input c' (proj1 Hg) Ho Hne Hc Hp Hv) as (f & w & rest & Hf & ->).
  rewrite (control_frame c f) in Hc by (done || apply Hg). pose proof Ho as Ho2. apply Forall_app in Ho2 as [How Hor].
  assert (Hof : octets f.2).
  { destruct Hf as (tw & lw & _ & _ & ->). apply Forall_app in How as [_ How]. by apply Forall_app in How as [_ How]. }
  pose proof (control_step_spec fs0 c f Hg Hof) as Hs. destruct (control_step c f) as [c1|]; [|done].
  destruct (IH (length rest)) with (input := rest) (fs0 := fs0 ++ [f]) (c := c1) as [fs Hw]; [|done..|].
  { rewrite length_app. destruct Hf as (tw & lw & Ht & _ & ->). apply varint_wire_nonempty in Ht.
    destruct tw; [done|]. simpl. lia. }
  exists (f :: fs). by constructor.
Qed.

(** ** Properties *)

(** C15. The control stream parser accepts exactly frames of which the first is SETTINGS, of
    at most 64 KiB and with distinct valid identifiers, and the others are neither SETTINGS
    nor forbidden; the settings it reports are those of the frame, and chunking does not
    matter. *)
Theorem control_stream_exact p :
  octets p →
  (∀ ps,
    (∃ c, control_consume control_default p = Ok c ∧ c_phase c = CType ∧ bytes (c_varint c) = [] ∧
       completed_settings c = Some ps) ↔
    (∃ fs, stream_wire fs p ∧ control_ok fs ps)) ∧
  (∀ a b, p = a ++ b →
     control_consume control_default p =
     match control_consume control_default a with
     | Ok c => control_consume c b
     | Err e => Err e
     end).
Proof.
  intros Ho. assert (G0 : c_good [] control_default) by by split_and!. split.
  - intros ps. split.
    + intros (c & Hc & Hp & Hv & Hps). destruct (control_tokenise [] _ p c G0 Ho Hc Hp Hv) as [fs Hw].
      pose proof (control_run [] _ fs p G0 Hw Ho) as Hr. rewrite Hc in Hr. destruct Hr as [_ Hr].
      destruct fs as [|f fs]; [destruct Hr; congruence|]. destruct Hr as (_ & ps' & Hps' & Hok).
      exists (f :: fs). split; [done|]. rewrite Hps in Hps'. by injection Hps' as <-.
    + intros (fs & Hw & Hok). pose proof (control_run [] _ fs p G0 Hw Ho) as Hr.
      destruct (control_consume control_default p) as [c|]; [|by destruct (Hr ps)]. destruct Hr as [(Hp & Hv & _) Hr].
      exists c. split_and!; [done..|by rewrite Hv|]. destruct Hok as (sp & rest & -> & _ & Hpay & _).
      destruct Hr as (_ & ps' & -> & (sp' & rest' & [= <- <-] & _ & Hpay' & _)).
      f_equal. apply (settings_exact sp) in Hpay as (s1 & E1 & F1), Hpay' as (s2 & E2 & F2); try congruence;
        (inversion Hw as [|? ? w ? (tw & lw & _ & _ & ->) _]; subst; apply Forall_app in Ho as [Ho _];
         apply Forall_app in Ho as [_ Ho]; by apply Forall_app in Ho as [_ Ho]).
  - intros a b ->. apply control_app; [|done]. apply c_boundary_inv. by split_and!.
Qed.

(** SETTINGS with a field section limit of 1024 and datagrams, then GOAWAY. *)
Lemma control_stream_exact_witness :
  ∃ c, control_consume control_default [4; 5; 0x06; 0x44; 0; 0x33; 1; 7; 1; 0] = Ok c ∧
    c_phase c = CType ∧ bytes (c_varint c) = [] ∧
    completed_settings c =
      Some (settings_default <| max_field_section_size := Some 1024 |> <| h3_datagram := Some 1 |>).
Proof.
  assert (Ho : octets [4; 5; 0x06; 0x44; 0; 0x33; 1; 7; 1; 0]) by (repeat constructor; done).
  apply (proj1 (control_stream_exact _ Ho)).
  exists [(4, [0x06; 0x44; 0; 0x33; 1]); (7, [0])]. split.
  - change ([4; 5; 0x06; 0x44; 0; 0x33; 1; 7; 1; 0]) with ([4; 5; 0x06; 0x44; 0; 0x33; 1] ++ [7; 1; 0] ++ []).
    repeat apply wire_cons; try apply wire_nil; [by exists [4], [5]|by exists [7], [1]].
  - exists [0x06; 0x44; 0; 0x33; 1], [(7, [0])]. split_and!; [done..| |].
    + exists [(6, 1024); (0x33, 1)]. split_and!.
      * change ([0x06; 0x44; 0; 0x33; 1]) with ([0x06; 0x44; 0] ++ [0x33; 1] ++ []).
        repeat apply pairs_cons; try apply pairs_nil; [by exists [6], [0x44; 0]|by exists [0x33], [1]].
      * repeat constructor; set_solver.
      * repeat constructor; cbn; lia.
      * by vm_compute.
    + repeat constructor. unfold allowed. cbn. set_solver.
Defined.

(** ** Critical streams *)

Inductive uni_event :=
| Accept (id : Z)
| Service (id : Z) (chunks : list (list Z)) (end_ : ReadEnd).

Definition uni_step (st : H3Uni) (e : uni_event) : H3Uni * result H3ConnectionError unit :=
  match e with
  | Accept id => (accept_uni st id, Ok tt)
  | Service id chunks end_ => service_stream st id chunks end_
  end.

(** The connection as long as no event is an error, which closes it. *)
Fixpoint uni_run (st : H3Uni) (es : list uni_event) : option H3Uni :=
  match es with
  | [] => Some st
  | e :: es => match uni_step st e with (st, Ok _) => uni_run st es | (_, Err _) => None end
  end.

Definition uni_empty : H3Uni :=
  {| peer_control := None; peer_qpack_encoder := None; peer_qpack_decoder := None; peer_uni := ∅;
     peer_max_field_section_size := None; peer_settings := None |}.

(** The slot of a kind names the only stream of that kind. *)
Definition slot (st : H3Uni) (k : PeerUniKind) : option Z :=
  match k with
  | UControl => peer_control st
  | UQpackEncoder => peer_qpack_encoder st
  | UQpackDecoder => peer_qpack_decoder st
  | UPending | UUnknown => None
  end.

Definition critical (k : PeerUniKind) : bool :=
  match k with UControl | UQpackEncoder | UQpackDecoder => true | _ => false end.

Definition slots_ok (st : H3Uni) (m : gmap Z PeerUniStream) : Prop :=
  (∀ k id, critical k = true → slot st k = Some id ↔ ∃ s, m !! id = Some s ∧ kind s = k) ∧
  peer_max_field_section_size st = peer_settings st ≫= max_field_section_size ∧
  (is_Some (peer_settings st) → is_Some (peer_control st)).

Lemma register_slots st id ty st' k s m :
  slots_ok st (<[id := s]> m) → kind s = UPending →
  register_peer_uni_type st id ty = (st', Ok k) →
  k ≠ UPending ∧ peer_uni st' = peer_uni st ∧
  ∀ s', kind s' = k → slots_ok st' (<[id := s']> m).
Proof.
  intros (Hs & Hm & Hc) Hk Hr.
  assert (Hno : ∀ k', critical k' = true → slot st k' ≠ Some id).
  { intros k' Hk' He. apply Hs in He as (s0 & E0 & H0); [|done]. rewrite lookup_insert_eq in E0.
    injection E0 as <-. rewrite Hk in H0. by subst. }
  assert (Hnew : ∀ k' st'', critical k' = true → slot st k' = None → slot st'' k' = Some id →
    (∀ k2, k2 ≠ k' → slot st'' k2 = slot st k2) → peer_settings st'' = peer_settings st →
    peer_max_field_section_size st'' = peer_max_field_section_size st →
    ∀ s', kind s' = k' → slots_ok st'' (<[id := s']> m)).
  { intros k' st'' Hk' Hnone Hsome Hoth Hps Hmx s' Hs'. split_and!; [|by rewrite Hmx, Hps|].
    - intros k2 i Hk2. destruct (decide (k2 = k')) as [->|Hne].
      + rewrite Hsome. split; [intros [= <-]; exists s'; by rewrite lookup_insert_eq|].
        intros (s0 & E0 & H0). destruct (decide (i = id)) as [->|Hi]; [done|].
        rewrite lookup_insert_ne in E0 by done. enough (slot st k' = Some i) by congruence.
        apply Hs; [done|]. exists s0. by rewrite lookup_insert_ne.
      + rewrite Hoth, (Hs k2 i Hk2) by done. destruct (decide (i = id)) as [->|Hi].
        * rewrite !lookup_insert_eq. split; intros (s0 & [= <-] & H0); [|congruence].
          rewrite Hk in H0. by subst k2.
        * by rewrite !lookup_insert_ne.
    - rewrite Hps. intros [i Hi]%Hc. destruct (decide (k' = UControl)) as [->|Hn].
      + exists id. exact Hsome.
      + exists i. change (slot st'' UControl = Some i). rewrite Hoth by congruence. exact Hi. }
  revert Hr. unfold register_peer_uni_type. repeat case_if; try done.
  all: try (intros [= <- <-]; split_and!; try done; apply Hnew; try done;
            [by apply eq_None_not_Some|intros []; (done || congruence)]).
  intros [= <- <-]. split_and!; try done. intros s' Hs'. split_and!; [|done..].
  intros k2 i Hk2. rewrite (Hs k2 i Hk2). destruct (decide (i = id)) as [->|Hi].
  - rewrite !lookup_insert_eq. split; intros (s0 & [= <-] & H0); by rewrite <-H0 in Hk2; rewrite ?Hk, ?Hs' in Hk2.
  - by rewrite !lookup_insert_ne.
Qed.

Lemma slots_same_kind st id s s' m :
  slots_ok st (<[id := s]> m) → kind s' = kind s → slots_ok st (<[id := s']> m).
Proof.
  intros (Hs & Hr) Hk. split; [|done]. intros k i Hcr. rewrite (Hs k i Hcr).
  destruct (decide (i = id)) as [->|Hi]; [|by rewrite !lookup_insert_ne].
  rewrite !lookup_insert_eq. split; intros (s0 & [= <-] & H0); [exists s'|exists s]; split; congruence.
Qed.

Lemma consume_control_slots st id s input st' s' m :
  slots_ok st (<[id := s]> m) → consume_control st s input = (st', Ok s') →
  peer_uni st' = peer_uni st ∧ slots_ok st' (<[id := s']> m).
Proof.
  intros Hs. unfold consume_control. case_bool_decide as Hk; [|by intros [= <- <-]].
  destruct (control_consume _ _) as [c|]; [|done]. destruct (completed_settings c) as [ps|].
  - intros [= <- <-]. split; [done|].
    apply slots_same_kind with (s' := {| kind := kind s; stream_type := stream_type s;
      control := c <| completed_settings := None |> |}) in Hs; [|done].
    destruct Hs as (Hs & _ & _). split_and!; [done..|]. intros _.
    assert (Hc : slot st UControl = Some id); [|by exists id]. apply Hs; [done|].
    eexists. by rewrite lookup_insert_eq.
  - intros [= <- <-]. split; [done|]. by apply (slots_same_kind _ _ s).
Qed.

Lemma consume_chunks_slots st id s chunks st' s' m :
  slots_ok st (<[id := s]> m) → consume_chunks st id s chunks = (st', Ok s') →
  peer_uni st' = peer_uni st ∧ slots_ok st' (<[id := s']> m).
Proof.
  revert st s. induction chunks as [|c chunks IH]; intros st s Hs; cbn [consume_chunks]; [by intros [= <- <-]|].
  destruct (consume_peer_uni st id s c) as [st1 [s1|e]] eqn:E; [|done].
  assert (H1 : peer_uni st1 = peer_uni st ∧ slots_ok st1 (<[id := s1]> m)).
  { revert E. unfold consume_peer_uni. case_bool_decide as Hk; [|by apply consume_control_slots].
    destruct (varint_consume _ _) as [[v [ty|]] rest].
    - destruct (register_peer_uni_type st id ty) as [st2 [k|e]] eqn:Er; [|done]. intros Ec.
      apply (register_slots st id ty st2 k s m Hs Hk) in Er as (_ & <- & Hs2).
      eapply consume_control_slots; [|exact Ec]. by apply Hs2.
    - intros [= <- <-]. split; [done|]. by apply (slots_same_kind _ _ s). }
  destruct H1 as [<- H1]. intros Hr. exact (IH st1 s1 H1 Hr).
Qed.

Definition uni_inv (st : H3Uni) : Prop := slots_ok st (peer_uni st).

Lemma uni_step_inv st e st' : uni_inv st → uni_step st e = (st', Ok tt) → uni_inv st'.
Proof.
  intros Hi. destruct e as [id|id chunks end_]; cbn [uni_step].
  - intros [= <-]. unfold accept_uni. destruct (peer_uni st !! id) eqn:E; [done|].
    destruct Hi as (Hs & Hr). split; [|done]. intros k i Hcr.
    transitivity (slot st k = Some i); [by destruct k|]. rewrite (Hs k i Hcr). cbn.
    destruct (decide (i = id)) as [->|Hne]; [|by rewrite lookup_insert_ne].
    rewrite E, lookup_insert_eq. split; intros (s0 & E0 & H0); [done|]. injection E0 as <-. by subst.
  - unfold service_stream. destruct (peer_uni st !! id) as [s|] eqn:E; [|by intros [= <-]].
    set (st0 := st <| peer_uni := delete id (peer_uni st) |>).
    assert (H0 : slots_ok st0 (<[id := s]> (delete id (peer_uni st)))) by by rewrite insert_delete_id.
    destruct (consume_chunks st0 id s chunks) as [st1 [s1|e]] eqn:Ec; [|done].
    apply (consume_chunks_slots st0 id s chunks st1 s1 _ H0) in Ec as [Hu H1].
    change (peer_uni st0) with (delete id (peer_uni st)) in Hu. destruct end_.
    { intros [= <-]. unfold uni_inv. cbn. by rewrite Hu. }
    all: intros [= <- Hf]; unfold uni_inv; rewrite Hu; destruct H1 as (Hs & Hr); (split; [|done]);
      intros k i Hcr; rewrite (Hs k i Hcr); (destruct (decide (i = id)) as [->|Hne];
        [|by rewrite lookup_insert_ne]); rewrite lookup_insert_eq, lookup_delete_eq;
      (split; intros (s0 & E0 & Hk0); [|done]); injection E0 as <-; revert Hf; unfold finish_peer_uni;
      rewrite Hk0; destruct k; try done; by case_if.
Qed.

(** C28. However a peer opens, types, fills and ends its unidirectional streams, at most one
    of them is the control stream, one the QPACK encoder and one the QPACK decoder stream,
    the connection knows exactly these, settings come only from the control stream, and the
    end of any of them is a connection error. *)
Theorem critical_streams es st :
  uni_run uni_empty es = Some st →
  (∀ k id, critical k = true →
     slot st k = Some id ↔ ∃ s, peer_uni st !! id = Some s ∧ kind s = k) ∧
  (∀ id1 id2 s1 s2, peer_uni st !! id1 = Some s1 → peer_uni st !! id2 = Some s2 →
     kind s1 = kind s2 → critical (kind s1) = true → id1 = id2) ∧
  (is_Some (peer_settings st) → is_Some (peer_control st)) ∧
  (∀ id s end_, peer_uni st !! id = Some s → critical (kind s) = true → end_ ≠ ROpen →
     ∃ e, (service_stream st id [] end_).2 = Err e ∧
       (code e = H3_CLOSED_CRITICAL_STREAM ∨ code e = H3_MISSING_SETTINGS ∧ kind s = UControl)).
Proof.
  assert (H0 : uni_inv uni_empty).
  { split_and!; [|done|by intros []]. intros k id Hk. split; [by destruct k|]. intros (s & Hs & _). change ((∅ : gmap Z PeerUniStream) !! id = Some s) in Hs. by rewrite lookup_empty in Hs. }
  intros Hr. assert (Hi : uni_inv st).
  { revert H0 Hr. generalize uni_empty as st0. induction es as [|e es IH]; intros st0 H0; cbn [uni_run]; [by intros [= <-]|].
    destruct (uni_step st0 e) as [st1 [[]|]] eqn:E; [|done]. apply IH. by eapply uni_step_inv. }
  destruct Hi as (Hs & Hm & Hc). split_and!; [done| |done|].
  - intros id1 id2 s1 s2 E1 E2 Hk Hcr.
    assert (A1 : slot st (kind s1) = Some id1) by (apply Hs; eauto).
    assert (A2 : slot st (kind s1) = Some id2) by (apply Hs; eauto). congruence.
  - intros id s end_ E Hcr Hend. unfold service_stream. rewrite E. cbn [consume_chunks].
    destruct end_; [done|..]; cbn [snd]; unfold finish_peer_uni; destruct (kind s); try done;
      try case_if; eexists; (split; [done|]); auto.
Qed.

(** A control stream and a decoder stream, both still open. *)
Lemma critical_streams_witness :
  ∃ st, uni_run uni_empty [Accept 2; Accept 6; Service 2 [[0x00; 0x04]; [0x00]] ROpen; Service 6 [[0x03]] ROpen] = Some st ∧
    is_Some (peer_settings st) ∧ is_Some (peer_control st) ∧
    ∃ e, (service_stream st 2 [] RGone).2 = Err e ∧ code e = H3_CLOSED_CRITICAL_STREAM.
Proof.
  eexists. split; [reflexivity|]. split; [by eexists|].
  pose proof (critical_streams [Accept 2; Accept 6; Service 2 [[0x00; 0x04]; [0x00]] ROpen; Service 6 [[0x03]] ROpen]
    _ eq_refl) as (_ & _ & Hp & Hc).
  split; [apply Hp; by eexists|]. destruct (Hc 2 _ RGone eq_refl eq_refl ltac:(done)) as (e & He & _).
  exists e. split; [exact He|]. cbn in He. by injection He as <-.
Defined.

End h3_control_theorems.
