(* ===== verification/H3Send.v ===== *)
(** * HTTP/3 responses on their streams: [crates/httpjet/src/uring/h3.rs]

    The parts a response waits in, the pump that writes them as QUIC flow control allows,
    the completions that queue them, the send-stall clock, the cancellation budget and the
    streams a connection opens itself. The QUIC connection ([quinn_proto]) is a parameter.
    Egress leases, which only release memory budget when dropped, are left out. An instant
    is a number of nanoseconds. *)

From stdpp Require Import base list gmap strings.
From Stdlib Require Import ZArith Lia.
From S2P Require Import Prelude HpackInteger HuffmanDecode Qpack Net RustStr HttpUtil H1Codec H3Frames H3FramesWire.

#[local] Open Scope record_scope.

Module h3_send.

Import h3_frames.

(** ** The QUIC connection *)

Inductive WriteError := Blocked | Stopped | ClosedStream.

(** Writing to, finishing, resetting and opening streams of a connection. [sent] and
    [fin_sent] observe what a stream has accepted, [opened] the local streams in use. *)
Class Quinn (Conn : Type) := {
  quinn_write : Conn → Z → list Z → Conn * result WriteError Z;
  quinn_finish : Conn → Z → Conn * bool;
  quinn_reset : Conn → Z → Z → Conn;
  quinn_open_uni : Conn → Conn * option Z;
  sent : Conn → Z → list Z;
  fin_sent : Conn → Z → bool;
  opened : Conn → gset Z;
}.

(** What [quinn_proto] documents: a write accepts a prefix and touches no other stream,
    only [finish] ends a stream, and a stream that is opened is new. *)
Class QuinnLaws (Conn : Type) `{Quinn Conn} : Prop := {
  write_ok c id d c' n :
    quinn_write c id d = (c', Ok n) →
    0 <= n <= zlen d ∧ sent c' id = sent c id ++ take (Z.to_nat n) d;
  write_err c id d c' e : quinn_write c id d = (c', Err e) → sent c' id = sent c id;
  write_other c id d id' : id' ≠ id → sent (quinn_write c id d).1 id' = sent c id';
  write_fin c id d id' : fin_sent (quinn_write c id d).1 id' = fin_sent c id';
  finish_sent c id id' : sent (quinn_finish c id).1 id' = sent c id';
  finish_fin c id id' :
    fin_sent (quinn_finish c id).1 id' =
    if decide (id' = id) then fin_sent c id || (quinn_finish c id).2 else fin_sent c id';
  reset_sent c id code id' : sent (quinn_reset c id code) id' = sent c id';
  reset_fin c id code id' : fin_sent (quinn_reset c id code) id' = fin_sent c id';
  open_sent c id' : sent (quinn_open_uni c).1 id' = sent c id';
  write_opened c id d : opened (quinn_write c id d).1 = opened c;
  open_none c : (quinn_open_uni c).2 = None → opened (quinn_open_uni c).1 = opened c;
  open_new c id :
    (quinn_open_uni c).2 = Some id →
    id ∉ opened c ∧ sent c id = [] ∧ opened (quinn_open_uni c).1 = {[id]} ∪ opened c;
}.

(** ** Parts *)

Inductive PendingPart :=
| Contiguous (data : list Z) (off : Z) (ack : option Z)
| DataFrame (header : list Z) (header_len header_off : Z) (data : list Z) (data_off : Z) (ack : option Z).

Definition contiguous (data : list Z) : PendingPart := Contiguous data 0 None.

Definition data_frame_part (data : list Z) (ack : option Z) : PendingPart :=
  let '(header, header_len) := write_varint_fixed (replicate 16 0) 0 0x00 in
  let '(header, header_len) := write_varint_fixed header header_len (zlen data) in
  DataFrame header header_len 0 data 0 ack.

Definition part_ack (p : PendingPart) : option Z :=
  match p with Contiguous _ _ ack | DataFrame _ _ _ _ _ ack => ack end.

Record SendStall := { since : Z; progressed : Z }.

Definition SEND_STALL_MIN_PROGRESS : Z := 16 * 1024.

Definition advance_send_stall (stall : option SendStall) (sent : Z) (waiting : bool) (now : Z) :
    option SendStall :=
  if negb waiting then None
  else
    match stall with
    | Some s =>
        if saturating_add (progressed s) sent <? SEND_STALL_MIN_PROGRESS
        then Some {| since := since s; progressed := progressed s + sent |}
        else Some {| since := now; progressed := 0 |}
    | None => Some {| since := now; progressed := 0 |}
    end.

(** A response completion is a handle; [ResponseEnd] is how it ended. *)
Inductive ResponseEnd := Complete | Cancelled | EndError.

Record PendingSend := {
  completion : option Z;
  parts : list PendingPart;
  fin : bool;
  stall : option SendStall;
}.

#[global] Instance eta_PendingSend : Eta PendingSend := fun r =>
  {| completion := completion r; parts := parts r; fin := fin r; stall := stall r |}.
#[global] Instance set_completion : Setter completion := ltac:(derive_setter).
#[global] Instance set_parts : Setter parts := ltac:(derive_setter).
#[global] Instance set_fin : Setter fin := ltac:(derive_setter).
#[global] Instance set_stall : Setter stall := ltac:(derive_setter).

(** ** Cancellations *)

Definition H3_CANCEL_BURST : Z := 200.
Definition H3_CANCEL_REFILL : Z := 100000000.

(** [CancelBudget::charge]: the new [debt_until] and whether the burst is exhausted. *)
Definition charge (debt_until : option Z) (now : Z) : option Z * bool :=
  let base := match debt_until with Some t => if now <? t then t else now | None => now end in
  let debt := base + H3_CANCEL_REFILL in
  (Some debt, H3_CANCEL_REFILL * H3_CANCEL_BURST <? debt - now).

(** ** The state of a connection's responses *)

(** Of [H3State]: the responses that wait, the cancellation tokens of the dispatched
    requests, the local streams and the connection's epoch. The fields [cancelled], [acked]
    and [ended] record the tokens cancelled, the acknowledgements sent and the completions
    finished. *)
Record H3SendState := {
  epoch : Z;
  rejected : bool;
  pending : gmap Z PendingSend;
  request_cancellations : gmap Z Z;
  cancel_budget : option Z;
  send_stall_timeout : option Z;
  control_stream : option Z;
  control_stream_off : Z;
  qpack_encoder_stream : option Z;
  qpack_encoder_stream_off : Z;
  qpack_decoder_stream : option Z;
  qpack_decoder_stream_off : Z;
  control_setup : bool;
  cancelled : list Z;
  acked : list Z;
  ended : list (Z * ResponseEnd);
}.

#[global] Instance eta_H3SendState : Eta H3SendState := fun r =>
  {| epoch := epoch r; rejected := rejected r; pending := pending r;
     request_cancellations := request_cancellations r; cancel_budget := cancel_budget r;
     send_stall_timeout := send_stall_timeout r; control_stream := control_stream r;
     control_stream_off := control_stream_off r; qpack_encoder_stream := qpack_encoder_stream r;
     qpack_encoder_stream_off := qpack_encoder_stream_off r;
     qpack_decoder_stream := qpack_decoder_stream r;
     qpack_decoder_stream_off := qpack_decoder_stream_off r; control_setup := control_setup r;
     cancelled := cancelled r; acked := acked r; ended := ended r |}.
#[global] Instance set_rejected : Setter rejected := ltac:(derive_setter).
#[global] Instance set_pending : Setter pending := ltac:(derive_setter).
#[global] Instance set_cancellations : Setter request_cancellations := ltac:(derive_setter).
#[global] Instance set_cancel_budget : Setter cancel_budget := ltac:(derive_setter).
#[global] Instance set_control_stream : Setter control_stream := ltac:(derive_setter).
#[global] Instance set_control_off : Setter control_stream_off := ltac:(derive_setter).
#[global] Instance set_encoder_stream : Setter qpack_encoder_stream := ltac:(derive_setter).
#[global] Instance set_encoder_off : Setter qpack_encoder_stream_off := ltac:(derive_setter).
#[global] Instance set_decoder_stream : Setter qpack_decoder_stream := ltac:(derive_setter).
#[global] Instance set_decoder_off : Setter qpack_decoder_stream_off := ltac:(derive_setter).
#[global] Instance set_control_setup : Setter control_setup := ltac:(derive_setter).
#[global] Instance set_cancelled : Setter cancelled := ltac:(derive_setter).
#[global] Instance set_acked : Setter acked := ltac:(derive_setter).
#[global] Instance set_ended : Setter ended := ltac:(derive_setter).

Definition cancel_dispatched_request (st : H3SendState) (id : Z) : H3SendState :=
  let st :=
    match request_cancellations st !! id with
    | Some token =>
        st <| request_cancellations := delete id (request_cancellations st) |>
           <| cancelled := cancelled st ++ [token] |>
    | None => st
    end in
  st <| pending := delete id (pending st) |>.

Definition cancel_all_dispatched_requests (st : H3SendState) : H3SendState :=
  st <| cancelled := cancelled st ++ (map_to_list (request_cancellations st)).*2 |>
     <| request_cancellations := ∅ |> <| pending := ∅ |>.

(** [charge_request_cancel]: [true] when the connection is to be closed with
    H3_EXCESSIVE_LOAD. *)
Definition charge_request_cancel (st : H3SendState) (now : Z) : H3SendState * bool :=
  let '(debt, exhausted) := charge (cancel_budget st) now in
  let st := st <| cancel_budget := debt |> in
  if negb exhausted then (st, false)
  else (cancel_all_dispatched_requests st <| rejected := true |>, true).

Section quinn.

Context {Conn : Type} `{Quinn Conn}.

(** The loop [while *off < data.len()] of a part: the offset reached, and [Ok true] when the
    octets are all accepted, [Ok false] when a write makes no progress. A write that goes on
    accepts an octet, so a round per octet is enough. *)
Fixpoint write_slice (fuel : nat) (c : Conn) (id : Z) (data : list Z) (off sent : Z) :
    Conn * Z * Z * result WriteError bool :=
  match fuel with
  | O => (c, off, sent, Ok (zlen data <=? off))
  | S fuel' =>
      if off <? zlen data then
        match quinn_write c id (drop (Z.to_nat off) data) with
        | (c, Err e) => (c, off, sent, Err e)
        | (c, Ok n) =>
            if n =? 0 then (c, off + n, sent + n, Ok false)
            else write_slice fuel' c id data (off + n) (sent + n)
        end
      else (c, off, sent, Ok true)
  end.

(** [PendingPart::write]. *)
Definition part_write (c : Conn) (id : Z) (p : PendingPart) (sent : Z) :
    Conn * PendingPart * Z * result WriteError bool :=
  match p with
  | Contiguous data off ack =>
      let '(c, off, sent, r) := write_slice (S (length data)) c id data off sent in
      (c, Contiguous data off ack, sent, r)
  | DataFrame header header_len header_off data data_off ack =>
      let head := take (Z.to_nat header_len) header in
      match write_slice (S (length head)) c id head header_off sent with
      | (c, header_off, sent, Ok true) =>
          let '(c, data_off, sent, r) := write_slice (S (length data)) c id data data_off sent in
          (c, DataFrame header header_len header_off data data_off ack, sent, r)
      | (c, header_off, sent, r) => (c, DataFrame header header_len header_off data data_off ack, sent, r)
      end
  end.

(** How the loop of [pump_stream] ended: [break done], or cancelled. *)
Inductive pump_end := PDone (done : bool) | PCancelled.

(** The loop over the parts of an entry. Every round that goes on drops a part. *)
Fixpoint pump_parts (ps : list PendingPart) (c : Conn) (id sent : Z) (acks : list Z) :
    Conn * list PendingPart * Z * list Z * option pump_end :=
  match ps with
  | [] => (c, [], sent, acks, None)
  | p :: ps =>
      match part_write c id p sent with
      | (c, p, sent, Ok true) =>
          pump_parts ps c id sent (acks ++ match part_ack p with Some a => [a] | None => [] end)
      | (c, p, sent, Ok false) | (c, p, sent, Err Blocked) => (c, p :: ps, sent, acks, Some (PDone false))
      | (c, p, sent, Err Stopped) => (c, p :: ps, sent, acks, Some (PDone true))
      | (c, p, sent, Err ClosedStream) => (c, p :: ps, sent, acks, Some PCancelled)
      end
  end.

(** [PendingSend::finish_if_drained] on an entry whose parts are all written. *)
Definition finish_if_drained (c : Conn) (id : Z) (e : PendingSend) : Conn * bool * list (Z * ResponseEnd) :=
  if negb (fin e) || negb (bool_decide (length (parts e) = 0%nat)) then (c, false, [])
  else
    let '(c, accepted) := quinn_finish c id in
    (c, true, match completion e with
              | Some h => [(h, if accepted then Complete else Cancelled)]
              | None => []
              end).

Definition pump_stream (c : Conn) (st : H3SendState) (id now : Z) : Conn * H3SendState :=
  match pending st !! id with
  | None => (c, st)
  | Some entry =>
      let '(c, ps, n, acks, out) := pump_parts (parts entry) c id 0 [] in
      let entry := entry <| parts := ps |> in
      let st := st <| acked := acked st ++ acks |> in
      let '(c, end_, ends) :=
        match out with
        | Some e => (c, e, [])
        | None => let '(c, d, ends) := finish_if_drained c id entry in (c, PDone d, ends)
        end in
      let st := st <| ended := ended st ++ ends |> in
      match end_ with
      | PCancelled => (c, cancel_dispatched_request st id)
      | PDone true => (c, st <| pending := delete id (pending st) |>)
      | PDone false =>
          let entry :=
            entry <| stall := advance_send_stall (stall entry) n
                                (negb (bool_decide (length ps = 0%nat))) now |> in
          (c, st <| pending := <[id := entry]> (pending st) |>)
      end
  end.

(** ** Completions of dispatched requests *)

Inductive CompletionKind :=
| Full (data : list Z) (completion : option Z)
| Head (data : list Z) (completion : option Z)
| Chunk (data : list Z) (fin : bool) (ack : option Z)
| Abort (code : Z).

Record Completion := { c_conn : Z; c_stream : Z; c_epoch : Z; c_kind : CompletionKind }.

Definition completion_is_live (h3 : gmap Z H3SendState) (conn epoch' : Z) : bool :=
  match h3 !! conn with
  | Some st => (epoch st =? epoch') && negb (rejected st)
  | None => false
  end.

(** The [match kind] of [write_completion] on the connection's state. *)
Definition complete_kind (c : Conn) (st : H3SendState) (stream : Z) (k : CompletionKind) (now : Z) :
    Conn * H3SendState :=
  match k with
  | Full resp completion =>
      let st := st <| request_cancellations := delete stream (request_cancellations st) |> in
      pump_stream c
        (st <| pending := <[stream := {| completion := completion; parts := [contiguous resp];
                                          fin := true; stall := None |}]> (pending st) |>) stream now
  | Head head completion =>
      pump_stream c
        (st <| pending := <[stream := {| completion := completion; parts := [contiguous head];
                                          fin := false; stall := None |}]> (pending st) |>) stream now
  | Chunk data last ack =>
      match pending st !! stream with
      | None => (c, st)
      | Some entry =>
          let entry :=
            if bytes_eqb data [] then entry
            else entry <| parts := parts entry ++ [data_frame_part data ack] |> in
          let entry := if last then entry <| fin := true |> else entry in
          let st := st <| pending := <[stream := entry]> (pending st) |> in
          let st :=
            if last then st <| request_cancellations := delete stream (request_cancellations st) |>
            else st in
          pump_stream c st stream now
      end
  | Abort code =>
      let st := st <| request_cancellations := delete stream (request_cancellations st) |> in
      let st :=
        match pending st !! stream with
        | Some entry =>
            st <| pending := delete stream (pending st) |>
               <| ended := ended st ++ match completion entry with Some h => [(h, EndError)] | None => [] end |>
        | None => st
        end in
      (quinn_reset c stream code, st)
  end.

Definition write_completion (conns : gmap Z Conn) (h3 : gmap Z H3SendState) (m : Completion) (now : Z) :
    gmap Z Conn * gmap Z H3SendState :=
  if negb (completion_is_live h3 (c_conn m) (c_epoch m)) then (conns, h3)
  else
    match conns !! c_conn m, h3 !! c_conn m with
    | Some c, Some st =>
        match request_cancellations st !! c_stream m with
        | None => (conns, h3)
        | Some _ =>
            let '(c, st) := complete_kind c st (c_stream m) (c_kind m) now in
            (<[c_conn m := c]> conns, <[c_conn m := st]> h3)
        end
    | _, _ => (conns, h3)
    end.

(** [queue_final_response]. *)
Definition queue_final_response (c : Conn) (st : H3SendState) (id : Z) (response : list Z) (now : Z) :
    Conn * H3SendState :=
  pump_stream c
    (st <| pending := <[id := {| completion := None; parts := [contiguous response]; fin := true;
                                  stall := None |}]> (pending st) |>) id now.

(** [reclaim_stalled_sends]: the streams reset. *)
Definition is_stalled (timeout now : Z) (e : PendingSend) : bool :=
  match stall e with Some s => since s + timeout <=? now | None => false end.

Definition reclaim_stalled_sends (st : H3SendState) (now : Z) : H3SendState * list Z :=
  match send_stall_timeout st with
  | None => (st, [])
  | Some timeout =>
      let expired :=
        (List.filter (fun e => is_stalled timeout now e.2) (map_to_list (pending st))).*1 in
      (fold_left cancel_dispatched_request expired st, expired)
  end.

(** ** The streams the connection opens *)

Definition LOCAL_CONTROL_PREFIX : list Z := [0x00; 0x04; 0x00].
Definition LOCAL_QPACK_ENCODER_PREFIX : list Z := [0x02].
Definition LOCAL_QPACK_DECODER_PREFIX : list Z := [0x03].

(** [pump_local_uni_prefix]: the stream, the offset and whether the prefix is complete. *)
Definition pump_local_uni_prefix (c : Conn) (stream : option Z) (offset : Z) (prefix : list Z) :
    Conn * option Z * Z * result WriteError bool :=
  if offset =? zlen prefix then (c, stream, offset, Ok true)
  else
    let '(c, stream) := match stream with Some id => (c, Some id) | None => quinn_open_uni c end in
    match stream with
    | None => (c, None, offset, Ok false)
    | Some id =>
        match quinn_write c id (drop (Z.to_nat offset) prefix) with
        | (c, Err Blocked) => (c, Some id, offset, Ok false)
        | (c, Err e) => (c, Some id, offset, Err e)
        | (c, Ok written) =>
            if written =? 0 then (c, Some id, offset, Ok false)
            else (c, Some id, offset + written, Ok (offset + written =? zlen prefix))
        end
    end.

Definition pump_local_h3_setup (c : Conn) (st : H3SendState) : Conn * H3SendState * result WriteError unit :=
  if control_setup st then (c, st, Ok tt)
  else
    let '(c, s1, o1, r1) :=
      pump_local_uni_prefix c (control_stream st) (control_stream_off st) LOCAL_CONTROL_PREFIX in
    let st := st <| control_stream := s1 |> <| control_stream_off := o1 |> in
    match r1 with
    | Err e => (c, st, Err e)
    | Ok false => (c, st, Ok tt)
    | Ok true =>
        let '(c, s2, o2, r2) :=
          pump_local_uni_prefix c (qpack_encoder_stream st) (qpack_encoder_stream_off st)
            LOCAL_QPACK_ENCODER_PREFIX in
        let st := st <| qpack_encoder_stream := s2 |> <| qpack_encoder_stream_off := o2 |> in
        match r2 with
        | Err e => (c, st, Err e)
        | Ok false => (c, st, Ok tt)
        | Ok true =>
            let '(c, s3, o3, r3) :=
              pump_local_uni_prefix c (qpack_decoder_stream st) (qpack_decoder_stream_off st)
                LOCAL_QPACK_DECODER_PREFIX in
            let st := st <| qpack_decoder_stream := s3 |> <| qpack_decoder_stream_off := o3 |> in
            match r3 with
            | Err e => (c, st, Err e)
            | Ok false => (c, st, Ok tt)
            | Ok true => (c, st <| control_setup := true |>, Ok tt)
            end
        end
    end.

End quinn.

End h3_send.
