(* ===== verification/H3SendTheorems.v ===== *)
(** * HTTP/3 responses: what reaches the stream

    Whatever flow control does, a stream carries a prefix of the response queued on it, in
    order, and its end only once all of it is there ([h3_response_sent]); the cancellation budget admits a burst and its
    refill ([cancel_budget_bounded]). *)

From stdpp Require Import base list gmap strings.
From Stdlib Require Import ZArith Lia Sorted.
From S2P Require Import Prelude HpackInteger HuffmanDecode Qpack Net RustStr HttpUtil H1Codec H3Frames H3FramesWire H3Send.

#[local] Open Scope record_scope.

Module h3_send_theorems.

Import h3_frames h3_wire h3_send.

(** ** Parts *)

(** The octets of a part still to be written. *)
Definition part_bytes (p : PendingPart) : list Z :=
  match p with
  | Contiguous data off _ => drop (Z.to_nat off) data
  | DataFrame header header_len header_off data data_off _ =>
      drop (Z.to_nat header_off) (take (Z.to_nat header_len) header) ++ drop (Z.to_nat data_off) data
  end.

Definition parts_bytes (ps : list PendingPart) : list Z := concat (part_bytes <$> ps).

Definition part_ok (p : PendingPart) : Prop :=
  match p with
  | Contiguous data off _ => 0 <= off <= zlen data
  | DataFrame header header_len header_off data data_off _ =>
      0 <= header_off <= zlen (take (Z.to_nat header_len) header) ∧ 0 <= data_off <= zlen data
  end.

(** A frame's header is what [encode_h3_data_frame] writes before the payload. *)
Lemma copy_at_take out pos bytes :
  0 <= pos → (Z.to_nat pos + length bytes ≤ length out)%nat →
  take (Z.to_nat pos + length bytes) (copy_at out pos bytes) = take (Z.to_nat pos) out ++ bytes ∧
  length (copy_at out pos bytes) = length out.
Proof.
  intros Hp Hl. unfold copy_at. split.
  - rewrite app_assoc, take_app_length'; [done|]. rewrite length_app, length_take. lia.
  - rewrite !length_app, length_take, length_drop. lia.
Qed.

Lemma write_varint_length v : (1 ≤ length (write_varint v) ≤ 8)%nat.
Proof. unfold write_varint. repeat case_if; rewrite ?length_to_be_bytes; simpl; lia. Qed.

Lemma data_frame_part_bytes data ack :
  part_bytes (data_frame_part data ack) = encode_h3_data_frame data ∧ part_ok (data_frame_part data ack).
Proof.
  unfold data_frame_part, encode_h3_data_frame. rewrite !write_varint_fixed_same.
  change (zlen (write_varint 0)) with 1. change (0 + 1) with 1.
  pose proof (write_varint_length (zlen data)) as Hl. set (w := write_varint (zlen data)) in *.
  set (out := copy_at (replicate 16 0) 0 (write_varint 0)).
  assert (Ho : take 1 out = [0] ∧ length out = 16%nat) by done. destruct Ho as [Ho1 Ho2].
  destruct (copy_at_take out 1 w) as [Ht Hlen]; [lia|rewrite Ho2; change (Z.to_nat 1) with 1%nat; lia|].
  cbn [part_bytes part_ok]. change (Z.to_nat 1) with 1%nat in *.
  assert (Hn : Z.to_nat (1 + zlen w) = (1 + length w)%nat) by (unfold zlen; lia).
  rewrite Hn, Ht, Ho1, !drop_0. split; [by rewrite <-app_assoc|].
  pose proof (zlen_nonneg data). pose proof (zlen_nonneg ([0] ++ w)). lia.
Qed.

Section quinn.

Context {Conn : Type} `{QuinnLaws Conn}.

(** Everything but the stream [id] is as before, and no stream has ended. *)
Definition only_stream (id : Z) (c c' : Conn) : Prop :=
  (∀ id', id' ≠ id → sent c' id' = sent c id') ∧ (∀ id', fin_sent c' id' = fin_sent c id').

Lemma only_stream_trans id c1 c2 c3 : only_stream id c1 c2 → only_stream id c2 c3 → only_stream id c1 c3.
Proof. intros [A1 A2] [B1 B2]. split; [intros; rewrite B1, A1 by done; done|intros; by rewrite B2, A2]. Qed.

Lemma quinn_write_spec c id d c' r :
  quinn_write c id d = (c', r) → only_stream id c c' ∧
  match r with
  | Ok n => 0 <= n <= zlen d ∧ sent c' id ++ drop (Z.to_nat n) d = sent c id ++ d
  | Err _ => sent c' id = sent c id
  end.
Proof.
  intros E. split.
  - split; intros id'; [intros Hne; pose proof (write_other c id d id' Hne) as Hw
                       |pose proof (write_fin c id d id') as Hw]; by rewrite E in Hw.
  - destruct r as [n|e]; [|by eapply write_err]. apply write_ok in E as [Hn ->]. split; [done|].
    by rewrite <-app_assoc, take_drop.
Qed.

Lemma write_slice_spec fuel c id data off n c' off' n' r :
  0 <= off <= zlen data → (Z.to_nat (zlen data - off) < fuel)%nat →
  write_slice fuel c id data off n = (c', off', n', r) →
  only_stream id c c' ∧ off <= off' <= zlen data ∧
  sent c' id ++ drop (Z.to_nat off') data = sent c id ++ drop (Z.to_nat off) data ∧
  (r = Ok true → off' = zlen data).
Proof.
  revert c off n. induction fuel as [|fuel IH]; intros c off n Hoff Hf; [lia|]. cbn [write_slice]. case_if.
  - destruct (quinn_write c id _) as [c1 [k|e]] eqn:E; apply quinn_write_spec in E as [Ho Hs].
    + destruct Hs as [Hk Hs]. rewrite zlen_drop in Hk.
      rewrite drop_drop in Hs. replace (Z.to_nat off + Z.to_nat k)%nat with (Z.to_nat (off + k)) in Hs by lia.
      case_if.
      * intros [= <- <- <- <-]. split_and!; try done; lia.
      * intros Hw. apply IH in Hw as (Ho' & Hr & Hs' & Ht); [|lia|lia].
        split_and!; try lia; try done; [by eapply only_stream_trans|congruence].
    + intros [= <- <- <- <-]. split_and!; try done; try lia. by rewrite Hs.
  - intros [= <- <- <- <-]. split_and!; try done; try lia.
Qed.

Lemma part_write_spec c id p n c' p' n' r :
  part_ok p → part_write c id p n = (c', p', n', r) →
  only_stream id c c' ∧ part_ok p' ∧ sent c' id ++ part_bytes p' = sent c id ++ part_bytes p ∧
  (r = Ok true → part_bytes p' = []).
Proof.
  destruct p as [data off ack|header hl ho data doff ack]; cbn [part_write part_ok part_bytes].
  - intros Hok. destruct (write_slice _ _ _ _ _ _) as [[[c1 off1] n1] r1] eqn:E.
    apply write_slice_spec in E as (Ho & Hr & Hs & Ht); [|done|unfold zlen in *; lia].
    intros [= <- <- <- <-]. split_and!; try done; try (cbn; lia). intros Hr1. cbn. rewrite (Ht Hr1).
    apply drop_ge. unfold zlen. lia.
  - intros [Hho Hdo]. set (hd := take (Z.to_nat hl) header) in *.
    destruct (write_slice _ c id hd ho n) as [[[c1 ho1] n1] r1] eqn:E1.
    apply write_slice_spec in E1 as (Ho1 & Hr1 & Hs1 & Ht1); [|done|unfold zlen in *; lia].
    assert (Hcase : r1 = Ok true ∨ r1 ≠ Ok true) by (destruct r1 as [[]|]; [by left|by right..]).
    destruct Hcase as [->|Hne].
    + destruct (write_slice _ c1 id data doff n1) as [[[c2 do2] n2] r2] eqn:E2.
      apply write_slice_spec in E2 as (Ho2 & Hr2 & Hs2 & Ht2); [|done|unfold zlen in *; lia].
      intros [= <- <- <- <-]. cbn [part_ok part_bytes]. fold hd. rewrite (Ht1 eq_refl) in *.
      rewrite (drop_ge hd (Z.to_nat (zlen hd))) in * by (unfold zlen; lia).
      rewrite app_nil_r in Hs1. rewrite app_nil_l. split_and!; try lia.
      * by eapply only_stream_trans.
      * rewrite Hs2, Hs1, <-app_assoc. done.
      * intros Hr. rewrite (Ht2 Hr). apply drop_ge. unfold zlen. lia.
    + assert (Hres : ∀ x, (match r1 with Ok true => x | _ =>
        (c1, DataFrame header hl ho1 data doff ack, n1, r1) end) = (c', p', n', r) →
        c' = c1 ∧ p' = DataFrame header hl ho1 data doff ack ∧ r = r1).
      { intros x. destruct r1 as [[]|]; [done|..]; by intros [= <- <- <- <-]. }
      intros Hx. apply Hres in Hx as (-> & -> & ->). cbn [part_ok part_bytes]. fold hd.
      split_and!; try done; try lia. rewrite app_assoc, Hs1, <-app_assoc. done.
Qed.

Lemma pump_parts_spec ps c id n acks c' ps' n' acks' out :
  Forall part_ok ps → pump_parts ps c id n acks = (c', ps', n', acks', out) →
  only_stream id c c' ∧ Forall part_ok ps' ∧
  sent c' id ++ parts_bytes ps' = sent c id ++ parts_bytes ps ∧ (out = None → ps' = []).
Proof.
  intros Hok. revert c n acks. induction Hok as [|p ps Hp Hok IH]; intros c n acks; cbn [pump_parts].
  { intros [= <- <- <- <- <-]. by split_and!. }
  destruct (part_write c id p n) as [[[c1 p1] n1] r1] eqn:E.
  apply part_write_spec in E as (Ho1 & Hp1 & Hs1 & Hd1); [|done].
  assert (Heq : sent c1 id ++ parts_bytes (p1 :: ps) = sent c id ++ parts_bytes (p :: ps)).
  { unfold parts_bytes in *. rewrite !fmap_cons. cbn [concat]. rewrite !app_assoc, Hs1. done. }
  assert (Hok1 : Forall part_ok (p1 :: ps)) by by constructor.
  destruct r1 as [[]|[]]; [|intros [= <- <- <- <- <-]; by split_and!..].
  intros Hr. apply IH in Hr as (Ho2 & Hp2 & Hs2 & Hd2). split_and!; try done.
  - by eapply only_stream_trans.
  - rewrite Hs2, <-Heq. unfold parts_bytes. rewrite fmap_cons. cbn [concat]. by rewrite (Hd1 eq_refl).
Qed.

(** ** Pumping *)

(** What a pump does to its stream and to the entry. *)
Inductive pumped (id : Z) (c : Conn) (st : H3SendState) (e : PendingSend) (c' : Conn) (st' : H3SendState) : Prop :=
| pumped_waits e' :
    pending st' = <[id := e']> (pending st) → request_cancellations st' = request_cancellations st →
    Forall part_ok (parts e') → fin e' = fin e →
    sent c' id ++ parts_bytes (parts e') = sent c id ++ parts_bytes (parts e) →
    fin_sent c' id = fin_sent c id → pumped id c st e c' st'
| pumped_gone rest :
    pending st' = delete id (pending st) →
    (∀ i, i ≠ id → request_cancellations st' !! i = request_cancellations st !! i) →
    sent c' id ++ rest = sent c id ++ parts_bytes (parts e) →
    (fin_sent c' id = true → fin_sent c id = true ∨ rest = [] ∧ fin e = true) →
    pumped id c st e c' st'.

Definition others_kept (id : Z) (c c' : Conn) : Prop :=
  ∀ i, i ≠ id → sent c' i = sent c i ∧ fin_sent c' i = fin_sent c i.

Lemma only_others id c c' : only_stream id c c' → others_kept id c c'.
Proof. intros [Hs Hf] i Hi. split; auto. Qed.

Lemma cancel_request_maps st id :
  pending (cancel_dispatched_request st id) = delete id (pending st) ∧
  request_cancellations (cancel_dispatched_request st id) = delete id (request_cancellations st).
Proof.
  unfold cancel_dispatched_request. destruct (request_cancellations st !! id) eqn:E; [done|].
  split; [done|]. cbn. by rewrite delete_id.
Qed.

Lemma finish_spec c id c' b :
  quinn_finish c id = (c', b) →
  (∀ i, sent c' i = sent c i) ∧ (∀ i, i ≠ id → fin_sent c' i = fin_sent c i) ∧
  (fin_sent c' id = true → fin_sent c id = true ∨ b = true).
Proof.
  intros E. split_and!.
  - intros i. pose proof (finish_sent c id i) as Hs. by rewrite E in Hs.
  - intros i Hi. pose proof (finish_fin c id i) as Hs. rewrite E in Hs. by rewrite decide_False in Hs.
  - pose proof (finish_fin c id id) as Hs. rewrite E, decide_True in Hs by done. cbn in Hs. rewrite Hs.
    intros [?|?]%orb_true_iff; auto.
Qed.

Lemma pump_stream_spec c st id now e c' st' :
  pending st !! id = Some e → Forall part_ok (parts e) →
  pump_stream c st id now = (c', st') → pumped id c st e c' st' ∧ others_kept id c c'.
Proof.
  intros He Hok. unfold pump_stream. rewrite He.
  destruct (pump_parts (parts e) c id 0 []) as [[[[c1 ps] n] acks] out] eqn:E.
  apply pump_parts_spec in E as (Ho & Hok1 & Hs & Hd); [|done]. pose proof (only_others _ _ _ Ho) as Hoth.
  destruct Ho as [_ Hfin]. specialize (Hfin id).
  destruct out as [[[]|]|]; cbv zeta.
  - intros [= <- <-]. split; [|done]. eapply pumped_gone; [done..|exact Hs|]. rewrite Hfin. auto.
  - intros [= <- <-]. split; [|done]. by eapply pumped_waits.
  - intros [= <- <-]. split; [|done]. destruct (cancel_request_maps
      (st <| acked := acked st ++ acks |> <| ended := ended st ++ [] |>) id) as [Hp Hr].
    eapply pumped_gone; [exact Hp| |exact Hs|rewrite Hfin; auto]. intros i Hi. by rewrite Hr, lookup_delete_ne.
  - rewrite (Hd eq_refl) in *. unfold finish_if_drained. cbn [fin parts set_parts set length].
    destruct (fin e) eqn:Ef; cbn [negb orb].
    + change (negb (bool_decide (0%nat = 0%nat))) with false. cbv iota.
      destruct (quinn_finish c1 id) as [c2 b] eqn:Eq. apply finish_spec in Eq as (Hs2 & Hf2 & Hfi).
      intros [= <- <-]. split.
      * eapply pumped_gone with (rest := []); [done..| |]; [by rewrite Hs2|].
        intros Hx. right. by rewrite Ef.
      * intros i Hi. rewrite Hs2, Hf2 by done. by apply Hoth.
    + intros [= <- <-]. split; [|done]. by eapply pumped_waits.
Qed.

Lemma pump_stream_none c st id now : pending st !! id = None → pump_stream c st id now = (c, st).
Proof. intros He. unfold pump_stream. by rewrite He. Qed.

End quinn.

(** ** A connection's responses *)

Inductive send_event :=
| SComplete (stream : Z) (k : CompletionKind) (now : Z)
| SWritable (stream : Z) (now : Z)
| SPeerCancel (now : Z)
| SStall (now : Z).

Definition send_step {Conn} `{Quinn Conn} (s : Conn * H3SendState) (e : send_event) : Conn * H3SendState :=
  let '(c, st) := s in
  match e with
  | SComplete stream k now =>
      match request_cancellations st !! stream with
      | Some _ => complete_kind c st stream k now
      | None => (c, st)
      end
  | SWritable stream now => pump_stream c st stream now
  | SPeerCancel now => (c, (charge_request_cancel st now).1)
  | SStall now => (c, (reclaim_stalled_sends st now).1)
  end.

(** The completions of one stream, and the protocol a dispatched request follows: a whole
    response, or a head, chunks and a last chunk, and perhaps an abort in their place. *)
Definition kinds (id : Z) (es : list send_event) : list CompletionKind :=
  omap (fun e => match e with SComplete i k _ => if decide (i = id) then Some k else None | _ => None end) es.

Inductive dispatch := DStart | DOpen | DDone | DAborted.

Definition dispatch_step (d : option dispatch) (k : CompletionKind) : option dispatch :=
  match d, k with
  | Some DStart, Full _ _ => Some DDone
  | Some DStart, Head _ _ => Some DOpen
  | Some DOpen, Chunk _ last _ => Some (if last then DDone else DOpen)
  | Some DStart, Abort _ | Some DOpen, Abort _ => Some DAborted
  | _, _ => None
  end.

Definition dispatched (ks : list CompletionKind) : option dispatch :=
  fold_left dispatch_step ks (Some DStart).

(** The octets a completion puts on the stream. *)
Definition kind_wire (k : CompletionKind) : list Z :=
  match k with
  | Full data _ | Head data _ => data
  | Chunk data _ _ => if bytes_eqb data [] then [] else encode_h3_data_frame data
  | Abort _ => []
  end.

Definition response_wire (ks : list CompletionKind) : list Z := concat (kind_wire <$> ks).

Lemma dispatched_snoc ks k : dispatched (ks ++ [k]) = dispatch_step (dispatched ks) k.
Proof. unfold dispatched. by rewrite fold_left_app. Qed.

Lemma response_wire_snoc ks k : response_wire (ks ++ [k]) = response_wire ks ++ kind_wire k.
Proof. unfold response_wire. rewrite fmap_app, concat_app. cbn. by rewrite app_nil_r. Qed.

Section run.

Context {Conn : Type} `{QuinnLaws Conn}.

(** The stream [id] after the completions [ks]. *)
Definition stream_inv (id : Z) (ks : list CompletionKind) (d : dispatch) (s : Conn * H3SendState) : Prop :=
  match pending s.2 !! id with
  | Some e =>
      Forall part_ok (parts e) ∧ response_wire ks = sent s.1 id ++ parts_bytes (parts e) ∧
      fin_sent s.1 id = false ∧
      (d = DOpen ∧ fin e = false ∧ is_Some (request_cancellations s.2 !! id) ∨ d = DDone ∧ fin e = true)
  | None =>
      (∃ rest, response_wire ks = sent s.1 id ++ rest) ∧
      (fin_sent s.1 id = true → d = DDone ∧ sent s.1 id = response_wire ks) ∧
      (d = DStart → ks = [])
  end.

(** A step that keeps the stream's entry, token and octets keeps the invariant. *)
Lemma stream_inv_frame id ks d s s' :
  stream_inv id ks d s → pending s'.2 !! id = pending s.2 !! id →
  request_cancellations s'.2 !! id = request_cancellations s.2 !! id →
  sent s'.1 id = sent s.1 id → fin_sent s'.1 id = fin_sent s.1 id → stream_inv id ks d s'.
Proof. unfold stream_inv. intros Hi -> -> -> ->. done. Qed.

(** Dropping the entry keeps it. *)
Lemma stream_inv_drop id ks d s s' :
  stream_inv id ks d s → pending s'.2 !! id = None →
  sent s'.1 id = sent s.1 id → fin_sent s'.1 id = fin_sent s.1 id → stream_inv id ks d s'.
Proof.
  unfold stream_inv. intros Hi -> -> ->. destruct (pending s.2 !! id) as [e|]; [|done].
  destruct Hi as (_ & Hw & Hf & Hd). split_and!; [by eauto|by rewrite Hf|].
  intros ->. by destruct Hd as [[? _]|[? _]].
Qed.

(** Every waiting part has its offsets within its octets. *)
Definition all_ok (st : H3SendState) : Prop := map_Forall (fun _ e => Forall part_ok (parts e)) (pending st).

(** What a step may do to streams other than its own. *)
Definition step_at (i : Z) (s s' : Conn * H3SendState) : Prop :=
  all_ok s'.2 ∧
  ∀ id, id ≠ i → pending s'.2 !! id = pending s.2 !! id ∧
    request_cancellations s'.2 !! id = request_cancellations s.2 !! id ∧
    sent s'.1 id = sent s.1 id ∧ fin_sent s'.1 id = fin_sent s.1 id.

Lemma pump_at c st i now s' : all_ok st → pump_stream c st i now = s' → step_at i (c, st) s'.
Proof.
  intros Hok <-. destruct (pump_stream c st i now) as [c' st'] eqn:E.
  destruct (pending st !! i) as [e|] eqn:He.
  2:{ rewrite pump_stream_none in E by done. injection E as <- <-. by split. }
  destruct (pump_stream_spec c st i now e c' st' He (Hok i e He) E) as [Hp Ho]. split.
  - destruct Hp as [e' Hp _ Hk _ _ _|rest Hp _ _ _]; unfold all_ok; cbn [snd]; rewrite Hp.
    + by apply map_Forall_insert_2.
    + by apply map_Forall_delete.
  - intros id Hid. destruct (Ho id Hid) as [Hs Hf]. cbn [fst snd].
    destruct Hp as [e' Hp Hr _ _ _ _|rest Hp Hr _ _]; rewrite Hp.
    + rewrite lookup_insert_ne, Hr by done. done.
    + rewrite lookup_delete_ne, Hr by done. done.
Qed.

(** A step that first changes the stream's own entry and token. *)
Lemma step_at_own i c st st1 s' :
  (∀ id, id ≠ i → pending st1 !! id = pending st !! id ∧
    request_cancellations st1 !! id = request_cancellations st !! id) →
  step_at i (c, st1) s' → step_at i (c, st) s'.
Proof.
  intros H1 [Hok H2]. split; [done|]. intros id Hid. destruct (H2 id Hid) as (P & R & S & F).
  destruct (H1 id Hid) as [P1 R1]. cbn [fst snd] in *. split_and!; congruence.
Qed.

Lemma contiguous_ok data : part_ok (contiguous data).
Proof. cbn. pose proof (zlen_nonneg data). lia. Qed.

Lemma complete_at c st i k now : all_ok st → step_at i (c, st) (complete_kind c st i k now).
Proof.
  intros Hok. destruct k as [resp h|hd h|data last ack|code]; cbn [complete_kind].
  - eapply step_at_own; [|eapply pump_at; [|reflexivity]].
    + intros id Hid. cbn. by rewrite lookup_insert_ne, lookup_delete_ne.
    + apply map_Forall_insert_2; [|done]. apply Forall_singleton, contiguous_ok.
  - eapply step_at_own; [|eapply pump_at; [|reflexivity]].
    + intros id Hid. cbn. by rewrite lookup_insert_ne.
    + apply map_Forall_insert_2; [|done]. apply Forall_singleton, contiguous_ok.
  - destruct (pending st !! i) as [e|] eqn:He; [|by split]. cbv zeta.
    set (e1 := if bytes_eqb data [] then e else _). set (e2 := if last then _ else e1).
    assert (Hk : Forall part_ok (parts e2)).
    { assert (parts e2 = parts e1) as -> by (unfold e2; by destruct last). unfold e1.
      case_if; [by apply (Hok i)|]. cbn. apply Forall_app. split; [by apply (Hok i)|].
      apply Forall_singleton, data_frame_part_bytes. }
    eapply step_at_own; [|eapply pump_at; [|reflexivity]]; destruct last.
    + intros id Hid. cbn. by rewrite lookup_insert_ne, lookup_delete_ne.
    + intros id Hid. cbn. by rewrite lookup_insert_ne.
    + by apply map_Forall_insert_2.
    + by apply map_Forall_insert_2.
  - cbv zeta. cbn [pending set_cancellations set]. destruct (pending st !! i) as [e|] eqn:He; split; cbn.
    + by apply map_Forall_delete.
    + intros id Hid. rewrite !lookup_delete_ne by done. by rewrite reset_sent, reset_fin.
    + done.
    + intros id Hid. rewrite !lookup_delete_ne by done. by rewrite reset_sent, reset_fin.
Qed.

(** Cancelling a list of requests. *)
Lemma cancel_fold l st id :
  pending (fold_left cancel_dispatched_request l st) !! id = (if decide (id ∈ l) then None else pending st !! id) ∧
  (id ∉ l → request_cancellations (fold_left cancel_dispatched_request l st) !! id = request_cancellations st !! id) ∧
  (all_ok st → all_ok (fold_left cancel_dispatched_request l st)).
Proof.
  revert st. induction l as [|i l IH]; intros st; [split_and!; [by rewrite decide_False by apply not_elem_of_nil|done..]|].
  cbn [fold_left]. destruct (IH (cancel_dispatched_request st i)) as (P & R & O).
  destruct (cancel_request_maps st i) as [Hp Hr]. split_and!.
  - rewrite P, Hp. destruct (decide (id ∈ l)) as [Hl|Hl].
    + rewrite decide_True; [done|set_solver].
    + destruct (decide (id = i)) as [->|Hi].
      * rewrite lookup_delete_eq, decide_True; [done|set_solver].
      * rewrite lookup_delete_ne, decide_False by (done || set_solver). done.
  - intros Hn. rewrite R, Hr, lookup_delete_ne by set_solver. done.
  - intros Hok. apply O. unfold all_ok. rewrite Hp. by apply map_Forall_delete.
Qed.

(** Pumping the stream itself. *)
Lemma h3_pump_inv id ks d c st now e :
  pending st !! id = Some e → Forall part_ok (parts e) →
  response_wire ks = sent c id ++ parts_bytes (parts e) → fin_sent c id = false →
  (d = DOpen ∧ fin e = false ∧ is_Some (request_cancellations st !! id) ∨ d = DDone ∧ fin e = true) →
  stream_inv id ks d (pump_stream c st id now).
Proof.
  intros He Hok Hw Hf Hd. destruct (pump_stream c st id now) as [c' st'] eqn:E.
  destruct (pump_stream_spec c st id now e c' st' He Hok E) as [Hp _]. unfold stream_inv. cbn [fst snd].
  destruct Hp as [e' Hp Hr Hk Hfin Hs Hf'|rest Hp Hr Hs Hf']; rewrite Hp.
  - rewrite lookup_insert_eq, Hr, Hfin, Hf', Hf, Hs. by split_and!.
  - rewrite lookup_delete_eq. split_and!.
    + exists rest. congruence.
    + intros Hx. apply Hf' in Hx as [Hx|[-> Hfin]]; [congruence|]. rewrite app_nil_r in Hs.
      destruct Hd as [(_ & Hn & _)|[-> _]]; [congruence|]. split; [done|congruence].
    + by destruct Hd as [[-> _]|[-> _]].
Qed.

(** The stream before its first completion. *)
Lemma stream_inv_start id ks s :
  stream_inv id ks DStart s → pending s.2 !! id = None ∧ ks = [] ∧ sent s.1 id = [] ∧ fin_sent s.1 id = false.
Proof.
  unfold stream_inv. destruct (pending s.2 !! id) as [e|]; [intros (_ & _ & _ & [[? _]|[? _]]); done|].
  intros ((rest & Hw) & Hf & Hk). specialize (Hk eq_refl). subst ks. cbn in Hw.
  split_and!; [done..| |].
  - by destruct (sent s.1 id).
  - apply not_true_is_false. by intros [? _]%Hf.
Qed.

(** A completion on the stream itself. *)
Lemma complete_inv id ks d d' c st k now :
  stream_inv id ks d (c, st) → dispatch_step (Some d) k = Some d' →
  is_Some (request_cancellations st !! id) → all_ok st →
  stream_inv id (ks ++ [k]) d' (complete_kind c st id k now).
Proof.
  intros Hi Hd Htok Hok. destruct k as [resp h|hd h|data last ack|code]; cbn [complete_kind dispatch_step] in *.
  - destruct d; try done. injection Hd as <-. apply stream_inv_start in Hi as (_ & -> & Hs & Hf). cbn [fst] in *.
    eapply h3_pump_inv; cbn; [apply lookup_insert_eq| | |done|by right].
    + apply Forall_singleton, contiguous_ok.
    + rewrite Hs. cbn. done.
  - destruct d; try done. injection Hd as <-. apply stream_inv_start in Hi as (_ & -> & Hs & Hf). cbn [fst] in *.
    eapply h3_pump_inv; cbn; [apply lookup_insert_eq| | |done|by left].
    + apply Forall_singleton, contiguous_ok.
    + rewrite Hs. cbn. done.
  - destruct d; try done. injection Hd as <-. unfold stream_inv in Hi. cbn [fst snd] in Hi.
    destruct (pending st !! id) as [e|] eqn:He.
    + destruct Hi as (Hk & Hw & Hf & [(_ & Hfin & _)|[? _]]); [|done]. cbv zeta.
      set (e1 := if bytes_eqb data [] then e else _). set (e2 := if last then _ else e1).
      assert (Hp2 : parts e2 = parts e1) by (unfold e2; by destruct last).
      assert (Hk1 : Forall part_ok (parts e1)).
      { unfold e1. case_if; [done|]. cbn. apply Forall_app. split; [done|].
        apply Forall_singleton, data_frame_part_bytes. }
      assert (Hw1 : response_wire (ks ++ [Chunk data last ack]) = sent c id ++ parts_bytes (parts e1)).
      { rewrite response_wire_snoc, Hw. cbn [kind_wire]. unfold e1. case_if; [by rewrite app_nil_r|].
        cbn [parts set_parts set]. unfold parts_bytes. rewrite fmap_app, concat_app, <-app_assoc.
        cbn [fmap list_fmap concat]. rewrite app_nil_r.
        by rewrite (proj1 (data_frame_part_bytes data ack)). }
      destruct last; (eapply h3_pump_inv; cbn; [apply lookup_insert_eq|by rewrite ?Hp2|by rewrite ?Hp2|done|]).
      * by right.
      * left. split_and!; [done| |done]. unfold e2, e1. by destruct (bytes_eqb data []).
    + destruct Hi as ((rest & Hw) & Hf & _). unfold stream_inv. cbn [fst snd]. rewrite He. split_and!.
      * exists (rest ++ kind_wire (Chunk data last ack)). by rewrite response_wire_snoc, Hw, <-app_assoc.
      * by intros [? _]%Hf.
      * by destruct last.
  - assert (Hcl : d = DStart ∨ d = DOpen) by (destruct d; try done; auto).
    assert (d' = DAborted) as -> by (destruct d; by simplify_eq).
    assert (Hdrop : stream_inv id ks d (quinn_reset c id code, st <| pending := delete id (pending st) |>)).
    { eapply stream_inv_drop; [exact Hi|apply lookup_delete_eq|apply reset_sent|apply reset_fin]. }
    cbv zeta. cbn [pending set_cancellations set]. unfold stream_inv in Hdrop |- *. cbn [fst snd] in *.
    cbn [pending set_pending set] in Hdrop. rewrite lookup_delete_eq in Hdrop. destruct Hdrop as ((rest & Hw) & Hf & _).
    assert (Hgoal : (∃ rest0, response_wire (ks ++ [Abort code]) = sent (quinn_reset c id code) id ++ rest0) ∧
      (fin_sent (quinn_reset c id code) id = true → DAborted = DDone ∧
         sent (quinn_reset c id code) id = response_wire (ks ++ [Abort code])) ∧
      (DAborted = DStart → ks ++ [Abort code] = [])).
    { split_and!; [exists rest; rewrite response_wire_snoc; cbn; by rewrite app_nil_r| |done].
      intros [-> _]%Hf. by destruct Hcl. }
    destruct (pending st !! id) as [e|] eqn:He; cbn [pending set_pending set_cancellations set_ended set].
    + by rewrite lookup_delete_eq.
    + by rewrite He.
Qed.

(** A completion that finds no request: it was cancelled. *)
Lemma ignored_inv id ks d d' s k :
  stream_inv id ks d s → dispatch_step (Some d) k = Some d' → request_cancellations s.2 !! id = None →
  stream_inv id (ks ++ [k]) d' s.
Proof.
  unfold stream_inv. intros Hi Hd Ht. destruct (pending s.2 !! id) as [e|].
  - destruct Hi as (_ & _ & _ & [(_ & _ & Hs)|[-> _]]); [|by destruct k]. rewrite Ht in Hs. by destruct Hs.
  - destruct Hi as ((rest & Hw) & Hf & _). split_and!.
    + exists (rest ++ kind_wire k). by rewrite response_wire_snoc, Hw, <-app_assoc.
    + intros [-> _]%Hf. by destruct k.
    + intros ->. by destruct d, k; simplify_eq; destruct fin0.
Qed.

Lemma send_step_ok s e : all_ok s.2 → all_ok (send_step s e).2.
Proof.
  destruct s as [c st]. cbn [snd]. intros Hok. destruct e as [i k now|i now|now|now]; cbn [send_step].
  - destruct (request_cancellations st !! i); [|done]. apply (complete_at c st i k now Hok).
  - apply (pump_at c st i now _ Hok eq_refl).
  - unfold charge_request_cancel. destruct (charge _ _) as [debt []]; [|done]. intros i e He.
    cbn in He. by rewrite lookup_empty in He.
  - unfold reclaim_stalled_sends. destruct (send_stall_timeout st); [|done]. by apply (cancel_fold _ st 0).
Qed.

Lemma kinds_snoc id es e :
  kinds id (es ++ [e]) = kinds id es ++ match e with SComplete i k _ => if decide (i = id) then [k] else [] | _ => [] end.
Proof.
  unfold kinds. rewrite omap_app. f_equal. destruct e as [i k now| | |]; cbn; try done. by destruct (decide (i = id)).
Qed.

Lemma send_step_inv id ks d s e d' :
  all_ok s.2 → stream_inv id ks d s →
  (∀ k now, e = SComplete id k now → dispatch_step (Some d) k = Some d') →
  stream_inv id (ks ++ match e with SComplete i k _ => if decide (i = id) then [k] else [] | _ => [] end)
    (match e with SComplete i _ _ => if decide (i = id) then d' else d | _ => d end) (send_step s e).
Proof.
  intros Hok Hi Hd. destruct s as [c st]. cbn [snd] in Hok.
  destruct e as [i k now|i now|now|now]; cbn [send_step]; rewrite ?app_nil_r.
  - destruct (decide (i = id)) as [->|Hne].
    + destruct (request_cancellations st !! id) as [t|] eqn:Et.
      * eapply complete_inv; [exact Hi|by eapply Hd|by rewrite Et|done].
      * eapply ignored_inv; [exact Hi|by eapply Hd|done].
    + rewrite app_nil_r. destruct (request_cancellations st !! i); [|done].
      destruct (complete_at c st i k now Hok) as [_ Hk]. destruct (Hk id) as (P & R & S & F); [done|].
      by eapply stream_inv_frame.
  - destruct (decide (i = id)) as [->|Hne].
    + pose proof Hi as Hi2. unfold stream_inv in Hi2. cbn [fst snd] in Hi2. destruct (pending st !! id) as [e|] eqn:He.
      * destruct Hi2 as (Hk & Hw & Hf & Hdd). by eapply h3_pump_inv.
      * by rewrite pump_stream_none.
    + destruct (pump_at c st i now _ Hok eq_refl) as [_ Hk]. destruct (Hk id) as (P & R & S & F); [done|].
      by eapply stream_inv_frame.
  - unfold charge_request_cancel. destruct (charge _ _) as [debt []]; cbn [negb fst].
    + eapply stream_inv_drop; [exact Hi|cbn; apply lookup_empty|done|done].
    + by eapply stream_inv_frame.
  - unfold reclaim_stalled_sends. destruct (send_stall_timeout st) as [timeout|]; [|done]. cbn [fst].
    set (l := (List.filter _ _).*1). destruct (cancel_fold l st id) as (P & R & _).
    destruct (decide (id ∈ l)) as [Hl|Hl].
    + eapply stream_inv_drop; [exact Hi|exact P|done|done].
    + eapply stream_inv_frame; [exact Hi|exact P|by apply R|done|done].
Qed.

Lemma run_inv id es s0 d :
  all_ok s0.2 → pending s0.2 !! id = None → sent s0.1 id = [] → fin_sent s0.1 id = false →
  dispatched (kinds id es) = Some d →
  all_ok (fold_left send_step es s0).2 ∧ stream_inv id (kinds id es) d (fold_left send_step es s0).
Proof.
  intros Hok Hp Hs Hf. revert d. induction es as [|e es IH] using rev_ind; intros d Hd.
  - injection Hd as <-. split; [done|]. unfold stream_inv. cbn [fold_left]. rewrite Hp, Hs, Hf. split_and!; try done. by exists [].
  - rewrite kinds_snoc in Hd |- *. rewrite fold_left_app. cbn [fold_left].
    assert (Hpre : is_Some (dispatched (kinds id es))).
    { destruct (dispatched (kinds id es)) eqn:E; [done|]. unfold dispatched in *. rewrite fold_left_app, E in Hd.
      destruct e as [i k now| | |]; try done. by destruct (decide (i = id)), k. }
    destruct Hpre as [d0 Hd0]. destruct (IH d0 Hd0) as [Hok1 Hi1]. split; [by apply send_step_ok|].
    assert (Hstep : ∀ k now, e = SComplete id k now → dispatch_step (Some d0) k = Some d).
    { intros k now ->. rewrite decide_True in Hd by done. by rewrite dispatched_snoc, Hd0 in Hd. }
    pose proof (send_step_inv id (kinds id es) d0 _ e (match e with SComplete i _ _ => if decide (i = id) then d else d0 | _ => d0 end) Hok1 Hi1) as Hinv.
    destruct e as [i k now| | |].
    + destruct (decide (i = id)) as [->|Hne].
      * apply Hinv. intros k' now' [= <- <-]. by apply (Hstep k now).
      * rewrite app_nil_r in Hd. rewrite Hd0 in Hd. injection Hd as <-. by apply Hinv.
    + rewrite app_nil_r in Hd. rewrite Hd0 in Hd. injection Hd as <-. by apply Hinv.
    + rewrite app_nil_r in Hd. rewrite Hd0 in Hd. injection Hd as <-. by apply Hinv.
    + rewrite app_nil_r in Hd. rewrite Hd0 in Hd. injection Hd as <-. by apply Hinv.
Qed.

(** ** Progress: a stream that accepts everything is drained *)

Definition open_flow : Prop :=
  (∀ c i x, (quinn_write (Conn := Conn) c i x).2 = Ok (zlen x)) ∧
  (∀ c i, (quinn_finish (Conn := Conn) c i).2 = true).

Lemma write_slice_open fuel c id data off n c' off' n' r :
  open_flow → 0 <= off <= zlen data → (Z.to_nat (zlen data - off) < fuel)%nat →
  write_slice fuel c id data off n = (c', off', n', r) → r = Ok true.
Proof.
  intros [Hw _]. revert c off n. induction fuel as [|fuel IH]; intros c off n Hoff Hf; [lia|].
  cbn [write_slice]. case_if; [|by intros [= _ _ _ <-]].
  specialize (Hw c id (drop (Z.to_nat off) data)). destruct (quinn_write c id _) as [c1 [k|]]; [|done].
  injection Hw as ->. rewrite zlen_drop. case_if; [lia|]. apply IH; lia.
Qed.

Lemma part_write_open c id p n c' p' n' r :
  open_flow → part_ok p → part_write c id p n = (c', p', n', r) → r = Ok true.
Proof.
  intros Hflow. destruct p as [data off ack|header hl ho data doff ack]; cbn [part_write part_ok].
  - intros Hok. destruct (write_slice _ _ _ _ _ _) as [[[c1 off1] n1] r1] eqn:E.
    apply write_slice_open in E; [|done..|unfold zlen in *; lia]. by intros [= _ _ _ <-].
  - intros [Hho Hdo]. destruct (write_slice _ c id (take _ _) ho n) as [[[c1 ho1] n1] r1] eqn:E1.
    apply write_slice_open in E1 as ->; [|done..|unfold zlen in *; lia].
    destruct (write_slice _ c1 id data doff n1) as [[[c2 do2] n2] r2] eqn:E2.
    apply write_slice_open in E2; [|done..|unfold zlen in *; lia]. by intros [= _ _ _ <-].
Qed.

Lemma pump_parts_open ps c id n acks c' ps' n' acks' out :
  open_flow → Forall part_ok ps → pump_parts ps c id n acks = (c', ps', n', acks', out) → out = None.
Proof.
  intros Hflow Hok. revert c n acks. induction Hok as [|p ps Hp Hok IH]; intros c n acks; cbn [pump_parts].
  { by intros [= _ _ _ _ <-]. }
  destruct (part_write c id p n) as [[[c1 p1] n1] r1] eqn:E. apply part_write_open in E as ->; [|done..]. apply IH.
Qed.

Lemma pump_open c st id now e :
  open_flow → pending st !! id = Some e → Forall part_ok (parts e) → fin e = true →
  fin_sent (pump_stream c st id now).1 id = true.
Proof.
  intros Hflow He Hok Hf. unfold pump_stream. rewrite He.
  destruct (pump_parts (parts e) c id 0 []) as [[[[c1 ps] n] acks] out] eqn:E.
  pose proof (pump_parts_open _ _ _ _ _ _ _ _ _ _ Hflow Hok E) as ->.
  apply pump_parts_spec in E as (_ & _ & _ & Hd); [|done]. rewrite (Hd eq_refl). cbv zeta.
  unfold finish_if_drained. cbn [fin parts set_parts set length]. rewrite Hf.
  change (negb true || negb (bool_decide (0%nat = 0%nat))) with false. cbv iota.
  pose proof (finish_fin c1 id id) as Hfin. pose proof (proj2 Hflow c1 id) as Hacc.
  destruct (quinn_finish c1 id) as [c2 b]. cbn in *. subst b. by rewrite decide_True, orb_true_r in Hfin.
Qed.

End run.

(** ** Properties *)


(** ** A connection with a window, for the witnesses *)

Record WConn := { w_sent : gmap Z (list Z); w_fin : gset Z; w_opened : gset Z; w_next : Z; w_credit : Z }.

#[export] Instance wconn_quinn : Quinn WConn := {|
  quinn_write c id d :=
    if w_credit c <=? 0 then (c, Err Blocked)
    else
      let n := Z.min (w_credit c) (zlen d) in
      ({| w_sent := <[id := default [] (w_sent c !! id) ++ take (Z.to_nat n) d]> (w_sent c);
          w_fin := w_fin c; w_opened := w_opened c; w_next := w_next c; w_credit := w_credit c - n |}, Ok n);
  quinn_finish c id :=
    ({| w_sent := w_sent c; w_fin := {[id]} ∪ w_fin c; w_opened := w_opened c; w_next := w_next c;
        w_credit := w_credit c |}, true);
  quinn_reset c id code := c;
  quinn_open_uni c :=
    if bool_decide (w_next c ∈ w_opened c ∨ is_Some (w_sent c !! w_next c)) then (c, None)
    else ({| w_sent := w_sent c; w_fin := w_fin c; w_opened := {[w_next c]} ∪ w_opened c;
             w_next := w_next c + 4; w_credit := w_credit c |}, Some (w_next c));
  sent c id := default [] (w_sent c !! id);
  fin_sent c id := bool_decide (id ∈ w_fin c);
  opened c := w_opened c;
|}.

#[export] Instance wconn_laws : QuinnLaws WConn.
Proof.
  split; cbn.
  - intros c id d c' n. case_if; [done|]. cbv zeta. intros [= <- <-]. cbn.
    pose proof (zlen_nonneg d). split; [lia|]. by rewrite lookup_insert_eq.
  - intros c id d c' e. case_if; [by intros [= <- _]|done].
  - intros c id d id' Hne. case_if; [done|]. cbn. by rewrite lookup_insert_ne.
  - intros c id d id'. by case_if.
  - done.
  - intros c id id'. destruct (decide (id' = id)) as [->|Hne].
    + rewrite orb_true_r. apply bool_decide_eq_true_2. set_solver.
    + apply bool_decide_ext. set_solver.
  - done.
  - done.
  - intros c id'. by case_bool_decide.
  - intros c id d. by case_if.
  - intros c. by case_bool_decide.
  - intros c id. case_bool_decide as Hn; [done|]. cbn. intros [= <-]. apply Decidable.not_or in Hn as [Hn Hs].
    split_and!; [done| |done]. apply eq_None_not_Some in Hs. by rewrite Hs.
Qed.

Definition wconn (credit : Z) : WConn :=
  {| w_sent := ∅; w_fin := ∅; w_opened := ∅; w_next := 3; w_credit := credit |}.

Definition send_empty (tokens : gmap Z Z) : H3SendState :=
  {| epoch := 0; rejected := false; pending := ∅; request_cancellations := tokens; cancel_budget := None;
     send_stall_timeout := Some 30; control_stream := None; control_stream_off := 0;
     qpack_encoder_stream := None; qpack_encoder_stream_off := 0; qpack_decoder_stream := None;
     qpack_decoder_stream_off := 0; control_setup := false; cancelled := []; acked := []; ended := [] |}.

Lemma send_empty_ok tokens : all_ok (send_empty tokens).
Proof. intros i e He. change ((∅ : gmap Z PendingSend) !! i = Some e) in He. by rewrite lookup_empty in He. Qed.

(** A streamed response behind a window of four octets: all of it is sent or waits. *)
Definition example_events : list send_event :=
  [SComplete 0 (Head [1; 2; 3] None) 0; SComplete 0 (Chunk [7; 8] false None) 1;
   SComplete 0 (Chunk [9] true None) 2].

Definition example_run : WConn * H3SendState :=
  fold_left send_step example_events (wconn 4, send_empty {[0 := 5]}).


(** ** The cancellation budget *)

Fixpoint cancel_run (st : H3SendState) (times : list Z) : H3SendState * list bool :=
  match times with
  | [] => (st, [])
  | t :: times =>
      let '(st, b) := charge_request_cancel st t in
      let '(st, bs) := cancel_run st times in (st, b :: bs)
  end.

Lemma charge_keep st t st' b :
  charge_request_cancel st t = (st', b) →
  cancel_budget st' = (charge (cancel_budget st) t).1 ∧ b = (charge (cancel_budget st) t).2 ∧
  (b = true → rejected st' = true ∧ request_cancellations st' = ∅ ∧ pending st' = ∅).
Proof.
  unfold charge_request_cancel. destruct (charge _ _) as [debt []]; cbn [negb]; by intros [= <- <-].
Qed.

Lemma cancel_debt_ge times st st' bs' t0 k :
  cancel_run st times = (st', bs') →
  match cancel_budget st with Some D => t0 + k * H3_CANCEL_REFILL <= D | None => k = 0 ∧ (∀ t, hd_error times = Some t → t0 <= t) end →
  0 <= k → Forall (eq false) bs' → times ≠ [] →
  match last times with
  | Some t => (k + zlen times) * H3_CANCEL_REFILL <= H3_CANCEL_REFILL * H3_CANCEL_BURST + (t - t0)
  | None => True
  end.
Proof.
  revert st k bs'. induction times as [|t times IH]; intros st k bs' Hr Hb Hk Hall Hne; [done|]. cbn [cancel_run] in Hr.
  destruct (charge_request_cancel st t) as [st1 b1] eqn:E. apply charge_keep in E as (Hc & Hb1 & _).
  destruct (cancel_run st1 times) as [st2 bs2] eqn:Er. injection Hr as <- <-.
  apply Forall_cons in Hall as [<- Hall]. unfold charge in Hc, Hb1. cbn [fst snd] in Hc, Hb1. symmetry in Hb1. bool_hyps.
  set (base := match cancel_budget st with Some x => if t <? x then x else t | None => t end) in *.
  assert (Hbase : t0 + k * H3_CANCEL_REFILL <= base ∧ t <= base).
  { unfold base. destruct (cancel_budget st) as [D|]; [case_if; lia|]. destruct Hb as [-> Ht]. specialize (Ht t eq_refl). lia. }
  unfold H3_CANCEL_REFILL, H3_CANCEL_BURST in *. destruct times as [|t' times].
  - cbn [last]. rewrite zlen_cons. change (zlen []) with 0. lia.
  - rewrite last_cons_cons, zlen_cons. replace (k + (1 + zlen (t' :: times))) with (k + 1 + zlen (t' :: times)) by lia.
    eapply IH; [exact Er| |lia|done|done]. rewrite Hc. lia.
Qed.

(** A burst within the budget. *)
Lemma cancel_debt_le times st k :
  Sorted Z.le times → k + zlen times <= H3_CANCEL_BURST → 0 <= k →
  match cancel_budget st with
  | Some D => ∀ t, hd_error times = Some t → D - t <= k * H3_CANCEL_REFILL
  | None => True
  end →
  Forall (eq false) (cancel_run st times).2.
Proof.
  revert st k. induction times as [|t times IH]; intros st k Hs Hk Hk0 Hb; [constructor|]. cbn [cancel_run].
  rewrite zlen_cons in Hk. pose proof (zlen_nonneg times) as Hz.
  destruct (charge_request_cancel st t) as [st1 b1] eqn:E. apply charge_keep in E as (Hc & Hb1 & _).
  unfold charge in Hc, Hb1. cbn [fst snd] in Hc, Hb1.
  set (base := match cancel_budget st with Some x => if t <? x then x else t | None => t end) in *.
  assert (Hbase : base - t <= k * H3_CANCEL_REFILL).
  { unfold base, H3_CANCEL_REFILL in *. destruct (cancel_budget st) as [D|]; [|lia]. specialize (Hb t eq_refl). case_if; lia. }
  inversion Hs as [|? ? Hs' Hhd]; subst. specialize (IH st1 (k + 1) Hs' ltac:(lia) ltac:(lia)).
  destruct (cancel_run st1 times) as [st2 bs2]. cbn [snd] in *. constructor.
  - symmetry. apply Z.ltb_ge. unfold H3_CANCEL_REFILL, H3_CANCEL_BURST in *. lia.
  - apply IH. rewrite Hc. intros t' Ht'. destruct times as [|x times]; [done|]. injection Ht' as ->.
    inversion Hhd; subst. unfold H3_CANCEL_REFILL in *. lia.
Qed.

(** The cancellations admitted fit the burst and the refill of the time they took, a burst is
    admitted, and past it the connection is refused and nothing of it is left. *)
Theorem cancel_budget_bounded st t0 times :
  cancel_budget st = None → Sorted Z.le (t0 :: times) →
  (Forall (eq false) (cancel_run st (t0 :: times)).2 →
   zlen (t0 :: times) * H3_CANCEL_REFILL <=
   H3_CANCEL_BURST * H3_CANCEL_REFILL + (default t0 (last times) - t0)) ∧
  (zlen (t0 :: times) <= H3_CANCEL_BURST → Forall (eq false) (cancel_run st (t0 :: times)).2) ∧
  (∀ st1 t st2, charge_request_cancel st1 t = (st2, true) →
     rejected st2 = true ∧ request_cancellations st2 = ∅ ∧ pending st2 = ∅).
Proof.
  intros Hn Hs. split_and!.
  - intros Hall. destruct (cancel_run st (t0 :: times)) as [st' bs'] eqn:E.
    pose proof (cancel_debt_ge (t0 :: times) st st' bs' t0 0 E) as H. rewrite Hn in H.
    specialize (H ltac:(split; [done|by intros t [= ->]]) ltac:(lia) Hall ltac:(done)).
    destruct times as [|t times]; [cbn in H |- *; lia|]. rewrite last_cons_cons in H.
    destruct (last (t :: times)) as [x|] eqn:El; [cbn; lia|]. by apply last_None in El.
  - intros Hle. eapply (cancel_debt_le _ _ 0); [done|lia|lia|by rewrite Hn].
  - intros st1 t st2 E. apply charge_keep in E as (_ & _ & Hk). by apply Hk.
Qed.

Lemma cancel_budget_bounded_witness :
  Forall (eq false) (cancel_run (send_empty ∅) (0 :: [5; 5; 100000000])).2.
Proof.
  apply (cancel_budget_bounded (send_empty ∅) 0 [5; 5; 100000000]); [done| |done].
  repeat constructor; done.
Defined.

End h3_send_theorems.
