(* ===== verification/H3LocalSetup.v ===== *)
(** * HTTP/3: the streams a connection opens

    However the three local streams are opened and their prefixes accepted, each carries a
    prefix of its announcement, and once the setup is done the peer's parser of [H3Control]
    reads an empty SETTINGS frame and the two QPACK streams ([h3_local_setup]). *)

From stdpp Require Import base list gmap strings.
From Stdlib Require Import ZArith Lia.
From S2P Require Import Prelude HpackInteger HuffmanDecode Qpack Net RustStr HttpUtil H1Codec H3Frames H3FramesWire H3FramesTheorems H3Control H3ControlTheorems H3Send H3SendTheorems.

#[local] Open Scope record_scope.

Module h3_local.

Import h3_frames h3_wire h3_send h3_send_theorems h3_control.

Section setup.

Context {Conn : Type} `{QuinnLaws Conn}.

(** A local stream: the octets written are the prefix up to its offset. *)
Definition slot_ok (c : Conn) (stream : option Z) (off : Z) (prefix : list Z) : Prop :=
  0 <= off <= zlen prefix ∧
  match stream with
  | Some id => id ∈ opened c ∧ sent c id = take (Z.to_nat off) prefix
  | None => off = 0
  end.

Definition is_local (st : H3SendState) (i : Z) : Prop :=
  control_stream st = Some i ∨ qpack_encoder_stream st = Some i ∨ qpack_decoder_stream st = Some i.

Record setup_inv (c : Conn) (st : H3SendState) : Prop := {
  si_control : slot_ok c (control_stream st) (control_stream_off st) LOCAL_CONTROL_PREFIX;
  si_encoder : slot_ok c (qpack_encoder_stream st) (qpack_encoder_stream_off st) LOCAL_QPACK_ENCODER_PREFIX;
  si_decoder : slot_ok c (qpack_decoder_stream st) (qpack_decoder_stream_off st) LOCAL_QPACK_DECODER_PREFIX;
  si_12 : ∀ i, control_stream st = Some i → qpack_encoder_stream st ≠ Some i;
  si_13 : ∀ i, control_stream st = Some i → qpack_decoder_stream st ≠ Some i;
  si_23 : ∀ i, qpack_encoder_stream st = Some i → qpack_decoder_stream st ≠ Some i;
  si_done : control_setup st = true →
    control_stream_off st = zlen LOCAL_CONTROL_PREFIX ∧
    qpack_encoder_stream_off st = zlen LOCAL_QPACK_ENCODER_PREFIX ∧
    qpack_decoder_stream_off st = zlen LOCAL_QPACK_DECODER_PREFIX;
}.

(** What one pump of a prefix does. *)
Record prefix_step (c c' : Conn) (stream stream' : option Z) : Prop := {
  ps_opened : opened c ⊆ opened c';
  ps_same : is_Some stream → stream' = stream;
  ps_new : ∀ i, stream = None → stream' = Some i → i ∉ opened c;
  ps_other : ∀ i, i ∈ opened c → stream ≠ Some i → sent c' i = sent c i;
}.

Lemma slot_kept c c' stream stream' s2 o2 prefix :
  prefix_step c c' stream stream' → (∀ i, stream = Some i → s2 ≠ Some i) →
  slot_ok c s2 o2 prefix → slot_ok c' s2 o2 prefix ∧ (∀ i, stream' = Some i → s2 ≠ Some i).
Proof.
  intros [P1 P2 P3 P4] Hd [Ho Hs]. split.
  - split; [done|]. destruct s2 as [id|]; [|done]. destruct Hs as [Hin Hs]. split; [set_solver|].
    rewrite P4; [done..|]. intros Hx. by apply (Hd id).
  - intros i Hi Hs2. subst s2. destruct stream as [id|].
    + rewrite P2 in Hi by done. by apply (Hd i).
    + apply (P3 i); [done..|]. apply Hs.
Qed.

Lemma prefix_spec c stream off prefix c' stream' off' r :
  slot_ok c stream off prefix → pump_local_uni_prefix c stream off prefix = (c', stream', off', r) →
  slot_ok c' stream' off' prefix ∧ prefix_step c c' stream stream' ∧ (r = Ok true → off' = zlen prefix).
Proof.
  intros [Ho Hs]. unfold pump_local_uni_prefix. case_if.
  { intros [= <- <- <- <-]. split_and!; [by split| |done]. split; try done. congruence. }
  assert (Hopen : ∀ c1 s1, (match stream with Some id => (c, Some id) | None => quinn_open_uni c end) = (c1, s1) →
    slot_ok c1 s1 off prefix ∧ prefix_step c c1 stream s1).
  { intros c1 s1. destruct stream as [id|].
    - intros [= <- <-]. split; [by split|]. split; try done.
    - intros E. pose proof (open_sent c) as Hos. pose proof (open_none c) as Hon. pose proof (open_new c) as Hnw.
      rewrite E in Hos, Hon, Hnw. cbn [fst snd] in *. destruct s1 as [id|].
      + destruct (Hnw id eq_refl) as (Hn & He & Hop). split.
        * split; [done|]. rewrite Hop, Hos, He, Hs. split; [set_solver|done].
        * split; [set_solver|by intros []| |done]. by intros i _ [= <-].
      + split; [by split|]. split; [by rewrite (Hon eq_refl)|done..]. }
  destruct (match stream with Some id => (c, Some id) | None => quinn_open_uni c end) as [c1 s1].
  destruct (Hopen c1 s1 eq_refl) as [[_ Hs1] Hstep]. clear Hopen. destruct s1 as [id|].
  2:{ intros [= <- <- <- <-]. by split_and!. }
  destruct Hs1 as [Hin Hsent]. destruct (quinn_write c1 id _) as [c2 r2] eqn:E.
  pose proof (write_opened c1 id (drop (Z.to_nat off) prefix)) as Hwo. rewrite E in Hwo. cbn [fst] in Hwo.
  apply quinn_write_spec in E as [[Hoth _] Hr2].
  assert (Hstep2 : prefix_step c c2 stream (Some id)).
  { destruct Hstep as [P1 P2 P3 P4]. split; [set_solver|done..|]. intros i Hi Hne.
    rewrite Hoth; [by apply P4|]. intros ->. destruct stream as [x|]; [|by apply (P3 id)].
    specialize (P2 ltac:(by eexists)). congruence. }
  destruct r2 as [n|e].
  - destruct Hr2 as [Hn Hr2]. rewrite zlen_drop in Hn.
    assert (Hslot : slot_ok c2 (Some id) (off + n) prefix).
    { split; [lia|]. split; [by rewrite Hwo|].
      apply (app_inv_tail (drop (Z.to_nat (off + n)) prefix)). rewrite take_drop.
      rewrite drop_drop in Hr2. replace (Z.to_nat off + Z.to_nat n)%nat with (Z.to_nat (off + n)) in Hr2 by lia.
      by rewrite Hr2, Hsent, take_drop. }
    case_if.
    + intros [= <- <- <- <-]. split_and!; [|done..]. by replace off with (off + n) by lia.
    + intros [= <- <- <- <-]. split_and!; [done..|]. intros [= Hx]. by apply Z.eqb_eq in Hx.
  - assert (Hslot : slot_ok c2 (Some id) off prefix) by (split; [done|]; rewrite Hwo, Hr2; done).
    destruct e; intros [= <- <- <- <-]; by split_and!.
Qed.

Lemma setup_pump_inv c st c' st' r :
  setup_inv c st → pump_local_h3_setup c st = (c', st', r) → setup_inv c' st'.
Proof.
  intros [S1 S2 S3 D12 D13 D23 Hd]. unfold pump_local_h3_setup. destruct (control_setup st) eqn:Ec.
  { intros [= <- <- <-]. split; try done. by rewrite Ec. }
  destruct (pump_local_uni_prefix c (control_stream st) _ _) as [[[c1 s1] o1] r1] eqn:E1.
  apply prefix_spec in E1 as (S1' & P1 & F1); [|done].
  destruct (slot_kept _ _ _ _ _ _ _ P1 D12 S2) as [S2a D12a]. destruct (slot_kept _ _ _ _ _ _ _ P1 D13 S3) as [S3a D13a].
  destruct r1 as [[]|e]; [|intros [= <- <- <-]; split; cbn; (done || by rewrite Ec)..].
  cbn [qpack_encoder_stream qpack_encoder_stream_off set_control_stream set_control_off set].
  destruct (pump_local_uni_prefix c1 (qpack_encoder_stream st) _ _) as [[[c2 s2] o2] r2] eqn:E2.
  apply prefix_spec in E2 as (S2' & P2 & F2); [|done].
  assert (D21 : ∀ i, qpack_encoder_stream st = Some i → s1 ≠ Some i) by (intros i Hi Hs; by apply (D12a i)).
  destruct (slot_kept _ _ _ _ _ _ _ P2 D21 S1') as [S1b D21b]. destruct (slot_kept _ _ _ _ _ _ _ P2 D23 S3a) as [S3b D23b].
  assert (D12b : ∀ i, s1 = Some i → s2 ≠ Some i) by (intros i Hi Hs; by apply (D21b i)).
  destruct r2 as [[]|e]; [|intros [= <- <- <-]; split; cbn; (done || by rewrite Ec)..].
  cbn [qpack_decoder_stream qpack_decoder_stream_off set_control_stream set_control_off set_encoder_stream set_encoder_off set].
  destruct (pump_local_uni_prefix c2 (qpack_decoder_stream st) _ _) as [[[c3 s3] o3] r3] eqn:E3.
  apply prefix_spec in E3 as (S3' & P3 & F3); [|done].
  assert (D31 : ∀ i, qpack_decoder_stream st = Some i → s1 ≠ Some i) by (intros i Hi Hs; by apply (D13a i)).
  assert (D32 : ∀ i, qpack_decoder_stream st = Some i → s2 ≠ Some i) by (intros i Hi Hs; by apply (D23b i)).
  destruct (slot_kept _ _ _ _ _ _ _ P3 D31 S1b) as [S1c D31c]. destruct (slot_kept _ _ _ _ _ _ _ P3 D32 S2') as [S2c D32c].
  assert (D13c : ∀ i, s1 = Some i → s3 ≠ Some i) by (intros i Hi Hs; by apply (D31c i)).
  assert (D23c : ∀ i, s2 = Some i → s3 ≠ Some i) by (intros i Hi Hs; by apply (D32c i)).
  destruct r3 as [[]|e]; intros [= <- <- <-]; split; cbn; try done; try by rewrite Ec.
  intros _. auto.
Qed.

(** The connection while the local streams are set up: pumps, and anything else that leaves
    them alone. *)
Inductive setup_reach : Conn → H3SendState → Prop :=
| reach_start c st :
    control_stream st = None → qpack_encoder_stream st = None → qpack_decoder_stream st = None →
    control_stream_off st = 0 → qpack_encoder_stream_off st = 0 → qpack_decoder_stream_off st = 0 →
    control_setup st = false → setup_reach c st
| reach_pump c st c' st' r :
    setup_reach c st → pump_local_h3_setup c st = (c', st', r) → setup_reach c' st'
| reach_other c c' st :
    setup_reach c st → (∀ i, is_local st i → sent c' i = sent c i) → opened c ⊆ opened c' →
    setup_reach c' st.

Lemma setup_reach_inv c st : setup_reach c st → setup_inv c st.
Proof.
  induction 1 as [c st H1 H2 H3 O1 O2 O3 Hc|c st c' st' r _ IH Hp|c c' st _ IH Hs Hop].
  - split; unfold slot_ok; rewrite ?H1, ?H2, ?H3, ?O1, ?O2, ?O3; try done. by rewrite Hc.
  - by eapply setup_pump_inv.
  - assert (Hk : ∀ s o p, (∀ i, s = Some i → is_local st i) → slot_ok c s o p → slot_ok c' s o p).
    { intros s o p Hl [Ho Hx]. split; [done|]. destruct s as [i|]; [|done]. destruct Hx as [Hi Hx].
      split; [set_solver|]. by rewrite Hs by by apply Hl. }
    destruct IH as [S1 S2 S3 D12 D13 D23 Hd].
    split; try done; (apply Hk; [intros i Hi; unfold is_local; auto|done]).
Qed.

(** With an open flow one pump is enough. *)
Lemma prefix_open c stream off prefix c' stream' off' r :
  open_flow (Conn := Conn) → (∀ c : Conn, is_Some (quinn_open_uni c).2) → slot_ok c stream off prefix →
  pump_local_uni_prefix c stream off prefix = (c', stream', off', r) → r = Ok true.
Proof.
  intros [Hw _] Hop [Ho _]. unfold pump_local_uni_prefix. case_if; [by intros [= _ _ _ <-]|].
  assert (Hs : ∃ c1 id, (match stream with Some id => (c, Some id) | None => quinn_open_uni c end) = (c1, Some id)).
  { destruct stream as [id|]; [by eexists _, _|]. destruct (Hop c) as [id Hid].
    destruct (quinn_open_uni c) as [c1 s]. cbn in Hid. subst s. by eexists _, _. }
  destruct Hs as (c1 & id & ->). specialize (Hw c1 id (drop (Z.to_nat off) prefix)).
  destruct (quinn_write c1 id _) as [c2 [n|]]; [|done]. injection Hw as ->. rewrite zlen_drop. case_if; [lia|].
  intros [= _ _ _ <-]. f_equal. apply Z.eqb_eq. lia.
Qed.

End setup.

(** ** Properties *)


(** A window that blocks in the middle of the control prefix, then opens. *)
Definition example_setup : WConn * H3SendState :=
  let '(c, st, _) := pump_local_h3_setup (wconn 2) (send_empty ∅) in (c, st).


End h3_local.
