(* ===== verification/H3Request.v ===== *)
(** * From an HTTP/3 stream to a request, and back: [crates/httpjet/src/uring/h3.rs]

    The head of a request: the pseudo-header fields, the checks of RFC 9114 section 4, the
    trailers; and the head of the response with the limits of the peer. The bridge to the
    request pipeline is a parameter: its answer is an argument of [respond]. *)

From stdpp Require Import base list gmap strings.
From Stdlib Require Import ZArith Lia.
From S2P Require Import Prelude HpackInteger HuffmanDecode Qpack Net RustStr HttpUtil H1Codec H3Frames.

#[local] Open Scope record_scope.

Module h3_request.

Import headers http_util net qpack h3_frames.

Section h3_request.
Context `{HttpCrate}.

(** ** Pseudo-header fields *)

Record H3RequestHeaders := {
  method : list Z;
  path : list Z;
  authority : option (list Z);
  regular : list Field;
}.

(** The variables of [split_h3_request_headers]. *)
Record Split := {
  sp_method : option (list Z);
  sp_scheme : option (list Z);
  sp_path : option (list Z);
  sp_authority : option (list Z);
  sp_regular : list Field;
  seen_regular : bool;
}.

Definition split_start : Split :=
  {| sp_method := None; sp_scheme := None; sp_path := None; sp_authority := None; sp_regular := [];
     seen_regular := false |}.

(** The body of the loop; [None] is its [return None]. *)
Definition split_field (s : Split) (f : Field) : option Split :=
  let '(name, value) := f in
  if bool_decide (hd_error name = Some 0x3a) then
    if seen_regular s then None
    else if bytes_eqb name (bs ":method") then
      if bool_decide (is_Some (sp_method s)) then None
      else Some {| sp_method := Some value; sp_scheme := sp_scheme s; sp_path := sp_path s;
                   sp_authority := sp_authority s; sp_regular := sp_regular s; seen_regular := false |}
    else if bytes_eqb name (bs ":scheme") then
      if bool_decide (is_Some (sp_scheme s)) then None
      else Some {| sp_method := sp_method s; sp_scheme := Some value; sp_path := sp_path s;
                   sp_authority := sp_authority s; sp_regular := sp_regular s; seen_regular := false |}
    else if bytes_eqb name (bs ":path") then
      if bool_decide (is_Some (sp_path s)) then None
      else Some {| sp_method := sp_method s; sp_scheme := sp_scheme s; sp_path := Some value;
                   sp_authority := sp_authority s; sp_regular := sp_regular s; seen_regular := false |}
    else if bytes_eqb name (bs ":authority") then
      if bool_decide (is_Some (sp_authority s)) then None
      else Some {| sp_method := sp_method s; sp_scheme := sp_scheme s; sp_path := sp_path s;
                   sp_authority := Some value; sp_regular := sp_regular s; seen_regular := false |}
    else None
  else
    Some {| sp_method := sp_method s; sp_scheme := sp_scheme s; sp_path := sp_path s;
            sp_authority := sp_authority s; sp_regular := sp_regular s ++ [(name, value)];
            seen_regular := true |}.

Fixpoint split_fields (s : Split) (fs : list Field) : option Split :=
  match fs with
  | [] => Some s
  | f :: fs => s ← split_field s f; split_fields s fs
  end.

Definition split_h3_request_headers (fs : list Field) : option H3RequestHeaders :=
  s ← split_fields split_start fs;
  if negb (bool_decide (sp_scheme s = Some (bs "https"))) || bool_decide (sp_method s = Some (bs "CONNECT"))
  then None
  else
    m ← sp_method s;
    p ← sp_path s;
    Some {| method := m; path := p; authority := sp_authority s; regular := sp_regular s |}.

(** ** Fields and trailers *)

Definition is_ws (b : option Z) : bool :=
  match b with Some b => (b =? 0x20) || (b =? 0x09) | None => false end.

Definition edge_ws (value : list Z) : bool := is_ws (hd_error value) || is_ws (last value).

(** The closure of [valid_h3_trailers]. *)
Definition valid_trailer (f : Field) : bool :=
  let '(name, value) := f in
  if bool_decide (hd_error name = Some 0x3a) || existsb is_ascii_uppercase name then false
  else
    match header_name name with
    | Some n =>
        if header_value_ok value then
          negb (is_connection_specific_request_header n)
          && negb (bytes_eqb n (bs "te") && negb (eq_ignore_ascii_case value (bs "trailers")))
          && negb (edge_ws value)
        else false
    | None => false
    end.

Definition valid_h3_trailers (field : list Z) (max_field_section_size : Z) : bool :=
  match qpack_decode_limited field max_field_section_size with
  | Some (fs, _) => forallb valid_trailer fs
  | None => false
  end.

(** ** The request head *)

(** [http::request::Builder]: [b_uri] is [None] when the URI did not parse, which [body]
    reports. *)
Record Builder := {
  b_method : list Z;
  b_uri : option Uri;
  b_headers : HeaderMap;
}.

(** One turn of the loop over the regular fields: the headers so far and the Host. *)
Definition head_field (acc : HeaderMap * option (list Z)) (f : Field) :
    option (HeaderMap * option (list Z)) :=
  let '(hs, regular_host) := acc in
  let '(raw_name, value) := f in
  if existsb is_ascii_uppercase raw_name then None
  else
    match header_name raw_name with
    | None => None
    | Some name =>
        if negb (header_value_ok value) then None
        else if is_connection_specific_request_header name then None
        else if bytes_eqb name (bs "te") && negb (eq_ignore_ascii_case value (bs "trailers")) then None
        else if edge_ws value then None
        else if bytes_eqb name (bs "host") then
          if negb (header_value_is_str value) || negb (valid_http_authority value) then None
          else
            match regular_host with
            | Some _ => None
            | None => Some (hs, Some value)
            end
        else Some (append hs name value, regular_host)
    end.

Fixpoint head_fields (acc : HeaderMap * option (list Z)) (fs : list Field) :
    option (HeaderMap * option (list Z)) :=
  match fs with
  | [] => Some acc
  | f :: fs => acc ← head_field acc f; head_fields acc fs
  end.

(** The checks on [:path]. *)
Definition path_ok (path method : list Z) : bool :=
  utf8_valid path
  && negb (contains path 0x23 || negb (starts_with path (bs "/") || bytes_eqb path (bs "*")))
  && negb (starts_with path (bs "//"))
  && negb (bytes_eqb path (bs "*") && negb (bytes_eqb method (bs "OPTIONS"))).

(** The checks on [:authority]. *)
Definition authority_ok (authority : option (list Z)) : bool :=
  match authority with
  | Some raw => utf8_valid raw && valid_http_authority raw && header_value_ok raw
  | None => true
  end.

Definition build_h3_request_head (h : H3RequestHeaders) : option Builder :=
  if negb (method_ok (method h)) then None
  else if negb (path_ok (path h) (method h)) then None
  else if negb (authority_ok (authority h)) then None
  else
    '(hs, regular_host) ← head_fields ([], None) (regular h);
    host ←
      match authority h, regular_host with
      | Some a, Some host => if negb (bytes_eqb a host) then None else Some a
      | Some a, None => Some a
      | None, Some host => Some host
      | None, None => None
      end;
    Some {| b_method := method h; b_uri := uri_try_from (path h); b_headers := append hs (bs "host") host |}.

(** ** The request of a stream *)

Inductive Answer :=
| Reject (status : Z)
| Accept (req_method : list Z) (req_uri : Uri) (req_headers : HeaderMap) (req_body : list Z).

(** [handle_h3_request] up to the dispatch. [refused] is the mutual-TLS test; the body's
    lease is left out. *)
Definition decode_h3_request (refused : bool)
    (finished : option (ParsedH3Request * option DecodedFieldSection)) (limits : H3RequestLimits) : Answer :=
  if refused then Reject 403
  else
    match finished with
    | None => Reject 400
    | Some (parsed, decoded_head) =>
        if max_body_bytes limits <? zlen (parsed_body parsed) then Reject 400
        else
          match
            (match decoded_head with
             | Some d => Some d
             | None => qpack_decode_limited (parsed_field parsed) (max_header_bytes limits)
             end)
          with
          | None => Reject 400
          | Some (fields, initial_field_size) =>
              if match parsed_trailers parsed with
                 | Some field =>
                     negb (valid_h3_trailers field (saturating_sub (max_header_bytes limits) initial_field_size))
                 | None => false
                 end
              then Reject 400
              else
                match split_h3_request_headers fields with
                | None => Reject 400
                | Some head =>
                    match
                      codec.resolve_content_length
                        (snd <$> filter (fun f => f.1 = bs "content-length") (regular head))
                    with
                    | None => Reject 400
                    | Some declared =>
                        if match declared with
                           | Some cl => negb (cl =? zlen (parsed_body parsed))
                           | None => false
                           end
                        then Reject 400
                        else
                          match build_h3_request_head head with
                          | None => Reject 400
                          | Some b =>
                              match b_uri b with
                              | None => Reject 400
                              | Some u =>
                                  Accept (b_method b) u (coalesce_cookie_crumbs (b_headers b))
                                    (parsed_body parsed)
                              end
                          end
                    end
                end
          end
    end.

(** ** The response *)

(** [StatusCode::as_str] *)
Definition status_octets (status : Z) : list Z :=
  [0x30 + status / 100; 0x30 + status / 10 mod 10; 0x30 + status mod 10].

(** [h3_error] and [h3_payload_too_large]. *)
Definition h3_error (status : Z) : list Z := encode_h3_response (status_octets status) [] [].

Definition h3_payload_too_large : list Z :=
  encode_h3_response (status_octets 413) [(bs "content-length", bs "0")] [].

Definition prepare_h3_response_headers (hs : HeaderMap) (is_head : bool) (status : Z)
    (streaming_unknown_len : bool) : HeaderMap * bool :=
  (sanitize_h2_h3_body_headers (strip_hop_by_hop_response hs) is_head status streaming_unknown_len,
   response_body_forbidden is_head status).

(** What the bridge answers with: a whole body, or a stream of a known or unknown length. *)
Inductive BridgeBody :=
| BFull (data : list Z)
| BStream (len : option Z).

Inductive H3Body :=
| OFull (data : list Z)
| OStream (head : list Z).

(** [handle_h3_request] from the dispatch on. [max_field_section_size] is the peer's
    setting; [reserve] is whether the egress budget grants a number of octets. *)
Definition respond (is_head : bool) (status : Z) (hs : HeaderMap) (body : BridgeBody)
    (max_field_section_size : option Z) (reserve : Z → bool) : H3Body :=
  let hs :=
    match body with
    | BStream (Some n) => headers.insert hs (bs "content-length") (to_string n)
    | _ => hs
    end in
  let streaming_unknown_len := match body with BStream None => true | _ => false end in
  let '(hs, body_forbidden) := prepare_h3_response_headers hs is_head status streaming_unknown_len in
  let hs := header_iter hs in
  if match max_field_section_size with
     | Some limit => limit <? h3_field_section_size (status_octets status) hs
     | None => false
     end
  then OFull (h3_error 500)
  else
    match body with
    | BFull b =>
        let body := if body_forbidden then [] else b in
        let data := encode_h3_headers_frame (status_octets status) hs in
        let retained :=
          saturating_add (zlen data)
            (if bytes_eqb body [] then 0 else saturating_add (zlen body) 16) in
        if negb (reserve retained) then OFull (h3_error 503)
        else OFull (data ++ (if bytes_eqb body [] then [] else encode_h3_data_frame body))
    | BStream _ =>
        let head := encode_h3_headers_frame (status_octets status) hs in
        if negb (reserve (zlen head)) then OFull (h3_error 503)
        else if body_forbidden then OFull head
        else OStream head
    end.

(** The whole of [handle_h3_request]: [dispatch] is the bridge, [None] when it has no answer. *)
Definition handle_h3_request (refused : bool)
    (finished : option (ParsedH3Request * option DecodedFieldSection)) (limits : H3RequestLimits)
    (dispatch : list Z → Uri → HeaderMap → list Z → option (Z * HeaderMap * BridgeBody))
    (max_field_section_size : option Z) (reserve : Z → bool) : H3Body :=
  match decode_h3_request refused finished limits with
  | Reject status => OFull (h3_error status)
  | Accept m u hs body =>
      match dispatch m u hs body with
      | Some (status, headers, answer) =>
          respond (bytes_eqb m (bs "HEAD")) status headers answer max_field_section_size reserve
      | None => OFull (h3_error 502)
      end
  end.

End h3_request.

End h3_request.
