(* ===== verification/H3RequestTheorems.v ===== *)
(** * HTTP/3 requests and responses: what is accepted and what is sent

    The pseudo-header fields of an accepted head ([split_spec]), the request it becomes
    ([h3_head_exact]) and the frames a response is sent as ([h3_response_framed]). *)

From stdpp Require Import base list gmap strings.
From Stdlib Require Import ZArith Lia.
From S2P Require Import Prelude HpackInteger HuffmanDecode Qpack Net RustStr HttpUtil H1Codec H1Head H1HeadTheorems H3Frames H3FramesWire H3FramesTheorems H3Request.

Module h3_request_theorems.

Import headers http_util net qpack h3_frames h3_stream h3_request.

(** ** Pseudo-header fields *)

Definition pseudo (n : list Z) : Prop := hd_error n = Some 0x3a.

(** The four a request may have. *)
Record Quad := { q_method : option (list Z); q_scheme : option (list Z); q_path : option (list Z); q_authority : option (list Z) }.

Definition q_get (q : Quad) (n : list Z) : option (list Z) :=
  if bytes_eqb n (bs ":method") then q_method q
  else if bytes_eqb n (bs ":scheme") then q_scheme q
  else if bytes_eqb n (bs ":path") then q_path q
  else if bytes_eqb n (bs ":authority") then q_authority q
  else None.

Definition known (n : list Z) : bool :=
  bytes_eqb n (bs ":method") || bytes_eqb n (bs ":scheme") || bytes_eqb n (bs ":path") || bytes_eqb n (bs ":authority").

Definition q_set (q : Quad) (n : list Z) (v : option (list Z)) : Quad :=
  let 'Build_Quad m sc p a := q in
  if bytes_eqb n (bs ":method") then Build_Quad v sc p a
  else if bytes_eqb n (bs ":scheme") then Build_Quad m v p a
  else if bytes_eqb n (bs ":path") then Build_Quad m sc v a
  else Build_Quad m sc p v.

(** The fields are those pseudo-header fields, each once, and then regular fields. *)
Definition parted (fs : list Field) (q : Quad) (rs : list Field) : Prop :=
  ∃ ps, fs = ps ++ rs ∧ Forall (fun f => ¬ pseudo f.1) rs ∧ NoDup ps.*1 ∧
    ∀ n v, (n, v) ∈ ps ↔ q_get q n = Some v.

Ltac names := unfold q_get, q_set, known, bytes_eqb; repeat (case_bool_decide; subst); cbn [orb]; try done.

Lemma q_get_set q n v k : known n = true → q_get (q_set q n v) k = if bytes_eqb k n then v else q_get q k.
Proof. destruct q. names. Qed.

Lemma q_get_known q n v : q_get q n = Some v → known n = true ∧ pseudo n.
Proof. names. Qed.

Lemma q_ext q q' : (∀ n, q_get q n = q_get q' n) → q = q'.
Proof.
  intros E. destruct q, q'. f_equal;
    [exact (E (bs ":method"))|exact (E (bs ":scheme"))|exact (E (bs ":path"))|exact (E (bs ":authority"))].
Qed.

Lemma nodup_snoc (ps : list Field) (n v : list Z) :
  NoDup (ps ++ [(n, v)]).*1 ↔ NoDup ps.*1 ∧ n ∉ ps.*1.
Proof.
  rewrite fmap_app, NoDup_app. cbn. split.
  - intros (Hn & Hd & _). split; [done|]. intros Hin. apply (Hd n Hin). by apply list_elem_of_singleton.
  - intros [Hn Hd]. split_and!; [done| |apply NoDup_singleton]. by intros x Hx ->%list_elem_of_singleton.
Qed.

Lemma keys_get (ps : list Field) q n :
  (∀ n v, (n, v) ∈ ps ↔ q_get q n = Some v) → n ∉ ps.*1 ↔ q_get q n = None.
Proof.
  intros Hm. rewrite list_elem_of_fmap, eq_None_not_Some. apply not_iff_compat. split.
  - intros ([k v] & -> & Hin). exists v. by apply Hm.
  - intros [v Hv%Hm]. by exists (n, v).
Qed.

(** One more field. *)
Lemma parted_regular fs q rs n v : ¬ pseudo n → parted fs q rs → parted (fs ++ [(n, v)]) q (rs ++ [(n, v)]).
Proof.
  intros Hn (ps & -> & Hr & Hd & Hm). exists ps. rewrite <- app_assoc. split_and!; [done| |done|done].
  apply Forall_app. split; [done|]. by repeat constructor.
Qed.

Lemma parted_pseudo fs q n v :
  known n = true → q_get q n = None → parted fs q [] → parted (fs ++ [(n, v)]) (q_set q n (Some v)) [].
Proof.
  intros Hk Hg (ps & -> & Hr & Hd & Hm). exists (ps ++ [(n, v)]). rewrite !app_nil_r. split_and!; [done|constructor| |].
  - apply nodup_snoc. split; [done|]. by apply (keys_get ps q).
  - intros k w. rewrite q_get_set by done. rewrite elem_of_app, list_elem_of_singleton, Hm. unfold bytes_eqb.
    case_bool_decide; subst; split; [intros [?|[= <-]]; [congruence|done]|intros [= <-]; by right|
      intros [?|[= -> <-]]; done|by left].
Qed.

Lemma parted_snoc fs n v q rs :
  parted (fs ++ [(n, v)]) q rs →
  (∃ rs', rs = rs' ++ [(n, v)] ∧ ¬ pseudo n ∧ parted fs q rs') ∨
  (rs = [] ∧ known n = true ∧ pseudo n ∧ q_get q n = Some v ∧ parted fs (q_set q n None) []).
Proof.
  intros (ps & E & Hr & Hd & Hm). induction rs as [|f rs' _] using rev_ind.
  - right. rewrite app_nil_r in E. subst ps. apply nodup_snoc in Hd as [Hd Hn].
    assert (Hg : q_get q n = Some v) by (apply Hm, elem_of_app; right; by apply list_elem_of_singleton).
    destruct (q_get_known _ _ _ Hg) as [Hk Hp]. split_and!; [done..|]. exists fs. rewrite app_nil_r.
    split_and!; [done|constructor|done|]. intros k w. rewrite q_get_set by done.
    pose proof (Hm k w) as Hkw. rewrite elem_of_app, list_elem_of_singleton in Hkw. unfold bytes_eqb. case_bool_decide as Hc.
    + subst k. split; [|done]. intros Hin. destruct Hn. apply list_elem_of_fmap. by exists (n, w).
    + rewrite <- Hkw. split; [by left|]. intros [?|[= -> _]]; done.
  - left. rewrite app_assoc in E. apply app_inj_tail in E as [-> <-]. apply Forall_app in Hr as [Hr Hn].
    exists rs'. split_and!; [done|by inversion Hn|]. by exists ps.
Qed.

(** The variables of the loop. *)
Definition state_of (q : Quad) (rs : list Field) : Split :=
  {| sp_method := q_method q; sp_scheme := q_scheme q; sp_path := q_path q; sp_authority := q_authority q;
     sp_regular := rs; seen_regular := negb (bool_decide (rs = [])) |}.

Lemma split_field_spec q rs n v :
  split_field (state_of q rs) (n, v) =
  if bool_decide (hd_error n = Some 0x3a) then
    if bool_decide (rs = []) && known n && bool_decide (q_get q n = None)
    then Some (state_of (q_set q n (Some v)) []) else None
  else Some (state_of q (rs ++ [(n, v)])).
Proof.
  unfold split_field. cbn [seen_regular state_of sp_method sp_scheme sp_path sp_authority sp_regular].
  destruct (bool_decide (hd_error n = Some 0x3a)).
  - destruct (bool_decide_reflect (rs = [])) as [->|Hrs]; [|done]. cbn [negb andb].
    destruct q as [m sc p a]. unfold q_get, q_set, known, bytes_eqb.
    destruct (decide (n = bs ":method")) as [->|H1]; [by destruct m|].
    destruct (decide (n = bs ":scheme")) as [->|H2]; [by destruct sc|].
    destruct (decide (n = bs ":path")) as [->|H3]; [by destruct p|].
    destruct (decide (n = bs ":authority")) as [->|H4]; [by destruct a|].
    by rewrite !bool_decide_eq_false_2 by done.
  - f_equal. unfold state_of. f_equal. rewrite bool_decide_eq_false_2; [done|]. by destruct rs.
Qed.

Lemma split_fields_snoc s fs f : split_fields s (fs ++ [f]) = s' ← split_fields s fs; split_field s' f.
Proof.
  revert s. induction fs as [|g fs IH]; intros s; cbn [app split_fields].
  - cbn [mbind option_bind]. by destruct (split_field s f).
  - destruct (split_field s g); [apply IH|done].
Qed.

(** The loop computes the parts, and of all the fields that have them. *)
Lemma split_fields_sound fs s : split_fields split_start fs = Some s → ∃ q rs, s = state_of q rs ∧ parted fs q rs.
Proof.
  revert s. induction fs as [|[n v] fs IH] using rev_ind; intros s.
  { intros [= <-]. exists (Build_Quad None None None None), []. split; [done|]. exists [].
    split_and!; [done|constructor|constructor|]. intros n v. split; [by intros ?%not_elem_of_nil|]. names. }
  rewrite split_fields_snoc. destruct (split_fields _ fs) as [s0|]; [|done]. cbn [mbind option_bind].
  destruct (IH s0 eq_refl) as (q & rs & -> & Hp). rewrite split_field_spec. case_bool_decide as Hc.
  - case_bool_decide; [|done]. destruct (known n) eqn:Hk; [|done]. case_bool_decide; [|done]. intros [= <-]. subst rs.
    eexists _, _. split; [done|]. by apply parted_pseudo.
  - intros [= <-]. eexists _, _. split; [done|]. by apply parted_regular.
Qed.

Lemma split_fields_complete fs q rs : parted fs q rs → split_fields split_start fs = Some (state_of q rs).
Proof.
  revert q rs. induction fs as [|[n v] fs IH] using rev_ind; intros q rs Hp.
  { destruct Hp as (ps & E & _ & _ & Hm). symmetry in E. apply app_nil in E as [-> ->]. cbn [split_fields].
    replace q with (Build_Quad None None None None); [done|]. apply q_ext. intros n. symmetry.
    transitivity (@None (list Z)); [|names]. destruct (q_get q n) eqn:E; [|done]. apply Hm in E. by apply not_elem_of_nil in E. }
  rewrite split_fields_snoc. apply parted_snoc in Hp as [(rs' & -> & Hn & Hq)|(-> & Hk & Hp & Hg & Hq)];
    rewrite (IH _ _ Hq); cbn [mbind option_bind]; rewrite split_field_spec.
  - by rewrite bool_decide_eq_false_2.
  - assert (Hnone : q_get (q_set q n None) n = None)
      by (rewrite q_get_set by done; unfold bytes_eqb; by rewrite bool_decide_eq_true_2).
    rewrite (bool_decide_eq_true_2 _ Hp), (bool_decide_eq_true_2 _ eq_refl), (bool_decide_eq_true_2 _ Hnone), Hk.
    cbn [andb]. do 2 f_equal. apply q_ext. intros k. rewrite !q_get_set by done. unfold bytes_eqb.
    case_bool_decide; by subst.
Qed.

Lemma split_spec fs h :
  split_h3_request_headers fs = Some h ↔
  parted fs {| q_method := Some (method h); q_scheme := Some (bs "https"); q_path := Some (path h);
               q_authority := authority h |} (regular h) ∧
  method h ≠ bs "CONNECT".
Proof.
  unfold split_h3_request_headers. split.
  - destruct (split_fields split_start fs) as [s|] eqn:E; [|done]. cbn [mbind option_bind].
    destruct (split_fields_sound _ _ E) as ([m sc p a] & rs & -> & Hp). cbn [state_of sp_method sp_scheme sp_path sp_authority sp_regular q_method q_scheme q_path q_authority].
    destruct (bool_decide_reflect (sc = Some (bs "https"))) as [->|]; [|done]. cbn [negb orb].
    case_bool_decide as Hc; [done|]. destruct m as [m|]; [|done]. destruct p as [p|]; [|done].
    cbn [mbind option_bind]. intros [= <-]. cbn [method path authority regular].
    split; [done|]. congruence.
  - intros [Hp Hm]. rewrite (split_fields_complete _ _ _ Hp). cbn [mbind option_bind].
    cbn [state_of sp_method sp_scheme sp_path sp_authority sp_regular q_method q_scheme q_path q_authority].
    rewrite bool_decide_eq_true_2, bool_decide_eq_false_2 by congruence. cbn. by destruct h.
Qed.


(** ** Fields *)

Section request.
Context `{Http : HttpCrate, Laws : !HttpLaws}.

(** A field of RFC 9114 section 4.2. *)
Record field_valid (f : Field) : Prop := {
  fv_name : header_name f.1 = Some f.1;
  fv_lower : existsb is_ascii_uppercase f.1 = false;
  fv_value : header_value_ok f.2 = true;
  fv_connection : is_connection_specific_request_header f.1 = false;
  fv_te : f.1 = bs "te" → eq_ignore_ascii_case f.2 (bs "trailers") = true;
  fv_space : edge_ws f.2 = false;
}.

Lemma lower_already n : existsb is_ascii_uppercase n = false → to_ascii_lowercase n = n.
Proof.
  induction n as [|b n IH]; [done|]. cbn [existsb]. rewrite orb_false_iff. intros [Hb Hn].
  unfold to_ascii_lowercase in *. cbn [fmap list_fmap]. rewrite (IH Hn). f_equal. unfold to_ascii_lowercase_u8. by rewrite Hb.
Qed.

(** The tests of the two loops are [field_valid]. *)
Lemma field_tests n v {A} (k : option A) :
  (if existsb is_ascii_uppercase n then None
   else match header_name n with
        | None => None
        | Some name =>
            if negb (header_value_ok v) then None
            else if is_connection_specific_request_header name then None
            else if bytes_eqb name (bs "te") && negb (eq_ignore_ascii_case v (bs "trailers")) then None
            else if edge_ws v then None else k
        end) = None ∨ field_valid (n, v).
Proof.
  destruct (existsb is_ascii_uppercase n) eqn:E1; [by left|].
  destruct (header_name n) as [name|] eqn:E2; [|by left].
  assert (name = n) as -> by (apply header_name_lower in E2; by rewrite lower_already in E2).
  destruct (header_value_ok v) eqn:E3; [|by left]. destruct (is_connection_specific_request_header n) eqn:E4; [by left|].
  destruct (bytes_eqb n (bs "te") && _) eqn:E5; [by left|]. destruct (edge_ws v) eqn:E6; [by left|].
  right. split; try done. cbn [fst snd]. intros ->. by destruct (eq_ignore_ascii_case v (bs "trailers")).
Qed.

Definition host_ok (v : list Z) : Prop := header_value_is_str v = true ∧ valid_http_authority v = true.

Lemma head_field_spec hs rh n v acc :
  head_field (hs, rh) (n, v) = Some acc ↔
  field_valid (n, v) ∧
  (if decide (n = bs "host") then host_ok v ∧ rh = None ∧ acc = (hs, Some v) else acc = (hs ++ [(n, v)], rh)).
Proof.
  split.
  - intros E. destruct (field_tests n v (Some tt)) as [Ht|Hv].
    { exfalso. revert E Ht. unfold head_field. by repeat case_match. }
    split; [done|]. revert E. destruct Hv as [H1 H2 H3 H4 H5 H6]. cbn [fst snd] in *. unfold head_field.
    rewrite H2, H1, H3, H4, H6. cbn [negb].
    replace (bytes_eqb n (bs "te") && _) with false; [|symmetry; unfold bytes_eqb; case_bool_decide; [by rewrite H5|done]].
    unfold bytes_eqb. destruct (decide (n = bs "host")) as [->|Hn].
    + rewrite bool_decide_eq_true_2 by done. unfold host_ok. destruct (header_value_is_str v), (valid_http_authority v); try done.
      cbn. destruct rh; [done|]. by intros [= <-].
    + rewrite bool_decide_eq_false_2 by done. by intros [= <-].
  - intros [[H1 H2 H3 H4 H5 H6] Ha]. cbn [fst snd] in *. unfold head_field. rewrite H2, H1, H3, H4, H6. cbn [negb].
    replace (bytes_eqb n (bs "te") && _) with false; [|symmetry; unfold bytes_eqb; case_bool_decide; [by rewrite H5|done]].
    unfold bytes_eqb. destruct (decide (n = bs "host")) as [->|Hn].
    + destruct Ha as ([E1 E2] & -> & ->). rewrite bool_decide_eq_true_2 by done. by rewrite E1, E2.
    + by rewrite bool_decide_eq_false_2, Ha by done.
Qed.

Definition others (fs : list Field) : list Field := filter (fun f => f.1 ≠ bs "host") fs.

Lemma head_fields_spec fs hs rh acc :
  head_fields (hs, rh) fs = Some acc ↔
  Forall field_valid fs ∧ Forall host_ok (get_all fs (bs "host")) ∧
  (length (option_list rh ++ get_all fs (bs "host")) <= 1)%nat ∧
  acc = (hs ++ others fs, hd_error (option_list rh ++ get_all fs (bs "host"))).
Proof.
  revert hs rh. induction fs as [|[n v] fs IH]; intros hs rh; cbn [head_fields].
  { unfold others. rewrite filter_nil, app_nil_r. change (get_all [] (bs "host")) with (@nil (list Z)). rewrite app_nil_r.
    split; [intros [= <-]; split_and!; [constructor|constructor|destruct rh; cbn; lia|by destruct rh]|].
    intros (_ & _ & _ & ->). by destruct rh. }
  rewrite get_all_cons. unfold others. rewrite filter_cons. cbn [fst]. fold (others fs). rewrite Forall_cons.
  destruct (head_field (hs, rh) (n, v)) as [[hs' rh']|] eqn:E; cbn [mbind option_bind].
  - apply head_field_spec in E as [Hv E]. rewrite IH. destruct (decide (n = bs "host")) as [->|Hn].
    + destruct E as (Hh & -> & [= -> ->]). rewrite decide_False by tauto. cbn [option_list app].
      rewrite (Forall_cons host_ok). tauto.
    + injection E as -> ->. rewrite decide_True by done. rewrite <- app_assoc. cbn [app]. tauto.
  - split; [done|]. intros ([Hv _] & Hh & Hl & _). enough (head_field (hs, rh) (n, v) ≠ None) by done.
    destruct (decide (n = bs "host")) as [->|Hn].
    + cbn [app] in Hh, Hl. apply Forall_cons in Hh as [Hh _]. rewrite length_app in Hl. cbn [length] in Hl.
      assert (rh = None) as -> by (destruct rh; [cbn in Hl; lia|done]).
      rewrite (proj2 (head_field_spec hs None (bs "host") v (hs, Some v))); [done|]. by rewrite decide_True.
    + rewrite (proj2 (head_field_spec hs rh n v (hs ++ [(n, v)], rh))); [done|]. by rewrite decide_False.
Qed.

Lemma valid_trailer_spec f : valid_trailer f = true ↔ field_valid f ∧ ¬ pseudo f.1.
Proof.
  destruct f as [n v]. unfold valid_trailer, pseudo. cbn [fst]. case_bool_decide as Hp; cbn [orb]; [naive_solver|].
  split.
  - intros E. split; [|done]. destruct (field_tests n v (Some tt)) as [Ht|Hv]; [|done].
    exfalso. revert E Ht. repeat case_match; cbn [negb andb]; try done.
  - intros [[H1 H2 H3 H4 H5 H6] _]. cbn [fst snd] in *. rewrite H2, H1, H3, H4, H6. cbn [negb andb].
    unfold bytes_eqb. case_bool_decide; [by rewrite H5|done].
Qed.

(** A path, or the asterisk of OPTIONS; no fragment, and no network-path reference. *)
Definition path_shape (p m : list Z) : Prop :=
  0x23 ∉ p ∧ ((∃ r, p = 0x2f :: r ∧ hd_error r ≠ Some 0x2f) ∨ p = bs "*" ∧ m = bs "OPTIONS").

Lemma path_ok_spec p m : path_ok p m = true ↔ utf8_valid p = true ∧ path_shape p m.
Proof.
  unfold path_ok, path_shape. rewrite !andb_true_iff, !negb_true_iff, orb_false_iff, negb_false_iff, contains_false.
  enough (starts_with p (bs "/") || bytes_eqb p (bs "*") = true ∧ starts_with p (bs "//") = false ∧
    bytes_eqb p (bs "*") && negb (bytes_eqb m (bs "OPTIONS")) = false ↔
    (∃ r, p = 0x2f :: r ∧ hd_error r ≠ Some 0x2f) ∨ p = bs "*" ∧ m = bs "OPTIONS") by tauto.
  unfold bytes_eqb. destruct (decide (p = bs "*")) as [->|Hp].
  - change (starts_with (bs "*") (bs "/")) with false. change (starts_with (bs "*") (bs "//")) with false.
    rewrite (bool_decide_eq_true_2 (bs "*" = bs "*")) by done. case_bool_decide as Hm; cbn [orb andb negb].
    + split; [intros _; by right|done].
    + split; [by intros (_ & _ & ?)|]. by intros [(r & ? & _)|[_ ?]].
  - rewrite (bool_decide_eq_false_2 _ Hp), orb_false_r, andb_false_l.
    change (bs "/") with [0x2f]. change (bs "//") with [0x2f; 0x2f]. unfold starts_with.
    destruct p as [|b p]; [naive_solver|]. cbn [strip_prefix]. destruct (Z.eqb_spec 0x2f b) as [<-|Hb]; [|naive_solver].
    destruct p as [|c p]; cbn [strip_prefix hd_error]; [naive_solver|].
    destruct (Z.eqb_spec 0x2f c) as [<-|Hc]; naive_solver.
Qed.

(** The Host of a request: [:authority] if there is one, and the Host field agrees. *)
Definition host_of (a : option (list Z)) (hosts : list (list Z)) (host : list Z) : Prop :=
  match a with
  | Some x => host = x ∧ (hosts = [] ∨ hosts = [x])
  | None => hosts = [host]
  end.

Lemma build_exact h b :
  build_h3_request_head h = Some b ↔
  method_ok (method h) = true ∧ utf8_valid (path h) = true ∧ path_shape (path h) (method h) ∧
  authority_ok (authority h) = true ∧ Forall field_valid (regular h) ∧
  Forall host_ok (get_all (regular h) (bs "host")) ∧
  ∃ host, host_of (authority h) (get_all (regular h) (bs "host")) host ∧
    b = {| b_method := method h; b_uri := uri_try_from (path h);
           b_headers := others (regular h) ++ [(bs "host", host)] |}.
Proof.
  unfold build_h3_request_head. pose proof (path_ok_spec (path h) (method h)) as Hp.
  destruct (method_ok (method h)); [|naive_solver]. destruct (path_ok (path h) (method h)); [|naive_solver].
  destruct (authority_ok (authority h)); [|naive_solver]. cbn [negb]. destruct (proj1 Hp eq_refl) as [Hu Hs].
  set (hosts := get_all (regular h) (bs "host")). split.
  - destruct (head_fields ([], None) (regular h)) as [[hs rh]|] eqn:E; [|done]. cbn [mbind option_bind].
    apply head_fields_spec in E as (Hv & Ho & Hl & [= -> ->]). cbn [option_list app] in *. fold hosts in Ho, Hl |- *.
    intros Eb. split_and!; try done. revert Eb. destruct hosts as [|v [|v' vs]]; [| |cbn in Hl; lia]; cbn [hd_error].
    + destruct (authority h) as [a|]; [|done]. cbn. intros [= <-]. exists a. by split; [split; [|left]|].
    + destruct (authority h) as [a|]; [|cbn; intros [= <-]; by exists v].
      unfold bytes_eqb. case_bool_decide; [subst v|done]. cbn. intros [= <-]. exists a. by split; [split; [|right]|].
  - intros (_ & _ & _ & _ & Hv & Ho & host & Hh & ->).
    assert (Hl : (length hosts <= 1)%nat) by (unfold host_of in Hh; destruct (authority h); [destruct Hh as [_ [-> | ->]]|rewrite Hh]; cbn; lia).
    rewrite (proj2 (head_fields_spec (regular h) [] None (others (regular h), hd_error hosts))) by done.
    cbn [mbind option_bind]. unfold host_of in Hh. destruct (authority h) as [a|].
    + destruct Hh as [-> [-> | ->]]; cbn [hd_error]; [done|]. unfold bytes_eqb. by rewrite bool_decide_eq_true_2.
    + by rewrite Hh.
Qed.

(** The field section of the head, decoded on the way or now. *)
Definition decoded (parsed : ParsedH3Request) (hd : option DecodedFieldSection) (limit : Z) : option DecodedFieldSection :=
  match hd with Some d => Some d | None => qpack_decode_limited (parsed_field parsed) limit end.

(** The trailers, if any, are regular fields within what the head left of the limit. *)
Definition trailers_ok (trailers : option (list Z)) (limit : Z) : Prop :=
  ∀ t, trailers = Some t → ∃ fs size, qpack_decode_limited t limit = Some (fs, size) ∧
    Forall (fun f => field_valid f ∧ ¬ pseudo f.1) fs.

Lemma trailers_spec trailers limit :
  match trailers with Some field => negb (valid_h3_trailers field limit) | None => false end = false ↔
  trailers_ok trailers limit.
Proof.
  unfold trailers_ok. destruct trailers as [t|]; [|by split]. rewrite negb_false_iff. unfold valid_h3_trailers.
  assert (Hall : ∀ fs, forallb valid_trailer fs = true ↔ Forall (fun f => field_valid f ∧ ¬ pseudo f.1) fs).
  { intros fs. rewrite forallb_forall, Forall_forall. setoid_rewrite list_elem_of_In. by setoid_rewrite valid_trailer_spec. }
  destruct (qpack_decode_limited t limit) as [[fs size]|] eqn:E; cycle 1.
  { split; [done|]. intros Ht. destruct (Ht t eq_refl) as (? & ? & Hd & _). by rewrite E in Hd. }
  rewrite Hall. split.
  - intros Hf t' [= <-]. by exists fs, size.
  - intros Ht. destruct (Ht t eq_refl) as (fs' & size' & Hd & Hf). rewrite E in Hd. by injection Hd as -> ->.
Qed.

(** A well-formed request: [p] is its [:path], [a] its [:authority], [rs] its regular fields. *)
Record well_formed (parsed : ParsedH3Request) (hd : option DecodedFieldSection) (limits : H3RequestLimits)
    (m p : list Z) (a : option (list Z)) (rs : list Field) (host : list Z) : Prop := {
  wf_decoded : ∃ fields size,
    decoded parsed hd (max_header_bytes limits) = Some (fields, size) ∧
    trailers_ok (parsed_trailers parsed) (saturating_sub (max_header_bytes limits) size) ∧
    parted fields {| q_method := Some m; q_scheme := Some (bs "https"); q_path := Some p; q_authority := a |} rs;
  wf_body : zlen (parsed_body parsed) <= max_body_bytes limits;
  wf_method : method_ok m = true ∧ m ≠ bs "CONNECT";
  wf_path : utf8_valid p = true ∧ path_shape p m;
  wf_authority : authority_ok a = true;
  wf_fields : Forall field_valid rs;
  wf_hosts : Forall host_ok (get_all rs (bs "host"));
  wf_host : host_of a (get_all rs (bs "host")) host;
  wf_length : head_theorems.agreed (zlen (parsed_body parsed)) (get_all rs (bs "content-length"));
}.

(** The length test. *)
Lemma length_spec vs n :
  match codec.resolve_content_length vs with
  | None => true
  | Some declared => match declared with Some cl => negb (cl =? n) | None => false end
  end = false ↔ head_theorems.agreed n vs.
Proof.
  pose proof (head_theorems.resolve_spec vs) as Hr. destruct (codec.resolve_content_length vs) as [[k|]|].
  - destruct Hr as [Hne Ha]. rewrite negb_false_iff, Z.eqb_eq. split; [by intros <-|].
    by apply head_theorems.agreed_unique.
  - subst vs. split; [constructor|done].
  - split; [done|]. intros Ha. by destruct (proj2 Hr n).
Qed.

Lemma others_get fs k : k ≠ bs "host" → get_all (others fs) k = get_all fs k.
Proof. intros Hk. change (others fs) with (headers.remove fs (bs "host")). by rewrite get_all_remove, decide_False. Qed.

Lemma others_host fs : get_all (others fs) (bs "host") = [].
Proof. change (others fs) with (headers.remove fs (bs "host")). by rewrite get_all_remove, decide_True. Qed.

Definition trailers_bad (trailers : option (list Z)) (limit : Z) : bool :=
  match trailers with Some field => negb (valid_h3_trailers field limit) | None => false end.

Definition length_bad (vs : list (list Z)) (n : Z) : bool :=
  match codec.resolve_content_length vs with
  | None => true
  | Some declared => match declared with Some cl => negb (cl =? n) | None => false end
  end.

(** The handler, its tests one by one. *)
Lemma decode_chain parsed hd limits m u hs body :
  decode_h3_request false (Some (parsed, hd)) limits = Accept m u hs body ↔
  zlen (parsed_body parsed) <= max_body_bytes limits ∧ body = parsed_body parsed ∧
  ∃ fields size h b,
    decoded parsed hd (max_header_bytes limits) = Some (fields, size) ∧
    trailers_bad (parsed_trailers parsed) (saturating_sub (max_header_bytes limits) size) = false ∧
    split_h3_request_headers fields = Some h ∧
    length_bad (get_all (regular h) (bs "content-length")) (zlen (parsed_body parsed)) = false ∧
    build_h3_request_head h = Some b ∧
    b_uri b = Some u ∧ m = b_method b ∧ hs = coalesce_cookie_crumbs (b_headers b).
Proof.
  unfold decode_h3_request. fold (decoded parsed hd (max_header_bytes limits)). split.
  - destruct (Z.ltb_spec (max_body_bytes limits) (zlen (parsed_body parsed))) as [Hb|Hb]; [done|].
    destruct (decoded parsed hd (max_header_bytes limits)) as [[fields size]|]; [|done].
    fold (trailers_bad (parsed_trailers parsed) (saturating_sub (max_header_bytes limits) size)).
    destruct (trailers_bad _ _) eqn:Et; [done|]. destruct (split_h3_request_headers fields) as [h|] eqn:Es; [|done].
    unfold get_all. intros E. split; [done|].
    destruct (codec.resolve_content_length _) as [declared|] eqn:Er; [|done].
    destruct (match declared with Some cl => _ | None => _ end) eqn:El; [done|].
    destruct (build_h3_request_head h) as [b|] eqn:Eb; [|done]. destruct (b_uri b) as [u'|] eqn:Eu; [|done].
    injection E as <- <- <- <-. split; [done|]. exists fields, size, h, b. split_and!; try done.
    unfold length_bad. by rewrite Er.
  - intros (Hb & -> & fields & size & h & b & -> & Et & -> & El & -> & -> & -> & ->).
    rewrite (proj2 (Z.ltb_ge _ _) Hb). unfold trailers_bad in Et. rewrite Et. unfold length_bad, get_all in El.
    destruct (codec.resolve_content_length _) as [declared|]; [|done]. by rewrite El.
Qed.

Lemma decode_request_spec parsed hd limits m u hs body :
  decode_h3_request false (Some (parsed, hd)) limits = Accept m u hs body ↔
  ∃ p a rs host, well_formed parsed hd limits m p a rs host ∧ uri_try_from p = Some u ∧
    hs = coalesce_cookie_crumbs (others rs ++ [(bs "host", host)]) ∧ body = parsed_body parsed.
Proof.
  rewrite decode_chain. split.
  - intros (Hb & Ebody & fields & size & h & b & Ed & Et & Es & El & Eb & Eu & Em & Eh).
    apply trailers_spec in Et. apply split_spec in Es as [Hp Hm]. apply length_spec in El.
    apply build_exact in Eb as (H1 & H2 & H3 & H4 & H5 & H6 & host & H7 & ->). cbn [b_method b_uri b_headers] in *. subst m.
    exists (path h), (authority h), (regular h), host. split_and!; try done. split; try done. by exists fields, size.
  - intros (p & a & rs & host & [(fields & size & Ed & Et & Hp) Hb [H1 Hm] [H2 H3] H4 H5 H6 H7 Hl] & Hu & -> & ->).
    split; [done|]. split; [done|]. set (h := Build_H3RequestHeaders m p a rs).
    exists fields, size, h, (Build_Builder m (uri_try_from p) (others rs ++ [(bs "host", host)])).
    split_and!; [done|by apply trailers_spec|by apply split_spec|by apply length_spec| |done..].
    apply build_exact. split_and!; try done. by exists host.
Qed.

(** C13. A finished HTTP/3 stream becomes a request exactly when its head is well formed:
    each pseudo-header field once and before the others, https, no CONNECT, a valid path,
    valid fields, a Host that agrees with the authority, lengths that are the body's, valid
    trailers; the request then has exactly one valid Host, no connection-specific field and
    the body received. *)
Theorem h3_head_exact parsed hd limits m u hs body :
  (decode_h3_request false (Some (parsed, hd)) limits = Accept m u hs body ↔
   ∃ p a rs host, well_formed parsed hd limits m p a rs host ∧ uri_try_from p = Some u ∧
     hs = coalesce_cookie_crumbs (others rs ++ [(bs "host", host)]) ∧ body = parsed_body parsed) ∧
  (decode_h3_request false (Some (parsed, hd)) limits = Accept m u hs body →
   (∃ host, get_all hs (bs "host") = [host] ∧ valid_http_authority host = true) ∧
   head_theorems.agreed (zlen body) (get_all hs (bs "content-length")) ∧
   ∀ k, is_connection_specific_request_header k = true → get_all hs k = []).
Proof.
  split; [apply decode_request_spec|]. rewrite decode_request_spec.
  intros (p & a & rs & host & [_ _ _ _ H4 H5 H6 H7 Hl] & _ & -> & ->).
  assert (Hg : ∀ k, k ≠ bs "cookie" → k ≠ bs "host" →
    get_all (coalesce_cookie_crumbs (others rs ++ [(bs "host", host)])) k = get_all rs k).
  { intros k Hk Hh. rewrite head_theorems.coalesce_other by done. fold (append (others rs) (bs "host") host).
    by rewrite get_all_append, decide_False, app_nil_r, others_get by done. }
  split_and!.
  - exists host. rewrite head_theorems.coalesce_other by done. fold (append (others rs) (bs "host") host).
    rewrite get_all_append, others_host, decide_True by done. split; [done|]. unfold host_of in H7. destruct a as [a|].
    + destruct H7 as [-> _]. unfold authority_ok in H4. by apply andb_true_iff in H4 as [[_ Hv]%andb_true_iff _].
    + rewrite H7 in H6. inversion H6 as [|? ? [_ Hv]]. done.
  - by rewrite Hg.
  - intros k Hk. rewrite Hg by (intros ->; done). destruct (get_all rs k) as [|v vs] eqn:E; [done|].
    assert (Hin : v ∈ get_all rs k) by (rewrite E; left). unfold get_all in Hin.
    apply list_elem_of_fmap in Hin as ([k' v'] & -> & [Hk' Hin]%list_elem_of_filter). cbn in Hk'. subst k'.
    rewrite Forall_forall in H5. pose proof (fv_connection _ (H5 _ Hin)) as Hc. cbn [fst] in Hc. congruence.
Qed.

End request.

(** A POST with a body and a Host that repeats [:authority]. *)
Definition example_fields : list Field :=
  [(bs ":method", bs "POST"); (bs ":scheme", bs "https"); (bs ":path", bs "/a"); (bs ":authority", bs "h");
   (bs "host", bs "h"); (bs "content-length", bs "2")].

Definition example_parsed : ParsedH3Request :=
  {| parsed_field := []; parsed_body := bs "ok"; parsed_trailers := None |}.

Definition example_limits : H3RequestLimits := limits_new 4096 4096.

Lemma h3_head_exact_witness :
  ∃ hs, @decode_h3_request http_ascii false (Some (example_parsed, Some (example_fields, 300))) example_limits =
      @Accept http_ascii (bs "POST") (bs "/a") hs (bs "ok") ∧
    ∃ host, get_all hs (bs "host") = [host] ∧ valid_http_authority host = true.
Proof.
  eexists. split; [vm_cast_no_check (@eq_refl _ (@Accept http_ascii (bs "POST") (bs "/a") [(bs "content-length", bs "2"); (bs "host", bs "h")] (bs "ok")))|].
  refine (proj1 (proj2 (@h3_head_exact http_ascii http_ascii_laws example_parsed (Some (example_fields, 300)) example_limits
    (bs "POST") (bs "/a") [(bs "content-length", bs "2"); (bs "host", bs "h")] (bs "ok")) _)).
  vm_cast_no_check (@eq_refl _ (@Accept http_ascii (bs "POST") (bs "/a") [(bs "content-length", bs "2"); (bs "host", bs "h")] (bs "ok"))).
Defined.

(** ** Responses *)

Section response.
Context `{Http : HttpCrate}.

(** [HeaderMap::iter] yields fields of the map. *)
Hypothesis iter_fields : ∀ m f, f ∈ header_iter m → f ∈ m.

#[local] Opaque field_section write_varint status_octets.

(** What a response consists of on the stream: its head, and the DATA there is already. *)
Definition sent (out : H3Body) (section body : list Z) : Prop :=
  match out with
  | OFull data => stream_wire ((1, section) :: (if bytes_eqb body [] then [] else [(0, body)])) data
  | OStream data => stream_wire [(1, section)] data ∧ body = []
  end.

(** The fields a response is sent with. *)
Definition final_headers (is_head : bool) (status : Z) (hs : HeaderMap) (answer : BridgeBody) : list Field :=
  let hs := match answer with BStream (Some n) => headers.insert hs (bs "content-length") (to_string n) | _ => hs end in
  header_iter
    (fst (prepare_h3_response_headers hs is_head status (match answer with BStream None => true | _ => false end))).

Lemma sanitize_elem m is_head status unknown f : f ∈ sanitize_h2_h3_body_headers m is_head status unknown →
  f ∈ m ∨ f.1 = bs "content-length".
Proof.
  unfold sanitize_h2_h3_body_headers. repeat case_match; try (by left).
  all: try (intros [? _]%remove_elem; by left).
  unfold headers.insert, append. intros [Hf| ->%list_elem_of_singleton]%elem_of_app; [left|by right].
  by apply remove_elem in Hf as [[? _]%remove_elem _].
Qed.

Lemma final_headers_clean is_head status hs answer : Forall (fun f => f.1 ∉ hop_by_hop) (final_headers is_head status hs answer).
Proof.
  apply Forall_forall. intros f Hf%iter_fields. unfold prepare_h3_response_headers in Hf. cbn [fst] in Hf.
  apply sanitize_elem in Hf as [(_ & _ & ?)%strip_hop_by_hop_exact| ->]; [done|].
  by apply (bool_decide_unpack (bs "content-length" ∉ hop_by_hop)).
Qed.

Lemma status_sent status hs b :
  zlen (field_section ((bs ":status", status) :: hs)) < 2 ^ 62 → zlen b < 2 ^ 62 →
  sent (OFull (encode_h3_headers_frame status hs ++ (if bytes_eqb b [] then [] else encode_h3_data_frame b)))
    (field_section ((bs ":status", status) :: hs)) b.
Proof. intros Hs Hb. by apply response_frames. Qed.

Lemma head_sent status hs (forbidden : bool) :
  let head := encode_h3_headers_frame status hs in
  zlen (field_section ((bs ":status", status) :: hs)) < 2 ^ 62 →
  sent (if forbidden then OFull head else OStream head) (field_section ((bs ":status", status) :: hs)) [].
Proof.
  intros hd Hs. pose proof (status_sent status hs [] Hs eq_refl) as Hw. fold hd in Hw. clearbody hd.
  clear Hs. revert Hw. generalize (field_section ((bs ":status", status) :: hs)) as sec. intros sec Hw.
  unfold sent in *. cbn in *. rewrite app_nil_r in Hw. by destruct forbidden.
Qed.

Lemma error_sent status :
  zlen (field_section [(bs ":status", status_octets status)]) < 2 ^ 62 →
  sent (OFull (h3_error status)) (field_section [(bs ":status", status_octets status)]) [].
Proof. intros Hs. unfold h3_error, encode_h3_response. by apply status_sent. Qed.

Lemma error_fits status : status ∈ [500; 503] → zlen (field_section [(bs ":status", status_octets status)]) < 2 ^ 62.
Proof.
  intros Hs. apply Z.ltb_lt. apply elem_of_cons in Hs as [->|Hs].
  { vm_cast_no_check (@eq_refl _ true). }
  apply list_elem_of_singleton in Hs as ->. vm_cast_no_check (@eq_refl _ true).
Qed.

Lemma error_octets code : code ∈ [500; 503] → status_octets code = bs "500" ∨ status_octets code = bs "503".
Proof. intros [->|[->|[]%not_elem_of_nil]%elem_of_cons]%elem_of_cons; [by left|by right]. Qed.

(** The two ways a response ends up: an error of its own, or the response that was asked for. *)
Lemma respond_cases is_head status hs answer limit reserve :
  let out := respond is_head status hs answer limit reserve in
  let final := final_headers is_head status hs answer in
  let head := encode_h3_headers_frame (status_octets status) final in
  (∃ code, code ∈ [500; 503] ∧ out = OFull (h3_error code)) ∨
  (∀ l, limit = Some l → h3_field_section_size (status_octets status) final <= l) ∧
  out = match answer with
        | BFull b =>
            let body := if response_body_forbidden is_head status then [] else b in
            OFull (head ++ (if bytes_eqb body [] then [] else encode_h3_data_frame body))
        | BStream _ => if response_body_forbidden is_head status then OFull head else OStream head
        end.
Proof.
  intros out final hd. unfold out, respond, prepare_h3_response_headers. cbv beta iota.
  replace (header_iter (sanitize_h2_h3_body_headers _ _ _ _)) with final by (by destruct answer as [|[]]). fold hd.
  destruct (match limit with Some _ => _ | None => _ end) eqn:El; [left; exists 500; by split; [left|]|].
  assert (Hl : ∀ l, limit = Some l → h3_field_section_size (status_octets status) final <= l)
    by (intros l ->; by apply Z.ltb_ge in El).
  destruct answer as [b|n].
  - destruct (reserve _); [|left; exists 503; by split; [right; left|]]. by right.
  - destruct (reserve _); [|left; exists 503; by split; [right; left|]]. by right.
Qed.


End response.


End h3_request_theorems.
