(* ===== verification/H3Requests.v ===== *)
(** * The request streams of an HTTP/3 connection: [crates/httpjet/src/uring/h3.rs]

    Which streams are being received, their deadlines, their buffers and the accounting of
    the octets they hold: against the connection's own limit and against the server-wide body
    budget. The QUIC connection is a parameter, the sending half is that of [H3Send]. An
    instant is a number of nanoseconds. *)

From stdpp Require Import base list gmap strings.
From Stdlib Require Import ZArith Lia.
From S2P Require Import Prelude BodyDeadline Budget HpackInteger HuffmanDecode Qpack Net RustStr HttpUtil H1Codec H3Frames H3Control H3Send H3Request.

#[local] Open Scope record_scope.

Module h3_requests.

Import body_deadline qpack h3_frames h3_control h3_send h3_request.

Definition H3_NO_ERROR : Z := 0x0100.
Definition H3_REQUEST_CANCELLED : Z := 0x010c.
Definition H3_MESSAGE_ERROR : Z := 0x010e.

#[global] Instance set_stall_timeout : Setter send_stall_timeout := ltac:(derive_setter).

(** ** Deadlines *)

Record H3RequestDeadlineKey := {
  when : Z;
  sequence : Z;
  stream : Z;
}.

(** [Ord]: the stream does not take part. *)
Definition key_cmp (a b : H3RequestDeadlineKey) : comparison :=
  match when a ?= when b with Eq => sequence a ?= sequence b | c => c end.

(** The [BTreeSet] of the keys is the list of them in order: [insert] of a key that is equal
    to one of the set changes nothing. *)
Fixpoint key_insert (k : H3RequestDeadlineKey) (ks : list H3RequestDeadlineKey) : list H3RequestDeadlineKey :=
  match ks with
  | [] => [k]
  | k' :: ks' =>
      match key_cmp k k' with
      | Lt => k :: ks
      | Eq => ks
      | Gt => k' :: key_insert k ks'
      end
  end.

Definition key_remove (k : H3RequestDeadlineKey) (ks : list H3RequestDeadlineKey) : list H3RequestDeadlineKey :=
  List.filter (fun k' => match key_cmp k k' with Eq => false | _ => true end) ks.

Record H3RequestConfig := {
  limits : H3RequestLimits;
  timeout : option Z;
  body_ceiling : Z;
}.

(** [H3RequestConfig::new] and [with_body_ceiling]. *)
Definition config_new (limits : H3RequestLimits) (timeout : option Z) : H3RequestConfig :=
  {| limits := limits; timeout := timeout; body_ceiling := BODY_DEADLINE_CEILING |}.

Definition with_body_ceiling (c : H3RequestConfig) (body_ceiling : Z) : H3RequestConfig :=
  {| limits := limits c; timeout := timeout c; body_ceiling := body_ceiling |}.

(** Without the serving generation, which only travels with the request. *)
Record H3RequestSnapshot := {
  config : H3RequestConfig;
  deadline : option H3RequestDeadlineKey;
  progress : option BodyProgress;
  read_queued : bool;
}.

#[global] Instance eta_H3RequestSnapshot : Eta H3RequestSnapshot := fun r =>
  {| config := config r; deadline := deadline r; progress := progress r; read_queued := read_queued r |}.
#[global] Instance set_deadline : Setter deadline := ltac:(derive_setter).
#[global] Instance set_progress : Setter progress := ltac:(derive_setter).
#[global] Instance set_read_queued : Setter read_queued := ltac:(derive_setter).

(** Of [H3State]: the streams being received. A body lease is the number of octets it holds
    against [body_budget]. [charges] and [task_leases] are the guards the dispatched tasks
    hold: a [RequestChargeGuard] each, and the lease of the body. *)
Record H3Requests := {
  requests : gset Z;
  request_deadlines : list H3RequestDeadlineKey;
  next_request_deadline_sequence : Z;
  request_snapshots : gmap Z H3RequestSnapshot;
  readable_requests : list Z;
  req_buf : gmap Z (list Z);
  req_frames : gmap Z H3FrameCounter;
  body_budget : option budget.BodyBufferBudget;
  body_leases : gmap Z Z;
  total_req_bytes : Z;
  charges : list (Z * Z);
  task_leases : list (Z * Z);
  sender : H3SendState;
}.

#[global] Instance eta_H3Requests : Eta H3Requests := fun r =>
  {| requests := requests r; request_deadlines := request_deadlines r;
     next_request_deadline_sequence := next_request_deadline_sequence r;
     request_snapshots := request_snapshots r; readable_requests := readable_requests r;
     req_buf := req_buf r; req_frames := req_frames r; body_budget := body_budget r;
     body_leases := body_leases r; total_req_bytes := total_req_bytes r; charges := charges r;
     task_leases := task_leases r; sender := sender r |}.
#[global] Instance set_requests : Setter requests := ltac:(derive_setter).
#[global] Instance set_deadlines : Setter request_deadlines := ltac:(derive_setter).
#[global] Instance set_sequence : Setter next_request_deadline_sequence := ltac:(derive_setter).
#[global] Instance set_snapshots : Setter request_snapshots := ltac:(derive_setter).
#[global] Instance set_readable : Setter readable_requests := ltac:(derive_setter).
#[global] Instance set_req_buf : Setter req_buf := ltac:(derive_setter).
#[global] Instance set_req_frames : Setter req_frames := ltac:(derive_setter).
#[global] Instance set_body_budget : Setter body_budget := ltac:(derive_setter).
#[global] Instance set_body_leases : Setter body_leases := ltac:(derive_setter).
#[global] Instance set_total : Setter total_req_bytes := ltac:(derive_setter).
#[global] Instance set_charges : Setter charges := ltac:(derive_setter).
#[global] Instance set_task_leases : Setter task_leases := ltac:(derive_setter).
#[global] Instance set_sender : Setter sender := ltac:(derive_setter).

Definition track_request_stream (r : H3Requests) (id accepted_at : Z) (snapshot : H3RequestSnapshot) : H3Requests :=
  if bool_decide (id ∈ requests r) then r
  else
    let r :=
      r <| requests := {[id]} ∪ requests r |>
        <| req_buf := match req_buf r !! id with Some _ => req_buf r | None => <[id := []]> (req_buf r) end |> in
    let '(r, snapshot) :=
      match timeout (config snapshot) with
      | Some timeout =>
          let key :=
            {| when := accepted_at + timeout; sequence := next_request_deadline_sequence r; stream := id |} in
          (r <| request_deadlines := key_insert key (request_deadlines r) |>
             <| next_request_deadline_sequence := u64 (next_request_deadline_sequence r + 1) |>,
           snapshot <| deadline := Some key |>
                    <| progress := Some (new accepted_at (body_ceiling (config snapshot)) 0) |>)
      | None => (r, snapshot)
      end in
    r <| readable_requests := readable_requests r ++ [id] |>
      <| request_snapshots := <[id := snapshot <| read_queued := true |>]> (request_snapshots r) |>.

Definition queue_readable_request (r : H3Requests) (id : Z) : H3Requests * bool :=
  match request_snapshots r !! id with
  | Some snapshot =>
      let r' := r <| request_snapshots := <[id := snapshot <| read_queued := true |>]> (request_snapshots r) |> in
      (if read_queued snapshot then r' else r' <| readable_requests := readable_requests r ++ [id] |>, true)
  | None =>
      if bool_decide (id ∈ requests r) then (r <| readable_requests := readable_requests r ++ [id] |>, true)
      else (r, false)
  end.

Definition next_request_deadline (r : H3Requests) : option Z := when <$> hd_error (request_deadlines r).

Definition extend_request_deadline (r : H3Requests) (id buffered now : Z) : H3Requests :=
  match request_snapshots r !! id with
  | None => r
  | Some snapshot =>
      match timeout (config snapshot), deadline snapshot, progress snapshot with
      | Some timeout, Some key, Some progress_ =>
          let '(progress_, when_, moved) := extend progress_ (when key) buffered timeout now in
          let snapshot := snapshot <| progress := Some progress_ |> in
          if moved then
            let key' := {| when := when_; sequence := sequence key; stream := stream key |} in
            r <| request_deadlines := key_insert key' (key_remove key (request_deadlines r)) |>
              <| request_snapshots := <[id := snapshot <| deadline := Some key' |>]> (request_snapshots r) |>
          else r <| request_snapshots := <[id := snapshot]> (request_snapshots r) |>
      | _, _, _ => r
      end
  end.

Definition first_expired_request (r : H3Requests) (now : Z) : option Z :=
  match hd_error (request_deadlines r) with
  | Some key => if when key <=? now then Some (stream key) else None
  | None => None
  end.

(** ** Accounting *)

Definition release_request_charge (r : H3Requests) (bytes : Z) : H3Requests :=
  r <| total_req_bytes := saturating_sub (total_req_bytes r) bytes |>.

Record TakenRequest := {
  body : list Z;
  frames : H3FrameCounter;
  lease : option Z;
  snapshot : option H3RequestSnapshot;
}.

Definition take_request_for_dispatch (r : H3Requests) (id : Z) : H3Requests * TakenRequest :=
  let snapshot := request_snapshots r !! id in
  let r :=
    r <| requests := requests r ∖ {[id]} |>
      <| request_snapshots := delete id (request_snapshots r) |> in
  let r :=
    match snapshot ≫= deadline with
    | Some key => r <| request_deadlines := key_remove key (request_deadlines r) |>
    | None => r
    end in
  (r <| req_buf := delete id (req_buf r) |> <| req_frames := delete id (req_frames r) |>
     <| body_leases := delete id (body_leases r) |>,
   {| body := default [] (req_buf r !! id); frames := default counter_default (req_frames r !! id);
      lease := body_leases r !! id; snapshot := snapshot |}).

(** The lease of a body is dropped. *)
Definition drop_lease (r : H3Requests) (lease : option Z) : H3Requests :=
  match lease, body_budget r with
  | Some held, Some b => r <| body_budget := Some (budget.lease_drop b held) |>
  | _, _ => r
  end.

(** [reclaim_request]; the lease lives in the octets returned, which every caller of the
    server drops. *)
Definition reclaim_request (r : H3Requests) (id : Z) : H3Requests :=
  let '(r, taken) := take_request_for_dispatch r id in
  drop_lease (release_request_charge r (charged (frames taken))) (lease taken).

Definition reclaim_buffered_requests (r : H3Requests) : H3Requests :=
  let bytes := sum_map charged (req_frames r) in
  let leases := (map_to_list (body_leases r)).*2 in
  let r :=
    r <| requests := ∅ |> <| readable_requests := [] |> <| request_deadlines := [] |>
      <| request_snapshots := ∅ |> <| req_frames := ∅ |> <| req_buf := ∅ |> <| body_leases := ∅ |> in
  release_request_charge (fold_left (fun r held => drop_lease r (Some held)) leases r) bytes.

(** [reclaim_expired_requests]: every round removes a deadline, so as many rounds as there
    are deadlines are enough ([expired_rounds]). *)
Fixpoint reclaim_expired_loop (fuel : nat) (r : H3Requests) (now : Z) (expired : list Z) : H3Requests * list Z :=
  match fuel, first_expired_request r now with
  | S fuel, Some id => reclaim_expired_loop fuel (reclaim_request r id) now (expired ++ [id])
  | _, _ => (r, expired)
  end.

Definition reclaim_expired_requests (r : H3Requests) (now : Z) : H3Requests * list Z :=
  reclaim_expired_loop (length (request_deadlines r)) r now [].

(** ** The QUIC connection *)

(** Reading from, stopping and accepting streams and closing the connection.
    [quinn_available] is what one pass over a stream yields and how it ends;
    [quinn_consumed] is the connection after that many chunks of it were taken. *)
Class QuinnRecv (Conn : Type) := {
  quinn_available : Conn → Z → list (list Z) * ReadEnd;
  quinn_consumed : Conn → Z → nat → Conn;
  quinn_stop : Conn → Z → Z → Conn;
  quinn_accept_bi : Conn → Conn * option Z;
  quinn_close : Conn → Z → Conn;
}.

Section counter.

Variable capacity : list Z → Z.
Variable slots : list Field → Z.

Definition append_request_bytes (r : H3Requests) (id : Z) (bytes : list Z) (limits : H3RequestLimits) :
    H3Requests * result RequestFrameError Z :=
  match checked_add (total_req_bytes r) (zlen bytes) with
  | None => (r, Err Limit)
  | Some total =>
      if max_connection_bytes limits <? total then (r, Err Limit)
      else
        let frames := default counter_default (req_frames r !! id) in
        let decoded_before := head_footprint frames in
        let '(frames, body, result) :=
          consume capacity slots frames bytes (default [] (req_buf r !! id)) limits in
        let r :=
          r <| req_frames := <[id := frames]> (req_frames r) |> <| req_buf := <[id := body]> (req_buf r) |> in
        match result with
        | Err e => (r, Err e)
        | Ok _ =>
            let charge := zlen bytes + (head_footprint frames - decoded_before) in
            match checked_add total (charge - zlen bytes) with
            | None => (r, Err Limit)
            | Some total =>
                if max_connection_bytes limits <? total then (r, Err Limit)
                else
                  let '(r, granted) :=
                    match body_budget r with
                    | Some b =>
                        let '(ok, b, held) := budget.lease_reserve b (default 0 (body_leases r !! id)) charge in
                        (r <| body_budget := Some b |> <| body_leases := <[id := held]> (body_leases r) |>, ok)
                    | None => (r, true)
                    end in
                  if negb granted then (r, Err Limit)
                  else
                    let frames :=
                      frames <| charged := charged frames + charge |>
                             <| wire_bytes := wire_bytes frames + zlen bytes |> in
                    let r :=
                      r <| req_frames := <[id := frames]> (req_frames r) |> <| total_req_bytes := total |> in
                    if max_request_wire_bytes limits <? wire_bytes frames then (r, Err Limit)
                    else (r, Ok (wire_bytes frames))
            end
        end
  end.

(** ** Receiving *)

Context {Conn : Type} `{!Quinn Conn, !QuinnRecv Conn}.

(** The closure of [receive_request_streams] over the chunks: how many were taken, and the
    octets buffered after the last that was accepted. *)
Fixpoint append_chunks (r : H3Requests) (id : Z) (limits : H3RequestLimits) (chunks : list (list Z))
    (taken : nat) (buffered : option Z) : H3Requests * nat * option Z * result RequestFrameError unit :=
  match chunks with
  | [] => (r, taken, buffered, Ok tt)
  | c :: chunks =>
      match append_request_bytes r id c limits with
      | (r, Err e) => (r, S taken, buffered, Err e)
      | (r, Ok len) => append_chunks r id limits chunks (S taken) (Some len)
      end
  end.

Definition for_each_chunk (c : Conn) (r : H3Requests) (id : Z) (limits : H3RequestLimits) :
    Conn * H3Requests * option Z * ReadEnd * result RequestFrameError unit :=
  let '(chunks, end_) := quinn_available c id in
  let '(r, taken, buffered, result) := append_chunks r id limits chunks 0 None in
  (quinn_consumed c id taken, r, buffered, match result with Ok _ => end_ | Err _ => ROpen end, result).

Definition refuse_request_stream (c : Conn) (r : H3Requests) (id : Z) (error : RequestFrameError) (now : Z) :
    Conn * H3Requests :=
  match error with
  | TooLarge | HeadersTooLarge =>
      let response := match error with TooLarge => h3_payload_too_large | _ => h3_error 431 end in
      let '(c, s) := queue_final_response (quinn_stop c id H3_NO_ERROR) (sender r) id response now in
      (c, r <| sender := s |>)
  | _ =>
      let code :=
        match error with
        | Malformed => H3_MESSAGE_ERROR
        | ExcessiveLoad => H3_EXCESSIVE_LOAD
        | _ => H3_REQUEST_CANCELLED
        end in
      (quinn_reset (quinn_stop c id code) id code, r)
  end.

(** One turn of the loop of [receive_request_streams]: [false] when it breaks. *)
Definition receive_stream (c : Conn) (r : H3Requests) (id now : Z) (finished : list Z) :
    Conn * H3Requests * list Z * bool :=
  match request_snapshots r !! id with
  | None =>
      if bool_decide (id ∈ requests r) then
        let '(c, r) := refuse_request_stream c (reclaim_request r id) id Limit now in (c, r, finished, true)
      else (c, r, finished, true)
  | Some snapshot =>
      let r :=
        r <| request_snapshots := <[id := snapshot <| read_queued := false |>]> (request_snapshots r) |> in
      let '(c, r, buffered, end_, append) := for_each_chunk c r id (limits (config snapshot)) in
      match end_ with
      | RGone =>
          let r := reclaim_request r id in
          let c := quinn_reset c id H3_REQUEST_CANCELLED in
          let '(s, excessive) := charge_request_cancel (sender r) now in
          let r := r <| sender := s |> in
          if excessive then (quinn_close c H3_EXCESSIVE_LOAD, r, finished, false) else (c, r, finished, true)
      | _ =>
          match append with
          | Err ((Unexpected | ExcessiveLoad) as error) =>
              let r := reclaim_request r id in
              let code := match error with Unexpected => H3_FRAME_UNEXPECTED | _ => H3_EXCESSIVE_LOAD end in
              (quinn_close c code, r <| sender := (sender r) <| rejected := true |> |>, finished, false)
          | Err error =>
              let '(c, r) := refuse_request_stream c (reclaim_request r id) id error now in
              (c, r, finished, true)
          | Ok _ =>
              match end_ with
              | RFin => (c, r, finished ++ [id], true)
              | _ =>
                  let r :=
                    match buffered, progress snapshot with
                    | Some buffered, Some p =>
                        if due p buffered then extend_request_deadline r id buffered now else r
                    | _, _ => r
                    end in
                  (c, r, finished, true)
              end
          end
      end
  end.

Fixpoint receive_streams (c : Conn) (r : H3Requests) (ids : list Z) (now : Z) (finished : list Z) :
    Conn * H3Requests * list Z :=
  match ids with
  | [] => (c, r, finished)
  | id :: ids =>
      let '(c, r, finished, go_on) := receive_stream c r id now finished in
      if go_on then receive_streams c r ids now finished else (c, r, finished)
  end.

Definition receive_request_streams (c : Conn) (r : H3Requests) (now : Z) : Conn * H3Requests * list Z :=
  receive_streams c (r <| readable_requests := [] |>) (readable_requests r) now [].

(** ** Accepting *)

Definition MAX_CONCURRENT_BIDI_STREAMS : Z := 256.

(** [admit_request_stream]: [false] closes the connection with H3_EXCESSIVE_LOAD. *)
Definition admit_request_stream (r : H3Requests) (accepted_this_drive : Z) : bool :=
  negb ((MAX_CONCURRENT_BIDI_STREAMS <? accepted_this_drive)
        || (2 * MAX_CONCURRENT_BIDI_STREAMS <=? Z.of_nat (size (requests r)))).

(** The accept loop of [service_conn]: more than [MAX_CONCURRENT_BIDI_STREAMS] rounds are
    never admitted. The index GOAWAY announces is left out. *)
Fixpoint accept_streams (fuel : nat) (c : Conn) (r : H3Requests) (accepted_this_drive accepted_at : Z)
    (accepting_requests : bool) (snapshot : H3RequestSnapshot) : Conn * H3Requests :=
  match fuel, quinn_accept_bi c with
  | S fuel, (c, Some id) =>
      let accepted_this_drive := accepted_this_drive + 1 in
      if negb (admit_request_stream r accepted_this_drive) then
        (quinn_close c H3_EXCESSIVE_LOAD, r <| sender := (sender r) <| rejected := true |> |>)
      else if accepting_requests then
        accept_streams fuel c (track_request_stream r id accepted_at snapshot) accepted_this_drive accepted_at
          accepting_requests snapshot
      else
        accept_streams fuel (quinn_reset (quinn_stop c id 0x010b) id 0x010b) r accepted_this_drive accepted_at
          accepting_requests snapshot
  | S _, (c, None) => (c, r)
  | O, _ => (c, r)
  end.

Definition reject_stopped_local_critical_stream (s : H3SendState) (id : Z) : H3SendState * bool :=
  if bool_decide (control_stream s = Some id) || bool_decide (qpack_encoder_stream s = Some id)
     || bool_decide (qpack_decoder_stream s = Some id)
  then ((cancel_all_dispatched_requests s) <| rejected := true |>, true)
  else (s, false).

(** One STOP_SENDING of [service_conn]; [false] when the connection is closed. *)
Definition stopped_stream (c : Conn) (r : H3Requests) (id now : Z) : Conn * H3Requests * bool :=
  let '(s, critical) := reject_stopped_local_critical_stream (sender r) id in
  if critical then (quinn_close c H3_CLOSED_CRITICAL_STREAM, r <| sender := s |>, false)
  else
    let receiving := bool_decide (id ∈ requests r) in
    let unanswered := receiving || bool_decide (is_Some (request_cancellations (sender r) !! id)) in
    let r := if receiving then reclaim_request r id else r in
    let r := r <| sender := cancel_dispatched_request (sender r) id |> in
    let c := quinn_reset c id H3_REQUEST_CANCELLED in
    let c := if receiving then quinn_stop c id H3_REQUEST_CANCELLED else c in
    if unanswered then
      let '(s, excessive) := charge_request_cancel (sender r) now in
      let r := r <| sender := s |> in
      if excessive then (quinn_close c H3_EXCESSIVE_LOAD, r, false) else (c, r, true)
    else (c, r, true).

(** ** Dispatch *)

Definition MAX_INFLIGHT_PER_CORE : Z := 1024.

(** A finished request: shed at the cap, else handed to a task, which takes the guards. *)
Definition dispatch_request (c : Conn) (r : H3Requests) (inflight id now : Z) : Conn * H3Requests * Z :=
  let '(r, taken) := take_request_for_dispatch r id in
  let req_charge := charged (frames taken) in
  match snapshot taken with
  | None =>
      let r := drop_lease (release_request_charge r req_charge) (lease taken) in
      (quinn_reset (quinn_stop c id H3_REQUEST_CANCELLED) id H3_REQUEST_CANCELLED, r, inflight)
  | Some _ =>
      if MAX_INFLIGHT_PER_CORE <=? inflight then
        let '(c, s) := queue_final_response c (sender r) id (h3_error 503) now in
        (c, drop_lease (release_request_charge (r <| sender := s |>) req_charge) (lease taken), inflight)
      else
        let s := (sender r) <| request_cancellations := <[id := id]> (request_cancellations (sender r)) |> in
        (c,
         r <| sender := s |> <| charges := charges r ++ [(id, req_charge)] |>
           <| task_leases := match lease taken with
                             | Some held => task_leases r ++ [(id, held)]
                             | None => task_leases r
                             end |>,
         inflight + 1)
  end.

Fixpoint dispatch_requests (c : Conn) (r : H3Requests) (inflight : Z) (ids : list Z) (now : Z) : Conn * H3Requests * Z :=
  match ids with
  | [] => (c, r, inflight)
  | id :: ids =>
      let '(c, r, inflight) := dispatch_request c r inflight id now in dispatch_requests c r inflight ids now
  end.

(** A task drops its [RequestChargeGuard], and its body. *)
Definition drop_charge (r : H3Requests) (i : nat) : H3Requests :=
  match charges r !! i with
  | Some (_, bytes) =>
      r <| charges := take i (charges r) ++ drop (S i) (charges r) |>
        <| total_req_bytes := saturating_sub (total_req_bytes r) bytes |>
  | None => r
  end.

Definition drop_task_lease (r : H3Requests) (i : nat) : H3Requests :=
  match task_leases r !! i with
  | Some (_, held) =>
      drop_lease (r <| task_leases := take i (task_leases r) ++ drop (S i) (task_leases r) |>) (Some held)
  | None => r
  end.

(** What [drive_conn] does for the request streams of a connection, after [service_conn]. *)
Definition reset_all (c : Conn) (ids : list Z) : Conn :=
  fold_left (fun c id => quinn_reset (quinn_stop c id H3_REQUEST_CANCELLED) id H3_REQUEST_CANCELLED) ids c.

Definition abandon (r : H3Requests) : H3Requests :=
  reclaim_buffered_requests (r <| sender := cancel_all_dispatched_requests (sender r) |>).

Definition drive_requests (c : Conn) (r : H3Requests) (inflight now : Z) (send_timeout : option Z) :
    Conn * H3Requests * Z :=
  if rejected (sender r) then (c, abandon r, inflight)
  else
    let '(r, expired) := reclaim_expired_requests r now in
    let c := reset_all c expired in
    let '(s, stalled) := reclaim_stalled_sends ((sender r) <| send_stall_timeout := send_timeout |>) now in
    let r := r <| sender := s |> in
    let c := fold_left (fun c id => quinn_reset c id H3_REQUEST_CANCELLED) stalled c in
    let '(c, r, finished) := receive_request_streams c r now in
    if rejected (sender r) then (c, abandon (fold_left reclaim_request finished r), inflight)
    else dispatch_requests c r inflight finished now.

End counter.

End h3_requests.
