(* ===== verification/H3RequestsTheorems.v ===== *)
(** * The request streams of an HTTP/3 connection: accounting and deadlines

    Every state a connection reaches accounts for the octets it buffers, within its limit and
    the server's budget ([h3_requests_accounted]), and no request stream outlives its deadline
    ([h3_requests_expire]). The handlers are decomposed into the primitive changes [prim], and
    the invariant is shown for those. *)

From stdpp Require Import base list gmap strings relations.
From Stdlib Require Import ZArith Lia Sorted.
From S2P Require Import Prelude BodyDeadline Budget HpackInteger HuffmanDecode Qpack Net RustStr HttpUtil H1Codec H3Frames H3FramesWire H3Control H3Send H3Request H3Requests H3SendTheorems.

#[local] Open Scope record_scope.

Module h3_requests_theorems.

Import body_deadline qpack h3_frames h3_control h3_send h3_request h3_requests.

(** ** The footprint of a decoded head *)

Section footprint.
Context (capacity : list Z → Z) (slots : list Field → Z).
Hypothesis capacity_nonneg : ∀ s, 0 <= capacity s.
Hypothesis slots_nonneg : ∀ fs, 0 <= slots fs.

Record fp_ok (s : H3FrameCounter) : Prop := {
  fp_nonneg : 0 <= head_footprint s;
  fp_pending : head s = Pending → head_footprint s = 0;
}.

(** What parsing does to the fields the accounting looks at. *)
Definition grew (s s' : H3FrameCounter) : Prop :=
  fp_ok s → fp_ok s' ∧ head_footprint s <= head_footprint s' ∧ charged s' = charged s ∧ wire_bytes s' = wire_bytes s.

Lemma grew_refl s : grew s s.
Proof. intros ?. split; [done|]. split; [lia|done]. Qed.

Lemma grew_trans s1 s2 s3 : grew s1 s2 → grew s2 s3 → grew s1 s3.
Proof.
  intros H1 H2 Hs. destruct (H1 Hs) as (Hs2 & ? & ? & ?). destruct (H2 Hs2) as (? & ? & ? & ?).
  split; [done|]. split; [lia|]. split; congruence.
Qed.

(** The other fields do not matter. *)
Lemma grew_same s s' :
  head s' = head s → head_footprint s' = head_footprint s → charged s' = charged s → wire_bytes s' = wire_bytes s →
  grew s s'.
Proof. intros E1 E2 E3 E4 [Hn Hp]. split; [split; rewrite ?E1, E2; done|]. rewrite E2. split; [lia|done]. Qed.

Lemma footprint_nonneg fields n : 0 <= n → 0 <= decoded_head_footprint capacity fields n.
Proof.
  intros Hn. unfold decoded_head_footprint.
  assert (Hs : 0 <= saturating_mul n FIELD_SLOT) by (unfold saturating_mul, FIELD_SLOT, U64_MAX; lia).
  revert Hs. generalize (saturating_mul n FIELD_SLOT). induction fields as [|f fields IH]; intros z Hz; [done|].
  cbn [fold_left]. apply IH. pose proof (capacity_nonneg f.1). pose proof (capacity_nonneg f.2).
  unfold saturating_add, U64_MAX. lia.
Qed.

Lemma with_head_grew s limits : grew s (with_head capacity slots s limits).
Proof.
  unfold with_head. destruct (head s) eqn:Eh; try apply grew_refl. destruct (field s) as [fld|]; [|apply grew_refl].
  destruct (decode_request_head fld (max_header_bytes limits)) as [| |[fields size] cl] eqn:Ed.
  - unfold decode_request_head in Ed. by destruct (qpack_decode_limited _ _).
  - intros [Hn Hp]. cbn [set]. split; [split; [done|done]|]. cbn. split; [lia|done].
  - intros [Hn Hp]. specialize (Hp Eh). pose proof (footprint_nonneg fields (slots fields) (slots_nonneg _)) as Hf.
    split; [split; [exact Hf|done]|]. cbn -[decoded_head_footprint]. split; [lia|done].
Qed.

Lemma data_frame_grew s n limits : grew s (data_frame capacity slots s n limits).1.
Proof.
  unfold data_frame. eapply grew_trans; [apply (with_head_grew s limits)|].
  generalize (with_head capacity slots s limits). intros s'.
  repeat case_match; try apply grew_refl; by apply grew_same.
Qed.

Lemma frame_header_grew s n limits : grew s (frame_header capacity slots s n limits).1.
Proof.
  unfold frame_header. destruct (request_frame_forbidden _); [apply grew_refl|].
  set (idle := (n =? 0) || _). set (s1 := if idle then _ else s).
  assert (H1 : grew s s1) by (unfold s1; destruct idle; [by apply grew_same|apply grew_refl]). clearbody s1 idle.
  eapply grew_trans; [exact H1|]. destruct (idle && _); [apply grew_refl|].
  destruct (frame_type s1 =? 1); [repeat case_match; try apply grew_refl; by apply grew_same|].
  destruct (frame_type s1 =? 0); [|apply grew_refl]. pose proof (data_frame_grew s1 n limits) as Hd.
  destruct (data_frame capacity slots s1 n limits) as [s2 [[]|e]]; [|exact Hd]. cbn [fst] in *.
  eapply grew_trans; [exact Hd|]. case_if; [by apply grew_same|apply grew_refl].
Qed.

Lemma consume_loop_grew fuel s input body limits : grew s (consume_loop capacity slots fuel s input body limits).1.1.
Proof.
  revert s input body. induction fuel as [|fuel IH]; intros s input body; destruct input as [|b input]; try apply grew_refl.
  cbn [consume_loop]. destruct (phase s) as [| |remaining sink].
  - unfold consume_varint. destruct (varint_consume _ _) as [[v [ty|]] rest]; [|by apply grew_same].
    eapply grew_trans; [|apply IH]. by apply grew_same.
  - unfold consume_varint. destruct (varint_consume _ _) as [[v [len|]] rest]; [|by apply grew_same].
    set (s1 := s <| varint := v |>). assert (H1 : grew s s1) by by apply grew_same. clearbody s1.
    unfold length_arm. pose proof (frame_header_grew s1 len limits) as Hf.
    destruct (frame_header capacity slots s1 len limits) as [s2 [sink|e]]; [|by eapply grew_trans].
    eapply grew_trans; [|apply IH]. eapply grew_trans; [exact H1|]. eapply grew_trans; [exact Hf|]. by apply grew_same.
  - destruct (deliver s body _ sink) as [s1 body1] eqn:Ed. eapply grew_trans; [|apply IH].
    eapply (grew_trans _ s1); [|by apply grew_same]. unfold deliver in Ed.
    destruct sink; injection Ed as <- <-; try apply grew_refl; by apply grew_same.
Qed.

Lemma consume_grew s input body limits : grew s (consume capacity slots s input body limits).1.1.
Proof. apply consume_loop_grew. Qed.

End footprint.

(** ** Ordered keys *)

Definition key_lt (a b : H3RequestDeadlineKey) : Prop := key_cmp a b = Lt.

Lemma key_cmp_spec a b :
  match key_cmp a b with
  | Lt => when a < when b ∨ when a = when b ∧ sequence a < sequence b
  | Eq => when a = when b ∧ sequence a = sequence b
  | Gt => when b < when a ∨ when a = when b ∧ sequence b < sequence a
  end.
Proof.
  unfold key_cmp. destruct (Z.compare_spec (when a) (when b)); [|lia|lia].
  destruct (Z.compare_spec (sequence a) (sequence b)); lia.
Qed.

Lemma key_lt_spec a b : key_lt a b ↔ when a < when b ∨ when a = when b ∧ sequence a < sequence b.
Proof. unfold key_lt. pose proof (key_cmp_spec a b). destruct (key_cmp a b); split; intros; first [done|lia]. Qed.

Lemma key_insert_elem k ks x :
  (∀ k', k' ∈ ks → key_cmp k k' ≠ Eq) → x ∈ key_insert k ks ↔ x = k ∨ x ∈ ks.
Proof.
  induction ks as [|k' ks IH]; intros Hn; cbn [key_insert]; [by rewrite list_elem_of_singleton, elem_of_nil; tauto|].
  destruct (key_cmp k k') eqn:E.
  - destruct (Hn k'); [left|done].
  - rewrite elem_of_cons. tauto.
  - rewrite !elem_of_cons, IH by (intros y Hy; apply Hn; by right). tauto.
Qed.

Lemma key_insert_sub k ks x : x ∈ key_insert k ks → x = k ∨ x ∈ ks.
Proof.
  induction ks as [|k' ks IH]; cbn [key_insert]; [by rewrite list_elem_of_singleton; left|].
  destruct (key_cmp k k'); rewrite ?elem_of_cons; tauto.
Qed.

Lemma key_insert_sorted k ks : StronglySorted key_lt ks → StronglySorted key_lt (key_insert k ks).
Proof.
  induction 1 as [|k' ks Hs IH Hf]; cbn [key_insert]; [repeat constructor|]. destruct (key_cmp k k') eqn:E.
  - by constructor.
  - constructor; [by constructor|]. constructor; [done|]. apply Forall_forall. intros x Hx. rewrite List.Forall_forall in Hf.
    apply list_elem_of_In in Hx. specialize (Hf x Hx). rewrite key_lt_spec in *. pose proof (key_cmp_spec k k') as Hc. rewrite E in Hc. lia.
  - constructor; [done|]. apply Forall_forall. intros x [-> |Hx]%key_insert_sub.
    + rewrite key_lt_spec. pose proof (key_cmp_spec k k') as Hc. rewrite E in Hc. lia.
    + rewrite List.Forall_forall in Hf. apply Hf. by apply list_elem_of_In.
Qed.

Lemma key_remove_elem k ks x : x ∈ key_remove k ks ↔ x ∈ ks ∧ key_cmp k x ≠ Eq.
Proof.
  unfold key_remove. rewrite !list_elem_of_In, filter_In. destruct (key_cmp k x); split; intros [? ?]; done.
Qed.

Lemma key_remove_sorted k ks : StronglySorted key_lt ks → StronglySorted key_lt (key_remove k ks).
Proof.
  induction 1 as [|k' ks Hs IH Hf]; [constructor|]. cbn [key_remove List.filter]. fold (key_remove k ks).
  destruct (key_cmp k k'); try (constructor; [done|]; apply Forall_forall; intros x [Hx _]%key_remove_elem;
    rewrite List.Forall_forall in Hf; by apply Hf, list_elem_of_In). done.
Qed.

Lemma key_remove_length k ks : k ∈ ks → (length (key_remove k ks) < length ks)%nat.
Proof.
  induction ks as [|k' ks IH]; [by intros ?%not_elem_of_nil|]. cbn [key_remove List.filter]. fold (key_remove k ks).
  assert (Hle : (length (key_remove k ks) <= length ks)%nat) by (apply List.filter_length_le).
  intros [<-|Hin]%elem_of_cons.
  - unfold key_cmp. rewrite !Z.compare_refl. cbn. lia.
  - specialize (IH Hin). destruct (key_cmp k k'); cbn; lia.
Qed.

(** ** Primitive changes *)

Definition sum2 (l : list (Z * Z)) : Z := fold_right (fun p n => p.2 + n) 0 l.

Lemma sum2_app l1 l2 : sum2 (l1 ++ l2) = sum2 l1 + sum2 l2.
Proof. induction l1 as [|p l1 IH]; [done|]. cbn. unfold sum2 in *. lia. Qed.

Lemma sum2_cut l (i : nat) p : l !! i = Some p → sum2 (take i l ++ drop (S i) l) = sum2 l - p.2.
Proof.
  intros Hi. rewrite sum2_app. rewrite <- (take_drop_middle l i p Hi) at 3. rewrite sum2_app.
  change (sum2 (p :: drop (S i) l)) with (p.2 + sum2 (drop (S i) l)). lia.
Qed.

Lemma sum2_nonneg l : Forall (fun p => 0 <= p.2) l → 0 <= sum2 l.
Proof. induction 1; cbn; [lia|]. unfold sum2 in *. lia. Qed.

Lemma sum2_ge l (i : nat) p : Forall (fun p => 0 <= p.2) l → l !! i = Some p → p.2 <= sum2 l.
Proof.
  intros Hf Hi. pose proof (sum2_cut l i p Hi) as E. enough (0 <= sum2 (take i l ++ drop (S i) l)) by lia.
  apply sum2_nonneg, Forall_app. split; [by apply Forall_take|by apply Forall_drop].
Qed.

Lemma sum_map_take {A} (f : A → Z) (m : gmap Z A) k d :
  f d = 0 → sum_map f (delete k m) = sum_map f m - f (default d (m !! k)).
Proof.
  intros Hd. destruct (m !! k) as [a|] eqn:E; cbn [default from_option].
  - rewrite (sum_map_delete f m k a E). cbn. lia.
  - rewrite delete_id by done. cbn. lia.
Qed.

Section prims.
Context (capacity : list Z → Z) (slots : list Field → Z).
Hypothesis capacity_nonneg : ∀ s, 0 <= capacity s.
Hypothesis slots_nonneg : ∀ fs, 0 <= slots fs.

(** A request goes to a task with its charge and its lease. *)
Definition to_task (r : H3Requests) (id : Z) : H3Requests :=
  let '(r, taken) := take_request_for_dispatch r id in
  r <| charges := charges r ++ [(id, charged (frames taken))] |>
    <| task_leases := match lease taken with
                      | Some held => task_leases r ++ [(id, held)]
                      | None => task_leases r
                      end |>.

Inductive prim : H3Requests → H3Requests → Prop :=
| p_sender r s : prim r (r <| sender := s |>)
| p_readable r l : prim r (r <| readable_requests := l |>)
| p_flag r id s b :
    request_snapshots r !! id = Some s →
    prim r (r <| request_snapshots := <[id := s <| read_queued := b |>]> (request_snapshots r) |>)
| p_extend r id buffered now : prim r (extend_request_deadline r id buffered now)
| p_reclaim r id : prim r (reclaim_request r id)
| p_buffered r : prim r (reclaim_buffered_requests r)
| p_append r id s octets :
    request_snapshots r !! id = Some s →
    prim r (append_request_bytes capacity slots r id octets (limits (config s))).1
| p_task r id : prim r (to_task r id)
| p_charge r i : prim r (drop_charge r i)
| p_lease r i : prim r (drop_task_lease r i).

(** *** Accounting *)

Definition ours (r : H3Requests) : Z := sum_map (fun h => h) (body_leases r) + sum2 (task_leases r).

(** What others hold of the budget; the lease [l] of ours is in transit. *)
Definition share (l : option Z) (r : H3Requests) : Z :=
  match body_budget r with
  | Some b => if budget.max_bytes b =? 0 then 0 else budget.in_flight b - ours r - default 0 l
  | None => 0
  end.

Definition budget_ok (l : option Z) (r : H3Requests) : Prop :=
  match body_budget r with
  | Some b =>
      budget.max_bytes b ≠ 0 →
      budget.max_bytes b < U64_MAX ∧ ours r + default 0 l <= budget.in_flight b <= budget.max_bytes b
  | None => body_leases r = ∅ ∧ task_leases r = [] ∧ l = None
  end.

Definition frames_ok (f : H3FrameCounter) : Prop := 0 <= charged f ∧ fp_ok f.

(** The invariant, with [ch] octets charged for a request that is in transit. *)
Record acc (L ch : Z) (l : option Z) (r : H3Requests) : Prop := {
  a_total : total_req_bytes r = sum_map charged (req_frames r) + sum2 (charges r) + ch;
  a_transit : 0 <= ch ∧ 0 <= default 0 l;
  a_bound : total_req_bytes r <= L;
  a_frames : map_Forall (fun _ f => frames_ok f) (req_frames r);
  a_charges : Forall (fun p => 0 <= p.2) (charges r);
  a_tasks : Forall (fun p => 0 <= p.2) (task_leases r);
  a_leases : ∀ id, is_Some (body_leases r !! id) → is_Some (req_frames r !! id);
  a_held : is_Some (body_budget r) →
    ∀ id, default 0 (body_leases r !! id) = default 0 (charged <$> req_frames r !! id);
  a_budget : budget_ok l r;
  a_limits : map_Forall (fun _ s => max_connection_bytes (limits (config s)) <= L) (request_snapshots r);
}.

(** A state that differs only in what the accounting does not see. *)
Lemma acc_same L ch l r r' :
  total_req_bytes r' = total_req_bytes r → req_frames r' = req_frames r → charges r' = charges r →
  task_leases r' = task_leases r → body_leases r' = body_leases r → body_budget r' = body_budget r →
  map_Forall (fun _ s => max_connection_bytes (limits (config s)) <= L) (request_snapshots r') →
  acc L ch l r → acc L ch l r' ∧ share l r' = share l r.
Proof.
  intros E1 E2 E3 E4 E5 E6 Hl []. unfold budget_ok, share, ours in *. split.
  - split; unfold budget_ok, ours; rewrite ?E1, ?E2, ?E3, ?E4, ?E5, ?E6; done.
  - by rewrite ?E4, ?E5, ?E6.
Qed.

Lemma lease_charged L ch l r id x :
  acc L ch l r → body_leases r !! id = Some x → ∃ f, req_frames r !! id = Some f ∧ charged f = x.
Proof.
  intros [] Hx. destruct (a_leases0 id) as [f Hf]; [by eexists|]. exists f. split; [done|]. unfold budget_ok in *.
  destruct (body_budget r) as [b|] eqn:Eb.
  - specialize (a_held0 (ex_intro _ b eq_refl) id). by rewrite Hx, Hf in a_held0.
  - destruct a_budget0 as (E & _). by rewrite E, lookup_empty in Hx.
Qed.

Lemma ours_nonneg L ch l r : acc L ch l r → 0 <= ours r.
Proof.
  intros Ha. unfold ours. pose proof (sum2_nonneg _ (a_tasks _ _ _ _ Ha)).
  enough (0 <= sum_map (fun x => x) (body_leases r)) by lia. apply sum_map_nonneg. intros id x Hx.
  destruct (lease_charged _ _ _ _ id x Ha Hx) as (f & Hf & <-). apply (a_frames _ _ _ _ Ha id f Hf).
Qed.

Lemma charged_nonneg L ch l r : acc L ch l r → 0 <= sum_map charged (req_frames r).
Proof. intros Ha. apply sum_map_nonneg. intros id f Hf. apply (a_frames _ _ _ _ Ha id f Hf). Qed.

(** A part of what is in transit is given back. *)
Lemma acc_drop_part L ch r held rest :
  0 <= held → 0 <= rest → acc L ch (Some (held + rest)) r →
  acc L ch (Some rest) (drop_lease r (Some held)) ∧
  share (Some rest) (drop_lease r (Some held)) = share (Some (held + rest)) r.
Proof.
  intros Hh Hr Ha. pose proof (ours_nonneg _ _ _ _ Ha) as Ho. pose proof (a_budget _ _ _ _ Ha) as Hb.
  unfold budget_ok in Hb. unfold drop_lease. destruct (body_budget r) as [b|] eqn:Eb; [|by destruct Hb as (_ & _ & ?)].
  change (default 0 (Some (held + rest))) with (held + rest) in Hb. set (r' := r <| body_budget := _ |>).
  assert (Eb' : ∃ b', body_budget r' = Some b' ∧ budget.max_bytes b' = budget.max_bytes b ∧
    (budget.max_bytes b ≠ 0 → budget.in_flight b' = budget.in_flight b - held)).
  { exists (budget.lease_drop b held). split; [done|]. unfold budget.lease_drop, budget.release.
    destruct (Z.eqb_spec (budget.max_bytes b) 0) as [E0|E0]; cbn [orb]; [done|].
    destruct (Z.eqb_spec held 0) as [->|Hne]; [split; [done|lia]|]. cbn. split; [done|]. intros _.
    destruct (Hb E0) as [Hm Hi]. unfold u64, wrap, U64_MAX in *. rewrite Z.mod_small; lia. }
  destruct Eb' as (b' & Eb' & Em & Ei). destruct Ha as [? [? _]]. split.
  - split; try done.
    + intros _. by apply a_held0.
    + unfold budget_ok. rewrite Eb', Em. intros E0. rewrite (Ei E0). destruct (Hb E0) as [Hm Hi].
      change (ours r') with (ours r). change (default 0 (Some rest)) with rest. split; lia.
  - unfold share. rewrite Eb, Eb', Em. destruct (Z.eqb_spec (budget.max_bytes b) 0) as [E0|E0]; [done|].
    rewrite (Ei E0). change (ours r') with (ours r). cbn. lia.
Qed.

Lemma acc_none L ch r : acc L ch (Some 0) r → acc L ch None r ∧ share None r = share (Some 0) r.
Proof.
  intros []. split; [|done]. split; try done. unfold budget_ok in *. destruct (body_budget r); [done|].
  by destruct a_budget0 as (? & ? & ?).
Qed.

(** The lease in transit is dropped. *)
Lemma acc_drop_lease L ch r l :
  acc L ch l r → acc L ch None (drop_lease r l) ∧ share None (drop_lease r l) = share l r.
Proof.
  intros Ha. destruct (a_transit _ _ _ _ Ha) as [_ Hh]. destruct l as [held|]; [|by destruct Ha]. cbn in Hh.
  replace held with (held + 0) in Ha by lia. apply acc_drop_part in Ha as [Ha E]; [|lia..].
  apply acc_none in Ha as [Ha E']. split; [done|]. rewrite E', E. by replace (held + 0) with held by lia.
Qed.

Lemma acc_release L ch l r : acc L ch l r → acc L 0 l (release_request_charge r ch) ∧ share l (release_request_charge r ch) = share l r.
Proof.
  intros Ha. pose proof (charged_nonneg _ _ _ _ Ha). pose proof (sum2_nonneg _ (a_charges _ _ _ _ Ha)). destruct Ha.
  destruct a_transit0. split; [|done].
  split; try done; change (total_req_bytes (release_request_charge r ch)) with (saturating_sub (total_req_bytes r) ch);
    unfold saturating_sub; cbn -[sum_map sum2]; lia.
Qed.

Lemma take_fields r id :
  let '(r1, taken) := take_request_for_dispatch r id in
  total_req_bytes r1 = total_req_bytes r ∧ req_frames r1 = delete id (req_frames r) ∧ charges r1 = charges r ∧
  task_leases r1 = task_leases r ∧ body_leases r1 = delete id (body_leases r) ∧ body_budget r1 = body_budget r ∧
  request_snapshots r1 = delete id (request_snapshots r) ∧ requests r1 = requests r ∖ {[id]} ∧
  req_buf r1 = delete id (req_buf r) ∧ sender r1 = sender r ∧
  frames taken = default counter_default (req_frames r !! id) ∧ lease taken = body_leases r !! id ∧
  snapshot taken = request_snapshots r !! id ∧
  next_request_deadline_sequence r1 = next_request_deadline_sequence r ∧
  request_deadlines r1 = match request_snapshots r !! id ≫= deadline with
                         | Some key => key_remove key (request_deadlines r)
                         | None => request_deadlines r
                         end.
Proof. unfold take_request_for_dispatch. destruct (request_snapshots r !! id ≫= deadline); cbn; split_and!; done. Qed.

Lemma acc_take L r id :
  acc L 0 None r →
  let '(r1, taken) := take_request_for_dispatch r id in
  acc L (charged (frames taken)) (lease taken) r1 ∧ share (lease taken) r1 = share None r.
Proof.
  intros Ha. pose proof (take_fields r id) as Ht. destruct (take_request_for_dispatch r id) as [r1 taken].
  destruct Ht as (E1 & E2 & E3 & E4 & E5 & E6 & E7 & _ & _ & _ & E8 & E9 & _).
  assert (Ho : ours r1 = ours r - default 0 (lease taken)).
  { unfold ours. rewrite E4, E5, E9, (sum_map_take _ _ id 0) by done. lia. }
  assert (Hch : 0 <= charged (frames taken)).
  { rewrite E8. destruct (req_frames r !! id) as [f|] eqn:Ef; [apply (a_frames _ _ _ _ Ha id f Ef)|done]. }
  assert (Hh : 0 <= default 0 (lease taken)).
  { rewrite E9. destruct (body_leases r !! id) as [x|] eqn:Ex; [|done].
    destruct (lease_charged _ _ _ _ id x Ha Ex) as (f & Hf & <-). apply (a_frames _ _ _ _ Ha id f Hf). }
  destruct Ha. split.
  - split; rewrite ?E1, ?E2, ?E3, ?E4, ?E7; try done.
    + rewrite E8, (sum_map_take _ _ id counter_default) by done. lia.
    + by apply map_Forall_delete.
    + intros id'. rewrite E5. intros [x [Hne Hx]%lookup_delete_Some]. rewrite lookup_delete_ne by done. by apply a_leases0.
    + rewrite E5, E6. intros Hb id'. destruct (decide (id = id')) as [<-|Hne]; [by rewrite !lookup_delete_eq|].
      rewrite !lookup_delete_ne by done. by apply a_held0.
    + unfold budget_ok in *. rewrite E6. destruct (body_budget r) as [b|]; [rewrite Ho; intros Hm; destruct (a_budget0 Hm); split; lia|].
      destruct a_budget0 as (El & Et & _). rewrite E5, E4, E9, El. by rewrite delete_empty.
    + by apply map_Forall_delete.
  - unfold share. rewrite E6, Ho. destruct (body_budget r); [|done]. change (default 0 None) with 0. case_if; lia.
Qed.

Lemma acc_reclaim L r id : acc L 0 None r → acc L 0 None (reclaim_request r id) ∧ share None (reclaim_request r id) = share None r.
Proof.
  intros Ha. apply (acc_take L r id) in Ha. unfold reclaim_request. destruct (take_request_for_dispatch r id) as [r1 taken].
  destruct Ha as [Ha <-]. apply acc_release in Ha as [Ha <-]. by apply acc_drop_lease.
Qed.

Lemma acc_task L r id : acc L 0 None r → acc L 0 None (to_task r id) ∧ share None (to_task r id) = share None r.
Proof.
  intros Ha. apply (acc_take L r id) in Ha. unfold to_task. destruct (take_request_for_dispatch r id) as [r1 taken].
  destruct Ha as [Ha <-]. set (r2 := r1 <| charges := _ |> <| task_leases := _ |>).
  assert (Ho : ours r2 = ours r1 + default 0 (lease taken)).
  { unfold ours, r2. cbn -[sum_map sum2]. destruct (lease taken) as [x|]; [|cbn -[sum_map sum2]; lia].
    rewrite sum2_app. change (sum2 [(id, x)]) with (x + 0). cbn -[sum_map sum2]. lia. }
  destruct Ha. destruct a_transit0 as [Hc Hh]. split.
  - split; try done; cbn -[sum_map sum2].
    + rewrite sum2_app. change (sum2 [(id, charged (frames taken))]) with (charged (frames taken) + 0). lia.
    + apply Forall_app. by repeat constructor.
    + destruct (lease taken); [|done]. apply Forall_app. by repeat constructor.
    + unfold budget_ok in *. change (body_budget r2) with (body_budget r1). destruct (body_budget r1) as [b|].
      * rewrite Ho. change (default 0 None) with 0. intros Hm. destruct (a_budget0 Hm). split; lia.
      * destruct a_budget0 as (E1 & E2 & E3). cbn. split; [done|]. rewrite E2, E3. done.
  - unfold share. change (body_budget r2) with (body_budget r1). rewrite Ho. destruct (body_budget r1); [|done]. change (default 0 None) with 0. case_if; lia.
Qed.

Fixpoint zsum (hs : list Z) : Z :=
  match hs with [] => 0 | h :: hs => h + zsum hs end.

Lemma acc_fold L ch r hs :
  Forall (fun h => 0 <= h) hs → acc L ch (Some (zsum hs)) r →
  let r' := fold_left (fun r held => drop_lease r (Some held)) hs r in
  acc L ch None r' ∧ share None r' = share (Some (zsum hs)) r.
Proof.
  intros Hf. revert r. induction Hf as [|h hs Hh Hf IH]; intros r; cbn [fold_left zsum]; [apply acc_none|]. intros Ha.
  assert (0 <= zsum hs) by (clear -Hf; induction Hf; cbn; lia).
  apply acc_drop_part in Ha as [Ha <-]; [|done..]. by apply IH.
Qed.

Lemma sum_map_list (m : gmap Z Z) : sum_map (fun h => h) m = zsum (map_to_list m).*2.
Proof.
  unfold sum_map. rewrite map_fold_foldr. induction (map_to_list m) as [|[k x] l IH]; [done|]. cbn in *. by rewrite IH.
Qed.

Lemma acc_buffered L r :
  acc L 0 None r → acc L 0 None (reclaim_buffered_requests r) ∧ share None (reclaim_buffered_requests r) = share None r.
Proof.
  intros Ha. unfold reclaim_buffered_requests. set (bytes := sum_map charged (req_frames r)).
  set (hs := (map_to_list (body_leases r)).*2). set (r0 := r <| requests := _ |> <| readable_requests := _ |>
    <| request_deadlines := _ |> <| request_snapshots := _ |> <| req_frames := _ |> <| req_buf := _ |> <| body_leases := _ |>).
  pose proof (charged_nonneg _ _ _ _ Ha) as Hc. pose proof (ours_nonneg _ _ _ _ Ha) as Ho.
  assert (Hhs : Forall (fun h => 0 <= h) hs).
  { apply Forall_forall. intros x Hx. apply list_elem_of_fmap in Hx as ([k y] & -> & Hx%elem_of_map_to_list).
    destruct (lease_charged _ _ _ _ k y Ha Hx) as (f & Hf & <-). apply (a_frames _ _ _ _ Ha k f Hf). }
  assert (Hs : 0 <= zsum hs) by (clear -Hhs; induction Hhs; cbn; lia).
  assert (Eo : ours r = ours r0 + zsum hs).
  { unfold ours, r0. cbn -[sum_map sum2]. rewrite sum_map_empty, sum_map_list. fold hs. lia. }
  pose proof (a_budget _ _ _ _ Ha) as Hb. unfold budget_ok in Hb.
  assert (H0 : ∀ l, budget_ok l r0 → 0 <= default 0 l → acc L bytes l r0).
  { intros l Hl Hd. destruct Ha. split; try done; cbn -[sum_map sum2]; rewrite ?sum_map_empty; try done.
    - unfold bytes. lia.
    - intros id [x Hx]. by rewrite lookup_empty in Hx. }
  destruct (body_budget r) as [b|] eqn:Eb.
  - destruct (acc_fold L bytes r0 hs Hhs) as [Hf Ef].
    { apply H0; [|done]. unfold budget_ok. change (body_budget r0) with (body_budget r). rewrite Eb. intros Hm.
      destruct (Hb Hm) as [? ?]. change (default 0 None) with 0 in *. change (default 0 (Some (zsum hs))) with (zsum hs).
      split; lia. }
    apply acc_release in Hf as [Hf Ef']. split; [done|]. rewrite Ef', Ef. unfold share.
    change (body_budget r0) with (body_budget r). rewrite Eb. case_if; [done|]. cbn -[sum_map sum2 zsum hs]. cbn. lia.
  - assert (hs = []) as -> by (destruct Hb as (E & _); unfold hs; by rewrite E, map_to_list_empty).
    cbn [fold_left]. destruct (acc_release L bytes None r0) as [Hf Ef].
    { apply H0; [|done]. unfold budget_ok. change (body_budget r0) with (body_budget r). rewrite Eb. by destruct Hb as (_ & ? & _). }
    split; [done|]. rewrite Ef. unfold share. change (body_budget r0) with (body_budget r). by rewrite Eb.
Qed.

Lemma acc_drop_charge L r i : acc L 0 None r → acc L 0 None (drop_charge r i) ∧ share None (drop_charge r i) = share None r.
Proof.
  intros Ha. unfold drop_charge. destruct (charges r !! i) as [[id bytes]|] eqn:Ei; [|done].
  pose proof (charged_nonneg _ _ _ _ Ha). pose proof (sum2_ge _ _ _ (a_charges _ _ _ _ Ha) Ei) as Hg. cbn [snd] in Hg.
  pose proof (proj1 (Forall_lookup _ _) (a_charges _ _ _ _ Ha) _ _ Ei) as Hb. cbn [snd] in Hb.
  destruct Ha. split; [|done]. split; try done; cbn -[sum_map sum2]; unfold saturating_sub.
  - rewrite (sum2_cut _ _ _ Ei). cbn [snd]. lia.
  - lia.
  - apply Forall_app. split; [by apply Forall_take|by apply Forall_drop].
Qed.

Lemma acc_drop_task L r i : acc L 0 None r → acc L 0 None (drop_task_lease r i) ∧ share None (drop_task_lease r i) = share None r.
Proof.
  intros Ha. unfold drop_task_lease. destruct (task_leases r !! i) as [[id held]|] eqn:Ei; [|done].
  set (r1 := r <| task_leases := _ |>). pose proof (proj1 (Forall_lookup _ _) (a_tasks _ _ _ _ Ha) _ _ Ei) as Hb. cbn [snd] in Hb.
  assert (Ho : ours r1 = ours r - held).
  { unfold ours, r1. cbn -[sum_map sum2]. rewrite (sum2_cut _ _ _ Ei). cbn [snd]. lia. }
  destruct (acc_drop_lease L 0 r1 (Some held)) as [Hd Ed].
  - destruct Ha. split; try done; cbn -[sum_map sum2 drop].
    + apply Forall_app. split; [by apply Forall_take|by apply Forall_drop].
    + unfold budget_ok in *. change (body_budget r1) with (body_budget r). destruct (body_budget r) as [b|].
      * rewrite Ho. intros Hm. destruct (a_budget0 Hm). change (default 0 None) with 0 in *.
        change (default 0 (Some held)) with held. split; lia.
      * destruct a_budget0 as (_ & E & _). by rewrite E in Ei.
  - split; [done|]. rewrite Ed. unfold share. change (body_budget r1) with (body_budget r). rewrite Ho.
    destruct (body_budget r); [|done]. case_if; [done|]. cbn -[sum_map sum2 ours]. lia.
Qed.

Lemma sum_map_put {A} (f : A → Z) (m : gmap Z A) k d a :
  f d = 0 → sum_map f (<[k := a]> m) = sum_map f m - f (default d (m !! k)) + f a.
Proof.
  intros Hd. destruct (m !! k) as [x|] eqn:E; cbn [default from_option].
  - by rewrite (sum_map_insert f m k x a E).
  - rewrite sum_map_insert_new by done. cbn. lia.
Qed.

(** The frames of a request are parsed on, its charge unchanged. *)
Lemma acc_parsed L r id f bufs :
  acc L 0 None r → frames_ok f → charged f = charged (default counter_default (req_frames r !! id)) →
  let r' := r <| req_frames := <[id := f]> (req_frames r) |> <| req_buf := bufs |> in
  acc L 0 None r' ∧ share None r' = share None r.
Proof.
  intros [] Hf Hc r'. split; [|done]. split; try done; cbn -[sum_map sum2].
  - rewrite (sum_map_put _ _ id counter_default) by done. lia.
  - by apply map_Forall_insert_2.
  - intros id' Hx. destruct (decide (id = id')) as [<-|Hne]; [rewrite lookup_insert_eq; by eexists|].
    rewrite lookup_insert_ne by done. by apply a_leases0.
  - intros Hb id'. destruct (decide (id = id')) as [<-|Hne]; [|rewrite lookup_insert_ne by done; by apply a_held0].
    rewrite lookup_insert_eq, (a_held0 Hb). cbn. rewrite Hc. by destruct (req_frames r !! id).
Qed.

(** Octets are charged to a request: the connection's total and, if there is a budget, its
    lease grow by them. *)
Definition charge_to (r : H3Requests) (id : Z) (f : H3FrameCounter) (total : Z) (lease : option (budget.BodyBufferBudget * Z)) :
    H3Requests :=
  match lease with
  | Some (b, held) =>
      r <| body_budget := Some b |> <| body_leases := <[id := held]> (body_leases r) |>
        <| req_frames := <[id := f]> (req_frames r) |> <| total_req_bytes := total |>
  | None => r <| req_frames := <[id := f]> (req_frames r) |> <| total_req_bytes := total |>
  end.

Lemma acc_charged L r id f f' charge lease :
  acc L 0 None r → req_frames r !! id = Some f → 0 <= charge → frames_ok f' → charged f' = charged f + charge →
  total_req_bytes r + charge <= L →
  match body_budget r, lease with
  | Some b, Some (b', held) =>
      held = default 0 (body_leases r !! id) + charge ∧ budget.max_bytes b' = budget.max_bytes b ∧
      (budget.max_bytes b ≠ 0 → budget.in_flight b' = budget.in_flight b + charge ∧ budget.in_flight b + charge <= budget.max_bytes b)
  | None, None => True
  | _, _ => False
  end →
  let r' := charge_to r id f' (total_req_bytes r + charge) lease in
  acc L 0 None r' ∧ share None r' = share None r.
Proof.
  intros Ha Hf Hc Hf' Ec Hl Hb r'. unfold r', charge_to. destruct Ha.
  destruct (body_budget r) as [b|] eqn:Eb, lease as [[b' held]|]; try done.
  - destruct Hb as (-> & Em & Ei). set (r1 := _ <| total_req_bytes := _ |>).
    assert (Ho : ours r1 = ours r + charge).
    { unfold ours, r1. cbn -[sum_map sum2]. rewrite (sum_map_put _ _ id 0) by done. lia. }
    unfold budget_ok in a_budget0. rewrite Eb in a_budget0. split.
    + split; try done; cbn -[sum_map sum2].
      * rewrite (sum_map_insert _ _ id f) by done. lia.
      * by apply map_Forall_insert_2.
      * intros id'. destruct (decide (id = id')) as [<-|Hne]; [rewrite !lookup_insert_eq; by eexists|].
        rewrite !lookup_insert_ne by done. apply a_leases0.
      * intros _ id'. destruct (decide (id = id')) as [<-|Hne]; [|rewrite !lookup_insert_ne by done; apply a_held0; by eexists].
        rewrite !lookup_insert_eq. cbn. rewrite a_held0 by (by eexists). rewrite Hf. cbn. lia.
      * unfold budget_ok. cbn -[sum_map sum2 ours]. change (default 0 None) with 0 in *. rewrite Em, Ho. intros Hm.
        destruct (Ei Hm). destruct (a_budget0 Hm). split; lia.
    + unfold share. change (body_budget r1) with (Some b'). rewrite Eb, Em, Ho. destruct (Z.eqb_spec (budget.max_bytes b) 0) as [|Hm]; [done|].
      destruct (Ei Hm). cbn -[sum_map sum2 ours]. lia.
  - split; [|unfold share; cbn; by rewrite Eb]. unfold budget_ok in a_budget0. rewrite Eb in a_budget0.
    destruct a_budget0 as (El & Et & _). split; try done; cbn -[sum_map sum2].
    + rewrite (sum_map_insert _ _ id f) by done. lia.
    + by apply map_Forall_insert_2.
    + intros id'. rewrite El, lookup_empty. by intros [].
    + rewrite Eb. by intros [].
    + unfold budget_ok. cbn. by rewrite Eb.
Qed.

(** A lease is refused: it stays as it was. *)
Lemma acc_refused L r id b b' :
  acc L 0 None r → is_Some (req_frames r !! id) → body_budget r = Some b →
  budget.max_bytes b' = budget.max_bytes b → budget.in_flight b' = budget.in_flight b →
  let r' := r <| body_budget := Some b' |> <| body_leases := <[id := default 0 (body_leases r !! id)]> (body_leases r) |> in
  acc L 0 None r' ∧ share None r' = share None r.
Proof.
  intros [] Hf Eb Em Ei r'.
  assert (Ho : ours r' = ours r) by (unfold ours, r'; cbn -[sum_map sum2]; rewrite (sum_map_put _ _ id 0) by done; lia).
  unfold budget_ok in a_budget0. rewrite Eb in a_budget0. split.
  - split; try done; cbn -[sum_map sum2].
    + intros id'. destruct (decide (id = id')) as [<-|Hne]; [done|]. rewrite lookup_insert_ne by done. apply a_leases0.
    + intros _ id'. rewrite <- a_held0 by (by eexists). destruct (decide (id = id')) as [<-|Hne]; [by rewrite lookup_insert_eq|].
      by rewrite lookup_insert_ne.
    + unfold budget_ok. cbn -[sum_map sum2 ours]. by rewrite Em, Ei, Ho.
  - unfold share. change (body_budget r') with (Some b'). by rewrite Eb, Em, Ei, Ho.
Qed.

Lemma reserve_cases b held n :
  0 <= n → (budget.max_bytes b ≠ 0 → budget.max_bytes b < U64_MAX) →
  let '(ok, b', held') := budget.lease_reserve b held n in
  budget.max_bytes b' = budget.max_bytes b ∧
  if ok : bool then
    held' = held + n ∧
    (budget.max_bytes b ≠ 0 →
     budget.in_flight b' = budget.in_flight b + n ∧ budget.in_flight b + n <= budget.max_bytes b)
  else held' = held ∧ budget.in_flight b' = budget.in_flight b.
Proof.
  intros Hn Hm. unfold budget.lease_reserve, budget.try_acquire, budget.reserve.
  destruct (Z.eqb_spec (budget.max_bytes b) 0) as [E|E]; [done|]. specialize (Hm E).
  destruct (Z.ltb_spec (budget.max_bytes b) (saturating_add (budget.in_flight b) n)) as [Hl|Hl]; [done|].
  cbn. split; [done|]. split; [done|]. intros _. split; [done|]. unfold saturating_add, U64_MAX in *. lia.
Qed.

Lemma frames_default L ch l r id : acc L ch l r → frames_ok (default counter_default (req_frames r !! id)).
Proof.
  intros Ha. destruct (req_frames r !! id) as [f|] eqn:Ef; [apply (a_frames _ _ _ _ Ha id f Ef)|].
  split; [done|]. by split.
Qed.

Lemma checked_add_sum a b c : checked_add a b = Some c → c = a + b.
Proof. unfold checked_add. case_if; [|done]. by intros [= <-]. Qed.

Lemma acc_append L r id s bytes :
  acc L 0 None r → request_snapshots r !! id = Some s →
  let r' := (append_request_bytes capacity slots r id bytes (limits (config s))).1 in
  acc L 0 None r' ∧ share None r' = share None r.
Proof.
  intros Ha Hs. pose proof (a_limits _ _ _ _ Ha id s Hs) as HL. cbn beta in HL. unfold append_request_bytes.
  destruct (checked_add (total_req_bytes r) (zlen bytes)) as [t1|] eqn:E1; [|done]. apply checked_add_sum in E1.
  destruct (Z.ltb_spec (max_connection_bytes (limits (config s))) t1) as [?|_]; [done|].
  pose proof (frames_default _ _ _ _ id Ha) as [Hc0 Hf0]. set (f0 := default counter_default (req_frames r !! id)) in *.
  pose proof (consume_grew capacity slots capacity_nonneg slots_nonneg f0 bytes (default [] (req_buf r !! id)) (limits (config s)) Hf0) as Hg.
  destruct (consume capacity slots f0 bytes _ _) as [[f1 body1] res]. cbn [fst] in Hg. destruct Hg as (Hf1 & Hfp & Hc1 & Hw1).
  set (r1 := r <| req_frames := _ |> <| req_buf := _ |>).
  destruct (acc_parsed L r id f1 (<[id := body1]> (req_buf r)) Ha) as [Ha1 Es1]; [split; [lia|done]|exact Hc1|]. fold r1 in Ha1, Es1.
  destruct res as [[]|e]; [|done]. rewrite <- Es1. clear Es1.
  set (charge := zlen bytes + (head_footprint f1 - head_footprint f0)).
  assert (Hch : 0 <= charge) by (unfold charge; pose proof (zlen_nonneg bytes); lia).
  destruct (checked_add t1 (charge - zlen bytes)) as [t2|] eqn:E2; [|done]. apply checked_add_sum in E2.
  destruct (Z.ltb_spec (max_connection_bytes (limits (config s))) t2) as [?|Ht2]; [done|].
  assert (Et2 : t2 = total_req_bytes r1 + charge) by (cbn; lia). clear E1 E2 Hs. clearbody charge.
  assert (Hl1 : req_frames r1 !! id = Some f1) by (unfold r1; cbn; apply lookup_insert_eq).
  set (f2 := f1 <| charged := _ |> <| wire_bytes := _ |>).
  assert (Hf2 : frames_ok f2 ∧ charged f2 = charged f1 + charge) by (split; [split; [cbn; lia|by destruct Hf1; split]|done]).
  destruct Hf2 as [Hf2 Ec2]. pose proof (a_budget _ _ _ _ Ha1) as Hb. unfold budget_ok in Hb. subst t2.
  destruct (body_budget r1) as [b|] eqn:Eb.
  - pose proof (reserve_cases b (default 0 (body_leases r1 !! id)) charge Hch) as Hr.
    destruct (budget.lease_reserve b (default 0 (body_leases r1 !! id)) charge) as [[ok b'] held'].
    destruct Hr as [Em Hr]; [intros Hm; by destruct (Hb Hm)|]. destruct ok; cbn [negb].
    + destruct (acc_charged L r1 id f1 f2 charge (Some (b', held')) Ha1 Hl1 Hch Hf2 Ec2) as [Hx Ex];
        [lia|rewrite Eb; by destruct Hr as [-> Hr]|].
      by case_if.
    + destruct Hr as [-> Ei]. by eapply acc_refused.
  - destruct (acc_charged L r1 id f1 f2 charge None Ha1 Hl1 Hch Hf2 Ec2) as [Hx Ex]; [lia|by rewrite Eb|]. cbn [negb]. by case_if.
Qed.

Lemma limits_flag L r id s s' :
  request_snapshots r !! id = Some s → config s' = config s →
  map_Forall (fun _ s => max_connection_bytes (limits (config s)) <= L) (request_snapshots r) →
  map_Forall (fun _ s => max_connection_bytes (limits (config s)) <= L) (<[id := s']> (request_snapshots r)).
Proof. intros Hs E Hm. apply map_Forall_insert_2; [|done]. rewrite E. by apply (Hm id s). Qed.

Lemma acc_extend L r id buffered now :
  acc L 0 None r → acc L 0 None (extend_request_deadline r id buffered now) ∧
  share None (extend_request_deadline r id buffered now) = share None r.
Proof.
  intros Ha. pose proof (a_limits _ _ _ _ Ha) as Hl. unfold extend_request_deadline.
  destruct (request_snapshots r !! id) as [s|] eqn:Es; [|done]. repeat case_match; try done.
  all: apply (acc_same L 0 None r); try done; by eapply limits_flag.
Qed.

Lemma acc_track L r id at_ s :
  max_connection_bytes (limits (config s)) <= L → acc L 0 None r →
  acc L 0 None (track_request_stream r id at_ s) ∧ share None (track_request_stream r id at_ s) = share None r.
Proof.
  intros Hl Ha. pose proof (a_limits _ _ _ _ Ha) as Hm. unfold track_request_stream. case_bool_decide; [done|].
  destruct (timeout (config s)); apply (acc_same L 0 None r); try done; by apply map_Forall_insert_2.
Qed.

Lemma acc_prim L r r' : prim r r' → acc L 0 None r → acc L 0 None r' ∧ share None r' = share None r.
Proof.
  intros Hp Ha. pose proof (a_limits _ _ _ _ Ha) as Hl. destruct Hp.
  - by apply (acc_same L 0 None r).
  - by apply (acc_same L 0 None r).
  - apply (acc_same L 0 None r); try done. by eapply limits_flag.
  - by apply acc_extend.
  - by apply acc_reclaim.
  - by apply acc_buffered.
  - by apply acc_append.
  - by apply acc_task.
  - by apply acc_drop_charge.
  - by apply acc_drop_task.
Qed.

(** *** Streams *)

(** What the fields other than the budget's see of dropping leases. *)
Lemma drop_lease_shape r l : ∃ b, drop_lease r l = r <| body_budget := b |>.
Proof.
  unfold drop_lease. destruct l as [h|], (body_budget r) as [b|] eqn:E;
    [by eexists| | |]; exists (body_budget r); by destruct r.
Qed.

Lemma fold_drop_shape r hs : ∃ b, fold_left (fun r held => drop_lease r (Some held)) hs r = r <| body_budget := b |>.
Proof.
  revert r. induction hs as [|h hs IH]; intros r; cbn [fold_left]; [exists (body_budget r); by destruct r|].
  destruct (drop_lease_shape r (Some h)) as [b ->]. destruct (IH (r <| body_budget := b |>)) as [b' ->]. by exists b'.
Qed.

Lemma append_request_fields r id bytes limits_ :
  let r' := (append_request_bytes capacity slots r id bytes limits_).1 in
  requests r' = requests r ∧ request_snapshots r' = request_snapshots r ∧ request_deadlines r' = request_deadlines r ∧
  next_request_deadline_sequence r' = next_request_deadline_sequence r ∧ sender r' = sender r ∧
  (∀ id', is_Some (req_frames r' !! id') → id' = id ∨ is_Some (req_frames r !! id')) ∧
  (∀ id', is_Some (req_buf r' !! id') → id' = id ∨ is_Some (req_buf r !! id')).
Proof.
  assert (Hi : ∀ A (m : gmap Z A) a id', is_Some (<[id := a]> m !! id') → id' = id ∨ is_Some (m !! id')).
  { intros A m a id'. rewrite lookup_insert_is_Some. naive_solver. }
  assert (Hr : ∀ A (m : gmap Z A) id', is_Some (m !! id') → id' = id ∨ is_Some (m !! id')) by (intros; by right).
  assert (Hii : ∀ A (m : gmap Z A) a b id', is_Some (<[id := a]> (<[id := b]> m) !! id') → id' = id ∨ is_Some (m !! id')).
  { intros A m a b id' [?|Hx]%Hi; [by left|]. by apply Hi in Hx. }
  unfold append_request_bytes. destruct (checked_add _ _); [|split_and!; try done; apply Hr].
  destruct (_ <? _); [split_and!; try done; apply Hr|].
  destruct (consume _ _ _ _ _ _) as [[f1 b1] [[]|e]]; [|split_and!; try done; apply Hi].
  destruct (checked_add _ _); [|split_and!; try done; apply Hi]. destruct (_ <? _); [split_and!; try done; apply Hi|].
  destruct (body_budget _) as [b|]; [destruct (budget.lease_reserve _ _ _) as [[[] b'] held]|];
    cbn [negb]; try (destruct (_ <? _)); split_and!; try done; first [apply Hii|apply Hi].
Qed.

Record dom_inv (r : H3Requests) : Prop := {
  d_snap : ∀ id, id ∈ requests r ↔ is_Some (request_snapshots r !! id);
  d_frames : ∀ id, is_Some (req_frames r !! id) → id ∈ requests r;
  d_buf : ∀ id, is_Some (req_buf r !! id) → id ∈ requests r;
  d_size : Z.of_nat (size (requests r)) <= 2 * MAX_CONCURRENT_BIDI_STREAMS;
}.

Lemma dom_same r r' :
  requests r' = requests r → (∀ id, is_Some (request_snapshots r' !! id) ↔ is_Some (request_snapshots r !! id)) →
  req_frames r' = req_frames r → req_buf r' = req_buf r → dom_inv r → dom_inv r'.
Proof. intros E1 E2 E3 E4 []. split; intros; rewrite ?E1, ?E2, ?E3, ?E4 in *; auto. Qed.

Lemma snap_put (m : gmap Z H3RequestSnapshot) id s s' id' :
  m !! id = Some s → is_Some (<[id := s']> m !! id') ↔ is_Some (m !! id').
Proof. intros Hs. rewrite lookup_insert_is_Some. destruct (decide (id = id')) as [<-|]; [rewrite Hs|]; naive_solver. Qed.

Lemma dom_take r id : dom_inv r → dom_inv (take_request_for_dispatch r id).1.
Proof.
  intros []. pose proof (take_fields r id) as Ht. destruct (take_request_for_dispatch r id) as [r1 taken]. cbn [fst].
  destruct Ht as (_ & E2 & _ & _ & _ & _ & E7 & E8 & E9 & _). split.
  - intros id'. rewrite E7, E8, elem_of_difference, elem_of_singleton, lookup_delete_is_Some, d_snap0. naive_solver.
  - intros id'. rewrite E2, E8, elem_of_difference, elem_of_singleton, lookup_delete_is_Some. naive_solver.
  - intros id'. rewrite E8, E9, elem_of_difference, elem_of_singleton, lookup_delete_is_Some. naive_solver.
  - rewrite E8. etrans; [|exact d_size0]. apply inj_le, subseteq_size. set_solver.
Qed.

Lemma dom_budget r b : dom_inv r → dom_inv (r <| body_budget := b |>).
Proof. by apply dom_same. Qed.

Lemma dom_prim r r' : prim r r' → dom_inv r → dom_inv r'.
Proof.
  intros Hp Hd. destruct Hp.
  - by apply (dom_same r).
  - by apply (dom_same r).
  - apply (dom_same r); try done. intros id'. by eapply snap_put.
  - unfold extend_request_deadline. destruct (request_snapshots r !! id) as [s|] eqn:Es; [|done].
    repeat case_match; try done; apply (dom_same r); try done; intros id'; by eapply snap_put.
  - unfold reclaim_request. pose proof (dom_take r id Hd) as Ht. destruct (take_request_for_dispatch r id) as [r1 taken].
    destruct (drop_lease_shape (release_request_charge r1 (charged (frames taken))) (lease taken)) as [b ->].
    by apply (dom_same r1).
  - unfold reclaim_buffered_requests. destruct (fold_drop_shape (r <| requests := ∅ |> <| readable_requests := [] |>
      <| request_deadlines := [] |> <| request_snapshots := ∅ |> <| req_frames := ∅ |> <| req_buf := ∅ |> <| body_leases := ∅ |>)
      ((map_to_list (body_leases r)).*2)) as [b ->].
    split; cbn; try (intros id; rewrite lookup_empty; by intros []). 1: intros id; rewrite lookup_empty; split; [set_solver|by intros []].
    by rewrite size_empty.
  - pose proof (append_request_fields r id octets (limits (config s))) as (E1 & E2 & _ & _ & _ & E6 & E7). destruct Hd.
    assert (Hin : id ∈ requests r) by (apply d_snap0; by eexists).
    split; rewrite ?E1, ?E2; try done; intros id' Hx; [destruct (E6 _ Hx) as [->|?]|destruct (E7 _ Hx) as [->|?]]; auto.
  - unfold to_task. pose proof (dom_take r id Hd) as Ht. destruct (take_request_for_dispatch r id) as [r1 taken]. by apply (dom_same r1).
  - unfold drop_charge. destruct (charges r !! i) as [[]|]; [|done]. by apply (dom_same r).
  - unfold drop_task_lease. destruct (task_leases r !! i) as [[id held]|]; [|done].
    destruct (drop_lease_shape (r <| task_leases := take i (task_leases r) ++ drop (S i) (task_leases r) |>) (Some held)) as [b ->].
    by apply (dom_same r).
Qed.

Lemma dom_track r id at_ s :
  Z.of_nat (size (requests r)) < 2 * MAX_CONCURRENT_BIDI_STREAMS → dom_inv r → dom_inv (track_request_stream r id at_ s).
Proof.
  intros Hsz []. unfold track_request_stream. case_bool_decide as Hin; [by split|].
  set (f := match timeout (config s) with Some _ => _ | None => _ end).
  assert (Hf : requests f.1 = {[id]} ∪ requests r ∧ request_snapshots f.1 = request_snapshots r ∧ req_frames f.1 = req_frames r ∧
    req_buf f.1 = match req_buf r !! id with Some _ => req_buf r | None => <[id := []]> (req_buf r) end)
    by (unfold f; by destruct (timeout (config s))).
  clearbody f. destruct f as [r1 s1]. cbn [fst] in Hf. destruct Hf as (E1 & E2 & E3 & E4). split; cbn.
  - intros id'. rewrite E1, E2, elem_of_union, elem_of_singleton, lookup_insert_is_Some, d_snap0.
    destruct (decide (id' = id)); naive_solver.
  - intros id'. rewrite E1, E3. set_solver.
  - intros id'. rewrite E1, E4. destruct (req_buf r !! id) eqn:Eb; [set_solver|]. rewrite lookup_insert_is_Some. set_solver.
  - rewrite E1, size_union, size_singleton by set_solver. lia.
Qed.

(** *** Deadlines *)

(** The deadline of stream [id]: it has one iff it has a timeout, and it is never past the
    ceiling or the first value, counted from when the stream was accepted. *)
Definition snap_ok (next id : Z) (s : H3RequestSnapshot) : Prop :=
  match timeout (config s) with
  | None => deadline s = None
  | Some t =>
      ∃ k p, deadline s = Some k ∧ progress s = Some p ∧ stream k = id ∧ 0 <= sequence k < next ∧
        when k <= ceiling p - body_ceiling (config s) + Z.max t (body_ceiling (config s))
  end.

Record dl_inv (r : H3Requests) : Prop := {
  l_sorted : StronglySorted key_lt (request_deadlines r);
  l_keys : ∀ k, k ∈ request_deadlines r ↔
    ∃ s, request_snapshots r !! stream k = Some s ∧ deadline s = Some k;
  l_snap : ∀ id s, request_snapshots r !! id = Some s → snap_ok (next_request_deadline_sequence r) id s;
  l_seq : ∀ k k', k ∈ request_deadlines r → k' ∈ request_deadlines r → sequence k = sequence k' → k = k';
  l_next : 0 <= next_request_deadline_sequence r;
}.

Lemma dl_same r r' :
  request_deadlines r' = request_deadlines r → request_snapshots r' = request_snapshots r →
  next_request_deadline_sequence r' = next_request_deadline_sequence r → dl_inv r → dl_inv r'.
Proof. intros E1 E2 E3 []. split; rewrite ?E1, ?E2, ?E3; done. Qed.

(** A snapshot changes in what the deadlines do not see. *)
Lemma dl_flag r id s s' :
  request_snapshots r !! id = Some s → config s' = config s → deadline s' = deadline s →
  (∀ p, progress s = Some p → ∃ p', progress s' = Some p' ∧ ceiling p' = ceiling p) →
  dl_inv r → dl_inv (r <| request_snapshots := <[id := s']> (request_snapshots r) |>).
Proof.
  intros Hs Ec Ed Ep []. split; cbn; try done.
  - intros k. rewrite l_keys0. destruct (decide (id = stream k)) as [->|Hne].
    + rewrite lookup_insert_eq. split; intros (s0 & E & Hk); [exists s'|exists s]; (split; [done|]); congruence.
    + by rewrite lookup_insert_ne.
  - intros id' s0. destruct (decide (id = id')) as [<-|Hne]; [|rewrite lookup_insert_ne by done; apply l_snap0].
    rewrite lookup_insert_eq. intros [= <-]. pose proof (l_snap0 id s Hs) as Hk. unfold snap_ok in *. rewrite Ec, Ed.
    destruct (timeout (config s)); [|done]. destruct Hk as (k & p & Hk & Hp & Hw). destruct (Ep p Hp) as (p' & Hp' & Ecp).
    exists k, p'. by rewrite Ecp.
Qed.

(** Removing the key of a stream. *)
Lemma remove_key r id s key x :
  dl_inv r → request_snapshots r !! id = Some s → deadline s = Some key →
  key ∈ request_deadlines r ∧ stream key = id ∧ (x ∈ key_remove key (request_deadlines r) ↔ x ∈ request_deadlines r ∧ stream x ≠ id).
Proof.
  intros [] Hs Hk. pose proof (l_snap0 id s Hs) as Hok. unfold snap_ok in Hok.
  destruct (timeout (config s)); [|congruence]. destruct Hok as (k & p & Ek & _ & Hst & _). assert (k = key) as -> by congruence.
  assert (Hin : key ∈ request_deadlines r) by (apply l_keys0; exists s; by rewrite Hst).
  split; [done|]. split; [done|]. rewrite key_remove_elem. split; intros [Hx Hne]; (split; [done|]).
  - intros Hst'. apply Hne. apply l_keys0 in Hx as (s' & Hs' & Hk'). rewrite Hst', Hs in Hs'. injection Hs' as <-.
    rewrite Hk in Hk'. injection Hk' as <-. unfold key_cmp. by rewrite !Z.compare_refl.
  - intros Hc. apply Hne. pose proof (key_cmp_spec key x) as He. rewrite Hc in He. destruct He as [_ He].
    by rewrite <- (l_seq0 key x Hin Hx He).
Qed.

Lemma dl_take r id : dl_inv r → dl_inv (take_request_for_dispatch r id).1.
Proof.
  intros Hd. pose proof (take_fields r id) as Ht. destruct (take_request_for_dispatch r id) as [r1 taken]. cbn [fst].
  destruct Ht as (_ & _ & _ & _ & _ & _ & E7 & _ & _ & _ & _ & _ & _ & En & Edl).
  assert (Hel : ∀ x, x ∈ request_deadlines r1 ↔ x ∈ request_deadlines r ∧ stream x ≠ id).
  { intros x. rewrite Edl. destruct (request_snapshots r !! id ≫= deadline) as [key|] eqn:Ek.
    - apply bind_Some in Ek as (s & Hs & Hk). by apply (remove_key r id s key x Hd).
    - split; [|tauto]. intros Hx. split; [done|]. intros <-. apply (l_keys r Hd) in Hx as (s & Hs & Hk).
      by rewrite Hs in Ek; cbn in Ek; rewrite Hk in Ek. }
  assert (Hsort : StronglySorted key_lt (request_deadlines r1)).
  { rewrite Edl. destruct Hd. destruct (request_snapshots r !! id ≫= deadline); [by apply key_remove_sorted|done]. }
  destruct Hd. split; rewrite ?E7, ?En; try done.
  - intros k. rewrite Hel, l_keys0. split.
    + intros [(s & Hs & Hk) Hne]. exists s. by rewrite lookup_delete_ne.
    + intros (s & [Hne Hs]%lookup_delete_Some & Hk). split; [by exists s|done].
  - intros id' s [_ Hs]%lookup_delete_Some. by apply l_snap0.
  - intros k k' [Hk _]%Hel [Hk' _]%Hel. by apply l_seq0.
Qed.

Lemma dl_extend r id buffered now : dl_inv r → dl_inv (extend_request_deadline r id buffered now).
Proof.
  intros Hd. unfold extend_request_deadline. destruct (request_snapshots r !! id) as [s|] eqn:Es; [|done].
  destruct (timeout (config s)) as [t|] eqn:Et; [|done]. destruct (deadline s) as [key|] eqn:Ek; [|done].
  destruct (progress s) as [p|] eqn:Ep; [|done]. pose proof (extend_spec p (when key) buffered t now) as Hx.
  destruct (extend p (when key) buffered t now) as [[p' w'] moved]. destruct Hx as (Hc & Hw & _).
  destruct moved; [|apply (dl_flag r id s); try done; intros p0 Hp0; exists p'; split; [done|congruence]].
  set (key' := {| when := w'; sequence := sequence key; stream := stream key |}).
  destruct (remove_key r id s key key Hd Es Ek) as (Hin & Hst & _).
  pose proof (fun x => proj2 (proj2 (remove_key r id s key x Hd Es Ek))) as Hr.
  destruct Hd. assert (Hne : ∀ x, x ∈ key_remove key (request_deadlines r) → key_cmp key' x ≠ Eq).
  { intros x [Hx Hsx]%Hr Hcx. pose proof (key_cmp_spec key' x) as He. rewrite Hcx in He. destruct He as [_ He].
    apply Hsx. by rewrite <- (l_seq0 key x Hin Hx He). }
  assert (Hel : ∀ x, x ∈ key_insert key' (key_remove key (request_deadlines r)) ↔ x = key' ∨ x ∈ request_deadlines r ∧ stream x ≠ id).
  { intros x. by rewrite key_insert_elem, Hr. }
  split; cbn -[key_insert]; try done.
  - by apply key_insert_sorted, key_remove_sorted.
  - intros k. rewrite Hel, l_keys0. destruct (decide (id = stream k)) as [->|Hn].
    + rewrite lookup_insert_eq. split; [intros [->|[_ ?]]; [by eexists|done]|]. intros (s0 & [= <-] & Hk0). left. cbn in Hk0. by injection Hk0.
    + rewrite lookup_insert_ne by done. split; [intros [->|[? _]]; [by destruct Hn|done]|]. intros ?. by right.
  - intros id' s0. destruct (decide (id = id')) as [<-|Hn]; [|rewrite lookup_insert_ne by done; apply l_snap0].
    rewrite lookup_insert_eq. intros [= <-]. pose proof (l_snap0 id s Es) as Hk. unfold snap_ok in *. cbn. rewrite Et in *.
    destruct Hk as (k & p0 & Ek0 & Ep0 & Hk). assert (k = key) as -> by congruence. assert (p0 = p) as -> by congruence.
    exists key', p'. destruct Hk as (? & ? & ?). cbn. split_and!; try done; lia.
  - intros k k' Hk Hk' Hq. apply Hel in Hk as [->|[Hk Hk1]]; apply Hel in Hk' as [->|[Hk' Hk1']]; try done; cbn in Hq.
    + destruct Hk1'. by rewrite <- (l_seq0 key k' Hin Hk' Hq).
    + destruct Hk1. by rewrite (l_seq0 k key Hk Hin Hq).
    + by apply l_seq0.
Qed.

Lemma dl_empty next : 0 <= next → ∀ r, request_deadlines r = [] → request_snapshots r = ∅ →
  next_request_deadline_sequence r = next → dl_inv r.
Proof.
  intros Hn r E1 E2 E3. split; rewrite ?E1, ?E2, ?E3; [constructor| | | |done].
  - intros k. split; [by intros ?%not_elem_of_nil|]. intros (s & Hs & _). by rewrite lookup_empty in Hs.
  - intros id s. by rewrite lookup_empty.
  - by intros k k' ?%not_elem_of_nil.
Qed.

Lemma dl_prim r r' : prim r r' → dl_inv r → dl_inv r'.
Proof.
  intros Hp Hd. destruct Hp.
  - by apply (dl_same r).
  - by apply (dl_same r).
  - apply (dl_flag r id s); try done. intros p Hp. by exists p.
  - by apply dl_extend.
  - unfold reclaim_request. pose proof (dl_take r id Hd) as Ht. destruct (take_request_for_dispatch r id) as [r1 taken].
    destruct (drop_lease_shape (release_request_charge r1 (charged (frames taken))) (lease taken)) as [b ->].
    by apply (dl_same r1).
  - unfold reclaim_buffered_requests. destruct (fold_drop_shape (r <| requests := ∅ |> <| readable_requests := [] |>
      <| request_deadlines := [] |> <| request_snapshots := ∅ |> <| req_frames := ∅ |> <| req_buf := ∅ |> <| body_leases := ∅ |>)
      ((map_to_list (body_leases r)).*2)) as [b ->].
    by apply (dl_empty (next_request_deadline_sequence r) (l_next r Hd)).
  - pose proof (append_request_fields r id octets (limits (config s))) as (_ & E2 & E3 & E4 & _). by apply (dl_same r).
  - unfold to_task. pose proof (dl_take r id Hd) as Ht. destruct (take_request_for_dispatch r id) as [r1 taken]. by apply (dl_same r1).
  - unfold drop_charge. destruct (charges r !! i) as [[]|]; [|done]. by apply (dl_same r).
  - unfold drop_task_lease. destruct (task_leases r !! i) as [[id held]|]; [|done].
    destruct (drop_lease_shape (r <| task_leases := take i (task_leases r) ++ drop (S i) (task_leases r) |>) (Some held)) as [b ->].
    by apply (dl_same r).
Qed.

Lemma dl_key_bound r k : dl_inv r → k ∈ request_deadlines r → sequence k < next_request_deadline_sequence r.
Proof.
  intros [] Hk. apply l_keys0 in Hk as (s & Hs & Hd). pose proof (l_snap0 _ _ Hs) as Hok. unfold snap_ok in Hok.
  destruct (timeout (config s)); [|congruence]. destruct Hok as (k' & p & Ek & _ & _ & Hq & _).
  assert (k' = k) as -> by congruence. lia.
Qed.

Lemma snap_ok_next n n' id s : n <= n' → snap_ok n id s → snap_ok n' id s.
Proof.
  intros Hn. unfold snap_ok. destruct (timeout (config s)); [|done]. intros (k & p & H1 & H2 & H3 & H4 & H5).
  exists k, p. split_and!; try done; lia.
Qed.

Lemma dl_track r id at_ s :
  next_request_deadline_sequence r < U64_MAX → deadline s = None → dom_inv r → dl_inv r →
  dl_inv (track_request_stream r id at_ s).
Proof.
  intros Hn Hs Hdom Hd. unfold track_request_stream. case_bool_decide as Hin; [done|].
  assert (Hnone : request_snapshots r !! id = None) by (apply eq_None_not_Some; by rewrite <- (d_snap r Hdom)).
  pose proof (dl_key_bound r) as Hkb. destruct (timeout (config s)) as [t|] eqn:Et.
  - set (key := {| when := at_ + t; sequence := next_request_deadline_sequence r; stream := id |}).
    assert (Hu : u64 (next_request_deadline_sequence r + 1) = next_request_deadline_sequence r + 1)
      by (apply wrap_id; unfold U64_MAX in Hn; pose proof (l_next r Hd); lia).
    assert (Hel : ∀ x, x ∈ key_insert key (request_deadlines r) ↔ x = key ∨ x ∈ request_deadlines r).
    { intros x. apply key_insert_elem. intros k' Hk' Hc. pose proof (key_cmp_spec key k') as He. rewrite Hc in He.
      specialize (Hkb k' Hd Hk'). cbn in He. lia. }
    assert (Hst : ∀ x, x ∈ request_deadlines r → stream x ≠ id).
    { intros x (s' & Hx & _)%(l_keys r Hd) <-. congruence. }
    destruct Hd. split; cbn -[key_insert wrap Z.add]; rewrite ?Hu; fold key.
    + by apply key_insert_sorted.
    + intros k. rewrite Hel. destruct (decide (id = stream k)) as [Hid|Hne].
      * rewrite <- Hid, lookup_insert_eq. split; [intros [->|Hx%Hst]; [by eexists|by destruct Hx]|].
        intros (s0 & Hs0 & Hk0). left. injection Hs0 as <-. cbn in Hk0. congruence.
      * rewrite lookup_insert_ne by done. rewrite l_keys0. split; [intros [->|?]; [by destruct Hne|done]|]. intros ?. by right.
    + intros id' s0. destruct (decide (id = id')) as [<-|Hne].
      * rewrite lookup_insert_eq. intros [= <-]. unfold snap_ok. cbn -[Z.add]. rewrite Et. eexists key, _.
        change (ceiling (new at_ (body_ceiling (config s)) 0)) with (at_ + body_ceiling (config s)).
        split; [done|]. split; [done|]. split; [done|]. cbn -[Z.add]. lia.
      * rewrite lookup_insert_ne by done. intros Hs0. eapply snap_ok_next; [|by apply l_snap0]. lia.
    + intros k k' [->|Hk]%Hel [->|Hk']%Hel Hq; try done; [pose proof (Hkb k' ltac:(by split) Hk')|pose proof (Hkb k ltac:(by split) Hk)|by apply l_seq0];
        cbn in Hq; lia.
    + lia.
  - destruct Hd. split; cbn; try done.
    + intros k. rewrite l_keys0. destruct (decide (id = stream k)) as [->|Hne].
      * rewrite lookup_insert_eq, Hnone. split; [by intros (? & ? & _)|]. intros (s0 & [= <-] & Hk). cbn in Hk. congruence.
      * by rewrite lookup_insert_ne.
    + intros id' s0. destruct (decide (id = id')) as [<-|Hne]; [|rewrite lookup_insert_ne by done; apply l_snap0].
      rewrite lookup_insert_eq. intros [= <-]. unfold snap_ok. cbn. by rewrite Et.
Qed.

(** ** The handlers are made of primitive changes *)

Abbreviation prims := (rtc prim).

Lemma prims_sender r s : prims r (r <| sender := s |>).
Proof. apply rtc_once, p_sender. Qed.

Lemma prims_flag r id s b :
  request_snapshots r !! id = Some s →
  prims r (r <| request_snapshots := <[id := s <| read_queued := b |>]> (request_snapshots r) |>).
Proof. intros. by apply rtc_once, p_flag. Qed.

Lemma drop_lease_sender r s l : drop_lease (r <| sender := s |>) l = (drop_lease r l) <| sender := s |>.
Proof. unfold drop_lease. destruct l; [|done]. cbn. by destruct (body_budget r). Qed.

Section conn.
Context {Conn : Type} `{!Quinn Conn, !QuinnRecv Conn}.

Lemma append_chunks_prims r id s chunks n b :
  request_snapshots r !! id = Some s →
  let r' := (append_chunks capacity slots r id (limits (config s)) chunks n b).1.1.1 in
  prims r r' ∧ request_snapshots r' = request_snapshots r.
Proof.
  revert r n b. induction chunks as [|c chunks IH]; intros r n b Hs; cbn [append_chunks]; [done|].
  pose proof (p_append r id s c Hs) as Hp. pose proof (append_request_fields r id c (limits (config s))) as (_ & E2 & _).
  destruct (append_request_bytes capacity slots r id c (limits (config s))) as [r1 [len|e]]; cbn [fst] in *.
  - destruct (IH r1 (S n) (Some len)) as [H1 H2]; [by rewrite E2|]. split; [by eapply rtc_l|]. by rewrite H2.
  - split; [by apply rtc_once|done].
Qed.

Lemma refuse_prims c r id e now : prims r (refuse_request_stream c r id e now).2.
Proof.
  unfold refuse_request_stream. destruct e; try apply rtc_refl;
    destruct (queue_final_response _ _ _ _ _) as [c' s]; apply prims_sender.
Qed.

Lemma receive_stream_prims c r id now finished :
  prims r (receive_stream capacity slots c r id now finished).1.1.2.
Proof.
  unfold receive_stream. destruct (request_snapshots r !! id) as [s|] eqn:Es; cycle 1.
  { case_bool_decide; [|apply rtc_refl]. pose proof (refuse_prims c (reclaim_request r id) id Limit now) as Hr.
    destruct (refuse_request_stream _ _ _ _ _) as [c' r']. cbn [fst snd] in *. eapply rtc_l; [apply p_reclaim|done]. }
  etrans; [apply (prims_flag r id s false Es)|]. set (r1 := r <| request_snapshots := _ |>).
  unfold for_each_chunk. destruct (quinn_available c id) as [chunks end_].
  destruct (append_chunks_prims r1 id (s <| read_queued := false |>) chunks 0 None) as [Ha _]; [cbn; apply lookup_insert_eq|].
  change (limits (config (s <| read_queued := false |>))) with (limits (config s)) in Ha.
  destruct (append_chunks capacity slots r1 id (limits (config s)) chunks 0 None) as [[[r2 taken] buffered] result].
  cbn [fst] in Ha. etrans; [exact Ha|]. clear Ha. set (e := match result with Ok _ => end_ | Err _ => ROpen end).
  clearbody e. destruct e; cycle 2.
  { eapply rtc_l; [apply (p_reclaim r2 id)|]. destruct (charge_request_cancel _ _) as [s' []]; apply prims_sender. }
  all: destruct result as [[]|e].
  1: { destruct buffered as [n|]; [|apply rtc_refl]. destruct (progress s) as [p|]; [|apply rtc_refl].
       case_if; [apply rtc_once, p_extend|apply rtc_refl]. }
  2: apply rtc_refl.
  all: eapply rtc_l; [apply (p_reclaim r2 id)|]; destruct e; try apply prims_sender;
    match goal with |- context [refuse_request_stream ?c ?r ?id ?e ?now] =>
      pose proof (refuse_prims c r id e now) as Hr; by destruct (refuse_request_stream c r id e now) end.
Qed.

Lemma receive_streams_prims c r ids now finished :
  prims r (receive_streams capacity slots c r ids now finished).1.2.
Proof.
  revert c r finished. induction ids as [|id ids IH]; intros c r finished; cbn [receive_streams]; [apply rtc_refl|].
  pose proof (receive_stream_prims c r id now finished) as Hr.
  destruct (receive_stream capacity slots c r id now finished) as [[[c1 r1] f1] go]. cbn [fst snd] in Hr.
  etrans; [exact Hr|]. destruct go; [apply IH|apply rtc_refl].
Qed.

Lemma dispatch_prims c r inflight id now : prims r (dispatch_request c r inflight id now).1.2.
Proof.
  unfold dispatch_request. pose proof (p_reclaim r id) as Hr. pose proof (p_task r id) as Ht.
  unfold reclaim_request in Hr. unfold to_task in Ht. destruct (take_request_for_dispatch r id) as [r1 taken].
  destruct (snapshot taken); [|by apply rtc_once]. destruct (_ <=? _).
  - destruct (queue_final_response _ _ _ _ _) as [c' s]. cbn [fst snd].
    change (release_request_charge (r1 <| sender := s |>) (charged (frames taken)))
      with ((release_request_charge r1 (charged (frames taken))) <| sender := s |>).
    rewrite drop_lease_sender. eapply rtc_l; [exact Hr|]. apply prims_sender.
  - cbn [fst snd]. eapply rtc_l; [exact Ht|]. apply rtc_once. exact (p_sender _ _).
Qed.

Lemma dispatch_all_prims c r inflight ids now : prims r (dispatch_requests c r inflight ids now).1.2.
Proof.
  revert c r inflight. induction ids as [|id ids IH]; intros c r inflight; cbn [dispatch_requests]; [apply rtc_refl|].
  pose proof (dispatch_prims c r inflight id now) as Hd. destruct (dispatch_request c r inflight id now) as [[c1 r1] i1].
  etrans; [exact Hd|apply IH].
Qed.

Lemma abandon_prims r : prims r (abandon r).
Proof. unfold abandon. eapply rtc_l; [apply p_sender|]. apply rtc_once, p_buffered. Qed.

Lemma reclaim_all_prims r ids : prims r (fold_left reclaim_request ids r).
Proof.
  revert r. induction ids as [|id ids IH]; intros r; cbn [fold_left]; [apply rtc_refl|].
  eapply rtc_l; [apply p_reclaim|apply IH].
Qed.

Lemma expired_prims fuel r now ids : prims r (reclaim_expired_loop fuel r now ids).1.
Proof.
  revert r ids. induction fuel as [|fuel IH]; intros r ids; cbn [reclaim_expired_loop]; [apply rtc_refl|].
  destruct (first_expired_request r now) as [id|]; [|apply rtc_refl]. eapply rtc_l; [apply p_reclaim|apply IH].
Qed.

(** The drive after the expired requests are gone. *)
Lemma drive_prims c r inflight now t :
  let r' := (drive_requests capacity slots c r inflight now t).1.2 in
  if rejected (sender r) then r' = abandon r else prims (reclaim_expired_requests r now).1 r'.
Proof.
  unfold drive_requests. destruct (rejected (sender r)); [done|].
  destruct (reclaim_expired_requests r now) as [r1 expired]. cbn [fst].
  destruct (reclaim_stalled_sends _ now) as [s stalled].
  unfold receive_request_streams. cbn zeta. set (c1 := fold_left _ stalled _). set (r2 := r1 <| sender := s |>).
  pose proof (receive_streams_prims c1 (r2 <| readable_requests := [] |>) (readable_requests r2) now []) as Hr.
  destruct (receive_streams _ _ _ _ _ _ _) as [[c2 r3] finished]. cbn [fst snd] in Hr.
  assert (H0 : prims r1 r3) by (eapply rtc_l; [apply p_sender|]; eapply rtc_l; [apply p_readable|exact Hr]).
  etrans; [exact H0|]. destruct (rejected (sender r3)); [|apply dispatch_all_prims].
  etrans; [apply reclaim_all_prims|apply abandon_prims].
Qed.

Lemma stopped_prims c r id now : prims r (stopped_stream c r id now).1.2.
Proof.
  unfold stopped_stream. destruct (reject_stopped_local_critical_stream _ _) as [s []]; [apply prims_sender|].
  set (rec := bool_decide (id ∈ requests r)). set (un := rec || _). clearbody un.
  assert (H1 : prims r (if rec then reclaim_request r id else r)) by (destruct rec; [apply rtc_once, p_reclaim|apply rtc_refl]).
  set (r1 := if rec then _ else r) in *. clearbody r1. etrans; [exact H1|].
  eapply rtc_l; [apply (p_sender r1 (cancel_dispatched_request (sender r1) id))|]. destruct un; [|apply rtc_refl].
  destruct (charge_request_cancel _ _) as [s' []]; apply prims_sender.
Qed.

Lemma queue_prims r id : prims r (queue_readable_request r id).1.
Proof.
  unfold queue_readable_request. destruct (request_snapshots r !! id) as [s|] eqn:Es.
  - cbn [fst]. eapply rtc_l; [by apply (p_flag r id s true)|]. destruct (read_queued s); [apply rtc_refl|apply rtc_once, p_readable].
  - case_bool_decide; [apply rtc_once, p_readable|apply rtc_refl].
Qed.

(** ** Every state a connection reaches *)

Record inv (L : Z) (r : H3Requests) : Prop := {
  inv_acc : acc L 0 None r;
  inv_dom : dom_inv r;
  inv_dl : dl_inv r;
}.

Lemma prims_inv L r r' : prims r r' → inv L r → inv L r' ∧ share None r' = share None r.
Proof.
  induction 1 as [|r r1 r' Hp _ IH]; [done|]. intros [H1 H2 H3]. destruct (acc_prim L r r1 Hp H1) as [Ha Es].
  destruct IH as [Hi Es']; [split; [done|by eapply dom_prim|by eapply dl_prim]|]. split; [done|]. congruence.
Qed.

(** A snapshot as [request_snapshot] makes it. *)
Definition fresh (L : Z) (s : H3RequestSnapshot) : Prop :=
  deadline s = None ∧ max_connection_bytes (limits (config s)) <= L.

Lemma accept_inv L fuel c r n at_ accepting s :
  fresh L s → next_request_deadline_sequence r + Z.of_nat fuel <= U64_MAX → inv L r →
  let r' := (accept_streams fuel c r n at_ accepting s).2 in inv L r' ∧ share None r' = share None r.
Proof.
  intros [Hs HL]. revert c r n. induction fuel as [|fuel IH]; intros c r n Hn Hi; cbn [accept_streams]; [done|].
  destruct (quinn_accept_bi c) as [c1 [id|]]; [|done].
  destruct (admit_request_stream r (n + 1)) eqn:Ea; cbn [negb]; [|by apply (prims_inv L r); [apply prims_sender|]].
  assert (Hsz : Z.of_nat (size (requests r)) < 2 * MAX_CONCURRENT_BIDI_STREAMS)
    by (unfold admit_request_stream in Ea; apply negb_true_iff, orb_false_iff in Ea as [_ ?%Z.leb_gt]; lia).
  destruct accepting; [|apply IH; [lia|done]]. destruct Hi as [H1 H2 H3].
  destruct (acc_track L r id at_ s HL H1) as [Ha <-]. apply IH.
  - assert (Hk : next_request_deadline_sequence (track_request_stream r id at_ s) <= next_request_deadline_sequence r + 1).
    { unfold track_request_stream. case_bool_decide; [lia|]. destruct (timeout (config s)); cbn -[wrap Z.add]; [|lia].
      pose proof (l_next r H3). rewrite wrap_id; unfold U64_MAX in *; lia. }
    lia.
  - split; [done|by apply dom_track|apply dl_track; try done; lia].
Qed.

(** The events of a connection. [s_outside] is everything that leaves the requests alone: the
    peer's packets and the sending half. A connection accepts fewer than 2^62 streams. *)
Inductive step (L : Z) : Conn * H3Requests → Conn * H3Requests → Prop :=
| s_accept c r at_ accepting s :
    fresh L s → next_request_deadline_sequence r < 2 ^ 62 →
    step L (c, r) (accept_streams 257 c r 0 at_ accepting s)
| s_readable c r id : step L (c, r) (c, (queue_readable_request r id).1)
| s_stopped c r id now : step L (c, r) (stopped_stream c r id now).1
| s_drive c r inflight now t : step L (c, r) (drive_requests capacity slots c r inflight now t).1
| s_lost c r : step L (c, r) (c, let r := abandon r in r <| sender := (sender r) <| rejected := true |> |>)
| s_charge c r i : step L (c, r) (c, drop_charge r i)
| s_lease c r i : step L (c, r) (c, drop_task_lease r i)
| s_outside c r c' s : step L (c, r) (c', r <| sender := s |>).

(** Other connections reserve and release; what is ours stays reserved. *)
Inductive others (r : H3Requests) : H3Requests → Prop :=
| o_budget b b' :
    body_budget r = Some b → budget.max_bytes b' = budget.max_bytes b →
    ours r <= budget.in_flight b' <= budget.max_bytes b →
    others r (r <| body_budget := Some b' |>).

Lemma requests_step_inv L x y : step L x y → inv L x.2 → inv L y.2 ∧ share None y.2 = share None x.2.
Proof.
  intros Hs Hi. destruct Hs; cbn [snd] in *.
  - apply accept_inv; [done| |done]. unfold U64_MAX. lia.
  - apply (prims_inv L r); [apply queue_prims|done].
  - apply (prims_inv L r); [apply stopped_prims|done].
  - pose proof (drive_prims c r inflight now t) as Hd. cbv zeta in Hd. destruct (rejected (sender r)).
    + rewrite Hd. apply (prims_inv L r); [apply abandon_prims|done].
    + apply (prims_inv L r); [|done]. etrans; [apply expired_prims|exact Hd].
  - apply (prims_inv L r); [|done]. etrans; [apply abandon_prims|apply prims_sender].
  - apply (prims_inv L r); [apply rtc_once, p_charge|done].
  - apply (prims_inv L r); [apply rtc_once, p_lease|done].
  - apply (prims_inv L r); [apply prims_sender|done].
Qed.

Lemma others_inv L r r' : others r r' → inv L r → inv L r'.
Proof.
  intros [b b' Eb Em Hb] [H1 H2 H3]. split; [|by apply (dom_same r)|by apply (dl_same r)].
  destruct H1. split; try done.
  - intros _. apply a_held0. by eexists.
  - unfold budget_ok in *. rewrite Eb in a_budget0. cbn -[ours]. rewrite Em. intros Hm. destruct (a_budget0 Hm) as [? _].
    change (ours (r <| body_budget := Some b' |>)) with (ours r). split; [done|lia].
Qed.

(** A new connection. *)
Definition new_requests (budget_ : option budget.BodyBufferBudget) (s : H3SendState) : H3Requests :=
  {| requests := ∅; request_deadlines := []; next_request_deadline_sequence := 0; request_snapshots := ∅;
     readable_requests := []; req_buf := ∅; req_frames := ∅; body_budget := budget_; body_leases := ∅;
     total_req_bytes := 0; charges := []; task_leases := []; sender := s |}.

Inductive reachable (L : Z) : Conn * H3Requests → Prop :=
| r_new c b s :
    (∀ b0, b = Some b0 → budget.max_bytes b0 ≠ 0 →
       budget.max_bytes b0 < U64_MAX ∧ 0 <= budget.in_flight b0 <= budget.max_bytes b0) →
    reachable L (c, new_requests b s)
| r_step x y : reachable L x → step L x y → reachable L y
| r_others c r r' : reachable L (c, r) → others r r' → reachable L (c, r').

Lemma requests_reachable_inv L x : 0 <= L → reachable L x → inv L x.2.
Proof.
  intros HL. induction 1 as [c b s Hb|x y _ IH Hs|c r r' _ IH Ho].
  - cbn [snd]. split.
    + split; cbn; rewrite ?sum_map_empty; try done; [intros id [x Hx]; by rewrite lookup_empty in Hx|].
      unfold budget_ok, ours. cbn. destruct b as [b0|]; [|done]. rewrite sum_map_empty. intros Hm. destruct (Hb b0 eq_refl Hm). split; [done|]. lia.
    + split; cbn; try (intros id; rewrite lookup_empty; by intros []); [|by rewrite size_empty].
      intros id. rewrite lookup_empty. split; [set_solver|by intros []].
    + by apply (dl_empty 0).
  - by apply (requests_step_inv L x y Hs).
  - by eapply others_inv.
Qed.

(** *** Deadlines that passed *)

Definition late (now : Z) (r : H3Requests) : Prop := ∀ k, k ∈ request_deadlines r → now < when k.

Lemma late_prim now r r' : prim r r' → dl_inv r → late now r → late now r'.
Proof.
  intros Hp Hd Hl. assert (Hsub : ∀ r', (∀ k, k ∈ request_deadlines r' → k ∈ request_deadlines r) → late now r')
    by (intros r0 H0 k Hk; by apply Hl, H0).
  assert (Htake : ∀ id k, k ∈ request_deadlines (take_request_for_dispatch r id).1 → k ∈ request_deadlines r).
  { intros id k. pose proof (take_fields r id) as Ht. destruct (take_request_for_dispatch r id) as [r1 taken]. cbn [fst].
    destruct Ht as (_ & _ & _ & _ & _ & _ & _ & _ & _ & _ & _ & _ & _ & _ & ->). case_match; [|done]. by intros [? _]%key_remove_elem. }
  destruct Hp; try done.
  - unfold extend_request_deadline. destruct (request_snapshots r !! id) as [s|] eqn:Es; [|done].
    destruct (timeout (config s)) as [t|]; [|done]. destruct (deadline s) as [key|] eqn:Ek; [|done].
    destruct (progress s) as [p|]; [|done]. pose proof (extend_spec p (when key) buffered t now0) as Hx.
    destruct (extend p (when key) buffered t now0) as [[p' w'] []]; [|done]. destruct Hx as (_ & Hw & _).
    destruct (remove_key r id s key key Hd Es Ek) as (Hin & _ & _). specialize (Hl key Hin).
    intros k [->|[Hk _]%key_remove_elem]%key_insert_sub; cbn; [lia|]. by apply (Hsub r).
  - apply Hsub. intros k. unfold reclaim_request. specialize (Htake id k). destruct (take_request_for_dispatch r id) as [r1 taken].
    by destruct (drop_lease_shape (release_request_charge r1 (charged (frames taken))) (lease taken)) as [b ->].
  - apply Hsub. intros k. unfold reclaim_buffered_requests. destruct (fold_drop_shape (r <| requests := ∅ |> <| readable_requests := [] |>
      <| request_deadlines := [] |> <| request_snapshots := ∅ |> <| req_frames := ∅ |> <| req_buf := ∅ |> <| body_leases := ∅ |>)
      ((map_to_list (body_leases r)).*2)) as [b ->]. by intros ?%not_elem_of_nil.
  - apply Hsub. pose proof (append_request_fields r id octets (limits (config s))) as (_ & _ & -> & _). done.
  - apply Hsub. intros k. unfold to_task. specialize (Htake id k). by destruct (take_request_for_dispatch r id) as [r1 taken].
  - unfold drop_charge. by destruct (charges r !! i) as [[]|].
  - unfold drop_task_lease. destruct (task_leases r !! i) as [[id held]|]; [|done].
    by destruct (drop_lease_shape (r <| task_leases := take i (task_leases r) ++ drop (S i) (task_leases r) |>) (Some held)) as [b ->].
Qed.

Lemma late_prims L now r r' : prims r r' → inv L r → late now r → late now r'.
Proof.
  induction 1 as [|r r1 r' Hp _ IH]; [done|]. intros Hi Hl. apply IH.
  - by apply (prims_inv L r r1 (rtc_once _ _ Hp)).
  - eapply late_prim; [done|apply Hi|done].
Qed.

(** Reclaiming the stream of a deadline removes the deadline. *)
Lemma reclaim_shorter r k :
  dl_inv r → k ∈ request_deadlines r →
  (length (request_deadlines (reclaim_request r (stream k))) < length (request_deadlines r))%nat.
Proof.
  intros Hd Hk. unfold reclaim_request. pose proof (take_fields r (stream k)) as Ht.
  destruct (take_request_for_dispatch r (stream k)) as [r1 taken].
  destruct Ht as (_ & _ & _ & _ & _ & _ & _ & _ & _ & _ & _ & _ & _ & _ & Edl).
  destruct (drop_lease_shape (release_request_charge r1 (charged (frames taken))) (lease taken)) as [b ->]. cbn.
  rewrite Edl. pose proof (proj1 (l_keys r Hd k) Hk) as (s & Hs & Ek). rewrite Hs. cbn. rewrite Ek. by apply key_remove_length.
Qed.

Lemma first_expired_late r now : dl_inv r → first_expired_request r now = None → late now r.
Proof.
  intros [Hs _ _ _ _]. unfold first_expired_request, late. destruct (request_deadlines r) as [|k ks]; [by intros _ k ?%not_elem_of_nil|].
  cbn [hd_error]. destruct (Z.leb_spec (when k) now) as [|Hk]; [done|]. intros _ k' [->|Hin]%elem_of_cons; [done|].
  apply StronglySorted_inv in Hs as [_ Hf]. rewrite List.Forall_forall in Hf. apply list_elem_of_In in Hin.
  specialize (Hf k' Hin). rewrite key_lt_spec in Hf. lia.
Qed.

Lemma expired_rounds L fuel r now ids :
  inv L r → (length (request_deadlines r) <= fuel)%nat → late now (reclaim_expired_loop fuel r now ids).1.
Proof.
  revert r ids. induction fuel as [|fuel IH]; intros r ids Hi Hf; cbn [reclaim_expired_loop].
  { cbn [fst]. intros k Hk. destruct (request_deadlines r); [by apply not_elem_of_nil in Hk|cbn in Hf; lia]. }
  destruct (first_expired_request r now) as [id|] eqn:Ee; [|by apply first_expired_late; [apply Hi|]].
  apply IH; [by apply (prims_inv L r); [apply rtc_once, p_reclaim|]|].
  unfold first_expired_request in Ee. destruct (hd_error (request_deadlines r)) as [k|] eqn:Eh; [|done]. destruct (when k <=? now); [|done].
  injection Ee as <-. assert (Hk : k ∈ request_deadlines r) by (destruct (request_deadlines r); [done|injection Eh as ->; left]).
  pose proof (reclaim_shorter r k (inv_dl L r Hi) Hk). lia.
Qed.

(** C3. Whatever a peer sends, resets and stops and however tasks end, the octets a
    connection counts are exactly those charged to the streams it receives and the requests
    it dispatched, within its limit; it receives at most 512 streams and keeps buffers for
    no other; each stream's lease is what it is charged, all leases together are within the
    server's budget, and no step changes what other connections hold of it. *)
Theorem h3_requests_accounted L c r :
  0 <= L → reachable L (c, r) →
  total_req_bytes r = sum_map charged (req_frames r) + sum2 (charges r) ∧
  0 <= total_req_bytes r <= L ∧
  Z.of_nat (size (requests r)) <= 2 * MAX_CONCURRENT_BIDI_STREAMS ∧
  (∀ id, is_Some (req_frames r !! id) ∨ is_Some (req_buf r !! id) → id ∈ requests r) ∧
  (∀ b, body_budget r = Some b →
     (∀ id, default 0 (body_leases r !! id) = default 0 (charged <$> req_frames r !! id)) ∧
     (budget.max_bytes b ≠ 0 → ours r <= budget.in_flight b <= budget.max_bytes b)) ∧
  (∀ y, step L (c, r) y → share None y.2 = share None r).
Proof.
  intros HL Hr. apply (requests_reachable_inv L _ HL) in Hr as Hi. cbn [snd] in Hi.
  assert (Hsh : ∀ y, step L (c, r) y → share None y.2 = share None r) by (intros y Hy; by apply (requests_step_inv L _ y Hy)).
  destruct Hi as [Ha Hd _]. split; [|split; [|split; [|split; [|split; [|exact Hsh]]]]].
  - rewrite (a_total _ _ _ _ Ha). lia.
  - pose proof (charged_nonneg _ _ _ _ Ha). pose proof (sum2_nonneg _ (a_charges _ _ _ _ Ha)).
    pose proof (a_total _ _ _ _ Ha). pose proof (a_bound _ _ _ _ Ha). lia.
  - apply Hd.
  - destruct Hd. intros id [?|?]; auto.
  - intros b Eb. split; [apply (a_held _ _ _ _ Ha); by eexists|]. intros Hm. pose proof (a_budget _ _ _ _ Ha) as Hb.
    unfold budget_ok in Hb. rewrite Eb in Hb. destruct (Hb Hm). change (default 0 None) with 0 in *. lia.
Qed.


End conn.

End prims.

(** ** A connection to run the model on *)

(** Streams to accept, and what each has to read. *)
Record tconn := { incoming : list Z; inbox : gmap Z (list (list Z) * ReadEnd) }.

#[local] Instance tconn_quinn : Quinn tconn := {|
  quinn_write c _ d := (c, Ok (zlen d));
  quinn_finish c _ := (c, true);
  quinn_reset c _ _ := c;
  quinn_open_uni c := (c, None);
  sent _ _ := [];
  fin_sent _ _ := false;
  opened _ := ∅;
|}.

#[local] Instance tconn_recv : QuinnRecv tconn := {|
  quinn_available c id := default ([], ROpen) (inbox c !! id);
  quinn_consumed c id n :=
    {| incoming := incoming c;
       inbox := match inbox c !! id with Some (chunks, e) => <[id := (drop n chunks, e)]> (inbox c) | None => inbox c end |};
  quinn_stop c _ _ := c;
  quinn_accept_bi c :=
    match incoming c with
    | id :: ids => ({| incoming := ids; inbox := inbox c |}, Some id)
    | [] => (c, None)
    end;
  quinn_close c _ := c;
|}.

(** Two streams, of which one has sent the start of a HEADERS frame. *)
Definition example_conn : tconn :=
  {| incoming := [0; 4]; inbox := {[0 := ([[1; 3]; [0; 0]], ROpen)]} |}.

Definition example_snapshot : H3RequestSnapshot :=
  {| config := config_new (limits_new 16 16) (Some 100); deadline := None; progress := None; read_queued := false |}.

Definition example_budget : budget.BodyBufferBudget := budget.new 1000.

Definition accepted : tconn * H3Requests :=
  accept_streams 257 example_conn (new_requests (Some example_budget) (h3_send_theorems.send_empty ∅)) 0 10 true example_snapshot.

Definition driven : tconn * H3Requests := (drive_requests zlen zlen accepted.1 accepted.2 0 50 None).1.

Lemma accepted_reachable : reachable zlen zlen 70000 accepted.
Proof.
  eapply r_step; [apply (r_new zlen zlen 70000 example_conn (Some example_budget) (h3_send_theorems.send_empty ∅))|].
  - intros b0 [= <-] _. cbn. unfold U64_MAX. lia.
  - apply s_accept; [split; [done|cbn; unfold U64_MAX, saturating_add, saturating_mul; lia]|cbn; lia].
Qed.

#[local] Opaque accepted.

Lemma driven_reachable : reachable zlen zlen 70000 driven.
Proof.
  eapply r_step; [exact accepted_reachable|]. pose proof (s_drive zlen zlen 70000 accepted.1 accepted.2 0 50 None) as Hs.
  rewrite <- surjective_pairing in Hs. fold driven in Hs. exact Hs.
Qed.

#[local] Opaque driven.

Lemma h3_requests_accounted_witness :
  total_req_bytes driven.2 = 4 ∧
  total_req_bytes driven.2 = sum_map charged (req_frames driven.2) + sum2 (charges driven.2).
Proof.
  split; [vm_cast_no_check (@eq_refl Z 4)|].
  refine (proj1 (h3_requests_accounted zlen zlen zlen_nonneg zlen_nonneg 70000 driven.1 driven.2 _ _)); [lia|].
  rewrite <- surjective_pairing. exact driven_reachable.
Defined.


End h3_requests_theorems.
